(* ===== verification/_CoqProject ===== *)
-Q . S2P
Prelude.v
Coding.v
Comparator.v
PageFormat.v
DataPage.v
Regions.v
DataPageIter.v
RegionCopy.v
IndexPage.v
IndexPageIter.v
MappingTable.v
PageMapper.v
CowStore.v
Provenance.v
PageIo.v
Overflow.v
CowPages.v
LargeValue.v
ApplyPage.v
ApplySpec.v
FileNames.v
Branch.v
Manifest.v
ManifestSpec.v
Recovery.v
RecoverySpec.v
FlushSpec.v
Durability.v
Branching.v
FileGc.v
FileGcSpec.v
Tree.v
ReadPath.v
ReadSpec.v
ScanPath.v
ScanSpec.v
BatchTask.v
IndexStack.v
ApplyBatch.v
TaskSpec.v
LeafSpec.v
MergeSim.v
LeafMerge.v
RebuildSpec.v
Balance.v
TreeZip.v
StackSpec.v
RoundSpec.v
BatchSpec.v
MemStore.v
BatchRead.v
BatchLoss.v
