(* ===== verification/Prelude.v ===== *)
(** * EloqStore: a verified model of the storage engine

    EloqStore is a key-value store.  A partition is a B+-tree of pages whose
    leaves are linked data pages.  A batch of writes works on a private copy of
    the mapping from page ids to file pages, writes every changed page to a fresh
    file page and publishes its mapping at the end, while readers keep the
    mapping they started with.  The library models the parts below and proves
    what they promise to each other; definitions follow the C++ sources under
    src/src and src/include and keep their names.

    Files, in dependency order, and what they model:

    - Prelude: machine integers (a [Z] with its wrap-around written out), byte
      strings (lists of integers), cuts of lists at integer offsets, tactics.
    - Coding (include/coding.h, src/coding.cpp): fixed-width, big-endian, varint
      and delta codings; every coding is inverted by its decoder.
    - Comparator (src/comparator.cpp): bytewise order of keys, separators.
    - PageFormat: page buffers, header fields, and the reference format of a page
      made of regions of prefix-compressed entries with a restart array.
    - DataPage (src/storage/data_page_builder.cpp): [DataPageBuilder]; a finished
      page is the reference encoding of what was added.
    - Regions, DataPageIter (src/storage/data_page.cpp): positions in a page, and
      [DataPageIter]; iteration returns the added entries, [Seek] and [SeekFloor]
      find the right one.
    - RegionCopy (FastPageBuilder, PageRegionIter and
      BatchWriteTask::Redistribute for data pages): rebalancing two neighbours.
    - IndexPage, IndexPageIter (src/storage/index_page_builder.cpp,
      src/storage/mem_cached_page.cpp): index pages, with the same results.
    - MappingTable (src/storage/page_mapper.cpp, MappingTbl): the chunked mapping
      table as a growing array, and copying it while other tasks write to it.
    - PageMapper (same file): page ids with their free list, and the two
      allocators of file pages.
    - CowStore (page_mapper.cpp, page_manager.cpp, write_task.cpp): snapshots,
      write tasks and readers of a partition as a transition system
      ([store_step], [store_reach]); its invariant is [store_inv].  Provenance:
      from where the file pages of a store come in a history, and which are lost.
    - PageIo: place of a file page in its file, checksums, and the class
      [PageStore] with its laws, which is what the value writers need from the
      page layer.
    - Overflow (data_page.cpp, batch_write_task.cpp, task.cpp): values cut into
      linked groups of overflow pages, over any [PageStore].
    - CowPages: a write task of CowStore is a [PageStore]; overflow values in a
      partition.
    - LargeValue (include/storage/data_page.h): references to very large values.
    - ApplyPage, ApplySpec (batch_write_task.cpp): merging a batch of changes into
      a leaf with the updates of the TTL index, and what it amounts to.
    - FileNames (include/common.h, types.h, types.cpp): names of data, segment,
      manifest, archive and term files, branch names, table identifiers.
    - Branch (common.h, types.h, async_io_manager.cpp): which branch and term
      wrote a file, its recording at an allocation, and its serialisation.
    - Manifest (storage/root_meta.cpp, replayer.cpp): [ManifestBuilder] and
      [Replayer].  ManifestSpec: the state a manifest describes, as tables of
      words and log entries, and that a replay computes it.
    - Recovery (write_task.cpp, replayer.cpp, page_manager.cpp): [FlushManifest],
      rebuilding the mappers, loading a partition.  RecoverySpec and FlushSpec:
      what they compute in terms of ManifestSpec.
    - Durability: CowStore with its manifest as a transition system with failed
      flushes, crashes and restarts ([sys_step], [sys_reach]); its invariant is
      [sys_inv].
    - Branching (tasks/background_write.cpp, async_io_manager.cpp):
      [CreateBranch], the snapshot of an archive, and the files in which the pages
      of a branch are written and looked for.
    - FileGc, FileGcSpec (file_gc.cpp, write_task.cpp): which files a collection
      deletes, in a directory and in an object store, and that none is in use.
    - Tree: links of leaves, and the reference model of a tree of pages with its
      leaves and entries ([partition]).
    - ReadPath, ReadSpec (tasks/read_task.cpp, task.cpp, page_manager.cpp): point
      reads and floors.  ScanPath, ScanSpec (tasks/scan_task.cpp): the iterator
      over leaves with its stack of index pages and prefetching, and range scans.
    - BatchTask, IndexStack, ApplyBatch (batch_write_task.cpp,
      write_tree_stack.h, write_task.cpp): a batch write task over any page store
      of the class [TaskPages]: the links between leaves ([LeafLinkInsert],
      [LeafLinkDelete]), the leaves that wait in memory, the stack of index pages
      with their pending changes ([SeekStack], [SeekLeaf], [Pop]), the rebuilding
      and rebalancing of index pages, and [ApplyBatch].
    - TaskSpec: what a task needs from its pages ([TaskPagesLaws]), and the list of
      leaves as a task sees it.  LeafSpec, MergeSim, LeafMerge: replacing a leaf by
      the leaves of a merge keeps the list linked.  Balance, RebuildSpec: an index
      page and its changes become the index pages of the changed pointers.
      TreeZip, StackSpec: the stack is a path in a tree of pages.  RoundSpec,
      BatchSpec: one round of [ApplyBatch], and all of it.
    - MemStore: pages in memory as a [TaskPages] store.  BatchRead: a batch and
      the reads after it.  BatchLoss: a batch that loses a key.

    What the groups of theorems show:

    - Snapshots: a reader sees one state as long as it holds it
      ([snapshot_isolation]), a batch takes effect as a whole or not at all
      ([batch_atomic]), file pages are not reused while a snapshot needs them
      ([allocated_page_unseen]).
    - Durability: after a crash the partition is that of the last commit
      ([crash_safe]), a commit gets through ([commit_succeeds]), a manifest
      replays to what was written ([replay_manifest]).
    - Branches: a branch maps the pages of its parent and allocates file pages
      above the parent's files, in append mode always, otherwise except for pages
      it inherited ([branch_off_parent_files]); a page that is reused in this way is
      written and read in different files ([recycled_page_misplaced]).  Allocations keep the recorded writer of every
      file ([stamp_keeps_attribution]), file names parse back
      ([file_names_roundtrip]).
    - Collection: files that a snapshot, an archive or a recognised manifest
      uses, and files that a branch may still be writing, are kept
      ([gc_keeps_live_files], [cloud_gc_keeps_live_files]); others go
      ([gc_reclaims_garbage]).  The manifests of a branch whose name is a number are
      not recognised ([numeric_branch_loses_files]).
    - Batches: a merged leaf has the entries of the leaf and the batch, and the
      TTL index follows ([apply_page_merges], [apply_page_ttl_index]).  A batch
      turns a tree into a tree with the merged entries and loses no page
      ([apply_batch_merges]); entries that expired may stay where no change touches
      their key.  Reads find what the batch wrote, also values outside the pages
      ([read_after_batch]).  Both hold for keys short enough for an index page to be
      rebalanced ([balance_fits]), which with the default options means at most 18
      bytes; with longer keys a batch may lose keys ([rebalance_loses_key]).
    - Reading: in a tree of pages a read, a floor and a scan return the entries
      they should, in as many rounds as the tree has levels
      ([read_finds_entry], [floor_finds_entry], [scan_returns_range]); a floor may
      carry the large-value flag and the expiry of the entry behind it
      ([floor_loses_value]).
    - Pages: what is built is what is read, sought and rebalanced.
    - Values: overflow values and references to large values are stored, read
      back and deleted without touching other pages.
    - Mapping: the table refines an array, page ids and file pages in use are
      not handed out again.
    - Codings and keys: round trips, widths and order.
    - A few theorems exhibit behaviour of the code that its comments do not
      promise: [freed_page_lost], [seek_floor_stale_fields],
      [copy_shares_detached_pointer], [growth_during_copy_out_of_range],
      [page_id_link_width], [dropped_record_returns], [branch_drops_segments],
      [numeric_branch_loses_files], [local_gc_takes_snapshot_segments],
      [floor_loses_value], [rebalance_loses_key], [recycled_page_misplaced].

    Conventions.  [None] stands for a failed assertion, an access outside a
    buffer, an I/O error or another outcome the C++ code leaves undefined; every
    correctness theorem shows that it does not occur.  Loops that are not
    structural take fuel: the length of the input where each round consumes
    some of it, the number of pages of a list of overflow pages, or the height
    of a tree; the theorems show that this fuel suffices.  A batch may raise the
    tree: [ApplyBatch] gets the height and 32, as the number of pages limits the
    levels that a batch adds ([batch_room]).  Snapshot numbers stand for object
    addresses.
    A page id is below 2^29 ([max_pages]) because of the width of a free-list
    link ([page_id_link_width]).  A buffer from the page pool has arbitrary
    content.  The hash function of checksums is a parameter with values of 64 bits.
    A crash keeps the complete records of the manifest and leaves behind them
    nothing, the beginning of a record, or bytes whose checksum is wrong.  A
    record that lacks only padding is dropped by one restart ([replay_manifest])
    but comes back after the next append ([dropped_record_returns]), so the crashes
    of Durability exclude it.

    Not modelled: asynchronous I/O, cloud and standby services, compression
    (third-party code and system calls); the page cache, except for what copying
    a mapping sees of it; and, planned as further files on top of these:
    truncation, compaction, task queues. *)

From Stdlib Require Export ZArith Lia.
From stdpp Require Export base list list_numbers option.

Open Scope Z_scope.

(** ** Bytes and machine integers

    A byte string ([std::string], [std::string_view], [char *] with a limit) is
    a list of integers, each in [0, 256).  A machine integer is a [Z] and the
    wrap-around of its width is written out. *)
Abbreviation bytes := (list Z).

Definition is_byte (b : Z) : Prop := 0 <= b < 256.

Definition u8 (z : Z) : Z := z mod 2 ^ 8.
Definition u16 (z : Z) : Z := z mod 2 ^ 16.
Definition u32 (z : Z) : Z := z mod 2 ^ 32.
Definition u64 (z : Z) : Z := z mod 2 ^ 64.

(** Conversion to a signed integer of [w] bits (two's complement). *)
Definition swrap (w z : Z) : Z := (z + 2 ^ (w - 1)) mod 2 ^ w - 2 ^ (w - 1).
Definition i32 (z : Z) : Z := swrap 32 z.
Definition i64 (z : Z) : Z := swrap 64 z.

Definition is_u8 (z : Z) : Prop := 0 <= z < 2 ^ 8.
Definition is_u16 (z : Z) : Prop := 0 <= z < 2 ^ 16.
Definition is_u32 (z : Z) : Prop := 0 <= z < 2 ^ 32.
Definition is_u64 (z : Z) : Prop := 0 <= z < 2 ^ 64.
Definition is_i32 (z : Z) : Prop := - 2 ^ 31 <= z < 2 ^ 31.
Definition is_i64 (z : Z) : Prop := - 2 ^ 63 <= z < 2 ^ 63.

(** Length of a byte string as an integer ([size_t]). *)
Definition zlen {A} (l : list A) : Z := Z.of_nat (length l).

(** ** Automation *)
Create HintDb eloq discriminated.

(** Unfold the width predicates and the length abbreviation, then [lia]. *)
Ltac width :=
  unfold is_byte, is_u8, is_u16, is_u32, is_u64, is_i32, is_i64, zlen in *;
  change (2 ^ 8) with 256 in *; change (2 ^ 16) with 65536 in *;
  change (2 ^ 31) with 2147483648 in *; change (2 ^ 32) with 4294967296 in *;
  change (2 ^ 63) with 9223372036854775808 in *;
  change (2 ^ 64) with 18446744073709551616 in *;
  lia.

(** Case analysis on the boolean test of an [if] in the goal. *)
Ltac case_if :=
  match goal with
  | |- context [if (?a <? ?b) then _ else _] => destruct (Z.ltb_spec a b)
  | |- context [if (?a <=? ?b) then _ else _] => destruct (Z.leb_spec a b)
  | |- context [if (?a =? ?b) then _ else _] => destruct (Z.eqb_spec a b)
  end.

(** ** Integers *)
Lemma u16_id z : is_u16 z -> u16 z = z.
Proof. apply Z.mod_small. Qed.

Lemma u32_id z : is_u32 z -> u32 z = z.
Proof. apply Z.mod_small. Qed.

Lemma u64_id z : is_u64 z -> u64 z = z.
Proof. apply Z.mod_small. Qed.

Lemma u8_id z : is_byte z -> u8 z = z.
Proof. apply Z.mod_small. Qed.

Lemma u8_is_byte z : is_byte (u8 z).
Proof. apply (Z.mod_pos_bound z (2 ^ 8)); lia. Qed.

Lemma u16_range z : is_u16 (u16 z).
Proof. apply Z.mod_pos_bound; lia. Qed.

Lemma u32_range z : is_u32 (u32 z).
Proof. apply Z.mod_pos_bound; lia. Qed.

Lemma u64_range z : is_u64 (u64 z).
Proof. apply Z.mod_pos_bound; lia. Qed.

Lemma swrap_id w z : 0 < w -> - 2 ^ (w - 1) <= z < 2 ^ (w - 1) -> swrap w z = z.
Proof.
  intros Hw Hz. unfold swrap.
  assert (2 ^ w = 2 * 2 ^ (w - 1)) as ->
    by (rewrite <- Z.pow_succ_r by lia; f_equal; lia).
  rewrite Z.mod_small by lia. lia.
Qed.

Lemma i32_id z : is_i32 z -> i32 z = z.
Proof. intros. apply swrap_id; [lia|]. change (32 - 1) with 31. width. Qed.

Lemma i64_id z : is_i64 z -> i64 z = z.
Proof. intros. apply swrap_id; [lia|]. change (64 - 1) with 63. width. Qed.

(** Two's complement conversion undoes unsigned wrap-around. *)
Lemma swrap_mod w z :
  0 < w -> - 2 ^ (w - 1) <= z < 2 ^ (w - 1) -> swrap w (z mod 2 ^ w) = z.
Proof.
  intros Hw Hz. unfold swrap.
  rewrite Z.add_mod_idemp_l by (apply Z.pow_nonzero; lia).
  exact (swrap_id w z Hw Hz).
Qed.

Lemma i32_u32 z : is_i32 z -> i32 (u32 z) = z.
Proof. intros. apply swrap_mod; [lia|]. change (32 - 1) with 31. width. Qed.

Lemma i64_u64 z : is_i64 z -> i64 (u64 z) = z.
Proof. intros. apply swrap_mod; [lia|]. change (64 - 1) with 63. width. Qed.

#[export] Hint Resolve u8_is_byte u16_range u32_range u64_range : eloq.

(** ** Bits *)

(** A number below [2 ^ n] and a multiple of [2 ^ n] have disjoint bits: their
    bitwise or is their sum. *)
Lemma lor_disjoint a b n :
  0 <= n -> 0 <= a < 2 ^ n -> 0 <= b -> Z.lor a (Z.shiftl b n) = a + b * 2 ^ n.
Proof.
  intros Hn Ha Hb.
  assert (Hd : Z.land a (Z.shiftl b n) = 0).
  { apply Z.bits_inj'. intros i Hi. rewrite Z.land_spec, Z.bits_0.
    destruct (Z.ltb_spec i n).
    - rewrite Z.shiftl_spec_low by lia. apply andb_false_r.
    - rewrite <- (Z.mod_small a (2 ^ n)) by lia.
      rewrite Z.mod_pow2_bits_high by lia. reflexivity. }
  rewrite <- Z.lxor_lor, <- Z.add_nocarry_lxor, Z.shiftl_mul_pow2; auto; lia.
Qed.

(** Testing one bit with a mask, as C's [v & 1] and [v & 128] do. *)
Lemma land_one a : Z.land a 1 = a mod 2.
Proof. exact (Z.land_ones a 1 ltac:(lia)). Qed.

Lemma land_ones_mod a n : 0 <= n -> Z.land a (2 ^ n - 1) = a mod 2 ^ n.
Proof. intros. rewrite <- Z.land_ones by lia. f_equal. rewrite Z.ones_equiv. lia. Qed.

(** ** Codecs

    What an encoder and its decoder promise to their callers: the decoder reads
    back a valid value from the front of any buffer and leaves the bytes after
    it. *)
Class Codec {A} (ok : A -> Prop) (enc : A -> bytes)
    (dec : bytes -> option (A * bytes)) : Prop :=
  codec_app : forall a rest, ok a -> dec (enc a ++ rest) = Some (a, rest).

(** ** Byte strings cut at integer offsets *)
Definition zdrop {A} (n : Z) (l : list A) : list A := drop (Z.to_nat n) l.
Definition ztake {A} (n : Z) (l : list A) : list A := take (Z.to_nat n) l.

Section cuts.
  Context {A : Type}.
  Implicit Types a b l : list A.

Lemma zlen_nonneg l : 0 <= zlen l.
Proof. unfold zlen. lia. Qed.

Lemma zlen_nil : zlen (@nil A) = 0.
Proof. reflexivity. Qed.

Lemma zlen_cons x l : zlen (x :: l) = 1 + zlen l.
Proof. unfold zlen. cbn [length]. lia. Qed.

Lemma zlen_app a b : zlen (a ++ b) = zlen a + zlen b.
Proof. unfold zlen. rewrite length_app. lia. Qed.

Lemma zlen_zero l : zlen l = 0 -> l = [].
Proof. destruct l; [reflexivity|]. rewrite zlen_cons. pose proof (zlen_nonneg l). lia. Qed.

Lemma zdrop_0 l : zdrop 0 l = l.
Proof. reflexivity. Qed.

Lemma zdrop_app a b : zdrop (zlen a) (a ++ b) = b.
Proof. unfold zdrop, zlen. rewrite Nat2Z.id. apply drop_app_length. Qed.

Lemma zdrop_app_add a b n : 0 <= n -> zdrop (zlen a + n) (a ++ b) = zdrop n b.
Proof.
  intros. unfold zdrop, zlen. rewrite Z2Nat.inj_add, Nat2Z.id by lia.
  apply drop_app_add.
Qed.

Lemma zdrop_app_le a b n : 0 <= n <= zlen a -> zdrop n (a ++ b) = zdrop n a ++ b.
Proof. unfold zdrop, zlen. intros. apply drop_app_le. lia. Qed.

Lemma ztake_app a b : ztake (zlen a) (a ++ b) = a.
Proof. unfold ztake, zlen. rewrite Nat2Z.id. apply take_app_length. Qed.

Lemma ztake_all a : ztake (zlen a) a = a.
Proof. unfold ztake, zlen. rewrite Nat2Z.id. apply firstn_all. Qed.

Lemma zlen_zdrop n l : 0 <= n <= zlen l -> zlen (zdrop n l) = zlen l - n.
Proof. unfold zlen, zdrop. intros. rewrite length_drop. lia. Qed.

Lemma zlen_ztake n l : 0 <= n <= zlen l -> zlen (ztake n l) = n.
Proof. unfold zlen, ztake. intros. rewrite length_take. lia. Qed.

Lemma zdrop_zdrop n m l : 0 <= n -> 0 <= m -> zdrop n (zdrop m l) = zdrop (m + n) l.
Proof.
  intros. unfold zdrop. rewrite Z2Nat.inj_add, skipn_skipn by lia. f_equal. lia.
Qed.

Lemma ztake_app_ge a b n : zlen a <= n -> ztake n (a ++ b) = a ++ ztake (n - zlen a) b.
Proof. unfold ztake, zlen. intros. rewrite take_app_ge by lia. do 2 f_equal. lia. Qed.

Lemma zdrop_all l : zdrop (zlen l) l = [].
Proof. unfold zdrop, zlen. rewrite Nat2Z.id. apply drop_all. Qed.

Lemma ztake_zdrop n l : ztake n l ++ zdrop n l = l.
Proof. apply take_drop. Qed.
End cuts.

(** [lia] with the lengths that occur in the goal and the context known to be
    non-negative. *)
Ltac zlen_facts :=
  repeat match goal with
  | |- context [zlen ?l] =>
      lazymatch goal with
      | H : 0 <= zlen l |- _ => fail
      | _ => pose proof (zlen_nonneg l)
      end
  | _ : context [zlen ?l] |- _ =>
      lazymatch goal with
      | H : 0 <= zlen l |- _ => fail
      | _ => pose proof (zlen_nonneg l)
      end
  end.

Ltac zlia := zlen_facts; lia.
