(* ===== verification/Coding.v ===== *)
(** * Integer codings (include/coding.h, src/coding.cpp)

    Fixed-width little-endian integers, varints and sign-folded deltas.  Writers
    return the bytes they append; readers take the bytes from the cursor to the
    limit and return the value with the bytes after it.  [None] is the null
    pointer (or [false]) of the varint readers, and a read past the limit for
    the fixed-width readers, which do no bounds checking. *)

From S2P Require Import Prelude.

(** ** Fixed-width integers *)
Definition EncodeFixed16 (value : Z) : bytes :=
  [u8 value; u8 (Z.shiftr value 8)].

Definition EncodeFixed32 (value : Z) : bytes :=
  [u8 value; u8 (Z.shiftr value 8); u8 (Z.shiftr value 16);
   u8 (Z.shiftr value 24)].

Definition EncodeFixed64 (value : Z) : bytes :=
  [u8 value; u8 (Z.shiftr value 8); u8 (Z.shiftr value 16);
   u8 (Z.shiftr value 24); u8 (Z.shiftr value 32); u8 (Z.shiftr value 40);
   u8 (Z.shiftr value 48); u8 (Z.shiftr value 56)].

Definition DecodeFixed16 (ptr : bytes) : option Z :=
  match ptr with
  | b0 :: b1 :: _ => Some (u16 (Z.lor b0 (Z.shiftl b1 8)))
  | _ => None
  end.

Definition DecodeFixed32 (ptr : bytes) : option Z :=
  match ptr with
  | b0 :: b1 :: b2 :: b3 :: _ =>
      Some (u32 (Z.lor (Z.lor (Z.lor b0 (Z.shiftl b1 8)) (Z.shiftl b2 16))
                       (Z.shiftl b3 24)))
  | _ => None
  end.

Definition DecodeFixed64 (ptr : bytes) : option Z :=
  match ptr with
  | b0 :: b1 :: b2 :: b3 :: b4 :: b5 :: b6 :: b7 :: _ =>
      Some (u64 (Z.lor (Z.lor (Z.lor (Z.lor (Z.lor (Z.lor (Z.lor
              b0 (Z.shiftl b1 8)) (Z.shiftl b2 16)) (Z.shiftl b3 24))
              (Z.shiftl b4 32)) (Z.shiftl b5 40)) (Z.shiftl b6 48))
              (Z.shiftl b7 56)))
  | _ => None
  end.

Definition PutFixed16 (dst : bytes) (value : Z) : bytes := dst ++ EncodeFixed16 value.
Definition PutFixed32 (dst : bytes) (value : Z) : bytes := dst ++ EncodeFixed32 value.
Definition PutFixed64 (dst : bytes) (value : Z) : bytes := dst ++ EncodeFixed64 value.

(** [__builtin_bswap64] and [__builtin_bswap32] on a little-endian machine: the
    bytes of the value, read in the opposite order. *)
Definition ToBigEndian64 (value : Z) : Z :=
  Z.lor (Z.lor (Z.lor (Z.lor (Z.lor (Z.lor (Z.lor
    (u8 (Z.shiftr value 56)) (Z.shiftl (u8 (Z.shiftr value 48)) 8))
    (Z.shiftl (u8 (Z.shiftr value 40)) 16)) (Z.shiftl (u8 (Z.shiftr value 32)) 24))
    (Z.shiftl (u8 (Z.shiftr value 24)) 32)) (Z.shiftl (u8 (Z.shiftr value 16)) 40))
    (Z.shiftl (u8 (Z.shiftr value 8)) 48)) (Z.shiftl (u8 value) 56).

Definition ToBigEndian32 (value : Z) : Z :=
  Z.lor (Z.lor (Z.lor
    (u8 (Z.shiftr value 24)) (Z.shiftl (u8 (Z.shiftr value 16)) 8))
    (Z.shiftl (u8 (Z.shiftr value 8)) 16)) (Z.shiftl (u8 value) 24).

Definition BigEndianToNative64 (value : Z) : Z := ToBigEndian64 value.
Definition BigEndianToNative32 (value : Z) : Z := ToBigEndian32 value.

(** ** Varints *)
Definition EncodeVarint32 (v : Z) : bytes :=
  if v <? Z.shiftl 1 7 then [u8 v]
  else if v <? Z.shiftl 1 14 then [u8 (Z.lor v 128); u8 (Z.shiftr v 7)]
  else if v <? Z.shiftl 1 21 then
    [u8 (Z.lor v 128); u8 (Z.lor (Z.shiftr v 7) 128); u8 (Z.shiftr v 14)]
  else if v <? Z.shiftl 1 28 then
    [u8 (Z.lor v 128); u8 (Z.lor (Z.shiftr v 7) 128);
     u8 (Z.lor (Z.shiftr v 14) 128); u8 (Z.shiftr v 21)]
  else
    [u8 (Z.lor v 128); u8 (Z.lor (Z.shiftr v 7) 128);
     u8 (Z.lor (Z.shiftr v 14) 128); u8 (Z.lor (Z.shiftr v 21) 128);
     u8 (Z.shiftr v 28)].

Definition Varint32Size (v : Z) : Z :=
  if v <? Z.shiftl 1 7 then 1
  else if v <? Z.shiftl 1 14 then 2
  else if v <? Z.shiftl 1 21 then 3
  else if v <? Z.shiftl 1 28 then 4
  else 5.

(** The [while (v >= B)] loops.  A 64-bit value takes at most nine iterations,
    so nine steps of fuel are enough (EncodeVarint64_step). *)
Fixpoint EncodeVarint64_loop (fuel : nat) (v : Z) : bytes :=
  match fuel with
  | O => [u8 v]
  | S fuel' =>
      if 128 <=? v then u8 (Z.lor v 128) :: EncodeVarint64_loop fuel' (Z.shiftr v 7)
      else [u8 v]
  end.

Definition EncodeVarint64 (v : Z) : bytes := EncodeVarint64_loop 9 v.

Fixpoint Varint64Size_loop (fuel : nat) (value bytes_ : Z) : Z :=
  match fuel with
  | O => bytes_
  | S fuel' =>
      if 128 <=? value then Varint64Size_loop fuel' (Z.shiftr value 7) (bytes_ + 1)
      else bytes_
  end.

Definition Varint64Size (value : Z) : Z := Varint64Size_loop 9 value 1.
Definition VarintLength (v : Z) : Z := Varint64Size_loop 9 v 1.

Definition PutVarint32 (dst : bytes) (v : Z) : bytes := dst ++ EncodeVarint32 v.
Definition PutVarint64 (dst : bytes) (v : Z) : bytes := dst ++ EncodeVarint64 v.

(** The decoding loop shared by both widths: [w] is the width of [result] and
    [last] the last shift the loop condition admits. *)
Fixpoint GetVarint_loop (w last shift result : Z) (p : bytes) : option (Z * bytes) :=
  match p with
  | [] => None
  | byte :: p' =>
      if last <? shift then None
      else if negb (Z.land byte 128 =? 0) then
        GetVarint_loop w last (shift + 7)
          (Z.lor result (Z.shiftl (Z.land byte 127) shift mod 2 ^ w)) p'
      else Some (Z.lor result (Z.shiftl byte shift mod 2 ^ w), p')
  end.

Definition GetVarint32PtrFallback (p : bytes) : option (Z * bytes) :=
  GetVarint_loop 32 28 0 0 p.

Definition GetVarint32Ptr (p : bytes) : option (Z * bytes) :=
  match p with
  | result :: p' =>
      if Z.land result 128 =? 0 then Some (result, p') else GetVarint32PtrFallback p
  | [] => GetVarint32PtrFallback p
  end.

Definition GetVarint64Ptr (p : bytes) : option (Z * bytes) :=
  GetVarint_loop 64 63 0 0 p.

Definition GetVarint32 (input : bytes) : option (Z * bytes) := GetVarint32Ptr input.
Definition GetVarint64 (input : bytes) : option (Z * bytes) := GetVarint64Ptr input.

(** ** Sign-folded deltas: the lowest bit holds the sign *)
Definition EncodeInt32Delta (delta : Z) : Z :=
  if 0 <=? delta then u32 (i32 (Z.shiftl delta 1))
  else u32 (Z.lor (i32 (Z.shiftl (i32 (- delta)) 1)) 1).

Definition DecodeInt32Delta (val : Z) : Z :=
  if Z.land val 1 =? 1 then i32 (u32 (- Z.shiftr val 1)) else i32 (Z.shiftr val 1).

Definition EncodeInt64Delta (delta : Z) : Z :=
  if 0 <=? delta then u64 (i64 (Z.shiftl delta 1))
  else u64 (Z.lor (i64 (Z.shiftl (i64 (- delta)) 1)) 1).

Definition DecodeInt64Delta (val : Z) : Z :=
  if Z.land val 1 =? 1 then i64 (u64 (- Z.shiftr val 1)) else i64 (Z.shiftr val 1).

(** ** Little-endian representation

    The reference the fixed-width encoders are compared with: [n] base-256
    digits, least significant first. *)
Fixpoint le_bytes (n : nat) (v : Z) : bytes :=
  match n with
  | O => []
  | S n' => v mod 256 :: le_bytes n' (v / 256)
  end.

Fixpoint le_val (l : bytes) : Z :=
  match l with
  | [] => 0
  | b :: l' => b + 256 * le_val l'
  end.

Lemma le_bytes_length n v : length (le_bytes n v) = n.
Proof. revert v. induction n; simpl; auto. Qed.

Lemma le_bytes_bytes n v : Forall is_byte (le_bytes n v).
Proof.
  revert v. induction n; intros; simpl; constructor; auto.
  apply Z.mod_pos_bound. lia.
Qed.

Lemma le_val_bytes n v : 0 <= v < 256 ^ Z.of_nat n -> le_val (le_bytes n v) = v.
Proof.
  revert v. induction n as [|n IH]; intros v Hv.
  - simpl in *. lia.
  - simpl. rewrite Nat2Z.inj_succ, Z.pow_succ_r in Hv by lia. rewrite IH.
    + pose proof (Z.div_mod v 256). lia.
    + split; [apply Z.div_pos; lia|]. apply Z.div_lt_upper_bound; lia.
Qed.

Lemma le_bytes_val l : Forall is_byte l -> le_bytes (length l) (le_val l) = l.
Proof.
  induction 1 as [|b l Hb _ IH]; simpl; [reflexivity|].
  replace (b + 256 * le_val l) with (le_val l * 256 + b) by lia.
  rewrite Z.div_add_l, Z.div_small by width.
  rewrite Z.add_comm, Z.mod_add, Z.mod_small by width.
  rewrite Z.add_0_r. f_equal. exact IH.
Qed.

Lemma le_val_range l : Forall is_byte l -> 0 <= le_val l < 256 ^ zlen l.
Proof.
  unfold zlen. induction 1 as [|b l Hb _ IH]; [simpl; lia|].
  cbn [le_val length]. rewrite Nat2Z.inj_succ, Z.pow_succ_r by lia. width.
Qed.

(** The shift-based encoders produce exactly the base-256 digits. *)
Lemma u8_shiftr_div v n : 0 <= n -> u8 (Z.shiftr v n) = (v / 2 ^ n) mod 256.
Proof. intros. unfold u8. rewrite Z.shiftr_div_pow2 by lia. reflexivity. Qed.

Ltac le_digits :=
  cbn [le_bytes]; rewrite ?u8_shiftr_div by lia; rewrite ?Z.div_div by lia;
  repeat f_equal; reflexivity.

Lemma EncodeFixed16_le v : EncodeFixed16 v = le_bytes 2 v.
Proof. unfold EncodeFixed16. le_digits. Qed.

Lemma EncodeFixed32_le v : EncodeFixed32 v = le_bytes 4 v.
Proof. unfold EncodeFixed32. le_digits. Qed.

Lemma EncodeFixed64_le v : EncodeFixed64 v = le_bytes 8 v.
Proof. unfold EncodeFixed64. le_digits. Qed.

(** A left-to-right chain of [lor]s of shifted bytes is their positional sum:
    rewrite from the innermost [lor] outwards. *)
Ltac lor_chain :=
  repeat match goal with
  | |- context [Z.lor ?a (Z.shiftl ?b ?n)] =>
      lazymatch a with
      | context [Z.lor] => fail
      | _ => rewrite (lor_disjoint a b n) by lia
      end
  end.

Lemma DecodeFixed16_le l rest :
  length l = 2%nat -> Forall is_byte l ->
  DecodeFixed16 (l ++ rest) = Some (le_val l).
Proof.
  intros Hl Hb. destruct l as [|b0 [|b1 [|? ?]]]; try discriminate Hl.
  decompose_Forall_hyps. simpl. f_equal. unfold is_byte in *.
  lor_chain. rewrite u16_id by (unfold is_u16; lia). cbn [le_val]; lia.
Qed.

Lemma DecodeFixed32_le l rest :
  length l = 4%nat -> Forall is_byte l ->
  DecodeFixed32 (l ++ rest) = Some (le_val l).
Proof.
  intros Hl Hb. destruct l as [|b0 [|b1 [|b2 [|b3 [|? ?]]]]]; try discriminate Hl.
  decompose_Forall_hyps. simpl. f_equal. unfold is_byte in *.
  lor_chain. rewrite u32_id by (unfold is_u32; lia). cbn [le_val]; lia.
Qed.

Lemma DecodeFixed64_le l rest :
  length l = 8%nat -> Forall is_byte l ->
  DecodeFixed64 (l ++ rest) = Some (le_val l).
Proof.
  intros Hl Hb.
  destruct l as [|b0 [|b1 [|b2 [|b3 [|b4 [|b5 [|b6 [|b7 [|? ?]]]]]]]]];
    try discriminate Hl.
  decompose_Forall_hyps. simpl. f_equal. unfold is_byte in *.
  lor_chain.
  rewrite u64_id by (unfold is_u64; lia). cbn [le_val]; lia.
Qed.

Lemma fixed16_app v rest : is_u16 v -> DecodeFixed16 (EncodeFixed16 v ++ rest) = Some v.
Proof.
  intros. rewrite EncodeFixed16_le, DecodeFixed16_le;
    auto using le_bytes_length, le_bytes_bytes.
  rewrite le_val_bytes; auto.
Qed.

Lemma fixed32_app v rest : is_u32 v -> DecodeFixed32 (EncodeFixed32 v ++ rest) = Some v.
Proof.
  intros. rewrite EncodeFixed32_le, DecodeFixed32_le;
    auto using le_bytes_length, le_bytes_bytes.
  rewrite le_val_bytes; auto.
Qed.

Lemma fixed64_app v rest : is_u64 v -> DecodeFixed64 (EncodeFixed64 v ++ rest) = Some v.
Proof.
  intros. rewrite EncodeFixed64_le, DecodeFixed64_le;
    auto using le_bytes_length, le_bytes_bytes.
  rewrite le_val_bytes; auto.
Qed.

Lemma EncodeFixed16_length v : length (EncodeFixed16 v) = 2%nat.
Proof. reflexivity. Qed.
Lemma EncodeFixed32_length v : length (EncodeFixed32 v) = 4%nat.
Proof. reflexivity. Qed.
Lemma EncodeFixed64_length v : length (EncodeFixed64 v) = 8%nat.
Proof. reflexivity. Qed.

(** Byte swapping reverses the memory image of the integer. *)
Lemma le_bytes_lor8 b0 b1 b2 b3 b4 b5 b6 b7 :
  Forall is_byte [b0; b1; b2; b3; b4; b5; b6; b7] ->
  le_bytes 8 (Z.lor (Z.lor (Z.lor (Z.lor (Z.lor (Z.lor (Z.lor
    b0 (Z.shiftl b1 8)) (Z.shiftl b2 16)) (Z.shiftl b3 24)) (Z.shiftl b4 32))
    (Z.shiftl b5 40)) (Z.shiftl b6 48)) (Z.shiftl b7 56)) =
  [b0; b1; b2; b3; b4; b5; b6; b7].
Proof.
  intros Hb. etransitivity; [|exact (le_bytes_val _ Hb)]. cbn [length].
  decompose_Forall_hyps. unfold is_byte in *. apply (f_equal (le_bytes 8)). lor_chain.
  cbn [le_val]. lia.
Qed.

Lemma ToBigEndian64_bytes v :
  EncodeFixed64 (ToBigEndian64 v) = rev (EncodeFixed64 v).
Proof.
  rewrite EncodeFixed64_le. apply le_bytes_lor8. repeat constructor; apply u8_is_byte.
Qed.

(** ** Varint lemmas *)
Lemma byte_high_bit b : is_byte b -> (Z.land b 128 =? 0) = (b <? 128).
Proof.
  intros Hb.
  assert (Hall : forallb (fun b => eqb (Z.land b 128 =? 0) (b <? 128)) (seqZ 0 256) = true)
    by (vm_compute; reflexivity).
  apply eqb_prop. rewrite forallb_forall in Hall. apply (Hall b).
  apply list_elem_of_In, elem_of_seqZ. width.
Qed.

Lemma byte_low_bits b : Z.land b 127 = b mod 128.
Proof. exact (Z.land_ones b 7 ltac:(lia)). Qed.

Lemma u8_lor128 v : u8 (Z.lor v 128) = v mod 128 + 128.
Proof.
  unfold u8.
  replace (v mod 128 + 128) with (Z.lor (v mod 2 ^ 7) (Z.shiftl 1 7))
    by (apply lor_disjoint; try apply Z.mod_pos_bound; lia).
  apply Z.bits_inj'. intros i Hi. rewrite Z.lor_spec.
  destruct (Z.ltb_spec i 8) as [H8|H8].
  - rewrite Z.mod_pow2_bits_low, Z.lor_spec by lia.
    destruct (Z.ltb_spec i 7).
    + rewrite Z.mod_pow2_bits_low by lia. reflexivity.
    + assert (i = 7) as -> by lia. rewrite !orb_true_r. reflexivity.
  - rewrite !Z.mod_pow2_bits_high by lia.
    rewrite Z.shiftl_spec_high by lia.
    rewrite (Z.bits_above_log2 1) by (simpl; lia). reflexivity.
Qed.

Lemma shiftr7 v : Z.shiftr v 7 = v / 128.
Proof. exact (Z.shiftr_div_pow2 v 7 ltac:(lia)). Qed.

Lemma div128_bound v k :
  0 <= v < 2 ^ (7 * Z.of_nat (S k)) -> 0 <= v / 128 < 2 ^ (7 * Z.of_nat k).
Proof.
  intros Hv. split; [apply Z.div_pos; lia|]. apply Z.div_lt_upper_bound; [lia|].
  replace (128 * _) with (2 ^ (7 * Z.of_nat (S k))); [lia|].
  change 128 with (2 ^ 7). rewrite <- Z.pow_add_r by lia. f_equal. lia.
Qed.

(** More fuel than needed changes nothing. *)
Lemma EncodeVarint64_loop_fuel n m v :
  0 <= v < 2 ^ (7 * Z.of_nat (S n)) ->
  EncodeVarint64_loop (n + m) v = EncodeVarint64_loop n v.
Proof.
  revert v. induction n as [|n IH]; intros v Hv.
  - destruct m; [reflexivity|]. simpl. case_if; [|reflexivity].
    change (2 ^ _) with 128 in Hv. lia.
  - simpl. case_if; [|reflexivity]. f_equal. rewrite shiftr7.
    apply IH, div128_bound, Hv.
Qed.

(** The encoder as the source's loop: one byte per seven bits. *)
Lemma EncodeVarint64_step v :
  is_u64 v ->
  EncodeVarint64 v =
  if 128 <=? v then v mod 128 + 128 :: EncodeVarint64 (v / 128) else [v].
Proof.
  intros Hv. unfold EncodeVarint64 at 1. cbn [EncodeVarint64_loop].
  case_if.
  - rewrite u8_lor128, shiftr7. f_equal. unfold EncodeVarint64.
    symmetry. apply (EncodeVarint64_loop_fuel 8 1).
    split; [apply Z.div_pos; width|]. apply Z.div_lt_upper_bound; [lia|].
    change (2 ^ _) with 9223372036854775808. width.
  - rewrite u8_id by width. reflexivity.
Qed.

Lemma GetVarint_loop_enc w last n v shift result rest :
  (forall s, s mod 7 = 0 -> s < w -> s <= last) ->
  0 <= v < 2 ^ (7 * Z.of_nat (S n)) -> 0 <= shift -> shift mod 7 = 0 ->
  v * 2 ^ shift < 2 ^ w -> shift < w -> 0 <= result < 2 ^ shift ->
  GetVarint_loop w last shift result (EncodeVarint64_loop n v ++ rest) =
  Some (result + v * 2 ^ shift, rest).
Proof.
  intros Hlast. revert v shift result.
  assert (Hput : forall b s r, 0 <= b -> b * 2 ^ s < 2 ^ w -> 0 <= s ->
    0 <= r < 2 ^ s -> Z.lor r (Z.shiftl b s mod 2 ^ w) = r + b * 2 ^ s).
  { intros b s r Hb Hbw Hs Hr. rewrite Z.mod_small, lor_disjoint; try lia.
    rewrite Z.shiftl_mul_pow2 by lia. lia. }
  assert (Hlow : forall v s r p, 0 <= v < 128 -> v * 2 ^ s < 2 ^ w -> 0 <= s ->
    s mod 7 = 0 -> s < w -> 0 <= r < 2 ^ s ->
    GetVarint_loop w last s r ([u8 v] ++ p) = Some (r + v * 2 ^ s, p)).
  { intros v s r p Hv Hvw Hs Hs7 Hsw Hr. simpl. rewrite u8_id by width.
    destruct (Z.ltb_spec last s) as [Hc|_]; [pose proof (Hlast s Hs7 Hsw); lia|].
    rewrite byte_high_bit by width. destruct (Z.ltb_spec v 128); [|lia]. simpl.
    rewrite Hput; auto; lia. }
  induction n as [|n IH]; intros v shift result Hv Hs Hs7 Hvs Hsw Hr.
  - change (2 ^ (7 * Z.of_nat 1)) with 128 in Hv. apply Hlow; auto.
  - cbn [EncodeVarint64_loop]. destruct (Z.leb_spec 128 v) as [Hge|]; [|apply Hlow; auto; lia].
    assert (Hm : 0 <= v mod 128 < 128) by (apply Z.mod_pos_bound; lia).
    pose proof (Z.div_mod v 128 ltac:(lia)) as Hdm.
    assert (Hp : 2 ^ (shift + 7) = 128 * 2 ^ shift)
      by (rewrite Z.pow_add_r by lia; change (2 ^ 7) with 128; lia).
    assert (1 <= v / 128) by (apply Z.div_le_lower_bound; lia).
    assert (Hw : 2 ^ (shift + 7) < 2 ^ w) by nia.
    cbn [app GetVarint_loop]. rewrite u8_lor128, shiftr7.
    destruct (Z.ltb_spec last shift) as [Hc|_]; [pose proof (Hlast shift Hs7 Hsw); lia|].
    rewrite byte_high_bit by width. destruct (Z.ltb_spec (v mod 128 + 128) 128); [lia|]. simpl.
    rewrite byte_low_bits.
    replace ((v mod 128 + 128) mod 128) with (v mod 128)
      by (rewrite <- Z.add_mod_idemp_r, Z_mod_same_full, Z.add_0_r, Z.mod_mod; lia).
    rewrite Hput by nia. rewrite IH.
    + rewrite Hp. do 2 f_equal. nia.
    + apply div128_bound, Hv.
    + lia.
    + rewrite <- Z.add_mod_idemp_r, Z_mod_same_full, Z.add_0_r; lia.
    + nia.
    + apply (Z.pow_lt_mono_r_iff 2); lia.
    + nia.
Qed.

Lemma varint64_app v rest : is_u64 v -> GetVarint64Ptr (EncodeVarint64 v ++ rest) = Some (v, rest).
Proof.
  intros Hv. unfold GetVarint64Ptr, EncodeVarint64. rewrite GetVarint_loop_enc.
  1: do 2 f_equal; lia. all: change (2 ^ 0) with 1; try width; try reflexivity.
Qed.

(** On 32-bit values the unrolled encoder is the looping one. *)
Lemma EncodeVarint32_64 v : is_u32 v -> EncodeVarint32 v = EncodeVarint64 v.
Proof.
  intros Hv. unfold EncodeVarint32, EncodeVarint64. cbn [EncodeVarint64_loop].
  rewrite !shiftr7, !Z.shiftr_div_pow2, ?Z.div_div by lia.
  change (Z.shiftl 1 7) with 128. change (Z.shiftl 1 14) with (128 * 128).
  change (Z.shiftl 1 21) with (128 * 128 * 128).
  change (Z.shiftl 1 28) with (128 * 128 * 128 * 128).
  change (2 ^ 14) with (128 * 128). change (2 ^ 21) with (128 * 128 * 128).
  change (2 ^ 28) with (128 * 128 * 128 * 128).
  assert (Hd : forall d, 0 < d -> (128 <=? v / d) = (128 * d <=? v)).
  { intros d Hdp. apply eq_bool_prop_intro. rewrite !Is_true_true, !Z.leb_le.
    split; intros.
    - pose proof (Z.mul_div_le v d Hdp). nia.
    - apply Z.div_le_lower_bound; lia. }
  rewrite !Hd by lia.
  repeat (match goal with |- context [?a <? ?b] => destruct (Z.ltb_spec a b) end;
          match goal with |- context [?a <=? ?b] => destruct (Z.leb_spec a b) end;
          try lia; try reflexivity).
  destruct (Z.leb_spec (128 * (128 * 128 * 128 * 128)) v); [width|reflexivity].
Qed.

Lemma GetVarint32Ptr_fallback p :
  Forall is_byte p -> GetVarint32Ptr p = GetVarint32PtrFallback p.
Proof.
  destruct p as [|b p]; intros Hp; [reflexivity|]. simpl.
  destruct (Z.land b 128 =? 0) eqn:Hb; [|reflexivity].
  unfold GetVarint32PtrFallback. simpl. rewrite Hb. simpl.
  rewrite Z.shiftl_0_r, Z.mod_small; [reflexivity|].
  apply Forall_cons_1 in Hp as [? _]. width.
Qed.

Lemma EncodeVarint64_loop_bytes n v : 0 <= v -> Forall is_byte (EncodeVarint64_loop n v).
Proof.
  revert v. induction n; intros v Hv; simpl.
  - constructor; [apply u8_is_byte|constructor].
  - case_if; constructor; auto using u8_is_byte.
    apply IHn. apply Z.shiftr_nonneg. lia.
Qed.

Lemma EncodeVarint64_bytes v : is_u64 v -> Forall is_byte (EncodeVarint64 v).
Proof. intros. apply EncodeVarint64_loop_bytes. width. Qed.

Lemma EncodeVarint32_bytes v : is_u32 v -> Forall is_byte (EncodeVarint32 v).
Proof. intros. rewrite EncodeVarint32_64 by auto. apply EncodeVarint64_loop_bytes. width. Qed.

(** The fast path and the fallback agree on the first byte, whatever follows. *)
Lemma varint32_app v rest : is_u32 v -> GetVarint32Ptr (EncodeVarint32 v ++ rest) = Some (v, rest).
Proof.
  intros Hv. pose proof (EncodeVarint32_bytes v Hv) as Hb.
  assert (Hf : GetVarint32PtrFallback (EncodeVarint32 v ++ rest) = Some (v, rest)).
  { rewrite EncodeVarint32_64 by auto. unfold GetVarint32PtrFallback, EncodeVarint64.
    rewrite GetVarint_loop_enc. 1: do 2 f_equal; lia.
    all: change (2 ^ 0) with 1; try width; try reflexivity.
    intros s Hs7 Hs. pose proof (Z.div_mod s 7). lia. }
  destruct (EncodeVarint32 v) as [|b l] eqn:E.
  - revert E. unfold EncodeVarint32. repeat case_if; discriminate.
  - apply Forall_cons_1 in Hb as [Hb _]. revert Hf. simpl.
    destruct (Z.land b 128 =? 0) eqn:Hz; [|auto].
    unfold GetVarint32PtrFallback. simpl. rewrite Hz. simpl.
    rewrite Z.shiftl_0_r, Z.mod_small by width. auto.
Qed.

#[export] Instance varint32_codec : Codec is_u32 EncodeVarint32 GetVarint32.
Proof. exact varint32_app. Qed.

#[export] Instance varint64_codec : Codec is_u64 EncodeVarint64 GetVarint64.
Proof. exact varint64_app. Qed.

Lemma Varint64Size_loop_acc n v k :
  Varint64Size_loop n v k = Varint64Size_loop n v 0 + k.
Proof.
  revert v k. induction n as [|n IH]; intros; simpl; [lia|].
  case_if; [|lia]. rewrite IH, (IH _ 1). lia.
Qed.

Lemma EncodeVarint64_loop_size n v :
  zlen (EncodeVarint64_loop n v) = Varint64Size_loop n v 1.
Proof.
  unfold zlen. revert v. induction n as [|n IH]; intros; simpl; [reflexivity|].
  case_if; [|reflexivity]. cbn [length]. rewrite Nat2Z.inj_succ, IH.
  rewrite (Varint64Size_loop_acc _ _ 1), (Varint64Size_loop_acc _ _ (1 + 1)). lia.
Qed.

Lemma Varint64Size_length v : Varint64Size v = zlen (EncodeVarint64 v).
Proof. symmetry. apply EncodeVarint64_loop_size. Qed.

Lemma Varint32Size_length v : Varint32Size v = zlen (EncodeVarint32 v).
Proof. unfold Varint32Size, EncodeVarint32. repeat case_if; reflexivity. Qed.

Lemma Varint32Size_range v : 1 <= Varint32Size v <= 5.
Proof. unfold Varint32Size. repeat case_if; lia. Qed.

Lemma Varint64Size_loop_range n v : 0 <= Varint64Size_loop n v 0 <= Z.of_nat n.
Proof.
  revert v. induction n as [|n IH]; intros; simpl; [lia|].
  case_if; [|lia]. rewrite Varint64Size_loop_acc. specialize (IH (Z.shiftr v 7)). lia.
Qed.

Lemma Varint64Size_range v : 1 <= Varint64Size v <= 10.
Proof.
  unfold Varint64Size. rewrite Varint64Size_loop_acc.
  pose proof (Varint64Size_loop_range 9 v). lia.
Qed.

(** ** Delta lemmas *)
Lemma lor_even_one a : Z.lor (2 * a) 1 = 2 * a + 1.
Proof.
  apply Z.bits_inj'. intros i Hi. rewrite Z.lor_spec.
  destruct (Z.eq_dec i 0) as [->|].
  - rewrite Z.testbit_odd_0, Z.testbit_even_0. reflexivity.
  - replace i with (Z.succ (i - 1)) by lia.
    rewrite Z.testbit_odd_succ, Z.testbit_even_succ by lia.
    rewrite (Z.bits_above_log2 1 (Z.succ (i - 1))) by (simpl; lia).
    apply orb_false_r.
Qed.

(** The shifted magnitude, through the signed type and back to the unsigned. *)
Lemma swrap_shiftl_one w a :
  1 < w -> 0 <= a < 2 ^ (w - 1) ->
  swrap w (Z.shiftl a 1) mod 2 ^ w = 2 * a /\
  Z.lor (swrap w (Z.shiftl a 1)) 1 mod 2 ^ w = 2 * a + 1.
Proof.
  intros Hw Ha. rewrite Z.shiftl_mul_pow2 by lia. change (2 ^ 1) with 2.
  assert (Hp : 2 ^ w = 2 * 2 ^ (w - 1))
    by (rewrite <- Z.pow_succ_r by lia; f_equal; lia).
  set (q := (a * 2 + 2 ^ (w - 1)) / 2 ^ w).
  assert (Hs : swrap w (a * 2) = 2 * (a - q * 2 ^ (w - 1))).
  { unfold swrap. rewrite Z.mod_eq by lia. fold q. lia. }
  rewrite Hs, lor_even_one. split.
  - replace (2 * (a - q * 2 ^ (w - 1))) with (2 * a + (- q) * 2 ^ w) by lia.
    rewrite Z.mod_add, Z.mod_small by lia. lia.
  - replace (2 * (a - q * 2 ^ (w - 1)) + 1) with (2 * a + 1 + (- q) * 2 ^ w) by lia.
    rewrite Z.mod_add, Z.mod_small by lia. lia.
Qed.

(** The folded form of a delta whose magnitude fits: twice the magnitude, plus
    one for a negative delta. *)
Lemma EncodeInt32Delta_eq d :
  - 2 ^ 31 < d < 2 ^ 31 ->
  EncodeInt32Delta d = if 0 <=? d then 2 * d else 2 * - d + 1.
Proof.
  intros Hd. unfold EncodeInt32Delta. case_if.
  - apply (swrap_shiftl_one 32); change (32 - 1) with 31; lia.
  - rewrite (i32_id (- d)) by width.
    apply (swrap_shiftl_one 32); change (32 - 1) with 31; lia.
Qed.

Lemma EncodeInt64Delta_eq d :
  - 2 ^ 63 < d < 2 ^ 63 ->
  EncodeInt64Delta d = if 0 <=? d then 2 * d else 2 * - d + 1.
Proof.
  intros Hd. unfold EncodeInt64Delta. case_if.
  - apply (swrap_shiftl_one 64); change (64 - 1) with 63; lia.
  - rewrite (i64_id (- d)) by width.
    apply (swrap_shiftl_one 64); change (64 - 1) with 63; lia.
Qed.

Lemma land_one_even a : Z.land (2 * a) 1 = 0.
Proof. rewrite land_one, Z.mul_comm. apply Z.mod_mul. lia. Qed.

Lemma land_one_odd a : Z.land (2 * a + 1) 1 = 1.
Proof. rewrite land_one, Z.add_comm, Z.mul_comm, Z.mod_add; [reflexivity|lia]. Qed.

Lemma shiftr_one_even a : Z.shiftr (2 * a) 1 = a.
Proof. rewrite Z.shiftr_div_pow2, Z.mul_comm by lia. apply Z.div_mul. lia. Qed.

Lemma shiftr_one_odd a : Z.shiftr (2 * a + 1) 1 = a.
Proof.
  rewrite Z.shiftr_div_pow2 by lia. change (2 ^ 1) with 2.
  rewrite Z.mul_comm, Z.div_add_l by lia. change (1 / 2) with 0. lia.
Qed.

Lemma delta32_roundtrip d :
  - 2 ^ 31 < d < 2 ^ 31 -> DecodeInt32Delta (EncodeInt32Delta d) = d.
Proof.
  intros Hd. rewrite EncodeInt32Delta_eq by lia. unfold DecodeInt32Delta. case_if.
  - rewrite land_one_even, shiftr_one_even. apply i32_id. width.
  - rewrite land_one_odd, shiftr_one_odd. simpl. rewrite Z.opp_involutive.
    apply i32_u32. width.
Qed.

Lemma delta64_roundtrip d :
  - 2 ^ 63 < d < 2 ^ 63 -> DecodeInt64Delta (EncodeInt64Delta d) = d.
Proof.
  intros Hd. rewrite EncodeInt64Delta_eq by lia. unfold DecodeInt64Delta. case_if.
  - rewrite land_one_even, shiftr_one_even. apply i64_id. width.
  - rewrite land_one_odd, shiftr_one_odd. simpl. rewrite Z.opp_involutive.
    apply i64_u64. width.
Qed.

Lemma EncodeInt32Delta_range d : is_u32 (EncodeInt32Delta d).
Proof. unfold EncodeInt32Delta. case_if; apply u32_range. Qed.

Lemma EncodeInt64Delta_range d : is_u64 (EncodeInt64Delta d).
Proof. unfold EncodeInt64Delta. case_if; apply u64_range. Qed.

#[export] Hint Resolve EncodeInt32Delta_range EncodeInt64Delta_range : eloq.

(** ** Properties *)

(** Every 32-bit value survives a varint write and read with any bytes after
    it, takes the number of bytes the size function announces, and is written
    with the same bytes by the 32-bit and the 64-bit encoder. *)
Theorem varint32_roundtrip v rest :
  is_u32 v ->
  GetVarint32 (PutVarint32 [] v ++ rest) = Some (v, rest) /\
  zlen (EncodeVarint32 v) = Varint32Size v /\
  EncodeVarint32 v = EncodeVarint64 v.
Proof.
  intros Hv. split; [apply varint32_app, Hv|].
  split; [symmetry; apply Varint32Size_length|apply EncodeVarint32_64, Hv].
Qed.

Lemma varint32_roundtrip_witness :
  GetVarint32 (PutVarint32 [] 300 ++ [7]) = Some (300, [7]).
Proof. apply (varint32_roundtrip 300 [7]). unfold is_u32. lia. Defined.

(** Every 64-bit value survives a varint write and read with any bytes after
    it, and takes the one to ten bytes the size functions announce. *)
Theorem varint64_roundtrip v rest :
  is_u64 v ->
  GetVarint64 (PutVarint64 [] v ++ rest) = Some (v, rest) /\
  zlen (EncodeVarint64 v) = Varint64Size v /\
  VarintLength v = Varint64Size v /\ 1 <= Varint64Size v <= 10.
Proof.
  intros Hv. split; [apply varint64_app, Hv|].
  split; [symmetry; apply Varint64Size_length|].
  split; [reflexivity|apply Varint64Size_range].
Qed.

Lemma varint64_roundtrip_witness :
  GetVarint64 (PutVarint64 [] (2 ^ 63) ++ []) = Some (2 ^ 63, []).
Proof. apply (varint64_roundtrip (2 ^ 63) []). unfold is_u64. lia. Defined.

(** A signed difference survives the sign-folded coding at both widths,
    except for the most negative value, whose negation does not fit. *)
Theorem delta_roundtrip d :
  (- 2 ^ 31 < d < 2 ^ 31 -> DecodeInt32Delta (EncodeInt32Delta d) = d) /\
  (- 2 ^ 63 < d < 2 ^ 63 -> DecodeInt64Delta (EncodeInt64Delta d) = d).
Proof. split; [apply delta32_roundtrip|apply delta64_roundtrip]. Qed.
