(* ===== verification/Comparator.v ===== *)
(** * The bytewise key order (include/comparator.h, src/comparator.cpp)

    [Compare] of the default comparator, the separator functions the index
    builder and the batch writer use, and the facts about the order that the
    page searches rely on. *)

From S2P Require Import Prelude Coding.

(** [std::string_view::compare]: the first differing byte decides (as unsigned
    characters), then the lengths.  The result is the sign of C's result. *)
Fixpoint string_compare (a b : bytes) : Z :=
  match a, b with
  | [], [] => 0
  | [], _ :: _ => -1
  | _ :: _, [] => 1
  | x :: a', y :: b' =>
      if x <? y then -1 else if y <? x then 1 else string_compare a' b'
  end.

Definition Compare (a b : bytes) : Z :=
  if (length a =? 0)%nat then (if (length b =? 0)%nat then 0 else -1)
  else if (length b =? 0)%nat then 1
  else string_compare a b.

(** Length of the common prefix: the [while] loop of both separators. *)
Fixpoint common_prefix (a b : bytes) : nat :=
  match a, b with
  | x :: a', y :: b' => if x =? y then S (common_prefix a' b') else O
  | _, _ => O
  end.

(** [void FindShortestSeparator(std::string *start, std::string_view limit)] *)
Definition FindShortestSeparator_inplace (start limit : bytes) : bytes :=
  let min_length := Nat.min (length start) (length limit) in
  let diff_index := common_prefix start limit in
  if (min_length <=? diff_index)%nat then start
  else
    match start !! diff_index, limit !! diff_index with
    | Some diff_byte, Some limit_byte =>
        if (diff_byte <? 255) && (diff_byte + 1 <? limit_byte) then
          take diff_index start ++ [diff_byte + 1]
        else start
    | _, _ => start
    end.

(** [std::string_view FindShortestSeparator(left, right)]: the shortest prefix
    of [right] that is larger than [left]. *)
Definition FindShortestSeparator (left right : bytes) : bytes :=
  let diff_idx := common_prefix left right in
  take (diff_idx + 1) right.

Fixpoint FindShortSuccessor (key : bytes) : bytes :=
  match key with
  | [] => []
  | byte :: key' =>
      if byte =? 255 then
        let rest := FindShortSuccessor key' in byte :: rest
      else [byte + 1]
  end.

(** ** The order *)
Lemma Compare_string a b : Compare a b = string_compare a b.
Proof. destruct a, b; reflexivity. Qed.

Definition key_lt (a b : bytes) : Prop := Compare a b < 0.
Definition key_le (a b : bytes) : Prop := Compare a b <= 0.

Declare Scope key_scope.
Delimit Scope key_scope with key.
Infix "<k" := key_lt (at level 70) : key_scope.
Infix "<=k" := key_le (at level 70) : key_scope.
Open Scope key_scope.

#[export] Instance key_lt_dec a b : Decision (a <k b) := Z_lt_dec _ _.
#[export] Instance key_le_dec a b : Decision (a <=k b) := Z_le_dec _ _.

Lemma string_compare_refl a : string_compare a a = 0.
Proof. induction a as [|x a IH]; simpl; [reflexivity|]. rewrite Z.ltb_irrefl. exact IH. Qed.

Lemma string_compare_range a b : -1 <= string_compare a b <= 1.
Proof.
  revert b. induction a as [|x a IH]; intros [|y b]; simpl; try lia.
  repeat case_if; try lia. apply IH.
Qed.

Lemma string_compare_opp a b : string_compare a b = - string_compare b a.
Proof.
  revert b. induction a as [|x a IH]; intros [|y b]; simpl; try lia.
  repeat case_if; try lia. apply IH.
Qed.

Lemma string_compare_eq a b : string_compare a b = 0 -> a = b.
Proof.
  revert b. induction a as [|x a IH]; intros [|y b]; simpl; try lia; [reflexivity|].
  repeat case_if; try lia. intros. f_equal; [lia|auto].
Qed.

Lemma string_compare_trans a b c :
  string_compare a b < 0 -> string_compare b c < 0 -> string_compare a c < 0.
Proof.
  revert b c. induction a as [|x a IH]; intros [|y b] [|z c]; simpl; try lia.
  repeat case_if; try lia. apply IH.
Qed.

Lemma Compare_refl a : Compare a a = 0.
Proof. rewrite Compare_string. apply string_compare_refl. Qed.

Lemma Compare_opp a b : Compare a b = - Compare b a.
Proof. rewrite !Compare_string. apply string_compare_opp. Qed.

Lemma Compare_eq a b : Compare a b = 0 <-> a = b.
Proof.
  rewrite Compare_string. split; [apply string_compare_eq|].
  intros ->. apply string_compare_refl.
Qed.

Lemma key_lt_trans a b c : a <k b -> b <k c -> a <k c.
Proof. unfold key_lt. rewrite !Compare_string. apply string_compare_trans. Qed.

Lemma key_lt_irrefl a : ~ a <k a.
Proof. unfold key_lt. rewrite Compare_refl. lia. Qed.

#[export] Instance key_lt_strict : StrictOrder key_lt.
Proof. split; [exact key_lt_irrefl|exact key_lt_trans]. Qed.

Lemma key_le_alt a b : a <=k b <-> a <k b \/ a = b.
Proof.
  unfold key_le, key_lt. rewrite <- Compare_eq. lia.
Qed.

Lemma key_le_refl a : a <=k a.
Proof. apply key_le_alt. auto. Qed.

Lemma key_lt_le_trans a b c : a <k b -> b <=k c -> a <k c.
Proof. rewrite key_le_alt. intros ? [?| ->]; eauto using key_lt_trans. Qed.

Lemma key_le_lt_trans a b c : a <=k b -> b <k c -> a <k c.
Proof. rewrite key_le_alt. intros [?| ->]; eauto using key_lt_trans. Qed.

Lemma key_le_trans a b c : a <=k b -> b <=k c -> a <=k c.
Proof. rewrite !key_le_alt. intros [?| ->] [?| ->]; eauto using key_lt_trans. Qed.

Lemma key_lt_le a b : a <k b -> a <=k b.
Proof. rewrite key_le_alt. auto. Qed.

Lemma key_not_lt a b : ~ a <k b <-> b <=k a.
Proof. unfold key_lt, key_le. rewrite (Compare_opp b a). lia. Qed.

Lemma key_not_le a b : ~ a <=k b <-> b <k a.
Proof. unfold key_lt, key_le. rewrite (Compare_opp b a). lia. Qed.

#[export] Instance key_le_preorder : PreOrder key_le.
Proof. split; [exact key_le_refl|exact key_le_trans]. Qed.

#[export] Hint Resolve key_le_refl key_lt_le : eloq.

(** ** Separators *)
Lemma string_compare_prefix l a b :
  string_compare (l ++ a) (l ++ b) = string_compare a b.
Proof. induction l as [|x l IH]; simpl; [reflexivity|]. rewrite Z.ltb_irrefl. exact IH. Qed.

(** Both keys split at the end of their common prefix. *)
Lemma common_prefix_split a b :
  exists p a' b', a = p ++ a' /\ b = p ++ b' /\ common_prefix a b = length p /\
    match a', b' with x :: _, y :: _ => x <> y | _, _ => True end.
Proof.
  revert b. induction a as [|x a IH]; intros [|y b].
  1-3: simpl; by eexists [], _, _.
  cbn [common_prefix]. case_if.
  - subst y. destruct (IH b) as (p & a' & b' & -> & -> & Hl & Hd).
    exists (x :: p), a', b'. simpl. rewrite Hl. auto.
  - exists [], (x :: a), (y :: b). auto.
Qed.

Lemma separator_between left right :
  left <k right ->
  left <k FindShortestSeparator left right /\
  FindShortestSeparator left right <=k right.
Proof.
  unfold key_lt, key_le, FindShortestSeparator. rewrite !Compare_string.
  destruct (common_prefix_split left right) as (p & a & b & -> & -> & -> & Hd).
  rewrite string_compare_prefix. intros Hlt.
  destruct b as [|y b]; [destruct a; simpl in Hlt; lia|].
  rewrite take_app_add, !string_compare_prefix.
  destruct a as [|x a]; simpl in *; revert Hlt.
  - rewrite Z.ltb_irrefl. destruct b; simpl; lia.
  - rewrite Z.ltb_irrefl. repeat case_if; try lia.
    intros _. destruct b; simpl; lia.
Qed.

(** No key above [left] and not above [right] is shorter than the separator. *)
Lemma string_compare_between_length p a b k :
  string_compare (p ++ a) k < 0 -> string_compare k (p ++ b) <= 0 ->
  (length p < length k)%nat.
Proof.
  revert k. induction p as [|x p IH]; intros k H1 H2.
  - destruct k; [destruct a; simpl in H1; lia|simpl; lia].
  - destruct k as [|z k]; simpl in H1, H2; [lia|].
    destruct (Z.ltb_spec x z), (Z.ltb_spec z x); try lia.
    cbn [length]. specialize (IH k H1 H2). lia.
Qed.

Lemma separator_shortest left right k :
  left <k right -> left <k k -> k <=k right ->
  (length (FindShortestSeparator left right) <= length k)%nat.
Proof.
  unfold key_lt, key_le, FindShortestSeparator. rewrite !Compare_string.
  destruct (common_prefix_split left right) as (p & a & b & -> & -> & -> & _).
  intros _ H1 H2. pose proof (string_compare_between_length p a b k H1 H2).
  rewrite length_take, length_app. lia.
Qed.

Lemma separator_inplace_between start limit :
  start <k limit ->
  start <=k FindShortestSeparator_inplace start limit /\
  FindShortestSeparator_inplace start limit <k limit.
Proof.
  unfold FindShortestSeparator_inplace. intros Hlt.
  destruct (common_prefix_split start limit) as (p & a & b & -> & -> & -> & Hd).
  destruct (Nat.leb_spec (length (p ++ a) `min` length (p ++ b)) (length p));
    [auto with eloq|].
  destruct a as [|x a], b as [|y b]; rewrite ?app_nil_r in *; try lia.
  rewrite !list_lookup_middle by reflexivity.
  destruct ((x <? 255) && (x + 1 <? y)) eqn:Hc; [|auto with eloq].
  apply andb_prop in Hc as [_ ?%Z.ltb_lt]. rewrite take_app_length.
  unfold key_le, key_lt in *. rewrite !Compare_string, !string_compare_prefix in *.
  simpl in *. repeat case_if; lia.
Qed.

Lemma short_successor_ge key :
  Forall is_byte key -> key <=k FindShortSuccessor key.
Proof.
  unfold key_le. rewrite Compare_string. induction 1 as [|b key Hb _ IH]; simpl; [lia|].
  case_if; simpl; repeat case_if; lia.
Qed.

(** ** Big-endian integers sort like the numbers they hold *)
Lemma string_compare_snoc a b x y :
  length a = length b ->
  string_compare (a ++ [x]) (b ++ [y]) =
  if string_compare a b =? 0 then (if x <? y then -1 else if y <? x then 1 else 0)
  else string_compare a b.
Proof.
  revert b. induction a as [|u a IH]; intros [|v b] Hl; try discriminate Hl.
  - reflexivity.
  - simpl in *. repeat case_if; try lia; rewrite IH by lia; repeat case_if; lia.
Qed.

Lemma be_bytes_compare n a b :
  0 <= a < 256 ^ Z.of_nat n -> 0 <= b < 256 ^ Z.of_nat n ->
  string_compare (rev (le_bytes n a)) (rev (le_bytes n b)) =
  if a <? b then -1 else if b <? a then 1 else 0.
Proof.
  revert a b. induction n as [|n IH]; intros a b Ha Hb.
  - simpl in *. repeat case_if; lia.
  - rewrite Nat2Z.inj_succ, Z.pow_succ_r in Ha, Hb by lia.
    cbn [le_bytes rev]. rewrite string_compare_snoc
      by (rewrite !length_rev, !le_bytes_length; reflexivity).
    rewrite IH by (split; [apply Z.div_pos|apply Z.div_lt_upper_bound]; lia).
    pose proof (Z.div_mod a 256 ltac:(lia)). pose proof (Z.div_mod b 256 ltac:(lia)).
    pose proof (Z.mod_pos_bound a 256 ltac:(lia)).
    pose proof (Z.mod_pos_bound b 256 ltac:(lia)).
    repeat case_if; try reflexivity; try discriminate; lia.
Qed.

Lemma big_endian_compare a b :
  is_u64 a -> is_u64 b ->
  Compare (EncodeFixed64 (ToBigEndian64 a)) (EncodeFixed64 (ToBigEndian64 b)) =
  if a <? b then -1 else if b <? a then 1 else 0.
Proof.
  intros. rewrite Compare_string, !ToBigEndian64_bytes, !EncodeFixed64_le.
  apply (be_bytes_compare 8); assumption.
Qed.

(** ** Properties *)

(** The bytewise comparison is a strict total order: it never relates a key
    to itself, it is transitive, swapping the arguments negates it, and it
    answers zero on equal keys only. *)
Theorem compare_total_order :
  StrictOrder key_lt /\
  (forall a b, Compare a b = - Compare b a) /\
  (forall a b, Compare a b = 0 <-> a = b).
Proof.
  split; [exact key_lt_strict|]. split; [exact Compare_opp|exact Compare_eq].
Qed.

(** The separator of two ordered keys is the shortest key in the interval
    (left, right]: it lies in it, and no key of the interval is shorter. *)
Theorem shortest_separator_correct left right :
  left <k right ->
  let sep := FindShortestSeparator left right in
  left <k sep /\ sep <=k right /\
  forall k, left <k k -> k <=k right -> (length sep <= length k)%nat.
Proof.
  intros Hlt sep. destruct (separator_between left right Hlt) as [H1 H2].
  split; [exact H1|]. split; [exact H2|].
  intros k. apply separator_shortest, Hlt.
Qed.

Lemma shortest_separator_correct_witness :
  [1; 2; 3] <k FindShortestSeparator [1; 2; 3] [1; 4; 5; 6].
Proof. apply (shortest_separator_correct [1; 2; 3] [1; 4; 5; 6]). reflexivity. Defined.

(** The in-place separator stays in [start, limit), and the short successor
    of a key is never below the key. *)
Theorem separator_inplace_correct start limit key :
  start <k limit -> Forall is_byte key ->
  start <=k FindShortestSeparator_inplace start limit /\
  FindShortestSeparator_inplace start limit <k limit /\
  key <=k FindShortSuccessor key.
Proof.
  intros Hlt Hk. destruct (separator_inplace_between start limit Hlt) as [H1 H2].
  auto using short_successor_ge.
Qed.

Lemma separator_inplace_correct_witness :
  FindShortestSeparator_inplace [97; 98; 99] [97; 104] <k [97; 104].
Proof.
  apply (separator_inplace_correct [97; 98; 99] [97; 104] [255; 7]).
  - reflexivity.
  - repeat constructor; lia.
Defined.
