(* ===== verification/PageFormat.v ===== *)
(** * The region format shared by data pages and index pages

    Both kinds of tree pages hold a header, a blob of entries, an array with the
    16-bit offset of every restart point, the number of restart points and
    padding.  The entries between two restart points are a region: the first
    entry of a region is stored in full, each later one relative to its
    predecessor.

    The first part models the accessors that both iterators share
    (src/storage/data_page.cpp, include/storage/mem_cached_page.h).  The second
    part is the reference format, over any entry type with an encoder relative
    to an optional predecessor, and the facts that locate regions and entries in
    a page of that format. *)

From S2P Require Import Prelude Coding.

(** ** Page buffers (include/storage/page.h, src/storage/page.cpp) *)
Inductive PageType := NonLeafIndex | LeafIndex | Data | Overflow | Deleted.

Definition PageType_code (t : PageType) : Z :=
  match t with
  | NonLeafIndex => 0
  | LeafIndex => 1
  | Data => 2
  | Overflow => 3
  | Deleted => 255
  end.

#[export] Instance PageType_eq_dec : EqDecision PageType.
Proof. solve_decision. Defined.

(** [memcpy] of [src] into the buffer at [off]. *)
Definition write_at (buf : bytes) (off : Z) (src : bytes) : bytes :=
  ztake off buf ++ src ++ zdrop (off + zlen src) buf.

(** [std::string::resize]: truncation, or extension with zero bytes. *)
Definition resize (n : Z) (buf : bytes) : bytes :=
  ztake n buf ++ replicate (Z.to_nat (n - zlen buf)) 0.

Definition checksum_bytes : Z := 8.
Definition page_type_offset : Z := checksum_bytes.

Definition SetPageType (p : bytes) (t : PageType) : bytes :=
  write_at p page_type_offset [PageType_code t].

(** Sizes that the page code takes from [KvOptions]. *)
Record KvOptions := mkKvOptions {
  data_page_size : Z;
  data_page_restart_interval : Z;
  index_page_restart_interval : Z;
  overflow_pointers : Z
}.

(** [page_size_offset] of both page kinds: after checksum and page type. *)
Definition page_size_offset : Z := page_type_offset + 1.

(** The fields of an iterator that its moves leave alone. *)
Record PageView := mkPageView {
  page_ : bytes;
  restart_num_ : Z;
  restart_offset_ : Z
}.

Definition ContentLength (page : bytes) : option Z :=
  DecodeFixed16 (zdrop page_size_offset page).

Definition RestartNum (page : bytes) : option Z :=
  len ← ContentLength page;
  if 2 <=? len then DecodeFixed16 (zdrop (len - 2) page) else None.

(** The constructors of [DataPageIter] and [IndexPageIter]. *)
Definition page_view (page : bytes) : option PageView :=
  num ← RestartNum page;
  len ← ContentLength page;
  Some (mkPageView page num (u16 (len - (1 + num) * 2))).

Definition RestartOffset (v : PageView) (restart_idx : Z) : option Z :=
  DecodeFixed16 (zdrop (restart_offset_ v + restart_idx * 2) (page_ v)).

(** The bytes between the cursor and the limit of the entries. *)
Definition window (v : PageView) (off : Z) : option bytes :=
  if (off <=? restart_offset_ v) && (restart_offset_ v <=? zlen (page_ v)) then
    Some (ztake (restart_offset_ v - off) (zdrop off (page_ v)))
  else None.

(** ** The reference format *)
Section format.
  Context {E : Type} (enc : option E -> E -> bytes) (base : Z).

Fixpoint enc_entries (prev : option E) (es : list E) : bytes :=
  match es with
  | [] => []
  | e :: es' => enc prev e ++ enc_entries (Some e) es'
  end.

Definition enc_region (es : list E) : bytes := enc_entries None es.

Definition blob (rs : list (list E)) : bytes := concat (map enc_region rs).

(** Offset of every region, the first one at [off]. *)
Fixpoint region_offsets (off : Z) (rs : list (list E)) : list Z :=
  match rs with
  | [] => []
  | r :: rs' => off :: region_offsets (off + zlen (enc_region r)) rs'
  end.

Definition restart_array (offs : list Z) : bytes := concat (map EncodeFixed16 offs).

Definition content_size (rs : list (list E)) : Z :=
  base + zlen (blob rs) + zlen rs * 2 + 2.

(** A page of the format with header [hdr] and padding [pad]. *)
Definition format_page (hdr pad : bytes) (rs : list (list E)) : bytes :=
  hdr ++ blob rs ++ restart_array (region_offsets base rs) ++
  EncodeFixed16 (zlen rs) ++ pad.

(** [page] is a page of the format; [rs] are its regions. *)
Definition page_format (rs : list (list E)) (page : bytes) : Prop :=
  exists hdr pad, page = format_page hdr pad rs /\
    zlen hdr = base /\ page_size_offset + 2 <= base /\
    DecodeFixed16 (zdrop page_size_offset hdr) = Some (content_size rs) /\
    content_size rs < 2 ^ 16.

(** The view an iterator has of a page of the format. *)
Definition format_view (rs : list (list E)) (page : bytes) : PageView :=
  mkPageView page (zlen rs) (base + zlen (blob rs)).

(** The predecessor of whatever follows [es]. *)
Fixpoint last_from (prev : option E) (es : list E) : option E :=
  match es with
  | [] => prev
  | e :: es' => last_from (Some e) es'
  end.

Lemma last_from_snoc prev a e : last_from prev (a ++ [e]) = Some e.
Proof. revert prev. induction a; intros; simpl; auto. Qed.

Lemma enc_entries_app prev a b :
  enc_entries prev (a ++ b) = enc_entries prev a ++ enc_entries (last_from prev a) b.
Proof.
  revert prev. induction a as [|e a IH]; intros; [reflexivity|].
  simpl. rewrite IH, app_assoc. reflexivity.
Qed.

Lemma blob_app a b : blob (a ++ b) = blob a ++ blob b.
Proof. unfold blob. rewrite map_app, concat_app. reflexivity. Qed.

Lemma blob_cons r rs : blob (r :: rs) = enc_region r ++ blob rs.
Proof. reflexivity. Qed.

Lemma region_offsets_length off rs : length (region_offsets off rs) = length rs.
Proof. revert off. induction rs; intros; simpl; auto. Qed.

Lemma region_offsets_lookup off rs pre r suf :
  rs = pre ++ r :: suf ->
  region_offsets off rs !! length pre = Some (off + zlen (blob pre)).
Proof.
  intros ->. revert off. induction pre as [|p pre IH]; intros off; simpl.
  - change (zlen (blob [])) with 0. f_equal. lia.
  - rewrite IH, blob_cons, zlen_app. f_equal. lia.
Qed.

Lemma region_offsets_app off a b :
  region_offsets off (a ++ b) =
  region_offsets off a ++ region_offsets (off + zlen (blob a)) b.
Proof.
  revert off. induction a as [|r a IH]; intros off; simpl.
  - change (zlen (blob [])) with 0. rewrite Z.add_0_r. reflexivity.
  - rewrite IH, blob_cons, zlen_app. do 3 f_equal. lia.
Qed.

Lemma region_offsets_range off rs :
  0 <= off -> Forall (fun o => 0 <= o <= off + zlen (blob rs)) (region_offsets off rs).
Proof.
  revert off. induction rs as [|r rs IH]; intros off Hoff; simpl; constructor.
  - pose proof (zlen_nonneg (blob (r :: rs))). lia.
  - pose proof (zlen_nonneg (enc_region r)).
    eapply Forall_impl; [|apply IH; lia].
    intros o. cbv beta. rewrite blob_cons, zlen_app. lia.
Qed.

Lemma content_size_app_le a b : content_size a <= content_size (a ++ b).
Proof. unfold content_size. rewrite blob_app, !zlen_app. zlia. Qed.

Lemma enc_region_snoc r e :
  enc_region (r ++ [e]) = enc_region r ++ enc (last_from None r) e.
Proof. unfold enc_region. rewrite enc_entries_app. simpl. rewrite app_nil_r. reflexivity. Qed.

Lemma blob_snoc init r : blob (init ++ [r]) = blob init ++ enc_region r.
Proof. rewrite blob_app. unfold blob at 2. simpl. rewrite app_nil_r. reflexivity. Qed.

Lemma region_offsets_snoc off init r :
  region_offsets off (init ++ [r]) = region_offsets off init ++ [off + zlen (blob init)].
Proof. rewrite region_offsets_app. reflexivity. Qed.
End format.

Lemma restart_array_length offs : zlen (restart_array offs) = zlen offs * 2.
Proof.
  induction offs as [|o offs IH]; [reflexivity|].
  unfold restart_array in *. simpl. rewrite !zlen_cons, IH. lia.
Qed.

Lemma restart_array_app a b : restart_array (a ++ b) = restart_array a ++ restart_array b.
Proof. unfold restart_array. rewrite map_app, concat_app. reflexivity. Qed.

(** Reading one slot of an offset array. *)
Lemma restart_array_read offs (j : nat) o rest :
  Forall is_u16 offs -> offs !! j = Some o ->
  DecodeFixed16 (zdrop (Z.of_nat j * 2) (restart_array offs ++ rest)) = Some o.
Proof.
  intros Hall Hj. pose proof (lookup_lt_Some _ _ _ Hj) as Hlt.
  pose proof (proj1 (Forall_lookup _ _) Hall _ _ Hj) as Ho.
  rewrite <- (take_drop_middle _ _ _ Hj), restart_array_app, <- app_assoc.
  replace (Z.of_nat j * 2) with (zlen (restart_array (take j offs)))
    by (rewrite restart_array_length; unfold zlen; rewrite length_take; lia).
  rewrite zdrop_app. apply fixed16_app, Ho.
Qed.

(** ** Finishing a page *)
Lemma fold_PutFixed16 l buf : fold_left PutFixed16 l buf = buf ++ restart_array l.
Proof.
  revert buf. induction l as [|o l IH]; intros; simpl; [symmetry; apply app_nil_r|].
  rewrite IH. unfold PutFixed16. rewrite <- app_assoc. reflexivity.
Qed.

Lemma write_at_app a b off src :
  0 <= off -> off + zlen src <= zlen a -> write_at (a ++ b) off src = write_at a off src ++ b.
Proof.
  intros. pose proof (zlen_nonneg src). unfold write_at. rewrite <- !app_assoc. f_equal.
  - unfold ztake. rewrite take_app_le; [reflexivity|]. unfold zlen in *. lia.
  - rewrite zdrop_app_le by lia. reflexivity.
Qed.

Lemma resize_pad n l : zlen l <= n -> resize n l = l ++ replicate (Z.to_nat (n - zlen l)) 0.
Proof.
  intros. unfold resize, ztake. rewrite firstn_all2; [reflexivity|]. unfold zlen in *. lia.
Qed.

Lemma zlen_write_at buf off src :
  0 <= off -> off + zlen src <= zlen buf -> zlen (write_at buf off src) = zlen buf.
Proof.
  intros. unfold write_at. rewrite !zlen_app.
  rewrite zlen_ztake, zlen_zdrop by zlia. lia.
Qed.

Lemma zdrop_write_at buf off src :
  0 <= off <= zlen buf ->
  zdrop off (write_at buf off src) = src ++ zdrop (off + zlen src) buf.
Proof.
  intros. unfold write_at.
  rewrite <- (zlen_ztake off buf) at 1 by lia. apply zdrop_app.
Qed.

Lemma lookup_write_at buf off src (i : nat) :
  Z.of_nat i < off -> off <= zlen buf -> write_at buf off src !! i = buf !! i.
Proof.
  intros. unfold write_at. rewrite lookup_app_l.
  - apply lookup_take_lt. lia.
  - unfold ztake, zlen in *. rewrite length_take. lia.
Qed.

(** Storing the content size in the header of a buffer and padding the buffer to
    the page size, the last step of both builders. *)
Lemma finish_page hdr body cs n :
  page_size_offset + 2 <= zlen hdr -> is_u16 cs -> zlen (hdr ++ body) <= n ->
  exists hdr' pad,
    resize n (write_at (hdr ++ body) page_size_offset (EncodeFixed16 cs)) = hdr' ++ body ++ pad /\
    zlen hdr' = zlen hdr /\
    DecodeFixed16 (zdrop page_size_offset hdr') = Some cs /\
    zlen (hdr' ++ body ++ pad) = n /\
    zdrop (page_size_offset + 2) hdr' = zdrop (page_size_offset + 2) hdr /\
    (forall i, (i < Z.to_nat page_size_offset)%nat -> (hdr' ++ body ++ pad) !! i = hdr !! i).
Proof.
  change page_size_offset with 9. intros Hh Hcs Hn.
  assert (H2 : zlen (EncodeFixed16 cs) = 2) by reflexivity.
  rewrite write_at_app by lia.
  set (hdr' := write_at hdr 9 (EncodeFixed16 cs)).
  assert (Hl : zlen hdr' = zlen hdr) by (apply zlen_write_at; lia).
  rewrite zlen_app in Hn. rewrite resize_pad by (rewrite zlen_app; lia).
  exists hdr', (replicate (Z.to_nat (n - zlen (hdr' ++ body))) 0).
  rewrite <- app_assoc. split; [reflexivity|]. split; [exact Hl|]. split; [|split; [|split]].
  - unfold hdr'. rewrite zdrop_write_at by lia. apply fixed16_app, Hcs.
  - rewrite !zlen_app. unfold zlen at 3. rewrite length_replicate, Z2Nat.id; zlia.
  - unfold hdr'. rewrite <- (zdrop_zdrop 2 9) by lia. rewrite zdrop_write_at by lia.
    rewrite <- H2 at 1. apply zdrop_app.
  - intros i Hi. rewrite lookup_app_l by (unfold zlen in *; lia).
    apply lookup_write_at; lia.
Qed.

(** ** Reading a page of the format *)
Section reading.
  Context {E : Type} (enc : option E -> E -> bytes) (base : Z).
  Context (rs : list (list E)) (page : bytes).
  Context (Hpage : page_format enc base rs page).

  Local Abbreviation view := (format_view enc base rs page).

Lemma format_bounds :
  0 <= base /\ base + zlen (blob enc rs) + zlen rs * 2 + 2 < 65536 /\
  base + zlen (blob enc rs) <= zlen page.
Proof.
  destruct Hpage as (hdr & pad & -> & Hb & _ & _ & Hfit).
  unfold content_size in Hfit. unfold format_page. rewrite !zlen_app, Hb.
  pose proof (zlen_nonneg hdr). pose proof (zlen_nonneg pad).
  pose proof (zlen_nonneg (restart_array (region_offsets enc base rs))).
  pose proof (zlen_nonneg (EncodeFixed16 (zlen rs))). lia.
Qed.

Lemma format_ContentLength : ContentLength page = Some (content_size enc base rs).
Proof.
  destruct Hpage as (hdr & pad & -> & Hb & H11 & Hlen & _).
  unfold ContentLength, format_page. rewrite zdrop_app_le by (change page_size_offset with 9 in *; lia).
  assert (Hl : 2 <= zlen (zdrop page_size_offset hdr))
    by (rewrite zlen_zdrop; change page_size_offset with 9 in *; lia).
  destruct (zdrop page_size_offset hdr) as [|b0 [|b1 l]]; try discriminate Hlen.
  exact Hlen.
Qed.

Lemma format_page_view : page_view page = Some view.
Proof.
  unfold page_view, RestartNum. rewrite format_ContentLength. simpl.
  pose proof format_bounds. pose proof (zlen_nonneg rs). unfold content_size.
  pose proof (zlen_nonneg (blob enc rs)).
  case_if; [|lia].
  replace (base + zlen (blob enc rs) + zlen rs * 2 + 2 - 2)
    with (base + (zlen (blob enc rs) + (zlen rs * 2 + 0))) by lia.
  destruct Hpage as (hdr & pad & Hp & Hb & _). rewrite Hp at 1. unfold format_page.
  rewrite <- Hb at 1. rewrite !zdrop_app_add by lia.
  replace (zlen rs * 2 + 0) with (zlen (restart_array (region_offsets enc base rs)))
    by (rewrite restart_array_length; unfold zlen; rewrite region_offsets_length; lia).
  rewrite zdrop_app, fixed16_app by width. simpl. unfold format_view.
  do 2 f_equal. rewrite u16_id by (unfold is_u16; lia). lia.
Qed.

Lemma format_RestartOffset pre r suf :
  rs = pre ++ r :: suf ->
  RestartOffset view (zlen pre) = Some (base + zlen (blob enc pre)).
Proof.
  intros Hrs. unfold RestartOffset. cbn [restart_offset_ page_ format_view].
  pose proof format_bounds. pose proof (zlen_nonneg pre).
  pose proof (zlen_nonneg (blob enc rs)).
  destruct Hpage as (hdr & pad & Hp & Hb & _). rewrite Hp. unfold format_page.
  replace (base + zlen (blob enc rs) + zlen pre * 2)
    with (zlen hdr + (zlen (blob enc rs) + zlen pre * 2)) by lia.
  rewrite !zdrop_app_add by lia. unfold zlen at 1. apply restart_array_read.
  - eapply Forall_impl; [|apply region_offsets_range; lia].
    intros o Ho. cbv beta in Ho. unfold is_u16. pose proof (zlen_nonneg rs). lia.
  - apply (region_offsets_lookup enc base rs pre r suf Hrs).
Qed.

(** From an offset inside or at the end of region [r], the window holds the
    rest of the region and all later regions. *)
Lemma format_window pre r suf a b :
  rs = pre ++ r :: suf -> enc_region enc r = a ++ b ->
  window view (base + zlen (blob enc pre) + zlen a) = Some (b ++ blob enc suf).
Proof.
  intros Hrs Hr. unfold window. cbn [restart_offset_ page_ format_view].
  assert (Hblob : blob enc rs = blob enc pre ++ a ++ b ++ blob enc suf).
  { rewrite Hrs, blob_app, blob_cons, Hr, <- app_assoc. reflexivity. }
  pose proof format_bounds as Hbd. rewrite Hblob in *. rewrite !zlen_app in *.
  pose proof (zlen_nonneg b). pose proof (zlen_nonneg (blob enc suf)).
  pose proof (zlen_nonneg a). pose proof (zlen_nonneg (blob enc pre)).
  rewrite (proj2 (Z.leb_le _ _)), (proj2 (Z.leb_le _ _)) by lia. simpl. f_equal.
  destruct Hpage as (hdr & pad & Hp & Hb & _). rewrite Hp. unfold format_page.
  rewrite <- Hb. rewrite <- Z.add_assoc.
  rewrite zdrop_app_add by lia. rewrite Hblob, <- !app_assoc.
  rewrite zdrop_app_add, zdrop_app by lia.
  rewrite (app_assoc b).
  match goal with |- ztake ?n ((?x ++ ?y) ++ _) = _ =>
    replace n with (zlen (x ++ y)) by (rewrite zlen_app; lia) end.
  apply ztake_app.
Qed.
End reading.
