(* ===== verification/DataPage.v ===== *)
(** * Building data pages (src/storage/data_page_builder.cpp)

    [DataPageBuilder] appends prefix-compressed entries to a page buffer until
    the page is full.  The builder is shown to produce pages of the reference
    format of PageFormat, with the entries that were added, within the page
    size. *)

From S2P Require Import Prelude Coding Comparator PageFormat.

Inductive CompressionType := CompNone | CompDictionary | CompStandalone.

Definition CompressionType_code (c : CompressionType) : Z :=
  match c with CompNone => 0 | CompDictionary => 1 | CompStandalone => 2 end.

(** [static_cast] from the two flag bits; 0b11 is handled before the cast. *)
Definition CompressionType_of_code (z : Z) : CompressionType :=
  if z =? 1 then CompDictionary else if z =? 2 then CompStandalone else CompNone.

(** What the iterator exposes of the entry it stands on. *)
Record Entry := mkEntry {
  key_ : bytes;
  value_ : bytes;
  overflow_ : bool;
  large_value_ : bool;
  compression_type_ : CompressionType;
  timestamp_ : Z;
  expire_ts_ : Z
}.

(** [enum class ValLenBit] *)
Definition ValLenBit_Overflow : Z := 0.
Definition ValLenBit_Expire : Z := 1.
Definition ValLenBit_DictionaryCompressed : Z := 2.
Definition ValLenBit_BitsCount : Z := 4.

Definition IsLargeValueEncoding (stored_val_len : Z) : bool :=
  Z.land (Z.shiftr stored_val_len ValLenBit_DictionaryCompressed) 3 =? 3.

(** ** The builder *)
Record DataPageBuilder := mkBuilder {
  b_buffer : bytes;
  b_restarts : list Z;
  b_counter : Z;
  b_cnt : Z;
  b_finished : bool;
  b_last_key : bytes;
  b_last_timestamp : Z
}.

Definition ClampTimestampToInt64 (ts : Z) : Z :=
  if 2 ^ 63 - 1 <? ts then 2 ^ 63 - 1 else ts.

Definition HeaderSize : Z := checksum_bytes + 1 + 2 + 4 * 2.

Definition Reset : DataPageBuilder :=
  let buffer := SetPageType (replicate (Z.to_nat HeaderSize) 0) Data in
  mkBuilder buffer [zlen buffer] 0 0 false [] 0.

Definition CurrentSizeEstimate (b : DataPageBuilder) : Z :=
  zlen (b_buffer b) + zlen (b_restarts b) * 2 + 2.

Definition NeedRestart (opts : KvOptions) (b : DataPageBuilder) : bool :=
  data_page_restart_interval opts <=? b_counter b.

(** Returns the added bytes, the shared and non-shared key lengths and the
    folded timestamp delta. *)
Definition CalculateDelta (key : bytes) (stored_val_len ts expire_ts : Z)
    (last_key : bytes) (last_ts : Z) (restart : bool) : Z * Z * Z * Z :=
  let last_ts := if restart then 0 else last_ts in
  let shared := if restart then 0 else Z.of_nat (common_prefix last_key key) in
  let non_shared := zlen key - shared in
  let p_ts_delta := EncodeInt64Delta (i64 (ClampTimestampToInt64 ts - last_ts)) in
  let addition_delta :=
    (if restart then 2 else 0) +
    Varint32Size (u32 shared) + Varint32Size (u32 non_shared) +
    Varint32Size (u32 stored_val_len) + non_shared +
    Z.shiftr stored_val_len ValLenBit_BitsCount +
    (if expire_ts =? 0 then 0 else Varint64Size expire_ts) +
    Varint64Size p_ts_delta in
  (addition_delta, shared, non_shared, p_ts_delta).

Definition IsOverflowKV (opts : KvOptions) (key : bytes) (val_size ts expire_ts : Z) : bool :=
  let reserved := HeaderSize + 2 * 2 in
  if data_page_size opts <? reserved + val_size then true
  else
    let stored_val_len := Z.shiftl val_size ValLenBit_BitsCount in
    let '(delta, _, _, _) := CalculateDelta key stored_val_len ts expire_ts [] 0 false in
    data_page_size opts <? reserved + delta.

(** The value length with its flag bits, as [Add] computes it. *)
Definition stored_val_len (val_size expire_ts : Z) (overflow large_value : bool)
    (compression_kind : CompressionType) : Z :=
  let s := Z.shiftl val_size ValLenBit_BitsCount in
  let s := Z.lor s (Z.shiftl (Z.b2z overflow) ValLenBit_Overflow) in
  let s := if large_value then Z.lor s (Z.shiftl 3 ValLenBit_DictionaryCompressed)
           else Z.lor s (Z.shiftl (CompressionType_code compression_kind)
                           ValLenBit_DictionaryCompressed) in
  if expire_ts =? 0 then s else Z.lor s (Z.shiftl 1 ValLenBit_Expire).

Definition Add (opts : KvOptions) (b : DataPageBuilder) (key value : bytes)
    (overflow : bool) (ts expire_ts : Z) (compression_kind : CompressionType)
    (large_value : bool) : bool * DataPageBuilder :=
  let stored := stored_val_len (zlen value) expire_ts overflow large_value compression_kind in
  let '(size_delta, shared, non_shared, ts_delta) :=
    CalculateDelta key stored ts expire_ts (b_last_key b) (b_last_timestamp b)
      (NeedRestart opts b) in
  if data_page_size opts <? CurrentSizeEstimate b + size_delta then (false, b)
  else
    let restarts := if NeedRestart opts b then b_restarts b ++ [zlen (b_buffer b)]
                    else b_restarts b in
    let counter := if NeedRestart opts b then 0 else b_counter b in
    let buffer := PutVarint32 (b_buffer b) (u32 shared) in
    let buffer := PutVarint32 buffer (u32 non_shared) in
    let buffer := PutVarint32 buffer (u32 stored) in
    let buffer := buffer ++ ztake non_shared (zdrop shared key) in
    let buffer := buffer ++ value in
    let buffer := if expire_ts =? 0 then buffer else PutVarint64 buffer expire_ts in
    let buffer := PutVarint64 buffer ts_delta in
    let last_key := ztake shared (b_last_key b) ++ ztake non_shared (zdrop shared key) in
    (true, mkBuilder buffer restarts (counter + 1) (u16 (b_cnt b + 1)) (b_finished b)
             last_key (ClampTimestampToInt64 ts)).

Definition Finish (opts : KvOptions) (b : DataPageBuilder) : bytes * DataPageBuilder :=
  let buffer := fold_left PutFixed16 (b_restarts b) (b_buffer b) in
  let buffer := PutFixed16 buffer (zlen (b_restarts b)) in
  let content_size := u16 (zlen buffer) in
  let buffer := write_at buffer page_size_offset (EncodeFixed16 content_size) in
  let buffer := resize (data_page_size opts) buffer in
  (buffer, mkBuilder buffer (b_restarts b) (b_counter b) (b_cnt b) true
             (b_last_key b) (b_last_timestamp b)).

(** ** The reference encoder of an entry

    Relative to the preceding entry of the region; [None] at a restart point. *)
Definition prev_key (prev : option Entry) : bytes :=
  match prev with Some p => key_ p | None => [] end.

Definition prev_ts (prev : option Entry) : Z :=
  match prev with Some p => timestamp_ p | None => 0 end.

Definition shared_len (prev : option Entry) (key : bytes) : Z :=
  Z.of_nat (common_prefix (prev_key prev) key).

Definition entry_val_len (e : Entry) : Z :=
  stored_val_len (zlen (value_ e)) (expire_ts_ e) (overflow_ e) (large_value_ e)
    (compression_type_ e).

Definition enc_entry (prev : option Entry) (e : Entry) : bytes :=
  let shared := shared_len prev (key_ e) in
  EncodeVarint32 shared ++ EncodeVarint32 (zlen (key_ e) - shared) ++
  EncodeVarint32 (entry_val_len e) ++ zdrop shared (key_ e) ++ value_ e ++
  (if expire_ts_ e =? 0 then [] else EncodeVarint64 (expire_ts_ e)) ++
  EncodeVarint64 (EncodeInt64Delta (timestamp_ e - prev_ts prev)).

(** Entries as the builder stores them: the timestamp is a non-negative signed
    integer, and a large value has no compression kind. *)
Record wf_entry (e : Entry) : Prop := {
  wf_size : zlen (key_ e) + zlen (value_ e) < 65536;
  wf_ts : 0 <= timestamp_ e < 2 ^ 63;
  wf_expire : is_u64 (expire_ts_ e);
  wf_large : large_value_ e = true -> compression_type_ e = CompNone
}.

(** ** Value-length word *)
Definition val_flags (expire_ts : Z) (overflow large_value : bool) (c : CompressionType) : Z :=
  Z.b2z overflow + (if expire_ts =? 0 then 0 else 2) +
  4 * (if large_value then 3 else CompressionType_code c).

Lemma val_flags_range x o l c : 0 <= val_flags x o l c < 16.
Proof. unfold val_flags. destruct o, l, c; simpl; case_if; lia. Qed.

Lemma stored_val_len_eq n x o l c :
  0 <= n -> stored_val_len n x o l c = n * 16 + val_flags x o l c.
Proof.
  intros Hn.
  assert (H : forall f, 0 <= f < 16 -> Z.lor (Z.shiftl n 4) f = n * 16 + f).
  { intros f Hf. rewrite Z.lor_comm, lor_disjoint by lia. lia. }
  unfold stored_val_len, val_flags, ValLenBit_BitsCount, ValLenBit_Overflow,
    ValLenBit_DictionaryCompressed, ValLenBit_Expire.
  destruct o, l, c; case_if; rewrite <- ?Z.lor_assoc; cbn [CompressionType_code Z.b2z];
    (rewrite H by (vm_compute; split; [discriminate|reflexivity])); reflexivity.
Qed.

Lemma entry_val_len_range e : wf_entry e -> 0 <= entry_val_len e < 2 ^ 20.
Proof.
  intros [Hs _ _ _]. unfold entry_val_len.
  pose proof (zlen_nonneg (key_ e)). pose proof (zlen_nonneg (value_ e)).
  rewrite stored_val_len_eq by lia.
  pose proof (val_flags_range (expire_ts_ e) (overflow_ e) (large_value_ e) (compression_type_ e)).
  change (2 ^ 20) with 1048576. lia.
Qed.

(** ** Common prefixes *)
Lemma common_prefix_le a b :
  (common_prefix a b <= length a)%nat /\ (common_prefix a b <= length b)%nat.
Proof.
  destruct (common_prefix_split a b) as (p & a' & b' & -> & -> & -> & _).
  rewrite !length_app. lia.
Qed.

Lemma common_prefix_take a b : take (common_prefix a b) a = take (common_prefix a b) b.
Proof.
  destruct (common_prefix_split a b) as (p & a' & b' & -> & -> & -> & _).
  rewrite !take_app_length. reflexivity.
Qed.

Lemma shared_len_range prev k :
  0 <= shared_len prev k <= zlen k /\ shared_len prev k <= zlen (prev_key prev).
Proof.
  unfold shared_len, zlen. pose proof (common_prefix_le (prev_key prev) k). lia.
Qed.

Lemma shared_len_key prev k :
  ztake (shared_len prev k) (prev_key prev) ++ zdrop (shared_len prev k) k = k.
Proof.
  unfold shared_len, ztake, zdrop. rewrite Nat2Z.id, common_prefix_take. apply take_drop.
Qed.

Lemma enc_entry_pos prev e : 1 <= zlen (enc_entry prev e).
Proof.
  unfold enc_entry. rewrite zlen_app, <- Varint32Size_length.
  pose proof (Varint32Size_range (shared_len prev (key_ e))).
  match goal with |- context [_ + zlen ?l] => pose proof (zlen_nonneg l) end. lia.
Qed.

(** ** The builder invariant

    A builder holds the regions [init ++ [lastr]]; [lastr] is the one being
    filled. *)
Definition data_header : bytes :=
  SetPageType (replicate (Z.to_nat HeaderSize) 0) Data.

Definition valid_options (opts : KvOptions) : Prop :=
  HeaderSize + 4 <= data_page_size opts < 65536 /\ 1 <= data_page_restart_interval opts.

Record builder_inv (opts : KvOptions) (init : list (list Entry)) (lastr : list Entry)
    (b : DataPageBuilder) : Prop := {
  inv_buffer : b_buffer b = data_header ++ blob enc_entry (init ++ [lastr]);
  inv_restarts : b_restarts b = region_offsets enc_entry HeaderSize (init ++ [lastr]);
  inv_counter : b_counter b = zlen lastr;
  inv_last_key : b_last_key b = prev_key (last_from None lastr);
  inv_last_ts : b_last_timestamp b = prev_ts (last_from None lastr);
  inv_last_len : zlen (b_last_key b) <= zlen (b_buffer b);
  inv_ts_range : 0 <= b_last_timestamp b < 2 ^ 63;
  inv_size : CurrentSizeEstimate b <= data_page_size opts;
  inv_wf : Forall (Forall wf_entry) (init ++ [lastr]);
  inv_full : Forall (fun r => zlen r = data_page_restart_interval opts) init;
  inv_last_max : zlen lastr <= data_page_restart_interval opts
}.

(** The regions after one more entry: a full region starts a new one. *)
Definition push_entry (interval : Z) (init : list (list Entry)) (lastr : list Entry)
    (e : Entry) : list (list Entry) * list Entry :=
  if interval <=? zlen lastr then (init ++ [lastr], [e]) else (init, lastr ++ [e]).

(** The entry that a call of [Add] stores. *)
Definition added_entry (key value : bytes) (overflow : bool) (ts expire_ts : Z)
    (c : CompressionType) (large_value : bool) : Entry :=
  mkEntry key value overflow large_value (if large_value then CompNone else c)
    (ClampTimestampToInt64 ts) expire_ts.

Lemma Clamp_range ts : 0 <= ts -> 0 <= ClampTimestampToInt64 ts < 2 ^ 63.
Proof. unfold ClampTimestampToInt64. case_if; lia. Qed.

Lemma Reset_inv opts : valid_options opts -> builder_inv opts [] [] Reset.
Proof.
  intros [Hs Hi]. constructor; try reflexivity; try discriminate; try (cbn; lia).
  - change (CurrentSizeEstimate Reset) with (HeaderSize + 4). lia.
  - repeat constructor.
  - constructor.
  - rewrite (@zlen_nil Entry). lia.
Qed.

Lemma stored_val_len_large n x o l c :
  stored_val_len n x o l (if l then CompNone else c) = stored_val_len n x o l c.
Proof. destruct l; reflexivity. Qed.

Lemma shiftr_stored n x o l c :
  0 <= n -> Z.shiftr (stored_val_len n x o l c) ValLenBit_BitsCount = n.
Proof.
  intros. rewrite stored_val_len_eq by lia. unfold ValLenBit_BitsCount.
  rewrite Z.shiftr_div_pow2 by lia. change (2 ^ 4) with 16.
  rewrite Z.div_add_l, Z.div_small by (try apply val_flags_range; lia). lia.
Qed.

(** [CalculateDelta] announces exactly the bytes of the reference encoding, and
    the numbers [Add] writes, for an entry that fits a page. *)
Lemma CalculateDelta_spec prev restart e :
  wf_entry e -> 0 <= prev_ts prev < 2 ^ 63 ->
  let prev' := if restart : bool then None else prev in
  CalculateDelta (key_ e) (entry_val_len e) (timestamp_ e) (expire_ts_ e)
    (prev_key prev) (prev_ts prev) restart =
  ((if restart then 2 else 0) + zlen (enc_entry prev' e),
   shared_len prev' (key_ e), zlen (key_ e) - shared_len prev' (key_ e),
   EncodeInt64Delta (timestamp_ e - prev_ts prev')).
Proof.
  intros Hwf Hp prev'. pose proof (wf_ts _ Hwf) as Hts. pose proof (wf_size _ Hwf) as Hsz.
  unfold CalculateDelta.
  assert (Hsh : (if restart then 0 else Z.of_nat (common_prefix (prev_key prev) (key_ e))) =
                shared_len prev' (key_ e)) by (unfold prev'; destruct restart; reflexivity).
  rewrite Hsh.
  replace (if restart then 0 else prev_ts prev) with (prev_ts prev')
    by (unfold prev'; destruct restart; reflexivity).
  assert (Hpt : 0 <= prev_ts prev' < 2 ^ 63) by (unfold prev'; destruct restart; simpl; lia).
  replace (ClampTimestampToInt64 (timestamp_ e)) with (timestamp_ e)
    by (unfold ClampTimestampToInt64; case_if; lia).
  rewrite i64_id by width.
  pose proof (shared_len_range prev' (key_ e)). pose proof (zlen_nonneg (value_ e)).
  pose proof (zlen_nonneg (key_ e)). pose proof (entry_val_len_range e Hwf) as Hvl.
  change (2 ^ 20) with 1048576 in Hvl.
  rewrite !u32_id by width. do 3 f_equal.
  unfold enc_entry. rewrite !zlen_app, <- !Varint32Size_length, <- !Varint64Size_length.
  unfold entry_val_len at 2. rewrite shiftr_stored by lia.
  rewrite zlen_zdrop by lia. case_if; rewrite ?(@zlen_nil Z), <- ?Varint64Size_length; lia.
Qed.

(** The bytes [Add] appends are the reference encoding. *)
Lemma Add_bytes prev e buf :
  wf_entry e ->
  let shared := shared_len prev (key_ e) in
  let b1 := PutVarint32 (PutVarint32 (PutVarint32 buf (u32 shared))
              (u32 (zlen (key_ e) - shared))) (u32 (entry_val_len e)) in
  let b2 := (b1 ++ ztake (zlen (key_ e) - shared) (zdrop shared (key_ e))) ++ value_ e in
  PutVarint64 (if expire_ts_ e =? 0 then b2 else PutVarint64 b2 (expire_ts_ e))
    (EncodeInt64Delta (timestamp_ e - prev_ts prev)) = buf ++ enc_entry prev e.
Proof.
  intros Hwf. cbv zeta. pose proof (wf_size _ Hwf).
  pose proof (shared_len_range prev (key_ e)). pose proof (zlen_nonneg (value_ e)).
  pose proof (entry_val_len_range e Hwf) as Hvl. change (2 ^ 20) with 1048576 in Hvl.
  rewrite !u32_id by width. rewrite <- zlen_zdrop, ztake_all by lia.
  rewrite zlen_zdrop by lia.
  unfold PutVarint32, PutVarint64, enc_entry. case_if; rewrite <- !app_assoc; reflexivity.
Qed.

Lemma CalculateDelta_lower key stored ts expire_ts last_key last_ts restart :
  let '(size, shared, non_shared, _) :=
    CalculateDelta key stored ts expire_ts last_key last_ts restart in
  zlen key - zlen last_key + Z.shiftr stored ValLenBit_BitsCount <= size.
Proof.
  unfold CalculateDelta.
  assert (Hs : (if restart then 0 else Z.of_nat (common_prefix last_key key)) <= zlen last_key).
  { unfold zlen. pose proof (common_prefix_le last_key key). destruct restart; lia. }
  set (shared := if restart then _ else _) in *.
  pose proof (Varint32Size_range (u32 shared)).
  pose proof (Varint32Size_range (u32 (zlen key - shared))).
  pose proof (Varint32Size_range (u32 stored)).
  pose proof (Varint64Size_range expire_ts).
  match goal with |- context [Varint64Size (EncodeInt64Delta ?d)] =>
    pose proof (Varint64Size_range (EncodeInt64Delta d)) end.
  destruct restart; case_if; lia.
Qed.

Lemma CalculateDelta_clamp key stored ts expire_ts last_key last_ts restart :
  CalculateDelta key stored (ClampTimestampToInt64 ts) expire_ts last_key last_ts restart =
  CalculateDelta key stored ts expire_ts last_key last_ts restart.
Proof.
  assert (Hc : ClampTimestampToInt64 (ClampTimestampToInt64 ts) = ClampTimestampToInt64 ts)
    by (unfold ClampTimestampToInt64; repeat case_if; lia).
  unfold CalculateDelta. rewrite Hc. reflexivity.
Qed.

(** An entry that [Add] accepts is small enough to be well formed. *)
Lemma Add_fits_wf opts init lastr b key value overflow ts expire_ts c large restart size sh nsh tsd :
  valid_options opts -> builder_inv opts init lastr b -> is_u64 ts -> is_u64 expire_ts ->
  CalculateDelta key (stored_val_len (zlen value) expire_ts overflow large c) ts expire_ts
    (b_last_key b) (b_last_timestamp b) restart = (size, sh, nsh, tsd) ->
  CurrentSizeEstimate b + size <= data_page_size opts ->
  wf_entry (added_entry key value overflow ts expire_ts c large).
Proof.
  intros [Hps _] Hinv Hts Hex HD Hfit.
  pose proof (CalculateDelta_lower key (stored_val_len (zlen value) expire_ts overflow large c)
    ts expire_ts (b_last_key b) (b_last_timestamp b) restart) as Hl.
  rewrite HD, shiftr_stored in Hl by apply zlen_nonneg.
  pose proof (inv_last_len _ _ _ _ Hinv). unfold CurrentSizeEstimate in Hfit.
  pose proof (zlen_nonneg (b_restarts b)).
  constructor; simpl.
  - lia.
  - apply Clamp_range. width.
  - exact Hex.
  - intros ->. reflexivity.
Qed.

(** The state after an accepted entry, in both cases of the restart test. *)
Lemma push_inv opts init lastr b e :
  valid_options opts -> builder_inv opts init lastr b -> wf_entry e ->
  let restart := NeedRestart opts b in
  let prev := if restart then None else last_from None lastr in
  CurrentSizeEstimate b + ((if restart then 2 else 0) + zlen (enc_entry prev e)) <=
    data_page_size opts ->
  let '(init', lastr') := push_entry (data_page_restart_interval opts) init lastr e in
  builder_inv opts init' lastr'
    (mkBuilder (b_buffer b ++ enc_entry prev e)
       (if restart then b_restarts b ++ [zlen (b_buffer b)] else b_restarts b)
       ((if restart then 0 else b_counter b) + 1) (u16 (b_cnt b + 1)) (b_finished b)
       (key_ e) (timestamp_ e)).
Proof.
  intros [Hps Hri] Hinv Hwf restart prev Hfit.
  destruct Hinv as [Hbuf Hres Hcnt Hlk Hlts Hll Htr Hsz Hwfs Hfull Hmax].
  assert (Hr : restart = (data_page_restart_interval opts <=? zlen lastr))
    by (unfold restart, NeedRestart; rewrite Hcnt; reflexivity).
  unfold push_entry. rewrite <- Hr. unfold CurrentSizeEstimate in *.
  assert (Hpk : zlen (prev_key prev) <= zlen (b_buffer b)).
  { unfold prev. destruct restart; [apply zlen_nonneg|]. rewrite <- Hlk. exact Hll. }
  assert (Hkey : zlen (key_ e) <= zlen (b_buffer b ++ enc_entry prev e)).
  { pose proof (shared_len_range prev (key_ e)). unfold enc_entry.
    rewrite !zlen_app, zlen_zdrop by lia. zlia. }
  assert (Hlen : zlen (b_buffer b) = HeaderSize + zlen (blob enc_entry (init ++ [lastr])))
    by (rewrite Hbuf, zlen_app; reflexivity).
  assert (Hwf2 : Forall (Forall wf_entry) (init ++ [lastr ++ [e]])).
  { apply Forall_app in Hwfs as [Hi Hl]. apply Forall_cons_1 in Hl as [Hl _].
    apply Forall_app_2; [exact Hi|]. repeat constructor. apply Forall_app_2; auto. }
  pose proof (wf_ts _ Hwf) as Hets.
  destruct restart; constructor; cbn [b_buffer b_restarts b_counter b_last_key b_last_timestamp
    CurrentSizeEstimate]; auto.
  - rewrite Hbuf, (blob_snoc _ (init ++ [lastr])), app_assoc. unfold enc_region. simpl.
    rewrite app_nil_r. reflexivity.
  - rewrite (region_offsets_snoc _ _ (init ++ [lastr])), Hres, Hlen. reflexivity.
  - unfold CurrentSizeEstimate. simpl. rewrite !zlen_app, zlen_cons, (@zlen_nil Z). lia.
  - apply Forall_app_2; auto.
  - apply Forall_app_2; [exact Hfull|]. repeat constructor. symmetry in Hr. lia.
  - rewrite Hbuf, !blob_snoc, enc_region_snoc, !app_assoc. reflexivity.
  - rewrite Hres, !region_offsets_snoc. reflexivity.
  - rewrite Hcnt, zlen_app. reflexivity.
  - rewrite last_from_snoc. reflexivity.
  - rewrite last_from_snoc. reflexivity.
  - unfold CurrentSizeEstimate. simpl. rewrite zlen_app. lia.
  - rewrite zlen_app, zlen_cons, (@zlen_nil Entry). symmetry in Hr. lia.
Qed.

(** The key the builder keeps after an entry is the entry's key. *)
Lemma Add_last_key (restart : bool) prev key :
  let shared := shared_len (if restart then None else prev) key in
  ztake shared (prev_key prev) ++ ztake (zlen key - shared) (zdrop shared key) = key.
Proof.
  cbv zeta. pose proof (shared_len_range (if restart then None else prev) key).
  rewrite <- zlen_zdrop, ztake_all by lia.
  destruct restart; [reflexivity|apply shared_len_key].
Qed.

(** A call of [Add] in terms of the regions: an entry that fits is stored, one
    that does not leaves the builder as it was. *)
Lemma Add_inv opts init lastr b key value overflow ts expire_ts c large :
  valid_options opts -> builder_inv opts init lastr b -> is_u64 ts -> is_u64 expire_ts ->
  let e := added_entry key value overflow ts expire_ts c large in
  let '(ok, b') := Add opts b key value overflow ts expire_ts c large in
  if ok : bool then
    wf_entry e /\
    let '(init', lastr') := push_entry (data_page_restart_interval opts) init lastr e in
    builder_inv opts init' lastr' b'
  else b' = b.
Proof.
  intros Hopt Hinv Hts Hex e. unfold Add.
  destruct (CalculateDelta key _ ts expire_ts _ _ _) as [[[size shared] non_shared] tsd] eqn:HD.
  destruct (Z.ltb_spec (data_page_size opts) (CurrentSizeEstimate b + size)) as [|Hfit]; [reflexivity|].
  pose proof (Add_fits_wf _ _ _ _ _ _ _ _ _ _ _ _ _ _ _ _ Hopt Hinv Hts Hex HD Hfit) as Hwf.
  fold e in Hwf. split; [exact Hwf|].
  pose proof (inv_last_ts _ _ _ _ Hinv) as Hlts. pose proof (inv_ts_range _ _ _ _ Hinv) as Htr.
  pose proof (CalculateDelta_spec (last_from None lastr) (NeedRestart opts b) e Hwf
    ltac:(rewrite <- Hlts; exact Htr)) as HS. cbv zeta in HS.
  rewrite <- CalculateDelta_clamp in HD.
  rewrite (inv_last_key _ _ _ _ Hinv), Hlts in HD.
  unfold entry_val_len in HS. cbn [e added_entry key_ value_ overflow_ large_value_
    compression_type_ timestamp_ expire_ts_] in HS. rewrite stored_val_len_large in HS.
  rewrite HD in HS. injection HS as -> -> -> ->.
  pose proof (push_inv opts init lastr b e Hopt Hinv Hwf Hfit) as Hpush. cbv zeta in Hpush.
  destruct (push_entry _ init lastr e) as [init' lastr'].
  pose proof (Add_bytes (if NeedRestart opts b then None else last_from None lastr) e
    (b_buffer b) Hwf) as Hbytes. cbv zeta in Hbytes. rewrite <- Hbytes in Hpush.
  pose proof (Add_last_key (NeedRestart opts b) (last_from None lastr) key) as Hlk.
  cbv zeta in Hlk. rewrite (inv_last_key _ _ _ _ Hinv), Hlk.
  unfold entry_val_len in Hpush. cbn [e added_entry key_ value_ overflow_ large_value_
    compression_type_ timestamp_ expire_ts_] in *.
  rewrite stored_val_len_large in Hpush. exact Hpush.
Qed.

(** ** Finishing a page *)
Lemma Finish_format opts init lastr b :
  valid_options opts -> builder_inv opts init lastr b ->
  let '(page, b') := Finish opts b in
  page_format enc_entry HeaderSize (init ++ [lastr]) page /\
  zlen page = data_page_size opts /\
  page !! Z.to_nat page_type_offset = Some (PageType_code Data) /\ b_finished b' = true.
Proof.
  intros [Hps _] Hinv. unfold Finish. rewrite fold_PutFixed16.
  set (rs := init ++ [lastr]).
  pose proof (inv_size _ _ _ _ Hinv) as Hsz. unfold CurrentSizeEstimate in Hsz.
  rewrite (inv_buffer _ _ _ _ Hinv), (inv_restarts _ _ _ _ Hinv) in *. fold rs in Hsz |- *.
  assert (Hro : zlen (region_offsets enc_entry HeaderSize rs) = zlen rs)
    by (unfold zlen; rewrite region_offsets_length; reflexivity).
  rewrite zlen_app, Hro in Hsz. change (zlen data_header) with HeaderSize in Hsz.
  unfold PutFixed16. rewrite Hro, <- !app_assoc.
  set (body := blob enc_entry rs ++ restart_array (region_offsets enc_entry HeaderSize rs) ++
               EncodeFixed16 (zlen rs)).
  assert (Hlen : zlen (data_header ++ body) = content_size enc_entry HeaderSize rs).
  { unfold body, content_size. rewrite !zlen_app, restart_array_length, Hro.
    change (zlen data_header) with HeaderSize. change (zlen (EncodeFixed16 _)) with 2. lia. }
  assert (Hcs : 0 <= content_size enc_entry HeaderSize rs <= data_page_size opts)
    by (unfold content_size in *; rewrite <- Hlen; split; [apply zlen_nonneg|]; rewrite Hlen; lia).
  rewrite Hlen, u16_id by width. cbv zeta.
  destruct (finish_page data_header body (content_size enc_entry HeaderSize rs)
    (data_page_size opts)) as (hdr & pad & -> & Hh & Hd & Hl & _ & Hty).
  { change (zlen data_header) with 19. change page_size_offset with 9. lia. }
  { width. }
  { rewrite Hlen. lia. }
  split; [exists hdr, pad|split; [exact Hl|split; [|reflexivity]]].
  - unfold format_page, body. rewrite <- !app_assoc.
    split; [reflexivity|]. split; [exact Hh|]. split; [discriminate|]. split; [exact Hd|width].
  - rewrite Hty by (vm_compute; auto). reflexivity.
Qed.

(** ** Building a page from a list of entries *)
Record AddArgs := mkArgs {
  a_key : bytes;
  a_value : bytes;
  a_overflow : bool;
  a_ts : Z;
  a_expire_ts : Z;
  a_compression : CompressionType;
  a_large : bool
}.

Definition add_args (opts : KvOptions) (b : DataPageBuilder) (a : AddArgs) : bool * DataPageBuilder :=
  Add opts b (a_key a) (a_value a) (a_overflow a) (a_ts a) (a_expire_ts a)
    (a_compression a) (a_large a).

Definition stored_entry (a : AddArgs) : Entry :=
  added_entry (a_key a) (a_value a) (a_overflow a) (a_ts a) (a_expire_ts a)
    (a_compression a) (a_large a).

(** Adds every entry; [None] when one of them is rejected. *)
Fixpoint add_all (opts : KvOptions) (b : DataPageBuilder) (l : list AddArgs) : option DataPageBuilder :=
  match l with
  | [] => Some b
  | a :: l' =>
      let '(ok, b') := add_args opts b a in
      if ok then add_all opts b' l' else None
  end.

Definition wf_args (a : AddArgs) : Prop := is_u64 (a_ts a) /\ is_u64 (a_expire_ts a).

Lemma push_entry_concat n init lastr e :
  let '(init', lastr') := push_entry n init lastr e in
  concat (init' ++ [lastr']) = concat (init ++ [lastr]) ++ [e].
Proof.
  unfold push_entry. case_if; rewrite !concat_app; simpl; rewrite ?app_nil_r, ?app_assoc; reflexivity.
Qed.

Lemma push_entry_last n init lastr e : snd (push_entry n init lastr e) <> [].
Proof. unfold push_entry. case_if; simpl; [discriminate|]. destruct lastr; discriminate. Qed.

Lemma add_all_inv opts l init lastr b b' :
  valid_options opts -> builder_inv opts init lastr b -> Forall wf_args l ->
  add_all opts b l = Some b' ->
  exists init' lastr', builder_inv opts init' lastr' b' /\
    concat (init' ++ [lastr']) = concat (init ++ [lastr]) ++ map stored_entry l /\
    (lastr <> [] \/ l <> [] -> lastr' <> []).
Proof.
  intros Hopt Hinv Hl. revert init lastr b Hinv.
  induction Hl as [|a l [Hts Hex] _ IH]; intros init lastr b Hinv Hb; simpl in Hb.
  - injection Hb as <-. exists init, lastr. rewrite app_nil_r. intuition auto.
  - pose proof (Add_inv opts init lastr b (a_key a) (a_value a) (a_overflow a) (a_ts a)
      (a_expire_ts a) (a_compression a) (a_large a) Hopt Hinv Hts Hex) as HA. cbv zeta in HA.
    unfold add_args in Hb. destruct (Add opts b _ _ _ _ _ _ _) as [[|] b1]; [|discriminate Hb].
    destruct HA as [_ HA]. fold (stored_entry a) in HA.
    pose proof (push_entry_concat (data_page_restart_interval opts) init lastr (stored_entry a)) as Hc.
    pose proof (push_entry_last (data_page_restart_interval opts) init lastr (stored_entry a)) as Hn.
    destruct (push_entry _ init lastr (stored_entry a)) as [i1 l1]. simpl in Hn.
    destruct (IH i1 l1 b1 HA Hb) as (i2 & l2 & Hinv2 & Hc2 & Hn2).
    exists i2, l2. rewrite Hc2, Hc, <- app_assoc. auto.
Qed.

(** Regions of a finished page: none is empty. *)
Lemma builder_regions_nonempty opts init lastr b :
  valid_options opts -> builder_inv opts init lastr b -> lastr <> [] ->
  Forall (fun r => r <> []) (init ++ [lastr]).
Proof.
  intros [_ Hi] Hinv Hl. apply Forall_app_2; [|auto].
  eapply Forall_impl; [|exact (inv_full _ _ _ _ Hinv)].
  intros r Hr ->. cbv beta in Hr. rewrite (@zlen_nil Entry) in Hr. lia.
Qed.

(** The size of the value-length word does not depend on its flag bits. *)
Lemma Varint32Size_flags n f : 0 <= f < 16 -> Varint32Size (n * 16 + f) = Varint32Size (n * 16).
Proof.
  intros. unfold Varint32Size.
  change (Z.shiftl 1 7) with 128. change (Z.shiftl 1 14) with 16384.
  change (Z.shiftl 1 21) with 2097152. change (Z.shiftl 1 28) with 268435456.
  repeat case_if; lia.
Qed.

Lemma CalculateDelta_flags key n x o l c ts last_key last_ts restart :
  0 <= n < 2 ^ 27 ->
  fst (fst (fst (CalculateDelta key (stored_val_len n x o l c) ts x last_key last_ts restart))) =
  fst (fst (fst (CalculateDelta key (Z.shiftl n ValLenBit_BitsCount) ts x last_key last_ts restart))).
Proof.
  intros Hn. unfold CalculateDelta. simpl fst.
  rewrite shiftr_stored by lia. rewrite stored_val_len_eq by lia.
  pose proof (val_flags_range x o l c).
  rewrite (Z.shiftl_mul_pow2 n) by (unfold ValLenBit_BitsCount; lia).
  rewrite Z.shiftr_div_pow2 by (unfold ValLenBit_BitsCount; lia).
  change (2 ^ ValLenBit_BitsCount) with 16. rewrite Z.div_mul by lia.
  rewrite !(u32_id (n * 16 + _)), !(u32_id (n * 16)) by (unfold is_u32; lia).
  rewrite Varint32Size_flags by lia. reflexivity.
Qed.

Lemma Add_Reset_iff opts key value overflow ts expire_ts c large :
  valid_options opts -> is_u64 ts -> is_u64 expire_ts ->
  fst (Add opts Reset key value overflow ts expire_ts c large) =
  negb (IsOverflowKV opts key (zlen value) ts expire_ts).
Proof.
  intros [Hps Hi] Hts Hex. unfold Add, IsOverflowKV.
  assert (Hr : NeedRestart opts Reset = false)
    by (unfold NeedRestart; simpl; apply Z.leb_gt; lia).
  rewrite Hr. change (b_last_key Reset) with (@nil Z). change (b_last_timestamp Reset) with 0.
  change (CurrentSizeEstimate Reset) with (HeaderSize + 2 * 2).
  set (s1 := stored_val_len _ _ _ _ _).
  pose proof (CalculateDelta_lower key s1 ts expire_ts [] 0 false) as Hlow.
  unfold s1 in Hlow at 2. rewrite shiftr_stored in Hlow by apply zlen_nonneg.
  destruct (Z.ltb_spec (data_page_size opts) (HeaderSize + 2 * 2 + zlen value)) as [Hbig|Hsmall].
  - destruct (CalculateDelta _ s1 _ _ _ _ _) as [[[size ?] ?] ?].
    rewrite (@zlen_nil Z) in Hlow. case_if; [reflexivity|]. zlia.
  - assert (Hn : 0 <= zlen value < 2 ^ 27) by (change HeaderSize with 19 in *; zlia).
    pose proof (CalculateDelta_flags key (zlen value) expire_ts overflow large c ts [] 0 false Hn) as Hf.
    fold s1 in Hf.
    destruct (CalculateDelta _ s1 _ _ _ _ _) as [[[size ?] ?] ?].
    destruct (CalculateDelta _ (Z.shiftl _ _) _ _ _ _ _) as [[[size' ?] ?] ?].
    simpl in Hf. subst size'. case_if; reflexivity.
Qed.

(** ** Properties *)

(** Every sequence of entries that the builder accepts ends up in a page of
    the reference format, of exactly the configured size: its regions hold the
    entries in order, all regions but the last have the restart interval, and
    none is empty. *)
Theorem builder_produces_format opts l b :
  valid_options opts -> Forall wf_args l -> l <> [] ->
  add_all opts Reset l = Some b ->
  exists init lastr,
    page_format enc_entry HeaderSize (init ++ [lastr]) (fst (Finish opts b)) /\
    concat (init ++ [lastr]) = map stored_entry l /\
    zlen (fst (Finish opts b)) = data_page_size opts /\
    Forall (Forall wf_entry) (init ++ [lastr]) /\
    Forall (fun r => zlen r = data_page_restart_interval opts) init /\
    0 < zlen lastr <= data_page_restart_interval opts.
Proof.
  intros Hopt Hwf Hl Hb.
  destruct (add_all_inv opts l [] [] Reset b Hopt (Reset_inv opts Hopt) Hwf Hb)
    as (init & lastr & Hinv & Hc & Hn).
  exists init, lastr. pose proof (Finish_format opts init lastr b Hopt Hinv) as HF.
  destruct (Finish opts b) as [page b']. destruct HF as (Hf & Hlen & _).
  specialize (Hn (or_intror Hl)). pose proof (inv_last_max _ _ _ _ Hinv).
  pose proof (inv_wf _ _ _ _ Hinv). pose proof (inv_full _ _ _ _ Hinv).
  assert (0 < zlen lastr) by (destruct lastr; [congruence|rewrite zlen_cons; zlia]).
  simpl in *. auto 10.
Qed.

Definition example_options : KvOptions := mkKvOptions 128 2 2 4.

Definition example_args : list AddArgs :=
  [mkArgs [1; 1] [10] false 100 0 CompNone false;
   mkArgs [1; 2] [11] false 120 7 CompNone true;
   mkArgs [1; 3; 1] [12; 13] true 90 0 CompDictionary false].

Lemma builder_produces_format_witness :
  exists b, add_all example_options Reset example_args = Some b /\
    zlen (fst (Finish example_options b)) = 128.
Proof.
  destruct (add_all example_options Reset example_args) as [b|] eqn:Hb; [|discriminate Hb].
  exists b. split; [reflexivity|].
  destruct (builder_produces_format example_options example_args b) as (i & l & _ & _ & H & _).
  - split; [vm_compute; split; [discriminate|reflexivity]|discriminate].
  - repeat constructor; discriminate.
  - discriminate.
  - exact Hb.
  - exact H.
Defined.

(** C25: A key-value pair is declared an overflow pair exactly when it cannot be
    added to an empty page, whatever its flags and compression kind. *)
Theorem overflow_iff_rejected opts key value overflow ts expire_ts c large :
  valid_options opts -> is_u64 ts -> is_u64 expire_ts ->
  fst (Add opts Reset key value overflow ts expire_ts c large) =
  negb (IsOverflowKV opts key (zlen value) ts expire_ts).
Proof. exact (Add_Reset_iff opts key value overflow ts expire_ts c large). Qed.

Lemma overflow_iff_rejected_witness :
  fst (Add example_options Reset [1] (replicate 200 7) false 5 0 CompNone false) = false.
Proof.
  rewrite overflow_iff_rejected; [reflexivity| | |];
    repeat split; vm_compute; try discriminate; reflexivity.
Defined.
