(* ===== verification/Regions.v ===== *)
(** * Locating entries in a page of regions

    Facts shared by the data-page and the index-page iterators: where an entry
    lies in a page of the reference format, how the restart index follows the
    offset, and what the order of the keys says about the regions. *)

From stdpp Require Import sorting.
From S2P Require Import Prelude Coding Comparator PageFormat.

(** The index update of [ParseNextKey] from index [idx] at offset [off]. *)
Definition advance_idx (v : PageView) (idx off : Z) : option Z :=
  if idx + 1 <? restart_num_ v then
    next ← RestartOffset v (idx + 1);
    Some (if next <=? off then idx + 1 else idx)
  else Some idx.

(** The region that ends at the ceiling restart point. *)
Definition region_limit (v : PageView) (ceil_point : Z) : option Z :=
  if ceil_point <? restart_num_ v then RestartOffset v ceil_point
  else Some (restart_offset_ v).

Definition is_nil {A} (l : list A) : bool := match l with [] => true | _ => false end.

Section regions.
  Context {E : Type} (enc : option E -> E -> bytes) (ekey : E -> bytes).
  Context (enc_pos : forall prev e, 1 <= zlen (enc prev e)).
  Context (base : Z) (rs : list (list E)) (page : bytes).
  Context (Hpage : page_format enc base rs page) (Hne : Forall (fun r => r <> []) rs).

  Local Abbreviation view := (format_view enc base rs page).

Lemma enc_entries_pos prev es : es <> [] -> 1 <= zlen (enc_entries enc prev es).
Proof.
  destruct es as [|e es]; [congruence|]. intros _. cbn [enc_entries]. rewrite zlen_app.
  pose proof (enc_pos prev e). zlia.
Qed.

(** Offset after the regions [pre] and the entries [done] of the next region. *)
Definition zpos (pre : list (list E)) (done : list E) : Z :=
  base + zlen (blob enc pre) + zlen (enc_entries enc None done).

Lemma zpos_snoc pre done e todo suf :
  rs = pre ++ (done ++ e :: todo) :: suf ->
  zpos pre (done ++ [e]) = zpos pre done + zlen (enc (last_from None done) e) /\
  restart_offset_ view = zpos pre (done ++ [e]) +
    zlen (enc_entries enc (Some e) todo ++ blob enc suf).
Proof.
  intros ->. unfold zpos. cbn [restart_offset_ format_view].
  rewrite blob_app, blob_cons. unfold enc_region. rewrite !enc_entries_app.
  cbn [enc_entries]. rewrite !zlen_app, (@zlen_nil Z). split; lia.
Qed.

Lemma view_window pre done todo suf :
  rs = pre ++ (done ++ todo) :: suf ->
  window view (zpos pre done) =
  Some (enc_entries enc (last_from None done) todo ++ blob enc suf).
Proof.
  intros Hrs. apply (format_window enc base rs page Hpage _ _ _ _ _ Hrs).
  unfold enc_region. apply enc_entries_app.
Qed.

Lemma restart_here pre r suf :
  rs = pre ++ r :: suf -> RestartOffset view (zlen pre) = Some (zpos pre []).
Proof.
  intros Hrs. rewrite (format_RestartOffset enc base rs page Hpage _ _ _ Hrs).
  f_equal. unfold zpos. simpl. rewrite (@zlen_nil Z). lia.
Qed.

Lemma zpos_region pre r : zpos (pre ++ [r]) [] = zpos pre r.
Proof. unfold zpos. rewrite blob_snoc, zlen_app. simpl. rewrite (@zlen_nil Z). unfold enc_region. lia. Qed.

Lemma restart_next pre r r' suf :
  rs = pre ++ r :: r' :: suf -> RestartOffset view (zlen pre + 1) = Some (zpos pre r).
Proof.
  intros Hrs. rewrite <- zpos_region. replace (zlen pre + 1) with (zlen (pre ++ [r]))
    by (rewrite zlen_app, zlen_cons, (@zlen_nil (list E)); lia).
  apply (restart_here (pre ++ [r]) r' suf). rewrite Hrs, <- app_assoc. reflexivity.
Qed.

Lemma zpos_app_lt pre a b : b <> [] -> zpos pre a < zpos pre (a ++ b).
Proof.
  intros Hb. unfold zpos. rewrite enc_entries_app, zlen_app.
  pose proof (enc_entries_pos (last_from None a) b Hb). lia.
Qed.

(** The restart index after a step. *)
Definition next_idx_ok (idx : Z) (pre : list (list E)) (todo : list E)
    (suf : list (list E)) : Prop :=
  match todo, suf with
  | _ :: _, _ => idx = zlen pre \/ (idx = zlen pre + 1 /\ suf <> [])
  | [], [] => idx = zlen pre
  | [], _ :: _ => idx = zlen pre + 1
  end.

Lemma next_idx_ok_back idx pre e todo suf :
  next_idx_ok idx pre todo suf -> next_idx_ok idx pre (e :: todo) suf.
Proof using Type. clear. destruct todo, suf; simpl; intuition congruence. Qed.

Lemma advance_here pre done todo suf :
  rs = pre ++ (done ++ todo) :: suf ->
  exists idx, next_idx_ok idx pre todo suf /\
    advance_idx view (zlen pre) (zpos pre done) = Some idx.
Proof.
  intros Hrs. unfold advance_idx. cbn [restart_num_ format_view].
  assert (Hn : zlen rs = zlen pre + 1 + zlen suf)
    by (rewrite Hrs, zlen_app, zlen_cons; lia).
  destruct suf as [|r' suf].
  - exists (zlen pre). rewrite (@zlen_nil (list E)) in Hn. case_if; [lia|].
    destruct todo; simpl; auto.
  - rewrite zlen_cons in Hn. case_if; [|zlia].
    rewrite (restart_next _ _ _ _ Hrs). simpl. destruct todo as [|t todo].
    + rewrite app_nil_r, Z.leb_refl. exists (zlen pre + 1). split; reflexivity.
    + pose proof (zpos_app_lt pre done (t :: todo) ltac:(discriminate)).
      case_if; [lia|]. exists (zlen pre). simpl. auto.
Qed.

Lemma advance_ahead pre done todo suf :
  rs = pre ++ (done ++ todo) :: suf -> suf <> [] ->
  advance_idx view (zlen pre + 1) (zpos pre done) = Some (zlen pre + 1).
Proof.
  intros Hrs Hs. unfold advance_idx. cbn [restart_num_ format_view].
  assert (Hn : zlen rs = zlen pre + 1 + zlen suf)
    by (rewrite Hrs, zlen_app, zlen_cons; lia).
  destruct suf as [|r1 [|r2 suf]]; [congruence| |].
  - rewrite zlen_cons, (@zlen_nil (list E)) in Hn. case_if; [lia|reflexivity].
  - rewrite !zlen_cons in Hn. case_if; [|zlia].
    set (r := done ++ todo) in *.
    replace (zlen pre + 1) with (zlen (pre ++ [r]))
      by (rewrite zlen_app, zlen_cons, (@zlen_nil (list E)); lia).
    rewrite (restart_next (pre ++ [r]) r1 r2 suf)
      by (rewrite Hrs, <- app_assoc; reflexivity). simpl.
    assert (Hr1 : r1 <> []).
    { rewrite Hrs in Hne. apply Forall_app in Hne as [_ H1].
      apply Forall_cons_1 in H1 as [_ H1]. apply Forall_cons_1 in H1 as [H1 _]. exact H1. }
    pose proof (zpos_app_lt (pre ++ [r]) [] r1 Hr1) as Hlt. rewrite zpos_region in Hlt.
    assert (zpos pre done <= zpos pre r).
    { unfold r. destruct todo as [|t todo]; [rewrite app_nil_r; lia|].
      apply Z.lt_le_incl, zpos_app_lt. discriminate. }
    cbn [app] in Hlt. case_if; [lia|reflexivity].
Qed.

Lemma zpos_end pre r : rs = pre ++ [r] -> restart_offset_ view = zpos pre r.
Proof.
  intros Hrs. cbn [restart_offset_ format_view]. rewrite Hrs, blob_snoc, zlen_app.
  unfold zpos, enc_region. lia.
Qed.

Lemma split_lookup pre done e todo suf :
  rs = pre ++ (done ++ e :: todo) :: suf ->
  concat rs !! (length (concat pre) + length done)%nat = Some e.
Proof.
  intros ->. rewrite concat_app. simpl.
  rewrite lookup_app_r by lia. replace (_ - _)%nat with (length done) by lia.
  rewrite <- app_assoc. simpl. apply list_lookup_middle. reflexivity.
Qed.

Lemma entries_fit_page pre r suf : rs = pre ++ r :: suf -> (length r <= length page)%nat.
Proof.
  intros Hrs.
  assert (Hlen : forall prev es, zlen es <= zlen (enc_entries enc prev es)).
  { intros prev es. revert prev. induction es as [|e es IH]; intros; [reflexivity|].
    cbn [enc_entries]. rewrite zlen_cons, zlen_app. pose proof (enc_pos prev e).
    specialize (IH (Some e)). lia. }
  destruct (format_bounds enc base rs page Hpage) as (H0 & _ & Hb).
  rewrite Hrs, blob_app, blob_cons, !zlen_app in Hb. specialize (Hlen None r).
  fold (enc_region enc r) in Hlen. unfold zlen in *. lia.
Qed.

(** ** Positions

    A cursor is an offset, a restart index and what the next delta is decoded
    against; [P] says that this is the given predecessor.  It stands before
    [todo] in the region after [pre].  After a backward step of a search the
    restart index may be one ahead. *)
Record at_pos (off idx : Z) (P : option E -> Prop) (pre : list (list E)) (done todo : list E)
    (suf : list (list E)) : Prop := {
  at_split : rs = pre ++ (done ++ todo) :: suf;
  at_off : off = zpos pre done;
  at_idx : idx = zlen pre \/ (idx = zlen pre + 1 /\ done <> [] /\ suf <> []);
  at_prev : done <> [] -> P (last_from None done)
}.

(** The restart test answers whether a region starts here. *)
Lemma at_restart_flag off idx P pre done todo suf :
  at_pos off idx P pre done todo suf -> todo <> [] ->
  exists ro, RestartOffset view idx = Some ro /\ (zpos pre done =? ro) = is_nil done.
Proof.
  intros [Hrs _ Hidx _] Htodo. destruct Hidx as [-> | (-> & Hd & Hs)].
  - exists (zpos pre []). split; [exact (restart_here _ _ _ Hrs)|].
    destruct done as [|d done]; [apply Z.eqb_refl|].
    pose proof (zpos_app_lt pre [] (d :: done) ltac:(discriminate)) as Hlt.
    cbn [app] in Hlt. simpl. apply Z.eqb_neq. lia.
  - destruct suf as [|r' suf]; [congruence|].
    exists (zpos pre (done ++ todo)). split; [exact (restart_next _ _ _ _ Hrs)|].
    pose proof (zpos_app_lt pre done todo Htodo).
    destruct done; [congruence|]. cbn [is_nil]. apply Z.eqb_neq. lia.
Qed.

Lemma at_next_idx off idx P pre done e todo suf :
  at_pos off idx P pre done (e :: todo) suf ->
  exists idx', next_idx_ok idx' pre todo suf /\
    advance_idx view idx (zpos pre (done ++ [e])) = Some idx'.
Proof.
  intros [Hrs _ Hidx _].
  replace (done ++ e :: todo) with ((done ++ [e]) ++ todo) in Hrs
    by (rewrite <- app_assoc; reflexivity).
  destruct Hidx as [-> | (-> & _ & Hs)]; [exact (advance_here _ _ _ _ Hrs)|].
  exists (zlen pre + 1). split; [|exact (advance_ahead _ _ _ _ Hrs Hs)].
  destruct todo, suf; simpl; auto; congruence.
Qed.

(** The cursor stands before entry number [i] of the page. *)
Definition stands (off idx : Z) (P : option E -> Prop) (i : nat) : Prop :=
  (exists pre done todo suf, at_pos off idx P pre done todo suf /\ todo <> [] /\
     i = (length (concat pre) + length done)%nat) \/
  (i = length (concat rs) /\ off = restart_offset_ view).

(** After a step the cursor is inside the region, or past it. *)
Lemma at_after idx (P : option E -> Prop) pre done e t todo suf :
  rs = pre ++ (done ++ e :: t :: todo) :: suf -> next_idx_ok idx pre (t :: todo) suf -> P (Some e) ->
  at_pos (zpos pre (done ++ [e])) idx P pre (done ++ [e]) (t :: todo) suf.
Proof.
  intros Hrs Hidx HP. constructor.
  - rewrite <- app_assoc. exact Hrs.
  - reflexivity.
  - destruct Hidx as [Hi|[Hi Hs]]; [left; exact Hi|right]. split; [exact Hi|].
    split; [destruct done; discriminate|exact Hs].
  - intros _. rewrite last_from_snoc. exact HP.
Qed.

Lemma at_region off idx P pre r suf :
  rs = pre ++ r :: suf -> off = zpos pre [] -> idx = zlen pre -> at_pos off idx P pre [] r suf.
Proof. intros. constructor; auto. congruence. Qed.

Lemma stands_region off idx P pre r suf :
  rs = pre ++ r :: suf -> off = zpos pre [] -> idx = zlen pre ->
  stands off idx P (length (concat pre)).
Proof.
  intros Hrs Hoff Hidx. left. exists pre, [], r, suf.
  split; [apply at_region; assumption|]. split; [|simpl; lia].
  rewrite Hrs in Hne. apply Forall_app in Hne as [_ [H _]%Forall_cons_1]. exact H.
Qed.

Lemma stands_after off idx (P : option E -> Prop) pre done e todo suf :
  rs = pre ++ (done ++ e :: todo) :: suf -> next_idx_ok idx pre todo suf ->
  off = zpos pre (done ++ [e]) -> P (Some e) ->
  stands off idx P (S (length (concat pre) + length done)).
Proof.
  intros Hrs Hidx -> HP.
  assert (Hrs' : rs = pre ++ ((done ++ [e]) ++ todo) :: suf)
    by (rewrite <- app_assoc; exact Hrs).
  assert (Hl : length (concat (pre ++ [done ++ [e]])) = S (length (concat pre) + length done))
    by (rewrite concat_app, length_app; simpl; rewrite app_nil_r, length_app; simpl; lia).
  destruct todo as [|t todo]; [destruct suf as [|r suf]|]; rewrite ?app_nil_r in Hrs'.
  - right. rewrite (zpos_end _ _ Hrs'), Hrs'. split; [symmetry; exact Hl|reflexivity].
  - rewrite <- Hl. apply (stands_region _ _ _ _ r suf).
    + rewrite <- app_assoc. exact Hrs'.
    + symmetry. apply zpos_region.
    + simpl in Hidx. rewrite Hidx, zlen_app, zlen_cons, (@zlen_nil (list E)). lia.
  - left. exists pre, (done ++ [e]), (t :: todo), suf. split; [apply at_after; assumption|].
    split; [discriminate|]. rewrite length_app. simpl. lia.
Qed.

Lemma stands_lookup off idx P i e :
  stands off idx P i -> concat rs !! i = Some e ->
  exists pre done todo suf, at_pos off idx P pre done (e :: todo) suf /\
    i = (length (concat pre) + length done)%nat /\ off < restart_offset_ view.
Proof.
  intros [(pre & done & todo & suf & Hat & Ht & ->) | [-> _]] Hi.
  - destruct todo as [|t todo]; [congruence|]. pose proof Hat as [Hrs -> _ _].
    rewrite (split_lookup _ _ _ _ _ Hrs) in Hi. injection Hi as ->.
    exists pre, done, todo, suf. split; [exact Hat|]. split; [reflexivity|].
    destruct (zpos_snoc _ _ _ _ _ Hrs). pose proof (enc_pos (last_from None done) e). zlia.
  - rewrite lookup_ge_None_2 in Hi by lia. discriminate Hi.
Qed.

Lemma stands_end off idx P : stands off idx P (length (concat rs)) -> off = restart_offset_ view.
Proof.
  intros [(pre & done & todo & suf & [Hrs _ _ _] & Ht & Hi) | [_ Hoff]]; [|exact Hoff].
  destruct todo as [|t todo]; [congruence|].
  pose proof (split_lookup _ _ _ _ _ Hrs) as Hl.
  rewrite <- Hi, lookup_ge_None_2 in Hl by lia. discriminate Hl.
Qed.

Lemma stands_fresh idx P : rs <> [] -> idx = 0 -> stands base idx P 0.
Proof.
  intros Hrs ->. assert (Hc : exists r rs', rs = r :: rs') by (destruct rs; [congruence|eauto]).
  destruct Hc as (r & rs' & Hc). apply (stands_region base 0 P [] r rs' Hc); [|reflexivity].
  unfold zpos. simpl. rewrite (@zlen_nil Z). change (zlen (blob enc [])) with 0. lia.
Qed.

(** ** Sorted pages *)
  Context (Hsorted : StronglySorted key_lt (map ekey (concat rs))).

Definition start_key (r : list E) : bytes :=
  match r with e :: _ => ekey e | [] => [] end.

(** A key of an earlier region is below a key of a later one. *)
Lemma sorted_regions pre suf e e' :
  rs = pre ++ suf -> e ∈ concat pre -> e' ∈ concat suf -> ekey e <k ekey e'.
Proof.
  intros Hrs He He'. rewrite Hrs, concat_app, map_app in Hsorted.
  eapply StronglySorted_app_1_elem_of; [exact Hsorted| |];
    apply list_elem_of_fmap_2; assumption.
Qed.

Lemma starts_sorted i j ri rj :
  (i < j)%nat -> rs !! i = Some ri -> rs !! j = Some rj -> start_key ri <k start_key rj.
Proof.
  intros Hij Hi Hj. pose proof (proj1 (Forall_lookup _ _) Hne _ _ Hi) as Hri.
  pose proof (proj1 (Forall_lookup _ _) Hne _ _ Hj) as Hrj. cbv beta in *.
  destruct ri as [|e ri]; [congruence|]. destruct rj as [|e' rj]; [congruence|]. simpl.
  apply (sorted_regions (take j rs) (drop j rs)); [symmetry; apply take_drop| |].
  - apply list_elem_of_In, in_concat. exists (e :: ri). split; [|left; reflexivity].
    apply list_elem_of_In, (list_elem_of_lookup_2 _ i). rewrite lookup_take_lt by lia. exact Hi.
  - rewrite (drop_S _ _ _ Hj). simpl. left.
Qed.

(** [j] separates the regions that start below the key from those above it. *)
Definition separates (key : bytes) (j : Z) : Prop :=
  (forall i r, rs !! i = Some r -> Z.of_nat i < j -> start_key r <k key) /\
  (forall i r, rs !! i = Some r -> j <= Z.of_nat i -> key <k start_key r).

Lemma starts_below key j r i ri :
  rs !! j = Some r -> start_key r <k key -> rs !! i = Some ri -> (i <= j)%nat ->
  start_key ri <k key.
Proof.
  intros Hj Hk Hi Hle. destruct (decide (i = j)) as [->|]; [congruence|].
  eapply key_lt_trans; [apply (starts_sorted i j ri r); auto; lia|exact Hk].
Qed.

Lemma starts_above key j r i ri :
  rs !! j = Some r -> key <k start_key r -> rs !! i = Some ri -> (j <= i)%nat ->
  key <k start_key ri.
Proof.
  intros Hj Hk Hi Hle. destruct (decide (i = j)) as [->|]; [congruence|].
  eapply key_lt_trans; [exact Hk|apply (starts_sorted j i r ri); auto; lia].
Qed.

(** Splitting the entries at a key. *)
Definition lower_split (key : bytes) (a b : list E) : Prop :=
  concat rs = a ++ b /\ Forall (fun e => ekey e <k key) a /\ Forall (fun e => key <=k ekey e) b.

Lemma entries_sorted_in r e e' : Some e = head r -> e' ∈ r -> r ∈ rs -> ekey e <=k ekey e'.
Proof.
  intros He He' Hr. apply list_elem_of_split in Hr as (pre & suf & Hrs).
  destruct r as [|x r]; [discriminate He|]. injection He as ->.
  rewrite Hrs, concat_app, map_app in Hsorted. apply StronglySorted_app_1_r in Hsorted.
  simpl in Hsorted. rewrite map_app in Hsorted.
  apply StronglySorted_inv in Hsorted as [_ Hall].
  apply elem_of_cons in He' as [->|He']; [apply key_le_refl|]. apply key_lt_le.
  rewrite Forall_forall in Hall. apply Hall, list_elem_of_In, elem_of_app. left.
  apply list_elem_of_fmap_2, He'.
Qed.

Lemma below_regions key pre r suf :
  rs = pre ++ r :: suf -> r <> [] -> start_key r <=k key ->
  Forall (fun e => ekey e <k key) (concat pre).
Proof.
  intros Hrs Hr Hk. apply Forall_forall. intros e He%list_elem_of_In.
  destruct r as [|x r]; [congruence|]. eapply key_lt_le_trans; [|exact Hk].
  apply (sorted_regions _ _ e x Hrs He). simpl. left.
Qed.

Lemma above_regions key pre suf :
  rs = pre ++ suf -> match suf with [] => True | r :: _ => key <=k start_key r end ->
  Forall (fun e => key <=k ekey e) (concat suf).
Proof.
  intros Hrs Hk. apply Forall_forall. intros e He%list_elem_of_In.
  destruct suf as [|r suf]; [simpl in He; inversion He|].
  assert (Hr : r <> []) by (rewrite Hrs in Hne; apply Forall_app in Hne as [_ [H _]%Forall_cons_1]; exact H).
  eapply key_le_trans; [exact Hk|]. simpl in He. apply elem_of_app in He as [He|He].
  - destruct r as [|x r]; [congruence|].
    apply (entries_sorted_in (x :: r)); [reflexivity|exact He|].
    rewrite Hrs. apply elem_of_app. right. left.
  - destruct r as [|x r]; [congruence|]. apply key_lt_le. simpl.
    apply (sorted_regions (pre ++ [x :: r]) suf); [rewrite <- app_assoc; exact Hrs| |exact He].
    rewrite concat_app. apply elem_of_app. right. simpl. left.
Qed.

Lemma lower_split_unique key a b a' b' :
  lower_split key a b -> lower_split key a' b' -> a = a' /\ b = b'.
Proof.
  intros (Eq & Ha & Hb) (Eq' & Ha' & Hb'). rewrite Eq in Eq'. clear Eq.
  revert a' Eq' Ha'. induction a as [|x a IH]; intros [|x' a'] Eq' Ha'; simpl in Eq'.
  - auto.
  - subst b. apply Forall_cons_1 in Hb as [Hx _]. apply Forall_cons_1 in Ha' as [Hx' _].
    destruct (key_lt_irrefl key). eapply key_le_lt_trans; eauto.
  - subst b'. apply Forall_cons_1 in Hb' as [Hx _]. apply Forall_cons_1 in Ha as [Hx' _].
    destruct (key_lt_irrefl key). eapply key_le_lt_trans; eauto.
  - injection Eq' as -> Eq'. apply Forall_cons_1 in Ha as [_ Ha]. apply Forall_cons_1 in Ha' as [_ Ha'].
    destruct (IH Ha a' Eq' Ha') as [-> ->]. auto.
Qed.

Lemma region_limit_spec pre r suf :
  rs = pre ++ r :: suf -> region_limit view (zlen pre + 1) = Some (zpos pre r).
Proof.
  intros Hrs. unfold region_limit. cbn [restart_num_ format_view].
  assert (Hn : zlen rs = zlen pre + 1 + zlen suf) by (rewrite Hrs, zlen_app, zlen_cons; lia).
  destruct suf as [|r' suf].
  - rewrite (@zlen_nil (list E)) in Hn. case_if; [lia|]. f_equal. apply zpos_end, Hrs.
  - rewrite zlen_cons in Hn. case_if; [|zlia]. exact (restart_next _ _ _ _ Hrs).
Qed.

(** The split of the entries, when it falls inside or after a region. *)
Lemma lower_split_in key pre x e y suf :
  rs = pre ++ (x ++ e :: y) :: suf -> start_key (x ++ e :: y) <=k key ->
  Forall (fun e => ekey e <k key) x -> key <=k ekey e ->
  lower_split key (concat pre ++ x) (e :: y ++ concat suf).
Proof.
  intros Hrs Hst Hx He.
  assert (Hes : concat rs = (concat pre ++ x) ++ e :: y ++ concat suf)
    by (rewrite Hrs, concat_app; simpl; rewrite <- !app_assoc; reflexivity).
  split; [exact Hes|]. split.
  - apply Forall_app_2; [|exact Hx].
    apply (below_regions key pre _ suf Hrs); [destruct x; discriminate|exact Hst].
  - constructor; [exact He|]. rewrite Hes, map_app in Hsorted.
    apply StronglySorted_app_1_r, StronglySorted_inv in Hsorted as [_ Hall].
    apply Forall_forall. intros e' He'%list_elem_of_In. eapply key_le_trans; [exact He|].
    apply key_lt_le. rewrite Forall_forall in Hall.
    apply Hall, list_elem_of_In, list_elem_of_fmap_2, He'.
Qed.

Lemma lower_split_after key pre r suf :
  rs = pre ++ r :: suf -> r <> [] -> Forall (fun e => ekey e <k key) r ->
  match suf with [] => True | r' :: _ => key <=k start_key r' end ->
  lower_split key (concat (pre ++ [r])) (concat suf).
Proof.
  intros Hrs Hr Hall Hsuf.
  assert (Hrs1 : rs = (pre ++ [r]) ++ suf) by (rewrite <- app_assoc; exact Hrs).
  split; [rewrite Hrs1 at 1; apply concat_app|]. split; [|exact (above_regions key _ _ Hrs1 Hsuf)].
  rewrite concat_app. apply Forall_app_2; [|simpl; rewrite app_nil_r; exact Hall].
  apply (below_regions key pre r suf Hrs Hr). apply key_lt_le.
  destruct r as [|e r]; [congruence|]. apply Forall_cons_1 in Hall as [H _]. exact H.
Qed.

Lemma lower_split_at key pre r suf :
  rs = pre ++ r :: suf -> r <> [] -> key <=k start_key r ->
  (pre = [] \/ start_key r = key) ->
  lower_split key (concat pre) (concat (r :: suf)).
Proof.
  intros Hrs Hr Hk Hpre. split; [rewrite Hrs at 1; apply concat_app|].
  split; [|exact (above_regions key _ _ Hrs Hk)].
  destruct Hpre as [-> | Heq]; [constructor|].
  apply (below_regions key pre r suf Hrs Hr). rewrite Heq. apply key_le_refl.
Qed.

(** Splitting the entries after the keys not above a key. *)
Definition upper_split (key : bytes) (a b : list E) : Prop :=
  concat rs = a ++ b /\ Forall (fun e => ekey e <=k key) a /\ Forall (fun e => key <k ekey e) b.

Lemma upper_split_in key pre x y suf :
  rs = pre ++ (x ++ y) :: suf -> x <> [] -> Forall (fun e => ekey e <=k key) x ->
  match y ++ concat suf with [] => True | e :: _ => key <k ekey e end ->
  upper_split key (concat pre ++ x) (y ++ concat suf).
Proof.
  intros Hrs Hxne Hx Hy.
  assert (Hes : concat rs = (concat pre ++ x) ++ y ++ concat suf)
    by (rewrite Hrs, concat_app; simpl; rewrite <- !app_assoc; reflexivity).
  split; [exact Hes|]. split.
  - apply Forall_app_2; [|exact Hx]. eapply Forall_impl; [intros e; apply key_lt_le|].
    apply (below_regions key pre _ suf Hrs); [destruct x; [congruence|discriminate]|].
    destruct x as [|e x]; [congruence|]. apply Forall_cons_1 in Hx as [H _]. exact H.
  - destruct (y ++ concat suf) as [|e z]; [constructor|]. constructor; [exact Hy|].
    rewrite Hes, map_app in Hsorted.
    apply StronglySorted_app_1_r, StronglySorted_inv in Hsorted as [_ Hall].
    apply Forall_forall. intros e' He'%list_elem_of_In. eapply key_lt_trans; [exact Hy|].
    rewrite Forall_forall in Hall. apply Hall, list_elem_of_In, list_elem_of_fmap_2, He'.
Qed.

Lemma upper_split_exists key : exists a b, upper_split key a b.
Proof.
  unfold upper_split. revert Hsorted. generalize (concat rs). clear. intros es Hs.
  induction es as [|e es IH]; [exists [], []; repeat constructor|].
  simpl in Hs. apply StronglySorted_inv in Hs as [Hs Hall].
  destruct (Z.ltb_spec 0 (Compare (ekey e) key)) as [Hgt|Hle].
  - assert (Hk : key <k ekey e) by (unfold key_lt; rewrite Compare_opp; lia).
    exists [], (e :: es). split; [reflexivity|]. split; [constructor|]. constructor; [exact Hk|].
    rewrite Forall_map in Hall. eapply Forall_impl; [|exact Hall]. intros x Hx.
    eapply key_lt_trans; eassumption.
  - destruct (IH Hs) as (a & b & -> & Ha & Hb). exists (e :: a), b.
    split; [reflexivity|]. split; [constructor; assumption|exact Hb].
Qed.

Lemma upper_split_unique key a b a' b' :
  upper_split key a b -> upper_split key a' b' -> a = a' /\ b = b'.
Proof.
  intros (Eq & Ha & Hb) (Eq' & Ha' & Hb'). rewrite Eq in Eq'. clear Eq.
  revert a' Eq' Ha'. induction a as [|x a IH]; intros [|x' a'] Eq' Ha'; simpl in Eq'.
  - auto.
  - subst b. apply Forall_cons_1 in Hb as [Hx _]. apply Forall_cons_1 in Ha' as [Hx' _].
    destruct (key_lt_irrefl key). eapply key_lt_le_trans; eauto.
  - subst b'. apply Forall_cons_1 in Hb' as [Hx _]. apply Forall_cons_1 in Ha as [Hx' _].
    destruct (key_lt_irrefl key). eapply key_lt_le_trans; eauto.
  - injection Eq' as -> Eq'. apply Forall_cons_1 in Ha as [_ Ha]. apply Forall_cons_1 in Ha' as [_ Ha'].
    destruct (IH Ha a' Eq' Ha') as [-> ->]. auto.
Qed.

Lemma upper_split_none key r suf :
  rs = r :: suf -> r <> [] -> key <k start_key r -> upper_split key [] (concat rs).
Proof.
  intros Hrs Hr Hk. split; [reflexivity|]. split; [constructor|].
  destruct r as [|e r]; [congruence|]. rewrite Hrs in Hsorted |- *. simpl in *. constructor; [exact Hk|].
  apply StronglySorted_inv in Hsorted as [_ Hall].
  apply Forall_forall. intros e' He'%list_elem_of_In. eapply key_lt_trans; [exact Hk|].
  rewrite Forall_forall in Hall. apply Hall, list_elem_of_In, list_elem_of_fmap_2, He'.
Qed.
End regions.

Arguments at_split {E enc base rs off idx P pre done todo suf}.
Arguments at_off {E enc base rs off idx P pre done todo suf}.
Arguments at_prev {E enc base rs off idx P pre done todo suf}.
