(* ===== verification/DataPageIter.v ===== *)
(** * Reading data pages (src/storage/data_page.cpp, DataPageIter)

    [DataPageIter] walks and searches a finished page.  For every page of the
    reference format it is shown to return the entries in order, to seek to the
    first key not below a search key and to the last key not above it. *)

From stdpp Require Import sorting.
From S2P Require Import Prelude Coding Comparator PageFormat Regions DataPage.

(** ** The iterator *)

(** The moving part of [DataPageIter]: offset, restart index and the entry. *)
Record Cursor := mkCursor {
  curr_offset_ : Z;
  curr_restart_idx_ : Z;
  entry_ : Entry
}.

Definition no_entry : Entry := mkEntry [] [] false false CompNone 0 0.

Definition content_offset : Z := page_size_offset + 2 + 4 + 4.

(** [Reset()]: the expire timestamp and the large-value flag keep their value. *)
Definition Cursor_Reset (c : Cursor) : Cursor :=
  mkCursor content_offset 0
    (mkEntry [] [] false (large_value_ (entry_ c)) CompNone 0 (expire_ts_ (entry_ c))).

Definition fresh_cursor : Cursor := mkCursor content_offset 0 no_entry.

Definition Invalidate (v : PageView) : Cursor :=
  mkCursor (restart_offset_ v) (restart_num_ v) no_entry.

Definition HasNext (v : PageView) (c : Cursor) : bool :=
  curr_offset_ c <? restart_offset_ v.

Record EntryHead := mkHead {
  h_shared : Z;
  h_non_shared : Z;
  h_value_length : Z;
  h_overflow : bool;
  h_expire : bool;
  h_large : bool;
  h_compression : CompressionType;
  h_rest : bytes
}.

Definition DecodeEntry (p : bytes) : option EntryHead :=
  match p with
  | shared :: non_shared :: value_length :: p3 =>
      '(shared, non_shared, value_length, p) ←
        (if Z.lor (Z.lor shared non_shared) value_length <? 128 then
           Some (shared, non_shared, value_length, p3)
         else
           '(shared, p) ← GetVarint32Ptr p;
           '(non_shared, p) ← GetVarint32Ptr p;
           '(value_length, p) ← GetVarint32Ptr p;
           Some (shared, non_shared, value_length, p));
      let overflow := negb (Z.land value_length (Z.shiftl 1 ValLenBit_Overflow) =? 0) in
      let expire := negb (Z.land value_length (Z.shiftl 1 ValLenBit_Expire) =? 0) in
      let compressed := Z.land (Z.shiftr value_length ValLenBit_DictionaryCompressed) 3 in
      let large_value := compressed =? 3 in
      let compression := if large_value then CompNone else CompressionType_of_code compressed in
      let value_length := Z.shiftr value_length ValLenBit_BitsCount in
      if u32 (zlen p) <? u32 (non_shared + value_length) then None
      else Some (mkHead shared non_shared value_length overflow expire large_value
                   compression p)
  | _ => None
  end.

(** [ParseNextKey].  [None] is a read outside the page; the boolean is the
    source's result. *)
Definition ParseNextKey (v : PageView) (c : Cursor) : option (bool * Cursor) :=
  if restart_offset_ v <=? curr_offset_ c then Some (false, Invalidate v)
  else
    let off := if curr_offset_ c <? content_offset then content_offset else curr_offset_ c in
    restart ← RestartOffset v (curr_restart_idx_ c);
    let is_restart_pointer := off =? restart in
    pt ← window v off;
    match DecodeEntry pt with
    | None => Some (false, Invalidate v)
    | Some h =>
        if zlen (key_ (entry_ c)) <? h_shared h then Some (false, Invalidate v)
        else if zlen (h_rest h) <? h_non_shared h + h_value_length h then None
        else
          let key := ztake (h_shared h) (key_ (entry_ c)) ++ ztake (h_non_shared h) (h_rest h) in
          let pt := zdrop (h_non_shared h) (h_rest h) in
          let value := ztake (h_value_length h) pt in
          let pt := zdrop (h_value_length h) pt in
          '(expire_ts, pt) ← (if h_expire h then GetVarint64Ptr pt else Some (0, pt));
          match GetVarint64Ptr pt with
          | None => Some (false, Invalidate v)
          | Some (ts_val, pt) =>
              let delta := DecodeInt64Delta ts_val in
              let timestamp := if is_restart_pointer then u64 delta
                               else u64 (i64 (timestamp_ (entry_ c)) + delta) in
              let off := restart_offset_ v - zlen pt in
              idx ← advance_idx v (curr_restart_idx_ c) off;
              Some (true, mkCursor off idx
                (mkEntry key value (h_overflow h) (h_large h) (h_compression h)
                   timestamp expire_ts))
          end
    end.

Definition Next (v : PageView) (c : Cursor) : option (bool * Cursor) := ParseNextKey v c.

Definition SeekToRestart (v : PageView) (c : Cursor) (restart_idx : Z) : option Cursor :=
  off ← RestartOffset v restart_idx;
  let e := entry_ c in
  Some (mkCursor off restart_idx
    (mkEntry [] (value_ e) (overflow_ e) (large_value_ e) (compression_type_ e)
       0 (expire_ts_ e))).

(** The key stored at a restart point, as the binary search reads it. *)
Definition region_key (v : PageView) (restart_idx : Z) : option bytes :=
  region_offset ← RestartOffset v restart_idx;
  pt ← window v region_offset;
  h ← DecodeEntry pt;
  Some (ztake (h_non_shared h) (h_rest h)).

(** The binary search of [SearchRegion].  The count shrinks in every iteration,
    so [fuel] of the initial count is enough (SearchRegion_loop_correct). *)
Fixpoint SearchRegion_loop (fuel : nat) (v : PageView) (key : bytes)
    (left cnt cmp_ret : Z) : option (bool * Z) :=
  if cnt <=? 0 then Some (cmp_ret =? 0, u16 left)
  else
    match fuel with
    | O => None
    | S fuel' =>
        let step := Z.shiftr cnt 1 in
        let mid := left + step in
        pivot ← region_key v (u16 mid);
        let cmp_ret := Compare pivot key in
        if cmp_ret =? 0 then Some (true, u16 mid)
        else if cmp_ret <? 0 then
          SearchRegion_loop fuel' v key (mid + 1) (cnt - (step + 1)) cmp_ret
        else SearchRegion_loop fuel' v key left step cmp_ret
    end.

Definition SearchRegion (v : PageView) (key : bytes) : option (bool * Z) :=
  SearchRegion_loop (Z.to_nat (restart_num_ v)) v key 0 (restart_num_ v) 0.

(** The linear search of [Seek]: [inl] when the loop returns from the function,
    [inr] when it runs to the limit.  Every iteration moves the offset, so the
    page length is enough fuel. *)
Fixpoint Seek_loop (fuel : nat) (v : PageView) (limit : Z) (search_key : bytes)
    (c : Cursor) : option (Cursor + Cursor) :=
  if curr_offset_ c <? limit then
    match fuel with
    | O => None
    | S fuel' =>
        '(_, c') ← ParseNextKey v c;
        if 0 <=? Compare (key_ (entry_ c')) search_key then Some (inl c')
        else Seek_loop fuel' v limit search_key c'
    end
  else Some (inr c).

Definition Seek (v : PageView) (c : Cursor) (search_key : bytes) : option (bool * Cursor) :=
  '(equal, ceil_point) ← SearchRegion v search_key;
  if (equal || (ceil_point =? 0)) then
    c ← SeekToRestart v c ceil_point;
    '(_, c) ← ParseNextKey v c;
    Some (true, c)
  else
    limit ← region_limit v ceil_point;
    c ← SeekToRestart v c (ceil_point - 1);
    r ← Seek_loop (length (page_ v)) v limit search_key c;
    match r with
    | inl c => Some (true, c)
    | inr c => ParseNextKey v c
    end.

(** The linear search of [SeekFloor] carries the saved offset, key, value,
    overflow flag, timestamp and compression kind ([saved]). *)
Fixpoint SeekFloor_loop (fuel : nat) (v : PageView) (limit : Z) (search_key : bytes)
    (c : Cursor) (saved : Z * Entry) : option (Cursor * (Z * Entry)) :=
  if curr_offset_ c <? limit then
    match fuel with
    | O => None
    | S fuel' =>
        '(_, c') ← ParseNextKey v c;
        if 0 <? Compare (key_ (entry_ c')) search_key then Some (c', saved)
        else SeekFloor_loop fuel' v limit search_key c' (curr_offset_ c', entry_ c')
    end
  else Some (c, saved).

Definition SeekFloor (v : PageView) (c : Cursor) (search_key : bytes) : option (bool * Cursor) :=
  '(equal, ceil_point) ← SearchRegion v search_key;
  if equal : bool then
    c ← SeekToRestart v c ceil_point;
    '(_, c) ← ParseNextKey v c;
    Some (true, c)
  else if ceil_point =? 0 then Some (false, c)
  else
    limit ← region_limit v ceil_point;
    c ← SeekToRestart v c (ceil_point - 1);
    '(c, (last_offset, s)) ←
      SeekFloor_loop (length (page_ v)) v limit search_key c (restart_offset_ v, no_entry);
    (* the restart index, the large-value flag and the expire timestamp stay
       those of the last parsed entry *)
    Some (true, mkCursor last_offset (curr_restart_idx_ c)
      (mkEntry (key_ s) (value_ s) (overflow_ s) (large_value_ (entry_ c))
         (compression_type_ s) (timestamp_ s) (expire_ts_ (entry_ c)))).

(** Every entry from the cursor on, as a caller collects them with [Next]. *)
Fixpoint collect (fuel : nat) (v : PageView) (c : Cursor) : option (list Entry) :=
  match fuel with
  | O => None
  | S fuel' =>
      '(more, c') ← Next v c;
      if more : bool then rest ← collect fuel' v c'; Some (entry_ c' :: rest) else Some []
  end.

Lemma collect_S fuel v c :
  collect (S fuel) v c =
  '(more, c') ← Next v c;
  if more : bool then rest ← collect fuel v c'; Some (entry_ c' :: rest) else Some [].
Proof. reflexivity. Qed.

(** ** Decoding one entry head *)
Lemma lor_byte_high a b :
  is_byte a -> is_byte b ->
  is_byte (Z.lor a b) /\ (Z.lor a b <? 128) = (a <? 128) && (b <? 128).
Proof.
  intros Ha Hb.
  assert (Hall : forallb (fun a => forallb (fun b =>
      (0 <=? Z.lor a b) && (Z.lor a b <? 256) &&
      eqb (Z.lor a b <? 128) ((a <? 128) && (b <? 128))) (seqZ 0 256)) (seqZ 0 256) = true)
    by (vm_compute; reflexivity).
  assert (Hin : forall x, is_byte x -> In x (seqZ 0 256))
    by (intros; apply list_elem_of_In, elem_of_seqZ; width).
  rewrite forallb_forall in Hall. specialize (Hall a (Hin a Ha)).
  rewrite forallb_forall in Hall. specialize (Hall b (Hin b Hb)).
  apply andb_prop in Hall as [[H1 H2]%andb_prop H3]. apply eqb_prop in H3.
  split; [width|exact H3].
Qed.

(** First byte of a varint: the value itself, or a byte with the high bit. *)
Lemma EncodeVarint32_head v :
  is_u32 v ->
  exists b l, EncodeVarint32 v = b :: l /\ is_byte b /\ Forall is_byte l /\
    (b <? 128) = (v <? 128) /\ (v < 128 -> b = v /\ l = []).
Proof.
  intros Hv. pose proof (EncodeVarint32_bytes v Hv) as Hb.
  rewrite EncodeVarint32_64 in * by exact Hv.
  rewrite EncodeVarint64_step in * by width.
  destruct (Z.leb_spec 128 v).
  - pose proof (Z.mod_pos_bound v 128 ltac:(lia)).
    apply Forall_cons_1 in Hb as [Hb Hl].
    exists (v mod 128 + 128), (EncodeVarint64 (v / 128)). split; [reflexivity|].
    split; [exact Hb|]. split; [exact Hl|]. split; [|lia].
    destruct (Z.ltb_spec (v mod 128 + 128) 128), (Z.ltb_spec v 128); lia.
  - apply Forall_cons_1 in Hb as [Hb _]. exists v, [].
    split; [reflexivity|]. split; [exact Hb|]. split; [constructor|]. auto.
Qed.

(** The first three bytes of three varints in a row: if they are all below 128
    they are the three values. *)
Lemma first_three_bytes s n v rest :
  is_u32 s -> is_u32 n -> is_u32 v ->
  exists b0 b1 b2 l, is_byte b0 /\ is_byte b1 /\ is_byte b2 /\
    EncodeVarint32 s ++ EncodeVarint32 n ++ EncodeVarint32 v ++ rest = b0 :: b1 :: b2 :: l /\
    (b0 < 128 -> b1 < 128 -> b2 < 128 -> (b0, b1, b2, l) = (s, n, v, rest)).
Proof.
  intros Hs Hn Hv.
  destruct (EncodeVarint32_head s Hs) as (x & ls & -> & Hx & Hls & Hx128 & Hxs).
  destruct (EncodeVarint32_head n Hn) as (y & ln & -> & Hy & Hln & Hy128 & Hyn).
  destruct (EncodeVarint32_head v Hv) as (z & lv & -> & Hz & Hlv & Hz128 & Hzv).
  assert (Hmulti : forall w b (c : Z) l, (b <? 128) = (w <? 128) -> (w < 128 -> b = w /\ c :: l = []) ->
    ~ b < 128) by (intros w b c l Hw Hc Hlt; destruct Hc as [_ Hc]; [lia|discriminate Hc]).
  simpl. destruct ls as [|b1 [|b2 ls]].
  - destruct ln as [|b2 ln].
    + exists x, y, z, (lv ++ rest). repeat split; auto; try width. intros.
      destruct Hxs as [-> _], Hyn as [-> _], Hzv as [-> ->]; try lia. reflexivity.
    + apply Forall_cons_1 in Hln as [Hb2 _].
      exists x, y, b2, (ln ++ z :: lv ++ rest). repeat split; auto; try width.
      intros _ Hlt. destruct (Hmulti _ _ _ _ Hy128 Hyn Hlt).
  - apply Forall_cons_1 in Hls as [Hb1 _].
    exists x, b1, y, (ln ++ z :: lv ++ rest). repeat split; auto; try width.
    intros Hlt. destruct (Hmulti _ _ _ _ Hx128 Hxs Hlt).
  - apply Forall_cons_1 in Hls as [Hb1 [Hb2 _]%Forall_cons_1].
    exists x, b1, b2, (ls ++ y :: ln ++ z :: lv ++ rest). repeat split; auto; try width.
    intros Hlt. destruct (Hmulti _ _ _ _ Hx128 Hxs Hlt).
Qed.

(** The three varints at the front of an entry, whichever path reads them. *)
Lemma DecodeEntry_triple s n v rest :
  is_u32 s -> is_u32 n -> is_u32 v ->
  exists b0 b1 b2 l,
    EncodeVarint32 s ++ EncodeVarint32 n ++ EncodeVarint32 v ++ rest = b0 :: b1 :: b2 :: l /\
    (if Z.lor (Z.lor b0 b1) b2 <? 128 then Some (b0, b1, b2, l)
     else
       '(s, p) ← GetVarint32Ptr (b0 :: b1 :: b2 :: l);
       '(n, p) ← GetVarint32Ptr p;
       '(v, p) ← GetVarint32Ptr p;
       Some (s, n, v, p)) = Some (s, n, v, rest).
Proof.
  intros Hs Hn Hv.
  destruct (first_three_bytes s n v rest Hs Hn Hv)
    as (b0 & b1 & b2 & l & Hb0 & Hb1 & Hb2 & Heq & Himp).
  exists b0, b1, b2, l. split; [exact Heq|].
  destruct (lor_byte_high b0 b1 Hb0 Hb1) as [Hb01 H01].
  destruct (lor_byte_high (Z.lor b0 b1) b2 Hb01 Hb2) as [_ H012]. rewrite H012, H01.
  destruct (Z.ltb_spec b0 128), (Z.ltb_spec b1 128), (Z.ltb_spec b2 128); cbn [andb].
  1: f_equal; auto.
  all: rewrite <- Heq, varint32_app by exact Hs; simpl.
  all: rewrite varint32_app by exact Hn; simpl; rewrite varint32_app by exact Hv; reflexivity.
Qed.

(** The flag bits of the value-length word. *)
Lemma val_len_flags n x o l c :
  0 <= n -> (l = true -> c = CompNone) ->
  let w := stored_val_len n x o l c in
  negb (Z.land w (Z.shiftl 1 ValLenBit_Overflow) =? 0) = o /\
  negb (Z.land w (Z.shiftl 1 ValLenBit_Expire) =? 0) = negb (x =? 0) /\
  (let k := Z.land (Z.shiftr w ValLenBit_DictionaryCompressed) 3 in
   (k =? 3) = l /\ (if k =? 3 then CompNone else CompressionType_of_code k) = c) /\
  Z.shiftr w ValLenBit_BitsCount = n.
Proof.
  intros Hn Hl w. split; [|split; [|split]].
  4: apply shiftr_stored; exact Hn.
  all: unfold w; rewrite stored_val_len_eq by exact Hn.
  all: assert (Hm : forall m, Z.land 15 m = m ->
    Z.land (n * 16 + val_flags x o l c) m = Z.land (val_flags x o l c) m).
  1,3,5: intros m <-; rewrite !Z.land_assoc; f_equal; pose proof (val_flags_range x o l c);
    change 15 with (2 ^ 4 - 1); rewrite !land_ones_mod by lia; change (2 ^ 4) with 16;
    rewrite Z.add_comm, Z.mod_add by lia; reflexivity.
  3: change 3 with (Z.shiftr 12 2) at 1 3 5; cbv zeta;
    change ValLenBit_DictionaryCompressed with 2; rewrite <- !Z.shiftr_land.
  all: rewrite !Hm by reflexivity; unfold val_flags.
  all: destruct o, l, c; try (discriminate (Hl eq_refl)); destruct (x =? 0); auto.
Qed.

Lemma DecodeEntry_enc prev e rest :
  wf_entry e -> zlen rest < 2 ^ 31 ->
  let shared := shared_len prev (key_ e) in
  DecodeEntry (enc_entry prev e ++ rest) =
  Some (mkHead shared (zlen (key_ e) - shared) (zlen (value_ e)) (overflow_ e)
    (negb (expire_ts_ e =? 0)) (large_value_ e) (compression_type_ e)
    (zdrop shared (key_ e) ++ value_ e ++
     (if expire_ts_ e =? 0 then [] else EncodeVarint64 (expire_ts_ e)) ++
     EncodeVarint64 (EncodeInt64Delta (timestamp_ e - prev_ts prev)) ++ rest)).
Proof.
  intros Hwf Hrest shared. pose proof (wf_size _ Hwf).
  pose proof (shared_len_range prev (key_ e)) as [Hsh _]. fold shared in Hsh.
  pose proof (entry_val_len_range e Hwf) as Hvl. change (2 ^ 20) with 1048576 in Hvl.
  pose proof (val_len_flags (zlen (value_ e)) (expire_ts_ e) (overflow_ e) (large_value_ e)
    (compression_type_ e) (zlen_nonneg _) (wf_large _ Hwf)) as (Ho & Hx & [Hl Hc] & Hn).
  fold (entry_val_len e) in Ho, Hx, Hl, Hc, Hn.
  unfold enc_entry. fold shared. rewrite <- !app_assoc.
  set (tail := zdrop shared (key_ e) ++ _).
  destruct (DecodeEntry_triple shared (zlen (key_ e) - shared) (entry_val_len e) tail)
    as (b0 & b1 & b2 & l & Heq & Htrip); [unfold is_u32; zlia..|].
  rewrite Heq. unfold DecodeEntry. rewrite Htrip. cbn [mbind option_bind].
  rewrite Ho, Hx, Hc, Hl, Hn.
  assert (Htail : zlen (key_ e) - shared + zlen (value_ e) <= zlen tail < 2 ^ 32).
  { unfold tail. rewrite !zlen_app, zlen_zdrop, <- Varint64Size_length by lia.
    pose proof (Varint64Size_range (EncodeInt64Delta (timestamp_ e - prev_ts prev))).
    pose proof (Varint64Size_range (expire_ts_ e)).
    case_if; rewrite <- ?Varint64Size_length, ?(@zlen_nil Z); zlia. }
  rewrite !u32_id by (unfold is_u32; zlia). case_if; [lia|reflexivity].
Qed.

(** The optional expire timestamp of an entry. *)
Lemma expire_varint e tl :
  wf_entry e ->
  let stored := if expire_ts_ e =? 0 then [] else EncodeVarint64 (expire_ts_ e) in
  (if negb (expire_ts_ e =? 0) then GetVarint64Ptr (stored ++ tl) else Some (0, stored ++ tl)) =
  Some (expire_ts_ e, tl).
Proof.
  intros He. destruct (Z.eqb_spec (expire_ts_ e) 0) as [->|]; simpl; [reflexivity|].
  apply varint64_app, (wf_expire _ He).
Qed.

(** ** Positions in a page of the reference format *)
Section walk.
  Context (rs : list (list Entry)) (page : bytes).
  Context (Hpage : page_format enc_entry HeaderSize rs page).
  Context (Hwf : Forall (Forall wf_entry) rs) (Hne : Forall (fun r => r <> []) rs).

  Local Abbreviation view := (format_view enc_entry HeaderSize rs page).

(** The facts of Regions for this page. *)
  Local Abbreviation zpos := (zpos enc_entry HeaderSize).
  Local Abbreviation zpos_snoc := (zpos_snoc enc_entry HeaderSize rs page Hpage Hne).
  Local Abbreviation view_window := (view_window enc_entry HeaderSize rs page Hpage).
  Local Abbreviation restart_here := (restart_here enc_entry HeaderSize rs page Hpage).
  Local Abbreviation zpos_region := (zpos_region enc_entry HeaderSize).
  Local Abbreviation restart_next := (restart_next enc_entry HeaderSize rs page Hpage).
  Local Abbreviation zpos_app_lt := (zpos_app_lt enc_entry enc_entry_pos HeaderSize).
  Local Abbreviation advance_here := (advance_here enc_entry enc_entry_pos HeaderSize rs page Hpage).
  Local Abbreviation advance_ahead := (advance_ahead enc_entry enc_entry_pos HeaderSize rs page Hpage Hne).
  Local Abbreviation zpos_end := (zpos_end enc_entry HeaderSize rs page).
  Local Abbreviation split_lookup := (split_lookup enc_entry HeaderSize rs page Hpage Hne).
  Local Abbreviation entries_fit_page := (entries_fit_page enc_entry enc_entry_pos HeaderSize rs page Hpage).
  Local Abbreviation region_limit_spec := (region_limit_spec enc_entry HeaderSize rs page Hpage).
  Local Abbreviation at_restart_flag := (at_restart_flag enc_entry enc_entry_pos HeaderSize rs page Hpage).
  Local Abbreviation at_next_idx := (at_next_idx enc_entry enc_entry_pos HeaderSize rs page Hpage Hne).
  Local Abbreviation at_region := (at_region enc_entry HeaderSize rs).
  Local Abbreviation at_after := (at_after enc_entry HeaderSize rs).
  Local Abbreviation stands_region := (stands_region enc_entry HeaderSize rs page Hne).
  Local Abbreviation stands_after := (stands_after enc_entry HeaderSize rs page Hne).
  Local Abbreviation stands_lookup := (stands_lookup enc_entry enc_entry_pos HeaderSize rs page Hpage Hne).
  Local Abbreviation stands_end := (stands_end enc_entry HeaderSize rs page Hpage Hne).

(** The cursor holds what the entry after [prev] is decoded against. *)
Definition decodes_after (c : Cursor) (prev : option Entry) : Prop :=
  key_ (entry_ c) = prev_key prev /\ timestamp_ (entry_ c) = prev_ts prev.

  Local Abbreviation at_entry c :=
    (at_pos enc_entry HeaderSize rs (curr_offset_ c) (curr_restart_idx_ c) (decodes_after c)).
  Local Abbreviation stands c :=
    (stands enc_entry HeaderSize rs page (curr_offset_ c) (curr_restart_idx_ c) (decodes_after c)).


(** The key and the timestamp an entry is decoded against. *)
Lemma at_key c pre done todo suf k :
  at_entry c pre done todo suf ->
  let shared := shared_len (last_from None done) k in
  ztake shared (key_ (entry_ c)) ++ zdrop shared k = k /\ shared <= zlen (key_ (entry_ c)).
Proof.
  intros [_ _ _ Hprev]. destruct done as [|d done]; [split; [reflexivity|apply zlen_nonneg]|].
  destruct (Hprev ltac:(discriminate)) as [-> _].
  pose proof (shared_len_range (last_from None (d :: done)) k).
  split; [apply shared_len_key|lia].
Qed.

Lemma entry_wf pre done e todo suf : rs = pre ++ (done ++ e :: todo) :: suf -> wf_entry e.
Proof.
  intros Hrs. rewrite Hrs in Hwf. apply Forall_app in Hwf as [_ [Hr _]%Forall_cons_1].
  apply Forall_app in Hr as [_ [Hr _]%Forall_cons_1]. exact Hr.
Qed.

Lemma prev_ts_range pre done todo suf :
  rs = pre ++ (done ++ todo) :: suf -> 0 <= prev_ts (last_from None done) < 2 ^ 63.
Proof.
  intros Hrs. destruct done as [|d done _] using rev_ind; [simpl; lia|].
  rewrite last_from_snoc. rewrite <- app_assoc in Hrs. exact (wf_ts _ (entry_wf _ _ _ _ _ Hrs)).
Qed.

Lemma at_timestamp c pre done e todo suf :
  at_entry c pre done (e :: todo) suf ->
  let delta := DecodeInt64Delta (EncodeInt64Delta (timestamp_ e - prev_ts (last_from None done))) in
  (if is_nil done then u64 delta else u64 (i64 (timestamp_ (entry_ c)) + delta)) = timestamp_ e.
Proof.
  intros [Hrs _ _ Hprev]. pose proof (wf_ts _ (entry_wf _ _ _ _ _ Hrs)).
  pose proof (prev_ts_range _ _ _ _ Hrs). cbv zeta. rewrite delta64_roundtrip by lia.
  destruct done as [|d done].
  - simpl in *. rewrite Z.sub_0_r. apply u64_id. width.
  - destruct (Hprev ltac:(discriminate)) as [_ ->]. cbn [is_nil].
    rewrite i64_id by width. rewrite u64_id; [lia|]. width.
Qed.

(** One step: the next entry is delivered whole and the cursor stands after it. *)
Lemma ParseNextKey_step c pre done e todo suf :
  at_entry c pre done (e :: todo) suf ->
  exists idx, next_idx_ok idx pre todo suf /\
    ParseNextKey view c = Some (true, mkCursor (zpos pre (done ++ [e])) idx e).
Proof.
  intros Hat. destruct (at_restart_flag _ _ _ _ _ _ _ Hat ltac:(discriminate)) as (ro & Hro & Hflag).
  destruct (at_next_idx _ _ _ _ _ _ _ _ Hat) as (idx & Hidx & Hadv).
  exists idx. split; [exact Hidx|].
  destruct (at_key _ _ _ _ _ (key_ e) Hat) as [Hck Hcl].
  pose proof (at_timestamp _ _ _ _ _ _ Hat) as Hts. cbv zeta in Hts.
  destruct Hat as [Hrs Hoff _ _]. pose proof (entry_wf _ _ _ _ _ Hrs) as He.
  destruct (zpos_snoc _ _ _ _ _ Hrs) as [Hz1 Hz2].
  pose proof (enc_entry_pos (last_from None done) e).
  destruct (format_bounds enc_entry HeaderSize rs page Hpage) as (_ & Hb & _).
  assert (Hsmall : zlen (enc_entries enc_entry (Some e) todo ++ blob enc_entry suf) < 2 ^ 31 /\
                   HeaderSize <= zpos pre done < restart_offset_ view).
  { cbn [restart_offset_ format_view] in *. unfold zpos in *. change HeaderSize with 19 in *. zlia. }
  destruct Hsmall as [Hsmall Hlim].
  unfold ParseNextKey. rewrite Hoff, Hro.
  change content_offset with HeaderSize. case_if; [lia|]. case_if; [lia|].
  cbn [mbind option_bind]. rewrite Hflag, (view_window _ _ _ _ Hrs).
  cbn [mbind option_bind enc_entries]. rewrite <- app_assoc, (DecodeEntry_enc _ _ _ He Hsmall).
  pose proof (shared_len_range (last_from None done) (key_ e)) as [Hsk _].
  cbn [h_shared h_non_shared h_value_length h_rest h_overflow h_expire h_large h_compression].
  case_if; [lia|]. rewrite !zlen_app, zlen_zdrop by lia. case_if; [zlia|].
  rewrite <- (zlen_zdrop _ _ Hsk), ztake_app, Hck, zdrop_app, ztake_app, zdrop_app.
  rewrite (expire_varint e) by exact He. cbn [mbind option_bind].
  rewrite varint64_app by apply EncodeInt64Delta_range. rewrite Hts.
  replace (restart_offset_ view - _) with (zpos pre (done ++ [e])) by lia.
  rewrite Hadv. cbn [mbind option_bind]. destruct e; reflexivity.
Qed.

Lemma delivered off idx e : decodes_after (mkCursor off idx e) (Some e).
Proof. split; reflexivity. Qed.

Lemma stands_next c i e :
  stands c i -> concat rs !! i = Some e ->
  HasNext view c = true /\
  exists c', ParseNextKey view c = Some (true, c') /\ entry_ c' = e /\ stands c' (S i).
Proof.
  intros Hst Hi. destruct (stands_lookup _ _ _ _ _ Hst Hi) as (pre & done & todo & suf & Hat & -> & Hlt).
  split; [apply Z.ltb_lt; exact Hlt|].
  destruct (ParseNextKey_step _ _ _ _ _ _ Hat) as (idx & Hidx & Hp).
  exists (mkCursor (zpos pre (done ++ [e])) idx e). split; [exact Hp|]. split; [reflexivity|].
  apply (stands_after _ _ _ _ _ _ _ _ (at_split Hat) Hidx eq_refl (delivered _ _ _)).
Qed.

Lemma iterator_end c : stands c (length (concat rs)) ->
  HasNext view c = false /\ ParseNextKey view c = Some (false, Invalidate view).
Proof.
  intros Hoff%stands_end. unfold HasNext, ParseNextKey.
  rewrite Hoff, Z.ltb_irrefl, Z.leb_refl. auto.
Qed.

Lemma collect_stands c i :
  stands c i -> (i <= length (concat rs))%nat ->
  collect (S (length (concat rs) - i)) view c = Some (drop i (concat rs)).
Proof.
  remember (length (concat rs) - i)%nat as n eqn:Hn. revert c i Hn.
  induction n as [|n IH]; intros c i Hn Hst Hi; rewrite collect_S; unfold Next.
  - assert (i = length (concat rs)) as -> by lia. destruct (iterator_end c Hst) as [_ ->].
    cbn [mbind option_bind]. rewrite drop_all. reflexivity.
  - destruct (lookup_lt_is_Some_2 (concat rs) i) as [e He]; [lia|].
    destruct (stands_next c i e Hst He) as (_ & c' & -> & Hc' & Hst'). cbn [mbind option_bind].
    rewrite (IH c' (S i)) by (auto; lia). cbn [mbind option_bind].
    rewrite (drop_S _ _ _ He), Hc'. reflexivity.
Qed.

Lemma collect_rest c a rest :
  stands c (length a) -> concat rs = a ++ rest ->
  collect (S (length rest)) view c = Some rest.
Proof.
  intros Hst Hes. pose proof (collect_stands c _ Hst) as Hcol.
  rewrite Hes, length_app in Hcol. replace (length a + length rest - length a)%nat
    with (length rest) in Hcol by lia. rewrite drop_app_length in Hcol. apply Hcol. lia.
Qed.

(** ** Searching the regions *)
  Context (Hsorted : StronglySorted key_lt (map key_ (concat rs))).

  Local Abbreviation start_key := (start_key key_).
  Local Abbreviation separates := (separates key_ rs).
  Local Abbreviation starts_below := (starts_below key_ rs Hne Hsorted).
  Local Abbreviation starts_above := (starts_above key_ rs Hne Hsorted).
  Local Abbreviation lower_split := (lower_split key_ rs).
  Local Abbreviation below_regions := (below_regions key_ rs Hsorted).
  Local Abbreviation above_regions := (above_regions key_ rs Hne Hsorted).
  Local Abbreviation lower_split_unique := (lower_split_unique key_ rs).
  Local Abbreviation lower_split_at := (lower_split_at key_ rs Hne Hsorted).
  Local Abbreviation upper_split := (upper_split key_ rs).
  Local Abbreviation upper_split_in := (upper_split_in key_ rs Hsorted).
  Local Abbreviation upper_split_unique := (upper_split_unique key_ rs).
  Local Abbreviation upper_split_none := (upper_split_none key_ rs Hsorted).
  Local Abbreviation lower_split_in := (lower_split_in key_ rs Hsorted).
  Local Abbreviation lower_split_after := (lower_split_after key_ rs Hne Hsorted).

Lemma region_key_spec pre r suf :
  rs = pre ++ r :: suf -> r <> [] -> region_key view (zlen pre) = Some (start_key r).
Proof.
  intros Hrs Hr. destruct r as [|e r]; [congruence|].
  unfold region_key. rewrite (restart_here _ _ _ Hrs). cbn [mbind option_bind].
  pose proof (view_window pre [] (e :: r) suf Hrs) as Hw. rewrite Hw.
  cbn [mbind option_bind enc_entries last_from]. rewrite <- app_assoc.
  assert (Hsmall : zlen (enc_entries enc_entry (Some e) r ++ blob enc_entry suf) < 2 ^ 31).
  { destruct (zpos_snoc pre [] e r suf Hrs) as [Hz1 Hz2].
    destruct (format_bounds enc_entry HeaderSize rs page Hpage) as (_ & Hb & _).
    cbn [restart_offset_ format_view] in *. unfold zpos in *. change HeaderSize with 19 in *. zlia. }
  rewrite (DecodeEntry_enc None e _ (entry_wf pre [] e r suf Hrs) Hsmall).
  cbn [mbind option_bind h_non_shared h_rest start_key].
  change (shared_len None (key_ e)) with 0. rewrite Z.sub_0_r, zdrop_0, ztake_app. reflexivity.
Qed.

Lemma region_key_lookup j r : rs !! Z.to_nat j = Some r -> 0 <= j -> region_key view j = Some (start_key r).
Proof.
  intros Hr Hj. pose proof (proj1 (Forall_lookup _ _) Hne _ _ Hr) as Hrne.
  pose proof (lookup_lt_Some _ _ _ Hr).
  rewrite <- (region_key_spec (take (Z.to_nat j) rs) r (drop (S (Z.to_nat j)) rs)).
  - f_equal. unfold zlen. rewrite length_take. lia.
  - symmetry. apply take_drop_middle. exact Hr.
  - exact Hrne.
Qed.

Lemma SearchRegion_loop_correct key fuel left cnt cmp_ret :
  0 <= left -> 0 <= cnt <= Z.of_nat fuel -> left + cnt <= zlen rs ->
  (forall i r, rs !! i = Some r -> Z.of_nat i < left -> start_key r <k key) ->
  (forall i r, rs !! i = Some r -> left + cnt <= Z.of_nat i -> key <k start_key r) ->
  (cnt = 0 -> cmp_ret <> 0) ->
  exists equal j, SearchRegion_loop fuel view key left cnt cmp_ret = Some (equal, j) /\
    0 <= j <= zlen rs /\
    if equal : bool then exists r, rs !! Z.to_nat j = Some r /\ start_key r = key
    else separates key j.
Proof.
  revert left cnt cmp_ret.
  destruct (format_bounds enc_entry HeaderSize rs page Hpage) as (_ & Hb & _).
  assert (Hn : zlen rs < 65536) by (change HeaderSize with 19 in Hb; zlia).
  induction fuel as [|fuel IH]; intros left cnt cmp Hl Hc Hlc Hlo Hhi Hcmp; cbn [SearchRegion_loop].
  - assert (cnt = 0) as -> by lia. rewrite Z.add_0_r in Hhi.
    exists false, left. simpl. rewrite u16_id by width.
    rewrite (proj2 (Z.eqb_neq cmp 0)) by auto. repeat split; auto; lia.
  - destruct (Z.leb_spec cnt 0).
    + assert (cnt = 0) as -> by lia. rewrite Z.add_0_r in Hhi.
      exists false, left. rewrite u16_id by width.
      rewrite (proj2 (Z.eqb_neq cmp 0)) by auto. repeat split; auto; lia.
    + rewrite Z.shiftr_div_pow2 by lia. change (2 ^ 1) with 2.
      pose proof (Z.div_mod cnt 2 ltac:(lia)). pose proof (Z.mod_pos_bound cnt 2 ltac:(lia)).
      set (step := cnt / 2) in *. set (mid := left + step).
      rewrite u16_id by (unfold mid; width).
      destruct (lookup_lt_is_Some_2 rs (Z.to_nat mid)) as [r Hr]; [unfold mid, zlen in *; lia|].
      rewrite (region_key_lookup mid r Hr) by (unfold mid; lia). cbn [mbind option_bind].
      destruct (Z.eqb_spec (Compare (start_key r) key) 0) as [He|He].
      { exists true, mid. repeat split; try (unfold mid; lia).
        exists r. split; [exact Hr|]. apply Compare_eq, He. }
      destruct (Z.ltb_spec (Compare (start_key r) key) 0) as [Hlt|Hge]; apply IH; auto;
        try (unfold mid; lia).
      * intros i ri Hi Hlt'. apply (starts_below key (Z.to_nat mid) r i); auto. lia.
      * intros i ri Hi Hle. apply Hhi with i; auto. unfold mid in Hle. lia.
      * intros i ri Hi Hle. apply (starts_above key (Z.to_nat mid) r i); auto; [|unfold mid; lia].
        unfold key_lt. rewrite Compare_opp. lia.
Qed.

Lemma SearchRegion_correct key :
  rs <> [] ->
  exists equal j, SearchRegion view key = Some (equal, j) /\ 0 <= j <= zlen rs /\
    if equal : bool then exists r, rs !! Z.to_nat j = Some r /\ start_key r = key
    else separates key j.
Proof.
  intros Hrs. unfold SearchRegion. cbn [restart_num_ format_view].
  apply SearchRegion_loop_correct; try zlia.
  - intros i r Hi Hle. apply lookup_lt_Some in Hi. unfold zlen in *. lia.
  - intros H0. destruct Hrs. apply zlen_zero, H0.
Qed.

(** ** The linear searches *)
Lemma Seek_loop_correct key fuel c pre done todo suf :
  rs = pre ++ (done ++ todo) :: suf -> curr_offset_ c = zpos pre done ->
  (todo <> [] -> at_entry c pre done todo suf) -> (length todo <= fuel)%nat ->
  let n := (length (concat pre) + length done)%nat in
  stands c n ->
  (exists a e b c', todo = a ++ e :: b /\ Forall (fun e => key_ e <k key) a /\
     key <=k key_ e /\ entry_ c' = e /\ stands c' (S (n + length a)) /\
     Seek_loop fuel view (zpos pre (done ++ todo)) key c = Some (inl c')) \/
  (Forall (fun e => key_ e <k key) todo /\
   exists c', stands c' (n + length todo) /\
     Seek_loop fuel view (zpos pre (done ++ todo)) key c = Some (inr c')).
Proof.
  revert fuel c done. induction todo as [|e todo IH]; intros fuel c done Hrs Hoff Hat Hf n Hst.
  - right. split; [constructor|]. exists c. rewrite app_nil_r, Nat.add_0_r.
    split; [exact Hst|]. destruct fuel; simpl; rewrite Hoff, Z.ltb_irrefl; reflexivity.
  - destruct fuel as [|fuel]; [simpl in Hf; lia|]. cbn [Seek_loop].
    rewrite Hoff, (proj2 (Z.ltb_lt _ _)) by (apply zpos_app_lt; discriminate).
    destruct (ParseNextKey_step _ _ _ _ _ _ (Hat ltac:(discriminate))) as (idx & Hidx & Hp).
    rewrite Hp. cbn [mbind option_bind entry_].
    pose proof (stands_after _ _ _ _ _ _ _ _ Hrs Hidx eq_refl
      (delivered (zpos pre (done ++ [e])) idx e)) as Hst'.
    destruct (Z.leb_spec 0 (Compare (key_ e) key)) as [Hge|Hlt].
    + left. exists [], e, todo. eexists. split; [reflexivity|]. split; [constructor|].
      split; [unfold key_le; rewrite Compare_opp; lia|]. split; [|split; [|reflexivity]].
      * reflexivity.
      * simpl. rewrite Nat.add_0_r. exact Hst'.
    + replace (done ++ e :: todo) with ((done ++ [e]) ++ todo) in Hrs |- *
        by (rewrite <- app_assoc; reflexivity).
      destruct (IH fuel (mkCursor (zpos pre (done ++ [e])) idx e) (done ++ [e]) Hrs)
        as [(a & e' & b & c' & -> & Ha & He' & Hc' & Hs' & Hl') | (Hall & c' & Hs' & Hl')].
      * reflexivity.
      * intros Ht. destruct todo as [|t todo]; [congruence|]. rewrite <- app_assoc in Hrs.
        apply at_after; [assumption..|apply delivered].
      * simpl in Hf. lia.
      * rewrite length_app. simpl. replace (_ + (_ + 1))%nat with (S n) by lia. exact Hst'.
      * left. exists (e :: a), e', b, c'. split; [reflexivity|].
        rewrite length_app in Hs'. simpl in Hs' |- *.
        repeat split; auto. replace (S (n + S (length a))) with (S (length (concat pre) + (length done + 1) + length a)) by lia. exact Hs'.
      * right. split; [constructor; assumption|]. exists c'. rewrite length_app in Hs'.
        simpl in Hs' |- *. split; [|exact Hl'].
        replace (n + S (length todo))%nat with (length (concat pre) + (length done + 1) + length todo)%nat by lia.
        exact Hs'.
Qed.

Lemma SeekToRestart_stands c pre r suf :
  rs = pre ++ r :: suf ->
  exists c', SeekToRestart view c (zlen pre) = Some c' /\ curr_offset_ c' = zpos pre [] /\
    at_entry c' pre [] r suf /\ stands c' (length (concat pre)).
Proof.
  intros Hrs. unfold SeekToRestart. rewrite (restart_here _ _ _ Hrs). simpl.
  eexists. split; [reflexivity|]. split; [reflexivity|].
  split; [apply at_region; auto|apply (stands_region _ _ _ _ _ _ Hrs); reflexivity].
Qed.


(** Positioning at the first entry of a region delivers it. *)
Lemma seek_region_start c pre r suf e r' :
  rs = pre ++ r :: suf -> r = e :: r' ->
  exists c1 c2, SeekToRestart view c (zlen pre) = Some c1 /\
    ParseNextKey view c1 = Some (true, c2) /\ entry_ c2 = e /\ stands c2 (S (length (concat pre))).
Proof.
  intros Hrs ->. destruct (SeekToRestart_stands c _ _ _ Hrs) as (c1 & Hc1 & _ & _ & Hst).
  assert (Hl : concat rs !! length (concat pre) = Some e).
  { rewrite <- (Nat.add_0_r (length _)). exact (split_lookup pre [] e r' suf Hrs). }
  destruct (stands_next _ _ _ Hst Hl) as (_ & c2 & Hp & He & Hst2). eauto 10.
Qed.

(** What a search answers: the first entry not below the key, or the end. *)
Definition seek_result (r : option (bool * Cursor)) (a b : list Entry) : Prop :=
  match b with
  | [] => r = Some (false, Invalidate view)
  | e :: _ => exists c, r = Some (true, c) /\ entry_ c = e /\ stands c (S (length a))
  end.

Lemma lookup_region z : 0 <= z < zlen rs ->
  exists pre r suf, rs = pre ++ r :: suf /\ zlen pre = z /\ r <> [] /\ rs !! Z.to_nat z = Some r.
Proof.
  intros Hz. destruct (lookup_lt_is_Some_2 rs (Z.to_nat z)) as [r Hr]; [unfold zlen in *; lia|].
  exists (take (Z.to_nat z) rs), r, (drop (S (Z.to_nat z)) rs).
  split; [symmetry; apply take_drop_middle, Hr|]. split; [|split; [|exact Hr]].
  - unfold zlen. rewrite length_take. unfold zlen in Hz. lia.
  - exact (proj1 (Forall_lookup _ _) Hne _ _ Hr).
Qed.

(** The search inside the region before the ceiling restart point. *)
Lemma Seek_in_region key c pre r suf a b :
  rs = pre ++ r :: suf -> r <> [] -> start_key r <k key ->
  match suf with [] => True | r' :: _ => key <=k start_key r' end ->
  lower_split key a b ->
  seek_result (
    limit ← region_limit view (zlen pre + 1);
    c ← SeekToRestart view c (zlen pre);
    x ← Seek_loop (length (page_ view)) view limit key c;
    match x with inl c => Some (true, c) | inr c => ParseNextKey view c end) a b.
Proof.
  intros Hrs Hr Hlt Hsuf Hsplit. rewrite (region_limit_spec _ _ _ Hrs). cbn [mbind option_bind].
  destruct (SeekToRestart_stands c _ _ _ Hrs) as (c1 & -> & Hoff & Hat & Hst).
  cbn [mbind option_bind page_ format_view].
  rewrite <- (Nat.add_0_r (length (concat pre))) in Hst.
  destruct (Seek_loop_correct key (length page) c1 pre [] r suf Hrs Hoff (fun _ => Hat)
    (entries_fit_page _ _ _ Hrs) Hst)
    as [(x & e & y & c' & -> & Hx & He & Hce & Hst' & Hl) | (Hall & c' & Hst' & Hl)];
    cbn [app length] in *; rewrite Hl; cbn [mbind option_bind].
  - pose proof (lower_split_in key _ _ _ _ _ Hrs (key_lt_le _ _ Hlt) Hx He) as Hd.
    destruct (lower_split_unique _ _ _ _ _ Hsplit Hd) as [-> ->]. simpl.
    exists c'. rewrite length_app, Nat.add_0_r in *. auto.
  - pose proof (lower_split_after key _ _ _ Hrs Hr Hall Hsuf) as Hd.
    destruct (lower_split_unique _ _ _ _ _ Hsplit Hd) as [-> ->].
    replace (length (concat pre) + 0 + length r)%nat with (length (concat (pre ++ [r]))) in Hst'
      by (rewrite concat_app, length_app; simpl; rewrite app_nil_r; lia).
    destruct Hd as (Hes & _). destruct (concat suf) as [|e es] eqn:Hcs; simpl.
    + rewrite app_nil_r in Hes. rewrite <- Hes in Hst'. apply iterator_end, Hst'.
    + destruct (stands_next _ _ e Hst') as (_ & c2 & Hp & Hc2 & Hst2); [|eauto].
      rewrite Hes. apply list_lookup_middle. reflexivity.
Qed.

Lemma Seek_at_restart key c pre r suf a b :
  rs = pre ++ r :: suf -> r <> [] -> key <=k start_key r -> (pre = [] \/ start_key r = key) ->
  lower_split key a b ->
  seek_result (c ← SeekToRestart view c (zlen pre);
               '(_, c) ← ParseNextKey view c; Some (true, c)) a b.
Proof.
  intros Hrs Hr Hk Hpre Hsplit.
  pose proof (lower_split_at key _ _ _ Hrs Hr Hk Hpre) as Hd.
  destruct (lower_split_unique _ _ _ _ _ Hsplit Hd) as [-> ->].
  destruct r as [|e r]; [congruence|].
  destruct (seek_region_start c _ _ _ e r Hrs eq_refl) as (c1 & c2 & -> & Hp & He & Hst).
  cbn [mbind option_bind]. rewrite Hp. simpl. eauto.
Qed.

Lemma Seek_correct key c a b :
  rs <> [] -> lower_split key a b -> seek_result (Seek view c key) a b.
Proof.
  intros Hrs Hsplit. destruct (SearchRegion_correct key Hrs) as (eq & j & HS & Hj & Hres).
  unfold Seek. rewrite HS. cbn [mbind option_bind].
  destruct eq; [|destruct (Z.eqb_spec j 0) as [->|Hj0]]; cbn [orb].
  - destruct Hres as (r & Hr & Hk). pose proof (lookup_lt_Some _ _ _ Hr).
    destruct (lookup_region j) as (pre & r' & suf & Hs & <- & Hr' & Hl); [unfold zlen in *; lia|].
    rewrite Hr in Hl. injection Hl as <-.
    apply (Seek_at_restart key _ _ _ _ _ _ Hs); auto. rewrite Hk. apply key_le_refl.
  - destruct Hres as [_ Hhi].
    destruct (lookup_region 0) as (pre & r & suf & Hs & Hp & Hr & Hl).
    { destruct rs; [congruence|]. rewrite zlen_cons. zlia. }
    rewrite <- Hp. apply (Seek_at_restart key _ _ _ _ _ _ Hs); auto.
    + apply key_lt_le, (Hhi 0%nat); [exact Hl|lia].
    + left. apply zlen_zero, Hp.
  - destruct Hres as [Hlo Hhi].
    destruct (lookup_region (j - 1)) as (pre & r & suf & Hs & Hp & Hr & Hl); [lia|].
    rewrite <- Hp. replace j with (zlen pre + 1) by lia.
    apply (Seek_in_region key _ _ _ _ _ _ Hs); auto.
    + apply (Hlo _ _ Hl). lia.
    + destruct suf as [|r' suf]; [exact I|]. apply key_lt_le, (Hhi (Z.to_nat j)); [|lia].
      rewrite Hs, lookup_app_r by (unfold zlen in *; lia).
      replace (Z.to_nat j - length pre)%nat with 1%nat by (unfold zlen in *; lia). reflexivity.
Qed.

(** What [SeekFloor] has saved after the entries [done] of a region. *)
Definition saved_ok (pre : list (list Entry)) (done : list Entry) (saved : Z * Entry) : Prop :=
  forall d e, done = d ++ [e] -> saved = (zpos pre done, e).

(** The state of the linear search of [SeekFloor] after the entries [done]. *)
Definition floor_mid (c : Cursor) (pre : list (list Entry)) (done todo : list Entry)
    (suf : list (list Entry)) : Prop :=
  forall d e, done = d ++ [e] -> entry_ c = e /\ next_idx_ok (curr_restart_idx_ c) pre todo suf.

(** The state in which it ends: past the first key above the search key, or at
    the end of the region. *)
Definition floor_end (c : Cursor) (pre : list (list Entry)) (done y : list Entry)
    (suf : list (list Entry)) : Prop :=
  match y with
  | [] => floor_mid c pre done [] suf
  | e :: y' => entry_ c = e /\ next_idx_ok (curr_restart_idx_ c) pre y' suf
  end.

Lemma SeekFloor_loop_correct key fuel limit c pre done todo suf saved :
  rs = pre ++ (done ++ todo) :: suf -> limit = zpos pre (done ++ todo) ->
  curr_offset_ c = zpos pre done -> (todo <> [] -> at_entry c pre done todo suf) ->
  (length todo <= fuel)%nat -> floor_mid c pre done todo suf -> saved_ok pre done saved ->
  exists x y c' saved', todo = x ++ y /\ Forall (fun e => key_ e <=k key) x /\
    match y with [] => True | e :: _ => key <k key_ e end /\
    SeekFloor_loop fuel view limit key c saved = Some (c', saved') /\
    saved_ok pre (done ++ x) saved' /\ floor_end c' pre (done ++ x) y suf.
Proof.
  revert fuel c done saved.
  induction todo as [|e todo IH]; intros fuel c done saved Hrs -> Hoff Hat Hf Hend Hsv.
  - exists [], [], c, saved. rewrite !(app_nil_r done). split; [reflexivity|].
    split; [constructor|]. split; [exact I|]. split; [|auto].
    destruct fuel; simpl; rewrite Hoff, Z.ltb_irrefl; reflexivity.
  - destruct fuel as [|fuel]; [simpl in Hf; lia|]. cbn [SeekFloor_loop].
    rewrite Hoff, (proj2 (Z.ltb_lt _ _)) by (apply zpos_app_lt; discriminate).
    destruct (ParseNextKey_step _ _ _ _ _ _ (Hat ltac:(discriminate))) as (idx & Hidx & Hp).
    rewrite Hp. cbn [mbind option_bind entry_ curr_offset_].
    destruct (Z.ltb_spec 0 (Compare (key_ e) key)) as [Hgt|Hle].
    + exists [], (e :: todo). do 2 eexists. rewrite (app_nil_r done). split; [reflexivity|].
      split; [constructor|]. split; [unfold key_lt; rewrite Compare_opp; lia|].
      split; [reflexivity|]. split; [exact Hsv|]. split; [reflexivity|exact Hidx].
    + assert (Hrs' : rs = pre ++ ((done ++ [e]) ++ todo) :: suf) by (rewrite <- app_assoc; exact Hrs).
      destruct (IH fuel (mkCursor (zpos pre (done ++ [e])) idx e) (done ++ [e])
        (zpos pre (done ++ [e]), e) Hrs') as (x & y & c' & sv & -> & Hx & Hy & Hl & Hs & Hres).
      * rewrite <- app_assoc. reflexivity.
      * reflexivity.
      * intros Ht. destruct todo as [|t todo]; [congruence|]. apply at_after; [assumption..|apply delivered].
      * simpl in Hf. lia.
      * intros d e' Hd. apply app_inj_tail in Hd as [_ ->]. auto.
      * intros d e' Hd. apply app_inj_tail in Hd as [_ ->]. reflexivity.
      * exists (e :: x), y, c', sv. rewrite <- app_assoc in Hs, Hres.
        split; [reflexivity|]. split; [constructor; assumption|]. auto.
Qed.

(** The fields of the entry that [SeekFloor] restores. *)
Definition floor_fields (e e' : Entry) : Prop :=
  key_ e' = key_ e /\ value_ e' = value_ e /\ overflow_ e' = overflow_ e /\
  compression_type_ e' = compression_type_ e /\ timestamp_ e' = timestamp_ e.

(** The other two are those of the floor entry, or of the entry behind it when
    the search read that far; [b] are the entries above the key. *)
Definition floor_flags (e : Entry) (b : list Entry) (e' : Entry) : Prop :=
  exists x, (x = e \/ head b = Some x) /\ large_value_ e' = large_value_ x /\ expire_ts_ e' = expire_ts_ x.

(** What [SeekFloor] answers when [a] are the entries not above the key. *)
Definition floor_result (r : option (bool * Cursor)) (c0 : Cursor) (a b : list Entry) : Prop :=
  (a = [] -> r = Some (false, c0)) /\
  (forall a' e, a = a' ++ [e] -> exists c, r = Some (true, c) /\ floor_fields e (entry_ c) /\
     floor_flags e b (entry_ c) /\ stands c (length a)).

Lemma floor_end_flags c pre x e y suf (f : Entry) :
  floor_end c pre (x ++ [e]) y suf -> large_value_ f = large_value_ (entry_ c) ->
  expire_ts_ f = expire_ts_ (entry_ c) -> floor_flags e (y ++ concat suf) f.
Proof using Type.
  intros Hend Hl He. destruct y as [|y0 y].
  - destruct (Hend x e eq_refl) as [Hc _]. exists e. rewrite Hl, He, Hc. auto.
  - destruct Hend as [Hc _]. exists y0. rewrite Hl, He, Hc. auto.
Qed.

(** The restored cursor stands right after the floor entry. *)
Lemma floor_restored c pre x e y suf (f : Entry) :
  rs = pre ++ ((x ++ [e]) ++ y) :: suf -> floor_end c pre (x ++ [e]) y suf -> floor_fields e f ->
  stands (mkCursor (zpos pre (x ++ [e])) (curr_restart_idx_ c) f)
    (length (concat pre) + length (x ++ [e])).
Proof.
  intros Hrs Hend (Hk & _ & _ & _ & Ht).
  replace (length (concat pre) + length (x ++ [e]))%nat with (S (length (concat pre) + length x))
    by (rewrite length_app; simpl; lia).
  apply (stands_after _ _ _ pre x e y suf); [rewrite Hrs, <- app_assoc; reflexivity| |reflexivity|split; assumption].
  destruct y as [|e' y]; [destruct (Hend x e eq_refl) as [_ H]; exact H|].
  destruct Hend as [_ Hidx]. cbn [curr_restart_idx_]. unfold next_idx_ok in *.
  destruct y; [|exact Hidx]. destruct suf; [left; exact Hidx|right].
  split; [exact Hidx|discriminate].
Qed.

(** The search in the region that ends before the ceiling restart point. *)
Definition floor_in_region (c : Cursor) (key : bytes) (j : Z) : option (bool * Cursor) :=
  limit ← region_limit view (j + 1);
  c ← SeekToRestart view c j;
  '(c, (last_offset, s)) ←
    SeekFloor_loop (length (page_ view)) view limit key c (restart_offset_ view, no_entry);
  Some (true, mkCursor last_offset (curr_restart_idx_ c)
    (mkEntry (key_ s) (value_ s) (overflow_ s) (large_value_ (entry_ c))
       (compression_type_ s) (timestamp_ s) (expire_ts_ (entry_ c)))).

(** It ends with the last entry [e] not above the key, and the cursor [c'] that
    has read one entry more if there is one in the region. *)
Lemma floor_in_region_ends key c pre r suf :
  rs = pre ++ r :: suf -> r <> [] -> start_key r <k key ->
  exists x e y c', r = (x ++ [e]) ++ y /\ Forall (fun e => key_ e <=k key) (x ++ [e]) /\
    match y with [] => True | e :: _ => key <k key_ e end /\ floor_end c' pre (x ++ [e]) y suf /\
    floor_in_region c key (zlen pre) = Some (true, mkCursor (zpos pre (x ++ [e])) (curr_restart_idx_ c')
      (mkEntry (key_ e) (value_ e) (overflow_ e) (large_value_ (entry_ c')) (compression_type_ e) (timestamp_ e) (expire_ts_ (entry_ c')))).
Proof.
  intros Hrs Hr Hlt. unfold floor_in_region. rewrite (region_limit_spec _ _ _ Hrs). cbn [mbind option_bind].
  destruct (SeekToRestart_stands c _ _ _ Hrs) as (c1 & -> & Hoff & Hat & _).
  cbn [mbind option_bind page_ format_view].
  destruct (SeekFloor_loop_correct key (length page) (zpos pre r) c1 pre [] r suf
    (restart_offset_ view, no_entry) Hrs eq_refl Hoff (fun _ => Hat) (entries_fit_page _ _ _ Hrs))
    as (x & y & c' & [off s] & -> & Hx & Hy & Hl & Hsv & Hend).
  { intros d e Hd. destruct d; discriminate Hd. }
  { intros d e Hd. destruct d; discriminate Hd. }
  cbn [app] in *. rewrite Hl. cbn [mbind option_bind].
  assert (Hxne : x <> []).
  { intros ->. destruct y as [|e y]; [exact (Hr eq_refl)|]. simpl in Hlt.
    exact (key_lt_irrefl _ (key_lt_trans _ _ _ Hlt Hy)). }
  destruct (exists_last Hxne) as (x' & e & ->). injection (Hsv x' e eq_refl) as -> ->.
  exists x', e, y, c'. auto.
Qed.

(** The floor lies in the region before the ceiling restart point. *)
Lemma SeekFloor_in_region key c c0 pre r suf a b :
  rs = pre ++ r :: suf -> r <> [] -> start_key r <k key ->
  match suf with [] => True | r' :: _ => key <k start_key r' end ->
  upper_split key a b -> floor_result (floor_in_region c key (zlen pre)) c0 a b.
Proof.
  intros Hrs Hr Hlt Hsuf Hsplit.
  destruct (floor_in_region_ends key c _ _ _ Hrs Hr Hlt) as (x & e & y & c' & -> & Hx & Hy & Hend & ->).
  assert (Hd : upper_split key (concat pre ++ x ++ [e]) (y ++ concat suf)).
  { apply upper_split_in; auto; [destruct x; discriminate|]. destruct y as [|e' y]; [|exact Hy]. simpl.
    destruct suf as [|r' suf]; [exact I|]. simpl.
    destruct r' as [|e' r']; [|exact Hsuf]. rewrite Hrs in Hne.
    apply Forall_app in Hne as [_ [_ [H _]%Forall_cons_1]%Forall_cons_1]. congruence. }
  destruct (upper_split_unique _ _ _ _ _ Hsplit Hd) as [-> ->].
  split; [destruct (concat pre), x; discriminate|]. intros a' e0 Ha.
  rewrite app_assoc in Ha. apply app_inj_tail in Ha as [_ <-].
  eexists. split; [reflexivity|]. split; [repeat split|].
  split; [apply (floor_end_flags c' pre x _ y suf _ Hend); reflexivity|].
  rewrite length_app. apply (floor_restored _ _ _ _ y suf); auto. repeat split.
Qed.

(** The floor is the first entry of a region. *)
Lemma SeekFloor_at_restart key c c0 pre r suf a b :
  rs = pre ++ r :: suf -> r <> [] -> start_key r = key -> upper_split key a b ->
  floor_result (c ← SeekToRestart view c (zlen pre);
                '(_, c) ← ParseNextKey view c; Some (true, c)) c0 a b.
Proof.
  intros Hrs Hr Hk Hsplit. destruct r as [|e r]; [congruence|]. simpl in Hk.
  assert (Hd : upper_split key (concat pre ++ [e]) (r ++ concat suf)).
  { apply upper_split_in; [exact Hrs|discriminate|..].
    - constructor; [rewrite Hk; apply key_le_refl|constructor].
    - destruct (r ++ concat suf) as [|e' l] eqn:Hl; [exact I|]. rewrite <- Hk.
      pose proof Hsorted as Hs. rewrite Hrs, concat_app, map_app in Hs. simpl in Hs.
      rewrite Hl in Hs. apply StronglySorted_app_1_r, StronglySorted_inv in Hs as [_ Hs].
      simpl in Hs. apply Forall_cons_1 in Hs as [Hs _]. exact Hs. }
  destruct (upper_split_unique _ _ _ _ _ Hsplit Hd) as [-> _].
  destruct (seek_region_start c _ _ _ e r Hrs eq_refl) as (c1 & c2 & -> & Hp & He & Hst).
  cbn [mbind option_bind]. rewrite Hp. cbn [mbind option_bind].
  split; [destruct (concat pre); discriminate|]. intros a' e0 [_ <-]%app_inj_tail.
  exists c2. split; [reflexivity|]. split; [rewrite He; repeat split|].
  split; [exists e; rewrite He; auto|].
  rewrite length_app, Nat.add_1_r. exact Hst.
Qed.

Lemma SeekFloor_correct key c a b :
  rs <> [] -> upper_split key a b -> floor_result (SeekFloor view c key) c a b.
Proof.
  intros Hrs Hsplit. destruct (SearchRegion_correct key Hrs) as (eq & j & HS & Hj & Hres).
  unfold SeekFloor. rewrite HS. cbn [mbind option_bind].
  destruct eq; [|destruct (Z.eqb_spec j 0) as [->|Hj0]].
  - destruct Hres as (r & Hr & Hk). pose proof (lookup_lt_Some _ _ _ Hr).
    destruct (lookup_region j) as (pre & r' & suf & Hs & <- & Hr' & Hl); [unfold zlen in *; lia|].
    rewrite Hr in Hl. injection Hl as <-.
    exact (SeekFloor_at_restart key _ _ _ _ _ _ _ Hs Hr' Hk Hsplit).
  - destruct Hres as [_ Hhi].
    destruct (lookup_region 0) as (pre & r & suf & Hs & Hp & Hr & Hl).
    { destruct rs; [congruence|]. rewrite zlen_cons. zlia. }
    rewrite (zlen_zero _ Hp) in Hs.
    pose proof (upper_split_none key r suf Hs Hr (Hhi 0%nat r Hl ltac:(lia))) as Hd.
    destruct (upper_split_unique _ _ _ _ _ Hsplit Hd) as [-> _].
    split; [reflexivity|]. intros a' e He. destruct a'; discriminate He.
  - destruct Hres as [Hlo Hhi].
    destruct (lookup_region (j - 1)) as (pre & r & suf & Hs & Hp & Hr & Hl); [lia|].
    replace j with (zlen pre + 1) by lia. rewrite Z.add_simpl_r.
    apply (SeekFloor_in_region key _ _ _ _ _ _ b Hs); auto.
    + apply (Hlo _ _ Hl). lia.
    + destruct suf as [|r' suf]; [exact I|]. apply (Hhi (Z.to_nat j)); [|lia].
      rewrite Hs, lookup_app_r by (unfold zlen in *; lia).
      replace (Z.to_nat j - length pre)%nat with 1%nat by (unfold zlen in *; lia). reflexivity.
Qed.

(** The ceiling restart point of a key above the start of region [r] and below
    that of the next region. *)
Lemma SearchRegion_between key pre r suf :
  rs = pre ++ r :: suf -> start_key r <k key -> match suf with [] => True | r' :: _ => key <k start_key r' end ->
  SearchRegion view key = Some (false, zlen pre + 1).
Proof.
  intros Hrs Hlt Hsuf.
  assert (Hr : rs !! length pre = Some r) by (rewrite Hrs; apply list_lookup_middle; reflexivity).
  assert (Hnext : forall r', rs !! S (length pre) = Some r' -> key <k start_key r').
  { intros r' Hr'. rewrite Hrs, lookup_app_r in Hr' by lia.
    replace (S (length pre) - length pre)%nat with 1%nat in Hr' by lia. destruct suf; [discriminate Hr'|]. injection Hr' as ->. exact Hsuf. }
  destruct (SearchRegion_correct key ltac:(rewrite Hrs; destruct pre; discriminate)) as (eq & j & -> & Hj & Hres). destruct eq.
  - exfalso. destruct Hres as (r' & Hr' & Hk). destruct (Nat.le_gt_cases (Z.to_nat j) (length pre)) as [Hle|Hgt].
    + pose proof (starts_below key (length pre) r (Z.to_nat j) r' Hr Hlt Hr' ltac:(lia)) as H. rewrite Hk in H. exact (key_lt_irrefl _ H).
    + destruct (rs !! S (length pre)) as [r1|] eqn:H1.
      * pose proof (starts_above key (S (length pre)) r1 (Z.to_nat j) r' H1 (Hnext r1 eq_refl) Hr' ltac:(lia)) as H.
        rewrite Hk in H. exact (key_lt_irrefl _ H).
      * apply lookup_ge_None in H1. apply lookup_lt_Some in Hr'. lia.
  - destruct Hres as [Hlo Hhi]. do 2 f_equal. destruct (Z.lt_trichotomy j (zlen pre + 1)) as [H|[H|H]]; [exfalso|exact H|exfalso].
    + pose proof (Hhi _ _ Hr ltac:(unfold zlen in *; lia)) as Hk. exact (key_lt_irrefl _ (key_lt_trans _ _ _ Hlt Hk)).
    + destruct (lookup_lt_is_Some_2 rs (S (length pre))) as [r' Hr']; [unfold zlen in *; lia|].
      pose proof (Hlo _ _ Hr' ltac:(unfold zlen in *; lia)) as Hk. exact (key_lt_irrefl _ (key_lt_trans _ _ _ Hk (Hnext r' Hr'))).
Qed.

(** When the entry [n] behind the floor [e] is in the same region and the key is
    not that of a restart point, the large-value flag and the expire timestamp are
    those of [n]. *)
Lemma SeekFloor_stale key c pre x e n y suf :
  rs = pre ++ (x ++ e :: n :: y) :: suf -> start_key (x ++ e :: n :: y) <k key -> key_ e <=k key -> key <k key_ n ->
  exists c', SeekFloor view c key = Some (true, c') /\ entry_ c' =
    mkEntry (key_ e) (value_ e) (overflow_ e) (large_value_ n) (compression_type_ e) (timestamp_ e) (expire_ts_ n).
Proof.
  intros Hrs Hlt He Hn.
  assert (Hs : StronglySorted key_lt (map key_ ((x ++ [e]) ++ n :: y ++ concat suf))).
  { pose proof Hsorted as Hs. rewrite Hrs, concat_app, map_app in Hs. apply StronglySorted_app_1_r in Hs. cbn [concat] in Hs.
    rewrite <- !app_assoc. rewrite <- app_assoc in Hs. exact Hs. }
  assert (Hhi : Forall (fun z => key <k key_ z) (n :: y ++ concat suf)).
  { rewrite map_app in Hs. apply StronglySorted_app_1_r in Hs. apply StronglySorted_inv in Hs as [_ Hs].
    constructor; [exact Hn|]. apply list.Forall_forall. intros z Hz. rewrite list.Forall_forall in Hs.
    apply key_lt_trans with (key_ n); [exact Hn|]. apply Hs, list_elem_of_fmap_2, Hz. }
  unfold SeekFloor. rewrite (SearchRegion_between key _ _ _ Hrs Hlt).
  2:{ destruct suf as [|r' suf]; [exact I|]. destruct r' as [|e' r'].
      - rewrite Hrs in Hne. apply Forall_app in Hne as [_ [_ [H _]%Forall_cons_1]%Forall_cons_1]. congruence.
      - apply Forall_cons_1 in Hhi as [_ [_ [H _]%Forall_cons_1]%Forall_app]. exact H. }
  cbn [mbind option_bind]. rewrite (proj2 (Z.eqb_neq _ _)) by zlia. rewrite Z.add_simpl_r.
  change (limit ← region_limit view (zlen pre + 1); _) with (floor_in_region c key (zlen pre)).
  destruct (floor_in_region_ends key c _ _ _ Hrs ltac:(destruct x; discriminate) Hlt) as (x' & e' & y' & c' & Hr & Hx & Hy & Hend & ->).
  assert (Hlo : Forall (fun z => key_ z <=k key) (x ++ [e])).
  { apply Forall_app_2; [|constructor; [exact He|constructor]]. rewrite map_app, map_app in Hs. apply StronglySorted_app_1_l in Hs.
    apply list.Forall_forall. intros z Hz. apply key_le_trans with (key_ e); [|exact He]. apply key_lt_le.
    refine (StronglySorted_app_1_elem_of _ _ _ _ _ Hs _ _); [apply list_elem_of_fmap_2, Hz|left]. }
  assert (Hrs1 : rs = pre ++ ((x ++ [e]) ++ n :: y) :: suf) by (rewrite <- app_assoc; exact Hrs).
  assert (Hrs2 : rs = pre ++ ((x' ++ [e']) ++ y') :: suf) by (rewrite Hrs, Hr; reflexivity).
  assert (Heq : x ++ [e] = x' ++ [e'] /\ n :: y = y').
  { destruct (upper_split_unique key _ _ _ _
      (upper_split_in key _ _ _ _ Hrs1 ltac:(destruct x; discriminate) Hlo Hn)
      (upper_split_in key _ _ _ _ Hrs2 ltac:(destruct x'; discriminate) Hx
         ltac:(destruct y' as [|z y']; [|exact Hy]; destruct (concat suf) as [|z l]; [exact I|];
               apply Forall_cons_1 in Hhi as [_ [_ [H _]%Forall_cons_1]%Forall_app]; exact H))) as [H1 H2].
    split; [exact (app_inv_head _ _ _ H1)|exact (app_inv_tail _ _ _ H2)]. }
  destruct Heq as [[_ <-]%app_inj_tail <-]. destruct Hend as [Hc _]. eexists. split; [reflexivity|]. cbn [entry_]. rewrite Hc. reflexivity.
Qed.
End walk.

(** ** Pages made by the builder *)
Section built.
  Context (opts : KvOptions) (l : list AddArgs) (b : DataPageBuilder).
  Context (Hopt : valid_options opts) (Hargs : Forall wf_args l) (Hl : l <> []).
  Context (Hb : add_all opts Reset l = Some b).

Definition built_page : bytes := fst (Finish opts b).

Lemma built_regions : exists rs,
  page_format enc_entry HeaderSize rs built_page /\ concat rs = map stored_entry l /\
  Forall (Forall wf_entry) rs /\ Forall (fun r => r <> []) rs /\ rs <> [] /\
  page_view built_page = Some (format_view enc_entry HeaderSize rs built_page).
Proof.
  destruct (add_all_inv opts l [] [] Reset b Hopt (Reset_inv opts Hopt) Hargs Hb)
    as (init & lastr & Hinv & Hc & Hn).
  pose proof (Finish_format opts init lastr b Hopt Hinv) as HF.
  exists (init ++ [lastr]). unfold built_page. destruct (Finish opts b) as [page b'].
  destruct HF as (Hf & _). split; [exact Hf|]. split; [exact Hc|].
  split; [exact (inv_wf _ _ _ _ Hinv)|]. split; [|split].
  - apply (builder_regions_nonempty opts init lastr b Hopt Hinv). auto.
  - destruct init; discriminate.
  - exact (format_page_view _ _ _ _ Hf).
Qed.
End built.

(** ** Properties *)

(** C20: Round trip of a data page: iterating a finished page delivers every
    entry that was added, with key, value, flags, expire timestamp and the
    timestamp clamped to a signed 64-bit integer, in order, and then ends. *)
Theorem iterate_built_page opts l b :
  valid_options opts -> Forall wf_args l -> l <> [] -> add_all opts Reset l = Some b ->
  exists v, page_view (built_page opts b) = Some v /\
    collect (S (length l)) v fresh_cursor = Some (map stored_entry l).
Proof.
  intros Hopt Hargs Hl Hb.
  destruct (built_regions opts l b Hopt Hargs Hl Hb) as (rs & Hf & Hc & Hwf & Hne & Hrs & Hv).
  eexists. split; [exact Hv|].
  pose proof (stands_fresh enc_entry HeaderSize rs _ Hf Hne 0 (decodes_after fresh_cursor) Hrs eq_refl) as Hst.
  pose proof (collect_stands rs _ Hf Hwf Hne fresh_cursor 0 Hst ltac:(lia)) as Hcol.
  rewrite Hc, Nat.sub_0_r, length_map in Hcol. exact Hcol.
Qed.

Lemma iterate_built_page_witness :
  exists b v, add_all example_options Reset example_args = Some b /\
    page_view (built_page example_options b) = Some v /\
    collect 4 v fresh_cursor = Some (map stored_entry example_args).
Proof.
  destruct (add_all example_options Reset example_args) as [b|] eqn:Hb; [|discriminate Hb].
  exists b. destruct (iterate_built_page example_options example_args b) as (v & Hv & Hc).
  - split; [vm_compute; split; [discriminate|reflexivity]|discriminate].
  - repeat constructor; discriminate.
  - discriminate.
  - exact Hb.
  - exists v. auto.
Defined.

(** C21: [Seek] on a page with increasing keys finds the first entry whose key is
    not below the search key, with all its fields, and iteration goes on behind
    it; when every key is below the search key it reports the end.  The result
    does not depend on where the cursor stood. *)
Theorem seek_built_page opts l b key c lo hi :
  valid_options opts -> Forall wf_args l -> l <> [] -> add_all opts Reset l = Some b ->
  StronglySorted key_lt (map a_key l) ->
  map stored_entry l = lo ++ hi ->
  Forall (fun e => key_ e <k key) lo -> Forall (fun e => key <=k key_ e) hi ->
  exists v, page_view (built_page opts b) = Some v /\
    match hi with
    | [] => Seek v c key = Some (false, Invalidate v)
    | e :: rest => exists c', Seek v c key = Some (true, c') /\ entry_ c' = e /\
                     collect (S (length rest)) v c' = Some rest
    end.
Proof.
  intros Hopt Hargs Hl Hb Hsort Hsplit Hlo Hhi.
  destruct (built_regions opts l b Hopt Hargs Hl Hb) as (rs & Hf & Hc & Hwf & Hne & Hrs & Hv).
  eexists. split; [exact Hv|].
  assert (Hs : StronglySorted key_lt (map key_ (concat rs))) by (rewrite Hc, map_map; exact Hsort).
  pose proof (Seek_correct rs _ Hf Hwf Hne Hs key c lo hi Hrs) as HS.
  unfold lower_split in HS. rewrite Hc in HS. specialize (HS (conj Hsplit (conj Hlo Hhi))).
  destruct hi as [|e rest]; [exact HS|]. destruct HS as (c' & HS & He & Hst).
  exists c'. split; [exact HS|]. split; [exact He|].
  apply (collect_rest rs _ Hf Hwf Hne c' (lo ++ [e])).
  - rewrite length_app, Nat.add_1_r. exact Hst.
  - rewrite Hc, <- app_assoc. exact Hsplit.
Qed.

(** The example page is a valid instance of the hypotheses below. *)
Lemma example_valid : valid_options example_options /\ Forall wf_args example_args /\
  StronglySorted key_lt (map a_key example_args).
Proof.
  split; [split; [vm_compute; split; [discriminate|reflexivity]|discriminate]|].
  split; repeat constructor; discriminate.
Qed.

Lemma seek_built_page_witness :
  exists b v c', add_all example_options Reset example_args = Some b /\
    Seek v fresh_cursor [1; 1; 5] = Some (true, c') /\ key_ (entry_ c') = [1; 2].
Proof.
  destruct (add_all example_options Reset example_args) as [b|] eqn:Hb; [|discriminate Hb].
  destruct example_valid as (Hopt & Hargs & Hsort).
  destruct (seek_built_page example_options example_args b [1; 1; 5] fresh_cursor
    [stored_entry (mkArgs [1; 1] [10] false 100 0 CompNone false)]
    [stored_entry (mkArgs [1; 2] [11] false 120 7 CompNone true);
     stored_entry (mkArgs [1; 3; 1] [12; 13] true 90 0 CompDictionary false)]
    Hopt Hargs ltac:(discriminate) Hb Hsort eq_refl)
    as (v & _ & c' & HS & He & _).
  - repeat constructor.
  - repeat constructor; discriminate.
  - exists b, v, c'. rewrite He. auto.
Defined.

(** C22: [SeekFloor] on a page with increasing keys finds the last entry whose key
    is not above the search key, with its key, value, overflow flag, compression
    kind and timestamp, and iteration goes on behind it; when every key is above
    the search key it answers false and leaves the cursor. *)
Theorem seek_floor_built_page opts l b key c lo hi :
  valid_options opts -> Forall wf_args l -> l <> [] -> add_all opts Reset l = Some b ->
  StronglySorted key_lt (map a_key l) ->
  map stored_entry l = lo ++ hi ->
  Forall (fun e => key_ e <=k key) lo -> Forall (fun e => key <k key_ e) hi ->
  exists v, page_view (built_page opts b) = Some v /\
    (lo = [] -> SeekFloor v c key = Some (false, c)) /\
    (forall lo' e, lo = lo' ++ [e] ->
       exists c', SeekFloor v c key = Some (true, c') /\ floor_fields e (entry_ c') /\
         floor_flags e hi (entry_ c') /\ collect (S (length hi)) v c' = Some hi).
Proof.
  intros Hopt Hargs Hl Hb Hsort Hsplit Hlo Hhi.
  destruct (built_regions opts l b Hopt Hargs Hl Hb) as (rs & Hf & Hc & Hwf & Hne & Hrs & Hv).
  eexists. split; [exact Hv|].
  assert (Hs : StronglySorted key_lt (map key_ (concat rs))) by (rewrite Hc, map_map; exact Hsort).
  destruct (SeekFloor_correct rs _ Hf Hwf Hne Hs key c lo hi Hrs) as [HN HS].
  { split; [rewrite Hc; exact Hsplit|]. split; [exact Hlo|exact Hhi]. }
  split; [exact HN|]. intros lo' e He. destruct (HS lo' e He) as (c' & HF & Hfl & Hfg & Hst).
  exists c'. split; [exact HF|]. split; [exact Hfl|]. split; [exact Hfg|].
  apply (collect_rest rs _ Hf Hwf Hne c' lo hi Hst). rewrite Hc. exact Hsplit.
Qed.

Lemma seek_floor_built_page_witness :
  exists b v c', add_all example_options Reset example_args = Some b /\
    SeekFloor v fresh_cursor [1; 1; 5] = Some (true, c') /\ key_ (entry_ c') = [1; 1].
Proof.
  destruct (add_all example_options Reset example_args) as [b|] eqn:Hb; [|discriminate Hb].
  destruct example_valid as (Hopt & Hargs & Hsort).
  destruct (seek_floor_built_page example_options example_args b [1; 1; 5] fresh_cursor
    [stored_entry (mkArgs [1; 1] [10] false 100 0 CompNone false)]
    [stored_entry (mkArgs [1; 2] [11] false 120 7 CompNone true);
     stored_entry (mkArgs [1; 3; 1] [12; 13] true 90 0 CompDictionary false)]
    Hopt Hargs ltac:(discriminate) Hb Hsort eq_refl)
    as (v & _ & _ & HS).
  - repeat constructor; discriminate.
  - repeat constructor.
  - destruct (HS [] _ eq_refl) as (c' & HF & (Hk & _) & _). exists b, v, c'. auto.
Defined.

(** [SeekFloor] does not restore the large-value flag and the expire
    timestamp: on a page whose entry [1;1] is an inline value without expiry, the
    floor of [1;1;5] is that entry but carries the flag and the expiry of the
    entry behind it. *)
Theorem seek_floor_stale_fields :
  exists b v c e, add_all example_options Reset example_args = Some b /\
    page_view (built_page example_options b) = Some v /\
    SeekFloor v fresh_cursor [1; 1; 5] = Some (true, c) /\
    In e (map stored_entry example_args) /\ key_ e = key_ (entry_ c) /\
    large_value_ e = false /\ expire_ts_ e = 0 /\
    large_value_ (entry_ c) = true /\ expire_ts_ (entry_ c) = 7.
Proof.
  eexists _, _, _, (stored_entry (mkArgs [1; 1] [10] false 100 0 CompNone false)).
  split; [vm_compute; reflexivity|]. split; [vm_compute; reflexivity|].
  split; [vm_compute; reflexivity|]. split; [left; reflexivity|]. vm_compute. auto.
Qed.
