(* ===== verification/RegionCopy.v ===== *)
(** * Moving whole regions between pages

    [PageRegionIter] (src/storage/data_page.cpp) hands out the regions of a page
    as byte strings, [FastPageBuilder] (src/storage/data_page_builder.cpp) builds
    a page from such byte strings without decoding them, and
    [BatchWriteTask::Redistribute] (src/tasks/batch_write_task.cpp) balances two
    neighbouring data pages with them.  The regions of the two pages are shown to
    be kept, in order, and both results to be pages of the reference format. *)

From S2P Require Import Prelude Coding Comparator PageFormat Regions DataPage.

(** ** [FastPageBuilder] *)
Definition IndexHeaderSize : Z := checksum_bytes + 1 + 2 + 4.

Record FastPageBuilder := mkFast {
  ptr_ : bytes;
  end_offset_ : Z;
  region_offsets_ : list Z
}.

(** [Reset] writes the page type and leaves the rest of the buffer. *)
Definition FastReset (f : FastPageBuilder) (ptr : bytes) (type : PageType) : FastPageBuilder :=
  mkFast (SetPageType ptr type)
    (match type with
     | NonLeafIndex | LeafIndex => IndexHeaderSize
     | Data => HeaderSize
     | Overflow | Deleted => end_offset_ f
     end) [].

Definition CurrentSize (f : FastPageBuilder) : Z :=
  end_offset_ f + zlen (region_offsets_ f) * 2 + 2.

(** The copy is skipped in the source when the region already lies at the end
    offset, where copying it would change nothing. *)
Definition AddRegion (opts : KvOptions) (f : FastPageBuilder) (region : bytes) : bool * FastPageBuilder :=
  if data_page_size opts <? CurrentSize f + zlen region + 2 then (false, f)
  else (true, mkFast (write_at (ptr_ f) (end_offset_ f) region)
                (u16 (end_offset_ f + zlen region))
                (region_offsets_ f ++ [end_offset_ f])).

(** One iteration of the loop of [Finish]. *)
Definition put_offset (f : bytes * Z) (offset : Z) : bytes * Z :=
  (write_at (fst f) (snd f) (EncodeFixed16 offset), u16 (snd f + 2)).

Definition FastFinish (f : FastPageBuilder) : bytes :=
  let s := fold_left put_offset (region_offsets_ f) (ptr_ f, end_offset_ f) in
  let s := put_offset s (zlen (region_offsets_ f)) in
  write_at (fst s) page_size_offset (EncodeFixed16 (snd s)).

(** ** [PageRegionIter] *)
Record PageRegionIter := mkRegionIter {
  ri_page : bytes;
  cur_region_idx_ : Z;
  num_regions_ : Z;
  restart_array_ : Z
}.

Definition RegionIterReset (page : bytes) : option PageRegionIter :=
  num ← (if 2 <=? zlen page then DecodeFixed16 (zdrop (zlen page - 2) page) else None);
  Some (mkRegionIter page 0 num (zlen page - 2 * (num + 1))).

Definition RegionOffset (it : PageRegionIter) (region_idx : Z) : option Z :=
  if region_idx <? num_regions_ it then
    DecodeFixed16 (zdrop (restart_array_ it + region_idx * 2) (ri_page it))
  else Some (u16 (restart_array_ it)).

Definition Region (it : PageRegionIter) : option bytes :=
  offset ← RegionOffset it (cur_region_idx_ it);
  next ← RegionOffset it (cur_region_idx_ it + 1);
  Some (ztake (u16 (next - offset)) (zdrop offset (ri_page it))).

Definition RegionValid (it : PageRegionIter) : bool := cur_region_idx_ it <? num_regions_ it.

Definition RegionNext (it : PageRegionIter) : PageRegionIter :=
  mkRegionIter (ri_page it) (cur_region_idx_ it + 1) (num_regions_ it) (restart_array_ it).

(** ** [Redistribute] of data pages *)

(** Skips the regions that stay in the previous page; the loop runs at most once
    per region of the page. *)
Fixpoint preserve_loop (fuel : nat) (it : PageRegionIter) (preserve_len cnt average_len : Z)
    : option (PageRegionIter * Z * Z) :=
  if preserve_len <? average_len then
    match fuel with
    | O => None
    | S fuel' =>
        region ← Region it;
        preserve_loop fuel' (RegionNext it) (u16 (preserve_len + zlen region + 2)) (cnt + 1) average_len
    end
  else Some (it, preserve_len, cnt).

(** [for (; iter.Valid(); iter.Next()) builder.AddRegion(iter.Region())] *)
Fixpoint copy_loop (fuel : nat) (opts : KvOptions) (it : PageRegionIter) (f : FastPageBuilder)
    : option FastPageBuilder :=
  if RegionValid it then
    match fuel with
    | O => None
    | S fuel' =>
        region ← Region it;
        copy_loop fuel' opts (RegionNext it) (snd (AddRegion opts f region))
    end
  else Some f.

(** The loop that copies the first [n] regions. *)
Fixpoint copy_n (n : nat) (opts : KvOptions) (it : PageRegionIter) (f : FastPageBuilder)
    : option FastPageBuilder :=
  match n with
  | O => Some f
  | S n' =>
      region ← Region it;
      copy_n n' opts (RegionNext it) (snd (AddRegion opts f region))
  end.

(** Returns the previous page, updated in place, and the new current page;
    [new_page] is the uninitialised buffer of the latter. *)
Definition Redistribute (opts : KvOptions) (prev_page cur_page new_page : bytes)
    : option (bytes * bytes) :=
  prev_page_len ← ContentLength prev_page;
  cur_page_len ← ContentLength cur_page;
  let average_len := u16 (Z.shiftr (prev_page_len + cur_page_len) 1) in
  iter ← RegionIterReset (ztake prev_page_len prev_page);
  '(iter, preserve_len, preserve_region_cnt) ←
    preserve_loop (Z.to_nat (num_regions_ iter)) iter (HeaderSize + 2) 0 average_len;
  if preserve_len =? prev_page_len then
    Some (prev_page, write_at new_page 0 cur_page)
  else
    let builder := FastReset (mkFast [] 0 []) new_page Data in
    builder ← copy_loop (Z.to_nat (num_regions_ iter)) opts iter builder;
    iter2 ← RegionIterReset (ztake cur_page_len cur_page);
    builder ← copy_loop (Z.to_nat (num_regions_ iter2)) opts iter2 builder;
    let new_page := FastFinish builder in
    iter3 ← RegionIterReset (ztake prev_page_len prev_page);
    let builder := FastReset builder prev_page Data in
    builder ← copy_n (Z.to_nat preserve_region_cnt) opts iter3 builder;
    Some (FastFinish builder, new_page).

(** ** Building from regions *)
Lemma write_at_end a tail src :
  write_at (a ++ tail) (zlen a) src = a ++ src ++ zdrop (zlen src) tail.
Proof.
  unfold write_at. rewrite ztake_app, zdrop_app_add by apply zlen_nonneg. reflexivity.
Qed.

Lemma fold_put_offset a tail offs :
  zlen offs * 2 <= zlen tail -> zlen a + zlen offs * 2 < 65536 ->
  fold_left put_offset offs (a ++ tail, zlen a) =
  ((a ++ restart_array offs) ++ zdrop (zlen offs * 2) tail, zlen (a ++ restart_array offs)).
Proof.
  revert a tail. induction offs as [|o offs IH]; intros a tail Ht Ha.
  - simpl. rewrite app_nil_r. reflexivity.
  - rewrite zlen_cons in *. cbn [fold_left]. unfold put_offset at 2. cbn [fst snd].
    rewrite write_at_end. change (zlen (EncodeFixed16 o)) with 2.
    rewrite app_assoc. replace (u16 (zlen a + 2)) with (zlen (a ++ EncodeFixed16 o))
      by (rewrite zlen_app, u16_id by (unfold is_u16; zlia); reflexivity).
    pose proof (zlen_nonneg offs).
    rewrite IH.
    + change (restart_array (o :: offs)) with (EncodeFixed16 o ++ restart_array offs).
      rewrite zdrop_zdrop by lia. replace (2 + zlen offs * 2) with ((1 + zlen offs) * 2) by lia.
      rewrite <- !app_assoc. reflexivity.
    + rewrite zlen_zdrop by lia. lia.
    + rewrite zlen_app. change (zlen (EncodeFixed16 o)) with 2. lia.
Qed.

Section fast.
  Context {E : Type} (enc : option E -> E -> bytes) (base : Z) (opts : KvOptions).
  Context (Hbase : page_size_offset + 2 <= base) (Hps : base + 2 <= data_page_size opts < 65536).

(** The builder holds the regions [rs] behind the header [hdr]. *)
Definition fast_inv (hdr : bytes) (rs : list (list E)) (f : FastPageBuilder) : Prop :=
  exists tail, ptr_ f = hdr ++ blob enc rs ++ tail /\ zlen hdr = base /\
    zlen (ptr_ f) = data_page_size opts /\
    end_offset_ f = base + zlen (blob enc rs) /\
    region_offsets_ f = region_offsets enc base rs /\
    content_size enc base rs <= data_page_size opts.

Lemma AddRegion_inv hdr rs f r :
  fast_inv hdr rs f -> content_size enc base (rs ++ [r]) <= data_page_size opts ->
  fst (AddRegion opts f (enc_region enc r)) = true /\
  fast_inv hdr (rs ++ [r]) (snd (AddRegion opts f (enc_region enc r))).
Proof.
  intros (tail & Hp & Hh & Hl & He & Hr & Hc) Hfit. unfold AddRegion, CurrentSize.
  rewrite He, Hr.
  assert (Hlen : zlen (region_offsets enc base rs) = zlen rs)
    by (unfold zlen; rewrite region_offsets_length; reflexivity).
  assert (Hfit' : base + zlen (blob enc rs) + zlen (enc_region enc r) + zlen rs * 2 + 4
                  <= data_page_size opts).
  { unfold content_size in Hfit. rewrite blob_snoc, !zlen_app, zlen_cons, (@zlen_nil (list E)) in Hfit. lia. }
  rewrite Hlen. case_if; [zlia|]. split; [reflexivity|]. cbn [snd].
  exists (zdrop (zlen (enc_region enc r)) tail). cbn [ptr_ end_offset_ region_offsets_].
  rewrite Hp, blob_snoc, zlen_app, region_offsets_snoc.
  replace (base + zlen (blob enc rs)) with (zlen (hdr ++ blob enc rs)) by (rewrite zlen_app; lia).
  rewrite (app_assoc hdr), write_at_end, <- !app_assoc.
  rewrite Hp, !zlen_app in Hl.
  split; [reflexivity|]. split; [exact Hh|]. split.
  - rewrite !zlen_app, zlen_zdrop by zlia. lia.
  - rewrite zlen_app, u16_id by (unfold is_u16; zlia). split; [lia|]. split; [|exact Hfit].
    reflexivity.
Qed.

Lemma FastFinish_format hdr rs f :
  fast_inv hdr rs f ->
  page_format enc base rs (FastFinish f) /\ zlen (FastFinish f) = data_page_size opts /\
  exists rest, FastFinish f = write_at hdr page_size_offset (EncodeFixed16 (content_size enc base rs)) ++ rest.
Proof.
  intros (tail & Hp & Hh & Hl & He & Hr & Hc). unfold FastFinish. rewrite Hp, He, Hr.
  assert (Hlen : zlen (region_offsets enc base rs) = zlen rs)
    by (unfold zlen; rewrite region_offsets_length; reflexivity).
  unfold content_size in Hc. rewrite Hp, !zlen_app in Hl.
  replace (base + zlen (blob enc rs)) with (zlen (hdr ++ blob enc rs)) by (rewrite zlen_app; lia).
  rewrite (app_assoc hdr), fold_put_offset by (rewrite ?zlen_app, ?Hlen; zlia).
  unfold put_offset. cbn [fst snd]. rewrite write_at_end, Hlen.
  change (zlen (EncodeFixed16 (zlen rs))) with 2.
  set (pad := zdrop 2 (zdrop (zlen rs * 2) tail)).
  replace (u16 (zlen _ + 2)) with (content_size enc base rs)
    by (unfold content_size; rewrite !zlen_app, restart_array_length, Hlen, u16_id by (unfold is_u16; zlia); lia).
  rewrite <- !app_assoc, write_at_app
    by (change (zlen (EncodeFixed16 _)) with 2; change page_size_offset with 9 in *; lia).
  assert (Hpad : zlen pad = zlen tail - zlen rs * 2 - 2)
    by (unfold pad; rewrite zdrop_zdrop, zlen_zdrop; zlia).
  assert (Hwh : zlen (write_at hdr page_size_offset (EncodeFixed16 (content_size enc base rs))) = base).
  { rewrite zlen_write_at; [exact Hh|discriminate|]. change (zlen (EncodeFixed16 _)) with 2. lia. }
  split; [|split].
  - exists (write_at hdr page_size_offset (EncodeFixed16 (content_size enc base rs))), pad.
    split; [reflexivity|]. split; [exact Hwh|]. split; [exact Hbase|]. split.
    + rewrite zdrop_write_at by (change page_size_offset with 9 in *; lia).
      apply fixed16_app. unfold content_size. unfold is_u16. zlia.
    + unfold content_size. change (2 ^ 16) with 65536. lia.
  - rewrite !zlen_app, Hwh, Hpad, restart_array_length, Hlen.
    change (zlen (EncodeFixed16 (zlen rs))) with 2. lia.
  - eexists. reflexivity.
Qed.
End fast.

(** ** Reading regions *)
Section iter.
  Context {E : Type} (enc : option E -> E -> bytes) (base : Z).
  Context (rs : list (list E)) (page : bytes) (Hpage : page_format enc base rs page).

(** The content of a page, without its padding, is itself of the format. *)
Lemma content_format : page_format enc base rs (ztake (content_size enc base rs) page) /\
  zlen (ztake (content_size enc base rs) page) = content_size enc base rs.
Proof.
  destruct Hpage as (hdr & pad & -> & Hb & H11 & Hd & Hfit).
  assert (Hc : zlen (format_page enc base hdr [] rs) = content_size enc base rs).
  { unfold format_page, content_size. rewrite !zlen_app, restart_array_length, Hb.
    change (zlen (EncodeFixed16 _)) with 2. rewrite (@zlen_nil Z). unfold zlen at 2.
    rewrite region_offsets_length. unfold zlen. lia. }
  assert (Hp : format_page enc base hdr pad rs = format_page enc base hdr [] rs ++ pad)
    by (unfold format_page; rewrite <- !app_assoc; reflexivity).
  rewrite Hp, <- Hc, ztake_app. split; [|reflexivity]. exists hdr, []. auto.
Qed.

(** The iterator over the content, at region number [i]. *)
Definition format_iter (i : Z) : PageRegionIter :=
  mkRegionIter (ztake (content_size enc base rs) page) i (zlen rs) (base + zlen (blob enc rs)).

Lemma RegionIterReset_format :
  RegionIterReset (ztake (content_size enc base rs) page) = Some (format_iter 0).
Proof.
  destruct content_format as [Hf Hl]. unfold RegionIterReset. rewrite Hl.
  pose proof (format_page_view enc base rs _ Hf) as Hv. unfold page_view, RestartNum in Hv.
  rewrite (format_ContentLength enc base rs _ Hf) in Hv. cbn [mbind option_bind] in Hv.
  destruct (2 <=? content_size enc base rs); [|discriminate Hv].
  destruct (DecodeFixed16 _) as [num|]; [|discriminate Hv]. cbn [mbind option_bind] in *.
  injection Hv as -> _. unfold format_iter, content_size. do 2 f_equal. lia.
Qed.

Lemma RegionOffset_here i pre r suf :
  rs = pre ++ r :: suf -> RegionOffset (format_iter i) (zlen pre) = Some (base + zlen (blob enc pre)).
Proof.
  intros Hrs. destruct content_format as [Hf _]. unfold RegionOffset.
  assert (Hn : zlen rs = zlen pre + 1 + zlen suf) by (rewrite Hrs, zlen_app, zlen_cons; lia).
  cbn [num_regions_ restart_array_ ri_page format_iter]. case_if; [|zlia].
  exact (format_RestartOffset enc base rs _ Hf pre r suf Hrs).
Qed.

Lemma RegionOffset_next i pre r suf :
  rs = pre ++ r :: suf ->
  RegionOffset (format_iter i) (zlen pre + 1) =
  Some (base + zlen (blob enc pre) + zlen (enc_region enc r)).
Proof.
  intros Hrs. assert (Hl : zlen pre + 1 = zlen (pre ++ [r]))
    by (rewrite zlen_app, zlen_cons, (@zlen_nil (list E)); lia).
  destruct suf as [|r' suf].
  - unfold RegionOffset. cbn [num_regions_ restart_array_ format_iter]. rewrite Hrs, Hl.
    case_if; [lia|]. rewrite <- Hrs.
    destruct (format_bounds enc base rs _ Hpage) as (Hb0 & Hb & _).
    rewrite u16_id by (unfold is_u16; zlia). rewrite Hrs, blob_snoc, zlen_app. f_equal. lia.
  - rewrite Hl, (RegionOffset_here i (pre ++ [r]) r' suf) by (rewrite <- app_assoc; exact Hrs).
    rewrite blob_snoc, zlen_app. f_equal. lia.
Qed.

Lemma Region_format pre r suf :
  rs = pre ++ r :: suf -> Region (format_iter (zlen pre)) = Some (enc_region enc r).
Proof.
  intros Hrs. destruct content_format as [Hf _]. unfold Region. cbn [cur_region_idx_ format_iter].
  fold (format_iter (zlen pre)). rewrite (RegionOffset_here _ _ _ _ Hrs).
  cbn [mbind option_bind]. rewrite (RegionOffset_next _ _ _ _ Hrs). cbn [mbind option_bind ri_page format_iter].
  destruct (format_bounds enc base rs _ Hf) as (Hb0 & Hb & _).
  pose proof (format_window enc base rs _ Hf pre r suf [] (enc_region enc r) Hrs eq_refl) as Hw.
  rewrite (@zlen_nil Z), Z.add_0_r in Hw. unfold window in Hw. cbn [restart_offset_ page_ format_view] in Hw.
  destruct (_ && _); [|discriminate Hw]. injection Hw as Hw. f_equal.
  set (cp := ztake _ page) in *.
  rewrite <- (ztake_zdrop (base + zlen (blob enc rs) - (base + zlen (blob enc pre)))
                (zdrop (base + zlen (blob enc pre)) cp)), Hw, <- app_assoc.
  rewrite Hrs, blob_app, blob_cons, !zlen_app in Hb.
  rewrite u16_id by (unfold is_u16; zlia).
  replace (_ - _) with (zlen (enc_region enc r)) by lia. apply ztake_app.
Qed.

Lemma RegionValid_format i : RegionValid (format_iter i) = (i <? zlen rs).
Proof. reflexivity. Qed.

Lemma RegionNext_format i : RegionNext (format_iter i) = format_iter (i + 1).
Proof. reflexivity. Qed.

(** Copying the regions from number [length pre] on. *)
Lemma copy_loop_format opts hdr ds f fuel pre suf :
  base + 2 <= data_page_size opts < 65536 ->
  rs = pre ++ suf -> (length suf <= fuel)%nat ->
  fast_inv enc base opts hdr ds f -> content_size enc base (ds ++ suf) <= data_page_size opts ->
  exists f', copy_loop fuel opts (format_iter (zlen pre)) f = Some f' /\
    fast_inv enc base opts hdr (ds ++ suf) f'.
Proof.
  intros Hps. revert fuel pre ds f. induction suf as [|r suf IH]; intros fuel pre ds f Hrs Hf Hinv Hfit.
  - exists f. rewrite app_nil_r in *. split; [|exact Hinv].
    destruct fuel; cbn [copy_loop]; rewrite RegionValid_format, Hrs, Z.ltb_irrefl; reflexivity.
  - destruct fuel as [|fuel]; [simpl in Hf; lia|]. cbn [copy_loop]. rewrite RegionValid_format.
    rewrite (proj2 (Z.ltb_lt _ _)) by (rewrite Hrs, zlen_app, zlen_cons; zlia).
    rewrite (Region_format _ _ _ Hrs), RegionNext_format. cbn [mbind option_bind].
    assert (Hds : ds ++ r :: suf = (ds ++ [r]) ++ suf) by (rewrite <- app_assoc; reflexivity).
    rewrite Hds in Hfit |- *.
    destruct (AddRegion_inv enc base opts Hps hdr ds f r Hinv) as [_ Hinv'].
    { pose proof (content_size_app_le enc base (ds ++ [r]) suf). lia. }
    replace (zlen pre + 1) with (zlen (pre ++ [r]))
      by (rewrite zlen_app, zlen_cons, (@zlen_nil (list E)); lia).
    apply IH; auto; [rewrite <- app_assoc; exact Hrs|simpl in Hf; lia].
Qed.

Lemma copy_n_format opts hdr ds f pre mid suf :
  base + 2 <= data_page_size opts < 65536 ->
  rs = pre ++ mid ++ suf ->
  fast_inv enc base opts hdr ds f -> content_size enc base (ds ++ mid) <= data_page_size opts ->
  exists f', copy_n (length mid) opts (format_iter (zlen pre)) f = Some f' /\
    fast_inv enc base opts hdr (ds ++ mid) f'.
Proof.
  intros Hps. revert pre ds f. induction mid as [|r mid IH]; intros pre ds f Hrs Hinv Hfit.
  - exists f. rewrite app_nil_r. auto.
  - cbn [copy_n length]. rewrite (Region_format _ r (mid ++ suf) Hrs), RegionNext_format. cbn [mbind option_bind].
    assert (Hds : ds ++ r :: mid = (ds ++ [r]) ++ mid) by (rewrite <- app_assoc; reflexivity).
    rewrite Hds in Hfit |- *.
    destruct (AddRegion_inv enc base opts Hps hdr ds f r Hinv) as [_ Hinv'].
    { pose proof (content_size_app_le enc base (ds ++ [r]) mid). lia. }
    replace (zlen pre + 1) with (zlen (pre ++ [r]))
      by (rewrite zlen_app, zlen_cons, (@zlen_nil (list E)); lia).
    apply IH; auto. rewrite <- app_assoc. exact Hrs.
Qed.

(** The loop that skips regions stops at the average, or at the end. *)
  Local Abbreviation size := (content_size enc base).

Lemma content_size_split a b : size (a ++ b) + base + 2 = size a + size b.
Proof. unfold content_size. rewrite blob_app, !zlen_app. lia. Qed.

Lemma content_size_min ds : base + 2 <= size ds.
Proof. unfold content_size. zlia. Qed.

Lemma content_size_u16 : size rs < 65536.
Proof. destruct (format_bounds _ _ _ _ Hpage) as (_ & Hb & _). unfold content_size. lia. Qed.

Lemma preserve_loop_format average fuel pre suf :
  0 <= base -> rs = pre ++ suf -> (length suf <= fuel)%nat -> average <= size rs ->
  exists mid suf', suf = mid ++ suf' /\ average <= size (pre ++ mid) /\
    ((size pre < average -> mid <> []) /\ forall k r, mid = k ++ [r] -> size (pre ++ k) < average) /\
    preserve_loop fuel (format_iter (zlen pre)) (size pre) (zlen pre) average =
    Some (format_iter (zlen (pre ++ mid)), size (pre ++ mid), zlen (pre ++ mid)).
Proof.
  intros Hb0. revert fuel pre. induction suf as [|r suf IH]; intros fuel pre Hrs Hf Hav.
  - rewrite app_nil_r in Hrs. rewrite Hrs in Hav. exists [], []. rewrite !(app_nil_r pre).
    split; [reflexivity|]. split; [exact Hav|].
    split; [split; [lia|intros [|? ?] ? Hk; discriminate Hk]|].
    destruct fuel; cbn [preserve_loop]; case_if; try lia; reflexivity.
  - destruct fuel as [|fuel]; [simpl in Hf; lia|]. cbn [preserve_loop].
    destruct (Z.ltb_spec (size pre) average) as [Hlt|Hge].
    + rewrite (Region_format _ _ _ Hrs), RegionNext_format.
      cbn [mbind option_bind].
      assert (Hsz : size (pre ++ [r]) = size pre + zlen (enc_region enc r) + 2).
      { unfold content_size. rewrite blob_snoc, !zlen_app, zlen_cons, (@zlen_nil (list E)). lia. }
      assert (Hl1 : zlen pre + 1 = zlen (pre ++ [r]))
        by (rewrite zlen_app, zlen_cons, (@zlen_nil (list E)); lia).
      assert (Hrs' : rs = (pre ++ [r]) ++ suf) by (rewrite <- app_assoc; exact Hrs).
      pose proof (content_size_app_le enc base (pre ++ [r]) suf) as Hle.
      rewrite <- Hrs' in Hle. pose proof (content_size_min (pre ++ [r])). pose proof content_size_u16.
      rewrite <- Hsz, u16_id by (unfold is_u16; lia). rewrite Hl1.
      destruct (IH fuel (pre ++ [r]) Hrs' ltac:(simpl in Hf; lia) Hav)
        as (mid & suf' & -> & Hge & [_ Hmin] & Hl).
      exists (r :: mid), suf'. rewrite Hl, <- !app_assoc. rewrite <- app_assoc in Hge.
      split; [reflexivity|]. split; [exact Hge|]. split; [|reflexivity]. split; [discriminate|].
      intros [|r0 k] r' Hk; injection Hk as <- Hk; [rewrite app_nil_r; exact Hlt|].
      specialize (Hmin k r' Hk). rewrite <- app_assoc in Hmin. exact Hmin.
    + exists [], (r :: suf). rewrite !(app_nil_r pre). split; [reflexivity|]. split; [exact Hge|].
      split; [split; [lia|intros [|? ?] ? Hk; discriminate Hk]|reflexivity].
Qed.

Lemma content_size_fits : size rs <= zlen page.
Proof. destruct content_format as [_ Hl]. rewrite <- Hl. unfold ztake, zlen. rewrite length_take. lia. Qed.

(** When every region is kept there is nothing to move. *)
Lemma content_size_keep keep move : rs = keep ++ move -> size keep = size rs -> move = [].
Proof.
  intros Hrs Heq. pose proof (content_size_split keep move) as Hs. rewrite <- Hrs in Hs.
  apply zlen_zero. unfold content_size in *. zlia.
Qed.
End iter.

(** ** Redistribution *)

(** A reset builder holds no region; its header is that of the buffer. *)
Lemma FastReset_inv {E} (enc : option E -> E -> bytes) base opts f buf type :
  match type with NonLeafIndex | LeafIndex => base = IndexHeaderSize | Data => base = HeaderSize | Overflow | Deleted => False end ->
  base + 2 <= data_page_size opts -> zlen buf = data_page_size opts ->
  fast_inv enc base opts (ztake base (SetPageType buf type)) [] (FastReset f buf type).
Proof.
  intros Ht Hs Hl. assert (Hb : 15 <= base) by (destruct type; try contradiction; rewrite Ht; discriminate).
  assert (Hl' : zlen (SetPageType buf type) = data_page_size opts).
  { unfold SetPageType. rewrite zlen_write_at; [exact Hl|discriminate|].
    rewrite zlen_cons, (@zlen_nil Z). change page_type_offset with 8. lia. }
  exists (zdrop base (SetPageType buf type)). cbn [ptr_ end_offset_ region_offsets_ FastReset].
  change (blob enc []) with (@nil Z). rewrite app_nil_l, ztake_zdrop.
  split; [reflexivity|]. split; [rewrite zlen_ztake; lia|]. split; [exact Hl'|].
  split; [rewrite (@zlen_nil Z), Z.add_0_r; destruct type; try contradiction; symmetry; exact Ht|]. split; [reflexivity|].
  unfold content_size. change (blob enc []) with (@nil Z). rewrite (@zlen_nil Z), (@zlen_nil (list E)). lia.
Qed.

Lemma average_bounds a b : 0 <= b < a -> a < 65536 ->
  let average := u16 (Z.shiftr (a + b) 1) in b <= average <= a /\ a + b - average <= average + 1.
Proof.
  intros Hlt Ha. cbv zeta. rewrite Z.shiftr_div_pow2 by lia. change (2 ^ 1) with 2.
  pose proof (Z.div_mod (a + b) 2 ltac:(lia)). pose proof (Z.mod_pos_bound (a + b) 2 ltac:(lia)).
  rewrite u16_id by (unfold is_u16; change (2 ^ 16) with 65536; lia). lia.
Qed.

Section redistribute.
  Context (opts : KvOptions) (Hopt : valid_options opts).
  Context (rs1 rs2 : list (list Entry)) (prev cur new_buf : bytes).
  Context (Hprev : page_format enc_entry HeaderSize rs1 prev).
  Context (Hcur : page_format enc_entry HeaderSize rs2 cur).
  Context (Hlp : zlen prev = data_page_size opts) (Hlc : zlen cur = data_page_size opts).
  Context (Hln : zlen new_buf = data_page_size opts).

  Local Abbreviation size := (content_size enc_entry HeaderSize).

(** The new current page: the moved regions, then those of the old one. *)
Lemma copy_both keep move :
  rs1 = keep ++ move -> size (move ++ rs2) <= data_page_size opts ->
  exists f1 f2,
    copy_loop (Z.to_nat (zlen rs1)) opts (format_iter enc_entry HeaderSize rs1 prev (zlen keep))
      (FastReset (mkFast [] 0 []) new_buf Data) = Some f1 /\
    copy_loop (Z.to_nat (zlen rs2)) opts (format_iter enc_entry HeaderSize rs2 cur 0) f1 = Some f2 /\
    fast_inv enc_entry HeaderSize opts (ztake HeaderSize (SetPageType new_buf Data)) (move ++ rs2) f2.
Proof.
  intros Hrs Hfit. destruct Hopt as [Hs _].
  assert (Hs' : HeaderSize + 2 <= data_page_size opts < 65536) by lia.
  pose proof (content_size_app_le enc_entry HeaderSize move rs2).
  destruct (copy_loop_format _ _ _ _ Hprev opts _ [] _ (Z.to_nat (zlen rs1)) keep move Hs' Hrs
    ltac:(rewrite Hrs; unfold zlen; rewrite length_app; lia)
    (FastReset_inv enc_entry HeaderSize opts (mkFast [] 0 []) new_buf Data eq_refl ltac:(lia) Hln) ltac:(cbn [app]; lia)) as (f1 & H1 & Hi1).
  destruct (copy_loop_format _ _ _ _ Hcur opts _ move f1 (Z.to_nat (zlen rs2)) [] rs2 Hs' eq_refl
    ltac:(unfold zlen; lia) Hi1 Hfit) as (f2 & H2 & Hi2).
  exists f1, f2. auto.
Qed.

(** [page] has the header of the buffer [buf], but for type and length. *)
Definition header_of (buf page : bytes) : Prop :=
  exists len rest, page = write_at (ztake HeaderSize (SetPageType buf Data)) page_size_offset (EncodeFixed16 len) ++ rest.

(** The regions that the previous page keeps: the fewest that reach half of the
    content of the two pages. *)
Definition half_kept (keep : list (list Entry)) : Prop :=
  keep <> [] /\ (size rs1 + size rs2) / 2 <= size keep /\ forall k r, keep = k ++ [r] -> size k < (size rs1 + size rs2) / 2.

Lemma Redistribute_correct :
  size rs2 < size rs1 -> rs2 <> [] ->
  exists keep move prev' cur', rs1 = keep ++ move /\ half_kept keep /\
    Redistribute opts prev cur new_buf = Some (prev', cur') /\
    page_format enc_entry HeaderSize keep prev' /\
    page_format enc_entry HeaderSize (move ++ rs2) cur' /\
    zlen prev' = data_page_size opts /\ zlen cur' = data_page_size opts /\
    (prev' = prev \/ header_of prev prev') /\ (cur' = cur \/ header_of new_buf cur').
Proof.
  intros Hlt Hne. pose proof (content_size_min enc_entry HeaderSize rs2) as Hmin. assert (Hpos : 0 < HeaderSize) by reflexivity.
  destruct (average_bounds (size rs1) (size rs2) ltac:(lia) (content_size_u16 _ _ _ _ Hprev)) as [Hav _].
  pose proof (content_size_u16 _ _ _ _ Hprev) as Hu16.
  assert (Haverage : u16 (Z.shiftr (size rs1 + size rs2) 1) = (size rs1 + size rs2) / 2).
  { rewrite Z.shiftr_div_pow2 by lia. apply u16_id. change (2 ^ 1) with 2. unfold is_u16.
    pose proof (Z.div_mod (size rs1 + size rs2) 2 ltac:(lia)). pose proof (Z.mod_pos_bound (size rs1 + size rs2) 2 ltac:(lia)). lia. }
  unfold Redistribute. rewrite (format_ContentLength _ _ _ _ Hprev), (format_ContentLength _ _ _ _ Hcur).
  cbn [mbind option_bind]. set (average := u16 _) in *.
  rewrite !(RegionIterReset_format _ _ _ _ Hprev). cbn [mbind option_bind].
  change (num_regions_ (format_iter enc_entry HeaderSize rs1 prev 0)) with (zlen rs1).
  destruct (preserve_loop_format _ _ _ _ Hprev average (Z.to_nat (zlen rs1)) [] rs1 ltac:(discriminate) eq_refl
    ltac:(unfold zlen; lia) ltac:(lia)) as (keep & move & Hrs & Hge & [Hmid Hmin'] & Hl).
  change (size []) with (HeaderSize + 2) in Hl, Hmid. rewrite (@zlen_nil (list Entry)) in Hl.
  cbn [app] in *. rewrite Hl. cbn [mbind option_bind].
  assert (Hkeep : keep <> []).
  { clear Haverage. apply Hmid. destruct rs2 as [|r2 rs2']; [congruence|]. unfold content_size in Hav.
    rewrite zlen_cons in Hav. zlia. }
  assert (Hhalf : half_kept keep) by (unfold half_kept; rewrite <- Haverage; auto).
  pose proof (content_size_fits _ _ _ _ Hprev) as Hfp. rewrite Hlp in Hfp.
  exists keep, move. destruct (Z.eqb_spec (size keep) (size rs1)) as [Heq|Hneq].
  - pose proof (content_size_keep _ _ _ keep move Hrs Heq) as ->. rewrite app_nil_r in Hrs. rewrite <- Hrs.
    exists prev, cur. split; [symmetry; apply app_nil_r|]. split; [rewrite Hrs; exact Hhalf|].
    split; [|auto 10]. unfold write_at. rewrite Z.add_0_l, Hlc, <- Hln, zdrop_all, app_nil_r.
    reflexivity.
  - change (num_regions_ (format_iter enc_entry HeaderSize rs1 prev (zlen keep))) with (zlen rs1).
    pose proof (content_size_split enc_entry HeaderSize keep move) as Hsa. rewrite <- Hrs in Hsa.
    pose proof (content_size_split enc_entry HeaderSize move rs2) as Hsb.
    destruct (copy_both keep move Hrs ltac:(lia)) as (f1 & f2 & H1 & H2 & Hi2).
    rewrite H1. cbn [mbind option_bind]. rewrite (RegionIterReset_format _ _ _ _ Hcur).
    cbn [mbind option_bind].
    change (num_regions_ (format_iter enc_entry HeaderSize rs2 cur 0)) with (zlen rs2). rewrite H2.
    cbn [mbind option_bind]. destruct Hopt as [Hs _].
    destruct (copy_n_format _ _ _ _ Hprev opts _ [] _ [] keep move ltac:(lia) Hrs
      (FastReset_inv enc_entry HeaderSize opts f2 prev Data eq_refl ltac:(lia) Hlp) ltac:(cbn [app]; pose proof (content_size_min enc_entry HeaderSize move); lia)) as (f3 & H3 & Hi3).
    replace (Z.to_nat (zlen keep)) with (length keep) by (unfold zlen; lia).
    change (zlen []) with 0 in H3. rewrite H3. cbn [mbind option_bind app] in *.
    destruct (FastFinish_format enc_entry HeaderSize opts ltac:(discriminate) ltac:(lia) _ _ _ Hi3) as (Hf3 & Hl3 & t3 & Ht3).
    destruct (FastFinish_format enc_entry HeaderSize opts ltac:(discriminate) ltac:(lia) _ _ _ Hi2) as (Hf2 & Hl2 & t2 & Ht2).
    exists (FastFinish f3), (FastFinish f2). do 7 (split; [auto|]). split; right; unfold header_of; eauto.
Qed.
End redistribute.

(** ** Properties *)

(** C24: Redistributing two neighbouring data pages loses and reorders nothing
    and balances the pages.  Both results are pages of the reference format and of
    the page size.  The previous page keeps its first regions, the fewest that
    reach half of the content of both pages, and the others go in front of those
    of the current page; the sum of the two sizes stays the same.  When a region
    moves, the sizes of the two pages come closer. *)
Theorem redistribute_keeps_entries opts rs1 rs2 prev cur new_buf :
  valid_options opts ->
  page_format enc_entry HeaderSize rs1 prev -> page_format enc_entry HeaderSize rs2 cur ->
  zlen prev = data_page_size opts -> zlen cur = data_page_size opts ->
  zlen new_buf = data_page_size opts ->
  let size := content_size enc_entry HeaderSize in
  size rs2 < size rs1 -> rs2 <> [] ->
  exists keep move prev' cur',
    Redistribute opts prev cur new_buf = Some (prev', cur') /\
    page_format enc_entry HeaderSize keep prev' /\ page_format enc_entry HeaderSize (move ++ rs2) cur' /\
    zlen prev' = data_page_size opts /\ zlen cur' = data_page_size opts /\
    rs1 = keep ++ move /\ keep <> [] /\ (size rs1 + size rs2) / 2 <= size keep /\
    (forall k r, keep = k ++ [r] -> size k < (size rs1 + size rs2) / 2) /\
    size keep + size (move ++ rs2) = size rs1 + size rs2 /\
    (move <> [] -> Z.abs (size keep - size (move ++ rs2)) < size rs1 - size rs2).
Proof.
  intros Hopt H1 H2 Hl1 Hl2 Hl3 size Hlt Hne.
  destruct (Redistribute_correct opts Hopt rs1 rs2 prev cur new_buf H1 H2 Hl1 Hl2 Hl3 Hlt Hne)
    as (keep & move & prev' & cur' & Hrs & (Hk & Hge & Hmin) & HR & Hf1 & Hf2 & Hz1 & Hz2 & _).
  assert (Hsum : size keep + size (move ++ rs2) = size rs1 + size rs2).
  { rewrite Hrs. pose proof (content_size_split enc_entry HeaderSize keep move).
    pose proof (content_size_split enc_entry HeaderSize move rs2). unfold size. lia. }
  exists keep, move, prev', cur'. do 9 (split; [assumption|]). split; [exact Hsum|]. intros Hm. fold size in Hge.
  assert (Hless : size keep + 2 <= size rs1).
  { rewrite Hrs. pose proof (content_size_split enc_entry HeaderSize keep move) as Hs. unfold size.
    destruct move as [|r move]; [congruence|]. unfold content_size in *. rewrite zlen_cons in Hs. zlia. }
  pose proof (Z.div_mod (size rs1 + size rs2) 2 ltac:(lia)). pose proof (Z.mod_pos_bound (size rs1 + size rs2) 2 ltac:(lia)). lia.
Qed.

Definition example_regions : list (list Entry) :=
  [[mkEntry [1; 1] [10] false false CompNone 100 0; mkEntry [1; 2] [11] false true CompNone 120 7];
   [mkEntry [1; 3; 1] [12; 13] true false CompDictionary 90 0; mkEntry [1; 4] [14] false false CompNone 91 0];
   [mkEntry [1; 5] [15; 16; 17] false false CompNone 92 0]].

Definition example_page (rs : list (list Entry)) : bytes :=
  resize 128 (write_at (data_header ++ blob enc_entry rs ++
    restart_array (region_offsets enc_entry HeaderSize rs) ++ EncodeFixed16 (zlen rs))
    page_size_offset (EncodeFixed16 (content_size enc_entry HeaderSize rs))).

Lemma redistribute_keeps_entries_witness :
  exists prev' cur' keep move,
    Redistribute example_options (example_page example_regions)
      (example_page [[mkEntry [1; 6] [18] false false CompNone 93 0]]) (replicate 128 0) =
      Some (prev', cur') /\
    page_format enc_entry HeaderSize keep prev' /\ example_regions = keep ++ move /\ move <> [].
Proof.
  destruct (redistribute_keeps_entries example_options example_regions
    [[mkEntry [1; 6] [18] false false CompNone 93 0]] (example_page example_regions)
    (example_page [[mkEntry [1; 6] [18] false false CompNone 93 0]]) (replicate 128 0))
    as (keep & move & prev' & cur' & HR & Hf & _ & _ & _ & Hrs & _ & Hge & Hmin & _).
  - split; [vm_compute; split; [discriminate|reflexivity]|discriminate].
  - exists (ztake 19 (example_page example_regions)), 
      (zdrop (content_size enc_entry HeaderSize example_regions) (example_page example_regions)).
    repeat split; vm_compute; try reflexivity; discriminate.
  - exists (ztake 19 (example_page [[mkEntry [1; 6] [18] false false CompNone 93 0]])),
      (zdrop (content_size enc_entry HeaderSize [[mkEntry [1; 6] [18] false false CompNone 93 0]]) (example_page [[mkEntry [1; 6] [18] false false CompNone 93 0]])).
    repeat split; vm_compute; try reflexivity; discriminate.
  - reflexivity.
  - reflexivity.
  - reflexivity.
  - vm_compute. reflexivity.
  - discriminate.
  - exists prev', cur', keep, move. split; [exact HR|]. split; [exact Hf|]. split; [exact Hrs|].
    intros ->. rewrite app_nil_r in Hrs. subst keep.
    specialize (Hmin (take 2 example_regions) [mkEntry [1; 5] [15; 16; 17] false false CompNone 92 0] eq_refl).
    vm_compute in Hmin. discriminate Hmin.
Defined.
