(* ===== verification/IndexPage.v ===== *)
(** * Building index pages (src/storage/index_page_builder.cpp)

    An index page holds the pointer to its leftmost child in the header and a
    blob of separator keys with child pointers behind it, in the region format.
    The builder is shown to produce pages of that format. *)

From S2P Require Import Prelude Coding Comparator PageFormat RegionCopy DataPage.

Record IndexEntry := mkIndexEntry {
  i_key : bytes;
  i_page_id : Z
}.

Record IndexPageBuilder := mkIndexBuilder {
  ib_buffer : bytes;
  ib_restarts : list Z;
  ib_counter : Z;
  ib_cnt : Z;
  ib_finished : bool;
  ib_last_key : bytes;
  ib_last_page_id : Z
}.

Definition leftmost_ptr_offset : Z := page_size_offset + 2.

Definition TypeOfPage (p : bytes) : option Z := p !! Z.to_nat page_type_offset.

Definition IndexReset : IndexPageBuilder :=
  let buffer := replicate (Z.to_nat IndexHeaderSize) 0 in
  mkIndexBuilder buffer [zlen buffer] 0 0 false [] 0.

Definition TailMetaSize (b : IndexPageBuilder) : Z := u16 (zlen (ib_restarts b) * 2 + 2).

Definition IndexSizeEstimate (b : IndexPageBuilder) : Z := zlen (ib_buffer b) + TailMetaSize b.

Definition IndexIsEmpty (b : IndexPageBuilder) : bool := ib_cnt b =? 0.

Definition index_page_type (is_leaf_index : bool) : PageType :=
  if is_leaf_index then LeafIndex else NonLeafIndex.

(** [Add]; [None] is the exception for a pointer of the other kind. *)
Definition IndexAdd (opts : KvOptions) (b : IndexPageBuilder) (key : bytes) (page_id : Z)
    (is_leaf_index : bool) : option (bool * IndexPageBuilder) :=
  if IndexIsEmpty b then
    let buffer := SetPageType (ib_buffer b) (index_page_type is_leaf_index) in
    let buffer := write_at buffer leftmost_ptr_offset (EncodeFixed32 page_id) in
    Some (true, mkIndexBuilder buffer (ib_restarts b) (ib_counter b) (u16 (ib_cnt b + 1))
                  (ib_finished b) (ib_last_key b) (ib_last_page_id b))
  else if negb (bool_decide (TypeOfPage (ib_buffer b) =
                             Some (PageType_code (index_page_type is_leaf_index)))) then None
  else
    let restart := index_page_restart_interval opts <=? ib_counter b in
    let shared := if restart then 0 else Z.of_nat (common_prefix (ib_last_key b) key) in
    let last_page_id := if restart then 0 else ib_last_page_id b in
    let non_shared := zlen key - shared in
    let p_delta := EncodeInt32Delta (i32 (i32 page_id - last_page_id)) in
    let addition_delta :=
      (if restart then 2 else 0) + Varint32Size (u32 shared) + Varint32Size (u32 non_shared) +
      non_shared + Varint32Size p_delta in
    if data_page_size opts <? IndexSizeEstimate b + addition_delta then
      Some (false, mkIndexBuilder (ib_buffer b) (ib_restarts b) (ib_counter b) (ib_cnt b)
                     (ib_finished b) (ib_last_key b) last_page_id)
    else
      let restarts := if restart then ib_restarts b ++ [u16 (zlen (ib_buffer b))] else ib_restarts b in
      let counter := if restart then 0 else ib_counter b in
      let buffer := PutVarint32 (ib_buffer b) (u32 shared) in
      let buffer := PutVarint32 buffer (u32 non_shared) in
      let buffer := buffer ++ ztake non_shared (zdrop shared key) in
      let buffer := PutVarint32 buffer p_delta in
      let last_key := ztake shared (ib_last_key b) ++ ztake non_shared (zdrop shared key) in
      Some (true, mkIndexBuilder buffer restarts (u16 (counter + 1)) (u16 (ib_cnt b + 1))
                    (ib_finished b) last_key (i32 page_id)).

Definition IndexFinish (opts : KvOptions) (b : IndexPageBuilder) : bytes * IndexPageBuilder :=
  let restarts := if ib_cnt b =? 1 then [] else ib_restarts b in
  let buffer := fold_left PutFixed16 restarts (ib_buffer b) in
  let buffer := PutFixed16 buffer (zlen restarts) in
  let content_size := u16 (zlen buffer) in
  let buffer := write_at buffer page_size_offset (EncodeFixed16 content_size) in
  let buffer := resize (data_page_size opts) buffer in
  (buffer, mkIndexBuilder buffer restarts (ib_counter b) (ib_cnt b) true (ib_last_key b)
             (ib_last_page_id b)).

(** ** The reference encoder *)
Definition iprev_key (prev : option IndexEntry) : bytes :=
  match prev with Some p => i_key p | None => [] end.

Definition iprev_id (prev : option IndexEntry) : Z :=
  match prev with Some p => i_page_id p | None => 0 end.

Definition ishared (prev : option IndexEntry) (key : bytes) : Z :=
  Z.of_nat (common_prefix (iprev_key prev) key).

Definition enc_index (prev : option IndexEntry) (e : IndexEntry) : bytes :=
  let shared := ishared prev (i_key e) in
  EncodeVarint32 shared ++ EncodeVarint32 (zlen (i_key e) - shared) ++
  zdrop shared (i_key e) ++ EncodeVarint32 (EncodeInt32Delta (i_page_id e - iprev_id prev)).

(** Page ids fit a signed 32-bit integer; the source asserts it. *)
Record wf_index (e : IndexEntry) : Prop := {
  wfi_size : zlen (i_key e) < 65536;
  wfi_id : 0 <= i_page_id e < 2 ^ 31
}.

Lemma ishared_range prev k :
  0 <= ishared prev k <= zlen k /\ ishared prev k <= zlen (iprev_key prev).
Proof. unfold ishared, zlen. pose proof (common_prefix_le (iprev_key prev) k). lia. Qed.

Lemma ishared_key prev k :
  ztake (ishared prev k) (iprev_key prev) ++ zdrop (ishared prev k) k = k.
Proof. unfold ishared, ztake, zdrop. rewrite Nat2Z.id, common_prefix_take. apply take_drop. Qed.

Lemma enc_index_size prev e :
  zlen (enc_index prev e) =
  Varint32Size (ishared prev (i_key e)) + Varint32Size (zlen (i_key e) - ishared prev (i_key e)) +
  (zlen (i_key e) - ishared prev (i_key e)) +
  Varint32Size (EncodeInt32Delta (i_page_id e - iprev_id prev)).
Proof.
  pose proof (ishared_range prev (i_key e)). unfold enc_index.
  rewrite !zlen_app, zlen_zdrop, <- !Varint32Size_length by lia. lia.
Qed.

Lemma enc_index_pos prev e : 1 <= zlen (enc_index prev e).
Proof.
  rewrite enc_index_size. pose proof (ishared_range prev (i_key e)).
  pose proof (Varint32Size_range (ishared prev (i_key e))).
  pose proof (Varint32Size_range (zlen (i_key e) - ishared prev (i_key e))).
  pose proof (Varint32Size_range (EncodeInt32Delta (i_page_id e - iprev_id prev))). lia.
Qed.

(** ** The builder invariant *)
Definition index_header (is_leaf : bool) (leftmost : Z) : bytes :=
  write_at (SetPageType (replicate (Z.to_nat IndexHeaderSize) 0) (index_page_type is_leaf))
    leftmost_ptr_offset (EncodeFixed32 leftmost).

Definition valid_index_options (opts : KvOptions) : Prop :=
  IndexHeaderSize + 4 <= data_page_size opts < 65536 /\
  1 <= index_page_restart_interval opts < 65536.

(** Once the leftmost pointer is set: the regions are [init ++ [lastr]].  The last
    page id matters only while the current region is not full. *)
Record index_inv (opts : KvOptions) (leaf : bool) (leftmost : Z)
    (init : list (list IndexEntry)) (lastr : list IndexEntry) (b : IndexPageBuilder) : Prop := {
  ii_buffer : ib_buffer b = index_header leaf leftmost ++ blob enc_index (init ++ [lastr]);
  ii_restarts : ib_restarts b = region_offsets enc_index IndexHeaderSize (init ++ [lastr]);
  ii_counter : ib_counter b = zlen lastr;
  ii_cnt : ib_cnt b = 1 + zlen (concat (init ++ [lastr]));
  ii_last_key : ib_last_key b = iprev_key (last_from None lastr);
  ii_last_id : zlen lastr < index_page_restart_interval opts ->
               ib_last_page_id b = iprev_id (last_from None lastr);
  ii_last_len : zlen (ib_last_key b) <= zlen (ib_buffer b);
  ii_size : zlen (ib_buffer b) + zlen (ib_restarts b) * 2 + 2 <= data_page_size opts;
  ii_wf : Forall (Forall wf_index) (init ++ [lastr]);
  ii_full : Forall (fun r => zlen r = index_page_restart_interval opts) init;
  ii_last_max : zlen lastr <= index_page_restart_interval opts
}.

Definition push_index (interval : Z) (init : list (list IndexEntry)) (lastr : list IndexEntry)
    (e : IndexEntry) : list (list IndexEntry) * list IndexEntry :=
  if interval <=? zlen lastr then (init ++ [lastr], [e]) else (init, lastr ++ [e]).

Lemma index_header_length leaf p : zlen (index_header leaf p) = IndexHeaderSize.
Proof. destruct leaf; reflexivity. Qed.

(** The first pointer goes to the header. *)
Lemma IndexAdd_first opts key page_id leaf :
  valid_index_options opts ->
  exists b, IndexAdd opts IndexReset key page_id leaf = Some (true, b) /\
    index_inv opts leaf page_id [] [] b.
Proof.
  intros [Hs Hi]. eexists. split; [reflexivity|].
  constructor; try reflexivity; try discriminate; try (cbn; lia).
  - change (zlen _ + _ + 2) with (IndexHeaderSize + 4). lia.
  - repeat constructor.
  - constructor.
  - rewrite (@zlen_nil IndexEntry). lia.
Qed.

(** The entries take at least one byte each, so the counter cannot wrap. *)
Lemma entries_le_blob rs : zlen (concat rs) <= zlen (blob enc_index rs).
Proof.
  assert (Hr : forall prev es, zlen es <= zlen (enc_entries enc_index prev es)).
  { intros prev es. revert prev. induction es as [|e es IH]; intros prev; [reflexivity|].
    cbn [enc_entries]. rewrite zlen_cons, zlen_app. pose proof (enc_index_pos prev e).
    specialize (IH (Some e)). lia. }
  induction rs as [|r rs IH]; [reflexivity|]. rewrite blob_cons. simpl.
  rewrite !zlen_app. specialize (Hr None r). unfold enc_region. lia.
Qed.

Lemma push_index_concat n init lastr e :
  let '(init', lastr') := push_index n init lastr e in
  concat (init' ++ [lastr']) = concat (init ++ [lastr]) ++ [e].
Proof.
  unfold push_index. case_if; rewrite !concat_app; simpl; rewrite ?app_nil_r, ?app_assoc; reflexivity.
Qed.

Lemma index_size_estimate opts leaf lm init lastr b :
  index_inv opts leaf lm init lastr b -> data_page_size opts < 65536 ->
  IndexSizeEstimate b = zlen (ib_buffer b) + zlen (ib_restarts b) * 2 + 2.
Proof.
  intros Hinv Hs. unfold IndexSizeEstimate, TailMetaSize.
  pose proof (ii_size _ _ _ _ _ _ Hinv). rewrite u16_id by (unfold is_u16; zlia). lia.
Qed.

(** The state after an accepted entry. *)
Lemma push_index_inv opts leaf lm init lastr b e :
  valid_index_options opts -> index_inv opts leaf lm init lastr b -> wf_index e ->
  let restart := index_page_restart_interval opts <=? ib_counter b in
  let prev := if restart then None else last_from None lastr in
  zlen (ib_buffer b) + zlen (ib_restarts b) * 2 + 2 +
    ((if restart then 2 else 0) + zlen (enc_index prev e)) <= data_page_size opts ->
  let '(init', lastr') := push_index (index_page_restart_interval opts) init lastr e in
  index_inv opts leaf lm init' lastr'
    (mkIndexBuilder (ib_buffer b ++ enc_index prev e)
       (if restart then ib_restarts b ++ [u16 (zlen (ib_buffer b))] else ib_restarts b)
       (u16 ((if restart then 0 else ib_counter b) + 1)) (u16 (ib_cnt b + 1)) (ib_finished b)
       (i_key e) (i_page_id e)).
Proof.
  intros [Hps Hri] Hinv Hwf restart prev Hfit.
  pose proof (push_index_concat (index_page_restart_interval opts) init lastr e) as Hcat.
  destruct Hinv as [Hbuf Hres Hcnt Hn Hlk Hlid Hll Hsz Hwfs Hfull Hmax].
  assert (Hr : restart = (index_page_restart_interval opts <=? zlen lastr))
    by (unfold restart; rewrite Hcnt; reflexivity).
  unfold push_index in *. rewrite <- Hr in Hcat |- *.
  assert (Hpk : zlen (iprev_key prev) <= zlen (ib_buffer b)).
  { unfold prev. destruct restart; [apply zlen_nonneg|]. rewrite <- Hlk. exact Hll. }
  assert (Hkey : zlen (i_key e) <= zlen (ib_buffer b ++ enc_index prev e)).
  { pose proof (ishared_range prev (i_key e)). unfold enc_index.
    rewrite !zlen_app, zlen_zdrop by lia. zlia. }
  assert (Hlen : zlen (ib_buffer b) = IndexHeaderSize + zlen (blob enc_index (init ++ [lastr])))
    by (rewrite Hbuf, zlen_app, index_header_length; reflexivity).
  assert (Hcount : u16 (ib_cnt b + 1) = 1 + zlen (concat (init ++ [lastr]) ++ [e])).
  { rewrite zlen_app, zlen_cons, (@zlen_nil IndexEntry), Hn.
    pose proof (entries_le_blob (init ++ [lastr])). change IndexHeaderSize with 15 in *.
    rewrite u16_id by (unfold is_u16; zlia). lia. }
  assert (Hwf2 : Forall (Forall wf_index) (init ++ [lastr ++ [e]])).
  { apply Forall_app in Hwfs as [Hi Hl]. apply Forall_cons_1 in Hl as [Hl _].
    apply Forall_app_2; [exact Hi|]. repeat constructor; try apply Hwf. apply Forall_app_2; auto. }
  destruct restart; constructor; cbn [ib_buffer ib_restarts ib_counter ib_cnt ib_last_key ib_last_page_id]; auto;
    try (rewrite Hcat; exact Hcount).
  - rewrite Hbuf, (blob_snoc _ (init ++ [lastr])), app_assoc. unfold enc_region. simpl.
    rewrite app_nil_r. reflexivity.
  - rewrite (region_offsets_snoc _ _ (init ++ [lastr])), Hres, u16_id, Hlen; [reflexivity|].
    unfold is_u16. zlia.
  - rewrite !zlen_app, zlen_cons, (@zlen_nil Z). lia.
  - apply Forall_app_2; auto.
  - apply Forall_app_2; [exact Hfull|]. repeat constructor. symmetry in Hr. lia.
  - rewrite zlen_cons, (@zlen_nil IndexEntry). lia.
  - rewrite Hbuf, !blob_snoc, enc_region_snoc, !app_assoc. reflexivity.
  - rewrite Hres, !region_offsets_snoc. reflexivity.
  - rewrite Hcnt, zlen_app, u16_id; [reflexivity|]. symmetry in Hr. unfold is_u16. zlia.
  - rewrite last_from_snoc. reflexivity.
  - rewrite last_from_snoc. reflexivity.
  - rewrite zlen_app. lia.
  - rewrite zlen_app, zlen_cons, (@zlen_nil IndexEntry). symmetry in Hr. lia.
Qed.

Lemma index_type leaf lm rest : TypeOfPage (index_header leaf lm ++ rest) = Some (PageType_code (index_page_type leaf)).
Proof. destruct leaf; reflexivity. Qed.

(** The bytes [Add] appends are the reference encoding. *)
Lemma IndexAdd_bytes prev e buf :
  wf_index e ->
  let shared := ishared prev (i_key e) in
  PutVarint32 (PutVarint32 (PutVarint32 buf (u32 shared)) (u32 (zlen (i_key e) - shared)) ++
      ztake (zlen (i_key e) - shared) (zdrop shared (i_key e)))
    (EncodeInt32Delta (i_page_id e - iprev_id prev)) = buf ++ enc_index prev e.
Proof.
  intros Hwf. cbv zeta. pose proof (wfi_size _ Hwf). pose proof (ishared_range prev (i_key e)).
  rewrite !u32_id by (unfold is_u32; zlia). rewrite <- zlen_zdrop, ztake_all by lia.
  rewrite zlen_zdrop by lia. unfold PutVarint32, enc_index. rewrite <- !app_assoc. reflexivity.
Qed.

Lemma IndexAdd_last_key (restart : bool) prev key :
  let shared := ishared (if restart then None else prev) key in
  ztake shared (iprev_key prev) ++ ztake (zlen key - shared) (zdrop shared key) = key.
Proof.
  cbv zeta. pose proof (ishared_range (if restart then None else prev) key).
  rewrite <- zlen_zdrop, ztake_all by lia.
  destruct restart; [reflexivity|apply ishared_key].
Qed.

Lemma iprev_id_range opts leaf lm init lastr b (restart : bool) :
  index_inv opts leaf lm init lastr b ->
  0 <= iprev_id (if restart then None else last_from None lastr) < 2 ^ 31.
Proof.
  intros Hinv. destruct restart; [simpl; lia|].
  destruct lastr as [|e lastr _] using rev_ind; [simpl; lia|].
  rewrite last_from_snoc. pose proof (ii_wf _ _ _ _ _ _ Hinv) as Hw.
  apply Forall_app in Hw as [_ [Hw _]%Forall_cons_1].
  apply Forall_app in Hw as [_ [Hw _]%Forall_cons_1]. exact (wfi_id _ Hw).
Qed.

(** Rejecting an entry may only touch the last page id of a full region. *)
Lemma index_inv_last_id opts leaf lm init lastr b id :
  index_inv opts leaf lm init lastr b ->
  (zlen lastr < index_page_restart_interval opts -> id = iprev_id (last_from None lastr)) ->
  index_inv opts leaf lm init lastr
    (mkIndexBuilder (ib_buffer b) (ib_restarts b) (ib_counter b) (ib_cnt b) (ib_finished b)
       (ib_last_key b) id).
Proof. intros [] Hid. constructor; auto. Qed.

Lemma IndexAdd_fits_wf opts leaf lm init lastr b prev key page_id (restart : bool) :
  valid_index_options opts -> index_inv opts leaf lm init lastr b -> 0 <= page_id < 2 ^ 31 ->
  zlen (iprev_key prev) <= zlen (ib_last_key b) ->
  zlen (ib_buffer b) + zlen (ib_restarts b) * 2 + 2 +
    ((if restart then 2 else 0) + Varint32Size (u32 (ishared prev key)) +
     Varint32Size (u32 (zlen key - ishared prev key)) + (zlen key - ishared prev key) +
     Varint32Size (EncodeInt32Delta (page_id - iprev_id prev))) <= data_page_size opts ->
  wf_index (mkIndexEntry key page_id).
Proof.
  intros [Hps _] Hinv Hid Hpk Hfit. constructor; [|exact Hid]. simpl.
  pose proof (ii_last_len _ _ _ _ _ _ Hinv). pose proof (ishared_range prev key).
  pose proof (Varint32Size_range (u32 (ishared prev key))).
  pose proof (Varint32Size_range (u32 (zlen key - ishared prev key))).
  pose proof (Varint32Size_range (EncodeInt32Delta (page_id - iprev_id prev))).
  pose proof (zlen_nonneg (ib_restarts b)). destruct restart; lia.
Qed.

(** A call of [Add] on a builder with its leftmost pointer. *)
Lemma IndexAdd_inv opts leaf lm init lastr b key page_id :
  valid_index_options opts -> index_inv opts leaf lm init lastr b -> 0 <= page_id < 2 ^ 31 ->
  let e := mkIndexEntry key page_id in
  exists ok b', IndexAdd opts b key page_id leaf = Some (ok, b') /\
    if ok : bool then
      wf_index e /\
      let '(init', lastr') := push_index (index_page_restart_interval opts) init lastr e in
      index_inv opts leaf lm init' lastr' b'
    else index_inv opts leaf lm init lastr b'.
Proof.
  intros Hopt Hinv Hid e. pose proof Hopt as [Hps Hri].
  unfold IndexAdd, IndexIsEmpty. pose proof (ii_cnt _ _ _ _ _ _ Hinv) as Hcnt.
  destruct (Z.eqb_spec (ib_cnt b) 0); [zlia|].
  assert (Hty : TypeOfPage (ib_buffer b) = Some (PageType_code (index_page_type leaf)))
    by (rewrite (ii_buffer _ _ _ _ _ _ Hinv); apply index_type).
  rewrite bool_decide_true by exact Hty. cbn [negb].
  set (restart := index_page_restart_interval opts <=? ib_counter b).
  set (prev := if restart then None else last_from None lastr).
  assert (Hsh : (if restart then 0 else Z.of_nat (common_prefix (ib_last_key b) key)) = ishared prev key).
  { unfold prev. rewrite (ii_last_key _ _ _ _ _ _ Hinv). destruct restart; reflexivity. }
  assert (Hpid : (if restart then 0 else ib_last_page_id b) = iprev_id prev).
  { unfold prev. destruct restart eqn:Hr; [reflexivity|]. apply (ii_last_id _ _ _ _ _ _ Hinv).
    unfold restart in Hr. rewrite (ii_counter _ _ _ _ _ _ Hinv) in Hr. lia. }
  pose proof (iprev_id_range opts leaf lm init lastr b restart Hinv) as Hpr. fold prev in Hpr.
  rewrite Hsh, Hpid, (index_size_estimate _ _ _ _ _ _ Hinv) by lia.
  rewrite (i32_id page_id), (i32_id (page_id - iprev_id prev)) by width.
  destruct (Z.ltb_spec (data_page_size opts) (zlen (ib_buffer b) + zlen (ib_restarts b) * 2 + 2 +
    ((if restart then 2 else 0) + Varint32Size (u32 (ishared prev key)) +
     Varint32Size (u32 (zlen key - ishared prev key)) + (zlen key - ishared prev key) +
     Varint32Size (EncodeInt32Delta (page_id - iprev_id prev))))) as [Hbig|Hfit].
  - do 2 eexists. split; [reflexivity|]. cbv iota. apply index_inv_last_id; [exact Hinv|].
    intros Hlt. unfold prev, restart. rewrite (ii_counter _ _ _ _ _ _ Hinv).
    case_if; [lia|reflexivity].
  - assert (Hwf : wf_index e).
    { apply (IndexAdd_fits_wf opts leaf lm init lastr b prev key page_id restart); auto.
      unfold prev. rewrite (ii_last_key _ _ _ _ _ _ Hinv).
      destruct restart; [apply zlen_nonneg|reflexivity]. }
    do 2 eexists. split; [reflexivity|]. split; [exact Hwf|].
    pose proof (wfi_size _ Hwf). pose proof (ishared_range prev key). cbn [i_key e] in *.
    rewrite !(u32_id (ishared prev key)), !(u32_id (zlen key - _)) in Hfit by (unfold is_u32; zlia).
    pose proof (push_index_inv opts leaf lm init lastr b e Hopt Hinv Hwf) as Hpush. cbv zeta in Hpush.
    fold restart prev in Hpush. rewrite enc_index_size in Hpush. cbn [i_key i_page_id e] in Hpush.
    specialize (Hpush ltac:(lia)).
    destruct (push_index _ init lastr _) as [init' lastr'].
    pose proof (IndexAdd_bytes prev e (ib_buffer b) Hwf) as Hbytes. cbv zeta in Hbytes.
    pose proof (IndexAdd_last_key restart (last_from None lastr) key) as Hlk. cbv zeta in Hlk.
    fold prev in Hlk. rewrite <- (ii_last_key _ _ _ _ _ _ Hinv) in Hlk.
    cbn [i_key i_page_id e] in Hbytes. rewrite Hbytes, Hlk. exact Hpush.
Qed.

(** ** Finishing a page *)

(** A page with only the leftmost pointer has no restart point. *)
Definition index_regions (init : list (list IndexEntry)) (lastr : list IndexEntry) : list (list IndexEntry) :=
  match concat (init ++ [lastr]) with [] => [] | _ => init ++ [lastr] end.

Lemma index_regions_concat init lastr :
  concat (index_regions init lastr) = concat (init ++ [lastr]).
Proof. unfold index_regions. destruct (concat (init ++ [lastr])) eqn:H; [reflexivity|exact H]. Qed.

Lemma concat_nil_blob rs : concat rs = [] -> blob enc_index rs = [].
Proof.
  induction rs as [|r rs IH]; [reflexivity|]. intros [-> Hrs]%app_eq_nil.
  rewrite blob_cons, (IH Hrs). reflexivity.
Qed.

(** What [Finish] writes, in terms of the regions. *)
Lemma index_finish_parts opts leaf lm init lastr b :
  IndexHeaderSize + 4 <= data_page_size opts < 65536 -> index_inv opts leaf lm init lastr b ->
  let rs := index_regions init lastr in
  (if ib_cnt b =? 1 then [] else ib_restarts b) = region_offsets enc_index IndexHeaderSize rs /\
  ib_buffer b = index_header leaf lm ++ blob enc_index rs /\
  content_size enc_index IndexHeaderSize rs <= data_page_size opts.
Proof.
  intros Hps Hinv rs. rewrite (ii_cnt _ _ _ _ _ _ Hinv). pose proof (ii_size _ _ _ _ _ _ Hinv) as Hs.
  rewrite (ii_buffer _ _ _ _ _ _ Hinv), (ii_restarts _ _ _ _ _ _ Hinv) in *.
  unfold zlen at 2 in Hs. rewrite region_offsets_length, zlen_app, index_header_length in Hs.
  unfold rs, index_regions. destruct (concat (init ++ [lastr])) as [|e es] eqn:Hc.
  - rewrite (concat_nil_blob _ Hc), (@zlen_nil IndexEntry). split; [reflexivity|].
    split; [reflexivity|]. change (content_size _ _ []) with (IndexHeaderSize + 2). lia.
  - rewrite zlen_cons. case_if; [zlia|]. split; [reflexivity|]. split; [reflexivity|].
    unfold content_size. unfold zlen at 2. lia.
Qed.

Lemma IndexFinish_format opts leaf lm init lastr b :
  valid_index_options opts -> index_inv opts leaf lm init lastr b -> is_u32 lm ->
  let '(page, _) := IndexFinish opts b in
  page_format enc_index IndexHeaderSize (index_regions init lastr) page /\
  zlen page = data_page_size opts /\ TypeOfPage page = Some (PageType_code (index_page_type leaf)) /\
  DecodeFixed32 (zdrop leftmost_ptr_offset page) = Some lm.
Proof.
  intros [Hps _] Hinv Hlm. unfold IndexFinish. rewrite fold_PutFixed16.
  set (rs := index_regions init lastr).
  pose proof (index_finish_parts opts leaf lm init lastr b Hps Hinv) as Hrs. fold rs in Hrs.
  destruct Hrs as (-> & -> & Hcs).
  assert (Hro : zlen (region_offsets enc_index IndexHeaderSize rs) = zlen rs)
    by (unfold zlen; rewrite region_offsets_length; reflexivity).
  unfold PutFixed16. rewrite Hro, <- !app_assoc.
  set (body := blob enc_index rs ++ restart_array (region_offsets enc_index IndexHeaderSize rs) ++
               EncodeFixed16 (zlen rs)).
  assert (Hlen : zlen (index_header leaf lm ++ body) = content_size enc_index IndexHeaderSize rs).
  { unfold body, content_size. rewrite !zlen_app, restart_array_length, Hro, index_header_length.
    change (zlen (EncodeFixed16 _)) with 2. lia. }
  assert (0 <= content_size enc_index IndexHeaderSize rs) by (rewrite <- Hlen; apply zlen_nonneg).
  rewrite Hlen, u16_id by (unfold is_u16; lia).
  destruct (finish_page (index_header leaf lm) body (content_size enc_index IndexHeaderSize rs)
    (data_page_size opts)) as (hdr & pad & -> & Hh & Hd & Hl & Hlm' & Hty).
  { rewrite index_header_length. discriminate. }
  { unfold is_u16. lia. }
  { rewrite Hlen. lia. }
  rewrite index_header_length in Hh.
  split; [exists hdr, pad|split; [exact Hl|split]].
  - unfold format_page, body. rewrite <- !app_assoc. split; [reflexivity|]. split; [exact Hh|].
    split; [discriminate|]. split; [exact Hd|change (2 ^ 16) with 65536; lia].
  - unfold TypeOfPage. rewrite Hty by (vm_compute; auto).
    rewrite <- (index_type leaf lm []), app_nil_r. reflexivity.
  - change leftmost_ptr_offset with (page_size_offset + 2).
    rewrite zdrop_app_le by (rewrite Hh; split; discriminate). rewrite Hlm'.
    destruct leaf; exact (fixed32_app lm _ Hlm).
Qed.

(** ** Building a page from a list of pointers *)
Fixpoint index_add_all (opts : KvOptions) (leaf : bool) (b : IndexPageBuilder) (l : list IndexEntry)
    : option IndexPageBuilder :=
  match l with
  | [] => Some b
  | e :: l' =>
      match IndexAdd opts b (i_key e) (i_page_id e) leaf with
      | Some (true, b') => index_add_all opts leaf b' l'
      | _ => None
      end
  end.

(** The page for a leftmost pointer and the separators behind it. *)
Definition build_index (opts : KvOptions) (leaf : bool) (leftmost : Z) (l : list IndexEntry) : option bytes :=
  match IndexAdd opts IndexReset [] leftmost leaf with
  | Some (true, b) => b ← index_add_all opts leaf b l; Some (fst (IndexFinish opts b))
  | _ => None
  end.

Lemma push_index_last n init lastr e : snd (push_index n init lastr e) <> [].
Proof. unfold push_index. case_if; simpl; [discriminate|]. destruct lastr; discriminate. Qed.

Lemma index_add_all_inv opts leaf lm l init lastr b b' :
  valid_index_options opts -> index_inv opts leaf lm init lastr b ->
  Forall (fun e => 0 <= i_page_id e < 2 ^ 31) l ->
  index_add_all opts leaf b l = Some b' ->
  exists init' lastr', index_inv opts leaf lm init' lastr' b' /\
    concat (init' ++ [lastr']) = concat (init ++ [lastr]) ++ l /\
    (lastr <> [] \/ l <> [] -> lastr' <> []).
Proof.
  intros Hopt Hinv Hl. revert init lastr b Hinv.
  induction Hl as [|[key id] l Hid _ IH]; intros init lastr b Hinv Hb; simpl in Hb.
  - injection Hb as <-. exists init, lastr. rewrite app_nil_r. intuition auto.
  - destruct (IndexAdd_inv opts leaf lm init lastr b key id Hopt Hinv Hid) as (ok & b1 & HA & Hres).
    cbn [i_key i_page_id] in Hb. rewrite HA in Hb. destruct ok; [|discriminate Hb].
    destruct Hres as [_ Hres].
    pose proof (push_index_concat (index_page_restart_interval opts) init lastr (mkIndexEntry key id)) as Hc.
    pose proof (push_index_last (index_page_restart_interval opts) init lastr (mkIndexEntry key id)) as Hn.
    destruct (push_index _ init lastr _) as [i1 l1]. simpl in Hn.
    destruct (IH i1 l1 b1 Hres Hb) as (i2 & l2 & Hinv2 & Hc2 & Hn2).
    exists i2, l2. rewrite Hc2, Hc, <- app_assoc. auto.
Qed.

Lemma build_index_regions opts leaf lm l page :
  valid_index_options opts -> is_u32 lm -> Forall (fun e => 0 <= i_page_id e < 2 ^ 31) l ->
  build_index opts leaf lm l = Some page ->
  exists rs, page_format enc_index IndexHeaderSize rs page /\ concat rs = l /\
    Forall (Forall wf_index) rs /\ Forall (fun r => r <> []) rs /\
    zlen page = data_page_size opts /\
    TypeOfPage page = Some (PageType_code (index_page_type leaf)) /\
    DecodeFixed32 (zdrop leftmost_ptr_offset page) = Some lm.
Proof.
  intros Hopt Hlm Hl Hb. unfold build_index in Hb.
  destruct (IndexAdd_first opts [] lm leaf Hopt) as (b0 & HA & Hinv). rewrite HA in Hb.
  destruct (index_add_all opts leaf b0 l) as [b|] eqn:Hall; [|discriminate Hb].
  assert (Hpg : fst (IndexFinish opts b) = page) by (cbn [mbind option_bind] in Hb; congruence).
  clear Hb. subst page.
  destruct (index_add_all_inv opts leaf lm l [] [] b0 b Hopt Hinv Hl Hall) as (init & lastr & Hi & Hc & Hn).
  pose proof (IndexFinish_format opts leaf lm init lastr b Hopt Hi Hlm) as HF.
  destruct (IndexFinish opts b) as [page b']. destruct HF as (Hf & Hz & Ht & Hd). cbn [fst].
  exists (index_regions init lastr). rewrite index_regions_concat. split; [exact Hf|].
  split; [exact Hc|]. pose proof (ii_wf _ _ _ _ _ _ Hi) as Hw.
  unfold index_regions. rewrite Hc. destruct l as [|e l]; [auto 10 using Forall_nil|].
  split; [exact Hw|]. split; [|auto]. apply Forall_app_2; [|auto].
  eapply Forall_impl; [|exact (ii_full _ _ _ _ _ _ Hi)].
  intros r Hr ->. cbv beta in Hr. rewrite (@zlen_nil IndexEntry) in Hr. destruct Hopt as [_ ?]. lia.
Qed.
