(* ===== verification/IndexPageIter.v ===== *)
(** * Reading index pages (src/storage/mem_cached_page.cpp, IndexPageIter)

    [IndexPageIter] walks the child pointers of an index page and seeks the
    child whose key range holds a search key.  For every page of the reference
    format it is shown to deliver the leftmost pointer and then every separator
    with its pointer, and [Seek] to stop at the floor of the search key from any
    position the iterator can be in. *)

From stdpp Require Import sorting.
From S2P Require Import Prelude Coding Comparator PageFormat Regions DataPage DataPageIter RegionCopy IndexPage.

Definition MaxPageId : Z := 2 ^ 32 - 1.

(** The moving part of [IndexPageIter]; [ic_entry] holds [key_] and [page_id_]. *)
Record IndexCursor := mkIndexCursor {
  ic_offset : Z;
  ic_restart_idx : Z;
  ic_entry : IndexEntry
}.

Definition no_pointer : IndexEntry := mkIndexEntry [] MaxPageId.

Definition fresh_index_cursor : IndexCursor := mkIndexCursor leftmost_ptr_offset 0 no_pointer.

Definition IndexInvalidate (v : PageView) : IndexCursor :=
  mkIndexCursor (restart_offset_ v) (restart_num_ v) no_pointer.

Definition IndexHasNext (v : PageView) (c : IndexCursor) : bool :=
  ic_offset c <? restart_offset_ v.

(** [DecodeEntry]: the two lengths and what follows them. *)
Definition IndexDecodeEntry (p : bytes) : option (Z * Z * bytes) :=
  match p with
  | shared :: non_shared :: p2 =>
      if Z.lor shared non_shared <? 128 then Some (shared, non_shared, p2)
      else
        '(shared, p) ← GetVarint32Ptr p;
        '(non_shared, p) ← GetVarint32Ptr p;
        Some (shared, non_shared, p)
  | _ => None
  end.

(** [ParseNextKey].  [None] is a read outside the entries of the page. *)
Definition IndexParseNextKey (v : PageView) (c : IndexCursor) : option (bool * IndexCursor) :=
  if restart_offset_ v <=? ic_offset c then Some (false, IndexInvalidate v)
  else if ic_offset c <? leftmost_ptr_offset + 4 then
    leftmost ← DecodeFixed32 (zdrop leftmost_ptr_offset (page_ v));
    Some (true, mkIndexCursor (leftmost_ptr_offset + 4) 0 (mkIndexEntry [] leftmost))
  else
    restart ← RestartOffset v (ic_restart_idx c);
    let is_restart_pointer := ic_offset c =? restart in
    pt ← window v (ic_offset c);
    match IndexDecodeEntry pt with
    | None => Some (false, IndexInvalidate v)
    | Some (shared, non_shared, pt) =>
        let key_ := i_key (ic_entry c) in
        if zlen key_ <? shared then Some (false, IndexInvalidate v)
        else if zlen pt <? non_shared then None
        else
          let key := ztake shared key_ ++ ztake non_shared pt in
          match GetVarint32Ptr (zdrop non_shared pt) with
          | None => Some (false, IndexInvalidate v)
          | Some (ptr_val, pt) =>
              let delta := DecodeInt32Delta ptr_val in
              let page_id := if is_restart_pointer then u32 delta
                             else u32 (i32 (i_page_id (ic_entry c)) + delta) in
              let off := restart_offset_ v - zlen pt in
              idx ← advance_idx v (ic_restart_idx c) off;
              Some (true, mkIndexCursor off idx (mkIndexEntry key page_id))
          end
    end.

Definition IndexNext (v : PageView) (c : IndexCursor) : option (bool * IndexCursor) :=
  IndexParseNextKey v c.

(** [PeekNextKey]: the key of the next entry, empty at the end. *)
Definition PeekNextKey (v : PageView) (c : IndexCursor) : option bytes :=
  if restart_offset_ v <=? ic_offset c then Some []
  else
    pt ← window v (ic_offset c);
    match IndexDecodeEntry pt with
    | None => Some []
    | Some (shared, non_shared, pt) =>
        let key_ := i_key (ic_entry c) in
        if zlen key_ <? shared then Some []
        else if zlen pt <? non_shared then None
        else Some (ztake shared key_ ++ ztake non_shared pt)
    end.

Definition IndexSeekToRestart (v : PageView) (restart_idx : Z) : option IndexCursor :=
  off ← RestartOffset v restart_idx;
  Some (mkIndexCursor off restart_idx no_pointer).

(** The binary search for the floor restart point; the inner [None] is the
    [Invalidate] of a malformed region.  The count shrinks in every iteration,
    so the initial count is enough fuel. *)
Fixpoint floor_restart (fuel : nat) (v : PageView) (search_key : bytes)
    (right cnt : Z) : option (option Z) :=
  if cnt <=? 0 then Some (Some right)
  else
    match fuel with
    | O => None
    | S fuel' =>
        let step := Z.shiftr cnt 1 in
        let mid := right - step in
        region_offset ← RestartOffset v (u16 mid);
        pt ← window v region_offset;
        match IndexDecodeEntry pt with
        | None => Some None
        | Some (shared, non_shared, key_ptr) =>
            if negb (shared =? 0) then Some None
            else if zlen key_ptr <? non_shared then None
            else if 0 <? Compare (ztake non_shared key_ptr) search_key then
              floor_restart fuel' v search_key (mid - 1) (cnt - (step + 1))
            else floor_restart fuel' v search_key right step
        end
    end.

(** The linear search of [Seek]; [prev] holds [prev_offset], [prev_key] and
    [prev_page_id].  The result is the final cursor. *)
Fixpoint floor_entry (fuel : nat) (v : PageView) (limit : Z) (search_key : bytes)
    (c : IndexCursor) (prev : Z * IndexEntry) : option IndexCursor :=
  let restored c := mkIndexCursor (fst prev) (ic_restart_idx c) (snd prev) in
  if ic_offset c <? limit then
    match fuel with
    | O => None
    | S fuel' =>
        '(more, c') ← IndexParseNextKey v c;
        if negb more then Some (IndexInvalidate v)
        else
          let cmp_ret := Compare (i_key (ic_entry c')) search_key in
          if 0 <? cmp_ret then Some (restored c')
          else if cmp_ret =? 0 then Some c'
          else floor_entry fuel' v limit search_key c' (ic_offset c', ic_entry c')
    end
  else Some (restored c).

(** The bounds of the binary search, narrowed by the current position. *)
Definition seek_bounds (v : PageView) (c : IndexCursor) (search_key : bytes) : option (Z * Z) :=
  let left := 0 in
  let right := restart_num_ v - 1 in
  match i_key (ic_entry c) with
  | [] => Some (left, right)
  | _ =>
      let cmp_ret := Compare (i_key (ic_entry c)) search_key in
      if cmp_ret <? 0 then Some (ic_restart_idx c, right)
      else if 0 <? cmp_ret then Some (left, ic_restart_idx c)
      else None
  end.

Definition IndexSeek (v : PageView) (c : IndexCursor) (search_key : bytes) : option IndexCursor :=
  match seek_bounds v c search_key with
  | None => Some c
  | Some (lo, hi) =>
      let cnt := hi - lo + 1 in
      found ← floor_restart (Z.to_nat cnt) v search_key hi cnt;
      match found with
      | None => Some (IndexInvalidate v)
      | Some point =>
          if point <? 0 then
            '(_, c) ← IndexParseNextKey v (mkIndexCursor leftmost_ptr_offset 0 (ic_entry c));
            Some c
          else
            c ← IndexSeekToRestart v (u16 point);
            '(more, c) ← IndexParseNextKey v c;
            if negb more then Some (IndexInvalidate v)
            else if Compare (i_key (ic_entry c)) search_key =? 0 then Some c
            else
              limit ← region_limit v (point + 1);
              floor_entry (length (page_ v)) v limit search_key c (ic_offset c, ic_entry c)
      end
  end.

(** Every pointer from the cursor on, as a caller collects them with [Next]. *)
Fixpoint collect_index (fuel : nat) (v : PageView) (c : IndexCursor) : option (list IndexEntry) :=
  match fuel with
  | O => None
  | S fuel' =>
      '(more, c') ← IndexNext v c;
      if more : bool then rest ← collect_index fuel' v c'; Some (ic_entry c' :: rest) else Some []
  end.

(** A history of calls on one iterator. *)
Inductive IndexOp := OpNext | OpSeek (search_key : bytes).

Fixpoint run_index_ops (v : PageView) (ops : list IndexOp) (c : IndexCursor) : option IndexCursor :=
  match ops with
  | [] => Some c
  | OpNext :: ops => '(_, c) ← IndexNext v c; run_index_ops v ops c
  | OpSeek key :: ops => c ← IndexSeek v c key; run_index_ops v ops c
  end.

Lemma collect_index_S fuel v c :
  collect_index (S fuel) v c =
  '(more, c') ← IndexNext v c;
  if more : bool then rest ← collect_index fuel v c'; Some (ic_entry c' :: rest) else Some [].
Proof. reflexivity. Qed.

(** ** Decoding one entry *)

(** The two varints at the front of an entry, whichever path reads them. *)
Lemma IndexDecodeEntry_pair s n rest :
  is_u32 s -> is_u32 n ->
  IndexDecodeEntry (EncodeVarint32 s ++ EncodeVarint32 n ++ rest) = Some (s, n, rest).
Proof.
  intros Hs Hn.
  destruct (EncodeVarint32_head s Hs) as (x & ls & Es & Hx & Hls & Hx128 & Hxs).
  destruct (EncodeVarint32_head n Hn) as (y & ln & En & Hy & Hln & Hy128 & Hyn).
  assert (Hslow : ('(s', p) ← GetVarint32Ptr (EncodeVarint32 s ++ EncodeVarint32 n ++ rest);
    '(n', p) ← GetVarint32Ptr p; Some (s', n', p)) = Some (s, n, rest)).
  { rewrite varint32_app by exact Hs. cbn [mbind option_bind]. rewrite varint32_app by exact Hn.
    reflexivity. }
  rewrite Es, En in *. cbn [app] in *. destruct ls as [|b1 ls]; cbn [app IndexDecodeEntry] in *.
  - destruct (lor_byte_high x y Hx Hy) as [_ ->].
    destruct (Z.ltb_spec x 128), (Z.ltb_spec y 128); cbn [andb]; try exact Hslow.
    destruct Hxs as [-> _]; [lia|]. destruct Hyn as [-> ->]; [lia|]. reflexivity.
  - apply Forall_cons_1 in Hls as [Hb1 _]. destruct (lor_byte_high x b1 Hx Hb1) as [_ ->].
    destruct (Z.ltb_spec x 128); cbn [andb]; [|exact Hslow].
    destruct Hxs as [_ Hnil]; [lia|discriminate Hnil].
Qed.

Lemma IndexDecodeEntry_enc prev e rest :
  wf_index e ->
  let shared := ishared prev (i_key e) in
  IndexDecodeEntry (enc_index prev e ++ rest) =
  Some (shared, zlen (i_key e) - shared,
    zdrop shared (i_key e) ++
    EncodeVarint32 (EncodeInt32Delta (i_page_id e - iprev_id prev)) ++ rest).
Proof.
  intros [Hk _] shared. pose proof (ishared_range prev (i_key e)) as [Hs _]. fold shared in Hs.
  unfold enc_index. fold shared. rewrite <- !app_assoc.
  apply IndexDecodeEntry_pair; unfold is_u32; zlia.
Qed.

(** ** Walking a page of the reference format *)
Section index_walk.
  Context (rs : list (list IndexEntry)) (page : bytes) (leftmost : Z).
  Context (Hpage : page_format enc_index IndexHeaderSize rs page).
  Context (Hwf : Forall (Forall wf_index) rs) (Hne : Forall (fun r => r <> []) rs).
  Context (Hleft : DecodeFixed32 (zdrop leftmost_ptr_offset page) = Some leftmost).

  Local Abbreviation view := (format_view enc_index IndexHeaderSize rs page).
  Local Abbreviation zpos := (zpos enc_index IndexHeaderSize).
  Local Abbreviation zpos_snoc := (zpos_snoc enc_index IndexHeaderSize rs page Hpage Hne).
  Local Abbreviation view_window := (view_window enc_index IndexHeaderSize rs page Hpage).
  Local Abbreviation restart_here := (restart_here enc_index IndexHeaderSize rs page Hpage).
  Local Abbreviation zpos_app_lt := (zpos_app_lt enc_index enc_index_pos IndexHeaderSize).
  Local Abbreviation split_lookup := (split_lookup enc_index IndexHeaderSize rs page Hpage Hne).
  Local Abbreviation entries_fit_page := (entries_fit_page enc_index enc_index_pos IndexHeaderSize rs page Hpage).
  Local Abbreviation region_limit_spec := (region_limit_spec enc_index IndexHeaderSize rs page Hpage).
  Local Abbreviation at_restart_flag := (at_restart_flag enc_index enc_index_pos IndexHeaderSize rs page Hpage).
  Local Abbreviation at_next_idx := (at_next_idx enc_index enc_index_pos IndexHeaderSize rs page Hpage Hne).
  Local Abbreviation at_region := (at_region enc_index IndexHeaderSize rs).
  Local Abbreviation at_after := (at_after enc_index IndexHeaderSize rs).
  Local Abbreviation stands_region := (stands_region enc_index IndexHeaderSize rs page Hne).
  Local Abbreviation stands_after := (stands_after enc_index IndexHeaderSize rs page Hne).
  Local Abbreviation stands_lookup := (stands_lookup enc_index enc_index_pos IndexHeaderSize rs page Hpage Hne).
  Local Abbreviation stands_end := (stands_end enc_index IndexHeaderSize rs page Hpage Hne).
  Local Abbreviation stands_fresh := (stands_fresh enc_index IndexHeaderSize rs page Hpage Hne).

(** The cursor holds what the entry after [prev] is decoded against. *)
Definition idecodes_after (c : IndexCursor) (prev : option IndexEntry) : Prop :=
  i_key (ic_entry c) = iprev_key prev /\ i_page_id (ic_entry c) = iprev_id prev.

  Local Abbreviation at_pointer c :=
    (at_pos enc_index IndexHeaderSize rs (ic_offset c) (ic_restart_idx c) (idecodes_after c)).
  Local Abbreviation istands c :=
    (stands enc_index IndexHeaderSize rs page (ic_offset c) (ic_restart_idx c) (idecodes_after c)).

Lemma idelivered off idx e : idecodes_after (mkIndexCursor off idx e) (Some e).
Proof. split; reflexivity. Qed.

Lemma pointer_wf pre done e todo suf : rs = pre ++ (done ++ e :: todo) :: suf -> wf_index e.
Proof.
  intros Hrs. rewrite Hrs in Hwf. apply Forall_app in Hwf as [_ [Hr _]%Forall_cons_1].
  apply Forall_app in Hr as [_ [Hr _]%Forall_cons_1]. exact Hr.
Qed.

(** The key and the page id an entry is decoded against. *)
Lemma at_pointer_key c pre done todo suf k :
  at_pointer c pre done todo suf ->
  let shared := ishared (last_from None done) k in
  ztake shared (i_key (ic_entry c)) ++ zdrop shared k = k /\ shared <= zlen (i_key (ic_entry c)).
Proof.
  intros [_ _ _ Hprev]. destruct done as [|d done]; [split; [reflexivity|apply zlen_nonneg]|].
  destruct (Hprev ltac:(discriminate)) as [-> _].
  pose proof (ishared_range (last_from None (d :: done)) k).
  split; [apply ishared_key|lia].
Qed.

Lemma at_pointer_id c pre done e todo suf :
  at_pointer c pre done (e :: todo) suf ->
  let delta := DecodeInt32Delta (EncodeInt32Delta (i_page_id e - iprev_id (last_from None done))) in
  (if is_nil done then u32 delta else u32 (i32 (i_page_id (ic_entry c)) + delta)) = i_page_id e.
Proof.
  intros [Hrs _ _ Hprev]. pose proof (wfi_id _ (pointer_wf _ _ _ _ _ Hrs)) as He.
  assert (Hp : 0 <= iprev_id (last_from None done) < 2 ^ 31).
  { destruct done as [|d done _] using rev_ind; [simpl; lia|].
    rewrite last_from_snoc. rewrite <- app_assoc in Hrs. exact (wfi_id _ (pointer_wf _ _ _ _ _ Hrs)). }
  cbv zeta. rewrite delta32_roundtrip by lia. destruct done as [|d done].
  - simpl in *. rewrite Z.sub_0_r. apply u32_id. width.
  - destruct (Hprev ltac:(discriminate)) as [_ ->]. cbn [is_nil].
    rewrite i32_id by width. rewrite u32_id; [lia|]. width.
Qed.

(** One step: the next pointer is delivered and the cursor stands after it. *)
Lemma IndexParseNextKey_step c pre done e todo suf :
  at_pointer c pre done (e :: todo) suf ->
  exists idx, next_idx_ok idx pre todo suf /\
    IndexParseNextKey view c = Some (true, mkIndexCursor (zpos pre (done ++ [e])) idx e).
Proof.
  intros Hat. destruct (at_restart_flag _ _ _ _ _ _ _ Hat ltac:(discriminate)) as (ro & Hro & Hflag).
  destruct (at_next_idx _ _ _ _ _ _ _ _ Hat) as (idx & Hidx & Hadv).
  exists idx. split; [exact Hidx|].
  destruct (at_pointer_key _ _ _ _ _ (i_key e) Hat) as [Hck Hcl].
  pose proof (at_pointer_id _ _ _ _ _ _ Hat) as Hid. cbv zeta in Hid.
  destruct Hat as [Hrs Hoff _ _]. pose proof (pointer_wf _ _ _ _ _ Hrs) as He.
  destruct (zpos_snoc _ _ _ _ _ Hrs) as [Hz1 Hz2].
  pose proof (enc_index_pos (last_from None done) e).
  assert (Hlim : IndexHeaderSize <= zpos pre done < restart_offset_ view)
    by (split; [unfold zpos; zlia|zlia]).
  unfold IndexParseNextKey. rewrite Hoff, Hro.
  change (leftmost_ptr_offset + 4) with IndexHeaderSize. case_if; [lia|]. case_if; [lia|].
  cbn [mbind option_bind]. rewrite Hflag, (view_window _ _ _ _ Hrs).
  cbn [mbind option_bind enc_entries]. rewrite <- app_assoc, (IndexDecodeEntry_enc _ _ _ He).
  pose proof (ishared_range (last_from None done) (i_key e)) as [Hsk _].
  case_if; [lia|]. rewrite !zlen_app, zlen_zdrop by lia. case_if; [zlia|].
  rewrite <- (zlen_zdrop _ _ Hsk), ztake_app, Hck, zdrop_app.
  rewrite varint32_app by (destruct He; apply EncodeInt32Delta_range).
  rewrite Hid. replace (restart_offset_ view - _) with (zpos pre (done ++ [e])) by lia.
  rewrite Hadv. cbn [mbind option_bind]. destruct e; reflexivity.
Qed.

Lemma istands_next c i e :
  istands c i -> concat rs !! i = Some e ->
  exists c', IndexParseNextKey view c = Some (true, c') /\ ic_entry c' = e /\ istands c' (S i).
Proof.
  intros Hst Hi. destruct (stands_lookup _ _ _ _ _ Hst Hi) as (pre & done & todo & suf & Hat & -> & _).
  destruct (IndexParseNextKey_step _ _ _ _ _ _ Hat) as (idx & Hidx & Hp).
  exists (mkIndexCursor (zpos pre (done ++ [e])) idx e). split; [exact Hp|]. split; [reflexivity|].
  apply (stands_after _ _ _ _ _ _ _ _ (at_split Hat) Hidx eq_refl (idelivered _ _ _)).
Qed.

(** The first step delivers the leftmost pointer. *)
Definition leftmost_cursor : IndexCursor := mkIndexCursor IndexHeaderSize 0 (mkIndexEntry [] leftmost).

Lemma leftmost_step e :
  IndexParseNextKey view (mkIndexCursor leftmost_ptr_offset 0 e) = Some (true, leftmost_cursor).
Proof.
  unfold IndexParseNextKey. cbn [ic_offset restart_offset_ page_ format_view].
  assert (Ho : leftmost_ptr_offset = IndexHeaderSize - 4) by reflexivity.
  case_if; [|zlia]. case_if; [zlia|]. rewrite Hleft. reflexivity.
Qed.

Lemma leftmost_stands : istands leftmost_cursor 0.
Proof.
  assert (Hc : rs = [] \/ rs <> []) by (clear; destruct rs; [left|right]; congruence).
  destruct Hc as [Hrs|Hrs]; [right|apply stands_fresh; auto].
  cbn [restart_offset_ format_view]. rewrite Hrs. split; reflexivity.
Qed.

Lemma collect_index_stands c i :
  istands c i -> (i <= length (concat rs))%nat ->
  collect_index (S (length (concat rs) - i)) view c = Some (drop i (concat rs)).
Proof.
  remember (length (concat rs) - i)%nat as n eqn:Hn. revert c i Hn.
  induction n as [|n IH]; intros c i Hn Hst Hi; rewrite collect_index_S; unfold IndexNext.
  - assert (i = length (concat rs)) as -> by lia. apply stands_end in Hst.
    unfold IndexParseNextKey. rewrite Hst, Z.leb_refl. cbn [mbind option_bind].
    rewrite drop_all. reflexivity.
  - destruct (lookup_lt_is_Some_2 (concat rs) i) as [e He]; [lia|].
    destruct (istands_next c i e Hst He) as (c' & -> & Hc' & Hst'). cbn [mbind option_bind].
    rewrite (IH c' (S i)) by (auto; lia). cbn [mbind option_bind].
    rewrite (drop_S _ _ _ He), Hc'. reflexivity.
Qed.

(** [PeekNextKey] gives the key that [Next] would deliver. *)
Lemma PeekNextKey_stands c i :
  istands c i -> PeekNextKey view c = Some (iprev_key (concat rs !! i)).
Proof.
  intros Hst. destruct (concat rs !! i) as [e|] eqn:Hi.
  - destruct (stands_lookup _ _ _ _ _ Hst Hi) as (pre & done & todo & suf & Hat & -> & Hlt).
    destruct (at_pointer_key _ _ _ _ _ (i_key e) Hat) as [Hck Hcl].
    destruct Hat as [Hrs Hoff _ _]. unfold PeekNextKey. case_if; [lia|].
    rewrite Hoff, (view_window _ _ _ _ Hrs). cbn [mbind option_bind enc_entries].
    rewrite <- app_assoc, (IndexDecodeEntry_enc _ _ _ (pointer_wf _ _ _ _ _ Hrs)).
    pose proof (ishared_range (last_from None done) (i_key e)) as [Hsk _].
    case_if; [lia|]. rewrite !zlen_app, zlen_zdrop by lia. case_if; [zlia|].
    rewrite <- (zlen_zdrop _ _ Hsk), ztake_app, Hck. reflexivity.
  - apply lookup_ge_None_1 in Hi.
    assert (Hoff : ic_offset c = restart_offset_ view).
    { destruct Hst as [(pre & done & todo & suf & [Hrs _ _ _] & Ht & ->) | [_ Hoff]]; [|exact Hoff].
      destruct todo as [|t todo]; [congruence|].
      pose proof (split_lookup _ _ _ _ _ Hrs) as Hl. apply lookup_lt_Some in Hl. lia. }
    unfold PeekNextKey. rewrite Hoff, Z.leb_refl. reflexivity.
Qed.

(** ** Searching the page *)
  Context (Hsorted : StronglySorted key_lt (map i_key (concat rs))).

  Local Abbreviation start_key := (start_key i_key).
  Local Abbreviation starts_sorted := (starts_sorted i_key rs Hne Hsorted).
  Local Abbreviation starts_above := (starts_above i_key rs Hne Hsorted).
  Local Abbreviation sorted_regions := (sorted_regions i_key rs Hsorted).
  Local Abbreviation entries_sorted_in := (entries_sorted_in i_key rs Hsorted).
  Local Abbreviation upper_split := (upper_split i_key rs).
  Local Abbreviation upper_split_in := (upper_split_in i_key rs Hsorted).
  Local Abbreviation upper_split_exists := (upper_split_exists i_key rs Hsorted).
  Local Abbreviation upper_split_unique := (upper_split_unique i_key rs).
  Local Abbreviation upper_split_none := (upper_split_none i_key rs Hsorted).

(** Region [right] is the last one that starts at or below the key. *)
Definition floor_below (key : bytes) (j : Z) : Prop :=
  forall i r, rs !! i = Some r -> Z.of_nat i <= j -> start_key r <=k key.

Definition floor_above (key : bytes) (j : Z) : Prop :=
  forall i r, rs !! i = Some r -> j < Z.of_nat i -> key <k start_key r.

Lemma pivot_key j r :
  rs !! Z.to_nat j = Some r -> 0 <= j ->
  exists off pt key_ptr, RestartOffset view j = Some off /\ window view off = Some pt /\
    IndexDecodeEntry pt = Some (0, zlen (start_key r), key_ptr) /\
    zlen (start_key r) <= zlen key_ptr /\ ztake (zlen (start_key r)) key_ptr = start_key r.
Proof.
  intros Hr Hj. pose proof (take_drop_middle _ _ _ Hr) as Hrs. symmetry in Hrs.
  assert (Hz : zlen (take (Z.to_nat j) rs) = j)
    by (apply lookup_lt_Some in Hr; unfold zlen; rewrite length_take; lia).
  set (pre := take (Z.to_nat j) rs) in *. set (suf := drop (S (Z.to_nat j)) rs) in *.
  destruct r as [|e r]; [destruct (proj1 (Forall_lookup _ _) Hne _ _ Hr eq_refl)|].
  exists (zpos pre []). do 2 eexists. split; [rewrite <- Hz; exact (restart_here _ _ _ Hrs)|].
  split; [exact (view_window pre [] (e :: r) suf Hrs)|]. cbn [enc_entries last_from start_key].
  rewrite <- app_assoc, (IndexDecodeEntry_enc None e _ (pointer_wf pre [] e r suf Hrs)).
  change (ishared None (i_key e)) with 0. rewrite Z.sub_0_r, zdrop_0.
  split; [reflexivity|]. split; [rewrite zlen_app; zlia|apply ztake_app].
Qed.

Lemma floor_restart_correct key fuel right cnt :
  0 <= cnt <= Z.of_nat fuel -> -1 <= right < zlen rs -> 0 <= right - cnt + 1 ->
  floor_below key (right - cnt) -> floor_above key right ->
  exists j, floor_restart fuel view key right cnt = Some (Some j) /\
    -1 <= j < zlen rs /\ floor_below key j /\ floor_above key j.
Proof.
  destruct (format_bounds enc_index IndexHeaderSize rs page Hpage) as (_ & Hb & _).
  assert (Hn : zlen rs < 65536) by (change IndexHeaderSize with 15 in Hb; zlia).
  revert right cnt. induction fuel as [|fuel IH]; intros right cnt Hc Hr Hlo Hbelow Habove.
  - assert (cnt = 0) as -> by lia. rewrite Z.sub_0_r in *. exists right. simpl. auto.
  - cbn [floor_restart]. case_if.
    { assert (cnt = 0) as -> by lia. rewrite Z.sub_0_r in *. exists right. auto. }
    rewrite Z.shiftr_div_pow2 by lia. change (2 ^ 1) with 2.
    pose proof (Z.div_mod cnt 2 ltac:(lia)). pose proof (Z.mod_pos_bound cnt 2 ltac:(lia)).
    set (step := cnt / 2) in *. set (mid := right - step).
    assert (Hmid : 0 <= mid < zlen rs) by (unfold mid; lia).
    rewrite u16_id by width.
    destruct (lookup_lt_is_Some_2 rs (Z.to_nat mid)) as [r Hmr]; [unfold zlen in *; lia|].
    destruct (pivot_key mid r Hmr) as (off & pt & kp & -> & Hw & Hd & Hl & Hk); [lia|].
    cbn [mbind option_bind]. rewrite Hw. cbn [mbind option_bind]. rewrite Hd. cbn [negb Z.eqb].
    case_if; [lia|]. rewrite Hk. case_if; apply IH; try (unfold mid in *; lia).
    + replace (mid - 1 - _) with (right - cnt) by (unfold mid; lia). exact Hbelow.
    + intros i ri Hi Hlt. apply (starts_above key (Z.to_nat mid) r i); auto; [|lia].
      unfold key_lt. rewrite Compare_opp. lia.
    + intros i ri Hi Hle. fold mid in Hle. apply key_le_trans with (start_key r); [|assumption].
      destruct (decide (i = Z.to_nat mid)) as [->|]; [replace ri with r by congruence; apply key_le_refl|].
      apply key_lt_le, (starts_sorted i (Z.to_nat mid)); auto. lia.
    + exact Habove.
Qed.

(** The cursor has just delivered entry [e] of the region after [pre]. *)
Record delivered_at (c : IndexCursor) (pre : list (list IndexEntry)) (done : list IndexEntry)
    (e : IndexEntry) (todo : list IndexEntry) (suf : list (list IndexEntry)) : Prop := {
  dl_split : rs = pre ++ (done ++ e :: todo) :: suf;
  dl_entry : ic_entry c = e;
  dl_off : ic_offset c = zpos pre (done ++ [e]);
  dl_idx : next_idx_ok (ic_restart_idx c) pre todo suf
}.

Lemma delivered_stands c pre done e todo suf :
  delivered_at c pre done e todo suf -> istands c (length (concat pre ++ done ++ [e])).
Proof.
  intros [Hrs He Hoff Hidx]. rewrite !length_app. simpl.
  replace (length (concat pre) + (length done + 1))%nat with (S (length (concat pre) + length done)) by lia.
  apply (stands_after _ _ _ pre done e todo suf Hrs Hidx Hoff). rewrite <- He. split; reflexivity.
Qed.

(** The restart index is that of the region of the entry, or one more. *)
Lemma delivered_idx c pre done e todo suf :
  delivered_at c pre done e todo suf ->
  zlen pre <= ic_restart_idx c <= zlen pre + 1 /\ ic_restart_idx c < zlen rs.
Proof.
  intros [Hrs _ _ Hidx]. assert (zlen rs = zlen pre + 1 + zlen suf)
    by (rewrite Hrs, zlen_app, zlen_cons; lia).
  unfold next_idx_ok in Hidx. destruct todo, suf; rewrite ?zlen_cons in *; intuition; zlia.
Qed.

(** Where [Seek] may start: nothing delivered, or some entry. *)
Definition seekable (c : IndexCursor) : Prop :=
  i_key (ic_entry c) = [] \/ exists pre done e todo suf, delivered_at c pre done e todo suf.

Lemma region_lookup pre r suf i ri :
  rs = pre ++ r :: suf -> rs !! i = Some ri ->
  (Z.of_nat i < zlen pre /\ ri ∈ pre) \/ (Z.of_nat i = zlen pre /\ ri = r) \/
  (zlen pre < Z.of_nat i /\ ri ∈ suf).
Proof.
  intros Hrs Hi. rewrite Hrs in Hi. unfold zlen.
  apply lookup_app_Some in Hi as [Hi|[Hge Hi]].
  - left. split; [apply lookup_lt_Some in Hi; lia|eapply list_elem_of_lookup_2, Hi].
  - right. destruct (i - length pre)%nat as [|k] eqn:Hk; simpl in Hi.
    + left. split; [lia|congruence].
    + right. split; [lia|eapply list_elem_of_lookup_2, Hi].
Qed.

Lemma start_in r : r ∈ rs -> exists e, head r = Some e /\ start_key r = i_key e /\ e ∈ r.
Proof.
  intros Hr. rewrite Forall_forall in Hne. specialize (Hne r (proj1 (list_elem_of_In _ _) Hr)).
  destruct r as [|e r]; [congruence|]. exists e. repeat split. left.
Qed.

Lemma starts_vs_entry pre done e todo suf i ri :
  rs = pre ++ (done ++ e :: todo) :: suf -> rs !! i = Some ri ->
  (Z.of_nat i <= zlen pre -> start_key ri <=k i_key e) /\
  (zlen pre < Z.of_nat i -> i_key e <k start_key ri).
Proof.
  intros Hrs Hi. destruct (start_in ri) as (s & Hh & -> & Hs); [eapply list_elem_of_lookup_2, Hi|].
  assert (He : e ∈ done ++ e :: todo) by (apply elem_of_app; right; left).
  destruct (region_lookup _ _ _ _ _ Hrs Hi) as [[Hlt Hin] | [[Heq ->] | [Hlt Hin]]].
  - split; [intros _|lia]. apply key_lt_le, (sorted_regions _ _ s e Hrs).
    + apply list_elem_of_In, in_concat. exists ri. split; apply list_elem_of_In; assumption.
    + simpl. apply elem_of_app. left. exact He.
  - split; [intros _|lia]. apply (entries_sorted_in (done ++ e :: todo)); auto.
    rewrite Hrs. apply elem_of_app. right. left.
  - split; [lia|intros _]. apply (sorted_regions (pre ++ [done ++ e :: todo]) suf);
      [rewrite <- app_assoc; exact Hrs| |].
    + rewrite concat_app. apply elem_of_app. right. simpl. rewrite app_nil_r. exact He.
    + apply list_elem_of_In, in_concat. exists ri. split; apply list_elem_of_In; assumption.
Qed.

(** The narrowed bounds still hold the floor region. *)
Lemma seek_bounds_correct c key :
  seekable c ->
  match seek_bounds view c key with
  | None => i_key (ic_entry c) = key /\ exists pre done e todo suf, delivered_at c pre done e todo suf
  | Some (lo, hi) => 0 <= lo /\ -1 <= hi < zlen rs /\ lo <= hi + 1 /\
                     floor_below key (lo - 1) /\ floor_above key hi
  end.
Proof.
  intros Hsk. unfold seek_bounds. cbn [restart_num_ format_view].
  assert (Hall : 0 <= 0 /\ -1 <= zlen rs - 1 < zlen rs /\ 0 <= zlen rs - 1 + 1 /\
    floor_below key (0 - 1) /\ floor_above key (zlen rs - 1)).
  { repeat split; try zlia; intros i r Hi Hle; apply lookup_lt_Some in Hi; unfold zlen in *; lia. }
  destruct (i_key (ic_entry c)) as [|k0 ks] eqn:Hkey; [exact Hall|].
  destruct Hsk as [Hnil|(pre & done & e & todo & suf & Hdl)]; [congruence|].
  pose proof (delivered_idx _ _ _ _ _ _ Hdl) as [Hix Hixn].
  pose proof (dl_split _ _ _ _ _ _ Hdl) as Hrs. rewrite <- Hkey, (dl_entry _ _ _ _ _ _ Hdl).
  destruct Hall as (_ & H1 & H2 & Hb & Ha).
  case_if; [|case_if].
  - split; [zlia|]. split; [exact H1|]. split; [lia|]. split; [|exact Ha].
    intros i ri Hi Hle. apply key_lt_le. eapply key_le_lt_trans; [|eassumption].
    apply (starts_vs_entry _ _ _ _ _ _ _ Hrs Hi). lia.
  - split; [lia|]. split; [zlia|]. split; [zlia|]. split; [exact Hb|].
    intros i ri Hi Hle. eapply key_lt_trans; [|apply (starts_vs_entry _ _ _ _ _ _ _ Hrs Hi); lia].
    unfold key_lt. rewrite Compare_opp. lia.
  - split; [apply Compare_eq; lia|]. exists pre, done, e, todo, suf. exact Hdl.
Qed.

Lemma next_key_above pre done e t todo suf :
  rs = pre ++ (done ++ e :: t :: todo) :: suf -> i_key e <k i_key t.
Proof.
  intros Hrs. rewrite Hrs, concat_app, map_app in Hsorted.
  apply StronglySorted_app_1_r in Hsorted. simpl in Hsorted.
  rewrite <- app_assoc, map_app in Hsorted. apply StronglySorted_app_1_r in Hsorted. simpl in Hsorted.
  apply StronglySorted_inv in Hsorted as [_ Hall]. apply Forall_cons_1 in Hall as [H _]. exact H.
Qed.

(** The linear search ends on the last entry not above the key. *)
Definition floor_found (key : bytes) (c : IndexCursor) (pre : list (list IndexEntry))
    (r : list IndexEntry) (suf : list (list IndexEntry)) : Prop :=
  exists done e todo, r = done ++ e :: todo /\ delivered_at c pre done e todo suf /\
    i_key e <=k key /\ match todo with [] => True | t :: _ => key <k i_key t end.

Lemma delivered_exact key pre r suf done e todo c :
  r = done ++ e :: todo -> delivered_at c pre done e todo suf -> Compare (i_key e) key = 0 ->
  floor_found key c pre r suf.
Proof.
  intros Hr Hdl Heq. exists done, e, todo. split; [exact Hr|]. split; [exact Hdl|].
  apply Compare_eq in Heq. rewrite <- Heq. split; [apply key_le_refl|].
  destruct todo as [|t todo]; [exact I|].
  exact (next_key_above _ _ _ _ _ _ (dl_split _ _ _ _ _ _ Hdl)).
Qed.

Lemma floor_entry_correct key fuel pre r suf c done e todo :
  r = done ++ e :: todo -> delivered_at c pre done e todo suf -> i_key e <k key ->
  (length todo <= fuel)%nat ->
  exists c', floor_entry fuel view (zpos pre r) key c (ic_offset c, ic_entry c) = Some c' /\
    floor_found key c' pre r suf.
Proof.
  revert fuel c done e. induction todo as [|t todo IH]; intros fuel c done e Hr Hdl Hlt Hf;
    pose proof Hdl as [Hrs He Hoff Hidx].
  - exists (mkIndexCursor (ic_offset c) (ic_restart_idx c) (ic_entry c)). split.
    + rewrite Hr, <- Hoff. destruct fuel; cbn [floor_entry]; rewrite Z.ltb_irrefl; reflexivity.
    + exists done, e, []. split; [exact Hr|]. split; [destruct c; exact Hdl|].
      split; [apply key_lt_le, Hlt|exact I].
  - assert (Hr' : r = (done ++ [e]) ++ t :: todo) by (rewrite <- app_assoc; exact Hr).
    destruct fuel as [|fuel]; [simpl in Hf; lia|]. cbn [floor_entry].
    rewrite (proj2 (Z.ltb_lt _ _)) by (rewrite Hr', Hoff; apply zpos_app_lt; discriminate).
    assert (Hat : at_pointer c pre (done ++ [e]) (t :: todo) suf).
    { rewrite Hoff. apply (at_after _ (idecodes_after c) _ _ _ _ _ _ Hrs Hidx).
      unfold idecodes_after. rewrite He. split; reflexivity. }
    destruct (IndexParseNextKey_step _ _ _ _ _ _ Hat) as (idx & Hidx' & ->).
    cbn [mbind option_bind negb ic_entry ic_restart_idx fst snd].
    assert (Hdl' : delivered_at (mkIndexCursor (zpos pre ((done ++ [e]) ++ [t])) idx t)
      pre (done ++ [e]) t todo suf).
    { split; auto. rewrite Hrs, <- app_assoc. reflexivity. }
    case_if; [|case_if].
    + eexists. split; [reflexivity|]. exists done, e, (t :: todo). split; [exact Hr|].
      split; [|split; [apply key_lt_le, Hlt|unfold key_lt; rewrite Compare_opp; lia]].
      constructor; auto. apply next_idx_ok_back. exact Hidx'.
    + eexists. split; [reflexivity|]. apply (delivered_exact _ _ _ _ _ _ _ _ Hr' Hdl'). assumption.
    + apply (IH fuel _ (done ++ [e]) t Hr' Hdl'); [unfold key_lt; lia|simpl in Hf; lia].
Qed.

(** The pointer [Seek] stops at when [a] are the separators not above the key. *)
Definition floor_pointer (a : list IndexEntry) : IndexEntry :=
  match last_from None a with Some e => e | None => mkIndexEntry [] leftmost end.

Lemma floor_found_split key c pre r suf a b :
  rs = pre ++ r :: suf -> match suf with [] => True | r' :: _ => key <k start_key r' end ->
  floor_found key c pre r suf -> upper_split key a b ->
  ic_entry c = floor_pointer a /\ istands c (length a) /\ seekable c.
Proof.
  intros Hrs Hsuf (done & e & todo & -> & Hdl & Hle & Ht) Hsplit.
  pose proof (dl_split _ _ _ _ _ _ Hdl) as Hrs'.
  assert (Hd : upper_split key (concat pre ++ done ++ [e]) (todo ++ concat suf)).
  { apply upper_split_in.
    - rewrite Hrs', <- app_assoc. reflexivity.
    - destruct done; discriminate.
    - apply Forall_app_2; [|constructor; [exact Hle|constructor]].
      apply Forall_forall. intros d Hd%list_elem_of_In. eapply key_le_trans; [|exact Hle].
      apply list_elem_of_split in Hd as (d1 & d2 & ->).
      rewrite Hrs', concat_app, map_app in Hsorted. apply StronglySorted_app_1_r in Hsorted.
      simpl in Hsorted. rewrite <- !app_assoc, map_app in Hsorted. apply StronglySorted_app_1_r in Hsorted.
      apply StronglySorted_inv in Hsorted as [_ Hall]. rewrite Forall_forall in Hall.
      apply key_lt_le, Hall, list_elem_of_In, list_elem_of_fmap_2.
      apply elem_of_app. right. left.
    - destruct todo as [|t todo]; [|exact Ht]. destruct suf as [|r' suf]; [exact I|].
      destruct (start_in r') as (s & Hs & Hk & _);
        [rewrite Hrs'; apply elem_of_app; right; right; left|].
      destruct r'; [discriminate Hs|]. injection Hs as ->. exact Hsuf. }
  destruct (upper_split_unique _ _ _ _ _ Hsplit Hd) as [-> ->].
  unfold floor_pointer. rewrite app_assoc, last_from_snoc, <- app_assoc.
  split; [exact (dl_entry _ _ _ _ _ _ Hdl)|]. split; [exact (delivered_stands _ _ _ _ _ _ Hdl)|].
  right. eauto 10.
Qed.

(** From the floor region the search ends on the floor entry. *)
Lemma seek_in_region key pre r suf :
  rs = pre ++ r :: suf -> start_key r <=k key ->
  exists c1 c2, IndexSeekToRestart view (zlen pre) = Some c1 /\
    IndexParseNextKey view c1 = Some (true, c2) /\
    if Compare (i_key (ic_entry c2)) key =? 0 then floor_found key c2 pre r suf
    else exists c3, (limit ← region_limit view (zlen pre + 1);
      floor_entry (length page) view limit key c2 (ic_offset c2, ic_entry c2)) = Some c3 /\
      floor_found key c3 pre r suf.
Proof.
  intros Hrs Hk. destruct (start_in r) as (e & He & Hs & _);
    [rewrite Hrs; apply elem_of_app; right; left|].
  destruct r as [|x r]; [discriminate He|]. injection He as ->. clear Hs. simpl in Hk.
  unfold IndexSeekToRestart. rewrite (restart_here _ _ _ Hrs). cbn [mbind option_bind].
  assert (Hat : at_pointer (mkIndexCursor (zpos pre []) (zlen pre) no_pointer) pre [] (e :: r) suf)
    by (apply at_region; auto).
  destruct (IndexParseNextKey_step _ _ _ _ _ _ Hat) as (idx & Hidx & Hp).
  do 2 eexists. split; [reflexivity|]. split; [exact Hp|]. cbn [ic_entry ic_offset].
  assert (Hdl : delivered_at (mkIndexCursor (zpos pre ([] ++ [e])) idx e) pre [] e r suf)
    by (split; auto).
  case_if; [exact (delivered_exact key pre (e :: r) suf [] e r _ eq_refl Hdl ltac:(assumption))|].
  rewrite (region_limit_spec _ _ _ Hrs). cbn [mbind option_bind].
  apply (floor_entry_correct key (length page) pre (e :: r) suf _ [] e r eq_refl Hdl).
  - unfold key_le, key_lt in *. lia.
  - pose proof (entries_fit_page _ _ _ Hrs). simpl in *. lia.
Qed.

Lemma floor_at_leftmost key a b :
  floor_above key (-1) -> upper_split key a b ->
  ic_entry leftmost_cursor = floor_pointer a /\ istands leftmost_cursor (length a) /\
  seekable leftmost_cursor.
Proof.
  intros Hab Hsplit. assert (a = []) as ->.
  { destruct Hsplit as (Hes & Ha & _). destruct a as [|e a]; [reflexivity|].
    apply Forall_cons_1 in Ha as [He _].
    destruct (start_in (default [] (head rs))) as (s & Hh & Hk & _).
    { destruct rs; [discriminate Hes|left]. }
    assert (Hlt : key <k i_key s).
    { rewrite <- Hk. apply (Hab 0%nat); [|lia]. destruct rs; [discriminate Hh|reflexivity]. }
    assert (e = s) as ->.
    { destruct rs as [|[|]]; try discriminate Hh. simpl in *. congruence. }
    destruct (key_lt_irrefl key). eapply key_lt_le_trans; eassumption. }
  split; [reflexivity|]. split; [exact leftmost_stands|left; reflexivity].
Qed.

(** Seeking the current key leaves the cursor where it is. *)
Lemma seek_same_key c key pre done e todo suf a b :
  delivered_at c pre done e todo suf -> i_key (ic_entry c) = key -> upper_split key a b ->
  ic_entry c = floor_pointer a /\ istands c (length a) /\ seekable c.
Proof.
  intros Hdl Hk Hsplit. pose proof (dl_split _ _ _ _ _ _ Hdl) as Hrs.
  rewrite (dl_entry _ _ _ _ _ _ Hdl) in Hk.
  apply (floor_found_split key c pre (done ++ e :: todo) suf a b Hrs); [| |exact Hsplit].
  - destruct suf as [|r' suf]; [exact I|]. rewrite <- Hk.
    apply (starts_vs_entry pre done e todo (r' :: suf) (S (length pre)) r' Hrs); [|unfold zlen; lia].
    rewrite Hrs, lookup_app_r by lia.
    replace (S (length pre) - length pre)%nat with 1%nat by lia. reflexivity.
  - apply (delivered_exact key pre _ suf done e todo c eq_refl Hdl), Compare_eq, Hk.
Qed.

(** [Seek] stops at the floor of the key from any position. *)
Lemma IndexSeek_correct c key a b :
  seekable c -> upper_split key a b ->
  exists c', IndexSeek view c key = Some c' /\ ic_entry c' = floor_pointer a /\
    istands c' (length a) /\ seekable c'.
Proof.
  intros Hsk Hsplit. pose proof (seek_bounds_correct c key Hsk) as Hbd. unfold IndexSeek.
  destruct (seek_bounds view c key) as [[lo hi]|].
  - destruct Hbd as (Hlo & Hhi & Hlh & Hbelow & Habove).
    destruct (floor_restart_correct key (Z.to_nat (hi - lo + 1)) hi (hi - lo + 1))
      as (j & -> & Hj & Hjb & Hja); try lia; auto.
    { replace (hi - (hi - lo + 1)) with (lo - 1) by lia. exact Hbelow. }
    cbn [mbind option_bind]. case_if.
    + rewrite leftmost_step. cbn [mbind option_bind]. assert (j = -1) as -> by lia.
      eexists. split; [reflexivity|]. exact (floor_at_leftmost key a b Hja Hsplit).
    + destruct (lookup_lt_is_Some_2 rs (Z.to_nat j)) as [r Hr]; [unfold zlen in *; lia|].
      pose proof (take_drop_middle _ _ _ Hr) as Hrs. symmetry in Hrs.
      assert (Hz : zlen (take (Z.to_nat j) rs) = j) by (unfold zlen in *; rewrite length_take; lia).
      destruct (seek_in_region key _ r _ Hrs) as (c1 & c2 & H1 & H2 & H3);
        [apply (Hjb _ _ Hr); lia|]. rewrite Hz in H1, H3.
      destruct (format_bounds enc_index IndexHeaderSize rs page Hpage) as (_ & Hb & _).
      rewrite u16_id by (change IndexHeaderSize with 15 in Hb; width; zlia).
      rewrite H1. cbn [mbind option_bind]. rewrite H2. cbn [mbind option_bind negb page_ format_view].
      assert (Hsuf : match drop (S (Z.to_nat j)) rs with [] => True | r' :: _ => key <k start_key r' end).
      { destruct (drop (S (Z.to_nat j)) rs) as [|r' t] eqn:Hd; [exact I|].
        apply (Hja (S (Z.to_nat j))); [|lia].
        rewrite <- (Nat.add_0_r (S (Z.to_nat j))), <- lookup_drop, Hd. reflexivity. }
      destruct (Compare (i_key (ic_entry c2)) key =? 0).
      * eexists. split; [reflexivity|]. exact (floor_found_split _ _ _ _ _ _ _ Hrs Hsuf H3 Hsplit).
      * destruct H3 as (c3 & -> & H3). eexists. split; [reflexivity|].
        exact (floor_found_split _ _ _ _ _ _ _ Hrs Hsuf H3 Hsplit).
  - destruct Hbd as (Hk & pre & done & e & todo & suf & Hdl). exists c. split; [reflexivity|].
    exact (seek_same_key _ _ _ _ _ _ _ _ _ Hdl Hk Hsplit).
Qed.

(** The positions an iterator can be in. *)
Definition index_cursor_ok (c : IndexCursor) : Prop :=
  seekable c /\
  ((ic_offset c = leftmost_ptr_offset /\ ic_restart_idx c = 0) \/
   exists i, (i <= length (concat rs))%nat /\ istands c i).

Lemma IndexNext_ok c :
  index_cursor_ok c -> exists more c', IndexNext view c = Some (more, c') /\ index_cursor_ok c'.
Proof.
  intros [Hsk [[Ho Hi] | (i & Hi & Hst)]]; unfold IndexNext.
  - destruct c as [off idx e]. simpl in Ho, Hi. subst. exists true, leftmost_cursor.
    split; [apply leftmost_step|]. split; [left; reflexivity|right].
    exists 0%nat. split; [lia|exact leftmost_stands].
  - destruct (concat rs !! i) as [e|] eqn:He.
    + destruct (stands_lookup _ _ _ _ _ Hst He) as (pre & done & todo & suf & Hat & -> & _).
      destruct (IndexParseNextKey_step _ _ _ _ _ _ Hat) as (idx & Hidx & ->). do 2 eexists.
      split; [reflexivity|]. pose proof (at_split Hat) as Hrs.
      assert (Hdl : delivered_at (mkIndexCursor (zpos pre (done ++ [e])) idx e) pre done e todo suf)
        by (split; auto).
      split; [right; eauto 10|right]. eexists. split; [|exact (delivered_stands _ _ _ _ _ _ Hdl)].
      rewrite Hrs, concat_app. simpl. rewrite !length_app. simpl. lia.
    + apply lookup_ge_None_1 in He. assert (i = length (concat rs)) as -> by lia.
      apply stands_end in Hst. unfold IndexParseNextKey. rewrite Hst, Z.leb_refl. do 2 eexists.
      split; [reflexivity|]. split; [left; reflexivity|right].
      exists (length (concat rs)). split; [lia|]. right. split; reflexivity.
Qed.

Lemma IndexSeek_ok c key : index_cursor_ok c -> exists c', IndexSeek view c key = Some c' /\ index_cursor_ok c'.
Proof.
  intros [Hsk _]. destruct (upper_split_exists key) as (a & b & Hsplit).
  destruct (IndexSeek_correct c key a b Hsk Hsplit) as (c' & Hc' & _ & Hst & Hsk').
  exists c'. split; [exact Hc'|]. split; [exact Hsk'|right]. exists (length a).
  split; [|exact Hst]. destruct Hsplit as (-> & _). rewrite length_app. lia.
Qed.

Lemma run_index_ops_ok ops c :
  index_cursor_ok c -> exists c', run_index_ops view ops c = Some c' /\ index_cursor_ok c'.
Proof.
  revert c. induction ops as [|[|key] ops IH]; intros c Hc; cbn [run_index_ops]; [eauto| |].
  - destruct (IndexNext_ok c Hc) as (more & c' & -> & Hc'). cbn [mbind option_bind]. auto.
  - destruct (IndexSeek_ok c key Hc) as (c' & -> & Hc'). cbn [mbind option_bind]. auto.
Qed.

Lemma fresh_index_cursor_ok : index_cursor_ok fresh_index_cursor.
Proof. split; [left; reflexivity|left; split; reflexivity]. Qed.
End index_walk.

(** ** Properties *)

(** Round trip of an index page: iterating a finished page delivers the
    leftmost pointer with an empty key, then every separator key with its child
    pointer in the order of insertion, and then ends. *)
Theorem iterate_built_index opts leaf lm l page :
  valid_index_options opts -> is_u32 lm -> Forall (fun e => 0 <= i_page_id e < 2 ^ 31) l ->
  build_index opts leaf lm l = Some page ->
  exists v, page_view page = Some v /\
    collect_index (S (S (length l))) v fresh_index_cursor = Some (mkIndexEntry [] lm :: l).
Proof.
  intros Hopt Hlm Hl Hb.
  destruct (build_index_regions opts leaf lm l page Hopt Hlm Hl Hb)
    as (rs & Hf & Hc & Hwf & Hne & _ & _ & Hd).
  eexists. split; [exact (format_page_view _ _ _ _ Hf)|].
  rewrite collect_index_S. unfold IndexNext, fresh_index_cursor.
  rewrite (leftmost_step rs page lm Hd no_pointer). cbn [mbind option_bind].
  pose proof (collect_index_stands rs page Hf Hwf Hne (leftmost_cursor lm) 0
    (leftmost_stands rs page lm Hf Hne) ltac:(lia)) as Hcol.
  rewrite Hc, Nat.sub_0_r in Hcol. rewrite Hcol. reflexivity.
Qed.

Definition example_index : list IndexEntry :=
  [mkIndexEntry [98; 97] 7; mkIndexEntry [98; 99] 3; mkIndexEntry [100] 300].

Lemma iterate_built_index_witness :
  exists page v, build_index example_options true 5 example_index = Some page /\
    page_view page = Some v /\
    collect_index 5 v fresh_index_cursor = Some (mkIndexEntry [] 5 :: example_index).
Proof.
  destruct (build_index example_options true 5 example_index) as [page|] eqn:Hb; [|discriminate Hb].
  exists page. destruct (iterate_built_index example_options true 5 example_index page) as (v & Hv & Hc).
  - vm_compute. repeat split; discriminate.
  - vm_compute. split; [discriminate|reflexivity].
  - repeat constructor; discriminate.
  - exact Hb.
  - exists v. auto.
Defined.

(** C23: Child search: on an index page with increasing separators, after any
    history of [Next] and [Seek] calls on the iterator, [Seek] stops at the
    pointer whose key range holds the search key: the last separator not above
    it, or the leftmost pointer when every separator is above it; and
    [PeekNextKey] then gives the upper bound of that range, empty for the last
    child. *)
Theorem seek_built_index opts leaf lm l page key lo hi ops :
  valid_index_options opts -> is_u32 lm -> Forall (fun e => 0 <= i_page_id e < 2 ^ 31) l ->
  build_index opts leaf lm l = Some page -> StronglySorted key_lt (map i_key l) ->
  l = lo ++ hi -> Forall (fun e => i_key e <=k key) lo -> Forall (fun e => key <k i_key e) hi ->
  exists v c c', page_view page = Some v /\ run_index_ops v ops fresh_index_cursor = Some c /\
    IndexSeek v c key = Some c' /\
    ic_entry c' = match last_from None lo with Some e => e | None => mkIndexEntry [] lm end /\
    PeekNextKey v c' = Some (iprev_key (head hi)).
Proof.
  intros Hopt Hlm Hl Hb Hsort Hsplit Hlo Hhi.
  destruct (build_index_regions opts leaf lm l page Hopt Hlm Hl Hb)
    as (rs & Hf & Hc & Hwf & Hne & _ & _ & Hd).
  assert (Hs : StronglySorted key_lt (map i_key (concat rs))) by (rewrite Hc; exact Hsort).
  assert (Hu : upper_split i_key rs key lo hi) by (split; [rewrite Hc; exact Hsplit|auto]).
  destruct (run_index_ops_ok rs page lm Hf Hwf Hne Hd Hs ops _ (fresh_index_cursor_ok rs page))
    as (c & Hrun & Hsk & _).
  destruct (IndexSeek_correct rs page lm Hf Hwf Hne Hd Hs c key lo hi Hsk Hu)
    as (c' & Hseek & He & Hst & _).
  exists (format_view enc_index IndexHeaderSize rs page), c, c'.
  split; [exact (format_page_view _ _ _ _ Hf)|]. split; [exact Hrun|]. split; [exact Hseek|].
  split; [exact He|]. rewrite (PeekNextKey_stands rs page Hf Hwf Hne c' _ Hst), Hc, Hsplit.
  rewrite lookup_app_r, Nat.sub_diag by lia. destruct hi; reflexivity.
Qed.

Lemma seek_built_index_witness :
  exists page v c c', build_index example_options true 5 example_index = Some page /\
    page_view page = Some v /\ run_index_ops v [OpNext; OpSeek [120]] fresh_index_cursor = Some c /\
    IndexSeek v c [98; 98] = Some c' /\ ic_entry c' = mkIndexEntry [98; 97] 7 /\
    PeekNextKey v c' = Some [98; 99].
Proof.
  destruct (build_index example_options true 5 example_index) as [page|] eqn:Hb; [|discriminate Hb].
  exists page. destruct (seek_built_index example_options true 5 example_index page [98; 98]
    [mkIndexEntry [98; 97] 7] [mkIndexEntry [98; 99] 3; mkIndexEntry [100] 300] [OpNext; OpSeek [120]])
    as (v & c & c' & H).
  - vm_compute. repeat split; discriminate.
  - vm_compute. split; [discriminate|reflexivity].
  - repeat constructor; discriminate.
  - exact Hb.
  - repeat constructor.
  - reflexivity.
  - repeat constructor. vm_compute. discriminate.
  - repeat constructor.
  - exists v, c, c'. auto.
Defined.
