(* ===== verification/MappingTable.v ===== *)
(** * The mapping table (src/storage/page_mapper.cpp, MappingSnapshot::MappingTbl)

    A mapping table maps logical page ids to tagged 64-bit words: a file page
    id, a link of the free list, a pointer to a cached page, or nothing.  It is
    a vector of chunks that come from a shared arena with whatever content they
    had.  A table can be copied while its owner keeps writing to it: the writes
    are diverted until the copy is done. *)

From stdpp Require Import gmap.
From S2P Require Import Prelude.

(** ** Tagged words *)
Definition TypeBits : Z := 3.
Definition TypeMask : Z := 7.

Inductive ValType := SwizzlingPointer | FilePageIdVal | PageIdVal | InvalidVal.

Definition ValType_code (t : ValType) : Z :=
  match t with SwizzlingPointer => 0 | FilePageIdVal => 1 | PageIdVal => 2 | InvalidVal => TypeMask end.

Definition InvalidValue : Z := ValType_code InvalidVal.

(** [GetValType]; [None] is a code that no enumerator has. *)
Definition GetValType (val : Z) : option ValType :=
  match Z.land val TypeMask with
  | 0 => Some SwizzlingPointer
  | 1 => Some FilePageIdVal
  | 2 => Some PageIdVal
  | 7 => Some InvalidVal
  | _ => None
  end.

Definition IsSwizzlingPointer (val : Z) : bool := Z.land val TypeMask =? ValType_code SwizzlingPointer.

Definition IsFilePageId (val : Z) : bool := Z.land val TypeMask =? ValType_code FilePageIdVal.

Definition EncodeFilePageId (file_page_id : Z) : Z :=
  Z.lor (u64 (Z.shiftl file_page_id TypeBits)) (ValType_code FilePageIdVal).

(** The shift is done in the 32 bits of a [PageId]. *)
Definition EncodePageId (page_id : Z) : Z :=
  Z.lor (u32 (Z.shiftl page_id TypeBits)) (ValType_code PageIdVal).

Definition DecodeId (val : Z) : Z := Z.shiftr val TypeBits.

(** ** Chunks and the arena *)
Definition kChunkShift : Z := 9.
Definition kChunkSize : Z := Z.shiftl 1 kChunkShift.
Definition kChunkMask : Z := kChunkSize - 1.

Abbreviation Chunk := (list Z) (only parsing).

Definition zero_chunk : Chunk := replicate (Z.to_nat kChunkSize) 0.

(** The pool of [MappingChunkArena], its back first; [None] is a null arena. *)
Abbreviation Arena := (option (list (list Z))) (only parsing).

Definition ArenaExtend (pool : list Chunk) : list Chunk := replicate 1024 zero_chunk ++ pool.

Definition AcquireChunk (a : Arena) : Chunk * Arena :=
  match a with
  | None => (zero_chunk, None)
  | Some pool =>
      match (match pool with [] => ArenaExtend pool | _ => pool end) with
      | c :: pool' => (c, Some pool')
      | [] => (zero_chunk, Some [])
      end
  end.

Definition ReleaseChunk (a : Arena) (c : Chunk) : Arena :=
  match a with None => None | Some pool => Some (c :: pool) end.

(** ** The table *)
Record MappingTbl := mkTbl {
  under_copying_ : bool;
  changes_ : gmap Z Z;
  base_ : list Chunk;
  logical_size_ : Z
}.

Definition empty_tbl : MappingTbl := mkTbl false ∅ [] 0.

Definition tbl_clear (a : Arena) (t : MappingTbl) : MappingTbl * Arena :=
  (empty_tbl, fold_left ReleaseChunk (base_ t) a).

Definition RequiredChunks (n : Z) : Z := Z.shiftr (n + kChunkSize - 1) kChunkShift.

Fixpoint acquire_n (n : nat) (a : Arena) : list Chunk * Arena :=
  match n with
  | O => ([], a)
  | S n' => let '(c, a) := AcquireChunk a in let '(cs, a) := acquire_n n' a in (c :: cs, a)
  end.

Definition EnsureChunkCount (a : Arena) (base : list Chunk) (count : Z) : list Chunk * Arena :=
  if count <=? zlen base then (base, a)
  else let '(cs, a) := acquire_n (Z.to_nat (count - zlen base)) a in (base ++ cs, a).

Definition fill_invalid (c : Chunk) : Chunk := replicate (length c) InvalidValue.

Definition ResizeInternal (a : Arena) (t : MappingTbl) (new_size : Z) (init_new_chunks : bool)
    : MappingTbl * Arena :=
  if new_size =? logical_size_ t then (t, a)
  else
    let required_chunks := RequiredChunks new_size in
    let current_chunks := zlen (base_ t) in
    if new_size <? logical_size_ t then
      if required_chunks <? current_chunks then
        (mkTbl (under_copying_ t) (changes_ t) (ztake required_chunks (base_ t)) new_size,
         fold_left ReleaseChunk (zdrop required_chunks (base_ t)) a)
      else (mkTbl (under_copying_ t) (changes_ t) (base_ t) new_size, a)
    else
      let '(base, a) := EnsureChunkCount a (base_ t) required_chunks in
      let base :=
        if init_new_chunks then
          ztake current_chunks base ++ map fill_invalid (zdrop current_chunks base)
        else base in
      (mkTbl (under_copying_ t) (changes_ t) base new_size, a).

Definition EnsureSize (a : Arena) (t : MappingTbl) (page_id : Z) : MappingTbl * Arena :=
  if page_id <? logical_size_ t then (t, a) else ResizeInternal a t (page_id + 1) true.

(** Assigning one slot; [None] is an access outside the chunks. *)
Definition set_slot (base : list Chunk) (page_id value : Z) : option (list Chunk) :=
  let chunk_idx := Z.to_nat (Z.shiftr page_id kChunkShift) in
  let chunk_offset := Z.to_nat (Z.land page_id kChunkMask) in
  c ← base !! chunk_idx;
  Some (<[chunk_idx := <[chunk_offset := value]> c]> base).

Definition get_slot (base : list Chunk) (page_id : Z) : option Z :=
  c ← base !! Z.to_nat (Z.shiftr page_id kChunkShift);
  c !! Z.to_nat (Z.land page_id kChunkMask).

Definition with_base (t : MappingTbl) (base : list Chunk) : MappingTbl :=
  mkTbl (under_copying_ t) (changes_ t) base (logical_size_ t).

Definition Set_ (a : Arena) (t : MappingTbl) (page_id value : Z) : option (MappingTbl * Arena) :=
  if under_copying_ t then
    Some (mkTbl true (<[page_id := value]> (changes_ t)) (base_ t)
            (if logical_size_ t <? page_id + 1 then page_id + 1 else logical_size_ t), a)
  else
    let '(t, a) := EnsureSize a t page_id in
    base ← set_slot (base_ t) page_id value;
    Some (with_base t base, a).

Definition PushBack (a : Arena) (t : MappingTbl) (value : Z) : option (Z * MappingTbl * Arena) :=
  let page_id := u32 (logical_size_ t) in
  '(t, a) ← Set_ a t page_id value;
  Some (page_id, t, a).

(** [Get]; [None] is a failed check or an access outside the chunks. *)
Definition Get (t : MappingTbl) (page_id : Z) : option Z :=
  match (if under_copying_ t then changes_ t !! page_id else None) with
  | Some v => Some v
  | None => if page_id <? logical_size_ t then get_slot (base_ t) page_id else None
  end.

Definition StartCopying (t : MappingTbl) : MappingTbl :=
  mkTbl true (changes_ t) (base_ t) (logical_size_ t).

(** One entry of [ApplyChanges]. *)
Definition apply_change (a : Arena) (t : MappingTbl) (page_id value : Z) : option (MappingTbl * Arena) :=
  let '(t, a) := if logical_size_ t <? page_id + 1 then ResizeInternal a t (page_id + 1) true
                 else (t, a) in
  base ← set_slot (base_ t) page_id value;
  Some (with_base t base, a).

(** [ApplyChanges] visits the hash map in the order [order]. *)
Fixpoint ApplyChanges (a : Arena) (t : MappingTbl) (order : list (Z * Z)) : option (MappingTbl * Arena) :=
  match order with
  | [] => Some (t, a)
  | (page_id, value) :: order => '(t, a) ← apply_change a t page_id value; ApplyChanges a t order
  end.

Definition FinishCopying (a : Arena) (t : MappingTbl) : option (MappingTbl * Arena) :=
  '(t, a) ← ApplyChanges a t (map_to_list (changes_ t));
  Some (mkTbl false ∅ (base_ t) (logical_size_ t), a).

Fixpoint set_all (a : Arena) (t : MappingTbl) (l : list (Z * Z)) : option (MappingTbl * Arena) :=
  match l with
  | [] => Some (t, a)
  | (page_id, value) :: l => '(t, a) ← Set_ a t page_id value; set_all a t l
  end.

(** [ApplyPendingTo]; [None] also is the failed check on the sizes. *)
Definition ApplyPendingTo (a : Arena) (src dst : MappingTbl) : option (MappingTbl * Arena) :=
  if logical_size_ src <? logical_size_ dst then None
  else
    let '(dst, a) := if logical_size_ dst <? logical_size_ src
                     then ResizeInternal a dst (logical_size_ src) true else (dst, a) in
    set_all a dst (map_to_list (changes_ src)).

(** ** Cached pages

    What the table needs to know of a [MemCachedPage]: its file page and whether
    it is outside the replacement lists, as it is while it is being loaded. *)
Record CachedPage := mkCached {
  cp_file_page_id : Z;
  cp_detached : bool
}.

Abbreviation Heap := (gmap Z CachedPage) (only parsing).

(** The conversion [CopyFrom] applies to each copied word. *)
Definition copy_word (h : Heap) (val : Z) : option Z :=
  if IsSwizzlingPointer val then
    p ← h !! val;
    Some (if cp_detached p then EncodeFilePageId (cp_file_page_id p) else val)
  else Some val.

(** What other tasks do while the copying task yields: they write to the source
    and change the cached pages. *)
Record Yield := mkYield {
  y_sets : list (Z * Z);
  y_heap : Heap
}.

(** The copy loop from chunk [chunk_idx]; one [Yield] follows every chunk. *)
Fixpoint copy_chunks (a : Arena) (src : MappingTbl) (dst : list Chunk) (chunk_idx : Z)
    (h : Heap) (todo : list Chunk) (ys : list Yield) : option (MappingTbl * Arena * list Chunk) :=
  match todo with
  | [] => Some (src, a, dst)
  | garbage :: todo =>
      let offset := Z.shiftl chunk_idx kChunkShift in
      if logical_size_ src <=? offset then Some (src, a, dst ++ garbage :: todo)
      else
        let copy_elems := Z.min kChunkSize (logical_size_ src - offset) in
        sc ← base_ src !! Z.to_nat chunk_idx;
        words ← mapM (copy_word h) (ztake copy_elems sc);
        match ys with
        | [] => None
        | y :: ys =>
            '(src, a) ← set_all a src (y_sets y);
            copy_chunks a src (dst ++ [words ++ zdrop copy_elems garbage]) (chunk_idx + 1)
              (y_heap y) todo ys
        end
  end.

(** [CopyFrom] of another table. *)
Definition CopyFrom (a : Arena) (src dst : MappingTbl) (ys : list Yield)
    : option (MappingTbl * MappingTbl * Arena) :=
  if logical_size_ src =? 0 then
    let '(dst, a) := tbl_clear a dst in Some (src, dst, a)
  else
    let '(dst, a) := ResizeInternal a dst (logical_size_ src) false in
    match ys with
    | [] => None
    | y :: ys =>
        '(src, a) ← set_all a src (y_sets y);
        '(src, a, base) ← copy_chunks a src [] 0 (y_heap y) (base_ dst) ys;
        Some (src, with_base dst base, a)
    end.

(** The copy constructor of [PageMapper], on the tables. *)
Definition copy_table (a : Arena) (src : MappingTbl) (ys : list Yield)
    : option (MappingTbl * MappingTbl * Arena) :=
  let src := StartCopying src in
  '(src, dst, a) ← CopyFrom a src empty_tbl ys;
  '(dst, a) ← ApplyPendingTo a src dst;
  '(src, a) ← FinishCopying a src;
  Some (src, dst, a).

(** [ToFilePage] of a word. *)
Definition MaxFilePageId : Z := 2 ^ 64 - 1.

Definition ToFilePageVal (h : Heap) (val : Z) : option Z :=
  match GetValType val with
  | Some SwizzlingPointer => p ← h !! val; Some (cp_file_page_id p)
  | Some FilePageIdVal => Some (DecodeId val)
  | _ => Some MaxFilePageId
  end.

(** ** Words *)
Lemma land_TypeMask z : Z.land z TypeMask = z mod 8.
Proof. change TypeMask with (2 ^ 3 - 1). apply land_ones_mod. lia. Qed.

Lemma encode_word n t : 0 <= n -> 0 <= t < 8 -> Z.lor (Z.shiftl n 3) t = n * 8 + t.
Proof.
  intros Hn Ht. rewrite Z.lor_comm, lor_disjoint by lia. change (2 ^ 3) with 8. lia.
Qed.

Lemma EncodeFilePageId_eq fp : 0 <= fp < 2 ^ 61 -> EncodeFilePageId fp = fp * 8 + 1.
Proof.
  intros H. unfold EncodeFilePageId. rewrite u64_id.
  - apply encode_word; [lia|]. vm_compute. split; [discriminate|reflexivity].
  - unfold is_u64. change TypeBits with 3. rewrite Z.shiftl_mul_pow2 by lia. lia.
Qed.

Lemma EncodePageId_eq id : 0 <= id < 2 ^ 29 -> EncodePageId id = id * 8 + 2.
Proof.
  intros H. unfold EncodePageId. rewrite u32_id.
  - apply encode_word; [lia|]. vm_compute. split; [discriminate|reflexivity].
  - unfold is_u32. change TypeBits with 3. rewrite Z.shiftl_mul_pow2 by lia. lia.
Qed.

Lemma word_parts n t : 0 <= t < 8 -> Z.land (n * 8 + t) TypeMask = t /\ DecodeId (n * 8 + t) = n.
Proof.
  intros Ht. rewrite land_TypeMask. unfold DecodeId. change TypeBits with 3.
  rewrite Z.shiftr_div_pow2 by lia. change (2 ^ 3) with 8.
  rewrite Z.add_comm, Z.mod_add, Z.mod_small, Z.div_add, Z.div_small by lia. lia.
Qed.

Lemma file_page_word fp :
  0 <= fp < 2 ^ 61 ->
  IsSwizzlingPointer (EncodeFilePageId fp) = false /\ IsFilePageId (EncodeFilePageId fp) = true /\
  DecodeId (EncodeFilePageId fp) = fp /\ (forall h, ToFilePageVal h (EncodeFilePageId fp) = Some fp).
Proof.
  intros H. rewrite EncodeFilePageId_eq by exact H. destruct (word_parts fp 1) as [Hl Hd]; [lia|].
  unfold IsSwizzlingPointer, IsFilePageId, ToFilePageVal, GetValType. rewrite Hl, Hd. auto.
Qed.

Lemma page_id_word id :
  0 <= id < 2 ^ 29 -> EncodePageId id <> InvalidValue /\ DecodeId (EncodePageId id) = id /\
  (forall h, ToFilePageVal h (EncodePageId id) = Some MaxFilePageId).
Proof.
  intros H. rewrite EncodePageId_eq by exact H. destruct (word_parts id 2) as [Hl Hd]; [lia|].
  unfold ToFilePageVal, GetValType. rewrite Hl, Hd. split; [|auto].
  change InvalidValue with 7. lia.
Qed.

(** ** Slots *)
Definition uniform (base : list Chunk) : Prop := Forall (fun c => zlen c = kChunkSize) base.

Lemma uniform_length base : uniform base -> zlen (concat base) = kChunkSize * zlen base.
Proof.
  induction 1 as [|c base Hc _ IH]; [reflexivity|].
  simpl. rewrite zlen_app, zlen_cons, IH. lia.
Qed.

Lemma uniform_lookup base q r :
  uniform base -> (r < 512)%nat -> concat base !! (q * 512 + r)%nat = (base !! q ≫= fun c => c !! r).
Proof.
  intros Hu Hr. revert q. induction Hu as [|c base Hc _ IH]; intros q; [reflexivity|].
  assert (length c = 512%nat) by (unfold zlen in Hc; change kChunkSize with 512 in Hc; lia).
  destruct q as [|q]; simpl.
  - rewrite lookup_app_l by lia. reflexivity.
  - rewrite lookup_app_r by lia. rewrite <- IH. f_equal. lia.
Qed.

Lemma slot_index page_id :
  0 <= page_id ->
  exists q r, (r < 512)%nat /\ Z.to_nat page_id = (q * 512 + r)%nat /\
    Z.to_nat (Z.shiftr page_id kChunkShift) = q /\ Z.to_nat (Z.land page_id kChunkMask) = r.
Proof.
  intros H. exists (Z.to_nat (page_id / 512)), (Z.to_nat (page_id mod 512)).
  pose proof (Z.mod_pos_bound page_id 512 ltac:(lia)). pose proof (Z.div_mod page_id 512 ltac:(lia)).
  pose proof (Z.div_pos page_id 512 H ltac:(lia)).
  change kChunkMask with (2 ^ 9 - 1). rewrite land_ones_mod, Z.shiftr_div_pow2 by (change kChunkShift with 9; lia).
  change (2 ^ kChunkShift) with 512. change (2 ^ 9) with 512. repeat split; lia.
Qed.

Lemma get_slot_concat base page_id :
  uniform base -> 0 <= page_id -> get_slot base page_id = concat base !! Z.to_nat page_id.
Proof.
  intros Hu H. destruct (slot_index page_id H) as (q & r & Hr & -> & Hq & Hr').
  unfold get_slot. rewrite Hq, Hr', uniform_lookup by assumption. reflexivity.
Qed.

Lemma set_slot_concat base page_id v :
  uniform base -> 0 <= page_id < zlen (concat base) ->
  exists base', set_slot base page_id v = Some base' /\ uniform base' /\
    concat base' = <[Z.to_nat page_id := v]> (concat base).
Proof.
  intros Hu [H0 Hlt]. destruct (slot_index page_id H0) as (q & r & Hr & Hp & Hq & Hr').
  unfold set_slot. rewrite Hq, Hr', Hp.
  assert (Hl : (q < length base)%nat).
  { rewrite uniform_length in Hlt by exact Hu. unfold zlen in Hlt. change kChunkSize with 512 in Hlt. lia. }
  destruct (lookup_lt_is_Some_2 base q Hl) as [c Hc]. rewrite Hc. cbn [mbind option_bind].
  assert (Hcl : zlen c = kChunkSize) by exact (proj1 (Forall_lookup _ _) Hu _ _ Hc).
  eexists. split; [reflexivity|].
  assert (Hu' : uniform (<[q := <[r := v]> c]> base)).
  { apply Forall_insert; [exact Hu|]. unfold zlen in *. rewrite length_insert. exact Hcl. }
  split; [exact Hu'|]. apply list_eq. intros i.
  assert (Hlen : length c = 512%nat) by (unfold zlen in Hcl; change kChunkSize with 512 in Hcl; lia).
  assert (Hi : i = (i / 512 * 512 + i mod 512)%nat) by (rewrite (Nat.div_mod i 512) at 1 by lia; lia).
  pose proof (Nat.mod_upper_bound i 512 ltac:(lia)) as Hm.
  rewrite Hi, uniform_lookup by assumption. set (q' := (i / 512)%nat) in *. set (r' := (i mod 512)%nat) in *.
  destruct (decide (q' = q)) as [->|Hne].
  - rewrite list_lookup_insert_eq by exact Hl. cbn [mbind option_bind].
    destruct (decide (r' = r)) as [->|Hne'].
    + rewrite !list_lookup_insert_eq; [reflexivity| |lia].
      unfold zlen in *. lia.
    + rewrite !list_lookup_insert_ne by lia. rewrite uniform_lookup, Hc by assumption. reflexivity.
  - rewrite !list_lookup_insert_ne by lia. rewrite uniform_lookup by assumption. reflexivity.
Qed.

(** ** The table invariant *)
Definition arena_ok (a : Arena) : Prop :=
  match a with None => True | Some pool => uniform pool end.

Record tbl_inv (t : MappingTbl) : Prop := {
  ti_uniform : uniform (base_ t);
  ti_size : 0 <= logical_size_ t <= zlen (concat (base_ t));
  ti_idle : under_copying_ t = false -> changes_ t = ∅;
  ti_keys : forall p v, changes_ t !! p = Some v -> 0 <= p < logical_size_ t
}.

Lemma empty_tbl_inv : tbl_inv empty_tbl.
Proof.
  split; [constructor|vm_compute; split; discriminate|reflexivity|].
  intros p v Hp. cbn [changes_ empty_tbl] in Hp. rewrite lookup_empty in Hp. discriminate Hp.
Qed.

Lemma zero_chunk_length : zlen zero_chunk = kChunkSize.
Proof. reflexivity. Qed.

Lemma AcquireChunk_ok a : arena_ok a -> zlen (fst (AcquireChunk a)) = kChunkSize /\ arena_ok (snd (AcquireChunk a)).
Proof.
  intros Ha. destruct a as [pool|]; [|split; [apply zero_chunk_length|exact I]]. unfold AcquireChunk.
  assert (Hp : uniform (match pool with [] => ArenaExtend pool | _ => pool end)).
  { destruct pool; [|exact Ha]. apply Forall_app_2; [|constructor].
    apply Forall_replicate, zero_chunk_length. }
  destruct (match pool with [] => ArenaExtend pool | _ => pool end) as [|c pool'];
    [split; [apply zero_chunk_length|constructor]|].
  apply Forall_cons_1 in Hp as [Hc Hp]. split; assumption.
Qed.

Lemma acquire_n_ok n a :
  arena_ok a -> let '(cs, a') := acquire_n n a in uniform cs /\ length cs = n /\ arena_ok a'.
Proof.
  revert a. induction n as [|n IH]; intros a Ha; simpl; [repeat split; auto; constructor|].
  pose proof (AcquireChunk_ok a Ha) as [Hc Ha1]. destruct (AcquireChunk a) as [c a1].
  specialize (IH a1 Ha1). destruct (acquire_n n a1) as [cs a2]. destruct IH as (Hu & Hl & Ha2).
  simpl in *. split; [constructor; assumption|]. split; [lia|exact Ha2].
Qed.

Lemma RequiredChunks_enough n :
  0 <= n -> n <= kChunkSize * RequiredChunks n /\ kChunkSize * (RequiredChunks n - 1) < n + (if n =? 0 then 1 else 0).
Proof.
  intros H. unfold RequiredChunks. change kChunkShift with 9. change kChunkSize with 512.
  rewrite Z.shiftr_div_pow2 by lia. change (2 ^ 9) with 512.
  pose proof (Z.div_mod (n + 512 - 1) 512 ltac:(lia)).
  pose proof (Z.mod_pos_bound (n + 512 - 1) 512 ltac:(lia)). case_if; lia.
Qed.

Lemma concat_fill_invalid cs : Forall (eq InvalidValue) (concat (map fill_invalid cs)).
Proof.
  induction cs as [|c cs IH]; [constructor|]. simpl. apply Forall_app_2; [|exact IH].
  apply Forall_replicate. reflexivity.
Qed.

Lemma uniform_fill cs : uniform cs -> uniform (map fill_invalid cs).
Proof.
  induction 1 as [|c cs Hc _ IH]; [constructor|]. constructor; [|exact IH].
  unfold fill_invalid, zlen in *. rewrite length_replicate. exact Hc.
Qed.

Lemma EnsureChunkCount_ok a base count :
  arena_ok a -> uniform base ->
  let '(base', a') := EnsureChunkCount a base count in
  exists cs, base' = base ++ cs /\ uniform cs /\ count <= zlen base' /\ arena_ok a'.
Proof.
  intros Ha Hu. unfold EnsureChunkCount. case_if.
  - exists []. rewrite app_nil_r. repeat split; auto. constructor.
  - pose proof (acquire_n_ok (Z.to_nat (count - zlen base)) a Ha) as H'.
    destruct (acquire_n _ a) as [cs a']. destruct H' as (Hc & Hl & Ha').
    exists cs. repeat split; auto. rewrite zlen_app. unfold zlen in *. lia.
Qed.

(** Growing keeps the old slots; fresh slots are invalid when asked for. *)
Lemma Resize_grow a t n init :
  tbl_inv t -> arena_ok a -> logical_size_ t <= n ->
  let '(t', a') := ResizeInternal a t n init in
  arena_ok a' /\ logical_size_ t' = n /\ under_copying_ t' = under_copying_ t /\
  changes_ t' = changes_ t /\ uniform (base_ t') /\ n <= zlen (concat (base_ t')) /\
  exists extra, concat (base_ t') = concat (base_ t) ++ extra /\
    (init = true -> Forall (eq InvalidValue) extra).
Proof.
  intros [Hu Hs _ _] Ha Hn. unfold ResizeInternal.
  destruct (Z.eqb_spec n (logical_size_ t)) as [->|Hne].
  { repeat split; auto; try lia. exists []. rewrite app_nil_r. split; [reflexivity|constructor]. }
  rewrite (proj2 (Z.ltb_ge n (logical_size_ t))) by lia.
  pose proof (EnsureChunkCount_ok a (base_ t) (RequiredChunks n) Ha Hu) as HE.
  destruct (EnsureChunkCount a (base_ t) (RequiredChunks n)) as [base' a'].
  destruct HE as (cs & -> & Hcs & Hc & Ha'). cbn [logical_size_ under_copying_ changes_ base_].
  assert (Hu' : uniform (base_ t ++ cs)) by (apply Forall_app_2; assumption).
  pose proof (RequiredChunks_enough n ltac:(lia)) as [Hr _]. rewrite zlen_app in Hc.
  change kChunkSize with 512 in *.
  destruct init.
  - rewrite ztake_app, zdrop_app. repeat split; auto.
    + apply Forall_app_2; [exact Hu|apply uniform_fill, Hcs].
    + rewrite uniform_length by (apply Forall_app_2; [exact Hu|apply uniform_fill, Hcs]).
      change kChunkSize with 512. rewrite zlen_app. unfold zlen in *. rewrite length_map. lia.
    + exists (concat (map fill_invalid cs)). rewrite concat_app. split; [reflexivity|].
      intros _. apply concat_fill_invalid.
  - repeat split; auto.
    + rewrite uniform_length by exact Hu'. change kChunkSize with 512. rewrite zlen_app. lia.
    + exists (concat cs). rewrite concat_app. split; [reflexivity|discriminate].
Qed.

(** Reading through the diverted writes. *)
Lemma Get_eq t p :
  tbl_inv t -> 0 <= p < logical_size_ t ->
  Get t p = match changes_ t !! p with Some v => Some v | None => concat (base_ t) !! Z.to_nat p end.
Proof.
  intros Hinv Hp. unfold Get. rewrite (proj2 (Z.ltb_lt p (logical_size_ t))) by lia.
  rewrite get_slot_concat by (try apply ti_uniform; auto; lia).
  destruct (under_copying_ t) eqn:Hc; [destruct (changes_ t !! p); reflexivity|].
  rewrite (ti_idle t Hinv Hc), lookup_empty. reflexivity.
Qed.

Lemma Get_total t p : tbl_inv t -> 0 <= p < logical_size_ t -> exists v, Get t p = Some v.
Proof.
  intros Hinv Hp. rewrite (Get_eq t p Hinv Hp). destruct (changes_ t !! p) as [v|]; [eauto|].
  apply lookup_lt_is_Some_2. pose proof (ti_size t Hinv). unfold zlen in *. lia.
Qed.

Lemma Get_outside t p : tbl_inv t -> logical_size_ t <= p -> Get t p = None.
Proof.
  intros Hinv Hp. unfold Get. rewrite (proj2 (Z.ltb_ge p (logical_size_ t))) by lia.
  destruct (under_copying_ t); [|reflexivity].
  destruct (changes_ t !! p) as [v|] eqn:Hv; [|reflexivity].
  apply (ti_keys t Hinv) in Hv. lia.
Qed.

Lemma EnsureSize_ok a t page_id :
  tbl_inv t -> arena_ok a -> 0 <= page_id -> under_copying_ t = false ->
  exists t1 a1, EnsureSize a t page_id = (t1, a1) /\ arena_ok a1 /\
    logical_size_ t1 = Z.max (logical_size_ t) (page_id + 1) /\ under_copying_ t1 = false /\
    changes_ t1 = ∅ /\ uniform (base_ t1) /\ logical_size_ t1 <= zlen (concat (base_ t1)) /\
    exists extra, concat (base_ t1) = concat (base_ t) ++ extra.
Proof.
  intros Hinv Ha Hp Hcp. pose proof Hinv as [Hu Hs Hi _]. unfold EnsureSize. case_if.
  - exists t, a. repeat split; auto; try lia. exists []. rewrite app_nil_r. reflexivity.
  - pose proof (Resize_grow a t (page_id + 1) true Hinv Ha ltac:(lia)) as HR.
    destruct (ResizeInternal a t (page_id + 1) true) as [t1 a1].
    destruct HR as (Ha1 & Hs1 & Hc1 & Hch & Hu1 & Hl1 & extra & He & _).
    exists t1, a1. rewrite Hch, (Hi Hcp), Hc1, Hs1. repeat split; auto; try lia. eauto.
Qed.

(** Writing a slot, growing the table where needed. *)
Lemma Set_spec a t page_id v :
  tbl_inv t -> arena_ok a -> 0 <= page_id ->
  (under_copying_ t = true -> page_id < logical_size_ t) ->
  exists t' a', Set_ a t page_id v = Some (t', a') /\ tbl_inv t' /\ arena_ok a' /\
    under_copying_ t' = under_copying_ t /\ logical_size_ t' = Z.max (logical_size_ t) (page_id + 1) /\
    Get t' page_id = Some v /\
    (forall p, 0 <= p < logical_size_ t -> p <> page_id -> Get t' p = Get t p).
Proof.
  intros Hinv Ha Hp Hc. pose proof Hinv as [Hu Hs Hi Hk]. unfold Set_.
  destruct (under_copying_ t) eqn:Hcp.
  - specialize (Hc eq_refl). rewrite (proj2 (Z.ltb_ge _ _)) by lia. do 2 eexists. split; [reflexivity|].
    assert (Hinv' : tbl_inv (mkTbl true (<[page_id:=v]> (changes_ t)) (base_ t) (logical_size_ t))).
    { split; cbn [base_ logical_size_ under_copying_ changes_]; [exact Hu|exact Hs|discriminate|].
      intros p w [[-> _]|[_ Hw]]%lookup_insert_Some; [lia|exact (Hk _ _ Hw)]. }
    split; [exact Hinv'|]. split; [exact Ha|]. split; [reflexivity|].
    split; [cbn [logical_size_]; lia|]. split.
    + rewrite Get_eq by (try exact Hinv'; cbn [logical_size_]; lia). cbn [changes_].
      rewrite lookup_insert_eq. reflexivity.
    + intros p Hpr Hne. rewrite !Get_eq by auto. cbn [changes_ base_].
      rewrite lookup_insert_ne by congruence. reflexivity.
  - destruct (EnsureSize_ok a t page_id Hinv Ha Hp Hcp)
      as (t1 & a1 & -> & Ha1 & Hs1 & Hc1 & Hch1 & Hu1 & Hl1 & extra & He).
    destruct (set_slot_concat (base_ t1) page_id v Hu1 ltac:(lia)) as (base' & -> & Hu' & Hb').
    cbn [mbind option_bind]. exists (with_base t1 base'), a1. split; [reflexivity|].
    assert (Hinv' : tbl_inv (with_base t1 base')).
    { split; cbn [with_base base_ logical_size_ under_copying_ changes_]; [exact Hu'| |auto|].
      - rewrite Hb'. unfold zlen in *. rewrite length_insert. lia.
      - rewrite Hch1. intros p w Hw. rewrite lookup_empty in Hw. discriminate Hw. }
    split; [exact Hinv'|]. split; [exact Ha1|]. split; [exact Hc1|]. split; [exact Hs1|].
    assert (Hget : forall p, 0 <= p < logical_size_ t1 ->
      Get (with_base t1 base') p = <[Z.to_nat page_id := v]> (concat (base_ t1)) !! Z.to_nat p).
    { intros p Hpr. rewrite Get_eq by (try exact Hinv'; exact Hpr). cbn [with_base changes_ base_].
      rewrite Hch1, lookup_empty, Hb'. reflexivity. }
    split.
    + rewrite Hget by lia. apply list_lookup_insert_eq. unfold zlen in Hl1. lia.
    + intros p Hpr Hne. rewrite Hget, list_lookup_insert_ne by lia.
      rewrite (Get_eq t p Hinv Hpr), (Hi eq_refl), lookup_empty, He.
      apply lookup_app_l. unfold zlen in Hs. lia.
Qed.

Lemma PushBack_spec a t v :
  tbl_inv t -> arena_ok a -> under_copying_ t = false -> logical_size_ t < 2 ^ 32 ->
  exists t' a', PushBack a t v = Some (logical_size_ t, t', a') /\ tbl_inv t' /\ arena_ok a' /\
    under_copying_ t' = false /\ logical_size_ t' = logical_size_ t + 1 /\
    Get t' (logical_size_ t) = Some v /\
    (forall p, 0 <= p < logical_size_ t -> Get t' p = Get t p).
Proof.
  intros Hinv Ha Hc Hs. pose proof (ti_size t Hinv). unfold PushBack. rewrite u32_id by (unfold is_u32; lia).
  destruct (Set_spec a t (logical_size_ t) v Hinv Ha) as (t' & a' & -> & Hi' & Ha' & Hc' & Hs' & Hg & Ho);
    [lia|congruence|]. cbn [mbind option_bind].
  exists t', a'. split_and!; auto; [congruence|lia|]. intros p Hp. apply Ho; lia.
Qed.

(** ** Batches of writes *)
Definition overlay (l : list (Z * Z)) (m : gmap Z Z) : gmap Z Z :=
  fold_left (fun m e => <[fst e := snd e]> m) l m.

Definition in_range (n : Z) (e : Z * Z) : Prop := 0 <= fst e < n.

Lemma overlay_lookup l m p :
  overlay l m !! p = match overlay l ∅ !! p with Some v => Some v | None => m !! p end.
Proof.
  revert m. induction l as [|[k v] l IH]; intros m; simpl; [rewrite lookup_empty; reflexivity|].
  rewrite IH, (IH (<[k:=v]> ∅)). destruct (overlay l ∅ !! p); [reflexivity|].
  destruct (decide (k = p)) as [->|Hne]; [rewrite !lookup_insert_eq; reflexivity|].
  rewrite !lookup_insert_ne by exact Hne. rewrite lookup_empty. reflexivity.
Qed.

Lemma overlay_map_to_list (m : gmap Z Z) p : overlay (map_to_list m) ∅ !! p = m !! p.
Proof.
  assert (H : forall l m0, NoDup l.*1 -> overlay l m0 = list_to_map l ∪ m0).
  { induction l as [|[k v] l IH]; intros m0 Hnd; simpl; [rewrite (left_id_L ∅ (∪)); reflexivity|].
    inversion_clear Hnd as [|? ? Hk Hnd']. rewrite IH by exact Hnd'.
    rewrite <- insert_union_r by (apply not_elem_of_list_to_map_1; exact Hk).
    rewrite insert_union_l. reflexivity. }
  rewrite H by apply NoDup_fst_map_to_list. rewrite (right_id_L ∅ (∪)), list_to_map_to_list. reflexivity.
Qed.

Lemma map_to_list_range (m : gmap Z Z) n :
  (forall p v, m !! p = Some v -> 0 <= p < n) -> Forall (in_range n) (map_to_list m).
Proof.
  intros H. apply Forall_forall. intros [p v] Hin%list_elem_of_In%elem_of_map_to_list. exact (H _ _ Hin).
Qed.

(** Writes into an existing table, diverted or not, in sequence. *)
Lemma set_all_spec a t l :
  tbl_inv t -> arena_ok a -> Forall (in_range (logical_size_ t)) l ->
  exists t' a', set_all a t l = Some (t', a') /\ tbl_inv t' /\ arena_ok a' /\
    under_copying_ t' = under_copying_ t /\ logical_size_ t' = logical_size_ t /\
    (forall p, 0 <= p < logical_size_ t ->
      Get t' p = match overlay l ∅ !! p with Some v => Some v | None => Get t p end).
Proof.
  intros Hinv Ha Hl. remember (logical_size_ t) as n eqn:Hn.
  revert a t Hinv Ha Hn. induction Hl as [|[k v] l Hk _ IH]; intros a t Hinv Ha Hn; cbn [set_all].
  - exists t, a. split_and!; auto.
  - destruct (Set_spec a t k v Hinv Ha) as (t1 & a1 & -> & Hi1 & Ha1 & Hc1 & Hs1 & Hg1 & Ho1);
      [apply Hk|intros _; rewrite <- Hn; apply Hk|]. cbn [mbind option_bind].
    destruct Hk as [Hk0 Hk1]. cbn [fst] in *.
    destruct (IH a1 t1 Hi1 Ha1) as (t2 & a2 & -> & Hi2 & Ha2 & Hc2 & Hs2 & Hg2); [lia|].
    exists t2, a2. split_and!; auto; [congruence|].
    intros p Hp. rewrite Hg2 by exact Hp. simpl. rewrite (overlay_lookup l (<[k:=v]> ∅)).
    destruct (overlay l ∅ !! p); [reflexivity|].
    destruct (decide (p = k)) as [->|Hne]; [rewrite lookup_insert_eq; exact Hg1|].
    rewrite lookup_insert_ne, lookup_empty by congruence. apply Ho1; lia.
Qed.

(** While a table is being copied its chunks do not change. *)
Lemma set_all_diverted a t l :
  under_copying_ t = true -> Forall (in_range (logical_size_ t)) l ->
  set_all a t l = Some (mkTbl true (overlay l (changes_ t)) (base_ t) (logical_size_ t), a).
Proof.
  intros Hc Hl. remember (logical_size_ t) as n eqn:Hn.
  revert t Hc Hn. induction Hl as [|[k v] l [_ Hk] _ IH]; intros t Hc Hn; cbn [set_all].
  - destruct t. simpl in *. subst. reflexivity.
  - cbn [fst] in Hk. unfold Set_. rewrite Hc, (proj2 (Z.ltb_ge _ _)) by lia. cbn [mbind option_bind].
    rewrite IH by auto. reflexivity.
Qed.

Lemma ApplyChanges_spec a t l :
  uniform (base_ t) -> logical_size_ t <= zlen (concat (base_ t)) ->
  Forall (in_range (logical_size_ t)) l ->
  exists base', ApplyChanges a t l = Some (with_base t base', a) /\ uniform base' /\
    zlen (concat base') = zlen (concat (base_ t)) /\
    (forall p, 0 <= p -> concat base' !! Z.to_nat p =
      match overlay l ∅ !! p with Some v => Some v | None => concat (base_ t) !! Z.to_nat p end).
Proof.
  intros Hu Hs Hl. remember (logical_size_ t) as n eqn:Hn.
  revert t Hu Hs Hn. induction Hl as [|[k v] l [Hk0 Hk] _ IH]; intros t Hu Hs Hn; cbn [ApplyChanges].
  - exists (base_ t). destruct t. repeat split; auto.
  - cbn [fst] in *. unfold apply_change. rewrite (proj2 (Z.ltb_ge _ _)) by lia.
    destruct (set_slot_concat (base_ t) k v Hu ltac:(lia)) as (base1 & -> & Hu1 & Hb1).
    cbn [mbind option_bind].
    assert (Hz1 : zlen (concat base1) = zlen (concat (base_ t)))
      by (rewrite Hb1; unfold zlen; rewrite length_insert; reflexivity).
    destruct (IH (with_base t base1)) as (base2 & -> & Hu2 & Hz2 & Hg2); auto; [cbn; lia|].
    exists base2. cbn [with_base base_] in *. rewrite Hz2. repeat split; auto.
    intros p Hp. rewrite Hg2 by exact Hp. simpl. rewrite (overlay_lookup l (<[k:=v]> ∅)).
    destruct (overlay l ∅ !! p); [reflexivity|]. rewrite Hb1.
    destruct (decide (p = k)) as [->|Hne].
    + rewrite lookup_insert_eq. apply list_lookup_insert_eq. unfold zlen in *. lia.
    + rewrite lookup_insert_ne, lookup_empty by congruence. apply list_lookup_insert_ne. lia.
Qed.

(** ** Copying a table *)

(** [dst] holds, at page [p], the word of [base] as it was copied under one of
    the heaps. *)
Definition copied (heaps : list Heap) (base dst : list Chunk) (p : Z) : Prop :=
  exists h w w', h ∈ heaps /\ concat base !! Z.to_nat p = Some w /\ copy_word h w = Some w' /\
    concat dst !! Z.to_nat p = Some w'.

(** Every word of the table can be converted: the cached pages it points to stay
    allocated. *)
Definition convertible (heaps : list Heap) (base : list Chunk) (n : Z) : Prop :=
  forall h p w, h ∈ heaps -> 0 <= p < n -> concat base !! Z.to_nat p = Some w -> is_Some (copy_word h w).

Lemma copy_one_chunk h base idx n garbage :
  uniform base -> 0 <= idx -> n <= zlen (concat base) -> kChunkSize * idx < n ->
  zlen garbage = kChunkSize -> convertible [h] base n ->
  let copy_elems := Z.min kChunkSize (n - Z.shiftl idx kChunkShift) in
  exists sc words, base !! Z.to_nat idx = Some sc /\
    mapM (copy_word h) (ztake copy_elems sc) = Some words /\
    zlen (words ++ zdrop copy_elems garbage) = kChunkSize /\
    (forall p, kChunkSize * idx <= p < n -> p < kChunkSize * (idx + 1) ->
       exists w w', concat base !! Z.to_nat p = Some w /\ copy_word h w = Some w' /\
         (words ++ zdrop copy_elems garbage) !! Z.to_nat (p - kChunkSize * idx) = Some w').
Proof.
  intros Hu Hi Hn Hlt Hg Hconv. change kChunkSize with 512 in *. change kChunkShift with 9.
  rewrite Z.shiftl_mul_pow2 by lia. change (2 ^ 9) with 512. cbv zeta.
  set (ce := Z.min 512 (n - idx * 512)).
  assert (Hl : (Z.to_nat idx < length base)%nat).
  { rewrite uniform_length in Hn by exact Hu. unfold zlen in Hn. change kChunkSize with 512 in Hn. lia. }
  destruct (lookup_lt_is_Some_2 base _ Hl) as [sc Hsc].
  assert (Hscl : zlen sc = 512) by exact (proj1 (Forall_lookup _ _) Hu _ _ Hsc).
  assert (Hbase : forall r, 0 <= r < 512 -> concat base !! Z.to_nat (512 * idx + r) = sc !! Z.to_nat r).
  { intros r Hr. replace (Z.to_nat (512 * idx + r)) with (Z.to_nat idx * 512 + Z.to_nat r)%nat by lia.
    rewrite uniform_lookup, Hsc by (auto; lia). reflexivity. }
  assert (Hm : exists words, mapM (copy_word h) (ztake ce sc) = Some words).
  { apply mapM_is_Some, Forall_lookup. intros i w Hw.
    apply lookup_take_Some in Hw as [Hw Hlt']. apply (Hconv h (512 * idx + Z.of_nat i) w); [left|lia|].
    rewrite Hbase, Nat2Z.id by lia. exact Hw. }
  destruct Hm as [words Hm]. exists sc, words. split; [exact Hsc|]. split; [exact Hm|].
  apply mapM_Some in Hm. pose proof (Forall2_length Hm) as Hwl.
  assert (Hwz : zlen words = ce) by (unfold zlen; rewrite <- Hwl; fold (zlen (ztake ce sc)); apply zlen_ztake; lia).
  split; [rewrite zlen_app, zlen_zdrop; lia|].
  intros p Hp Hp'. set (r := p - 512 * idx) in *.
  destruct (lookup_lt_is_Some_2 words (Z.to_nat r)) as [w' Hw']; [unfold zlen in *; lia|].
  destruct (Forall2_lookup_r _ _ _ _ _ Hm Hw') as (w & Hw & Hc).
  apply lookup_take_Some in Hw as [Hw _]. exists w, w'.
  split; [replace p with (512 * idx + r) by lia; rewrite Hbase by lia; exact Hw|].
  split; [exact Hc|]. rewrite lookup_app_l by (unfold zlen in *; lia). exact Hw'.
Qed.

Lemma lookup_uniform_app dst c p :
  uniform dst -> 0 <= p -> kChunkSize * zlen dst <= p ->
  concat (dst ++ [c]) !! Z.to_nat p = c !! Z.to_nat (p - kChunkSize * zlen dst).
Proof.
  intros Hu Hp Hge. rewrite concat_app. pose proof (uniform_length dst Hu) as Hl. unfold zlen in *.
  rewrite lookup_app_r by lia. simpl. rewrite app_nil_r. f_equal. lia.
Qed.

Lemma copy_chunks_spec todo : forall a src dst idx h ys n,
  under_copying_ src = true -> uniform (base_ src) -> logical_size_ src = n ->
  n <= zlen (concat (base_ src)) -> uniform dst -> zlen dst = idx -> uniform todo ->
  (todo <> [] -> kChunkSize * (idx + zlen todo - 1) < n) -> length ys = length todo ->
  Forall (fun y => Forall (in_range n) (y_sets y)) ys ->
  convertible (h :: map y_heap ys) (base_ src) n ->
  exists dst', copy_chunks a src dst idx h todo ys =
      Some (mkTbl true (overlay (concat (map y_sets ys)) (changes_ src)) (base_ src) n, a, dst') /\
    uniform dst' /\ zlen dst' = idx + zlen todo /\
    (forall p, 0 <= p < kChunkSize * idx -> concat dst' !! Z.to_nat p = concat dst !! Z.to_nat p) /\
    (forall p, kChunkSize * idx <= p < n -> p < kChunkSize * (idx + zlen todo) ->
       copied (h :: map y_heap ys) (base_ src) dst' p).
Proof.
  induction todo as [|g todo IH]; intros a src dst idx h ys n Hc Hu Hs Hn Hd Hz Ht Hlast Hys Hsets Hconv.
  - destruct ys; [|discriminate Hys]. exists dst. simpl. rewrite (@zlen_nil Chunk), Z.add_0_r.
    split_and!; auto; [destruct src; simpl in *; subst; reflexivity|]. intros p H1 H2. lia.
  - destruct ys as [|y ys]; [discriminate Hys|]. apply Forall_cons_1 in Hsets as [Hy Hsets].
    apply Forall_cons_1 in Ht as [Hg Ht]. specialize (Hlast ltac:(discriminate)).
    rewrite zlen_cons in *. pose proof (zlen_nonneg dst). pose proof (zlen_nonneg todo).
    assert (Hsh : Z.shiftl idx kChunkShift = kChunkSize * idx).
    { change kChunkShift with 9. change kChunkSize with 512. rewrite Z.shiftl_mul_pow2 by lia. lia. }
    assert (Hlt : kChunkSize * idx < n) by (change kChunkSize with 512 in *; lia).
    destruct (copy_one_chunk h (base_ src) idx n g Hu ltac:(lia) Hn Hlt Hg)
      as (sc & words & Hsc & Hw & Hwl & Hcopy).
    { intros h' p w Hh. apply list_elem_of_singleton in Hh as ->. apply Hconv. left. }
    cbn [copy_chunks]. rewrite Hs, (proj2 (Z.leb_gt _ _)) by lia. rewrite Hsc. cbn [mbind option_bind].
    rewrite Hw. cbn [mbind option_bind]. rewrite set_all_diverted by (auto; rewrite Hs; exact Hy).
    cbn [mbind option_bind]. rewrite Hs. set (c := words ++ _) in *.
    assert (Hd' : uniform (dst ++ [c])) by (apply Forall_app_2; [exact Hd|constructor; [exact Hwl|constructor]]).
    destruct (IH a (mkTbl true (overlay (y_sets y) (changes_ src)) (base_ src) n) (dst ++ [c]) (idx + 1)
      (y_heap y) ys n) as (dst' & -> & Hu' & Hz' & Hold & Hnew); auto.
    + rewrite zlen_app, zlen_cons, (@zlen_nil Chunk). lia.
    + intros _. lia.
    + intros h' p w Hh. apply Hconv. right. exact Hh.
    + exists dst'. cbn [base_ changes_ map concat]. unfold overlay. rewrite fold_left_app.
      split_and!; auto; [lia| |].
      * intros p Hp. rewrite Hold by (change kChunkSize with 512 in *; lia).
        rewrite concat_app, lookup_app_l; [reflexivity|].
        pose proof (uniform_length dst Hd) as Hl. unfold zlen in *. lia.
      * intros p Hp Hpe. destruct (Z.lt_ge_cases p (kChunkSize * (idx + 1))) as [Hin|Hout].
        -- destruct (Hcopy p Hp Hin) as (w & w' & H1 & H2 & H3). exists h, w, w'.
           split; [left|]. split; [exact H1|]. split; [exact H2|].
           rewrite Hold by (change kChunkSize with 512 in *; lia).
           rewrite lookup_uniform_app by (rewrite ?Hz; auto; change kChunkSize with 512 in *; lia).
           rewrite Hz. exact H3.
        -- destruct (Hnew p ltac:(lia) ltac:(lia)) as (h' & w & w' & H1 & H2). exists h', w, w'.
           split; [right; exact H1|exact H2].
Qed.

Lemma Resize_empty a n :
  arena_ok a -> 0 < n ->
  exists cs a', ResizeInternal a empty_tbl n false = (mkTbl false ∅ cs n, a') /\ uniform cs /\
    zlen cs = RequiredChunks n /\ arena_ok a'.
Proof.
  intros Ha Hn. pose proof (RequiredChunks_enough n ltac:(lia)) as [Hr _]. change kChunkSize with 512 in Hr.
  unfold ResizeInternal. cbn [empty_tbl logical_size_ base_ under_copying_ changes_].
  rewrite (proj2 (Z.eqb_neq n 0)), (proj2 (Z.ltb_ge n 0)) by lia.
  unfold EnsureChunkCount. rewrite (@zlen_nil Chunk), (proj2 (Z.leb_gt _ _)), Z.sub_0_r by lia.
  pose proof (acquire_n_ok (Z.to_nat (RequiredChunks n)) a Ha) as HA.
  destruct (acquire_n _ a) as [cs a']. destruct HA as (Hu & Hl & Ha').
  exists cs, a'. split_and!; auto. unfold zlen. lia.
Qed.

(** What other tasks write during the copy. *)
Definition yield_writes (ys : list Yield) : gmap Z Z := overlay (concat (map y_sets ys)) ∅.

Definition yields_ok (n : Z) (base : list Chunk) (ys : list Yield) : Prop :=
  zlen ys = RequiredChunks n + 1 /\ Forall (fun y => Forall (in_range n) (y_sets y)) ys /\
  convertible (map y_heap ys) base n.

Lemma overlay_range l n m :
  Forall (in_range n) l -> (forall p v, m !! p = Some v -> 0 <= p < n) ->
  forall p v, overlay l m !! p = Some v -> 0 <= p < n.
Proof.
  intros Hl. revert m. induction Hl as [|[k w] l Hk _ IH]; intros m Hm; simpl; [exact Hm|].
  apply IH. intros p v [[<- _]|[_ Hp]]%lookup_insert_Some; [exact Hk|exact (Hm _ _ Hp)].
Qed.

(** The copy loop as a whole. *)
Lemma CopyFrom_spec a src ys n :
  arena_ok a -> tbl_inv src -> under_copying_ src = true -> changes_ src = ∅ ->
  logical_size_ src = n -> 0 < n -> yields_ok n (base_ src) ys ->
  exists dst a', CopyFrom a src empty_tbl ys =
      Some (mkTbl true (yield_writes ys) (base_ src) n, dst, a') /\ arena_ok a' /\ tbl_inv dst /\
    under_copying_ dst = false /\ logical_size_ dst = n /\
    (forall p, 0 <= p < n -> copied (map y_heap ys) (base_ src) (base_ dst) p).
Proof.
  intros Ha [Hu Hsz _ _] Hc Hch Hs Hn (Hlen & Hsets & Hconv). unfold CopyFrom.
  rewrite Hs, (proj2 (Z.eqb_neq n 0)) by lia.
  destruct (Resize_empty a n Ha Hn) as (cs & a1 & -> & Hcs & Hcl & Ha1).
  pose proof (RequiredChunks_enough n ltac:(lia)) as [Hr1 Hr2].
  rewrite (proj2 (Z.eqb_neq n 0)), Z.add_0_r in Hr2 by lia.
  destruct ys as [|y ys]; [rewrite (@zlen_nil Yield) in Hlen; change kChunkSize with 512 in *; lia|].
  rewrite zlen_cons in Hlen. apply Forall_cons_1 in Hsets as [Hy Hsets].
  rewrite set_all_diverted by (auto; rewrite Hs; exact Hy). cbn [mbind option_bind]. rewrite Hs.
  destruct (copy_chunks_spec cs a1 (mkTbl true (overlay (y_sets y) (changes_ src)) (base_ src) n)
    [] 0 (y_heap y) ys n) as (dst & Hrun & Hud & Hzd & _ & Hcop); auto.
  - rewrite Hs in Hsz. apply Hsz.
  - constructor.
  - intros _. rewrite Hcl. change kChunkSize with 512 in *. lia.
  - unfold zlen in *. lia.
  - cbn [base_]. rewrite Hrun. cbn [mbind option_bind changes_]. rewrite Hch.
    exists (with_base (mkTbl false ∅ cs n) dst), a1. cbn [base_] in Hcop.
    split_and!; auto.
    + unfold yield_writes, overlay. simpl. rewrite fold_left_app. reflexivity.
    + split; cbn [with_base base_ logical_size_ under_copying_ changes_]; auto.
      * rewrite (uniform_length dst Hud), Hzd, Hcl. lia.
      * intros p v Hp. rewrite lookup_empty in Hp. discriminate Hp.
    + intros p Hp. apply Hcop; change kChunkSize with 512 in *; lia.
Qed.

(** Copying while others write: both tables end idle and of the same size; the
    source shows the writes; the copy shows them too, and elsewhere the converted
    words. *)
Lemma copy_table_spec a src ys n :
  arena_ok a -> tbl_inv src -> under_copying_ src = false -> logical_size_ src = n -> 0 < n ->
  yields_ok n (base_ src) ys ->
  exists src' dst' a', copy_table a src ys = Some (src', dst', a') /\ arena_ok a' /\
    tbl_inv src' /\ tbl_inv dst' /\ under_copying_ src' = false /\ under_copying_ dst' = false /\
    logical_size_ src' = n /\ logical_size_ dst' = n /\
    (forall p, 0 <= p < n ->
       match yield_writes ys !! p with
       | Some v => Get src' p = Some v /\ Get dst' p = Some v
       | None => Get src' p = Get src p /\
                 exists h w w', h ∈ map y_heap ys /\ Get src p = Some w /\ copy_word h w = Some w' /\
                   Get dst' p = Some w'
       end).
Proof.
  intros Ha Hinv Hc Hs Hn Hys. pose proof Hinv as [Hu Hsz Hi _].
  assert (Hwr : forall p v, yield_writes ys !! p = Some v -> 0 <= p < n).
  { apply overlay_range; [|intros p v Hp; rewrite lookup_empty in Hp; discriminate Hp].
    destruct Hys as (_ & Hsets & _). apply Forall_concat, Forall_map. exact Hsets. }
  assert (Hst : tbl_inv (StartCopying src)).
  { split; cbn [StartCopying base_ logical_size_ under_copying_ changes_];
      [exact Hu|exact Hsz|discriminate|exact (ti_keys src Hinv)]. }
  unfold copy_table.
  destruct (CopyFrom_spec a (StartCopying src) ys n Ha Hst eq_refl (Hi Hc) Hs Hn Hys)
    as (dst & a1 & -> & Ha1 & Hid & Hcd & Hsd & Hcop). cbn [mbind option_bind].
  unfold ApplyPendingTo. cbn [logical_size_ changes_]. rewrite Hsd, Z.ltb_irrefl.
  pose proof (map_to_list_range _ n Hwr) as Hrange.
  destruct (set_all_spec a1 dst (map_to_list (yield_writes ys)) Hid Ha1) as
    (dst' & a2 & -> & Hid' & Ha2 & Hcd' & Hsd' & Hgd); [rewrite Hsd; exact Hrange|].
  cbn [mbind option_bind StartCopying base_]. unfold FinishCopying. cbn [changes_].
  destruct (ApplyChanges_spec a2 (mkTbl true (yield_writes ys) (base_ src) n) (map_to_list (yield_writes ys)))
    as (base' & -> & Hu' & Hz' & Hg'); [exact Hu|cbn [logical_size_ base_]; lia|exact Hrange|].
  cbn [mbind option_bind with_base base_ logical_size_] in *.
  assert (His : tbl_inv (mkTbl false ∅ base' n)).
  { split; cbn [base_ logical_size_ under_copying_ changes_]; auto; [lia|].
    intros p v Hp. rewrite lookup_empty in Hp. discriminate Hp. }
  exists (mkTbl false ∅ base' n), dst', a2. split_and!; auto; [congruence|congruence|].
  intros p Hp.
  assert (Hgs : Get (mkTbl false ∅ base' n) p = match yield_writes ys !! p with
    | Some v => Some v | None => Get src p end).
  { rewrite Get_eq by auto. cbn [changes_ base_]. rewrite lookup_empty, Hg', overlay_map_to_list by lia.
    rewrite (Get_eq src p Hinv), (Hi Hc), lookup_empty by lia. reflexivity. }
  rewrite Hgs. specialize (Hgd p ltac:(lia)). rewrite overlay_map_to_list in Hgd. rewrite Hgd.
  destruct (yield_writes ys !! p); [auto|]. split; [reflexivity|].
  destruct (Hcop p Hp) as (h & w & w' & Hh & Hw & Hcw & Hdw). exists h, w, w'. split_and!; auto.
  - rewrite (Get_eq src p Hinv), (Hi Hc), lookup_empty by lia. exact Hw.
  - rewrite (Get_eq dst p Hid), (ti_idle _ Hid Hcd), lookup_empty by lia. exact Hdw.
Qed.

(** ** A table as an array *)
Inductive TblOp := OpSet (page_id value : Z) | OpPush (value : Z).

Fixpoint run_tbl_ops (a : Arena) (t : MappingTbl) (ops : list TblOp) : option (MappingTbl * Arena) :=
  match ops with
  | [] => Some (t, a)
  | OpSet page_id v :: ops => '(t, a) ← Set_ a t page_id v; run_tbl_ops a t ops
  | OpPush v :: ops => '(_, t, a) ← PushBack a t v; run_tbl_ops a t ops
  end.

(** The reference: a list that is overwritten and extended. *)
Definition array_op (l : list Z) (op : TblOp) : list Z :=
  match op with OpSet page_id v => <[Z.to_nat page_id := v]> l | OpPush v => l ++ [v] end.

(** The callers write existing pages, and page ids have 32 bits. *)
Fixpoint ops_ok (l : list Z) (ops : list TblOp) : Prop :=
  match ops with
  | [] => True
  | op :: ops =>
      match op with OpSet page_id _ => 0 <= page_id < zlen l | OpPush _ => zlen l < 2 ^ 32 end /\
      ops_ok (array_op l op) ops
  end.

Definition is_array (t : MappingTbl) (l : list Z) : Prop :=
  tbl_inv t /\ under_copying_ t = false /\ logical_size_ t = zlen l /\
  (forall p, 0 <= p < zlen l -> Get t p = l !! Z.to_nat p).

Lemma array_step a t l op ops :
  arena_ok a -> is_array t l -> ops_ok l (op :: ops) ->
  exists t' a', run_tbl_ops a t (op :: ops) = run_tbl_ops a' t' ops /\ arena_ok a' /\
    is_array t' (array_op l op).
Proof.
  intros Ha (Hi & Hc & Hs & Hg) [Hop _]. destruct op as [p v|v]; cbn [run_tbl_ops].
  - destruct (Set_spec a t p v Hi Ha) as (t' & a' & -> & Hi' & Ha' & Hc' & Hs' & Hp & Ho);
      [lia|congruence|]. exists t', a'. split; [reflexivity|]. split; [exact Ha'|].
    assert (Hl : zlen (array_op l (OpSet p v)) = zlen l) by (simpl; unfold zlen; rewrite length_insert; reflexivity).
    unfold is_array. rewrite Hl. split_and!; auto; [congruence|lia|].
    intros q Hq. simpl. destruct (decide (q = p)) as [->|Hne].
    + rewrite list_lookup_insert_eq; [exact Hp|unfold zlen in *; lia].
    + rewrite list_lookup_insert_ne, Ho by lia. apply Hg, Hq.
  - destruct (PushBack_spec a t v Hi Ha Hc) as (t' & a' & -> & Hi' & Ha' & Hc' & Hs' & Hp & Ho); [lia|].
    exists t', a'. split; [reflexivity|]. split; [exact Ha'|].
    assert (Hl : zlen (array_op l (OpPush v)) = zlen l + 1)
      by (simpl; rewrite zlen_app, zlen_cons, (@zlen_nil Z); lia).
    unfold is_array. rewrite Hl. split_and!; auto; [lia|].
    intros q Hq. simpl. destruct (Z.eq_dec q (zlen l)) as [->|Hne].
    + rewrite <- Hs, Hp, Hs. symmetry. apply list_lookup_middle. unfold zlen. lia.
    + rewrite Ho by lia. rewrite lookup_app_l by (unfold zlen in *; lia). apply Hg. lia.
Qed.

(** ** Properties *)

(** C28: The chunked mapping table refines an array: whatever stale content the
    arena's chunks have, after any sequence of writes to existing pages and of
    appends every page reads back what the array holds, and the size is that of
    the array. *)
Theorem mapping_table_refines_array a ops :
  arena_ok a -> ops_ok [] ops ->
  exists t a', run_tbl_ops a empty_tbl ops = Some (t, a') /\
    logical_size_ t = zlen (fold_left array_op ops []) /\
    forall p, 0 <= p < logical_size_ t -> Get t p = fold_left array_op ops [] !! Z.to_nat p.
Proof.
  assert (Hgen : forall ops a t l, arena_ok a -> is_array t l -> ops_ok l ops ->
    exists t' a', run_tbl_ops a t ops = Some (t', a') /\ is_array t' (fold_left array_op ops l)).
  { clear. induction ops as [|op ops IH]; intros a t l Ha Ht Hok; [exists t, a; auto|].
    destruct (array_step a t l op ops Ha Ht Hok) as (t1 & a1 & -> & Ha1 & Ht1).
    destruct Hok as [_ Hok]. exact (IH _ _ _ Ha1 Ht1 Hok). }
  intros Ha Hok. destruct (Hgen ops a empty_tbl [] Ha) as (t & a' & Hr & _ & _ & Hs & Hg); auto.
  - split_and!; auto; [apply empty_tbl_inv|]. intros p Hp. rewrite (@zlen_nil Z) in Hp. lia.
  - exists t, a'. rewrite Hs. auto.
Qed.

Lemma mapping_table_refines_array_witness :
  exists t a', run_tbl_ops (Some []) empty_tbl [OpPush 7; OpPush 9; OpSet 0 17] = Some (t, a') /\
    logical_size_ t = 2 /\ Get t 0 = Some 17 /\ Get t 1 = Some 9.
Proof.
  destruct (mapping_table_refines_array (Some []) [OpPush 7; OpPush 9; OpSet 0 17])
    as (t & a' & Hr & Hs & Hg).
  - constructor.
  - vm_compute. repeat split; discriminate.
  - exists t, a'. split; [exact Hr|]. change (zlen _) with 2 in Hs.
    rewrite Hs. split; [reflexivity|]. rewrite !Hg by lia. split; reflexivity.
Defined.

(** C29: Copying a mapping table while other tasks write to it, as the copy
    constructor of [PageMapper] does at every yield: if no task extends the table
    meanwhile, and a cached page keeps its file page as long as the entry that
    points to it is not rewritten, then both tables have all their pages, the
    source shows exactly the writes made meanwhile, and every logical page
    resolves to the same file page in the copy as in the source. *)
Theorem copy_while_writing a src ys n h :
  arena_ok a -> tbl_inv src -> under_copying_ src = false -> logical_size_ src = n -> 0 < n ->
  yields_ok n (base_ src) ys -> h ∈ map y_heap ys ->
  (forall p w, 0 <= p < n -> yield_writes ys !! p = None -> Get src p = Some w ->
     IsSwizzlingPointer w = true -> exists fp, 0 <= fp < 2 ^ 61 /\ forall h', h' ∈ map y_heap ys ->
       exists page, h' !! w = Some page /\ cp_file_page_id page = fp) ->
  exists src' dst' a', copy_table a src ys = Some (src', dst', a') /\
    logical_size_ src' = n /\ logical_size_ dst' = n /\
    forall p, 0 <= p < n -> exists v v', Get src' p = Some v /\ Get dst' p = Some v' /\
      ToFilePageVal h v' = ToFilePageVal h v /\
      Some v = match yield_writes ys !! p with Some w => Some w | None => Get src p end.
Proof.
  intros Ha Hi Hc Hs Hn Hys Hh Hstable.
  destruct (copy_table_spec a src ys n Ha Hi Hc Hs Hn Hys)
    as (src' & dst' & a' & Hcopy & _ & _ & _ & _ & _ & Hs1 & Hs2 & Hg).
  exists src', dst', a'. split_and!; auto. intros p Hp. specialize (Hg p Hp).
  destruct (yield_writes ys !! p) as [v|] eqn:Hw.
  - destruct Hg as [Hg1 Hg2]. exists v, v. auto.
  - destruct Hg as (Hg1 & h' & w & w' & Hh' & Hgw & Hcw & Hg2). exists w, w'.
    split; [congruence|]. split; [exact Hg2|]. split; [|congruence].
    unfold copy_word in Hcw. destruct (IsSwizzlingPointer w) eqn:Hsw; [|congruence].
    destruct (Hstable p w Hp Hw Hgw Hsw) as (fp & Hfp & Hpages).
    destruct (Hpages h' Hh') as (pg' & Hpg' & Hf'). destruct (Hpages h Hh) as (pg & Hpg & Hf).
    rewrite Hpg' in Hcw. cbn [mbind option_bind] in Hcw. destruct (cp_detached pg'); [|congruence].
    assert (w' = EncodeFilePageId fp) as -> by congruence.
    destruct (file_page_word fp Hfp) as (_ & _ & _ & ->).
    unfold ToFilePageVal, GetValType. unfold IsSwizzlingPointer in Hsw. apply Z.eqb_eq in Hsw.
    rewrite Hsw. cbn [ValType_code]. rewrite Hpg. cbn [mbind option_bind]. congruence.
Qed.

(** A table with a mapped page and a page that is being loaded. *)
Definition example_tbl : MappingTbl :=
  mkTbl false ∅ [[EncodeFilePageId 5; 16] ++ replicate 510 InvalidValue] 2.

Definition example_heap : Heap := {[16 := mkCached 9 true]}.

Definition example_yields : list Yield :=
  [mkYield [(0, EncodeFilePageId 10)] example_heap; mkYield [] example_heap].

Lemma example_tbl_inv : tbl_inv example_tbl.
Proof.
  split; [repeat constructor|vm_compute; split; discriminate|reflexivity|].
  intros p v Hp. cbn [changes_ example_tbl] in Hp. rewrite lookup_empty in Hp. discriminate Hp.
Qed.

Lemma copy_while_writing_witness :
  exists src' dst' a', copy_table None example_tbl example_yields = Some (src', dst', a') /\
    Get src' 1 = Some 16 /\ Get dst' 1 = Some (EncodeFilePageId 9) /\
    exists v v', Get src' 0 = Some v /\ Get dst' 0 = Some v' /\
      ToFilePageVal example_heap v' = ToFilePageVal example_heap v.
Proof.
  assert (Hh : forall h, h ∈ map y_heap example_yields -> h = example_heap).
  { intros h Hin. simpl in Hin. rewrite !elem_of_cons in Hin. destruct Hin as [|[|Hin]]; auto.
    inversion Hin. }
  assert (Hp01 : forall p, 0 <= p < 2 -> p = 0 \/ p = 1) by lia.
  destruct (copy_while_writing None example_tbl example_yields 2 example_heap)
    as (src' & dst' & a' & Hcopy & _ & _ & Hg).
  - exact I.
  - apply example_tbl_inv.
  - reflexivity.
  - reflexivity.
  - lia.
  - split; [reflexivity|]. split; [repeat constructor; simpl; lia|].
    intros h p w ->%Hh Hp Hw. destruct (Hp01 p Hp) as [-> | ->]; vm_compute in Hw; injection Hw as <-;
      vm_compute; eauto.
  - left.
  - intros p w Hp Hnw Hw Hsw. destruct (Hp01 p Hp) as [-> | ->]; [discriminate Hnw|].
    vm_compute in Hw. injection Hw as <-. exists 9. split; [lia|].
    intros h' ->%Hh. exists (mkCached 9 true). split; reflexivity.
  - exists src', dst', a'. split; [exact Hcopy|].
    destruct (Hg 0 ltac:(lia)) as (v & v' & H1 & H2 & H3 & _).
    assert (Hrun : copy_table None example_tbl example_yields = Some (src', dst', a')) by exact Hcopy.
    vm_compute in Hrun. injection Hrun as <- <- _.
    split; [reflexivity|]. split; [reflexivity|]. exists v, v'. auto.
Defined.

(** The guard of [CopyFrom] against pointers to pages that are still being
    loaded does not cover writes made during the copy: a page whose load starts
    at a yield of the copy is put into the copy as a pointer to a detached page,
    which the owner of the load will not reset there when the load fails. *)
Theorem copy_shares_detached_pointer :
  exists src ys src' dst' a' p ptr page,
    tbl_inv src /\ under_copying_ src = false /\ yields_ok (logical_size_ src) (base_ src) ys /\
    Get src p = Some (EncodeFilePageId (cp_file_page_id page)) /\
    copy_table None src ys = Some (src', dst', a') /\
    Get dst' p = Some ptr /\ IsSwizzlingPointer ptr = true /\
    (forall y, y ∈ ys -> y_heap y !! ptr = Some page) /\ cp_detached page = true.
Proof.
  pose (ys := [mkYield [(0, 24)] {[24 := mkCached 5 true; 16 := mkCached 9 true]};
               mkYield [] {[24 := mkCached 5 true; 16 := mkCached 9 true]}]).
  assert (Hh : forall h, h ∈ map y_heap ys -> h = {[24 := mkCached 5 true; 16 := mkCached 9 true]}).
  { intros h Hin. simpl in Hin. rewrite !elem_of_cons in Hin. destruct Hin as [|[|Hin]]; auto.
    inversion Hin. }
  exists example_tbl, ys. do 3 eexists. exists 0, 24, (mkCached 5 true).
  split; [apply example_tbl_inv|]. split; [reflexivity|]. split.
  { split; [reflexivity|]. split; [repeat constructor; simpl; lia|].
    intros h p w ->%Hh Hp Hw. change (logical_size_ example_tbl) with 2 in Hp.
    assert (p = 0 \/ p = 1) as [-> | ->] by lia; vm_compute in Hw; injection Hw as <-; vm_compute; eauto. }
  split; [reflexivity|]. split; [vm_compute; reflexivity|]. split; [reflexivity|].
  split; [reflexivity|]. split; [|reflexivity].
  intros y Hy. rewrite (Hh (y_heap y)); [reflexivity|]. apply list_elem_of_In, in_map, list_elem_of_In, Hy.
Qed.

(** C40: A write that extends a table while it is being copied is accepted and
    can be read, but [FinishCopying] succeeds exactly when the new id still lies in
    the chunks that the table had before: beyond them it assigns outside the chunk
    vector, since [ApplyChanges] compares with the size that [Set] has already
    raised and so never grows the vector. *)
Theorem growth_during_copy_out_of_range a t page_id v :
  tbl_inv t -> under_copying_ t = false -> logical_size_ t <= page_id ->
  exists t', Set_ a (StartCopying t) page_id v = Some (t', a) /\
    logical_size_ t' = page_id + 1 /\ Get t' page_id = Some v /\
    (FinishCopying a t' = None <-> zlen (concat (base_ t)) <= page_id).
Proof.
  intros Hi Hc Hp. pose proof (ti_size t Hi) as Hs. pose proof (ti_uniform t Hi) as Hu.
  unfold Set_. cbn [StartCopying under_copying_ logical_size_ changes_ base_].
  rewrite (proj2 (Z.ltb_lt _ _)), (ti_idle t Hi Hc) by lia. eexists. split; [reflexivity|].
  split; [reflexivity|]. split; [unfold Get; cbn; rewrite lookup_insert_eq; reflexivity|].
  unfold FinishCopying. cbn [changes_]. rewrite insert_empty, map_to_list_singleton. cbn [ApplyChanges].
  unfold apply_change. cbn [logical_size_]. rewrite Z.ltb_irrefl. cbn [base_]. split.
  - intros Hf. destruct (Z.le_gt_cases (zlen (concat (base_ t))) page_id) as [|Hlt]; [assumption|].
    destruct (set_slot_concat (base_ t) page_id v Hu ltac:(lia)) as (base' & Hset & _). rewrite Hset in Hf. discriminate Hf.
  - intros Hout. assert (Hnone : set_slot (base_ t) page_id v = None); [|rewrite Hnone; reflexivity].
    unfold set_slot. destruct (slot_index page_id ltac:(zlia)) as (q & r & Hr & Hpq & -> & ->).
    rewrite lookup_ge_None_2; [reflexivity|].
    rewrite uniform_length in Hout by exact Hu. unfold zlen in Hout. change kChunkSize with 512 in Hout. lia.
Qed.

Lemma growth_during_copy_out_of_range_witness :
  exists t', Set_ None (StartCopying example_tbl) 512 15 = Some (t', None) /\
    logical_size_ t' = 513 /\ Get t' 512 = Some 15 /\ FinishCopying None t' = None.
Proof.
  destruct (growth_during_copy_out_of_range None example_tbl 512 15 example_tbl_inv eq_refl ltac:(vm_compute; discriminate))
    as (t' & H1 & H2 & H3 & H4).
  exists t'. split; [exact H1|]. split; [exact H2|]. split; [exact H3|]. apply H4. vm_compute. discriminate.
Defined.

(** [EncodePageId] shifts in the 32 bits of a page id, so a free-list link to
    a page id of 2^29 or more decodes to a different page; below that the link is
    faithful. *)
Theorem page_id_link_width id :
  0 <= id < 2 ^ 32 -> (DecodeId (EncodePageId id) = id <-> id < 2 ^ 29).
Proof.
  intros Hid. split; [|intros H; apply page_id_word; lia]. intros Hd.
  unfold EncodePageId, DecodeId in Hd. change TypeBits with 3 in Hd.
  rewrite Z.shiftr_lor in Hd. change (Z.shiftr (ValType_code PageIdVal) 3) with 0 in Hd.
  rewrite Z.lor_0_r, Z.shiftl_mul_pow2, Z.shiftr_div_pow2 in Hd by lia.
  change (2 ^ 3) with 8 in Hd. unfold u32 in Hd.
  pose proof (Z.mod_pos_bound (id * 8) (2 ^ 32) ltac:(lia)).
  assert (id * 8 mod 2 ^ 32 / 8 < 2 ^ 29) by (apply Z.div_lt_upper_bound; lia). lia.
Qed.

Lemma page_id_link_width_witness : DecodeId (EncodePageId (2 ^ 29)) = 0 /\ ~ 2 ^ 29 < 2 ^ 29.
Proof.
  split; [reflexivity|]. intros H. apply (page_id_link_width (2 ^ 29) ltac:(lia)) in H. discriminate H.
Defined.
