(* ===== verification/PageMapper.v ===== *)
(** * Page mapper and file page allocators (src/storage/page_mapper.cpp)

    [PageMapper] hands out logical page ids from a free list that is threaded
    through the mapping table itself, and [FilePageAllocator] hands out file
    pages: the append allocator in sequence, the pooled one from the pages that
    were given back. *)

From stdpp Require Import gmap.
From S2P Require Import Prelude IndexPageIter MappingTable.

(** ** File page allocators *)
Record AppendStat := mkAppendStat {
  min_file_id_ : Z;
  empty_file_cnt_ : Z
}.

Inductive AllocatorKind :=
| AppendAllocator (stat : AppendStat)
| PooledFilePages (free_ids_ : list Z).

Record FilePageAllocator := mkAllocator {
  pages_per_file_shift_ : Z;
  max_fp_id_ : Z;
  alloc_kind : AllocatorKind
}.

(** [FilePageAllocator::Instance]. *)
Definition AllocatorInstance (shift : Z) (data_append_mode : bool) : FilePageAllocator :=
  mkAllocator shift 0
    (if data_append_mode then AppendAllocator (mkAppendStat 0 0) else PooledFilePages []).

Definition CurrentFileId (al : FilePageAllocator) : Z := Z.shiftr (max_fp_id_ al) (pages_per_file_shift_ al).

Definition PagesPerFile (al : FilePageAllocator) : Z := u32 (Z.shiftl 1 (pages_per_file_shift_ al)).

(** [Allocate]; the free ids are used from the back of the vector. *)
Definition Allocate (al : FilePageAllocator) : Z * FilePageAllocator :=
  match alloc_kind al with
  | PooledFilePages (id :: ids) =>
      (id, mkAllocator (pages_per_file_shift_ al) (max_fp_id_ al) (PooledFilePages ids))
  | _ => (max_fp_id_ al, mkAllocator (pages_per_file_shift_ al) (u64 (max_fp_id_ al + 1)) (alloc_kind al))
  end.

(** [PooledFilePages::Free]: appends to the back, which is the front here; the
    vector stores 32-bit ids. *)
Definition PoolFree (al : FilePageAllocator) (fp_ids : list Z) : FilePageAllocator :=
  match alloc_kind al with
  | PooledFilePages ids =>
      mkAllocator (pages_per_file_shift_ al) (max_fp_id_ al) (PooledFilePages (reverse (map u32 fp_ids) ++ ids))
  | AppendAllocator _ => al
  end.

(** [AppendAllocator::UpdateStat]. *)
Definition UpdateStat (al : FilePageAllocator) (min_file_id hole_cnt : Z) : FilePageAllocator :=
  let new_min_fp_id := u64 (Z.shiftl min_file_id (pages_per_file_shift_ al)) in
  let max_fp_id := if max_fp_id_ al <? new_min_fp_id then new_min_fp_id else max_fp_id_ al in
  mkAllocator (pages_per_file_shift_ al) max_fp_id (AppendAllocator (mkAppendStat min_file_id hole_cnt)).

(** [AppendAllocator::SpaceSize]; the hole count is shifted in 32 bits. *)
Definition SpaceSize (al : FilePageAllocator) (s : AppendStat) : Z :=
  let min_fp_id := u64 (Z.shiftl (min_file_id_ s) (pages_per_file_shift_ al)) in
  u64 (u64 (max_fp_id_ al - min_fp_id) - u32 (Z.shiftl (empty_file_cnt_ s) (pages_per_file_shift_ al))).

(** ** The page mapper *)
Record PageMapper := mkMapper {
  mapping_tbl_ : MappingTbl;
  free_page_head_ : Z;
  free_page_cnt_ : Z;
  file_page_allocator_ : FilePageAllocator
}.

Definition new_mapper (al : FilePageAllocator) : PageMapper := mkMapper empty_tbl MaxPageId 0 al.

(** [GetNextFree]. *)
Definition GetNextFree (t : MappingTbl) (page_id : Z) : option Z :=
  val ← Get t page_id;
  Some (if val =? InvalidValue then MaxPageId else u32 (DecodeId val)).

(** [PageMapper::GetPage]. *)
Definition GetPage (a : Arena) (m : PageMapper) : option (Z * PageMapper * Arena) :=
  if free_page_head_ m =? MaxPageId then
    '(page_id, t, a) ← PushBack a (mapping_tbl_ m) InvalidValue;
    Some (page_id, mkMapper t (free_page_head_ m) (free_page_cnt_ m) (file_page_allocator_ m), a)
  else
    let free_page := free_page_head_ m in
    next ← GetNextFree (mapping_tbl_ m) free_page;
    '(t, a) ← Set_ a (mapping_tbl_ m) free_page InvalidValue;
    Some (free_page, mkMapper t next (u32 (free_page_cnt_ m - 1)) (file_page_allocator_ m), a).

(** [PageMapper::FreePage]. *)
Definition FreePage (a : Arena) (m : PageMapper) (page_id : Z) : option (PageMapper * Arena) :=
  let val := if free_page_head_ m =? MaxPageId then InvalidValue else EncodePageId (free_page_head_ m) in
  '(t, a) ← Set_ a (mapping_tbl_ m) page_id val;
  Some (mkMapper t page_id (u32 (free_page_cnt_ m + 1)) (file_page_allocator_ m), a).

(** [PageMapper::UpdateMapping]. *)
Definition UpdateMapping (a : Arena) (m : PageMapper) (page_id file_page_id : Z)
    : option (PageMapper * Arena) :=
  '(t, a) ← Set_ a (mapping_tbl_ m) page_id (EncodeFilePageId file_page_id);
  Some (mkMapper t (free_page_head_ m) (free_page_cnt_ m) (file_page_allocator_ m), a).

Definition MappingCount (m : PageMapper) : Z := u32 (logical_size_ (mapping_tbl_ m) - free_page_cnt_ m).

(** [MappingSnapshot::ToFilePage] of a page id. *)
Definition ToFilePage (h : Heap) (t : MappingTbl) (page_id : Z) : option Z :=
  if page_id =? MaxPageId then Some MaxFilePageId
  else val ← Get t page_id; ToFilePageVal h val.

(** ** The free list *)

(** The word that links to the page [head]. *)
Definition free_link (head : Z) : Z := if head =? MaxPageId then InvalidValue else EncodePageId head.

Definition list_head (l : list Z) : Z := match l with [] => MaxPageId | p :: _ => p end.

(** The pages of [l] are linked through the table. *)
Fixpoint free_chain (t : MappingTbl) (l : list Z) : Prop :=
  match l with
  | [] => True
  | p :: l' => 0 <= p < logical_size_ t /\ Get t p = Some (free_link (list_head l')) /\ free_chain t l'
  end.

Definition max_pages : Z := 2 ^ 29.

(** [l] are the free pages; every other page of the table is in use. *)
Record mapper_inv (m : PageMapper) (l : list Z) : Prop := {
  mi_tbl : tbl_inv (mapping_tbl_ m);
  mi_idle : under_copying_ (mapping_tbl_ m) = false;
  mi_size : logical_size_ (mapping_tbl_ m) <= max_pages;
  mi_head : free_page_head_ m = list_head l;
  mi_chain : free_chain (mapping_tbl_ m) l;
  mi_nodup : NoDup l;
  mi_cnt : free_page_cnt_ m = zlen l
}.

Definition in_use (m : PageMapper) (l : list Z) (p : Z) : Prop :=
  0 <= p < logical_size_ (mapping_tbl_ m) /\ p ∉ l.

Lemma free_chain_range t l p : free_chain t l -> p ∈ l -> 0 <= p < logical_size_ t.
Proof.
  induction l as [|q l IH]; simpl; intros Hc Hp; [inversion Hp|].
  destruct Hc as (Hq & _ & Hc). apply elem_of_cons in Hp as [->|Hp]; auto.
Qed.

Lemma free_chain_frame t t' l :
  free_chain t l -> logical_size_ t <= logical_size_ t' ->
  (forall p, p ∈ l -> Get t' p = Get t p) -> free_chain t' l.
Proof.
  induction l as [|q l IH]; simpl; intros Hc Hs Hg; [exact I|].
  destruct Hc as (Hq & Hl & Hc). split; [lia|]. split; [rewrite Hg by left; exact Hl|].
  apply IH; auto. intros p Hp. apply Hg. right. exact Hp.
Qed.

Lemma list_head_range t l : free_chain t l -> logical_size_ t <= max_pages ->
  (l = [] /\ list_head l = MaxPageId) \/ (l <> [] /\ 0 <= list_head l < max_pages).
Proof.
  destruct l as [|p l]; [auto|]. intros (Hp & _) Hs. right. split; [discriminate|]. simpl. lia.
Qed.

(** The link of a free page leads to the next one. *)
Lemma GetNextFree_chain t p l :
  free_chain t (p :: l) -> logical_size_ t <= max_pages -> GetNextFree t p = Some (list_head l).
Proof.
  intros (_ & Hg & Hc) Hs. unfold GetNextFree. rewrite Hg. cbn [mbind option_bind]. unfold free_link.
  destruct (list_head_range t l Hc Hs) as [[_ ->]|[_ Hr]]; [reflexivity|].
  unfold max_pages in Hr. rewrite (proj2 (Z.eqb_neq _ MaxPageId)) by (change MaxPageId with (2 ^ 32 - 1); lia).
  destruct (page_id_word _ Hr) as (Hne & Hd & _). rewrite (proj2 (Z.eqb_neq _ _)) by exact Hne.
  rewrite Hd, u32_id by (unfold is_u32; lia). reflexivity.
Qed.

(** The table determines the free list. *)
Lemma free_list_unique m l l' : mapper_inv m l -> mapper_inv m l' -> l = l'.
Proof.
  intros [_ _ Hs Hh Hc _ Hn] [_ _ _ Hh' Hc' _ Hn']. rewrite Hh in Hh'. rewrite Hn in Hn'.
  clear Hh Hn. revert l' Hh' Hc' Hn'. induction l as [|p l IH]; intros [|q l'] Hh Hc' Hn; auto.
  - rewrite zlen_cons, (@zlen_nil Z) in Hn. zlia.
  - rewrite zlen_cons, (@zlen_nil Z) in Hn. zlia.
  - rewrite !zlen_cons in Hn. simpl in Hh. subst q. f_equal.
    pose proof (GetNextFree_chain _ _ _ Hc Hs) as H1. pose proof (GetNextFree_chain _ _ _ Hc' Hs) as H2.
    destruct Hc as (_ & _ & Hc). destruct Hc' as (_ & _ & Hc'). apply (IH Hc); auto; [congruence|lia].
Qed.

Lemma new_mapper_inv al : mapper_inv (new_mapper al) [].
Proof.
  split; cbn; auto; [apply empty_tbl_inv|unfold max_pages; lia|constructor].
Qed.

(** Removing from the middle of a duplicate-free list of table pages bounds its length. *)
Lemma free_count_bound m l : mapper_inv m l -> zlen l <= logical_size_ (mapping_tbl_ m).
Proof.
  intros Hm. pose proof (mi_chain m l Hm) as Hc. pose proof (mi_nodup m l Hm) as Hnd.
  set (n := logical_size_ (mapping_tbl_ m)) in *.
  assert (Hincl : l ⊆ seqZ 0 n).
  { intros p Hp. apply elem_of_seqZ. pose proof (free_chain_range _ _ _ Hc Hp). lia. }
  pose proof (submseteq_length _ _ (NoDup_submseteq _ _ Hnd Hincl)) as Hle.
  rewrite length_seqZ in Hle. unfold zlen. pose proof (ti_size _ (mi_tbl m l Hm)). unfold n in *. lia.
Qed.

(** ** The operations *)
Lemma GetPage_spec a m l :
  mapper_inv m l -> arena_ok a -> logical_size_ (mapping_tbl_ m) < max_pages ->
  exists id m' a', GetPage a m = Some (id, m', a') /\ arena_ok a' /\ mapper_inv m' (tail l) /\
    id = match l with [] => logical_size_ (mapping_tbl_ m) | p :: _ => p end /\
    logical_size_ (mapping_tbl_ m') = Z.max (logical_size_ (mapping_tbl_ m)) (id + 1) /\
    Get (mapping_tbl_ m') id = Some InvalidValue /\
    (forall p, 0 <= p < logical_size_ (mapping_tbl_ m) -> p <> id -> Get (mapping_tbl_ m') p = Get (mapping_tbl_ m) p) /\
    file_page_allocator_ m' = file_page_allocator_ m.
Proof.
  intros Hm Ha Hs. pose proof Hm as [Ht Hc Hsz Hh Hch Hnd Hcnt]. unfold GetPage. rewrite Hh.
  pose proof (ti_size _ Ht) as Hsz0. unfold max_pages in *. destruct l as [|p l].
  - cbn [list_head]. rewrite Z.eqb_refl.
    destruct (PushBack_spec a _ InvalidValue Ht Ha Hc) as (t' & a' & -> & Hi' & Ha' & Hc' & Hs' & Hg & Ho); [lia|].
    cbn [mbind option_bind]. do 3 eexists. split; [reflexivity|]. split; [exact Ha'|].
    split; [|cbn [mapping_tbl_ file_page_allocator_]; split_and!; auto; lia].
    split; cbn; auto. unfold max_pages. lia.
  - destruct Hch as (Hp & Hg & Hch).
    assert (p < MaxPageId) by (change MaxPageId with (2 ^ 32 - 1); lia).
    cbn [list_head]. rewrite (proj2 (Z.eqb_neq p MaxPageId)) by lia.
    rewrite (GetNextFree_chain _ p l) by (try exact Hsz; split; auto). cbn [mbind option_bind].
    destruct (Set_spec a _ p InvalidValue Ht Ha) as (t' & a' & -> & Hi' & Ha' & Hc' & Hs' & Hgp & Ho);
      [lia|intros _; lia|]. cbn [mbind option_bind]. do 3 eexists. split; [reflexivity|]. split; [exact Ha'|].
    inversion_clear Hnd as [|? ? Hpl Hnd'].
    assert (0 <= zlen l < 2 ^ 32) by (pose proof (free_count_bound m _ Hm) as Hb; rewrite zlen_cons in Hb; zlia).
    split; [|cbn [mapping_tbl_ file_page_allocator_]; split_and!; auto].
    split; cbn; auto.
    + congruence.
    + unfold max_pages. lia.
    + apply (free_chain_frame (mapping_tbl_ m)); [exact Hch|lia|]. intros q Hq. apply Ho.
      * exact (free_chain_range _ _ _ Hch Hq).
      * intros ->. contradiction.
    + rewrite Hcnt, zlen_cons, u32_id; [lia|]. unfold is_u32. lia.
Qed.

Lemma FreePage_spec a m l p :
  mapper_inv m l -> arena_ok a -> in_use m l p ->
  exists m' a', FreePage a m p = Some (m', a') /\ arena_ok a' /\ mapper_inv m' (p :: l) /\
    logical_size_ (mapping_tbl_ m') = logical_size_ (mapping_tbl_ m) /\
    (forall q, 0 <= q < logical_size_ (mapping_tbl_ m) -> q <> p -> Get (mapping_tbl_ m') q = Get (mapping_tbl_ m) q) /\
    file_page_allocator_ m' = file_page_allocator_ m.
Proof.
  intros Hm Ha [Hp Hpl]. pose proof Hm as [Ht Hc Hsz Hh Hch Hnd Hcnt]. unfold FreePage.
  fold (free_link (free_page_head_ m)).
  destruct (Set_spec a _ p (free_link (free_page_head_ m)) Ht Ha)
    as (t' & a' & -> & Hi' & Ha' & Hc' & Hs' & Hgp & Ho); [lia|intros _; lia|].
  cbn [mbind option_bind]. do 2 eexists. split; [reflexivity|]. split; [exact Ha'|].
  cbn [mapping_tbl_ file_page_allocator_]. split; [|split_and!; auto; lia].
  split; cbn; auto; [congruence|lia| | |].
  - split; [lia|]. split; [rewrite <- Hh; exact Hgp|].
    apply (free_chain_frame (mapping_tbl_ m)); [exact Hch|lia|]. intros q Hq. apply Ho.
    + exact (free_chain_range _ _ _ Hch Hq).
    + intros ->. contradiction.
  - constructor; assumption.
  - pose proof (free_count_bound m l Hm). unfold max_pages in *.
    rewrite Hcnt, zlen_cons, u32_id; [lia|]. unfold is_u32. zlia.
Qed.

Lemma UpdateMapping_spec a m l p fp :
  mapper_inv m l -> arena_ok a -> in_use m l p ->
  exists m' a', UpdateMapping a m p fp = Some (m', a') /\ arena_ok a' /\ mapper_inv m' l /\
    logical_size_ (mapping_tbl_ m') = logical_size_ (mapping_tbl_ m) /\
    Get (mapping_tbl_ m') p = Some (EncodeFilePageId fp) /\
    (forall q, 0 <= q < logical_size_ (mapping_tbl_ m) -> q <> p -> Get (mapping_tbl_ m') q = Get (mapping_tbl_ m) q) /\
    file_page_allocator_ m' = file_page_allocator_ m.
Proof.
  intros Hm Ha [Hp Hpl]. pose proof Hm as [Ht Hc Hsz Hh Hch Hnd Hcnt]. unfold UpdateMapping.
  destruct (Set_spec a _ p (EncodeFilePageId fp) Ht Ha)
    as (t' & a' & -> & Hi' & Ha' & Hc' & Hs' & Hgp & Ho); [lia|intros _; lia|].
  cbn [mbind option_bind]. do 2 eexists. split; [reflexivity|]. split; [exact Ha'|].
  cbn [mapping_tbl_ file_page_allocator_]. split; [|split_and!; auto; lia].
  split; cbn; auto; [congruence|lia|].
  apply (free_chain_frame (mapping_tbl_ m)); [exact Hch|lia|]. intros q Hq. apply Ho.
  - exact (free_chain_range _ _ _ Hch Hq).
  - intros ->. contradiction.
Qed.

(** ** Histories of a mapper *)

(** [used] are the pages handed out and not yet freed; callers free and remap
    only such pages. *)
Inductive mapper_reach (al : FilePageAllocator) : PageMapper -> Arena -> gset Z -> Prop :=
| reach_new a : arena_ok a -> mapper_reach al (new_mapper al) a ∅
| reach_get m a used id m' a' :
    mapper_reach al m a used -> logical_size_ (mapping_tbl_ m) < max_pages ->
    GetPage a m = Some (id, m', a') -> mapper_reach al m' a' ({[id]} ∪ used)
| reach_free m a used p m' a' :
    mapper_reach al m a used -> p ∈ used -> FreePage a m p = Some (m', a') ->
    mapper_reach al m' a' (used ∖ {[p]})
| reach_update m a used p fp m' a' :
    mapper_reach al m a used -> p ∈ used -> UpdateMapping a m p fp = Some (m', a') ->
    mapper_reach al m' a' used.

Definition reach_ok (m : PageMapper) (a : Arena) (used : gset Z) (l : list Z) : Prop :=
  arena_ok a /\ mapper_inv m l /\ forall p, p ∈ used <-> in_use m l p.

Lemma GetPage_ok m a used l id m' a' :
  reach_ok m a used l -> logical_size_ (mapping_tbl_ m) < max_pages ->
  GetPage a m = Some (id, m', a') -> (id ∉ used) /\ reach_ok m' a' ({[id]} ∪ used) (tail l).
Proof.
  intros (Ha & Hm & Hu) Hs Hget.
  destruct (GetPage_spec a m l Hm Ha Hs) as (id1 & m1 & a1 & Hget1 & Ha1 & Hm1 & Hid & Hs1 & _).
  assert (id1 = id /\ m1 = m' /\ a1 = a') as (-> & -> & ->) by (rewrite Hget in Hget1; injection Hget1; auto).
  pose proof (ti_size _ (mi_tbl m l Hm)). pose proof (mi_nodup m l Hm) as Hnd.
  assert (Hnew : (id ∉ used) /\ (id ∉ tail l) /\ forall p, 0 <= p < logical_size_ (mapping_tbl_ m') ->
    p <> id -> p ∉ tail l -> 0 <= p < logical_size_ (mapping_tbl_ m) /\ p ∉ l).
  { rewrite Hu. destruct l as [|q l]; simpl in *.
    - split; [intros [Hr _]; lia|]. split; [intros Hin; inversion Hin|].
      intros p Hp Hne _. split; [lia|]. intros Hin. inversion Hin.
    - subst id. inversion_clear Hnd as [|? ? Hql Hnd']. split; [intros [_ Hn]; apply Hn; left|].
      split; [exact Hql|]. intros p Hp Hne Hpl.
      pose proof (free_chain_range _ _ q (mi_chain m _ Hm) ltac:(left)). split; [lia|].
      rewrite elem_of_cons. intros [->|Hin]; contradiction. }
  destruct Hnew as (Hf & Hnt & Hback). split; [exact Hf|]. split; [exact Ha1|]. split; [exact Hm1|].
  intros p. rewrite elem_of_union, elem_of_singleton, Hu. unfold in_use. split.
  - intros [->|[Hp Hpl]]; [split; [|exact Hnt]|].
    + rewrite Hs1. destruct l; simpl in Hid; [lia|]. subst id.
      pose proof (free_chain_range _ _ z (mi_chain m _ Hm) ltac:(left)). lia.
    + split; [lia|]. intros Hin. apply Hpl. destruct l; [inversion Hin|right; exact Hin].
  - intros [Hp Hpl]. destruct (decide (p = id)) as [->|Hne]; [auto|right]. auto.
Qed.

Lemma FreePage_ok m a used l p m' a' :
  reach_ok m a used l -> p ∈ used -> FreePage a m p = Some (m', a') ->
  reach_ok m' a' (used ∖ {[p]}) (p :: l).
Proof.
  intros (Ha & Hm & Hu) Hp Hfree. apply Hu in Hp.
  destruct (FreePage_spec a m l p Hm Ha Hp) as (m1 & a1 & Hfree1 & Ha1 & Hm1 & Hs1 & _).
  assert (m1 = m' /\ a1 = a') as (-> & ->) by (rewrite Hfree in Hfree1; injection Hfree1; auto).
  split; [exact Ha1|]. split; [exact Hm1|]. intros q.
  rewrite elem_of_difference, elem_of_singleton, Hu. unfold in_use. rewrite Hs1, not_elem_of_cons. tauto.
Qed.

Lemma mapper_reach_ok al m a used : mapper_reach al m a used -> exists l, reach_ok m a used l.
Proof.
  induction 1 as [a Ha|m a used id m' a' _ [l IH] Hs Hget|m a used p m' a' _ [l IH] Hp Hfree
                 |m a used p fp m' a' _ [l IH] Hp Hupd].
  - exists []. split; [exact Ha|]. split; [apply new_mapper_inv|].
    intros p. split; [intros Hp; set_solver|]. intros [Hp _]. cbn in Hp. lia.
  - exists (tail l). apply (GetPage_ok m a used l id m' a' IH Hs Hget).
  - exists (p :: l). exact (FreePage_ok m a used l p m' a' IH Hp Hfree).
  - exists l. destruct IH as (Ha & Hm & Hu). apply Hu in Hp.
    destruct (UpdateMapping_spec a m l p fp Hm Ha Hp) as (m1 & a1 & Hu1 & Ha1 & Hm1 & Hs1 & _).
    assert (m1 = m' /\ a1 = a') as (-> & ->) by (rewrite Hupd in Hu1; injection Hu1; auto).
    split; [exact Ha1|]. split; [exact Hm1|]. intros q. rewrite Hu. unfold in_use. rewrite Hs1. tauto.
Qed.

Lemma used_count m a used l :
  reach_ok m a used l -> Z.of_nat (size used) = logical_size_ (mapping_tbl_ m) - zlen l.
Proof.
  intros (_ & Hm & Hu). set (n := logical_size_ (mapping_tbl_ m)).
  pose proof (ti_size _ (mi_tbl m l Hm)) as Hn. fold n in Hn.
  assert (Heq : used = list_to_set (seqZ 0 n) ∖ list_to_set l).
  { apply set_eq. intros p. rewrite Hu, elem_of_difference, !elem_of_list_to_set, elem_of_seqZ.
    unfold in_use. fold n. rewrite Z.add_0_l. tauto. }
  rewrite Heq, size_difference.
  - rewrite !size_list_to_set by (try apply NoDup_seqZ; apply (mi_nodup m l Hm)).
    rewrite length_seqZ. pose proof (free_count_bound m l Hm). unfold zlen in *. fold n in H. lia.
  - intros p. rewrite !elem_of_list_to_set, elem_of_seqZ. intros Hp.
    pose proof (free_chain_range _ _ _ (mi_chain m l Hm) Hp). unfold n. lia.
Qed.

(** ** Histories of an allocator *)

(** [live] are the file pages allocated and not given back. *)
Inductive alloc_reach (shift : Z) (append : bool) : FilePageAllocator -> gset Z -> Prop :=
| ar_new : alloc_reach shift append (AllocatorInstance shift append) ∅
| ar_alloc al live :
    alloc_reach shift append al live -> max_fp_id_ al < 2 ^ 32 - 1 ->
    alloc_reach shift append (snd (Allocate al)) ({[fst (Allocate al)]} ∪ live)
| ar_free al live fps :
    alloc_reach shift append al live -> NoDup fps -> Forall (fun p => p ∈ live) fps ->
    alloc_reach shift append (PoolFree al fps) (live ∖ list_to_set fps).

Definition free_ids (al : FilePageAllocator) : list Z :=
  match alloc_kind al with PooledFilePages ids => ids | AppendAllocator _ => [] end.

Record alloc_ok (al : FilePageAllocator) (live : gset Z) : Prop := {
  ao_max : 0 <= max_fp_id_ al < 2 ^ 32;
  ao_live : forall p, p ∈ live -> 0 <= p < max_fp_id_ al;
  ao_free : forall p, p ∈ free_ids al -> 0 <= p < max_fp_id_ al;
  ao_nodup : NoDup (free_ids al);
  ao_disj : forall p, p ∈ free_ids al -> p ∉ live
}.

Lemma Allocate_ok al live :
  alloc_ok al live -> max_fp_id_ al < 2 ^ 32 - 1 ->
  (fst (Allocate al) ∉ live) /\ alloc_ok (snd (Allocate al)) ({[fst (Allocate al)]} ∪ live).
Proof.
  intros [Hm Hl Hf Hnd Hd] Hlt. unfold Allocate, free_ids in *.
  assert (Hseq : alloc_ok (mkAllocator (pages_per_file_shift_ al) (u64 (max_fp_id_ al + 1)) (alloc_kind al))
    ({[max_fp_id_ al]} ∪ live)).
  { rewrite u64_id by (unfold is_u64; lia). split; unfold free_ids; cbn [max_fp_id_ alloc_kind]; [lia| | |exact Hnd|].
    - intros p [->%elem_of_singleton|Hp]%elem_of_union; [lia|]. apply Hl in Hp. lia.
    - intros p Hp. apply Hf in Hp. lia.
    - intros p Hp [->%elem_of_singleton|Hin]%elem_of_union; [apply Hf in Hp; lia|]. exact (Hd p Hp Hin). }
  assert (Hfresh : max_fp_id_ al ∉ live) by (intros Hin; apply Hl in Hin; lia).
  destruct (alloc_kind al) as [st|[|id ids]] eqn:Hk; cbn [fst snd]; [auto|auto|].
  split; [apply Hd; left|]. inversion_clear Hnd as [|? ? Hid Hnd'].
  split; unfold free_ids; cbn [max_fp_id_ alloc_kind]; auto.
  - intros p [->%elem_of_singleton|Hp]%elem_of_union; [apply (Hf id), elem_of_cons; auto|auto].
  - intros p Hp. apply Hf. right. exact Hp.
  - intros p Hp [->%elem_of_singleton|Hin]%elem_of_union; [contradiction|].
    apply (Hd p); [right; exact Hp|exact Hin].
Qed.

Lemma PoolFree_ok al live fps :
  alloc_ok al live -> NoDup fps -> Forall (fun p => p ∈ live) fps ->
  alloc_ok (PoolFree al fps) (live ∖ list_to_set fps).
Proof.
  intros [Hm Hl Hf Hnd Hd] Hfp Hin. rewrite Forall_forall in Hin.
  assert (Hin' : forall p, p ∈ fps -> p ∈ live) by (intros p Hp; apply Hin, list_elem_of_In, Hp).
  assert (Hu : map u32 fps = fps).
  { rewrite <- (map_id fps) at 2. apply map_ext_in. intros p Hp. apply u32_id.
    specialize (Hl p (Hin p Hp)). unfold is_u32. lia. }
  unfold PoolFree, free_ids in *. destruct (alloc_kind al) as [st|ids] eqn:Hk.
  - split; unfold free_ids; rewrite ?Hk; auto; intros p Hp.
    + apply elem_of_difference in Hp as [Hp _]. auto.
    + inversion Hp.
  - assert (Hmem : forall p, p ∈ reverse fps ++ ids <-> p ∈ fps \/ p ∈ ids)
      by (intros p; rewrite elem_of_app, elem_of_reverse; tauto).
    rewrite Hu. split; unfold free_ids; cbn [max_fp_id_ alloc_kind]; auto.
    + intros p [Hp _]%elem_of_difference. auto.
    + intros p Hp%Hmem. destruct Hp; auto.
    + apply list.NoDup_app. split; [rewrite reverse_Permutation; exact Hfp|].
      split; [|exact Hnd]. intros p Hp Hp'. rewrite elem_of_reverse in Hp.
      exact (Hd p Hp' (Hin' p Hp)).
    + intros p Hp%Hmem. rewrite elem_of_difference, elem_of_list_to_set.
      destruct Hp as [Hp|Hp]; [tauto|]. intros [Hlv _]. exact (Hd p Hp Hlv).
Qed.

Lemma alloc_reach_ok shift append al live : alloc_reach shift append al live -> alloc_ok al live.
Proof.
  induction 1 as [|al live _ IH Hlt|al live fps _ IH Hnd Hin].
  - assert (Hf : free_ids (AllocatorInstance shift append) = []) by (destruct append; reflexivity).
    split; rewrite ?Hf; [cbn; lia|set_solver|set_solver|constructor|set_solver].
  - apply Allocate_ok; assumption.
  - apply PoolFree_ok; assumption.
Qed.

(** ** Properties *)

(** C31: Logical page ids: in every history of [GetPage], [FreePage] and
    [UpdateMapping] in which callers free and remap only pages they hold, the free
    list is a chain of links without repetition that ends, an id of the table is
    in use exactly when it is not on the list, [MappingCount] is the number of
    pages in use, and, while ids are left, the next call of [GetPage] hands out
    the head of the list, or the first id behind the table when it is empty. *)
Theorem page_ids_not_shared al m a used :
  mapper_reach al m a used ->
  MappingCount m = Z.of_nat (size used) /\
  exists l, free_page_head_ m = list_head l /\ free_chain (mapping_tbl_ m) l /\ NoDup l /\
    (forall p, p ∈ used <-> 0 <= p < logical_size_ (mapping_tbl_ m) /\ p ∉ l) /\
    (logical_size_ (mapping_tbl_ m) < max_pages ->
     exists id m' a', GetPage a m = Some (id, m', a') /\ id = match l with [] => logical_size_ (mapping_tbl_ m) | p :: _ => p end /\
       (id ∉ used) /\ Get (mapping_tbl_ m') id = Some InvalidValue).
Proof.
  intros Hr. destruct (mapper_reach_ok _ _ _ _ Hr) as [l Hok]. pose proof Hok as (Ha & Hm & Hu). split.
  - unfold MappingCount. rewrite (mi_cnt m l Hm), <- (used_count m a used l Hok). apply u32_id.
    pose proof (used_count m a used l Hok). pose proof (mi_size m l Hm). unfold max_pages, is_u32 in *. zlia.
  - exists l. split; [apply Hm|]. split; [apply Hm|]. split; [apply Hm|]. split; [exact Hu|].
    intros Hs. destruct (GetPage_spec a m l Hm Ha Hs) as (id & m' & a' & Hget & _ & _ & Hid & _ & Hg & _).
    exists id, m', a'. split; [exact Hget|]. split; [exact Hid|]. split; [|exact Hg].
    apply (GetPage_ok m a used l id m' a' Hok Hs Hget).
Qed.

Definition example_allocator : FilePageAllocator := AllocatorInstance 2 false.

Lemma page_ids_not_shared_witness :
  exists m a, mapper_reach example_allocator m a {[1]} /\ MappingCount m = 1 /\
    exists id m' a', GetPage a m = Some (id, m', a') /\ (id ∉ ({[1]} : gset Z)) /\
      Get (mapping_tbl_ m') id = Some InvalidValue.
Proof.
  destruct (GetPage None (new_mapper example_allocator)) as [[[id1 m1] a1]|] eqn:H1; [|discriminate H1].
  assert (id1 = 0) as -> by (vm_compute in H1; congruence).
  destruct (GetPage a1 m1) as [[[id2 m2] a2]|] eqn:H2; [|vm_compute in H1; injection H1 as <- <-; discriminate H2].
  assert (id2 = 1) as -> by (vm_compute in H1; injection H1 as <- <-; vm_compute in H2; congruence).
  destruct (FreePage a2 m2 0) as [[m3 a3]|] eqn:H3;
    [|vm_compute in H1; injection H1 as <- <-; vm_compute in H2; injection H2 as <- <-; discriminate H3].
  assert (Hr : mapper_reach example_allocator m3 a3 {[1]}).
  { replace ({[1]} : gset Z) with (({[1]} ∪ ({[0]} ∪ ∅)) ∖ {[0]} : gset Z) by (vm_compute; reflexivity).
    apply (reach_free _ m2 a2 _ 0); [|set_solver|exact H3].
    apply (reach_get _ m1 a1 _ 1); [|vm_compute in H1; injection H1 as <- <-; reflexivity|exact H2].
    apply (reach_get _ (new_mapper example_allocator) None _ 0); [|reflexivity|exact H1].
    constructor. exact I. }
  exists m3, a3. split; [exact Hr|].
  destruct (page_ids_not_shared example_allocator m3 a3 {[1]} Hr) as [Hc (l & _ & _ & _ & _ & Hg)].
  split; [exact Hc|]. destruct Hg as (id & m' & a' & Hget & _ & Hid & Hval); [|eauto 8].
  vm_compute in H1; injection H1 as <- <-; vm_compute in H2; injection H2 as <- <-;
    vm_compute in H3; injection H3 as <- <-. reflexivity.
Defined.

(** File pages: with either allocator, as long as ids fit 32 bits, a page
    that is allocated is not live: it is new, or it was given back after its
    last use.  The append allocator never reuses a page. *)
Theorem allocated_pages_fresh shift append al live :
  alloc_reach shift append al live -> max_fp_id_ al < 2 ^ 32 - 1 ->
  (fst (Allocate al) ∉ live) /\ (append = true -> fst (Allocate al) = max_fp_id_ al).
Proof.
  intros Hr Hlt. split; [apply (Allocate_ok al live (alloc_reach_ok _ _ _ _ Hr) Hlt)|]. intros ->.
  assert (Hk : exists st, alloc_kind al = AppendAllocator st).
  { clear Hlt. induction Hr as [|al live _ [st IH] _|al live fps _ [st IH] _ _].
    - cbn. eauto.
    - unfold Allocate. rewrite IH. cbn. eauto.
    - unfold PoolFree. rewrite IH. eauto. }
  destruct Hk as [st Hk]. unfold Allocate. rewrite Hk. reflexivity.
Qed.

Lemma allocated_pages_fresh_witness :
  exists al live, alloc_reach 2 false al live /\ fst (Allocate al) = 0 /\ fst (Allocate al) ∉ live.
Proof.
  pose (al0 := AllocatorInstance 2 false).
  pose (al := PoolFree (snd (Allocate (snd (Allocate al0)))) [0]).
  exists al, (({[1]} ∪ ({[0]} ∪ ∅)) ∖ list_to_set [0]).
  assert (Hr : alloc_reach 2 false al (({[1]} ∪ ({[0]} ∪ ∅)) ∖ list_to_set [0])).
  { apply (ar_free 2 false (snd (Allocate (snd (Allocate al0))))).
    - apply (ar_alloc 2 false (snd (Allocate al0))); [|reflexivity].
      apply (ar_alloc 2 false al0); [constructor|reflexivity].
    - constructor; [intros Hin; inversion Hin|constructor].
    - apply Forall_singleton. set_solver. }
  split; [exact Hr|]. split; [reflexivity|].
  exact (proj1 (allocated_pages_fresh 2 false al _ Hr eq_refl)).
Defined.

(** When compaction finds every file empty it moves the minimum past the tail
    file: the space size is then zero and the next page opens that new file. *)
Theorem wiped_space_is_empty al :
  0 <= pages_per_file_shift_ al < 32 -> 0 <= max_fp_id_ al < 2 ^ 62 ->
  let al' := UpdateStat al (CurrentFileId al + 1) 0 in
  SpaceSize al' (mkAppendStat (CurrentFileId al + 1) 0) = 0 /\
  CurrentFileId al' = CurrentFileId al + 1 /\
  fst (Allocate al') = Z.shiftl (CurrentFileId al + 1) (pages_per_file_shift_ al).
Proof.
  intros Hs Hm al'. unfold CurrentFileId. set (k := pages_per_file_shift_ al) in *.
  assert (Hk : 0 < 2 ^ k <= 2 ^ 31) by (split; [lia|apply Z.pow_le_mono_r; lia]).
  rewrite Z.shiftr_div_pow2 by lia.
  pose proof (Z.div_mod (max_fp_id_ al) (2 ^ k) ltac:(lia)) as Hdm.
  pose proof (Z.mod_pos_bound (max_fp_id_ al) (2 ^ k) ltac:(lia)) as Hmod.
  set (f := max_fp_id_ al / 2 ^ k) in *.
  assert (Hf : 0 <= f) by (apply Z.div_pos; lia).
  assert (Hnew : u64 (Z.shiftl (f + 1) k) = (f + 1) * 2 ^ k).
  { rewrite Z.shiftl_mul_pow2 by lia. apply u64_id. unfold is_u64. nia. }
  assert (Hal : al' = mkAllocator k ((f + 1) * 2 ^ k) (AppendAllocator (mkAppendStat (f + 1) 0))).
  { unfold al', UpdateStat, CurrentFileId. fold k. rewrite Z.shiftr_div_pow2 by lia. fold f.
    rewrite Hnew, (proj2 (Z.ltb_lt _ _)) by nia. reflexivity. }
  rewrite Hal. unfold SpaceSize. cbn [max_fp_id_ pages_per_file_shift_ min_file_id_ empty_file_cnt_].
  rewrite Hnew, Z.sub_diag, Z.shiftl_0_l. split; [reflexivity|].
  rewrite Z.shiftr_div_pow2, Z.div_mul by lia. split; [reflexivity|].
  unfold Allocate. cbn. rewrite Z.shiftl_mul_pow2 by lia. reflexivity.
Qed.

Lemma wiped_space_is_empty_witness :
  let al := mkAllocator 3 21 (AppendAllocator (mkAppendStat 1 0)) in
  SpaceSize al (mkAppendStat 1 0) = 13 /\ SpaceSize (UpdateStat al 3 0) (mkAppendStat 3 0) = 0.
Proof.
  split; [reflexivity|].
  apply (wiped_space_is_empty (mkAllocator 3 21 (AppendAllocator (mkAppendStat 1 0)))); cbn; lia.
Defined.
