(* ===== verification/CowStore.v ===== *)
(** * Copy-on-write snapshots of the page mapping

    A write task works on a private copy of the published mapping and puts every
    page it writes into a fresh file page.  The pages it replaces are recorded
    in the snapshot it started from and go back to the allocator only when that
    snapshot and all older ones are gone.  The model covers
    [PageManager::MakeCowRoot], [UpdateRoot] and [FreeMappingSnapshot]
    (src/storage/page_manager.cpp), [WriteTask::AllocatePage], [FreePage],
    [WritePage] and [Abort] (src/tasks/write_task.cpp) and the life of
    [MappingSnapshot] objects under their [Ref]s (src/storage/page_mapper.cpp).
    Left out here: the page cache and its swizzling pointers, the segment mapper,
    the log records of the same operations, the branch that a data file belongs
    to, checksums, and I/O errors (a page write reaches its file page). *)

From stdpp Require Import gmap.
From S2P Require Import Prelude IndexPageIter MappingTable PageMapper.

(** ** State *)

(** A [MappingSnapshot]; [sn_next] is [next_snapshot_]. *)
Record Snapshot := mkSnap {
  sn_tbl : MappingTbl;
  to_free_file_pages_ : list Z;
  sn_next : option Z
}.

(** A [PageMapper] whose table is that of the snapshot [mr_snap]. *)
Record MapperRef := mkMapperRef {
  mr_snap : Z;
  mr_head : Z;
  mr_cnt : Z;
  mr_alloc : FilePageAllocator
}.

(** [CowRootMeta]: the mapper of the write task and [old_mapping_]. *)
Record CowMeta := mkCow {
  cow_mapper : MapperRef;
  old_mapping_ : Z
}.

(** The snapshots that exist, the published mapper, the write task, the [Ref]s
    held by readers, the next snapshot identity and the content of the files. *)
Record Store := mkStore {
  st_snaps : gmap Z Snapshot;
  st_pub : option MapperRef;
  st_cow : option CowMeta;
  st_readers : list Z;
  st_next : Z;
  st_disk : gmap Z bytes;
  st_arena : option (list (list Z))
}.

Definition new_store (a : option (list (list Z))) : Store := mkStore ∅ None None [] 0 ∅ a.

Definition with_snaps (s : Store) (snaps : gmap Z Snapshot) : Store :=
  mkStore snaps (st_pub s) (st_cow s) (st_readers s) (st_next s) (st_disk s) (st_arena s).

Definition with_pub (s : Store) (pub : option MapperRef) : Store :=
  mkStore (st_snaps s) pub (st_cow s) (st_readers s) (st_next s) (st_disk s) (st_arena s).

Definition with_cow (s : Store) (cow : option CowMeta) : Store :=
  mkStore (st_snaps s) (st_pub s) cow (st_readers s) (st_next s) (st_disk s) (st_arena s).

Definition with_readers (s : Store) (readers : list Z) : Store :=
  mkStore (st_snaps s) (st_pub s) (st_cow s) readers (st_next s) (st_disk s) (st_arena s).

Definition with_disk (s : Store) (disk : gmap Z bytes) : Store :=
  mkStore (st_snaps s) (st_pub s) (st_cow s) (st_readers s) (st_next s) disk (st_arena s).

(** ** The life of a snapshot *)

(** The [Ref] objects that point to snapshot [i]: the counter [ref_cnt_] is
    their number, and the object is deleted when there is none left. *)
Definition Referenced (s : Store) (i : Z) : bool :=
  bool_decide (mr_snap <$> st_pub s = Some i) ||
  bool_decide ((fun c => mr_snap (cow_mapper c)) <$> st_cow s = Some i) ||
  bool_decide (old_mapping_ <$> st_cow s = Some i) ||
  bool_decide (i ∈ st_readers s) ||
  existsb (fun kv => bool_decide (sn_next (snd kv) = Some i)) (map_to_list (st_snaps s)).

(** [FreeMappingSnapshot]: the recorded pages go to the pool of the published
    mapper; without one the call fails. *)
Definition FreeMappingSnapshot (s : Store) (i : Z) (sn : Snapshot) : option Store :=
  let s' := with_snaps s (delete i (st_snaps s)) in
  match to_free_file_pages_ sn with
  | [] => Some s'
  | fps =>
      m ← st_pub s;
      Some (with_pub s' (Some (mkMapperRef (mr_snap m) (mr_head m) (mr_cnt m) (PoolFree (mr_alloc m) fps))))
  end.

(** [Release] after a [Ref] to [i] is gone: deleting a snapshot drops its own
    [Ref] to the next one.  Every deletion removes a snapshot, so the number of
    snapshots is enough fuel. *)
Fixpoint ReleaseRef (fuel : nat) (s : Store) (i : Z) : option Store :=
  match st_snaps s !! i with
  | None => Some s
  | Some sn =>
      if Referenced s i then Some s
      else
        s' ← FreeMappingSnapshot s i sn;
        match sn_next sn with
        | None => Some s'
        | Some j => match fuel with O => None | S fuel' => ReleaseRef fuel' s' j end
        end
  end.

Definition Release (s : Store) (i : Z) : option Store := ReleaseRef (size (st_snaps s)) s i.

(** ** The write task *)
Definition to_mapper (m : MapperRef) (sn : Snapshot) : PageMapper :=
  mkMapper (sn_tbl sn) (mr_head m) (mr_cnt m) (mr_alloc m).

Definition of_mapper (i : Z) (m : PageMapper) : MapperRef :=
  mkMapperRef i (free_page_head_ m) (free_page_cnt_ m) (file_page_allocator_ m).

(** Yields of a copy during which no other task touches the table. *)
Definition quiet_yields (n : Z) : list Yield :=
  replicate (Z.to_nat (RequiredChunks n + 1)) (mkYield [] ∅).

(** [MakeCowRoot].  The first batch of a partition starts from an empty mapper
    and is its own old mapping. *)
Definition MakeCowRoot (shift : Z) (append : bool) (s : Store) : option Store :=
  let i := st_next s in
  match st_pub s with
  | Some m =>
      sn ← st_snaps s !! mr_snap m;
      '(src, dst, a) ← copy_table (st_arena s) (sn_tbl sn) (quiet_yields (logical_size_ (sn_tbl sn)));
      let snaps := <[mr_snap m := mkSnap src (to_free_file_pages_ sn) (sn_next sn)]> (st_snaps s) in
      Some (mkStore (<[i := mkSnap dst [] None]> snaps) (st_pub s)
              (Some (mkCow (mkMapperRef i (mr_head m) (mr_cnt m) (mr_alloc m)) (mr_snap m)))
              (st_readers s) (i + 1) (st_disk s) a)
  | None =>
      let m := new_mapper (AllocatorInstance shift append) in
      Some (mkStore (<[i := mkSnap (mapping_tbl_ m) [] None]> (st_snaps s)) None
              (Some (mkCow (of_mapper i m) i)) (st_readers s) (i + 1) (st_disk s) (st_arena s))
  end.

(** [old_mapping_->AddFreeFilePage]; [None] is the failed assertion. *)
Definition AddFreeFilePage (s : Store) (i fp : Z) : option Store :=
  if fp =? MaxFilePageId then None
  else
    sn ← st_snaps s !! i;
    Some (with_snaps s (<[i := mkSnap (sn_tbl sn) (to_free_file_pages_ sn ++ [fp]) (sn_next sn)]> (st_snaps s))).

(** Writing back the mapper of the task after an operation on it. *)
Definition put_mapper (s : Store) (c : CowMeta) (sn : Snapshot) (m : PageMapper) (a : option (list (list Z)))
    : Store :=
  let i := mr_snap (cow_mapper c) in
  mkStore (<[i := mkSnap (mapping_tbl_ m) (to_free_file_pages_ sn) (sn_next sn)]> (st_snaps s)) (st_pub s)
    (Some (mkCow (of_mapper i m) (old_mapping_ c))) (st_readers s) (st_next s) (st_disk s) a.

(** [WriteTask::AllocatePage]. *)
Definition AllocatePage (append : bool) (s : Store) (page_id : Z) : option (Z * Z * Store) :=
  c ← st_cow s;
  sn ← st_snaps s !! mr_snap (cow_mapper c);
  s ← (if (page_id =? MaxPageId) || append then Some s
       else
         old_fp ← ToFilePage ∅ (sn_tbl sn) page_id;
         if old_fp =? MaxFilePageId then Some s else AddFreeFilePage s (old_mapping_ c) old_fp);
  sn ← st_snaps s !! mr_snap (cow_mapper c);
  let m := to_mapper (cow_mapper c) sn in
  '(page_id, m, a) ← (if page_id =? MaxPageId then GetPage (st_arena s) m else Some (page_id, m, st_arena s));
  let '(fp, al) := Allocate (file_page_allocator_ m) in
  let m := mkMapper (mapping_tbl_ m) (free_page_head_ m) (free_page_cnt_ m) al in
  '(m, a) ← UpdateMapping a m page_id fp;
  Some (page_id, fp, put_mapper s c sn m a).

(** [cow_meta_.mapper_->GetPage()], as the overflow writer calls it. *)
Definition CowGetPage (s : Store) : option (Z * Store) :=
  c ← st_cow s;
  sn ← st_snaps s !! mr_snap (cow_mapper c);
  '(page_id, m, a) ← GetPage (st_arena s) (to_mapper (cow_mapper c) sn);
  Some (page_id, put_mapper s c sn m a).

(** [WriteTask::FreePage]. *)
Definition CowFreePage (append : bool) (s : Store) (page_id : Z) : option Store :=
  c ← st_cow s;
  sn ← st_snaps s !! mr_snap (cow_mapper c);
  s ← (if append then Some s
       else fp ← ToFilePage ∅ (sn_tbl sn) page_id; AddFreeFilePage s (old_mapping_ c) fp);
  sn ← st_snaps s !! mr_snap (cow_mapper c);
  '(m, a) ← FreePage (st_arena s) (to_mapper (cow_mapper c) sn) page_id;
  Some (put_mapper s c sn m a).

(** [WriteTask::WritePage]: the page goes to its new file page. *)
Definition WritePage (append : bool) (s : Store) (page_id : Z) (content : bytes) : option (Z * Store) :=
  '(page_id, fp, s) ← AllocatePage append s page_id;
  Some (page_id, with_disk s (<[fp := content]> (st_disk s))).

(** [UpdateRoot]: the task's mapper is published; the [Ref]s of the old mapper
    and of the task go away. *)
Definition UpdateRoot (append : bool) (s : Store) : option Store :=
  c ← st_cow s;
  let new := mr_snap (cow_mapper c) in
  match st_pub s with
  | None => Some (with_cow (with_pub s (Some (cow_mapper c))) None)
  | Some m =>
      sn ← st_snaps s !! mr_snap m;
      let snaps := if append then st_snaps s
                   else <[mr_snap m := mkSnap (sn_tbl sn) (to_free_file_pages_ sn) (Some new)]> (st_snaps s) in
      s ← Release (with_pub (with_snaps s snaps) (Some (cow_mapper c))) (mr_snap m);
      Release (with_cow s None) (old_mapping_ c)
  end.

(** [WriteTask::Abort]: the recorded pages are forgotten and the task's
    [CowRootMeta] is reset. *)
Definition Abort (s : Store) : option Store :=
  c ← st_cow s;
  sn ← st_snaps s !! old_mapping_ c;
  let s := with_snaps s (<[old_mapping_ c := mkSnap (sn_tbl sn) [] (sn_next sn)]> (st_snaps s)) in
  s ← Release (with_cow s None) (mr_snap (cow_mapper c));
  Release s (old_mapping_ c).

(** A reader takes and drops a [Ref] to the published snapshot. *)
Definition AcquireSnapshot (s : Store) : option (Z * Store) :=
  m ← st_pub s;
  Some (mr_snap m, with_readers s (mr_snap m :: st_readers s)).

Fixpoint remove_one (i : Z) (l : list Z) : list Z :=
  match l with [] => [] | j :: l' => if j =? i then l' else j :: remove_one i l' end.

Definition DropSnapshot (s : Store) (i : Z) : option Store :=
  Release (with_readers s (remove_one i (st_readers s))) i.

(** What a reader of snapshot [i] finds for a page. *)
Definition ReadPage (s : Store) (i page_id : Z) : option bytes :=
  sn ← st_snaps s !! i;
  fp ← ToFilePage ∅ (sn_tbl sn) page_id;
  st_disk s !! fp.

(** ** The invariant *)
Definition maps (t : MappingTbl) (p fp : Z) : Prop :=
  0 <= p < logical_size_ t /\ 0 <= fp < 2 ^ 32 /\ Get t p = Some (EncodeFilePageId fp).

(** The words of a table without pointers to cached pages. *)
Definition plain_word (w : Z) : Prop :=
  w = InvalidValue \/ (exists q, 0 <= q < max_pages /\ w = EncodePageId q) \/
  (exists fp, 0 <= fp < 2 ^ 32 /\ w = EncodeFilePageId fp).

Definition plain (t : MappingTbl) : Prop :=
  forall p, 0 <= p < logical_size_ t -> exists w, Get t p = Some w /\ plain_word w.

Record snap_ok (t : MappingTbl) : Prop := {
  sk_tbl : tbl_inv t;
  sk_idle : under_copying_ t = false;
  sk_size : logical_size_ t <= max_pages;
  sk_plain : plain t;
  sk_inj : forall p q fp, maps t p fp -> maps t q fp -> p = q
}.

(** The allocator will not hand out [fp]. *)
Definition fp_ok (al : FilePageAllocator) (fp : Z) : Prop :=
  0 <= fp < max_fp_id_ al /\ fp ∉ free_ids al.

Record alloc_wf (al : FilePageAllocator) : Prop := {
  aw_max : 0 <= max_fp_id_ al < 2 ^ 32;
  aw_nodup : NoDup (free_ids al);
  aw_free : forall p, p ∈ free_ids al -> 0 <= p < max_fp_id_ al
}.

Definition mapper_ok (s : Store) (m : MapperRef) : Prop :=
  exists sn l, st_snaps s !! mr_snap m = Some sn /\ mapper_inv (to_mapper m sn) l /\ sn_next sn = None.

(** The newest snapshot: that of the write task, or the published one. *)
Definition top (s : Store) (j : Z) : Prop :=
  match st_cow s with
  | Some c => j = mr_snap (cow_mapper c)
  | None => match st_pub s with Some m => j = mr_snap m | None => False end
  end.

(** The pages recorded in [i] are being collected by the write task. *)
Definition collecting (s : Store) (i : Z) : Prop :=
  match st_cow s with Some c => i = old_mapping_ c | None => False end.

Record store_inv (append : bool) (s : Store) : Prop := {
  si_arena : arena_ok (st_arena s);
  si_ids : forall i sn, st_snaps s !! i = Some sn -> i < st_next s;
  si_snap : forall i sn, st_snaps s !! i = Some sn -> snap_ok (sn_tbl sn);
  si_pub : forall m, st_pub s = Some m -> mapper_ok s m;
  si_cow : forall c, st_cow s = Some c -> mapper_ok s (cow_mapper c) /\
    match st_pub s with
    | Some m => mr_snap m < mr_snap (cow_mapper c) /\ old_mapping_ c = mr_snap m /\
                forall sn, st_snaps s !! mr_snap (cow_mapper c) = Some sn -> to_free_file_pages_ sn = []
    | None => old_mapping_ c = mr_snap (cow_mapper c)
    end;
  si_top : forall i sn, st_snaps s !! i = Some sn ->
    (exists m, st_pub s = Some m /\ i <= mr_snap m) \/
    (exists c, st_cow s = Some c /\ i = mr_snap (cow_mapper c));
  si_chain : append = false -> forall m i sn, st_pub s = Some m -> st_snaps s !! i = Some sn ->
    i < mr_snap m -> exists j, sn_next sn = Some j /\ i < j /\ is_Some (st_snaps s !! j) /\
      forall k, is_Some (st_snaps s !! k) -> i < k -> j <= k;
  si_next : forall i sn j, st_snaps s !! i = Some sn -> sn_next sn = Some j ->
    i < j /\ is_Some (st_snaps s !! j) /\ exists m, st_pub s = Some m /\ j <= mr_snap m;
  si_readers : forall i, i ∈ st_readers s ->
    is_Some (st_snaps s !! i) /\ exists m, st_pub s = Some m /\ i <= mr_snap m;
  si_free_sep : forall i j sni snj fp p, st_snaps s !! i = Some sni -> st_snaps s !! j = Some snj ->
    fp ∈ to_free_file_pages_ sni -> i < j \/ (i = j /\ top s j) -> ~ maps (sn_tbl snj) p fp;
  si_free_nodup : forall i sn, st_snaps s !! i = Some sn -> NoDup (to_free_file_pages_ sn);
  si_free_disj : forall i j sni snj fp, i <> j -> st_snaps s !! i = Some sni ->
    st_snaps s !! j = Some snj -> fp ∈ to_free_file_pages_ sni -> fp ∉ to_free_file_pages_ snj;
  si_pub_alloc : forall m, st_pub s = Some m -> alloc_wf (mr_alloc m) /\
    forall i sn, st_snaps s !! i = Some sn -> i <= mr_snap m ->
      (forall p fp, maps (sn_tbl sn) p fp -> fp_ok (mr_alloc m) fp) /\
      (~ collecting s i -> forall fp, fp ∈ to_free_file_pages_ sn -> fp_ok (mr_alloc m) fp);
  si_cow_alloc : forall c, st_cow s = Some c -> alloc_wf (mr_alloc (cow_mapper c)) /\
    forall i sn, st_snaps s !! i = Some sn ->
      (forall p fp, maps (sn_tbl sn) p fp -> fp_ok (mr_alloc (cow_mapper c)) fp) /\
      (forall fp, fp ∈ to_free_file_pages_ sn -> fp_ok (mr_alloc (cow_mapper c)) fp);
  si_append : append = true -> forall i sn, st_snaps s !! i = Some sn -> to_free_file_pages_ sn = []
}.

Lemma new_store_inv append a : arena_ok a -> store_inv append (new_store a).
Proof.
  intros Ha. split; cbn [new_store st_arena st_snaps st_pub st_cow st_readers st_next]; auto.
  all: try (intros; discriminate).
  all: try (intros i Hi; inversion Hi; fail).
  all: intros; match goal with H : ∅ !! _ = Some _ |- _ => rewrite lookup_empty in H; discriminate H end.
Qed.

(** ** Allocating *)
Lemma Allocate_fresh al :
  alloc_wf al -> max_fp_id_ al < 2 ^ 32 - 1 ->
  let '(fp, al') := Allocate al in
  ~ fp_ok al fp /\ fp_ok al' fp /\ 0 <= fp < 2 ^ 32 /\ alloc_wf al' /\
  (forall q, fp_ok al q -> fp_ok al' q).
Proof.
  intros [Hm Hnd Hf] Hlt. unfold Allocate, fp_ok, free_ids in *.
  destruct (alloc_kind al) as [st|[|id ids]] eqn:Hk; cbn [max_fp_id_ alloc_kind].
  - rewrite u64_id by (unfold is_u64; lia). split_and!; [intros [H _]; lia|lia|lia| |lia|lia| |].
    + intros Hin. inversion Hin.
    + split; unfold free_ids; cbn; [lia|constructor|intros p Hp; inversion Hp].
    + intros q [Hq Hn]. split; [lia|exact Hn].
  - rewrite u64_id by (unfold is_u64; lia). split_and!; [intros [H _]; lia|lia|lia| |lia|lia| |].
    + intros Hin. inversion Hin.
    + split; unfold free_ids; cbn; [lia|constructor|intros p Hp; inversion Hp].
    + intros q [Hq Hn]. split; [lia|exact Hn].
  - inversion_clear Hnd as [|? ? Hid Hnd']. pose proof (Hf id ltac:(left)) as Hr.
    split_and!; [|lia|lia|exact Hid|lia|lia| |].
    + intros [_ Hn]. apply Hn. left.
    + split; unfold free_ids; cbn; [lia|exact Hnd'|]. intros p Hp. apply Hf. right. exact Hp.
    + intros q [Hq Hn]. split; [exact Hq|]. intros Hin. apply Hn. right. exact Hin.
Qed.

(** ** Tables of file pages *)
Lemma file_word_inj fp fp' :
  0 <= fp < 2 ^ 32 -> 0 <= fp' < 2 ^ 32 -> EncodeFilePageId fp = EncodeFilePageId fp' -> fp = fp'.
Proof. intros H H'. rewrite !EncodeFilePageId_eq by lia. lia. Qed.

Lemma maps_fun t p fp fp' : maps t p fp -> maps t p fp' -> fp = fp'.
Proof. intros (_ & H & Hg) (_ & H' & Hg'). apply file_word_inj; auto. congruence. Qed.

Lemma no_file_word w fp :
  0 <= fp < 2 ^ 32 -> w = InvalidValue \/ (exists q, 0 <= q < max_pages /\ w = EncodePageId q) ->
  w <> EncodeFilePageId fp.
Proof.
  intros H [->|(q & Hq & ->)]; rewrite EncodeFilePageId_eq by lia.
  - change InvalidValue with 7. lia.
  - rewrite EncodePageId_eq by exact Hq. lia.
Qed.

Lemma plain_word_copy w : plain_word w -> IsSwizzlingPointer w = false.
Proof.
  intros [->|[(q & Hq & ->)|(fp & Hfp & ->)]]; [reflexivity| |apply file_page_word; lia].
  unfold IsSwizzlingPointer. rewrite EncodePageId_eq by exact Hq.
  destruct (word_parts q 2) as [-> _]; [lia|reflexivity].
Qed.

(** What [ToFilePage] finds. *)
Lemma ToFilePage_maps t p :
  snap_ok t -> 0 <= p < logical_size_ t ->
  (exists fp, ToFilePage ∅ t p = Some fp /\ fp <> MaxFilePageId /\ maps t p fp) \/
  (ToFilePage ∅ t p = Some MaxFilePageId /\ forall fp, ~ maps t p fp).
Proof.
  intros Hok Hp. destruct (sk_plain t Hok p Hp) as (w & Hw & Hpl). unfold ToFilePage.
  pose proof (sk_size t Hok) as Hs. unfold max_pages in Hs.
  rewrite (proj2 (Z.eqb_neq p MaxPageId)) by (change MaxPageId with (2 ^ 32 - 1); lia).
  rewrite Hw. cbn [mbind option_bind].
  destruct Hpl as [->|[(q & Hq & ->)|(fp & Hfp & ->)]].
  - right. split; [reflexivity|]. intros fp (_ & Hfp & Hg).
    apply (no_file_word InvalidValue fp Hfp); [auto|congruence].
  - right. destruct (page_id_word q Hq) as (_ & _ & ->). split; [reflexivity|].
    intros fp (_ & Hfp & Hg). apply (no_file_word (EncodePageId q) fp Hfp); [eauto|congruence].
  - left. exists fp. destruct (file_page_word fp ltac:(lia)) as (_ & _ & _ & ->).
    split; [reflexivity|]. change MaxFilePageId with (2 ^ 64 - 1). split; [lia|]. split_and!; auto; lia.
Qed.

(** Changing one word of a table. *)
Record tbl_changed (t t' : MappingTbl) (p w : Z) : Prop := {
  tc_inv : tbl_inv t';
  tc_idle : under_copying_ t' = false;
  tc_range : 0 <= p <= logical_size_ t;
  tc_size : logical_size_ t' = Z.max (logical_size_ t) (p + 1);
  tc_max : logical_size_ t' <= max_pages;
  tc_at : Get t' p = Some w;
  tc_other : forall q, 0 <= q < logical_size_ t -> q <> p -> Get t' q = Get t q
}.

Lemma changed_maps t t' p w q fp :
  tbl_changed t t' p w -> maps t' q fp -> (q = p /\ w = EncodeFilePageId fp) \/ (q <> p /\ maps t q fp).
Proof.
  intros [_ _ Hr Hs _ Hat Ho] (Hq & Hfp & Hg). destruct (decide (q = p)) as [->|Hne].
  - left. split; [reflexivity|congruence].
  - right. split; [exact Hne|]. assert (0 <= q < logical_size_ t) by lia.
    split_and!; auto; try lia. rewrite <- Ho by auto. exact Hg.
Qed.

Lemma changed_ok t t' p w :
  snap_ok t -> tbl_changed t t' p w -> plain_word w ->
  (forall q fp, w = EncodeFilePageId fp -> ~ maps t q fp) -> snap_ok t'.
Proof.
  intros Hok Hch Hw Hnew. pose proof Hch as [Hi Hid Hr Hs Hm Hat Ho]. split; auto.
  - intros q Hq. destruct (decide (q = p)) as [->|Hne]; [eauto|].
    rewrite Ho by lia. apply (sk_plain t Hok). lia.
  - intros q1 q2 fp H1 H2.
    destruct (changed_maps _ _ _ _ _ _ Hch H1) as [[-> He1]|[Hn1 Hm1]];
      destruct (changed_maps _ _ _ _ _ _ Hch H2) as [[-> He2]|[Hn2 Hm2]]; auto.
    + destruct (Hnew _ _ He1 Hm2).
    + destruct (Hnew _ _ He2 Hm1).
    + exact (sk_inj t Hok q1 q2 fp Hm1 Hm2).
Qed.

(** ** Updates of the write task's mapping *)

(** A step of the write task: its table goes from [tbl] to [tbl'], the pages
    [freed] are recorded in the old mapping, everything else stays. *)
Record cow_update (append : bool) (s s' : Store) (c c' : CowMeta) (tbl tbl' : MappingTbl)
    (freed : list Z) : Prop := {
  cu_cow : st_cow s = Some c;
  cu_cow' : st_cow s' = Some c';
  cu_snap : mr_snap (cow_mapper c') = mr_snap (cow_mapper c);
  cu_old : old_mapping_ c' = old_mapping_ c;
  cu_pub : st_pub s' = st_pub s;
  cu_readers : st_readers s' = st_readers s;
  cu_next : st_next s' = st_next s;
  cu_arena : arena_ok (st_arena s');
  cu_lookup : forall i, st_snaps s' !! i =
    (fun sn => mkSnap (if i =? mr_snap (cow_mapper c) then tbl' else sn_tbl sn)
                 (to_free_file_pages_ sn ++ if i =? old_mapping_ c then freed else []) (sn_next sn))
    <$> st_snaps s !! i;
  cu_tbl : sn_tbl <$> st_snaps s !! mr_snap (cow_mapper c) = Some tbl;
  cu_ok : snap_ok tbl';
  cu_mapper : exists l, mapper_inv (mkMapper tbl' (mr_head (cow_mapper c')) (mr_cnt (cow_mapper c'))
                                      (mr_alloc (cow_mapper c'))) l;
  cu_alloc : alloc_wf (mr_alloc (cow_mapper c'));
  cu_mono : forall q, fp_ok (mr_alloc (cow_mapper c)) q -> fp_ok (mr_alloc (cow_mapper c')) q;
  cu_maps : forall p fp, maps tbl' p fp -> maps tbl p fp \/
    (~ fp_ok (mr_alloc (cow_mapper c)) fp /\ fp_ok (mr_alloc (cow_mapper c')) fp);
  cu_freed : forall fp, fp ∈ freed -> (exists p, maps tbl p fp) /\ forall p, ~ maps tbl' p fp;
  cu_freed_nodup : NoDup freed;
  cu_append : append = true -> freed = []
}.

Section update.
  Context (append : bool) (s s' : Store) (c c' : CowMeta) (tbl tbl' : MappingTbl) (freed : list Z).
  Context (Hinv : store_inv append s) (Hu : cow_update append s s' c c' tbl tbl' freed).

  Local Abbreviation cow := (mr_snap (cow_mapper c)).

Lemma cu_inv i sn' : st_snaps s' !! i = Some sn' ->
  exists sn, st_snaps s !! i = Some sn /\ sn_next sn' = sn_next sn /\
    to_free_file_pages_ sn' = to_free_file_pages_ sn ++ (if i =? old_mapping_ c then freed else []) /\
    sn_tbl sn' = if i =? cow then tbl' else sn_tbl sn.
Proof.
  rewrite (cu_lookup _ _ _ _ _ _ _ _ Hu). destruct (st_snaps s !! i) as [sn|]; [|discriminate].
  intros H. injection H as <-. exists sn. auto.
Qed.

Lemma cu_some i : is_Some (st_snaps s' !! i) <-> is_Some (st_snaps s !! i).
Proof. rewrite (cu_lookup _ _ _ _ _ _ _ _ Hu), fmap_is_Some. reflexivity. Qed.

(** The write task's snapshot is the newest. *)
Lemma live_below_cow i : is_Some (st_snaps s !! i) -> i < cow \/ (i = cow /\ top s cow).
Proof.
  intros [sn Hi]. pose proof (si_cow _ _ Hinv c (cu_cow _ _ _ _ _ _ _ _ Hu)) as [_ Hp].
  destruct (si_top _ _ Hinv i sn Hi) as [(m & Hm & Hle) | (c1 & Hc1 & ->)].
  - rewrite Hm in Hp. left. lia.
  - rewrite (cu_cow _ _ _ _ _ _ _ _ Hu) in Hc1. injection Hc1 as <-. right.
    split; [reflexivity|]. unfold top. rewrite (cu_cow _ _ _ _ _ _ _ _ Hu). reflexivity.
Qed.

Lemma cow_entry : exists sn, st_snaps s !! cow = Some sn /\ sn_tbl sn = tbl.
Proof.
  pose proof (cu_tbl _ _ _ _ _ _ _ _ Hu) as H. destruct (st_snaps s !! cow) as [sn|]; [|discriminate H].
  injection H as <-. eauto.
Qed.

(** A page mapped by the task is recorded nowhere. *)
Lemma mapped_not_recorded i sn p fp :
  st_snaps s !! i = Some sn -> maps tbl p fp -> fp ∉ to_free_file_pages_ sn.
Proof.
  intros Hi Hm Hin. destruct cow_entry as (snc & Hc & Ht).
  apply (si_free_sep _ _ Hinv i cow sn snc fp p Hi Hc Hin); [|rewrite Ht; exact Hm].
  apply live_below_cow. eauto.
Qed.

Lemma top_same j : top s' j <-> top s j.
Proof.
  unfold top. rewrite (cu_cow _ _ _ _ _ _ _ _ Hu), (cu_cow' _ _ _ _ _ _ _ _ Hu),
    (cu_snap _ _ _ _ _ _ _ _ Hu). reflexivity.
Qed.

Lemma cu_free_sep i j sni snj fp p :
  st_snaps s' !! i = Some sni -> st_snaps s' !! j = Some snj -> fp ∈ to_free_file_pages_ sni ->
  i < j \/ (i = j /\ top s' j) -> ~ maps (sn_tbl snj) p fp.
Proof.
  intros Hi Hj Hin Hord Hm. rewrite top_same in Hord.
  destruct (cu_inv i sni Hi) as (sni0 & Hi0 & _ & Hfi & _).
  destruct (cu_inv j snj Hj) as (snj0 & Hj0 & _ & _ & Htj).
  rewrite Hfi in Hin. apply elem_of_app in Hin as [Hin|Hin].
  - rewrite Htj in Hm. destruct (Z.eqb_spec j cow) as [->|Hne];
      [|exact (si_free_sep _ _ Hinv i j sni0 snj0 fp p Hi0 Hj0 Hin Hord Hm)].
    destruct (cu_maps _ _ _ _ _ _ _ _ Hu p fp Hm) as [Hm0|[Hno _]].
    + exact (mapped_not_recorded i sni0 p fp Hi0 Hm0 Hin).
    + apply Hno. apply (si_cow_alloc _ _ Hinv c (cu_cow _ _ _ _ _ _ _ _ Hu)) with i sni0; assumption.
  - destruct (Z.eqb_spec i (old_mapping_ c)) as [->|]; [|inversion Hin].
    destruct (cu_freed _ _ _ _ _ _ _ _ Hu fp Hin) as [_ Hno].
    assert (j = cow) as ->.
    { pose proof (si_cow _ _ Hinv c (cu_cow _ _ _ _ _ _ _ _ Hu)) as [_ Hp].
      destruct (si_top _ _ Hinv j snj0 Hj0) as [(m & Hmm & Hle) | (c1 & Hc1 & ->)].
      - rewrite Hmm in Hp. destruct Hord as [Hlt|[<- Ht]]; [lia|].
        unfold top in Ht. rewrite (cu_cow _ _ _ _ _ _ _ _ Hu) in Ht. exact Ht.
      - rewrite (cu_cow _ _ _ _ _ _ _ _ Hu) in Hc1. injection Hc1 as <-. reflexivity. }
    rewrite Htj, Z.eqb_refl in Hm. exact (Hno p Hm).
Qed.

Lemma cu_free_disj i j sni snj fp :
  i <> j -> st_snaps s' !! i = Some sni -> st_snaps s' !! j = Some snj ->
  fp ∈ to_free_file_pages_ sni -> fp ∉ to_free_file_pages_ snj.
Proof.
  intros Hne Hi Hj Hin Hin'.
  destruct (cu_inv i sni Hi) as (sni0 & Hi0 & _ & Hfi & _). destruct (cu_inv j snj Hj) as (snj0 & Hj0 & _ & Hfj & _).
  rewrite Hfi in Hin. rewrite Hfj in Hin'.
  assert (Hold : forall k, fp ∈ (if k =? old_mapping_ c then freed else []) -> k = old_mapping_ c /\ fp ∈ freed).
  { intros k Hk. destruct (Z.eqb_spec k (old_mapping_ c)); [auto|inversion Hk]. }
  apply elem_of_app in Hin as [Hin|[-> Hin]%Hold]; apply elem_of_app in Hin' as [Hin'|[-> Hin']%Hold].
  - exact (si_free_disj _ _ Hinv i j sni0 snj0 fp Hne Hi0 Hj0 Hin Hin').
  - destruct (cu_freed _ _ _ _ _ _ _ _ Hu fp Hin') as [[p Hm] _].
    exact (mapped_not_recorded i sni0 p fp Hi0 Hm Hin).
  - destruct (cu_freed _ _ _ _ _ _ _ _ Hu fp Hin) as [[p Hm] _].
    exact (mapped_not_recorded j snj0 p fp Hj0 Hm Hin').
  - congruence.
Qed.

Lemma cu_free_nodup i sn : st_snaps s' !! i = Some sn -> NoDup (to_free_file_pages_ sn).
Proof.
  intros Hi. destruct (cu_inv i sn Hi) as (sn0 & Hi0 & _ & -> & _). apply list.NoDup_app.
  split; [exact (si_free_nodup _ _ Hinv i sn0 Hi0)|]. destruct (i =? old_mapping_ c).
  - split; [|exact (cu_freed_nodup _ _ _ _ _ _ _ _ Hu)]. intros fp Hin Hin'.
    destruct (cu_freed _ _ _ _ _ _ _ _ Hu fp Hin') as [[p Hm] _].
    exact (mapped_not_recorded i sn0 p fp Hi0 Hm Hin).
  - split; [intros fp _ Hin; inversion Hin|constructor].
Qed.

Lemma pub_below_cow m : st_pub s = Some m -> mr_snap m < cow /\ old_mapping_ c = mr_snap m.
Proof.
  intros Hm. pose proof (si_cow _ _ Hinv c (cu_cow _ _ _ _ _ _ _ _ Hu)) as [_ Hp].
  rewrite Hm in Hp. tauto.
Qed.

Lemma cu_pub_ok m : st_pub s' = Some m -> mapper_ok s' m.
Proof.
  rewrite (cu_pub _ _ _ _ _ _ _ _ Hu). intros Hm. destruct (pub_below_cow m Hm) as [Hlt _].
  destruct (si_pub _ _ Hinv m Hm) as (sn & l & Hsn & Hl & Hn). unfold mapper_ok.
  rewrite (cu_lookup _ _ _ _ _ _ _ _ Hu), Hsn. do 2 eexists. split; [reflexivity|].
  rewrite (proj2 (Z.eqb_neq (mr_snap m) cow)) by lia. split; [exact Hl|exact Hn].
Qed.

Lemma cu_cow_ok : mapper_ok s' (cow_mapper c').
Proof.
  pose proof (si_cow _ _ Hinv c (cu_cow _ _ _ _ _ _ _ _ Hu)) as [(sn & l0 & Hsn & _ & Hn) _].
  destruct (cu_mapper _ _ _ _ _ _ _ _ Hu) as [l Hl]. unfold mapper_ok.
  rewrite (cu_snap _ _ _ _ _ _ _ _ Hu), (cu_lookup _ _ _ _ _ _ _ _ Hu), Hsn.
  do 2 eexists. split; [reflexivity|]. rewrite Z.eqb_refl. split; [exact Hl|exact Hn].
Qed.

Lemma cu_pub_alloc m :
  st_pub s' = Some m -> alloc_wf (mr_alloc m) /\
  forall i sn, st_snaps s' !! i = Some sn -> i <= mr_snap m ->
    (forall p fp, maps (sn_tbl sn) p fp -> fp_ok (mr_alloc m) fp) /\
    (~ collecting s' i -> forall fp, fp ∈ to_free_file_pages_ sn -> fp_ok (mr_alloc m) fp).
Proof.
  rewrite (cu_pub _ _ _ _ _ _ _ _ Hu). intros Hm. destruct (pub_below_cow m Hm) as [Hlt Ho].
  destruct (si_pub_alloc _ _ Hinv m Hm) as [Hwf Hall]. split; [exact Hwf|]. intros i sn Hi Hle.
  destruct (cu_inv i sn Hi) as (sn0 & Hi0 & _ & Hf & Ht). destruct (Hall i sn0 Hi0 Hle) as [H1 H2].
  rewrite Ht, Hf, (proj2 (Z.eqb_neq i cow)) by lia. split; [exact H1|].
  unfold collecting in *. rewrite (cu_cow' _ _ _ _ _ _ _ _ Hu), (cu_old _ _ _ _ _ _ _ _ Hu).
  intros Hne. rewrite (proj2 (Z.eqb_neq i (old_mapping_ c))) by exact Hne. rewrite app_nil_r.
  apply H2. rewrite (cu_cow _ _ _ _ _ _ _ _ Hu). exact Hne.
Qed.

Lemma cu_cow_alloc i sn :
  st_snaps s' !! i = Some sn ->
  (forall p fp, maps (sn_tbl sn) p fp -> fp_ok (mr_alloc (cow_mapper c')) fp) /\
  (forall fp, fp ∈ to_free_file_pages_ sn -> fp_ok (mr_alloc (cow_mapper c')) fp).
Proof.
  intros Hi. destruct (cu_inv i sn Hi) as (sn0 & Hi0 & _ & Hf & Ht).
  destruct (si_cow_alloc _ _ Hinv c (cu_cow _ _ _ _ _ _ _ _ Hu)) as [_ Hall].
  destruct (Hall i sn0 Hi0) as [H1 H2]. destruct cow_entry as (snc & Hc & Htc).
  destruct (Hall cow snc Hc) as [Hc1 _]. rewrite Htc in Hc1. split.
  - intros p fp. rewrite Ht. destruct (i =? cow).
    + intros Hm. destruct (cu_maps _ _ _ _ _ _ _ _ Hu p fp Hm) as [Hm0|[_ Hok]]; [|exact Hok].
      apply (cu_mono _ _ _ _ _ _ _ _ Hu), (Hc1 p), Hm0.
    + intros Hm. apply (cu_mono _ _ _ _ _ _ _ _ Hu), (H1 p), Hm.
  - intros fp. rewrite Hf, elem_of_app. intros [Hin|Hin].
    + apply (cu_mono _ _ _ _ _ _ _ _ Hu), H2, Hin.
    + destruct (i =? old_mapping_ c); [|inversion Hin].
      destruct (cu_freed _ _ _ _ _ _ _ _ Hu fp Hin) as [[p Hm] _].
      apply (cu_mono _ _ _ _ _ _ _ _ Hu), (Hc1 p), Hm.
Qed.

Lemma cow_update_inv : store_inv append s'.
Proof.
  split.
  - exact (cu_arena _ _ _ _ _ _ _ _ Hu).
  - intros i sn Hi. rewrite (cu_next _ _ _ _ _ _ _ _ Hu).
    destruct (cu_inv i sn Hi) as (sn0 & Hi0 & _). exact (si_ids _ _ Hinv i sn0 Hi0).
  - intros i sn Hi. destruct (cu_inv i sn Hi) as (sn0 & Hi0 & _ & _ & ->).
    destruct (i =? cow); [exact (cu_ok _ _ _ _ _ _ _ _ Hu)|exact (si_snap _ _ Hinv i sn0 Hi0)].
  - exact cu_pub_ok.
  - intros c1 Hc1. rewrite (cu_cow' _ _ _ _ _ _ _ _ Hu) in Hc1. injection Hc1 as <-.
    split; [exact cu_cow_ok|]. rewrite (cu_pub _ _ _ _ _ _ _ _ Hu), (cu_snap _ _ _ _ _ _ _ _ Hu),
      (cu_old _ _ _ _ _ _ _ _ Hu).
    pose proof (si_cow _ _ Hinv c (cu_cow _ _ _ _ _ _ _ _ Hu)) as [_ Hp].
    destruct (st_pub s) as [m|]; [|exact Hp]. destruct Hp as (H1 & H2 & H3). split_and!; auto.
    intros sn Hsn. destruct (cu_inv _ _ Hsn) as (sn0 & Hi0 & _ & -> & _).
    rewrite (H3 sn0 Hi0), (proj2 (Z.eqb_neq cow (old_mapping_ c))) by lia. reflexivity.
  - intros i sn Hi. destruct (cu_inv i sn Hi) as (sn0 & Hi0 & _).
    rewrite (cu_pub _ _ _ _ _ _ _ _ Hu), (cu_cow' _ _ _ _ _ _ _ _ Hu).
    destruct (si_top _ _ Hinv i sn0 Hi0) as [Hl|(c1 & Hc1 & ->)]; [left; exact Hl|right].
    rewrite (cu_cow _ _ _ _ _ _ _ _ Hu) in Hc1. injection Hc1 as <-.
    exists c'. split; [reflexivity|]. rewrite (cu_snap _ _ _ _ _ _ _ _ Hu). reflexivity.
  - intros Happ m i sn Hm Hi Hlt. rewrite (cu_pub _ _ _ _ _ _ _ _ Hu) in Hm.
    destruct (cu_inv i sn Hi) as (sn0 & Hi0 & -> & _).
    destruct (si_chain _ _ Hinv Happ m i sn0 Hm Hi0 Hlt) as (j & Hj & Hij & Hsj & Hmin).
    exists j. split; [exact Hj|]. split; [exact Hij|]. split; [apply cu_some; exact Hsj|].
    intros k Hk. apply Hmin, cu_some, Hk.
  - intros i sn j Hi Hj. rewrite (cu_pub _ _ _ _ _ _ _ _ Hu).
    destruct (cu_inv i sn Hi) as (sn0 & Hi0 & Hn & _). rewrite Hn in Hj.
    destruct (si_next _ _ Hinv i sn0 j Hi0 Hj) as (H1 & H2 & H3). split_and!; auto. apply cu_some, H2.
  - intros i Hi. rewrite (cu_readers _ _ _ _ _ _ _ _ Hu) in Hi. rewrite (cu_pub _ _ _ _ _ _ _ _ Hu).
    destruct (si_readers _ _ Hinv i Hi) as [H1 H2]. split; [apply cu_some, H1|exact H2].
  - exact cu_free_sep.
  - exact cu_free_nodup.
  - exact cu_free_disj.
  - exact cu_pub_alloc.
  - intros c1 Hc1. rewrite (cu_cow' _ _ _ _ _ _ _ _ Hu) in Hc1. injection Hc1 as <-.
    split; [exact (cu_alloc _ _ _ _ _ _ _ _ Hu)|exact cu_cow_alloc].
  - intros Happ i sn Hi. destruct (cu_inv i sn Hi) as (sn0 & Hi0 & _ & -> & _).
    rewrite (si_append _ _ Hinv Happ i sn0 Hi0), (cu_append _ _ _ _ _ _ _ _ Hu Happ).
    destruct (i =? old_mapping_ c); reflexivity.
Qed.
End update.

(** ** The operations of the write task *)

(** [s1] is [s] with [freed] recorded in [old]. *)
Definition recorded (s s1 : Store) (old : Z) (freed : list Z) : Prop :=
  st_pub s1 = st_pub s /\ st_cow s1 = st_cow s /\ st_readers s1 = st_readers s /\
  st_next s1 = st_next s /\ st_disk s1 = st_disk s /\ st_arena s1 = st_arena s /\
  forall i, st_snaps s1 !! i =
    (fun sn => mkSnap (sn_tbl sn) (to_free_file_pages_ sn ++ if i =? old then freed else []) (sn_next sn))
    <$> st_snaps s !! i.

Lemma recorded_nil s old : recorded s s old [].
Proof.
  split_and!; auto. intros i. destruct (st_snaps s !! i) as [[t f n]|]; [|reflexivity]. simpl.
  destruct (i =? old); rewrite app_nil_r; reflexivity.
Qed.

Lemma AddFreeFilePage_recorded s old fp :
  is_Some (st_snaps s !! old) -> fp <> MaxFilePageId ->
  exists s1, AddFreeFilePage s old fp = Some s1 /\ recorded s s1 old [fp].
Proof.
  intros [sn Hsn] Hfp. unfold AddFreeFilePage. rewrite (proj2 (Z.eqb_neq _ _)), Hsn by exact Hfp.
  eexists. split; [reflexivity|]. split_and!; auto. intros i. cbn [with_snaps st_snaps].
  destruct (Z.eqb_spec i old) as [->|Hne].
  - rewrite lookup_insert_eq, Hsn. reflexivity.
  - rewrite lookup_insert_ne by congruence. destruct (st_snaps s !! i) as [[t f n]|]; [|reflexivity].
    simpl. rewrite app_nil_r. reflexivity.
Qed.

(** The pages the write task may remap or free. *)
Definition cow_holds (s : Store) (p : Z) : Prop :=
  exists c sn l, st_cow s = Some c /\ st_snaps s !! mr_snap (cow_mapper c) = Some sn /\
    mapper_inv (to_mapper (cow_mapper c) sn) l /\ in_use (to_mapper (cow_mapper c) sn) l p.

(** Recording pages and then writing back the mapper is an update. *)
Lemma put_mapper_update append s s1 c sn sn1 m a freed :
  store_inv append s -> st_cow s = Some c -> st_snaps s !! mr_snap (cow_mapper c) = Some sn ->
  recorded s s1 (old_mapping_ c) freed -> st_snaps s1 !! mr_snap (cow_mapper c) = Some sn1 ->
  arena_ok a -> (exists l, mapper_inv m l) -> snap_ok (mapping_tbl_ m) ->
  alloc_wf (file_page_allocator_ m) ->
  (forall q, fp_ok (mr_alloc (cow_mapper c)) q -> fp_ok (file_page_allocator_ m) q) ->
  (forall p fp, maps (mapping_tbl_ m) p fp -> maps (sn_tbl sn) p fp \/
     (~ fp_ok (mr_alloc (cow_mapper c)) fp /\ fp_ok (file_page_allocator_ m) fp)) ->
  (forall fp, fp ∈ freed -> (exists p, maps (sn_tbl sn) p fp) /\ forall p, ~ maps (mapping_tbl_ m) p fp) ->
  NoDup freed -> (append = true -> freed = []) ->
  cow_update append s (put_mapper s1 c sn1 m a) c
    (mkCow (of_mapper (mr_snap (cow_mapper c)) m) (old_mapping_ c)) (sn_tbl sn) (mapping_tbl_ m) freed.
Proof.
  intros Hinv Hc Hsn (H1 & H2 & H3 & H4 & H5 & H6 & Hlk) Hsn1 Ha [l Hl] Hok Hwf Hmono Hmaps Hfreed Hnd Happ.
  unfold put_mapper. split; cbn [st_cow st_pub st_readers st_next st_arena st_snaps cow_mapper old_mapping_ of_mapper mr_snap mr_alloc mr_head mr_cnt]; auto.
  - intros i. destruct (Z.eqb_spec i (mr_snap (cow_mapper c))) as [->|Hne].
    + rewrite lookup_insert_eq, Hsn. cbn [fmap option_fmap option_map]. rewrite Hlk, Hsn in Hsn1.
      cbn in Hsn1. injection Hsn1 as <-. reflexivity.
    + rewrite lookup_insert_ne by congruence. rewrite Hlk. reflexivity.
  - rewrite Hsn. reflexivity.
  - exists l. destruct m. exact Hl.
Qed.

Lemma mapped_in_use m l p fp : mapper_inv m l -> maps (mapping_tbl_ m) p fp -> in_use m l p.
Proof.
  intros Hm (Hp & Hfp & Hg). split; [exact Hp|]. intros Hin.
  pose proof (mi_chain m l Hm) as Hc. pose proof (mi_size m l Hm) as Hs. revert Hc Hin. clear Hm.
  induction l as [|q l IH]; intros Hc Hin; [inversion Hin|].
  destruct Hc as (Hq & Hlink & Hc). apply elem_of_cons in Hin as [->|Hin]; [|exact (IH Hc Hin)].
  apply (no_file_word (free_link (list_head l)) fp Hfp); [|congruence].
  unfold free_link. destruct (list_head_range _ _ Hc Hs) as [[_ ->]|[_ Hr]]; [left; reflexivity|].
  right. exists (list_head l). split; [exact Hr|].
  rewrite (proj2 (Z.eqb_neq _ MaxPageId)); [reflexivity|]. unfold max_pages in Hr.
  change MaxPageId with (2 ^ 32 - 1). lia.
Qed.

Lemma old_mapping_live append s c : store_inv append s -> st_cow s = Some c -> is_Some (st_snaps s !! old_mapping_ c).
Proof.
  intros Hinv Hc. destruct (si_cow _ _ Hinv c Hc) as [(sn & l & Hsn & _) Hp].
  destruct (st_pub s) as [m|] eqn:Hm; [|rewrite Hp; eauto].
  destruct Hp as (_ & -> & _). destruct (si_pub _ _ Hinv m Hm) as (sn' & l' & Hsn' & _). eauto.
Qed.

(** Recording the file page that is replaced. *)
Lemma record_old append s c sn page_id :
  store_inv append s -> st_cow s = Some c -> st_snaps s !! mr_snap (cow_mapper c) = Some sn ->
  page_id = MaxPageId \/ 0 <= page_id < logical_size_ (sn_tbl sn) ->
  exists s1 freed,
    (if (page_id =? MaxPageId) || append then Some s
     else
       old_fp ← ToFilePage ∅ (sn_tbl sn) page_id;
       if old_fp =? MaxFilePageId then Some s else AddFreeFilePage s (old_mapping_ c) old_fp) = Some s1 /\
    recorded s s1 (old_mapping_ c) freed /\ NoDup freed /\ (append = true -> freed = []) /\
    (forall fp, fp ∈ freed -> maps (sn_tbl sn) page_id fp).
Proof.
  intros Hinv Hc Hsn Hp. pose proof (si_snap _ _ Hinv _ _ Hsn) as Hok.
  assert (Hnil : exists s1 freed, Some s = Some s1 /\ recorded s s1 (old_mapping_ c) freed /\ NoDup freed /\
    (append = true -> freed = []) /\ (forall fp, fp ∈ freed -> maps (sn_tbl sn) page_id fp)).
  { exists s, []. split_and!; auto using recorded_nil; [constructor|]. intros fp Hin. inversion Hin. }
  destruct (Z.eqb_spec page_id MaxPageId) as [|Hne]; [exact Hnil|]. destruct append; [exact Hnil|].
  cbn [orb]. destruct Hp as [|Hp]; [contradiction|].
  destruct (ToFilePage_maps _ _ Hok Hp) as [(fp & -> & Hmax & Hm)|[-> _]]; cbn [mbind option_bind].
  - rewrite (proj2 (Z.eqb_neq fp MaxFilePageId)) by exact Hmax.
    destruct (AddFreeFilePage_recorded s (old_mapping_ c) fp (old_mapping_live _ _ _ Hinv Hc) Hmax)
      as (s1 & -> & Hr).
    exists s1, [fp]. split_and!; auto; [|discriminate|].
    + constructor; [intros Hin; inversion Hin|constructor].
    + intros q Hq. apply list_elem_of_singleton in Hq as ->. exact Hm.
  - rewrite Z.eqb_refl. exact Hnil.
Qed.

Lemma mapper_inv_alloc m l al :
  mapper_inv m l -> mapper_inv (mkMapper (mapping_tbl_ m) (free_page_head_ m) (free_page_cnt_ m) al) l.
Proof. intros []. split; assumption. Qed.

(** The page the task writes: a new one, or one it holds. *)
Lemma page_to_write a m l page_id :
  mapper_inv m l -> arena_ok a ->
  (page_id = MaxPageId /\ logical_size_ (mapping_tbl_ m) < max_pages) \/ (page_id <> MaxPageId /\ in_use m l page_id) ->
  exists id m1 a1 l1,
    (if page_id =? MaxPageId then GetPage a m else Some (page_id, m, a)) = Some (id, m1, a1) /\
    arena_ok a1 /\ mapper_inv m1 l1 /\ in_use m1 l1 id /\ file_page_allocator_ m1 = file_page_allocator_ m /\
    logical_size_ (mapping_tbl_ m1) = Z.max (logical_size_ (mapping_tbl_ m)) (id + 1) /\
    0 <= id <= logical_size_ (mapping_tbl_ m) /\
    (forall q, 0 <= q < logical_size_ (mapping_tbl_ m) -> q <> id -> Get (mapping_tbl_ m1) q = Get (mapping_tbl_ m) q) /\
    (page_id <> MaxPageId -> id = page_id).
Proof.
  intros Hm Ha [[-> Hs]|[Hne Hu]].
  - rewrite Z.eqb_refl. destruct (GetPage_spec a m l Hm Ha Hs) as (id & m1 & a1 & Hg & Ha1 & Hm1 & Hid & Hs1 & _ & Ho & Hal).
    pose proof (ti_size _ (mi_tbl m l Hm)) as Hsz. pose proof (mi_nodup m l Hm) as Hnd.
    assert (Hr : 0 <= id <= logical_size_ (mapping_tbl_ m) /\ id ∉ tail l).
    { destruct l as [|p l]; subst id; [split; [lia|intros Hin; inversion Hin]|].
      pose proof (free_chain_range _ _ p (mi_chain m _ Hm) ltac:(left)).
      inversion_clear Hnd. split; [lia|assumption]. }
    exists id, m1, a1, (tail l). split_and!; auto; try tauto; try lia. split; [lia|tauto].
  - rewrite (proj2 (Z.eqb_neq _ _)) by exact Hne. exists page_id, m, a, l.
    destruct Hu as [Hr Hn]. split_and!; auto; try lia. split; [lia|exact Hn].
Qed.

Definition writable (s : Store) (c : CowMeta) (page_id : Z) : Prop :=
  (page_id = MaxPageId /\ forall sn, st_snaps s !! mr_snap (cow_mapper c) = Some sn ->
     logical_size_ (sn_tbl sn) < max_pages) \/
  (page_id <> MaxPageId /\ cow_holds s page_id).

Lemma AllocatePage_spec append s c page_id :
  store_inv append s -> st_cow s = Some c -> max_fp_id_ (mr_alloc (cow_mapper c)) < 2 ^ 32 - 1 ->
  writable s c page_id ->
  exists id fp s' c' tbl tbl' freed, AllocatePage append s page_id = Some (id, fp, s') /\
    cow_update append s s' c c' tbl tbl' freed /\ st_disk s' = st_disk s /\
    ~ fp_ok (mr_alloc (cow_mapper c)) fp /\ maps tbl' id fp /\ tbl_changed tbl tbl' id (EncodeFilePageId fp) /\
    (page_id <> MaxPageId -> id = page_id) /\ cow_holds s' id.
Proof.
  intros Hinv Hc Hroom Hw.
  assert (Hm : exists sn l, st_snaps s !! mr_snap (cow_mapper c) = Some sn /\
    mapper_inv (to_mapper (cow_mapper c) sn) l /\
    ((page_id = MaxPageId /\ logical_size_ (sn_tbl sn) < max_pages) \/
     (page_id <> MaxPageId /\ in_use (to_mapper (cow_mapper c) sn) l page_id))).
  { destruct Hw as [[-> Hs]|[Hne (c1 & sn & l & Hc1 & Hsn & Hl & Hu)]].
    - destruct (si_cow _ _ Hinv c Hc) as [(sn & l & Hsn & Hl & _) _].
      exists sn, l. split; [exact Hsn|]. split; [exact Hl|]. left. split; [reflexivity|exact (Hs sn Hsn)].
    - assert (c1 = c) as -> by congruence. exists sn, l. split; [exact Hsn|]. split; [exact Hl|]. auto. }
  destruct Hm as (sn & l & Hsn & Hl & Hpg). unfold AllocatePage. rewrite Hc. cbn [mbind option_bind].
  rewrite Hsn. cbn [mbind option_bind].
  destruct (record_old append s c sn page_id Hinv Hc Hsn) as (s1 & freed & -> & Hrec & Hnd & Happ & Hfr);
    [destruct Hpg as [[-> _]|[_ [Hr _]]]; auto|]. cbn [mbind option_bind].
  pose proof Hrec as (_ & _ & _ & _ & Hdisk & Har & Hlk).
  assert (Hsn1 : exists sn1, st_snaps s1 !! mr_snap (cow_mapper c) = Some sn1 /\ sn_tbl sn1 = sn_tbl sn)
    by (rewrite Hlk, Hsn; eexists; split; reflexivity).
  destruct Hsn1 as (sn1 & Hsn1 & Ht1). rewrite Hsn1. cbn [mbind option_bind].
  replace (to_mapper (cow_mapper c) sn1) with (to_mapper (cow_mapper c) sn) by (unfold to_mapper; rewrite Ht1; reflexivity).
  rewrite Har.
  destruct (page_to_write (st_arena s) (to_mapper (cow_mapper c) sn) l page_id Hl (si_arena _ _ Hinv) Hpg)
    as (id & m1 & a1 & l1 & -> & Ha1 & Hm1 & Hu1 & Hal1 & Hs1 & Hid & Ho1 & Hsame). cbn [mbind option_bind].
  destruct (si_cow_alloc _ _ Hinv c Hc) as [Hwf Hall]. destruct (Hall _ _ Hsn) as [Hmapok _].
  rewrite Hal1. cbn [to_mapper file_page_allocator_].
  pose proof (Allocate_fresh _ Hwf Hroom) as Hfresh. destruct (Allocate (mr_alloc (cow_mapper c))) as [fp al'].
  destruct Hfresh as (Hno & Hfpok & Hfpr & Hwf' & Hmono).
  destruct (UpdateMapping_spec a1 _ l1 id fp (mapper_inv_alloc m1 l1 al' Hm1) Ha1 Hu1)
    as (m2 & a2 & -> & Ha2 & Hm2 & Hs2 & Hat2 & Ho2 & Hal2). cbn [mbind option_bind].
  cbn [mapping_tbl_ file_page_allocator_] in *.
  assert (Hch : tbl_changed (sn_tbl sn) (mapping_tbl_ m2) id (EncodeFilePageId fp)).
  { destruct Hu1 as [Hr1 _]. split; [exact (mi_tbl _ _ Hm2)|exact (mi_idle _ _ Hm2)|exact Hid| |
      exact (mi_size _ _ Hm2)|exact Hat2|].
    - rewrite Hs2. exact Hs1.
    - intros q Hq Hne. cbn in Hs1. rewrite Ho2 by lia. apply Ho1; assumption. }
  assert (Hok2 : snap_ok (mapping_tbl_ m2)).
  { apply (changed_ok _ _ _ _ (si_snap _ _ Hinv _ _ Hsn) Hch); [right; right; eauto|].
    intros q fp' He Hmq. assert (fp = fp') as <- by (destruct Hmq as (_ & ? & _); apply file_word_inj; auto).
    exact (Hno (Hmapok _ _ Hmq)). }
  do 7 eexists. split; [reflexivity|]. split.
  - apply (put_mapper_update append s s1 c sn sn1 m2 a2 freed Hinv Hc Hsn Hrec Hsn1 Ha2); auto.
    + eauto.
    + rewrite Hal2. exact Hwf'.
    + rewrite Hal2. exact Hmono.
    + intros p fp' Hmp. rewrite Hal2.
      destruct (changed_maps _ _ _ _ _ _ Hch Hmp) as [[-> He]|[_ Hm0]]; [right|left; exact Hm0].
      assert (fp = fp') as <- by (destruct Hmp as (_ & ? & _); apply file_word_inj; auto). auto.
    + intros fq Hfq. pose proof (Hfr fq Hfq) as Hold. split; [eauto|]. intros q Hmq.
      assert (page_id = id) as ->.
      { symmetry. apply Hsame. intros ->. destruct Hold as (Hr & _).
        pose proof (sk_size _ (si_snap _ _ Hinv _ _ Hsn)). unfold max_pages in *.
        change MaxPageId with (2 ^ 32 - 1) in Hr. lia. }
      destruct (changed_maps _ _ _ _ _ _ Hch Hmq) as [[-> He]|[Hne Hm0]].
      * assert (fp = fq) as -> by (destruct Hmq as (_ & ? & _); apply file_word_inj; auto).
        exact (Hno (Hmapok _ _ Hold)).
      * apply Hne. exact (sk_inj _ (si_snap _ _ Hinv _ _ Hsn) _ _ _ Hm0 Hold).
  - split; [exact Hdisk|]. split; [exact Hno|]. split; [destruct Hu1; split_and!; auto; lia|].
    split; [exact Hch|]. split; [exact Hsame|].
    exists (mkCow (of_mapper (mr_snap (cow_mapper c)) m2) (old_mapping_ c)).
    eexists. exists l1. split; [reflexivity|]. split; [apply lookup_insert_eq|].
    split; [destruct m2; exact Hm2|]. destruct Hu1 as [Hr1 Hn1]. split; [cbn; lia|exact Hn1].
Qed.

(** The write task has a file page for [p]. *)
Definition cow_maps (s : Store) (p : Z) : Prop :=
  exists c sn fp, st_cow s = Some c /\ st_snaps s !! mr_snap (cow_mapper c) = Some sn /\ maps (sn_tbl sn) p fp.

Lemma record_freed append s c sn p fp :
  store_inv append s -> st_cow s = Some c -> st_snaps s !! mr_snap (cow_mapper c) = Some sn ->
  maps (sn_tbl sn) p fp ->
  exists s1, (if append then Some s
              else fp ← ToFilePage ∅ (sn_tbl sn) p; AddFreeFilePage s (old_mapping_ c) fp) = Some s1 /\
    recorded s s1 (old_mapping_ c) (if append then [] else [fp]).
Proof.
  intros Hinv Hc Hsn Hm. destruct append; [exists s; split; [reflexivity|apply recorded_nil]|].
  destruct (ToFilePage_maps _ p (si_snap _ _ Hinv _ _ Hsn) (proj1 Hm)) as [(fp1 & -> & Hmax & Hm1)|[_ Hno]].
  - assert (fp1 = fp) as -> by (eapply maps_fun; eassumption). cbn [mbind option_bind].
    apply AddFreeFilePage_recorded; [eapply old_mapping_live; eassumption|exact Hmax].
  - destruct (Hno fp Hm).
Qed.

Lemma CowFreePage_spec append s p :
  store_inv append s -> cow_maps s p ->
  exists s' c c' tbl tbl' freed, CowFreePage append s p = Some s' /\
    cow_update append s s' c c' tbl tbl' freed /\ st_disk s' = st_disk s /\
    (forall fp, ~ maps tbl' p fp) /\ (forall q fp, q <> p -> maps tbl q fp <-> maps tbl' q fp).
Proof.
  intros Hinv (c & sn & fp & Hc & Hsn & Hm). unfold CowFreePage. rewrite Hc. cbn [mbind option_bind].
  rewrite Hsn. cbn [mbind option_bind].
  destruct (record_freed append s c sn p fp Hinv Hc Hsn Hm) as (s1 & -> & Hrec). cbn [mbind option_bind].
  pose proof Hrec as (_ & _ & _ & _ & Hdisk & Har & Hlk).
  assert (Hsn1 : exists sn1, st_snaps s1 !! mr_snap (cow_mapper c) = Some sn1 /\ sn_tbl sn1 = sn_tbl sn)
    by (rewrite Hlk, Hsn; eexists; split; reflexivity).
  destruct Hsn1 as (sn1 & Hsn1 & Ht1). rewrite Hsn1. cbn [mbind option_bind].
  replace (to_mapper (cow_mapper c) sn1) with (to_mapper (cow_mapper c) sn) by (unfold to_mapper; rewrite Ht1; reflexivity).
  rewrite Har. destruct (si_cow _ _ Hinv c Hc) as [(sn2 & l & Hsn2 & Hl & _) _].
  assert (sn2 = sn) as -> by congruence.
  pose proof (mapped_in_use _ l p fp Hl Hm) as Hu.
  destruct (FreePage_spec (st_arena s) _ l p Hl (si_arena _ _ Hinv) Hu)
    as (m' & a' & -> & Ha' & Hm' & Hs' & Ho & Hal). cbn [mbind option_bind].
  pose proof (mi_chain _ _ Hm') as (_ & Hlink & Hch'). cbn [mapping_tbl_ to_mapper file_page_allocator_] in *.
  assert (Hpw : free_link (list_head l) = InvalidValue \/
    exists q, 0 <= q < max_pages /\ free_link (list_head l) = EncodePageId q).
  { unfold free_link. destruct (list_head_range _ _ Hch' (mi_size _ _ Hm')) as [[_ ->]|[_ Hr]]; [left; reflexivity|].
    right. exists (list_head l). split; [exact Hr|]. rewrite (proj2 (Z.eqb_neq _ MaxPageId)); [reflexivity|].
    unfold max_pages in Hr. change MaxPageId with (2 ^ 32 - 1). lia. }
  assert (Hch : tbl_changed (sn_tbl sn) (mapping_tbl_ m') p (free_link (list_head l))).
  { destruct Hm as (Hp & _). split; auto; try lia; [exact (mi_tbl _ _ Hm')|exact (mi_idle _ _ Hm')|exact (mi_size _ _ Hm')]. }
  assert (Hnm : forall q, ~ maps (mapping_tbl_ m') p q).
  { intros q Hq. destruct (changed_maps _ _ _ _ _ _ Hch Hq) as [[_ He]|[Hne _]]; [|congruence].
    destruct Hq as (_ & Hqr & _). exact (no_file_word _ q Hqr Hpw He). }
  do 6 eexists. split; [reflexivity|]. split.
  - apply (put_mapper_update append s s1 c sn sn1 m' a' _ Hinv Hc Hsn Hrec Hsn1 Ha'); rewrite ?Hal; eauto.
    + apply (changed_ok _ _ _ _ (si_snap _ _ Hinv _ _ Hsn) Hch); [destruct Hpw; unfold plain_word; eauto|].
      intros q fq He Hq. destruct Hq as (_ & Hqr & _). exact (no_file_word _ fq Hqr Hpw He).
    + exact (proj1 (si_cow_alloc _ _ Hinv c Hc)).
    + intros q fq Hq. destruct (changed_maps _ _ _ _ _ _ Hch Hq) as [[-> He]|[_ Hm0]]; [|auto].
      destruct (Hnm _ Hq).
    + intros fq Hfq. destruct append; [inversion Hfq|]. apply list_elem_of_singleton in Hfq as ->.
      split; [eauto|]. intros q Hq. destruct (changed_maps _ _ _ _ _ _ Hch Hq) as [[-> _]|[Hne Hm0]].
      * exact (Hnm _ Hq).
      * apply Hne. exact (sk_inj _ (si_snap _ _ Hinv _ _ Hsn) _ _ _ Hm0 Hm).
    + destruct append; [constructor|]. constructor; [intros Hin; inversion Hin|constructor].
    + intros ->. reflexivity.
  - split; [exact Hdisk|]. split; [exact Hnm|]. intros q fq Hne. split.
    + intros (Hq & Hfq & Hg). split_and!; auto; try lia. rewrite Ho by auto. exact Hg.
    + intros Hq. destruct (changed_maps _ _ _ _ _ _ Hch Hq) as [[-> _]|[_ Hm0]]; [congruence|exact Hm0].
Qed.

(** ** Deleting snapshots *)
Lemma Referenced_false s i :
  Referenced s i = false ->
  (forall m, st_pub s = Some m -> mr_snap m <> i) /\
  (forall c, st_cow s = Some c -> mr_snap (cow_mapper c) <> i /\ old_mapping_ c <> i) /\
  (i ∉ st_readers s) /\ (forall k sn, st_snaps s !! k = Some sn -> sn_next sn <> Some i).
Proof.
  unfold Referenced. rewrite !orb_false_iff, !bool_decide_eq_false.
  intros [[[[H1 H2] H3] H4] H5]. split_and!.
  - intros m Hm He. apply H1. rewrite Hm. simpl. congruence.
  - intros c Hc. split; intros He; [apply H2|apply H3]; rewrite Hc; simpl; congruence.
  - exact H4.
  - intros k sn Hk Hn. apply not_true_iff_false in H5. apply H5. apply existsb_exists.
    exists (k, sn). split; [apply list_elem_of_In, elem_of_map_to_list; exact Hk|].
    apply bool_decide_eq_true. exact Hn.
Qed.

Definition set_alloc (al : FilePageAllocator) (m : MapperRef) : MapperRef :=
  mkMapperRef (mr_snap m) (mr_head m) (mr_cnt m) al.

Section delete.
  Context (append : bool) (s : Store) (i : Z) (sn : Snapshot) (m : MapperRef).
  Context (Hinv : store_inv append s) (Hi : st_snaps s !! i = Some sn) (Hpub : st_pub s = Some m).
  Context (Hnp : mr_snap m <> i) (Hnc : forall c, st_cow s = Some c -> mr_snap (cow_mapper c) <> i /\ old_mapping_ c <> i).
  Context (Hnr : i ∉ st_readers s) (Hnn : forall k sk, st_snaps s !! k = Some sk -> sn_next sk <> Some i).

Lemma deleted_below : i < mr_snap m.
Proof.
  destruct (si_top _ _ Hinv i sn Hi) as [(m1 & Hm1 & Hle) | (c & Hc & He)].
  - assert (m1 = m) as -> by congruence. lia.
  - destruct (Hnc c Hc). congruence.
Qed.

(** In the chained mode a snapshot that nothing refers to is the oldest. *)
Lemma deleted_oldest k : append = false -> is_Some (st_snaps s !! k) -> k <> i -> i < k.
Proof.
  intros Happ Hk Hne. destruct (Z.lt_ge_cases i k) as [|Hge]; [assumption|]. exfalso.
  assert (Hlt : k < i) by lia. clear Hge Hne.
  remember (Z.to_nat (i - k)) as d eqn:Hd. revert k Hk Hlt Hd.
  induction d as [d IH] using lt_wf_ind. intros k [sk Hk] Hlt ->.
  pose proof deleted_below. destruct (si_chain _ _ Hinv Happ m k sk Hpub Hk ltac:(lia)) as (j & Hj & Hkj & Hsj & Hmin).
  assert (Hji : j <= i) by (apply Hmin; [eauto|exact Hlt]).
  assert (j <> i) by (intros ->; exact (Hnn k sk Hk Hj)).
  apply (IH (Z.to_nat (i - j)) ltac:(lia) j Hsj); [lia|reflexivity].
Qed.

Lemma delete_inv al' :
  alloc_wf al' ->
  (forall j snj, st_snaps s !! j = Some snj -> j <> i -> j <= mr_snap m ->
     (forall p fp, maps (sn_tbl snj) p fp -> fp_ok al' fp) /\
     (~ collecting s j -> forall fp, fp ∈ to_free_file_pages_ snj -> fp_ok al' fp)) ->
  store_inv append (with_pub (with_snaps s (delete i (st_snaps s))) (Some (set_alloc al' m))).
Proof.
  intros Hwf Hal.
  assert (Hlk : forall j snj, delete i (st_snaps s) !! j = Some snj -> j <> i /\ st_snaps s !! j = Some snj)
    by (intros j snj Hj; apply lookup_delete_Some in Hj as [? ?]; auto).
  assert (Hlk' : forall j, j <> i -> is_Some (st_snaps s !! j) -> is_Some (delete i (st_snaps s) !! j))
    by (intros j Hne [x Hx]; exists x; apply lookup_delete_Some; auto).
  assert (Hmap : forall m1, mapper_ok s m1 -> mr_snap m1 <> i -> mapper_ok (with_pub (with_snaps s (delete i (st_snaps s))) (Some (set_alloc al' m))) m1).
  { intros m1 (x & l & Hx & Hl & Hn) Hne. exists x, l. split; [|auto]. cbn. apply lookup_delete_Some. auto. }
  assert (Htop : forall j, top (with_pub (with_snaps s (delete i (st_snaps s))) (Some (set_alloc al' m))) j -> top s j)
    by (intros j; unfold top; cbn; rewrite Hpub; auto).
  split; cbn [with_pub with_snaps st_snaps st_pub st_cow st_readers st_next st_arena].
  - exact (si_arena _ _ Hinv).
  - intros j snj [_ Hj]%Hlk. exact (si_ids _ _ Hinv j snj Hj).
  - intros j snj [_ Hj]%Hlk. exact (si_snap _ _ Hinv j snj Hj).
  - intros m1 Hm1. injection Hm1 as <-. destruct (si_pub _ _ Hinv m Hpub) as (x & l & Hx & Hl & Hn).
    exists x, l. split; [cbn; apply lookup_delete_Some; auto|]. split; [exact (mapper_inv_alloc _ _ al' Hl)|exact Hn].
  - intros c Hc. destruct (si_cow _ _ Hinv c Hc) as [Hmo Hp]. rewrite Hpub in Hp. destruct (Hnc c Hc) as [Hc1 Hc2].
    split; [exact (Hmap _ Hmo Hc1)|]. cbn. destruct Hp as (H1 & H2 & H3). split_and!; auto.
    intros x [_ Hx]%Hlk. exact (H3 x Hx).
  - intros j snj [Hne Hj]%Hlk. destruct (si_top _ _ Hinv j snj Hj) as [(m1 & Hm1 & Hle)|Hc]; [|right; exact Hc].
    left. exists (set_alloc al' m). split; [reflexivity|]. assert (m1 = m) as -> by congruence. exact Hle.
  - intros Happ m1 j snj Hm1 [Hne Hj]%Hlk Hlt. injection Hm1 as <-.
    destruct (si_chain _ _ Hinv Happ m j snj Hpub Hj Hlt) as (k & Hk & Hjk & Hsk & Hmin).
    exists k. split; [exact Hk|]. split; [exact Hjk|].
    split; [apply Hlk'; [intros ->; exact (Hnn j snj Hj Hk)|exact Hsk]|].
    intros q [x Hq]. apply Hlk in Hq as [_ Hq]. apply Hmin. eauto.
  - intros j snj k [Hne Hj]%Hlk Hk. destruct (si_next _ _ Hinv j snj k Hj Hk) as (H1 & H2 & m1 & Hm1 & H3).
    split; [exact H1|]. split; [apply Hlk'; [intros ->; exact (Hnn j snj Hj Hk)|exact H2]|].
    exists (set_alloc al' m). split; [reflexivity|]. assert (m1 = m) as -> by congruence. exact H3.
  - intros j Hj. destruct (si_readers _ _ Hinv j Hj) as (H1 & m1 & Hm1 & H2).
    split; [apply Hlk'; [intros ->; contradiction|exact H1]|].
    exists (set_alloc al' m). split; [reflexivity|]. assert (m1 = m) as -> by congruence. exact H2.
  - intros j k snj snk fp p [_ Hj]%Hlk [_ Hk]%Hlk Hin Hord. apply (si_free_sep _ _ Hinv j k snj snk fp p Hj Hk Hin).
    destruct Hord as [|[? Ht]]; [auto|right]. split; [assumption|]. exact (Htop _ Ht).
  - intros j snj [_ Hj]%Hlk. exact (si_free_nodup _ _ Hinv j snj Hj).
  - intros j k snj snk fp Hne [_ Hj]%Hlk [_ Hk]%Hlk. exact (si_free_disj _ _ Hinv j k snj snk fp Hne Hj Hk).
  - intros m1 Hm1. injection Hm1 as <-. split; [exact Hwf|]. intros j snj [Hne Hj]%Hlk Hle. exact (Hal j snj Hj Hne Hle).
  - intros c Hc. destruct (si_cow_alloc _ _ Hinv c Hc) as [H1 H2]. split; [exact H1|].
    intros j snj [_ Hj]%Hlk. exact (H2 j snj Hj).
  - intros Happ j snj [_ Hj]%Hlk. exact (si_append _ _ Hinv Happ j snj Hj).
Qed.
End delete.

Lemma PoolFree_wf al fps :
  alloc_wf al -> NoDup fps -> (forall fp, fp ∈ fps -> fp_ok al fp) ->
  alloc_wf (PoolFree al fps) /\ (forall q, fp_ok al q -> q ∉ fps -> fp_ok (PoolFree al fps) q).
Proof.
  intros [Hm Hnd Hf] Hfp Hin.
  assert (Hu : map u32 fps = fps).
  { rewrite <- (map_id fps) at 2. apply map_ext_in. intros p Hp%list_elem_of_In. apply u32_id.
    destruct (Hin p Hp) as [Hr _]. unfold is_u32. lia. }
  unfold PoolFree, fp_ok, free_ids in *. destruct (alloc_kind al) as [st|ids] eqn:Hk.
  - split; [split; unfold free_ids; rewrite ?Hk; auto|]. intros q Hq _. rewrite Hk. exact Hq.
  - rewrite Hu. cbn [max_fp_id_ alloc_kind]. split; [split; unfold free_ids; cbn; auto|].
    + apply list.NoDup_app. split; [rewrite reverse_Permutation; exact Hfp|]. split; [|exact Hnd].
      intros p Hp. rewrite elem_of_reverse in Hp. exact (proj2 (Hin p Hp)).
    + intros p Hp. rewrite elem_of_app, elem_of_reverse in Hp. destruct Hp as [Hp|Hp]; [|auto].
      exact (proj1 (Hin p Hp)).
    + intros q [Hq Hn] Hnf. split; [exact Hq|]. rewrite elem_of_app, elem_of_reverse. tauto.
Qed.

(** What stays the same when snapshots are deleted. *)
Definition shrunk (s s' : Store) : Prop :=
  st_disk s' = st_disk s /\ st_cow s' = st_cow s /\ st_readers s' = st_readers s /\
  st_next s' = st_next s /\ mr_snap <$> st_pub s' = mr_snap <$> st_pub s /\
  forall k sn, st_snaps s' !! k = Some sn -> st_snaps s !! k = Some sn.

Lemma FreeMappingSnapshot_inv append s i sn :
  store_inv append s -> st_snaps s !! i = Some sn -> Referenced s i = false ->
  exists s', FreeMappingSnapshot s i sn = Some s' /\ store_inv append s' /\ shrunk s s' /\
    st_snaps s' = delete i (st_snaps s).
Proof.
  intros Hinv Hi (Hnp & Hnc & Hnr & Hnn)%Referenced_false.
  assert (Hm : exists m, st_pub s = Some m).
  { destruct (si_top _ _ Hinv i sn Hi) as [(m & Hm & _)|(c & Hc & He)]; [eauto|].
    destruct (Hnc c Hc). congruence. }
  destruct Hm as [m Hm]. specialize (Hnp m Hm). destruct (si_pub_alloc _ _ Hinv m Hm) as [Hwf Hal].
  assert (Hsub : forall k sk, delete i (st_snaps s) !! k = Some sk -> st_snaps s !! k = Some sk)
    by (intros k sk Hk; apply lookup_delete_Some in Hk as [_ Hk]; exact Hk).
  unfold FreeMappingSnapshot. destruct (to_free_file_pages_ sn) as [|fp fps] eqn:Hfree.
  - eexists. split; [reflexivity|].
    split; [|split; [split_and!; auto|reflexivity]].
    replace (with_snaps s (delete i (st_snaps s)))
      with (with_pub (with_snaps s (delete i (st_snaps s))) (Some (set_alloc (mr_alloc m) m)))
      by (unfold with_pub, with_snaps, set_alloc; cbn; rewrite Hm; destruct m; reflexivity).
    apply (delete_inv append s i m Hinv Hm Hnp Hnc Hnr Hnn); [exact Hwf|].
    intros j snj Hj _ Hle. exact (Hal j snj Hj Hle).
  - rewrite <- Hfree, Hm. cbn [mbind option_bind]. eexists. split; [reflexivity|].
    split; [|split; [split_and!; auto; cbn; rewrite Hm; reflexivity|reflexivity]].
    assert (Happ : append = false).
    { destruct append; [|reflexivity]. pose proof (si_append _ _ Hinv eq_refl i sn Hi). congruence. }
    pose proof (deleted_below append s i sn m Hinv Hi Hm Hnp Hnc) as Hlt.
    assert (Hncol : ~ collecting s i).
    { unfold collecting. destruct (st_cow s) as [c|] eqn:Hc; [|auto]. destruct (Hnc c eq_refl). congruence. }
    destruct (Hal i sn Hi ltac:(lia)) as [_ Hfok]. specialize (Hfok Hncol).
    destruct (PoolFree_wf _ _ Hwf (si_free_nodup _ _ Hinv i sn Hi) Hfok) as [Hwf' Hok'].
    apply (delete_inv append s i m Hinv Hm Hnp Hnc Hnr Hnn); [exact Hwf'|].
    intros j snj Hj Hne Hle. destruct (Hal j snj Hj Hle) as [H1 H2].
    assert (Hij : i < j) by (eapply deleted_oldest; eauto).
    split.
    + intros p q Hq. apply Hok'; [exact (H1 p q Hq)|]. intros Hin.
      apply (si_free_sep _ _ Hinv i j sn snj q p Hi Hj Hin); auto.
    + intros Hc q Hq. apply Hok'; [exact (H2 Hc q Hq)|]. intros Hin.
      exact (si_free_disj _ _ Hinv i j sn snj q (not_eq_sym Hne) Hi Hj Hin Hq).
Qed.

Lemma shrunk_trans s1 s2 s3 : shrunk s1 s2 -> shrunk s2 s3 -> shrunk s1 s3.
Proof.
  intros (A1 & A2 & A3 & A4 & A5 & A6) (B1 & B2 & B3 & B4 & B5 & B6). split_and!; try congruence. auto.
Qed.

(** Dropping a reference always succeeds and keeps the invariant. *)
Lemma Release_inv append s i :
  store_inv append s -> exists s', Release s i = Some s' /\ store_inv append s' /\ shrunk s s'.
Proof.
  unfold Release. assert (Hgen : forall fuel s i, (size (st_snaps s) <= fuel)%nat -> store_inv append s ->
    exists s', ReleaseRef fuel s i = Some s' /\ store_inv append s' /\ shrunk s s').
  2:{ intros Hinv. apply Hgen; [lia|exact Hinv]. }
  clear s i. intros fuel. induction fuel as [|fuel IH]; intros s i Hf Hinv; cbn [ReleaseRef];
    (destruct (st_snaps s !! i) as [sn|] eqn:Hi; [|exists s; split_and!; auto; split_and!; auto]);
    (destruct (Referenced s i) eqn:Hr; [exists s; split_and!; auto; split_and!; auto|]).
  - assert (size (st_snaps s) <> 0%nat); [|lia]. intros H0%map_size_empty_inv. rewrite H0, lookup_empty in Hi. discriminate Hi.
  - destruct (FreeMappingSnapshot_inv append s i sn Hinv Hi Hr) as (s1 & -> & Hinv1 & Hsh1 & Hd). cbn [mbind option_bind].
    destruct (sn_next sn) as [j|]; [|exists s1; auto].
    destruct (IH s1 j) as (s2 & Hr2 & Hinv2 & Hsh2); auto.
    { rewrite Hd, map_size_delete_Some by eauto. lia. }
    exists s2. split_and!; auto. exact (shrunk_trans _ _ _ Hsh1 Hsh2).
Qed.

(** ** Starting a batch *)
Definition same_tbl (t t' : MappingTbl) : Prop :=
  tbl_inv t' /\ under_copying_ t' = false /\ logical_size_ t' = logical_size_ t /\
  forall p, 0 <= p < logical_size_ t -> Get t' p = Get t p.

Lemma same_maps t t' p fp : same_tbl t t' -> maps t' p fp <-> maps t p fp.
Proof.
  intros (_ & _ & Hs & Hg). unfold maps. rewrite Hs. split; intros (Hp & Hfp & H); split_and!; auto; try lia.
  - rewrite <- Hg by lia. exact H.
  - rewrite Hg by lia. exact H.
Qed.

Lemma same_ok t t' : same_tbl t t' -> snap_ok t -> snap_ok t'.
Proof.
  intros Hsame [_ _ Hm Hp Hinj]. pose proof Hsame as (Hi & Hc & Hs & Hg). split; auto; try lia.
  - intros p Hr. rewrite Hg by lia. apply Hp. lia.
  - intros p q fp H1 H2. apply (same_maps _ _ _ _ Hsame) in H1, H2. exact (Hinj p q fp H1 H2).
Qed.

Lemma same_mapper t t' head cnt al al' l :
  same_tbl t t' -> mapper_inv (mkMapper t head cnt al) l -> mapper_inv (mkMapper t' head cnt al') l.
Proof.
  intros (Hi & Hc & Hs & Hg) [_ _ Hm Hh Hch Hnd Hcnt]. cbn in *. split; cbn; auto; [lia|].
  apply (free_chain_frame t); [exact Hch|lia|]. intros p Hp. apply Hg, (free_chain_range _ _ _ Hch Hp).
Qed.

Lemma quiet_copy a t :
  arena_ok a -> snap_ok t ->
  exists src dst a', copy_table a t (quiet_yields (logical_size_ t)) = Some (src, dst, a') /\
    arena_ok a' /\ same_tbl t src /\ same_tbl t dst.
Proof.
  intros Ha [Hi Hc Hm Hp _]. pose proof (ti_size t Hi) as Hsz. pose proof (ti_idle t Hi Hc) as Hch.
  destruct (Z.eq_dec (logical_size_ t) 0) as [H0|Hn].
  - unfold copy_table, CopyFrom. cbn [StartCopying logical_size_]. rewrite H0, Z.eqb_refl.
    cbn [tbl_clear base_ empty_tbl]. cbn [mbind option_bind fold_left].
    unfold ApplyPendingTo, FinishCopying. cbn [StartCopying logical_size_ empty_tbl changes_].
    rewrite H0, Hch, Z.ltb_irrefl, map_to_list_empty. cbn [set_all mbind option_bind ApplyChanges base_ logical_size_ StartCopying].
    assert (Hs : forall b, uniform b -> 0 <= zlen (concat b) -> same_tbl t (mkTbl false ∅ b 0)).
    { intros b Hb Hl. split_and!; cbn; auto; [|lia].
      split; cbn; auto; [lia|]. intros p v Hpv. rewrite lookup_empty in Hpv. discriminate Hpv. }
    do 3 eexists. split; [reflexivity|]. split; [exact Ha|]. split.
    + rewrite H0. apply Hs; [exact (ti_uniform t Hi)|apply zlen_nonneg].
    + apply Hs; [constructor|apply zlen_nonneg].
  - assert (Hreq : 0 <= RequiredChunks (logical_size_ t))
      by (pose proof (RequiredChunks_enough (logical_size_ t) ltac:(lia)) as [H _]; change kChunkSize with 512 in H; lia).
    assert (Hys : yields_ok (logical_size_ t) (base_ t) (quiet_yields (logical_size_ t))).
    { unfold quiet_yields. split; [unfold zlen; rewrite length_replicate; lia|].
      split; [apply Forall_replicate; constructor|].
      intros h p w _ Hr Hw. destruct (Hp p Hr) as (w' & Hw' & Hpl).
      rewrite (Get_eq t p Hi Hr), Hch, lookup_empty in Hw'. assert (w' = w) as -> by congruence.
      unfold copy_word. rewrite (plain_word_copy w Hpl). eauto. }
    destruct (copy_table_spec a t _ _ Ha Hi Hc eq_refl ltac:(lia) Hys)
      as (src & dst & a' & Hcp & Ha' & Hi1 & Hi2 & Hc1 & Hc2 & Hs1 & Hs2 & Hg).
    assert (Hyw : forall p, yield_writes (quiet_yields (logical_size_ t)) !! p = None).
    { intros p. unfold yield_writes, quiet_yields. generalize (Z.to_nat (RequiredChunks (logical_size_ t) + 1)).
      intros k. replace (concat _) with (@nil (Z * Z)); [apply lookup_empty|].
      induction k as [|k IH]; [reflexivity|]. simpl. exact IH. }
    exists src, dst, a'. split; [exact Hcp|]. split; [exact Ha'|].
    split; split_and!; auto; intros p Hr; specialize (Hg p Hr); rewrite Hyw in Hg; destruct Hg as [Hg1 (h & w & w' & _ & Hw & Hcw & Hd)].
    + exact Hg1.
    + destruct (Hp p Hr) as (w0 & Hw0 & Hpl). assert (w0 = w) as -> by congruence.
      unfold copy_word in Hcw. rewrite (plain_word_copy w Hpl) in Hcw. congruence.
Qed.

Lemma same_refl t : snap_ok t -> same_tbl t t.
Proof. intros []. split_and!; auto. Qed.

Section start.
  Context (append : bool) (s s' : Store) (m : MapperRef) (snp : Snapshot) (dst : MappingTbl).
  Context (Hinv : store_inv append s) (Hcow : st_cow s = None) (Hpub : st_pub s = Some m).
  Context (Hsnp : st_snaps s !! mr_snap m = Some snp) (Hdst : same_tbl (sn_tbl snp) dst).
  Context (Hpub' : st_pub s' = Some m) (Hr' : st_readers s' = st_readers s) (Hn' : st_next s' = st_next s + 1).
  Context (Ha' : arena_ok (st_arena s')).
  Context (Hcow' : st_cow s' = Some (mkCow (mkMapperRef (st_next s) (mr_head m) (mr_cnt m) (mr_alloc m)) (mr_snap m))).
  Context (Hnew : st_snaps s' !! st_next s = Some (mkSnap dst [] None)).
  Context (Hback : forall j x, st_snaps s' !! j = Some x -> j <> st_next s ->
    exists y, st_snaps s !! j = Some y /\ to_free_file_pages_ x = to_free_file_pages_ y /\
      sn_next x = sn_next y /\ same_tbl (sn_tbl y) (sn_tbl x)).
  Context (Hfwd : forall j, is_Some (st_snaps s !! j) -> is_Some (st_snaps s' !! j)).

Lemma start_cases j x : st_snaps s' !! j = Some x ->
  (j = st_next s /\ x = mkSnap dst [] None) \/
  (j <= mr_snap m /\ j < st_next s /\ exists y, st_snaps s !! j = Some y /\
     to_free_file_pages_ x = to_free_file_pages_ y /\ sn_next x = sn_next y /\ same_tbl (sn_tbl y) (sn_tbl x)).
Proof.
  intros Hj. destruct (Z.eq_dec j (st_next s)) as [->|Hne]; [left; split; [reflexivity|congruence]|right].
  destruct (Hback j x Hj Hne) as (y & Hy & H1 & H2 & H3).
  pose proof (si_ids _ _ Hinv j y Hy). destruct (si_top _ _ Hinv j y Hy) as [(m1 & Hm1 & Hle)|(c & Hc & _)];
    [|congruence]. assert (m1 = m) as -> by congruence. eauto 10.
Qed.

Lemma pub_below_next : mr_snap m < st_next s.
Proof. exact (si_ids _ _ Hinv _ _ Hsnp). Qed.

Lemma start_free_sep j k x y fp p :
  st_snaps s' !! j = Some x -> st_snaps s' !! k = Some y -> fp ∈ to_free_file_pages_ x ->
  j < k \/ (j = k /\ top s' k) -> ~ maps (sn_tbl y) p fp.
Proof.
  intros Hj Hk Hin Hord Hm.
  destruct (start_cases j x Hj) as [[-> ->]|(Hle & _ & x0 & Hx0 & Hfx & _ & _)]; [inversion Hin|].
  rewrite Hfx in Hin.
  destruct (start_cases k y Hk) as [[-> ->]|(Hlk & _ & y0 & Hy0 & _ & _ & Hsy)].
  - apply (same_maps _ _ _ _ Hdst) in Hm. apply (si_free_sep _ _ Hinv j (mr_snap m) x0 snp fp p Hx0 Hsnp Hin); [|exact Hm].
    destruct (Z.eq_dec j (mr_snap m)) as [->|]; [right|left; lia].
    split; [reflexivity|]. unfold top. rewrite Hcow, Hpub. reflexivity.
  - apply (same_maps _ _ _ _ Hsy) in Hm. apply (si_free_sep _ _ Hinv j k x0 y0 fp p Hx0 Hy0 Hin); [|exact Hm].
    destruct Hord as [|[<- Ht]]; [auto|]. unfold top in Ht. rewrite Hcow' in Ht. cbn in Ht.
    pose proof pub_below_next. lia.
Qed.

Lemma start_inv : store_inv append s'.
Proof.
  pose proof pub_below_next as Hpn.
  destruct (si_pub _ _ Hinv m Hpub) as (snp' & l & Hsnp' & Hl & Hnx).
  assert (snp' = snp) as -> by congruence.
  destruct (si_pub_alloc _ _ Hinv m Hpub) as [Hwf Hal].
  assert (Hnc : forall j, ~ collecting s j) by (intros j; unfold collecting; rewrite Hcow; auto).
  split.
  - exact Ha'.
  - intros j x Hj. rewrite Hn'. destruct (start_cases j x Hj) as [[-> _]|(_ & Hlt & _)]; lia.
  - intros j x Hj. destruct (start_cases j x Hj) as [[-> ->]|(_ & _ & y & Hy & _ & _ & Hs)].
    + exact (same_ok _ _ Hdst (si_snap _ _ Hinv _ _ Hsnp)).
    + exact (same_ok _ _ Hs (si_snap _ _ Hinv _ _ Hy)).
  - intros m1 Hm1. assert (m1 = m) as -> by congruence.
    destruct (Hfwd (mr_snap m) ltac:(eauto)) as [x Hx]. destruct (Hback _ _ Hx ltac:(lia)) as (y & Hy & _ & Hn & Hs).
    assert (y = snp) as -> by congruence. exists x, l. split; [exact Hx|].
    split; [exact (same_mapper _ _ _ _ _ _ _ Hs Hl)|congruence].
  - intros c Hc. rewrite Hcow' in Hc. injection Hc as <-. rewrite Hpub'. cbn [cow_mapper mr_snap old_mapping_].
    split; [|split_and!; auto; intros x Hx; rewrite Hnew in Hx; injection Hx as <-; reflexivity].
    exists (mkSnap dst [] None), l. split; [exact Hnew|]. split; [exact (same_mapper _ _ _ _ _ _ _ Hdst Hl)|reflexivity].
  - intros j x Hj. rewrite Hpub', Hcow'. destruct (start_cases j x Hj) as [[-> _]|(Hle & _)]; [right|left]; eauto.
  - intros Happ m1 j x Hm1 Hj Hlt. assert (m1 = m) as -> by congruence.
    destruct (Hback j x Hj ltac:(lia)) as (y & Hy & _ & -> & _).
    destruct (si_chain _ _ Hinv Happ m j y Hpub Hy Hlt) as (k & Hk & Hjk & Hsk & Hmin).
    destruct (si_next _ _ Hinv j y k Hy Hk) as (_ & _ & m1 & Hm2 & Hkm). assert (m1 = m) as -> by congruence.
    exists k. split; [exact Hk|]. split; [exact Hjk|]. split; [exact (Hfwd k Hsk)|].
    intros q [z Hz] Hjq. destruct (start_cases q z Hz) as [[-> _]|(_ & _ & z0 & Hz0 & _)]; [lia|].
    apply Hmin; eauto.
  - intros j x k Hj Hk. rewrite Hpub'. destruct (start_cases j x Hj) as [[-> ->]|(_ & _ & y & Hy & _ & Hn & _)]; [discriminate Hk|].
    rewrite Hn in Hk. destruct (si_next _ _ Hinv j y k Hy Hk) as (H1 & H2 & m1 & Hm1 & H3).
    split; [exact H1|]. split; [exact (Hfwd k H2)|]. exists m. split; [reflexivity|congruence].
  - intros j Hj. rewrite Hr' in Hj. rewrite Hpub'. destruct (si_readers _ _ Hinv j Hj) as (H1 & m1 & Hm1 & H2).
    split; [exact (Hfwd j H1)|]. exists m. split; [reflexivity|congruence].
  - exact start_free_sep.
  - intros j x Hj. destruct (start_cases j x Hj) as [[-> ->]|(_ & _ & y & Hy & -> & _)]; [constructor|].
    exact (si_free_nodup _ _ Hinv j y Hy).
  - intros j k x y fp Hne Hj Hk Hin Hin'.
    destruct (start_cases j x Hj) as [[-> ->]|(_ & _ & x0 & Hx0 & Hfx & _)]; [inversion Hin|].
    destruct (start_cases k y Hk) as [[-> ->]|(_ & _ & y0 & Hy0 & Hfy & _)]; [inversion Hin'|].
    rewrite Hfx in Hin. rewrite Hfy in Hin'. exact (si_free_disj _ _ Hinv j k x0 y0 fp Hne Hx0 Hy0 Hin Hin').
  - intros m1 Hm1. assert (m1 = m) as -> by congruence. split; [exact Hwf|]. intros j x Hj Hle.
    destruct (Hback j x Hj ltac:(lia)) as (y & Hy & -> & _ & Hs). destruct (Hal j y Hy Hle) as [H1 H2].
    split; [intros p fp Hm; apply (same_maps _ _ _ _ Hs) in Hm; exact (H1 p fp Hm)|intros _; exact (H2 (Hnc j))].
  - intros c Hc. rewrite Hcow' in Hc. injection Hc as <-. cbn. split; [exact Hwf|]. intros j x Hj.
    destruct (start_cases j x Hj) as [[-> ->]|(Hle & _ & y & Hy & -> & _ & Hs)].
    + cbn. split; [|intros fp Hin; inversion Hin]. intros p fp Hm. apply (same_maps _ _ _ _ Hdst) in Hm.
      exact (proj1 (Hal _ _ Hsnp ltac:(lia)) p fp Hm).
    + destruct (Hal j y Hy Hle) as [H1 H2]. split; [|exact (H2 (Hnc j))].
      intros p fp Hm. apply (same_maps _ _ _ _ Hs) in Hm. exact (H1 p fp Hm).
  - intros Happ j x Hj. destruct (start_cases j x Hj) as [[-> ->]|(_ & _ & y & Hy & -> & _)]; [reflexivity|].
    exact (si_append _ _ Hinv Happ j y Hy).
Qed.
End start.

Lemma empty_snap_ok : snap_ok empty_tbl.
Proof.
  split; cbn; auto; [apply empty_tbl_inv|unfold max_pages; lia| |].
  - intros p Hp. cbn in Hp. lia.
  - intros p q fp (Hp & _). cbn in Hp. lia.
Qed.

Lemma first_batch_inv append shift s :
  store_inv append s -> st_cow s = None -> st_pub s = None ->
  exists s', MakeCowRoot shift append s = Some s' /\ store_inv append s' /\ st_snaps s = ∅ /\
    st_disk s' = st_disk s /\ is_Some (st_cow s').
Proof.
  intros Hinv Hcow Hpub.
  assert (Hempty : st_snaps s = ∅).
  { apply map_eq. intros j. rewrite lookup_empty. destruct (st_snaps s !! j) as [x|] eqn:Hj; [|reflexivity].
    destruct (si_top _ _ Hinv j x Hj) as [(m & Hm & _)|(c & Hc & _)]; congruence. }
  unfold MakeCowRoot. rewrite Hpub, Hempty. eexists. split; [reflexivity|].
  split; [|split_and!; auto; eexists; reflexivity]. cbn [mapping_tbl_ new_mapper].
  assert (Hlk : forall j x, <[st_next s := mkSnap empty_tbl [] None]> (∅ : gmap Z Snapshot) !! j = Some x ->
    j = st_next s /\ x = mkSnap empty_tbl [] None).
  { intros j x [[<- <-]|[_ Hj]]%lookup_insert_Some; [auto|]. rewrite lookup_empty in Hj. discriminate Hj. }
  assert (Hnm : forall p fp, ~ maps empty_tbl p fp) by (intros p fp (Hp & _); cbn in Hp; lia).
  split; cbn [st_arena st_snaps st_pub st_cow st_readers st_next]; try discriminate.
  - exact (si_arena _ _ Hinv).
  - intros j x [-> _]%Hlk. lia.
  - intros j x [_ ->]%Hlk. exact empty_snap_ok.
  - intros c Hc. injection Hc as <-. split; [|reflexivity]. exists (mkSnap empty_tbl [] None), [].
    split; [apply lookup_insert_eq|]. split; [apply new_mapper_inv|reflexivity].
  - intros j x [-> _]%Hlk. right. eexists. split; reflexivity.
  - intros j x k [_ ->]%Hlk Hk. discriminate Hk.
  - intros j Hj. destruct (si_readers _ _ Hinv j Hj) as (_ & m & Hm & _). congruence.
  - intros j k x y fp p [_ ->]%Hlk _ Hin. inversion Hin.
  - intros j x [_ ->]%Hlk. constructor.
  - intros j k x y fp _ [_ ->]%Hlk _ Hin. inversion Hin.
  - intros c Hc. injection Hc as <-. cbn.
    assert (Hfree : free_ids (AllocatorInstance shift append) = []) by (destruct append; reflexivity).
    split; [split; rewrite ?Hfree; [cbn; lia|constructor|intros p Hp; inversion Hp]|].
    intros j x [_ ->]%Hlk. split; [intros p fp Hm; destruct (Hnm p fp Hm)|intros fp Hin; inversion Hin].
  - intros _ j x [_ ->]%Hlk. reflexivity.
Qed.

(** Every snapshot that was there still resolves its pages as before. *)
Definition same_reads (s s' : Store) : Prop :=
  forall i sn, st_snaps s !! i = Some sn -> exists sn', st_snaps s' !! i = Some sn' /\
    same_tbl (sn_tbl sn) (sn_tbl sn').

Lemma MakeCowRoot_inv append shift s :
  store_inv append s -> st_cow s = None ->
  exists s', MakeCowRoot shift append s = Some s' /\ store_inv append s' /\ same_reads s s' /\
    st_disk s' = st_disk s /\ is_Some (st_cow s').
Proof.
  intros Hinv Hcow. destruct (st_pub s) as [m|] eqn:Hpub.
  2:{ destruct (first_batch_inv append shift s Hinv Hcow Hpub) as (s' & H1 & H2 & H3 & H4 & H5).
      exists s'. split_and!; auto. intros i sn Hi. rewrite H3, lookup_empty in Hi. discriminate Hi. }
  destruct (si_pub _ _ Hinv m Hpub) as (snp & l & Hsnp & _ & _).
  pose proof (si_ids _ _ Hinv _ _ Hsnp) as Hlt.
  destruct (quiet_copy (st_arena s) (sn_tbl snp) (si_arena _ _ Hinv) (si_snap _ _ Hinv _ _ Hsnp))
    as (src & dst & a & Hcp & Ha & Hsrc & Hdst).
  unfold MakeCowRoot. rewrite Hpub, Hsnp. cbn [mbind option_bind]. rewrite Hcp. cbn [mbind option_bind].
  eexists. split; [reflexivity|].
  assert (Hrd : forall j y, st_snaps s !! j = Some y -> exists x,
    <[st_next s := mkSnap dst [] None]> (<[mr_snap m := mkSnap src (to_free_file_pages_ snp) (sn_next snp)]> (st_snaps s)) !! j = Some x /\
    to_free_file_pages_ x = to_free_file_pages_ y /\ sn_next x = sn_next y /\ same_tbl (sn_tbl y) (sn_tbl x)).
  { intros j y Hy. pose proof (si_ids _ _ Hinv j y Hy). rewrite lookup_insert_ne by lia.
    destruct (Z.eq_dec (mr_snap m) j) as [<-|Hne].
    - assert (y = snp) as -> by congruence. rewrite lookup_insert_eq. eexists. split; [reflexivity|]. auto.
    - rewrite lookup_insert_ne by exact Hne. exists y. split_and!; auto. apply same_refl, (si_snap _ _ Hinv j y Hy). }
  split; [|split_and!; auto].
  - apply (start_inv append s _ m snp dst Hinv Hcow Hpub Hsnp Hdst); cbn; auto.
    + apply lookup_insert_eq.
    + intros j x Hj Hne. rewrite lookup_insert_ne in Hj by congruence.
      assert (Hy : is_Some (st_snaps s !! j)).
      { apply lookup_insert_Some in Hj as [[<- _]|[_ Hj]]; eauto. }
      destruct Hy as [y Hy]. destruct (Hrd j y Hy) as (x' & Hx' & H1 & H2 & H3).
      rewrite lookup_insert_ne in Hx' by congruence. assert (x' = x) as -> by congruence. eauto 10.
    + intros j [y Hy]. destruct (Hrd j y Hy) as (x & Hx & _). eauto.
  - intros j y Hy. destruct (Hrd j y Hy) as (x & Hx & _ & _ & Hs). cbn. eauto.
Qed.

(** ** Publishing a batch *)
Section commit.
  Context (append : bool) (s s' : Store) (c : CowMeta).
  Context (Hinv : store_inv append s) (Hcow : st_cow s = Some c).
  Context (Hpub' : st_pub s' = Some (cow_mapper c)) (Hcow' : st_cow s' = None).
  Context (Hr' : st_readers s' = st_readers s) (Hn' : st_next s' = st_next s) (Ha' : st_arena s' = st_arena s).
  Context (Hlk : forall j, st_snaps s' !! j =
    (fun sn => mkSnap (sn_tbl sn) (to_free_file_pages_ sn)
       (if negb append && bool_decide (mr_snap <$> st_pub s = Some j) then Some (mr_snap (cow_mapper c)) else sn_next sn))
    <$> st_snaps s !! j).

  Local Abbreviation new := (mr_snap (cow_mapper c)).

Lemma commit_back j x : st_snaps s' !! j = Some x ->
  exists y, st_snaps s !! j = Some y /\ sn_tbl x = sn_tbl y /\ to_free_file_pages_ x = to_free_file_pages_ y /\
    sn_next x = if negb append && bool_decide (mr_snap <$> st_pub s = Some j) then Some new else sn_next y.
Proof. rewrite Hlk. destruct (st_snaps s !! j) as [y|]; [|discriminate]. intros H. injection H as <-. eauto. Qed.

Lemma commit_some j : is_Some (st_snaps s' !! j) <-> is_Some (st_snaps s !! j).
Proof. rewrite Hlk, fmap_is_Some. reflexivity. Qed.

(** Before the commit a live snapshot is published or the task's. *)
Lemma live_cases j : is_Some (st_snaps s !! j) -> j = new \/
  exists m, st_pub s = Some m /\ j <= mr_snap m /\ mr_snap m < new /\ old_mapping_ c = mr_snap m.
Proof.
  intros [y Hy]. pose proof (si_cow _ _ Hinv c Hcow) as [_ Hp].
  destruct (si_top _ _ Hinv j y Hy) as [(m & Hm & Hle)|(c1 & Hc1 & ->)].
  - right. exists m. rewrite Hm in Hp. destruct Hp as (H1 & H2 & _). auto.
  - left. congruence.
Qed.

Lemma not_published_new : mr_snap <$> st_pub s <> Some new.
Proof.
  pose proof (si_cow _ _ Hinv c Hcow) as [_ Hp]. destruct (st_pub s) as [m|]; [|discriminate].
  intros H. injection H as H. lia.
Qed.

Lemma commit_chain m j x :
  append = false -> st_pub s' = Some m -> st_snaps s' !! j = Some x -> j < mr_snap m ->
  exists k, sn_next x = Some k /\ j < k /\ is_Some (st_snaps s' !! k) /\
    forall q, is_Some (st_snaps s' !! q) -> j < q -> k <= q.
Proof.
  intros Happ Hm1 Hj Hlt. rewrite Hpub' in Hm1. injection Hm1 as <-.
  destruct (commit_back j x Hj) as (y & Hy & _ & _ & ->). rewrite Happ. cbn [negb andb].
  pose proof (si_cow _ _ Hinv c Hcow) as [(snc & l & Hsnc & _) _].
  destruct (live_cases j ltac:(eauto)) as [->|(m & Hm & Hle & Hmn & _)]; [lia|].
  rewrite Hm. destruct (Z.eq_dec (mr_snap m) j) as [Hd|Hd].
  - rewrite bool_decide_eq_true_2 by (simpl; congruence). exists new. split; [reflexivity|]. split; [exact Hlt|].
    split; [apply commit_some; eauto|]. intros q Hq Hlq. apply commit_some in Hq.
    destruct (live_cases q Hq) as [->|(m1 & Hm1 & Hq1 & _)]; [lia|]. assert (m1 = m) as -> by congruence. lia.
  - rewrite bool_decide_eq_false_2 by (simpl; congruence).
    destruct (si_chain _ _ Hinv Happ m j y Hm Hy ltac:(lia)) as (k & Hk & Hjk & Hsk & Hmin).
    exists k. split; [exact Hk|]. split; [exact Hjk|]. split; [apply commit_some; exact Hsk|].
    intros q Hq. apply Hmin, commit_some, Hq.
Qed.

Lemma commit_next j x k : st_snaps s' !! j = Some x -> sn_next x = Some k ->
  j < k /\ is_Some (st_snaps s' !! k) /\ exists m, st_pub s' = Some m /\ k <= mr_snap m.
Proof.
  intros Hj Hk. destruct (commit_back j x Hj) as (y & Hy & _ & _ & Hn). rewrite Hk in Hn.
  pose proof (si_cow _ _ Hinv c Hcow) as [(snc & l & Hsnc & _) Hp].
  destruct (negb append && bool_decide (mr_snap <$> st_pub s = Some j)) eqn:Hb.
  - apply andb_prop in Hb as [_ Hb%bool_decide_eq_true]. injection Hn as ->.
    apply fmap_Some in Hb as (m & Hm & ->). rewrite Hm in Hp. destruct Hp as (Hlt & _).
    split; [exact Hlt|]. split; [apply commit_some; eauto|]. exists (cow_mapper c). split; [exact Hpub'|lia].
  - destruct (si_next _ _ Hinv j y k Hy (eq_sym Hn)) as (H1 & H2 & m & Hm & H3). rewrite Hm in Hp.
    split; [exact H1|]. split; [apply commit_some; exact H2|]. exists (cow_mapper c). split; [exact Hpub'|]. lia.
Qed.

Lemma commit_inv : store_inv append s'.
Proof.
  pose proof (si_cow _ _ Hinv c Hcow) as [(snc & l & Hsnc & Hl & Hnx) Hp].
  destruct (si_cow_alloc _ _ Hinv c Hcow) as [Hwf Hal].
  split; try (intros c1 Hc1; rewrite Hcow' in Hc1; discriminate Hc1).
  - rewrite Ha'. exact (si_arena _ _ Hinv).
  - intros j x Hj. rewrite Hn'. destruct (commit_back j x Hj) as (y & Hy & _). exact (si_ids _ _ Hinv j y Hy).
  - intros j x Hj. destruct (commit_back j x Hj) as (y & Hy & -> & _). exact (si_snap _ _ Hinv j y Hy).
  - intros m Hm. rewrite Hpub' in Hm. injection Hm as <-. unfold mapper_ok. rewrite Hlk, Hsnc.
    do 2 eexists. split; [reflexivity|]. split; [exact Hl|]. cbn [sn_next].
    rewrite bool_decide_eq_false_2 by exact not_published_new. rewrite andb_false_r. exact Hnx.
  - intros j x Hj. left. exists (cow_mapper c). split; [exact Hpub'|].
    destruct (live_cases j) as [->|(m & _ & H1 & H2 & _)]; [apply commit_some; eauto|lia|lia].
  - intros Happ m j x Hm Hj Hlt. exact (commit_chain m j x Happ Hm Hj Hlt).
  - exact commit_next.
  - intros j Hj. rewrite Hr' in Hj. destruct (si_readers _ _ Hinv j Hj) as (H1 & m & Hm & H2).
    split; [apply commit_some; exact H1|]. exists (cow_mapper c). split; [exact Hpub'|]. rewrite Hm in Hp. lia.
  - intros j k x y fp p Hj Hk Hin Hord. destruct (commit_back j x Hj) as (x0 & Hx0 & _ & Hf & _).
    destruct (commit_back k y Hk) as (y0 & Hy0 & -> & _). rewrite Hf in Hin.
    apply (si_free_sep _ _ Hinv j k x0 y0 fp p Hx0 Hy0 Hin). destruct Hord as [|[<- Ht]]; [auto|right].
    split; [reflexivity|]. unfold top in *. rewrite Hcow', Hpub' in Ht. rewrite Hcow. exact Ht.
  - intros j x Hj. destruct (commit_back j x Hj) as (y & Hy & _ & -> & _). exact (si_free_nodup _ _ Hinv j y Hy).
  - intros j k x y fp Hne Hj Hk. destruct (commit_back j x Hj) as (x0 & Hx0 & _ & -> & _).
    destruct (commit_back k y Hk) as (y0 & Hy0 & _ & -> & _). exact (si_free_disj _ _ Hinv j k x0 y0 fp Hne Hx0 Hy0).
  - intros m Hm. rewrite Hpub' in Hm. injection Hm as <-. split; [exact Hwf|]. intros j x Hj _.
    destruct (commit_back j x Hj) as (y & Hy & -> & -> & _). destruct (Hal j y Hy). auto.
  - intros Happ j x Hj. destruct (commit_back j x Hj) as (y & Hy & _ & -> & _). exact (si_append _ _ Hinv Happ j y Hy).
Qed.
End commit.

Lemma commit_lookup (snaps : gmap Z Snapshot) i sn new :
  snaps !! i = Some sn -> forall j,
  <[i := mkSnap (sn_tbl sn) (to_free_file_pages_ sn) (Some new)]> snaps !! j =
  (fun sn => mkSnap (sn_tbl sn) (to_free_file_pages_ sn) (if bool_decide (Some i = Some j) then Some new else sn_next sn))
  <$> snaps !! j.
Proof.
  intros Hi j. destruct (Z.eq_dec i j) as [<-|Hne].
  - rewrite lookup_insert_eq, Hi. cbn. rewrite bool_decide_eq_true_2 by reflexivity. reflexivity.
  - rewrite lookup_insert_ne by exact Hne. rewrite bool_decide_eq_false_2 by congruence.
    destruct (snaps !! j) as [[t f n]|]; reflexivity.
Qed.

Lemma eta_lookup (snaps : gmap Z Snapshot) j :
  snaps !! j = (fun sn => mkSnap (sn_tbl sn) (to_free_file_pages_ sn) (sn_next sn)) <$> snaps !! j.
Proof. destruct (snaps !! j) as [[t f n]|]; reflexivity. Qed.

(** Reads of the snapshots that survive are unchanged. *)
Definition reads_kept (s s' : Store) : Prop :=
  forall i sn', st_snaps s' !! i = Some sn' -> exists sn, st_snaps s !! i = Some sn /\ sn_tbl sn' = sn_tbl sn.

Lemma UpdateRoot_inv append s c :
  store_inv append s -> st_cow s = Some c ->
  exists s', UpdateRoot append s = Some s' /\ store_inv append s' /\ reads_kept s s' /\
    st_disk s' = st_disk s /\ st_cow s' = None /\ (mr_snap <$> st_pub s') = Some (mr_snap (cow_mapper c)).
Proof.
  intros Hinv Hcow. pose proof (si_cow _ _ Hinv c Hcow) as [_ Hp]. unfold UpdateRoot. rewrite Hcow.
  cbn [mbind option_bind]. destruct (st_pub s) as [m|] eqn:Hpub.
  - destruct Hp as (Hlt & Hold & _). destruct (si_pub _ _ Hinv m Hpub) as (sn & l & Hsn & _).
    rewrite Hsn. cbn [mbind option_bind].
    set (snaps := if append then st_snaps s else _).
    set (s1 := with_pub (with_snaps s snaps) (Some (cow_mapper c))).
    assert (Href : Release s1 (mr_snap m) = Some s1).
    { unfold Release. assert (Hr : Referenced s1 (mr_snap m) = true).
      { unfold Referenced. cbn. rewrite Hcow. cbn. rewrite Hold, (bool_decide_eq_true_2 (Some (mr_snap m) = Some (mr_snap m))) by reflexivity.
        rewrite !orb_true_r. reflexivity. }
      destruct (size (st_snaps s1)); cbn [ReleaseRef]; rewrite Hr; destruct (st_snaps s1 !! mr_snap m); reflexivity. }
    rewrite Href. cbn [mbind option_bind].
    assert (Hinv1 : store_inv append (with_cow s1 None)).
    { apply (commit_inv append s _ c Hinv Hcow); try reflexivity. intros j. cbn. rewrite Hpub. unfold snaps.
      destruct append; cbn [negb andb]; [apply eta_lookup|apply (commit_lookup _ _ _ _ Hsn)]. }
    destruct (Release_inv append (with_cow s1 None) (old_mapping_ c) Hinv1) as (s2 & Hr2 & Hinv2 & Hsh).
    exists s2. split; [exact Hr2|]. split; [exact Hinv2|]. destruct Hsh as (H1 & H2 & _ & _ & H5 & H6).
    split; [|split; [exact H1|split; [exact H2|exact H5]]]. intros i sn' Hi. apply H6 in Hi. cbn in Hi. unfold snaps in Hi.
    destruct append; [eauto|]. destruct (Z.eq_dec (mr_snap m) i) as [<-|Hne].
    + rewrite lookup_insert_eq in Hi. injection Hi as <-. eauto.
    + rewrite lookup_insert_ne in Hi by exact Hne. eauto.
  - eexists. split; [reflexivity|]. split; [|split_and!; auto; intros i sn' Hi; eauto].
    apply (commit_inv append s _ c Hinv Hcow); try reflexivity. intros j. cbn. rewrite Hpub.
    cbn. rewrite bool_decide_eq_false_2 by discriminate. rewrite andb_false_r. apply eta_lookup.
Qed.

(** ** Aborting a batch *)
Section abort.
  Context (append : bool) (s s' : Store) (c : CowMeta).
  Context (Hinv : store_inv append s) (Hcow : st_cow s = Some c).
  Context (Hpub' : st_pub s' = st_pub s) (Hcow' : st_cow s' = None).
  Context (Hr' : st_readers s' = st_readers s) (Hn' : st_next s' = st_next s) (Ha' : st_arena s' = st_arena s).
  Context (Hlk : forall j, st_snaps s' !! j =
    if j =? mr_snap (cow_mapper c) then None
    else (fun sn => mkSnap (sn_tbl sn) (if j =? old_mapping_ c then [] else to_free_file_pages_ sn) (sn_next sn))
         <$> st_snaps s !! j).

Lemma abort_back j x : st_snaps s' !! j = Some x ->
  exists y m, st_snaps s !! j = Some y /\ st_pub s = Some m /\ j <= mr_snap m /\
    mr_snap m < mr_snap (cow_mapper c) /\ old_mapping_ c = mr_snap m /\
    sn_tbl x = sn_tbl y /\ sn_next x = sn_next y /\
    to_free_file_pages_ x = if j =? old_mapping_ c then [] else to_free_file_pages_ y.
Proof.
  rewrite Hlk. destruct (Z.eqb_spec j (mr_snap (cow_mapper c))) as [|Hne]; [discriminate|].
  destruct (st_snaps s !! j) as [y|] eqn:Hy; [|discriminate]. intros H. injection H as <-.
  pose proof (si_cow _ _ Hinv c Hcow) as [_ Hp].
  destruct (si_top _ _ Hinv j y Hy) as [(m & Hm & Hle)|(c1 & Hc1 & ->)]; [|congruence].
  rewrite Hm in Hp. destruct Hp as (H1 & H2 & _). exists y, m. split_and!; auto.
Qed.

Lemma abort_some j m : st_pub s = Some m -> j <= mr_snap m -> is_Some (st_snaps s !! j) -> is_Some (st_snaps s' !! j).
Proof.
  intros Hm Hle Hj. pose proof (si_cow _ _ Hinv c Hcow) as [_ Hp]. rewrite Hm in Hp.
  rewrite Hlk, (proj2 (Z.eqb_neq _ _)), fmap_is_Some by lia. exact Hj.
Qed.

Lemma abort_inv : store_inv append s'.
Proof.
  split; try (intros c1 Hc1; rewrite Hcow' in Hc1; discriminate Hc1).
  - rewrite Ha'. exact (si_arena _ _ Hinv).
  - intros j x Hj. rewrite Hn'. destruct (abort_back j x Hj) as (y & m & Hy & _). exact (si_ids _ _ Hinv j y Hy).
  - intros j x Hj. destruct (abort_back j x Hj) as (y & m & Hy & _ & _ & _ & _ & -> & _). exact (si_snap _ _ Hinv j y Hy).
  - intros m Hm. rewrite Hpub' in Hm. destruct (si_pub _ _ Hinv m Hm) as (sn & l & Hsn & Hl & Hn).
    pose proof (si_cow _ _ Hinv c Hcow) as [_ Hp]. rewrite Hm in Hp. unfold mapper_ok.
    rewrite Hlk, (proj2 (Z.eqb_neq _ _)), Hsn by lia. do 2 eexists. split; [reflexivity|]. split; [exact Hl|exact Hn].
  - intros j x Hj. rewrite Hpub'. destruct (abort_back j x Hj) as (y & m & _ & Hm & Hle & _). left. eauto.
  - intros Happ m j x Hm Hj Hlt. rewrite Hpub' in Hm.
    destruct (abort_back j x Hj) as (y & m1 & Hy & Hm1 & _ & _ & _ & _ & -> & _).
    destruct (si_chain _ _ Hinv Happ m j y Hm Hy Hlt) as (k & Hk & Hjk & Hsk & Hmin).
    destruct (si_next _ _ Hinv j y k Hy Hk) as (_ & _ & m2 & Hm2 & Hkm).
    exists k. split; [exact Hk|]. split; [exact Hjk|]. split; [exact (abort_some k m2 Hm2 Hkm Hsk)|].
    intros q [z Hz]. destruct (abort_back q z Hz) as (z0 & m3 & Hz0 & _). apply Hmin. eauto.
  - intros j x k Hj Hk. rewrite Hpub'. destruct (abort_back j x Hj) as (y & m & Hy & _ & _ & _ & _ & _ & Hn & _).
    rewrite Hn in Hk. destruct (si_next _ _ Hinv j y k Hy Hk) as (H1 & H2 & m1 & Hm1 & H3).
    split; [exact H1|]. split; [exact (abort_some k m1 Hm1 H3 H2)|]. eauto.
  - intros j Hj. rewrite Hr' in Hj. rewrite Hpub'. destruct (si_readers _ _ Hinv j Hj) as (H1 & m & Hm & H2).
    split; [exact (abort_some j m Hm H2 H1)|]. eauto.
  - intros j k x y fp p Hj Hk Hin Hord.
    destruct (abort_back j x Hj) as (x0 & m & Hx0 & Hm & _ & _ & Ho & _ & _ & Hf).
    destruct (abort_back k y Hk) as (y0 & m1 & Hy0 & _ & _ & _ & _ & -> & _). rewrite Hf in Hin.
    destruct (Z.eqb_spec j (old_mapping_ c)) as [->|Hne]; [inversion Hin|].
    apply (si_free_sep _ _ Hinv j k x0 y0 fp p Hx0 Hy0 Hin). destruct Hord as [|[<- Ht]]; [auto|].
    unfold top in Ht. rewrite Hcow', Hpub', Hm in Ht. congruence.
  - intros j x Hj. destruct (abort_back j x Hj) as (y & m & Hy & _ & _ & _ & _ & _ & _ & ->).
    destruct (j =? old_mapping_ c); [constructor|exact (si_free_nodup _ _ Hinv j y Hy)].
  - intros j k x y fp Hne Hj Hk Hin Hin'. destruct (abort_back j x Hj) as (x0 & m & Hx0 & _ & _ & _ & _ & _ & _ & Hf).
    destruct (abort_back k y Hk) as (y0 & m1 & Hy0 & _ & _ & _ & _ & _ & _ & Hf'). rewrite Hf in Hin. rewrite Hf' in Hin'.
    destruct (j =? old_mapping_ c); [inversion Hin|]. destruct (k =? old_mapping_ c); [inversion Hin'|].
    exact (si_free_disj _ _ Hinv j k x0 y0 fp Hne Hx0 Hy0 Hin Hin').
  - intros m Hm. rewrite Hpub' in Hm. destruct (si_pub_alloc _ _ Hinv m Hm) as [Hwf Hal]. split; [exact Hwf|].
    intros j x Hj Hle. destruct (abort_back j x Hj) as (y & m1 & Hy & _ & _ & _ & _ & -> & _ & Hf).
    destruct (Hal j y Hy Hle) as [H1 H2]. split; [exact H1|]. intros _ fp. rewrite Hf.
    destruct (Z.eqb_spec j (old_mapping_ c)) as [|Hne]; [intros Hin; inversion Hin|]. apply H2.
    unfold collecting. rewrite Hcow. exact Hne.
  - intros Happ j x Hj. destruct (abort_back j x Hj) as (y & m & Hy & _ & _ & _ & _ & _ & _ & ->).
    rewrite (si_append _ _ Hinv Happ j y Hy). destruct (j =? old_mapping_ c); reflexivity.
Qed.
End abort.

(** Nothing but the write task refers to its snapshot. *)
Lemma cow_unreferenced append s c s1 :
  store_inv append s -> st_cow s = Some c -> st_cow s1 = None -> st_pub s1 = st_pub s ->
  st_readers s1 = st_readers s ->
  (forall k x, st_snaps s1 !! k = Some x -> exists y, st_snaps s !! k = Some y /\ sn_next x = sn_next y) ->
  Referenced s1 (mr_snap (cow_mapper c)) = false.
Proof.
  intros Hinv Hcow H1 H2 H3 H4. pose proof (si_cow _ _ Hinv c Hcow) as [_ Hp].
  assert (Hnot : forall m, st_pub s = Some m -> mr_snap m < mr_snap (cow_mapper c))
    by (intros m Hm; rewrite Hm in Hp; tauto).
  unfold Referenced. rewrite H1, H2, H3. cbn [fmap option_fmap option_map].
  rewrite !orb_false_iff, !bool_decide_eq_false. split_and!; try discriminate.
  - destruct (st_pub s) as [m|] eqn:Hm; [|discriminate]. specialize (Hnot m eq_refl). cbn. intros He. injection He. lia.
  - intros Hin. destruct (si_readers _ _ Hinv _ Hin) as (_ & m & Hm & Hle). specialize (Hnot m Hm). lia.
  - apply not_true_iff_false. intros ((k & x) & Hin & Hb)%existsb_exists.
    apply list_elem_of_In, elem_of_map_to_list in Hin. apply bool_decide_eq_true in Hb. cbn in Hb.
    destruct (H4 k x Hin) as (y & Hy & Hn). rewrite Hn in Hb.
    destruct (si_next _ _ Hinv k y _ Hy Hb) as (_ & _ & m & Hm & Hle). specialize (Hnot m Hm). lia.
Qed.

Lemma Abort_inv append s c :
  store_inv append s -> st_cow s = Some c ->
  exists s', Abort s = Some s' /\ store_inv append s' /\ reads_kept s s' /\ st_disk s' = st_disk s /\
    st_cow s' = None /\ mr_snap <$> st_pub s' = mr_snap <$> st_pub s.
Proof.
  intros Hinv Hcow. pose proof (si_cow _ _ Hinv c Hcow) as [(snc & l & Hsnc & _ & Hnc) Hp].
  destruct (old_mapping_live _ _ _ Hinv Hcow) as [sno Hsno].
  unfold Abort. rewrite Hcow. cbn [mbind option_bind]. rewrite Hsno. cbn [mbind option_bind].
  set (snaps := <[old_mapping_ c := mkSnap (sn_tbl sno) [] (sn_next sno)]> (st_snaps s)).
  set (s1 := with_cow (with_snaps s snaps) None).
  assert (Hsn1 : exists x, snaps !! mr_snap (cow_mapper c) = Some x /\ to_free_file_pages_ x = [] /\ sn_next x = None).
  { unfold snaps. destruct (Z.eq_dec (old_mapping_ c) (mr_snap (cow_mapper c))) as [He|Hne].
    - rewrite <- He, lookup_insert_eq. eexists. split; [reflexivity|]. split; [reflexivity|]. cbn. congruence.
    - rewrite lookup_insert_ne by exact Hne. exists snc. split; [exact Hsnc|]. split; [|exact Hnc].
      destruct (st_pub s) as [m|]; [|congruence]. destruct Hp as (_ & _ & H3). exact (H3 snc Hsnc). }
  destruct Hsn1 as (x & Hx & Hxf & Hxn).
  assert (Href : Referenced s1 (mr_snap (cow_mapper c)) = false).
  { apply (cow_unreferenced append s c s1 Hinv Hcow); try reflexivity. intros k z. cbn. unfold snaps.
    destruct (Z.eq_dec (old_mapping_ c) k) as [<-|Hne].
    - rewrite lookup_insert_eq. intros H. injection H as <-. eauto.
    - rewrite lookup_insert_ne by exact Hne. eauto. }
  set (s2 := with_snaps s1 (delete (mr_snap (cow_mapper c)) (st_snaps s1))).
  assert (Hrel : Release s1 (mr_snap (cow_mapper c)) = Some s2).
  { unfold Release, s2. assert (Hx1 : st_snaps s1 !! mr_snap (cow_mapper c) = Some x) by exact Hx.
    destruct (size (st_snaps s1)); cbn [ReleaseRef]; rewrite Hx1, Href; unfold FreeMappingSnapshot;
      rewrite Hxf; cbn [mbind option_bind]; rewrite Hxn; reflexivity. }
  rewrite Hrel. cbn [mbind option_bind].
  assert (Hlk : forall j, st_snaps s2 !! j = if j =? mr_snap (cow_mapper c) then None
    else (fun sn => mkSnap (sn_tbl sn) (if j =? old_mapping_ c then [] else to_free_file_pages_ sn) (sn_next sn))
         <$> st_snaps s !! j).
  { intros j. cbn. unfold snaps. destruct (Z.eqb_spec j (mr_snap (cow_mapper c))) as [->|Hne].
    - apply lookup_delete_eq.
    - rewrite lookup_delete_ne by congruence. destruct (Z.eqb_spec j (old_mapping_ c)) as [->|Hne'].
      + rewrite lookup_insert_eq, Hsno. reflexivity.
      + rewrite lookup_insert_ne by congruence. apply eta_lookup. }
  pose proof (abort_inv append s s2 c Hinv Hcow eq_refl eq_refl eq_refl eq_refl eq_refl Hlk) as Hinv2.
  destruct (Release_inv append s2 (old_mapping_ c) Hinv2) as (s3 & Hr3 & Hinv3 & H1 & H2 & _ & _ & H5 & H6).
  exists s3. split_and!; auto. intros i sn' Hi. apply H6 in Hi. rewrite Hlk in Hi.
  destruct (i =? mr_snap (cow_mapper c)); [discriminate Hi|].
  destruct (st_snaps s !! i) as [y|]; [|discriminate Hi]. injection Hi as <-. eauto.
Qed.

(** ** Readers *)
Lemma with_readers_inv append s readers :
  store_inv append s ->
  (forall i, i ∈ readers -> is_Some (st_snaps s !! i) /\ exists m, st_pub s = Some m /\ i <= mr_snap m) ->
  store_inv append (with_readers s readers).
Proof. intros [] Hr. split; assumption. Qed.

Lemma AcquireSnapshot_inv append s m :
  store_inv append s -> st_pub s = Some m ->
  exists s', AcquireSnapshot s = Some (mr_snap m, s') /\ store_inv append s' /\ st_snaps s' = st_snaps s /\
    st_disk s' = st_disk s /\ st_cow s' = st_cow s.
Proof.
  intros Hinv Hm. unfold AcquireSnapshot. rewrite Hm. cbn [mbind option_bind]. eexists. split; [reflexivity|].
  split; [|auto]. apply with_readers_inv; [exact Hinv|]. intros i [->|Hin]%elem_of_cons.
  - destruct (si_pub _ _ Hinv m Hm) as (sn & l & Hsn & _). split; [eauto|]. exists m. split; [exact Hm|lia].
  - exact (si_readers _ _ Hinv i Hin).
Qed.

Lemma remove_one_subset i j l : j ∈ remove_one i l -> j ∈ l.
Proof.
  induction l as [|k l IH]; simpl; [auto|]. case_if; [intros; right; assumption|].
  rewrite !elem_of_cons. intros [->|Hin]; auto.
Qed.

Lemma DropSnapshot_inv append s i :
  store_inv append s ->
  exists s', DropSnapshot s i = Some s' /\ store_inv append s' /\ reads_kept s s' /\ st_disk s' = st_disk s /\
    st_cow s' = st_cow s /\ mr_snap <$> st_pub s' = mr_snap <$> st_pub s.
Proof.
  intros Hinv. unfold DropSnapshot.
  assert (Hinv1 : store_inv append (with_readers s (remove_one i (st_readers s)))).
  { apply with_readers_inv; [exact Hinv|]. intros j Hj. exact (si_readers _ _ Hinv j (remove_one_subset _ _ _ Hj)). }
  destruct (Release_inv append _ i Hinv1) as (s' & Hr & Hinv' & H1 & H2 & _ & _ & H5 & H6).
  exists s'. split_and!; auto. intros k sn' Hk. apply H6 in Hk. eauto.
Qed.

(** ** Taking a page id *)
Lemma free_not_mapped m l p fp : mapper_inv m l -> p ∈ l -> ~ maps (mapping_tbl_ m) p fp.
Proof. intros Hm Hp Hmp. destruct (mapped_in_use m l p fp Hm Hmp) as [_ Hn]. contradiction. Qed.

Lemma CowGetPage_spec append s c sn :
  store_inv append s -> st_cow s = Some c -> st_snaps s !! mr_snap (cow_mapper c) = Some sn ->
  logical_size_ (sn_tbl sn) < max_pages ->
  exists id s' c' tbl', CowGetPage s = Some (id, s') /\ cow_update append s s' c c' (sn_tbl sn) tbl' [] /\
    st_disk s' = st_disk s /\ mr_alloc (cow_mapper c') = mr_alloc (cow_mapper c) /\
    tbl_changed (sn_tbl sn) tbl' id InvalidValue /\ (forall fp, ~ maps (sn_tbl sn) id fp) /\
    ~ cow_holds s id /\ cow_holds s' id /\
    (forall q, cow_holds s q -> cow_holds s' q).
Proof.
  intros Hinv Hc Hsn Hs. destruct (si_cow _ _ Hinv c Hc) as [(sn1 & l & Hsn1 & Hl & _) _].
  assert (sn1 = sn) as -> by congruence. clear Hsn1. unfold CowGetPage. rewrite Hc. cbn [mbind option_bind].
  rewrite Hsn. cbn [mbind option_bind].
  destruct (page_to_write (st_arena s) _ l MaxPageId Hl (si_arena _ _ Hinv) ltac:(left; auto))
    as (id & m1 & a1 & l1 & Hget & Ha1 & Hm1 & Hu1 & Hal & Hs1 & Hid & Ho & _).
  rewrite Z.eqb_refl in Hget.
  destruct (GetPage_spec (st_arena s) _ l Hl (si_arena _ _ Hinv) Hs)
    as (id2 & m2 & a2 & Hget2 & _ & Hm2 & Hid2 & _ & Hinvalid & _).
  rewrite Hget in Hget2. injection Hget2 as <- <- <-. rewrite Hget. cbn [mbind option_bind].
  cbn [to_mapper mapping_tbl_ file_page_allocator_] in *.
  assert (Hnm : forall fp, ~ maps (sn_tbl sn) id fp).
  { intros fp Hmp. destruct l as [|p l]; [destruct Hmp as (Hr & _); lia|]. subst id.
    apply (free_not_mapped _ _ p fp Hl); [left|exact Hmp]. }
  assert (Hch : tbl_changed (sn_tbl sn) (mapping_tbl_ m1) id InvalidValue)
    by (split; auto; [exact (mi_tbl _ _ Hm1)|exact (mi_idle _ _ Hm1)|exact (mi_size _ _ Hm1)]).
  assert (Huniq : forall q, cow_holds s q <-> in_use (to_mapper (cow_mapper c) sn) l q).
  { intros q. split; [|intros Hq; exists c, sn, l; auto].
    intros (c0 & sn0 & l0 & Hc0 & Hsn0 & Hl0 & Hq). assert (c0 = c) as -> by congruence.
    assert (sn0 = sn) as -> by congruence. rewrite <- (free_list_unique _ l0 l Hl0 Hl). exact Hq. }
  do 4 eexists. split; [reflexivity|]. split.
  { apply (put_mapper_update append s s c sn sn m1 a1 [] Hinv Hc Hsn (recorded_nil s _) Hsn Ha1); eauto; rewrite ?Hal; auto.
    - apply (changed_ok _ _ _ _ (si_snap _ _ Hinv _ _ Hsn) Hch); [left; reflexivity|].
      intros q fp He (_ & Hr & _). exact (False_ind _ (no_file_word InvalidValue fp Hr (or_introl eq_refl) He)).
    - exact (proj1 (si_cow_alloc _ _ Hinv c Hc)).
    - intros p fp Hmp. left. destruct (changed_maps _ _ _ _ _ _ Hch Hmp) as [[-> He]|[_ H]]; [|exact H].
      destruct Hmp as (_ & Hr & _). destruct (no_file_word InvalidValue fp Hr (or_introl eq_refl) He).
    - intros fp Hin. inversion Hin.
    - constructor. }
  split; [reflexivity|]. split; [exact Hal|]. split; [exact Hch|]. split; [exact Hnm|].
  assert (Hholds : forall q, in_use m1 (tail l) q -> cow_holds (put_mapper s c sn m1 a1) q).
  { intros q Hq. exists (mkCow (of_mapper (mr_snap (cow_mapper c)) m1) (old_mapping_ c)). eexists. exists (tail l).
    split; [reflexivity|]. split; [apply lookup_insert_eq|]. destruct m1. auto. }
  split; [|split].
  - rewrite Huniq. intros [Hr Hn]. cbn in Hr. destruct l as [|p l]; subst id; [lia|]. apply Hn. left.
  - apply Hholds. rewrite (free_list_unique _ _ _ Hm1 Hm2) in Hu1. exact Hu1.
  - intros q Hq. apply Huniq in Hq as [Hr Hn]. apply Hholds. cbn in Hr. split; [lia|].
    intros Hin. apply Hn. destruct l; [inversion Hin|right; exact Hin].
Qed.

(** ** Reads *)
Lemma ReadPage_some s i sn p :
  st_snaps s !! i = Some sn -> ReadPage s i p = (fp ← ToFilePage ∅ (sn_tbl sn) p; st_disk s !! fp).
Proof. intros Hi. unfold ReadPage. rewrite Hi. reflexivity. Qed.

Lemma same_ToFilePage t t' p :
  snap_ok t -> same_tbl t t' -> 0 <= p -> ToFilePage ∅ t' p = ToFilePage ∅ t p.
Proof.
  intros Hok (Hi & _ & Hs & Hg) Hp. unfold ToFilePage. destruct (p =? MaxPageId); [reflexivity|].
  destruct (Z.lt_ge_cases p (logical_size_ t)) as [Hlt|Hge]; [rewrite Hg by lia; reflexivity|].
  rewrite (Get_outside t p (sk_tbl t Hok)), (Get_outside t' p Hi) by lia. reflexivity.
Qed.

(** A page resolves to a file page of the allocator, or to none. *)
Lemma ToFilePage_cases t p fp :
  snap_ok t -> 0 <= p -> ToFilePage ∅ t p = Some fp -> fp = MaxFilePageId \/ maps t p fp.
Proof.
  intros Hok Hp Hfp. destruct (Z.eqb_spec p MaxPageId) as [->|Hne].
  - unfold ToFilePage in Hfp. rewrite Z.eqb_refl in Hfp. left. congruence.
  - destruct (Z.lt_ge_cases p (logical_size_ t)) as [Hlt|Hge].
    + destruct (ToFilePage_maps t p Hok ltac:(lia)) as [(fp1 & H1 & _ & H3)|[H1 _]]; rewrite Hfp in H1;
        injection H1 as ->; auto.
    + unfold ToFilePage in Hfp. rewrite (proj2 (Z.eqb_neq _ _)), (Get_outside t p (sk_tbl t Hok)) in Hfp by (auto; lia).
      discriminate Hfp.
Qed.

(** Writing a file page that no snapshot maps changes no read. *)
Lemma disk_write_unseen append s c i sn p fp content :
  store_inv append s -> st_cow s = Some c -> st_snaps s !! i = Some sn -> 0 <= p ->
  ~ fp_ok (mr_alloc (cow_mapper c)) fp -> 0 <= fp < 2 ^ 32 ->
  (fq ← ToFilePage ∅ (sn_tbl sn) p; <[fp := content]> (st_disk s) !! fq) =
  (fq ← ToFilePage ∅ (sn_tbl sn) p; st_disk s !! fq).
Proof.
  intros Hinv Hc Hi Hp Hno Hfp. destruct (ToFilePage ∅ (sn_tbl sn) p) as [fq|] eqn:Ht; [|reflexivity].
  cbn [mbind option_bind]. apply lookup_insert_ne.
  destruct (ToFilePage_cases _ _ _ (si_snap _ _ Hinv i sn Hi) Hp Ht) as [->|Hm].
  - change MaxFilePageId with (2 ^ 64 - 1). lia.
  - intros ->. apply Hno. exact (proj1 (proj2 (si_cow_alloc _ _ Hinv c Hc) i sn Hi) p fq Hm).
Qed.

Lemma cu_other append s s' c c' tbl tbl' freed i sn :
  cow_update append s s' c c' tbl tbl' freed -> st_snaps s !! i = Some sn -> i <> mr_snap (cow_mapper c) ->
  exists sn', st_snaps s' !! i = Some sn' /\ sn_tbl sn' = sn_tbl sn.
Proof.
  intros Hu Hi Hne. rewrite (cu_lookup _ _ _ _ _ _ _ _ Hu), Hi. eexists. split; [reflexivity|]. cbn.
  rewrite (proj2 (Z.eqb_neq _ _)) by exact Hne. reflexivity.
Qed.

Lemma cu_own append s s' c c' tbl tbl' freed :
  cow_update append s s' c c' tbl tbl' freed ->
  exists sn', st_snaps s' !! mr_snap (cow_mapper c) = Some sn' /\ sn_tbl sn' = tbl'.
Proof.
  intros Hu. destruct (st_snaps s !! mr_snap (cow_mapper c)) as [sn|] eqn:Hi.
  - rewrite (cu_lookup _ _ _ _ _ _ _ _ Hu), Hi. eexists. split; [reflexivity|]. cbn. rewrite Z.eqb_refl. reflexivity.
  - pose proof (cu_tbl _ _ _ _ _ _ _ _ Hu) as H. rewrite Hi in H. discriminate H.
Qed.

Lemma changed_ToFilePage t t' p w q :
  snap_ok t -> tbl_changed t t' p w -> 0 <= q -> q <> p -> ToFilePage ∅ t' q = ToFilePage ∅ t q.
Proof.
  intros Hok [Hi _ Hr Hs _ _ Ho] Hq Hne. unfold ToFilePage. destruct (q =? MaxPageId); [reflexivity|].
  destruct (Z.lt_ge_cases q (logical_size_ t)) as [Hlt|Hge]; [rewrite Ho by lia; reflexivity|].
  rewrite (Get_outside t q (sk_tbl t Hok)), (Get_outside t' q Hi) by lia. reflexivity.
Qed.

(** [WritePage]: what is written is read back by the task; every other page of
    the task and every page of the other snapshots reads as before. *)
Lemma WritePage_spec append s c page_id content :
  store_inv append s -> st_cow s = Some c -> max_fp_id_ (mr_alloc (cow_mapper c)) < 2 ^ 32 - 1 ->
  writable s c page_id ->
  exists id s' c', WritePage append s page_id content = Some (id, s') /\ store_inv append s' /\
    st_cow s' = Some c' /\ mr_snap (cow_mapper c') = mr_snap (cow_mapper c) /\ st_readers s' = st_readers s /\
    (page_id <> MaxPageId -> id = page_id) /\ cow_holds s' id /\
    ReadPage s' (mr_snap (cow_mapper c)) id = Some content /\
    (forall q, 0 <= q -> q <> id -> ReadPage s' (mr_snap (cow_mapper c)) q = ReadPage s (mr_snap (cow_mapper c)) q) /\
    (forall i q, is_Some (st_snaps s !! i) -> i <> mr_snap (cow_mapper c) -> 0 <= q -> ReadPage s' i q = ReadPage s i q).
Proof.
  intros Hinv Hc Hroom Hw.
  destruct (AllocatePage_spec append s c page_id Hinv Hc Hroom Hw)
    as (id & fp & s1 & c' & tbl & tbl' & freed & Halloc & Hu & Hdisk & Hno & Hm & Hch & Hsame & Hh).
  pose proof (cow_update_inv _ _ _ _ _ _ _ _ Hinv Hu) as Hinv1.
  unfold WritePage. rewrite Halloc. cbn [mbind option_bind].
  destruct (cow_entry append s s1 c c' tbl tbl' freed Hu) as (sn & Hsn & Ht).
  destruct (cu_own _ _ _ _ _ _ _ _ Hu) as (sn' & Hsn' & Ht').
  assert (Hfp : 0 <= fp < 2 ^ 32) by (destruct Hm as (_ & ? & _); assumption).
  exists id, (with_disk s1 (<[fp := content]> (st_disk s1))), c'.
  split; [reflexivity|]. split; [destruct Hinv1; split; assumption|].
  split; [exact (cu_cow' _ _ _ _ _ _ _ _ Hu)|]. split; [exact (cu_snap _ _ _ _ _ _ _ _ Hu)|].
  split; [exact (cu_readers _ _ _ _ _ _ _ _ Hu)|]. split; [exact Hsame|]. split; [exact Hh|].
  split; [|split].
  - rewrite (ReadPage_some _ _ sn') by exact Hsn'. rewrite Ht'. cbn [with_disk st_disk].
    destruct (ToFilePage_maps tbl' id (cu_ok _ _ _ _ _ _ _ _ Hu) (proj1 Hm)) as [(fp1 & -> & _ & Hm1)|[_ Hn]].
    + rewrite (maps_fun _ _ _ _ Hm1 Hm). cbn [mbind option_bind]. apply lookup_insert_eq.
    + destruct (Hn fp Hm).
  - intros q Hq Hne. rewrite (ReadPage_some _ _ sn') by exact Hsn'. rewrite (ReadPage_some s _ sn _ Hsn), Ht'.
    cbn [with_disk st_disk]. rewrite Hdisk, <- Ht in *.
    rewrite (changed_ToFilePage _ _ _ _ q (si_snap _ _ Hinv _ _ Hsn) Hch Hq Hne).
    apply (disk_write_unseen append s c _ sn q fp content Hinv Hc Hsn Hq Hno Hfp).
  - intros i q [sni Hi] Hne Hq. destruct (cu_other _ _ _ _ _ _ _ _ i sni Hu Hi Hne) as (x & Hx & Htx).
    rewrite (ReadPage_some _ _ x) by exact Hx. rewrite (ReadPage_some s _ sni _ Hi), Htx. cbn [with_disk st_disk].
    rewrite Hdisk. apply (disk_write_unseen append s c i sni q fp content Hinv Hc Hi Hq Hno Hfp).
Qed.

(** ** Histories of a partition *)

(** The steps of the tasks of one partition.  There is at most one write task;
    it remaps and frees only pages it holds, page ids and file page ids are
    below their limits. *)
Inductive store_step (shift : Z) (append : bool) (s : Store) : Store -> Prop :=
| step_begin s' :
    st_cow s = None -> MakeCowRoot shift append s = Some s' -> store_step shift append s s'
| step_get c sn id s' :
    st_cow s = Some c -> st_snaps s !! mr_snap (cow_mapper c) = Some sn ->
    logical_size_ (sn_tbl sn) < max_pages ->
    CowGetPage s = Some (id, s') -> store_step shift append s s'
| step_write c page_id content id s' :
    st_cow s = Some c -> max_fp_id_ (mr_alloc (cow_mapper c)) < 2 ^ 32 - 1 -> writable s c page_id ->
    WritePage append s page_id content = Some (id, s') -> store_step shift append s s'
| step_free page_id s' :
    cow_maps s page_id -> CowFreePage append s page_id = Some s' -> store_step shift append s s'
| step_commit s' : is_Some (st_cow s) -> UpdateRoot append s = Some s' -> store_step shift append s s'
| step_abort s' : is_Some (st_cow s) -> Abort s = Some s' -> store_step shift append s s'
| step_acquire i s' : AcquireSnapshot s = Some (i, s') -> store_step shift append s s'
| step_drop i s' : DropSnapshot s i = Some s' -> store_step shift append s s'.

Inductive store_reach (shift : Z) (append : bool) : Store -> Prop :=
| reach_start a : arena_ok a -> store_reach shift append (new_store a)
| reach_step s s' : store_reach shift append s -> store_step shift append s s' -> store_reach shift append s'.

(** What a step leaves alone: the snapshots that a reader may hold. *)
Definition others_kept (s s' : Store) : Prop :=
  forall i, is_Some (st_snaps s !! i) -> (forall c, st_cow s = Some c -> i <> mr_snap (cow_mapper c)) ->
    is_Some (st_snaps s' !! i) -> forall p, 0 <= p -> ReadPage s' i p = ReadPage s i p.

Lemma reads_kept_others s s' : reads_kept s s' -> st_disk s' = st_disk s -> others_kept s s'.
Proof.
  intros Hk Hd i _ _ [sn' Hi'] p Hp. destruct (Hk i sn' Hi') as (sn & Hi & Ht).
  rewrite (ReadPage_some _ _ _ _ Hi), (ReadPage_some _ _ _ _ Hi'), Hd, Ht. reflexivity.
Qed.

Lemma update_others append s s' c c' tbl tbl' freed :
  cow_update append s s' c c' tbl tbl' freed -> st_disk s' = st_disk s -> others_kept s s'.
Proof.
  intros Hu Hd i [sn Hi] Hne _ p Hp. specialize (Hne c (cu_cow _ _ _ _ _ _ _ _ Hu)).
  destruct (cu_other _ _ _ _ _ _ _ _ i sn Hu Hi Hne) as (sn' & Hi' & Ht).
  rewrite (ReadPage_some _ _ _ _ Hi), (ReadPage_some _ _ _ _ Hi'), Hd, Ht. reflexivity.
Qed.

Lemma store_step_inv shift append s s' :
  store_inv append s -> store_step shift append s s' -> store_inv append s' /\ others_kept s s'.
Proof.
  intros Hinv Hst. destruct Hst as [s' Hc Hs|c sn id s' Hc Hsn Hsz Hs|c page_id content id s' Hc Hroom Hw Hs
    |page_id s' Hm Hs|s' [c Hc] Hs|s' [c Hc] Hs|i s' Hs|i s' Hs].
  - destruct (MakeCowRoot_inv append shift s Hinv Hc) as (s1 & H1 & Hinv1 & Hr & Hd & _).
    assert (s1 = s') as -> by congruence. split; [exact Hinv1|]. intros i [sn Hi] _ _ p Hp.
    destruct (Hr i sn Hi) as (sn' & Hi' & Ht).
    rewrite (ReadPage_some _ _ _ _ Hi), (ReadPage_some _ _ _ _ Hi'), Hd.
    rewrite (same_ToFilePage _ _ p (si_snap _ _ Hinv i sn Hi) Ht Hp). reflexivity.
  - destruct (CowGetPage_spec append s c sn Hinv Hc Hsn Hsz) as (id1 & s1 & c' & tbl' & H1 & Hu & Hd & _).
    assert (s1 = s') as -> by congruence.
    split; [exact (cow_update_inv _ _ _ _ _ _ _ _ Hinv Hu)|exact (update_others _ _ _ _ _ _ _ _ Hu Hd)].
  - destruct (WritePage_spec append s c page_id content Hinv Hc Hroom Hw)
      as (id1 & s1 & c' & H1 & Hinv1 & _ & _ & _ & _ & _ & _ & _ & Ho).
    assert (s1 = s') as -> by congruence. split; [exact Hinv1|]. intros i Hi Hne _ p Hp. apply Ho; auto.
  - destruct (CowFreePage_spec append s page_id Hinv Hm) as (s1 & c & c' & tbl & tbl' & freed & H1 & Hu & Hd & _).
    assert (s1 = s') as -> by congruence.
    split; [exact (cow_update_inv _ _ _ _ _ _ _ _ Hinv Hu)|exact (update_others _ _ _ _ _ _ _ _ Hu Hd)].
  - destruct (UpdateRoot_inv append s c Hinv Hc) as (s1 & H1 & Hinv1 & Hr & Hd & _).
    assert (s1 = s') as -> by congruence. split; [exact Hinv1|exact (reads_kept_others _ _ Hr Hd)].
  - destruct (Abort_inv append s c Hinv Hc) as (s1 & H1 & Hinv1 & Hr & Hd & _).
    assert (s1 = s') as -> by congruence. split; [exact Hinv1|exact (reads_kept_others _ _ Hr Hd)].
  - unfold AcquireSnapshot in Hs. destruct (st_pub s) as [m|] eqn:Hm; [|discriminate Hs].
    destruct (AcquireSnapshot_inv append s m Hinv Hm) as (s1 & H1 & Hinv1 & Hr & Hd & _).
    unfold AcquireSnapshot in H1. rewrite Hm in H1. assert (s1 = s') as -> by congruence.
    split; [exact Hinv1|]. apply reads_kept_others; [|exact Hd]. intros j sn' Hj. rewrite Hr in Hj. eauto.
  - destruct (DropSnapshot_inv append s i Hinv) as (s1 & H1 & Hinv1 & Hr & Hd & _).
    assert (s1 = s') as -> by congruence. split; [exact Hinv1|exact (reads_kept_others _ _ Hr Hd)].
Qed.

Lemma store_reach_inv shift append s : store_reach shift append s -> store_inv append s.
Proof.
  induction 1 as [a Ha|s s' _ IH Hst]; [apply new_store_inv; exact Ha|].
  exact (proj1 (store_step_inv shift append s s' IH Hst)).
Qed.

(** Steps during which a reader keeps its [Ref] to snapshot [i]. *)
Inductive held_steps (shift : Z) (append : bool) (i : Z) : Store -> Store -> Prop :=
| held_refl s : i ∈ st_readers s -> held_steps shift append i s s
| held_step s s' s'' : i ∈ st_readers s -> store_step shift append s s' ->
    held_steps shift append i s' s'' -> held_steps shift append i s s''.

Lemma held_first shift append i s s' : held_steps shift append i s s' -> i ∈ st_readers s.
Proof. intros []; assumption. Qed.

Lemma reader_not_cow append s i c :
  store_inv append s -> i ∈ st_readers s -> st_cow s = Some c -> i <> mr_snap (cow_mapper c).
Proof.
  intros Hinv Hi Hc. destruct (si_readers _ _ Hinv i Hi) as (_ & m & Hm & Hle).
  destruct (si_cow _ _ Hinv c Hc) as [_ Hp]. rewrite Hm in Hp. lia.
Qed.

Lemma maps_cow_holds append s p : store_inv append s -> cow_maps s p -> cow_holds s p.
Proof.
  intros Hinv (c & sn & fp & Hc & Hsn & Hm). destruct (si_cow _ _ Hinv c Hc) as [(sn1 & l & Hsn1 & Hl & _) _].
  assert (sn1 = sn) as -> by congruence. exists c, sn, l. split_and!; auto. exact (mapped_in_use _ l p fp Hl Hm).
Qed.

(** ** A run *)
Definition run_write (s : Store) (page_id : Z) (content : bytes) : Store :=
  match WritePage false s page_id content with Some (_, s') => s' | None => s end.

Definition run_begin (s : Store) : Store := default s (MakeCowRoot 2 false s).
Definition run_commit (s : Store) : Store := default s (UpdateRoot false s).
Definition run_acquire (s : Store) : Store := match AcquireSnapshot s with Some (_, s') => s' | None => s end.
Definition run_drop (s : Store) (i : Z) : Store := default s (DropSnapshot s i).

(** A batch writes page 0; a reader takes the snapshot; a second batch rewrites
    the page; a third one starts. *)
Definition ex1 : Store := run_write (run_begin (new_store None)) MaxPageId [1].
Definition ex2 : Store := run_acquire (run_commit ex1).
Definition ex3 : Store := run_write (run_begin ex2) 0 [2].
Definition ex4 : Store := run_begin (run_commit ex3).

Definition ok {A} (o : option A) : bool := match o with Some _ => true | None => false end.

Lemma step_run_begin s :
  ok (st_cow s) = false -> ok (MakeCowRoot 2 false s) = true -> store_step 2 false s (run_begin s).
Proof.
  intros Hc Hs. unfold run_begin. destruct (MakeCowRoot 2 false s) as [s'|] eqn:Hm; [|discriminate Hs].
  destruct (st_cow s) eqn:Hc'; [discriminate Hc|]. exact (step_begin 2 false s s' Hc' Hm).
Qed.

Lemma step_run_commit s :
  ok (st_cow s) = true -> ok (UpdateRoot false s) = true -> store_step 2 false s (run_commit s).
Proof.
  intros Hc Hs. unfold run_commit. destruct (UpdateRoot false s) as [s'|] eqn:Hm; [|discriminate Hs].
  destruct (st_cow s) eqn:Hc'; [|discriminate Hc]. exact (step_commit 2 false s s' (mk_is_Some _ _ Hc') Hm).
Qed.

Lemma step_run_acquire s : ok (AcquireSnapshot s) = true -> store_step 2 false s (run_acquire s).
Proof.
  intros Hs. unfold run_acquire. destruct (AcquireSnapshot s) as [[i s']|] eqn:Hm; [|discriminate Hs].
  exact (step_acquire 2 false s i s' Hm).
Qed.

(** Whether page 0 of the write task can be rewritten. *)
Definition page0_mapped (s : Store) : bool :=
  match st_cow s with
  | Some c =>
      match st_snaps s !! mr_snap (cow_mapper c) with
      | Some sn =>
          (max_fp_id_ (mr_alloc (cow_mapper c)) <? 2 ^ 32 - 1) && (0 <? logical_size_ (sn_tbl sn)) &&
          match ToFilePage ∅ (sn_tbl sn) 0 with
          | Some fp => (0 <=? fp) && (fp <? 2 ^ 32) && bool_decide (Get (sn_tbl sn) 0 = Some (EncodeFilePageId fp))
          | None => false
          end
      | None => false
      end
  | None => false
  end.

Lemma page0_writable s : store_inv false s -> page0_mapped s = true ->
  exists c, st_cow s = Some c /\ max_fp_id_ (mr_alloc (cow_mapper c)) < 2 ^ 32 - 1 /\ writable s c 0.
Proof.
  intros Hr Hp. unfold page0_mapped in Hp. destruct (st_cow s) as [c|] eqn:Hc; [|discriminate Hp].
  destruct (st_snaps s !! mr_snap (cow_mapper c)) as [sn|] eqn:Hsn; [|discriminate Hp].
  destruct (ToFilePage ∅ (sn_tbl sn) 0) as [fp|]; [|rewrite andb_false_r in Hp; discriminate Hp].
  rewrite !andb_true_iff, bool_decide_eq_true in Hp.
  destruct Hp as [[Hroom%Z.ltb_lt Hs%Z.ltb_lt] [[Hb1%Z.leb_le Hb2%Z.ltb_lt] Hg]].
  exists c. split; [reflexivity|]. split; [exact Hroom|].
  right. split; [discriminate|]. apply (maps_cow_holds false s 0 Hr). exists c, sn, fp.
  split; [exact Hc|]. split; [exact Hsn|]. split; [lia|]. split; [lia|exact Hg].
Qed.

Lemma step_run_write s content :
  store_inv false s -> page0_mapped s = true -> store_step 2 false s (run_write s 0 content).
Proof.
  intros Hr Hp. destruct (page0_writable s Hr Hp) as (c & Hc & Hroom & Hw).
  destruct (WritePage_spec false s c 0 content Hr Hc Hroom Hw) as (id & s' & c' & Hwr & _).
  unfold run_write. rewrite Hwr. exact (step_write 2 false s c 0 content id s' Hc Hroom Hw Hwr).
Qed.

Lemma step_run_first : store_step 2 false (run_begin (new_store None)) ex1.
Proof.
  unfold ex1, run_write.
  destruct (WritePage false (run_begin (new_store None)) MaxPageId [1]) as [[id s']|] eqn:Hw; [|discriminate Hw].
  destruct (st_cow (run_begin (new_store None))) as [c|] eqn:Hc; [|discriminate Hc].
  apply (step_write 2 false _ c MaxPageId [1] id s' Hc); [| |exact Hw]; vm_compute in Hc; injection Hc as <-.
  - reflexivity.
  - left. split; [reflexivity|]. intros sn Hsn. vm_compute in Hsn. injection Hsn as <-. reflexivity.
Qed.

Lemma ex2_reach : store_reach 2 false ex2.
Proof.
  assert (H0 : store_reach 2 false (run_begin (new_store None)))
    by (eapply reach_step; [apply (reach_start 2 false None); exact I|apply (step_run_begin (new_store None)); vm_compute; reflexivity]).
  pose proof (reach_step _ _ _ _ H0 step_run_first) as H1.
  eapply reach_step; [eapply reach_step; [exact H1|]|]; unfold ex2.
  - apply step_run_commit; vm_compute; reflexivity.
  - apply step_run_acquire. vm_compute. reflexivity.
Qed.

Lemma ex3_steps : store_reach 2 false (run_begin ex2) /\ store_step 2 false ex2 (run_begin ex2) /\
  store_step 2 false (run_begin ex2) ex3.
Proof.
  assert (Hb : store_step 2 false ex2 (run_begin ex2)) by (apply step_run_begin; vm_compute; reflexivity).
  pose proof (reach_step _ _ _ _ ex2_reach Hb) as Hr. split; [exact Hr|]. split; [exact Hb|].
  apply step_run_write; [exact (store_reach_inv _ _ _ Hr)|vm_compute; reflexivity].
Qed.

Lemma ex4_reach : store_reach 2 false ex4.
Proof.
  destruct ex3_steps as (Hr & _ & H3). pose proof (reach_step _ _ _ _ Hr H3) as Hr3.
  unfold ex4. eapply reach_step; [eapply reach_step; [exact Hr3|]|].
  - apply step_run_commit; vm_compute; reflexivity.
  - apply step_run_begin; vm_compute; reflexivity.
Qed.

(** ** Properties *)

(** C1: Snapshot isolation: as long as a reader keeps its [Ref] to a snapshot,
    every page of the snapshot reads the same, whatever write tasks and other
    readers do in between. *)
Theorem snapshot_isolation shift append i s s' :
  store_reach shift append s -> held_steps shift append i s s' ->
  forall p, 0 <= p -> ReadPage s' i p = ReadPage s i p.
Proof.
  intros Hr%store_reach_inv Hh. induction Hh as [s Hi|s s1 s2 Hi Hst Hh IH]; [reflexivity|]. intros p Hp.
  destruct (store_step_inv shift append s s1 Hr Hst) as [Hr1 Hk]. rewrite (IH Hr1 p Hp).
  apply Hk; [exact (proj1 (si_readers _ _ Hr i Hi))| |exact (proj1 (si_readers _ _ Hr1 i (held_first _ _ _ _ _ Hh)))|exact Hp].
  intros c. exact (reader_not_cow append s i c Hr Hi).
Qed.

(** Page 0 is rewritten while a reader holds the snapshot with its first content. *)
Lemma snapshot_isolation_witness : ReadPage ex3 0 0 = Some [1] /\ ReadPage ex3 1 0 = Some [2].
Proof.
  split; [|vm_compute; reflexivity].
  transitivity (ReadPage ex2 0 0); [|vm_compute; reflexivity].
  apply (snapshot_isolation 2 false 0 ex2 ex3 ex2_reach); [|lia].
  destruct ex3_steps as (_ & H1 & H2).
  assert (Hi : forall s, bool_decide (0 ∈ st_readers s) = true -> 0 ∈ st_readers s)
    by (intros s; apply bool_decide_eq_true_1).
  apply (held_step 2 false 0 ex2 (run_begin ex2) ex3); [apply Hi; vm_compute; reflexivity|exact H1|].
  apply (held_step 2 false 0 _ ex3 ex3); [apply Hi; vm_compute; reflexivity|exact H2|].
  apply held_refl. apply Hi. vm_compute. reflexivity.
Defined.

(** C12: Writing a page succeeds, the write task then reads the content back
    under the page id it got, and reads every other page as before. *)
Theorem write_then_read shift append s c page_id content :
  store_reach shift append s -> st_cow s = Some c -> max_fp_id_ (mr_alloc (cow_mapper c)) < 2 ^ 32 - 1 ->
  writable s c page_id ->
  exists id s', WritePage append s page_id content = Some (id, s') /\
    (page_id <> MaxPageId -> id = page_id) /\
    ReadPage s' (mr_snap (cow_mapper c)) id = Some content /\
    forall q, 0 <= q -> q <> id -> ReadPage s' (mr_snap (cow_mapper c)) q = ReadPage s (mr_snap (cow_mapper c)) q.
Proof.
  intros Hr%store_reach_inv Hc Hroom Hw.
  destruct (WritePage_spec append s c page_id content Hr Hc Hroom Hw)
    as (id & s' & c' & H1 & _ & _ & _ & _ & H2 & _ & H3 & H4 & _).
  exists id, s'. split_and!; auto.
Qed.

Lemma write_then_read_witness : exists id s',
  WritePage false (run_begin (new_store None)) MaxPageId [7] = Some (id, s') /\ ReadPage s' 0 id = Some [7].
Proof.
  destruct (st_cow (run_begin (new_store None))) as [c|] eqn:Hc; [|discriminate Hc].
  assert (Hc' := Hc). vm_compute in Hc'. injection Hc' as Hc'.
  destruct (write_then_read 2 false (run_begin (new_store None)) c MaxPageId [7]) as (id & s' & H1 & _ & H2 & _).
  - eapply reach_step; [apply (reach_start 2 false None); exact I|].
    apply (step_run_begin (new_store None)); vm_compute; reflexivity.
  - exact Hc.
  - rewrite <- Hc'. vm_compute. reflexivity.
  - left. split; [reflexivity|]. intros sn Hsn. rewrite <- Hc' in Hsn. vm_compute in Hsn. injection Hsn as <-.
    vm_compute. reflexivity.
  - exists id, s'. split; [exact H1|]. rewrite <- Hc' in H2. exact H2.
Defined.

(** C13: A file page that a write task gets from the allocator is mapped by no
    snapshot that still exists and waits to be freed in none. *)
Theorem allocated_page_unseen shift append s c page_id :
  store_reach shift append s -> st_cow s = Some c -> max_fp_id_ (mr_alloc (cow_mapper c)) < 2 ^ 32 - 1 ->
  writable s c page_id ->
  exists id fp s', AllocatePage append s page_id = Some (id, fp, s') /\
    forall i sn, st_snaps s !! i = Some sn ->
      (forall p, ~ maps (sn_tbl sn) p fp) /\ fp ∉ to_free_file_pages_ sn.
Proof.
  intros Hr%store_reach_inv Hc Hroom Hw.
  destruct (AllocatePage_spec append s c page_id Hr Hc Hroom Hw) as (id & fp & s1 & c' & t & t' & fr & H1 & _ & _ & Hno & _).
  exists id, fp, s1. split; [exact H1|]. intros i sn Hi.
  destruct (proj2 (si_cow_alloc _ _ Hr c Hc) i sn Hi) as [Hm Hf]. split; [intros p Hp|intros Hp]; eauto.
Qed.

Lemma allocated_page_unseen_witness : exists id fp s', AllocatePage false (run_begin ex2) 0 = Some (id, fp, s') /\
  forall i sn, st_snaps (run_begin ex2) !! i = Some sn ->
    (forall p, ~ maps (sn_tbl sn) p fp) /\ fp ∉ to_free_file_pages_ sn.
Proof.
  destruct ex3_steps as (Hr & _ & _).
  destruct (st_cow (run_begin ex2)) as [c|] eqn:Hc; [|vm_compute in Hc; discriminate Hc].
  assert (Hc' := Hc). vm_compute in Hc'. injection Hc' as Hc'.
  apply (allocated_page_unseen 2 false _ c 0 Hr Hc).
  - rewrite <- Hc'. vm_compute. reflexivity.
  - right. split; [discriminate|]. apply (maps_cow_holds false _ _ (store_reach_inv _ _ _ Hr)).
    destruct (st_snaps (run_begin ex2) !! mr_snap (cow_mapper c)) as [sn|] eqn:Hsn.
    2:{ rewrite <- Hc' in Hsn. vm_compute in Hsn. discriminate Hsn. }
    exists c, sn, 0. split; [exact Hc|]. split; [exact Hsn|]. rewrite <- Hc' in Hsn. vm_compute in Hsn.
    injection Hsn as <-. split; [vm_compute; split; [discriminate|reflexivity]|].
    split; [lia|vm_compute; reflexivity].
Defined.

(** C11: A batch ends all or nothing.  Committing succeeds and publishes exactly
    what the task reads; aborting succeeds and leaves the published snapshot
    and every page in it as they were. *)
Theorem batch_atomic shift append s c :
  store_reach shift append s -> st_cow s = Some c ->
  (exists s', UpdateRoot append s = Some s' /\ st_cow s' = None /\
     (mr_snap <$> st_pub s') = Some (mr_snap (cow_mapper c)) /\
     forall p, ReadPage s' (mr_snap (cow_mapper c)) p = ReadPage s (mr_snap (cow_mapper c)) p) /\
  (exists s', Abort s = Some s' /\ st_cow s' = None /\
     mr_snap <$> st_pub s' = mr_snap <$> st_pub s /\
     forall m p, st_pub s = Some m -> ReadPage s' (mr_snap m) p = ReadPage s (mr_snap m) p).
Proof.
  intros Hr%store_reach_inv Hc.
  assert (Hread : forall s' i p, reads_kept s s' -> st_disk s' = st_disk s -> store_inv append s' ->
    (mr_snap <$> st_pub s') = Some i -> ReadPage s' i p = ReadPage s i p).
  { intros s' i p Hk Hd Hinv Hp. apply fmap_Some in Hp as (m & Hm & ->).
    destruct (si_pub _ _ Hinv m Hm) as (sn' & _ & Hsn' & _). destruct (Hk _ _ Hsn') as (sn & Hsn & Ht).
    rewrite (ReadPage_some _ _ _ _ Hsn), (ReadPage_some _ _ _ _ Hsn'), Hd, Ht. reflexivity. }
  split.
  - destruct (UpdateRoot_inv append s c Hr Hc) as (s' & H1 & H2 & H3 & H4 & H5 & H6).
    exists s'. split_and!; auto.
  - destruct (Abort_inv append s c Hr Hc) as (s' & H1 & H2 & H3 & H4 & H5 & H6).
    exists s'. split_and!; auto. intros m p Hm. apply Hread; auto. rewrite H6, Hm. reflexivity.
Qed.

Lemma batch_atomic_witness :
  (exists s', UpdateRoot false ex3 = Some s' /\ ReadPage s' 1 0 = Some [2]) /\
  (exists s', Abort ex3 = Some s' /\ ReadPage s' 0 0 = Some [1]).
Proof.
  destruct ex3_steps as (Hr & _ & H3). pose proof (reach_step _ _ _ _ Hr H3) as Hr3.
  destruct (st_cow ex3) as [c|] eqn:Hc; [|vm_compute in Hc; discriminate Hc].
  destruct (st_pub ex3) as [m|] eqn:Hm; [|vm_compute in Hm; discriminate Hm].
  destruct (batch_atomic 2 false ex3 c Hr3 Hc) as [(s1 & H1 & _ & _ & R1) (s2 & H2 & _ & _ & R2)].
  specialize (R1 0). specialize (R2 m 0 Hm).
  vm_compute in Hc, Hm. injection Hc as Hc. injection Hm as Hm. rewrite <- Hc in R1. rewrite <- Hm in R2.
  split; [exists s1|exists s2]; (split; [assumption|]).
  - cbn [cow_mapper mr_snap] in R1. rewrite R1. vm_compute. reflexivity.
  - cbn [mr_snap] in R2. rewrite R2. vm_compute. reflexivity.
Defined.
