(* ===== verification/Provenance.v ===== *)
(** * Where file pages come from

    An invariant of the steps of CowStore about the origin of file pages: every
    page that an allocator may hand out satisfies [P] and every page that a table
    maps satisfies [M], whatever tasks and readers do.  With suitable predicates it
    says in which files a branch writes (Branching), and that a file page which
    [FreeMappingSnapshot] returned to a pool that is about to be replaced is never
    used again. *)

From stdpp Require Import gmap relations.
From S2P Require Import Prelude IndexPageIter MappingTable PageMapper CowStore.

Section origin.
  Context (shift : Z) (append : bool) (M P : Z -> Prop).
  Context (HPM : forall q, P q -> M q) (HMP : append = false -> forall q, M q -> P q).

(** Whatever the allocator hands out, now or later, satisfies [P]. *)
Definition hands_out (al : FilePageAllocator) : Prop := forall q, 0 <= q -> ~ fp_ok al q -> P q.

Definition pages_from (snaps : gmap Z Snapshot) : Prop :=
  forall i sn, snaps !! i = Some sn ->
    (forall p fp, maps (sn_tbl sn) p fp -> M fp) /\ (forall fp, fp ∈ to_free_file_pages_ sn -> P fp /\ is_u32 fp).

Record origin (s : Store) : Prop := {
  og_snaps : pages_from (st_snaps s);
  og_pub : forall m, st_pub s = Some m -> hands_out (mr_alloc m);
  og_cow : forall c, st_cow s = Some c -> hands_out (mr_alloc (cow_mapper c))
}.

Lemma PoolFree_hands_out al fps : hands_out al -> (forall fp, fp ∈ fps -> P fp /\ is_u32 fp) -> hands_out (PoolFree al fps).
Proof using Type.
  intros Hal Hf q Hq Hn. destruct (decide (q ∈ fps)) as [Hin|Hout]; [apply (Hf q Hin)|]. apply (Hal q Hq). intros [H1 H2].
  apply Hn. unfold fp_ok, PoolFree, free_ids in *. destruct (alloc_kind al) as [st|ids] eqn:Hk; [rewrite Hk; auto|].
  cbn [max_fp_id_ alloc_kind]. split; [exact H1|]. rewrite elem_of_app, elem_of_reverse. intros [Hx|Hx]; [|contradiction].
  apply Hout. apply list_elem_of_In, in_map_iff in Hx as (x & <- & Hx). apply list_elem_of_In in Hx.
  rewrite u32_id by (apply Hf; exact Hx). exact Hx.
Qed.

(** ** Dropping references *)
Lemma Free_origin s i sn s' : origin s -> st_snaps s !! i = Some sn -> FreeMappingSnapshot s i sn = Some s' ->
  origin s' /\ mr_snap <$> st_pub s' = mr_snap <$> st_pub s.
Proof using Type.
  intros [H1 H2 H3] Hi Hf. unfold FreeMappingSnapshot in Hf.
  assert (Hd : pages_from (delete i (st_snaps s))) by (intros j x Hj; apply lookup_delete_Some in Hj as [_ Hj]; exact (H1 j x Hj)).
  destruct (to_free_file_pages_ sn) as [|fp fps] eqn:Hfree; [injection Hf as <-; split; [split; assumption|reflexivity]|].
  rewrite <- Hfree in Hf. destruct (st_pub s) as [m|] eqn:Hm; [|discriminate Hf]. injection Hf as <-. split; [split|reflexivity].
  - exact Hd.
  - intros m' Hm'. injection Hm' as <-. apply PoolFree_hands_out; [exact (H2 m eq_refl)|exact (proj2 (H1 i sn Hi))].
  - exact H3.
Qed.

Lemma Release_origin s i s' : origin s -> Release s i = Some s' -> origin s' /\ mr_snap <$> st_pub s' = mr_snap <$> st_pub s.
Proof using Type.
  unfold Release. generalize (size (st_snaps s)) as fuel. intros fuel. revert s i.
  induction fuel as [|fuel IH]; intros s i Ho Hr; cbn [ReleaseRef] in Hr;
    (destruct (st_snaps s !! i) as [sn|] eqn:Hi; [|injection Hr as <-; auto]);
    (destruct (Referenced s i); [injection Hr as <-; auto|]);
    (destruct (FreeMappingSnapshot s i sn) as [s1|] eqn:Hf; [|discriminate Hr]); cbn [mbind option_bind] in Hr;
    destruct (Free_origin s i sn s1 Ho Hi Hf) as [Ho1 Hp1]; destruct (sn_next sn) as [j|]; try discriminate Hr;
    try (injection Hr as <-; auto; fail).
  destruct (IH s1 j Ho1 Hr) as [Ho2 Hp2]. split; [exact Ho2|congruence].
Qed.

(** ** The operations of a write task *)
Lemma update_origin s s' c c' tbl tbl' freed : cow_update append s s' c c' tbl tbl' freed -> origin s -> origin s'.
Proof using HPM HMP.
  intros Hu [H1 H2 H3]. destruct (cow_entry append s s' c c' tbl tbl' freed Hu) as (sn0 & Hsn0 & <-).
  pose proof (H3 c (cu_cow _ _ _ _ _ _ _ _ Hu)) as Hal. destruct (H1 _ _ Hsn0) as [Hm0 _]. split.
  - intros i sn' Hi. destruct (cu_inv append s s' c c' _ tbl' freed Hu i sn' Hi) as (sn & Hsn & _ & Hf & Ht). destruct (H1 i sn Hsn) as [Hm Hfr].
    rewrite Hf, Ht. split.
    + intros p fp. destruct (i =? mr_snap (cow_mapper c)); [|apply Hm]. intros Hp.
      destruct (cu_maps _ _ _ _ _ _ _ _ Hu p fp Hp) as [Hp'|[Hn _]]; [exact (Hm0 p fp Hp')|].
      apply HPM, (Hal fp); [destruct Hp as (_ & ? & _); lia|exact Hn].
    + intros fp [Hin|Hin]%elem_of_app; [exact (Hfr fp Hin)|]. destruct (i =? old_mapping_ c); [|inversion Hin].
      destruct (cu_freed _ _ _ _ _ _ _ _ Hu fp Hin) as [(p & Hp) _]. split; [|destruct Hp as (_ & Hp & _); exact Hp].
      destruct append eqn:Ha; [|exact (HMP eq_refl fp (Hm0 p fp Hp))].
      rewrite (cu_append _ _ _ _ _ _ _ _ Hu eq_refl) in Hin. inversion Hin.
  - intros m Hm. rewrite (cu_pub _ _ _ _ _ _ _ _ Hu) in Hm. exact (H2 m Hm).
  - intros c1 Hc1. rewrite (cu_cow' _ _ _ _ _ _ _ _ Hu) in Hc1. injection Hc1 as <-. intros q Hq Hn. apply (Hal q Hq).
    intros Hok. exact (Hn (cu_mono _ _ _ _ _ _ _ _ Hu q Hok)).
Qed.

Lemma MakeCowRoot_origin s s' m : store_inv append s -> st_pub s = Some m -> MakeCowRoot shift append s = Some s' -> origin s ->
  origin s' /\ st_pub s' = st_pub s.
Proof using Type.
  intros Hinv Hm Hs [H1 H2 H3]. unfold MakeCowRoot in Hs. rewrite Hm in Hs.
  destruct (si_pub _ _ Hinv m Hm) as (sn & l & Hsn & _). rewrite Hsn in Hs. cbn [mbind option_bind] in Hs.
  destruct (quiet_copy (st_arena s) (sn_tbl sn) (si_arena _ _ Hinv) (si_snap _ _ Hinv _ _ Hsn)) as (src & dst & a & Hcp & _ & Hsrc & Hdst).
  rewrite Hcp in Hs. cbn [mbind option_bind] in Hs. injection Hs as <-. destruct (H1 _ _ Hsn) as [Hmp Hfr].
  split; [|symmetry; exact Hm]. split; cbn [st_snaps st_pub st_cow].
  - intros i x Hi. apply lookup_insert_Some in Hi as [[_ <-]|[_ Hi]]; [|apply lookup_insert_Some in Hi as [[_ <-]|[_ Hi]]; [|exact (H1 i x Hi)]];
      cbn [sn_tbl to_free_file_pages_]; split; try (intros fp Hfp; inversion Hfp; fail); try exact Hfr;
      intros p fp Hp; apply (Hmp p fp); [apply (same_maps _ _ p fp Hdst)|apply (same_maps _ _ p fp Hsrc)]; exact Hp.
  - intros m' Hm'. apply H2. congruence.
  - intros c Hc. injection Hc as <-. exact (H2 m Hm).
Qed.

(** Publishing forgets the pool of the mapper that was published before. *)
Lemma UpdateRoot_origin s s' c : pages_from (st_snaps s) -> st_cow s = Some c -> hands_out (mr_alloc (cow_mapper c)) -> UpdateRoot append s = Some s' ->
  origin s' /\ is_Some (st_pub s').
Proof using Type.
  clear HPM HMP. intros H1 Hc H3 Hs. unfold UpdateRoot in Hs. rewrite Hc in Hs. cbn [mbind option_bind] in Hs.
  destruct (st_pub s) as [m|]; [|injection Hs as <-; split; [split; cbn; [exact H1|intros m' Hm'; injection Hm' as <-; exact H3|discriminate]|cbn; eauto]].
  destruct (st_snaps s !! mr_snap m) as [sn|] eqn:Hsn; [|discriminate Hs]. cbn [mbind option_bind] in Hs.
  set (snaps := if append then st_snaps s else _) in Hs. set (s0 := with_pub (with_snaps s snaps) (Some (cow_mapper c))) in Hs.
  assert (H0 : origin s0).
  { split; cbn; [|intros m' Hm'; injection Hm' as <-; exact H3|intros c' Hc'; rewrite Hc in Hc'; injection Hc' as <-; exact H3].
    unfold snaps. destruct append; [exact H1|]. intros i x Hi. apply lookup_insert_Some in Hi as [[_ <-]|[_ Hi]]; [exact (H1 _ _ Hsn)|exact (H1 i x Hi)]. }
  destruct (Release s0 (mr_snap m)) as [s1|] eqn:Hr1; [|discriminate Hs]. cbn [mbind option_bind] in Hs.
  destruct (Release_origin _ _ _ H0 Hr1) as [[G1 G2 G3] Hp1].
  destruct (Release_origin _ _ _ (Build_origin (with_cow s1 None) G1 G2 ltac:(discriminate)) Hs) as [Ho2 Hp2]. split; [exact Ho2|].
  cbn [with_cow st_pub] in Hp2. apply (fmap_is_Some mr_snap). rewrite Hp2, Hp1. cbn. eauto.
Qed.

Lemma Abort_origin s s' : origin s -> Abort s = Some s' -> origin s' /\ mr_snap <$> st_pub s' = mr_snap <$> st_pub s.
Proof using Type.
  intros [H1 H2 H3] Hs. unfold Abort in Hs. destruct (st_cow s) as [c|]; [|discriminate Hs]. cbn [mbind option_bind] in Hs.
  destruct (st_snaps s !! old_mapping_ c) as [sn|] eqn:Hsn; [|discriminate Hs]. cbn [mbind option_bind] in Hs.
  set (s0 := with_cow _ None) in Hs.
  assert (H0 : origin s0).
  { split; cbn; [|exact H2|discriminate]. intros i x Hi. apply lookup_insert_Some in Hi as [[_ <-]|[_ Hi]]; [|exact (H1 i x Hi)].
    split; [exact (proj1 (H1 _ _ Hsn))|]. intros fp Hfp. inversion Hfp. }
  destruct (Release s0 (mr_snap (cow_mapper c))) as [s1|] eqn:Hr1; [|discriminate Hs]. cbn [mbind option_bind] in Hs.
  destruct (Release_origin _ _ _ H0 Hr1) as [Ho1 Hp1]. destruct (Release_origin _ _ _ Ho1 Hs) as [Ho2 Hp2].
  split; [exact Ho2|]. rewrite Hp2, Hp1. reflexivity.
Qed.

Lemma origin_frame s s' : st_snaps s' = st_snaps s -> st_pub s' = st_pub s -> st_cow s' = st_cow s -> origin s -> origin s'.
Proof using Type. intros E1 E2 E3 [H1 H2 H3]. split; rewrite ?E1, ?E2, ?E3; assumption. Qed.

(** ** Steps *)
Lemma step_origin s s' : store_inv append s -> store_step shift append s s' -> origin s -> is_Some (st_pub s) -> origin s' /\ is_Some (st_pub s').
Proof using HPM HMP.
  intros Hinv Hst Ho Hpub. pose proof Hpub as [m Hm].
  assert (Hsame : forall x, mr_snap <$> st_pub x = mr_snap <$> st_pub s -> is_Some (st_pub x))
    by (intros x Hx; apply (fmap_is_Some mr_snap); rewrite Hx, Hm; cbn; eauto).
  assert (Hupd : forall x c c' tbl tbl' freed, cow_update append s x c c' tbl tbl' freed -> origin x /\ is_Some (st_pub x))
    by (intros x c c' tbl tbl' freed Hu; split; [exact (update_origin _ _ _ _ _ _ _ Hu Ho)|rewrite (cu_pub _ _ _ _ _ _ _ _ Hu); exact Hpub]).
  destruct Hst as [s' Hc Hs|c sn id s' Hc Hsn Hsz Hs|c page_id content id s' Hc Hroom Hw Hs|page_id s' Hcm Hs|s' [c Hc] Hs|s' [c Hc] Hs|i s' Hs|i s' Hs].
  - destruct (MakeCowRoot_origin s s' m Hinv Hm Hs Ho) as [H1 H2]. split; [exact H1|rewrite H2; exact Hpub].
  - destruct (CowGetPage_spec append s c sn Hinv Hc Hsn Hsz) as (id1 & s1 & c' & tbl' & H1 & Hu & _).
    assert (s1 = s') as -> by congruence. exact (Hupd _ _ _ _ _ _ Hu).
  - destruct (AllocatePage_spec append s c page_id Hinv Hc Hroom Hw) as (id1 & fp & s1 & c' & tbl & tbl' & freed & H1 & Hu & _).
    unfold WritePage in Hs. rewrite H1 in Hs. injection Hs as _ <-. destruct (Hupd _ _ _ _ _ _ Hu) as [G1 G2].
    split; [apply (origin_frame s1); auto|exact G2].
  - destruct (CowFreePage_spec append s page_id Hinv Hcm) as (s1 & c & c' & tbl & tbl' & freed & H1 & Hu & _).
    assert (s1 = s') as -> by congruence. exact (Hupd _ _ _ _ _ _ Hu).
  - exact (UpdateRoot_origin s s' c (og_snaps _ Ho) Hc (og_cow _ Ho c Hc) Hs).
  - destruct (Abort_origin s s' Ho Hs) as [H1 H2]. split; [exact H1|exact (Hsame _ H2)].
  - unfold AcquireSnapshot in Hs. rewrite Hm in Hs. injection Hs as _ <-. split; [apply (origin_frame s); auto|exact Hpub].
  - unfold DropSnapshot in Hs. assert (Ho' : origin (with_readers s (remove_one i (st_readers s)))) by (apply (origin_frame s); auto). destruct (Release_origin _ _ _ Ho' Hs) as [H1 H2]. split; [exact H1|exact (Hsame _ H2)].
Qed.

Lemma steps_origin s s' : store_inv append s -> rtc (store_step shift append) s s' -> origin s -> is_Some (st_pub s) ->
  store_inv append s' /\ origin s' /\ is_Some (st_pub s').
Proof using HPM HMP.
  intros Hinv Hst. induction Hst as [s|s s1 s2 H1 _ IH]; intros Ho Hp; [auto|].
  destruct (step_origin s s1 Hinv H1 Ho Hp) as [Ho1 Hp1]. exact (IH (proj1 (store_step_inv _ _ _ _ Hinv H1)) Ho1 Hp1).
Qed.

(** The file page of an allocation. *)
Lemma allocated_origin s c page_id id fp s' : store_inv append s -> origin s -> st_cow s = Some c ->
  max_fp_id_ (mr_alloc (cow_mapper c)) < 2 ^ 32 - 1 -> writable s c page_id -> AllocatePage append s page_id = Some (id, fp, s') -> P fp.
Proof using Type.
  intros Hinv Ho Hc Hroom Hw Ha.
  destruct (AllocatePage_spec append s c page_id Hinv Hc Hroom Hw) as (id1 & fp1 & s1 & c' & tbl & tbl' & freed & H1 & _ & _ & Hno & (_ & Hr & _) & _).
  assert (fp1 = fp) as -> by congruence. apply (og_cow _ Ho c Hc); [lia|exact Hno].
Qed.
End origin.

(** ** Lost file pages *)

(** No snapshot maps the file page, none waits to free it and no allocator has
    it. *)
Definition lost (s : Store) (fp : Z) : Prop :=
  (forall i sn, st_snaps s !! i = Some sn -> (forall p, ~ maps (sn_tbl sn) p fp) /\ fp ∉ to_free_file_pages_ sn) /\
  (forall m, st_pub s = Some m -> fp_ok (mr_alloc m) fp) /\
  (forall c, st_cow s = Some c -> fp_ok (mr_alloc (cow_mapper c)) fp).

Lemma fp_ok_dec al fp : Decision (fp_ok al fp).
Proof. unfold fp_ok. apply _. Defined.

(** The origin of the pages that are not [fp]. *)
Lemma lost_origin s fp : 0 <= fp -> origin (.≠ fp) (.≠ fp) s -> lost s fp.
Proof.
  intros H0 [H1 H2 H3]. assert (Hal : forall al, hands_out (.≠ fp) al -> fp_ok al fp)
    by (intros al Hh; destruct (fp_ok_dec al fp) as [|Hn]; [assumption|destruct (Hh fp H0 Hn eq_refl)]).
  split; [|split; auto]. intros i sn Hi. destruct (H1 i sn Hi) as [G1 G2]. split; [intros p Hp; exact (G1 p fp Hp eq_refl)|].
  intros Hin. destruct (G2 fp Hin) as [Hne _]. exact (Hne eq_refl).
Qed.

(** ** The pool of the published mapper *)
Definition pool (s : Store) : list Z := match st_pub s with Some m => free_ids (mr_alloc m) | None => [] end.

Lemma Free_pool s i sn s' : FreeMappingSnapshot s i sn = Some s' ->
  (forall fp, fp ∈ pool s -> fp ∈ pool s') /\
  (Forall is_u32 (to_free_file_pages_ sn) -> forall fp, fp ∈ pool s' -> fp ∈ pool s \/ fp ∈ to_free_file_pages_ sn).
Proof.
  unfold FreeMappingSnapshot, pool. destruct (to_free_file_pages_ sn) as [|x l] eqn:Hf; [intros H; injection H as <-; auto|].
  rewrite <- Hf. destruct (st_pub s) as [m|]; [|discriminate]. intros H. injection H as <-. cbn [with_pub st_pub mr_alloc].
  unfold PoolFree, free_ids. destruct (alloc_kind (mr_alloc m)) as [st|ids] eqn:Hk; [rewrite Hk; auto|]. cbn [alloc_kind].
  setoid_rewrite elem_of_app. setoid_rewrite elem_of_reverse. split; [auto|]. intros Hu fp [Hin|Hin]; [|auto]. right.
  apply list_elem_of_In, in_map_iff in Hin as (y & <- & Hy). rewrite List.Forall_forall in Hu. rewrite u32_id by (apply Hu, Hy).
  apply list_elem_of_In, Hy.
Qed.

(** What a drop returns to the pool was recorded in a snapshot that is gone. *)
Lemma Release_pool s i s' : Release s i = Some s' ->
  (forall fp, fp ∈ pool s -> fp ∈ pool s') /\ (forall j x, st_snaps s' !! j = Some x -> st_snaps s !! j = Some x) /\
  ((forall j x, st_snaps s !! j = Some x -> Forall is_u32 (to_free_file_pages_ x)) -> forall fp, fp ∈ pool s' ->
     fp ∈ pool s \/ exists j x, st_snaps s !! j = Some x /\ fp ∈ to_free_file_pages_ x /\ st_snaps s' !! j = None).
Proof.
  unfold Release. generalize (size (st_snaps s)) as fuel. intros fuel. revert s i.
  induction fuel as [|fuel IH]; intros s i Hr; cbn [ReleaseRef] in Hr;
    (destruct (st_snaps s !! i) as [sn|] eqn:Hi; [|injection Hr as <-; auto]);
    (destruct (Referenced s i); [injection Hr as <-; auto|]);
    (destruct (FreeMappingSnapshot s i sn) as [s1|] eqn:Hf; [|discriminate Hr]); cbn [mbind option_bind] in Hr;
    destruct (Free_pool s i sn s1 Hf) as [Hg1 Hp1];
    (assert (Hd : st_snaps s1 = delete i (st_snaps s))
      by (unfold FreeMappingSnapshot in Hf; destruct (to_free_file_pages_ sn); [injection Hf as <-; reflexivity|];
          destruct (st_pub s); [injection Hf as <-; reflexivity|discriminate Hf]));
    (assert (Hsub : forall j x, st_snaps s1 !! j = Some x -> st_snaps s !! j = Some x)
      by (intros j x; rewrite Hd, lookup_delete_Some; intros [_ Hj]; exact Hj));
    (assert (Hone : (forall j x, st_snaps s !! j = Some x -> Forall is_u32 (to_free_file_pages_ x)) -> forall fp, fp ∈ pool s1 ->
        fp ∈ pool s \/ exists j x, st_snaps s !! j = Some x /\ fp ∈ to_free_file_pages_ x /\ st_snaps s1 !! j = None)
      by (intros Hu fp Hfp; destruct (Hp1 (Hu i sn Hi) fp Hfp) as [|Hin]; [auto|right; exists i, sn; rewrite Hd, lookup_delete_eq; auto]));
    destruct (sn_next sn) as [k|]; try discriminate Hr; try (injection Hr as <-; auto; fail).
  destruct (IH s1 k Hr) as (Hg2 & Hs2 & Hp2). split; [auto|]. split; [auto|]. intros Hu fp Hfp.
  destruct (Hp2 (fun j x Hj => Hu j x (Hsub j x Hj)) fp Hfp) as [Hin|(j & x & Hj & Hin & Hn)]; [|eauto 8].
  destruct (Hone Hu fp Hin) as [|(j & x & Hj & Hx & Hn)]; [auto|right]. exists j, x. split; [exact Hj|]. split; [exact Hx|].
  destruct (st_snaps s' !! j) as [y|] eqn:Hy; [|reflexivity]. rewrite (Hs2 j y Hy) in Hn. discriminate Hn.
Qed.

Lemma Abort_pool s s' fp : Abort s = Some s' -> fp ∈ pool s -> fp ∈ pool s'.
Proof.
  unfold Abort. destruct (st_cow s) as [c|]; [|discriminate]. cbn [mbind option_bind].
  destruct (st_snaps s !! old_mapping_ c) as [sn|]; [|discriminate]. cbn [mbind option_bind]. set (s0 := with_cow _ None).
  intros Hs Hfp. assert (H0 : fp ∈ pool s0) by exact Hfp.
  destruct (Release s0 (mr_snap (cow_mapper c))) as [s1|] eqn:Hr; [|discriminate Hs]. cbn [mbind option_bind] in Hs.
  apply (Release_pool _ _ _ Hs), (Release_pool _ _ _ Hr), H0.
Qed.

(** A recorded page that goes to the pool of the published mapper while a task
    runs: nothing of the task or of the remaining snapshots has it. *)
Lemma freed_unused append s c i s1 fp : store_inv append s -> st_cow s = Some c -> is_Some (st_pub s) -> DropSnapshot s i = Some s1 ->
  fp ∈ pool s1 -> fp ∉ pool s ->
  0 <= fp /\ st_cow s1 = Some c /\ pages_from (.≠ fp) (.≠ fp) (st_snaps s1) /\ hands_out (.≠ fp) (mr_alloc (cow_mapper c)).
Proof.
  intros Hinv Hc [m Hm] Hd Hin Hout. destruct (DropSnapshot_inv append s i Hinv) as (s' & Hs' & Hinv1 & _ & _ & Hc1 & Hp1).
  assert (s' = s1) as -> by congruence. rewrite Hc in Hc1. rewrite Hm in Hp1. cbn in Hp1. apply fmap_Some in Hp1 as (m1 & Hm1 & Hmm).
  destruct (si_cow_alloc _ _ Hinv c Hc) as [_ Hal]. destruct (si_cow_alloc _ _ Hinv1 c Hc1) as [[Hmx _ _] Hal1].
  destruct (si_cow _ _ Hinv c Hc) as [_ Hco]. rewrite Hm in Hco. destruct Hco as (Hlt & _ & _).
  assert (Hrec : exists k x, st_snaps s !! k = Some x /\ fp ∈ to_free_file_pages_ x /\ st_snaps s1 !! k = None).
  { destruct (proj2 (proj2 (Release_pool _ _ _ Hd))) with (fp := fp) as [Hx|Hx]; [|exact Hin|contradiction|exact Hx].
    intros j x Hj. apply List.Forall_forall. intros q Hq%list_elem_of_In. destruct (proj2 (Hal j x Hj) q Hq) as [Hr _].
    destruct (si_cow_alloc _ _ Hinv c Hc) as [[? _ _] _]. unfold is_u32. lia. }
  destruct Hrec as (k & x & Hk & Hx & Hgone). destruct (proj2 (Hal k x Hk) fp Hx) as [Hr Hfree].
  assert (Hsub : forall j y, st_snaps s1 !! j = Some y -> st_snaps s !! j = Some y /\ j <> k)
    by (intros j y Hj; split; [exact (proj1 (proj2 (Release_pool _ _ _ Hd)) j y Hj)|congruence]).
  assert (Hkp : k <= mr_snap m).
  { destruct (si_top _ _ Hinv k x Hk) as [(m' & Hm' & Hle)|(c' & Hc' & ->)]; [assert (m' = m) as -> by congruence; exact Hle|].
    assert (c' = c) as -> by congruence. destruct (si_cow _ _ Hinv1 c Hc1) as [(z & l & Hz & _) _]. congruence. }
  unfold pool in Hin. rewrite Hm1 in Hin. split; [lia|]. split; [exact Hc1|]. split.
  - intros j y Hj. destruct (Hsub j y Hj) as [Hj0 Hne]. split.
    + intros p q Hq ->. destruct (si_top _ _ Hinv1 j y Hj) as [(m' & Hm' & Hle)|(c' & Hc' & ->)].
      * assert (m' = m1) as -> by congruence. destruct (proj2 (si_pub_alloc _ _ Hinv1 m1 Hm1) j y Hj Hle) as [Hmp _].
        exact (proj2 (Hmp p fp Hq) Hin).
      * assert (c' = c) as -> by congruence. exact (si_free_sep _ _ Hinv k _ x y fp p Hk Hj0 Hx ltac:(left; lia) Hq).
    + intros q Hq. destruct (proj2 (Hal1 j y Hj) q Hq) as [Hqr _]. split; [|unfold is_u32; lia]. intros ->.
      exact (si_free_disj _ _ Hinv j k y x fp Hne Hj0 Hk Hq Hx).
  - intros q _ Hn ->. apply Hn. split; assumption.
Qed.

(** ** Properties *)


