(* ===== verification/PageIo.v ===== *)
(** * Pages on their way to and from the files

    Where a file page lies ([WriteTask::ConvFilePageId], src/tasks/write_task.cpp),
    the checksum in the first bytes of a page (src/storage/page.cpp), and what
    the value writers need from the page layer: a class of operations with its
    laws.  The hash function is third-party code and a parameter. *)

From S2P Require Import Prelude Coding PageFormat.

(** ** Place of a file page *)
Definition ConvFilePageId (pages_per_file_shift data_page_size file_page_id : Z) : Z * Z :=
  (Z.shiftr file_page_id pages_per_file_shift,
   u32 (u64 (Z.land file_page_id (u32 (Z.shiftl 1 pages_per_file_shift) - 1) * data_page_size))).

Lemma ConvFilePageId_eq shift size fp :
  0 <= shift < 32 -> 0 < size -> size * 2 ^ shift <= 2 ^ 32 -> 0 <= fp ->
  ConvFilePageId shift size fp = (fp / 2 ^ shift, fp mod 2 ^ shift * size).
Proof.
  intros Hs Hz Hf Hp. unfold ConvFilePageId. rewrite Z.shiftr_div_pow2, Z.shiftl_1_l by lia.
  assert (Hpos : 0 < 2 ^ shift) by (apply Z.pow_pos_nonneg; lia).
  assert (Hlt : 2 ^ shift < 2 ^ 32) by (apply Z.pow_lt_mono_r; lia).
  rewrite (u32_id (2 ^ shift)), land_ones_mod by (unfold is_u32; lia).
  pose proof (Z.mod_pos_bound fp (2 ^ shift) Hpos) as Hm.
  assert (Hb : 0 <= fp mod 2 ^ shift * size < 2 ^ 32).
  { split; [apply Z.mul_nonneg_nonneg; lia|]. apply Z.lt_le_trans with (size * 2 ^ shift); [|exact Hf].
    rewrite Z.mul_comm. apply Z.mul_lt_mono_pos_l; lia. }
  rewrite u64_id by (unfold is_u64; lia). rewrite u32_id by exact Hb. reflexivity.
Qed.

(** ** Checksums *)
Section checksum.
  Context (hash : bytes -> Z).

Definition SetChecksum (blob : bytes) : bytes :=
  write_at blob 0 (EncodeFixed64 (hash (zdrop checksum_bytes blob))).

Definition ValidateChecksum (blob : bytes) : option bool :=
  stored ← DecodeFixed64 blob;
  Some (hash (zdrop checksum_bytes blob) =? stored).

Lemma SetChecksum_split blob :
  SetChecksum blob = EncodeFixed64 (hash (zdrop checksum_bytes blob)) ++ zdrop checksum_bytes blob.
Proof. reflexivity. Qed.

Lemma SetChecksum_rest blob off :
  checksum_bytes <= zlen blob -> checksum_bytes <= off -> zdrop off (SetChecksum blob) = zdrop off blob.
Proof.
  intros Hl Ho. rewrite (SetChecksum_split blob). unfold checksum_bytes in *.
  replace off with (zlen (EncodeFixed64 (hash (zdrop 8 blob))) + (off - 8)) at 1
    by (unfold zlen; rewrite EncodeFixed64_length; lia).
  rewrite zdrop_app_add by lia. rewrite zdrop_zdrop by lia. f_equal. lia.
Qed.

Lemma SetChecksum_length blob : checksum_bytes <= zlen blob -> zlen (SetChecksum blob) = zlen blob.
Proof.
  intros Hl. rewrite (SetChecksum_split blob), zlen_app. unfold checksum_bytes in *.
  rewrite zlen_zdrop by lia. unfold zlen at 1. rewrite EncodeFixed64_length. lia.
Qed.

Lemma SetChecksum_valid blob :
  (forall b, is_u64 (hash b)) -> checksum_bytes <= zlen blob -> ValidateChecksum (SetChecksum blob) = Some true.
Proof.
  intros Hh Hl. unfold ValidateChecksum. rewrite (SetChecksum_rest blob checksum_bytes Hl (Z.le_refl _)).
  rewrite (SetChecksum_split blob), fixed64_app by apply Hh. cbn [mbind option_bind].
  rewrite Z.eqb_refl. reflexivity.
Qed.
End checksum.

(** ** The page layer as the value writers see it

    [ps_get] takes a page id, [ps_write] gives a page new content, [ps_free]
    gives the id back, [ps_read] reads through the mapping of the task. *)
Class PageStore (S : Type) := {
  ps_get : S -> option (Z * S);
  ps_write : S -> Z -> bytes -> option S;
  ps_free : S -> Z -> option S;
  ps_read : S -> Z -> option bytes
}.

(** Its promises: ids in use are not handed out again, a page that is written is
    read back, and no operation disturbs another page in use.  [ps_room s n]
    says that [n] more ids and file pages are available. *)
Class PageStoreLaws (S : Type) `{PageStore S} := {
  ps_ok : S -> Prop;
  ps_held : S -> Z -> Prop;
  ps_mapped : S -> Z -> Prop;
  ps_room : S -> Z -> Prop;
  ps_room_mono : forall s n m, ps_room s n -> 0 <= m <= n -> ps_room s m;
  ps_get_law : forall s n, ps_ok s -> 0 <= n -> ps_room s (n + 1) ->
    exists id s', ps_get s = Some (id, s') /\ ps_ok s' /\ ps_room s' n /\ ~ ps_held s id /\
      0 <= id < 2 ^ 32 - 1 /\ (forall q, ps_held s' q <-> q = id \/ ps_held s q) /\
      (forall q, ps_held s q -> ps_read s' q = ps_read s q) /\
      (forall q, ps_held s q -> ps_mapped s' q <-> ps_mapped s q);
  ps_write_law : forall s n id content, ps_ok s -> 0 <= n -> ps_room s (n + 1) -> ps_held s id ->
    exists s', ps_write s id content = Some s' /\ ps_ok s' /\ ps_room s' n /\
      (forall q, ps_held s' q <-> ps_held s q) /\ ps_read s' id = Some content /\ ps_mapped s' id /\
      (forall q, ps_held s q -> q <> id -> ps_read s' q = ps_read s q /\ (ps_mapped s' q <-> ps_mapped s q));
  ps_free_law : forall s n id, ps_ok s -> ps_room s n -> ps_held s id -> ps_mapped s id ->
    exists s', ps_free s id = Some s' /\ ps_ok s' /\ ps_room s' n /\
      (forall q, ps_held s' q <-> ps_held s q /\ q <> id) /\
      (forall q, ps_held s q -> q <> id -> ps_read s' q = ps_read s q /\ (ps_mapped s' q <-> ps_mapped s q))
}.

(** ** Properties *)

(** Two different file pages never share bytes of a file, and every page
    lies inside its file, as long as a file is at most 4 GiB. *)
Theorem file_pages_disjoint shift size fp1 fp2 f1 o1 f2 o2 :
  0 <= shift < 32 -> 0 < size -> size * 2 ^ shift <= 2 ^ 32 -> 0 <= fp1 -> 0 <= fp2 -> fp1 <> fp2 ->
  ConvFilePageId shift size fp1 = (f1, o1) -> ConvFilePageId shift size fp2 = (f2, o2) ->
  0 <= o1 /\ o1 + size <= size * 2 ^ shift /\ (f1 <> f2 \/ o1 + size <= o2 \/ o2 + size <= o1).
Proof.
  intros Hs Hz Hf H1 H2 Hne E1 E2. rewrite ConvFilePageId_eq in E1, E2 by lia.
  injection E1 as <- <-. injection E2 as <- <-.
  assert (Hpos : 0 < 2 ^ shift) by (apply Z.pow_pos_nonneg; lia).
  pose proof (Z.mod_pos_bound fp1 (2 ^ shift) Hpos). pose proof (Z.mod_pos_bound fp2 (2 ^ shift) Hpos).
  assert (Hmul : forall a b, a < b -> a * size + size <= b * size) by (intros; nia).
  split; [apply Z.mul_nonneg_nonneg; lia|]. split; [rewrite (Z.mul_comm size); apply Hmul; lia|].
  destruct (Z.eq_dec (fp1 / 2 ^ shift) (fp2 / 2 ^ shift)) as [He|He]; [right|left; exact He].
  destruct (Z.lt_trichotomy (fp1 mod 2 ^ shift) (fp2 mod 2 ^ shift)) as [Hlt|[Heq|Hlt]]; [left; auto| |right; auto].
  exfalso. apply Hne. rewrite (Z.div_mod fp1 (2 ^ shift)), (Z.div_mod fp2 (2 ^ shift)), He, Heq by lia. reflexivity.
Qed.

Lemma file_pages_disjoint_witness :
  0 <= 12288 /\ 12288 + 4096 <= 4096 * 2 ^ 4 /\ (1 <> 1 \/ 12288 + 4096 <= 20480 \/ 20480 + 4096 <= 12288).
Proof.
  apply (file_pages_disjoint 4 4096 19 21 1 12288 1 20480); try reflexivity; try lia.
Defined.

(** A page that got its checksum passes validation, whatever it holds, and
    keeps all its bytes after the checksum field; a page whose content differs
    from what was hashed passes only if the two contents have the same hash. *)
Theorem checksum_detects hash blob page :
  (forall b, is_u64 (hash b)) -> checksum_bytes <= zlen blob ->
  ValidateChecksum hash (SetChecksum hash blob) = Some true /\
  zlen (SetChecksum hash blob) = zlen blob /\
  zdrop checksum_bytes (SetChecksum hash blob) = zdrop checksum_bytes blob /\
  (ztake checksum_bytes page = ztake checksum_bytes (SetChecksum hash blob) ->
   ValidateChecksum hash page = Some true -> hash (zdrop checksum_bytes page) = hash (zdrop checksum_bytes blob)).
Proof.
  intros Hh Hl. split; [exact (SetChecksum_valid hash blob Hh Hl)|].
  split; [exact (SetChecksum_length hash blob Hl)|].
  split; [exact (SetChecksum_rest hash blob checksum_bytes Hl (Z.le_refl _))|].
  intros Ht Hv. unfold ValidateChecksum in Hv. rewrite <- (ztake_zdrop checksum_bytes page), Ht in Hv at 1.
  rewrite (SetChecksum_split hash blob) in Hv.
  assert (Hlen : zlen (EncodeFixed64 (hash (zdrop checksum_bytes blob))) = checksum_bytes)
    by (unfold zlen; rewrite EncodeFixed64_length; reflexivity).
  rewrite <- Hlen in Hv at 1. rewrite ztake_app, fixed64_app in Hv by apply Hh.
  injection Hv as Hv. apply Z.eqb_eq in Hv. exact Hv.
Qed.

Lemma checksum_detects_witness :
  ValidateChecksum (fun b => u64 (foldr Z.add 7 b)) (SetChecksum (fun b => u64 (foldr Z.add 7 b)) [0;0;0;0;0;0;0;0;5;6])
    = Some true.
Proof.
  apply (checksum_detects (fun b => u64 (foldr Z.add 7 b)) [0;0;0;0;0;0;0;0;5;6] []).
  - intros b. apply u64_range.
  - vm_compute. discriminate.
Defined.
