(* ===== verification/Overflow.v ===== *)
(** * Overflow values

    A value that does not fit in a data page is cut into overflow pages.  The
    pages form groups of at most [overflow_pointers] pages; the last page of a
    group that is not the last one holds the page ids of the next group.  The
    model covers [OverflowPage] (src/storage/data_page.cpp), [WriteOverflowValue]
    and [DelOverflowValue] (src/tasks/batch_write_task.cpp), [GetOverflowValue]
    and [DecodeOverflowPointers] (src/tasks/task.cpp), over any page layer that
    keeps the promises of [PageStoreLaws]. *)

From stdpp Require Import gmap.
From S2P Require Import Prelude Coding PageFormat IndexPage IndexPageIter PageIo.

(** ** Overflow pages *)
Definition max_overflow_pointers : Z := 128.

Definition value_offset : Z := page_size_offset + 2.

(** Room for the value; the end page of a group keeps room for pointers. *)
Definition Capacity (opts : KvOptions) (end_ : bool) : Z :=
  let cap := u16 (data_page_size opts - value_offset - 1) in
  if end_ then u16 (cap - overflow_pointers opts * 4) else cap.

Definition put_pointer (st : bytes * Z) (p : Z) : bytes * Z :=
  let '(page, dst) := st in (write_at page dst (EncodeFixed32 p), dst + 4).

(** The constructor of [OverflowPage]; [fresh] is the buffer that the page pool
    hands out, with whatever it holds. *)
Definition OverflowPage (opts : KvOptions) (fresh val : bytes) (pointers : list Z) : option bytes :=
  if data_page_size opts =? 0 then None
  else
    let page := SetPageType fresh Overflow in
    let page := write_at page page_size_offset (EncodeFixed16 (u16 (zlen val))) in
    let page := write_at page value_offset val in
    let dst := data_page_size opts - 1 in
    let page := write_at page dst [u8 (zlen pointers)] in
    Some (match pointers with
          | [] => page
          | _ => fst (fold_left put_pointer pointers (page, dst - zlen pointers * 4))
          end).

Definition ValueSize (page : bytes) : option Z := DecodeFixed16 (zdrop page_size_offset page).

Definition GetValue (page : bytes) : option bytes :=
  n ← ValueSize page;
  if value_offset + n <=? zlen page then Some (ztake n (zdrop value_offset page)) else None.

Definition NumPointers (opts : KvOptions) (page : bytes) : option Z :=
  page !! Z.to_nat (data_page_size opts - 1).

Definition GetEncodedPointers (opts : KvOptions) (page : bytes) : option bytes :=
  n ← NumPointers opts page;
  if n =? 0 then Some []
  else
    let off := data_page_size opts - 1 - n * 4 in
    if 0 <=? off then Some (ztake (n * 4) (zdrop off page)) else None.

(** [DecodeOverflowPointers]; the array it fills has room for
    [max_overflow_pointers] ids. *)
Fixpoint decode_pointers (fuel : nat) (encoded : bytes) : option (list Z) :=
  match encoded with
  | [] => Some []
  | _ =>
      match fuel with
      | O => None
      | S fuel' =>
          p ← DecodeFixed32 encoded;
          rest ← decode_pointers fuel' (zdrop 4 encoded);
          Some (p :: rest)
      end
  end.

Definition DecodeOverflowPointers (encoded : bytes) : option (list Z) :=
  ptrs ← decode_pointers (length encoded) encoded;
  if zlen ptrs <=? max_overflow_pointers then Some ptrs else None.

(** ** Reading *)
Section reading.
  Context (opts : KvOptions) (hash : bytes -> Z) (skip_verify_checksum : bool) (read : Z -> option bytes).

(** A page read from its file: validation of the checksum, then the check of
    the page type in the constructor of [OverflowPage]. *)
Definition LoadOverflowPage (id : Z) : option bytes :=
  page ← read id;
  ok ← (if skip_verify_checksum then Some true else ValidateChecksum hash page);
  t ← TypeOfPage page;
  if ok && (t =? PageType_code Overflow) then Some page else None.

(** The pages of a group: their values, and the pointers in the last one. *)
Fixpoint append_pages (pages : list bytes) (value : bytes) : option (bytes * bytes) :=
  match pages with
  | [] => Some (value, [])
  | pg :: rest =>
      v ← GetValue pg;
      match rest with
      | [] => ptrs ← GetEncodedPointers opts pg; Some (value ++ v, ptrs)
      | _ => append_pages rest (value ++ v)
      end
  end.

Fixpoint GetOverflowValue_loop (fuel : nat) (page_ids : list Z) (value : bytes) : option bytes :=
  match page_ids with
  | [] => Some value
  | _ =>
      match fuel with
      | O => None
      | S fuel' =>
          pages ← mapM LoadOverflowPage page_ids;
          '(value, ptrs) ← append_pages pages value;
          page_ids ← DecodeOverflowPointers ptrs;
          GetOverflowValue_loop fuel' page_ids value
      end
  end.

Definition GetOverflowValue (fuel : nat) (encoded_ptrs : bytes) : option bytes :=
  page_ids ← DecodeOverflowPointers encoded_ptrs;
  GetOverflowValue_loop fuel page_ids [].
End reading.

(** ** Writing and deleting *)
Section writing.
  Context {S : Type} `{PageStore S}.
  Context (opts : KvOptions) (hash : bytes -> Z) (skip_verify_checksum : bool).

(** [pool id] is the buffer that the page for [id] is built in. *)
Context (pool : Z -> bytes).

(** [WriteTask::WritePage(OverflowPage)] for a page that was just built. *)
Definition WriteOverflowPage (s : S) (id : Z) (val : bytes) (pointers : list Z) : option S :=
  page ← OverflowPage opts (pool id) val pointers;
  ps_write s id (SetChecksum hash page).

Fixpoint get_pages (n : nat) (s : S) : option (list Z * S) :=
  match n with
  | O => Some ([], s)
  | Datatypes.S n' => '(id, s) ← ps_get s; '(ids, s) ← get_pages n' s; Some (id :: ids, s)
  end.

(** The pages of one group; [i] counts them.  The result has the end page of the
    group, its value and what is left of the value. *)
Fixpoint write_group (s : S) (i end_page_id : Z) (page_val value : bytes) (pointers : list Z)
    : option (Z * bytes * bytes * S) :=
  match pointers with
  | [] => Some (end_page_id, page_val, value, s)
  | pg_id :: rest =>
      let i := i + 1 in
      if (i =? overflow_pointers opts) && (Capacity opts false <? zlen value) then
        let n := Z.min (Capacity opts true) (zlen value) in
        Some (pg_id, ztake n value, zdrop n value, s)
      else
        let n := Z.min (Capacity opts false) (zlen value) in
        s ← WriteOverflowPage s pg_id (ztake n value) [];
        write_group s i end_page_id (ztake n value) (zdrop n value) rest
  end.

Fixpoint WriteOverflowValue_loop (fuel : nat) (s : S) (overflow_ptrs : bytes) (end_page_id : Z)
    (page_val value : bytes) : option (bytes * S) :=
  match value with
  | [] => Some (overflow_ptrs, s)
  | _ =>
      match fuel with
      | O => None
      | Datatypes.S fuel' =>
          let size := (zlen value + Capacity opts false - 1) / Capacity opts false in
          let next_group_size := Z.min size (overflow_pointers opts) in
          '(pointers, s) ← get_pages (Z.to_nat next_group_size) s;
          '(overflow_ptrs, s) ←
            (if end_page_id =? MaxPageId then Some (fold_left PutFixed32 pointers overflow_ptrs, s)
             else s ← WriteOverflowPage s end_page_id page_val pointers; Some (overflow_ptrs, s));
          '(end_page_id, page_val, value, s) ← write_group s 0 end_page_id page_val value pointers;
          WriteOverflowValue_loop fuel' s overflow_ptrs end_page_id page_val value
      end
  end.

(** Every round takes at least one byte of the value: its length is enough fuel. *)
Definition WriteOverflowValue (s : S) (value : bytes) : option (bytes * S) :=
  WriteOverflowValue_loop (length value) s [] MaxPageId [] value.

(** The loop over [pointers] from index [i]; a full group ends with the page that
    leads to the next group. *)
Fixpoint DelOverflowValue_loop (fuel : nat) (s : S) (pointers : list Z) (i : Z) : option S :=
  if i <? zlen pointers then
    match fuel with
    | O => None
    | Datatypes.S fuel' =>
        page_id ← pointers !! Z.to_nat i;
        if i =? overflow_pointers opts - 1 then
          page ← LoadOverflowPage hash skip_verify_checksum (ps_read s) page_id;
          encoded_ptrs ← GetEncodedPointers opts page;
          pointers ← DecodeOverflowPointers encoded_ptrs;
          s ← ps_free s page_id;
          DelOverflowValue_loop fuel' s pointers 0
        else
          s ← ps_free s page_id;
          DelOverflowValue_loop fuel' s pointers (i + 1)
    end
  else Some s.

Definition DelOverflowValue (fuel : nat) (s : S) (encoded_ptrs : bytes) : option S :=
  pointers ← DecodeOverflowPointers encoded_ptrs;
  DelOverflowValue_loop fuel s pointers 0.
End writing.

(** ** The page format *)
Record overflow_options (opts : KvOptions) : Prop := {
  oo_size : data_page_size opts < 2 ^ 16;
  oo_ptrs : 1 <= overflow_pointers opts <= max_overflow_pointers;
  oo_room : value_offset + 1 + overflow_pointers opts * 4 < data_page_size opts
}.

Lemma Capacity_eq opts e :
  overflow_options opts ->
  Capacity opts e = data_page_size opts - value_offset - 1 - (if e then overflow_pointers opts * 4 else 0).
Proof.
  intros [H1 H2 H3]. unfold Capacity, max_overflow_pointers in *. change value_offset with 11 in *.
  destruct e; rewrite ?u16_id; rewrite ?u16_id; unfold is_u16; lia.
Qed.

Definition encode_pointers (ptrs : list Z) : bytes := concat (map EncodeFixed32 ptrs).

Lemma encode_pointers_length ptrs : zlen (encode_pointers ptrs) = zlen ptrs * 4.
Proof.
  induction ptrs as [|p l IH]; [reflexivity|]. unfold encode_pointers in *. cbn [map concat].
  rewrite zlen_app, IH, zlen_cons. unfold zlen at 1. rewrite EncodeFixed32_length. lia.
Qed.

Lemma fold_PutFixed32 l buf : fold_left PutFixed32 l buf = buf ++ encode_pointers l.
Proof.
  revert buf. induction l as [|p l IH]; intros buf; [symmetry; apply app_nil_r|].
  cbn [fold_left]. rewrite IH. unfold PutFixed32, encode_pointers. cbn [map concat]. symmetry. apply app_assoc.
Qed.

Lemma decode_encode ptrs :
  Forall is_u32 ptrs -> zlen ptrs <= max_overflow_pointers ->
  DecodeOverflowPointers (encode_pointers ptrs) = Some ptrs.
Proof.
  intros Hu Hn. unfold DecodeOverflowPointers.
  assert (Hd : forall fuel, (length ptrs <= fuel)%nat -> decode_pointers fuel (encode_pointers ptrs) = Some ptrs).
  { clear Hn. induction Hu as [|p l Hp Hl IH]; intros fuel Hf; [destruct fuel; reflexivity|].
    destruct fuel as [|fuel]; [simpl in Hf; lia|]. unfold encode_pointers. cbn [map concat]. fold (encode_pointers l).
    cbn [decode_pointers]. rewrite fixed32_app by exact Hp.
    assert (Hz : zdrop 4 (EncodeFixed32 p ++ encode_pointers l) = encode_pointers l) by reflexivity.
    rewrite Hz, (IH fuel) by (simpl in Hf; lia). reflexivity. }
  rewrite Hd.
  - cbn [mbind option_bind]. rewrite (proj2 (Z.leb_le _ _) Hn). reflexivity.
  - pose proof (encode_pointers_length ptrs) as He. unfold zlen in He. lia.
Qed.

(** A page that holds [val] and the pointers [ptrs]. *)
Definition overflow_format (opts : KvOptions) (val : bytes) (ptrs : list Z) (page : bytes) : Prop :=
  exists chk mid, page = chk ++ [PageType_code Overflow] ++ EncodeFixed16 (zlen val) ++ val ++ mid ++
      encode_pointers ptrs ++ [zlen ptrs] /\
    zlen chk = checksum_bytes /\ zlen page = data_page_size opts /\ is_u16 (zlen val) /\
    zlen ptrs <= max_overflow_pointers.

Lemma cut_at {A} (l : list A) n : 0 <= n <= zlen l -> exists a b, l = a ++ b /\ zlen a = n /\ zlen b = zlen l - n.
Proof.
  intros Hn. exists (ztake n l), (zdrop n l). rewrite ztake_zdrop, zlen_ztake, zlen_zdrop by lia. auto.
Qed.

Lemma write_at_here a x b src n :
  zlen a = n -> zlen x = zlen src -> write_at (a ++ x ++ b) n src = a ++ src ++ b.
Proof.
  intros <- Hx. unfold write_at. rewrite ztake_app, zdrop_app_add by apply zlen_nonneg.
  rewrite <- Hx, zdrop_app. reflexivity.
Qed.

Lemma fold_put_pointer ptrs a x b :
  zlen x = zlen ptrs * 4 ->
  fst (fold_left put_pointer ptrs (a ++ x ++ b, zlen a)) = a ++ encode_pointers ptrs ++ b.
Proof.
  revert a x. induction ptrs as [|p l IH]; intros a x Hx.
  - rewrite (zlen_zero x) by (rewrite Hx; reflexivity). reflexivity.
  - rewrite zlen_cons in Hx. pose proof (zlen_nonneg l). destruct (cut_at x 4) as (y & z & -> & Hy & Hz); [lia|].
    cbn [fold_left put_pointer]. rewrite <- app_assoc, (write_at_here a y (z ++ b)); [|reflexivity|exact Hy].
    rewrite app_assoc. replace (zlen a + 4) with (zlen (a ++ EncodeFixed32 p)) by (rewrite zlen_app; reflexivity).
    rewrite IH by (rewrite zlen_app in Hx; lia). rewrite <- app_assoc. reflexivity.
Qed.

(** The fields of a page buffer, before they are written. *)
Lemma cut_page (fresh : bytes) v k n :
  0 <= v -> 0 <= k -> 11 + v + k * 4 + 1 <= n -> zlen fresh = n ->
  exists chk ty sz val mid ps num, fresh = chk ++ ty ++ sz ++ val ++ mid ++ ps ++ num /\
    zlen chk = 8 /\ zlen ty = 1 /\ zlen sz = 2 /\ zlen val = v /\ zlen ps = k * 4 /\ zlen num = 1 /\
    zlen mid = n - 12 - v - k * 4.
Proof.
  intros Hv Hk Hn Hf.
  destruct (cut_at fresh 8) as (chk & f1 & -> & Hc & Hl1); [lia|].
  destruct (cut_at f1 1) as (ty & f2 & -> & Hty & Hl2); [lia|].
  destruct (cut_at f2 2) as (sz & f3 & -> & Hsz & Hl3); [lia|].
  destruct (cut_at f3 v) as (val & f4 & -> & Hlv & Hl4); [lia|].
  destruct (cut_at f4 (n - 12 - v - k * 4)) as (mid & f5 & -> & Hmid & Hl5); [lia|].
  destruct (cut_at f5 (k * 4)) as (ps & num & -> & Hps & Hnum); [lia|].
  exists chk, ty, sz, val, mid, ps, num. split_and!; auto; lia.
Qed.

(** Writing the pointers backwards from the end of the page. *)
Lemma write_pointers (front ps num : bytes) (ptrs : list Z) n :
  zlen front = n - 1 - zlen ptrs * 4 -> zlen ps = zlen ptrs * 4 -> zlen num = 1 -> is_byte (zlen ptrs) ->
  (let page := write_at (front ++ ps ++ num) (n - 1) [u8 (zlen ptrs)] in
   match ptrs with
   | [] => page
   | _ => fst (fold_left put_pointer ptrs (page, n - 1 - zlen ptrs * 4))
   end) = front ++ encode_pointers ptrs ++ [zlen ptrs].
Proof.
  intros Hf Hps Hn Hb. rewrite u8_id by exact Hb.
  replace (front ++ ps ++ num) with ((front ++ ps) ++ num ++ []) by (rewrite app_nil_r, <- app_assoc; reflexivity).
  rewrite (write_at_here (front ++ ps) num); [|rewrite zlen_app; lia|exact Hn]. cbv zeta.
  destruct ptrs as [|p l].
  - rewrite (zlen_zero ps) by (rewrite Hps; reflexivity). rewrite app_nil_r. reflexivity.
  - rewrite <- Hf, <- app_assoc. cbn [app]. exact (fold_put_pointer (p :: l) front ps [zlen (p :: l)] Hps).
Qed.

Lemma OverflowPage_format opts fresh val ptrs :
  overflow_options opts -> zlen fresh = data_page_size opts -> zlen ptrs <= overflow_pointers opts ->
  zlen val <= Capacity opts (negb (bool_decide (ptrs = []))) ->
  exists page, OverflowPage opts fresh val ptrs = Some page /\ overflow_format opts val ptrs page.
Proof.
  intros Ho Hf Hp Hv. rewrite (Capacity_eq opts _ Ho) in Hv. destruct Ho as [H1 H2 H3].
  unfold max_overflow_pointers in *. change value_offset with 11 in *.
  pose proof (zlen_nonneg val). pose proof (zlen_nonneg ptrs).
  assert (Hroom : 11 + zlen val + zlen ptrs * 4 + 1 <= data_page_size opts).
  { destruct (bool_decide_reflect (ptrs = [])) as [->|]; cbn [negb] in Hv; [change (zlen (@nil Z)) with 0 in *|]; lia. }
  clear Hv. destruct (cut_page fresh (zlen val) (zlen ptrs) _ ltac:(lia) ltac:(lia) Hroom Hf)
    as (chk & ty & sz & v & mid & ps & num & -> & Hc & Hty & Hsz & Hlv & Hps & Hn & Hmid).
  unfold OverflowPage. rewrite (proj2 (Z.eqb_neq _ 0)) by lia. eexists. split; [reflexivity|].
  unfold SetPageType. rewrite (write_at_here chk ty _ [PageType_code Overflow] page_type_offset Hc Hty).
  rewrite u16_id by (unfold is_u16; lia).
  rewrite (app_assoc chk). rewrite (write_at_here (chk ++ _) sz); [|rewrite zlen_app, Hc; reflexivity|exact Hsz].
  rewrite (app_assoc (chk ++ _)). rewrite (write_at_here _ v); [|rewrite !zlen_app, Hc; reflexivity|exact Hlv].
  set (front := ((chk ++ [PageType_code Overflow]) ++ EncodeFixed16 (zlen val)) ++ val ++ mid).
  assert (Hfront : zlen front = data_page_size opts - 1 - zlen ptrs * 4).
  { unfold front. rewrite !zlen_app. rewrite Hc. change (zlen (EncodeFixed16 (zlen val))) with 2.
    change (zlen [PageType_code Overflow]) with 1. lia. }
  replace (((chk ++ [PageType_code Overflow]) ++ EncodeFixed16 (zlen val)) ++ val ++ mid ++ ps ++ num)
    with (front ++ ps ++ num) by (unfold front; rewrite <- !app_assoc; reflexivity).
  pose proof (write_pointers front ps num ptrs _ Hfront Hps Hn ltac:(unfold is_byte; lia)) as Hw.
  cbv zeta in Hw. rewrite Hw.
  exists chk, mid. unfold front. split_and!; try (unfold is_u16, max_overflow_pointers; lia); [|exact Hc|].
  - rewrite <- !app_assoc. reflexivity.
  - fold front. rewrite !zlen_app, encode_pointers_length, Hfront. change (zlen [zlen ptrs]) with 1. lia.
Qed.

Lemma format_value opts val ptrs page : overflow_format opts val ptrs page -> GetValue page = Some val.
Proof.
  intros (chk & mid & -> & Hc & _ & Hv & _). unfold GetValue, ValueSize.
  set (tail := val ++ mid ++ encode_pointers ptrs ++ [zlen ptrs]).
  rewrite (app_assoc chk). change page_size_offset with (8 + 1).
  replace (8 + 1) with (zlen (chk ++ [PageType_code Overflow])) by (rewrite zlen_app, Hc; reflexivity).
  rewrite zdrop_app, fixed16_app by exact Hv. cbn [mbind option_bind].
  rewrite (app_assoc (chk ++ _)).
  replace value_offset with (zlen ((chk ++ [PageType_code Overflow]) ++ EncodeFixed16 (zlen val)))
    by (rewrite !zlen_app, Hc; reflexivity).
  rewrite zdrop_app, (proj2 (Z.leb_le _ _)) by (unfold tail; rewrite (zlen_app _ (val ++ _)), (zlen_app val); zlia).
  unfold tail. rewrite ztake_app. reflexivity.
Qed.

Lemma format_pointers opts val ptrs page :
  overflow_format opts val ptrs page -> GetEncodedPointers opts page = Some (encode_pointers ptrs).
Proof.
  intros (chk & mid & Hpg & Hc & Hl & Hv & Hp). unfold GetEncodedPointers, NumPointers.
  set (front := chk ++ [PageType_code Overflow] ++ EncodeFixed16 (zlen val) ++ val ++ mid).
  assert (Hpage : page = (front ++ encode_pointers ptrs) ++ [zlen ptrs])
    by (rewrite Hpg; unfold front; rewrite <- !app_assoc; reflexivity).
  assert (Hsz : data_page_size opts - 1 = zlen (front ++ encode_pointers ptrs))
    by (rewrite <- Hl, Hpage, (zlen_app _ [_]); change (zlen [zlen ptrs]) with 1; lia).
  assert (Hnum : page !! Z.to_nat (data_page_size opts - 1) = Some (zlen ptrs)).
  { rewrite Hsz, Hpage. unfold zlen at 1. rewrite Nat2Z.id. apply list_lookup_middle. reflexivity. }
  rewrite Hnum, Hsz, Hpage. cbn [mbind option_bind]. pose proof (zlen_nonneg ptrs).
  destruct (Z.eqb_spec (zlen ptrs) 0) as [Hz|Hz]; [rewrite (zlen_zero _ Hz); reflexivity|].
  rewrite zlen_app, encode_pointers_length. replace (zlen front + zlen ptrs * 4 - zlen ptrs * 4) with (zlen front) by lia.
  rewrite (proj2 (Z.leb_le _ _)) by apply zlen_nonneg. rewrite <- app_assoc, zdrop_app.
  rewrite <- (encode_pointers_length ptrs) at 1. rewrite ztake_app. reflexivity.
Qed.

Lemma format_type opts val ptrs page :
  overflow_format opts val ptrs page -> TypeOfPage page = Some (PageType_code Overflow).
Proof.
  intros (chk & mid & -> & Hc & _). unfold TypeOfPage. unfold zlen in Hc.
  rewrite lookup_app_r by (change page_type_offset with checksum_bytes; lia).
  replace (Z.to_nat page_type_offset - length chk)%nat with O by (change page_type_offset with checksum_bytes; lia).
  reflexivity.
Qed.

Lemma format_checksum opts hash val ptrs page :
  overflow_format opts val ptrs page -> overflow_format opts val ptrs (SetChecksum hash page).
Proof.
  intros (chk & mid & Hpg & Hc & Hl & Hv & Hp).
  assert (Hlen : checksum_bytes <= zlen page) by (rewrite Hpg, zlen_app; zlia).
  exists (EncodeFixed64 (hash (zdrop checksum_bytes page))), mid.
  rewrite SetChecksum_length by exact Hlen. split_and!; auto.
  rewrite SetChecksum_split. f_equal. rewrite Hpg, <- Hc. apply zdrop_app.
Qed.

Section stored.
  Context (opts : KvOptions) (hash : bytes -> Z) (skip : bool).
  Context (Hopts : overflow_options opts) (Hhash : forall b, is_u64 (hash b)).

(** Page [id] holds [val] and leads to [ptrs]. *)
Definition stored (read : Z -> option bytes) (id : Z) (val : bytes) (ptrs : list Z) : Prop :=
  exists page, read id = Some page /\ overflow_format opts val ptrs page /\
    ValidateChecksum hash page = Some true.

Lemma stored_load read id val ptrs :
  stored read id val ptrs ->
  exists page, LoadOverflowPage hash skip read id = Some page /\ overflow_format opts val ptrs page.
Proof.
  intros (page & Hr & Hf & Hv). exists page. split; [|exact Hf]. unfold LoadOverflowPage. rewrite Hr.
  cbn [mbind option_bind]. rewrite (format_type _ _ _ _ Hf), Hv. destruct skip; reflexivity.
Qed.

Lemma stored_ext read read' id val ptrs : read' id = read id -> stored read id val ptrs -> stored read' id val ptrs.
Proof. intros Hr (page & H1 & H2). exists page. rewrite Hr. auto. Qed.

Lemma stored_all_ext read read' ids vals :
  Forall2 (fun id v => stored read id v []) ids vals -> (forall q, q ∈ ids -> read' q = read q) ->
  Forall2 (fun id v => stored read' id v []) ids vals.
Proof.
  induction 1 as [|id v ids vals Hs _ IH]; intros Hr; constructor.
  - apply (stored_ext read); [apply Hr; left|exact Hs].
  - apply IH. intros q Hq. apply Hr. right. exact Hq.
Qed.

(** ** Chains of groups

    [chain read ids value all]: the pages [ids] are the first group of a list of
    pages [all] that holds [value]. *)
Inductive chain (read : Z -> option bytes) : list Z -> bytes -> list Z -> Prop :=
| chain_nil : chain read [] [] []
| chain_group front vals last vl next value all :
    Forall2 (fun id v => stored read id v []) front vals -> stored read last vl next ->
    Forall is_u32 next -> zlen front + 1 <= overflow_pointers opts ->
    (next <> [] -> zlen front + 1 = overflow_pointers opts) ->
    chain read next value all ->
    chain read (front ++ [last]) (concat vals ++ vl ++ value) (front ++ [last] ++ all).

Lemma chain_ext read read' ids value all :
  chain read ids value all -> (forall q, q ∈ all -> read' q = read q) -> chain read' ids value all.
Proof using Type.
  clear Hopts Hhash.
  induction 1 as [|front vals last vl next value all Hf Hl Hu Hn Hfull Hc IH]; intros Hr; [constructor|].
  apply (chain_group read' front vals last vl next); auto.
  - apply (stored_all_ext read); [exact Hf|]. intros q Hq. apply Hr. set_solver.
  - apply (stored_ext read); [apply Hr; set_solver|exact Hl].
  - apply IH. intros q Hq. apply Hr. set_solver.
Qed.

Lemma group_pages read front vals last vl next :
  Forall2 (fun id v => stored read id v []) front vals -> stored read last vl next ->
  exists pages, mapM (LoadOverflowPage hash skip read) (front ++ [last]) = Some pages /\
    forall acc, append_pages opts pages acc = Some (acc ++ concat vals ++ vl, encode_pointers next).
Proof using Type.
  intros Hf Hl. induction Hf as [|id v front vals Hs Hf IH]; cbn [app].
  - destruct (stored_load read last vl next Hl) as (pg & Hld & Hfmt). exists [pg]. split.
    + cbn. rewrite Hld. reflexivity.
    + intros acc. cbn [append_pages]. rewrite (format_value _ _ _ _ Hfmt). cbn [mbind option_bind].
      rewrite (format_pointers _ _ _ _ Hfmt). reflexivity.
  - destruct IH as (pages & Hm & Ha). destruct (stored_load read id v [] Hs) as (pg & Hld & Hfmt).
    exists (pg :: pages). split; [cbn; rewrite Hld; cbn; cbn in Hm; rewrite Hm; reflexivity|].
    intros acc. cbn [append_pages]. rewrite (format_value _ _ _ _ Hfmt). cbn [mbind option_bind].
    destruct pages as [|pg' rest].
    + exfalso. apply length_mapM in Hm. rewrite length_app in Hm. cbn in Hm. lia.
    + rewrite Ha. cbn [concat]. rewrite <- !app_assoc. reflexivity.
Qed.

Lemma chain_bound read ids value all :
  chain read ids value all -> zlen ids <= overflow_pointers opts.
Proof using Hopts.
  intros [|front vals last vl next value' all' _ _ _ Hn _ _].
  - change (zlen (@nil Z)) with 0. pose proof (oo_ptrs _ Hopts). lia.
  - rewrite zlen_app. exact Hn.
Qed.

(** Reading a chain returns its value; the number of its pages is enough fuel. *)
Lemma read_chain read ids value all fuel acc :
  chain read ids value all -> (length all <= fuel)%nat ->
  GetOverflowValue_loop opts hash skip read fuel ids acc = Some (acc ++ value).
Proof using Hopts.
  intros Hc. revert fuel acc.
  induction Hc as [|front vals last vl next value all Hf Hl Hu Hn Hfull Hc IH]; intros fuel acc Hfu.
  - destruct fuel; cbn; rewrite app_nil_r; reflexivity.
  - rewrite !length_app in Hfu. cbn [length] in Hfu. destruct fuel as [|fuel]; [lia|].
    destruct (group_pages read front vals last vl next Hf Hl) as (pages & Hm & Ha).
    assert (Hstep : GetOverflowValue_loop opts hash skip read (S fuel) (front ++ [last]) acc =
      pages ← mapM (LoadOverflowPage hash skip read) (front ++ [last]);
      '(value, ptrs) ← append_pages opts pages acc;
      page_ids ← DecodeOverflowPointers ptrs; GetOverflowValue_loop opts hash skip read fuel page_ids value)
      by (destruct front; reflexivity).
    rewrite Hstep, Hm. cbn [mbind option_bind]. rewrite Ha. cbn [mbind option_bind].
    rewrite decode_encode; [|exact Hu|pose proof (chain_bound _ _ _ _ Hc); pose proof (oo_ptrs _ Hopts); lia].
    cbn [mbind option_bind]. rewrite (IH fuel) by lia. rewrite <- !app_assoc. reflexivity.
Qed.
End stored.

(** ** Over a page layer *)
Section layer.
  Context {St : Type} `{!PageStore St} `{!PageStoreLaws St}.
  Context (opts : KvOptions) (hash : bytes -> Z) (skip : bool) (pool : Z -> bytes).
  Context (Hopts : overflow_options opts) (Hhash : forall b, is_u64 (hash b)).
  Context (Hpool : forall id, zlen (pool id) = data_page_size opts).

(** From [s] to [s'] the pages [new] are taken and only [touched] pages change. *)
Record frame (s s' : St) (new touched : list Z) : Prop := {
  fr_ok : ps_ok s';
  fr_held : forall q, ps_held s' q <-> q ∈ new \/ ps_held s q;
  fr_same : forall q, ps_held s q -> q ∉ touched ->
    ps_read s' q = ps_read s q /\ (ps_mapped s' q <-> ps_mapped s q)
}.

Lemma frame_refl s : ps_ok s -> frame s s [] [].
Proof using Type.
  intros Hok. split; [exact Hok| |auto]. intros q. split; [auto|]. intros [Hq|Hq]; [inversion Hq|exact Hq].
Qed.

Lemma frame_trans s1 s2 s3 n1 n2 t1 t2 :
  frame s1 s2 n1 t1 -> frame s2 s3 n2 t2 -> frame s1 s3 (n1 ++ n2) (t1 ++ t2).
Proof using Type.
  intros [_ H1 F1] [Hok H2 F2]. split; [exact Hok| |].
  - intros q. rewrite H2, H1, elem_of_app. tauto.
  - intros q Hq Hn. rewrite elem_of_app in Hn. destruct (F1 q Hq) as [E1 M1]; [tauto|].
    destruct (F2 q) as [E2 M2]; [apply H1; auto|tauto|]. rewrite E2, M2. auto.
Qed.

(** Pages taken earlier in a frame may be touched without a trace. *)
Lemma frame_weaken s s' new t t' :
  frame s s' new t -> (forall q, q ∈ t -> q ∈ t' \/ ~ ps_held s q) -> frame s s' new t'.
Proof using Type.
  intros [Hok Hh Hf] Ht. split; [exact Hok|exact Hh|]. intros q Hq Hn. apply Hf; [exact Hq|].
  intros Hin. destruct (Ht q Hin); auto.
Qed.

Lemma get_pages_spec n s r :
  ps_ok s -> 0 <= r -> ps_room s (r + Z.of_nat n) ->
  exists ids s', get_pages n s = Some (ids, s') /\ frame s s' ids [] /\ ps_room s' r /\
    length ids = n /\ NoDup ids /\ Forall (fun id => 0 <= id < MaxPageId) ids /\ Forall (fun id => ~ ps_held s id) ids.
Proof using Type.
  revert s. induction n as [|n IH]; intros s Hok Hr Hroom.
  - exists [], s. split; [reflexivity|]. split; [apply frame_refl; exact Hok|].
    split; [replace r with (r + Z.of_nat 0) by lia; exact Hroom|]. split_and!; auto; constructor.
  - destruct (ps_get_law s (r + Z.of_nat n) Hok ltac:(lia)) as (id & s1 & Hg & Hok1 & Hroom1 & Hnh & Hid & Hh & Hrd & Hmp);
      [replace (r + Z.of_nat n + 1) with (r + Z.of_nat (S n)) by lia; exact Hroom|].
    destruct (IH s1 Hok1 Hr Hroom1) as (ids & s2 & Hgs & Hfr & Hr2 & Hlen & Hnd & Hrange & Hnew).
    assert (Hf1 : frame s s1 [id] []).
    { split; [exact Hok1| |intros q Hq _; split; auto]. intros q. rewrite Hh, list_elem_of_singleton. reflexivity. }
    exists (id :: ids), s2. cbn [get_pages]. rewrite Hg. cbn [mbind option_bind]. rewrite Hgs. cbn [mbind option_bind].
    split; [reflexivity|]. split; [exact (frame_trans _ _ _ _ _ _ _ Hf1 Hfr)|]. split; [exact Hr2|].
    rewrite list.Forall_forall in Hnew. split; [cbn; lia|]. split.
    { constructor; [|exact Hnd]. intros Hin. apply (Hnew id Hin). apply Hh. auto. }
    split; constructor; auto. apply list.Forall_forall. intros q Hq Hheld. apply (Hnew q Hq). apply Hh. auto.
Qed.

Lemma WriteOverflowPage_spec s id val ptrs r :
  ps_ok s -> 0 <= r -> ps_room s (r + 1) -> ps_held s id -> zlen ptrs <= overflow_pointers opts ->
  zlen val <= Capacity opts (negb (bool_decide (ptrs = []))) ->
  exists s', WriteOverflowPage opts hash pool s id val ptrs = Some s' /\ frame s s' [] [id] /\ ps_room s' r /\
    stored opts hash (ps_read s') id val ptrs /\ ps_mapped s' id.
Proof using Hopts Hhash Hpool.
  intros Hok Hr Hroom Hh Hp Hv. unfold WriteOverflowPage.
  destruct (OverflowPage_format opts (pool id) val ptrs Hopts (Hpool id) Hp Hv) as (page & -> & Hfmt).
  cbn [mbind option_bind].
  destruct (ps_write_law s r id (SetChecksum hash page) Hok Hr Hroom Hh) as (s' & Hw & Hok' & Hr' & Hh' & Hrd & Hm & Ho).
  exists s'. split; [exact Hw|]. split.
  { split; [exact Hok'| |].
    - intros q. rewrite Hh'. split; [auto|]. intros [Hq|Hq]; [inversion Hq|exact Hq].
    - intros q Hq Hn. apply Ho; [exact Hq|]. intros ->. apply Hn. left. }
  split; [exact Hr'|]. split; [|exact Hm]. exists (SetChecksum hash page). split; [exact Hrd|].
  split; [apply format_checksum; exact Hfmt|]. apply SetChecksum_valid; [exact Hhash|].
  destruct Hfmt as (chk & mid & -> & Hc & _). rewrite zlen_app. zlia.
Qed.

(** [k] more pages are right for the [len] bytes that are left. *)
Definition group_fits (i k len : Z) : Prop :=
  let cap := Capacity opts false in
  (i + k <= overflow_pointers opts /\ cap * (k - 1) < len <= cap * k) \/
  (i + k = overflow_pointers opts /\ cap * k < len).

(** What writing a group leaves behind: the pages before the last one hold their
    part of the value, and the last one holds the rest or is still to be written. *)
Definition group_written (r i e : Z) (value : bytes) (pointers : list Z) (s' : St)
    (result : option (Z * bytes * bytes * St)) : Prop :=
  exists front last vals vl, pointers = front ++ [last] /\
    Forall2 (fun id v => stored opts hash (ps_read s') id v []) front vals /\ Forall (ps_mapped s') front /\
    ((result = Some (e, vl, [], s') /\ value = concat vals ++ vl /\ ps_room s' r /\
      stored opts hash (ps_read s') last vl [] /\ ps_mapped s' last) \/
     (exists rest, result = Some (last, vl, rest, s') /\ rest <> [] /\ value = concat vals ++ vl ++ rest /\
      ps_room s' (r + 1) /\ zlen pointers + zlen rest <= zlen value /\
      zlen vl <= Capacity opts true /\ i + zlen pointers = overflow_pointers opts)).

Lemma capacities : 1 <= Capacity opts true < Capacity opts false.
Proof using Hopts.
  rewrite !(Capacity_eq opts _ Hopts). destruct Hopts as [H1 H2 H3]. lia.
Qed.

Lemma stored_frame s s' new t id val ptrs :
  frame s s' new t -> ps_held s id -> id ∉ t -> stored opts hash (ps_read s) id val ptrs ->
  stored opts hash (ps_read s') id val ptrs.
Proof using Type.
  intros Hf Hh Hn. apply stored_ext. exact (proj1 (fr_same _ _ _ _ Hf id Hh Hn)).
Qed.

Lemma group_cons r i e value pg pointers s' v result :
  group_written r (i + 1) e value pointers s' result -> 1 <= zlen v ->
  stored opts hash (ps_read s') pg v [] -> ps_mapped s' pg ->
  group_written r i e (v ++ value) (pg :: pointers) s' result.
Proof using Type.
  intros (front & last & vals & vl & -> & Hf & Hm & Hr) Hv Hs Hmp.
  exists (pg :: front), last, (v :: vals), vl. split; [reflexivity|]. split; [constructor; assumption|].
  split; [constructor; assumption|]. cbn [concat]. rewrite <- app_assoc.
  destruct Hr as [(-> & -> & Hl)|(rest & -> & Hne & -> & Hroom & Hlen & Hvl & Hk)]; [left; auto|].
  right. exists rest. split; [reflexivity|]. split; [exact Hne|]. rewrite <- app_assoc. split; [reflexivity|].
  split; [exact Hroom|]. split; [rewrite zlen_cons, (zlen_app v); lia|]. split; [exact Hvl|]. rewrite zlen_cons. lia.
Qed.

Lemma write_group_spec pointers s i e pv value r :
  ps_ok s -> 0 <= r -> ps_room s (r + zlen pointers) -> pointers <> [] -> NoDup pointers ->
  Forall (ps_held s) pointers -> group_fits i (zlen pointers) (zlen value) ->
  exists s', frame s s' [] pointers /\
    group_written r i e value pointers s' (write_group opts hash pool s i e pv value pointers).
Proof using Hopts Hhash Hpool.
  pose proof capacities as Hcap. revert s i pv value.
  induction pointers as [|pg rest IH]; intros s i pv value Hok Hr Hroom Hne Hnd Hheld Hfit; [contradiction|].
  rewrite zlen_cons in Hroom, Hfit. unfold group_fits in Hfit. inversion_clear Hnd as [|? ? Hnin Hnd'].
  apply Forall_cons_1 in Hheld as [Hpg Hheld]. cbn [write_group]. pose proof (zlen_nonneg rest).
  destruct ((i + 1 =? overflow_pointers opts) && (Capacity opts false <? zlen value)) eqn:Hb.
  - apply andb_true_iff in Hb as [Hi%Z.eqb_eq Hl%Z.ltb_lt].
    assert (Hrest : rest = []) by (apply zlen_zero; destruct Hfit; nia). subst rest.
    change (zlen (@nil Z)) with 0 in *. exists s. split; [apply (frame_weaken _ _ _ []); [apply frame_refl; exact Hok|]|].
    { intros q Hq. inversion Hq. }
    rewrite Z.min_l by lia.
    exists [], pg, [], (ztake (Capacity opts true) value). cbn [app concat]. split_and!; auto.
    right. exists (zdrop (Capacity opts true) value). split; [reflexivity|]. split.
    { intros Hz. apply (f_equal zlen) in Hz. rewrite zlen_zdrop in Hz by lia. change (zlen (@nil Z)) with 0 in Hz. lia. }
    rewrite ztake_zdrop, zlen_ztake, zlen_zdrop by lia. split_and!; auto; change (zlen [pg]) with 1; lia.
  - set (n := Z.min (Capacity opts false) (zlen value)).
    assert (Hn : 0 <= n <= zlen value /\ n <= Capacity opts false) by (pose proof (zlen_nonneg value); lia).
    destruct (WriteOverflowPage_spec s pg (ztake n value) [] (r + zlen rest) Hok) as (s1 & Hw & Hf1 & Hr1 & Hst & Hmp);
      [lia|replace (r + zlen rest + 1) with (r + (1 + zlen rest)) by lia; exact Hroom|exact Hpg
      |change (zlen (@nil Z)) with 0; pose proof (oo_ptrs _ Hopts); lia
      |rewrite bool_decide_true by reflexivity; cbn [negb]; rewrite zlen_ztake by lia; lia|].
    rewrite Hw. cbn [mbind option_bind]. destruct rest as [|pg2 rest'].
    + assert (Hall : n = zlen value).
      { change (zlen (@nil Z)) with 0 in Hfit. apply andb_false_iff in Hb. rewrite Z.eqb_neq, Z.ltb_ge in Hb. lia. }
      exists s1. split; [exact Hf1|].
      assert (Hr2 : ps_room s1 r) by (apply (ps_room_mono _ _ _ Hr1); change (zlen (@nil Z)) with 0; lia).
      cbn [write_group]. rewrite Hall, zdrop_all, ztake_all. rewrite Hall, ztake_all in Hst.
      exists [], pg, [], value. cbn [app concat]. split_and!; auto. left. split_and!; auto.
    + set (rest := pg2 :: rest') in *. assert (Hk : 1 <= zlen rest) by (unfold rest; rewrite zlen_cons; zlia).
      assert (Hfull : n = Capacity opts false) by (unfold n; destruct Hfit; nia).
      assert (Hheld1 : Forall (ps_held s1) rest).
      { apply (fun H => Forall_impl _ H Hheld). intros q Hq. apply (fr_held _ _ _ _ Hf1). auto. }
      destruct (IH s1 (i + 1) (ztake n value) (zdrop n value)) as (s2 & Hf2 & Hgw); auto;
        [exact (fr_ok _ _ _ _ Hf1)|unfold group_fits; rewrite zlen_zdrop by lia; destruct Hfit; [left|right]; nia|].
      exists s2. split; [exact (frame_trans _ _ _ _ _ _ _ Hf1 Hf2)|].
      rewrite <- (ztake_zdrop n value) at 1. assert (Hpg1 : ps_held s1 pg) by (apply (fr_held _ _ _ _ Hf1); auto).
      apply group_cons; [exact Hgw|rewrite zlen_ztake by lia; lia|exact (stored_frame _ _ _ _ _ _ _ Hf2 Hpg1 Hnin Hst)|].
      apply (fr_same _ _ _ _ Hf2 pg Hpg1 Hnin). exact Hmp.
Qed.

Definition group_size (value : bytes) : Z :=
  Z.min ((zlen value + Capacity opts false - 1) / Capacity opts false) (overflow_pointers opts).

Lemma group_size_fits value :
  value <> [] -> 1 <= group_size value <= zlen value /\ group_size value <= overflow_pointers opts /\
    group_fits 0 (group_size value) (zlen value).
Proof using Hopts.
  intros Hne. pose proof capacities as Hcap. pose proof (oo_ptrs _ Hopts) as Hp.
  assert (Hl : 1 <= zlen value) by (destruct value; [contradiction|rewrite zlen_cons; zlia]).
  unfold group_size, group_fits. cbv zeta. set (cap := Capacity opts false) in *.
  pose proof (Z.div_mod (zlen value + cap - 1) cap ltac:(lia)) as Hd.
  pose proof (Z.mod_pos_bound (zlen value + cap - 1) cap ltac:(lia)) as Hm.
  set (c := (zlen value + cap - 1) / cap) in *.
  assert (Hc : 1 <= c <= zlen value) by nia. split; [lia|]. split; [lia|].
  destruct (Z.le_gt_cases c (overflow_pointers opts)).
  - rewrite Z.min_l by lia. left. split; [lia|]. nia.
  - rewrite Z.min_r by lia. right. split; [lia|]. nia.
Qed.

(** Writing a group and all groups after it. *)
Definition write_rest (fuel : nat) (s : St) (op : bytes) (e : Z) (pv value : bytes) (ids : list Z)
    : option (bytes * St) :=
  '(e', pv', value', s') ← write_group opts hash pool s 0 e pv value ids;
  WriteOverflowValue_loop opts hash pool fuel s' op e' pv' value'.

Lemma loop_step fuel s op e pv value :
  value <> [] ->
  WriteOverflowValue_loop opts hash pool (S fuel) s op e pv value =
    '(ids, s) ← get_pages (Z.to_nat (group_size value)) s;
    '(op, s) ← (if e =? MaxPageId then Some (fold_left PutFixed32 ids op, s)
                else s ← WriteOverflowPage opts hash pool s e pv ids; Some (op, s));
    write_rest fuel s op e pv value ids.
Proof using Type. destruct value; [contradiction|]. reflexivity. Qed.

(** The chain that a write leaves behind, in pages not in use before. *)
Record chain_written (s s' : St) (ids : list Z) (value : bytes) (more : list Z) : Prop := {
  cw_chain : chain opts hash (ps_read s') ids value (ids ++ more);
  cw_nodup : NoDup more;
  cw_new : Forall (fun q => ~ ps_held s q) more;
  cw_mapped : Forall (ps_mapped s') (ids ++ more)
}.

Lemma in_last (l : list Z) x : x ∈ l ++ [x].
Proof using Type. apply elem_of_app. right. left. Qed.

Lemma bound_u32 (ids : list Z) : Forall (fun id => 0 <= id < MaxPageId) ids -> Forall is_u32 ids.
Proof using Type. apply Forall_impl. intros id Hid. unfold is_u32, MaxPageId in *. lia. Qed.

Lemma list_frame_mapped s s' new t (l : list Z) :
  frame s s' new t -> Forall (ps_held s) l -> (forall q, q ∈ l -> q ∉ t) -> Forall (ps_mapped s) l ->
  Forall (ps_mapped s') l.
Proof using Type.
  intros Hf Hh Hn Hm. apply list.Forall_forall. intros q Hq. rewrite list.Forall_forall in Hh, Hm.
  apply (fr_same _ _ _ _ Hf q (Hh q Hq) (Hn q Hq)). exact (Hm q Hq).
Qed.

(** The first group is written in full, so the value ends there. *)
Lemma written_last s s' (front : list Z) last vals vl :
  frame s s' [] (front ++ [last]) -> zlen (front ++ [last]) <= overflow_pointers opts ->
  Forall2 (fun id v => stored opts hash (ps_read s') id v []) front vals -> Forall (ps_mapped s') front ->
  stored opts hash (ps_read s') last vl [] -> ps_mapped s' last ->
  chain_written s s' (front ++ [last]) (concat vals ++ vl) [].
Proof using Type.
  intros Hf Hk Hfr Hm Hl Hml. rewrite zlen_app in Hk. change (zlen [last]) with 1 in Hk. split.
  - rewrite <- app_assoc. rewrite <- (app_nil_r vl).
    apply (chain_group opts hash _ front vals last vl [] [] []); auto; [intros []; reflexivity|constructor].
  - constructor.
  - constructor.
  - rewrite app_nil_r. apply Forall_app_2; [exact Hm|]. apply Forall_singleton. exact Hml.
Qed.

(** A group whose last page leads to the groups written after it. *)
Lemma written_link s s1 s3 s4 (front : list Z) last vals vl value2 ids2 more2 :
  frame s s1 [] (front ++ [last]) -> frame s1 s3 ids2 [last] -> frame s3 s4 more2 ids2 ->
  NoDup (front ++ [last]) -> Forall (ps_held s) (front ++ [last]) ->
  zlen (front ++ [last]) = overflow_pointers opts ->
  Forall2 (fun id v => stored opts hash (ps_read s1) id v []) front vals -> Forall (ps_mapped s1) front ->
  stored opts hash (ps_read s3) last vl ids2 -> ps_mapped s3 last ->
  NoDup ids2 -> Forall is_u32 ids2 -> Forall (fun q => ~ ps_held s1 q) ids2 ->
  chain_written s3 s4 ids2 value2 more2 ->
  frame s s4 (ids2 ++ more2) (front ++ [last]) /\
  chain_written s s4 (front ++ [last]) (concat vals ++ vl ++ value2) (ids2 ++ more2).
Proof using Type.
  clear Hopts Hhash Hpool pool. intros F1 F3 F4 Hnd Hh Hk Hfr Hmf Hl Hml Hnd2 Hu2 Hnew2 [Hc Hndm Hnewm Hmm].
  assert (H01 : forall q, ps_held s q -> ps_held s1 q) by (intros q Hq; apply (fr_held _ _ _ _ F1); auto).
  assert (H13 : forall q, ps_held s1 q -> ps_held s3 q) by (intros q Hq; apply (fr_held _ _ _ _ F3); auto).
  assert (H03 : forall q, q ∈ ids2 -> ps_held s3 q) by (intros q Hq; apply (fr_held _ _ _ _ F3); auto).
  rewrite list.Forall_forall in Hh, Hnew2, Hnewm.
  assert (Hlast : last ∉ ids2) by (intros Hin; apply (Hnew2 last Hin), H01, Hh; set_solver).
  apply list.NoDup_app in Hnd as (Hndf & Hdis & _).
  assert (Hfront : forall q, q ∈ front -> q ∉ [last] ++ ids2).
  { intros q Hq [Hin|Hin]%elem_of_app; [exact (Hdis q Hq Hin)|]. apply (Hnew2 q Hin), H01, Hh. set_solver. }
  pose proof (frame_trans _ _ _ _ _ _ _ F3 F4) as F14.
  assert (Hf1 : Forall (ps_held s1) front) by (apply list.Forall_forall; intros q Hq; apply H01, Hh, elem_of_app; auto).
  split.
  - apply (frame_weaken _ _ _ ((front ++ [last]) ++ [last] ++ ids2)); [exact (frame_trans _ _ _ _ _ _ _ F1 F14)|].
    intros q Hq. rewrite !elem_of_app in Hq. destruct Hq as [Hq|[Hq|Hq]]; [left; apply elem_of_app; exact Hq|left; apply elem_of_app; auto|].
    right. intros Hheld. exact (Hnew2 q Hq (H01 q Hheld)).
  - split.
    + rewrite <- app_assoc. apply (chain_group opts hash _ front vals last vl ids2); auto.
      * apply (stored_all_ext opts hash (ps_read s1)); [exact Hfr|]. intros q Hq.
        rewrite list.Forall_forall in Hf1. apply (fr_same _ _ _ _ F14 q (Hf1 q Hq) (Hfront q Hq)).
      * apply (stored_frame _ _ _ _ _ _ _ F4); auto. apply H13, H01, Hh, in_last.
      * rewrite zlen_app in Hk. change (zlen [last]) with 1 in Hk. lia.
      * intros _. rewrite zlen_app in Hk. exact Hk.
    + apply list.NoDup_app. split; [exact Hnd2|]. split; [|exact Hndm]. intros q Hq Hm. exact (Hnewm q Hm (H03 q Hq)).
    + apply list.Forall_forall. intros q [Hq|Hq]%elem_of_app Hheld; [exact (Hnew2 q Hq (H01 q Hheld))|].
      exact (Hnewm q Hq (H13 q (H01 q Hheld))).
    + apply Forall_app_2; [apply Forall_app_2|exact Hmm].
      * exact (list_frame_mapped _ _ _ _ _ F14 Hf1 Hfront Hmf).
      * apply Forall_singleton. apply (fr_same _ _ _ _ F4); auto. apply H13, H01, Hh, in_last.
Qed.

Lemma write_rest_spec fuel s op e pv value ids :
  value <> [] -> (length value <= S fuel)%nat -> ps_ok s -> NoDup ids -> Forall (ps_held s) ids ->
  zlen ids = group_size value -> Forall (fun id => 0 <= id < MaxPageId) ids ->
  ps_room s (2 * zlen value - zlen ids) ->
  exists s' more, write_rest fuel s op e pv value ids = Some (op, s') /\ frame s s' more ids /\
    chain_written s s' ids value more.
Proof using Hopts Hhash Hpool.
  revert s e pv value ids. induction fuel as [|fuel IH]; intros s e pv value ids Hne Hfu Hok Hnd Hh Hk Hrange Hroom.
  all: destruct (group_size_fits value Hne) as (Hg1 & Hg2 & Hfit); rewrite <- Hk in *.
  all: destruct (write_group_spec ids s 0 e pv value (2 * (zlen value - zlen ids)) Hok) as
    (s1 & F1 & front & last & vals & vl & -> & Hfr & Hmf & Hcase); auto; try lia;
    [replace (2 * (zlen value - zlen ids) + zlen ids) with (2 * zlen value - zlen ids) by lia; exact Hroom
    |intros ->; change (zlen (@nil Z)) with 0 in *; lia|].
  all: unfold write_rest; destruct Hcase as [(-> & -> & _ & Hl & Hml)|
    (rest & -> & Hrne & -> & Hr1 & Hlen & Hvl & HN)]; cbn [mbind option_bind].
  1, 3: exists s1, []; split; [try destruct fuel; reflexivity|]; split; [exact F1|apply (written_last s); auto].
  - exfalso. assert (1 <= zlen rest) by (destruct rest; [contradiction|rewrite zlen_cons; zlia]).
    unfold zlen in *. rewrite length_app in Hlen. cbn [length] in Hlen. lia.
  - destruct (group_size_fits rest Hrne) as (Hk1 & Hk2 & Hfit2).
    destruct (get_pages_spec (Z.to_nat (group_size rest)) s1 (2 * zlen rest - group_size rest + 1))
      as (ids2 & s2 & Hget & F2 & Hr2 & Hlen2 & Hnd2 & Hrange2 & Hnew2);
      [exact (fr_ok _ _ _ _ F1)|lia|apply (ps_room_mono _ _ _ Hr1); lia|].
    assert (Hz2 : zlen ids2 = group_size rest) by (unfold zlen; lia).
    assert (Hids2 : ids2 <> []) by (intros ->; change (zlen (@nil Z)) with 0 in Hz2; lia).
    assert (Hlheld : ps_held s2 last).
    { apply (fr_held _ _ _ _ F2). right. apply (fr_held _ _ _ _ F1). right. rewrite list.Forall_forall in Hh. apply Hh, in_last. }
    assert (Hlr : 0 <= last < MaxPageId) by (rewrite list.Forall_forall in Hrange; apply Hrange, in_last).
    destruct (WriteOverflowPage_spec s2 last vl ids2 (2 * zlen rest - group_size rest)) as (s3 & Hw & F3 & Hr3 & Hst & Hml);
      [exact (fr_ok _ _ _ _ F2)|lia|exact Hr2|exact Hlheld|lia|rewrite bool_decide_false by exact Hids2; exact Hvl|].
    pose proof (frame_trans _ _ _ _ _ _ _ F2 F3) as F23. rewrite app_nil_r in F23. cbn [app] in F23.
    destruct (IH s3 last vl rest ids2) as (s4 & more2 & Hrest & F4 & Hcw2); auto.
    { assert (Hlt : zlen rest < zlen (concat vals ++ vl ++ rest)) by lia. unfold zlen in Hlt. lia. }
    { exact (fr_ok _ _ _ _ F3). }
    { apply list.Forall_forall. intros q Hq. apply (fr_held _ _ _ _ F23). auto. }
    { rewrite Hz2. exact Hr3. }
    exists s4, (ids2 ++ more2). rewrite loop_step by exact Hrne. rewrite Hget. cbn [mbind option_bind].
    rewrite (proj2 (Z.eqb_neq last MaxPageId)) by lia. rewrite Hw. cbn [mbind option_bind].
    split; [exact Hrest|]. apply (written_link s s1 s3 s4); auto. apply bound_u32. exact Hrange2.
Qed.

Lemma WriteOverflowValue_spec s value :
  ps_ok s -> ps_room s (2 * zlen value) ->
  exists ids all s', WriteOverflowValue opts hash pool s value = Some (encode_pointers ids, s') /\
    frame s s' all [] /\ chain opts hash (ps_read s') ids value all /\ NoDup all /\
    Forall (fun q => ~ ps_held s q) all /\ Forall (ps_mapped s') all /\ Forall is_u32 ids.
Proof using Hopts Hhash Hpool.
  intros Hok Hroom. unfold WriteOverflowValue. destruct (list_eq_nil_dec value) as [->|Hne].
  { exists [], [], s. split; [reflexivity|]. split; [apply frame_refl; exact Hok|]. split; [constructor|].
    split_and!; constructor. }
  destruct (group_size_fits value Hne) as (Hk1 & Hk2 & _).
  destruct (get_pages_spec (Z.to_nat (group_size value)) s (2 * zlen value - group_size value))
    as (ids & s1 & Hget & F1 & Hr1 & Hlen & Hnd & Hrange & Hnew); [exact Hok|lia|apply (ps_room_mono _ _ _ Hroom); lia|].
  assert (Hz : zlen ids = group_size value) by (unfold zlen; lia).
  assert (Hl : exists fuel, length value = S fuel) by (destruct value; [contradiction|eexists; reflexivity]).
  destruct Hl as [fuel Hl]. rewrite Hl.
  rewrite loop_step by exact Hne. rewrite Hget. cbn [mbind option_bind]. rewrite Z.eqb_refl, fold_PutFixed32. cbn [app].
  destruct (write_rest_spec fuel s1 (encode_pointers ids) MaxPageId [] _ ids Hne) as (s2 & more & Hw & F2 & Hcw);
    [lia|exact (fr_ok _ _ _ _ F1)|exact Hnd|apply list.Forall_forall; intros q Hq; apply (fr_held _ _ _ _ F1); auto
    |exact Hz|exact Hrange|rewrite Hz; exact Hr1|].
  exists ids, (ids ++ more), s2. split; [exact Hw|]. destruct Hcw as [Hc Hndm Hnm Hm].
  rewrite list.Forall_forall in Hnew, Hnm. split.
  { apply (frame_weaken _ _ _ ([] ++ ids)); [exact (frame_trans _ _ _ _ _ _ _ F1 F2)|]. cbn [app]. auto. }
  split; [exact Hc|]. split.
  { apply list.NoDup_app. split; [exact Hnd|]. split; [|exact Hndm]. intros q Hq Hq'. apply (Hnm q Hq').
    apply (fr_held _ _ _ _ F1). auto. }
  split; [|split; [exact Hm|apply bound_u32; exact Hrange]].
  apply list.Forall_forall. intros q [Hq|Hq]%elem_of_app Hheld; [exact (Hnew q Hq Hheld)|].
  apply (Hnm q Hq). apply (fr_held _ _ _ _ F1). auto.
Qed.

(** From [s] to [s'] exactly the pages [gone] are given back. *)
Record freed (s s' : St) (gone : list Z) : Prop := {
  fd_ok : ps_ok s';
  fd_room : ps_room s' 0;
  fd_held : forall q, ps_held s' q <-> ps_held s q /\ q ∉ gone;
  fd_same : forall q, ps_held s q -> q ∉ gone -> ps_read s' q = ps_read s q /\ (ps_mapped s' q <-> ps_mapped s q)
}.

Lemma freed_nil s : ps_ok s -> ps_room s 0 -> freed s s [].
Proof using Type.
  intros Hok Hr. split; auto. intros q. split; [|intros [H _]; exact H]. intros Hq. split; [exact Hq|]. intros H. inversion H.
Qed.

Lemma freed_trans s1 s2 s3 g1 g2 : freed s1 s2 g1 -> freed s2 s3 g2 -> freed s1 s3 (g1 ++ g2).
Proof using Type.
  intros [_ _ H1 S1] [Hok Hr H2 S2]. split; [exact Hok|exact Hr| |].
  - intros q. rewrite H2, H1, elem_of_app. tauto.
  - intros q Hq Hn. rewrite elem_of_app in Hn. destruct (S1 q Hq) as [E1 M1]; [tauto|].
    destruct (S2 q) as [E2 M2]; [apply H1; tauto|tauto|]. rewrite E2, M2. auto.
Qed.

Definition deletable (s : St) (l : list Z) : Prop :=
  NoDup l /\ Forall (ps_held s) l /\ Forall (ps_mapped s) l.

Lemma deletable_after s s' gone l :
  freed s s' gone -> deletable s (gone ++ l) -> deletable s' l.
Proof using Type.
  intros [_ _ H1 S1] (Hnd & Hh & Hm). apply list.NoDup_app in Hnd as (_ & Hdis & Hnd).
  rewrite list.Forall_forall in Hh, Hm. assert (Hout : forall q, q ∈ l -> q ∉ gone) by (intros q Hq Hg; exact (Hdis q Hg Hq)).
  split; [exact Hnd|]. split; apply list.Forall_forall; intros q Hq.
  - apply H1. split; [apply Hh, elem_of_app; auto|exact (Hout q Hq)].
  - apply S1; [apply Hh, elem_of_app; auto|exact (Hout q Hq)|apply Hm, elem_of_app; auto].
Qed.

Lemma free_one s q l :
  ps_ok s -> ps_room s 0 -> deletable s (q :: l) -> exists s', ps_free s q = Some s' /\ freed s s' [q].
Proof using Type.
  intros Hok Hr (_ & Hh & Hm). apply Forall_cons_1 in Hh as [Hh _]. apply Forall_cons_1 in Hm as [Hm _].
  destruct (ps_free_law s 0 q Hok Hr Hh Hm) as (s' & Hf & Hok' & Hr' & Hh' & Hs').
  exists s'. split; [exact Hf|]. split; auto; setoid_rewrite list_elem_of_singleton; auto.
Qed.

(** The pages before the last one of a group. *)
Lemma delete_front todo s done last fuel :
  ps_ok s -> ps_room s 0 -> zlen done + zlen todo + 1 <= overflow_pointers opts -> deletable s todo ->
  exists s1, freed s s1 todo /\
    DelOverflowValue_loop opts hash skip (length todo + fuel) s (done ++ todo ++ [last]) (zlen done) =
    DelOverflowValue_loop opts hash skip fuel s1 (done ++ todo ++ [last]) (zlen (done ++ todo)).
Proof using Type.
  clear Hopts Hhash Hpool. revert s done. induction todo as [|q todo IH]; intros s done Hok Hr Hn Hd.
  - exists s. split; [apply freed_nil; assumption|]. rewrite app_nil_r. reflexivity.
  - destruct (free_one s q todo Hok Hr Hd) as (s1 & Hf & Fr1). rewrite zlen_cons in Hn. pose proof (zlen_nonneg todo).
    destruct (IH s1 (done ++ [q])) as (s2 & Fr2 & He);
      [exact (fd_ok _ _ _ Fr1)|exact (fd_room _ _ _ Fr1)|rewrite zlen_app; change (zlen [q]) with 1; lia
      |exact (deletable_after _ _ _ _ Fr1 Hd)|].
    exists s2. split; [exact (freed_trans _ _ _ _ _ Fr1 Fr2)|].
    cbn [length Nat.add DelOverflowValue_loop]. rewrite (proj2 (Z.ltb_lt _ _)) by (rewrite !zlen_app, zlen_cons; zlia).
    replace (Z.to_nat (zlen done)) with (length done) by (unfold zlen; lia).
    assert (Hq : (done ++ (q :: todo) ++ [last]) !! length done = Some q) by (apply list_lookup_middle; reflexivity).
    rewrite Hq. cbn [mbind option_bind]. rewrite (proj2 (Z.eqb_neq _ _)) by lia. rewrite Hf. cbn [mbind option_bind].
    replace (zlen done + 1) with (zlen (done ++ [q])) by (rewrite zlen_app; reflexivity).
    replace (done ++ (q :: todo) ++ [last]) with ((done ++ [q]) ++ todo ++ [last]) by (rewrite <- app_assoc; reflexivity).
    rewrite He. rewrite <- (app_assoc done [q] todo). reflexivity.
Qed.

(** Deleting a chain gives back its pages and no others. *)
Lemma delete_chain ids value all s fuel :
  chain opts hash (ps_read s) ids value all -> ps_ok s -> ps_room s 0 -> deletable s all -> (length all <= fuel)%nat ->
  exists s', DelOverflowValue_loop opts hash skip fuel s ids 0 = Some s' /\ freed s s' all.
Proof using Hopts.
  intros Hc. remember (ps_read s) as read eqn:Hread. assert (Heq : forall q, q ∈ all -> ps_read s q = read q) by (subst; auto).
  clear Hread. revert s fuel Heq.
  induction Hc as [|front vals last vl next value all Hf Hl Hu Hn Hfull Hc IH]; intros s fuel Heq Hok Hr Hd Hfu.
  { exists s. split; [destruct fuel; reflexivity|apply freed_nil; assumption]. }
  rewrite !length_app in Hfu. cbn [length] in Hfu. assert (Hd1 : deletable s front).
  { destruct Hd as (H1 & H2 & H3). apply list.NoDup_app in H1 as (H1 & _). apply Forall_app in H2 as [H2 _].
    apply Forall_app in H3 as [H3 _]. split; auto. }
  destruct (delete_front front s [] last (fuel - length front) Hok Hr) as (s1 & Fr1 & He);
    [change (zlen (@nil Z)) with 0; lia|exact Hd1|].
  replace (length front + (fuel - length front))%nat with fuel in He by lia. cbn [app] in He.
  change (zlen (@nil Z)) with 0 in He. rewrite He. clear He.
  pose proof (deletable_after _ _ _ _ Fr1 Hd) as Hd2. cbn [app] in Hd2.
  destruct (free_one s1 last all (fd_ok _ _ _ Fr1) (fd_room _ _ _ Fr1) Hd2) as (s2 & Hfree & Fr2).
  pose proof (freed_trans _ _ _ _ _ Fr1 Fr2) as Fr12.
  assert (Hs1 : forall q, q ∈ last :: all -> ps_read s1 q = read q).
  { intros q Hq. destruct Hd as (Hnd & Hh & _). apply list.NoDup_app in Hnd as (_ & Hdis & _).
    rewrite list.Forall_forall in Hh. assert (Hin : q ∈ front ++ [last] ++ all) by (apply elem_of_app; auto).
    rewrite <- (Heq q Hin). apply (fd_same _ _ _ Fr1); [exact (Hh q Hin)|]. intros Hq'. exact (Hdis q Hq' Hq). }
  destruct (fuel - length front)%nat as [|fuel'] eqn:Hfl; [lia|]. cbn [DelOverflowValue_loop].
  rewrite (proj2 (Z.ltb_lt _ _)) by (rewrite zlen_app; change (zlen [last]) with 1; lia).
  replace (Z.to_nat (zlen front)) with (length front) by (unfold zlen; lia). rewrite list_lookup_middle by reflexivity.
  cbn [mbind option_bind]. destruct (Z.eqb_spec (zlen front) (overflow_pointers opts - 1)) as [Hlast|Hlast].
  - apply (stored_ext opts hash read (ps_read s1)) in Hl; [|apply Hs1; left].
    destruct (stored_load opts hash skip _ _ _ _ Hl) as (page & Hload & Hfmt). rewrite Hload. cbn [mbind option_bind].
    rewrite (format_pointers _ _ _ _ Hfmt). cbn [mbind option_bind].
    rewrite decode_encode; [|exact Hu|pose proof (chain_bound opts hash Hopts _ _ _ _ Hc); pose proof (oo_ptrs _ Hopts); lia].
    cbn [mbind option_bind]. rewrite Hfree. cbn [mbind option_bind].
    destruct (IH s2 fuel') as (s3 & Hdel & Fr3); [|exact (fd_ok _ _ _ Fr2)|exact (fd_room _ _ _ Fr2)
      |exact (deletable_after _ _ _ _ Fr2 Hd2)|lia|].
    { intros q Hq. rewrite <- (Hs1 q ltac:(right; exact Hq)). destruct Hd2 as (Hnd & Hh & _).
      inversion_clear Hnd as [|? ? Hnl Hnd']. apply Forall_cons_1 in Hh as [_ Hh]. rewrite list.Forall_forall in Hh.
      apply (fd_same _ _ _ Fr2); [exact (Hh q Hq)|]. rewrite list_elem_of_singleton. intros ->. contradiction. }
    exists s3. split; [exact Hdel|]. pose proof (freed_trans _ _ _ _ _ Fr12 Fr3) as Fr. rewrite <- app_assoc in Fr. exact Fr.
  - rewrite Hfree. cbn [mbind option_bind]. assert (Hnext : next = []).
    { destruct next as [|x next]; [reflexivity|]. exfalso. apply Hlast. rewrite <- (Hfull ltac:(discriminate)). lia. }
    subst next. inversion Hc; subst; [|match goal with H : _ ++ [_] = [] |- _ => destruct (app_cons_not_nil _ _ _ (eq_sym H)) end].
    exists s2. split; [|rewrite app_nil_r; exact Fr12].
    destruct fuel'; cbn [DelOverflowValue_loop]; rewrite (proj2 (Z.ltb_ge _ _)); auto; rewrite zlen_app; change (zlen [last]) with 1; lia.
Qed.
End layer.
