(* ===== verification/CowPages.v ===== *)
(** * Overflow values in a copy-on-write store

    The page layer of a write task (CowStore) keeps the promises that the value
    writers rely on (PageIo), so what is shown for overflow values over any page
    layer (Overflow) holds for a partition. *)

From stdpp Require Import gmap.
From S2P Require Import Prelude Coding PageFormat IndexPageIter MappingTable PageMapper CowStore PageIo Overflow.

(** The page that the write task reads under an id. *)
Definition TaskRead (s : Store) (page_id : Z) : option bytes :=
  c ← st_cow s;
  ReadPage s (mr_snap (cow_mapper c)) page_id.

(** ** What the operations do to the ids in use *)
Lemma holds_iff s c sn l q :
  st_cow s = Some c -> st_snaps s !! mr_snap (cow_mapper c) = Some sn ->
  mapper_inv (to_mapper (cow_mapper c) sn) l ->
  cow_holds s q <-> in_use (to_mapper (cow_mapper c) sn) l q.
Proof.
  intros Hc Hsn Hl. split; [|intros Hq; exists c, sn, l; auto].
  intros (c0 & sn0 & l0 & Hc0 & Hsn0 & Hl0 & Hq). assert (c0 = c) as -> by congruence.
  assert (sn0 = sn) as -> by congruence. rewrite <- (free_list_unique _ l0 l Hl0 Hl). exact Hq.
Qed.

Lemma put_mapper_view s c sn m a :
  st_cow (put_mapper s c sn m a) = Some (mkCow (of_mapper (mr_snap (cow_mapper c)) m) (old_mapping_ c)) /\
  st_snaps (put_mapper s c sn m a) !! mr_snap (cow_mapper c) =
    Some (mkSnap (mapping_tbl_ m) (to_free_file_pages_ sn) (sn_next sn)).
Proof. split; [reflexivity|apply lookup_insert_eq]. Qed.

Lemma put_holds s c sn m a l q : mapper_inv m l -> cow_holds (put_mapper s c sn m a) q <-> in_use m l q.
Proof.
  intros Hl. destruct (put_mapper_view s c sn m a) as [H1 H2].
  assert (He : to_mapper (of_mapper (mr_snap (cow_mapper c)) m)
    (mkSnap (mapping_tbl_ m) (to_free_file_pages_ sn) (sn_next sn)) = m) by (destruct m; reflexivity).
  rewrite (holds_iff _ _ _ l q H1 H2); cbn [cow_mapper]; rewrite He; [reflexivity|exact Hl].
Qed.

Lemma disk_holds s d q : cow_holds (with_disk s d) q <-> cow_holds s q.
Proof. reflexivity. Qed.

Lemma CowGetPage_inv s id s' :
  CowGetPage s = Some (id, s') -> exists c sn m a, st_cow s = Some c /\
    st_snaps s !! mr_snap (cow_mapper c) = Some sn /\
    GetPage (st_arena s) (to_mapper (cow_mapper c) sn) = Some (id, m, a) /\ s' = put_mapper s c sn m a.
Proof.
  unfold CowGetPage. destruct (st_cow s) as [c|]; [|discriminate]. cbn [mbind option_bind].
  destruct (st_snaps s !! _) as [sn|] eqn:Hsn; [|discriminate]. cbn [mbind option_bind].
  destruct (GetPage _ _) as [[[id' m] a]|] eqn:Hg; [|discriminate]. cbn. intros H. injection H as <- <-.
  exists c, sn, m, a. auto.
Qed.

(** Recording a file page to be freed changes no mapping. *)
Lemma AddFreeFilePage_view s i fp s1 :
  AddFreeFilePage s i fp = Some s1 ->
  st_cow s1 = st_cow s /\ st_arena s1 = st_arena s /\
  forall j sn1, st_snaps s1 !! j = Some sn1 -> exists sn, st_snaps s !! j = Some sn /\ sn_tbl sn1 = sn_tbl sn.
Proof.
  unfold AddFreeFilePage. destruct (fp =? MaxFilePageId); [discriminate|].
  destruct (st_snaps s !! i) as [sni|] eqn:Hi; [|discriminate]. cbn. intros H. injection H as <-.
  split; [reflexivity|]. split; [reflexivity|]. intros j sn1. cbn.
  destruct (decide (i = j)) as [<-|Hne].
  - rewrite lookup_insert_eq. intros H. injection H as <-. eauto.
  - rewrite lookup_insert_ne by exact Hne. eauto.
Qed.

Lemma AllocatePage_view append s page_id id fp s' :
  page_id <> MaxPageId -> AllocatePage append s page_id = Some (id, fp, s') ->
  exists c sn s1 sn1 al m a, st_cow s = Some c /\ st_snaps s !! mr_snap (cow_mapper c) = Some sn /\
    sn_tbl sn1 = sn_tbl sn /\ Allocate (mr_alloc (cow_mapper c)) = (fp, al) /\ id = page_id /\
    UpdateMapping (st_arena s) (mkMapper (sn_tbl sn) (mr_head (cow_mapper c)) (mr_cnt (cow_mapper c)) al) page_id fp
      = Some (m, a) /\ s' = put_mapper s1 c sn1 m a.
Proof.
  intros Hne. unfold AllocatePage. destruct (st_cow s) as [c|]; [|discriminate]. cbn [mbind option_bind].
  destruct (st_snaps s !! _) as [sn|] eqn:Hsn; [|discriminate]. cbn [mbind option_bind].
  rewrite (proj2 (Z.eqb_neq page_id MaxPageId) Hne). cbn [orb].
  match goal with |- context [?e ≫= _] => destruct e as [s1|] eqn:He end; [|discriminate]. cbn [mbind option_bind].
  assert (Hview : st_arena s1 = st_arena s /\
    forall j sn1, st_snaps s1 !! j = Some sn1 -> exists sn, st_snaps s !! j = Some sn /\ sn_tbl sn1 = sn_tbl sn).
  { destruct append; [injection He as <-; eauto|]. destruct (ToFilePage _ _ _) as [ofp|]; [|discriminate].
    cbn [mbind option_bind] in He. destruct (ofp =? MaxFilePageId); [injection He as <-; eauto|].
    destruct (AddFreeFilePage_view _ _ _ _ He) as (_ & H2 & H3). auto. }
  destruct Hview as [Har Htbl]. destruct (st_snaps s1 !! _) as [sn1|] eqn:Hsn1; [|discriminate]. cbn [mbind option_bind].
  destruct (Htbl _ _ Hsn1) as (sn' & Hsn' & Ht). assert (sn' = sn) as -> by congruence.
  cbn [to_mapper mapping_tbl_ free_page_head_ free_page_cnt_ file_page_allocator_].
  destruct (Allocate _) as [fp' al] eqn:Hal. rewrite Har, Ht.
  destruct (UpdateMapping _ _ _ _) as [[m a]|] eqn:Hu; [|discriminate]. cbn. intros H. injection H as <- <- <-.
  exists c, sn, s1, sn1, al, m, a. auto 10.
Qed.

Lemma CowFreePage_view append s p s' :
  CowFreePage append s p = Some s' ->
  exists c sn s1 sn1 m a, st_cow s = Some c /\ st_snaps s !! mr_snap (cow_mapper c) = Some sn /\
    sn_tbl sn1 = sn_tbl sn /\ FreePage (st_arena s) (to_mapper (cow_mapper c) sn) p = Some (m, a) /\
    s' = put_mapper s1 c sn1 m a.
Proof.
  unfold CowFreePage. destruct (st_cow s) as [c|]; [|discriminate]. cbn [mbind option_bind].
  destruct (st_snaps s !! _) as [sn|] eqn:Hsn; [|discriminate]. cbn [mbind option_bind].
  match goal with |- context [?e ≫= _] => destruct e as [s1|] eqn:He end; [|discriminate]. cbn [mbind option_bind].
  assert (Hview : st_arena s1 = st_arena s /\
    forall j sn1, st_snaps s1 !! j = Some sn1 -> exists sn, st_snaps s !! j = Some sn /\ sn_tbl sn1 = sn_tbl sn).
  { destruct append; [injection He as <-; eauto|]. destruct (ToFilePage _ _ _) as [ofp|]; [|discriminate].
    destruct (AddFreeFilePage_view _ _ _ _ He) as (_ & H2 & H3). auto. }
  destruct Hview as [Har Htbl]. destruct (st_snaps s1 !! _) as [sn1|] eqn:Hsn1; [|discriminate]. cbn [mbind option_bind].
  destruct (Htbl _ _ Hsn1) as (sn' & Hsn' & Ht). assert (sn' = sn) as -> by congruence.
  replace (to_mapper (cow_mapper c) sn1) with (to_mapper (cow_mapper c) sn) by (unfold to_mapper; rewrite Ht; reflexivity).
  rewrite Har. destruct (FreePage _ _ _) as [[m a]|] eqn:Hf; [|discriminate]. cbn. intros H. injection H as <-.
  exists c, sn, s1, sn1, m, a. auto 10.
Qed.

(** ** The page layer *)
Lemma in_use_nonneg m l q : in_use m l q -> 0 <= q.
Proof. intros [[H _] _]. exact H. Qed.

Lemma holds_nonneg s q : cow_holds s q -> 0 <= q.
Proof. intros (c & sn & l & _ & _ & _ & Hq). exact (in_use_nonneg _ _ _ Hq). Qed.

(** A change of one entry of the task's table shows nowhere else. *)
Lemma task_changed append s s' c c' sn sn' p w q :
  store_inv append s -> st_cow s = Some c -> st_snaps s !! mr_snap (cow_mapper c) = Some sn ->
  st_cow s' = Some c' -> mr_snap (cow_mapper c') = mr_snap (cow_mapper c) ->
  st_snaps s' !! mr_snap (cow_mapper c) = Some sn' -> tbl_changed (sn_tbl sn) (sn_tbl sn') p w ->
  0 <= q -> q <> p ->
  (st_disk s' = st_disk s -> TaskRead s' q = TaskRead s q) /\ (cow_maps s' q <-> cow_maps s q).
Proof.
  intros Hinv Hc Hsn Hc' Hi Hsn' Hch Hq Hne. split.
  - intros Hd. unfold TaskRead. rewrite Hc, Hc'. cbn [mbind option_bind]. rewrite Hi.
    rewrite (ReadPage_some _ _ _ _ Hsn), (ReadPage_some _ _ _ _ Hsn'), Hd.
    rewrite (changed_ToFilePage _ _ _ _ q (si_snap _ _ Hinv _ _ Hsn) Hch Hq Hne). reflexivity.
  - split.
    + intros (c1 & sn1 & fp & Hc1 & Hsn1 & Hm). assert (c1 = c') as -> by congruence. rewrite Hi in Hsn1.
      assert (sn1 = sn') as -> by congruence. exists c, sn, fp. split_and!; auto.
      destruct (changed_maps _ _ _ _ _ _ Hch Hm) as [[-> _]|[_ H]]; [contradiction|exact H].
    + intros (c1 & sn1 & fp & Hc1 & Hsn1 & (Hr & Hfp & Hg)). assert (c1 = c) as -> by congruence.
      assert (sn1 = sn) as -> by congruence. exists c', sn', fp. rewrite Hi. split_and!; auto.
      destruct Hch as [_ _ _ Hs _ _ Ho]. split_and!; auto; try lia. rewrite Ho by auto. exact Hg.
Qed.

(** Taking a page id from the free list, or a new one, adds exactly that id. *)
Lemma get_in_use m m' l id q :
  mapper_inv m l -> logical_size_ (mapping_tbl_ m') = Z.max (logical_size_ (mapping_tbl_ m)) (id + 1) ->
  id = match l with [] => logical_size_ (mapping_tbl_ m) | p :: _ => p end ->
  in_use m' (tail l) q <-> q = id \/ in_use m l q.
Proof.
  intros Hl Hs Hid. pose proof (mi_nodup _ _ Hl) as Hnd. pose proof (ti_size _ (mi_tbl _ _ Hl)) as H0.
  unfold in_use. rewrite Hs. destruct l as [|p l]; cbn [tail]; subst id.
  - split.
    + intros [Hq Hn]. destruct (Z.eq_dec q (logical_size_ (mapping_tbl_ m))); [auto|]. right. split; [lia|exact Hn].
    + intros [->|[Hq Hn]]; (split; [lia|intros Hin; inversion Hin]).
  - inversion_clear Hnd as [|? ? Hpl Hnd']. pose proof (free_chain_range _ _ p (mi_chain _ _ Hl) ltac:(left)) as Hp.
    rewrite elem_of_cons. split.
    + intros [Hq Hn]. destruct (Z.eq_dec q p); [auto|]. right. split; [lia|tauto].
    + intros [->|[Hq Hn]]; (split; [lia|tauto]).
Qed.

Definition cow_room (s : Store) (n : Z) : Prop :=
  exists c sn, st_cow s = Some c /\ st_snaps s !! mr_snap (cow_mapper c) = Some sn /\
    logical_size_ (sn_tbl sn) + n <= max_pages /\ max_fp_id_ (mr_alloc (cow_mapper c)) + n <= 2 ^ 32 - 1.

Section pages.
  Context (shift : Z) (append : bool).

#[local] Instance CowPageStore : PageStore Store := {
  ps_get := CowGetPage;
  ps_write s id content := '(_, s') ← WritePage append s id content; Some s';
  ps_free s id := CowFreePage append s id;
  ps_read := TaskRead
}.

(** States of a partition in which a write task runs. *)
Definition task_runs (s : Store) : Prop := store_reach shift append s /\ is_Some (st_cow s).

Lemma cow_get_law s n :
  task_runs s -> 0 <= n -> cow_room s (n + 1) ->
  exists id s', CowGetPage s = Some (id, s') /\ task_runs s' /\ cow_room s' n /\ ~ cow_holds s id /\
    0 <= id < 2 ^ 32 - 1 /\ (forall q, cow_holds s' q <-> q = id \/ cow_holds s q) /\
    (forall q, cow_holds s q -> TaskRead s' q = TaskRead s q) /\
    (forall q, cow_holds s q -> cow_maps s' q <-> cow_maps s q).
Proof.
  intros [Hr _] Hn (c & sn & Hc & Hsn & Hsz & Hfp). pose proof (store_reach_inv _ _ _ Hr) as Hinv.
  destruct (CowGetPage_spec append s c sn Hinv Hc Hsn ltac:(lia))
    as (id & s' & c' & tbl' & Hg & Hu & Hd & Hal & Hch & Hnm & Hnh & Hh & _).
  destruct (CowGetPage_inv s id s' Hg) as (c0 & sn0 & m & a & Hc0 & Hsn0 & Hget & ->).
  assert (c0 = c) as -> by congruence. assert (sn0 = sn) as -> by congruence. clear Hc0 Hsn0.
  destruct (si_cow _ _ Hinv c Hc) as [(sn1 & l & Hsn1 & Hl & _) _]. assert (sn1 = sn) as -> by congruence. clear Hsn1.
  destruct (GetPage_spec (st_arena s) _ l Hl (si_arena _ _ Hinv)) as (id1 & m1 & a1 & Hget1 & _ & Hm1 & Hid & Hs1 & _ & _ & Hal1);
    [cbn; lia|]. rewrite Hget in Hget1. injection Hget1 as <- <- <-.
  destruct (put_mapper_view s c sn m a) as [Hpc Hps]. cbn [to_mapper mapping_tbl_ file_page_allocator_] in *.
  destruct (cu_own _ _ _ _ _ _ _ _ Hu) as (sn' & Hsn' & Ht'). rewrite Hps in Hsn'. injection Hsn' as <-.
  cbn [sn_tbl] in Ht'. subst tbl'. pose proof (tc_range _ _ _ _ Hch) as Hrange.
  assert (Hother : forall q, cow_holds s q -> 0 <= q /\ q <> id).
  { intros q Hq. split; [exact (holds_nonneg _ _ Hq)|]. intros ->. contradiction. }
  exists id, (put_mapper s c sn m a). split; [exact Hg|]. split.
  { split; [|eauto]. eapply reach_step; [exact Hr|]. exact (step_get shift append s c sn id _ Hc Hsn ltac:(lia) Hg). }
  split; [exists (mkCow (of_mapper (mr_snap (cow_mapper c)) m) (old_mapping_ c));
          eexists; split; [exact Hpc|]; split; [exact Hps|]; cbn; rewrite Hal1; lia|].
  split; [exact Hnh|]. split; [unfold max_pages in *; lia|]. split.
  { intros q. rewrite (put_holds _ _ _ _ _ _ _ Hm1), (holds_iff s c sn l q Hc Hsn Hl).
    apply (get_in_use _ _ _ id q Hl Hs1). exact Hid. }
  split; intros q Hq; destruct (Hother q Hq) as [Hq0 Hqi];
    apply (task_changed append s _ c _ sn _ id InvalidValue q Hinv Hc Hsn Hpc eq_refl Hps Hch Hq0 Hqi). exact Hd.
Qed.

Lemma Allocate_max al fp al' : Allocate al = (fp, al') -> 0 <= max_fp_id_ al < 2 ^ 32 ->
  max_fp_id_ al' <= max_fp_id_ al + 1.
Proof.
  unfold Allocate. destruct (alloc_kind al) as [st|[|p ids]]; intros H Hm; injection H as <- <-; cbn; try lia;
    rewrite u64_id by (unfold is_u64; lia); lia.
Qed.

Lemma held_not_max s id : cow_holds s id -> id <> MaxPageId.
Proof.
  intros (c & sn & l & _ & _ & Hl & [Hr _]). pose proof (mi_size _ _ Hl). unfold max_pages, MaxPageId in *. lia.
Qed.

(** The state after a page of the task was given a new file page. *)
Lemma allocated_view s c sn id fp s1 l :
  st_cow s = Some c -> st_snaps s !! mr_snap (cow_mapper c) = Some sn -> store_inv append s ->
  mapper_inv (to_mapper (cow_mapper c) sn) l -> cow_holds s id -> 0 <= max_fp_id_ (mr_alloc (cow_mapper c)) < 2 ^ 32 ->
  AllocatePage append s id = Some (id, fp, s1) ->
  (forall q, cow_holds s1 q <-> cow_holds s q) /\
  (forall n, cow_room s (n + 1) -> cow_room s1 n).
Proof.
  intros Hc Hsn Hinv Hl Hh Hmax Ha. destruct (AllocatePage_view append s id id fp s1 (held_not_max _ _ Hh) Ha)
    as (c0 & sn0 & s0 & sn1 & al & m & a & Hc0 & Hsn0 & Ht & Hal & _ & Hum & ->).
  assert (c0 = c) as -> by congruence. assert (sn0 = sn) as -> by congruence. clear Hc0 Hsn0.
  assert (Hu : in_use (to_mapper (cow_mapper c) sn) l id) by (apply (holds_iff s c sn l id Hc Hsn Hl); exact Hh).
  destruct (UpdateMapping_spec (st_arena s) _ l id fp (mapper_inv_alloc _ _ al Hl) (si_arena _ _ Hinv) Hu)
    as (m1 & a1 & Hum1 & _ & Hm1 & Hs1 & _ & _ & Hal1).
  cbn [to_mapper mapping_tbl_ free_page_head_ free_page_cnt_] in Hum1, Hs1, Hal1. rewrite Hum in Hum1. injection Hum1 as <- <-.
  destruct (put_mapper_view s0 c sn1 m a) as [Hpc Hps]. split.
  - intros q. rewrite (put_holds _ _ _ _ _ _ _ Hm1), (holds_iff s c sn l q Hc Hsn Hl). unfold in_use.
    cbn [to_mapper mapping_tbl_]. rewrite Hs1. reflexivity.
  - intros n (c2 & sn2 & Hc2 & Hsn2 & Hsz & Hfp). assert (c2 = c) as -> by congruence. assert (sn2 = sn) as -> by congruence.
    exists (mkCow (of_mapper (mr_snap (cow_mapper c)) m) (old_mapping_ c)). eexists.
    split; [exact Hpc|]. split; [exact Hps|]. cbn. rewrite Hal1, Hs1. cbn [file_page_allocator_].
    pose proof (Allocate_max _ _ _ Hal Hmax). lia.
Qed.

Lemma cow_write_law s n id content :
  task_runs s -> 0 <= n -> cow_room s (n + 1) -> cow_holds s id ->
  exists s', ('(_, s') ← WritePage append s id content; Some s') = Some s' /\ task_runs s' /\ cow_room s' n /\
    (forall q, cow_holds s' q <-> cow_holds s q) /\ TaskRead s' id = Some content /\ cow_maps s' id /\
    (forall q, cow_holds s q -> q <> id -> TaskRead s' q = TaskRead s q /\ (cow_maps s' q <-> cow_maps s q)).
Proof.
  intros [Hr _] Hn Hroom Hh. pose proof Hroom as (c & sn & Hc & Hsn & Hsz & Hfp).
  pose proof (store_reach_inv _ _ _ Hr) as Hinv. pose proof (held_not_max _ _ Hh) as Hnm.
  destruct (si_cow _ _ Hinv c Hc) as [(sn1 & l & Hsn1 & Hl & _) _]. assert (sn1 = sn) as -> by congruence. clear Hsn1.
  assert (Hroom' : max_fp_id_ (mr_alloc (cow_mapper c)) < 2 ^ 32 - 1) by lia.
  assert (Hw : writable s c id) by (right; auto).
  destruct (AllocatePage_spec append s c id Hinv Hc Hroom' Hw)
    as (id' & fp & s1 & c' & tbl & tbl' & fr & Ha & Hu & _ & _ & Hm & Hch & Hsame & _).
  rewrite (Hsame Hnm) in *. clear Hsame.
  pose proof (aw_max _ (proj1 (si_cow_alloc _ _ Hinv c Hc))) as Hmax.
  destruct (allocated_view s c sn id fp s1 l Hc Hsn Hinv Hl Hh ltac:(lia) Ha) as [Hholds Hroom1].
  destruct (WritePage_spec append s c id content Hinv Hc Hroom' Hw)
    as (id2 & s2 & c2 & Hwr & Hinv2 & Hc2 & Hi2 & _ & Hsame2 & _ & Hread & Hother & _).
  rewrite (Hsame2 Hnm) in *. clear Hsame2. pose proof Hwr as Hwr'. unfold WritePage in Hwr'. rewrite Ha in Hwr'.
  injection Hwr' as <-. rewrite Hwr. cbn [mbind option_bind]. eexists. split; [reflexivity|].
  set (s2 := with_disk s1 (<[fp:=content]> (st_disk s1))) in *.
  destruct (cow_entry append s s1 c c' tbl tbl' fr Hu) as (sn0 & Hsn0 & Ht). assert (sn0 = sn) as -> by congruence. subst tbl.
  destruct (cu_own _ _ _ _ _ _ _ _ Hu) as (sn' & Hsn' & <-).
  assert (Htr : forall q, TaskRead s2 q = ReadPage s2 (mr_snap (cow_mapper c)) q)
    by (intros q; unfold TaskRead; rewrite Hc2; cbn [mbind option_bind]; rewrite Hi2; reflexivity).
  assert (Htr0 : forall q, TaskRead s q = ReadPage s (mr_snap (cow_mapper c)) q)
    by (intros q; unfold TaskRead; rewrite Hc; reflexivity).
  split; [split; [eapply reach_step; [exact Hr|exact (step_write shift append s c id content id _ Hc Hroom' Hw Hwr)]|eauto]|].
  split; [exact (Hroom1 n Hroom)|]. split; [exact Hholds|]. split; [rewrite Htr; exact Hread|].
  split; [exists c2, sn', fp; rewrite Hi2; auto|].
  intros q Hq Hne. rewrite Htr, Htr0. split; [apply Hother; [exact (holds_nonneg _ _ Hq)|exact Hne]|].
  apply (task_changed append s s2 c c2 sn sn' id (EncodeFilePageId fp) q Hinv Hc Hsn Hc2 Hi2 Hsn' Hch (holds_nonneg _ _ Hq) Hne).
Qed.

Lemma cow_free_law s n id :
  task_runs s -> cow_room s n -> cow_holds s id -> cow_maps s id ->
  exists s', CowFreePage append s id = Some s' /\ task_runs s' /\ cow_room s' n /\
    (forall q, cow_holds s' q <-> cow_holds s q /\ q <> id) /\
    (forall q, cow_holds s q -> q <> id -> TaskRead s' q = TaskRead s q /\ (cow_maps s' q <-> cow_maps s q)).
Proof.
  intros [Hr _] (c & sn & Hc & Hsn & Hsz & Hfp) Hh Hmap. pose proof (store_reach_inv _ _ _ Hr) as Hinv.
  destruct (CowFreePage_spec append s id Hinv Hmap) as (s' & c0 & c' & tbl & tbl' & fr & Hf & Hu & Hd & _).
  pose proof (CowFreePage_view append s id s' Hf) as (c1 & sn0 & s1 & sn1 & m & a & Hc1 & Hsn0 & Ht & Hfree & ->).
  assert (c1 = c) as -> by congruence. assert (sn0 = sn) as -> by congruence. clear Hc1 Hsn0.
  destruct (si_cow _ _ Hinv c Hc) as [(sn2 & l & Hsn2 & Hl & _) _]. assert (sn2 = sn) as -> by congruence. clear Hsn2.
  assert (Huse : in_use (to_mapper (cow_mapper c) sn) l id) by (apply (holds_iff s c sn l id Hc Hsn Hl); exact Hh).
  destruct (FreePage_spec (st_arena s) _ l id Hl (si_arena _ _ Hinv) Huse) as (m1 & a1 & Hfree1 & _ & Hm1 & Hs1 & Ho & Hal1).
  rewrite Hfree in Hfree1. injection Hfree1 as <- <-. destruct (put_mapper_view s1 c sn1 m a) as [Hpc Hps].
  cbn [to_mapper mapping_tbl_ file_page_allocator_] in *. pose proof (mi_chain _ _ Hm1) as (_ & Hlink & _).
  assert (Hch : tbl_changed (sn_tbl sn) (mapping_tbl_ m) id (free_link (list_head l))).
  { destruct Huse as [Hp _]. cbn in Hp. split; auto; try lia;
      [exact (mi_tbl _ _ Hm1)|exact (mi_idle _ _ Hm1)|exact (mi_size _ _ Hm1)]. }
  exists (put_mapper s1 c sn1 m a). split; [exact Hf|]. split.
  { split; [|eauto]. eapply reach_step; [exact Hr|]. exact (step_free shift append s id _ Hmap Hf). }
  split; [exists (mkCow (of_mapper (mr_snap (cow_mapper c)) m) (old_mapping_ c));
          eexists; split; [exact Hpc|]; split; [exact Hps|]; cbn; rewrite Hal1, Hs1; lia|].
  split.
  { intros q. rewrite (put_holds _ _ _ _ _ _ _ Hm1), (holds_iff s c sn l q Hc Hsn Hl). unfold in_use.
    cbn [to_mapper mapping_tbl_]. rewrite Hs1, elem_of_cons. tauto. }
  intros q Hq Hne. pose proof (holds_nonneg _ _ Hq) as Hq0.
  destruct (task_changed append s _ c _ sn _ id (free_link (list_head l)) q Hinv Hc Hsn Hpc eq_refl Hps Hch Hq0 Hne) as [H1 H2].
  split; [exact (H1 Hd)|exact H2].
Qed.

Lemma cow_room_mono s n m : cow_room s n -> 0 <= m <= n -> cow_room s m.
Proof. intros (c & sn & Hc & Hsn & H1 & H2) Hm. exists c, sn. split_and!; auto; lia. Qed.

#[local] Instance CowPageStoreLaws : PageStoreLaws Store := {
  ps_ok := task_runs;
  ps_held := cow_holds;
  ps_mapped := cow_maps;
  ps_room := cow_room;
  ps_room_mono := cow_room_mono;
  ps_get_law := cow_get_law;
  ps_write_law := cow_write_law;
  ps_free_law := cow_free_law
}.
End pages.

Lemma task_room shift append s : task_runs shift append s -> cow_room s 0.
Proof.
  intros [Hr [c Hc]]. pose proof (store_reach_inv _ _ _ Hr) as Hinv.
  destruct (si_cow _ _ Hinv c Hc) as [(sn & l & Hsn & Hl & _) _]. exists c, sn.
  pose proof (mi_size _ _ Hl) as Hs. cbn in Hs. pose proof (aw_max _ (proj1 (si_cow_alloc _ _ Hinv c Hc))).
  split_and!; auto; lia.
Qed.

(** ** Properties *)

(** C26: An overflow value that a write task stores is read back unchanged, from
    pages that were not in use before, and no page in use is disturbed. *)
Theorem overflow_value_roundtrip shift append opts hash skip pool s value :
  overflow_options opts -> (forall b, is_u64 (hash b)) -> (forall id, zlen (pool id) = data_page_size opts) ->
  store_reach shift append s -> is_Some (st_cow s) -> cow_room s (2 * zlen value) ->
  exists ptrs pages s', @WriteOverflowValue Store (CowPageStore append) opts hash pool s value = Some (ptrs, s') /\
    store_reach shift append s' /\
    (forall fuel, (length pages <= fuel)%nat -> GetOverflowValue opts hash skip (TaskRead s') fuel ptrs = Some value) /\
    NoDup pages /\ Forall (fun q => ~ cow_holds s q) pages /\ Forall (cow_maps s') pages /\
    (forall q, cow_holds s' q <-> q ∈ pages \/ cow_holds s q) /\
    (forall q, cow_holds s q -> TaskRead s' q = TaskRead s q).
Proof.
  intros Ho Hh Hp Hr Hc Hroom.
  destruct (@WriteOverflowValue_spec Store (CowPageStore append) (CowPageStoreLaws shift append)
    opts hash pool Ho Hh Hp s value (conj Hr Hc) Hroom) as (ids & all & s' & Hw & Hf & Hch & Hnd & Hnew & Hm & Hu).
  exists (encode_pointers ids), all, s'. split; [exact Hw|]. split; [exact (proj1 (fr_ok _ _ _ _ Hf))|]. split.
  { intros fuel Hfu. unfold GetOverflowValue. pose proof (chain_bound opts hash Ho _ _ _ _ Hch).
    rewrite decode_encode; [|exact Hu|pose proof (oo_ptrs _ Ho); lia]. cbn [mbind option_bind].
    exact (read_chain opts hash skip Ho _ _ _ _ fuel [] Hch Hfu). }
  split_and!; auto; [exact (fr_held _ _ _ _ Hf)|]. intros q Hq. apply (fr_same _ _ _ _ Hf q Hq). intros Hin. inversion Hin.
Qed.

(** C27: Deleting a stored overflow value succeeds in any later state of a write
    task in which its pages are as they were written, gives back exactly those
    pages and disturbs no other page. *)
Theorem overflow_value_deleted shift append opts hash skip pool s value ptrs s' :
  overflow_options opts -> (forall b, is_u64 (hash b)) -> (forall id, zlen (pool id) = data_page_size opts) ->
  store_reach shift append s -> is_Some (st_cow s) -> cow_room s (2 * zlen value) ->
  @WriteOverflowValue Store (CowPageStore append) opts hash pool s value = Some (ptrs, s') ->
  exists pages, (forall q, cow_holds s' q <-> q ∈ pages \/ cow_holds s q) /\
    forall s1 fuel, store_reach shift append s1 -> is_Some (st_cow s1) -> (length pages <= fuel)%nat ->
      (forall q, q ∈ pages -> cow_holds s1 q /\ cow_maps s1 q /\ TaskRead s1 q = TaskRead s' q) ->
      exists s2, @DelOverflowValue Store (CowPageStore append) opts hash skip fuel s1 ptrs = Some s2 /\
        store_reach shift append s2 /\ (forall q, cow_holds s2 q <-> cow_holds s1 q /\ q ∉ pages) /\
        (forall q, cow_holds s1 q -> q ∉ pages -> TaskRead s2 q = TaskRead s1 q).
Proof.
  intros Ho Hh Hp Hr Hc Hroom Hw.
  destruct (@WriteOverflowValue_spec Store (CowPageStore append) (CowPageStoreLaws shift append)
    opts hash pool Ho Hh Hp s value (conj Hr Hc) Hroom) as (ids & all & s0 & Hw0 & Hf & Hch & Hnd & Hnew & Hm & Hu).
  rewrite Hw in Hw0. injection Hw0 as -> <-. exists all. split; [exact (fr_held _ _ _ _ Hf)|].
  intros s1 fuel Hr1 Hc1 Hfu Hsame.
  destruct (@delete_chain Store (CowPageStore append) (CowPageStoreLaws shift append) opts hash skip Ho ids value all s1 fuel)
    as (s2 & Hdel & Fr).
  - apply (chain_ext opts hash (TaskRead s')); [exact Hch|]. intros q Hq. apply (Hsame q Hq).
  - exact (conj Hr1 Hc1).
  - exact (task_room shift append s1 (conj Hr1 Hc1)).
  - split; [exact Hnd|]. split; apply list.Forall_forall; intros q Hq; apply (Hsame q Hq).
  - exact Hfu.
  - exists s2. unfold DelOverflowValue. pose proof (chain_bound opts hash Ho _ _ _ _ Hch).
    rewrite decode_encode; [|exact Hu|pose proof (oo_ptrs _ Ho); lia]. cbn [mbind option_bind].
    split; [exact Hdel|]. split; [exact (proj1 (fd_ok _ _ _ Fr))|]. split; [exact (fd_held _ _ _ Fr)|].
    intros q Hq Hn. apply (fd_same _ _ _ Fr q Hq Hn).
Qed.

(** A batch in progress on a small page size: groups of two pages, 20 bytes in a
    page, 12 bytes in a page that leads to the next group. *)
Definition small_options : KvOptions := mkKvOptions 32 2 2 2.
Definition small_hash (b : bytes) : Z := u64 (foldr Z.add 1 b).
Definition small_pool (_ : Z) : bytes := replicate 32 9.
Definition long_value : bytes := map Z.of_nat (seq 0 75).

Lemma small_options_ok : overflow_options small_options.
Proof. split; vm_compute; auto; split; discriminate. Qed.

Lemma first_batch_reach : store_reach 2 false (run_begin (new_store None)).
Proof.
  eapply reach_step; [apply (reach_start 2 false None); exact I|].
  apply (step_run_begin (new_store None)); vm_compute; reflexivity.
Qed.

Lemma first_batch_task : is_Some (st_cow (run_begin (new_store None))) /\
  cow_room (run_begin (new_store None)) (2 * zlen long_value).
Proof.
  destruct (st_cow (run_begin (new_store None))) as [c|] eqn:Hc; [|discriminate Hc]. split; [eauto|].
  destruct (st_snaps (run_begin (new_store None)) !! mr_snap (cow_mapper c)) as [sn|] eqn:Hsn.
  - exists c, sn. split; [exact Hc|]. split; [exact Hsn|]. vm_compute in Hc. injection Hc as <-.
    vm_compute in Hsn. injection Hsn as <-. split; vm_compute; discriminate.
  - vm_compute in Hc. injection Hc as <-. vm_compute in Hsn. discriminate Hsn.
Qed.

Lemma overflow_value_roundtrip_witness : exists ptrs (pages : list Z) s',
  @WriteOverflowValue Store (CowPageStore false) small_options small_hash small_pool
    (run_begin (new_store None)) long_value = Some (ptrs, s') /\
  GetOverflowValue small_options small_hash false (TaskRead s') (length pages) ptrs = Some long_value.
Proof.
  destruct first_batch_task as [Hc Hroom].
  destruct (overflow_value_roundtrip 2 false small_options small_hash false small_pool
    (run_begin (new_store None)) long_value) as (ptrs & pages & s' & Hw & _ & Hg & _).
  - exact small_options_ok.
  - intros b. apply u64_range.
  - intros id. reflexivity.
  - exact first_batch_reach.
  - exact Hc.
  - exact Hroom.
  - exists ptrs, pages, s'. split; [exact Hw|]. apply Hg. reflexivity.
Defined.

(** Storing a value and deleting it again leaves no page in use. *)
Lemma overflow_value_deleted_witness : exists s2,
  (exists ptrs s' fuel, @WriteOverflowValue Store (CowPageStore false) small_options small_hash small_pool
     (run_begin (new_store None)) long_value = Some (ptrs, s') /\
   @DelOverflowValue Store (CowPageStore false) small_options small_hash false fuel s' ptrs = Some s2) /\
  forall q, ~ cow_holds s2 q.
Proof.
  destruct first_batch_task as [Hc Hroom].
  assert (Hnone : forall q, ~ cow_holds (run_begin (new_store None)) q).
  { intros q (c & sn & l & H1 & H2 & _ & [Hq _]). vm_compute in H1. injection H1 as <-. vm_compute in H2.
    injection H2 as <-. vm_compute in Hq. destruct Hq as [H1 H2]. destruct q; discriminate || (apply H1; reflexivity). }
  assert (Hhash : forall b, is_u64 (small_hash b)) by (intros b; apply u64_range).
  assert (Hpool : forall id, zlen (small_pool id) = data_page_size small_options) by (intros id; reflexivity).
  destruct (@WriteOverflowValue_spec Store (CowPageStore false) (CowPageStoreLaws 2 false) small_options small_hash
    small_pool small_options_ok Hhash Hpool _ long_value (conj first_batch_reach Hc) Hroom)
    as (ids & all & s' & Hw & Hf & _ & _ & _ & Hm & _).
  destruct (overflow_value_deleted 2 false small_options small_hash false small_pool (run_begin (new_store None))
    long_value _ s' small_options_ok Hhash Hpool first_batch_reach Hc Hroom Hw) as (pages & Hheld & Hdel).
  destruct (Hdel s' (length pages)) as (s2 & Hd & _ & Hh2 & _).
  - exact (proj1 (fr_ok _ _ _ _ Hf)).
  - exact (proj2 (fr_ok _ _ _ _ Hf)).
  - reflexivity.
  - intros q Hq. split; [apply Hheld; auto|]. split; [|reflexivity].
    pose proof (fr_held _ _ _ _ Hf q) as Hin. destruct (proj2 (Hheld q) (or_introl Hq)) eqn:He. clear He.
    rewrite list.Forall_forall in Hm. apply Hm. destruct (proj1 Hin) as [H|H]; [apply Hheld; auto|exact H|destruct (Hnone q H)].
  - exists s2. split; [eauto 10|]. intros q Hq. apply Hh2 in Hq as [Hq Hn].
    apply Hheld in Hq as [Hq|Hq]; [contradiction|exact (Hnone q Hq)].
Defined.
