(* ===== verification/LargeValue.v ===== *)
(** * References to very large values (include/storage/data_page.h)

    The value field of a very large value holds its length, the ids of its
    segments and an optional metadata trailer.  The encoder and the two-step
    decoder are modelled and shown to be inverse; whatever the decoder of the
    header accepts has exactly the announced size. *)

From S2P Require Import Prelude Coding PageFormat IndexPage Overflow.

Definition kLargeValueHasMetadataBit : Z := 2 ^ 31.
Definition kLargeValueLengthMask : Z := 2 ^ 31 - 1.

(** [None] is a failed assertion. *)
Definition EncodeLargeValueContent (actual_length : Z) (segment_ids : list Z) (dst metadata : bytes) : option bytes :=
  if negb (Z.land actual_length kLargeValueHasMetadataBit =? 0) || (2 ^ 16 - 1 <? zlen metadata) then None
  else
    let has_metadata := negb (zlen metadata =? 0) in
    let word0 := if has_metadata then Z.lor actual_length kLargeValueHasMetadataBit else actual_length in
    Some (dst ++ EncodeFixed32 word0 ++ concat (map EncodeFixed32 segment_ids) ++
          if has_metadata then EncodeFixed16 (u16 (zlen metadata)) ++ metadata else []).

Record LargeValueHeader := mkLargeHeader {
  actual_length : Z;
  num_segments : Z;
  metadata_length : Z
}.

Definition DecodeLargeValueHeader (encoded : bytes) (segment_size : Z) : option LargeValueHeader :=
  if zlen encoded <? 4 then None
  else
    word0 ← DecodeFixed32 encoded;
    let has_metadata := negb (Z.land word0 kLargeValueHasMetadataBit =? 0) in
    let len := Z.land word0 kLargeValueLengthMask in
    let num := u32 (len + segment_size - 1) / segment_size in
    let segments_end := 4 + num * 4 in
    if negb has_metadata then
      if negb (zlen encoded =? segments_end) then None else Some (mkLargeHeader len num 0)
    else if zlen encoded <? segments_end + 2 then None
    else
      metadata_len ← DecodeFixed16 (zdrop segments_end encoded);
      if negb (zlen encoded =? segments_end + 2 + metadata_len) then None
      else Some (mkLargeHeader len num metadata_len).

Fixpoint read_segments (n : nat) (seg_ptr : bytes) : option (list Z * bytes) :=
  match n with
  | O => Some ([], seg_ptr)
  | S n' =>
      id ← DecodeFixed32 seg_ptr;
      '(ids, rest) ← read_segments n' (zdrop 4 seg_ptr);
      Some (id :: ids, rest)
  end.

(** [span] is the size of the output span and [metadata_out] says whether the
    caller wants the metadata.  The outer [None] is a read outside the buffer,
    the inner one the result [false]. *)
Definition DecodeLargeValueContent (encoded : bytes) (header : LargeValueHeader) (span : Z) (metadata_out : bool)
    : option (option (list Z * option bytes)) :=
  let extract_segments := negb (span =? 0) in
  if extract_segments && negb (span =? num_segments header) then Some None
  else
    let seg_ptr := zdrop 4 encoded in
    '(ids, seg_ptr) ← (if extract_segments then read_segments (Z.to_nat (num_segments header)) seg_ptr
                       else Some ([], zdrop (num_segments header * 4) seg_ptr));
    if negb metadata_out then Some (Some (ids, None))
    else if 0 <? metadata_length header then
      if zlen seg_ptr <? 2 + metadata_length header then None
      else Some (Some (ids, Some (ztake (metadata_length header) (zdrop 2 seg_ptr))))
    else Some (Some (ids, Some [])).

(** ** Lemmas *)
Lemma read_segments_encoded ids rest :
  Forall is_u32 ids -> read_segments (length ids) (encode_pointers ids ++ rest) = Some (ids, rest).
Proof.
  induction 1 as [|id ids Hid Hids IH]; [reflexivity|]. unfold encode_pointers in *. cbn [map concat length read_segments].
  rewrite <- app_assoc, fixed32_app by exact Hid. cbn [mbind option_bind].
  assert (Hz : zdrop 4 (EncodeFixed32 id ++ concat (map EncodeFixed32 ids) ++ rest)
    = concat (map EncodeFixed32 ids) ++ rest) by reflexivity.
  rewrite Hz, IH. reflexivity.
Qed.

Lemma fixed32_total l : 4 <= zlen l -> exists v, DecodeFixed32 l = Some v.
Proof.
  destruct l as [|a [|b [|c [|d l]]]]; rewrite ?zlen_cons; try (unfold zlen; cbn; lia). intros _. eexists. reflexivity.
Qed.

Lemma read_segments_total n l :
  Z.of_nat n * 4 <= zlen l ->
  exists ids, read_segments n l = Some (ids, zdrop (Z.of_nat n * 4) l) /\ length ids = n.
Proof.
  revert l. induction n as [|n IH]; intros l Hl; [exists []; split; reflexivity|].
  destruct (fixed32_total l ltac:(lia)) as [v Hv]. cbn [read_segments]. rewrite Hv. cbn [mbind option_bind].
  destruct (IH (zdrop 4 l)) as (ids & Hr & Hn); [rewrite zlen_zdrop by lia; lia|].
  rewrite Hr. exists (v :: ids). split; [|cbn; lia]. cbn [mbind option_bind]. rewrite zdrop_zdrop by lia.
  replace (4 + Z.of_nat n * 4) with (Z.of_nat (S n) * 4) by lia. reflexivity.
Qed.

(** The flag bit and the length share a word. *)
Lemma word_parts_large len : 0 <= len < 2 ^ 31 ->
  Z.land len kLargeValueHasMetadataBit = 0 /\ Z.land len kLargeValueLengthMask = len /\
  Z.lor len kLargeValueHasMetadataBit = len + 2 ^ 31 /\
  Z.land (Z.lor len kLargeValueHasMetadataBit) kLargeValueHasMetadataBit = kLargeValueHasMetadataBit /\
  Z.land (Z.lor len kLargeValueHasMetadataBit) kLargeValueLengthMask = len.
Proof.
  intros Hl. unfold kLargeValueHasMetadataBit, kLargeValueLengthMask.
  assert (Hlor : Z.lor len (2 ^ 31) = len + 2 ^ 31).
  { change (2 ^ 31) with (Z.shiftl 1 31) at 1. rewrite lor_disjoint by lia. lia. }
  assert (Hz : Z.land len (2 ^ 31) = 0).
  { apply Z.bits_inj'. intros i Hi. rewrite Z.land_spec, Z.bits_0, Z.pow2_bits_eqb by lia.
    destruct (Z.eqb_spec 31 i) as [<-|]; [|apply andb_false_r]. rewrite andb_true_r.
    rewrite <- (Z.mod_small len (2 ^ 31)) by lia. apply Z.mod_pow2_bits_high. lia. }
  split_and!; auto.
  - rewrite land_ones_mod by lia. apply Z.mod_small. lia.
  - rewrite Z.land_lor_distr_l, Hz, Z.land_diag, Z.lor_0_l. reflexivity.
  - rewrite Hlor, land_ones_mod by lia. replace (len + 2 ^ 31) with (len + 1 * 2 ^ 31) by lia.
    rewrite Z.mod_add by lia. apply Z.mod_small. lia.
Qed.

(** ** Properties *)

(** C30: What the encoder appends is decoded to the same length, segment ids and
    metadata, with or without a metadata trailer. *)
Theorem large_value_roundtrip len ids dst metadata segment_size :
  0 <= len < 2 ^ 31 -> zlen metadata <= 2 ^ 16 - 1 -> 1 <= segment_size -> len + segment_size - 1 < 2 ^ 32 ->
  zlen ids = (len + segment_size - 1) / segment_size -> Forall is_u32 ids ->
  exists blob, EncodeLargeValueContent len ids dst metadata = Some (dst ++ blob) /\
    let header := mkLargeHeader len (zlen ids) (zlen metadata) in
    DecodeLargeValueHeader blob segment_size = Some header /\
    DecodeLargeValueContent blob header (zlen ids) true = Some (Some (ids, Some metadata)).
Proof.
  intros Hl Hm Hs Hsum Hn Hu. destruct (word_parts_large len Hl) as (Hz & Hmask & Hlor & Hflag & Hmask').
  pose proof (zlen_nonneg metadata). pose proof (zlen_nonneg ids). unfold EncodeLargeValueContent.
  rewrite Hz, (proj2 (Z.ltb_ge _ _)) by lia. cbn [Z.eqb negb orb]. eexists. split; [reflexivity|].
  assert (Hw : forall w, zlen (EncodeFixed32 w) = 4) by reflexivity. pose proof (encode_pointers_length ids) as Hel.
  fold (encode_pointers ids). unfold DecodeLargeValueHeader, DecodeLargeValueContent. cbv zeta. cbn [num_segments metadata_length].
  assert (Hcut : forall w rest, zdrop 4 (EncodeFixed32 w ++ rest) = rest) by reflexivity.
  assert (Hseg : forall w rest, zdrop (4 + zlen ids * 4) (EncodeFixed32 w ++ encode_pointers ids ++ rest) = rest).
  { intros w rest. rewrite <- (Hw w) at 1. rewrite zdrop_app_add by lia. rewrite <- Hel. apply zdrop_app. }
  assert (Hread : forall rest,
    (if negb (zlen ids =? 0) then read_segments (Z.to_nat (zlen ids)) (encode_pointers ids ++ rest)
     else Some ([], zdrop (zlen ids * 4) (encode_pointers ids ++ rest))) = Some (ids, rest)).
  { intros rest. destruct (Z.eqb_spec (zlen ids) 0) as [He|He]; cbn [negb]; [rewrite (zlen_zero _ He); reflexivity|].
    unfold zlen. rewrite Nat2Z.id. apply read_segments_encoded. exact Hu. }
  destruct (Z.eqb_spec (zlen metadata) 0) as [Hm0|Hm0]; cbn [negb].
  - rewrite (zlen_zero _ Hm0). change (zlen (@nil Z)) with 0. rewrite app_nil_r.
    rewrite zlen_app, Hw, Hel, (proj2 (Z.ltb_ge _ _)), fixed32_app by (unfold is_u32; lia). cbn [mbind option_bind].
    rewrite Hz, Hmask, u32_id, <- Hn, !Z.eqb_refl by (unfold is_u32; lia). cbn [negb Z.eqb].
    split; [reflexivity|]. rewrite andb_false_r, Hcut.
    specialize (Hread []). rewrite app_nil_r in Hread. rewrite Hread. reflexivity.
  - rewrite Hlor. rewrite !zlen_app, Hw, Hel, (proj2 (Z.ltb_ge _ _)), fixed32_app by (unfold is_u32; zlia).
    cbn [mbind option_bind]. rewrite <- Hlor, Hflag, Hmask', u32_id, <- Hn by (unfold is_u32; lia).
    change (kLargeValueHasMetadataBit =? 0) with false. cbn [negb]. rewrite Hseg.
    rewrite u16_id, fixed16_app by (unfold is_u16; lia). change (zlen (EncodeFixed16 (zlen metadata))) with 2.
    rewrite (proj2 (Z.ltb_ge _ _)) by lia. cbn [mbind option_bind].
    replace (4 + (zlen ids * 4 + (2 + zlen metadata))) with (4 + zlen ids * 4 + 2 + zlen metadata) by lia.
    rewrite !Z.eqb_refl. cbn [negb]. split; [reflexivity|]. rewrite andb_false_r, Hcut, Hread.
    cbn [mbind option_bind negb]. rewrite (proj2 (Z.ltb_lt 0 _)) by lia. rewrite zlen_app.
    change (zlen (EncodeFixed16 (zlen metadata))) with 2. rewrite Z.ltb_irrefl.
    assert (Hc2 : zdrop 2 (EncodeFixed16 (zlen metadata) ++ metadata) = metadata) by reflexivity.
    rewrite Hc2, ztake_all. reflexivity.
Qed.

Lemma large_value_roundtrip_witness : exists blob,
  EncodeLargeValueContent 1000 [7; 8] [] [42] = Some blob /\
  DecodeLargeValueHeader blob 512 = Some (mkLargeHeader 1000 2 1) /\
  DecodeLargeValueContent blob (mkLargeHeader 1000 2 1) 2 true = Some (Some ([7; 8], Some [42])).
Proof.
  destruct (large_value_roundtrip 1000 [7; 8] [] [42] 512) as (blob & H1 & H2 & H3);
    [lia|vm_compute; discriminate|lia|lia|reflexivity|repeat constructor; vm_compute; discriminate|].
  exists blob. auto.
Defined.

(** A blob whose header is accepted has exactly the announced size, so
    reading its segment ids and metadata stays inside the blob and succeeds. *)
Theorem large_value_accepted_in_range encoded segment_size header :
  Forall is_byte encoded -> 1 <= segment_size -> DecodeLargeValueHeader encoded segment_size = Some header ->
  exists ids metadata,
    DecodeLargeValueContent encoded header (num_segments header) true = Some (Some (ids, Some metadata)) /\
    zlen ids = num_segments header /\ zlen metadata = metadata_length header /\
    0 <= actual_length header < 2 ^ 31.
Proof.
  intros Hb Hs. unfold DecodeLargeValueHeader. destruct (Z.ltb_spec (zlen encoded) 4) as [|H4]; [discriminate|].
  destruct (DecodeFixed32 encoded) as [w|]; [|discriminate]. cbn [mbind option_bind]. cbv zeta.
  set (len := Z.land w kLargeValueLengthMask). set (num := u32 (len + segment_size - 1) / segment_size).
  assert (Hlen : 0 <= len < 2 ^ 31).
  { unfold len, kLargeValueLengthMask. rewrite land_ones_mod by lia. apply Z.mod_pos_bound. lia. }
  assert (Hnum : 0 <= num) by (apply Z.div_pos; [apply u32_range|lia]).
  assert (Hgo : forall m, 0 <= m -> zlen encoded = 4 + num * 4 + (if 0 <? m then 2 + m else zlen encoded - 4 - num * 4) ->
    4 + num * 4 <= zlen encoded ->
    exists ids metadata, DecodeLargeValueContent encoded (mkLargeHeader len num m) num true = Some (Some (ids, Some metadata)) /\
      zlen ids = num /\ zlen metadata = m /\ 0 <= len < 2 ^ 31).
  { intros m Hm Hsz Hle. unfold DecodeLargeValueContent. cbn [num_segments metadata_length]. cbv zeta.
    rewrite Z.eqb_refl. cbn [negb]. rewrite andb_false_r.
    destruct (read_segments_total (Z.to_nat num) (zdrop 4 encoded)) as (ids & Hr & Hn);
      [rewrite zlen_zdrop by lia; lia|]. rewrite Z2Nat.id in Hr by lia.
    assert (Hids : exists ids, (if negb (num =? 0) then read_segments (Z.to_nat num) (zdrop 4 encoded)
      else Some ([], zdrop (num * 4) (zdrop 4 encoded))) = Some (ids, zdrop (num * 4) (zdrop 4 encoded)) /\ zlen ids = num).
    { destruct (Z.eqb_spec num 0) as [->|Hne]; cbn [negb]; [exists []; auto|]. exists ids. split; [exact Hr|unfold zlen; lia]. }
    destruct Hids as (ids' & -> & Hids). cbn [mbind option_bind negb]. rewrite zdrop_zdrop by lia.
    destruct (Z.ltb_spec 0 m) as [Hpos|Hzero].
    - rewrite zlen_zdrop, (proj2 (Z.ltb_ge _ _)) by lia. do 2 eexists. split; [reflexivity|].
      split; [exact Hids|]. split; [|exact Hlen]. rewrite zlen_ztake; [reflexivity|].
      rewrite zdrop_zdrop by lia. rewrite zlen_zdrop by lia. lia.
    - do 2 eexists. split; [reflexivity|]. split; [exact Hids|]. split; [change (zlen (@nil Z)) with 0; lia|exact Hlen]. }
  destruct (negb (Z.land w kLargeValueHasMetadataBit =? 0)); cbn [negb].
  - destruct (Z.ltb_spec (zlen encoded) (4 + num * 4 + 2)) as [|Hge]; [discriminate|].
    destruct (DecodeFixed16 (zdrop (4 + num * 4) encoded)) as [m|] eqn:Hm; [|discriminate]. cbn [mbind option_bind].
    destruct (Z.eqb_spec (zlen encoded) (4 + num * 4 + 2 + m)) as [He|]; cbn [negb]; [|discriminate].
    intros H. injection H as <-. cbn [num_segments metadata_length actual_length]. apply Hgo; [lia|case_if; lia|lia].
  - destruct (Z.eqb_spec (zlen encoded) (4 + num * 4)) as [He|]; cbn [negb]; [|discriminate].
    intros H. injection H as <-. cbn [num_segments metadata_length actual_length]. apply Hgo; [lia|cbn; lia|lia].
Qed.

Lemma large_value_accepted_in_range_witness : exists ids metadata,
  DecodeLargeValueContent [5;0;0;0; 9;0;0;0] (mkLargeHeader 5 1 0) 1 true = Some (Some (ids, Some metadata)) /\
  zlen ids = 1 /\ zlen metadata = 0 /\ 0 <= 5 < 2 ^ 31.
Proof.
  apply (large_value_accepted_in_range [5;0;0;0; 9;0;0;0] 512 (mkLargeHeader 5 1 0));
    [repeat constructor; vm_compute; discriminate|lia|vm_compute; reflexivity].
Defined.
