(* ===== verification/ApplyPage.v ===== *)
(** * Merging a batch into a data page

    [BatchWriteTask::ApplyOnePage] (src/tasks/batch_write_task.cpp) merges the
    part of a sorted batch that falls into the key range of a leaf with the
    entries of the leaf, and cuts the result into pages.  The model keeps every
    effect of the source: overflow and large values that are written or freed,
    entries of the TTL batch, and the pages that are finished. *)

From stdpp Require Import sorting.
From S2P Require Import Prelude Coding Comparator PageFormat DataPage Regions DataPageIter IndexPageIter.

(** ** Batches *)
Inductive WriteOp := Upsert | Delete.

(** [w_large] is the content of a very large value; [w_val] is then its metadata. *)
Record WriteDataEntry := mkWrite {
  w_key : bytes;
  w_val : bytes;
  w_large : option bytes;
  w_ts : Z;
  w_op : WriteOp;
  w_expire : Z
}.

Definition HasLargeValue (w : WriteDataEntry) : bool :=
  match w_large w with Some _ => true | None => false end.

(** ** The TTL batch *)
Record TtlBatch := mkTtl {
  do_update_ttl_ : bool;
  ttl_batch_ : list WriteDataEntry;
  next_expire_ts_ : Z
}.

Definition ttl_key (expire_ts : Z) (key : bytes) : bytes :=
  EncodeFixed64 (ToBigEndian64 expire_ts) ++ key.

Definition UpdateTTL (t : TtlBatch) (expire_ts : Z) (key : bytes) (op : WriteOp) : TtlBatch :=
  if do_update_ttl_ t && negb (expire_ts =? 0) then
    mkTtl (do_update_ttl_ t) (ttl_batch_ t ++ [mkWrite (ttl_key expire_ts key) [] None 0 op 0])
      (match op with
       | Upsert => if next_expire_ts_ t =? 0 then expire_ts else Z.min (next_expire_ts_ t) expire_ts
       | Delete => next_expire_ts_ t
       end)
  else t.

(** ** Compression of a new value *)
Definition kSkipCompressionThreshold : Z := 100.
Definition kStandaloneCompressionThreshold : Z := 10 * 1024 * 1024.

(** [compression::Prepare].  [compress_raw] and [dict] stand for the compressor
    with and without the dictionary of the partition, if it has one. *)
Definition Prepare (compress_raw : bytes -> option bytes) (dict : option (bytes -> option bytes)) (value : bytes)
    : bytes * CompressionType :=
  if zlen value <? kSkipCompressionThreshold then (value, CompNone)
  else if kStandaloneCompressionThreshold <? zlen value then
    match compress_raw value with Some z => (z, CompStandalone) | None => (value, CompNone) end
  else
    match (compress ← dict; compress value) with Some z => (z, CompDictionary) | None => (value, CompNone) end.

(** ** The surrounding task

    What [ApplyOnePage] calls: storing and deleting values outside the page, and
    [FinishDataPage] with the key, the page id ([MaxPageId] for a new page) and
    the content of a page. *)
Class PageTask (T : Type) := {
  pt_write_overflow : T -> bytes -> option (bytes * T);
  pt_del_overflow : T -> bytes -> option T;
  pt_write_large : T -> WriteDataEntry -> option (bytes * T);
  pt_del_large : T -> bytes -> option T;
  pt_finish_page : T -> bytes -> Z -> bytes -> option T
}.

(** A value that is stored outside the page: what the page holds for it, and the
    value. *)
Inductive Outside := OutOverflow (ptrs val : bytes) | OutLarge (content val : bytes).

(** What [ApplyOnePage] relies on: the task owns a multiset of outside values;
    writing adds one, deleting removes one, and finishing a page keeps them. *)
Class PageTaskLaws (T : Type) `{PageTask T} (opts : KvOptions) := {
  pt_owns : T -> list Outside -> Prop;
  pt_owns_perm t os os' : os ≡ₚ os' -> pt_owns t os -> pt_owns t os';
  write_overflow_ok t os v : pt_owns t os ->
    exists ptrs t', pt_write_overflow t v = Some (ptrs, t') /\
      zlen ptrs <= 4 * overflow_pointers opts /\ pt_owns t' (OutOverflow ptrs v :: os);
  del_overflow_ok t os ptrs v : pt_owns t (OutOverflow ptrs v :: os) ->
    exists t', pt_del_overflow t ptrs = Some t' /\ pt_owns t' os;
  write_large_ok t os w v : pt_owns t os -> w_large w = Some v ->
    exists content t', pt_write_large t w = Some (content, t') /\ pt_owns t' (OutLarge content v :: os);
  del_large_ok t os content v : pt_owns t (OutLarge content v :: os) ->
    exists t', pt_del_large t content = Some t' /\ pt_owns t' os;
  finish_page_ok t os key id page : pt_owns t os ->
    exists t', pt_finish_page t key id page = Some t' /\ pt_owns t' os
}.

Section apply.
  Context {T : Type} `{PageTask T}.
  Context (opts : KvOptions) (enable_compression : bool).
  Context (compress_raw : bytes -> option bytes) (dict : option (bytes -> option bytes)) (now_ms : Z).

(** The local variables of [ApplyOnePage] that its helpers share.  [ap_pages] is
    the list of calls of [FinishDataPage] so far. *)
Record Apply := mkApply {
  ap_task : T;
  ap_ttl : TtlBatch;
  ap_builder : DataPageBuilder;
  ap_prev_key : bytes;
  ap_page_key : bytes;
  ap_page_id : Z;
  ap_pages : list (bytes * Z * bytes)
}.

Definition with_task (s : Apply) (t : T) : Apply :=
  mkApply t (ap_ttl s) (ap_builder s) (ap_prev_key s) (ap_page_key s) (ap_page_id s) (ap_pages s).

Definition with_ttl (s : Apply) (expire_ts : Z) (key : bytes) (op : WriteOp) : Apply :=
  mkApply (ap_task s) (UpdateTTL (ap_ttl s) expire_ts key op) (ap_builder s) (ap_prev_key s) (ap_page_key s)
    (ap_page_id s) (ap_pages s).

(** Whether an expire timestamp lies in the past. *)
Definition Expired (expire_ts : Z) : bool := negb (expire_ts =? 0) && (expire_ts <=? now_ms).

Definition DelValue (s : Apply) (overflow large : bool) (val : bytes) : option Apply :=
  if overflow then t ← pt_del_overflow (ap_task s) val; Some (with_task s t)
  else if large then t ← pt_del_large (ap_task s) val; Some (with_task s t)
  else Some s.

Definition FinishCurrent (s : Apply) : option Apply :=
  let page := fst (Finish opts (ap_builder s)) in
  t ← pt_finish_page (ap_task s) (ap_page_key s) (ap_page_id s) page;
  Some (mkApply t (ap_ttl s) (ap_builder s) (ap_prev_key s) (ap_page_key s) (ap_page_id s)
          (ap_pages s ++ [(ap_page_key s, ap_page_id s, page)])).

(** The lambda [add_to_page].  It calls itself once, with the pointers of an
    overflow value, so the depth is at most two.  A failed assertion, on the key
    of a page or on the second [Add], is [None]. *)
Fixpoint add_to_page (depth : nat) (s : Apply) (key val : bytes) (is_ptr : bool) (ts expire_ts : Z)
    (compression_type : CompressionType) (large_value : bool) : option Apply :=
  match depth with
  | O => None
  | S depth' =>
      if Expired expire_ts then
        s ← DelValue s is_ptr large_value val;
        Some (with_ttl s expire_ts key Delete)
      else
        let '(success, b) := Add opts (ap_builder s) key val is_ptr ts expire_ts compression_type large_value in
        if success then
          if Compare (ap_page_key s) key <=? 0 then
            Some (mkApply (ap_task s) (ap_ttl s) b key (ap_page_key s) (ap_page_id s) (ap_pages s))
          else None
        else if negb is_ptr && negb large_value && IsOverflowKV opts key (zlen val) ts expire_ts then
          '(ptrs, t) ← pt_write_overflow (ap_task s) val;
          add_to_page depth' (with_task s t) key ptrs true ts expire_ts compression_type false
        else
          s ← FinishCurrent s;
          let page_key := FindShortestSeparator (ap_prev_key s) key in
          let '(success, b) := Add opts Reset key val is_ptr ts expire_ts compression_type large_value in
          if (0 <? zlen (ap_prev_key s)) && (Compare (ap_prev_key s) page_key <? 0) && success &&
             (Compare page_key key <=? 0) then
            Some (mkApply (ap_task s) (ap_ttl s) b key page_key MaxPageId (ap_pages s))
          else None
  end.

(** A new value on its way to the page: stored outside, compressed or as it is. *)
Definition PrepareChange (s : Apply) (w : WriteDataEntry) : option (bytes * bool * CompressionType * Apply) :=
  if HasLargeValue w then
    '(content, t) ← pt_write_large (ap_task s) w;
    Some (content, true, CompNone, with_task s t)
  else if enable_compression then
    let '(data, kind) := Prepare compress_raw dict (w_val w) in Some (data, false, kind, s)
  else Some (w_val w, false, CompNone, s).

Definition add_change (s : Apply) (w : WriteDataEntry) : option Apply :=
  '(val, large, kind, s) ← PrepareChange s w;
  add_to_page 2 s (w_key w) val false (w_ts w) (w_expire w) kind large.

Definition add_base (s : Apply) (e : Entry) : option Apply :=
  add_to_page 2 s (key_ e) (value_ e) (overflow_ e) (timestamp_ e) (expire_ts_ e) (compression_type_ e) (large_value_ e).

(** One round of the merge loop: an entry of the page and a change.  An empty key
    stands for an entry that is not to be added. *)
Inductive AdvanceType := AdvPageIter | AdvChanges | AdvBoth.

Definition unless_empty (key : bytes) (s : Apply) (add : Apply -> option Apply) : option Apply :=
  if zlen key =? 0 then Some s else add s.

Definition merge_step (s : Apply) (e : Entry) (w : WriteDataEntry) : option (AdvanceType * Apply) :=
  let cmp_ret := Compare (key_ e) (w_key w) in
  if cmp_ret <? 0 then s ← unless_empty (key_ e) s (fun s => add_base s e); Some (AdvPageIter, s)
  else if cmp_ret =? 0 then
    if timestamp_ e <=? w_ts w then
      s ← DelValue s (overflow_ e) (large_value_ e) (value_ e);
      match w_op w with
      | Delete =>
          if (w_expire w =? 0) || (w_expire w =? expire_ts_ e) then
            Some (AdvBoth, with_ttl s (expire_ts_ e) (key_ e) Delete)
          else None
      | Upsert =>
          if Expired (w_expire w) then Some (AdvBoth, with_ttl s (expire_ts_ e) (key_ e) Delete)
          else
            let s := if expire_ts_ e =? w_expire w then s
                     else with_ttl (with_ttl s (expire_ts_ e) (key_ e) Delete) (w_expire w) (w_key w) Upsert in
            s ← unless_empty (w_key w) s (fun s => add_change s w); Some (AdvBoth, s)
      end
    else s ← unless_empty (key_ e) s (fun s => add_base s e); Some (AdvBoth, s)
  else
    match w_op w with
    | Delete => Some (AdvChanges, s)
    | Upsert =>
        if Expired (w_expire w) then Some (AdvChanges, s)
        else
          s ← unless_empty (w_key w) (with_ttl s (w_expire w) (w_key w) Upsert) (fun s => add_change s w);
          Some (AdvChanges, s)
    end.

(** The entries of the page that are left. *)
Fixpoint base_loop (s : Apply) (base : list Entry) : option Apply :=
  match base with [] => Some s | e :: base => s ← add_base s e; base_loop s base end.

(** The changes that are left. *)
Fixpoint change_loop (s : Apply) (changes : list WriteDataEntry) : option Apply :=
  match changes with
  | [] => Some s
  | w :: changes =>
      s ← (match w_op w with
           | Upsert => if Expired (w_expire w) then Some s
                       else add_change (with_ttl s (w_expire w) (w_key w) Upsert) w
           | Delete => Some s
           end);
      change_loop s changes
  end.

(** The three loops; every round of the first takes an entry or a change. *)
Fixpoint merge_loop (fuel : nat) (s : Apply) (base : list Entry) (changes : list WriteDataEntry) : option Apply :=
  match base, changes with
  | [], _ => change_loop s changes
  | _, [] => base_loop s base
  | e :: base', w :: changes' =>
      match fuel with
      | O => None
      | S fuel' =>
          '(adv, s) ← merge_step s e w;
          match adv with
          | AdvPageIter => merge_loop fuel' s base' changes
          | AdvChanges => merge_loop fuel' s base changes'
          | AdvBoth => merge_loop fuel' s base' changes'
          end
      end
  end.

(** The changes before the right bound of the page; an empty bound is infinite. *)
Fixpoint page_changes (right_bound : bytes) (batch : list WriteDataEntry) : list WriteDataEntry :=
  match batch with
  | [] => []
  | w :: batch' =>
      if (zlen right_bound =? 0) || (Compare (w_key w) right_bound <? 0)
      then w :: page_changes right_bound batch' else []
  end.

(** [ApplyOnePage] for a leaf with the key [page_key] in its parent, the id
    [page_id] and the entries [base], or [MaxPageId] and no entries when the
    tree is empty.  The result says whether the leaf became empty, and how many
    changes are done. *)
Definition ApplyOnePage (t : T) (ttl : TtlBatch) (page_key : bytes) (page_id : Z) (base : list Entry)
    (right_bound : bytes) (batch : list WriteDataEntry) : option (Apply * bool * Z) :=
  let changes := page_changes right_bound batch in
  s ← merge_loop (length base + length changes) (mkApply t ttl Reset [] page_key page_id []) base changes;
  if b_cnt (ap_builder s) =? 0 then Some (s, true, zlen changes)
  else s ← FinishCurrent s; Some (s, false, zlen changes).
End apply.
