(* ===== verification/ApplySpec.v ===== *)
(** * Correctness of merging a batch into a data page

    The reference of the merge ([survives]), the pages it produces, the values it
    keeps outside the pages, and the entries of the TTL batch.  The definitions
    of the program are in [ApplyPage]. *)

From stdpp Require Import gmap sorting.
From S2P Require Import Prelude Coding Comparator PageFormat DataPage Regions DataPageIter IndexPageIter ApplyPage.

(** ** What the merge keeps

    The reference: an entry of the page stays unless it expired or a change of
    its key is at least as new; an upsert is stored unless it expired or the page
    has a newer entry of its key. *)
Inductive Item := Kept (e : Entry) | New (w : WriteDataEntry).

Definition item_key (i : Item) : bytes := match i with Kept e => key_ e | New w => w_key w end.

Definition survives (now_ms : Z) (base : list Entry) (changes : list WriteDataEntry) (i : Item) : Prop :=
  match i with
  | Kept e => e ∈ base /\ Expired now_ms (expire_ts_ e) = false /\
              forall w, w ∈ changes -> w_key w = key_ e -> w_ts w < timestamp_ e
  | New w => w ∈ changes /\ w_op w = Upsert /\ Expired now_ms (w_expire w) = false /\
             forall e, e ∈ base -> key_ e = w_key w -> timestamp_ e <= w_ts w
  end.

Definition kept_item (now_ms : Z) (e : Entry) : list Item :=
  if Expired now_ms (expire_ts_ e) then [] else [Kept e].

Definition new_item (now_ms : Z) (w : WriteDataEntry) : list Item :=
  match w_op w with
  | Delete => []
  | Upsert => if Expired now_ms (w_expire w) then [] else [New w]
  end.

(** The same set in the order of the merge. *)
Fixpoint merge_items (now_ms : Z) (base : list Entry) : list WriteDataEntry -> list Item :=
  fix go (changes : list WriteDataEntry) : list Item :=
  match base with
  | [] => concat (map (new_item now_ms) changes)
  | e :: base' =>
      match changes with
      | [] => concat (map (kept_item now_ms) base)
      | w :: changes' =>
          let cmp_ret := Compare (key_ e) (w_key w) in
          if cmp_ret <? 0 then kept_item now_ms e ++ merge_items now_ms base' changes
          else if cmp_ret =? 0 then
            (if timestamp_ e <=? w_ts w then new_item now_ms w else kept_item now_ms e) ++
            merge_items now_ms base' changes'
          else new_item now_ms w ++ go changes'
      end
  end.

Abbreviation keys_sorted := (StronglySorted key_lt).

Lemma elem_kept_item now_ms e i : i ∈ kept_item now_ms e <-> i = Kept e /\ Expired now_ms (expire_ts_ e) = false.
Proof.
  unfold kept_item. destruct (Expired now_ms (expire_ts_ e)).
  - split; [intros Hi; inversion Hi|intros [_ Hx]; discriminate].
  - rewrite list_elem_of_singleton. intuition auto.
Qed.

Lemma elem_new_item now_ms w i :
  i ∈ new_item now_ms w <-> i = New w /\ w_op w = Upsert /\ Expired now_ms (w_expire w) = false.
Proof.
  unfold new_item. destruct (w_op w), (Expired now_ms (w_expire w)); rewrite ?list_elem_of_singleton, ?elem_of_nil;
    intuition (congruence || auto).
Qed.

(** The first key of a sorted list is below the others. *)
Lemma sorted_head {A} (f : A -> bytes) x l y :
  keys_sorted (map f (x :: l)) -> y ∈ l -> f x <k f y.
Proof.
  intros Hs Hy. inversion_clear Hs as [|? ? _ Hf]. rewrite list.Forall_forall in Hf.
  apply Hf, list_elem_of_fmap_2, Hy.
Qed.

Lemma sorted_tail {A} (f : A -> bytes) x l : keys_sorted (map f (x :: l)) -> keys_sorted (map f l).
Proof. intros Hs. inversion_clear Hs. assumption. Qed.

(** One round of the merge, on the reference. *)
Lemma survives_base_first now_ms e base changes i :
  keys_sorted (map key_ (e :: base)) ->
  (forall w, w ∈ changes -> key_ e <k w_key w) ->
  survives now_ms (e :: base) changes i <-> i ∈ kept_item now_ms e \/ survives now_ms base changes i.
Proof.
  intros Hs Hw. rewrite elem_kept_item. pose proof (sorted_head key_ e base) as Hh.
  assert (Hne : forall w, w ∈ changes -> key_ e <> w_key w)
    by (intros w Hin Heq; specialize (Hw w Hin); rewrite Heq in Hw; exact (key_lt_irrefl _ Hw)).
  destruct i as [e'|w']; cbn [survives]; setoid_rewrite elem_of_cons.
  - split; [intros ([->|?] & ? & ?); auto|].
    intros [[[= ->] ?]|(? & ? & ?)]; auto. split_and!; auto. intros w Hin Heq. by destruct (Hne w Hin).
  - split; [intros (? & ? & ? & ?); right; auto 6|].
    intros [[? _]|(Hin & ? & ? & ?)]; [discriminate|]. split_and!; auto.
    intros e' [->|?] Heq; [by destruct (Hne w' Hin)|auto].
Qed.

Lemma survives_change_first now_ms w base changes i :
  keys_sorted (map w_key (w :: changes)) ->
  (forall e, e ∈ base -> w_key w <k key_ e) ->
  survives now_ms base (w :: changes) i <-> i ∈ new_item now_ms w \/ survives now_ms base changes i.
Proof.
  intros Hs He. rewrite elem_new_item.
  assert (Hne : forall e, e ∈ base -> w_key w <> key_ e)
    by (intros e Hin Heq; specialize (He e Hin); rewrite Heq in He; exact (key_lt_irrefl _ He)).
  destruct i as [e'|w']; cbn [survives]; setoid_rewrite elem_of_cons.
  - split; [intros (? & ? & ?); right; auto|].
    intros [[? _]|(Hin & ? & ?)]; [discriminate|]. split_and!; auto.
    intros w' [->|?] Heq; [by destruct (Hne e' Hin)|auto].
  - split; [intros ([->|?] & ? & ? & ?); auto 6|].
    intros [([= ->] & ? & ?)|(? & ? & ? & ?)]; auto. split_and!; auto.
    intros e Hin Heq. by destruct (Hne e Hin).
Qed.

Lemma survives_both now_ms e w base changes i :
  keys_sorted (map key_ (e :: base)) -> keys_sorted (map w_key (w :: changes)) -> key_ e = w_key w ->
  survives now_ms (e :: base) (w :: changes) i <->
  i ∈ (if timestamp_ e <=? w_ts w then new_item now_ms w else kept_item now_ms e) \/
  survives now_ms base changes i.
Proof.
  intros Hse Hsw Hk.
  assert (Hne : forall e', e' ∈ base -> key_ e' <> key_ e)
    by (intros e' Hin Heq; pose proof (sorted_head key_ e base e' Hse Hin) as Hlt; rewrite Heq in Hlt;
        exact (key_lt_irrefl _ Hlt)).
  assert (Hnw : forall w', w' ∈ changes -> w_key w' <> w_key w)
    by (intros w' Hin Heq; pose proof (sorted_head w_key w changes w' Hsw Hin) as Hlt; rewrite Heq in Hlt;
        exact (key_lt_irrefl _ Hlt)).
  destruct (Z.leb_spec (timestamp_ e) (w_ts w)) as [Hle|Hgt]; rewrite ?elem_new_item, ?elem_kept_item;
    destruct i as [e'|w']; cbn [survives]; setoid_rewrite elem_of_cons.
  - split.
    + intros ([->|?] & ? & Hall); [|right; split_and!; auto].
      specialize (Hall w (or_introl eq_refl) (eq_sym Hk)). lia.
    + intros [[? _]|(Hin & ? & ?)]; [discriminate|]. split_and!; auto.
      intros w' [->|?] Heq; [destruct (Hne e' Hin); congruence|auto].
  - split.
    + intros ([->|?] & ? & ? & ?); [auto|right; split_and!; auto].
    + intros [([= ->] & ? & ?)|(Hin & ? & ? & ?)]; split_and!; auto.
      * intros e' [->|Hin] Heq; [lia|destruct (Hne e' Hin); congruence].
      * intros e' [->|?] Heq; [destruct (Hnw w' Hin); congruence|auto].
  - split.
    + intros ([->|?] & ? & Hall); [auto|right; split_and!; auto].
    + intros [[[= ->] ?]|(Hin & ? & ?)]; split_and!; auto.
      * intros w' [->|Hin] Heq; [lia|destruct (Hnw w' Hin); congruence].
      * intros w' [->|?] Heq; [destruct (Hne e' Hin); congruence|auto].
  - split.
    + intros ([->|?] & ? & ? & Hall); [|right; split_and!; auto].
      specialize (Hall e (or_introl eq_refl) Hk). lia.
    + intros [[? _]|(Hin & ? & ? & ?)]; [discriminate|]. split_and!; auto.
      intros e' [->|?] Heq; [destruct (Hnw w' Hin); congruence|auto].
Qed.

Definition merge_ok (now_ms : Z) (base : list Entry) (changes : list WriteDataEntry) (l : list Item) : Prop :=
  keys_sorted (map item_key l) /\ forall i, i ∈ l <-> survives now_ms base changes i.

Lemma survives_key now_ms base changes i :
  survives now_ms base changes i -> item_key i ∈ map key_ base \/ item_key i ∈ map w_key changes.
Proof.
  destruct i as [e|w]; simpl; intros [Hin _]; [left|right]; apply list_elem_of_fmap_2; exact Hin.
Qed.

Lemma sorted_lower {A} (f : A -> bytes) k l :
  keys_sorted (k :: map f l) -> forall x, x ∈ map f l -> k <k x.
Proof. intros Hs x Hx. inversion_clear Hs as [|? ? _ Hf]. rewrite list.Forall_forall in Hf. auto. Qed.

(** A round puts at most one item, with the smallest key, in front. *)
Lemma merge_ok_cons now_ms base changes base' changes' k pre l :
  merge_ok now_ms base' changes' l ->
  (forall x, x ∈ map key_ base' \/ x ∈ map w_key changes' -> k <k x) ->
  pre = [] \/ (exists i, pre = [i] /\ item_key i = k) ->
  (forall i, survives now_ms base changes i <-> i ∈ pre \/ survives now_ms base' changes' i) ->
  merge_ok now_ms base changes (pre ++ l).
Proof.
  intros [Hs Hl] Hk Hpre Hiff. split.
  - destruct Hpre as [->|(i & -> & Hi)]; [exact Hs|]. simpl. constructor; [exact Hs|].
    apply list.Forall_forall. intros x Hx. apply list_elem_of_fmap in Hx as (j & -> & Hj).
    rewrite Hi. apply Hk, (survives_key now_ms), Hl, Hj.
  - intros i. rewrite elem_of_app, Hl. symmetry. apply Hiff.
Qed.

Lemma kept_item_one now_ms e : kept_item now_ms e = [] \/ exists i, kept_item now_ms e = [i] /\ item_key i = key_ e.
Proof. unfold kept_item. destruct (Expired _ _); eauto. Qed.

Lemma new_item_one now_ms w : new_item now_ms w = [] \/ exists i, new_item now_ms w = [i] /\ item_key i = w_key w.
Proof. unfold new_item. destruct (w_op w); [destruct (Expired _ _)|]; eauto. Qed.

Lemma merge_ok_nil now_ms : merge_ok now_ms [] [] [].
Proof.
  split; [constructor|]. intros i. rewrite elem_of_nil.
  destruct i; simpl; rewrite elem_of_nil; tauto.
Qed.

Lemma merge_items_base now_ms base :
  keys_sorted (map key_ base) -> merge_ok now_ms base [] (concat (map (kept_item now_ms) base)).
Proof.
  induction base as [|e base IH]; intros Hs; [apply merge_ok_nil|]. simpl concat.
  eapply merge_ok_cons; [exact (IH (sorted_tail _ _ _ Hs))| |apply kept_item_one|].
  - intros x [Hx|Hx]; [exact (sorted_lower key_ _ _ Hs x Hx)|inversion Hx].
  - intros i. apply survives_base_first; [exact Hs|]. intros w Hw. inversion Hw.
Qed.

Lemma merge_items_changes now_ms changes :
  keys_sorted (map w_key changes) -> merge_ok now_ms [] changes (concat (map (new_item now_ms) changes)).
Proof.
  induction changes as [|w changes IH]; intros Hs; [apply merge_ok_nil|]. simpl concat.
  eapply merge_ok_cons; [exact (IH (sorted_tail _ _ _ Hs))| |apply new_item_one|].
  - intros x [Hx|Hx]; [inversion Hx|exact (sorted_lower w_key _ _ Hs x Hx)].
  - intros i. apply survives_change_first; [exact Hs|]. intros e He. inversion He.
Qed.

(** Every key of a sorted list is at least the first one. *)
Lemma sorted_from {A} (f : A -> bytes) x l k y :
  keys_sorted (map f (x :: l)) -> k <k f x -> y ∈ map f (x :: l) -> k <k y.
Proof.
  intros Hs Hk Hy. simpl in Hy. apply elem_of_cons in Hy as [->|Hy]; [exact Hk|].
  eapply key_lt_trans; [exact Hk|]. exact (sorted_lower f _ _ Hs y Hy).
Qed.

(** The merge of sorted lists is sorted and keeps exactly what survives. *)
Lemma merge_items_ok now_ms base changes :
  keys_sorted (map key_ base) -> keys_sorted (map w_key changes) ->
  merge_ok now_ms base changes (merge_items now_ms base changes).
Proof.
  revert changes. induction base as [|e base IHb]; intros changes Hb Hc.
  { destruct changes; apply merge_items_changes; exact Hc. }
  induction changes as [|w changes IHc]; [apply (merge_items_base now_ms (e :: base)); exact Hb|].
  pose proof (sorted_tail _ _ _ Hb) as Hb'. pose proof (sorted_tail _ _ _ Hc) as Hc'.
  cbn [merge_items].
  destruct (Z.ltb_spec (Compare (key_ e) (w_key w)) 0) as [Hlt|Hge];
    [|destruct (Z.eqb_spec (Compare (key_ e) (w_key w)) 0)].
  - eapply merge_ok_cons; [exact (IHb (w :: changes) Hb' Hc)| |apply kept_item_one|].
    + intros x [Hx|Hx]; [exact (sorted_lower key_ _ _ Hb x Hx)|exact (sorted_from w_key w changes _ x Hc Hlt Hx)].
    + intros i. apply survives_base_first; [exact Hb|].
      intros w' Hw'. apply (sorted_from w_key w changes _ _ Hc Hlt), list_elem_of_fmap_2, Hw'.
  - assert (Hk : key_ e = w_key w) by (apply Compare_eq; lia).
    eapply merge_ok_cons; [exact (IHb changes Hb' Hc')| | |intros i; exact (survives_both now_ms e w base changes i Hb Hc Hk)].
    + intros x [Hx|Hx]; [exact (sorted_lower key_ _ _ Hb x Hx)|].
      rewrite Hk. exact (sorted_lower w_key _ _ Hc x Hx).
    + destruct (timestamp_ e <=? w_ts w); [rewrite Hk; apply new_item_one|apply kept_item_one].
  - assert (Hgt : w_key w <k key_ e) by (unfold key_lt; rewrite Compare_opp; lia).
    eapply merge_ok_cons; [exact (IHc Hc')| |apply new_item_one|].
    + intros x [Hx|Hx]; [exact (sorted_from key_ e base _ x Hb Hgt Hx)|exact (sorted_lower w_key _ _ Hc x Hx)].
    + intros i. apply survives_change_first; [exact Hc|].
      intros e' He'. apply (sorted_from key_ e base _ _ Hb Hgt), list_elem_of_fmap_2, He'.
Qed.

(** ** Filling pages *)
Lemma add_all_snoc opts b l a b1 :
  add_all opts b l = Some b1 ->
  add_all opts b (l ++ [a]) = (let '(ok, b2) := add_args opts b1 a in if ok then Some b2 else None).
Proof.
  revert b. induction l as [|a' l IH]; intros b Hb; simpl in *.
  - injection Hb as ->. destruct (add_args opts b1 a) as [[|] ?]; reflexivity.
  - destruct (add_args opts b a') as [[|] b']; [exact (IH b' Hb)|discriminate].
Qed.

Lemma data_entries_le_blob rs : zlen (concat rs) <= zlen (blob enc_entry rs).
Proof.
  assert (Hr : forall prev es, zlen es <= zlen (enc_entries enc_entry prev es)).
  { intros prev es. revert prev. induction es as [|e es IH]; intros prev; [reflexivity|].
    cbn [enc_entries]. rewrite zlen_cons, zlen_app. pose proof (enc_entry_pos prev e).
    specialize (IH (Some e)). lia. }
  induction rs as [|r rs IH]; [reflexivity|]. rewrite blob_cons. simpl.
  rewrite !zlen_app. specialize (Hr None r). unfold enc_region. lia.
Qed.

Lemma Add_cnt opts b key value overflow ts expire_ts c large :
  let '(ok, b') := Add opts b key value overflow ts expire_ts c large in
  b_cnt b' = if ok : bool then u16 (b_cnt b + 1) else b_cnt b.
Proof.
  unfold Add. destruct (CalculateDelta _ _ _ _ _ _ _) as [[[? ?] ?] ?].
  destruct (_ <? _); reflexivity.
Qed.

Lemma add_all_cnt_u16 opts b l b' : is_u16 (b_cnt b) ->
  add_all opts b l = Some b' -> b_cnt b' = u16 (b_cnt b + zlen l).
Proof.
  revert b. induction l as [|a l IH]; intros b Hu Hb; simpl in Hb.
  - injection Hb as <-. change (zlen (@nil AddArgs)) with 0. rewrite Z.add_0_r, u16_id by exact Hu. reflexivity.
  - unfold add_args in Hb. pose proof (Add_cnt opts b (a_key a) (a_value a) (a_overflow a) (a_ts a) (a_expire_ts a)
      (a_compression a) (a_large a)) as Hc. destruct (Add opts b _ _ _ _ _ _ _) as [[|] b1]; [|discriminate].
    assert (Hu1 : is_u16 (b_cnt b1)) by (rewrite Hc; apply u16_range).
    rewrite (IH b1 Hu1 Hb), Hc, zlen_cons. unfold u16. rewrite Zplus_mod_idemp_l. f_equal. lia.
Qed.

(** The number of entries of a page does not reach the width of its counter. *)
Lemma add_all_cnt opts l b :
  valid_options opts -> Forall wf_args l -> add_all opts Reset l = Some b -> b_cnt b = zlen l.
Proof.
  intros Hopt Hwf Hb. rewrite (add_all_cnt_u16 opts Reset l b) by (try exact Hb; vm_compute; intuition discriminate).
  destruct (add_all_inv opts l [] [] Reset b Hopt (Reset_inv opts Hopt) Hwf Hb) as (init & lastr & Hinv & Hc & _).
  pose proof (data_entries_le_blob (init ++ [lastr])) as Hle. rewrite Hc in Hle.
  pose proof (inv_size _ _ _ _ Hinv) as Hsz. unfold CurrentSizeEstimate in Hsz.
  rewrite (inv_buffer _ _ _ _ Hinv) in Hsz. rewrite zlen_app in Hsz. simpl concat in Hle. simpl app in Hle.
  unfold zlen in Hle at 1. rewrite length_map in Hle. fold (zlen l) in Hle.
  pose proof (zlen_nonneg data_header). pose proof (zlen_nonneg (b_restarts b)). pose proof (zlen_nonneg l).
  destruct Hopt as [Hps _]. change (b_cnt Reset) with 0. rewrite u16_id by (unfold is_u16; lia). lia.
Qed.

(** Pairs that fit an empty page. *)
Definition fits (opts : KvOptions) (a : AddArgs) : Prop :=
  IsOverflowKV opts (a_key a) (zlen (a_value a)) (a_ts a) (a_expire_ts a) = false.

Lemma fits_Reset opts a :
  valid_options opts -> wf_args a -> fits opts a -> exists b, add_args opts Reset a = (true, b).
Proof.
  intros Hopt [Hts Hex] Hf. unfold add_args.
  pose proof (Add_Reset_iff opts (a_key a) (a_value a) (a_overflow a) (a_ts a) (a_expire_ts a) (a_compression a)
    (a_large a) Hopt Hts Hex) as Hok. unfold fits in Hf. rewrite Hf in Hok.
  destruct (Add opts Reset _ _ _ _ _ _ _) as [ok b]. simpl in Hok. subst ok. eauto.
Qed.

Lemma add_args_reject opts l b a b' :
  valid_options opts -> Forall wf_args l -> wf_args a -> add_all opts Reset l = Some b ->
  add_args opts b a = (false, b') -> fits opts a -> l <> [] /\ b' = b.
Proof.
  intros Hopt Hwf Ha Hb Hadd Hf. split.
  - intros ->. injection Hb as <-. destruct (fits_Reset opts a Hopt Ha Hf) as [b1 Hb1]. congruence.
  - unfold add_args, Add in Hadd. destruct (CalculateDelta _ _ _ _ _ _ _) as [[[? ?] ?] ?].
    destruct (_ <? _); congruence.
Qed.

(** ** Entries of a page fit a page of their own

    Dropping the prefix and the timestamp that an entry shares with its
    predecessor costs at most the size of the predecessor. *)
Lemma Varint64Size_loop_bound n v : 0 <= v -> v < 128 ^ (Z.of_nat n + 1) -> v < 128 ^ (Varint64Size_loop n v 0 + 1).
Proof.
  revert v. induction n as [|n IH]; intros v Hv Hlt; simpl; [exact Hlt|].
  case_if; [|lia]. rewrite Varint64Size_loop_acc, Z.shiftr_div_pow2 by lia. change (2 ^ 7) with 128.
  specialize (IH (v / 128) ltac:(apply Z.div_pos; lia)).
  pose proof (Varint64Size_loop_range n (v / 128)).
  set (k := Varint64Size_loop n (v / 128) 0) in *.
  rewrite Nat2Z.inj_succ, <- Z.add_1_r in Hlt.
  rewrite (Z.pow_add_r 128 (Z.of_nat n + 1) 1) in Hlt by lia.
  match goal with |- _ < 128 ^ ?x => replace x with ((k + 1) + 1) by lia end.
  rewrite (Z.pow_add_r 128 (k + 1) 1) by lia.
  assert (Hd : v / 128 < 128 ^ (Z.of_nat n + 1)) by (apply Z.div_lt_upper_bound; lia).
  specialize (IH Hd). pose proof (Z.div_mod v 128 ltac:(lia)). pose proof (Z.mod_pos_bound v 128 ltac:(lia)). lia.
Qed.

Lemma Varint64Size_bound v : is_u64 v -> v < 128 ^ Varint64Size v.
Proof.
  intros Hv. unfold Varint64Size. rewrite Varint64Size_loop_acc. apply Varint64Size_loop_bound; [width|].
  change (128 ^ (Z.of_nat 9 + 1)) with 1180591620717411303424. width.
Qed.

Lemma Varint64Size_loop_least n v k : 0 <= v -> 0 <= k -> v < 128 ^ (k + 1) -> Varint64Size_loop n v 0 <= k.
Proof.
  revert v k. induction n as [|n IH]; intros v k Hv Hk Hlt; simpl; [exact Hk|].
  case_if; [|exact Hk]. rewrite Varint64Size_loop_acc, Z.shiftr_div_pow2 by lia. change (2 ^ 7) with 128.
  destruct (Z.eq_dec k 0) as [->|Hk0]; [simpl in Hlt; lia|].
  specialize (IH (v / 128) (k - 1) ltac:(apply Z.div_pos; lia) ltac:(lia)).
  enough (v / 128 < 128 ^ (k - 1 + 1)) by lia. rewrite Z.sub_add. apply Z.div_lt_upper_bound; [lia|].
  rewrite Z.pow_add_r in Hlt by lia. lia.
Qed.

Lemma Varint64Size_least v k : 0 <= v -> 1 <= k -> v < 128 ^ k -> Varint64Size v <= k.
Proof.
  intros Hv Hk Hlt. unfold Varint64Size. rewrite Varint64Size_loop_acc.
  pose proof (Varint64Size_loop_least 9 v (k - 1) Hv ltac:(lia) ltac:(rewrite Z.sub_add; exact Hlt)). lia.
Qed.

Lemma Varint64Size_add x y z :
  is_u64 x -> is_u64 y -> 0 <= z <= x + y + 1 -> Varint64Size z <= Varint64Size x + Varint64Size y.
Proof.
  intros Hx Hy Hz. pose proof (Varint64Size_range x) as Hi. pose proof (Varint64Size_range y) as Hj.
  pose proof (Varint64Size_bound x Hx) as Hbx. pose proof (Varint64Size_bound y Hy) as Hby.
  apply Varint64Size_least; [lia|lia|]. rewrite Z.pow_add_r by lia.
  pose proof (Z.pow_le_mono_r 128 1 (Varint64Size x) ltac:(lia) ltac:(lia)) as H1.
  pose proof (Z.pow_le_mono_r 128 1 (Varint64Size y) ltac:(lia) ltac:(lia)) as H2.
  change (128 ^ 1) with 128 in *. nia.
Qed.

Lemma Varint32Size_64 v : is_u32 v -> Varint32Size v = Varint64Size v.
Proof.
  intros Hv. rewrite Varint32Size_length, Varint64Size_length, EncodeVarint32_64 by exact Hv. reflexivity.
Qed.

Lemma EncodeInt64Delta_add d p :
  0 <= d < 2 ^ 63 -> 0 <= p < 2 ^ 63 ->
  EncodeInt64Delta d <= EncodeInt64Delta (d - p) + EncodeInt64Delta p.
Proof. intros Hd Hp. rewrite !EncodeInt64Delta_eq by lia. repeat case_if; lia. Qed.

Lemma enc_entry_alone p e :
  wf_entry p -> wf_entry e -> zlen (enc_entry None e) <= zlen (enc_entry (Some p) e) + zlen (enc_entry None p).
Proof.
  intros Hp He. unfold enc_entry.
  rewrite !zlen_app, <- !Varint32Size_length, <- !Varint64Size_length.
  pose proof (shared_len_range (Some p) (key_ e)) as Hs. pose proof (shared_len_range None (key_ e)) as Hs0.
  pose proof (shared_len_range None (key_ p)) as Hp0. cbn [prev_key] in *. change (zlen (@nil Z)) with 0 in *.
  set (sh := shared_len (Some p) (key_ e)) in *.
  replace (shared_len None (key_ e)) with 0 in * by lia. replace (shared_len None (key_ p)) with 0 in * by lia.
  rewrite !zlen_zdrop by lia. cbn [prev_ts]. rewrite !Z.sub_0_r.
  pose proof (wf_size _ He). pose proof (wf_size _ Hp). pose proof (zlen_nonneg (value_ e)).
  pose proof (zlen_nonneg (value_ p)). pose proof (wf_ts _ He) as Hte. pose proof (wf_ts _ Hp) as Htp.
  rewrite (Varint32Size_64 (zlen (key_ e))), (Varint32Size_64 (zlen (key_ e) - sh)), (Varint32Size_64 sh) by width.
  pose proof (Varint64Size_add (zlen (key_ e) - sh) sh (zlen (key_ e)) ltac:(width) ltac:(width) ltac:(lia)).
  pose proof (EncodeInt64Delta_add _ _ Hte Htp). pose proof (EncodeInt64Delta_range (timestamp_ e)).
  pose proof (Varint64Size_add (EncodeInt64Delta (timestamp_ e - timestamp_ p)) (EncodeInt64Delta (timestamp_ p))
    (EncodeInt64Delta (timestamp_ e)) ltac:(apply EncodeInt64Delta_range) ltac:(apply EncodeInt64Delta_range)
    ltac:(width)).
  pose proof (Varint32Size_range (zlen (key_ p))). pose proof (Varint32Size_range (entry_val_len p)).
  change (Varint32Size 0) with 1. repeat case_if; zlia.
Qed.

Lemma region_entry_alone r prev e :
  Forall wf_entry r -> (forall p, prev = Some p -> wf_entry p) -> e ∈ r ->
  zlen (enc_entry None e) <=
  (match prev with Some p => zlen (enc_entry None p) | None => 0 end) + zlen (enc_entries enc_entry prev r).
Proof.
  intros Hr. revert prev. induction Hr as [|x r Hx Hr IH]; intros prev Hp He; [inversion He|].
  assert (Hhd : zlen (enc_entry None x) <=
    (match prev with Some p => zlen (enc_entry None p) | None => 0 end) + zlen (enc_entry prev x)).
  { destruct prev as [p|]; [|lia]. pose proof (enc_entry_alone p x (Hp p eq_refl) Hx). lia. }
  cbn [enc_entries]. rewrite zlen_app. apply elem_of_cons in He as [->|He]; [zlia|].
  specialize (IH (Some x) ltac:(intros ? [= <-]; exact Hx) He). cbv beta iota in IH. lia.
Qed.

Lemma blob_entry_alone rs e :
  Forall (Forall wf_entry) rs -> e ∈ concat rs -> zlen (enc_entry None e) <= zlen (blob enc_entry rs).
Proof.
  intros Hrs. induction Hrs as [|r rs Hr _ IH]; intros He; simpl in He; [inversion He|].
  rewrite blob_cons, zlen_app. unfold enc_region. apply elem_of_app in He as [He|He].
  - pose proof (region_entry_alone r None e Hr ltac:(discriminate) He) as Ha. cbv beta iota in Ha. zlia.
  - specialize (IH He). zlia.
Qed.

(** An entry of a page as the arguments of a call of [Add]. *)
Definition entry_args (e : Entry) : AddArgs :=
  mkArgs (key_ e) (value_ e) (overflow_ e) (timestamp_ e) (expire_ts_ e) (compression_type_ e) (large_value_ e).

Lemma wf_entry_args e : wf_entry e -> wf_args (entry_args e).
Proof. intros He. pose proof (wf_ts _ He). split; [simpl; width|exact (wf_expire _ He)]. Qed.

Lemma stored_entry_args e : wf_entry e -> stored_entry (entry_args e) = e.
Proof.
  intros He. destruct e as [k v o l c ts x]. pose proof (wf_ts _ He) as Ht. pose proof (wf_large _ He) as Hl.
  unfold stored_entry, added_entry, entry_args. simpl in *. f_equal.
  - destruct l; [symmetry; auto|reflexivity].
  - unfold ClampTimestampToInt64. case_if; lia.
Qed.

Lemma fits_enc opts e :
  wf_entry e -> HeaderSize + 2 * 2 + zlen (enc_entry None e) <= data_page_size opts -> fits opts (entry_args e).
Proof.
  intros He Hsz. unfold fits, IsOverflowKV. cbn [entry_args a_key a_value a_ts a_expire_ts].
  assert (Hv : zlen (value_ e) <= zlen (enc_entry None e)) by (unfold enc_entry; rewrite !zlen_app; zlia).
  rewrite (proj2 (Z.ltb_ge _ _)) by lia.
  pose proof (CalculateDelta_spec None false e He ltac:(simpl; lia)) as HS. cbv zeta in HS.
  cbn [prev_key prev_ts] in HS. pose proof (wf_size _ He). pose proof (zlen_nonneg (key_ e)).
  pose proof (CalculateDelta_flags (key_ e) (zlen (value_ e)) (expire_ts_ e) (overflow_ e) (large_value_ e)
    (compression_type_ e) (timestamp_ e) [] 0 false ltac:(zlia)) as Hf.
  fold (entry_val_len e) in Hf. rewrite HS in Hf. cbn [fst] in Hf.
  destruct (CalculateDelta _ (Z.shiftl _ _) _ _ _ _ _) as [[[size ?] ?] ?]. cbn [fst] in Hf. subst size.
  apply Z.ltb_ge. lia.
Qed.

(** What a finished page holds. *)
Lemma page_entries_fit opts l b :
  valid_options opts -> Forall wf_args l -> add_all opts Reset l = Some b ->
  Forall (fun e => wf_entry e /\ fits opts (entry_args e)) (map stored_entry l).
Proof.
  intros Hopt Hwf Hb.
  destruct (add_all_inv opts l [] [] Reset b Hopt (Reset_inv opts Hopt) Hwf Hb) as (init & lastr & Hinv & Hc & _).
  simpl concat in Hc. simpl app in Hc. rewrite <- Hc. apply list.Forall_forall. intros e He.
  pose proof (inv_wf _ _ _ _ Hinv) as Hw.
  assert (Hwe : wf_entry e).
  { apply list_elem_of_In, in_concat in He as (r & Hr & He). rewrite List.Forall_forall in Hw.
    specialize (Hw r Hr). rewrite List.Forall_forall in Hw. auto. }
  split; [exact Hwe|]. apply fits_enc; [exact Hwe|].
  pose proof (blob_entry_alone _ e Hw He). pose proof (inv_size _ _ _ _ Hinv) as Hsz.
  unfold CurrentSizeEstimate in Hsz. rewrite (inv_buffer _ _ _ _ Hinv), (inv_restarts _ _ _ _ Hinv), zlen_app in Hsz.
  change (zlen data_header) with HeaderSize in Hsz. unfold zlen at 2 in Hsz.
  rewrite region_offsets_length, length_app in Hsz. simpl length in Hsz. lia.
Qed.

(** ** The pages of the result *)
Record Placed := mkPlaced { pl_key : bytes; pl_id : Z; pl_args : list AddArgs }.

(** Consecutive pages: the key of the later one is above every key of the
    earlier one, and the later one is a new page. *)
Fixpoint separated (ps : list Placed) : Prop :=
  match ps with
  | p :: ((q :: _) as ps') =>
      (pl_id q = MaxPageId /\ Forall (fun a => a_key a <k pl_key q) (pl_args p)) /\ separated ps'
  | _ => True
  end.

(** The key of a page is at most every key in it. *)
Definition bounded (p : Placed) : Prop := Forall (fun a => pl_key p <=k a_key a) (pl_args p).

(** The key of a new page is not longer than a key in it. *)
Definition short_key (key : bytes) (p : Placed) : Prop :=
  pl_key p = key \/ exists a, a ∈ pl_args p /\ zlen (pl_key p) <= zlen (a_key a).

Definition placed_args (ps : list Placed) : list AddArgs := concat (map pl_args ps).

(** The first page stands in for the leaf. *)
Definition first_is (key : bytes) (id : Z) (ps : list Placed) : Prop :=
  match ps with p :: _ => pl_key p = key /\ pl_id p = id | [] => False end.

Lemma separated_last ps p p' :
  pl_key p = pl_key p' -> pl_id p = pl_id p' -> separated (ps ++ [p]) -> separated (ps ++ [p']).
Proof.
  intros Hk Hi. induction ps as [|q ps IH]; [reflexivity|]. destruct ps as [|q' ps].
  - simpl. rewrite <- Hk, <- Hi. tauto.
  - simpl in IH |- *. intros [Hq Hs]. exact (conj Hq (IH Hs)).
Qed.

Lemma separated_snoc ps p q :
  pl_id q = MaxPageId -> Forall (fun a => a_key a <k pl_key q) (pl_args p) ->
  separated (ps ++ [p]) -> separated ((ps ++ [p]) ++ [q]).
Proof.
  intros Hi Hf. induction ps as [|x ps IH]; [simpl; auto|]. destruct ps as [|x' ps].
  - simpl. intros [? _]. auto.
  - simpl in IH |- *. intros [Hq Hs]. exact (conj Hq (IH Hs)).
Qed.

Lemma first_is_last key id ps p p' :
  pl_key p = pl_key p' -> pl_id p = pl_id p' -> first_is key id (ps ++ [p]) -> first_is key id (ps ++ [p']).
Proof. intros Hk Hi. destruct ps; simpl; [rewrite Hk, Hi|]; auto. Qed.

Lemma first_is_snoc key id ps q : first_is key id ps -> first_is key id (ps ++ [q]).
Proof. destruct ps; simpl; tauto. Qed.

Lemma placed_args_snoc ps p : placed_args (ps ++ [p]) = placed_args ps ++ pl_args p.
Proof. unfold placed_args. rewrite map_app, concat_app. simpl. rewrite app_nil_r. reflexivity. Qed.

Definition last_key (l : list AddArgs) : bytes := match last_from None l with Some a => a_key a | None => [] end.

Lemma last_key_snoc l a : last_key (l ++ [a]) = a_key a.
Proof. unfold last_key. rewrite last_from_snoc. reflexivity. Qed.

(** The keys of a sorted list are at most its last one. *)
Lemma sorted_last l a : keys_sorted (map a_key l) -> a ∈ l -> a_key a <=k last_key l.
Proof.
  induction l as [|x l IH] using rev_ind; intros Hs Ha; [inversion Ha|].
  rewrite last_key_snoc. rewrite map_app in Hs. simpl in Hs.
  apply elem_of_app in Ha as [Ha|Ha]; [|apply list_elem_of_singleton in Ha as ->; apply key_le_refl].
  apply key_lt_le. apply StronglySorted_app in Hs as (Hx & _).
  apply Hx; [apply list_elem_of_fmap_2, Ha|constructor].
Qed.

Lemma sorted_snoc l a :
  keys_sorted (map a_key l) -> (l = [] \/ last_key l <k a_key a) -> keys_sorted (map a_key (l ++ [a])).
Proof.
  intros Hs Hlt. rewrite map_app. simpl. apply StronglySorted_app. split_and!; [|exact Hs|repeat constructor].
  intros x y Hx Hy. apply list_elem_of_singleton in Hy as ->. apply list_elem_of_fmap in Hx as (b & -> & Hb).
  destruct Hlt as [->|Hlt]; [inversion Hb|].
  eapply key_le_lt_trans; [apply (sorted_last l b Hs Hb)|exact Hlt].
Qed.

Section apply_ok.
  Context {T : Type} `{PageTask T}.
  Context (opts : KvOptions) (now_ms : Z) (page_key : bytes) (page_id : Z).

(** The page a call of [FinishDataPage] gets. *)
Definition page_of (p : Placed) (r : bytes * Z * bytes) : Prop :=
  exists b, add_all opts Reset (pl_args p) = Some b /\ r = (pl_key p, pl_id p, fst (Finish opts b)).

Definition current (s : Apply (T := T)) (cur : list AddArgs) : Placed := mkPlaced (ap_page_key s) (ap_page_id s) cur.

(** The pages that are finished hold [done], the builder holds [cur]. *)
Record apply_inv (s : Apply (T := T)) (done : list Placed) (cur : list AddArgs) : Prop := {
  ai_cur : add_all opts Reset cur = Some (ap_builder s);
  ai_pages : Forall2 page_of done (ap_pages s);
  ai_wf : Forall wf_args (placed_args done ++ cur);
  ai_pos : Forall (fun a => 0 < zlen (a_key a)) (placed_args done ++ cur);
  ai_sorted : keys_sorted (map a_key (placed_args done ++ cur));
  ai_prev : ap_prev_key s = last_key (placed_args done ++ cur);
  ai_sep : separated (done ++ [current s cur]);
  ai_first : first_is page_key page_id (done ++ [current s cur]);
  ai_bounded : Forall bounded (done ++ [current s cur]);
  ai_short : Forall (short_key page_key) (done ++ [current s cur]);
  ai_full : Forall (fun p => pl_args p <> []) done;
  ai_open : done = [] \/ cur <> []
}.

(** A pair that may come next. *)
Record next_ok (done : list Placed) (cur : list AddArgs) (a : AddArgs) : Prop := {
  no_wf : wf_args a;
  no_pos : 0 < zlen (a_key a);
  no_above : placed_args done ++ cur = [] \/ last_key (placed_args done ++ cur) <k a_key a;
  no_bound : page_key <=k a_key a
}.

Lemma cur_below s done cur a c :
  apply_inv s done cur -> next_ok done cur a -> c ∈ placed_args done ++ cur -> a_key c <k a_key a.
Proof using Type.
  intros Hi Hn Hc. destruct (no_above _ _ _ Hn) as [He|Hlt]; [rewrite He in Hc; inversion Hc|].
  eapply key_le_lt_trans; [|exact Hlt]. apply sorted_last; [exact (ai_sorted _ _ _ Hi)|exact Hc].
Qed.

Lemma page_key_le s done cur a :
  apply_inv s done cur -> next_ok done cur a -> ap_page_key s <=k a_key a.
Proof using Type.
  intros Hi Hn. destruct cur as [|c cur].
  - destruct (ai_open _ _ _ Hi) as [->|]; [|congruence].
    destruct (ai_first _ _ _ Hi) as [Hk _]. simpl in Hk. rewrite Hk. exact (no_bound _ _ _ Hn).
  - pose proof (ai_bounded _ _ _ Hi) as Hb. apply Forall_app in Hb as [_ Hb].
    apply Forall_cons_1 in Hb as [Hb _]. apply Forall_cons_1 in Hb as [Hb _]. simpl in Hb.
    apply key_lt_le. eapply key_le_lt_trans; [exact Hb|].
    apply (cur_below s done (c :: cur) a c Hi Hn). apply elem_of_app. right. constructor.
Qed.

(** The pair goes to the current page. *)
Lemma push_current s done cur a b :
  apply_inv s done cur -> next_ok done cur a -> add_args opts (ap_builder s) a = (true, b) ->
  apply_inv (mkApply (ap_task s) (ap_ttl s) b (a_key a) (ap_page_key s) (ap_page_id s) (ap_pages s)) done (cur ++ [a]).
Proof using Type.
  intros Hi Hn Hb. pose proof (page_key_le s done cur a Hi Hn) as Hk. pose proof Hi as Hi0.
  destruct Hi as [Hcur Hpg Hwf Hpos Hs Hp Hsep Hf Hbd Hsh Hfu Ho]. destruct Hn as [Hw Hps Hab Hbn].
  constructor; cbn [ap_builder ap_pages ap_prev_key]; rewrite ?app_assoc; auto.
  - rewrite (add_all_snoc _ _ _ _ _ Hcur), Hb. reflexivity.
  - apply Forall_app_2; auto.
  - apply Forall_app_2; auto.
  - apply sorted_snoc; auto.
  - rewrite last_key_snoc. reflexivity.
  - eapply separated_last; [| |exact Hsep]; reflexivity.
  - eapply first_is_last; [| |exact Hf]; reflexivity.
  - apply Forall_app in Hbd as [Hbd Hc]. apply Forall_app_2; [exact Hbd|]. constructor; [|constructor].
    apply Forall_cons_1 in Hc as [Hc _]. apply Forall_app_2; [exact Hc|]. repeat constructor. exact Hk.
  - apply Forall_app in Hsh as [Hsh Hc]. apply Forall_app_2; [exact Hsh|]. constructor; [|constructor].
    apply Forall_cons_1 in Hc as [[Hc|(c & Hc & Hl)] _]; [left; exact Hc|right]. exists c. split; [apply elem_of_app; auto|exact Hl].
  - right. destruct cur; discriminate.
Qed.

(** The pair starts a new page. *)
Lemma push_new s done cur a b t page :
  apply_inv s done cur -> next_ok done cur a -> cur <> [] -> add_args opts Reset a = (true, b) ->
  page = fst (Finish opts (ap_builder s)) ->
  let sep := FindShortestSeparator (ap_prev_key s) (a_key a) in
  ap_prev_key s <k sep /\ sep <=k a_key a /\ 0 < zlen (ap_prev_key s) /\
  apply_inv (mkApply t (ap_ttl s) b (a_key a) sep MaxPageId (ap_pages s ++ [(ap_page_key s, ap_page_id s, page)]))
    (done ++ [current s cur]) [a].
Proof using Type.
  intros Hi Hn Hne Hb -> sep. destruct (exists_last Hne) as (cur' & c & Hc).
  assert (Hlast : ap_prev_key s = a_key c).
  { rewrite (ai_prev _ _ _ Hi), Hc, app_assoc, last_key_snoc. reflexivity. }
  assert (Hin : c ∈ placed_args done ++ cur).
  { rewrite Hc. apply elem_of_app. right. apply elem_of_app. right. constructor. }
  pose proof (cur_below s done cur a c Hi Hn Hin) as Hlt.
  destruct (separator_between (ap_prev_key s) (a_key a)) as [Hs1 Hs2]; [rewrite Hlast; exact Hlt|].
  split; [exact Hs1|]. split; [exact Hs2|]. pose proof Hi as Hi0.
  destruct Hi as [Hcur Hpg Hwf Hpos Hs Hp Hsep Hf Hbd Hsh Hfu Ho]. destruct Hn as [Hw Hps Hab Hbn].
  split; [rewrite Hlast; rewrite list.Forall_forall in Hpos; exact (Hpos c Hin)|].
  constructor; cbn [ap_builder ap_pages ap_prev_key]; rewrite ?placed_args_snoc; cbn [current pl_args].
  - simpl. rewrite Hb. reflexivity.
  - apply Forall2_app; [exact Hpg|]. constructor; [|constructor]. exists (ap_builder s). auto.
  - apply Forall_app_2; auto.
  - apply Forall_app_2; auto.
  - apply sorted_snoc; auto.
  - rewrite last_key_snoc. reflexivity.
  - apply separated_snoc; [reflexivity| |exact Hsep]. apply list.Forall_forall. intros x Hx. cbn [pl_args current] in Hx.
    eapply key_le_lt_trans; [|exact Hs1]. rewrite Hp. apply sorted_last; [exact Hs|]. apply elem_of_app. auto.
  - apply first_is_snoc, Hf.
  - apply Forall_app_2; [exact Hbd|]. repeat constructor. exact Hs2.
  - apply Forall_app_2; [exact Hsh|]. constructor; [|constructor]. right. exists a. split; [constructor|].
    cbn [pl_key current ap_page_key]. unfold sep, FindShortestSeparator, zlen. rewrite length_take. lia.
  - apply Forall_app_2; [exact Hfu|]. auto.
  - right. discriminate.
Qed.

  Context (Hopts : valid_options opts) `{!PageTaskLaws T opts}.

(** The outside value of a pair, when it has one. *)
Definition out_of (p : AddArgs * bytes) : list Outside :=
  let '(a, v) := p in
  if a_overflow a then [OutOverflow (a_value a) v] else if a_large a then [OutLarge (a_value a) v] else [].

Definition outs (ps : list (AddArgs * bytes)) : list Outside := concat (map out_of ps).

Definition add_next (depth : nat) (s : Apply (T := T)) (a : AddArgs) : option Apply :=
  add_to_page opts now_ms depth s (a_key a) (a_value a) (a_overflow a) (a_ts a) (a_expire_ts a) (a_compression a)
    (a_large a).

(** [a] was added to [s], and [os] are the outside values then. *)
Definition added (s : Apply (T := T)) (done : list Placed) (cur : list AddArgs) (a : AddArgs) (os : list Outside)
    (r : option (Apply (T := T))) : Prop :=
  exists s' done' cur', r = Some s' /\ apply_inv s' done' cur' /\
    placed_args done' ++ cur' = (placed_args done ++ cur) ++ [a] /\ ap_ttl s' = ap_ttl s /\ pt_owns (ap_task s') os.

Lemma FinishCurrent_ok s os :
  pt_owns (ap_task s) os ->
  exists t, pt_owns t os /\
    FinishCurrent opts s = Some (mkApply t (ap_ttl s) (ap_builder s) (ap_prev_key s) (ap_page_key s) (ap_page_id s)
      (ap_pages s ++ [(ap_page_key s, ap_page_id s, fst (Finish opts (ap_builder s)))])).
Proof using Type.
  intros Ho. unfold FinishCurrent.
  destruct (finish_page_ok (ap_task s) os (ap_page_key s) (ap_page_id s) (fst (Finish opts (ap_builder s))) Ho)
    as (t & -> & Ht). exists t. auto.
Qed.

(** A pair that fits an empty page goes to the current page or to a new one. *)
Lemma add_fits depth s done cur a os :
  apply_inv s done cur -> next_ok done cur a -> fits opts a -> Expired now_ms (a_expire_ts a) = false ->
  pt_owns (ap_task s) os -> added s done cur a os (add_next (S depth) s a).
Proof.
  intros Hi Hn Hf Hx Ho. unfold add_next. cbn [add_to_page]. rewrite Hx.
  assert (Hwf : Forall wf_args cur) by (pose proof (ai_wf _ _ _ Hi) as Hw; apply Forall_app in Hw as [_ Hw]; exact Hw).
  fold (add_args opts (ap_builder s) a). destruct (add_args opts (ap_builder s) a) as [[|] b] eqn:Hb.
  - pose proof (page_key_le s done cur a Hi Hn) as Hk. rewrite (proj2 (Z.leb_le _ _) Hk).
    eexists _, done, (cur ++ [a]). split; [reflexivity|].
    split; [exact (push_current s done cur a b Hi Hn Hb)|]. rewrite app_assoc. auto.
  - destruct (add_args_reject opts cur _ a b Hopts Hwf (no_wf _ _ _ Hn) (ai_cur _ _ _ Hi) Hb Hf) as [Hne _].
    unfold fits in Hf. rewrite Hf, andb_false_r.
    destruct (FinishCurrent_ok s os Ho) as (t & Ht & ->). cbn [mbind option_bind ap_prev_key].
    fold (add_args opts Reset a). destruct (fits_Reset opts a Hopts (no_wf _ _ _ Hn) Hf) as [b1 Hb1]. rewrite Hb1.
    destruct (push_new s done cur a b1 t _ Hi Hn Hne Hb1 eq_refl) as (Hs1 & Hs2 & Hs3 & Hnew).
    rewrite (proj2 (Z.ltb_lt _ _) Hs3), (proj2 (Z.ltb_lt _ _) Hs1), (proj2 (Z.leb_le _ _) Hs2). cbn [andb].
    eexists _, _, _. split; [reflexivity|]. split; [exact Hnew|]. rewrite placed_args_snoc. auto.
Qed.

(** The same pair with its value moved out of the page. *)
Definition moved_out (a : AddArgs) (ptrs : bytes) : AddArgs :=
  mkArgs (a_key a) ptrs true (a_ts a) (a_expire_ts a) (a_compression a) false.

Lemma next_ok_same_key done cur a a' :
  next_ok done cur a -> a_key a' = a_key a -> wf_args a' -> next_ok done cur a'.
Proof using Type. intros [_ ? ? ?] Hk Hw. constructor; rewrite ?Hk; auto. Qed.

Lemma with_task_inv s done cur t : apply_inv s done cur -> apply_inv (with_task s t) done cur.
Proof using Type. intros [? ? ? ? ? ? ? ? ? ? ? ?]. constructor; auto. Qed.

Lemma with_ttl_inv s done cur x k op : apply_inv s done cur -> apply_inv (with_ttl s x k op) done cur.
Proof using Type. intros [? ? ? ? ? ? ? ? ? ? ? ?]. constructor; auto. Qed.

(** Any value is added, in the page or outside. *)
Lemma add_value s done cur a os :
  apply_inv s done cur -> next_ok done cur a -> a_overflow a = false -> a_large a = false ->
  (forall ptrs, zlen ptrs <= 4 * overflow_pointers opts -> fits opts (moved_out a ptrs)) ->
  Expired now_ms (a_expire_ts a) = false -> pt_owns (ap_task s) os ->
  exists a', (a' = a \/ exists ptrs, a' = moved_out a ptrs) /\
    added s done cur a' (out_of (a', a_value a) ++ os) (add_next 2 s a).
Proof.
  intros Hi Hn Hov Hla Hfit Hx Ho.
  destruct (IsOverflowKV opts (a_key a) (zlen (a_value a)) (a_ts a) (a_expire_ts a)) eqn:Hf.
  2: { exists a. split; [auto|]. unfold out_of. rewrite Hov, Hla. apply add_fits; auto. }
  assert (Hwf : Forall wf_args cur) by (pose proof (ai_wf _ _ _ Hi) as Hw; apply Forall_app in Hw as [_ Hw]; exact Hw).
  unfold add_next at 1. remember 1%nat as d eqn:Hd. cbn [add_to_page]. rewrite Hx, Hov, Hla.
  destruct (Add opts (ap_builder s) _ _ _ _ _ _ _) as [[|] b] eqn:Hb.
  - exists a. split; [auto|]. rewrite (proj2 (Z.leb_le _ _) (page_key_le s done cur a Hi Hn)).
    eexists _, done, (cur ++ [a]). split; [reflexivity|].
    assert (Hb' : add_args opts (ap_builder s) a = (true, b)) by (unfold add_args; rewrite Hov, Hla; exact Hb).
    split; [exact (push_current s done cur a b Hi Hn Hb')|]. rewrite app_assoc. unfold out_of. rewrite Hov, Hla. auto.
  - cbn [negb andb]. rewrite Hf.
    destruct (write_overflow_ok (ap_task s) os (a_value a) Ho) as (ptrs & t & -> & Hp & Ht).
    cbn [mbind option_bind]. exists (moved_out a ptrs). split; [eauto|].
    change (added (with_task s t) done cur (moved_out a ptrs) (OutOverflow ptrs (a_value a) :: os)
      (add_next d (with_task s t) (moved_out a ptrs))).
    subst d. apply add_fits; auto using with_task_inv.
    apply (next_ok_same_key done cur a); [exact Hn|reflexivity|exact (no_wf _ _ _ Hn)].
Qed.

(** ** States between two rounds of the merge

    The pages hold the pairs [ps]; the task owns their outside values and [R]. *)
Definition live (s : Apply (T := T)) (ps : list (AddArgs * bytes)) (R : list Outside) : Prop :=
  exists done cur, apply_inv s done cur /\ placed_args done ++ cur = map fst ps /\ pt_owns (ap_task s) (outs ps ++ R).

Record may_add (ps : list (AddArgs * bytes)) (a : AddArgs) : Prop := {
  ma_wf : wf_args a;
  ma_pos : 0 < zlen (a_key a);
  ma_above : Forall (fun p => a_key (fst p) <k a_key a) ps;
  ma_bound : page_key <=k a_key a
}.

Lemma may_add_next done cur ps a : placed_args done ++ cur = map fst ps -> may_add ps a -> next_ok done cur a.
Proof using Type.
  intros Hps [? ? Hab ?]. constructor; auto. rewrite Hps. clear Hps.
  destruct ps as [|p ps _] using rev_ind; [auto|right].
  rewrite map_app. simpl. rewrite last_key_snoc. apply Forall_app in Hab as [_ Hab].
  exact (proj1 (Forall_cons_1 _ _ _ Hab)).
Qed.

Lemma outs_snoc ps p R : outs (ps ++ [p]) ++ R = outs ps ++ out_of p ++ R.
Proof using Type. unfold outs. rewrite map_app, concat_app. simpl. rewrite app_nil_r, <- app_assoc. reflexivity. Qed.

Lemma live_added s ps R done cur a v os r :
  placed_args done ++ cur = map fst ps -> os ≡ₚ outs (ps ++ [(a, v)]) ++ R -> added s done cur a os r ->
  exists s', r = Some s' /\ live s' (ps ++ [(a, v)]) R /\ ap_ttl s' = ap_ttl s.
Proof using Type.
  intros Hps Hos (s' & done' & cur' & -> & Hi & Hpl & Httl & Ho).
  exists s'. split; [reflexivity|]. split; [|exact Httl]. exists done', cur'. split; [exact Hi|].
  split; [rewrite Hpl, Hps, map_app; reflexivity|exact (pt_owns_perm _ _ _ Hos Ho)].
Qed.

Lemma live_add_fits d s ps a v R :
  live s ps (out_of (a, v) ++ R) -> may_add ps a -> fits opts a -> Expired now_ms (a_expire_ts a) = false ->
  exists s', add_next (S d) s a = Some s' /\ live s' (ps ++ [(a, v)]) R /\ ap_ttl s' = ap_ttl s.
Proof.
  intros (done & cur & Hi & Hps & Ho) Hm Hf Hx.
  eapply live_added; [exact Hps| |apply add_fits; eauto using may_add_next].
  rewrite outs_snoc. reflexivity.
Qed.

Lemma live_add_value s ps a R :
  live s ps R -> may_add ps a -> a_overflow a = false -> a_large a = false ->
  (forall ptrs, zlen ptrs <= 4 * overflow_pointers opts -> fits opts (moved_out a ptrs)) ->
  Expired now_ms (a_expire_ts a) = false ->
  exists s' a', (a' = a \/ exists ptrs, a' = moved_out a ptrs) /\
    add_next 2 s a = Some s' /\ live s' (ps ++ [(a', a_value a)]) R /\ ap_ttl s' = ap_ttl s.
Proof.
  intros (done & cur & Hi & Hps & Ho) Hm Hov Hla Hfit Hx.
  destruct (add_value s done cur a _ Hi (may_add_next _ _ _ _ Hps Hm) Hov Hla Hfit Hx Ho) as (a' & Ha & Hadd).
  assert (Hos : out_of (a', a_value a) ++ outs ps ++ R ≡ₚ outs (ps ++ [(a', a_value a)]) ++ R).
  { rewrite outs_snoc, app_assoc, (Permutation_app_comm (out_of _)), <- app_assoc. reflexivity. }
  destruct (live_added s ps R done cur a' (a_value a) _ _ Hps Hos Hadd) as (s' & Hs & Hl & Ht).
  exists s', a'. auto.
Qed.

Lemma live_with_task s ps R t R' :
  live s ps R -> pt_owns t (outs ps ++ R') -> live (with_task s t) ps R'.
Proof using Type.
  intros (done & cur & Hi & Hps & _) Ho. exists done, cur. auto using with_task_inv.
Qed.

Lemma live_with_ttl s ps R x k op : live s ps R -> live (with_ttl s x k op) ps R.
Proof using Type.
  intros (done & cur & Hi & Hps & Ho). exists done, cur. auto using with_ttl_inv.
Qed.

Lemma live_owns s ps o R : live s ps (o :: R) -> pt_owns (ap_task s) (o :: outs ps ++ R).
Proof using Type.
  intros (done & cur & _ & _ & Ho). eapply pt_owns_perm; [|exact Ho]. symmetry. apply Permutation_middle.
Qed.

(** Deleting the value of an entry that goes away. *)
Lemma DelValue_ok s ps e v R :
  live s ps (out_of (entry_args e, v) ++ R) ->
  exists t, DelValue s (overflow_ e) (large_value_ e) (value_ e) = Some (with_task s t) /\ live (with_task s t) ps R.
Proof using Type.
  intros Hl. unfold DelValue, out_of in *. cbn [entry_args a_overflow a_large a_value] in Hl.
  destruct (overflow_ e); [|destruct (large_value_ e)].
  - destruct (del_overflow_ok _ _ _ _ (live_owns _ _ _ _ Hl)) as (t & -> & Ht). eauto using live_with_task.
  - destruct (del_large_ok _ _ _ _ (live_owns _ _ _ _ Hl)) as (t & -> & Ht). eauto using live_with_task.
  - exists (ap_task s). destruct s. auto.
Qed.

  Context (enable_compression : bool) (compress_raw : bytes -> option bytes) (dict : option (bytes -> option bytes)).
  Context (old : Entry -> bytes).

  Local Abbreviation add_base := (add_base opts now_ms).
  Local Abbreviation add_change := (add_change opts enable_compression compress_raw dict now_ms).
  Local Abbreviation merge_step := (merge_step opts enable_compression compress_raw dict now_ms).
  Local Abbreviation base_loop := (base_loop opts now_ms).
  Local Abbreviation change_loop := (change_loop opts enable_compression compress_raw dict now_ms).
  Local Abbreviation merge_loop := (merge_loop opts enable_compression compress_raw dict now_ms).

(** ** How an item is stored

    [old e] is the value of an entry of the page that lies outside the page. *)
Definition base_pair (e : Entry) : AddArgs * bytes := (entry_args e, old e).

Definition prepared (w : WriteDataEntry) : bytes * CompressionType :=
  if enable_compression then Prepare compress_raw dict (w_val w) else (w_val w, CompNone).

Definition stored (i : Item) (p : AddArgs * bytes) : Prop :=
  match i with
  | Kept e => p = base_pair e
  | New w =>
      let a := fst p in
      a_key a = w_key w /\ a_ts a = w_ts w /\ a_expire_ts a = w_expire w /\
      match w_large w with
      | Some v => a_overflow a = false /\ a_large a = true /\ a_compression a = CompNone /\ snd p = v
      | None => a_large a = false /\ a_compression a = snd (prepared w) /\ snd p = fst (prepared w) /\
                (a_overflow a = false -> a_value a = fst (prepared w))
      end
  end.

Record base_ok (e : Entry) : Prop := {
  bo_wf : wf_entry e;
  bo_fits : fits opts (entry_args e);
  bo_pos : 0 < zlen (key_ e);
  bo_bound : page_key <=k key_ e
}.

(** The pointers of an overflow value and the content of a large value fit an
    empty page together with the key. *)
Record change_ok (w : WriteDataEntry) : Prop := {
  co_ts : is_u64 (w_ts w);
  co_expire : is_u64 (w_expire w);
  co_pos : 0 < zlen (w_key w);
  co_bound : page_key <=k w_key w;
  co_ptrs n : 0 <= n <= 4 * overflow_pointers opts -> IsOverflowKV opts (w_key w) n (w_ts w) (w_expire w) = false;
  co_large t content t' : pt_write_large t w = Some (content, t') ->
    IsOverflowKV opts (w_key w) (zlen content) (w_ts w) (w_expire w) = false
}.

(** ** TTL updates of a round *)
Definition TtlEvent : Type := Z * bytes * WriteOp.

Definition ttl_all (t : TtlBatch) (evs : list TtlEvent) : TtlBatch :=
  fold_left (fun t ev => let '(x, k, op) := ev in UpdateTTL t x k op) evs t.

Definition kept_ttl (e : Entry) : list TtlEvent :=
  if Expired now_ms (expire_ts_ e) then [(expire_ts_ e, key_ e, Delete)] else [].

Definition insert_ttl (w : WriteDataEntry) : list TtlEvent :=
  match w_op w with
  | Delete => []
  | Upsert => if Expired now_ms (w_expire w) then [] else [(w_expire w, w_key w, Upsert)]
  end.

Definition replace_ttl (e : Entry) (w : WriteDataEntry) : list TtlEvent :=
  let del := (expire_ts_ e, key_ e, Delete) in
  match w_op w with
  | Delete => [del]
  | Upsert => if Expired now_ms (w_expire w) then [del]
              else if expire_ts_ e =? w_expire w then [] else [del; (w_expire w, w_key w, Upsert)]
  end.

(** The outcome of a round: the pairs of [items] are added, [R] is left alone. *)
Definition round (s : Apply (T := T)) (ps : list (AddArgs * bytes)) (R : list Outside) (items : list Item)
    (evs : list TtlEvent) (r : option (Apply (T := T))) : Prop :=
  exists s' ps', r = Some s' /\ live s' (ps ++ ps') R /\ Forall2 stored items ps' /\
    ap_ttl s' = ttl_all (ap_ttl s) evs.

Definition above (ps : list (AddArgs * bytes)) (k : bytes) : Prop := Forall (fun p => a_key (fst p) <k k) ps.

Lemma add_base_ok s ps e R :
  live s ps (out_of (base_pair e) ++ R) -> base_ok e -> above ps (key_ e) ->
  round s ps R (kept_item now_ms e) (kept_ttl e) (add_base s e).
Proof.
  intros Hl [Hwf Hf Hpos Hb] Hab. unfold kept_item, kept_ttl, add_base.
  destruct (Expired now_ms (expire_ts_ e)) eqn:Hx.
  - cbn [add_to_page]. rewrite Hx. destruct (DelValue_ok s ps e (old e) R Hl) as (t & -> & Ht).
    eexists _, []. split; [reflexivity|]. rewrite app_nil_r.
    split; [apply live_with_ttl, Ht|]. split; [constructor|reflexivity].
  - destruct (live_add_fits 1 s ps (entry_args e) (old e) R Hl) as (s' & Hs & Hl' & Ht); auto.
    { constructor; auto using wf_entry_args. }
    exists s', [base_pair e]. split; [exact Hs|]. split; [exact Hl'|]. split; [repeat constructor|exact Ht].
Qed.

Lemma add_change_ok s ps w R :
  live s ps R -> change_ok w -> above ps (w_key w) -> Expired now_ms (w_expire w) = false ->
  round s ps R [New w] [] (add_change s w).
Proof.
  intros Hl [Hts Hex Hpos Hb Hptr Hlg] Hab Hx. unfold add_change, PrepareChange, HasLargeValue.
  destruct (w_large w) as [v|] eqn:Hw.
  - assert (Ho : pt_owns (ap_task s) (outs ps ++ R)) by (destruct Hl as (? & ? & _ & _ & Ho); exact Ho).
    destruct (write_large_ok _ _ w v Ho Hw) as (content & t & Hwr & Ht). rewrite Hwr.
    set (a := mkArgs (w_key w) content false (w_ts w) (w_expire w) CompNone true).
    destruct (live_add_fits 1 (with_task s t) ps a v R) as (s' & Hs & Hl' & Ht'); auto.
    { eapply live_with_task; [exact Hl|]. eapply pt_owns_perm; [|exact Ht]. apply Permutation_middle. }
    { constructor; auto. split; auto. }
    { exact (Hlg _ _ _ Hwr). }
    exists s', [(a, v)]. split; [exact Hs|]. split; [exact Hl'|].
    split; [|exact Ht']. constructor; [|constructor]. simpl. rewrite Hw. auto 10.
  - set (a := mkArgs (w_key w) (fst (prepared w)) false (w_ts w) (w_expire w) (snd (prepared w)) false).
    destruct (live_add_value s ps a R Hl) as (s' & a' & Ha & Hs & Hl' & Ht'); auto.
    { constructor; auto. split; auto. }
    { intros ptrs Hp. apply Hptr. split; [apply zlen_nonneg|exact Hp]. }
    exists s', [(a', fst (prepared w))]. split.
    { rewrite <- Hs. unfold add_next, a, prepared. destruct enable_compression; [|reflexivity].
      destruct (Prepare compress_raw dict (w_val w)). reflexivity. }
    split; [exact Hl'|]. split; [|exact Ht']. constructor; [|constructor]. simpl. rewrite Hw.
    destruct Ha as [->|[ptrs ->]]; simpl; split_and!; auto; discriminate.
Qed.

(** The TTL updates of the whole merge. *)
Fixpoint merge_ttl (base : list Entry) : list WriteDataEntry -> list TtlEvent :=
  fix go (changes : list WriteDataEntry) : list TtlEvent :=
  match base with
  | [] => concat (map insert_ttl changes)
  | e :: base' =>
      match changes with
      | [] => concat (map kept_ttl base)
      | w :: changes' =>
          let cmp_ret := Compare (key_ e) (w_key w) in
          if cmp_ret <? 0 then kept_ttl e ++ merge_ttl base' changes
          else if cmp_ret =? 0 then
            (if timestamp_ e <=? w_ts w then replace_ttl e w else kept_ttl e) ++ merge_ttl base' changes'
          else insert_ttl w ++ go changes'
      end
  end.

Lemma round_bind {A} s ps R items evs r (f : Apply (T := T) -> A) :
  round s ps R items evs r ->
  exists s' ps', (s ← r; Some (f s)) = Some (f s') /\ live s' (ps ++ ps') R /\ Forall2 stored items ps' /\
    ap_ttl s' = ttl_all (ap_ttl s) evs.
Proof using Type. intros (s' & ps' & -> & Hr). exists s', ps'. auto. Qed.

Lemma unless_empty_pos k s f : 0 < zlen k -> unless_empty (T := T) k s f = f s.
Proof using Type. intros Hk. unfold unless_empty. case_if; [lia|reflexivity]. Qed.

Lemma live_perm s ps R R' : R ≡ₚ R' -> live s ps R -> live s ps R'.
Proof using Type.
  intros HR (done & cur & Hi & Hps & Ho). exists done, cur. split; [exact Hi|]. split; [exact Hps|].
  eapply pt_owns_perm; [|exact Ho]. rewrite HR. reflexivity.
Qed.

(** A change whose key the page does not have. *)
Lemma insert_ok s ps w R :
  live s ps R -> change_ok w -> above ps (w_key w) ->
  round s ps R (new_item now_ms w) (insert_ttl w)
    (match w_op w with
     | Upsert => if Expired now_ms (w_expire w) then Some s
                 else add_change (with_ttl s (w_expire w) (w_key w) Upsert) w
     | Delete => Some s
     end).
Proof.
  intros Hl Hc Hab. unfold new_item, insert_ttl.
  destruct (w_op w); [destruct (Expired now_ms (w_expire w)) eqn:Hx|].
  - exists s, []. rewrite app_nil_r. auto.
  - destruct (add_change_ok (with_ttl s (w_expire w) (w_key w) Upsert) ps w R) as (s' & ps' & Hs & Hl' & Hst & Ht);
      auto using live_with_ttl. exists s', ps'. auto.
  - exists s, []. rewrite app_nil_r. auto.
Qed.

(** A change that replaces an entry. *)
Lemma replace_ok s ps e w R :
  live s ps (out_of (base_pair e) ++ R) -> base_ok e -> change_ok w -> above ps (w_key w) ->
  Compare (key_ e) (w_key w) = 0 -> timestamp_ e <= w_ts w ->
  (w_op w = Delete -> w_expire w = 0 \/ w_expire w = expire_ts_ e) ->
  exists s' ps', merge_step s e w = Some (AdvBoth, s') /\ live s' (ps ++ ps') R /\
    Forall2 stored (new_item now_ms w) ps' /\ ap_ttl s' = ttl_all (ap_ttl s) (replace_ttl e w).
Proof.
  intros Hl Hbo Hco Hab Hcmp Hts Hdel. unfold merge_step, new_item, replace_ttl. rewrite Hcmp.
  change (0 <? 0) with false. change (0 =? 0) with true. cbv beta iota.
  rewrite (proj2 (Z.leb_le _ _) Hts).
  destruct (DelValue_ok s ps e (old e) R Hl) as (t & -> & Ht). cbn [mbind option_bind].
  destruct (w_op w); [destruct (Expired now_ms (w_expire w)) eqn:Hx|].
  - eexists _, []. split; [reflexivity|]. rewrite app_nil_r. auto using live_with_ttl.
  - rewrite unless_empty_pos by exact (co_pos _ Hco). apply round_bind.
    destruct (expire_ts_ e =? w_expire w).
    + exact (add_change_ok _ _ _ _ Ht Hco Hab Hx).
    + destruct (add_change_ok (with_ttl (with_ttl (with_task s t) (expire_ts_ e) (key_ e) Delete) (w_expire w) (w_key w)
        Upsert) ps w R) as (s' & ps' & Hs & Hl' & Hst & Httl); auto using live_with_ttl.
      exists s', ps'. auto.
  - replace ((w_expire w =? 0) || (w_expire w =? expire_ts_ e)) with true
      by (symmetry; apply orb_true_iff; rewrite !Z.eqb_eq; auto).
    eexists _, []. split; [reflexivity|]. rewrite app_nil_r. auto using live_with_ttl.
Qed.

Definition base_outs (base : list Entry) : list Outside := outs (map base_pair base).

Lemma above_snoc ps items ps' k :
  above ps k -> Forall2 stored items ps' -> Forall (fun i => item_key i <k k) items -> above (ps ++ ps') k.
Proof using Type.
  intros Hab Hst Hit. apply Forall_app_2; [exact Hab|]. clear Hab.
  induction Hst as [|i p items ps' Hp _ IH]; [constructor|]. apply Forall_cons_1 in Hit as [Hi Hit].
  constructor; [|auto]. destruct i as [e|w]; simpl in Hp, Hi; [subst p; exact Hi|].
  destruct Hp as [-> _]. exact Hi.
Qed.

Lemma round_trans s ps R items evs r items2 evs2 (f : Apply (T := T) -> option (Apply (T := T))) R2 :
  round s ps R items evs r ->
  (forall s' ps', live s' (ps ++ ps') R -> Forall2 stored items ps' -> round s' (ps ++ ps') R2 items2 evs2 (f s')) ->
  round s ps R2 (items ++ items2) (evs ++ evs2) (s ← r; f s).
Proof using Type.
  intros (s1 & ps1 & -> & Hl1 & Hst1 & Ht1) Hf.
  destruct (Hf s1 ps1 Hl1 Hst1) as (s2 & ps2 & Hs2 & Hl2 & Hst2 & Ht2).
  exists s2, (ps1 ++ ps2). rewrite app_assoc. split; [exact Hs2|]. split; [exact Hl2|].
  split; [apply Forall2_app; assumption|]. unfold ttl_all. rewrite fold_left_app. rewrite Ht2, Ht1. reflexivity.
Qed.

(** The keys that are left are above the ones that are done. *)
Definition ahead {A} (f : A -> bytes) (ps : list (AddArgs * bytes)) (l : list A) : Prop :=
  keys_sorted (map f l) /\ Forall (fun x => above ps (f x)) l.

Lemma ahead_step {A} (f : A -> bytes) ps items ps' k l :
  ahead f ps l -> Forall2 stored items ps' -> items = [] \/ (exists i, items = [i] /\ item_key i = k) ->
  (forall x, x ∈ map f l -> k <k x) -> ahead f (ps ++ ps') l.
Proof using Type.
  intros [Hs Hab] Hst Hone Hk. split; [exact Hs|]. rewrite list.Forall_forall in Hab |- *. intros x Hx.
  eapply above_snoc; [exact (Hab x Hx)|exact Hst|]. specialize (Hk (f x) (list_elem_of_fmap_2 f l x Hx)).
  destruct Hone as [->|(i & -> & <-)]; repeat constructor. exact Hk.
Qed.

Lemma ahead_tail {A} (f : A -> bytes) ps x l : ahead f ps (x :: l) -> above ps (f x) /\ ahead f ps l.
Proof using Type.
  intros [Hs Hab]. apply Forall_cons_1 in Hab as [Hx Hab]. split; [exact Hx|].
  split; [exact (sorted_tail _ _ _ Hs)|exact Hab].
Qed.

Lemma base_loop_ok base s ps F :
  Forall base_ok base -> ahead key_ ps base -> live s ps (base_outs base ++ F) ->
  round s ps F (concat (map (kept_item now_ms) base)) (concat (map kept_ttl base)) (base_loop s base).
Proof.
  revert s ps. induction base as [|e base IH]; intros s ps Hok Hah Hl.
  { exists s, []. rewrite app_nil_r. auto. }
  apply Forall_cons_1 in Hok as [He Hok]. destruct (ahead_tail _ _ _ _ Hah) as [Hab Hah'].
  cbn [map concat base_loop].
  eapply round_trans; [apply (add_base_ok s ps e (base_outs base ++ F)); auto|].
  { unfold base_outs, outs in Hl. simpl in Hl. rewrite <- app_assoc in Hl. exact Hl. }
  intros s' ps' Hl' Hst. apply IH; [exact Hok| |exact Hl'].
  eapply ahead_step; [exact Hah'|exact Hst|apply kept_item_one|exact (sorted_lower key_ _ _ (proj1 Hah))].
Qed.

Lemma change_loop_ok changes s ps F :
  Forall change_ok changes -> ahead w_key ps changes -> live s ps F ->
  round s ps F (concat (map (new_item now_ms) changes)) (concat (map insert_ttl changes)) (change_loop s changes).
Proof.
  revert s ps. induction changes as [|w changes IH]; intros s ps Hok Hah Hl.
  { exists s, []. rewrite app_nil_r. auto. }
  apply Forall_cons_1 in Hok as [Hw Hok]. destruct (ahead_tail _ _ _ _ Hah) as [Hab Hah'].
  cbn [map concat change_loop].
  eapply round_trans; [apply (insert_ok s ps w F); auto|].
  intros s' ps' Hl' Hst. apply IH; [exact Hok| |exact Hl'].
  eapply ahead_step; [exact Hah'|exact Hst|apply new_item_one|exact (sorted_lower w_key _ _ (proj1 Hah))].
Qed.

(** A delete names the expiry of the entry or none. *)
Definition deletes_ok (base : list Entry) (changes : list WriteDataEntry) : Prop :=
  forall e w, e ∈ base -> w ∈ changes -> key_ e = w_key w -> w_op w = Delete ->
    w_expire w = 0 \/ w_expire w = expire_ts_ e.

Lemma merge_step_lt s e w :
  0 < zlen (key_ e) -> key_ e <k w_key w ->
  merge_step s e w = (s ← add_base s e; Some (AdvPageIter, s)).
Proof using Type.
  intros Hp Hlt. unfold merge_step. rewrite (proj2 (Z.ltb_lt _ _) Hlt), unless_empty_pos by exact Hp. reflexivity.
Qed.

Lemma merge_step_gt s e w :
  0 < zlen (w_key w) -> w_key w <k key_ e ->
  merge_step s e w =
  (s ← (match w_op w with
        | Upsert => if Expired now_ms (w_expire w) then Some s
                    else add_change (with_ttl s (w_expire w) (w_key w) Upsert) w
        | Delete => Some s
        end); Some (AdvChanges, s)).
Proof using Type.
  intros Hp Hlt. unfold merge_step. unfold key_lt in Hlt. rewrite Compare_opp in Hlt.
  rewrite (proj2 (Z.ltb_ge _ _)), (proj2 (Z.eqb_neq _ _)) by lia.
  destruct (w_op w); [|reflexivity]. destruct (Expired _ _); [reflexivity|].
  rewrite unless_empty_pos by exact Hp. reflexivity.
Qed.

Lemma merge_step_stale s e w :
  0 < zlen (key_ e) -> Compare (key_ e) (w_key w) = 0 -> w_ts w < timestamp_ e ->
  merge_step s e w = (s ← add_base s e; Some (AdvBoth, s)).
Proof using Type.
  intros Hp Hcmp Hts. unfold merge_step. rewrite Hcmp. change (0 <? 0) with false. change (0 =? 0) with true.
  cbv beta iota. rewrite (proj2 (Z.leb_gt _ _) Hts), unless_empty_pos by exact Hp. reflexivity.
Qed.

(** A round with equal keys. *)
Lemma merge_step_both s ps e w R :
  live s ps (out_of (base_pair e) ++ R) -> base_ok e -> change_ok w -> above ps (w_key w) ->
  key_ e = w_key w -> (w_op w = Delete -> w_expire w = 0 \/ w_expire w = expire_ts_ e) ->
  exists s' ps', merge_step s e w = Some (AdvBoth, s') /\ live s' (ps ++ ps') R /\
    Forall2 stored (if timestamp_ e <=? w_ts w then new_item now_ms w else kept_item now_ms e) ps' /\
    ap_ttl s' = ttl_all (ap_ttl s) (if timestamp_ e <=? w_ts w then replace_ttl e w else kept_ttl e).
Proof.
  intros Hl He Hw Hab Hk Hdel. assert (Hcmp : Compare (key_ e) (w_key w) = 0) by (apply Compare_eq, Hk).
  destruct (Z.leb_spec (timestamp_ e) (w_ts w)) as [Hle|Hgt].
  - apply replace_ok; auto.
  - rewrite merge_step_stale by (auto; exact (bo_pos _ He)). apply round_bind.
    apply add_base_ok; auto. rewrite Hk. exact Hab.
Qed.

(** The merge adds the items of the reference, in order. *)
Lemma merge_loop_ok fuel s ps base changes F :
  (length base + length changes <= fuel)%nat ->
  Forall base_ok base -> Forall change_ok changes -> deletes_ok base changes ->
  ahead key_ ps base -> ahead w_key ps changes -> live s ps (base_outs base ++ F) ->
  round s ps F (merge_items now_ms base changes) (merge_ttl base changes) (merge_loop fuel s base changes).
Proof.
  revert s ps base changes. induction fuel as [|fuel IH]; intros s ps base changes Hfuel Hb Hc Hd Hab Hac Hl;
    destruct base as [|e base];
    try (destruct changes; exact (change_loop_ok _ s ps F Hc Hac Hl)); try (simpl in Hfuel; lia);
    destruct changes as [|w changes]; try exact (base_loop_ok (e :: base) s ps F Hb Hab Hl).
  apply Forall_cons_1 in Hb as [He Hb']. apply Forall_cons_1 in Hc as [Hw Hc'].
  destruct (ahead_tail _ _ _ _ Hab) as [Habe Hab']. destruct (ahead_tail _ _ _ _ Hac) as [Hacw Hac'].
  assert (Hl' : live s ps (out_of (base_pair e) ++ (base_outs base ++ F))).
  { unfold base_outs, outs in Hl. simpl in Hl. rewrite <- app_assoc in Hl. exact Hl. }
  cbn [merge_items merge_ttl merge_loop].
  destruct (Z.ltb_spec (Compare (key_ e) (w_key w)) 0) as [Hlt|Hge];
    [|destruct (Z.eqb_spec (Compare (key_ e) (w_key w)) 0) as [Heq|Hne]].
  - rewrite merge_step_lt by (auto; exact (bo_pos _ He)).
    rewrite option_bind_assoc. eapply round_trans; [apply add_base_ok; eauto|].
    intros s' ps' Hl1 Hst. cbn [compose]. apply IH; auto.
    + simpl in Hfuel |- *. lia.
    + intros e' w' ? ?. apply Hd; [constructor; auto|auto].
    + eapply ahead_step; [exact Hab'|exact Hst|apply kept_item_one|exact (sorted_lower key_ _ _ (proj1 Hab))].
    + eapply ahead_step; [exact Hac|exact Hst|apply kept_item_one|].
      intros x Hx. exact (sorted_from w_key w changes _ x (proj1 Hac) Hlt Hx).
  - apply Compare_eq in Heq.
    destruct (merge_step_both s ps e w _ Hl' He Hw Hacw Heq) as (s' & ps' & -> & Hl1 & Hst & Ht).
    { apply (Hd e w); [constructor|constructor|exact Heq]. }
    assert (Hone : forall items, items = (if timestamp_ e <=? w_ts w then new_item now_ms w else kept_item now_ms e) ->
      items = [] \/ (exists i, items = [i] /\ item_key i = key_ e)).
    { intros items ->. destruct (_ <=? _); [rewrite Heq; apply new_item_one|apply kept_item_one]. }
    apply (round_trans s ps (base_outs base ++ F) _ _ (Some s') _ _ (fun s => merge_loop fuel s base changes));
      [exists s', ps'; split; [reflexivity|]; split; [exact Hl1|]; split; [exact Hst|exact Ht]|].
    clear s' ps' Hl1 Hst Ht. intros s' ps' Hl1 Hst. apply IH; auto.
    + simpl in Hfuel. lia.
    + intros e' w' ? ?. apply Hd; constructor; auto.
    + eapply ahead_step; [exact Hab'|exact Hst|exact (Hone _ eq_refl)|exact (sorted_lower key_ _ _ (proj1 Hab))].
    + eapply ahead_step; [exact Hac'|exact Hst|exact (Hone _ eq_refl)|].
      rewrite Heq. exact (sorted_lower w_key _ _ (proj1 Hac)).
  - assert (Hgt : w_key w <k key_ e) by (unfold key_lt; rewrite Compare_opp; lia).
    rewrite merge_step_gt by (auto; exact (co_pos _ Hw)).
    rewrite option_bind_assoc. eapply round_trans; [apply (insert_ok s ps w (base_outs (e :: base) ++ F)); auto|].
    intros s' ps' Hl1 Hst. cbn [compose]. apply IH; auto.
    + simpl in Hfuel |- *. lia.
    + intros e' w' ? ?. apply Hd; [auto|constructor; auto].
    + eapply ahead_step; [exact Hab|exact Hst|apply new_item_one|].
      intros x Hx. exact (sorted_from key_ e base _ x (proj1 Hab) Hgt Hx).
    + eapply ahead_step; [exact Hac'|exact Hst|apply new_item_one|exact (sorted_lower w_key _ _ (proj1 Hac))].
Qed.

  Local Abbreviation ApplyOnePage := (ApplyOnePage opts enable_compression compress_raw dict now_ms).

Lemma start_live t ttl F : pt_owns t F -> live (mkApply t ttl Reset [] page_key page_id []) [] F.
Proof using Type.
  intros Ho. exists [], []. split; [|split; [reflexivity|exact Ho]].
  constructor; simpl; auto; repeat constructor.
Qed.

(** The pages of the merge: what each call of [FinishDataPage] got, in order. *)
Record pages_hold (pages : list Placed) (calls : list (bytes * Z * bytes)) (ps : list (AddArgs * bytes)) : Prop := {
  ph_pages : Forall2 page_of pages calls;
  ph_args : placed_args pages = map fst ps;
  ph_first : pages = [] \/ first_is page_key page_id pages;
  ph_separated : separated pages;
  ph_bounded : Forall bounded pages;
  ph_short : Forall (short_key page_key) pages;
  ph_full : Forall (fun p => pl_args p <> []) pages;
  ph_wf : Forall wf_args (placed_args pages);
  ph_sorted : keys_sorted (map a_key (placed_args pages))
}.

(** The last page is finished, unless nothing is left. *)
Lemma finish_ok s ps F :
  live s ps F ->
  exists s' pages,
    (if b_cnt (ap_builder s) =? 0 then Some (s, true) else s ← FinishCurrent opts s; Some (s, false)) =
      Some (s', is_nil ps) /\
    pages_hold pages (ap_pages s') ps /\ pt_owns (ap_task s') (outs ps ++ F) /\ ap_ttl s' = ap_ttl s /\
    (ps = [] -> ap_page_key s' = page_key /\ ap_page_id s' = page_id).
Proof.
  intros (done & cur & Hi & Hps & Ho).
  assert (Hwf : Forall wf_args cur) by (pose proof (ai_wf _ _ _ Hi) as Hw; apply Forall_app in Hw as [_ Hw]; exact Hw).
  rewrite (add_all_cnt opts cur _ Hopts Hwf (ai_cur _ _ _ Hi)). destruct cur as [|c cur].
  - change (zlen (@nil AddArgs) =? 0) with true. cbv iota.
    destruct (ai_open _ _ _ Hi) as [->|]; [|congruence]. simpl in Hps. destruct ps; [|discriminate].
    exists s, []. split; [reflexivity|]. split; [|split; [exact Ho|split; [reflexivity|intros _; exact (ai_first _ _ _ Hi)]]].
    constructor; simpl; auto; [exact (ai_pages _ _ _ Hi)|constructor].
  - rewrite (proj2 (Z.eqb_neq _ _)) by (rewrite zlen_cons; zlia).
    destruct (FinishCurrent_ok s _ Ho) as (t & Ht & ->). cbn [mbind option_bind].
    eexists _, (done ++ [current s (c :: cur)]). split.
    { destruct ps; [|reflexivity]. apply app_eq_nil in Hps as [_ ?]. discriminate. }
    split; [|split; [exact Ht|split; [reflexivity|intros ->; apply app_eq_nil in Hps as [_ ?]; discriminate]]].
    constructor; cbn [ap_pages]; rewrite ?placed_args_snoc.
    + apply Forall2_app; [exact (ai_pages _ _ _ Hi)|]. repeat constructor. exists (ap_builder s).
      split; [exact (ai_cur _ _ _ Hi)|reflexivity].
    + exact Hps.
    + right. exact (ai_first _ _ _ Hi).
    + exact (ai_sep _ _ _ Hi).
    + exact (ai_bounded _ _ _ Hi).
    + exact (ai_short _ _ _ Hi).
    + apply Forall_app_2; [exact (ai_full _ _ _ Hi)|]. repeat constructor. discriminate.
    + exact (ai_wf _ _ _ Hi).
    + exact (ai_sorted _ _ _ Hi).
Qed.

Lemma ApplyOnePage_ok t ttl base right_bound batch F :
  let changes := page_changes right_bound batch in
  Forall base_ok base -> Forall change_ok changes -> deletes_ok base changes ->
  keys_sorted (map key_ base) -> keys_sorted (map w_key changes) -> pt_owns t (base_outs base ++ F) ->
  exists s' ps pages,
    ApplyOnePage t ttl page_key page_id base right_bound batch =
      Some (s', is_nil (merge_items now_ms base changes), zlen changes) /\
    Forall2 stored (merge_items now_ms base changes) ps /\ pages_hold pages (ap_pages s') ps /\
    pt_owns (ap_task s') (outs ps ++ F) /\ ap_ttl s' = ttl_all ttl (merge_ttl base changes) /\
    (ps = [] -> ap_page_key s' = page_key /\ ap_page_id s' = page_id).
Proof.
  intros changes Hb Hc Hd Hsb Hsc Ho. unfold ApplyOnePage. fold changes.
  destruct (merge_loop_ok (length base + length changes) (mkApply t ttl Reset [] page_key page_id []) [] base changes F)
    as (s & ps & -> & Hl & Hst & Ht); auto using start_live.
  { split; [exact Hsb|]. apply list.Forall_forall. constructor. }
  { split; [exact Hsc|]. apply list.Forall_forall. constructor. }
  cbn [mbind option_bind]. destruct (finish_ok s ps F Hl) as (s' & pages & Hfin & Hph & Ho' & Ht' & Hkey).
  assert (Hnil : is_nil ps = is_nil (merge_items now_ms base changes)) by (destruct Hst; reflexivity).
  exists s', ps, pages. rewrite <- Hnil, Ht', Ht. split; [|auto].
  destruct (b_cnt (ap_builder s) =? 0); [injection Hfin as <- <-; reflexivity|].
  destruct (FinishCurrent opts s) as [s1|]; [|discriminate]. injection Hfin as <- <-. reflexivity.
Qed.
End apply_ok.

(** ** The TTL index

    The TTL tree holds one key per entry that expires.  [ttl_set] is the effect
    of a batch of updates on its keys. *)
Definition ttl_set (S : gset bytes) (batch : list WriteDataEntry) : gset bytes :=
  fold_left (fun S w => match w_op w with Upsert => {[w_key w]} ∪ S | Delete => S ∖ {[w_key w]} end) batch S.

Definition ttl_entry (x : Z) (k : bytes) : gset bytes := if x =? 0 then ∅ else {[ttl_key x k]}.

Definition item_expire (i : Item) : Z := match i with Kept e => expire_ts_ e | New w => w_expire w end.

Definition ttl_index {A} (x : A -> Z) (k : A -> bytes) (l : list A) : gset bytes :=
  ⋃ map (fun a => ttl_entry (x a) (k a)) l.

Abbreviation base_index := (ttl_index expire_ts_ key_).
Abbreviation item_index := (ttl_index item_expire item_key).

Definition event_writes (evs : list TtlEvent) : list WriteDataEntry :=
  concat (map (fun ev => let '(x, k, op) := ev in
    if x =? 0 then [] else [mkWrite (ttl_key x k) [] None 0 op 0]) evs).

(** A key that has no TTL entry. *)
Definition fresh (k : bytes) (S : gset bytes) : Prop := forall x, is_u64 x -> ttl_key x k ∉ S.

Lemma ttl_key_inj x x' k k' : is_u64 x -> is_u64 x' -> ttl_key x k = ttl_key x' k' -> x = x' /\ k = k'.
Proof.
  intros Hx Hx' Heq. unfold ttl_key in Heq. rewrite !ToBigEndian64_bytes in Heq.
  apply app_inj_1 in Heq as [Hrev Hk]; [|rewrite !length_rev, !EncodeFixed64_length; reflexivity].
  split; [|exact Hk]. apply (f_equal (@rev Z)) in Hrev. rewrite !rev_involutive in Hrev.
  pose proof (fixed64_app x [] Hx) as H1. pose proof (fixed64_app x' [] Hx') as H2. rewrite Hrev in H1. congruence.
Qed.

Lemma fresh_entry k x k' : is_u64 x -> k <> k' -> fresh k (ttl_entry x k').
Proof.
  intros Hx Hk y Hy. unfold ttl_entry. case_if; [set_solver|].
  rewrite elem_of_singleton. intros Heq. apply ttl_key_inj in Heq; tauto.
Qed.

Lemma fresh_union k S S' : fresh k S -> fresh k S' -> fresh k (S ∪ S').
Proof. intros H1 H2 x Hx. specialize (H1 x Hx). specialize (H2 x Hx). set_solver. Qed.

Lemma fresh_index {A} (x : A -> Z) (f : A -> bytes) k l :
  Forall (fun a => is_u64 (x a)) l -> k ∉ map f l -> fresh k (ttl_index x f l).
Proof.
  intros Hu. induction Hu as [|a l Ha _ IH]; intros Hk; unfold ttl_index; simpl; [intros y _; set_solver|].
  simpl in Hk. apply not_elem_of_cons in Hk as [Hne Hk]. apply fresh_union; [apply fresh_entry; auto|exact (IH Hk)].
Qed.

Lemma ttl_index_cons {A} (x : A -> Z) (f : A -> bytes) a l :
  ttl_index x f (a :: l) = ttl_entry (x a) (f a) ∪ ttl_index x f l.
Proof. reflexivity. Qed.

Lemma item_index_app l l' : item_index (l ++ l') = item_index l ∪ item_index l'.
Proof. unfold ttl_index. rewrite map_app, union_list_app_L. reflexivity. Qed.

Lemma event_writes_app l l' : event_writes (l ++ l') = event_writes l ++ event_writes l'.
Proof. unfold event_writes. rewrite map_app, concat_app. reflexivity. Qed.

Lemma event_writes_two a b : event_writes [a; b] = event_writes [a] ++ event_writes [b].
Proof. exact (event_writes_app [a] [b]). Qed.

Lemma ttl_set_app S l l' : ttl_set S (l ++ l') = ttl_set (ttl_set S l) l'.
Proof. apply fold_left_app. Qed.

Lemma ttl_all_batch t evs :
  do_update_ttl_ t = true -> ttl_batch_ (ttl_all t evs) = ttl_batch_ t ++ event_writes evs.
Proof.
  intros Hup. enough (do_update_ttl_ (ttl_all t evs) = true /\
    ttl_batch_ (ttl_all t evs) = ttl_batch_ t ++ event_writes evs) by tauto.
  revert t Hup. induction evs as [|[[x k] op] evs IH]; intros t Hup; unfold ttl_all; simpl.
  { rewrite app_nil_r. auto. }
  fold (ttl_all (UpdateTTL t x k op) evs). unfold event_writes. cbn [map concat]. fold (event_writes evs).
  unfold UpdateTTL. rewrite Hup. cbn [andb]. destruct (x =? 0); cbn [negb]; [exact (IH t Hup)|].
  match goal with |- context [ttl_all ?t1 evs] => destruct (IH t1 eq_refl) as [-> ->] end.
  cbn [ttl_batch_]. rewrite <- app_assoc. auto.
Qed.

(** One update. *)
Lemma ttl_delete x k X :
  is_u64 x -> fresh k X -> ttl_set (ttl_entry x k ∪ X) (event_writes [(x, k, Delete)]) = X.
Proof.
  intros Hx Hf. specialize (Hf x Hx). unfold event_writes, ttl_entry, ttl_set. simpl.
  destruct (x =? 0); simpl; set_solver.
Qed.

Lemma ttl_upsert x k X : ttl_set X (event_writes [(x, k, Upsert)]) = ttl_entry x k ∪ X.
Proof. unfold event_writes, ttl_entry, ttl_set. simpl. destruct (x =? 0); simpl; set_solver. Qed.

(** A round of the merge, on the TTL index: the entry [D] of the page becomes
    the entry of what the round keeps. *)
Record ttl_round (k : bytes) (D : gset bytes) (items : list Item) (evs : list TtlEvent) : Prop := {
  tr_set X : fresh k X -> ttl_set (D ∪ X) (event_writes evs) = item_index items ∪ X;
  tr_nodup : NoDup (map w_key (event_writes evs));
  tr_events : Forall (fun ev => is_u64 (fst (fst ev)) /\ snd (fst ev) = k) evs;
  tr_items : Forall (fun i => is_u64 (item_expire i) /\ item_key i = k) items
}.

Lemma NoDup_one_event x k op : NoDup (map w_key (event_writes [(x, k, op)])).
Proof. unfold event_writes. simpl. destruct (x =? 0); repeat constructor; set_solver. Qed.

Lemma ttl_set_nil S : ttl_set S (event_writes []) = S.
Proof. reflexivity. Qed.

Lemma item_index_nil : item_index [] = ∅.
Proof. reflexivity. Qed.

Lemma item_index_one i : item_index [i] = ttl_entry (item_expire i) (item_key i).
Proof. unfold ttl_index. simpl. apply (right_id_L ∅ (∪)). Qed.

Lemma NoDup_no_event : NoDup (map w_key (event_writes [])).
Proof. simpl. constructor. Qed.

Ltac ttl_round_parts :=
  constructor; [intros X Hf|try first [apply NoDup_one_event|apply NoDup_no_event]
               |repeat first [apply List.Forall_nil|apply List.Forall_cons; [split; [assumption|auto]|]]..].

Lemma kept_ttl_round now_ms e :
  is_u64 (expire_ts_ e) ->
  ttl_round (key_ e) (ttl_entry (expire_ts_ e) (key_ e)) (kept_item now_ms e) (kept_ttl now_ms e).
Proof.
  intros Hx. unfold kept_item, kept_ttl. destruct (Expired now_ms (expire_ts_ e)); ttl_round_parts.
  - rewrite ttl_delete, item_index_nil by assumption. set_solver.
  - rewrite ttl_set_nil, item_index_one. reflexivity.
Qed.

Lemma insert_ttl_round now_ms w :
  is_u64 (w_expire w) -> ttl_round (w_key w) ∅ (new_item now_ms w) (insert_ttl now_ms w).
Proof.
  intros Hx. unfold new_item, insert_ttl.
  destruct (w_op w); [destruct (Expired now_ms (w_expire w))|]; ttl_round_parts.
  - rewrite ttl_set_nil, item_index_nil. reflexivity.
  - rewrite (left_id_L ∅ (∪)), ttl_upsert, item_index_one. reflexivity.
  - rewrite ttl_set_nil, item_index_nil. reflexivity.
Qed.

Lemma replace_ttl_round now_ms e w :
  is_u64 (expire_ts_ e) -> is_u64 (w_expire w) -> key_ e = w_key w ->
  ttl_round (key_ e) (ttl_entry (expire_ts_ e) (key_ e)) (new_item now_ms w) (replace_ttl now_ms e w).
Proof.
  intros Hx Hxw Hk. unfold new_item, replace_ttl.
  destruct (w_op w);
    [destruct (Expired now_ms (w_expire w)); [|destruct (Z.eqb_spec (expire_ts_ e) (w_expire w)) as [Heq|Hne]]|];
    ttl_round_parts.
  - rewrite ttl_delete, item_index_nil by assumption. set_solver.
  - rewrite ttl_set_nil, item_index_one. simpl. rewrite Heq, Hk. reflexivity.
  - rewrite event_writes_two, ttl_set_app, ttl_delete by assumption. rewrite ttl_upsert, item_index_one. reflexivity.
  - rewrite event_writes_two, map_app. apply list.NoDup_app.
    split; [apply NoDup_one_event|]. split; [|apply NoDup_one_event].
    unfold event_writes. simpl. intros y. destruct (_ =? 0), (_ =? 0); simpl; rewrite ?elem_of_nil, ?list_elem_of_singleton;
      try tauto. intros -> Heq. apply ttl_key_inj in Heq; tauto.
  - rewrite ttl_delete, item_index_nil by assumption. set_solver.
Qed.

Record ttl_merge (base : list Entry) (changes : list WriteDataEntry) (items : list Item) (evs : list TtlEvent) : Prop := {
  tm_set G : (forall k, k ∈ map key_ base \/ k ∈ map w_key changes -> fresh k G) ->
    ttl_set (base_index base ∪ G) (event_writes evs) = item_index items ∪ G;
  tm_nodup : NoDup (map w_key (event_writes evs));
  tm_events : Forall (fun ev => is_u64 (fst (fst ev)) /\
    (snd (fst ev) ∈ map key_ base \/ snd (fst ev) ∈ map w_key changes)) evs
}.

Lemma event_writes_key evs y :
  y ∈ map w_key (event_writes evs) -> exists ev, ev ∈ evs /\ y = ttl_key (fst (fst ev)) (snd (fst ev)).
Proof.
  induction evs as [|[[x k] op] evs IH]; simpl; [intros Hy; inversion Hy|].
  unfold event_writes. cbn [map concat]. fold (event_writes evs). rewrite map_app, elem_of_app.
  intros [Hy|Hy]; [|destruct (IH Hy) as (ev & ? & ?); exists ev; split; [constructor|]; auto].
  destruct (x =? 0); simpl in Hy; [inversion Hy|]. apply list_elem_of_singleton in Hy as ->.
  exists (x, k, op). split; [constructor|reflexivity].
Qed.

Lemma ttl_merge_cons base changes base' changes' k D ritems items revs evs :
  ttl_merge base' changes' items evs -> ttl_round k D ritems revs ->
  base_index base = D ∪ base_index base' -> fresh k (base_index base') ->
  k ∈ map key_ base \/ k ∈ map w_key changes ->
  (forall y, y ∈ map key_ base' -> y ∈ map key_ base) -> (forall y, y ∈ map w_key changes' -> y ∈ map w_key changes) ->
  (forall y, y ∈ map key_ base' \/ y ∈ map w_key changes' -> k <k y) ->
  ttl_merge base changes (ritems ++ items) (revs ++ evs).
Proof.
  intros [Hset Hnd Hev] [Hrset Hrnd Hrev Hrit] HD Hfr Hk Hb Hc Hlt.
  assert (Hne : forall y, y ∈ map key_ base' \/ y ∈ map w_key changes' -> y <> k)
    by (intros y Hy ->; exact (key_lt_irrefl _ (Hlt k Hy))).
  constructor.
  - intros G HG. rewrite event_writes_app, ttl_set_app, HD, <- (assoc_L (∪)).
    rewrite Hrset by (apply fresh_union; [exact Hfr|exact (HG k Hk)]).
    rewrite (assoc_L (∪)), (comm_L (∪) (item_index ritems)), <- (assoc_L (∪)).
    rewrite Hset, item_index_app;
      [rewrite (assoc_L (∪)), (comm_L (∪) (item_index items)); reflexivity|]. intros y Hy. apply fresh_union.
    + apply fresh_index; [eapply Forall_impl; [|exact Hrit]; cbv beta; tauto|].
      intros Hin. apply list_elem_of_fmap in Hin as (i & -> & Hi). rewrite list.Forall_forall in Hrit.
      destruct (Hrit i Hi) as [_ Hik]. exact (Hne _ Hy Hik).
    + apply HG. destruct Hy; auto.
  - rewrite event_writes_app, map_app. apply list.NoDup_app. split; [exact Hrnd|]. split; [|exact Hnd].
    intros y Hy1 Hy2. apply event_writes_key in Hy1 as (ev1 & Hi1 & ->), Hy2 as (ev2 & Hi2 & Heq).
    rewrite list.Forall_forall in Hev, Hrev. destruct (Hrev _ Hi1) as [Hu1 Hk1], (Hev _ Hi2) as [Hu2 Hk2].
    apply ttl_key_inj in Heq as [_ Heq]; [|assumption..]. apply (Hne _ Hk2). congruence.
  - apply Forall_app_2.
    + eapply Forall_impl; [|exact Hrev]. cbv beta. intros ev [? ->]. auto.
    + eapply Forall_impl; [|exact Hev]. cbv beta. intros ev [? [?|?]]; auto.
Qed.

Lemma ttl_merge_nil : ttl_merge [] [] [] [].
Proof. constructor; [reflexivity|apply NoDup_no_event|constructor]. Qed.

Lemma sorted_fresh e base :
  keys_sorted (map key_ (e :: base)) -> Forall (fun e => is_u64 (expire_ts_ e)) base -> fresh (key_ e) (base_index base).
Proof.
  intros Hs Hu. apply fresh_index; [exact Hu|]. intros Hin.
  exact (key_lt_irrefl _ (sorted_lower key_ _ _ Hs _ Hin)).
Qed.

Lemma elem_map_cons {A} (f : A -> bytes) x l y : y ∈ map f l -> y ∈ map f (x :: l).
Proof. intros. constructor. assumption. Qed.

Lemma elem_map_head {A} (f : A -> bytes) x l : f x ∈ map f (x :: l).
Proof. constructor. Qed.

#[local] Hint Resolve elem_map_cons elem_map_head : eloq.

Lemma ttl_merge_base now_ms base :
  keys_sorted (map key_ base) -> Forall (fun e => is_u64 (expire_ts_ e)) base ->
  ttl_merge base [] (concat (map (kept_item now_ms) base)) (concat (map (kept_ttl now_ms) base)).
Proof.
  intros Hs Hu. induction Hu as [|e base He Hu IH]; [apply ttl_merge_nil|]. cbn [map concat].
  eapply (ttl_merge_cons _ _ base []); [exact (IH (sorted_tail _ _ _ Hs))|exact (kept_ttl_round now_ms e He)
    |reflexivity|exact (sorted_fresh e base Hs Hu)|left; apply elem_map_head|apply elem_map_cons|auto|].
  intros y [Hy|Hy]; [exact (sorted_lower key_ _ _ Hs y Hy)|inversion Hy].
Qed.

Lemma ttl_merge_changes now_ms changes :
  keys_sorted (map w_key changes) -> Forall (fun w => is_u64 (w_expire w)) changes ->
  ttl_merge [] changes (concat (map (new_item now_ms) changes)) (concat (map (insert_ttl now_ms) changes)).
Proof.
  intros Hs Hu. induction Hu as [|w changes Hw Hu IH]; [apply ttl_merge_nil|]. cbn [map concat].
  eapply (ttl_merge_cons _ _ [] changes); [exact (IH (sorted_tail _ _ _ Hs))|exact (insert_ttl_round now_ms w Hw)
    |reflexivity|intros x _; apply not_elem_of_empty|right; apply elem_map_head|auto|apply elem_map_cons|].
  intros y [Hy|Hy]; [inversion Hy|exact (sorted_lower w_key _ _ Hs y Hy)].
Qed.

(** The merge keeps the TTL index in step with the page. *)
Lemma ttl_merge_ok now_ms base changes :
  keys_sorted (map key_ base) -> keys_sorted (map w_key changes) ->
  Forall (fun e => is_u64 (expire_ts_ e)) base -> Forall (fun w => is_u64 (w_expire w)) changes ->
  ttl_merge base changes (merge_items now_ms base changes) (merge_ttl now_ms base changes).
Proof.
  intros Hb Hc Hub. revert changes Hc. induction Hub as [|e base He Hub IHb]; intros changes Hc Huc.
  { destruct changes; apply ttl_merge_changes; assumption. }
  induction Huc as [|w changes Hw Huc IHc]; [apply (ttl_merge_base now_ms (e :: base)); auto|].
  specialize (IHb (sorted_tail _ _ _ Hb)). pose proof (sorted_fresh e base Hb Hub) as Hfr.
  cbn [merge_items merge_ttl].
  destruct (Z.ltb_spec (Compare (key_ e) (w_key w)) 0) as [Hlt|Hge];
    [|destruct (Z.eqb_spec (Compare (key_ e) (w_key w)) 0) as [Heq|Hne]].
  - eapply ttl_merge_cons; [apply IHb; auto|exact (kept_ttl_round now_ms e He)|reflexivity|exact Hfr
      |auto with eloq|auto with eloq|auto|].
    intros y [Hy|Hy]; [exact (sorted_lower key_ _ _ Hb y Hy)|exact (sorted_from w_key w changes _ y Hc Hlt Hy)].
  - apply Compare_eq in Heq.
    eapply (ttl_merge_cons _ _ base changes (key_ e) (ttl_entry (expire_ts_ e) (key_ e)));
      [apply IHb; eauto using sorted_tail| |reflexivity|exact Hfr|auto with eloq|auto with eloq|auto with eloq|].
    + destruct (timestamp_ e <=? w_ts w); [apply replace_ttl_round|apply kept_ttl_round]; auto.
    + intros y [Hy|Hy]; [exact (sorted_lower key_ _ _ Hb y Hy)|].
      rewrite Heq. exact (sorted_lower w_key _ _ Hc y Hy).
  - assert (Hgt : w_key w <k key_ e) by (unfold key_lt; rewrite Compare_opp; lia).
    eapply (ttl_merge_cons _ _ (e :: base) changes);
      [apply IHc; eauto using sorted_tail|exact (insert_ttl_round now_ms w Hw)
      |symmetry; apply (left_id_L ∅ (∪))| |auto with eloq|auto|auto with eloq|].
    + apply fresh_index; [constructor; auto|]. intros Hin.
      exact (key_lt_irrefl _ (sorted_from key_ e base _ _ Hb Hgt Hin)).
    + intros y [Hy|Hy]; [exact (sorted_from key_ e base _ y Hb Hgt Hy)|exact (sorted_lower w_key _ _ Hc y Hy)].
Qed.

(** ** Inputs of the merge *)

(** A leaf that a builder produced, with sorted keys from [page_key] on. *)
Record leaf_ok (opts : KvOptions) (page_key : bytes) (base : list Entry) : Prop := {
  lf_page : exists l b, Forall wf_args l /\ add_all opts Reset l = Some b /\ base = map stored_entry l;
  lf_sorted : keys_sorted (map key_ base);
  lf_keys : Forall (fun e => 0 < zlen (key_ e) /\ page_key <=k key_ e) base
}.

(** A key leaves room for the pointers of an overflow value: besides the header
    a page holds at most five bytes for each of three lengths and ten for each
    timestamp. *)
Definition key_fits (opts : KvOptions) (key : bytes) : Prop :=
  HeaderSize + 2 * 2 + (5 + 5 + 5 + 10 + 10) + zlen key + 4 * overflow_pointers opts <= data_page_size opts.

Record batch_ok {T} `{PageTask T} (opts : KvOptions) (page_key : bytes) (base : list Entry)
    (changes : list WriteDataEntry) : Prop := {
  bk_sorted : keys_sorted (map w_key changes);
  bk_width : Forall (fun w => is_u64 (w_ts w) /\ is_u64 (w_expire w)) changes;
  bk_keys : Forall (fun w => 0 < zlen (w_key w) /\ page_key <=k w_key w /\ key_fits opts (w_key w)) changes;
  bk_large : forall w t content t', w ∈ changes -> pt_write_large t w = Some (content, t') ->
    IsOverflowKV opts (w_key w) (zlen content) (w_ts w) (w_expire w) = false;
  bk_deletes : deletes_ok base changes
}.

Lemma CalculateDelta_upper key n ts expire_ts :
  0 <= n ->
  fst (fst (fst (CalculateDelta key (Z.shiftl n ValLenBit_BitsCount) ts expire_ts [] 0 false))) <=
  5 + 5 + 5 + 10 + 10 + zlen key + n.
Proof.
  intros Hn. unfold CalculateDelta. cbn [fst].
  replace (Z.shiftr (Z.shiftl n ValLenBit_BitsCount) ValLenBit_BitsCount) with n
    by (rewrite Z.shiftr_shiftl_l by (unfold ValLenBit_BitsCount; lia); rewrite Z.sub_diag; symmetry; apply Z.shiftl_0_r).
  change (Z.of_nat (common_prefix [] key)) with 0.
  pose proof (Varint32Size_range (u32 0)). pose proof (Varint32Size_range (u32 (zlen key - 0))).
  pose proof (Varint32Size_range (u32 (Z.shiftl n ValLenBit_BitsCount))). pose proof (Varint64Size_range expire_ts).
  match goal with |- context [Varint64Size (EncodeInt64Delta ?d)] =>
    pose proof (Varint64Size_range (EncodeInt64Delta d)) end.
  case_if; lia.
Qed.

Lemma key_fits_ptrs opts key n ts expire_ts :
  key_fits opts key -> 0 <= n <= 4 * overflow_pointers opts -> IsOverflowKV opts key n ts expire_ts = false.
Proof.
  intros Hk Hn. unfold key_fits in Hk. unfold IsOverflowKV. pose proof (zlen_nonneg key).
  rewrite (proj2 (Z.ltb_ge _ _)) by lia.
  pose proof (CalculateDelta_upper key n ts expire_ts ltac:(lia)) as Hd.
  destruct (CalculateDelta _ _ _ _ _ _ _) as [[[size ?] ?] ?]. cbn [fst] in Hd. apply Z.ltb_ge. lia.
Qed.

Lemma leaf_base_ok opts page_key base :
  valid_options opts -> leaf_ok opts page_key base -> Forall (base_ok opts page_key) base.
Proof.
  intros Hopt [(l & b & Hwf & Hb & ->) _ Hk]. pose proof (page_entries_fit opts l b Hopt Hwf Hb) as Hf.
  rewrite list.Forall_forall in Hk, Hf |- *. intros e He.
  destruct (Hk e He), (Hf e He). constructor; auto.
Qed.

Lemma batch_changes_ok {T} `{PageTask T} opts page_key base changes :
  batch_ok opts page_key base changes -> Forall (change_ok opts page_key) changes.
Proof.
  intros [_ Hw Hk Hl _]. rewrite list.Forall_forall in Hw, Hk |- *. intros w Hin.
  destruct (Hw w Hin), (Hk w Hin) as (? & ? & ?). constructor; eauto using key_fits_ptrs.
Qed.

(** ** An example of a task: outside values in a list, numbered from the first *)
Definition out_ref (o : Outside) : bytes := match o with OutOverflow p _ => p | OutLarge c _ => c end.

Record ListTask := mkListTask { lt_next : Z; lt_live : list Outside }.

Definition lt_put (t : ListTask) (o : Outside) : ListTask := mkListTask (lt_next t + 1) (o :: lt_live t).

Definition lt_del (t : ListTask) (ref : bytes) : ListTask :=
  mkListTask (lt_next t) (filter (fun o => out_ref o <> ref) (lt_live t)).

#[export] Instance list_page_task : PageTask ListTask := {
  pt_write_overflow t v := Some ([lt_next t], lt_put t (OutOverflow [lt_next t] v));
  pt_del_overflow t ptrs := Some (lt_del t ptrs);
  pt_write_large t w := v ← w_large w; Some ([lt_next t], lt_put t (OutLarge [lt_next t] v));
  pt_del_large t content := Some (lt_del t content);
  pt_finish_page t _ _ _ := Some t
}.

Definition lt_owns (t : ListTask) (os : list Outside) : Prop :=
  lt_live t ≡ₚ os /\ NoDup (map out_ref (lt_live t)) /\
  Forall (fun o => exists n, out_ref o = [n] /\ n < lt_next t) (lt_live t).

Lemma lt_put_owns t os o : out_ref o = [lt_next t] -> lt_owns t os -> lt_owns (lt_put t o) (o :: os).
Proof.
  intros Ho (Hp & Hnd & Hlt). unfold lt_owns, lt_put. cbn [lt_live lt_next map]. rewrite Hp at 1.
  split; [reflexivity|]. split.
  - constructor; [|exact Hnd]. intros Hin. apply list_elem_of_fmap in Hin as (o' & Heq & Hin).
    rewrite list.Forall_forall in Hlt. destruct (Hlt o' Hin) as (n & Hn & Hlt'). rewrite Ho, Hn in Heq.
    injection Heq as Heq. lia.
  - constructor; [exists (lt_next t); split; [exact Ho|lia]|].
    eapply Forall_impl; [|exact Hlt]. cbv beta. intros o' (n & ? & ?). exists n. split; [assumption|lia].
Qed.

Lemma filter_others ref os : ref ∉ map out_ref os -> filter (fun o => out_ref o <> ref) os = os.
Proof.
  induction os as [|o os IH]; intros Hr; [reflexivity|]. simpl in Hr. apply not_elem_of_cons in Hr as [Hne Hr].
  rewrite filter_cons_True by congruence. rewrite IH by exact Hr. reflexivity.
Qed.

Lemma lt_del_owns t os o : lt_owns t (o :: os) -> lt_owns (lt_del t (out_ref o)) os.
Proof.
  intros (Hp & Hnd & Hlt). unfold lt_owns, lt_del. cbn [lt_live lt_next].
  assert (Hnd' : NoDup (map out_ref (o :: os))) by (rewrite <- Hp; exact Hnd).
  simpl in Hnd'. apply list.NoDup_cons in Hnd' as [Hnin Hnd'].
  assert (Hf : filter (fun o' => out_ref o' <> out_ref o) (lt_live t) ≡ₚ os).
  { rewrite Hp, filter_cons_False, filter_others by auto. reflexivity. }
  split; [exact Hf|]. rewrite Hf. split; [exact Hnd'|]. rewrite Hp in Hlt. exact (proj2 (Forall_cons_1 _ _ _ Hlt)).
Qed.

#[export] Instance list_task_laws : PageTaskLaws ListTask example_options.
Proof.
  refine {| pt_owns := lt_owns |}.
  - intros t os os' Hos (Hp & Hr). split; [rewrite Hp; exact Hos|exact Hr].
  - intros t os v Ho. eexists _, _. split; [reflexivity|]. split; [vm_compute; discriminate|].
    apply lt_put_owns; auto.
  - intros t os ptrs v Ho. eexists. split; [reflexivity|]. exact (lt_del_owns t os (OutOverflow ptrs v) Ho).
  - intros t os w v Ho Hw. cbn. rewrite Hw. eexists _, _. split; [reflexivity|]. apply lt_put_owns; auto.
  - intros t os content v Ho. eexists. split; [reflexivity|]. exact (lt_del_owns t os (OutLarge content v) Ho).
  - intros t os key id page Ho. eexists. split; [reflexivity|exact Ho].
Defined.

(** ** Properties *)

(** C6: Merging a batch into a leaf always succeeds.  The finished pages hold, in
    key order, exactly the entries that survive: those of the leaf that did not
    expire and that no change at least as new replaces or deletes, unchanged,
    and the upserts that did not expire and are not older than the leaf's entry.
    The first page takes the key and id of the leaf, every other one is new and
    has a key above all keys of the page before it and at most its own; the leaf
    is reported empty exactly when nothing survives.  The task then owns the
    outside values of those entries: none is lost and none is left behind. *)
Theorem apply_page_merges {T} `{PageTask T} opts `{!PageTaskLaws T opts}
    enable_compression compress_raw dict now_ms old t ttl page_key page_id base right_bound batch F :
  let changes := page_changes right_bound batch in
  valid_options opts -> leaf_ok opts page_key base -> batch_ok opts page_key base changes ->
  pt_owns t (base_outs old base ++ F) ->
  exists s' items ps pages,
    ApplyOnePage opts enable_compression compress_raw dict now_ms t ttl page_key page_id base right_bound batch =
      Some (s', is_nil items, zlen changes) /\
    keys_sorted (map item_key items) /\ (forall i, i ∈ items <-> survives now_ms base changes i) /\
    Forall2 (stored enable_compression compress_raw dict old) items ps /\
    pages_hold opts page_key page_id pages (ap_pages s') ps /\ pt_owns (ap_task s') (outs ps ++ F).
Proof.
  intros changes Hopt Hleaf Hbatch Ho.
  destruct (ApplyOnePage_ok opts now_ms page_key page_id Hopt enable_compression compress_raw dict old t ttl base
    right_bound batch F (leaf_base_ok _ _ _ Hopt Hleaf) (batch_changes_ok _ _ _ _ Hbatch) (bk_deletes _ _ _ _ Hbatch)
    (lf_sorted _ _ _ Hleaf) (bk_sorted _ _ _ _ Hbatch) Ho) as (s' & ps & pages & Hs & Hst & Hph & Ho' & _).
  destruct (merge_items_ok now_ms base changes (lf_sorted _ _ _ Hleaf) (bk_sorted _ _ _ _ Hbatch)) as [Hsort Hiff].
  exists s', (merge_items now_ms base changes), ps, pages. auto 10.
Qed.

(** C7: Merging a batch into a leaf keeps the TTL index in step: applied to the
    TTL keys of the leaf's entries, and any keys [G] of other entries, the
    updates it adds to the TTL batch give the TTL keys of the entries that
    survive.  No two of the updates have the same key, so the order in which the
    batch is sorted does not matter. *)
Theorem apply_page_ttl_index {T} `{PageTask T} opts `{!PageTaskLaws T opts}
    enable_compression compress_raw dict now_ms old t ttl page_key page_id base right_bound batch F G :
  let changes := page_changes right_bound batch in
  valid_options opts -> leaf_ok opts page_key base -> batch_ok opts page_key base changes ->
  pt_owns t (base_outs old base ++ F) -> do_update_ttl_ ttl = true ->
  (forall k, k ∈ map key_ base \/ k ∈ map w_key changes -> fresh k G) ->
  exists s' empty n updates items,
    ApplyOnePage opts enable_compression compress_raw dict now_ms t ttl page_key page_id base right_bound batch =
      Some (s', empty, n) /\
    (forall i, i ∈ items <-> survives now_ms base changes i) /\
    ttl_batch_ (ap_ttl s') = ttl_batch_ ttl ++ updates /\ NoDup (map w_key updates) /\
    ttl_set (base_index base ∪ G) updates = item_index items ∪ G.
Proof.
  intros changes Hopt Hleaf Hbatch Ho Hup HG.
  destruct (ApplyOnePage_ok opts now_ms page_key page_id Hopt enable_compression compress_raw dict old t ttl base
    right_bound batch F (leaf_base_ok _ _ _ Hopt Hleaf) (batch_changes_ok _ _ _ _ Hbatch) (bk_deletes _ _ _ _ Hbatch)
    (lf_sorted _ _ _ Hleaf) (bk_sorted _ _ _ _ Hbatch) Ho) as (s' & ps & pages & Hs & _ & _ & _ & Httl & _).
  destruct (merge_items_ok now_ms base changes (lf_sorted _ _ _ Hleaf) (bk_sorted _ _ _ _ Hbatch)) as [_ Hiff].
  assert (Hub : Forall (fun e => is_u64 (expire_ts_ e)) base).
  { eapply Forall_impl; [|exact (leaf_base_ok _ _ _ Hopt Hleaf)]. intros e He. exact (wf_expire _ (bo_wf _ _ _ He)). }
  assert (Huc : Forall (fun w => is_u64 (w_expire w)) changes).
  { eapply Forall_impl; [|exact (bk_width _ _ _ _ Hbatch)]. cbv beta. tauto. }
  destruct (ttl_merge_ok now_ms base changes (lf_sorted _ _ _ Hleaf) (bk_sorted _ _ _ _ Hbatch) Hub Huc) as [Hset Hnd _].
  exists s', (is_nil (merge_items now_ms base changes)), (zlen changes), (event_writes (merge_ttl now_ms base changes)),
    (merge_items now_ms base changes).
  split; [exact Hs|]. split; [exact Hiff|]. split; [rewrite Httl; apply ttl_all_batch, Hup|].
  split; [exact Hnd|exact (Hset G HG)].
Qed.

(** A leaf with three entries, one of them outside, and a batch that replaces
    one, deletes one, and inserts a value that does not fit a page. *)
Definition example_leaf : list AddArgs :=
  [mkArgs [1; 1] [10] false 100 0 CompNone false;
   mkArgs [1; 2] [1] true 120 70 CompNone false;
   mkArgs [1; 3; 1] [12; 13] false 90 0 CompNone false].

Definition example_base : list Entry := map stored_entry example_leaf.

Definition example_batch : list WriteDataEntry :=
  [mkWrite [1; 1] [20] None 100 Upsert 90;
   mkWrite [1; 2] [] None 130 Delete 0;
   mkWrite [1; 2; 5] (replicate 200 7) None 5 Upsert 0;
   mkWrite [2] [30] (Some [40; 41]) 6 Upsert 0].

Definition example_task : ListTask := mkListTask 2 [OutOverflow [1] [9; 9; 9]].

Lemma example_leaf_ok : leaf_ok example_options [1] example_base.
Proof.
  constructor.
  - destruct (add_all example_options Reset example_leaf) as [b|] eqn:Hb; [|discriminate Hb].
    exists example_leaf, b. split; [repeat constructor; discriminate|]. auto.
  - repeat constructor.
  - repeat constructor; discriminate.
Qed.

Lemma example_batch_ok : batch_ok (T := ListTask) example_options [1] example_base example_batch.
Proof.
  constructor.
  - repeat constructor.
  - repeat constructor; discriminate.
  - repeat constructor; discriminate.
  - intros w t content t' Hw Hc. simpl in Hc. destruct (w_large w) as [v|] eqn:Hl; [|discriminate].
    injection Hc as <- _. unfold example_batch in Hw.
    repeat (apply elem_of_cons in Hw as [->|Hw]; [reflexivity|]). inversion Hw.
  - intros e w He Hw Hk Hop. unfold example_batch in Hw.
    repeat (apply elem_of_cons in Hw as [->|Hw]; [try discriminate; left; reflexivity|]). inversion Hw.
Qed.

Lemma example_owns :
  pt_owns example_task (base_outs (fun _ => [9; 9; 9]) example_base ++ []).
Proof.
  split; [reflexivity|]. split; [repeat constructor; set_solver|].
  repeat constructor. exists 1. split; [reflexivity|vm_compute; reflexivity].
Qed.

Lemma apply_page_merges_witness :
  exists s', ApplyOnePage example_options false (fun _ => None) None 50 example_task (mkTtl true [] 0) [1] 7 example_base
    [] example_batch = Some (s', false, 4).
Proof.
  destruct (apply_page_merges example_options false (fun _ => None) None 50 (fun _ => [9; 9; 9]) example_task
    (mkTtl true [] 0) [1] 7 example_base [] example_batch []) as (s' & items & ps & pages & Hs & _ & Hiff & _).
  - split; [vm_compute; split; [discriminate|reflexivity]|discriminate].
  - exact example_leaf_ok.
  - exact example_batch_ok.
  - exact example_owns.
  - exists s'. destruct items as [|i items]; [|exact Hs].
    exfalso. assert (Hin : New (mkWrite [2] [30] (Some [40; 41]) 6 Upsert 0) ∈ @nil Item); [|inversion Hin].
    apply Hiff. split; [apply list_elem_of_In; simpl; auto 10|]. split; [reflexivity|]. split; [reflexivity|].
    intros e He Hk. apply list_elem_of_In in He. repeat (destruct He as [<-|He]; [discriminate Hk|]). destruct He.
Defined.

Lemma apply_page_ttl_index_witness :
  exists s' empty n, ApplyOnePage example_options false (fun _ => None) None 50 example_task (mkTtl true [] 0) [1] 7
    example_base [] example_batch = Some (s', empty, n) /\ NoDup (map w_key (ttl_batch_ (ap_ttl s'))).
Proof.
  destruct (apply_page_ttl_index example_options false (fun _ => None) None 50 (fun _ => [9; 9; 9]) example_task
    (mkTtl true [] 0) [1] 7 example_base [] example_batch [] ∅) as (s' & empty & n & updates & items & Hs & _ & Hu & Hnd & _).
  - split; [vm_compute; split; [discriminate|reflexivity]|discriminate].
  - exact example_leaf_ok.
  - exact example_batch_ok.
  - exact example_owns.
  - reflexivity.
  - intros k _ x _. apply not_elem_of_empty.
  - exists s', empty, n. split; [exact Hs|]. rewrite Hu. exact Hnd.
Defined.

(** A large value whose content (segment ids and metadata) does not fit an empty
    page is never moved out of the page: on an empty builder the assertion on
    the second [Add] fails. *)
Theorem large_content_rejected {T} `{PageTask T} opts now_ms depth (s : Apply (T := T)) key content ts expire_ts c :
  valid_options opts -> is_u64 ts -> is_u64 expire_ts -> ap_builder s = Reset ->
  Expired now_ms expire_ts = false -> IsOverflowKV opts key (zlen content) ts expire_ts = true ->
  add_to_page opts now_ms depth s key content false ts expire_ts c true = None.
Proof.
  intros Hopt Hts Hex Hb Hx Hov. destruct depth as [|depth]; [reflexivity|]. cbn [add_to_page]. rewrite Hx, Hb.
  pose proof (Add_Reset_iff opts key content false ts expire_ts c true Hopt Hts Hex) as Hok. rewrite Hov in Hok.
  destruct (Add opts Reset key content false ts expire_ts c true) as [ok b]. simpl in Hok. subst ok.
  cbn [negb andb]. destruct (FinishCurrent opts s) as [s1|]; [|reflexivity]. cbn [mbind option_bind].
  rewrite andb_false_r. reflexivity.
Qed.
