(* ===== verification/FileNames.v ===== *)
(** * File names

    Names of data, segment, manifest, archive and term files, branch names, and
    table names (include/common.h, include/types.h, src/types.cpp).  A string is
    its list of character codes. *)

From Stdlib Require Import Ascii String.
From S2P Require Import Prelude Coding.

(** ** Characters *)
Fixpoint str (s : string) : bytes :=
  match s with EmptyString => [] | String c s' => Z.of_N (N_of_ascii c) :: str s' end.

Definition FileNameSeparator : Z := 95.
Definition FileNameData : bytes := str "data".
Definition FileNameSegment : bytes := str "segment".
Definition FileNameManifest : bytes := str "manifest".
Definition CurrentTermFileName : bytes := str "CURRENT_TERM".
Definition MainBranchName : bytes := str "main".

Definition is_digit (c : Z) : bool := (48 <=? c) && (c <=? 57).
Definition is_lower (c : Z) : bool := (97 <=? c) && (c <=? 122).
Definition is_upper (c : Z) : bool := (65 <=? c) && (c <=? 90).
Definition is_hyphen (c : Z) : bool := c =? 45.

(** [isspace] of the C locale. *)
Definition is_space (c : Z) : bool := (c =? 32) || ((9 <=? c) && (c <=? 13)).

(** ** Numbers *)

(** [std::to_string] of an unsigned number; a 64-bit one has at most 20 digits. *)
Fixpoint to_string_loop (fuel : nat) (n : Z) : bytes :=
  match fuel with
  | O => []
  | S fuel' => if n <? 10 then [48 + n] else to_string_loop fuel' (n / 10) ++ [48 + n mod 10]
  end.

Definition to_string (n : Z) : bytes := to_string_loop 20 n.

(** The value of a string of digits. *)
Fixpoint digits_value (acc : Z) (s : bytes) : option Z :=
  match s with
  | [] => Some acc
  | c :: s' => if is_digit c then digits_value (acc * 10 + (c - 48)) s' else None
  end.

Fixpoint skip_spaces (s : bytes) : bytes :=
  match s with c :: s' => if is_space c then skip_spaces s' else s | [] => [] end.

Definition take_sign (s : bytes) : bool * bytes :=
  match s with
  | c :: s' => if c =? 45 then (true, s') else if c =? 43 then (false, s') else (false, s)
  | [] => (false, [])
  end.

(** [ParseUint64]: [strtoull] has to stop at the end of the view.  It skips white
    space, takes a sign, and negates modulo 2^64; a value that does not fit sets
    [errno].  The character after the view is a separator or the end of the
    string, so the conversion does not run past it. *)
Definition ParseUint64 (s : bytes) : option Z :=
  if zlen s =? 0 then None
  else
    let '(neg, s) := take_sign (skip_spaces s) in
    match s with
    | [] => None
    | _ => v ← digits_value 0 s;
           if v <? 2 ^ 64 then Some (if neg : bool then u64 (- v) else v) else None
    end.

(** A decimal number of at most [max]; the loops of [ParseBranchTerm] and
    [ParseCurrentTermFilename] test before they multiply. *)
Fixpoint ParseDecimal (max : Z) (result : Z) (s : bytes) : option Z :=
  match s with
  | [] => Some result
  | c :: s' =>
      if is_digit c then
        let digit := c - 48 in
        if (max - digit) / 10 <? result then None else ParseDecimal max (result * 10 + digit) s'
      else None
  end.

Definition ParseBranchTerm (content : bytes) : option Z :=
  if zlen content =? 0 then None else ParseDecimal (2 ^ 64 - 1) 0 content.

Definition TermToString (term : Z) : bytes := to_string term.

(** ** Splitting *)

(** The parts before and after the first separator. *)
Fixpoint cut (sep : Z) (s : bytes) : option (bytes * bytes) :=
  match s with
  | [] => None
  | c :: s' =>
      if c =? sep then Some ([], s')
      else '(l, r) ← cut sep s'; Some (c :: l, r)
  end.

(** The parts before and after the last separator. *)
Fixpoint rcut (sep : Z) (s : bytes) : option (bytes * bytes) :=
  match s with
  | [] => None
  | c :: s' =>
      match rcut sep s' with
      | Some (l, r) => Some (c :: l, r)
      | None => if c =? sep then Some ([], s') else None
      end
  end.

Definition ParseFileName (name : bytes) : bytes * bytes :=
  match cut FileNameSeparator name with Some p => p | None => (name, []) end.

(** ** Branch names *)
Definition valid_char (c : Z) : bool := is_lower c || is_upper c || is_digit c || is_hyphen c.

Fixpoint normalize_loop (s : bytes) : option bytes :=
  match s with
  | [] => Some []
  | c :: s' =>
      if is_lower c || is_digit c || is_hyphen c then r ← normalize_loop s'; Some (c :: r)
      else if is_upper c then r ← normalize_loop s'; Some (c + 32 :: r)
      else None
  end.

(** [NormalizeBranchName]; the empty string stands for an invalid name. *)
Definition NormalizeBranchName (branch_name : bytes) : bytes :=
  match normalize_loop branch_name with Some r => r | None => [] end.

Definition IsValidBranchName (branch_name : bytes) : bool :=
  negb (zlen branch_name =? 0) && forallb valid_char branch_name.

(** ** Parsing suffixes *)
Definition ParseDataFileSuffix (suffix : bytes) : option (Z * bytes * Z) :=
  '(file_id_str, rest) ← cut FileNameSeparator suffix;
  '(branch_str, term_str) ← cut FileNameSeparator rest;
  file_id ← ParseUint64 file_id_str;
  if IsValidBranchName branch_str then
    term ← ParseUint64 term_str; Some (file_id, branch_str, term)
  else None.

Definition ParseSegmentFileSuffix (suffix : bytes) : option (Z * bytes * Z) := ParseDataFileSuffix suffix.

Definition ParseManifestFileSuffix (suffix : bytes) : option (bytes * Z * option bytes) :=
  '(branch_str, remainder) ← cut FileNameSeparator suffix;
  if negb (IsValidBranchName branch_str) then None
  else
    match ParseUint64 branch_str with
    | Some _ => None
    | None =>
        match cut FileNameSeparator remainder with
        | None => term ← ParseUint64 remainder; Some (branch_str, term, None)
        | Some (term_str, tag_str) =>
            term ← ParseUint64 term_str;
            if zlen tag_str =? 0 then None else Some (branch_str, term, Some tag_str)
        end
    end.

(** ** Names *)
Definition sep_join (parts : list bytes) : bytes :=
  match parts with
  | [] => []
  | p :: ps => p ++ concat (map (cons FileNameSeparator) ps)
  end.

(** A name that contains the branch is empty when the branch name is invalid. *)
Definition with_branch (branch_name : bytes) (parts : bytes -> list bytes) : bytes :=
  let normalized_branch := NormalizeBranchName branch_name in
  if zlen normalized_branch =? 0 then [] else sep_join (parts normalized_branch).

Definition DataFileName (file_id term : Z) : bytes := sep_join [FileNameData; to_string file_id; to_string term].

Definition ManifestFileName (term : Z) : bytes := sep_join [FileNameManifest; to_string term].

Definition ArchiveName (term ts : Z) : bytes := sep_join [FileNameManifest; to_string term; to_string ts].

Definition SegmentFileName (file_id : Z) (branch_name : bytes) (term : Z) : bytes :=
  with_branch branch_name (fun b => [FileNameSegment; to_string file_id; b; to_string term]).

Definition BranchDataFileName (file_id : Z) (branch_name : bytes) (term : Z) : bytes :=
  with_branch branch_name (fun b => [FileNameData; to_string file_id; b; to_string term]).

Definition BranchManifestFileName (branch_name : bytes) (term : Z) : bytes :=
  with_branch branch_name (fun b => [FileNameManifest; b; to_string term]).

Definition BranchArchiveName (branch_name : bytes) (term : Z) (tag : bytes) : bytes :=
  with_branch branch_name (fun b => [FileNameManifest; b; to_string term; tag]).

Definition CurrentTermFileNameForBranchAndPartitionGroup (branch_name : bytes) (partition_group_id : Z) : bytes :=
  with_branch branch_name (fun b => [CurrentTermFileName; b; to_string partition_group_id]).

(** ** Recognising names *)
Definition parse_manifest (filename : bytes) : option (bytes * Z * option bytes) :=
  let '(type, suffix) := ParseFileName filename in
  if bool_decide (type = FileNameManifest) then ParseManifestFileSuffix suffix else None.

Definition ManifestTermFromFilename (filename : bytes) : Z :=
  match parse_manifest filename with Some (_, term, _) => term | None => 0 end.

Definition IsBranchManifest (filename : bytes) : bool :=
  match parse_manifest filename with Some (_, _, None) => true | _ => false end.

Definition IsBranchArchive (filename : bytes) : bool :=
  match parse_manifest filename with Some (_, _, Some _) => true | _ => false end.

Definition IsArchiveFile (filename : bytes) : bool := IsBranchArchive filename.

Definition IsBranchDataFile (filename : bytes) : bool :=
  let '(type, suffix) := ParseFileName filename in
  if bool_decide (type = FileNameData) then
    match ParseDataFileSuffix suffix with Some _ => true | None => false end
  else false.

(** [CURRENT_TERM_<branch>_<pg_id>]: the last separator splits. *)
Definition ParseCurrentTermFilename (filename : bytes) : option (bytes * Z) :=
  let n := zlen CurrentTermFileName in
  if (zlen filename <=? n) || negb (bool_decide (ztake n filename = CurrentTermFileName)) then None
  else
    match zdrop n filename with
    | c :: remainder =>
        if negb (c =? FileNameSeparator) then None
        else
          '(branch_str, pg_id_str) ← rcut FileNameSeparator remainder;
          if (zlen branch_str =? 0) || (zlen pg_id_str =? 0) then None
          else if negb (IsValidBranchName branch_str) then None
          else pg_id ← ParseDecimal (2 ^ 32 - 1) 0 pg_id_str; Some (branch_str, pg_id)
    | [] => None
    end.

(** ** Table names: [TableIdent::ToString] and [TableIdent::FromString] *)
Record TableIdent := mkTableIdent { tbl_name_ : bytes; partition_id_ : Z }.

Definition table_separator : Z := 46.

Definition TableToString (t : TableIdent) : bytes := tbl_name_ t ++ table_separator :: to_string (partition_id_ t).

Fixpoint leading_digits (s : bytes) : bytes :=
  match s with c :: s' => if is_digit c then c :: leading_digits s' else [] | [] => [] end.

(** [std::stoul] takes the longest number at the start, with white space and a
    sign before it; an exception, when there is none or it does not fit, gives
    the empty table name.  The result is narrowed to 32 bits. *)
Definition stoul (s : bytes) : option Z :=
  let '(neg, s) := take_sign (skip_spaces s) in
  match leading_digits s with
  | [] => None
  | d => v ← digits_value 0 d; if v <? 2 ^ 64 then Some (if neg : bool then u64 (- v) else v) else None
  end.

Definition TableFromString (s : bytes) : TableIdent :=
  match rcut table_separator s with
  | None => mkTableIdent [] 0
  | Some (name, id) =>
      match stoul id with Some v => mkTableIdent name (u32 v) | None => mkTableIdent [] 0 end
  end.

Definition TableIsValid (t : TableIdent) : bool := negb (zlen (tbl_name_ t) =? 0).

Definition StorePathIndex (t : TableIdent) (num_paths : Z) (store_path_lut : list Z) : option Z :=
  idx ← store_path_lut !! Z.to_nat (partition_id_ t mod zlen store_path_lut);
  if (0 <? num_paths) && (idx <? num_paths) then Some idx else None.

Definition ShardIndex (t : TableIdent) (num_shards : Z) : Z := partition_id_ t mod num_shards.

(** ** Lemmas on numbers *)
Definition digit_string (s : bytes) : Prop := Forall (fun c => is_digit c = true) s.

Lemma digit_char n : 0 <= n < 10 -> is_digit (48 + n) = true.
Proof. intros. unfold is_digit. apply andb_true_iff. rewrite !Z.leb_le. lia. Qed.

Lemma digits_value_app acc s t :
  digits_value acc (s ++ t) = (v ← digits_value acc s; digits_value v t).
Proof. revert acc. induction s as [|c s IH]; intros acc; simpl; [reflexivity|]. destruct (is_digit c); auto. Qed.

Lemma to_string_loop_ok fuel n :
  (0 < fuel)%nat -> 0 <= n < 10 ^ Z.of_nat fuel ->
  digit_string (to_string_loop fuel n) /\ to_string_loop fuel n <> [] /\
  digits_value 0 (to_string_loop fuel n) = Some n.
Proof.
  revert n. induction fuel as [|fuel IH]; intros n Hf Hn; [lia|]. cbn [to_string_loop]. case_if.
  - split; [repeat constructor; apply digit_char; lia|]. split; [discriminate|].
    cbn [digits_value]. rewrite digit_char by lia. f_equal. lia.
  - rewrite Nat2Z.inj_succ, Z.pow_succ_r in Hn by lia.
    assert (Hf' : (0 < fuel)%nat) by (destruct fuel; [simpl in Hn; lia|lia]).
    assert (Hd : 0 <= n / 10 < 10 ^ Z.of_nat fuel)
      by (split; [apply Z.div_pos; lia|apply Z.div_lt_upper_bound; lia]).
    destruct (IH (n / 10) Hf' Hd) as (Hs & Hne & Hv).
    pose proof (Z.mod_pos_bound n 10 ltac:(lia)) as Hm.
    split; [apply Forall_app_2; [exact Hs|repeat constructor; apply digit_char, Hm]|].
    split; [intros Heq; apply app_eq_nil in Heq as [? _]; contradiction|].
    rewrite digits_value_app, Hv. cbn [mbind option_bind digits_value]. rewrite digit_char by exact Hm.
    f_equal. pose proof (Z.div_mod n 10 ltac:(lia)). lia.
Qed.

Lemma to_string_ok n :
  is_u64 n -> digit_string (to_string n) /\ to_string n <> [] /\ digits_value 0 (to_string n) = Some n.
Proof.
  intros Hn. apply to_string_loop_ok; [lia|]. change (10 ^ Z.of_nat 20) with 100000000000000000000. width.
Qed.

Lemma digit_start s : digit_string s -> take_sign (skip_spaces s) = (false, s).
Proof.
  intros Hs. destruct Hs as [|c s Hc Hs]; [reflexivity|]. unfold is_digit in Hc.
  apply andb_true_iff in Hc as [H1 H2]. rewrite Z.leb_le in H1, H2. cbn [skip_spaces].
  replace (is_space c) with false.
  - cbn [take_sign]. rewrite !(proj2 (Z.eqb_neq _ _)) by lia. reflexivity.
  - symmetry. unfold is_space. rewrite (proj2 (Z.eqb_neq _ _)), (proj2 (Z.leb_gt c 13)), andb_false_r by lia. reflexivity.
Qed.

Lemma ParseUint64_digits s v :
  digit_string s -> s <> [] -> digits_value 0 s = Some v -> v < 2 ^ 64 -> ParseUint64 s = Some v.
Proof.
  intros Hs Hne Hv Hlt. unfold ParseUint64. rewrite digit_start by exact Hs.
  destruct s as [|c s]; [congruence|]. rewrite (proj2 (Z.eqb_neq _ _)) by (rewrite zlen_cons; zlia).
  rewrite Hv. cbn [mbind option_bind]. rewrite (proj2 (Z.ltb_lt _ _) Hlt). reflexivity.
Qed.

Lemma ParseUint64_to_string n : is_u64 n -> ParseUint64 (to_string n) = Some n.
Proof. intros Hn. destruct (to_string_ok n Hn) as (? & ? & ?). apply ParseUint64_digits; auto. width. Qed.

Lemma digits_value_ge acc s v : 0 <= acc -> digits_value acc s = Some v -> acc <= v.
Proof.
  revert acc. induction s as [|c s IH]; intros acc Ha Hv; cbn [digits_value] in Hv; [injection Hv as <-; lia|].
  destruct (is_digit c) eqn:Hc; [|discriminate]. unfold is_digit in Hc. apply andb_true_iff in Hc as [H1 H2].
  rewrite Z.leb_le in H1, H2. specialize (IH (acc * 10 + (c - 48)) ltac:(lia) Hv). lia.
Qed.

Lemma ParseUint64_range s v : ParseUint64 s = Some v -> is_u64 v.
Proof.
  unfold ParseUint64. destruct (zlen s =? 0); [discriminate|]. destruct (take_sign (skip_spaces s)) as [neg [|c u]]; [discriminate|].
  destruct (digits_value 0 (c :: u)) as [w|] eqn:Hw; [|discriminate]. apply digits_value_ge in Hw; [|lia].
  cbn [mbind option_bind]. destruct (Z.ltb_spec w (2 ^ 64)); [|discriminate]. intros [= <-].
  destruct neg; [unfold u64; apply Z.mod_pos_bound; lia|split; assumption].
Qed.

(** The overflow test accepts exactly the values in range. *)
Lemma ParseDecimal_iff max r s v :
  0 <= r <= max -> ParseDecimal max r s = Some v <-> digits_value r s = Some v /\ v <= max.
Proof.
  revert r. induction s as [|c s IH]; intros r Hr; cbn [ParseDecimal digits_value].
  { split; [intros [= <-]; split; [reflexivity|lia]|intros [[= <-] _]; reflexivity]. }
  destruct (is_digit c) eqn:Hc; [|split; [discriminate|intros [? _]; discriminate]].
  unfold is_digit in Hc. apply andb_true_iff in Hc as [H1 H2]. rewrite Z.leb_le in H1, H2.
  pose proof (Z.div_mod (max - (c - 48)) 10 ltac:(lia)). pose proof (Z.mod_pos_bound (max - (c - 48)) 10 ltac:(lia)).
  case_if.
  - split; [discriminate|]. intros [Hv Hle]. apply digits_value_ge in Hv; [|lia]. lia.
  - apply IH. lia.
Qed.

Lemma ParseDecimal_to_string max n : is_u64 n -> n <= max -> ParseDecimal max 0 (to_string n) = Some n.
Proof. intros Hn Hle. destruct (to_string_ok n Hn) as (_ & _ & Hv). apply ParseDecimal_iff; [width|auto]. Qed.

(** ** Lemmas on splitting *)
Lemma cut_app sep a b : sep ∉ a -> cut sep (a ++ sep :: b) = Some (a, b).
Proof.
  induction a as [|c a IH]; intros Ha; simpl; [rewrite Z.eqb_refl; reflexivity|].
  apply not_elem_of_cons in Ha as [Hc Ha]. rewrite (proj2 (Z.eqb_neq _ _)) by congruence.
  rewrite IH by exact Ha. reflexivity.
Qed.

Lemma cut_none sep a : sep ∉ a -> cut sep a = None.
Proof.
  induction a as [|c a IH]; intros Ha; simpl; [reflexivity|].
  apply not_elem_of_cons in Ha as [Hc Ha]. rewrite (proj2 (Z.eqb_neq _ _)) by congruence.
  rewrite IH by exact Ha. reflexivity.
Qed.

Lemma rcut_none sep a : sep ∉ a -> rcut sep a = None.
Proof.
  induction a as [|c a IH]; intros Ha; simpl; [reflexivity|].
  apply not_elem_of_cons in Ha as [Hc Ha]. rewrite IH by exact Ha.
  rewrite (proj2 (Z.eqb_neq _ _)) by congruence. reflexivity.
Qed.

Lemma rcut_app sep a b : sep ∉ b -> rcut sep (a ++ sep :: b) = Some (a, b).
Proof.
  intros Hb. induction a as [|c a IH]; simpl; [rewrite rcut_none, Z.eqb_refl by exact Hb; reflexivity|].
  rewrite IH. reflexivity.
Qed.

Lemma digits_no_char sep s : is_digit sep = false -> digit_string s -> sep ∉ s.
Proof. intros Hsep Hs Hin. unfold digit_string in Hs. rewrite list.Forall_forall in Hs. rewrite Hs in Hsep by exact Hin. discriminate. Qed.

(** ** Lemmas on branch names *)
Lemma normalize_loop_chars s r :
  normalize_loop s = Some r -> Forall (fun c => is_lower c || is_digit c || is_hyphen c = true) r.
Proof.
  revert r. induction s as [|c s IH]; intros r Hr; simpl in Hr; [injection Hr as <-; constructor|].
  destruct (is_lower c || is_digit c || is_hyphen c) eqn:Hc; [|destruct (is_upper c) eqn:Hu; [|discriminate]];
    destruct (normalize_loop s) as [r'|]; try discriminate; injection Hr as <-; constructor; auto.
  unfold is_upper, is_lower in *. apply andb_true_iff in Hu as [H1 H2]. rewrite Z.leb_le in H1, H2.
  replace (97 <=? c + 32) with true by (symmetry; apply Z.leb_le; lia).
  replace (c + 32 <=? 122) with true by (symmetry; apply Z.leb_le; lia). reflexivity.
Qed.

Lemma normalize_chars b : Forall (fun c => is_lower c || is_digit c || is_hyphen c = true) (NormalizeBranchName b).
Proof.
  unfold NormalizeBranchName. destruct (normalize_loop b) as [r|] eqn:Hr; [exact (normalize_loop_chars b r Hr)|constructor].
Qed.

Lemma normalize_loop_id s :
  Forall (fun c => is_lower c || is_digit c || is_hyphen c = true) s -> normalize_loop s = Some s.
Proof. intros Hs. induction Hs as [|c s Hc _ IH]; simpl; [reflexivity|]. rewrite Hc, IH. reflexivity. Qed.

Lemma normalize_idem b : NormalizeBranchName (NormalizeBranchName b) = NormalizeBranchName b.
Proof. unfold NormalizeBranchName at 1. rewrite normalize_loop_id by apply normalize_chars. reflexivity. Qed.

Lemma normalize_no_sep b sep : is_lower sep || is_digit sep || is_hyphen sep = false -> sep ∉ NormalizeBranchName b.
Proof.
  intros Hsep Hin. pose proof (normalize_chars b) as Hc. rewrite list.Forall_forall in Hc.
  rewrite Hc in Hsep by exact Hin. discriminate.
Qed.

Lemma normalize_valid b : NormalizeBranchName b <> [] -> IsValidBranchName (NormalizeBranchName b) = true.
Proof.
  intros Hne. unfold IsValidBranchName. apply andb_true_iff. split.
  - apply negb_true_iff, Z.eqb_neq. destruct (NormalizeBranchName b); [congruence|rewrite zlen_cons; zlia].
  - apply forallb_forall. intros c Hc. apply list_elem_of_In in Hc. pose proof (normalize_chars b) as Hn.
    rewrite list.Forall_forall in Hn. specialize (Hn c Hc). unfold valid_char.
    destruct (is_lower c), (is_upper c), (is_digit c), (is_hyphen c); auto.
Qed.

(** A name that reads as a number has no letters, so it is not changed. *)
Lemma ParseUint64_no_letter s v : ParseUint64 s = Some v -> Forall (fun c => is_lower c = false) s.
Proof.
  assert (Hdig : forall acc s v, digits_value acc s = Some v -> Forall (fun c => is_lower c = false) s).
  { clear. intros acc s. revert acc. induction s as [|c s IH]; intros acc v H; [constructor|]. cbn [digits_value] in H.
    destruct (is_digit c) eqn:Hc; [|discriminate H]. constructor; [|exact (IH _ _ H)].
    unfold is_digit, is_lower in *. apply andb_true_iff in Hc as [H1 H2]. rewrite Z.leb_le in H1, H2.
    rewrite (proj2 (Z.leb_gt 97 c)) by lia. reflexivity. }
  assert (Hskip : forall s, Forall (fun c => is_lower c = false) (skip_spaces s) -> Forall (fun c => is_lower c = false) s).
  { clear. intros s. induction s as [|c s IH]; [auto|]. cbn [skip_spaces]. destruct (is_space c) eqn:Hc; [|auto].
    intros H. constructor; [|exact (IH H)]. unfold is_space, is_lower in *. destruct (Z.leb_spec 97 c); [|reflexivity].
    rewrite (proj2 (Z.eqb_neq _ _)), (proj2 (Z.leb_gt c 13)), andb_false_r in Hc by lia. discriminate Hc. }
  unfold ParseUint64. destruct (zlen s =? 0); [discriminate|]. intros H. apply Hskip. revert H.
  generalize (skip_spaces s) as u. intros [|c u]; [discriminate|]. cbn [take_sign].
  destruct (Z.eqb_spec c 45) as [->|]; [|destruct (Z.eqb_spec c 43) as [->|]]; intros H.
  - constructor; [reflexivity|]. destruct u; [constructor|]. destruct (digits_value 0 _) eqn:Hd; [exact (Hdig _ _ _ Hd)|discriminate H].
  - constructor; [reflexivity|]. destruct u; [constructor|]. destruct (digits_value 0 _) eqn:Hd; [exact (Hdig _ _ _ Hd)|discriminate H].
  - destruct (digits_value 0 _) eqn:Hd; [exact (Hdig _ _ _ Hd)|discriminate H].
Qed.

Lemma normalize_number b v : ParseUint64 (NormalizeBranchName b) = Some v -> NormalizeBranchName b = b.
Proof.
  intros Hv. pose proof (ParseUint64_no_letter _ _ Hv) as Hl. unfold NormalizeBranchName in *.
  destruct (normalize_loop b) as [r|] eqn:Hr; [|discriminate Hv]. clear Hv v. revert r Hr Hl.
  induction b as [|c b IH]; intros r Hr Hl; cbn [normalize_loop] in Hr; [injection Hr as <-; reflexivity|].
  destruct (is_lower c || is_digit c || is_hyphen c).
  - destruct (normalize_loop b) as [r'|]; [|discriminate Hr]. injection Hr as <-. apply Forall_cons_1 in Hl as [_ Hl].
    rewrite (IH r' eq_refl Hl). reflexivity.
  - destruct (is_upper c) eqn:Hu; [|discriminate Hr]. destruct (normalize_loop b) as [r'|]; [|discriminate Hr].
    injection Hr as <-. apply Forall_cons_1 in Hl as [Hl _]. unfold is_upper, is_lower in *.
    apply andb_true_iff in Hu as [H1 H2]. rewrite Z.leb_le in H1, H2.
    rewrite !(proj2 (Z.leb_le _ _)) in Hl by lia. discriminate Hl.
Qed.

(** ** Names and their parts *)
Lemma sep_join_cons p q ps : sep_join (p :: q :: ps) = p ++ FileNameSeparator :: sep_join (q :: ps).
Proof. reflexivity. Qed.

Lemma sep_join_one p : sep_join [p] = p.
Proof. apply app_nil_r. Qed.

Lemma with_branch_valid branch parts :
  NormalizeBranchName branch <> [] -> with_branch branch parts = sep_join (parts (NormalizeBranchName branch)).
Proof.
  intros Hb. unfold with_branch. rewrite (proj2 (Z.eqb_neq _ _)); [reflexivity|].
  destruct (NormalizeBranchName branch); [congruence|rewrite zlen_cons; zlia].
Qed.

Lemma ParseFileName_join p q ps : FileNameSeparator ∉ p -> ParseFileName (sep_join (p :: q :: ps)) = (p, sep_join (q :: ps)).
Proof. intros Hp. unfold ParseFileName. rewrite sep_join_cons, cut_app by exact Hp. reflexivity. Qed.

Lemma to_string_no_sep n : is_u64 n -> FileNameSeparator ∉ to_string n.
Proof. intros Hn. apply digits_no_char; [reflexivity|]. apply (to_string_ok n Hn). Qed.

Lemma branch_no_sep b : FileNameSeparator ∉ NormalizeBranchName b.
Proof. apply normalize_no_sep. reflexivity. Qed.

Ltac no_sep := apply (bool_decide_unpack _); vm_compute; exact I.

Lemma data_suffix_roundtrip id branch term :
  is_u64 id -> is_u64 term -> NormalizeBranchName branch <> [] ->
  ParseDataFileSuffix (sep_join [to_string id; NormalizeBranchName branch; to_string term]) =
  Some (id, NormalizeBranchName branch, term).
Proof.
  intros Hid Hterm Hb. unfold ParseDataFileSuffix.
  rewrite !sep_join_cons, sep_join_one, cut_app by exact (to_string_no_sep id Hid). cbn [mbind option_bind].
  rewrite cut_app by apply branch_no_sep. cbn [mbind option_bind].
  rewrite (ParseUint64_to_string id Hid). cbn [mbind option_bind].
  rewrite normalize_valid by exact Hb. rewrite (ParseUint64_to_string term Hterm). reflexivity.
Qed.

Lemma parse_manifest_join b rest :
  FileNameSeparator ∉ b -> IsValidBranchName b = true ->
  parse_manifest (sep_join (FileNameManifest :: b :: rest)) =
  match rest with
  | [] => None
  | _ => match ParseUint64 b with
         | Some _ => None
         | None => match cut FileNameSeparator (sep_join rest) with
                   | None => term ← ParseUint64 (sep_join rest); Some (b, term, None)
                   | Some (term_str, tag_str) =>
                       term ← ParseUint64 term_str; if zlen tag_str =? 0 then None else Some (b, term, Some tag_str)
                   end
         end
  end.
Proof.
  intros Hb Hv. unfold parse_manifest. rewrite ParseFileName_join by no_sep.
  rewrite bool_decide_true by reflexivity. unfold ParseManifestFileSuffix. destruct rest as [|r rest].
  - rewrite sep_join_one, cut_none by exact Hb. reflexivity.
  - rewrite sep_join_cons, cut_app by exact Hb. cbn [mbind option_bind]. rewrite Hv. reflexivity.
Qed.

Lemma current_term_roundtrip b pg :
  FileNameSeparator ∉ b -> b <> [] -> IsValidBranchName b = true -> is_u32 pg ->
  ParseCurrentTermFilename (sep_join [CurrentTermFileName; b; to_string pg]) = Some (b, pg).
Proof.
  intros Hs Hb Hv Hpg. assert (Hpg' : is_u64 pg) by width. unfold ParseCurrentTermFilename.
  rewrite !sep_join_cons, sep_join_one. destruct (to_string_ok pg Hpg') as (Hd & Hne & _).
  rewrite (proj2 (Z.leb_gt _ _)) by (rewrite zlen_app, zlen_cons; zlia).
  rewrite ztake_app, bool_decide_true by reflexivity. cbn [orb negb].
  rewrite zdrop_app. rewrite Z.eqb_refl. cbn [negb].
  rewrite rcut_app by exact (to_string_no_sep pg Hpg'). cbn [mbind option_bind].
  rewrite (proj2 (Z.eqb_neq (zlen b) 0)) by (destruct b; [congruence|rewrite zlen_cons; zlia]).
  rewrite (proj2 (Z.eqb_neq (zlen (to_string pg)) 0)) by (destruct (to_string pg); [congruence|rewrite zlen_cons; zlia]).
  rewrite Hv. cbn [orb negb]. rewrite ParseDecimal_to_string by width. reflexivity.
Qed.

(** ** Properties *)

(** C19: File names round-trip.  For a branch name that normalises to [b], the
    names of data, segment and term files are parsed back to the numbers and the
    branch they were made from, and so are manifests and archives, unless [b]
    reads as a number: then no manifest or archive name of the branch is
    recognised. *)
Theorem file_names_roundtrip branch id term pg tag :
  let b := NormalizeBranchName branch in
  is_u64 id -> is_u64 term -> is_u32 pg -> b <> [] -> tag <> [] ->
  (exists suffix, ParseFileName (BranchDataFileName id branch term) = (FileNameData, suffix) /\
    ParseDataFileSuffix suffix = Some (id, b, term)) /\
  (exists suffix, ParseFileName (SegmentFileName id branch term) = (FileNameSegment, suffix) /\
    ParseSegmentFileSuffix suffix = Some (id, b, term)) /\
  ParseCurrentTermFilename (CurrentTermFileNameForBranchAndPartitionGroup branch pg) = Some (b, pg) /\
  match ParseUint64 b with
  | None =>
      parse_manifest (BranchManifestFileName branch term) = Some (b, term, None) /\
      parse_manifest (BranchArchiveName branch term tag) = Some (b, term, Some tag)
  | Some _ =>
      parse_manifest (BranchManifestFileName branch term) = None /\
      parse_manifest (BranchArchiveName branch term tag) = None
  end.
Proof.
  intros b Hid Hterm Hpg Hb Htag. pose proof (branch_no_sep branch) as Hs. pose proof (normalize_valid branch Hb) as Hv.
  unfold BranchDataFileName, SegmentFileName, CurrentTermFileNameForBranchAndPartitionGroup, BranchManifestFileName,
    BranchArchiveName. rewrite !with_branch_valid by exact Hb. fold b in Hs, Hv |- *.
  split; [|split; [|split]].
  - eexists. split; [apply ParseFileName_join; no_sep|apply data_suffix_roundtrip; auto].
  - eexists. split; [apply ParseFileName_join; no_sep|apply data_suffix_roundtrip; auto].
  - apply current_term_roundtrip; auto.
  - rewrite !parse_manifest_join by auto. destruct (ParseUint64 b); [auto|].
    rewrite sep_join_one, cut_none, ParseUint64_to_string, sep_join_cons, cut_app by auto using to_string_no_sep.
    cbn [mbind option_bind]. rewrite ParseUint64_to_string, sep_join_one by exact Hterm. cbn [mbind option_bind].
    rewrite (proj2 (Z.eqb_neq _ _)); [auto|]. destruct tag; [congruence|rewrite zlen_cons; zlia].
Qed.

Lemma file_names_roundtrip_witness :
  parse_manifest (BranchManifestFileName (str "Feature-7") 12) = Some (str "feature-7", 12, None) /\
  parse_manifest (BranchManifestFileName (str "42") 12) = None.
Proof.
  split.
  - apply (file_names_roundtrip (str "Feature-7") 3 12 5 [1]); try discriminate; repeat split; discriminate.
  - apply (file_names_roundtrip (str "42") 3 12 5 [1]); try discriminate; repeat split; discriminate.
Defined.

Lemma leading_digits_all s : digit_string s -> leading_digits s = s.
Proof. intros Hs. induction Hs as [|c s Hc _ IH]; simpl; [reflexivity|]. rewrite Hc, IH. reflexivity. Qed.

(** Table names round-trip whatever characters the table name has. *)
Theorem table_ident_roundtrip t : is_u32 (partition_id_ t) -> TableFromString (TableToString t) = t.
Proof.
  intros Hp. destruct t as [name id]. cbn [partition_id_] in Hp. unfold TableFromString, TableToString, stoul.
  cbn [tbl_name_ partition_id_]. assert (Hu : is_u64 id) by width. destruct (to_string_ok id Hu) as (Hd & Hne & Hv).
  rewrite rcut_app by (apply digits_no_char; [reflexivity|exact Hd]).
  rewrite digit_start, leading_digits_all by exact Hd.
  destruct (to_string id) as [|c s]; [congruence|]. rewrite Hv. cbn [mbind option_bind].
  rewrite (proj2 (Z.ltb_lt _ _)) by width. rewrite u32_id by exact Hp. reflexivity.
Qed.
