(* ===== verification/Branch.v ===== *)
(** * Branches and their files

    Which branch and term wrote a data or segment file is not kept per file: a
    partition has a list of ranges, one per generation (branch and term), with
    the highest file ids reached so far (include/types.h, include/common.h,
    src/async_io_manager.cpp, src/tasks/write_task.cpp).  The list is part of
    every manifest record. *)

From stdpp Require Import sorting.
From S2P Require Import Prelude Coding.

(** ** Typed file ids

    The low bit tells segment files from data files; the two highest values are
    reserved. *)
Definition MaxFileId : Z := 2 ^ 64 - 1.
Definition kMinReserved : Z := MaxFileId - 1.

Definition IsSegmentFile (fid : Z) : bool := (fid <? kMinReserved) && negb (Z.land fid 1 =? 0).
Definition IsDataFile (fid : Z) : bool := (fid <? kMinReserved) && (Z.land fid 1 =? 0).
Definition ToFileId (fid : Z) : Z := Z.shiftr fid 1.
Definition DataFileKey (file_id : Z) : Z := u64 (Z.shiftl file_id 1).
Definition SegmentFileKey (file_id : Z) : Z := Z.lor (u64 (Z.shiftl file_id 1)) 1.
Definition ManifestFileId : Z := MaxFileId - 1.

(** ** Ranges *)
Record BranchFileRange := mkRange {
  branch_name_ : bytes;
  term_ : Z;
  max_file_id_ : Z;
  max_segment_file_id_ : Z
}.

Abbreviation BranchFileMapping := (list BranchFileRange).

Record BranchManifestMetadata := mkBranchMeta {
  bm_branch_name : bytes;
  bm_term : Z;
  bm_file_ranges : BranchFileMapping
}.

Definition range_max (segment : bool) (r : BranchFileRange) : Z :=
  if segment then max_segment_file_id_ r else max_file_id_ r.

(** The order [std::lower_bound] searches by. *)
Definition range_lt (r : BranchFileRange) (fid : Z) : bool := range_max (IsSegmentFile fid) r <? ToFileId fid.

(** [FindBranchRange]: the first range that is not below, as [std::lower_bound]
    finds it in a list whose maxima do not decrease. *)
Fixpoint FindBranchRange (mapping : BranchFileMapping) (fid : Z) : option BranchFileRange :=
  match mapping with
  | [] => None
  | r :: mapping' => if range_lt r fid then FindBranchRange mapping' fid else Some r
  end.

Definition FileIdInBranch (mapping : BranchFileMapping) (fid : Z) (branch_name : bytes) : bool :=
  match FindBranchRange mapping fid with
  | Some r => bool_decide (branch_name_ r = branch_name)
  | None => false
  end.

Definition GetBranchNameAndTerm (mapping : BranchFileMapping) (fid : Z) : option (bytes * Z) :=
  r ← FindBranchRange mapping fid; Some (branch_name_ r, term_ r).

Definition set_max (segment : bool) (r : BranchFileRange) (id : Z) : BranchFileRange :=
  if segment then mkRange (branch_name_ r) (term_ r) (max_file_id_ r) id
  else mkRange (branch_name_ r) (term_ r) id (max_segment_file_id_ r).

(** [SetBranchFileIdTerm]: extends the range of the generation, which is the last
    one, or starts a range that inherits the other maximum.  File ids of a
    generation ascend ([CHECK]). *)
Fixpoint SetBranchFileIdTerm (mapping : BranchFileMapping) (fid : Z) (branch_name : bytes) (term : Z)
    : option BranchFileMapping :=
  let segment := IsSegmentFile fid in
  match mapping with
  | [] => Some [set_max segment (mkRange branch_name term 0 0) (ToFileId fid)]
  | [back] =>
      if bool_decide (branch_name_ back = branch_name) && (term_ back =? term) then
        if range_max segment back <=? ToFileId fid then Some [set_max segment back (ToFileId fid)] else None
      else Some [back; set_max segment (mkRange branch_name term (max_file_id_ back) (max_segment_file_id_ back)) (ToFileId fid)]
  | r :: mapping' => rest ← SetBranchFileIdTerm mapping' fid branch_name term; Some (r :: rest)
  end.

(** What [AllocatePage] and [AllocateSegment] record when the allocator moved
    from the file [before] to the file [after]. *)
Definition StampAllocation (key : Z -> Z) (mapping : BranchFileMapping) (before after : Z) (branch_name : bytes)
    (term : Z) : option BranchFileMapping :=
  mapping ← (match GetBranchNameAndTerm mapping (key before) with
             | Some _ => Some mapping
             | None => SetBranchFileIdTerm mapping (key before) branch_name term
             end);
  if before =? after then Some mapping else SetBranchFileIdTerm mapping (key after) branch_name term.

(** ** Encoding

    Integers are copied byte by byte, in the order of a little-endian machine. *)
Definition SerializeRange (r : BranchFileRange) : bytes :=
  EncodeFixed32 (u32 (zlen (branch_name_ r))) ++ branch_name_ r ++ EncodeFixed64 (term_ r) ++
  EncodeFixed64 (max_file_id_ r) ++ EncodeFixed64 (max_segment_file_id_ r).

Definition SerializeBranchFileMapping (mapping : BranchFileMapping) : bytes :=
  EncodeFixed64 (u64 (zlen mapping)) ++ concat (map SerializeRange mapping).

Definition DeserializeRange (data : bytes) : option (BranchFileRange * bytes) :=
  name_len ← DecodeFixed32 data;
  let data := zdrop 4 data in
  if zlen data <? name_len + 8 * 3 then None
  else
    let name := ztake name_len data in
    let data := zdrop name_len data in
    term ← DecodeFixed64 data;
    max_file_id ← DecodeFixed64 (zdrop 8 data);
    max_segment_file_id ← DecodeFixed64 (zdrop 16 data);
    Some (mkRange name term max_file_id max_segment_file_id, zdrop 24 data).

(** Every entry takes bytes, so a count beyond the length of the data ends with
    an error as the loop of the source does. *)
Fixpoint DeserializeRanges (fuel : nat) (n : Z) (data : bytes) : option BranchFileMapping :=
  if n =? 0 then Some []
  else
    match fuel with
    | O => None
    | S fuel' =>
        '(r, data) ← DeserializeRange data;
        rest ← DeserializeRanges fuel' (n - 1) data;
        Some (r :: rest)
    end.

(** An error gives the empty list. *)
Definition DeserializeBranchFileMapping (data : bytes) : BranchFileMapping :=
  match DecodeFixed64 data with
  | None => []
  | Some n => match DeserializeRanges (length data) n (zdrop 8 data) with Some l => l | None => [] end
  end.

Definition SerializeBranchManifestMetadata (m : BranchManifestMetadata) : bytes :=
  EncodeFixed32 (u32 (zlen (bm_branch_name m))) ++ bm_branch_name m ++ EncodeFixed64 (bm_term m) ++
  SerializeBranchFileMapping (bm_file_ranges m).

Definition DeserializeBranchManifestMetadata (data : bytes) : option BranchManifestMetadata :=
  name_len ← DecodeFixed32 data;
  let data := zdrop 4 data in
  if zlen data <? name_len + 8 then None
  else
    let name := ztake name_len data in
    let data := zdrop name_len data in
    term ← DecodeFixed64 data;
    Some (mkBranchMeta name term (DeserializeBranchFileMapping (zdrop 8 data))).

(** ** Lemmas on the encoding *)
Lemma zlen_fixed32 v : zlen (EncodeFixed32 v) = 4.
Proof. reflexivity. Qed.

Lemma zlen_fixed64 v : zlen (EncodeFixed64 v) = 8.
Proof. reflexivity. Qed.

Lemma fixed32_drop v rest : zdrop 4 (EncodeFixed32 v ++ rest) = rest.
Proof. reflexivity. Qed.

Lemma fixed64_drop v rest : zdrop 8 (EncodeFixed64 v ++ rest) = rest.
Proof. reflexivity. Qed.

Record wf_range (r : BranchFileRange) : Prop := {
  wr_name : zlen (branch_name_ r) < 2 ^ 32;
  wr_term : is_u64 (term_ r);
  wr_data : is_u64 (max_file_id_ r);
  wr_segment : is_u64 (max_segment_file_id_ r)
}.

Record wf_meta (m : BranchManifestMetadata) : Prop := {
  wm_name : zlen (bm_branch_name m) < 2 ^ 32;
  wm_term : is_u64 (bm_term m);
  wm_count : zlen (bm_file_ranges m) < 2 ^ 64;
  wm_ranges : Forall wf_range (bm_file_ranges m)
}.

Lemma DeserializeRange_roundtrip r rest : wf_range r -> DeserializeRange (SerializeRange r ++ rest) = Some (r, rest).
Proof.
  intros [Hn Ht Hd Hs]. destruct r as [name term mf ms]. unfold DeserializeRange, SerializeRange.
  cbn [branch_name_ term_ max_file_id_ max_segment_file_id_] in *. rewrite <- !app_assoc.
  pose proof (zlen_nonneg name). rewrite u32_id, fixed32_app by width. cbn [mbind option_bind].
  rewrite fixed32_drop, (proj2 (Z.ltb_ge _ _))
    by (rewrite !zlen_app, !zlen_fixed64; zlia).
  rewrite ztake_app, zdrop_app, fixed64_app by exact Ht. cbn [mbind option_bind].
  rewrite fixed64_drop, fixed64_app by exact Hd. cbn [mbind option_bind].
  change 24 with (16 + 8). change 16 with (8 + 8).
  rewrite <- !(zdrop_zdrop 8), !fixed64_drop, fixed64_app by (lia || exact Hs). reflexivity.
Qed.

Lemma SerializeRange_length r : 28 <= zlen (SerializeRange r).
Proof.
  unfold SerializeRange. rewrite !zlen_app, zlen_fixed32, !zlen_fixed64. zlia.
Qed.

Lemma DeserializeRanges_roundtrip l rest fuel :
  Forall wf_range l -> (length l <= fuel)%nat ->
  DeserializeRanges fuel (zlen l) (concat (map SerializeRange l) ++ rest) = Some l.
Proof.
  intros Hl. revert fuel. induction Hl as [|r l Hr _ IH]; intros fuel Hf.
  { destruct fuel; reflexivity. }
  destruct fuel as [|fuel]; [simpl in Hf; lia|]. cbn [DeserializeRanges map concat].
  rewrite (proj2 (Z.eqb_neq _ _)) by (rewrite zlen_cons; zlia).
  rewrite <- app_assoc, DeserializeRange_roundtrip by exact Hr. cbn [mbind option_bind].
  rewrite zlen_cons. replace (1 + zlen l - 1) with (zlen l) by lia.
  rewrite IH by (simpl in Hf; lia). reflexivity.
Qed.

Lemma ranges_length l : zlen l <= zlen (concat (map SerializeRange l)).
Proof.
  induction l as [|r l IH]; [reflexivity|]. cbn [map concat]. rewrite zlen_cons, zlen_app.
  pose proof (SerializeRange_length r). lia.
Qed.

Lemma branch_mapping_roundtrip l rest :
  zlen l < 2 ^ 64 -> Forall wf_range l -> DeserializeBranchFileMapping (SerializeBranchFileMapping l ++ rest) = l.
Proof.
  intros Hn Hl. unfold DeserializeBranchFileMapping, SerializeBranchFileMapping. rewrite <- !app_assoc.
  pose proof (zlen_nonneg l). rewrite u64_id, fixed64_app by width. rewrite fixed64_drop.
  rewrite DeserializeRanges_roundtrip; [reflexivity|exact Hl|].
  pose proof (ranges_length l). unfold zlen in *. rewrite !length_app. lia.
Qed.

Lemma branch_metadata_decode m rest :
  wf_meta m -> DeserializeBranchManifestMetadata (SerializeBranchManifestMetadata m ++ rest) = Some m.
Proof.
  intros [Hn Ht Hc Hr]. destruct m as [name term ranges]. cbn [bm_branch_name bm_term bm_file_ranges] in *.
  unfold DeserializeBranchManifestMetadata, SerializeBranchManifestMetadata.
  cbn [bm_branch_name bm_term bm_file_ranges]. rewrite <- !app_assoc. pose proof (zlen_nonneg name).
  rewrite u32_id, fixed32_app by width. cbn [mbind option_bind].
  rewrite fixed32_drop, (proj2 (Z.ltb_ge _ _))
    by (rewrite !zlen_app, zlen_fixed64; zlia).
  rewrite ztake_app, zdrop_app, fixed64_app by exact Ht. cbn [mbind option_bind].
  rewrite fixed64_drop, branch_mapping_roundtrip by assumption. reflexivity.
Qed.

(** ** Attribution of files *)
Definition file_key (segment : bool) (id : Z) : Z := if segment then SegmentFileKey id else DataFileKey id.

(** Ids whose typed form is not reserved. *)
Definition ordinary_id (id : Z) : Prop := 0 <= id < 2 ^ 63 - 1.

Lemma file_key_parts segment id :
  ordinary_id id -> IsSegmentFile (file_key segment id) = segment /\ ToFileId (file_key segment id) = id.
Proof.
  intros Hid. unfold ordinary_id in Hid. change (2 ^ 63) with 9223372036854775808 in Hid.
  assert (Hs : u64 (Z.shiftl id 1) = id * 2)
    by (rewrite Z.shiftl_mul_pow2 by lia; change (2 ^ 1) with 2; apply u64_id; width).
  assert (Hodd : forall n, Z.land (n * 2 + 1) 1 = 1)
    by (intros n; change 1 with (Z.ones 1) at 2; rewrite Z.land_ones by lia; change (2 ^ 1) with 2;
        rewrite Z.add_comm, Z_mod_plus_full; reflexivity).
  assert (Heven : forall n, Z.land (n * 2) 1 = 0)
    by (intros n; change 1 with (Z.ones 1); rewrite Z.land_ones by lia; apply Z_mod_mult).
  assert (Hlor : Z.lor (id * 2) 1 = id * 2 + 1) by (rewrite Z.mul_comm; apply lor_even_one).
  unfold file_key, IsSegmentFile, ToFileId, SegmentFileKey, DataFileKey, kMinReserved, MaxFileId.
  change (2 ^ 64 - 1 - 1) with 18446744073709551614. destruct segment; rewrite Hs.
  - rewrite Hlor, Hodd, (proj2 (Z.ltb_lt _ _)) by lia. split; [reflexivity|].
    rewrite Z.shiftr_div_pow2 by lia. change (2 ^ 1) with 2. rewrite Z.div_add_l by lia. change (1 / 2) with 0. lia.
  - rewrite Heven, andb_false_r. split; [reflexivity|].
    rewrite Z.shiftr_div_pow2 by lia. apply Z.div_mul. lia.
Qed.

Definition attribution (segment : bool) (mapping : BranchFileMapping) (id : Z) : option (bytes * Z) :=
  GetBranchNameAndTerm mapping (file_key segment id).

Lemma attribution_cons segment r mapping id :
  ordinary_id id ->
  attribution segment (r :: mapping) id =
  if range_max segment r <? id then attribution segment mapping id else Some (branch_name_ r, term_ r).
Proof.
  intros Hid. destruct (file_key_parts segment id Hid) as [H1 H2].
  unfold attribution, GetBranchNameAndTerm. cbn [FindBranchRange]. unfold range_lt. rewrite H1, H2.
  destruct (_ <? _); reflexivity.
Qed.

(** The recorded maxima do not decrease, and none is above the current file. *)
Definition ranges_upto (segment : bool) (mapping : BranchFileMapping) (cur : Z) : Prop :=
  StronglySorted Z.le (map (range_max segment) mapping) /\ Forall (fun r => 0 <= range_max segment r <= cur) mapping.

(** Everything that has an attribution keeps it. *)
Definition keeps (segment : bool) (mapping mapping' : BranchFileMapping) : Prop :=
  forall id x, ordinary_id id -> attribution segment mapping id = Some x -> attribution segment mapping' id = Some x.

Lemma set_max_same segment r id : range_max segment (set_max segment r id) = id.
Proof. destruct segment; reflexivity. Qed.

Lemma set_max_other segment r id : range_max (negb segment) (set_max segment r id) = range_max (negb segment) r.
Proof. destruct segment; reflexivity. Qed.

Lemma set_max_owner segment r id : branch_name_ (set_max segment r id) = branch_name_ r /\ term_ (set_max segment r id) = term_ r.
Proof. destruct segment; split; reflexivity. Qed.

Lemma keeps_cons segment r mapping mapping' :
  keeps segment mapping mapping' -> keeps segment (r :: mapping) (r :: mapping').
Proof.
  intros Hk id x Hid. rewrite !attribution_cons by exact Hid. destruct (_ <? _); auto.
Qed.

Lemma keeps_snoc segment mapping r : keeps segment mapping (mapping ++ [r]).
Proof.
  induction mapping as [|r' mapping IH]; [intros id x _ Hx; discriminate|]. simpl. apply keeps_cons, IH.
Qed.

(** Raising the last maximum keeps what was attributed. *)
Lemma keeps_extend segment mapping r r' :
  branch_name_ r' = branch_name_ r -> term_ r' = term_ r -> range_max segment r <= range_max segment r' ->
  keeps segment (mapping ++ [r]) (mapping ++ [r']).
Proof.
  intros Hb Ht Hm. induction mapping as [|r0 mapping IH]; [|simpl; apply keeps_cons, IH].
  intros id x Hid. cbn [app]. rewrite !attribution_cons by exact Hid. rewrite Hb, Ht.
  destruct (Z.ltb_spec (range_max segment r) id); [discriminate|].
  rewrite (proj2 (Z.ltb_ge _ _)) by lia. auto.
Qed.

(** The cases of [SetBranchFileIdTerm], on the last range. *)
Lemma SetBranchFileIdTerm_snoc segment mapping back id b t :
  ordinary_id id ->
  SetBranchFileIdTerm (mapping ++ [back]) (file_key segment id) b t =
  if bool_decide (branch_name_ back = b) && (term_ back =? t) then
    if range_max segment back <=? id then Some (mapping ++ [set_max segment back id]) else None
  else Some ((mapping ++ [back]) ++
    [set_max segment (mkRange b t (max_file_id_ back) (max_segment_file_id_ back)) id]).
Proof.
  intros Hid. destruct (file_key_parts segment id Hid) as [H1 H2].
  induction mapping as [|r mapping IH]; cbn [app SetBranchFileIdTerm].
  - rewrite H1, H2. reflexivity.
  - destruct (mapping ++ [back]) as [|r' rest] eqn:Hm; [destruct mapping; discriminate|].
    rewrite IH. destruct (_ && _); [|reflexivity]. destruct (_ <=? _); [|reflexivity]. destruct mapping; reflexivity.
Qed.

Lemma upto_snoc segment mapping r cur :
  ranges_upto segment (mapping ++ [r]) cur <->
  ranges_upto segment mapping (range_max segment r) /\ 0 <= range_max segment r <= cur.
Proof.
  unfold ranges_upto. rewrite map_app, StronglySorted_app, Forall_app. simpl.
  rewrite !list.Forall_forall. split.
  - intros ((Hx & Hs & _) & Hf & Hr). specialize (Hr r (list_elem_of_here _ _)).
    split; [|exact Hr]. split; [exact Hs|]. intros r' Hr'. specialize (Hf r' Hr').
    specialize (Hx (range_max segment r') (range_max segment r) (list_elem_of_fmap_2 _ _ _ Hr') (list_elem_of_here _ _)). lia.
  - intros [[Hs Hf] Hr]. split; [split; [|split; [exact Hs|repeat constructor]]|split].
    + intros x y Hx Hy. apply list_elem_of_fmap in Hx as (r' & -> & Hr'). apply list_elem_of_singleton in Hy as ->.
      apply Hf, Hr'.
    + intros r' Hr'. specialize (Hf r' Hr'). lia.
    + intros r' Hr'. apply list_elem_of_singleton in Hr' as ->. exact Hr.
Qed.

Lemma upto_mono segment mapping cur cur' : cur <= cur' -> ranges_upto segment mapping cur -> ranges_upto segment mapping cur'.
Proof. intros Hc [Hs Hf]. split; [exact Hs|]. eapply Forall_impl; [|exact Hf]. cbv beta. lia. Qed.

(** A range that starts at the current file takes what no range has yet. *)
Lemma attribution_snoc segment mapping r id :
  ordinary_id id -> range_max segment r = id ->
  attribution segment (mapping ++ [r]) id =
  match attribution segment mapping id with Some x => Some x | None => Some (branch_name_ r, term_ r) end.
Proof.
  intros Hid Hr. induction mapping as [|r' mapping IH]; cbn [app].
  - rewrite attribution_cons, Hr, Z.ltb_irrefl by exact Hid. reflexivity.
  - rewrite !attribution_cons by exact Hid. destruct (_ <? _); auto.
Qed.

Lemma attribution_extend segment mapping r r' id :
  ordinary_id id -> range_max segment r <= id -> range_max segment r' = id ->
  branch_name_ r' = branch_name_ r -> term_ r' = term_ r ->
  attribution segment (mapping ++ [r']) id =
  match attribution segment (mapping ++ [r]) id with Some x => Some x | None => Some (branch_name_ r, term_ r) end.
Proof.
  intros Hid Hle Hr Hb Ht. induction mapping as [|r0 mapping IH]; cbn [app].
  - rewrite !attribution_cons, Hr, Z.ltb_irrefl, Hb, Ht by exact Hid. destruct (_ <? _); reflexivity.
  - rewrite !attribution_cons by exact Hid. destruct (_ <? _); auto.
Qed.

Lemma SetBranchFileIdTerm_ok segment mapping id b t other :
  ordinary_id id -> ranges_upto segment mapping id -> ranges_upto (negb segment) mapping other -> 0 <= other ->
  exists mapping', SetBranchFileIdTerm mapping (file_key segment id) b t = Some mapping' /\
    ranges_upto segment mapping' id /\ ranges_upto (negb segment) mapping' other /\
    keeps segment mapping mapping' /\ keeps (negb segment) mapping mapping' /\
    attribution segment mapping' id =
      match attribution segment mapping id with Some x => Some x | None => Some (b, t) end.
Proof.
  intros Hid Hs Ho Hother. assert (Hid0 : 0 <= id) by (destruct Hid; assumption).
  destruct mapping as [|back mapping _] using rev_ind.
  { destruct (file_key_parts segment id Hid) as [H1 H2].
    set (r := set_max segment (mkRange b t 0 0) id). exists ([] ++ [r]). cbn [SetBranchFileIdTerm]. rewrite H1, H2.
    split; [reflexivity|]. rewrite !upto_snoc. unfold r. rewrite set_max_same, set_max_other.
    split; [split; [split; constructor|lia]|]. split; [split; [split; constructor|destruct segment; simpl; lia]|].
    split; [intros ? ? _ Hx; discriminate|]. split; [intros ? ? _ Hx; discriminate|].
    rewrite attribution_snoc by (auto; apply set_max_same).
    destruct (set_max_owner segment (mkRange b t 0 0) id) as [-> ->]. reflexivity. }
  pose proof (proj1 (upto_snoc _ _ _ _) Hs) as [Hs1 Hs2]. pose proof (proj1 (upto_snoc _ _ _ _) Ho) as [Ho1 Ho2].
  rewrite SetBranchFileIdTerm_snoc by exact Hid.
  destruct (bool_decide (branch_name_ back = b) && (term_ back =? t)) eqn:Heq.
  - apply andb_true_iff in Heq as [Hb Ht]. apply bool_decide_eq_true in Hb. apply Z.eqb_eq in Ht. subst b t.
    rewrite (proj2 (Z.leb_le _ _)) by lia. destruct (set_max_owner segment back id) as [Hb Ht].
    eexists. split; [reflexivity|]. rewrite !upto_snoc, set_max_same, set_max_other.
    split; [split; [apply (upto_mono _ _ (range_max segment back)); [lia|exact Hs1]|lia]|]. split; [auto|].
    split; [apply keeps_extend; [exact Hb|exact Ht|rewrite set_max_same; lia]|].
    split; [apply keeps_extend; [exact Hb|exact Ht|rewrite set_max_other; lia]|].
    apply attribution_extend; [exact Hid|lia|apply set_max_same|exact Hb|exact Ht].
  - set (r := mkRange b t (max_file_id_ back) (max_segment_file_id_ back)).
    assert (Hr : range_max (negb segment) r = range_max (negb segment) back) by (destruct segment; reflexivity).
    destruct (set_max_owner segment r id) as [Hb Ht].
    eexists. split; [reflexivity|]. rewrite !(upto_snoc _ (mapping ++ [back])), set_max_same, set_max_other, Hr.
    split; [split; [exact Hs|lia]|].
    split; [split; [apply upto_snoc; split; [exact Ho1|lia]|exact Ho2]|].
    split; [apply keeps_snoc|]. split; [apply keeps_snoc|].
    rewrite attribution_snoc by (auto; apply set_max_same). rewrite Hb, Ht. reflexivity.
Qed.

Lemma upto_unattributed segment mapping cur id :
  ranges_upto segment mapping cur -> cur < id -> ordinary_id id -> attribution segment mapping id = None.
Proof.
  intros [_ Hf] Hlt Hid. induction Hf as [|r mapping Hr _ IH]; [reflexivity|].
  rewrite attribution_cons, (proj2 (Z.ltb_lt _ _)) by (lia || exact Hid). exact IH.
Qed.

(** The first half of [StampAllocation]: the current file has an owner. *)
Lemma stamp_current segment mapping before other b t :
  ordinary_id before -> ranges_upto segment mapping before -> ranges_upto (negb segment) mapping other -> 0 <= other ->
  exists m1,
    (match attribution segment mapping before with
     | Some _ => Some mapping
     | None => SetBranchFileIdTerm mapping (file_key segment before) b t
     end) = Some m1 /\ ranges_upto segment m1 before /\ ranges_upto (negb segment) m1 other /\
    keeps segment mapping m1 /\ keeps (negb segment) mapping m1 /\
    attribution segment m1 before =
      match attribution segment mapping before with Some x => Some x | None => Some (b, t) end.
Proof.
  intros Hb Hs Ho Hother. destruct (attribution segment mapping before) as [x|] eqn:Hx.
  - exists mapping. split; [reflexivity|]. split; [exact Hs|]. split; [exact Ho|].
    split; [intros id y _ Hy; exact Hy|]. split; [intros id y _ Hy; exact Hy|exact Hx].
  - destruct (SetBranchFileIdTerm_ok segment mapping before b t other Hb Hs Ho Hother) as (m1 & Hm1).
    rewrite Hx in Hm1. exists m1. exact Hm1.
Qed.

(** ** Properties *)

(** Recording an allocation never fails and never changes who wrote a file.
    When the maxima recorded so far do not pass the allocator's current file,
    stamping a move from file [before] to file [after] keeps that so for both
    kinds of files and leaves every file that had a branch and term with them;
    the files [before] and [after] then have one, the active branch and term if
    they had none. *)
Theorem stamp_keeps_attribution segment mapping before after other b t :
  ordinary_id before -> ordinary_id after -> before <= after ->
  ranges_upto segment mapping before -> ranges_upto (negb segment) mapping other -> 0 <= other ->
  exists mapping', StampAllocation (file_key segment) mapping before after b t = Some mapping' /\
    ranges_upto segment mapping' after /\ ranges_upto (negb segment) mapping' other /\
    keeps segment mapping mapping' /\ keeps (negb segment) mapping mapping' /\
    (forall id, id = before \/ id = after ->
      attribution segment mapping' id =
      match attribution segment mapping id with Some x => Some x | None => Some (b, t) end).
Proof.
  intros Hb Ha Hle Hs Ho Hother. unfold StampAllocation. fold (attribution segment mapping before).
  destruct (stamp_current segment mapping before other b t Hb Hs Ho Hother) as (m1 & -> & Hs1 & Ho1 & Hk1 & Hk1' & Hat1).
  cbn [mbind option_bind].
  destruct (Z.eqb_spec before after) as [<-|Hne].
  { exists m1. split; [reflexivity|]. split; [exact Hs1|]. split; [exact Ho1|]. split; [exact Hk1|].
    split; [exact Hk1'|]. intros id [->| ->]; exact Hat1. }
  destruct (SetBranchFileIdTerm_ok segment m1 after b t other Ha (upto_mono _ _ _ _ Hle Hs1) Ho1 Hother)
    as (m2 & Hm2 & Hs2 & Ho2 & Hk2 & Hk2' & Hat2).
  exists m2. split; [exact Hm2|]. split; [exact Hs2|]. split; [exact Ho2|].
  split; [intros id x Hid Hx; auto|]. split; [intros id x Hid Hx; auto|].
  intros id [->| ->].
  - destruct (attribution segment mapping before) as [x|] eqn:Hx; apply Hk2; auto.
  - rewrite Hat2. destruct (attribution segment mapping after) as [x|] eqn:Hx; [rewrite (Hk1 _ _ Ha Hx); reflexivity|].
    rewrite (upto_unattributed segment m1 before after Hs1 ltac:(lia) Ha). reflexivity.
Qed.

Lemma stamp_keeps_attribution_witness :
  exists mapping', StampAllocation (file_key false) [mkRange [109] 1 3 0] 4 5 [110] 2 = Some mapping' /\
    attribution false mapping' 3 = Some ([109], 1) /\ attribution false mapping' 5 = Some ([110], 2).
Proof.
  destruct (stamp_keeps_attribution false [mkRange [109] 1 3 0] 4 5 0 [110] 2)
    as (m & Hm & _ & _ & Hk & _ & Hat);
    try (split; [repeat constructor|repeat constructor; vm_compute; discriminate]);
    try (split; vm_compute; [discriminate|reflexivity]); try lia.
  exists m. split; [exact Hm|]. split; [|exact (Hat 5 (or_intror eq_refl))].
  apply Hk; [split; vm_compute; [discriminate|reflexivity]|reflexivity].
Defined.

(** A range that a data file started also claims segment file 0, which may not
    exist yet: a later generation that allocates its first segment file finds the
    old branch and term for it. *)
Theorem first_segment_misattributed data_file b t b' t' :
  ordinary_id data_file ->
  exists mapping mapping',
    StampAllocation (file_key false) [] data_file data_file b t = Some mapping /\
    StampAllocation (file_key true) mapping 0 0 b' t' = Some mapping' /\
    attribution true mapping' 0 = Some (b, t).
Proof.
  intros Hid. destruct (file_key_parts false data_file Hid) as [H1 H2].
  assert (H0 : ordinary_id 0) by (split; vm_compute; [discriminate|reflexivity]).
  set (r := mkRange b t data_file 0).
  assert (Hat : attribution true [r] 0 = Some (b, t)) by (rewrite attribution_cons by exact H0; reflexivity).
  exists [r], [r]. split; [|split; [|exact Hat]].
  - unfold StampAllocation. simpl GetBranchNameAndTerm. cbn [SetBranchFileIdTerm]. rewrite H1, H2, Z.eqb_refl. reflexivity.
  - unfold StampAllocation. fold (attribution true [r] 0). rewrite Hat. reflexivity.
Qed.

