(* ===== verification/Manifest.v ===== *)
(** * The manifest

    A partition keeps its roots and its page mapping in a manifest file: a
    snapshot record and log records with the changes of later write tasks
    ([ManifestBuilder] in src/storage/root_meta.cpp).  [Replayer]
    (src/replayer.cpp) reads the file back.  Every record has a header with a
    checksum and is padded to the page size of the machine.

    The hash function, the page size and the content of bytes that a grown
    buffer does not initialise are parameters. *)

From stdpp Require Import gmap.
From S2P Require Import Prelude Coding PageFormat IndexPageIter MappingTable Branch.

(** ** Layout of a record *)
Definition header_bytes : Z := checksum_bytes + 4 * 2 + 4.
Definition offset_root : Z := checksum_bytes.
Definition offset_ttl_root : Z := offset_root + 4.
Definition offset_len : Z := offset_ttl_root + 4.

Definition kCheckSumBatchSize : Z := 1024 * 1024.
Definition kChecksumMixer : Z := 11400714819323198485.

Definition rotl1 (x : Z) : Z := Z.lor (u64 (Z.shiftl x 1)) (Z.shiftr x 63).

Section manifest.
  Context (hash : bytes -> Z) (page_align : Z) (fresh : Z -> bytes).

(** [CalcChecksum], batch by batch. *)
Fixpoint CalcChecksum_loop (fuel : nat) (agg : Z) (content : bytes) : Z :=
  match fuel with
  | O => agg
  | S fuel' =>
      if zlen content =? 0 then agg
      else
        let checksum := hash (ztake kCheckSumBatchSize content) in
        CalcChecksum_loop fuel' (u64 (Z.lxor (rotl1 agg) checksum * kChecksumMixer))
          (zdrop kCheckSumBatchSize content)
  end.

Definition CalcChecksum (content : bytes) : Z := CalcChecksum_loop (length content) 0 content.

Definition ValidateRecord (record : bytes) : option bool :=
  if zlen record <? header_bytes then Some false
  else stored ← DecodeFixed64 record; Some (stored =? CalcChecksum (zdrop checksum_bytes record)).

(** ** Building records *)
Record ManifestBuilder := mkManifest {
  mb_buff : bytes;
  resized_for_mapping_bytes_len_ : bool
}.

(** [DirectIoBuffer::resize]. *)
Definition buff_resize (buff : bytes) (n : Z) : bytes :=
  if n <=? zlen buff then ztake n buff else buff ++ fresh (n - zlen buff).

Definition AlignSize (n : Z) : Z := Z.land (n + page_align - 1) (Z.lnot (page_align - 1)).

Definition AlignTo (buff : bytes) : bytes := buff ++ fresh (AlignSize (zlen buff) - zlen buff).

Definition ManifestReset (b : ManifestBuilder) : ManifestBuilder := mkManifest (buff_resize (mb_buff b) header_bytes) false.

Definition ManifestEmpty (b : ManifestBuilder) : bool := zlen (mb_buff b) <=? header_bytes.

Definition CurrentSize (b : ManifestBuilder) : Z := u32 (zlen (mb_buff b)).

(** The field of the mapping length is reserved before the first entry. *)
Definition reserve_mapping_len (b : ManifestBuilder) : option ManifestBuilder :=
  if resized_for_mapping_bytes_len_ b then Some b
  else if zlen (mb_buff b) =? header_bytes then
    Some (mkManifest (buff_resize (mb_buff b) (zlen (mb_buff b) + 4)) true)
  else None.

Definition append_entry (b : ManifestBuilder) (page_id value : Z) : option ManifestBuilder :=
  b ← reserve_mapping_len b;
  Some (mkManifest (mb_buff b ++ EncodeVarint32 page_id ++ EncodeVarint64 value) true).

Definition ManifestUpdateMapping (b : ManifestBuilder) (page_id file_page_id : Z) : option ManifestBuilder :=
  append_entry b page_id (EncodeFilePageId file_page_id).

Definition ManifestDeleteMapping (b : ManifestBuilder) (page_id : Z) : option ManifestBuilder :=
  append_entry b page_id InvalidValue.

(** Bytes behind a length of 32 bits that is filled in afterwards. *)
Definition append_sized (buff body : bytes) : bytes :=
  write_at (buff_resize buff (zlen buff + 4) ++ body) (zlen buff) (EncodeFixed32 (u32 (zlen body))).

Definition AppendBranchManifestMetadata (b : ManifestBuilder) (branch_metadata : bytes) : option ManifestBuilder :=
  b ← reserve_mapping_len b;
  let mapping_len := u32 (zlen (mb_buff b) - header_bytes - 4) in
  let buff := write_at (mb_buff b) header_bytes (EncodeFixed32 mapping_len) in
  Some (mkManifest (append_sized buff branch_metadata) true).

Definition AppendSegmentMapping (b : ManifestBuilder) (segment_mapping : bytes) : ManifestBuilder :=
  mkManifest (mb_buff b ++ segment_mapping) (resized_for_mapping_bytes_len_ b).

Definition Finalize (b : ManifestBuilder) (new_root ttl_root : Z) : ManifestBuilder * bytes :=
  let buff := write_at (mb_buff b) offset_root (EncodeFixed32 new_root) in
  let buff := write_at buff offset_ttl_root (EncodeFixed32 ttl_root) in
  let buff := write_at buff offset_len (EncodeFixed32 (u32 (zlen buff - header_bytes))) in
  let buff := write_at buff 0 (EncodeFixed64 (CalcChecksum (zdrop checksum_bytes buff))) in
  let buff := AlignTo buff in
  (mkManifest buff (resized_for_mapping_bytes_len_ b), buff).

(** [MappingSnapshot::Serialize]: a pointer to a cached page becomes its file page. *)
Definition serialize_word (h : Heap) (val : Z) : option Z :=
  if IsSwizzlingPointer val then p ← h !! val; Some (EncodeFilePageId (cp_file_page_id p)) else Some val.

Fixpoint Serialize_loop (h : Heap) (t : MappingTbl) (n : nat) (page_id : Z) : option bytes :=
  match n with
  | O => Some []
  | S n' =>
      val ← Get t page_id;
      val ← serialize_word h val;
      rest ← Serialize_loop h t n' (page_id + 1);
      Some (EncodeVarint64 val ++ rest)
  end.

Definition Serialize (h : Heap) (t : MappingTbl) : option bytes :=
  Serialize_loop h t (Z.to_nat (logical_size_ t)) 0.

(** [Snapshot]; [segment] is the segment mapping with its next file page, when
    the partition has one. *)
Definition Snapshot (b : ManifestBuilder) (root_id ttl_root : Z) (h : Heap) (mapping : MappingTbl) (max_fp_id : Z)
    (dict_bytes : bytes) (branch_metadata : BranchManifestMetadata) (segment : option (MappingTbl * Z))
    : option (ManifestBuilder * bytes) :=
  mapping_bytes ← Serialize h mapping;
  let buff := mb_buff (ManifestReset b) ++ EncodeVarint64 max_fp_id ++ EncodeVarint32 (u32 (zlen dict_bytes)) ++ dict_bytes in
  let buff := append_sized buff mapping_bytes in
  let buff := append_sized buff (SerializeBranchManifestMetadata branch_metadata) in
  buff ← (match segment with
          | None => Some buff
          | Some (seg_mapping, max_segment_fp_id) =>
              seg_bytes ← Serialize h seg_mapping;
              Some (append_sized (buff ++ EncodeVarint64 max_segment_fp_id) seg_bytes)
          end);
  Some (Finalize (mkManifest buff false) root_id ttl_root).

(** ** Replaying *)
Inductive KvError :=
  | NoError | InvalidArgs | NotFound | ResourceMissing | NotRunning | Corrupted | EndOfFile | OutOfSpace | OutOfMem
  | OpenFileLimit | TryAgain | Busy | Timeout | NoPermission | CloudErr | IoFail | ExpiredTerm | OssInsufficientStorage
  | AlreadyExists | LargeValueUnsupported.

(** A manifest file is the bytes that are left of it.  At the end of the file
    the in-memory store leaves them unread, the files on disk skip them. *)
Definition FileRead (skip : bool) (content : bytes) (n : Z) : option bytes * bytes :=
  if zlen content <? n then (None, if skip then [] else content) else (Some (ztake n content), zdrop n content).

Record Replayer := mkReplayer {
  corrupted_log_found_ : bool;
  root_ : Z;
  ttl_root_ : Z;
  rp_mapping_tbl_ : MappingTbl;
  rp_max_fp_id_ : Z;
  segment_mapping_tbl_ : MappingTbl;
  max_segment_fp_id_ : Z;
  file_size_before_corrupted_log_ : Z;
  file_size_ : Z;
  dict_bytes_ : bytes;
  branch_metadata_ : BranchManifestMetadata;
  payload_ : bytes
}.

Definition with_size (r : Replayer) (corrupted : bool) (before size : Z) : Replayer :=
  mkReplayer corrupted (root_ r) (ttl_root_ r) (rp_mapping_tbl_ r) (rp_max_fp_id_ r) (segment_mapping_tbl_ r)
    (max_segment_fp_id_ r) before size (dict_bytes_ r) (branch_metadata_ r) (payload_ r).

Definition with_record (r : Replayer) (root ttl_root : Z) (payload : bytes) : Replayer :=
  mkReplayer (corrupted_log_found_ r) root ttl_root (rp_mapping_tbl_ r) (rp_max_fp_id_ r) (segment_mapping_tbl_ r)
    (max_segment_fp_id_ r) (file_size_before_corrupted_log_ r) (file_size_ r) (dict_bytes_ r) (branch_metadata_ r) payload.

Definition with_tables (r : Replayer) (tbl : MappingTbl) (max_fp : Z) (seg_tbl : MappingTbl) (max_seg : Z) : Replayer :=
  mkReplayer (corrupted_log_found_ r) (root_ r) (ttl_root_ r) tbl max_fp seg_tbl max_seg
    (file_size_before_corrupted_log_ r) (file_size_ r) (dict_bytes_ r) (branch_metadata_ r) (payload_ r).

Definition with_meta (r : Replayer) (dict : bytes) (meta : BranchManifestMetadata) : Replayer :=
  mkReplayer (corrupted_log_found_ r) (root_ r) (ttl_root_ r) (rp_mapping_tbl_ r) (rp_max_fp_id_ r) (segment_mapping_tbl_ r)
    (max_segment_fp_id_ r) (file_size_before_corrupted_log_ r) (file_size_ r) dict meta (payload_ r).

(** [ParseNextRecord]; [None] is a read outside the record. *)
Definition ParseNextRecord (skip : bool) (r : Replayer) (file : bytes) : option (KvError * Replayer * bytes) :=
  match FileRead skip file header_bytes with
  | (None, file) => Some (EndOfFile, r, file)
  | (Some header, file) =>
      payload_len ← DecodeFixed32 (zdrop offset_len header);
      match FileRead skip file payload_len with
      | (None, file) => Some (EndOfFile, r, file)
      | (Some payload, file) =>
          let content := header ++ payload in
          let record_bytes := u32 (header_bytes + payload_len) in
          let remainder := Z.land record_bytes (page_align - 1) in
          let padding := if 0 <? remainder then page_align - remainder else 0 in
          valid ← ValidateRecord content;
          if negb valid then
            let before := if corrupted_log_found_ r then file_size_before_corrupted_log_ r else file_size_ r in
            let '(_, file) := FileRead skip file padding in
            Some (Corrupted, with_size r true before (file_size_ r + record_bytes + padding), file)
          else
            let r' := with_size r (corrupted_log_found_ r) (file_size_before_corrupted_log_ r)
                        (file_size_ r + record_bytes + padding) in
            match FileRead skip file padding with
            | (None, file) => Some (EndOfFile, r', file)
            | (Some _, file) =>
                let content := zdrop checksum_bytes content in
                root ← DecodeFixed32 content;
                ttl_root ← DecodeFixed32 (zdrop 4 content);
                Some (NoError, with_record r' root ttl_root (ztake payload_len (zdrop 12 content)), file)
            end
      end
  end.

(** The words of a mapping; each takes at least one byte. *)
Fixpoint read_table (fuel : nat) (t : MappingTbl) (view : bytes) : option MappingTbl :=
  match view with
  | [] => Some t
  | _ =>
      match fuel with
      | O => None
      | S fuel' =>
          '(value, view) ← GetVarint64 view;
          '(_, t, _) ← PushBack None t value;
          read_table fuel' t view
      end
  end.

(** The branch metadata behind its length, and what follows. *)
Definition read_branch (meta : BranchManifestMetadata) (remaining : bytes) : option (BranchManifestMetadata * bytes) :=
  if 4 <=? zlen remaining then
    len ← DecodeFixed32 remaining;
    let remaining := zdrop 4 remaining in
    if (0 <? len) && (len <=? zlen remaining) then
      meta ← DeserializeBranchManifestMetadata (ztake len remaining);
      Some (meta, zdrop len remaining)
    else Some (meta, remaining)
  else Some (meta, remaining).

Definition DeserializeSnapshot (r : Replayer) : option Replayer :=
  '(max_fp_id, snapshot) ← GetVarint64 (payload_ r);
  '(dict_len, snapshot) ← GetVarint32 snapshot;
  '(dict, snapshot) ← (if 0 <? dict_len then
                         if dict_len <=? zlen snapshot then Some (ztake dict_len snapshot, zdrop dict_len snapshot)
                         else None
                       else Some ([], snapshot));
  if zlen snapshot <? 4 then None
  else
    mapping_len ← DecodeFixed32 snapshot;
    if zlen snapshot - 4 <=? mapping_len then None
    else
      let view := ztake mapping_len (zdrop 4 snapshot) in
      tbl ← read_table (length view) (rp_mapping_tbl_ r) view;
      '(meta, remaining) ← read_branch (branch_metadata_ r) (zdrop (4 + mapping_len) snapshot);
      let r := with_meta r dict meta in
      if 4 <=? zlen remaining then
        '(max_seg, remaining) ← GetVarint64 remaining;
        if zlen remaining <? 4 then None
        else
          seg_len ← DecodeFixed32 remaining;
          let view := ztake seg_len (zdrop 4 remaining) in
          seg ← read_table (length view) empty_tbl view;
          Some (with_tables r tbl max_fp_id seg max_seg)
      else Some (with_tables r tbl max_fp_id (segment_mapping_tbl_ r) (max_segment_fp_id_ r)).

(** Fills the table with invalid words up to [page_id]. *)
Fixpoint grow_to (fuel : nat) (t : MappingTbl) (page_id : Z) : option MappingTbl :=
  if page_id <? logical_size_ t then Some t
  else
    match fuel with
    | O => None
    | S fuel' => '(_, t, _) ← PushBack None t InvalidValue; grow_to fuel' t page_id
    end.

(** The entries of a log record: page ids and words. *)
Fixpoint replay_entries (fuel : nat) (t : MappingTbl) (max_fp : Z) (view : bytes) : option (MappingTbl * Z) :=
  match view with
  | [] => Some (t, max_fp)
  | _ =>
      match fuel with
      | O => None
      | S fuel' =>
          '(page_id, view) ← GetVarint32 view;
          t ← grow_to (S (Z.to_nat page_id)) t page_id;
          '(value, view) ← GetVarint64 view;
          '(t, _) ← Set_ None t page_id value;
          replay_entries fuel' t (if IsFilePageId value then Z.max max_fp (u64 (DecodeId value + 1)) else max_fp) view
      end
  end.

Definition ReplayLog (r : Replayer) : option Replayer :=
  if zlen (payload_ r) <=? 4 then None
  else
    mapping_len ← DecodeFixed32 (payload_ r);
    if zlen (payload_ r) <? 4 + mapping_len then None else
    let view := ztake mapping_len (zdrop 4 (payload_ r)) in
    '(tbl, max_fp) ← replay_entries (length view) (rp_mapping_tbl_ r) (rp_max_fp_id_ r) view;
    '(meta, remaining) ← read_branch (branch_metadata_ r) (zdrop (4 + mapping_len) (payload_ r));
    let r := with_meta r (dict_bytes_ r) meta in
    if 4 <=? zlen remaining then
      seg_len ← DecodeFixed32 remaining;
      let view := ztake seg_len (zdrop 4 remaining) in
      '(seg, max_seg) ← replay_entries (length view) (segment_mapping_tbl_ r) (max_segment_fp_id_ r) view;
      Some (with_tables r tbl max_fp seg max_seg)
    else Some (with_tables r tbl max_fp (segment_mapping_tbl_ r) (max_segment_fp_id_ r)).

(** The loop over the log records; each takes bytes of the file. *)
Fixpoint replay_loop (fuel : nat) (skip : bool) (r : Replayer) (file : bytes) (corrupted : bool)
    : option (KvError * Replayer) :=
  match fuel with
  | O => None
  | S fuel' =>
      '(err, r, file) ← ParseNextRecord skip r file;
      match err with
      | EndOfFile =>
          Some (NoError,
                if corrupted_log_found_ r
                then with_size r true (file_size_before_corrupted_log_ r) (file_size_before_corrupted_log_ r) else r)
      | Corrupted => replay_loop fuel' skip r file true
      | NoError =>
          if corrupted then Some (Corrupted, r)
          else r ← ReplayLog r; replay_loop fuel' skip r file false
      | _ => Some (err, r)
      end
  end.

(** [Replay], on a new [Replayer]. *)
Definition start_replayer : Replayer :=
  mkReplayer false MaxPageId MaxPageId empty_tbl MaxFilePageId empty_tbl 0 0 0 [] (mkBranchMeta [] 0 []) [].

Definition Replay (skip : bool) (file : bytes) : option (KvError * Replayer) :=
  '(err, r, file) ← ParseNextRecord skip start_replayer file;
  match err with
  | NoError =>
      if zlen (payload_ r) =? 0 then None
      else r ← DeserializeSnapshot r; replay_loop (S (length file)) skip r file false
  | _ => Some (err, r)
  end.
End manifest.

(** ** Records as byte strings *)

(** The content of a record behind its checksum. *)
Definition record_body (root ttl_root : Z) (payload : bytes) : bytes :=
  EncodeFixed32 root ++ EncodeFixed32 ttl_root ++ EncodeFixed32 (zlen payload) ++ payload.

Lemma record_body_length root ttl_root payload : zlen (record_body root ttl_root payload) = 12 + zlen payload.
Proof. unfold record_body. rewrite !zlen_app, !zlen_fixed32. lia. Qed.

Lemma record_body_payload root ttl_root payload : zdrop 12 (record_body root ttl_root payload) = payload.
Proof. reflexivity. Qed.

(** What is left of a buffer after a write. *)
Lemma write_at_split (a b c src : bytes) off :
  off = zlen a -> zlen src = zlen b -> write_at (a ++ b ++ c) off src = a ++ src ++ c.
Proof.
  intros -> Hl. unfold write_at. rewrite ztake_app. do 2 f_equal.
  rewrite Hl, <- zlen_app, app_assoc. apply zdrop_app.
Qed.

Lemma FileRead_app skip a b : FileRead skip (a ++ b) (zlen a) = (Some a, b).
Proof.
  unfold FileRead. rewrite zlen_app, (proj2 (Z.ltb_ge _ _)) by (pose proof (zlen_nonneg b); lia).
  rewrite ztake_app, zdrop_app. reflexivity.
Qed.

Lemma FileRead_exact skip a b n : zlen a = n -> FileRead skip (a ++ b) n = (Some a, b).
Proof. intros <-. apply FileRead_app. Qed.

Lemma FileRead_short skip c n : zlen c < n -> exists c', FileRead skip c n = (None, c').
Proof. intros H. unfold FileRead. rewrite (proj2 (Z.ltb_lt _ _)) by exact H. eauto. Qed.

Section records.
  Context (hash : bytes -> Z) (page_align : Z) (fresh : Z -> bytes).

  Local Abbreviation CalcChecksum := (CalcChecksum hash).

Definition padding_of (n : Z) : Z := if 0 <? n mod page_align then page_align - n mod page_align else 0.

Definition record (root ttl_root : Z) (payload : bytes) : bytes :=
  EncodeFixed64 (CalcChecksum (record_body root ttl_root payload)) ++ record_body root ttl_root payload ++
  fresh (padding_of (header_bytes + zlen payload)).

Definition record_ok (root ttl_root : Z) (payload : bytes) : Prop :=
  is_u32 root /\ is_u32 ttl_root /\ header_bytes + zlen payload < 2 ^ 32.

Lemma CalcChecksum_u64 content : is_u64 (CalcChecksum content).
Proof.
  unfold Manifest.CalcChecksum. generalize (length content) as fuel. intros fuel.
  assert (Hgen : forall agg content, is_u64 agg -> is_u64 (CalcChecksum_loop hash fuel agg content)).
  { clear content. induction fuel as [|fuel IH]; intros agg content Hagg; cbn [CalcChecksum_loop]; [exact Hagg|].
    case_if; [exact Hagg|apply IH, u64_range]. }
  apply Hgen. split; [discriminate|reflexivity].
Qed.

(** ** Reading records back *)
(** The header of a record. *)
Definition record_header (root ttl_root : Z) (payload : bytes) : bytes :=
  EncodeFixed64 (CalcChecksum (record_body root ttl_root payload)) ++ EncodeFixed32 root ++ EncodeFixed32 ttl_root ++
  EncodeFixed32 (zlen payload).

Lemma record_split root ttl_root payload :
  record root ttl_root payload =
  record_header root ttl_root payload ++ payload ++ fresh (padding_of (header_bytes + zlen payload)).
Proof. unfold record, record_header, record_body. rewrite <- !app_assoc. reflexivity. Qed.

Lemma record_header_length root ttl_root payload : zlen (record_header root ttl_root payload) = header_bytes.
Proof. reflexivity. Qed.

Lemma record_header_len root ttl_root payload rest :
  record_ok root ttl_root payload -> DecodeFixed32 (zdrop offset_len (record_header root ttl_root payload) ++ rest) = Some (zlen payload).
Proof.
  intros (_ & _ & Hl). unfold record_header. rewrite !app_assoc, <- (app_assoc _ (EncodeFixed32 ttl_root)).
  replace offset_len with (zlen ((EncodeFixed64 (CalcChecksum (record_body root ttl_root payload)) ++ EncodeFixed32 root) ++
    EncodeFixed32 ttl_root)) by reflexivity. rewrite app_assoc, zdrop_app.
  apply fixed32_app. pose proof (zlen_nonneg payload). change header_bytes with 20 in Hl. width.
Qed.

Lemma ValidateRecord_ok root ttl_root payload :
  ValidateRecord hash (record_header root ttl_root payload ++ payload) = Some true.
Proof.
  unfold ValidateRecord. rewrite zlen_app, record_header_length.
  rewrite (proj2 (Z.ltb_ge _ _)) by (pose proof (zlen_nonneg payload); lia).
  unfold record_header. rewrite <- !app_assoc. fold (record_body root ttl_root payload).
  rewrite fixed64_app by apply CalcChecksum_u64. cbn [mbind option_bind].
  change checksum_bytes with (zlen (EncodeFixed64 (CalcChecksum (record_body root ttl_root payload)))).
  rewrite zdrop_app, Z.eqb_refl. reflexivity.
Qed.
End records.

Section manifest_ok.
  Context (hash : bytes -> Z) (page_align : Z) (fresh : Z -> bytes).
  Context (Hfresh : forall n, 0 <= n -> zlen (fresh n) = n).
  Context (k : Z) (Hk : 0 <= k) (Halign : page_align = 2 ^ k).

  Local Abbreviation padding_of := (padding_of page_align).
  Local Abbreviation record := (record hash page_align fresh).
  Local Abbreviation ParseNextRecord := (ParseNextRecord hash page_align).

Lemma align_pos : 0 < page_align.
Proof using Hk Halign. rewrite Halign. apply Z.pow_pos_nonneg; lia. Qed.

Lemma padding_range n : 0 <= padding_of n < page_align.
Proof using Hk Halign.
  pose proof align_pos. pose proof (Z.mod_pos_bound n page_align ltac:(lia)). unfold padding_of. case_if; lia.
Qed.

Lemma land_align n : Z.land n (page_align - 1) = n mod page_align.
Proof using Hk Halign. rewrite Halign. rewrite Z.sub_1_r, <- Z.ones_equiv. apply Z.land_ones, Hk. Qed.

Lemma AlignSize_eq n : 0 <= n -> AlignSize page_align n = n + padding_of n.
Proof using Hk Halign.
  intros Hn. pose proof align_pos as Hp. unfold AlignSize, padding_of.
  replace (page_align - 1) with (Z.ones k) by (rewrite Z.ones_equiv, Halign; lia).
  rewrite <- Z.ldiff_land, Z.ldiff_ones_r, Z.shiftr_div_pow2, Z.shiftl_mul_pow2, <- Halign by exact Hk.
  pose proof (Z.div_mod n page_align ltac:(lia)) as Hdm. pose proof (Z.mod_pos_bound n page_align ltac:(lia)).
  case_if.
  - replace (n + page_align - 1) with ((n / page_align + 1) * page_align + (n mod page_align - 1)) by lia.
    rewrite Z.div_add_l, (Z.div_small (n mod page_align - 1)) by lia. lia.
  - replace (n + page_align - 1) with (n / page_align * page_align + (page_align - 1)) by lia.
    rewrite Z.div_add_l, (Z.div_small (page_align - 1)) by lia. lia.
Qed.

Lemma record_length root ttl_root payload :
  zlen (record root ttl_root payload) = header_bytes + zlen payload + padding_of (header_bytes + zlen payload).
Proof using Hfresh Hk Halign.
  unfold record. rewrite !zlen_app, zlen_fixed64, record_body_length, Hfresh by apply padding_range.
  change header_bytes with 20. lia.
Qed.

Lemma Finalize_record h payload b root ttl_root :
  zlen h = header_bytes -> header_bytes + zlen payload < 2 ^ 32 -> mb_buff b = h ++ payload ->
  snd (Finalize hash page_align fresh b root ttl_root) = record root ttl_root payload.
Proof using Hk Halign.
  intros Hh Hlen Hb. unfold Finalize. cbn [snd]. rewrite Hb. change header_bytes with 20 in *.
  change offset_root with 8. change offset_ttl_root with 12. change offset_len with 16. change checksum_bytes with 8.
  rewrite <- (ztake_zdrop 8 h), <- (ztake_zdrop 4 (zdrop 8 h)), <- (ztake_zdrop 4 (zdrop 4 (zdrop 8 h))).
  rewrite !zdrop_zdrop by lia. change (8 + 4) with 12. change (12 + 4) with 16.
  set (h0 := ztake 8 h). set (h1 := ztake 4 (zdrop 8 h)). set (h2 := ztake 4 (zdrop 12 h)). set (h3 := zdrop 16 h).
  assert (H0 : zlen h0 = 8) by (apply zlen_ztake; lia).
  assert (H1 : zlen h1 = 4) by (apply zlen_ztake; rewrite zlen_zdrop; lia).
  assert (H2 : zlen h2 = 4) by (apply zlen_ztake; rewrite zlen_zdrop; lia).
  assert (H3 : zlen h3 = 4) by (unfold h3; rewrite zlen_zdrop; lia).
  rewrite <- !app_assoc. rewrite (write_at_split h0 h1) by (rewrite ?zlen_fixed32; lia).
  rewrite (app_assoc h0), (write_at_split (h0 ++ _) h2) by (rewrite ?zlen_app, ?zlen_fixed32; lia).
  rewrite (app_assoc (h0 ++ _)), (write_at_split ((h0 ++ _) ++ _) h3) by (rewrite ?zlen_app, ?zlen_fixed32; lia).
  rewrite <- !app_assoc, !zlen_app, !zlen_fixed32, H0, H3.
  replace (8 + (4 + (4 + (4 + zlen payload))) - 20) with (zlen payload) by lia.
  pose proof (zlen_nonneg payload). rewrite u32_id by width.
  fold (record_body root ttl_root payload).
  replace (zdrop 8 (h0 ++ record_body root ttl_root payload)) with (record_body root ttl_root payload)
    by (rewrite <- H0, zdrop_app; reflexivity).
  rewrite <- (app_nil_l (h0 ++ _)), (write_at_split [] h0) by (rewrite ?zlen_fixed64; auto).
  unfold AlignTo, record. cbn [app]. rewrite <- app_assoc. do 3 f_equal.
  rewrite AlignSize_eq by apply zlen_nonneg. rewrite zlen_app, zlen_fixed64, record_body_length.
  change header_bytes with 20. replace (8 + (12 + zlen payload)) with (20 + zlen payload) by lia. lia.
Qed.


(** The replayer after a record was taken from the file. *)
Definition after_record (r : Replayer) (root ttl_root : Z) (payload : bytes) : Replayer :=
  with_record (with_size r (corrupted_log_found_ r) (file_size_before_corrupted_log_ r)
                 (file_size_ r + zlen (record root ttl_root payload))) root ttl_root payload.

Lemma padding_expr n :
  is_u32 n -> (if 0 <? Z.land (u32 n) (page_align - 1) then page_align - Z.land (u32 n) (page_align - 1) else 0) = padding_of n.
Proof using Hk Halign. intros Hn. rewrite u32_id, land_align by exact Hn. reflexivity. Qed.

Lemma ParseNextRecord_ok skip r root ttl_root payload file :
  record_ok root ttl_root payload ->
  ParseNextRecord skip r (record root ttl_root payload ++ file) = Some (NoError, after_record r root ttl_root payload, file).
Proof using Hfresh Hk Halign.
  intros Hok. unfold after_record. rewrite record_length, record_split, <- !app_assoc. unfold Manifest.ParseNextRecord.
  rewrite <- (record_header_length hash root ttl_root payload), FileRead_app, <- (app_nil_r (zdrop offset_len _)).
  rewrite record_header_len by exact Hok. cbn [mbind option_bind]. rewrite FileRead_app, ValidateRecord_ok.
  cbn [mbind option_bind negb]. rewrite record_header_length. pose proof Hok as (Hr & Ht & Hl). pose proof (zlen_nonneg payload).
  assert (Hn : is_u32 (header_bytes + zlen payload)) by (change header_bytes with 20 in *; width).
  rewrite padding_expr, u32_id by exact Hn.
  pose proof (FileRead_app skip (fresh (padding_of (header_bytes + zlen payload))) file) as Hskip.
  rewrite Hfresh in Hskip by apply padding_range. rewrite Hskip. unfold record_header. rewrite <- !app_assoc.
  change checksum_bytes with 8. rewrite fixed64_drop, fixed32_app by exact Hr. cbn [mbind option_bind].
  rewrite fixed32_drop, fixed32_app by exact Ht. cbn [mbind option_bind].
  fold (record_body root ttl_root payload). rewrite record_body_payload, ztake_all, <- Z.add_assoc. reflexivity.
Qed.

(** A record of which only a part reached the file is the end of it. *)
Lemma ParseNextRecord_torn skip r root ttl_root payload n :
  record_ok root ttl_root payload -> 0 <= n < zlen (record root ttl_root payload) ->
  exists r' file', ParseNextRecord skip r (ztake n (record root ttl_root payload)) = Some (EndOfFile, r', file') /\
    r' = with_size r (corrupted_log_found_ r) (file_size_before_corrupted_log_ r) (file_size_ r') /\
    (n < header_bytes + zlen payload -> r' = r) /\
    (header_bytes + zlen payload <= n -> file_size_ r' = file_size_ r + zlen (record root ttl_root payload)).
Proof using Hfresh Hk Halign.
  intros Hok Hn. pose proof (record_length root ttl_root payload) as Hlen. rewrite record_split in *.
  assert (Hr : r = with_size r (corrupted_log_found_ r) (file_size_before_corrupted_log_ r) (file_size_ r)) by (destruct r; reflexivity).
  set (hd := record_header hash root ttl_root payload) in *. set (pad := fresh (padding_of (header_bytes + zlen payload))) in *.
  assert (Hhd : zlen hd = header_bytes) by reflexivity. pose proof (zlen_nonneg payload). pose proof (zlen_nonneg pad).
  assert (Hdec : DecodeFixed32 (zdrop offset_len hd) = Some (zlen payload)) by (rewrite <- (app_nil_r (zdrop _ _)); apply record_header_len; exact Hok).
  assert (Hval : ValidateRecord hash (hd ++ payload) = Some true) by apply ValidateRecord_ok.
  unfold Manifest.ParseNextRecord. destruct (Z.lt_ge_cases n (zlen hd)) as [Hlt|Hge].
  { destruct (FileRead_short skip (ztake n (hd ++ payload ++ pad)) header_bytes) as [f' ->]; [rewrite zlen_ztake; lia|].
    exists r, f'. split_and!; auto; lia. }
  replace (ztake n (hd ++ payload ++ pad)) with (hd ++ ztake (n - zlen hd) (payload ++ pad))
    by (symmetry; apply ztake_app_ge; lia).
  rewrite <- Hhd, FileRead_app, Hdec. cbn [mbind option_bind]. rewrite Hhd in *.
  destruct (Z.lt_ge_cases (n - header_bytes) (zlen payload)) as [Hlt|Hge'].
  { destruct (FileRead_short skip (ztake (n - header_bytes) (payload ++ pad)) (zlen payload)) as [f' ->]; [rewrite zlen_ztake; rewrite ?zlen_app in *; lia|].
    exists r, f'. split_and!; auto; lia. }
  rewrite (ztake_app_ge payload) by lia. rewrite FileRead_app, Hval.
  cbn [mbind option_bind negb]. pose proof Hok as (_ & _ & Hl).
  rewrite padding_expr by (change header_bytes with 20 in *; width).
  destruct (FileRead_short skip (ztake (n - header_bytes - zlen payload) pad) (padding_of (header_bytes + zlen payload))) as [f' ->].
  { rewrite !zlen_app in *. rewrite zlen_ztake; lia. }
  do 2 eexists. split; [reflexivity|]. split; [reflexivity|]. split; [intros; lia|]. intros _.
  cbn [with_size file_size_]. rewrite u32_id by (change header_bytes with 20 in *; width). lia.
Qed.
End manifest_ok.
