(* ===== verification/ManifestSpec.v ===== *)
(** * What a manifest replays to

    The state of a partition as a manifest describes it, the payloads of
    snapshot and log records, and the theorem that [Replayer] (src/replayer.cpp)
    folds them back into that state, also when the last record was only partly
    written. *)

From stdpp Require Import gmap.
From S2P Require Import Prelude Coding PageFormat IndexPageIter MappingTable Branch Manifest.

(** ** Tables as arrays *)
Lemma array_empty : is_array empty_tbl [].
Proof.
  split_and!; auto; [apply empty_tbl_inv|]. intros p Hp. change (zlen (@nil Z)) with 0 in Hp. lia.
Qed.

Lemma array_push t l v :
  is_array t l -> zlen l < 2 ^ 32 ->
  exists id t' a', PushBack None t v = Some (id, t', a') /\ is_array t' (l ++ [v]).
Proof.
  intros Ht Hl. destruct (array_step None t l (OpPush v) [] I Ht (conj Hl I)) as (t' & a' & Hr & _ & Ht').
  cbn [run_tbl_ops] in Hr. destruct (PushBack None t v) as [[[id t1] a1]|]; [|discriminate Hr].
  injection Hr as -> ->. eauto.
Qed.

Lemma array_set t l p v :
  is_array t l -> 0 <= p < zlen l -> exists t' a', Set_ None t p v = Some (t', a') /\ is_array t' (<[Z.to_nat p := v]> l).
Proof.
  intros Ht Hp. destruct (array_step None t l (OpSet p v) [] I Ht (conj Hp I)) as (t' & a' & Hr & _ & Ht').
  cbn [run_tbl_ops] in Hr. destruct (Set_ None t p v) as [[t1 a1]|]; [|discriminate Hr].
  injection Hr as -> ->. eauto.
Qed.

(** ** Words *)
Definition encode_words (l : list Z) : bytes := concat (map EncodeVarint64 l).

Lemma varint64_pos v : 1 <= zlen (EncodeVarint64 v).
Proof. rewrite <- Varint64Size_length. apply Varint64Size_range. Qed.

Lemma varint32_pos v : 1 <= zlen (EncodeVarint32 v).
Proof. rewrite <- Varint32Size_length. apply Varint32Size_range. Qed.

Lemma read_table_ok l : forall fuel t l0,
  is_array t l0 -> Forall is_u64 l -> zlen l0 + zlen l <= 2 ^ 32 -> (length (encode_words l) <= fuel)%nat ->
  exists t', read_table fuel t (encode_words l) = Some t' /\ is_array t' (l0 ++ l).
Proof.
  induction l as [|w l IH]; intros fuel t l0 Ht Hl Hn Hf.
  { exists t. rewrite app_nil_r. destruct fuel; auto. }
  apply Forall_cons_1 in Hl as [Hw Hl]. cbn [encode_words map concat] in *. fold (encode_words l) in *.
  pose proof (varint64_pos w) as Hpos. rewrite length_app in Hf. rewrite zlen_cons in Hn.
  destruct (EncodeVarint64 w ++ encode_words l) as [|b view] eqn:Hv.
  { apply (f_equal zlen) in Hv. rewrite zlen_app in Hv. change (zlen (@nil Z)) with 0 in Hv. zlia. }
  destruct fuel as [|fuel]; [unfold zlen in Hpos; lia|]. cbn [read_table]. rewrite <- Hv.
  unfold GetVarint64. rewrite varint64_app by exact Hw. cbn [mbind option_bind].
  destruct (array_push t l0 w Ht) as (id & t' & a' & -> & Ht'); [zlia|]. cbn [mbind option_bind].
  destruct (IH fuel t' (l0 ++ [w]) Ht' Hl) as (t'' & Hr & Ht'').
  - rewrite zlen_app, zlen_cons. change (zlen (@nil Z)) with 0. lia.
  - unfold zlen in Hpos. lia.
  - exists t''. rewrite <- app_assoc in Ht''. auto.
Qed.

(** ** Entries of a log *)

(** Writing page [p] of a table that may be shorter. *)
Definition put_word (l : list Z) (e : Z * Z) : list Z :=
  <[Z.to_nat (fst e) := snd e]> (l ++ replicate (Z.to_nat (fst e + 1 - zlen l)) InvalidValue).

Definition bump_max (m : Z) (e : Z * Z) : Z :=
  if IsFilePageId (snd e) then Z.max m (u64 (DecodeId (snd e) + 1)) else m.

Definition encode_entry (e : Z * Z) : bytes := EncodeVarint32 (fst e) ++ EncodeVarint64 (snd e).

Definition encode_entries (es : list (Z * Z)) : bytes := concat (map encode_entry es).

Definition entry_ok (e : Z * Z) : Prop := is_u32 (fst e) /\ is_u64 (snd e).

Lemma put_word_length l e : 0 <= fst e -> zlen (put_word l e) = Z.max (zlen l) (fst e + 1).
Proof. intros H. unfold put_word, zlen in *. rewrite length_insert, length_app, length_replicate. lia. Qed.

Lemma put_words_length es l :
  Forall entry_ok es -> zlen l <= 2 ^ 32 -> zlen (fold_left put_word es l) <= 2 ^ 32.
Proof.
  revert l. induction es as [|e es IH]; intros l He Hl; [exact Hl|]. apply Forall_cons_1 in He as [[He _] Hes].
  apply IH; [exact Hes|]. rewrite put_word_length; width.
Qed.

Lemma grow_to_ok p : 0 <= p < 2 ^ 32 -> forall fuel t l,
  is_array t l -> p + 1 - zlen l <= Z.of_nat fuel ->
  exists t', grow_to fuel t p = Some t' /\ is_array t' (l ++ replicate (Z.to_nat (p + 1 - zlen l)) InvalidValue).
Proof.
  intros Hp. induction fuel as [|fuel IH]; intros t l Ht Hf; cbn [grow_to]; pose proof Ht as (_ & _ & Hs & _);
    rewrite Hs; case_if.
  - exists t. replace (Z.to_nat _) with 0%nat by lia. rewrite app_nil_r. auto.
  - lia.
  - exists t. replace (Z.to_nat _) with 0%nat by lia. rewrite app_nil_r. auto.
  - destruct (array_push t l InvalidValue Ht) as (id & t' & a' & -> & Ht'); [lia|]. cbn [mbind option_bind].
    destruct (IH t' _ Ht') as (t'' & Hg & Ht''); rewrite zlen_app, zlen_cons in *; change (zlen (@nil Z)) with 0 in *; [lia|].
    exists t''. split; [exact Hg|]. rewrite <- app_assoc in Ht''. cbn [app] in Ht''.
    replace (Z.to_nat (p + 1 - zlen l)) with (S (Z.to_nat (p + 1 - (zlen l + (1 + 0))))) by lia. exact Ht''.
Qed.

Lemma encode_entry_pos e : 2 <= zlen (encode_entry e).
Proof. unfold encode_entry. rewrite zlen_app. pose proof (varint32_pos (fst e)). pose proof (varint64_pos (snd e)). lia. Qed.

Lemma replay_entries_ok es : forall fuel t l m,
  is_array t l -> Forall entry_ok es -> zlen l <= 2 ^ 32 -> (length (encode_entries es) <= fuel)%nat ->
  exists t', replay_entries fuel t m (encode_entries es) = Some (t', fold_left bump_max es m) /\
    is_array t' (fold_left put_word es l).
Proof.
  induction es as [|e es IH]; intros fuel t l m Ht Hes Hn Hf.
  { exists t. destruct fuel; auto. }
  apply Forall_cons_1 in Hes as [[Hp Hw] Hes]. cbn [encode_entries map concat] in *. fold (encode_entries es) in *.
  pose proof (encode_entry_pos e) as Hpos. rewrite length_app in Hf.
  destruct (encode_entry e ++ encode_entries es) as [|b view] eqn:Hv.
  { apply (f_equal zlen) in Hv. rewrite zlen_app in Hv. change (zlen (@nil Z)) with 0 in Hv. zlia. }
  destruct fuel as [|fuel]; [unfold zlen in Hpos; lia|]. cbn [replay_entries]. rewrite <- Hv.
  unfold encode_entry. rewrite <- app_assoc. unfold GetVarint32. rewrite varint32_app by exact Hp. cbn [mbind option_bind].
  destruct (grow_to_ok (fst e) Hp (S (Z.to_nat (fst e))) t l Ht) as (t1 & -> & Ht1); [zlia|]. cbn [mbind option_bind].
  unfold GetVarint64. rewrite varint64_app by exact Hw. cbn [mbind option_bind].
  destruct (array_set t1 _ (fst e) (snd e) Ht1) as (t2 & a2 & -> & Ht2).
  { unfold zlen. rewrite length_app, length_replicate. unfold is_u32, zlen in *. lia. }
  cbn [mbind option_bind fold_left]. apply IH; [exact Ht2|exact Hes| |unfold zlen in Hpos; lia].
  fold (put_word l e). rewrite put_word_length; width.
Qed.

(** ** The state a manifest describes *)
Record ManifestState := mkState {
  ms_root : Z;
  ms_ttl_root : Z;
  ms_words : list Z;
  ms_max_fp : Z;
  ms_dict : bytes;
  ms_branch : BranchManifestMetadata;
  ms_seg_words : list Z;
  ms_max_seg : Z
}.

(** What a log record adds. *)
Record LogRecord := mkLog {
  lr_root : Z;
  lr_ttl_root : Z;
  lr_entries : list (Z * Z);
  lr_branch : BranchManifestMetadata;
  lr_segs : list (Z * Z)
}.

Definition apply_log (st : ManifestState) (lr : LogRecord) : ManifestState :=
  mkState (lr_root lr) (lr_ttl_root lr) (fold_left put_word (lr_entries lr) (ms_words st))
    (fold_left bump_max (lr_entries lr) (ms_max_fp st)) (ms_dict st) (lr_branch lr)
    (fold_left put_word (lr_segs lr) (ms_seg_words st)) (fold_left bump_max (lr_segs lr) (ms_max_seg st)).

Definition sized (b : bytes) : bytes := EncodeFixed32 (zlen b) ++ b.

Definition log_payload (lr : LogRecord) : bytes :=
  sized (encode_entries (lr_entries lr)) ++ sized (SerializeBranchManifestMetadata (lr_branch lr)) ++
  sized (encode_entries (lr_segs lr)).

(** A partition without large values has no segment section. *)
Definition snapshot_payload (st : ManifestState) (has_seg : bool) : bytes :=
  EncodeVarint64 (ms_max_fp st) ++ EncodeVarint32 (zlen (ms_dict st)) ++ ms_dict st ++
  sized (encode_words (ms_words st)) ++ sized (SerializeBranchManifestMetadata (ms_branch st)) ++
  (if has_seg then EncodeVarint64 (ms_max_seg st) ++ sized (encode_words (ms_seg_words st)) else []).

Record log_ok (lr : LogRecord) : Prop := {
  lo_record : record_ok (lr_root lr) (lr_ttl_root lr) (log_payload lr);
  lo_entries : Forall entry_ok (lr_entries lr);
  lo_branch : wf_meta (lr_branch lr);
  lo_segs : Forall entry_ok (lr_segs lr)
}.

Record state_ok (st : ManifestState) (has_seg : bool) : Prop := {
  so_record : record_ok (ms_root st) (ms_ttl_root st) (snapshot_payload st has_seg);
  so_words : Forall is_u64 (ms_words st);
  so_size : zlen (ms_words st) <= 2 ^ 32;
  so_max_fp : is_u64 (ms_max_fp st);
  so_branch : wf_meta (ms_branch st);
  so_seg_words : Forall is_u64 (ms_seg_words st);
  so_seg_size : zlen (ms_seg_words st) <= 2 ^ 32;
  so_max_seg : is_u64 (ms_max_seg st);
  so_seg : has_seg = false -> ms_seg_words st = [] /\ ms_max_seg st = 0
}.

(** The replayer holds the state, the roots apart. *)
Record holds (r : Replayer) (st : ManifestState) : Prop := {
  ho_words : is_array (rp_mapping_tbl_ r) (ms_words st);
  ho_size : zlen (ms_words st) <= 2 ^ 32;
  ho_max_fp : rp_max_fp_id_ r = ms_max_fp st;
  ho_dict : dict_bytes_ r = ms_dict st;
  ho_branch : branch_metadata_ r = ms_branch st;
  ho_seg_words : is_array (segment_mapping_tbl_ r) (ms_seg_words st);
  ho_seg_size : zlen (ms_seg_words st) <= 2 ^ 32;
  ho_max_seg : max_segment_fp_id_ r = ms_max_seg st
}.

Definition replays (r : Replayer) (st : ManifestState) : Prop :=
  root_ r = ms_root st /\ ttl_root_ r = ms_ttl_root st /\ holds r st.

Lemma sized_length b : zlen (sized b) = 4 + zlen b.
Proof. unfold sized. rewrite zlen_app, zlen_fixed32. reflexivity. Qed.

(** Reading a sized section. *)
Lemma sized_decode b rest :
  zlen b < 2 ^ 32 ->
  DecodeFixed32 (sized b ++ rest) = Some (zlen b) /\ zdrop 4 (sized b ++ rest) = b ++ rest /\
  zdrop (4 + zlen b) (sized b ++ rest) = rest.
Proof.
  intros Hb. pose proof (zlen_nonneg b). unfold sized. rewrite <- app_assoc. split_and!.
  - apply fixed32_app. width.
  - apply fixed32_drop.
  - rewrite <- zdrop_zdrop, fixed32_drop, zdrop_app by lia. reflexivity.
Qed.

Lemma branch_bytes_pos m : 4 <= zlen (SerializeBranchManifestMetadata m).
Proof. unfold SerializeBranchManifestMetadata. rewrite !zlen_app, zlen_fixed32. zlia. Qed.

Lemma read_branch_ok m0 m rest :
  wf_meta m -> zlen (SerializeBranchManifestMetadata m) < 2 ^ 32 ->
  read_branch m0 (sized (SerializeBranchManifestMetadata m) ++ rest) = Some (m, rest).
Proof.
  intros Hm Hl. pose proof (branch_bytes_pos m) as Hpos. destruct (sized_decode _ rest Hl) as (Hd & Hdrop & _).
  pose proof (branch_metadata_decode m [] Hm) as Hdec. rewrite app_nil_r in Hdec.
  set (b := SerializeBranchManifestMetadata m) in *. unfold read_branch.
  rewrite (proj2 (Z.leb_le _ _)) by (rewrite zlen_app, sized_length; zlia).
  rewrite Hd. cbn [mbind option_bind]. rewrite Hdrop, zlen_app.
  rewrite (proj2 (Z.ltb_lt _ _)), (proj2 (Z.leb_le _ _)) by zlia. cbn [andb].
  rewrite ztake_app, Hdec, zdrop_app. reflexivity.
Qed.

(** The sections of a payload fit in it. *)
Lemma log_sections lr :
  log_ok lr -> zlen (encode_entries (lr_entries lr)) < 2 ^ 32 /\
    zlen (SerializeBranchManifestMetadata (lr_branch lr)) < 2 ^ 32 /\ zlen (encode_entries (lr_segs lr)) < 2 ^ 32.
Proof.
  intros [(_ & _ & Hl) _ _ _]. unfold log_payload in Hl. rewrite !zlen_app, !sized_length in Hl.
  change header_bytes with 20 in Hl. zlen_facts. lia.
Qed.

Lemma ReplayLog_ok r st lr :
  log_ok lr -> holds r st -> payload_ r = log_payload lr ->
  exists tbl seg, ReplayLog r = Some (with_tables (with_meta r (dict_bytes_ r) (lr_branch lr)) tbl
      (fold_left bump_max (lr_entries lr) (ms_max_fp st)) seg (fold_left bump_max (lr_segs lr) (ms_max_seg st))) /\
    is_array tbl (fold_left put_word (lr_entries lr) (ms_words st)) /\
    is_array seg (fold_left put_word (lr_segs lr) (ms_seg_words st)).
Proof.
  intros Hlog Hr Hpay. destruct (log_sections lr Hlog) as (He & Hb & Hs). destruct Hlog as [_ Hes Hbr Hsegs].
  destruct Hr as [Hw Hn Hmax _ _ Hsw Hsn Hmaxs].
  pose proof (branch_bytes_pos (lr_branch lr)). unfold ReplayLog. rewrite Hpay. unfold log_payload.
  destruct (sized_decode _ (sized (SerializeBranchManifestMetadata (lr_branch lr)) ++ sized (encode_entries (lr_segs lr))) He)
    as (Hd & Hdrop & Hrest).
  rewrite (proj2 (Z.leb_gt _ _)) by (rewrite !zlen_app, !sized_length; zlia). rewrite Hd. cbn [mbind option_bind].
  rewrite (proj2 (Z.ltb_ge _ _)) by (rewrite !zlen_app, !sized_length; zlia).
  rewrite Hdrop, ztake_app, Hrest, read_branch_ok by assumption.
  destruct (replay_entries_ok (lr_entries lr) _ _ _ (rp_max_fp_id_ r) Hw Hes Hn (Nat.le_refl _)) as (t & -> & Ht).
  cbn [mbind option_bind]. rewrite (proj2 (Z.leb_le _ _)) by (rewrite sized_length; zlia).
  destruct (sized_decode _ [] Hs) as (Hd' & Hdrop' & _). rewrite !app_nil_r in *. rewrite Hd'. cbn [mbind option_bind].
  rewrite Hdrop', ztake_all. cbn [with_meta segment_mapping_tbl_ max_segment_fp_id_].
  destruct (replay_entries_ok (lr_segs lr) _ _ _ (max_segment_fp_id_ r) Hsw Hsegs Hsn (Nat.le_refl _)) as (seg & -> & Hseg).
  cbn [mbind option_bind]. rewrite Hmax, Hmaxs. eauto.
Qed.

Lemma snapshot_sections st has_seg :
  state_ok st has_seg -> zlen (ms_dict st) < 2 ^ 32 /\ zlen (encode_words (ms_words st)) < 2 ^ 32 /\
    zlen (SerializeBranchManifestMetadata (ms_branch st)) < 2 ^ 32 /\
    (has_seg = true -> zlen (encode_words (ms_seg_words st)) < 2 ^ 32).
Proof.
  intros [(_ & _ & Hl) _ _ _ _ _ _ _ _]. unfold snapshot_payload in Hl. rewrite !zlen_app, !sized_length in Hl.
  change header_bytes with 20 in Hl.
  destruct has_seg; [rewrite zlen_app, sized_length in Hl|change (zlen (@nil Z)) with 0 in Hl];
    zlen_facts; split_and!; intros; (discriminate || lia).
Qed.

(** The optional dictionary in front of the mapping. *)
Lemma read_dict_ok (dict rest : bytes) :
  (if 0 <? zlen dict then
     if zlen dict <=? zlen (dict ++ rest) then Some (ztake (zlen dict) (dict ++ rest), zdrop (zlen dict) (dict ++ rest)) else None
   else Some ([], dict ++ rest)) = Some (dict, rest).
Proof.
  destruct (Z.ltb_spec 0 (zlen dict)).
  - rewrite (proj2 (Z.leb_le _ _)), ztake_app, zdrop_app by (rewrite zlen_app; zlia). reflexivity.
  - rewrite (zlen_zero dict) by zlia. reflexivity.
Qed.

Lemma DeserializeSnapshot_ok r st has_seg :
  state_ok st has_seg -> rp_mapping_tbl_ r = empty_tbl -> segment_mapping_tbl_ r = empty_tbl -> max_segment_fp_id_ r = 0 ->
  payload_ r = snapshot_payload st has_seg ->
  exists tbl seg, DeserializeSnapshot r =
      Some (with_tables (with_meta r (ms_dict st) (ms_branch st)) tbl (ms_max_fp st) seg (ms_max_seg st)) /\
    is_array tbl (ms_words st) /\ is_array seg (ms_seg_words st).
Proof.
  intros Hst Htbl Hseg Hmaxs Hpay. destruct (snapshot_sections st has_seg Hst) as (Hdl & Hwl & Hbl & Hsl).
  destruct Hst as [_ Hw Hn Hmax Hb Hsw Hsn Hms Hnoseg]. pose proof (branch_bytes_pos (ms_branch st)).
  pose proof (zlen_nonneg (ms_dict st)).
  unfold DeserializeSnapshot. rewrite Hpay. unfold snapshot_payload, GetVarint64, GetVarint32.
  rewrite varint64_app by exact Hmax. cbn [mbind option_bind].
  rewrite varint32_app by width. cbn [mbind option_bind]. rewrite read_dict_ok. cbn [mbind option_bind].
  match goal with |- context [app (A := Z) (sized (encode_words (ms_words st))) ?x] => set (rest := x) end.
  assert (Hrl : 4 <= zlen rest) by (unfold rest; rewrite zlen_app, sized_length; zlia).
  destruct (sized_decode _ rest Hwl) as (Hd & Hdrop & Hrest).
  rewrite (proj2 (Z.ltb_ge _ _)) by (rewrite zlen_app, sized_length; zlia). rewrite Hd. cbn [mbind option_bind].
  rewrite (proj2 (Z.leb_gt _ _)) by (rewrite zlen_app, sized_length; lia). rewrite Hdrop, ztake_app, Hrest, Htbl.
  destruct (read_table_ok (ms_words st) (length (encode_words (ms_words st))) empty_tbl [] array_empty Hw)
    as (tbl & -> & Ht); [change (zlen (@nil Z)) with 0; lia|reflexivity|].
  cbn [mbind option_bind]. unfold rest. rewrite read_branch_ok by assumption. cbn [mbind option_bind with_meta].
  destruct has_seg.
  - pose proof (varint64_pos (ms_max_seg st)).
    rewrite (proj2 (Z.leb_le _ _)) by (rewrite zlen_app, sized_length; zlia).
    rewrite varint64_app by exact Hms. cbn [mbind option_bind].
    rewrite (proj2 (Z.ltb_ge _ _)) by (rewrite sized_length; zlia).
    destruct (sized_decode _ [] (Hsl eq_refl)) as (Hd' & Hdrop' & _). rewrite !app_nil_r in *. rewrite Hd'.
    cbn [mbind option_bind]. rewrite Hdrop', ztake_all.
    destruct (read_table_ok (ms_seg_words st) (length (encode_words (ms_seg_words st))) empty_tbl [] array_empty Hsw) as (seg & -> & Hs');
      [change (zlen (@nil Z)) with 0; lia|reflexivity|]. cbn [mbind option_bind]. exists tbl, seg. auto.
  - destruct (Hnoseg eq_refl) as (Hs1 & Hs2). exists tbl, empty_tbl.
    change (4 <=? zlen (@nil Z)) with false. cbn [with_meta segment_mapping_tbl_ max_segment_fp_id_].
    rewrite Hseg, Hmaxs, Hs1, Hs2. split; [reflexivity|]. split; [exact Ht|apply array_empty].
Qed.

(** ** Replaying a file *)
Section replay.
  Context (hash : bytes -> Z) (page_align : Z) (fresh : Z -> bytes).
  Context (Hfresh : forall n, 0 <= n -> zlen (fresh n) = n).
  Context (k : Z) (Hk : 0 <= k) (Halign : page_align = 2 ^ k).

  Local Abbreviation record := (record hash page_align fresh).
  Local Abbreviation padding_of := (padding_of page_align).
  Local Abbreviation ParseNextRecord := (ParseNextRecord hash page_align).
  Local Abbreviation replay_loop := (replay_loop hash page_align).
  Local Abbreviation Replay := (Replay hash page_align).

Definition log_record (lr : LogRecord) : bytes := record (lr_root lr) (lr_ttl_root lr) (log_payload lr).

Definition snapshot_record (st : ManifestState) (has_seg : bool) : bytes :=
  record (ms_root st) (ms_ttl_root st) (snapshot_payload st has_seg).

Definition manifest_bytes (st : ManifestState) (has_seg : bool) (logs : list LogRecord) : bytes :=
  snapshot_record st has_seg ++ concat (map log_record logs).

Lemma replay_log_step fuel skip r st lr file :
  log_ok lr -> replays r st ->
  exists r', replay_loop (S fuel) skip r (log_record lr ++ file) false = replay_loop fuel skip r' file false /\
    replays r' (apply_log st lr) /\ corrupted_log_found_ r' = corrupted_log_found_ r /\
    file_size_ r' = file_size_ r + zlen (log_record lr).
Proof using Hfresh Hk Halign.
  intros Hlr (_ & _ & Hh). cbn [Manifest.replay_loop]. unfold log_record at 1.
  rewrite (ParseNextRecord_ok hash page_align fresh Hfresh k Hk Halign) by apply Hlr. cbn [mbind option_bind].
  set (r1 := after_record _ _ _ _ _ _ _).
  assert (Hh1 : holds r1 st) by (destruct Hh; split; assumption).
  destruct (ReplayLog_ok r1 st lr Hlr Hh1 eq_refl) as (tbl & seg & -> & Ht & Hs). cbn [mbind option_bind].
  eexists. split; [reflexivity|]. split; [|split; reflexivity]. split; [reflexivity|]. split; [reflexivity|].
  destruct Hlr as [_ He _ Hse]. destruct Hh. split; cbn; auto using put_words_length.
Qed.

Lemma replay_logs skip logs : forall fuel r st file,
  Forall log_ok logs -> replays r st ->
  exists r', replay_loop (length logs + fuel) skip r (concat (map log_record logs) ++ file) false =
      replay_loop fuel skip r' file false /\
    replays r' (fold_left apply_log logs st) /\ corrupted_log_found_ r' = corrupted_log_found_ r /\
    file_size_ r' = file_size_ r + zlen (concat (map log_record logs)).
Proof using Hfresh Hk Halign.
  induction logs as [|lr logs IH]; intros fuel r st file Hl Hr.
  { exists r. split; [reflexivity|]. split; [exact Hr|]. split; [reflexivity|].
    cbn [map concat]. change (zlen (@nil Z)) with 0. lia. }
  apply Forall_cons_1 in Hl as [Hlr Hl]. cbn [map concat length plus]. rewrite <- app_assoc.
  destruct (replay_log_step (length logs + fuel) skip r st lr (concat (map log_record logs) ++ file) Hlr Hr)
    as (r1 & -> & Hr1 & Hc1 & Hs1).
  destruct (IH fuel r1 _ file Hl Hr1) as (r2 & -> & Hr2 & Hc2 & Hs2). exists r2. cbn [fold_left].
  split; [reflexivity|]. split; [exact Hr2|]. rewrite zlen_app. split; [congruence|lia].
Qed.

(** Every record takes bytes, so the loop has fuel for all of them. *)
Lemma log_records_length logs : (length logs <= length (concat (map log_record logs)))%nat.
Proof using Hfresh Hk Halign.
  induction logs as [|lr logs IH]; [reflexivity|]. cbn [map concat length]. rewrite length_app.
  pose proof (record_length hash page_align fresh Hfresh k Hk Halign (lr_root lr) (lr_ttl_root lr) (log_payload lr)) as Hl.
  pose proof (padding_range page_align k Hk Halign (header_bytes + zlen (log_payload lr))).
  fold (log_record lr) in Hl. change header_bytes with 20 in *. unfold zlen in *. lia.
Qed.

Lemma snapshot_payload_pos st has_seg : 1 <= zlen (snapshot_payload st has_seg).
Proof. unfold snapshot_payload. rewrite zlen_app. pose proof (varint64_pos (ms_max_fp st)). zlia. Qed.

(** [Replay] takes the snapshot and the log records, and goes on with what follows. *)
Lemma Replay_prefix skip st has_seg logs tail :
  state_ok st has_seg -> Forall log_ok logs ->
  exists r fuel, Replay skip (manifest_bytes st has_seg logs ++ tail) = replay_loop (S (length tail) + fuel) skip r tail false /\
    replays r (fold_left apply_log logs st) /\ corrupted_log_found_ r = false /\
    file_size_ r = zlen (manifest_bytes st has_seg logs).
Proof using Hfresh Hk Halign.
  intros Hst Hl. unfold Manifest.Replay, manifest_bytes, snapshot_record. rewrite <- app_assoc.
  rewrite (ParseNextRecord_ok hash page_align fresh Hfresh k Hk Halign) by apply Hst. cbn [mbind option_bind].
  set (r0 := after_record _ _ _ _ _ _ _).
  assert (Hp0 : payload_ r0 = snapshot_payload st has_seg) by reflexivity. rewrite Hp0.
  rewrite (proj2 (Z.eqb_neq _ _)) by (pose proof (snapshot_payload_pos st has_seg); lia).
  destruct (DeserializeSnapshot_ok r0 st has_seg Hst eq_refl eq_refl eq_refl Hp0) as (tbl & seg & -> & Ht & Hs).
  cbn [mbind option_bind]. set (r1 := with_tables _ _ _ _ _).
  assert (Hr1 : replays r1 st).
  { split; [reflexivity|]. split; [reflexivity|]. destruct Hst. split; cbn; auto. }
  pose proof (log_records_length logs) as Hlen. rewrite length_app.
  set (total := length (concat (map log_record logs))) in *.
  replace (S (total + length tail)) with (length logs + (S (length tail) + (total - length logs)))%nat by lia.
  destruct (replay_logs skip logs (S (length tail) + (total - length logs)) r1 st tail Hl Hr1)
    as (r2 & -> & Hr2 & Hc2 & Hs2).
  exists r2, (total - length logs)%nat. split; [reflexivity|]. split; [exact Hr2|]. split; [exact Hc2|].
  rewrite Hs2, zlen_app. reflexivity.
Qed.
(** ** What follows the last complete record *)

(** Bytes of the size of a record whose checksum is wrong. *)
Definition damaged (c : bytes) : Prop :=
  exists len, 0 <= len /\ header_bytes + len < 2 ^ 32 /\ DecodeFixed32 (zdrop offset_len (ztake header_bytes c)) = Some len /\
    zlen c = header_bytes + len + padding_of (header_bytes + len) /\
    ValidateRecord hash (ztake (header_bytes + len) c) = Some false.

(** What an append that did not finish leaves: a part of the record, or all of
    it with bytes that never reached the disk. *)
Inductive unfinished : bytes -> Prop :=
| torn_record root ttl_root payload n :
    record_ok root ttl_root payload -> 0 <= n < header_bytes + zlen payload ->
    unfinished (ztake n (record root ttl_root payload))
| damaged_record c : damaged c -> unfinished c.

Lemma ParseNextRecord_damaged skip r c file :
  damaged c ->
  ParseNextRecord skip r (c ++ file) =
    Some (Corrupted, with_size r true (if corrupted_log_found_ r then file_size_before_corrupted_log_ r else file_size_ r)
                       (file_size_ r + zlen c), file).
Proof using Hfresh Hk Halign.
  intros (len & Hl0 & Hl & Hdec & Hlen & Hval). pose proof (padding_range page_align k Hk Halign (header_bytes + len)) as Hpad.
  assert (Hhb : 0 <= header_bytes) by discriminate.
  rewrite <- (ztake_zdrop (header_bytes + len) c) at 1. rewrite <- (ztake_zdrop header_bytes (ztake (header_bytes + len) c)).
  assert (Hh : ztake header_bytes (ztake (header_bytes + len) c) = ztake header_bytes c)
    by (unfold ztake; rewrite take_take; f_equal; lia).
  rewrite Hh. set (hd := ztake header_bytes c) in *. set (body := zdrop header_bytes (ztake (header_bytes + len) c)).
  assert (Hhd : zlen hd = header_bytes) by (apply zlen_ztake; lia).
  assert (Hbody : zlen body = len) by (unfold body; rewrite zlen_zdrop; rewrite zlen_ztake; lia).
  assert (Hc : hd ++ body = ztake (header_bytes + len) c) by (unfold body; rewrite <- Hh; apply ztake_zdrop).
  rewrite <- !app_assoc. unfold Manifest.ParseNextRecord. rewrite (FileRead_exact skip hd) by exact Hhd. rewrite Hdec. cbn [mbind option_bind].
  rewrite (FileRead_exact skip body) by exact Hbody. rewrite Hc, Hval. cbn [mbind option_bind negb].
  rewrite (padding_expr page_align k Hk Halign) by (change header_bytes with 20 in *; width).
  rewrite u32_id by (change header_bytes with 20 in *; width).
  assert (Hp : zlen (zdrop (header_bytes + len) c) = padding_of (header_bytes + len)) by (rewrite zlen_zdrop; lia).
  rewrite FileRead_exact by exact Hp. do 4 f_equal. lia.
Qed.

(** The end of an empty rest. *)
Lemma replay_end fuel skip r corrupted :
  replay_loop (S fuel) skip r [] corrupted =
    Some (NoError, if corrupted_log_found_ r
                   then with_size r true (file_size_before_corrupted_log_ r) (file_size_before_corrupted_log_ r) else r).
Proof using Type. reflexivity. Qed.

Lemma replay_unfinished fuel skip r tail :
  unfinished tail -> corrupted_log_found_ r = false ->
  exists r', replay_loop (S (length tail) + fuel) skip r tail false = Some (NoError, r') /\
    (forall st, replays r st -> replays r' st) /\ file_size_ r' = file_size_ r.
Proof using Hfresh Hk Halign.
  intros Ht Hc. destruct Ht as [root ttl_root payload n Hok Hn|c Hd].
  - cbn [Manifest.replay_loop plus].
    pose proof (record_length hash page_align fresh Hfresh k Hk Halign root ttl_root payload) as Hlen.
    pose proof (padding_range page_align k Hk Halign (header_bytes + zlen payload)).
    assert (Hn' : 0 <= n < zlen (record root ttl_root payload)) by lia.
    destruct (ParseNextRecord_torn hash page_align fresh Hfresh k Hk Halign skip r root ttl_root payload n Hok Hn')
      as (r' & file' & -> & _ & Heq & _). rewrite (Heq ltac:(lia)). cbn [mbind option_bind]. rewrite Hc. eauto.
  - destruct c as [|b c].
    { destruct Hd as (len & Hl0 & _ & _ & Hl & _). change (zlen (@nil Z)) with 0 in Hl.
      pose proof (padding_range page_align k Hk Halign (header_bytes + len)). change header_bytes with 20 in *. lia. }
    cbn [length plus]. pose proof (ParseNextRecord_damaged skip r (b :: c) [] Hd) as Hp. rewrite app_nil_r, Hc in Hp.
    set (n := (length c + fuel)%nat). remember (S n) as m eqn:Hm. cbn [Manifest.replay_loop]. rewrite Hp.
    cbn [mbind option_bind]. rewrite Hm, replay_end. cbn [with_size corrupted_log_found_ file_size_before_corrupted_log_].
    eexists. split; [reflexivity|]. split; [|reflexivity]. intros st (Hr1 & Hr2 & Hh).
    split; [exact Hr1|]. split; [exact Hr2|]. destruct Hh. split; assumption.
Qed.

(** A record that lacks only padding is dropped, but counted in the size. *)
Lemma torn_padding_counted skip st has_seg logs root ttl_root payload n :
  state_ok st has_seg -> Forall log_ok logs -> record_ok root ttl_root payload ->
  header_bytes + zlen payload <= n < zlen (record root ttl_root payload) ->
  exists r, Replay skip (manifest_bytes st has_seg logs ++ ztake n (record root ttl_root payload)) = Some (NoError, r) /\
    replays r (fold_left apply_log logs st) /\
    file_size_ r = zlen (manifest_bytes st has_seg logs ++ record root ttl_root payload).
Proof using Hfresh Hk Halign.
  intros Hst Hl Hok Hn.
  destruct (Replay_prefix skip st has_seg logs (ztake n (record root ttl_root payload)) Hst Hl)
    as (r & fuel & -> & Hr & Hc & Hs). cbn [Manifest.replay_loop plus].
  assert (Hn' : 0 <= n < zlen (record root ttl_root payload)) by (change header_bytes with 20 in Hn; zlia).
  destruct (ParseNextRecord_torn hash page_align fresh Hfresh k Hk Halign skip r root ttl_root payload n Hok Hn')
    as (r' & file' & -> & Heq & _ & Hsize). cbn [mbind option_bind].
  assert (Hc' : corrupted_log_found_ r' = false) by (rewrite Heq; exact Hc). rewrite Hc'.
  exists r'. split; [reflexivity|]. rewrite (Hsize ltac:(lia)), Hs, zlen_app. split; [|reflexivity].
  rewrite Heq. destruct Hr as (H1 & H2 & Hh). split; [exact H1|]. split; [exact H2|]. destruct Hh. split; assumption.
Qed.
(** What a crash leaves behind the complete records, and the bytes of it that the
    reported size counts: nothing of an unfinished append, but all of a record
    that lacks only padding. *)
Inductive crash_tail : bytes -> Z -> Prop :=
| tail_none : crash_tail [] 0
| tail_unfinished tail : unfinished tail -> crash_tail tail 0
| tail_unpadded root ttl_root payload n :
    record_ok root ttl_root payload -> header_bytes + zlen payload <= n < zlen (record root ttl_root payload) ->
    crash_tail (ztake n (record root ttl_root payload)) (zlen (record root ttl_root payload)).

(** C14: Replaying a manifest gives back the state that its snapshot and log
    records describe: the roots of the last record, every page and segment
    mapping after all entries, the allocators' bounds, the dictionary and the
    branch ranges.  What a crash left behind the last complete record does not
    change the state: a torn or damaged record, or one that lacks only its
    padding.  The size reported for the next append is the end of the complete
    records, and the end of the dropped record when only padding is missing, for
    files on disk and in memory alike. *)
Theorem replay_manifest skip st has_seg logs tail counted :
  state_ok st has_seg -> Forall log_ok logs -> crash_tail tail counted ->
  exists r, Replay skip (manifest_bytes st has_seg logs ++ tail) = Some (NoError, r) /\
    replays r (fold_left apply_log logs st) /\ file_size_ r = zlen (manifest_bytes st has_seg logs) + counted.
Proof using Hfresh Hk Halign.
  intros Hst Hl Ht. destruct Ht as [|tail Ht|root ttl_root payload n Hok Hn].
  - destruct (Replay_prefix skip st has_seg logs [] Hst Hl) as (r & fuel & -> & Hr & Hc & Hs).
    exists r. cbn [length plus]. rewrite replay_end, Hc, Hs, Z.add_0_r. auto.
  - destruct (Replay_prefix skip st has_seg logs tail Hst Hl) as (r & fuel & -> & Hr & Hc & Hs).
    destruct (replay_unfinished fuel skip r tail Ht Hc) as (r' & -> & Hr' & Hs'). exists r'. rewrite Hs', Z.add_0_r. auto.
  - destruct (torn_padding_counted skip st has_seg logs root ttl_root payload n Hst Hl Hok Hn) as (r & -> & Hr & Hs).
    exists r. rewrite Hs, zlen_app. auto.
Qed.

(** A complete record behind a damaged one is not silently dropped. *)
Theorem damage_inside_detected skip st has_seg logs c lr :
  state_ok st has_seg -> Forall log_ok logs -> damaged c -> log_ok lr ->
  exists r, Replay skip (manifest_bytes st has_seg logs ++ c ++ log_record lr) = Some (Corrupted, r).
Proof using Hfresh Hk Halign.
  intros Hst Hl Hd Hlr.
  destruct (Replay_prefix skip st has_seg logs (c ++ log_record lr) Hst Hl) as (r & fuel & -> & _).
  assert (Hlen : exists n, length (c ++ log_record lr) = S n).
  { pose proof (log_records_length [lr]) as H1. cbn [map concat length] in H1. rewrite length_app in H1.
    rewrite length_app. exists (length c + length (log_record lr) - 1)%nat. cbn [length] in H1. lia. }
  destruct Hlen as [n ->]. cbn [plus]. remember (S (n + fuel)) as m eqn:Hm. cbn [Manifest.replay_loop].
  rewrite (ParseNextRecord_damaged skip r c (log_record lr) Hd). cbn [mbind option_bind].
  rewrite Hm. cbn [Manifest.replay_loop]. unfold log_record. rewrite <- (app_nil_r (record _ _ _)).
  rewrite (ParseNextRecord_ok hash page_align fresh Hfresh k Hk Halign) by apply Hlr. cbn [mbind option_bind]. eauto.
Qed.

End replay.

(** ** An example *)
Module ReplayExample.

Definition hash (b : bytes) : Z := fold_left (fun acc x => u64 (acc * 31 + x)) b 7.
Definition fresh (n : Z) : bytes := replicate (Z.to_nat n) 0.

(** Page 0 lies in file page 0; the log moves it to file page 5 and adds page 2. *)
Definition st : ManifestState := mkState 0 (2 ^ 32 - 1) [EncodeFilePageId 0] 1 [] (mkBranchMeta [109] 0 []) [] 0.
Definition lr : LogRecord := mkLog 2 (2 ^ 32 - 1) [(0, EncodeFilePageId 5); (2, EncodeFilePageId 6)] (mkBranchMeta [109] 0 []) [].

Lemma replay_fresh_length n : 0 <= n -> zlen (fresh n) = n.
Proof. intros H. unfold fresh, zlen. rewrite length_replicate. lia. Qed.

Lemma wf_branch : wf_meta (mkBranchMeta [109] 0 []).
Proof. split; [reflexivity|split; [discriminate|reflexivity]|reflexivity|constructor]. Qed.

Lemma st_ok : state_ok st false.
Proof.
  assert (Hz : is_u64 0) by (split; [discriminate|reflexivity]). split.
  - split; [split; [discriminate|reflexivity]|]. split; [split; [discriminate|reflexivity]|vm_compute; reflexivity].
  - constructor; [split; [discriminate|reflexivity]|constructor].
  - discriminate.
  - split; [discriminate|reflexivity].
  - exact wf_branch.
  - constructor.
  - discriminate.
  - exact Hz.
  - auto.
Qed.

Lemma lr_ok : log_ok lr.
Proof.
  split; auto using wf_branch.
  - split; [split; [discriminate|reflexivity]|]. split; [split; [discriminate|reflexivity]|vm_compute; reflexivity].
  - repeat (constructor; [split; (split; [discriminate|reflexivity])|]). constructor.
Qed.

(** A second copy of the log record was cut after 30 bytes. *)
Lemma replay_manifest_witness :
  exists r, Replay hash 64 true (manifest_bytes hash 64 fresh st false [lr] ++ ztake 30 (log_record hash 64 fresh lr)) =
      Some (NoError, r) /\ root_ r = 2 /\ Get (rp_mapping_tbl_ r) 0 = Some (EncodeFilePageId 5) /\
    Get (rp_mapping_tbl_ r) 1 = Some InvalidValue /\ rp_max_fp_id_ r = 7 /\
    file_size_ r = zlen (manifest_bytes hash 64 fresh st false [lr]).
Proof.
  destruct (replay_manifest hash 64 fresh replay_fresh_length 6 ltac:(lia) eq_refl true st false [lr]
    (ztake 30 (log_record hash 64 fresh lr)) 0 st_ok) as (r & Hr & (Hroot & _ & Hh) & Hs).
  - constructor; [exact lr_ok|constructor].
  - apply tail_unfinished, torn_record; [exact (lo_record _ lr_ok)|]. split; [discriminate|reflexivity].
  - exists r. split; [exact Hr|]. split; [exact Hroot|]. destruct (ho_words _ _ Hh) as (_ & _ & _ & Hg).
    split; [rewrite (Hg 0) by (vm_compute; split; [discriminate|reflexivity]); reflexivity|].
    split; [rewrite (Hg 1) by (vm_compute; split; [discriminate|reflexivity]); reflexivity|].
    split; [exact (ho_max_fp _ _ Hh)|]. rewrite Hs. apply Z.add_0_r.
Defined.
End ReplayExample.
