(* ===== verification/Recovery.v ===== *)
(** * Flushing and loading the metadata of a partition

    [WriteTask::FlushManifest] (src/tasks/write_task.cpp) makes the mapping of a
    write task durable, as a log record or as a new snapshot;
    [Replayer::GetMapper] and [GetSegmentMapper] (src/replayer.cpp) and the
    loading function of [PageManager::FindRoot] (src/storage/page_manager.cpp)
    rebuild the mappers from a replayed manifest. *)

From stdpp Require Import gmap sorting.
From S2P Require Import Prelude Coding PageFormat IndexPageIter MappingTable PageMapper Branch Manifest.

(** ** Flushing *)

(** The part of [CowRootMeta] that the manifest is about; the dictionary is
    empty when the compression has none. *)
Record CowRootMeta := mkCowRoot {
  root_id_ : Z;
  ttl_root_id_ : Z;
  mapper_ : PageMapper;
  segment_mapper_ : option PageMapper;
  manifest_size_ : Z;
  dictionary_ : bytes;
  dictionary_dirty_ : bool;
  first_unflushed_fp_id_ : Z;
  first_unflushed_seg_fp_id_ : Z
}.

(** What an I/O call does: it succeeds, or fails and leaves [file]. *)
Inductive IoResult := IoOk | IoError (file : bytes).

(** [AppendManifest] on disk writes at the offset; in memory the content is cut
    there first. *)
Definition AppendManifest (disk : bool) (file log : bytes) (offset : Z) : bytes :=
  if disk then
    ztake offset (file ++ replicate (Z.to_nat (offset - zlen file)) 0) ++ log ++ zdrop (offset + zlen log) file
  else (if offset <? zlen file then ztake offset file else file) ++ log.

Definition RecordSegmentMappingUpdate (seg_mapping_deltas : bytes) (page_id file_page_id : Z) : bytes :=
  PutVarint64 (PutVarint32 seg_mapping_deltas page_id) (EncodeFilePageId file_page_id).

Definition RecordSegmentMappingDelete (seg_mapping_deltas : bytes) (page_id : Z) : bytes :=
  PutVarint64 (PutVarint32 seg_mapping_deltas page_id) InvalidValue.

Section flush.
  Context (hash : bytes -> Z) (page_align : Z) (fresh : Z -> bytes).

Definition max_segment_of (c : CowRootMeta) : Z :=
  match segment_mapper_ c with Some m => max_fp_id_ (file_page_allocator_ m) | None => 0 end.

(** The metadata after a successful write of the manifest. *)
Definition flushed (c : CowRootMeta) (size : Z) (dirty : bool) : CowRootMeta :=
  mkCowRoot (root_id_ c) (ttl_root_id_ c) (mapper_ c) (segment_mapper_ c) size (dictionary_ c) dirty
    (max_fp_id_ (file_page_allocator_ (mapper_ c))) (max_segment_of c).

Definition switch_manifest (io : IoResult) (h : Heap) (branch : BranchManifestMetadata) (c : CowRootMeta)
    (wal : ManifestBuilder) : option (KvError * CowRootMeta * ManifestBuilder * bytes) :=
  '(wal, snapshot) ← Snapshot hash page_align fresh wal (root_id_ c) (ttl_root_id_ c) h (mapping_tbl_ (mapper_ c))
                       (max_fp_id_ (file_page_allocator_ (mapper_ c))) (dictionary_ c) branch
                       ((fun m => (mapping_tbl_ m, max_fp_id_ (file_page_allocator_ m))) <$> segment_mapper_ c);
  match io with
  | IoError partial => Some (IoFail, c, wal, partial)
  | IoOk => Some (NoError, flushed c (zlen snapshot) false, wal, snapshot)
  end.

Definition FlushManifest (disk : bool) (manifest_limit : Z) (io : IoResult) (h : Heap) (branch : BranchManifestMetadata)
    (c : CowRootMeta) (wal : ManifestBuilder) (seg_mapping_deltas file : bytes)
    : option (KvError * CowRootMeta * ManifestBuilder * bytes) :=
  let need_empty_snapshot :=
    ManifestEmpty wal && (root_id_ c =? MaxPageId) && (ttl_root_id_ c =? MaxPageId) && (0 <? manifest_size_ c) in
  if ManifestEmpty wal && negb need_empty_snapshot then Some (NoError, c, wal, file)
  else if need_empty_snapshot then switch_manifest io h branch c wal
  else
    let branch_metadata_str := SerializeBranchManifestMetadata branch in
    let log_physical_size :=
      AlignSize page_align (CurrentSize wal + 4 + zlen branch_metadata_str + (4 + zlen seg_mapping_deltas)) in
    if negb (dictionary_dirty_ c) && (0 <? manifest_size_ c) && (manifest_size_ c + log_physical_size <=? manifest_limit) then
      wal ← AppendBranchManifestMetadata fresh wal branch_metadata_str;
      let wal := AppendSegmentMapping wal (EncodeFixed32 (u32 (zlen seg_mapping_deltas))) in
      let wal := AppendSegmentMapping wal seg_mapping_deltas in
      let '(wal, blob) := Finalize hash page_align fresh wal (root_id_ c) (ttl_root_id_ c) in
      match io with
      | IoError partial => Some (IoFail, c, wal, partial)
      | IoOk =>
          Some (NoError, flushed c (manifest_size_ c + AlignSize page_align (zlen blob)) (dictionary_dirty_ c), wal,
                AppendManifest disk file blob (manifest_size_ c))
      end
    else switch_manifest io h branch c wal.
End flush.

(** ** Rebuilding the mappers *)

(** The pages without a file page go to the free list, the file pages of the
    others are collected. *)
Fixpoint recover_pages (n : nat) (page_id : Z) (m : PageMapper) (using_fp_ids : list Z) : option (PageMapper * list Z) :=
  match n with
  | O => Some (m, using_fp_ids)
  | S n' =>
      val ← Get (mapping_tbl_ m) page_id;
      if IsFilePageId val then recover_pages n' (page_id + 1) m (using_fp_ids ++ [DecodeId val])
      else '(m, _) ← FreePage None m page_id; recover_pages n' (page_id + 1) m using_fp_ids
  end.

(** Files without a page in use, between files that have some. *)
Fixpoint empty_files (shift cur_file_id cnt : Z) (fps : list Z) : option Z :=
  match fps with
  | [] => Some cnt
  | fp_id :: fps =>
      let file_id := Z.shiftr fp_id shift in
      if file_id <? cur_file_id then None
      else empty_files shift file_id (if cur_file_id + 1 <? file_id then u32 (cnt + (file_id - cur_file_id - 1)) else cnt) fps
  end.

(** The next file boundary, when another process wrote the manifest. *)
Definition bump_term (shift max_fp : Z) (bump : bool) : Z :=
  if bump then u64 (Z.shiftl (Z.shiftr max_fp shift + 1) shift) else max_fp.

(** The allocator that appends behind the pages in use; [None] is a failed
    assertion. *)
Definition append_allocator (shift max_fp : Z) (using_fp_ids : list Z) : option FilePageAllocator :=
  let sorted := merge_sort Z.le using_fp_ids in
  match sorted, last_from None sorted with
  | front :: _, Some back =>
      let min_file_id := Z.shiftr front shift in
      cnt ← empty_files shift min_file_id 0 sorted;
      if back <? max_fp then Some (mkAllocator shift max_fp (AppendAllocator (mkAppendStat min_file_id cnt))) else None
  | _, _ => Some (mkAllocator shift max_fp (AppendAllocator (mkAppendStat (Z.shiftr max_fp shift) 0)))
  end.

(** The file pages a partition may reuse: those below the bound that no page
    uses, of files that its own branch wrote. *)
Definition recyclable (shift : Z) (branch : BranchManifestMetadata) (used : gset Z) (fp : Z) : bool :=
  negb (bool_decide (fp ∈ used)) &&
  (match bm_file_ranges branch with
   | [] => true
   | ranges => FileIdInBranch ranges (DataFileKey (Z.shiftr fp shift)) (bm_branch_name branch)
   end).

Definition free_file_pages (shift : Z) (branch : BranchManifestMetadata) (max_fp : Z) (using_fp_ids : list Z) : list Z :=
  map u32 (List.filter (recyclable shift branch (list_to_set using_fp_ids)) (seqZ 0 max_fp)).

(** [GetMapper]; [local] is the store mode without a cloud or standby. *)
Definition GetMapper (data_append_mode local : bool) (shift expect_term : Z) (r : Replayer) : option PageMapper :=
  '(m, using_fp_ids) ← recover_pages (Z.to_nat (logical_size_ (rp_mapping_tbl_ r))) 0
      (mkMapper (rp_mapping_tbl_ r) MaxPageId 0 (mkAllocator shift 0 (PooledFilePages []))) [];
  al ← (if data_append_mode then
          let bump := negb local && negb (expect_term =? 0) && negb (bm_term (branch_metadata_ r) =? expect_term) in
          append_allocator shift (bump_term shift (rp_max_fp_id_ r) bump) using_fp_ids
        else
          Some (mkAllocator shift (rp_max_fp_id_ r)
                  (PooledFilePages (reverse (free_file_pages shift (branch_metadata_ r) (rp_max_fp_id_ r) using_fp_ids)))));
  Some (mkMapper (mapping_tbl_ m) (free_page_head_ m) (free_page_cnt_ m) al).

(** [GetSegmentMapper]: segments are always appended; [None] inside is a
    partition without segments. *)
Definition GetSegmentMapper (cloud_mode : bool) (shift expect_term : Z) (r : Replayer) : option (option PageMapper) :=
  if (logical_size_ (segment_mapping_tbl_ r) =? 0) && (max_segment_fp_id_ r =? 0) then Some None
  else
    '(m, using_fp_ids) ← recover_pages (Z.to_nat (logical_size_ (segment_mapping_tbl_ r))) 0
        (mkMapper (segment_mapping_tbl_ r) MaxPageId 0 (mkAllocator shift 0 (PooledFilePages []))) [];
    let bump := cloud_mode && negb (expect_term =? 0) && negb (bm_term (branch_metadata_ r) =? expect_term) in
    al ← append_allocator shift (bump_term shift (max_segment_fp_id_ r) bump) using_fp_ids;
    Some (Some (mkMapper (mapping_tbl_ m) (free_page_head_ m) (free_page_cnt_ m) al)).

(** ** Loading a partition *)

(** The check of debug builds on the branch ranges: data file maxima ascend,
    the ranges of a branch are adjacent and their terms do not decrease. *)
Fixpoint ranges_ascend (prev : option BranchFileRange) (branch_last_term : list (bytes * Z)) (ranges : BranchFileMapping) : bool :=
  match ranges with
  | [] => true
  | r :: ranges =>
      let known := List.find (fun e => bool_decide (fst e = branch_name_ r)) branch_last_term in
      (match prev with Some p => max_file_id_ p <? max_file_id_ r | None => true end) &&
      (match known, prev with
       | Some (_, last_term), Some p => bool_decide (branch_name_ r = branch_name_ p) && (last_term <=? term_ r)
       | Some (_, last_term), None => last_term <=? term_ r
       | None, _ => true
       end) &&
      ranges_ascend (Some r) ((branch_name_ r, term_ r) :: branch_last_term) ranges
  end.

Record RootMeta := mkRootMeta {
  rm_root_id_ : Z;
  rm_ttl_root_id_ : Z;
  rm_mapper_ : PageMapper;
  rm_segment_mapper_ : option PageMapper;
  rm_manifest_size_ : Z;
  rm_next_expire_ts_ : Z;
  rm_dictionary_ : bytes;
  rm_first_unflushed_fp_id_ : Z;
  rm_first_unflushed_seg_fp_id_ : Z;
  rm_branch_file_mapping : BranchFileMapping
}.

(** [load_meta] in [FindRoot]. *)
Definition load_meta (hash : bytes -> Z) (page_align : Z) (skip debug data_append_mode local cloud_mode : bool)
    (shift seg_shift process_term : Z) (file : bytes) : option (KvError * option RootMeta) :=
  '(err, r) ← Replay hash page_align skip file;
  match err with
  | NoError =>
      m ← GetMapper data_append_mode local shift process_term r;
      seg ← GetSegmentMapper cloud_mode seg_shift process_term r;
      if debug && negb (ranges_ascend None [] (bm_file_ranges (branch_metadata_ r))) then Some (Corrupted, None)
      else
        Some (NoError,
              Some (mkRootMeta (root_ r) (ttl_root_ r) m seg (file_size_ r) (if ttl_root_ r =? MaxPageId then 0 else 1)
                      (dict_bytes_ r) (max_fp_id_ (file_page_allocator_ m))
                      (match seg with Some sm => max_fp_id_ (file_page_allocator_ sm) | None => 0 end)
                      (bm_file_ranges (branch_metadata_ r))))
  | _ => Some (err, None)
  end.
