(* ===== verification/RecoverySpec.v ===== *)
(** * A loaded partition

    What [GetMapper] rebuilds from the words of a replayed table satisfies the
    invariants of the page mapper and of the copy-on-write store: the pages with
    a file page are in use, all others are free, and the allocator never hands
    out a file page in use or one of another branch. *)

From stdpp Require Import gmap sorting.
From S2P Require Import Prelude PageFormat IndexPageIter MappingTable PageMapper CowStore Branch Manifest ManifestSpec Recovery.

(** ** Words *)
Lemma plain_word_cases w :
  plain_word w ->
  (exists fp, 0 <= fp < 2 ^ 32 /\ w = EncodeFilePageId fp /\ IsFilePageId w = true /\ DecodeId w = fp) \/
  (IsFilePageId w = false /\ forall fp, 0 <= fp < 2 ^ 32 -> w <> EncodeFilePageId fp).
Proof.
  intros [->|[(q & Hq & ->)|(fp & Hfp & ->)]].
  - right. split; [reflexivity|]. intros fp Hfp. apply no_file_word; auto.
  - right. split.
    + unfold IsFilePageId. rewrite EncodePageId_eq by exact Hq. destruct (word_parts q 2) as [-> _]; [lia|reflexivity].
    + intros fp Hfp. apply no_file_word; eauto.
  - left. exists fp. split; [exact Hfp|]. split; [reflexivity|]. split; apply file_page_word; lia.
Qed.

Lemma plain_free_link m l : mapper_inv m l -> plain_word (free_link (list_head l)).
Proof.
  intros Hm. destruct (list_head_range _ _ (mi_chain _ _ Hm) (mi_size _ _ Hm)) as [[_ ->]|[_ Hr]]; [left; reflexivity|].
  right. left. exists (list_head l). split; [exact Hr|]. unfold free_link.
  rewrite (proj2 (Z.eqb_neq _ MaxPageId)); [reflexivity|]. unfold max_pages in Hr. change MaxPageId with (2 ^ 32 - 1). lia.
Qed.

(** ** Collecting the pages *)

(** After the pages [i] up were visited: the table keeps its file pages, and
    exactly the other visited pages joined the free list. *)
Record recovered (i : Z) (m m' : PageMapper) (l l' us us' : list Z) : Prop := {
  rc_inv : mapper_inv m' l';
  rc_size : logical_size_ (mapping_tbl_ m') = logical_size_ (mapping_tbl_ m);
  rc_plain : forall p, i <= p < logical_size_ (mapping_tbl_ m) -> exists w, Get (mapping_tbl_ m') p = Some w /\ plain_word w;
  rc_maps : forall p fp, i <= p -> maps (mapping_tbl_ m') p fp <-> maps (mapping_tbl_ m) p fp;
  rc_below : forall p, 0 <= p < i -> Get (mapping_tbl_ m') p = Get (mapping_tbl_ m) p /\ (p ∈ l' <-> p ∈ l);
  rc_free : forall p, i <= p < logical_size_ (mapping_tbl_ m) -> p ∈ l' <-> forall fp, ~ maps (mapping_tbl_ m) p fp;
  rc_using : forall fp, fp ∈ us' <-> fp ∈ us \/ exists p, i <= p /\ maps (mapping_tbl_ m) p fp;
  rc_alloc : file_page_allocator_ m' = file_page_allocator_ m
}.

(** A page without a file page joins the free list. *)
Lemma recover_free m l i w :
  mapper_inv m l -> 0 <= i < logical_size_ (mapping_tbl_ m) -> (forall p, p ∈ l -> p < i) ->
  Get (mapping_tbl_ m) i = Some w -> (forall fp, 0 <= fp < 2 ^ 32 -> w <> EncodeFilePageId fp) ->
  exists m' a', FreePage None m i = Some (m', a') /\ mapper_inv m' (i :: l) /\
    logical_size_ (mapping_tbl_ m') = logical_size_ (mapping_tbl_ m) /\
    (forall q, 0 <= q < logical_size_ (mapping_tbl_ m) -> q <> i -> Get (mapping_tbl_ m') q = Get (mapping_tbl_ m) q) /\
    file_page_allocator_ m' = file_page_allocator_ m /\
    (exists w', Get (mapping_tbl_ m') i = Some w' /\ plain_word w') /\
    (forall p fp, maps (mapping_tbl_ m') p fp <-> maps (mapping_tbl_ m) p fp).
Proof.
  intros Hm Hi Hl Hw Hno. assert (Hu : in_use m l i) by (split; [exact Hi|]; intros Hin; specialize (Hl i Hin); lia).
  destruct (FreePage_spec None m l i Hm I Hu) as (m' & a' & Hf & _ & Hm' & Hs & Ho & Hal).
  pose proof (mi_chain _ _ Hm') as (_ & Hlink & _). pose proof (plain_free_link m l Hm) as Hpl.
  exists m', a'. split; [exact Hf|]. split; [exact Hm'|]. split; [exact Hs|]. split; [exact Ho|]. split; [exact Hal|].
  split; [eauto|]. intros p fp. unfold maps. rewrite Hs. destruct (Z.eq_dec p i) as [->|Hne].
  - split; intros (_ & Hr & Hg); exfalso.
    + rewrite Hlink in Hg. injection Hg as Hg. clear Hno Hw.
      destruct (list_head_range _ _ (mi_chain _ _ Hm) (mi_size _ _ Hm)) as [[_ He]|[_ Hh]].
      * rewrite He in Hg. apply (no_file_word _ fp Hr (or_introl eq_refl) Hg).
      * apply (no_file_word (free_link (list_head l)) fp Hr); [|exact Hg]. right. exists (list_head l). split; [exact Hh|].
        unfold free_link. rewrite (proj2 (Z.eqb_neq _ MaxPageId)); [reflexivity|].
        unfold max_pages in Hh. change MaxPageId with (2 ^ 32 - 1). lia.
    + apply (Hno fp Hr). congruence.
  - split; intros (Hp & Hr & Hg); (split; [exact Hp|]); (split; [exact Hr|]); rewrite <- Hg; [symmetry|]; apply Ho; auto.
Qed.

Lemma recover_pages_ok n : forall i m l us,
  mapper_inv m l -> 0 <= i -> i + Z.of_nat n = logical_size_ (mapping_tbl_ m) -> (forall p, p ∈ l -> p < i) ->
  (forall p, i <= p < logical_size_ (mapping_tbl_ m) -> exists w, Get (mapping_tbl_ m) p = Some w /\ plain_word w) ->
  exists m' l' us', recover_pages n i m us = Some (m', us') /\ recovered i m m' l l' us us'.
Proof.
  induction n as [|n IH]; intros i m l us Hm Hi Hn Hl Hpl; cbn [recover_pages].
  { exists m, l, us. split; [reflexivity|]. split; auto; try tauto.
    - intros p Hp. lia.
    - intros fp. split; [auto|]. intros [Hin|(p & Hp & (Hr & _))]; [exact Hin|lia]. }
  destruct (Hpl i ltac:(lia)) as (w & Hw & Hplain). rewrite Hw. cbn [mbind option_bind].
  destruct (plain_word_cases w Hplain) as [(fp & Hfp & Hweq & -> & ->)|[-> Hno]].
  - assert (Hmi : maps (mapping_tbl_ m) i fp) by (split_and!; [lia|lia|lia|lia|congruence]).
    destruct (IH (i + 1) m l (us ++ [fp])) as (m' & l' & us' & -> & [R1 R2 R3 R4 R5 R6 R7 R8]); auto; [lia|lia| | |].
    { intros p Hp. specialize (Hl p Hp). lia. }
    { intros p Hp. apply Hpl. lia. }
    exists m', l', us'. split; [reflexivity|].
    destruct (R5 i ltac:(lia)) as [Hgi Hli].
    assert (Hil : i ∉ l) by (intros Hin; specialize (Hl i Hin); lia).
    split; auto.
    + intros p Hp. destruct (Z.eq_dec p i) as [->|]; [rewrite Hgi; eauto|apply R3; lia].
    + intros p q Hp. destruct (Z.eq_dec p i) as [->|]; [|apply R4; lia]. unfold maps. rewrite R2, Hgi. reflexivity.
    + intros p Hp. apply R5. lia.
    + intros p Hp. destruct (Z.eq_dec p i) as [->|]; [|apply R6; lia]. rewrite Hli.
      split; [intros Hin; contradiction|]. intros Hnm. destruct (Hnm fp Hmi).
    + intros q. rewrite R7, elem_of_app, list_elem_of_singleton. split.
      * intros [[Hin| ->]|(p & Hp & Hm')]; [auto|right; exists i; split; [lia|exact Hmi]|]. right. exists p. split; [lia|exact Hm'].
      * intros [Hin|(p & Hp & Hm')]; [auto|]. destruct (Z.eq_dec p i) as [->|]; [|right; exists p; split; [lia|exact Hm']].
        left. right. exact (maps_fun _ _ _ _ Hm' Hmi).
  - destruct (recover_free m l i w Hm ltac:(lia) Hl Hw Hno) as (m1 & a1 & -> & Hm1 & Hs1 & Ho1 & Hal1 & Hw1 & Hmaps1).
    cbn [mbind option_bind].
    destruct (IH (i + 1) m1 (i :: l) us) as (m' & l' & us' & -> & [R1 R2 R3 R4 R5 R6 R7 R8]); auto; [lia|lia| | |].
    { intros p [->|Hp]%elem_of_cons; [lia|]. specialize (Hl p Hp). lia. }
    { intros p Hp. rewrite Ho1 by lia. apply Hpl. lia. }
    exists m', l', us'. split; [reflexivity|]. destruct (R5 i ltac:(lia)) as [Hgi Hli].
    assert (Hnm : forall fp, ~ maps (mapping_tbl_ m) i fp).
    { intros fp (_ & Hr & Hg). apply (Hno fp Hr). congruence. }
    rewrite Hs1 in *. split; auto; try congruence.
    + intros p Hp. destruct (Z.eq_dec p i) as [->|]; [rewrite Hgi; exact Hw1|apply R3; lia].
    + intros p q Hp. rewrite <- Hmaps1. destruct (Z.eq_dec p i) as [->|]; [|apply R4; lia].
      unfold maps. rewrite R2, Hs1, Hgi. reflexivity.
    + intros p Hp. destruct (R5 p ltac:(lia)) as [-> ->]. rewrite Ho1, elem_of_cons by lia.
      split; [reflexivity|]. split; [intros [->|Hin]; [lia|exact Hin]|auto].
    + intros p Hp. destruct (Z.eq_dec p i) as [->|].
      * rewrite Hli. split; [intros _; exact Hnm|intros _; left].
      * rewrite R6 by lia. split; intros H fp Hfp; apply (H fp), Hmaps1, Hfp.
    + intros q. rewrite R7. split; (intros [Hin|(p & Hp & Hm')]; [auto|]).
      * right. exists p. split; [lia|]. apply Hmaps1, Hm'.
      * right. exists p. destruct (Z.eq_dec p i) as [->|]; [destruct (Hnm q Hm')|]. split; [lia|]. apply Hmaps1, Hm'.
Qed.

(** ** Allocators *)
Lemma empty_files_ok shift fps : forall cur cnt,
  0 <= shift -> StronglySorted Z.le fps -> Forall (fun fp => cur <= Z.shiftr fp shift) fps ->
  exists n, empty_files shift cur cnt fps = Some n.
Proof.
  induction fps as [|fp fps IH]; intros cur cnt Hs Hso Hf; cbn [empty_files]; [eauto|].
  apply StronglySorted_inv in Hso as [Hso Hle]. apply Forall_cons_1 in Hf as [Hfp _].
  rewrite (proj2 (Z.ltb_ge _ _)) by lia. apply IH; [exact Hs|exact Hso|].
  eapply Forall_impl; [|exact Hle]. cbv beta. intros q Hq. rewrite !Z.shiftr_div_pow2 by lia.
  apply Z.div_le_mono; [apply Z.pow_pos_nonneg; lia|exact Hq].
Qed.

Lemma last_from_some {A} (l : list A) x : exists y, last_from (Some x) l = Some y /\ (y = x \/ y ∈ l).
Proof.
  revert x. induction l as [|z l IH]; intros x; cbn [last_from]; [eauto|].
  destruct (IH z) as (y & Hy & Hin). exists y. split; [exact Hy|]. right. rewrite elem_of_cons. exact Hin.
Qed.

Lemma append_allocator_ok shift max_fp us :
  0 <= shift -> Forall (fun fp => fp < max_fp) us ->
  exists stat, append_allocator shift max_fp us = Some (mkAllocator shift max_fp (AppendAllocator stat)).
Proof.
  intros Hs Hus. unfold append_allocator.
  pose proof (StronglySorted_merge_sort Z.le us) as Hso. pose proof (merge_sort_Permutation Z.le us) as Hperm.
  destruct (merge_sort Z.le us) as [|front rest] eqn:He; [eauto|].
  destruct (last_from_some rest front) as (back & Hback & Hin). cbn [last_from]. rewrite Hback.
  pose proof (StronglySorted_inv Hso) as [Hso' Hle].
  destruct (empty_files_ok shift (front :: rest) (Z.shiftr front shift) 0 Hs Hso) as (n & ->).
  { constructor; [lia|]. eapply Forall_impl; [|exact Hle]. cbv beta. intros q Hq. rewrite !Z.shiftr_div_pow2 by lia.
    apply Z.div_le_mono; [apply Z.pow_pos_nonneg; lia|exact Hq]. }
  cbn [mbind option_bind]. rewrite (proj2 (Z.ltb_lt _ _)); [eauto|].
  rewrite list.Forall_forall in Hus. apply Hus. rewrite <- Hperm, elem_of_cons. exact Hin.
Qed.

Lemma free_file_pages_spec shift branch max_fp us fp :
  0 <= max_fp < 2 ^ 32 ->
  fp ∈ free_file_pages shift branch max_fp us <->
  0 <= fp < max_fp /\ recyclable shift branch (list_to_set us) fp = true.
Proof.
  intros Hm. unfold free_file_pages. rewrite list_elem_of_fmap. split.
  - intros (q & -> & Hq). apply list_elem_of_In, filter_In in Hq as [Hq Hr]. apply list_elem_of_In, elem_of_seqZ in Hq.
    rewrite u32_id by (unfold is_u32; lia). split; [lia|exact Hr].
  - intros [Hr Hrec]. exists fp. rewrite u32_id by (unfold is_u32; lia). split; [reflexivity|].
    apply list_elem_of_In, filter_In. split; [apply list_elem_of_In, elem_of_seqZ; lia|exact Hrec].
Qed.

Lemma free_file_pages_NoDup shift branch max_fp us : 0 <= max_fp < 2 ^ 32 -> NoDup (free_file_pages shift branch max_fp us).
Proof.
  intros Hm. unfold free_file_pages. apply NoDup_fmap_2_strong.
  - intros x y Hx Hy. apply list_elem_of_In, filter_In in Hx as [Hx _], Hy as [Hy _].
    apply list_elem_of_In, elem_of_seqZ in Hx, Hy. rewrite !u32_id by (unfold is_u32; lia). auto.
  - apply NoDup_ListNoDup. apply List.NoDup_filter. apply NoDup_ListNoDup, NoDup_seqZ.
Qed.

(** ** The rebuilt mapper *)
Definition words_map (words : list Z) (p fp : Z) : Prop :=
  0 <= p /\ 0 <= fp < 2 ^ 32 /\ words !! Z.to_nat p = Some (EncodeFilePageId fp).

Lemma array_maps t words p fp : is_array t words -> maps t p fp <-> words_map words p fp.
Proof.
  intros (_ & _ & Hs & Hg). unfold maps, words_map. rewrite Hs. split.
  - intros (Hp & Hfp & H). rewrite Hg in H by exact Hp. split_and!; auto; lia.
  - intros (Hp & Hfp & H). pose proof (lookup_lt_Some _ _ _ H). assert (Hr : 0 <= p < zlen words) by (unfold zlen; lia).
    split_and!; auto; try lia. rewrite Hg by exact Hr. exact H.
Qed.

(** The words of a manifest that a partition can be loaded from. *)
Record loadable (words : list Z) (max_fp : Z) : Prop := {
  ld_size : zlen words <= max_pages;
  ld_plain : Forall plain_word words;
  ld_inj : forall p q fp, words_map words p fp -> words_map words q fp -> p = q;
  ld_max : 0 <= max_fp < 2 ^ 32;
  ld_below : forall p fp, words_map words p fp -> fp < max_fp
}.

(** The bound after a possible move to the next file. *)
Definition loaded_max (append local : bool) (shift term : Z) (r : Replayer) : Z :=
  bump_term shift (rp_max_fp_id_ r)
    (append && (negb local && negb (term =? 0) && negb (bm_term (branch_metadata_ r) =? term))).

Record mapper_loaded (append : bool) (shift max_fp : Z) (words : list Z) (branch : BranchManifestMetadata)
    (m : PageMapper) (l : list Z) : Prop := {
  ml_inv : mapper_inv m l;
  ml_snap : snap_ok (mapping_tbl_ m);
  ml_maps : forall p fp, maps (mapping_tbl_ m) p fp <-> words_map words p fp;
  ml_free : forall p, p ∈ l <-> 0 <= p < zlen words /\ forall fp, ~ words_map words p fp;
  ml_wf : alloc_wf (file_page_allocator_ m);
  ml_used : forall p fp, words_map words p fp -> fp_ok (file_page_allocator_ m) fp;
  ml_max : max_fp_id_ (file_page_allocator_ m) = max_fp;
  ml_pool : forall fp, fp ∈ free_ids (file_page_allocator_ m) -> append = false /\
    match bm_file_ranges branch with
    | [] => True
    | ranges => FileIdInBranch ranges (DataFileKey (Z.shiftr fp shift)) (bm_branch_name branch) = true
    end
}.

Lemma bump_range shift max_fp b :
  0 <= shift -> 0 <= max_fp -> max_fp + 2 ^ shift < 2 ^ 32 -> max_fp <= bump_term shift max_fp b < 2 ^ 32.
Proof.
  intros Hs Hm Hr. unfold bump_term. pose proof (Z.pow_pos_nonneg 2 shift ltac:(lia) Hs) as Hpos.
  destruct b; [|lia]. rewrite Z.shiftr_div_pow2, Z.shiftl_mul_pow2 by exact Hs.
  pose proof (Z.div_mod max_fp (2 ^ shift) ltac:(lia)). pose proof (Z.mod_pos_bound max_fp (2 ^ shift) Hpos).
  rewrite u64_id by (unfold is_u64; nia). nia.
Qed.

(** The pages a table starts with are all in use, as far as the free list knows. *)
Lemma array_mapper t words shift :
  is_array t words -> zlen words <= max_pages ->
  mapper_inv (mkMapper t MaxPageId 0 (mkAllocator shift 0 (PooledFilePages []))) [].
Proof. intros (Hi & Hc & Hs & _) Hn. split; cbn; auto; [lia|constructor]. Qed.

(** The visited table: pages in use, free pages and the file pages in use. *)
Lemma recover_words t words shift max_fp :
  is_array t words -> loadable words max_fp ->
  exists m l us, recover_pages (Z.to_nat (logical_size_ t)) 0
      (mkMapper t MaxPageId 0 (mkAllocator shift 0 (PooledFilePages []))) [] = Some (m, us) /\
    mapper_inv m l /\ snap_ok (mapping_tbl_ m) /\
    (forall p fp, maps (mapping_tbl_ m) p fp <-> words_map words p fp) /\
    (forall p, p ∈ l <-> 0 <= p < zlen words /\ forall fp, ~ words_map words p fp) /\
    (forall fp, fp ∈ us <-> exists p, words_map words p fp).
Proof.
  intros Ht Hld. pose proof Ht as (_ & _ & Hsz & Hget).
  set (m0 := mkMapper t MaxPageId 0 (mkAllocator shift 0 (PooledFilePages []))).
  assert (Hpl : forall p, 0 <= p < logical_size_ (mapping_tbl_ m0) -> exists w, Get (mapping_tbl_ m0) p = Some w /\ plain_word w).
  { cbn [mapping_tbl_ m0]. rewrite Hsz. intros p Hp. rewrite Hget by exact Hp.
    destruct (lookup_lt_is_Some_2 words (Z.to_nat p)) as [w Hw]; [unfold zlen in Hp; lia|]. exists w. split; [exact Hw|].
    pose proof (ld_plain _ _ Hld) as Hf. rewrite list.Forall_forall in Hf. apply Hf. exact (list_elem_of_lookup_2 _ _ _ Hw). }
  destruct (recover_pages_ok (Z.to_nat (logical_size_ t)) 0 m0 [] [])
    as (m & l & us & Hrec & [R1 R2 R3 R4 _ R6 R7 _]); auto.
  { exact (array_mapper _ _ shift Ht (ld_size _ _ Hld)). } { lia. }
  { cbn [mapping_tbl_ m0]. rewrite Hsz. unfold zlen. lia. } { intros p Hp. inversion Hp. }
  cbn [mapping_tbl_ m0] in *. rewrite Hsz in R2, R3, R6.
  assert (Hmaps : forall p fp, maps (mapping_tbl_ m) p fp <-> words_map words p fp).
  { intros p fp. rewrite <- (array_maps _ _ _ _ Ht). destruct (Z_le_gt_dec 0 p) as [Hp|Hp]; [apply R4, Hp|].
    split; intros ((H0 & _) & _); lia. }
  pose proof (fun p fp => array_maps t words p fp Ht) as Ham.
  exists m, l, us. split; [exact Hrec|]. split; [exact R1|]. split; [|split; [exact Hmaps|split]].
  - pose proof (ld_size _ _ Hld). split; [exact (mi_tbl _ _ R1)|exact (mi_idle _ _ R1)|lia| |].
    + intros p. rewrite R2. apply R3.
    + intros p q fp Hp Hq. apply (ld_inj _ _ Hld p q fp); apply Hmaps; assumption.
  - intros p. split.
    + intros Hin. pose proof (free_chain_range _ _ _ (mi_chain _ _ R1) Hin) as Hr. rewrite R2 in Hr.
      split; [exact Hr|]. intros fp Hm. apply (proj1 (R6 p Hr) Hin fp), Ham, Hm.
    + intros [Hr Hno]. apply R6; [exact Hr|]. intros fp Hm. apply (Hno fp), Ham, Hm.
  - intros fp. rewrite R7. split.
    + intros [Hin|(p & _ & Hm)]; [inversion Hin|]. exists p. apply Ham, Hm.
    + intros (p & Hm). right. exists p. split; [apply Hm|]. apply Ham, Hm.
Qed.

(** The recycled pages are unused and of the own branch. *)
Lemma pooled_alloc shift branch max_fp us :
  0 <= max_fp < 2 ^ 32 ->
  let al := mkAllocator shift max_fp (PooledFilePages (reverse (free_file_pages shift branch max_fp us))) in
  alloc_wf al /\ (forall fp, fp ∈ us -> 0 <= fp < max_fp -> fp_ok al fp) /\
  (forall fp, fp ∈ free_ids al -> match bm_file_ranges branch with
    | [] => True
    | ranges => FileIdInBranch ranges (DataFileKey (Z.shiftr fp shift)) (bm_branch_name branch) = true
    end).
Proof.
  intros Hmax al. assert (Hspec := fun fp => free_file_pages_spec shift branch max_fp us fp Hmax). split; [|split].
  - split; cbn; [lia|rewrite reverse_Permutation; apply free_file_pages_NoDup, Hmax|].
    intros fp. rewrite elem_of_reverse, Hspec. tauto.
  - intros fp Hus Hr. split; cbn; [exact Hr|].
    rewrite elem_of_reverse, Hspec. intros (_ & Hrec). unfold recyclable in Hrec.
    rewrite bool_decide_eq_true_2 in Hrec; [discriminate Hrec|]. apply elem_of_list_to_set, Hus.
  - intros fp. cbn. rewrite elem_of_reverse, Hspec. unfold recyclable. intros (_ & Hr). apply andb_prop in Hr as [_ Hr].
    destruct (bm_file_ranges branch); [exact I|exact Hr].
Qed.

Lemma GetMapper_ok append local shift term r words :
  is_array (rp_mapping_tbl_ r) words -> loadable words (rp_max_fp_id_ r) -> 0 <= shift ->
  rp_max_fp_id_ r + 2 ^ shift < 2 ^ 32 ->
  exists m l, GetMapper append local shift term r = Some m /\
    mapper_loaded append shift (loaded_max append local shift term r) words (branch_metadata_ r) m l.
Proof.
  intros Ht Hld Hsh Hroom.
  destruct (recover_words _ words shift _ Ht Hld) as (m & l & us & Hrec & Hm & Hsnap & Hmaps & Hfree & Hus).
  unfold GetMapper. rewrite Hrec. cbn [mbind option_bind]. clear Hrec.
  pose proof (ld_max _ _ Hld) as Hmax. unfold loaded_max.
  set (bump := negb local && negb (term =? 0) && negb (bm_term (branch_metadata_ r) =? term)).
  destruct append; cbn [andb].
  - pose proof (bump_range shift (rp_max_fp_id_ r) bump Hsh (proj1 Hmax) Hroom) as Hb.
    destruct (append_allocator_ok shift (bump_term shift (rp_max_fp_id_ r) bump) us Hsh) as (stat & ->).
    { apply list.Forall_forall. intros fp (p & Hp)%Hus. pose proof (ld_below _ _ Hld p fp Hp). lia. }
    cbn [mbind option_bind]. eexists _, l. split; [reflexivity|].
    split; cbn; auto; [exact (mapper_inv_alloc _ _ _ Hm)| | |].
    + split; cbn; [lia|constructor|intros p Hp; inversion Hp].
    + intros p fp Hp. pose proof (ld_below _ _ Hld p fp Hp). destruct Hp as (_ & Hfp & _).
      split; cbn; [lia|intros Hin; inversion Hin].
    + intros fp Hin. inversion Hin.
  - cbn [mbind option_bind]. eexists _, l. split; [reflexivity|].
    destruct (pooled_alloc shift (branch_metadata_ r) (rp_max_fp_id_ r) us Hmax) as (Hwf & Hok & Hpool).
    split; cbn; auto; [exact (mapper_inv_alloc _ _ _ Hm)| |intros fp Hin; split; [reflexivity|exact (Hpool fp Hin)]].
    intros p fp Hp. apply Hok; [apply Hus; eauto|]. pose proof (ld_below _ _ Hld p fp Hp). destruct Hp as (_ & Hfp & _). lia.
Qed.
