(* ===== verification/FlushSpec.v ===== *)
(** * What a flush writes

    The records that [ManifestBuilder] builds are the ones of [ManifestSpec]:
    for a log the mapping changes of the task, for a snapshot the whole tables.
    [FlushManifest] therefore leaves a manifest that replays to the new state. *)

From stdpp Require Import gmap.
From S2P Require Import Prelude Coding PageFormat IndexPageIter MappingTable PageMapper Branch Manifest ManifestSpec Recovery.

(** ** Serialising a table *)

(** [words] are the words of the table, with pointers to cached pages resolved. *)
Definition serialized (h : Heap) (t : MappingTbl) (words : list Z) : Prop :=
  logical_size_ t = zlen words /\
  forall p, 0 <= p < zlen words -> exists v, Get t p = Some v /\ serialize_word h v = words !! Z.to_nat p.

Lemma Serialize_loop_ok h t words : forall done rest,
  serialized h t words -> words = done ++ rest ->
  Serialize_loop h t (length rest) (zlen done) = Some (encode_words rest).
Proof.
  intros done rest [_ Hw]. revert done. induction rest as [|w rest IH]; intros done He; [reflexivity|].
  cbn [length Serialize_loop]. destruct (Hw (zlen done)) as (v & -> & Hs).
  { rewrite He, zlen_app, zlen_cons. zlia. }
  cbn [mbind option_bind]. rewrite Hs, He, list_lookup_middle by (unfold zlen; lia). cbn [mbind option_bind].
  specialize (IH (done ++ [w])). rewrite zlen_app, zlen_cons in IH. change (zlen (@nil Z)) with 0 in IH.
  replace (zlen done + (1 + 0)) with (zlen done + 1) in IH by lia.
  rewrite IH by (rewrite <- app_assoc; exact He). reflexivity.
Qed.

Lemma Serialize_ok h t words : serialized h t words -> Serialize h t = Some (encode_words words).
Proof.
  intros Hs. pose proof Hs as [Hn _]. unfold Serialize. rewrite Hn. unfold zlen. rewrite Nat2Z.id.
  exact (Serialize_loop_ok h t words [] words Hs eq_refl).
Qed.

Section flush_ok.
  Context (hash : bytes -> Z) (page_align : Z) (fresh : Z -> bytes).
  Context (Hfresh : forall n, 0 <= n -> zlen (fresh n) = n).
  Context (k : Z) (Hk : 0 <= k) (Halign : page_align = 2 ^ k).

(** ** The builder *)
Definition builder_of (b : ManifestBuilder) (es : list (Z * Z)) : Prop :=
  exists h, zlen h = header_bytes /\
    ((es = [] /\ resized_for_mapping_bytes_len_ b = false /\ mb_buff b = h) \/
     (resized_for_mapping_bytes_len_ b = true /\ exists g, zlen g = 4 /\ mb_buff b = h ++ g ++ encode_entries es)).

Lemma buff_grow buff n : 0 < n -> buff_resize fresh buff (zlen buff + n) = buff ++ fresh n.
Proof using Type.
  clear Hfresh Hk Halign. intros Hn. unfold buff_resize. rewrite (proj2 (Z.leb_gt _ _)) by lia. do 2 f_equal. lia.
Qed.

Lemma ManifestReset_ok b : builder_of (ManifestReset fresh b) [].
Proof using Hfresh.
  clear Hk Halign. exists (buff_resize fresh (mb_buff b) header_bytes). split; [|left; auto].
  assert (Hh : 0 <= header_bytes) by discriminate. unfold buff_resize. destruct (Z.leb_spec header_bytes (zlen (mb_buff b))).
  - apply zlen_ztake. lia.
  - rewrite zlen_app, Hfresh by lia. lia.
Qed.

Lemma reserve_ok b es :
  builder_of b es -> exists b', reserve_mapping_len fresh b = Some b' /\ builder_of b' es /\ resized_for_mapping_bytes_len_ b' = true.
Proof using Hfresh.
  clear Hk Halign. intros (h & Hh & [(-> & Hr & Hb)|(Hr & g & Hg & Hb)]); unfold reserve_mapping_len; rewrite Hr.
  - rewrite Hb, Hh, Z.eqb_refl, <- Hh, buff_grow by lia. eexists. split; [reflexivity|]. split; [|reflexivity].
    exists h. split; [exact Hh|]. right. split; [reflexivity|]. exists (fresh 4). rewrite Hfresh by lia.
    split; [reflexivity|]. cbn [mb_buff encode_entries map concat]. rewrite app_nil_r. reflexivity.
  - exists b. split; [reflexivity|]. split; [|exact Hr]. exists h. split; [exact Hh|]. right. eauto.
Qed.

Lemma append_entry_ok b es p w :
  builder_of b es -> exists b', append_entry fresh b p w = Some b' /\ builder_of b' (es ++ [(p, w)]).
Proof using Hfresh.
  intros Hb. destruct (reserve_ok b es Hb) as (b1 & Hr1 & (h & Hh & Hc) & Ht1). unfold append_entry. rewrite Hr1.
  cbn [mbind option_bind]. eexists. split; [reflexivity|]. exists h. split; [exact Hh|]. right. split; [reflexivity|].
  destruct Hc as [(_ & Hf & _)|(_ & g & Hg & Hbuff)]; [congruence|]. exists g. split; [exact Hg|].
  cbn [mb_buff]. rewrite Hbuff. unfold encode_entries. rewrite map_app, concat_app. cbn [map concat encode_entry fst snd].
  rewrite app_nil_r, <- !app_assoc. reflexivity.
Qed.

Lemma ManifestEmpty_ok b es : builder_of b es -> ManifestEmpty b = negb (resized_for_mapping_bytes_len_ b).
Proof using Type.
  clear Hfresh Hk Halign. intros (h & Hh & [(_ & -> & Hb)|(-> & g & Hg & Hb)]); unfold ManifestEmpty; rewrite Hb.
  - rewrite Hh, Z.leb_refl. reflexivity.
  - rewrite !zlen_app, (proj2 (Z.leb_gt _ _)) by zlia. reflexivity.
Qed.

Lemma append_sized_ok buff body : zlen body < 2 ^ 32 -> append_sized fresh buff body = buff ++ sized body.
Proof using Hfresh.
  clear Hk Halign. intros Hb. unfold append_sized, sized. pose proof (zlen_nonneg body).
  rewrite buff_grow, u32_id, <- app_assoc by (lia || width).
  apply write_at_split; [reflexivity|]. rewrite Hfresh, zlen_fixed32 by lia. reflexivity.
Qed.

(** The record of a log: the entries, the branches and the segment changes. *)
Lemma log_blob b lr :
  builder_of b (lr_entries lr) -> log_ok lr ->
  exists b1, AppendBranchManifestMetadata fresh b (SerializeBranchManifestMetadata (lr_branch lr)) = Some b1 /\
    snd (Finalize hash page_align fresh
      (AppendSegmentMapping (AppendSegmentMapping b1 (EncodeFixed32 (u32 (zlen (encode_entries (lr_segs lr))))))
         (encode_entries (lr_segs lr))) (lr_root lr) (lr_ttl_root lr)) = log_record hash page_align fresh lr.
Proof using Hfresh Hk Halign.
  intros Hb Hlr. destruct (log_sections lr Hlr) as (He & Hbr & Hs). destruct (reserve_ok b _ Hb) as (b1 & Hr1 & (h & Hh & Hc) & Ht1).
  destruct Hc as [(_ & Hf & _)|(_ & g & Hg & Hbuff)]; [congruence|].
  unfold AppendBranchManifestMetadata. rewrite Hr1. cbn [mbind option_bind]. eexists. split; [reflexivity|].
  unfold log_record. apply (Finalize_record hash page_align fresh k Hk Halign h); [exact Hh|apply Hlr|].
  unfold AppendSegmentMapping. cbn [mb_buff]. rewrite append_sized_ok by exact Hbr. rewrite Hbuff.
  rewrite !zlen_app, Hh, Hg. replace (header_bytes + (4 + zlen (encode_entries (lr_entries lr))) - header_bytes - 4)
    with (zlen (encode_entries (lr_entries lr))) by lia.
  assert (Hu : forall x : bytes, zlen x < 2 ^ 32 -> u32 (zlen x) = zlen x) by (clear Hk; intros x Hx; apply u32_id; unfold is_u32; zlia).
  rewrite !Hu, (write_at_split h g) by (auto; rewrite zlen_fixed32; exact (eq_sym Hg)).
  unfold log_payload, sized. rewrite <- !app_assoc. reflexivity.
Qed.

(** The record of a snapshot. *)
Lemma snapshot_blob b h c words branch seg st :
  serialized h (mapping_tbl_ (mapper_ c)) words ->
  match segment_mapper_ c, seg with
  | Some m, Some ws => serialized h (mapping_tbl_ m) ws
  | None, None => True
  | _, _ => False
  end ->
  st = mkState (root_id_ c) (ttl_root_id_ c) words (max_fp_id_ (file_page_allocator_ (mapper_ c))) (dictionary_ c) branch
         (match seg with Some ws => ws | None => [] end) (max_segment_of c) ->
  state_ok st (match seg with Some _ => true | None => false end) ->
  exists b', Snapshot hash page_align fresh b (root_id_ c) (ttl_root_id_ c) h (mapping_tbl_ (mapper_ c))
      (max_fp_id_ (file_page_allocator_ (mapper_ c))) (dictionary_ c) branch
      ((fun m => (mapping_tbl_ m, max_fp_id_ (file_page_allocator_ m))) <$> segment_mapper_ c) =
    Some (b', snapshot_record hash page_align fresh st (match seg with Some _ => true | None => false end)).
Proof using Hfresh Hk Halign.
  intros Hw Hseg Hst Hok. destruct (snapshot_sections _ _ Hok) as (Hdl & Hwl & Hbl & Hsl).
  unfold Snapshot. rewrite (Serialize_ok _ _ _ Hw). cbn [mbind option_bind].
  destruct (ManifestReset_ok b) as (hd & Hhd & [(_ & _ & Hbuff)|(Hf & _)]); [|discriminate Hf].
  rewrite Hbuff. rewrite Hst in Hdl, Hwl, Hbl, Hsl. cbn [ms_dict ms_words ms_branch ms_seg_words] in *.
  rewrite !append_sized_ok by assumption.
  assert (Hfin : forall buff, buff = hd ++ snapshot_payload st (match seg with Some _ => true | None => false end) ->
    exists b', Some (Finalize hash page_align fresh (mkManifest buff false) (root_id_ c) (ttl_root_id_ c)) =
      Some (b', snapshot_record hash page_align fresh st (match seg with Some _ => true | None => false end))).
  { intros buff Hb. destruct (Finalize _ _ _ (mkManifest buff false) _ _) as [b' blob] eqn:Hf. exists b'. do 2 f_equal.
    replace blob with (snd (b', blob)) by reflexivity. rewrite <- Hf. unfold snapshot_record. rewrite Hst at 1 2.
    cbn [ms_root ms_ttl_root]. apply (Finalize_record hash page_align fresh k Hk Halign hd); [exact Hhd|apply Hok|exact Hb]. }
  assert (Hdu : u32 (zlen (dictionary_ c)) = zlen (dictionary_ c)) by (clear Hk; apply u32_id; unfold is_u32; zlia).
  rewrite Hdu. unfold max_segment_of in Hst.
  destruct (segment_mapper_ c) as [m|], seg as [ws|]; try contradiction; cbn [fmap option_fmap option_map].
  - rewrite (Serialize_ok _ _ _ Hseg). cbn [mbind option_bind]. rewrite append_sized_ok by exact (Hsl eq_refl).
    apply Hfin. rewrite Hst. unfold snapshot_payload. cbn [ms_max_fp ms_dict ms_words ms_branch ms_max_seg ms_seg_words]. rewrite <- !app_assoc. reflexivity.
  - cbn [mbind option_bind]. apply Hfin. rewrite Hst. unfold snapshot_payload. cbn [ms_max_fp ms_dict ms_words ms_branch ms_max_seg ms_seg_words]. rewrite <- !app_assoc, app_nil_r. reflexivity.
Qed.
(** ** Flushing *)
Lemma padding_aligned n : 0 <= n -> padding_of page_align (n + padding_of page_align n) = 0.
Proof using Hk Halign.
  clear Hfresh. intros Hn. pose proof (align_pos page_align k Hk Halign) as Hp. unfold padding_of at 2.
  pose proof (Z.div_mod n page_align ltac:(lia)) as Hdm. pose proof (Z.mod_pos_bound n page_align ltac:(lia)) as Hr.
  assert (Hm : forall q, q mod page_align = 0 -> padding_of page_align q = 0) by (intros q Hq; unfold padding_of; rewrite Hq; reflexivity).
  apply Hm. destruct (Z.ltb_spec 0 (n mod page_align)).
  - replace (n + (page_align - n mod page_align)) with ((n / page_align + 1) * page_align) by lia. apply Z_mod_mult.
  - rewrite Z.add_0_r. lia.
Qed.

Lemma AlignSize_record root ttl_root payload :
  AlignSize page_align (zlen (record hash page_align fresh root ttl_root payload)) =
  zlen (record hash page_align fresh root ttl_root payload).
Proof using Hfresh Hk Halign.
  rewrite (AlignSize_eq page_align k Hk Halign) by apply zlen_nonneg.
  rewrite (record_length hash page_align fresh Hfresh k Hk Halign).
  rewrite padding_aligned by (change header_bytes with 20; clear; zlia). lia.
Qed.

Lemma AppendManifest_ok disk good tail blob :
  AppendManifest disk (good ++ tail) blob (zlen good) = good ++ blob ++ (if disk then zdrop (zlen blob) tail else []).
Proof using Type.
  clear. unfold AppendManifest. destruct disk.
  - replace (Z.to_nat (zlen good - zlen (good ++ tail))) with 0%nat by (rewrite zlen_app; zlia).
    cbn [replicate]. rewrite app_nil_r, ztake_app, zdrop_app_add by zlia. reflexivity.
  - rewrite app_nil_r. rewrite zlen_app. destruct (Z.ltb_spec (zlen good) (zlen good + zlen tail)); [rewrite ztake_app; reflexivity|].
    rewrite (zlen_zero tail) by zlia. rewrite app_nil_r. reflexivity.
Qed.

(** The outcomes of a successful flush: nothing to do, a log record, a snapshot. *)
Inductive flush_outcome (disk : bool) (c : CowRootMeta) (wal : ManifestBuilder) (lr : LogRecord) (st : ManifestState)
    (has_seg : bool) (file : bytes) : CowRootMeta -> bytes -> Prop :=
| flush_nothing :
    resized_for_mapping_bytes_len_ wal = false ->
    ~ (root_id_ c = MaxPageId /\ ttl_root_id_ c = MaxPageId /\ 0 < manifest_size_ c) ->
    flush_outcome disk c wal lr st has_seg file c file
| flush_log :
    0 < manifest_size_ c -> dictionary_dirty_ c = false -> resized_for_mapping_bytes_len_ wal = true ->
    flush_outcome disk c wal lr st has_seg file
      (flushed c (manifest_size_ c + zlen (log_record hash page_align fresh lr)) false)
      (AppendManifest disk file (log_record hash page_align fresh lr) (manifest_size_ c))
| flush_snapshot :
    flush_outcome disk c wal lr st has_seg file
      (flushed c (zlen (snapshot_record hash page_align fresh st has_seg)) false)
      (snapshot_record hash page_align fresh st has_seg).

Section one_flush.
  Context (disk : bool) (limit : Z) (h : Heap) (branch : BranchManifestMetadata) (c : CowRootMeta) (wal : ManifestBuilder).
  Context (es ses : list (Z * Z)) (words : list Z) (seg : option (list Z)) (file : bytes).

  Local Abbreviation has_seg := (match seg with Some _ => true | None => false end).

Definition task_log : LogRecord := mkLog (root_id_ c) (ttl_root_id_ c) es branch ses.

Definition task_state : ManifestState :=
  mkState (root_id_ c) (ttl_root_id_ c) words (max_fp_id_ (file_page_allocator_ (mapper_ c))) (dictionary_ c) branch
    (match seg with Some ws => ws | None => [] end) (max_segment_of c).

  Context (Hwal : builder_of wal es) (Hlog : resized_for_mapping_bytes_len_ wal = true -> log_ok task_log).
  Context (Hwords : serialized h (mapping_tbl_ (mapper_ c)) words).
  Context (Hseg : match segment_mapper_ c, seg with
                  | Some m, Some ws => serialized h (mapping_tbl_ m) ws
                  | None, None => True
                  | _, _ => False
                  end).
  Context (Hst : state_ok task_state has_seg).

Lemma switch_manifest_ok :
  exists wal', switch_manifest hash page_align fresh IoOk h branch c wal =
    Some (NoError, flushed c (zlen (snapshot_record hash page_align fresh task_state has_seg)) false, wal',
          snapshot_record hash page_align fresh task_state has_seg).
Proof using Hfresh Hk Halign Hwords Hseg Hst.
  unfold switch_manifest.
  destruct (snapshot_blob wal h c words branch seg task_state Hwords Hseg eq_refl Hst) as (b' & ->).
  cbn [mbind option_bind]. eauto.
Qed.

Lemma FlushManifest_ok :
  exists c' wal' file',
    FlushManifest hash page_align fresh disk limit IoOk h branch c wal (encode_entries ses) file = Some (NoError, c', wal', file') /\
    flush_outcome disk c wal task_log task_state has_seg file c' file'.
Proof using Hfresh Hk Halign Hwal Hlog Hwords Hseg Hst.
  unfold FlushManifest. rewrite (ManifestEmpty_ok wal es Hwal).
  destruct (resized_for_mapping_bytes_len_ wal) eqn:Hres; cbn [negb andb].
  - destruct (_ && (_ <=? limit)) eqn:Hcond.
    + apply andb_prop in Hcond as [Hcond _]. apply andb_prop in Hcond as [Hd Hsz].
      apply negb_true_iff in Hd. apply Z.ltb_lt in Hsz.
      destruct (log_blob wal task_log Hwal (Hlog eq_refl)) as (b1 & Hb1 & Hblob). unfold task_log in Hb1 at 1.
      cbn [lr_branch lr_segs lr_root lr_ttl_root task_log] in Hb1, Hblob. rewrite Hb1. cbn [mbind option_bind].
      destruct (Finalize _ _ _ _ _ _) as [b2 blob]. cbn [snd] in Hblob. subst blob.
      do 3 eexists. split; [reflexivity|]. unfold log_record at 1. rewrite AlignSize_record, Hd.
      apply flush_log; assumption.
    + destruct switch_manifest_ok as (wal' & ->). do 3 eexists. split; [reflexivity|apply flush_snapshot].
  - destruct ((root_id_ c =? MaxPageId) && (ttl_root_id_ c =? MaxPageId) && (0 <? manifest_size_ c)) eqn:Hempty; cbn [negb].
    + destruct switch_manifest_ok as (wal' & ->). do 3 eexists. split; [reflexivity|apply flush_snapshot].
    + do 3 eexists. split; [reflexivity|]. apply flush_nothing; [exact Hres|]. intros (H1 & H2 & H3).
      rewrite H1, H2, !Z.eqb_refl, (proj2 (Z.ltb_lt _ _)) in Hempty by exact H3. discriminate Hempty.
Qed.
End one_flush.
End flush_ok.

(** ** A record without its padding

    The padding behind a record is not part of it, but a record that lacks some
    of it is dropped by a replay, which still counts the whole record.  The next
    append leaves a hole there, which reads as zeros. *)
Definition zeros (n : Z) : bytes := replicate (Z.to_nat n) 0.

Lemma zeros_length n : 0 <= n -> zlen (zeros n) = n.
Proof. intros H. unfold zeros, zlen. rewrite length_replicate. lia. Qed.

Section torn_padding.
  Context (hash : bytes -> Z) (page_align : Z) (k : Z) (Hk : 0 <= k) (Halign : page_align = 2 ^ k).

  Local Abbreviation manifest_bytes := (manifest_bytes hash page_align zeros).
  Local Abbreviation log_record := (log_record hash page_align zeros).

(** The hole completes the record. *)
Lemma zeros_complete root ttl_root payload n :
  header_bytes + zlen payload <= n <= zlen (record hash page_align zeros root ttl_root payload) ->
  ztake n (record hash page_align zeros root ttl_root payload) ++
    zeros (zlen (record hash page_align zeros root ttl_root payload) - n) = record hash page_align zeros root ttl_root payload.
Proof using Type.
  clear k Hk Halign. intros Hn. rewrite record_split, app_assoc in *. set (a := record_header _ _ _ _ ++ payload) in *.
  assert (Ha : zlen a = header_bytes + zlen payload) by (unfold a; rewrite zlen_app, record_header_length; reflexivity).
  set (p := padding_of page_align (header_bytes + zlen payload)) in *. rewrite ztake_app_ge, <- app_assoc by lia. f_equal.
  rewrite zlen_app in *. unfold zeros in *. unfold ztake. rewrite take_replicate, <- replicate_add. f_equal.
  unfold zlen in *. rewrite length_replicate in *. lia.
Qed.

(** Appending behind the whole record fills the hole. *)
Lemma append_over_hole st has_seg logs lr n lr2 size :
  20 + zlen (log_payload lr) <= n < zlen (log_record lr) -> size = zlen (manifest_bytes st has_seg logs ++ log_record lr) ->
  AppendManifest true (manifest_bytes st has_seg logs ++ ztake n (log_record lr)) (log_record lr2) size =
  manifest_bytes st has_seg (logs ++ [lr; lr2]) ++ [].
Proof using Type.
  clear k Hk Halign. intros Hn ->. pose proof (zlen_nonneg (log_payload lr)) as H0. set (m := manifest_bytes st has_seg logs).
  assert (Hlen : zlen (m ++ ztake n (log_record lr)) = zlen m + n) by (rewrite zlen_app, zlen_ztake by lia; reflexivity).
  unfold AppendManifest. rewrite Hlen, (zlen_app m). replace (zlen m + zlen (log_record lr) - (zlen m + n)) with (zlen (log_record lr) - n) by lia.
  fold (zeros (zlen (log_record lr) - n)). rewrite <- app_assoc.
  unfold ManifestSpec.log_record at 1 2. rewrite zeros_complete by (fold (log_record lr); change header_bytes with 20; lia).
  fold (log_record lr). rewrite <- zlen_app, ztake_all.
  assert (Hd : zdrop (zlen (m ++ log_record lr) + zlen (log_record lr2)) (m ++ ztake n (log_record lr)) = []).
  { unfold zdrop. apply drop_ge. pose proof (zlen_nonneg (log_record lr2)). rewrite (zlen_app m).
    apply Nat2Z.inj_le. fold (zlen (m ++ ztake n (log_record lr))). rewrite Hlen, Z2Nat.id by (pose proof (zlen_nonneg m); lia). lia. }
  rewrite Hd, !app_nil_r. unfold m, ManifestSpec.manifest_bytes. rewrite map_app, concat_app. cbn [map concat].
  rewrite app_nil_r, <- !app_assoc. reflexivity.
Qed.

(** C33: A dropped record comes back.  A crash leaves a log record complete but
    for its padding: the restart does not apply it, yet reports a size that
    includes it.  After the next record has been appended at that offset, the
    following restart applies the dropped record as well. *)
Theorem dropped_record_returns skip st has_seg logs lr n lr2 :
  state_ok st has_seg -> Forall log_ok logs -> log_ok lr -> log_ok lr2 ->
  header_bytes + zlen (log_payload lr) <= n < zlen (log_record lr) ->
  exists r r',
    Replay hash page_align skip (manifest_bytes st has_seg logs ++ ztake n (log_record lr)) = Some (NoError, r) /\
    replays r (fold_left apply_log logs st) /\
    Replay hash page_align skip
      (AppendManifest true (manifest_bytes st has_seg logs ++ ztake n (log_record lr)) (log_record lr2) (file_size_ r)) =
      Some (NoError, r') /\
    replays r' (fold_left apply_log (logs ++ [lr; lr2]) st).
Proof using Hk Halign.
  intros Hst Hl Hlr Hlr2 Hn. pose proof (zlen_nonneg (log_payload lr)) as H0. change header_bytes with 20 in Hn.
  destruct (torn_padding_counted hash page_align zeros zeros_length k Hk Halign skip st has_seg logs (lr_root lr) (lr_ttl_root lr)
    (log_payload lr) n Hst Hl (lo_record _ Hlr) Hn) as (r & Hr & Hrep & Hsize).
  fold (log_record lr) in Hr, Hsize. exists r.
  rewrite (append_over_hole st has_seg logs lr n lr2 _ Hn Hsize).
  destruct (Replay_prefix hash page_align zeros zeros_length k Hk Halign skip st has_seg (logs ++ [lr; lr2]) [] Hst) as (r' & fuel & Hr' & Hrep' & Hc & _).
  { apply Forall_app_2; [exact Hl|]. constructor; [exact Hlr|constructor; [exact Hlr2|constructor]]. }
  exists r'. split; [exact Hr|]. split; [exact Hrep|]. split; [|exact Hrep'].
  rewrite Hr'. cbn [length plus]. rewrite replay_end, Hc. reflexivity.
Qed.
End torn_padding.

(** The log record of [ReplayExample], cut behind its payload: the first restart
    has no page 2, the second one maps it to file page 6. *)
Module TornExample.
Import ReplayExample.

Definition next : LogRecord := mkLog 0 (2 ^ 32 - 1) [(0, EncodeFilePageId 5)] (mkBranchMeta [109] 0 []) [].

Lemma next_ok : log_ok next.
Proof.
  split; auto using wf_branch.
  - split; [split; [discriminate|reflexivity]|]. split; [split; [discriminate|reflexivity]|vm_compute; reflexivity].
  - constructor; [split; (split; [discriminate|reflexivity])|constructor].
Qed.

Definition cut : Z := 20 + zlen (log_payload lr).

Definition torn : bytes := manifest_bytes hash 64 zeros st false [] ++ ztake cut (log_record hash 64 zeros lr).

Lemma dropped_record_returns_witness :
  exists r r', Replay hash 64 true torn = Some (NoError, r) /\ logical_size_ (rp_mapping_tbl_ r) = 1 /\
    Replay hash 64 true (AppendManifest true torn (log_record hash 64 zeros next) (file_size_ r)) = Some (NoError, r') /\
    Get (rp_mapping_tbl_ r') 2 = Some (EncodeFilePageId 6).
Proof.
  destruct (dropped_record_returns hash 64 6 ltac:(lia) eq_refl true st false [] lr cut next st_ok ltac:(constructor) lr_ok next_ok)
    as (r & r' & Hr & (_ & _ & Hh) & Hr' & (_ & _ & Hh')); [split; [discriminate|reflexivity]|].
  exists r, r'. split; [exact Hr|]. split; [apply (ho_words _ _ Hh)|]. split; [exact Hr'|].
  destruct (ho_words _ _ Hh') as (_ & _ & _ & Hg). rewrite (Hg 2) by (vm_compute; split; [discriminate|reflexivity]). reflexivity.
Defined.
End TornExample.
