(* ===== verification/Durability.v ===== *)
(** * Crash safety of a partition

    The copy-on-write store, the manifest of its partition and the page contents
    on disk, driven by write tasks ([WriteTask::UpdateMeta] and the operations
    before it in src/tasks/write_task.cpp) that may commit, abort or fail, and by
    crashes after which the partition is loaded again.  After a crash every page
    of the last committed task is found again, and no page of an unfinished one. *)

From stdpp Require Import gmap sorting.
From S2P Require Import Prelude Coding PageFormat IndexPageIter MappingTable PageMapper CowStore Branch Manifest ManifestSpec Recovery RecoverySpec FlushSpec.

(** ** The system *)

(** A partition in memory and on disk: the store, the published roots and
    dictionary, the log of the running task, and the manifest with its size. *)
Record Sys := mkSys {
  sy_store : Store;
  sy_root : Z;
  sy_ttl_root : Z;
  sy_dict : bytes;
  sy_wal : ManifestBuilder;
  sy_size : Z;
  sy_file : bytes
}.

Definition with_store (y : Sys) (s : Store) : Sys :=
  mkSys s (sy_root y) (sy_ttl_root y) (sy_dict y) (sy_wal y) (sy_size y) (sy_file y).

(** The metadata of the running task; the partition has no large values. *)
Definition task_meta (y : Sys) (c : CowMeta) (sn : CowStore.Snapshot) (root ttl_root : Z) (dict : bytes) (dirty : bool)
    : CowRootMeta :=
  mkCowRoot root ttl_root (to_mapper (cow_mapper c) sn) None (sy_size y) dict dirty 0 0.

(** A store over a loaded mapper. *)
Definition loaded_store (m : PageMapper) (disk : gmap Z bytes) (a : option (list (list Z))) : Store :=
  mkStore {[0 := mkSnap (mapping_tbl_ m) [] None]} (Some (of_mapper 0 m)) None [] 1 disk a.

(** The table of the published snapshot. *)
Definition pub_tbl (s : Store) (t : MappingTbl) : Prop :=
  exists m sn, st_pub s = Some m /\ st_snaps s !! mr_snap m = Some sn /\ sn_tbl sn = t.

(** The page contents that must survive: those of published pages. *)
Definition disk_survives (s : Store) (disk : gmap Z bytes) : Prop :=
  forall t p fp, pub_tbl s t -> maps t p fp -> disk !! fp = st_disk s !! fp.

(** What a commit needs: values of their widths, sizes of 32 bits, file pages
    left, and that a task without mapping changes has no other changes. *)
Record commit_ok (shift : Z) (y : Sys) (c : CowMeta) (sn : CowStore.Snapshot) (root ttl_root : Z) (dict : bytes)
    (dirty : bool) (branch : BranchManifestMetadata) : Prop := {
  ck_root : is_u32 root;
  ck_ttl_root : is_u32 ttl_root;
  ck_branch : wf_meta branch;
  ck_log : zlen (mb_buff (sy_wal y)) + 8 + zlen (SerializeBranchManifestMetadata branch) < 2 ^ 32;
  ck_snapshot : zlen dict + 10 * logical_size_ (sn_tbl sn) + zlen (SerializeBranchManifestMetadata branch) + 64 < 2 ^ 32;
  ck_room : max_fp_id_ (mr_alloc (cow_mapper c)) + 2 ^ shift < 2 ^ 32;
  ck_clean : dirty = false -> dict = sy_dict y;
  ck_idle : resized_for_mapping_bytes_len_ (sy_wal y) = false -> dict = sy_dict y /\
    ((root = sy_root y /\ ttl_root = sy_ttl_root y) \/ (root = MaxPageId /\ ttl_root = MaxPageId /\ 0 < sy_size y))
}.

Section system.
  Context (hash : bytes -> Z) (page_align : Z) (fresh : Z -> bytes).
  Context (append disk skip local cloud_mode : bool) (shift seg_shift term limit : Z).

Definition tail_ok (tail : bytes) : Prop := tail = [] \/ unfinished hash page_align fresh tail.

Inductive sys_step (y : Sys) : Sys -> Prop :=
| sys_begin s' :
    st_cow (sy_store y) = None -> MakeCowRoot shift append (sy_store y) = Some s' ->
    sys_step y (mkSys s' (sy_root y) (sy_ttl_root y) (sy_dict y) (ManifestReset fresh (sy_wal y)) (sy_size y) (sy_file y))
| sys_get c sn id s' :
    st_cow (sy_store y) = Some c -> st_snaps (sy_store y) !! mr_snap (cow_mapper c) = Some sn ->
    logical_size_ (sn_tbl sn) < max_pages -> CowGetPage (sy_store y) = Some (id, s') -> sys_step y (with_store y s')
| sys_write c page_id content id fp s' wal' :
    st_cow (sy_store y) = Some c -> max_fp_id_ (mr_alloc (cow_mapper c)) < 2 ^ 32 - 1 -> writable (sy_store y) c page_id ->
    AllocatePage append (sy_store y) page_id = Some (id, fp, s') ->
    ManifestUpdateMapping fresh (sy_wal y) id fp = Some wal' ->
    sys_step y (mkSys (with_disk s' (<[fp := content]> (st_disk s'))) (sy_root y) (sy_ttl_root y) (sy_dict y) wal'
                  (sy_size y) (sy_file y))
| sys_free page_id s' wal' :
    cow_maps (sy_store y) page_id -> CowFreePage append (sy_store y) page_id = Some s' ->
    ManifestDeleteMapping fresh (sy_wal y) page_id = Some wal' ->
    sys_step y (mkSys s' (sy_root y) (sy_ttl_root y) (sy_dict y) wal' (sy_size y) (sy_file y))
| sys_acquire i s' : AcquireSnapshot (sy_store y) = Some (i, s') -> sys_step y (with_store y s')
| sys_drop i s' : DropSnapshot (sy_store y) i = Some s' -> sys_step y (with_store y s')
| sys_abort s' : is_Some (st_cow (sy_store y)) -> Abort (sy_store y) = Some s' -> sys_step y (with_store y s')
| sys_commit c sn root ttl_root dict dirty branch c' wal' file' s' :
    st_cow (sy_store y) = Some c -> st_snaps (sy_store y) !! mr_snap (cow_mapper c) = Some sn ->
    commit_ok shift y c sn root ttl_root dict dirty branch ->
    FlushManifest hash page_align fresh disk limit IoOk ∅ branch (task_meta y c sn root ttl_root dict dirty) (sy_wal y) []
      (sy_file y) = Some (NoError, c', wal', file') ->
    UpdateRoot append (sy_store y) = Some s' ->
    sys_step y (mkSys s' root ttl_root dict wal' (manifest_size_ c') file')
| sys_flush_fails c sn root ttl_root dict dirty branch c' wal' tail s' :
    st_cow (sy_store y) = Some c -> st_snaps (sy_store y) !! mr_snap (cow_mapper c) = Some sn ->
    FlushManifest hash page_align fresh disk limit (IoError (ztake (sy_size y) (sy_file y) ++ tail)) ∅ branch
      (task_meta y c sn root ttl_root dict dirty) (sy_wal y) [] (sy_file y) =
      Some (IoFail, c', wal', ztake (sy_size y) (sy_file y) ++ tail) ->
    Abort (sy_store y) = Some s' ->
    sys_step y (mkSys s' (sy_root y) (sy_ttl_root y) (sy_dict y) wal' (sy_size y) (ztake (sy_size y) (sy_file y) ++ tail))
| sys_crash tail disk' meta a :
    0 < sy_size y -> tail_ok tail -> disk_survives (sy_store y) disk' -> arena_ok a ->
    load_meta hash page_align skip false append local cloud_mode shift seg_shift term (ztake (sy_size y) (sy_file y) ++ tail) =
      Some (NoError, Some meta) ->
    sys_step y (mkSys (loaded_store (rm_mapper_ meta) disk' a) (rm_root_id_ meta) (rm_ttl_root_id_ meta)
                  (rm_dictionary_ meta) (sy_wal y) (rm_manifest_size_ meta) (ztake (sy_size y) (sy_file y) ++ tail))
| sys_crash_new disk' a :
    sy_size y = 0 -> arena_ok a ->
    sys_step y (mkSys (with_disk (new_store a) disk') MaxPageId MaxPageId [] (sy_wal y) 0 []).

(** A partition starts without a manifest. *)
Inductive sys_reach : Sys -> Prop :=
| sys_start a wal : arena_ok a -> sys_reach (mkSys (new_store a) MaxPageId MaxPageId [] wal 0 [])
| sys_next y y' : sys_reach y -> sys_step y y' -> sys_reach y'.
End system.

(** ** Words of a replayed log *)
Lemma words_map_put ws e q fp :
  0 <= fst e -> words_map (put_word ws e) q fp <->
  (q = fst e /\ snd e = EncodeFilePageId fp /\ 0 <= fp < 2 ^ 32) \/ (q <> fst e /\ words_map ws q fp).
Proof.
  intros Hp. unfold words_map, put_word. set (ext := ws ++ replicate _ InvalidValue).
  assert (Hlen : (Z.to_nat (fst e) < length ext)%nat)
    by (unfold ext; rewrite length_app, length_replicate; unfold zlen; lia).
  destruct (Z.eq_dec q (fst e)) as [->|Hne].
  - rewrite list_lookup_insert_eq by exact Hlen. split.
    + intros (_ & Hfp & Hw). left. split; [reflexivity|]. split; [congruence|exact Hfp].
    + intros [(_ & -> & Hfp)|[Hne _]]; [auto|congruence].
  - split.
    + intros (Hq & Hfp & Hw). rewrite list_lookup_insert_ne in Hw by lia. right. split; [exact Hne|]. split; [exact Hq|].
      split; [exact Hfp|]. unfold ext in Hw. apply lookup_app_Some in Hw as [Hw|[_ Hw]]; [exact Hw|].
      apply lookup_replicate_1 in Hw as [Hw _]. exfalso. apply (no_file_word InvalidValue fp Hfp); auto.
    + intros [[-> _]|(_ & Hq & Hfp & Hw)]; [congruence|]. split; [exact Hq|]. split; [exact Hfp|].
      rewrite list_lookup_insert_ne by lia. unfold ext. apply lookup_app_l_Some. exact Hw.
Qed.

(** The entries a task logs. *)
Definition task_entry (al : FilePageAllocator) (e : Z * Z) : Prop :=
  0 <= fst e < max_pages /\
  (snd e = InvalidValue \/ exists fp, snd e = EncodeFilePageId fp /\ 0 <= fp < 2 ^ 32 /\ fp_ok al fp).

Lemma task_entry_ok al e : task_entry al e -> entry_ok e /\ plain_word (snd e).
Proof.
  intros [Hp Hw]. unfold entry_ok, max_pages in *. split.
  - split; [unfold is_u32; lia|]. destruct Hw as [->|(fp & -> & Hfp & _)]; [split; [discriminate|reflexivity]|].
    rewrite EncodeFilePageId_eq by lia. unfold is_u64. lia.
  - destruct Hw as [->|(fp & -> & Hfp & _)]; [left; reflexivity|right; right; eauto].
Qed.

Lemma put_words_plain al es ws :
  Forall (task_entry al) es -> Forall plain_word ws -> zlen ws <= max_pages ->
  Forall plain_word (fold_left put_word es ws) /\ zlen (fold_left put_word es ws) <= max_pages.
Proof.
  intros He. revert ws. induction He as [|e es He _ IH]; intros ws Hw Hn; [auto|]. cbn [fold_left].
  apply IH; [|rewrite put_word_length by apply He; destruct He as [Hp _]; lia].
  unfold put_word. apply Forall_insert; [|exact (proj2 (task_entry_ok _ _ He))].
  apply Forall_app_2; [exact Hw|]. apply Forall_replicate. left. reflexivity.
Qed.

(** The bound of a replayed log lies above the file pages of its entries. *)
Lemma bump_max_bound al es m M :
  Forall (task_entry al) es -> max_fp_id_ al <= M -> M < 2 ^ 32 -> 0 <= m <= M -> m <= fold_left bump_max es m <= M.
Proof.
  intros He Hal HM. revert m. induction He as [|e es [_ He] _ IH]; intros m Hm; [cbn; lia|]. cbn [fold_left].
  assert (Hb : m <= bump_max m e <= M).
  { unfold bump_max. destruct He as [->|(fp & -> & Hfp & [Hlt _])]; [change (IsFilePageId InvalidValue) with false; cbv beta iota; lia|].
    destruct (file_page_word fp ltac:(lia)) as (_ & -> & -> & _). rewrite u64_id by (unfold is_u64; lia). lia. }
  specialize (IH (bump_max m e) ltac:(lia)). lia.
Qed.

Lemma bump_max_above al es : forall ws m,
  Forall (task_entry al) es -> max_fp_id_ al < 2 ^ 32 -> 0 <= m < 2 ^ 32 -> (forall p fp, words_map ws p fp -> fp < m) ->
  forall p fp, words_map (fold_left put_word es ws) p fp -> fp < fold_left bump_max es m.
Proof.
  induction es as [|e es IH]; intros ws m He Hal Hm Hw; [exact Hw|]. apply Forall_cons_1 in He as [[Hp He] Hes].
  cbn [fold_left]. assert (Hb : m <= bump_max m e < 2 ^ 32 /\ forall fp, 0 <= fp < 2 ^ 32 -> snd e = EncodeFilePageId fp -> fp < bump_max m e).
  { unfold bump_max. destruct He as [->|(fp & -> & Hfp & [Hlt _])].
    - change (IsFilePageId InvalidValue) with false. cbv beta iota. split; [lia|]. intros fp Hfp Heq. exfalso.
      apply (no_file_word InvalidValue fp Hfp); auto.
    - destruct (file_page_word fp ltac:(lia)) as (_ & -> & -> & _). rewrite u64_id by (unfold is_u64; lia).
      split; [lia|]. intros fq Hfq Heq. apply file_word_inj in Heq; lia. }
  apply IH; [exact Hes|exact Hal|lia|]. intros p fp. rewrite words_map_put by lia.
  intros [(_ & Heq & Hfp)|[_ Hq]]; [apply Hb; assumption|]. specialize (Hw p fp Hq). lia.
Qed.

(** ** What steps do to the published table *)
Definition pub_kept (s s' : Store) : Prop :=
  (is_Some (st_pub s) -> is_Some (st_pub s')) /\
  forall t', pub_tbl s' t' -> exists t, pub_tbl s t /\ forall p fp, maps t' p fp <-> maps t p fp.

Lemma pub_kept_same s s' :
  mr_snap <$> st_pub s' = mr_snap <$> st_pub s -> reads_kept s s' -> pub_kept s s'.
Proof.
  intros Hp Hr. split.
  - intros [m Hm]. rewrite Hm in Hp. destruct (st_pub s'); [eauto|discriminate Hp].
  - intros t' (m & sn & Hm & Hsn & <-). rewrite Hm in Hp. destruct (st_pub s) as [m0|] eqn:Hm0; [|discriminate Hp].
    injection Hp as Hp. destruct (Hr _ _ Hsn) as (sn0 & Hsn0 & Ht). exists (sn_tbl sn0).
    split; [exists m0, sn0; split; [exact Hm0|]; split; [congruence|reflexivity]|]. rewrite Ht. reflexivity.
Qed.

Lemma pub_kept_update append s s' c c' tbl tbl' freed :
  store_inv append s -> cow_update append s s' c c' tbl tbl' freed -> pub_kept s s'.
Proof.
  intros Hinv Hu. pose proof (cu_pub _ _ _ _ _ _ _ _ Hu) as Hp. split; [rewrite Hp; auto|].
  intros t' (m & sn & Hm & Hsn & <-). rewrite Hp in Hm.
  destruct (pub_below_cow append s s' c c' tbl tbl' freed Hinv Hu m Hm) as [Hlt _].
  destruct (cu_inv append s s' c c' tbl tbl' freed Hu _ _ Hsn) as (sn0 & Hsn0 & _ & _ & Ht).
  rewrite (proj2 (Z.eqb_neq _ _)) in Ht by lia. exists (sn_tbl sn0). split; [exists m, sn0; auto|]. rewrite Ht. reflexivity.
Qed.

(** A new task starts with the published pages. *)
Lemma MakeCowRoot_tables append shift s s' :
  store_inv append s -> st_cow s = None -> MakeCowRoot shift append s = Some s' ->
  pub_kept s s' /\ exists c sn, st_cow s' = Some c /\ st_snaps s' !! mr_snap (cow_mapper c) = Some sn /\
    forall p fp, maps (sn_tbl sn) p fp <-> exists t, pub_tbl s t /\ maps t p fp.
Proof.
  intros Hinv Hcow Hs. unfold MakeCowRoot in Hs. destruct (st_pub s) as [m|] eqn:Hm.
  - destruct (si_pub _ _ Hinv m Hm) as (sn & l & Hsn & _). rewrite Hsn in Hs. cbn [mbind option_bind] in Hs.
    destruct (quiet_copy (st_arena s) (sn_tbl sn) (si_arena _ _ Hinv) (si_snap _ _ Hinv _ _ Hsn))
      as (src & dst & a & Hcp & _ & Hsrc & Hdst). rewrite Hcp in Hs. cbn [mbind option_bind] in Hs. injection Hs as <-.
    pose proof (si_ids _ _ Hinv _ _ Hsn) as Hlt.
    assert (Hpub : pub_tbl s (sn_tbl sn)) by (exists m, sn; auto). split.
    + split; [intros _; exists m; reflexivity|]. intros t' (m' & sn' & Hm' & Hsn' & <-). cbn in Hm', Hsn'.
      assert (m' = m) as -> by congruence. rewrite lookup_insert_ne, lookup_insert_eq in Hsn' by lia. injection Hsn' as <-.
      exists (sn_tbl sn). split; [exact Hpub|]. intros p fp. apply (same_maps _ _ p fp Hsrc).
    + eexists _, _. split; [reflexivity|]. split; [cbn; apply lookup_insert_eq|]. cbn [sn_tbl].
      intros p fp. rewrite (same_maps _ _ p fp Hdst). split; [eauto|]. intros (t & (m' & sn' & Hm' & Hsn' & <-) & Ht).
      assert (m' = m) as -> by congruence. assert (sn' = sn) as -> by congruence. exact Ht.
  - injection Hs as <-. split.
    + split; [intros [m Hm']; congruence|]. intros t' (m & sn & Hm' & _). cbn in Hm'. discriminate Hm'.
    + eexists _, _. split; [reflexivity|]. split; [cbn; apply lookup_insert_eq|]. cbn [sn_tbl new_mapper mapping_tbl_].
      intros p fp. split; [intros ((H0 & H1) & _); cbn in H1; lia|]. intros (t & (m & sn & Hm' & _) & _). congruence.
Qed.

(** ** The invariant *)
Definition base_words (ost : option ManifestState) : list Z :=
  match ost with Some st => ms_words st | None => [] end.

Section durability.
  Context (hash : bytes -> Z) (page_align : Z) (fresh : Z -> bytes).
  Context (Hfresh : forall n, 0 <= n -> zlen (fresh n) = n).
  Context (k : Z) (Hk : 0 <= k) (Halign : page_align = 2 ^ k).
  Context (append disk skip local cloud_mode : bool) (shift seg_shift term limit : Z) (Hshift : 0 <= shift).

Definition good_manifest (file : bytes) (st : ManifestState) : Prop :=
  exists st0 has_seg logs, state_ok st0 has_seg /\ Forall log_ok logs /\
    file = manifest_bytes hash page_align fresh st0 has_seg logs /\ st = fold_left apply_log logs st0.

(** The state can be loaded, and leaves room for more file pages. *)
Record words_ok (st : ManifestState) : Prop := {
  wo_size : zlen (ms_words st) <= max_pages;
  wo_plain : Forall plain_word (ms_words st);
  wo_max : 0 <= ms_max_fp st;
  wo_room : ms_max_fp st + 2 ^ shift < 2 ^ 32;
  wo_below : forall p fp, words_map (ms_words st) p fp -> fp < ms_max_fp st;
  wo_seg : ms_seg_words st = [] /\ ms_max_seg st = 0
}.

(** The manifest describes the published snapshot. *)
Definition durable (y : Sys) (ost : option ManifestState) : Prop :=
  (forall t, pub_tbl (sy_store y) t -> forall p fp, maps t p fp <-> words_map (base_words ost) p fp) /\
  match ost with
  | None => sy_size y = 0 /\ sy_root y = MaxPageId /\ sy_ttl_root y = MaxPageId /\ sy_dict y = []
  | Some st =>
      good_manifest (ztake (sy_size y) (sy_file y)) st /\ sy_size y = zlen (ztake (sy_size y) (sy_file y)) /\
      sy_root y = ms_root st /\ sy_ttl_root y = ms_ttl_root st /\ sy_dict y = ms_dict st /\
      is_Some (st_pub (sy_store y)) /\ words_ok st
  end.

(** The log of the running task leads from the manifest to its table. *)
Definition task_logged (y : Sys) (ost : option ManifestState) : Prop :=
  forall c, st_cow (sy_store y) = Some c -> exists es, builder_of (sy_wal y) es /\
    Forall (task_entry (mr_alloc (cow_mapper c))) es /\
    forall sn, st_snaps (sy_store y) !! mr_snap (cow_mapper c) = Some sn ->
      forall p fp, maps (sn_tbl sn) p fp <-> words_map (fold_left put_word es (base_words ost)) p fp.

Definition sys_inv (y : Sys) : Prop :=
  store_inv append (sy_store y) /\ exists ost, durable y ost /\ task_logged y ost.

Lemma durable_kept y y' ost :
  pub_kept (sy_store y) (sy_store y') -> sy_size y' = sy_size y ->
  ztake (sy_size y') (sy_file y') = ztake (sy_size y) (sy_file y) ->
  sy_root y' = sy_root y -> sy_ttl_root y' = sy_ttl_root y -> sy_dict y' = sy_dict y -> durable y ost -> durable y' ost.
Proof using Type.
  intros [Hp1 Hp2] Hsz Hf Hr Ht Hd [Hw Hst]. split.
  - intros t' Ht'. destruct (Hp2 t' Ht') as (t & Hpt & Hm). intros p fp. rewrite Hm. apply Hw, Hpt.
  - destruct ost as [st|]; rewrite Hsz in *; rewrite ?Hf, ?Hr, ?Ht, ?Hd; [|exact Hst]. tauto.
Qed.

Lemma durable_store y s' wal' ost :
  pub_kept (sy_store y) s' -> durable y ost ->
  durable (mkSys s' (sy_root y) (sy_ttl_root y) (sy_dict y) wal' (sy_size y) (sy_file y)) ost.
Proof using Type. intros Hp. apply durable_kept; auto. Qed.

Lemma no_task_logged y ost : st_cow (sy_store y) = None -> task_logged y ost.
Proof using Type. intros Hc c Hc'. congruence. Qed.
(** ** Steps of a task *)
Lemma task_entries_mono al al' es :
  (forall q, fp_ok al q -> fp_ok al' q) -> Forall (task_entry al) es -> Forall (task_entry al') es.
Proof using Type.
  intros Hm He. eapply Forall_impl; [|exact He]. intros e [Hp [Hi|(fp & Hw & Hfp & Hok)]]; (split; [exact Hp|]); eauto 10.
Qed.

Lemma task_update y y' s' ost c c' tbl tbl' freed es' :
  cow_update append (sy_store y) s' c c' tbl tbl' freed ->
  st_snaps (sy_store y') = st_snaps s' -> st_cow (sy_store y') = st_cow s' ->
  builder_of (sy_wal y') es' -> Forall (task_entry (mr_alloc (cow_mapper c'))) es' ->
  (forall p fp, maps tbl' p fp <-> words_map (fold_left put_word es' (base_words ost)) p fp) -> task_logged y' ost.
Proof using Type.
  intros Hu Hsn Hcow Hb He Hm c1 Hc1. rewrite Hcow, (cu_cow' _ _ _ _ _ _ _ _ Hu) in Hc1. injection Hc1 as <-.
  exists es'. split; [exact Hb|]. split; [exact He|]. intros sn. rewrite Hsn, (cu_snap _ _ _ _ _ _ _ _ Hu).
  intros Hi. destruct (cu_inv append (sy_store y) s' c c' tbl tbl' freed Hu _ _ Hi) as (sn0 & _ & _ & _ & ->).
  rewrite Z.eqb_refl. exact Hm.
Qed.

(** The entries and the table before a step of the task. *)
Lemma task_before y ost s' c c' tbl tbl' freed :
  task_logged y ost -> cow_update append (sy_store y) s' c c' tbl tbl' freed ->
  exists es, builder_of (sy_wal y) es /\ Forall (task_entry (mr_alloc (cow_mapper c'))) es /\
    forall p fp, maps tbl p fp <-> words_map (fold_left put_word es (base_words ost)) p fp.
Proof using Type.
  intros Ht Hu. destruct (Ht c (cu_cow _ _ _ _ _ _ _ _ Hu)) as (es & Hb & He & Hm). exists es. split; [exact Hb|].
  split; [exact (task_entries_mono _ _ _ (cu_mono _ _ _ _ _ _ _ _ Hu) He)|].
  pose proof (cu_tbl _ _ _ _ _ _ _ _ Hu) as Htbl.
  destruct (st_snaps (sy_store y) !! mr_snap (cow_mapper c)) as [sn|]; [|discriminate Htbl].
  injection Htbl as <-. exact (Hm sn eq_refl).
Qed.

(** A step that logs one entry. *)
Lemma task_entry_step y ost s' s'' c c' tbl tbl' freed p w wal' :
  task_logged y ost -> cow_update append (sy_store y) s' c c' tbl tbl' freed ->
  append_entry fresh (sy_wal y) p w = Some wal' -> task_entry (mr_alloc (cow_mapper c')) (p, w) ->
  (forall q fp, maps tbl' q fp <-> (q = p /\ w = EncodeFilePageId fp /\ 0 <= fp < 2 ^ 32) \/ (q <> p /\ maps tbl q fp)) ->
  st_snaps s'' = st_snaps s' -> st_cow s'' = st_cow s' ->
  task_logged (mkSys s'' (sy_root y) (sy_ttl_root y) (sy_dict y) wal' (sy_size y) (sy_file y)) ost.
Proof using Hfresh.
  clear Hshift Hk Halign. intros Ht Hu Hw He Hm Hsn Hcow. destruct (task_before y ost s' c c' tbl tbl' freed Ht Hu) as (es & Hb & Hes & Hmes).
  destruct (append_entry_ok fresh Hfresh (sy_wal y) es p w Hb) as (b' & Hb' & Hof). assert (b' = wal') as -> by congruence.
  set (y' := mkSys s'' _ _ _ _ _ _).
  apply (task_update y y' s' ost c c' tbl tbl' freed (es ++ [(p, w)]) Hu Hsn Hcow Hof).
  - apply Forall_app_2; [exact Hes|]. constructor; [exact He|constructor].
  - intros q fp. rewrite fold_left_app. cbn [fold_left]. rewrite words_map_put by apply He. cbn [fst snd].
    rewrite Hm, Hmes. reflexivity.
Qed.

(** Changing one word changes one page. *)
Lemma changed_maps_iff t t' p w q fp :
  tbl_changed t t' p w -> (forall fp, w = EncodeFilePageId fp -> 0 <= fp < 2 ^ 32 -> maps t' p fp) ->
  maps t' q fp <-> (q = p /\ w = EncodeFilePageId fp /\ 0 <= fp < 2 ^ 32) \/ (q <> p /\ maps t q fp).
Proof using Type.
  clear. intros Hch Hat. split.
  - intros Hm. pose proof Hm as (_ & Hr & _). destruct (changed_maps _ _ _ _ _ _ Hch Hm) as [[-> He]|H]; auto.
  - intros [(-> & He & Hr)|[Hne (Hq & Hr & Hg)]]; [auto|]. destruct Hch as [_ _ Hp Hs _ _ Ho].
    split; [lia|]. split; [exact Hr|]. rewrite Ho by assumption. exact Hg.
Qed.

(** The published pages as the manifest has them. *)
Lemma pub_words y ost p fp :
  store_inv append (sy_store y) -> durable y ost ->
  (exists t, pub_tbl (sy_store y) t /\ maps t p fp) <-> words_map (base_words ost) p fp.
Proof using Type.
  intros Hinv [Hw Hst]. split; [intros (t & Hp & Hm); apply (Hw t Hp), Hm|]. intros Hm.
  destruct ost as [st|]; [|destruct Hm as (_ & _ & Hm); cbn in Hm; rewrite lookup_nil in Hm; discriminate Hm].
  destruct Hst as (_ & _ & _ & _ & _ & [m Hpm] & _). destruct (si_pub _ _ Hinv m Hpm) as (sn & l & Hsn & _).
  exists (sn_tbl sn). assert (Hp : pub_tbl (sy_store y) (sn_tbl sn)) by (exists m, sn; auto).
  split; [exact Hp|]. apply (Hw _ Hp), Hm.
Qed.

Lemma begin_inv y s' :
  sys_inv y -> st_cow (sy_store y) = None -> MakeCowRoot shift append (sy_store y) = Some s' ->
  sys_inv (mkSys s' (sy_root y) (sy_ttl_root y) (sy_dict y) (ManifestReset fresh (sy_wal y)) (sy_size y) (sy_file y)).
Proof using Hfresh Hk Halign Hshift.
  intros (Hinv & ost & Hd & Ht) Hc Hs.
  destruct (MakeCowRoot_tables append shift _ _ Hinv Hc Hs) as (Hk' & c & sn & Hc' & Hsn & Hm).
  split; [exact (proj1 (store_step_inv shift append _ _ Hinv (step_begin _ _ _ _ Hc Hs)))|].
  exists ost. split; [exact (durable_store y s' _ ost Hk' Hd)|].
  intros c1 Hc1. cbn in Hc1. assert (c1 = c) as -> by congruence. exists []. cbn [sy_wal sy_store].
  split; [apply ManifestReset_ok, Hfresh|]. split; [constructor|]. intros sn1 Hsn1. assert (sn1 = sn) as -> by congruence.
  intros p fp. rewrite Hm. apply pub_words; assumption.
Qed.

Lemma get_inv y c sn id s' :
  sys_inv y -> st_cow (sy_store y) = Some c -> st_snaps (sy_store y) !! mr_snap (cow_mapper c) = Some sn ->
  logical_size_ (sn_tbl sn) < max_pages -> CowGetPage (sy_store y) = Some (id, s') -> sys_inv (with_store y s').
Proof using Hfresh Hk Halign Hshift.
  intros (Hinv & ost & Hd & Ht) Hc Hsn Hsz Hs.
  destruct (CowGetPage_spec append _ c sn Hinv Hc Hsn Hsz) as (id1 & s1 & c' & tbl' & Hs1 & Hu & _ & _ & Hch & Hno & _).
  assert (id1 = id /\ s1 = s') as [-> ->] by (split; congruence).
  split; [exact (proj1 (store_step_inv shift append _ _ Hinv (step_get _ _ _ _ _ _ _ Hc Hsn Hsz Hs)))|].
  exists ost. split; [apply durable_store; [exact (pub_kept_update _ _ _ _ _ _ _ _ Hinv Hu)|exact Hd]|].
  destruct (task_before y ost s' c c' _ tbl' _ Ht Hu) as (es & Hb & He & Hm).
  apply (task_update y (with_store y s') s' ost c c' _ tbl' _ es Hu eq_refl eq_refl Hb He). intros p fp. rewrite <- Hm.
  rewrite (changed_maps_iff _ _ _ _ p fp Hch) by (intros fq Hfq Hr; exfalso; apply (no_file_word InvalidValue fq Hr); auto).
  split; [intros [(_ & Hw & Hr)|[_ H]]; [exfalso; apply (no_file_word InvalidValue fp Hr); auto|exact H]|].
  intros H. right. split; [|exact H]. intros ->. exact (Hno fp H).
Qed.

Lemma write_inv y c page_id content id fp s' wal' :
  sys_inv y -> st_cow (sy_store y) = Some c -> max_fp_id_ (mr_alloc (cow_mapper c)) < 2 ^ 32 - 1 ->
  writable (sy_store y) c page_id -> AllocatePage append (sy_store y) page_id = Some (id, fp, s') ->
  ManifestUpdateMapping fresh (sy_wal y) id fp = Some wal' ->
  sys_inv (mkSys (with_disk s' (<[fp := content]> (st_disk s'))) (sy_root y) (sy_ttl_root y) (sy_dict y) wal' (sy_size y) (sy_file y)).
Proof using Hfresh Hk Halign Hshift.
  intros (Hinv & ost & Hd & Ht) Hc Hroom Hw Hs Hwal.
  destruct (AllocatePage_spec append _ c page_id Hinv Hc Hroom Hw)
    as (id1 & fp1 & s1 & c' & tbl & tbl' & freed & Hs1 & Hu & _ & Hno & Hmap & Hch & _).
  rewrite Hs in Hs1. injection Hs1 as <- <- <-.
  assert (Hwp : WritePage append (sy_store y) page_id content = Some (id, with_disk s' (<[fp := content]> (st_disk s'))))
    by (unfold WritePage; rewrite Hs; reflexivity).
  split; [exact (proj1 (store_step_inv shift append _ _ Hinv (step_write _ _ _ _ _ _ _ _ Hc Hroom Hw Hwp)))|].
  exists ost. split; [apply durable_store; [exact (pub_kept_update _ _ _ _ _ _ _ _ Hinv Hu)|exact Hd]|].
  apply (task_entry_step y ost s' _ c c' tbl tbl' freed id (EncodeFilePageId fp) wal' Ht Hu Hwal); auto.
  - pose proof Hmap as (Hid & Hfp & _). pose proof (sk_size _ (cu_ok _ _ _ _ _ _ _ _ Hu)) as Hsz.
    split; cbn [fst snd]; [lia|]. right. exists fp. split; [reflexivity|]. split; [exact Hfp|].
    destruct (cu_maps _ _ _ _ _ _ _ _ Hu id fp Hmap) as [Hold|[_ Hok]]; [|exact Hok].
    pose proof (cu_tbl _ _ _ _ _ _ _ _ Hu) as Htbl.
    destruct (st_snaps (sy_store y) !! mr_snap (cow_mapper c)) as [sn|] eqn:Hsn; [|discriminate Htbl]. injection Htbl as <-.
    destruct (Hno (proj1 (proj2 (si_cow_alloc _ _ Hinv c Hc) _ _ Hsn) id fp Hold)).
  - intros q f. apply changed_maps_iff; [exact Hch|]. intros f' Heq Hr. pose proof Hmap as (_ & Hfp & _).
    assert (fp = f') as <- by (apply file_word_inj; auto). exact Hmap.
Qed.

Lemma free_inv y page_id s' wal' :
  sys_inv y -> cow_maps (sy_store y) page_id -> CowFreePage append (sy_store y) page_id = Some s' ->
  ManifestDeleteMapping fresh (sy_wal y) page_id = Some wal' ->
  sys_inv (mkSys s' (sy_root y) (sy_ttl_root y) (sy_dict y) wal' (sy_size y) (sy_file y)).
Proof using Hfresh Hk Halign Hshift.
  intros (Hinv & ost & Hd & Ht) Hcm Hs Hwal.
  destruct (CowFreePage_spec append _ page_id Hinv Hcm) as (s1 & c & c' & tbl & tbl' & freed & Hs1 & Hu & _ & Hno & Ho).
  assert (s1 = s') as -> by congruence.
  split; [exact (proj1 (store_step_inv shift append _ _ Hinv (step_free _ _ _ _ _ Hcm Hs)))|].
  exists ost. split; [apply durable_store; [exact (pub_kept_update _ _ _ _ _ _ _ _ Hinv Hu)|exact Hd]|].
  apply (task_entry_step y ost s' _ c c' tbl tbl' freed page_id InvalidValue wal' Ht Hu Hwal); auto.
  - destruct Hcm as (c1 & sn & fp & Hc1 & Hsn & (Hp & _)). assert (c1 = c) as -> by (pose proof (cu_cow _ _ _ _ _ _ _ _ Hu); congruence).
    pose proof (sk_size _ (si_snap _ _ Hinv _ _ Hsn)). split; cbn [fst snd]; [lia|auto].
  - intros q fp. destruct (Z.eq_dec q page_id) as [->|Hne].
    + split; [intros H; destruct (Hno fp H)|]. intros [(_ & Hw & Hr)|[Hne _]]; [|congruence].
      exfalso. apply (no_file_word InvalidValue fp Hr); auto.
    + rewrite <- Ho by exact Hne. tauto.
Qed.
(** ** Readers, aborts and failed flushes *)
Lemma task_kept y s' ost :
  st_cow s' = st_cow (sy_store y) -> reads_kept (sy_store y) s' -> task_logged y ost -> task_logged (with_store y s') ost.
Proof using Type.
  intros Hc Hr Ht c Hc'. cbn in Hc'. rewrite Hc in Hc'. destruct (Ht c Hc') as (es & Hb & He & Hm). exists es.
  split; [exact Hb|]. split; [exact He|]. cbn [with_store sy_store]. intros sn Hsn.
  destruct (Hr _ _ Hsn) as (sn0 & Hsn0 & ->). exact (Hm sn0 Hsn0).
Qed.

Lemma acquire_inv y i s' : sys_inv y -> AcquireSnapshot (sy_store y) = Some (i, s') -> sys_inv (with_store y s').
Proof using Type.
  intros (Hinv & ost & Hd & Ht) Hs. pose proof Hs as Hs0. unfold AcquireSnapshot in Hs0.
  destruct (st_pub (sy_store y)) as [m|] eqn:Hm; [|discriminate Hs0]. cbn [mbind option_bind] in Hs0. injection Hs0 as _ Hs'.
  assert (Hr : reads_kept (sy_store y) s') by (intros j sn Hj; rewrite <- Hs' in Hj; eauto).
  split; [exact (proj1 (store_step_inv shift append _ _ Hinv (step_acquire _ _ _ _ _ Hs)))|]. exists ost. split.
  - apply durable_store; [|exact Hd]. apply pub_kept_same; [|exact Hr]. rewrite <- Hs'. reflexivity.
  - apply task_kept; [rewrite <- Hs'; reflexivity|exact Hr|exact Ht].
Qed.

Lemma drop_inv y i s' : sys_inv y -> DropSnapshot (sy_store y) i = Some s' -> sys_inv (with_store y s').
Proof using Type.
  intros (Hinv & ost & Hd & Ht) Hs.
  destruct (DropSnapshot_inv append _ i Hinv) as (s1 & Hs1 & Hinv1 & Hr & _ & Hc & Hp). assert (s1 = s') as -> by congruence.
  split; [exact Hinv1|]. exists ost. split; [|exact (task_kept y s' ost Hc Hr Ht)].
  apply durable_store; [exact (pub_kept_same _ _ Hp Hr)|exact Hd].
Qed.

Lemma sys_abort_inv y s' file' :
  sys_inv y -> is_Some (st_cow (sy_store y)) -> Abort (sy_store y) = Some s' ->
  ztake (sy_size y) file' = ztake (sy_size y) (sy_file y) -> forall wal',
  sys_inv (mkSys s' (sy_root y) (sy_ttl_root y) (sy_dict y) wal' (sy_size y) file').
Proof using Type.
  intros (Hinv & ost & Hd & Ht) [c Hc] Hs Hf wal'.
  destruct (Abort_inv append _ c Hinv Hc) as (s1 & Hs1 & Hinv1 & Hr & _ & Hc' & Hp). assert (s1 = s') as -> by congruence.
  split; [exact Hinv1|]. exists ost. split; [|exact (no_task_logged (mkSys s' _ _ _ wal' _ file') ost Hc')].
  apply (durable_kept y); auto. exact (pub_kept_same _ _ Hp Hr).
Qed.
(** ** Committing *)
Lemma snap_array t : snap_ok t -> exists words, is_array t words /\ Forall plain_word words /\ serialized ∅ t words.
Proof using Type.
  clear. intros [Hi Hc Hn Hp _]. pose proof (ti_size _ Hi) as Hsz.
  set (words := map (fun p => default 0 (Get t p)) (seqZ 0 (logical_size_ t))).
  assert (Hlen : zlen words = logical_size_ t) by (unfold words, zlen; rewrite length_map, length_seqZ; lia).
  assert (Hg : forall p, 0 <= p < zlen words -> exists w, Get t p = Some w /\ words !! Z.to_nat p = Some w /\ plain_word w).
  { rewrite Hlen. intros p Hr. destruct (Hp p Hr) as (w & Hw & Hpl). exists w. split; [exact Hw|]. split; [|exact Hpl].
    unfold words. change (map ?f ?l) with (f <$> l). rewrite list_lookup_fmap, lookup_seqZ_lt by lia. cbn.
    replace (0 + Z.of_nat (Z.to_nat p)) with p by lia. rewrite Hw. reflexivity. }
  exists words. split; [|split].
  - split; [exact Hi|]. split; [exact Hc|]. split; [congruence|]. intros p Hr. destruct (Hg p Hr) as (w & -> & -> & _). reflexivity.
  - apply list.Forall_forall. intros w Hin. apply list_elem_of_lookup in Hin as [i Hw].
    pose proof (lookup_lt_Some _ _ _ Hw). destruct (Hg (Z.of_nat i)) as (w' & _ & Hw' & Hpl); [unfold zlen; lia|].
    rewrite Nat2Z.id in Hw'. congruence.
  - split; [congruence|]. intros p Hr. destruct (Hg p Hr) as (w & Hw & Hl & Hpl). exists w. split; [exact Hw|].
    rewrite Hl. unfold serialize_word. rewrite (plain_word_copy w Hpl). reflexivity.
Qed.

Lemma plain_u64 w : plain_word w -> is_u64 w.
Proof using Type.
  clear. intros [->|[(q & Hq & ->)|(fp & Hfp & ->)]]; [split; [discriminate|reflexivity]| |]; unfold is_u64, max_pages in *.
  - rewrite EncodePageId_eq by lia. lia.
  - rewrite EncodeFilePageId_eq by lia. lia.
Qed.

Lemma encode_words_length ws : zlen (encode_words ws) <= 10 * zlen ws.
Proof using Type.
  clear. induction ws as [|w ws IH]; [reflexivity|]. cbn [encode_words map concat]. fold (encode_words ws).
  rewrite zlen_app, zlen_cons, <- Varint64Size_length. pose proof (Varint64Size_range w). lia.
Qed.

Section one_commit.
  Context (y : Sys) (c : CowMeta) (sn : CowStore.Snapshot) (root ttl_root : Z) (dict : bytes) (dirty : bool).
  Context (branch : BranchManifestMetadata) (words : list Z) (es : list (Z * Z)).
  Context (Hinv : store_inv append (sy_store y)) (Hc : st_cow (sy_store y) = Some c).
  Context (Hsn : st_snaps (sy_store y) !! mr_snap (cow_mapper c) = Some sn).
  Context (Hok : commit_ok shift y c sn root ttl_root dict dirty branch).
  Context (Harr : is_array (sn_tbl sn) words) (Hplain : Forall plain_word words).
  Context (Hwal : builder_of (sy_wal y) es) (Hes : Forall (task_entry (mr_alloc (cow_mapper c))) es).

  Local Abbreviation meta := (task_meta y c sn root ttl_root dict dirty).
  Local Abbreviation lr := (task_log branch meta es []).
  Local Abbreviation st := (task_state branch meta words None).

Lemma commit_log_ok : resized_for_mapping_bytes_len_ (sy_wal y) = true -> log_ok lr.
Proof using Hok Hwal Hes.
  clear Hk Hshift Halign Hfresh. intros Hres. destruct Hwal as (h & Hh & [(_ & Hf & _)|(_ & g & Hg & Hb)]); [congruence|].
  pose proof (ck_log _ _ _ _ _ _ _ _ _ Hok) as Hlog. rewrite Hb, !zlen_app, Hh, Hg in Hlog. split.
  - split; [apply Hok|]. split; [apply Hok|]. unfold log_payload. rewrite !zlen_app, !sized_length.
    cbn [lr_entries lr_branch lr_segs task_log encode_entries map concat]. fold (encode_entries es).
    change (zlen (@nil Z)) with 0. change header_bytes with 20 in *. lia.
  - eapply Forall_impl; [|exact Hes]. intros e He. exact (proj1 (task_entry_ok _ e He)).
  - apply Hok.
  - constructor.
Qed.

Lemma commit_state_ok : state_ok st false.
Proof using Hinv Hc Hok Harr Hplain Hsn.
  clear Hk Hshift Halign Hfresh Hwal Hes. destruct (si_cow_alloc _ _ Hinv c Hc) as [[Hmax _ _] _].
  pose proof Harr as (_ & _ & Hsz & _). pose proof (sk_size _ (si_snap _ _ Hinv _ _ Hsn)) as Hn. rewrite Hsz in Hn. unfold max_pages in Hn.
  split; cbn [task_state ms_words ms_max_fp ms_branch ms_seg_words ms_max_seg meta max_segment_of segment_mapper_ mapper_
    to_mapper file_page_allocator_ task_meta]; auto.
  - split; [apply Hok|]. split; [apply Hok|]. pose proof (ck_snapshot _ _ _ _ _ _ _ _ _ Hok) as Hs. rewrite Hsz in Hs.
    unfold snapshot_payload. rewrite !zlen_app, !sized_length, <- Varint64Size_length, <- Varint32Size_length.
    cbn [task_state ms_words ms_branch ms_dict meta dictionary_ task_meta].
    pose proof (encode_words_length words). pose proof (Varint64Size_range (ms_max_fp st)).
    pose proof (Varint32Size_range (zlen dict)). change header_bytes with 20. change (zlen (@nil Z)) with 0. lia.
  - eapply Forall_impl; [|exact Hplain]. exact plain_u64.
  - lia.
  - unfold is_u64. lia.
  - apply Hok.
  - change (zlen (@nil Z)) with 0. lia.
  - split; [discriminate|reflexivity].
Qed.
(** The table is then published. *)
Definition publishes (s' : Store) : Prop := is_Some (st_pub s') /\ forall t, pub_tbl s' t -> t = sn_tbl sn.

Lemma commit_publishes s' :
  UpdateRoot append (sy_store y) = Some s' -> store_inv append s' /\ st_cow s' = None /\ publishes s'.
Proof using Hinv Hc Hsn.
  intros Hs. destruct (UpdateRoot_inv append _ c Hinv Hc) as (s1 & Hs1 & Hinv1 & Hr & _ & Hc' & Hp).
  assert (s1 = s') as -> by congruence. split; [exact Hinv1|]. split; [exact Hc'|].
  destruct (st_pub s') as [m|] eqn:Hm; [|discriminate Hp]. injection Hp as Hp. split; [eauto|].
  intros t (m' & sn' & Hm' & Hsn' & <-). assert (m' = m) as -> by congruence. destruct (Hr _ _ Hsn') as (sn0 & Hsn0 & ->).
  rewrite Hp in Hsn0. congruence.
Qed.

Context (ost : option ManifestState) (Hdur : durable y ost).
Context (Hlogged : forall p fp, maps (sn_tbl sn) p fp <-> words_map (fold_left put_word es (base_words ost)) p fp).

(** Nothing was logged: the manifest stays as it is. *)
Lemma commit_nothing s' wal' :
  publishes s' -> resized_for_mapping_bytes_len_ (sy_wal y) = false ->
  ~ (root = MaxPageId /\ ttl_root = MaxPageId /\ 0 < sy_size y) ->
  durable (mkSys s' root ttl_root dict wal' (sy_size y) (sy_file y)) ost.
Proof using Hdur Hlogged Hwal Hok.
  intros [Hp1 Hp2] Hres Hno. destruct (ck_idle _ _ _ _ _ _ _ _ _ Hok Hres) as [Hdict [[Hr Ht]|Hmax]]; [|contradiction].
  destruct Hwal as (h & _ & [(Hnil & _ & _)|(Hf & _)]); [|congruence]. rewrite Hnil in Hlogged. cbn [fold_left] in Hlogged.
  destruct Hdur as [Hw Hst]. split.
  - intros t Ht'. rewrite (Hp2 t Ht'). exact Hlogged.
  - rewrite Hr, Ht, Hdict. destruct ost as [st0|]; [|exact Hst]. cbn [sy_size sy_file sy_root sy_ttl_root sy_dict sy_store].
    destruct Hst as (H1 & H2 & H3 & H4 & H5 & _ & H7). auto 10.
Qed.

(** A log record behind the manifest. *)
Lemma good_snoc good st0 l : good_manifest good st0 -> log_ok l -> good_manifest (good ++ log_record hash page_align fresh l) (apply_log st0 l).
Proof using Type.
  intros (st1 & has_seg & logs & H1 & H2 & -> & ->) Hl. exists st1, has_seg, (logs ++ [l]). split; [exact H1|].
  split; [apply Forall_app_2; [exact H2|constructor; [exact Hl|constructor]]|]. split.
  - unfold manifest_bytes. rewrite map_app, concat_app, <- app_assoc. cbn [map concat]. rewrite app_nil_r. reflexivity.
  - rewrite fold_left_app. reflexivity.
Qed.

Lemma commit_log s' wal' :
  publishes s' -> 0 < sy_size y -> dirty = false -> resized_for_mapping_bytes_len_ (sy_wal y) = true ->
  exists st0, ost = Some st0 /\
    durable (mkSys s' root ttl_root dict wal' (sy_size y + zlen (log_record hash page_align fresh lr))
      (AppendManifest disk (sy_file y) (log_record hash page_align fresh lr) (sy_size y))) (Some (apply_log st0 lr)).
Proof using Hdur Hlogged Hwal Hok Hinv Hc Hes.
  clear Hk Hshift Halign Hfresh. intros [Hp1 Hp2] Hsz Hclean Hres. destruct Hdur as [_ Hst]. destruct ost as [st0|]; [|lia]. exists st0. split; [reflexivity|].
  destruct Hst as (Hgood & Hlen & _ & _ & Hdict & _ & Hwo). set (good := ztake (sy_size y) (sy_file y)) in *.
  assert (Hf : sy_file y = good ++ zdrop (sy_size y) (sy_file y)) by (symmetry; apply ztake_zdrop).
  rewrite Hlen at 2. rewrite Hf, AppendManifest_ok, app_assoc.
  set (blob := log_record hash page_align fresh lr).
  assert (Hcut : forall rest, ztake (sy_size y + zlen blob) ((good ++ blob) ++ rest) = good ++ blob)
    by (intros rest; rewrite Hlen, <- zlen_app; apply ztake_app).
  assert (Hlogok := commit_log_ok Hres). split.
  - intros t Ht. rewrite (Hp2 t Ht). exact Hlogged.
  - cbn [sy_size sy_file sy_root sy_ttl_root sy_dict sy_store]. rewrite Hcut.
    split; [exact (good_snoc good st0 lr Hgood Hlogok)|]. split; [rewrite zlen_app, <- Hlen; reflexivity|].
    split; [reflexivity|]. split; [reflexivity|]. split; [rewrite (ck_clean _ _ _ _ _ _ _ _ _ Hok Hclean); exact Hdict|].
    split; [exact Hp1|]. destruct Hwo as [W1 W2 W3 W4 W5 W6]. destruct (si_cow_alloc _ _ Hinv c Hc) as [[Hmax _ _] _].
    pose proof (ck_room _ _ _ _ _ _ _ _ _ Hok) as Hroom. pose proof (Z.pow_nonneg 2 shift ltac:(lia)) as Hpow.
    destruct (put_words_plain _ es (ms_words st0) Hes W2 W1) as [P1 P2].
    pose proof (bump_max_bound _ es (ms_max_fp st0) (Z.max (ms_max_fp st0) (max_fp_id_ (mr_alloc (cow_mapper c)))) Hes
      ltac:(lia) ltac:(lia) ltac:(lia)) as Hb.
    split; cbn [apply_log ms_words ms_max_fp ms_seg_words ms_max_seg lr_entries lr_segs task_log fold_left]; auto; try lia.
    apply (bump_max_above _ es (ms_words st0) (ms_max_fp st0) Hes); [lia|lia|exact W5].
Qed.

(** A new snapshot. *)
Lemma commit_snapshot s' wal' :
  publishes s' ->
  durable (mkSys s' root ttl_root dict wal' (zlen (snapshot_record hash page_align fresh st false))
    (snapshot_record hash page_align fresh st false)) (Some st).
Proof using Hinv Hc Hok Harr Hplain Hsn.
  clear Hk Hshift Halign Hfresh. intros [Hp1 Hp2]. destruct (si_cow_alloc _ _ Hinv c Hc) as [[Hmax _ _] Hal]. pose proof (ck_room _ _ _ _ _ _ _ _ _ Hok) as Hroom.
  pose proof Harr as (_ & _ & Hsz & _). pose proof (sk_size _ (si_snap _ _ Hinv _ _ Hsn)) as Hn. rewrite Hsz in Hn. split.
  - intros t Ht. rewrite (Hp2 t Ht). intros p fp. exact (array_maps _ _ p fp Harr).
  - cbn [sy_size sy_file sy_root sy_ttl_root sy_dict sy_store]. rewrite ztake_all.
    split; [exists st, false, []; split; [exact commit_state_ok|]; split; [constructor|]; split; [|reflexivity];
      unfold manifest_bytes; cbn [map concat]; rewrite app_nil_r; reflexivity|].
    split; [reflexivity|]. split; [reflexivity|]. split; [reflexivity|]. split; [reflexivity|]. split; [exact Hp1|].
    split; cbn; auto; [lia|]. intros p fp Hm. apply (array_maps _ _ p fp Harr) in Hm.
    apply (proj1 (Hal _ _ Hsn) p fp Hm).
Qed.
End one_commit.

Lemma sys_commit_inv y c sn root ttl_root dict dirty branch c' wal' file' s' :
  sys_inv y -> st_cow (sy_store y) = Some c -> st_snaps (sy_store y) !! mr_snap (cow_mapper c) = Some sn ->
  commit_ok shift y c sn root ttl_root dict dirty branch ->
  FlushManifest hash page_align fresh disk limit IoOk ∅ branch (task_meta y c sn root ttl_root dict dirty) (sy_wal y) []
    (sy_file y) = Some (NoError, c', wal', file') ->
  UpdateRoot append (sy_store y) = Some s' ->
  sys_inv (mkSys s' root ttl_root dict wal' (manifest_size_ c') file').
Proof using Hfresh Hk Halign Hshift.
  intros (Hinv & ost & Hd & Ht) Hc Hsn Hok Hf Hs. destruct (Ht c Hc) as (es & Hwal & Hes & Hm). specialize (Hm sn Hsn).
  destruct (snap_array _ (si_snap _ _ Hinv _ _ Hsn)) as (words & Harr & Hpl & Hser).
  destruct (commit_publishes y c sn Hinv Hc Hsn s' Hs) as (Hinv' & Hc' & Hp).
  destruct (FlushManifest_ok hash page_align fresh Hfresh k Hk Halign disk limit ∅ branch
    (task_meta y c sn root ttl_root dict dirty) (sy_wal y) es [] words None (sy_file y) Hwal
    (commit_log_ok y c sn root ttl_root dict dirty branch es Hok Hwal Hes) Hser I
    (commit_state_ok y c sn root ttl_root dict dirty branch words Hinv Hc Hsn Hok Harr Hpl))
    as (c1 & wal1 & file1 & Hf1 & Hout).
  cbn [encode_entries map concat] in Hf1. rewrite Hf in Hf1. injection Hf1 as <- <- <-.
  split; [exact Hinv'|]. cbn [sy_store]. destruct Hout as [Hres Hno|Hsz Hcl Hres|].
  - exists ost. split; [eapply commit_nothing; eassumption|apply no_task_logged, Hc'].
  - destruct (commit_log y c sn root ttl_root dict dirty branch es Hinv Hc Hok Hwal Hes ost Hd Hm s' wal' Hp Hsz Hcl Hres)
      as (st0 & _ & Hd'). exists (Some (apply_log st0 (task_log branch (task_meta y c sn root ttl_root dict dirty) es []))).
    split; [exact Hd'|apply no_task_logged, Hc'].
  - eexists. split; [eapply commit_snapshot; eassumption|apply no_task_logged, Hc'].
Qed.
(** ** Loading after a crash *)
Lemma loaded_store_inv max_fp words branch m l disk' a :
  mapper_loaded append shift max_fp words branch m l -> arena_ok a -> store_inv append (loaded_store m disk' a).
Proof using Type.
  clear k Hk Halign Hfresh Hshift. intros Hl Ha. unfold loaded_store.
  assert (Hlk : forall i sn, ({[0 := mkSnap (mapping_tbl_ m) [] None]} : gmap Z CowStore.Snapshot) !! i = Some sn ->
    i = 0 /\ sn = mkSnap (mapping_tbl_ m) [] None) by (intros i sn [-> ->]%lookup_singleton_Some; auto).
  split; cbn [st_arena st_snaps st_pub st_cow st_readers st_next]; try discriminate; auto.
  - intros i sn [-> _]%Hlk. lia.
  - intros i sn [_ ->]%Hlk. exact (ml_snap _ _ _ _ _ _ _ Hl).
  - intros m' Hm'. injection Hm' as <-. exists (mkSnap (mapping_tbl_ m) [] None), l. split; [apply lookup_singleton_eq|].
    split; [destruct m; exact (ml_inv _ _ _ _ _ _ _ Hl)|reflexivity].
  - intros i sn [-> _]%Hlk. left. exists (of_mapper 0 m). split; [reflexivity|]. cbn. lia.
  - intros _ m' i sn Hm' [-> _]%Hlk Hlt. injection Hm' as <-. cbn in Hlt. lia.
  - intros i sn j [_ ->]%Hlk Hj. discriminate Hj.
  - intros i Hi. inversion Hi.
  - intros i j sni snj fp p [_ ->]%Hlk _ Hin. inversion Hin.
  - intros i sn [_ ->]%Hlk. constructor.
  - intros i j sni snj fp _ [_ ->]%Hlk _ Hin. inversion Hin.
  - intros m' Hm'. injection Hm' as <-. cbn. split; [exact (ml_wf _ _ _ _ _ _ _ Hl)|]. intros i sn [_ ->]%Hlk _. cbn.
    split; [|intros _ fp Hin; inversion Hin]. intros p fp Hm. apply (ml_used _ _ _ _ _ _ _ Hl p fp), (ml_maps _ _ _ _ _ _ _ Hl), Hm.
  - intros _ i sn [_ ->]%Hlk. reflexivity.
Qed.

Lemma state_loadable y st :
  store_inv append (sy_store y) -> durable y (Some st) -> loadable (ms_words st) (ms_max_fp st).
Proof using Hshift.
  clear Hk Halign Hfresh. intros Hinv [Hw (_ & _ & _ & _ & _ & [m Hm] & [W1 W2 W3 W4 W5 _])]. pose proof (Z.pow_nonneg 2 shift ltac:(lia)).
  destruct (si_pub _ _ Hinv m Hm) as (sn & l & Hsn & _). assert (Hp : pub_tbl (sy_store y) (sn_tbl sn)) by (exists m, sn; auto).
  split; auto; [|lia]. intros p q fp H1 H2. apply (Hw _ Hp) in H1, H2. exact (sk_inj _ (si_snap _ _ Hinv _ _ Hsn) p q fp H1 H2).
Qed.

Lemma load_ok y st tail :
  store_inv append (sy_store y) -> durable y (Some st) -> tail_ok hash page_align fresh tail ->
  exists meta l mx, load_meta hash page_align skip false append local cloud_mode shift seg_shift term
      (ztake (sy_size y) (sy_file y) ++ tail) = Some (NoError, Some meta) /\
    rm_root_id_ meta = sy_root y /\ rm_ttl_root_id_ meta = sy_ttl_root y /\ rm_dictionary_ meta = sy_dict y /\
    rm_manifest_size_ meta = sy_size y /\ mapper_loaded append shift mx (ms_words st) (ms_branch st) (rm_mapper_ meta) l.
Proof using Hfresh Hk Halign Hshift.
  intros Hinv Hd Ht. pose proof (state_loadable y st Hinv Hd) as Hld.
  destruct Hd as [_ ((st0 & has_seg & logs & Hs0 & Hlogs & Hfile & Hst) & Hsz & Hr & Htr & Hdict & _ & Hwo)].
  rewrite Hfile. destruct (Replay_prefix hash page_align fresh Hfresh k Hk Halign skip st0 has_seg logs tail Hs0 Hlogs)
    as (r0 & fuel & Hrep & Hr0 & Hc0 & Hs1).
  assert (Hend : exists r, Replay hash page_align skip (manifest_bytes hash page_align fresh st0 has_seg logs ++ tail) = Some (NoError, r) /\
    replays r st /\ file_size_ r = sy_size y).
  { rewrite Hrep, Hsz, Hfile, <- Hs1. rewrite <- Hst in Hr0. destruct Ht as [->|Ht].
    - exists r0. cbn [length plus]. rewrite replay_end, Hc0. auto.
    - destruct (replay_unfinished hash page_align fresh Hfresh k Hk Halign fuel skip r0 tail Ht Hc0) as (r & -> & Hr' & Hs').
      exists r. auto. }
  destruct Hend as (r & Hrun & (Hr1 & Hr2 & Hh) & Hfs). unfold load_meta. rewrite Hrun. cbn [mbind option_bind].
  destruct Hh as [Hw Hn Hmax Hdict' Hbr Hsw Hsn' Hms]. destruct Hwo as [W1 W2 W3 W4 W5 [W6 W7]].
  rewrite <- Hmax in Hld, W4.
  destruct (GetMapper_ok append local shift term r (ms_words st) Hw Hld Hshift W4) as (m & l & -> & Hl).
  cbn [mbind option_bind]. unfold GetSegmentMapper. destruct Hsw as (_ & _ & Hsl & _). rewrite Hsl, W6, Hms, W7.
  change ((zlen (@nil Z) =? 0) && (0 =? 0)) with true. cbn [mbind option_bind andb]. rewrite Hbr in Hl.
  do 3 eexists. split; [reflexivity|]. cbn [rm_root_id_ rm_ttl_root_id_ rm_dictionary_ rm_manifest_size_ rm_mapper_].
  split; [congruence|]. split; [congruence|]. split; [congruence|]. split; [exact Hfs|exact Hl].
Qed.

Lemma crash_inv y tail disk' meta a :
  sys_inv y -> 0 < sy_size y -> tail_ok hash page_align fresh tail -> arena_ok a ->
  load_meta hash page_align skip false append local cloud_mode shift seg_shift term (ztake (sy_size y) (sy_file y) ++ tail) =
    Some (NoError, Some meta) ->
  sys_inv (mkSys (loaded_store (rm_mapper_ meta) disk' a) (rm_root_id_ meta) (rm_ttl_root_id_ meta)
    (rm_dictionary_ meta) (sy_wal y) (rm_manifest_size_ meta) (ztake (sy_size y) (sy_file y) ++ tail)).
Proof using Hfresh Hk Halign Hshift.
  intros (Hinv & ost & Hd & _) Hpos Ht Ha Hload. destruct ost as [st|]; [|destruct Hd as [_ [Hd _]]; lia].
  destruct (load_ok y st tail Hinv Hd Ht) as (meta1 & l & mx & Hload1 & Hr & Htr & Hdi & Hsi & Hl).
  rewrite Hload in Hload1. injection Hload1 as <-. rewrite Hr, Htr, Hdi, Hsi.
  split; [exact (loaded_store_inv _ _ _ _ _ _ _ Hl Ha)|]. exists (Some st). split; [|apply no_task_logged; reflexivity].
  destruct Hd as [Hw (Hg & Hsz & Hroot)]. split.
  - intros t (m' & sn' & Hm' & Hsn' & <-). injection Hm' as <-. cbn [of_mapper mr_snap loaded_store st_snaps sy_store] in Hsn'.
    rewrite lookup_singleton_eq in Hsn'. injection Hsn' as <-. exact (ml_maps _ _ _ _ _ _ _ Hl).
  - cbn [sy_size sy_file sy_root sy_ttl_root sy_dict sy_store loaded_store st_pub].
    assert (Hcut : ztake (sy_size y) (ztake (sy_size y) (sy_file y) ++ tail) = ztake (sy_size y) (sy_file y))
      by (rewrite Hsz at 1; apply ztake_app).
    rewrite Hcut. split; [exact Hg|]. split; [exact Hsz|]. destruct Hroot as (H1 & H2 & H3 & _ & H5). eauto 10.
Qed.

Lemma crash_new_inv y disk' a wal' :
  sys_inv y -> sy_size y = 0 -> arena_ok a -> sys_inv (mkSys (with_disk (new_store a) disk') MaxPageId MaxPageId [] wal' 0 []).
Proof using Type.
  intros _ _ Ha. split; [|exists None; split; [split; [|auto]|apply no_task_logged; reflexivity]].
  - destruct (new_store_inv append a Ha). split; assumption.
  - intros t (m & sn & Hm & _). discriminate Hm.
Qed.

Lemma sys_step_inv y y' :
  sys_inv y -> sys_step hash page_align fresh append disk skip local cloud_mode shift seg_shift term limit y y' -> sys_inv y'.
Proof using Hfresh Hk Halign Hshift.
  intros Hy Hst. destruct Hst as [s' Hc Hs|c sn id s' Hc Hsn Hsz Hs|c page_id content id fp s' wal' Hc Hroom Hw Hs Hwal
    |page_id s' wal' Hcm Hs Hwal|i s' Hs|i s' Hs|s' Hc Hs|c sn root ttl_root dict dirty branch c' wal' file' s' Hc Hsn Hok Hf Hs
    |c sn root ttl_root dict dirty branch c' wal' tail s' Hc Hsn Hf Hs|tail disk' meta a Hpos Ht Hds Ha Hload|disk' a H0 Ha].
  - apply begin_inv; assumption.
  - eapply get_inv; eassumption.
  - eapply write_inv; eassumption.
  - eapply free_inv; eassumption.
  - eapply acquire_inv; eassumption.
  - eapply drop_inv; eassumption.
  - apply sys_abort_inv; auto.
  - eapply sys_commit_inv; eassumption.
  - apply sys_abort_inv; eauto. destruct Hy as (_ & [st|] & [_ Hd] & _).
    + destruct Hd as (_ & Hsz & _). rewrite Hsz at 1. apply ztake_app.
    + destruct Hd as [-> _]. reflexivity.
  - eapply crash_inv; eassumption.
  - eapply crash_new_inv; eassumption.
Qed.

Lemma sys_reach_inv y :
  sys_reach hash page_align fresh append disk skip local cloud_mode shift seg_shift term limit y -> sys_inv y.
Proof using Hfresh Hk Halign Hshift.
  induction 1 as [a wal Ha|y y' _ IH Hst]; [|exact (sys_step_inv y y' IH Hst)].
  split; [exact (new_store_inv append a Ha)|]. exists None. split; [|apply no_task_logged; reflexivity].
  split; [intros t (m & sn & Hm & _); discriminate Hm|auto].
Qed.
Lemma ReadPage_maps s i sn p fp :
  st_snaps s !! i = Some sn -> snap_ok (sn_tbl sn) -> maps (sn_tbl sn) p fp -> ReadPage s i p = st_disk s !! fp.
Proof using Type.
  clear. intros Hi Hok Hm. rewrite (ReadPage_some _ _ _ _ Hi).
  destruct (ToFilePage_maps _ p Hok (proj1 Hm)) as [(fp' & -> & _ & Hm')|[_ Hno]]; [|destruct (Hno fp Hm)].
  cbn [mbind option_bind]. f_equal. exact (maps_fun _ _ _ _ Hm' Hm).
Qed.

(** C2: Crash safety.  Take any history of write tasks that commit, abort or fail
    in the middle of writing the manifest, of readers, and of crashes followed by
    a restart.  Whenever the partition has a manifest, a crash that leaves the
    complete records of the manifest, with an unfinished record behind them or
    not, and the published pages on disk, is followed by a restart that succeeds.
    The loaded partition has the roots, the dictionary and exactly the pages of
    the last committed task, each with its content; it satisfies the invariant
    that snapshot isolation rests on. *)
Theorem crash_safe y tail disk' a :
  sys_reach hash page_align fresh append disk skip local cloud_mode shift seg_shift term limit y ->
  0 < sy_size y -> tail_ok hash page_align fresh tail -> disk_survives (sy_store y) disk' -> arena_ok a ->
  exists meta m sn,
    load_meta hash page_align skip false append local cloud_mode shift seg_shift term
      (ztake (sy_size y) (sy_file y) ++ tail) = Some (NoError, Some meta) /\
    rm_root_id_ meta = sy_root y /\ rm_ttl_root_id_ meta = sy_ttl_root y /\ rm_dictionary_ meta = sy_dict y /\
    rm_manifest_size_ meta = sy_size y /\
    st_pub (sy_store y) = Some m /\ st_snaps (sy_store y) !! mr_snap m = Some sn /\
    (forall p fp, maps (mapping_tbl_ (rm_mapper_ meta)) p fp <-> maps (sn_tbl sn) p fp) /\
    (forall p fp, maps (sn_tbl sn) p fp ->
       ReadPage (loaded_store (rm_mapper_ meta) disk' a) 0 p = ReadPage (sy_store y) (mr_snap m) p) /\
    store_inv append (loaded_store (rm_mapper_ meta) disk' a).
Proof using Hfresh Hk Halign Hshift.
  intros Hy%sys_reach_inv Hpos Ht Hds Ha. destruct Hy as (Hinv & [st|] & Hd & _); [|destruct Hd as [_ [H0 _]]; lia].
  destruct (load_ok y st tail Hinv Hd Ht) as (meta & l & mx & Hload & Hr & Htr & Hdi & Hsi & Hl).
  destruct Hd as [Hw (_ & _ & _ & _ & _ & [m Hm] & _)]. destruct (si_pub _ _ Hinv m Hm) as (sn & l' & Hsn & _).
  assert (Hp : pub_tbl (sy_store y) (sn_tbl sn)) by (exists m, sn; auto).
  assert (Hmaps : forall p fp, maps (mapping_tbl_ (rm_mapper_ meta)) p fp <-> maps (sn_tbl sn) p fp)
    by (intros p fp; rewrite (Hw _ Hp); apply (ml_maps _ _ _ _ _ _ _ Hl)).
  exists meta, m, sn. do 7 (split; [assumption|]). split; [exact Hmaps|].
  split; [|exact (loaded_store_inv _ _ _ _ _ _ _ Hl Ha)]. intros p fp Hpm.
  rewrite (ReadPage_maps _ _ _ p fp Hsn (si_snap _ _ Hinv _ _ Hsn) Hpm), <- (Hds _ p fp Hp Hpm).
  apply (ReadPage_maps (loaded_store (rm_mapper_ meta) disk' a) 0 (mkSnap (mapping_tbl_ (rm_mapper_ meta)) [] None) p fp); [apply lookup_singleton_eq| |].
  - exact (ml_snap _ _ _ _ _ _ _ Hl).
  - apply Hmaps, Hpm.
Qed.
(** C3: A commit gets through: whenever a write task is running and its data
    have their widths and sizes, writing the manifest and publishing the task
    succeed, the published roots, dictionary and table are those of the task, and
    a task that changed the mapping has a manifest afterwards. *)
Theorem commit_succeeds y c sn root ttl_root dict dirty branch :
  sys_reach hash page_align fresh append disk skip local cloud_mode shift seg_shift term limit y ->
  st_cow (sy_store y) = Some c -> st_snaps (sy_store y) !! mr_snap (cow_mapper c) = Some sn ->
  commit_ok shift y c sn root ttl_root dict dirty branch ->
  exists y', sys_step hash page_align fresh append disk skip local cloud_mode shift seg_shift term limit y y' /\
    st_cow (sy_store y') = None /\ sy_root y' = root /\ sy_ttl_root y' = ttl_root /\ sy_dict y' = dict /\
    pub_tbl (sy_store y') (sn_tbl sn) /\ (ManifestEmpty (sy_wal y) = false -> 0 < sy_size y').
Proof using Hfresh Hk Halign Hshift.
  intros Hy%sys_reach_inv Hc Hsn Hok. destruct Hy as (Hinv & ost & Hd & Ht). destruct (Ht c Hc) as (es & Hwal & Hes & Hm).
  destruct (snap_array _ (si_snap _ _ Hinv _ _ Hsn)) as (words & Harr & Hpl & Hser).
  destruct (FlushManifest_ok hash page_align fresh Hfresh k Hk Halign disk limit ∅ branch
    (task_meta y c sn root ttl_root dict dirty) (sy_wal y) es [] words None (sy_file y) Hwal
    (commit_log_ok y c sn root ttl_root dict dirty branch es Hok Hwal Hes) Hser I
    (commit_state_ok y c sn root ttl_root dict dirty branch words Hinv Hc Hsn Hok Harr Hpl))
    as (c1 & wal1 & file1 & Hf1 & Hout).
  destruct (UpdateRoot_inv append _ c Hinv Hc) as (s' & Hs & Hinv' & _). 
  destruct (commit_publishes y c sn Hinv Hc Hsn s' Hs) as (_ & Hc' & [[m Hpm] Hp]).
  destruct (si_pub _ _ Hinv' m Hpm) as (sn' & l & Hsn' & _).
  eexists. split; [eapply sys_commit; eassumption|]. cbn [sy_store sy_root sy_ttl_root sy_dict sy_size].
  do 4 (split; [auto|]).
  assert (Hpt : pub_tbl s' (sn_tbl sn')) by (exists m, sn'; auto). split; [rewrite <- (Hp _ Hpt); exact Hpt|].
  rewrite (ManifestEmpty_ok _ _ Hwal). intros Hres. apply negb_false_iff in Hres.
  assert (Hpos : forall a b x, 0 < zlen (record hash page_align fresh a b x)).
  { intros a b x. rewrite (record_length hash page_align fresh Hfresh k Hk Halign).
    pose proof (padding_range page_align k Hk Halign (header_bytes + zlen x)). change header_bytes with 20 in *. clear - H. zlia. }
  destruct Hout as [Hr _|Hsz _ _|]; [congruence| |]; cbn [flushed manifest_size_].
  - pose proof (Hpos root ttl_root (log_payload (task_log branch (task_meta y c sn root ttl_root dict dirty) es []))). 
    unfold log_record. cbn [task_meta manifest_size_] in *. cbn [lr_root lr_ttl_root task_log root_id_ ttl_root_id_ task_meta]. lia.
  - apply Hpos.
Qed.
End durability.

(** ** A run with a crash

    A task writes page 0 and commits; a second task rewrites the page; a crash
    leaves a part of its log record. *)
Module CrashExample.

Definition hash (b : bytes) : Z := fold_left (fun acc x => u64 (acc * 31 + x)) b 7.
Definition fresh (n : Z) : bytes := replicate (Z.to_nat n) 0.
Definition branch : BranchManifestMetadata := mkBranchMeta [109] 0 [mkRange [109] 0 0 0].

Definition start : Sys := mkSys (new_store None) MaxPageId MaxPageId [] (mkManifest [] false) 0 [].

Definition begin (y : Sys) : Sys :=
  mkSys (run_begin (sy_store y)) (sy_root y) (sy_ttl_root y) (sy_dict y) (ManifestReset fresh (sy_wal y)) (sy_size y) (sy_file y).

Definition write (y : Sys) (page_id : Z) (content : bytes) : option Sys :=
  '(id, fp, s) ← AllocatePage false (sy_store y) page_id;
  wal ← ManifestUpdateMapping fresh (sy_wal y) id fp;
  Some (mkSys (with_disk s (<[fp := content]> (st_disk s))) (sy_root y) (sy_ttl_root y) (sy_dict y) wal (sy_size y) (sy_file y)).

Definition commit (y : Sys) (root : Z) : option Sys :=
  c ← st_cow (sy_store y);
  sn ← st_snaps (sy_store y) !! mr_snap (cow_mapper c);
  '(err, c', wal, file) ← FlushManifest hash 64 fresh true 100000 IoOk ∅ branch (task_meta y c sn root MaxPageId [] false)
                          (sy_wal y) [] (sy_file y);
  s ← UpdateRoot false (sy_store y);
  match err with NoError => Some (mkSys s root MaxPageId [] wal (manifest_size_ c') file) | _ => None end.

Definition or_same (y : Sys) (o : option Sys) : Sys := default y o.

Definition y1 : Sys := or_same start (write (begin start) MaxPageId [1]).
Definition y2 : Sys := or_same y1 (commit y1 0).
Definition y3 : Sys := or_same y2 (write (begin y2) 0 [2]).

Definition step : Sys -> Sys -> Prop := sys_step hash 64 fresh false true true true false 2 2 0 100000.
Definition reach : Sys -> Prop := sys_reach hash 64 fresh false true true true false 2 2 0 100000.
Lemma fresh_length n : 0 <= n -> zlen (fresh n) = n.
Proof. intros H. unfold fresh, zlen. rewrite length_replicate. lia. Qed.

(** The page to write is new, or the task has it. *)
Definition can_write (s : Store) (page_id : Z) : bool :=
  match st_cow s with
  | Some c =>
      match st_snaps s !! mr_snap (cow_mapper c) with
      | Some sn =>
          (max_fp_id_ (mr_alloc (cow_mapper c)) <? 2 ^ 32 - 1) &&
          (if page_id =? MaxPageId then logical_size_ (sn_tbl sn) <? max_pages
           else (0 <=? page_id) && (page_id <? logical_size_ (sn_tbl sn)) &&
                bool_decide (Get (sn_tbl sn) page_id = Some (EncodeFilePageId 0)))
      | None => false
      end
  | None => false
  end.

Lemma write_step y page_id content y' :
  reach y -> can_write (sy_store y) page_id = true -> write y page_id content = Some y' -> step y y'.
Proof.
  intros Hy Hcan Hw. apply (sys_reach_inv hash 64 fresh fresh_length 6 ltac:(lia) eq_refl) in Hy as [Hinv _]; [|lia].
  unfold can_write in Hcan. destruct (st_cow (sy_store y)) as [c|] eqn:Hc; [|discriminate Hcan].
  destruct (st_snaps (sy_store y) !! mr_snap (cow_mapper c)) as [sn|] eqn:Hsn; [|discriminate Hcan].
  apply andb_prop in Hcan as [Hroom%Z.ltb_lt Hpg].
  assert (Hwr : writable (sy_store y) c page_id).
  { destruct (Z.eqb_spec page_id MaxPageId) as [->|Hne].
    - left. split; [reflexivity|]. intros sn1 Hsn1. assert (sn1 = sn) as -> by congruence. apply Z.ltb_lt, Hpg.
    - right. split; [exact Hne|]. apply andb_prop in Hpg as [Hr Hg]. apply andb_prop in Hr as [H1%Z.leb_le H2%Z.ltb_lt].
      apply (maps_cow_holds false _ _ Hinv). exists c, sn, 0. split; [exact Hc|]. split; [exact Hsn|].
      apply bool_decide_eq_true in Hg. split; [lia|]. split; [lia|exact Hg]. }
  unfold write in Hw. destruct (AllocatePage false (sy_store y) page_id) as [[[id fp] s]|] eqn:Ha; [|discriminate Hw].
  cbn [mbind option_bind] in Hw. destruct (ManifestUpdateMapping fresh (sy_wal y) id fp) as [wal|] eqn:Hwal; [|discriminate Hw].
  injection Hw as <-. eapply sys_write; eassumption.
Qed.

Lemma begin_step y : st_cow (sy_store y) = None -> ok (MakeCowRoot 2 false (sy_store y)) = true -> step y (begin y).
Proof.
  intros Hc Hs. unfold begin, run_begin. destruct (MakeCowRoot 2 false (sy_store y)) as [s'|] eqn:Hm; [|discriminate Hs].
  apply sys_begin; assumption.
Qed.

Lemma y1_reach : reach y1.
Proof.
  assert (H0 : reach start) by (apply sys_start; exact I).
  assert (H1 : reach (begin start)) by (eapply sys_next; [exact H0|apply begin_step; vm_compute; reflexivity]).
  eapply sys_next; [exact H1|]. apply (write_step _ MaxPageId [1]); [exact H1|vm_compute; reflexivity|].
  unfold y1, or_same. destruct (write (begin start) MaxPageId [1]) eqn:Hw; [reflexivity|]. vm_compute in Hw. discriminate Hw.
Qed.

(** The first task can commit. *)
Definition fits (y : Sys) (c : CowMeta) (sn : CowStore.Snapshot) : bool :=
  (zlen (mb_buff (sy_wal y)) + 8 + zlen (SerializeBranchManifestMetadata branch) <? 2 ^ 32) &&
  (10 * logical_size_ (sn_tbl sn) + zlen (SerializeBranchManifestMetadata branch) + 64 <? 2 ^ 32) &&
  (max_fp_id_ (mr_alloc (cow_mapper c)) + 2 ^ 2 <? 2 ^ 32) && resized_for_mapping_bytes_len_ (sy_wal y) &&
  bool_decide (sy_dict y = []).

Lemma fits_ok y c sn : fits y c sn = true -> commit_ok 2 y c sn 0 MaxPageId [] false branch.
Proof.
  intros H. unfold fits in H. rewrite !andb_true_iff in H. destruct H as [[[[H1 H2] H3] H4] H5].
  apply Z.ltb_lt in H1, H2, H3. apply bool_decide_eq_true in H5.
  split; [split; [discriminate|reflexivity]|split; [discriminate|reflexivity]| |exact H1|exact H2|exact H3|auto|intros Hf; congruence].
  assert (Hz : is_u64 0) by (split; [discriminate|reflexivity]).
  split; [reflexivity|exact Hz|reflexivity|]. constructor; [|constructor]. split; [reflexivity|exact Hz|exact Hz|exact Hz].
Qed.

Lemma commit_step y c sn y' :
  st_cow (sy_store y) = Some c -> st_snaps (sy_store y) !! mr_snap (cow_mapper c) = Some sn -> fits y c sn = true ->
  commit y 0 = Some y' -> step y y'.
Proof.
  intros Hc Hsn Hf Hco. unfold commit in Hco. rewrite Hc in Hco. cbn [mbind option_bind] in Hco. rewrite Hsn in Hco.
  cbn [mbind option_bind] in Hco.
  destruct (FlushManifest _ _ _ _ _ _ _ _ _ _ _ _) as [[[[err c'] wal] file]|] eqn:Hfl; [|discriminate Hco].
  cbn [mbind option_bind] in Hco. destruct (UpdateRoot false (sy_store y)) as [s|] eqn:Hu; [|discriminate Hco].
  cbn [mbind option_bind] in Hco. destruct err; try discriminate Hco. injection Hco as <-.
  eapply sys_commit; [exact Hc|exact Hsn|exact (fits_ok y c sn Hf)|exact Hfl|exact Hu].
Qed.

Definition cow_of (y : Sys) : option (CowMeta * CowStore.Snapshot) :=
  c ← st_cow (sy_store y); sn ← st_snaps (sy_store y) !! mr_snap (cow_mapper c); Some (c, sn).

Lemma y2_step : step y1 y2.
Proof.
  destruct (cow_of y1) as [[c sn]|] eqn:Hcow; [|vm_compute in Hcow; discriminate Hcow].
  assert (Hfit : fits y1 c sn = true) by (vm_compute in Hcow; injection Hcow as <- <-; vm_compute; reflexivity).
  unfold cow_of in Hcow. destruct (st_cow (sy_store y1)) as [c1|] eqn:Hc; [|discriminate Hcow]. cbn [mbind option_bind] in Hcow.
  destruct (st_snaps (sy_store y1) !! mr_snap (cow_mapper c1)) as [sn1|] eqn:Hsn; [|discriminate Hcow].
  injection Hcow as -> ->. apply (commit_step y1 c sn y2 Hc Hsn Hfit). unfold y2, or_same.
  destruct (commit y1 0) eqn:Hco; [reflexivity|]. vm_compute in Hco. discriminate Hco.
Qed.

Lemma y3_reach : reach y3.
Proof.
  assert (H2 : reach y2) by (eapply sys_next; [exact y1_reach|exact y2_step]).
  assert (H3 : reach (begin y2)) by (eapply sys_next; [exact H2|apply begin_step; vm_compute; reflexivity]).
  eapply sys_next; [exact H3|]. apply (write_step _ 0 [2]); [exact H3|vm_compute; reflexivity|].
  unfold y3, or_same. destruct (write (begin y2) 0 [2]) eqn:Hw; [reflexivity|]. vm_compute in Hw. discriminate Hw.
Qed.

(** Ten bytes of a record are left of the second task. *)
Definition torn : bytes := ztake 10 (record hash 64 fresh 0 MaxPageId [1; 2; 3; 4; 5]).

Lemma torn_ok : tail_ok hash 64 fresh torn.
Proof. right. apply torn_record; split; [split; [discriminate|reflexivity]| |discriminate|reflexivity]. split; [split; [discriminate|reflexivity]|reflexivity]. Qed.

(** After the crash page 0 has its first content. *)
Lemma crash_safe_witness :
  exists meta, load_meta hash 64 true false false true false 2 2 0 (ztake (sy_size y3) (sy_file y3) ++ torn) =
      Some (NoError, Some meta) /\ rm_root_id_ meta = 0 /\
    ReadPage (loaded_store (rm_mapper_ meta) (st_disk (sy_store y3)) None) 0 0 = Some [1] /\
    ReadPage (sy_store y3) 1 0 = Some [2].
Proof.
  destruct (crash_safe hash 64 fresh fresh_length 6 ltac:(lia) eq_refl false true true true false 2 2 0 100000 ltac:(lia)
    y3 torn (st_disk (sy_store y3)) None y3_reach) as (meta & m & sn & Hl & Hr & _ & _ & _ & Hm & Hsn & Hmaps & Hread & _).
  - vm_compute. reflexivity.
  - exact torn_ok.
  - intros t p fp _ _. reflexivity.
  - exact I.
  - exists meta. split; [exact Hl|]. split; [rewrite Hr; vm_compute; reflexivity|]. split; [|vm_compute; reflexivity].
    vm_compute in Hm. injection Hm as <-. vm_compute in Hsn. injection Hsn as <-.
    rewrite (Hread 0 0); [vm_compute; reflexivity|].
    split; [split; [discriminate|vm_compute; reflexivity]|]. split; [split; [discriminate|reflexivity]|vm_compute; reflexivity].
Defined.

(** The first task commits. *)
Lemma commit_succeeds_witness : exists y', step y1 y' /\ sy_root y' = 0 /\ 0 < sy_size y'.
Proof.
  destruct (cow_of y1) as [[c sn]|] eqn:Hcow; [|vm_compute in Hcow; discriminate Hcow].
  assert (Hfit : fits y1 c sn = true) by (vm_compute in Hcow; injection Hcow as <- <-; vm_compute; reflexivity).
  unfold cow_of in Hcow. destruct (st_cow (sy_store y1)) as [c1|] eqn:Hc; [|discriminate Hcow]. cbn [mbind option_bind] in Hcow.
  destruct (st_snaps (sy_store y1) !! mr_snap (cow_mapper c1)) as [sn1|] eqn:Hsn; [|discriminate Hcow].
  injection Hcow as -> ->.
  destruct (commit_succeeds hash 64 fresh fresh_length 6 ltac:(lia) eq_refl false true true true false 2 2 0 100000 ltac:(lia)
    y1 c sn 0 MaxPageId [] false branch y1_reach Hc Hsn (fits_ok y1 c sn Hfit)) as (y' & Hst & _ & Hroot & _ & _ & _ & Hpos).
  exists y'. split; [exact Hst|]. split; [exact Hroot|]. apply Hpos. vm_compute. reflexivity.
Defined.
End CrashExample.
