(* ===== verification/Branching.v ===== *)
(** * Branches and archives of a partition

    [BackgroundWrite::CreateBranch] (src/tasks/background_write.cpp) writes a
    manifest for a new branch from the metadata of the active one;
    [CreateArchive] writes a snapshot for a point in time. *)

From stdpp Require Import gmap sorting relations.
From S2P Require Import Prelude Coding PageFormat IndexPageIter MappingTable PageMapper CowStore Provenance PageIo FileNames Branch Manifest ManifestSpec Recovery RecoverySpec FlushSpec Durability.

Section branch.
  Context (hash : bytes -> Z) (page_align : Z) (fresh : Z -> bytes).

(** [CreateBranch]: [compacted] is what the compaction in append mode returns,
    [found] the root that is found after it, and [written] the result of writing
    the manifest.  The second component is the file that is written. *)
Definition CreateBranch (data_append_mode : bool) (pages_per_file_shift : Z) (compacted : KvError) (found : KvError * option RootMeta)
    (written : KvError) (h : Heap) (wal : ManifestBuilder) (file_ranges : BranchFileMapping) (branch_name : bytes)
    : option (KvError * option (bytes * bytes)) :=
  let normalized_branch := NormalizeBranchName branch_name in
  if zlen normalized_branch =? 0 then Some (InvalidArgs, None)
  else
    match (if data_append_mode then compacted else NoError) with
    | NotFound => Some (NoError, None)
    | NoError =>
        match found with
        | (NotFound, _) => Some (NoError, None)
        | (NoError, None) => Some (NoError, None)
        | (NoError, Some meta) =>
            let parent_branch_max_file_id := CurrentFileId (file_page_allocator_ (rm_mapper_ meta)) in
            let new_max_fp_id := u64 (Z.shiftl (parent_branch_max_file_id + 1) pages_per_file_shift) in
            '(_, snapshot) ← Manifest.Snapshot hash page_align fresh (ManifestReset fresh wal) (rm_root_id_ meta)
                               (rm_ttl_root_id_ meta) h (mapping_tbl_ (rm_mapper_ meta)) new_max_fp_id (rm_dictionary_ meta)
                               (mkBranchMeta normalized_branch 0 file_ranges) None;
            Some (written, Some (BranchManifestFileName normalized_branch 0, snapshot))
        | (err, _) => Some (err, None)
        end
    | err => Some (err, None)
    end.

(** The snapshot of [CreateArchive], which carries the segment mapping. *)
Definition archive_snapshot (h : Heap) (wal : ManifestBuilder) (meta : RootMeta) (branch : BranchManifestMetadata)
    : option (ManifestBuilder * bytes) :=
  Manifest.Snapshot hash page_align fresh wal (rm_root_id_ meta) (rm_ttl_root_id_ meta) h (mapping_tbl_ (rm_mapper_ meta))
    (max_fp_id_ (file_page_allocator_ (rm_mapper_ meta))) (rm_dictionary_ meta) branch
    ((fun m => (mapping_tbl_ m, max_fp_id_ (file_page_allocator_ m))) <$> rm_segment_mapper_ meta).
End branch.

(** ** Files of a page

    [IouringMgr::WritePage] opens the data file under the active branch and the
    term of the process; [ReadPage] looks up who wrote the file. *)
Definition WritePage_file (pages_per_file_shift data_page_size : Z) (active_branch : bytes) (process_term file_page_id : Z) : bytes :=
  let '(file_id, _) := ConvFilePageId pages_per_file_shift data_page_size file_page_id in
  BranchDataFileName file_id active_branch process_term.

Definition ReadPage_file (pages_per_file_shift data_page_size : Z) (mapping : BranchFileMapping) (fp_id : Z) : option bytes :=
  let '(file_id, _) := ConvFilePageId pages_per_file_shift data_page_size fp_id in
  '(branch_name, term) ← GetBranchNameAndTerm mapping (DataFileKey file_id);
  Some (BranchDataFileName file_id branch_name term).

Section branch_ok.
  Context (hash : bytes -> Z) (page_align : Z) (fresh : Z -> bytes).
  Context (Hfresh : forall n, 0 <= n -> zlen (fresh n) = n).
  Context (k : Z) (Hk : 0 <= k) (Halign : page_align = 2 ^ k).
  Context (shift : Z) (Hshift : 0 <= shift).
  Context (append_mode : bool) (wal : ManifestBuilder) (meta : RootMeta) (ranges : BranchFileMapping) (name : bytes).

  Local Abbreviation new_branch := (mkBranchMeta (NormalizeBranchName name) 0 ranges).
  Local Abbreviation parent_file := (CurrentFileId (file_page_allocator_ (rm_mapper_ meta))).

(** The metadata of the active branch, as a loaded or published partition has
    it, and a name that no range has. *)
Record branchable : Prop := {
  bo_snap : snap_ok (mapping_tbl_ (rm_mapper_ meta));
  bo_used : forall p fp, maps (mapping_tbl_ (rm_mapper_ meta)) p fp -> fp_ok (file_page_allocator_ (rm_mapper_ meta)) fp;
  bo_shift : pages_per_file_shift_ (file_page_allocator_ (rm_mapper_ meta)) = shift;
  bo_max : 0 <= max_fp_id_ (file_page_allocator_ (rm_mapper_ meta));
  bo_room : max_fp_id_ (file_page_allocator_ (rm_mapper_ meta)) + 2 * 2 ^ shift < 2 ^ 32;
  bo_root : is_u32 (rm_root_id_ meta);
  bo_ttl_root : is_u32 (rm_ttl_root_id_ meta);
  bo_name : NormalizeBranchName name <> [];
  bo_branch : wf_meta new_branch;
  bo_ranges : ranges <> [];
  bo_new : Forall (fun r => branch_name_ r <> NormalizeBranchName name) ranges;
  bo_size : zlen (rm_dictionary_ meta) + 10 * logical_size_ (mapping_tbl_ (rm_mapper_ meta)) +
    zlen (SerializeBranchManifestMetadata new_branch) + 64 < 2 ^ 32
}.

Definition new_max : Z := (parent_file + 1) * 2 ^ shift.

Lemma new_max_range :
  branchable -> max_fp_id_ (file_page_allocator_ (rm_mapper_ meta)) < new_max /\ new_max + 2 ^ shift < 2 ^ 32 /\
    u64 (Z.shiftl (parent_file + 1) shift) = new_max.
Proof using Hshift.
  clear Hk Halign Hfresh. intros Hb. pose proof (Z.pow_pos_nonneg 2 shift ltac:(lia) Hshift) as Hp.
  pose proof (bo_max Hb) as H0. pose proof (bo_room Hb) as Hr. unfold new_max, CurrentFileId. rewrite (bo_shift Hb).
  set (mx := max_fp_id_ (file_page_allocator_ (rm_mapper_ meta))) in *.
  rewrite Z.shiftr_div_pow2, Z.shiftl_mul_pow2 by exact Hshift.
  pose proof (Z.div_mod mx (2 ^ shift) ltac:(lia)) as Hd. pose proof (Z.mod_pos_bound mx (2 ^ shift) Hp) as Hm.
  assert (Hlt : mx < (mx / 2 ^ shift + 1) * 2 ^ shift /\ (mx / 2 ^ shift + 1) * 2 ^ shift <= mx + 2 ^ shift) by nia.
  split; [apply Hlt|]. split; [lia|]. apply u64_id. unfold is_u64. lia.
Qed.

Lemma branch_state_ok words :
  branchable -> is_array (mapping_tbl_ (rm_mapper_ meta)) words -> Forall plain_word words ->
  state_ok (mkState (rm_root_id_ meta) (rm_ttl_root_id_ meta) words new_max (rm_dictionary_ meta) new_branch [] 0) false.
Proof using Hshift.
  clear Hk Halign Hfresh. intros Hb Harr Hpl. destruct (new_max_range Hb) as (Hlt & Hroom & _). pose proof (bo_max Hb).
  pose proof (Z.pow_nonneg 2 shift ltac:(lia)). pose proof Harr as (_ & _ & Hsz & _).
  pose proof (sk_size _ (bo_snap Hb)) as Hn. rewrite Hsz in Hn. unfold max_pages in Hn. pose proof (bo_size Hb) as Hs. rewrite Hsz in Hs.
  split; cbn [ms_root ms_ttl_root ms_words ms_max_fp ms_branch ms_seg_words ms_max_seg].
  - split; [apply Hb|]. split; [apply Hb|]. unfold snapshot_payload.
    rewrite !zlen_app, !sized_length, <- Varint64Size_length, <- Varint32Size_length. cbn [ms_words ms_branch ms_dict ms_max_fp].
    pose proof (encode_words_length words). pose proof (Varint64Size_range new_max).
    pose proof (Varint32Size_range (zlen (rm_dictionary_ meta))). change header_bytes with 20. change (zlen (@nil Z)) with 0. lia.
  - eapply Forall_impl; [|exact Hpl]. exact plain_u64.
  - lia.
  - unfold is_u64. lia.
  - apply Hb.
  - constructor.
  - change (zlen (@nil Z)) with 0. lia.
  - split; [discriminate|reflexivity].
  - auto.
Qed.

(** The manifest of the branch, and what it replays to. *)
Lemma branch_manifest skip :
  branchable ->
  exists words snapshot r, is_array (mapping_tbl_ (rm_mapper_ meta)) words /\ Forall plain_word words /\
    CreateBranch hash page_align fresh append_mode shift NoError (NoError, Some meta) NoError ∅ wal ranges name =
      Some (NoError, Some (BranchManifestFileName (NormalizeBranchName name) 0, snapshot)) /\
    Replay hash page_align skip snapshot = Some (NoError, r) /\
    replays r (mkState (rm_root_id_ meta) (rm_ttl_root_id_ meta) words new_max (rm_dictionary_ meta) new_branch [] 0).
Proof using Hfresh Hk Halign Hshift.
  intros Hb. destruct (snap_array _ (bo_snap Hb)) as (words & Harr & Hpl & Hser).
  destruct (new_max_range Hb) as (_ & _ & Hu). pose proof (branch_state_ok words Hb Harr Hpl) as Hok.
  set (st := mkState (rm_root_id_ meta) (rm_ttl_root_id_ meta) words new_max (rm_dictionary_ meta) new_branch [] 0) in *.
  set (c := mkCowRoot (rm_root_id_ meta) (rm_ttl_root_id_ meta)
    (mkMapper (mapping_tbl_ (rm_mapper_ meta)) 0 0 (mkAllocator shift new_max (PooledFilePages []))) None 0 (rm_dictionary_ meta) false 0 0).
  destruct (snapshot_blob hash page_align fresh Hfresh k Hk Halign (ManifestReset fresh wal) ∅ c words new_branch None st Hser I eq_refl Hok)
    as (b' & Hsnap).
  destruct (Replay_prefix hash page_align fresh Hfresh k Hk Halign skip st false [] [] Hok) as (r & fuel & Hrep & Hr & Hc & _); [constructor|].
  exists words, (snapshot_record hash page_align fresh st false), r. split; [exact Harr|]. split; [exact Hpl|].
  split; [|split; [|exact Hr]].
  - unfold CreateBranch. rewrite (proj2 (Z.eqb_neq _ _)) by (intros H0; apply (bo_name Hb), zlen_zero, H0).
    replace (if append_mode then NoError else NoError) with NoError by (destruct append_mode; reflexivity). cbv zeta. rewrite Hu. cbn [c root_id_ ttl_root_id_ mapper_ mapping_tbl_ file_page_allocator_ max_fp_id_ dictionary_ segment_mapper_ fmap
      option_fmap option_map] in Hsnap. rewrite Hsnap. reflexivity.
  - unfold manifest_bytes in Hrep. cbn [map concat] in Hrep. rewrite !app_nil_r in Hrep. rewrite Hrep. cbn [length plus].
    rewrite replay_end, Hc. reflexivity.
Qed.

Lemma branch_loadable words :
  branchable -> is_array (mapping_tbl_ (rm_mapper_ meta)) words -> Forall plain_word words -> loadable words new_max.
Proof using Hshift.
  clear Hk Halign Hfresh. intros Hb Harr Hpl. destruct (new_max_range Hb) as (Hlt & Hroom & _). pose proof (bo_max Hb).
  pose proof (Z.pow_nonneg 2 shift ltac:(lia)). pose proof Harr as (_ & _ & Hsz & _). pose proof (sk_size _ (bo_snap Hb)) as Hn.
  pose proof (fun p fp => array_maps _ _ p fp Harr) as Ham. split; [lia|exact Hpl| |lia|].
  - intros p q fp H1 H2. apply (sk_inj _ (bo_snap Hb) p q fp); apply Ham; assumption.
  - intros p fp Hm. apply Ham in Hm. destruct (bo_used Hb p fp Hm). lia.
Qed.

Lemma find_range_in fid r : FindBranchRange ranges fid = Some r -> r ∈ ranges.
Proof using Type.
  induction ranges as [|r0 rs IH]; cbn [FindBranchRange]; [discriminate|].
  destruct (range_lt r0 fid); [intros H; right; exact (IH H)|intros H; injection H as ->; left].
Qed.

(** A file of another branch is not the new one's. *)
Lemma other_ranges fid : branchable -> FileIdInBranch ranges fid (NormalizeBranchName name) = false.
Proof using Type.
  intros Hb. unfold FileIdInBranch. pose proof (bo_new Hb) as Hf. rewrite list.Forall_forall in Hf.
  destruct (FindBranchRange ranges fid) as [r|] eqn:Hr; [|reflexivity]. apply bool_decide_eq_false, Hf, (find_range_in fid r Hr).
Qed.

(** The pages of a loaded branch: those that its table maps come from the parent,
    and its allocator starts behind the parent's current file. *)
Lemma branch_loaded append local term r words :
  branchable -> is_array (mapping_tbl_ (rm_mapper_ meta)) words -> Forall plain_word words ->
  replays r (mkState (rm_root_id_ meta) (rm_ttl_root_id_ meta) words new_max (rm_dictionary_ meta) new_branch [] 0) ->
  exists m, GetMapper append local shift term r = Some m /\
    (forall p fp, maps (mapping_tbl_ m) p fp <-> maps (mapping_tbl_ (rm_mapper_ meta)) p fp) /\
    (forall disk a, arena_ok a -> store_inv append (loaded_store m disk a)) /\
    (forall q, 0 <= q -> ~ fp_ok (file_page_allocator_ m) q -> new_max <= q).
Proof using Hshift.
  clear Hk Halign Hfresh. intros Hb Harr Hpl (_ & _ & Hh). destruct (new_max_range Hb) as (Hlt & Hroom & _). pose proof (bo_max Hb) as H0.
  pose proof (branch_loadable words Hb Harr Hpl) as Hld. destruct Hh as [Hw _ Hmax _ Hbr _ _ _]. cbn [ms_words ms_max_fp ms_branch] in *.
  rewrite <- Hmax in Hld, Hroom.
  destruct (GetMapper_ok append local shift term r words Hw Hld Hshift Hroom) as (m & l & Hm & Hml). pose proof Hml as [L1 L2 L3 L4 L5 L6 L7 L8].
  exists m. split; [exact Hm|]. split; [intros p fp; rewrite L3; symmetry; apply array_maps, Harr|].
  split; [intros disk a Ha; exact (loaded_store_inv append shift _ _ _ m l disk a Hml Ha)|].
  assert (Hfree : free_ids (file_page_allocator_ m) = []).
  { destruct (free_ids (file_page_allocator_ m)) as [|fp ids] eqn:He; [reflexivity|]. destruct (L8 fp ltac:(left)) as [_ Hin].
    rewrite Hbr in Hin. cbn [bm_file_ranges bm_branch_name] in Hin. destruct ranges eqn:Hrs; [destruct (bo_ranges Hb); exact Hrs|].
    rewrite <- Hrs, (other_ranges _ Hb) in Hin. discriminate Hin. }
  rewrite Hmax in Hroom. assert (Hge : new_max <= max_fp_id_ (file_page_allocator_ m) < 2 ^ 32).
  { rewrite L7. unfold loaded_max. rewrite Hmax. apply bump_range; [exact Hshift|lia|exact Hroom]. }
  intros q Hq Hn. destruct (Z.lt_ge_cases q (max_fp_id_ (file_page_allocator_ m))) as [Hl|]; [|lia].
  destruct Hn. split; [lia|]. rewrite Hfree. intros Hin. inversion Hin.
Qed.

(** The file pages that the tasks of a branch allocate. *)
Lemma branch_allocates append local term r words :
  branchable -> is_array (mapping_tbl_ (rm_mapper_ meta)) words -> Forall plain_word words ->
  replays r (mkState (rm_root_id_ meta) (rm_ttl_root_id_ meta) words new_max (rm_dictionary_ meta) new_branch [] 0) ->
  exists m, GetMapper append local shift term r = Some m /\
    (forall p fp, maps (mapping_tbl_ m) p fp <-> maps (mapping_tbl_ (rm_mapper_ meta)) p fp) /\
    (forall disk a s c page_id id fp s', arena_ok a -> rtc (store_step shift append) (loaded_store m disk a) s ->
       st_cow s = Some c -> max_fp_id_ (mr_alloc (cow_mapper c)) < 2 ^ 32 - 1 -> writable s c page_id ->
       AllocatePage append s page_id = Some (id, fp, s') ->
       parent_file < Z.shiftr fp shift \/ (append = false /\ exists p, maps (mapping_tbl_ (rm_mapper_ meta)) p fp)).
Proof using Hshift.
  clear Hk Halign Hfresh. intros Hb Harr Hpl Hr. destruct (branch_loaded append local term r words Hb Harr Hpl Hr) as (m & Hm & Hmaps & Hinv & Hnew).
  exists m. split; [exact Hm|]. split; [exact Hmaps|]. intros disk a s c page_id id fp s' Ha Hst Hc Hroom Hw Hal.
  set (inherited := fun q => exists p, maps (mapping_tbl_ (rm_mapper_ meta)) p q).
  set (M := fun q => new_max <= q \/ inherited q). set (P := fun q => new_max <= q \/ (append = false /\ inherited q)).
  assert (Ho : origin M P (loaded_store m disk a)).
  { split; cbn; [|intros m' Hm'; injection Hm' as <-; intros q Hq Hn; left; exact (Hnew q Hq Hn)|discriminate].
    intros i sn [_ <-]%lookup_singleton_Some. cbn. split; [|intros q Hq; inversion Hq]. intros p q Hq. right. exists p. apply Hmaps, Hq. }
  assert (HPM : forall q, P q -> M q) by (intros q [H|[_ H]]; [left|right]; exact H).
  assert (HMP : append = false -> forall q, M q -> P q) by (intros Hf q [H|H]; [left|right]; auto).
  destruct (steps_origin shift append M P HPM HMP _ s (Hinv disk a Ha) Hst Ho ltac:(cbn; eauto)) as (Hinv' & Ho' & _).
  pose proof (allocated_origin append M P s c page_id id fp s' Hinv' Ho' Hc Hroom Hw Hal) as [Hge|Hin]; [left|right; exact Hin].
  rewrite Z.shiftr_div_pow2 by exact Hshift. pose proof (Z.pow_pos_nonneg 2 shift ltac:(lia) Hshift).
  assert (Hdiv : parent_file + 1 <= fp / 2 ^ shift); [|lia]. apply Z.div_le_lower_bound; [lia|]. unfold new_max in Hge. lia.
Qed.


(** The names of data files tell their branches apart. *)
Lemma data_file_branch id b t b' t' : is_u64 id -> is_u64 t -> is_u64 t' -> NormalizeBranchName b <> [] -> NormalizeBranchName b' <> [] ->
  BranchDataFileName id b t = BranchDataFileName id b' t' -> NormalizeBranchName b = NormalizeBranchName b'.
Proof using Type.
  clear. intros Hid Ht Ht' Hb Hb' He. unfold BranchDataFileName in He. rewrite !with_branch_valid in He by assumption.
  apply (f_equal (fun s => ParseDataFileSuffix (snd (ParseFileName s)))) in He. rewrite !ParseFileName_join in He by no_sep. cbn [snd] in He. rewrite !data_suffix_roundtrip in He by assumption. congruence.
Qed.

(** Every file with a page of the parent has a recorded writer. *)
Definition writers_recorded : Prop :=
  forall p fp, maps (mapping_tbl_ (rm_mapper_ meta)) p fp ->
    exists b t, attribution false ranges (Z.shiftr fp shift) = Some (b, t) /\ NormalizeBranchName b = b /\ b <> [] /\ is_u64 t.

Lemma inherited_misplaced size term p fp ranges' : branchable -> writers_recorded -> maps (mapping_tbl_ (rm_mapper_ meta)) p fp ->
  keeps false ranges ranges' -> is_u64 term ->
  ReadPage_file shift size ranges' fp <> Some (WritePage_file shift size (NormalizeBranchName name) term fp).
Proof using Hshift.
  clear Hk Halign Hfresh. intros Hb Hrec Hm Hkeep Ht. destruct (Hrec p fp Hm) as (b & t & Hat & Hn & Hne & Htt). destruct Hm as (_ & Hfp & _).
  assert (Hid : 0 <= Z.shiftr fp shift < 2 ^ 32).
  { rewrite Z.shiftr_div_pow2 by exact Hshift. pose proof (Z.pow_pos_nonneg 2 shift ltac:(lia) Hshift).
    split; [apply Z.div_pos; lia|]. apply Z.div_lt_upper_bound; [lia|]. nia. }
  assert (Hord : ordinary_id (Z.shiftr fp shift)) by (unfold ordinary_id; lia).
  apply (Hkeep _ _ Hord) in Hat as Hat'. unfold attribution in Hat'. unfold ReadPage_file, WritePage_file, ConvFilePageId.
  change (file_key false (Z.shiftr fp shift)) with (DataFileKey (Z.shiftr fp shift)) in Hat'. rewrite Hat'. cbn [mbind option_bind].
  assert (Hnn : NormalizeBranchName (NormalizeBranchName name) = NormalizeBranchName name) by (apply normalize_idem).
  intros He. injection He as He. apply data_file_branch in He;
    [|unfold is_u64; lia|exact Htt|exact Ht|rewrite Hn; exact Hne|rewrite Hnn; exact (bo_name Hb)].
  rewrite Hn, Hnn in He. pose proof (bo_new Hb) as Hf. rewrite list.Forall_forall in Hf.
  unfold attribution, GetBranchNameAndTerm in Hat. destruct (FindBranchRange ranges _) as [rg|] eqn:Hrg; [|discriminate Hat]. injection Hat as Hbn _.
  apply (Hf rg (find_range_in _ _ Hrg)). congruence.
Qed.


(** C34: The manifest of a new branch has no segment mapping, whatever segments
    the active branch has: a partition loaded from it has no segment mapper. *)
Theorem branch_drops_segments skip cloud_mode seg_shift term sm :
  branchable -> rm_segment_mapper_ meta = Some sm ->
  exists snapshot r,
    CreateBranch hash page_align fresh append_mode shift NoError (NoError, Some meta) NoError ∅ wal ranges name =
      Some (NoError, Some (BranchManifestFileName (NormalizeBranchName name) 0, snapshot)) /\
    Replay hash page_align skip snapshot = Some (NoError, r) /\ GetSegmentMapper cloud_mode seg_shift term r = Some None.
Proof using Hfresh Hk Halign Hshift.
  intros Hb _. destruct (branch_manifest skip Hb) as (words & snapshot & r & _ & _ & Hcr & Hrep & _ & _ & Hh).
  exists snapshot, r. split; [exact Hcr|]. split; [exact Hrep|]. destruct Hh as [_ _ _ _ _ (_ & _ & Hsl & _) _ Hms].
  cbn [ms_seg_words ms_max_seg] in *. unfold GetSegmentMapper. rewrite Hsl, Hms. reflexivity.
Qed.
End branch_ok.

(** ** A branch of the partition of [CrashExample]

    The first task has committed; the partition also has a segment mapper. *)
Module BranchExample.
Import CrashExample.

Definition parent : option (MapperRef * CowStore.Snapshot) :=
  m ← st_pub (sy_store y2); sn ← st_snaps (sy_store y2) !! mr_snap m; Some (m, sn).

Definition segments : PageMapper := mkMapper empty_tbl 0 0 (mkAllocator 2 3 (PooledFilePages [])).

Definition parent_meta (m : MapperRef) (sn : CowStore.Snapshot) : RootMeta :=
  mkRootMeta 0 MaxPageId (to_mapper m sn) (Some segments) (sy_size y2) 0 [] 0 0 (bm_file_ranges branch).

(** "dev" *)
Definition dev : bytes := [100; 101; 118].

Lemma parent_pub m sn : parent = Some (m, sn) -> st_pub (sy_store y2) = Some m /\ st_snaps (sy_store y2) !! mr_snap m = Some sn.
Proof.
  unfold parent. destruct (st_pub (sy_store y2)) as [m1|]; [|discriminate]. cbn [mbind option_bind].
  destruct (st_snaps (sy_store y2) !! mr_snap m1) as [sn1|] eqn:Hs; [|discriminate]. cbn [mbind option_bind].
  intros H. injection H as <- <-. auto.
Qed.

Lemma parent_branchable m sn : parent = Some (m, sn) -> branchable 2 (parent_meta m sn) (bm_file_ranges branch) dev.
Proof.
  intros Hp. destruct (parent_pub m sn Hp) as [Hm Hsn].
  assert (Hy : reach y2) by (eapply sys_next; [exact y1_reach|exact y2_step]).
  apply (sys_reach_inv hash 64 fresh fresh_length 6 ltac:(lia) eq_refl) in Hy as [Hinv _]; [|lia].
  destruct (si_pub_alloc _ _ Hinv m Hm) as [[Hmx _ _] Hal]. destruct (Hal _ _ Hsn ltac:(lia)) as [Hused _].
  assert (Hz : is_u64 0) by (split; [discriminate|reflexivity]).
  split; cbn [parent_meta rm_mapper_ to_mapper mapping_tbl_ file_page_allocator_ rm_root_id_ rm_ttl_root_id_ rm_dictionary_].
  - exact (si_snap _ _ Hinv _ _ Hsn).
  - exact Hused.
  - vm_compute in Hp. injection Hp as <- <-. reflexivity.
  - lia.
  - vm_compute in Hp. injection Hp as <- <-. reflexivity.
  - split; [discriminate|reflexivity].
  - split; [discriminate|reflexivity].
  - discriminate.
  - split; [reflexivity|exact Hz|reflexivity|]. constructor; [|constructor]. split; [reflexivity|exact Hz|exact Hz|exact Hz].
  - discriminate.
  - constructor; [discriminate|constructor].
  - vm_compute in Hp. injection Hp as <- <-. reflexivity.
Qed.

(** The table of the parent maps page 0 to file page 0. *)
Lemma parent_maps m sn p fp : parent = Some (m, sn) -> maps (mapping_tbl_ (rm_mapper_ (parent_meta m sn))) p fp -> fp = 0.
Proof.
  intros Hp (Hps & Hfp & Hg). cbn [parent_meta rm_mapper_ to_mapper mapping_tbl_] in *.
  assert (Hs : logical_size_ (sn_tbl sn) = 1) by (vm_compute in Hp; injection Hp as _ <-; vm_compute; reflexivity).
  assert (H0 : Get (sn_tbl sn) 0 = Some (EncodeFilePageId 0)) by (vm_compute in Hp; injection Hp as _ <-; vm_compute; reflexivity).
  assert (p = 0) as -> by lia. rewrite H0 in Hg. injection Hg as Hg. symmetry. apply file_word_inj; [lia|exact Hfp|exact Hg].
Qed.

Lemma parent_recorded m sn : parent = Some (m, sn) -> writers_recorded 2 (parent_meta m sn) (bm_file_ranges branch).
Proof.
  intros Hp p fp Hm. rewrite (parent_maps m sn p fp Hp Hm).
  exists [109], 0. split; [vm_compute; reflexivity|]. split; [vm_compute; reflexivity|]. split; [discriminate|]. split; [discriminate|reflexivity].
Qed.

(** The store of the branch after loading. *)
Definition branch_manifest_file : bytes :=
  match parent with
  | Some (m, sn) =>
      match CreateBranch hash 64 fresh false 2 NoError (NoError, Some (parent_meta m sn)) NoError ∅ (mkManifest [] false)
              (bm_file_ranges branch) dev with
      | Some (_, Some (_, snapshot)) => snapshot
      | _ => []
      end
  | None => []
  end.

Definition branch_mapper : PageMapper :=
  match Replay hash 64 true branch_manifest_file with
  | Some (_, r) => default (new_mapper (AllocatorInstance 2 false)) (GetMapper false true 2 0 r)
  | None => new_mapper (AllocatorInstance 2 false)
  end.

Definition b0 : Store := loaded_store branch_mapper {[0 := [1]]} None.
Definition b1 : Store := run_begin b0.
Definition b2 : Store := run_commit (run_write b1 0 [2]).
Definition b3 : Store := run_begin b2.

(** The example as the theorems see it. *)
Lemma branch_store m sn snapshot r mapper :
  parent = Some (m, sn) ->
  CreateBranch hash 64 fresh false 2 NoError (NoError, Some (parent_meta m sn)) NoError ∅ (mkManifest [] false) (bm_file_ranges branch) dev =
    Some (NoError, Some (BranchManifestFileName (NormalizeBranchName dev) 0, snapshot)) ->
  Replay hash 64 true snapshot = Some (NoError, r) -> GetMapper false true 2 0 r = Some mapper -> branch_mapper = mapper.
Proof. intros Hp Hcr Hr Hm. unfold branch_mapper, branch_manifest_file. rewrite Hp, Hcr, Hr, Hm. reflexivity. Qed.

Lemma b0_inv : store_inv false b0.
Proof.
  destruct parent as [[m sn]|] eqn:Hp; [|vm_compute in Hp; discriminate Hp]. pose proof (parent_branchable m sn Hp) as Hb.
  destruct (branch_manifest hash 64 fresh fresh_length 6 ltac:(lia) eq_refl 2 ltac:(lia) false (mkManifest [] false) _ _ _ true Hb)
    as (words & snapshot & r & Harr & Hpl & Hcr & Hrep & Hr).
  destruct (branch_loaded 2 ltac:(lia) _ _ _ false true 0 r words Hb Harr Hpl Hr) as (mapper & Hm & _ & Hinv & _).
  unfold b0. rewrite (branch_store m sn snapshot r mapper Hp Hcr Hrep Hm). exact (Hinv _ None I).
Qed.

Lemma b_steps : store_step 2 false b0 b1 /\ store_step 2 false b1 (run_write b1 0 [2]) /\
  store_step 2 false (run_write b1 0 [2]) b2 /\ store_step 2 false b2 b3 /\ store_inv false b1 /\ store_inv false b3.
Proof.
  assert (H1 : store_step 2 false b0 b1) by (apply step_run_begin; vm_compute; reflexivity).
  pose proof (proj1 (store_step_inv _ _ _ _ b0_inv H1)) as I1.
  assert (H2 : store_step 2 false b1 (run_write b1 0 [2])) by (apply step_run_write; [exact I1|vm_compute; reflexivity]).
  pose proof (proj1 (store_step_inv _ _ _ _ I1 H2)) as I2.
  assert (H3 : store_step 2 false (run_write b1 0 [2]) b2) by (apply step_run_commit; vm_compute; reflexivity).
  pose proof (proj1 (store_step_inv _ _ _ _ I2 H3)) as I3.
  assert (H4 : store_step 2 false b2 b3) by (apply step_run_begin; vm_compute; reflexivity).
  pose proof (proj1 (store_step_inv _ _ _ _ I3 H4)) as I4. split_and!; assumption.
Qed.

Lemma parent_file_0 m sn : parent = Some (m, sn) -> CurrentFileId (file_page_allocator_ (rm_mapper_ (parent_meta m sn))) = 0.
Proof. intros Hp. vm_compute in Hp. injection Hp as <- <-. reflexivity. Qed.



Lemma branch_drops_segments_witness :
  exists m sn snapshot r, parent = Some (m, sn) /\ rm_segment_mapper_ (parent_meta m sn) = Some segments /\
    Replay hash 64 true snapshot = Some (NoError, r) /\ GetSegmentMapper false 2 0 r = Some None.
Proof.
  destruct parent as [[m sn]|] eqn:Hp; [|vm_compute in Hp; discriminate Hp].
  destruct (branch_drops_segments hash 64 fresh fresh_length 6 ltac:(lia) eq_refl 2 ltac:(lia) false (mkManifest [] false)
    (parent_meta m sn) (bm_file_ranges branch) dev true false 2 0 segments (parent_branchable m sn Hp) eq_refl)
    as (snapshot & r & _ & Hr & Hg).
  exists m, sn, snapshot, r. split; [reflexivity|]. split; [reflexivity|]. split; [exact Hr|exact Hg].
Defined.
End BranchExample.
