(* ===== verification/FileGc.v ===== *)
(** * Garbage collection of files

    [FileGarbageCollector] (src/file_gc.cpp): which data and segment files of a
    partition are deleted, in local and in cloud mode.  A directory or bucket is
    its list of file names with a function that reads a file; the names that are
    handed to the deleting calls are the result. *)

From stdpp Require Import gmap strings.
From S2P Require Import Prelude Coding PageFormat IndexPageIter MappingTable PageMapper FileNames Branch Manifest Recovery.

(** ** Files that are in use *)
Record RetainedFileKey := mkKey { rk_file_id : Z; rk_branch_name : bytes; rk_term : Z }.

#[export] Instance RetainedFileKey_eq_dec : EqDecision RetainedFileKey.
Proof. solve_decision. Defined.

#[export] Instance RetainedFileKey_countable : Countable RetainedFileKey.
Proof.
  refine (inj_countable' (fun k => (rk_file_id k, rk_branch_name k, rk_term k)) (fun '(i, b, t) => mkKey i b t) _).
  intros []. reflexivity.
Defined.

Abbreviation RetainedFiles := (gset RetainedFileKey) (only parsing).

Definition retain (file_ranges : BranchFileMapping) (per_file_shift : Z) (is_segment : bool) (fp_id : Z) (result : RetainedFiles)
    : RetainedFiles :=
  let file_id := Z.shiftr fp_id per_file_shift in
  match GetBranchNameAndTerm file_ranges (file_key is_segment file_id) with
  | Some (branch_name, term) => {[ mkKey file_id branch_name term ]} ∪ result
  | None => result
  end.

(** The pages from [page_id] on; [h] are the cached pages that pointers in the
    table refer to. *)
Fixpoint GetRetainedFiles_loop (h : Heap) (tbl : MappingTbl) (file_ranges : BranchFileMapping) (per_file_shift : Z)
    (is_segment : bool) (n : nat) (page_id : Z) (result : RetainedFiles) : option RetainedFiles :=
  match n with
  | O => Some result
  | S n' =>
      val ← Get tbl page_id;
      result ← (if IsFilePageId val then Some (retain file_ranges per_file_shift is_segment (DecodeId val) result)
                else if IsSwizzlingPointer val then
                  idx_page ← h !! val; Some (retain file_ranges per_file_shift is_segment (cp_file_page_id idx_page) result)
                else Some result);
      GetRetainedFiles_loop h tbl file_ranges per_file_shift is_segment n' (page_id + 1) result
  end.

Definition GetRetainedFiles (h : Heap) (result : RetainedFiles) (tbl : MappingTbl) (file_ranges : BranchFileMapping)
    (per_file_shift : Z) (is_segment : bool) : option RetainedFiles :=
  GetRetainedFiles_loop h tbl file_ranges per_file_shift is_segment (Z.to_nat (logical_size_ tbl)) 0 result.

(** The snapshots of a partition that somebody still holds; there are none when
    the partition is not found. *)
Record LivingSnapshots := mkLiving {
  mapping_snapshots_ : list MappingTbl;
  segment_mapping_snapshots_ : list MappingTbl
}.

Definition snapshots_of (is_segment : bool) (meta : LivingSnapshots) : list MappingTbl :=
  if is_segment then segment_mapping_snapshots_ meta else mapping_snapshots_ meta.

(** [BuildRetainedFiles]: everything that a living snapshot maps. *)
Fixpoint BuildRetainedFiles (h : Heap) (snapshots : list MappingTbl) (file_ranges : BranchFileMapping) (shift : Z)
    (is_segment : bool) (file_keys : RetainedFiles) : option RetainedFiles :=
  match snapshots with
  | [] => Some file_keys
  | mapping :: snapshots =>
      file_keys ← GetRetainedFiles h file_keys mapping file_ranges shift is_segment;
      BuildRetainedFiles h snapshots file_ranges shift is_segment file_keys
  end.

(** ** Files that are being written *)
Record BranchGuard := mkGuard {
  newest_term_ : Z;
  least_unflushed_file_id_ : Z;
  least_unflushed_seg_file_id_ : Z
}.

Abbreviation BranchGuardMap := (gmap bytes BranchGuard) (only parsing).

Definition SeedActiveBranchGuardFromInMemory (entry : option RootMeta) (active_branch : bytes) (process_term : Z)
    (pages_per_file_shift segments_per_file_shift : Z) (branch_guards : BranchGuardMap) : BranchGuardMap :=
  match entry, branch_guards !! active_branch with
  | Some meta, None =>
      <[active_branch := mkGuard process_term (Z.shiftr (rm_first_unflushed_fp_id_ meta) pages_per_file_shift)
                           (Z.shiftr (rm_first_unflushed_seg_fp_id_ meta) segments_per_file_shift)]> branch_guards
  | _, _ => branch_guards
  end.

(** One range of a manifest. *)
Definition merge_range (branch_guards : BranchGuardMap) (range : BranchFileRange) : BranchGuardMap :=
  match branch_guards !! branch_name_ range with
  | None => <[branch_name_ range := mkGuard (term_ range) (max_file_id_ range) (max_segment_file_id_ range)]> branch_guards
  | Some g =>
      if newest_term_ g <? term_ range then
        <[branch_name_ range := mkGuard (term_ range) (max_file_id_ range) (max_segment_file_id_ range)]> branch_guards
      else if term_ range =? newest_term_ g then
        <[branch_name_ range := mkGuard (newest_term_ g) (Z.max (least_unflushed_file_id_ g) (max_file_id_ range))
                                  (Z.max (least_unflushed_seg_file_id_ g) (max_segment_file_id_ range))]> branch_guards
      else branch_guards
  end.

(** ** Reading the manifests *)
Record GcState := mkGc {
  retained_files : RetainedFiles;
  retained_segment_files : RetainedFiles;
  branch_guards : BranchGuardMap
}.

Section gc.
  Context (hash : bytes -> Z) (page_align : Z) (h : Heap).
  Context (pages_per_file_shift segments_per_file_shift : Z).
  Context (read : bytes -> KvError * bytes).

(** The term that the replayer starts with is not used here. *)
Definition ProcessOneManifest (buf : bytes) (st : GcState) : option (KvError * GcState) :=
  '(replay_err, r) ← Replay hash page_align false buf;
  match replay_err with
  | NoError =>
      let file_ranges := bm_file_ranges (branch_metadata_ r) in
      files ← GetRetainedFiles h (retained_files st) (rp_mapping_tbl_ r) file_ranges pages_per_file_shift false;
      segments ← GetRetainedFiles h (retained_segment_files st) (segment_mapping_tbl_ r) file_ranges segments_per_file_shift true;
      Some (NoError, mkGc files segments (fold_left merge_range file_ranges (branch_guards st)))
  | _ => Some (replay_err, st)
  end.

(** Manifests may have disappeared since the files were listed. *)
Fixpoint process_manifests (manifests : list (bytes * Z)) (st : GcState) : option (KvError * GcState) :=
  match manifests with
  | [] => Some (NoError, st)
  | (branch, term) :: manifests =>
      match read (BranchManifestFileName branch term) with
      | (NoError, buf) =>
          '(err, st) ← ProcessOneManifest buf st;
          match err with NoError => process_manifests manifests st | _ => Some (err, st) end
      | (NotFound, _) => process_manifests manifests st
      | (err, _) => Some (err, st)
      end
  end.

Fixpoint process_archives (archive_files : list bytes) (st : GcState) : option (KvError * GcState) :=
  match archive_files with
  | [] => Some (NoError, st)
  | filename :: archive_files =>
      match read filename with
      | (NoError, buf) =>
          '(err, st) ← ProcessOneManifest buf st;
          match err with NoError => process_archives archive_files st | _ => Some (err, st) end
      | (err, _) => Some (err, st)
      end
  end.

Definition AugmentRetainedFilesFromBranchManifests (manifests : list (bytes * Z)) (archive_files : list bytes) (st : GcState)
    : option (KvError * GcState) :=
  '(err, st) ← process_manifests manifests st;
  match err with NoError => process_archives archive_files st | _ => Some (err, st) end.
End gc.

(** ** Kinds of files *)
Definition TmpSuffix : bytes := str ".tmp"%string.

Definition ends_with (name suffix : bytes) : bool :=
  (zlen suffix <=? zlen name) && bool_decide (zdrop (zlen name - zlen suffix) name = suffix).

Record Classified := mkClassified {
  cl_archive_files : list bytes;
  cl_archive_tags : list bytes;
  cl_archive_branch_names : list bytes;
  cl_data_files : list bytes;
  cl_manifests : list (bytes * Z);
  cl_segment_files : list bytes
}.

Fixpoint ClassifyFiles (files : list bytes) : Classified :=
  match files with
  | [] => mkClassified [] [] [] [] [] []
  | file_name :: files =>
      let c := ClassifyFiles files in
      let '(type, suffix) := ParseFileName file_name in
      if ends_with file_name TmpSuffix then c
      else if bool_decide (type = FileNameManifest) then
        match ParseManifestFileSuffix suffix with
        | None => c
        | Some (branch_name, _, Some tag) =>
            mkClassified (file_name :: cl_archive_files c) (tag :: cl_archive_tags c) (branch_name :: cl_archive_branch_names c)
              (cl_data_files c) (cl_manifests c) (cl_segment_files c)
        | Some (branch_name, term, None) =>
            mkClassified (cl_archive_files c) (cl_archive_tags c) (cl_archive_branch_names c) (cl_data_files c)
              ((branch_name, term) :: cl_manifests c) (cl_segment_files c)
        end
      else if bool_decide (type = FileNameData) then
        mkClassified (cl_archive_files c) (cl_archive_tags c) (cl_archive_branch_names c) (file_name :: cl_data_files c)
          (cl_manifests c) (cl_segment_files c)
      else if bool_decide (type = FileNameSegment) then
        mkClassified (cl_archive_files c) (cl_archive_tags c) (cl_archive_branch_names c) (cl_data_files c)
          (cl_manifests c) (file_name :: cl_segment_files c)
      else c
  end.

Definition ListLocalFiles (dir : list bytes) : list bytes := List.filter (fun name => negb (ends_with name TmpSuffix)) dir.

(** ** Files to delete *)
Definition parse_file (is_segment : bool) (file_name : bytes) : option (Z * bytes * Z) :=
  let '(type, suffix) := ParseFileName file_name in
  if bool_decide (type = if is_segment then FileNameSegment else FileNameData) then
    if is_segment then ParseSegmentFileSuffix suffix else ParseDataFileSuffix suffix
  else None.

Definition least_unflushed (is_segment : bool) (g : BranchGuard) : Z :=
  if is_segment then least_unflushed_seg_file_id_ g else least_unflushed_file_id_ g.

Definition unreferenced (is_segment : bool) (active_branch : bytes) (retained : RetainedFiles) (guards : BranchGuardMap)
    (file_name : bytes) : bool :=
  match parse_file is_segment file_name with
  | None => false
  | Some (file_id, branch_name, term) =>
      if bool_decide (mkKey file_id branch_name term ∈ retained) then false
      else
        match guards !! branch_name with
        | None => bool_decide (branch_name = active_branch)
        | Some g => negb ((newest_term_ g <=? term) && (least_unflushed is_segment g <=? file_id))
        end
  end.

(** [DeleteUnreferencedLocalFiles] and [DeleteUnreferencedLocalSegmentFiles];
    [delete] closes and deletes files. *)
Definition delete_local (delete : list bytes -> KvError) (is_segment : bool) (active_branch : bytes) (retained : RetainedFiles)
    (guards : BranchGuardMap) (files : list bytes) : KvError * list bytes :=
  let files_to_delete := List.filter (unreferenced is_segment active_branch retained guards) files in
  match files_to_delete with
  | [] => (NoError, [])
  | _ => (delete files_to_delete, files_to_delete)
  end.

(** [ExecuteLocalGC]: the files that are deleted, data files first.  The directory
    itself is removed at the end only when it is empty. *)
Definition ExecuteLocalGC (hash : bytes -> Z) (page_align : Z) (h : Heap) (pages_per_file_shift segments_per_file_shift : Z)
    (dir : list bytes) (read : bytes -> KvError * bytes) (delete : list bytes -> KvError) (active_branch : bytes)
    (process_term : Z) (entry : option RootMeta) (retained retained_segments : RetainedFiles)
    : option (KvError * list bytes * list bytes) :=
  let c := ClassifyFiles (ListLocalFiles dir) in
  let guards := SeedActiveBranchGuardFromInMemory entry active_branch process_term pages_per_file_shift segments_per_file_shift ∅ in
  '(err, st) ← AugmentRetainedFilesFromBranchManifests hash page_align h pages_per_file_shift segments_per_file_shift read
                 (cl_manifests c) (cl_archive_files c) (mkGc retained retained_segments guards);
  match err with
  | NoError =>
      let '(err, files) := delete_local delete false active_branch (retained_files st) (branch_guards st) (cl_data_files c) in
      match err with
      | NoError =>
          let '(err, segments) :=
            delete_local delete true active_branch (retained_segment_files st) (branch_guards st) (cl_segment_files c) in
          Some (err, files, segments)
      | _ => Some (err, files, [])
      end
  | _ => Some (err, [], [])
  end.

(** [TriggerFileGC] in local mode: what the living snapshots map is retained. *)
Definition TriggerFileGC (hash : bytes -> Z) (page_align : Z) (h : Heap) (pages_per_file_shift segments_per_file_shift : Z)
    (dir : list bytes) (read : bytes -> KvError * bytes) (delete : list bytes -> KvError) (active_branch : bytes)
    (process_term : Z) (entry : option RootMeta) (living : LivingSnapshots) (file_ranges : BranchFileMapping)
    : option (KvError * list bytes * list bytes) :=
  retained ← BuildRetainedFiles h (snapshots_of false living) file_ranges pages_per_file_shift false ∅;
  retained_segments ← BuildRetainedFiles h (snapshots_of true living) file_ranges segments_per_file_shift true ∅;
  ExecuteLocalGC hash page_align h pages_per_file_shift segments_per_file_shift dir read delete active_branch process_term entry
    retained retained_segments.

(** [TriggerLocalFileGC] passes an empty set for the segments of the snapshots. *)
Definition TriggerLocalFileGC (hash : bytes -> Z) (page_align : Z) (h : Heap) (pages_per_file_shift segments_per_file_shift : Z)
    (dir : list bytes) (read : bytes -> KvError * bytes) (delete : list bytes -> KvError) (active_branch : bytes)
    (process_term : Z) (entry : option RootMeta) (living : LivingSnapshots) (file_ranges : BranchFileMapping)
    : option (KvError * list bytes * list bytes) :=
  retained ← BuildRetainedFiles h (snapshots_of false living) file_ranges pages_per_file_shift false ∅;
  ExecuteLocalGC hash page_align h pages_per_file_shift segments_per_file_shift dir read delete active_branch process_term entry
    retained ∅.

(** ** Cloud mode *)

(** Files of later terms are not touched. *)
Definition cloud_unreferenced (is_segment : bool) (process_term : Z) (active_branch : bytes) (retained : RetainedFiles)
    (guards : BranchGuardMap) (file_name : bytes) : bool :=
  match parse_file is_segment file_name with
  | Some (_, _, term) => negb (process_term <? term) && unreferenced is_segment active_branch retained guards file_name
  | None => false
  end.

(** The names that [DeleteUnreferencedCloudFiles] deletes: data files, the
    current manifest when no data file is left, and manifests of earlier terms. *)
Definition cloud_files_to_delete (process_term : Z) (active_branch : bytes) (retained : RetainedFiles) (guards : BranchGuardMap)
    (data_files : list bytes) (manifests : list (bytes * Z)) : list bytes :=
  let files := List.filter (cloud_unreferenced false process_term active_branch retained guards) data_files in
  let found_current := existsb (fun m => bool_decide (m = (active_branch, process_term))) manifests in
  let current :=
    if (zlen files =? zlen data_files) && found_current then [BranchManifestFileName active_branch process_term] else [] in
  let superseded :=
    map (fun '(branch, term) => BranchManifestFileName branch term)
      (List.filter (fun '(branch, term) => (term <? process_term) && bool_decide (branch = active_branch)) manifests) in
  files ++ current ++ superseded.

Definition forget_manifest (meta : RootMeta) : RootMeta :=
  if negb (rm_manifest_size_ meta =? 0) && (rm_root_id_ meta =? MaxPageId) && (rm_ttl_root_id_ meta =? MaxPageId) &&
     (MappingCount (rm_mapper_ meta) =? 0)
  then mkRootMeta (rm_root_id_ meta) (rm_ttl_root_id_ meta) (rm_mapper_ meta) (rm_segment_mapper_ meta) 0 (rm_next_expire_ts_ meta)
         (rm_dictionary_ meta) (rm_first_unflushed_fp_id_ meta) (rm_first_unflushed_seg_fp_id_ meta) (rm_branch_file_mapping meta)
  else meta.

(** The results of the deletions, in order: the first error, the names that are
    gone, and the metadata in memory. *)
Fixpoint deletion_results (delete : bytes -> KvError) (current_manifest : bytes) (names : list bytes)
    (first_error : KvError) (deleted_filenames : list bytes) (entry : option RootMeta) : KvError * list bytes * option RootMeta :=
  match names with
  | [] => (first_error, deleted_filenames, entry)
  | name :: names =>
      let gone := match delete name with NoError | NotFound => true | _ => false end in
      let entry := if bool_decide (name = current_manifest) && gone then forget_manifest <$> entry else entry in
      if gone then deletion_results delete current_manifest names first_error (deleted_filenames ++ [name]) entry
      else
        deletion_results delete current_manifest names
          (match first_error with NoError => delete name | _ => first_error end) deleted_filenames entry
  end.

(** [DeleteUnreferencedCloudSegmentFiles] stops at the first error. *)
Fixpoint first_failure (delete : bytes -> KvError) (names : list bytes) : KvError :=
  match names with
  | [] => NoError
  | name :: names => match delete name with NoError => first_failure delete names | err => err end
  end.

(** [ExecuteCloudGC]: the names that are handed to the object store, the names
    that are gone, and the metadata in memory. *)
Definition ExecuteCloudGC (hash : bytes -> Z) (page_align : Z) (h : Heap) (pages_per_file_shift segments_per_file_shift : Z)
    (term_file : KvError * Z) (listing : KvError * list bytes) (read : bytes -> KvError * bytes) (delete : bytes -> KvError)
    (active_branch : bytes) (process_term : Z) (entry : option RootMeta) (retained retained_segments : RetainedFiles)
    : option (KvError * list bytes * list bytes * option RootMeta) :=
  match term_file with
  | (NotFound, _) => Some (NoError, [], [], entry)
  | (NoError, term_file_term) =>
      if negb (term_file_term =? process_term) then Some (ExpiredTerm, [], [], entry)
      else
        match listing with
        | (NoError, cloud_files) =>
            let c := ClassifyFiles cloud_files in
            if existsb (fun '(_, term) => process_term <? term) (cl_manifests c) then Some (ExpiredTerm, [], [], entry)
            else
              let guards :=
                SeedActiveBranchGuardFromInMemory entry active_branch process_term pages_per_file_shift segments_per_file_shift ∅ in
              '(err, st) ← AugmentRetainedFilesFromBranchManifests hash page_align h pages_per_file_shift segments_per_file_shift
                             read (cl_manifests c) (cl_archive_files c) (mkGc retained retained_segments guards);
              match err with
              | NoError =>
                  let names :=
                    cloud_files_to_delete process_term active_branch (retained_files st) (branch_guards st) (cl_data_files c)
                      (cl_manifests c) in
                  let '(err, deleted, entry) :=
                    deletion_results delete (BranchManifestFileName active_branch process_term) names NoError [] entry in
                  match err with
                  | NoError =>
                      let segments :=
                        List.filter (cloud_unreferenced true process_term active_branch (retained_segment_files st) (branch_guards st))
                          (cl_segment_files c) in
                      Some (first_failure delete segments, names ++ segments, deleted, entry)
                  | _ => Some (err, names, deleted, entry)
                  end
              | _ => Some (err, [], [], entry)
              end
        | (err, _) => Some (err, [], [], entry)
        end
  | (err, _) => Some (err, [], [], entry)
  end.
