(* ===== verification/FileGcSpec.v ===== *)
(** * What garbage collection keeps and reclaims

    Files that a recognised manifest, an archive or a living snapshot refers to, and
    files that a branch may still be writing, are never deleted by [TriggerFileGC];
    files that nobody refers to and that their branch has left behind are. *)

From stdpp Require Import gmap.
From S2P Require Import Prelude Coding PageFormat IndexPageIter MappingTable PageMapper CowStore FileNames Branch Manifest ManifestSpec Recovery FileGc.

(** ** Files that a table refers to *)
Definition file_page_of (h : Heap) (val : Z) : option Z :=
  if IsFilePageId val then Some (DecodeId val)
  else if IsSwizzlingPointer val then cp_file_page_id <$> h !! val else None.

Definition key_of (ranges : BranchFileMapping) (shift : Z) (seg : bool) (fp : Z) : option RetainedFileKey :=
  '(b, t) ← attribution seg ranges (Z.shiftr fp shift); Some (mkKey (Z.shiftr fp shift) b t).

Definition tbl_refers (h : Heap) (tbl : MappingTbl) (ranges : BranchFileMapping) (shift : Z) (seg : bool) (k : RetainedFileKey) : Prop :=
  exists p val fp, 0 <= p < logical_size_ tbl /\ Get tbl p = Some val /\ file_page_of h val = Some fp /\
    key_of ranges shift seg fp = Some k.

Lemma retain_spec ranges shift seg fp result k :
  k ∈ retain ranges shift seg fp result <-> k ∈ result \/ key_of ranges shift seg fp = Some k.
Proof.
  unfold retain, key_of, attribution. destruct (GetBranchNameAndTerm _ _) as [[b t]|]; cbn [mbind option_bind].
  - rewrite elem_of_union, elem_of_singleton. split; [intros [->|H]; auto|intros [H|H]; [auto|injection H as <-; auto]].
  - split; [auto|intros [H|H]; [exact H|discriminate]].
Qed.

Lemma GetRetainedFiles_loop_spec h tbl ranges shift seg n : forall page_id result result',
  GetRetainedFiles_loop h tbl ranges shift seg n page_id result = Some result' ->
  forall k, k ∈ result' <-> k ∈ result \/
    exists p val fp, page_id <= p < page_id + Z.of_nat n /\ Get tbl p = Some val /\ file_page_of h val = Some fp /\
      key_of ranges shift seg fp = Some k.
Proof.
  induction n as [|n IH]; intros page_id result result' Hl k; cbn [GetRetainedFiles_loop] in Hl.
  { injection Hl as <-. split; [auto|]. intros [H|(p & val & fp & Hp & _)]; [exact H|lia]. }
  destruct (Get tbl page_id) as [val|] eqn:Hg; [|discriminate Hl]. cbn [mbind option_bind] in Hl.
  match type of Hl with context [mbind _ ?x] => destruct x as [r1|] eqn:Hr end; [|discriminate Hl]. cbn [mbind option_bind] in Hl.
  assert (Hr1 : forall k, k ∈ r1 <-> k ∈ result \/ exists fp, file_page_of h val = Some fp /\ key_of ranges shift seg fp = Some k).
  { intros k0. unfold file_page_of. destruct (IsFilePageId val).
    - injection Hr as <-. rewrite retain_spec. split; intros [H|H]; auto; [right; eauto|]. destruct H as (fp & Hfp & Hk).
      injection Hfp as <-. auto.
    - destruct (IsSwizzlingPointer val).
      + destruct (h !! val) as [pg|]; [|discriminate Hr]. injection Hr as <-. rewrite retain_spec.
        split; intros [H|H]; auto; [right; exists (cp_file_page_id pg); auto|]. destruct H as (fp & Hfp & Hk). injection Hfp as <-. auto.
      + injection Hr as <-. split; [auto|]. intros [H|(fp & Hfp & _)]; [exact H|discriminate]. }
  rewrite (IH _ _ _ Hl k), Hr1. split.
  - intros [[H|(fp & Hfp & Hk)]|(p & v & fp & Hp & H)]; [auto| |right; exists p, v, fp; split; [lia|exact H]].
    right. exists page_id, val, fp. split; [lia|]. auto.
  - intros [H|(p & v & fp & Hp & Hv & Hfp & Hk)]; [auto|]. destruct (Z.eq_dec p page_id) as [->|Hne].
    + rewrite Hg in Hv. injection Hv as <-. left. right. eauto.
    + right. exists p, v, fp. split; [lia|]. auto.
Qed.

Lemma GetRetainedFiles_spec h result tbl ranges shift seg result' :
  GetRetainedFiles h result tbl ranges shift seg = Some result' ->
  forall k, k ∈ result' <-> k ∈ result \/ tbl_refers h tbl ranges shift seg k.
Proof.
  intros Hg k. rewrite (GetRetainedFiles_loop_spec _ _ _ _ _ _ _ _ _ Hg k). unfold tbl_refers.
  split; (intros [H|(p & val & fp & Hp & H)]; [auto|right; exists p, val, fp; split; [lia|exact H]]).
Qed.

(** Walking a table succeeds when its pointers are valid. *)
Definition pointers_ok (h : Heap) (tbl : MappingTbl) : Prop :=
  tbl_inv tbl /\ forall p val, 0 <= p < logical_size_ tbl -> Get tbl p = Some val -> IsSwizzlingPointer val = true -> is_Some (h !! val).

Lemma GetRetainedFiles_total h result tbl ranges shift seg :
  pointers_ok h tbl -> is_Some (GetRetainedFiles h result tbl ranges shift seg).
Proof.
  intros [Hinv Hp]. unfold GetRetainedFiles.
  assert (Hgen : forall n page_id result, 0 <= page_id -> page_id + Z.of_nat n <= logical_size_ tbl ->
    is_Some (GetRetainedFiles_loop h tbl ranges shift seg n page_id result)).
  { induction n as [|n IH]; intros page_id res H0 Hn; cbn [GetRetainedFiles_loop]; [eauto|].
    destruct (Get_total tbl page_id Hinv ltac:(lia)) as [val Hv]. rewrite Hv. cbn [mbind option_bind].
    destruct (IsFilePageId val); [cbn [mbind option_bind]; apply IH; lia|].
    destruct (IsSwizzlingPointer val) eqn:Hs; [|cbn [mbind option_bind]; apply IH; lia].
    destruct (Hp page_id val ltac:(lia) Hv Hs) as [pg ->]. cbn [mbind option_bind]. apply IH; lia. }
  destruct (Z_lt_ge_dec (logical_size_ tbl) 0) as [Hneg|Hpos].
  - rewrite (Z2Nat.nonpos (logical_size_ tbl) ltac:(lia)). cbn [GetRetainedFiles_loop]. eauto.
  - apply Hgen; lia.
Qed.

(** ** Guards *)
Definition range_guard (r : BranchFileRange) : BranchGuard := mkGuard (term_ r) (max_file_id_ r) (max_segment_file_id_ r).

(** A guard has left file [id] of term [t] behind. *)
Definition past (seg : bool) (g : BranchGuard) (t id : Z) : Prop :=
  t < newest_term_ g \/ (t = newest_term_ g /\ id < least_unflushed seg g).

Lemma past_not_in_flight seg g t id : past seg g t id -> (newest_term_ g <=? t) && (least_unflushed seg g <=? id) = false.
Proof.
  intros H. apply andb_false_iff. destruct H as [H|[H1 H2]]; [left|right]; apply Z.leb_gt; lia.
Qed.

Lemma merge_range_past seg guards r b g t id :
  guards !! b = Some g -> past seg g t id -> exists g', merge_range guards r !! b = Some g' /\ past seg g' t id.
Proof.
  intros Hg Hp. unfold merge_range. destruct (decide (branch_name_ r = b)) as [<-|Hne].
  - rewrite Hg. destruct (Z.ltb_spec (newest_term_ g) (term_ r)); [|destruct (Z.eqb_spec (term_ r) (newest_term_ g))].
    + rewrite lookup_insert_eq. eexists. split; [reflexivity|]. left. cbn. destruct Hp as [Hp|[-> _]]; lia.
    + rewrite lookup_insert_eq. eexists. split; [reflexivity|]. destruct Hp as [Hp|[-> Hp]]; [left; exact Hp|right].
      split; [reflexivity|]. destruct seg; cbn in *; lia.
    + eauto.
  - destruct (guards !! branch_name_ r); [|rewrite lookup_insert_ne by exact Hne; eauto].
    destruct (_ <? _); [rewrite lookup_insert_ne by exact Hne; eauto|].
    destruct (_ =? _); [rewrite lookup_insert_ne by exact Hne|]; eauto.
Qed.

Lemma merge_range_own seg guards r t id :
  past seg (range_guard r) t id -> exists g, merge_range guards r !! branch_name_ r = Some g /\ past seg g t id.
Proof.
  intros Hp. unfold merge_range. destruct (guards !! branch_name_ r) as [g|] eqn:Hg.
  - destruct (Z.ltb_spec (newest_term_ g) (term_ r)); [|destruct (Z.eqb_spec (term_ r) (newest_term_ g)) as [He|]].
    + rewrite lookup_insert_eq. eauto.
    + rewrite lookup_insert_eq. eexists. split; [reflexivity|]. destruct Hp as [Hp|[-> Hp]]; cbn in Hp; [left; cbn; lia|right].
      cbn. split; [exact He|]. destruct seg; cbn in *; lia.
    + exists g. split; [exact Hg|]. left. destruct Hp as [Hp|[-> _]]; cbn in *; lia.
  - rewrite lookup_insert_eq. eauto.
Qed.

Lemma merge_ranges_past seg rs b t id : forall guards g,
  guards !! b = Some g -> past seg g t id -> exists g', fold_left merge_range rs guards !! b = Some g' /\ past seg g' t id.
Proof.
  induction rs as [|r rs IH]; intros guards g Hg Hp; cbn [fold_left]; [eauto|].
  destruct (merge_range_past seg guards r b g t id Hg Hp) as (g' & Hg' & Hp'). exact (IH _ g' Hg' Hp').
Qed.

Lemma merge_ranges_own seg rs r t id : forall guards,
  r ∈ rs -> past seg (range_guard r) t id ->
  exists g, fold_left merge_range rs guards !! branch_name_ r = Some g /\ past seg g t id.
Proof.
  induction rs as [|r0 rs IH]; intros guards Hr Hp; [inversion Hr|]. cbn [fold_left]. apply elem_of_cons in Hr as [->|Hr].
  - destruct (merge_range_own seg guards r0 t id Hp) as (g & Hg & Hpg). exact (merge_ranges_past seg rs _ t id _ g Hg Hpg).
  - apply IH; assumption.
Qed.

(** What the guards say after the guards [ks] of branches have been merged: for
    each branch, the newest term and the highest boundary known for that term. *)
Definition merged (seg : bool) (ks : list (bytes * BranchGuard)) (guards : gmap bytes BranchGuard) : Prop :=
  forall b, match guards !! b with
            | Some g => exists k, (b, k) ∈ ks /\ newest_term_ k = newest_term_ g /\ least_unflushed seg k = least_unflushed seg g /\
                          forall k', (b, k') ∈ ks -> newest_term_ k' <= newest_term_ g
            | None => forall k, (b, k) ∉ ks
            end.

Lemma merged_insert seg ks guards b k g k0 :
  merged seg ks guards -> (b, k0) ∈ ks ++ [(b, k)] -> newest_term_ k0 = newest_term_ g ->
  least_unflushed seg k0 = least_unflushed seg g -> (forall k', (b, k') ∈ ks -> newest_term_ k' <= newest_term_ g) ->
  newest_term_ k <= newest_term_ g -> merged seg (ks ++ [(b, k)]) (<[b := g]> guards).
Proof.
  intros Hm Hk0 Ht Hl Hmax Hk b'. destruct (decide (b = b')) as [<-|Hne].
  - rewrite lookup_insert_eq. exists k0. split; [exact Hk0|]. split; [exact Ht|]. split; [exact Hl|].
    intros k' [Hk'|Hk']%elem_of_app; [exact (Hmax k' Hk')|]. apply list_elem_of_singleton in Hk'. injection Hk' as ->. exact Hk.
  - rewrite lookup_insert_ne by exact Hne. specialize (Hm b').
    assert (Hin : forall k', (b', k') ∈ ks ++ [(b, k)] <-> (b', k') ∈ ks).
    { intros k'. rewrite elem_of_app, list_elem_of_singleton. split; [intros [H|H]; [exact H|congruence]|auto]. }
    destruct (guards !! b') as [g'|].
    + destruct Hm as (k1 & Hk1 & H1 & H2 & H3). exists k1. split; [apply Hin, Hk1|]. split; [exact H1|]. split; [exact H2|].
      intros k' Hk'. apply H3, Hin, Hk'.
    + intros k' Hk'. exact (Hm k' (proj1 (Hin k') Hk')).
Qed.

Lemma merge_range_merged seg ks guards r :
  merged seg ks guards -> merged seg (ks ++ [(branch_name_ r, range_guard r)]) (merge_range guards r).
Proof.
  intros Hm. pose proof (Hm (branch_name_ r)) as Hr. unfold merge_range.
  assert (Hnew : (branch_name_ r, range_guard r) ∈ ks ++ [(branch_name_ r, range_guard r)]) by (apply elem_of_app; right; left).
  destruct (guards !! branch_name_ r) as [g|] eqn:Hg.
  - destruct Hr as (k & Hk & H1 & H2 & H3).
    assert (Hold : (branch_name_ r, k) ∈ ks ++ [(branch_name_ r, range_guard r)]) by (apply elem_of_app; left; exact Hk).
    destruct (Z.ltb_spec (newest_term_ g) (term_ r)) as [Hlt|Hge].
    + apply (merged_insert _ _ _ _ _ _ _ Hm Hnew); [reflexivity|destruct seg; reflexivity| |reflexivity].
      intros k' Hk'. specialize (H3 k' Hk'). cbn. lia.
    + destruct (Z.eqb_spec (term_ r) (newest_term_ g)) as [He|Hne].
      * destruct (Z.le_ge_cases (least_unflushed seg (range_guard r)) (least_unflushed seg g)) as [Hle|Hle].
        -- apply (merged_insert _ _ _ _ _ _ _ Hm Hold); [exact H1| |exact H3|cbn; lia]. rewrite H2. destruct seg; cbn in *; lia.
        -- apply (merged_insert _ _ _ _ _ _ _ Hm Hnew); [exact He| |exact H3|cbn; lia]. destruct seg; cbn in *; lia.
      * rewrite <- (insert_id guards (branch_name_ r) g Hg).
        apply (merged_insert _ _ _ _ _ _ _ Hm Hold); [exact H1|exact H2|exact H3|cbn; lia].
  - apply (merged_insert _ _ _ _ _ _ _ Hm Hnew); [reflexivity|destruct seg; reflexivity| |reflexivity].
    intros k' Hk'. destruct (Hr k' Hk').
Qed.

Lemma merge_ranges_merged seg rs : forall ks guards,
  merged seg ks guards ->
  merged seg (ks ++ map (fun r => (branch_name_ r, range_guard r)) rs) (fold_left merge_range rs guards).
Proof.
  induction rs as [|r rs IH]; intros ks guards Hm; cbn [fold_left map]; [rewrite app_nil_r; exact Hm|].
  rewrite cons_middle, app_assoc.
  apply IH, merge_range_merged, Hm.
Qed.

(** ** The pass over the manifests *)
Section pass.
  Context (hash : bytes -> Z) (page_align : Z) (h : Heap) (shift seg_shift : Z) (read : bytes -> KvError * bytes).

  Local Abbreviation Replay := (Replay hash page_align false).
  Local Abbreviation ProcessOneManifest := (ProcessOneManifest hash page_align h shift seg_shift).
  Local Abbreviation process_manifests := (process_manifests hash page_align h shift seg_shift read).
  Local Abbreviation process_archives := (process_archives hash page_align h shift seg_shift read).

Definition ranges_of (r : Replayer) : BranchFileMapping := bm_file_ranges (branch_metadata_ r).

Definition shift_of (seg : bool) : Z := if seg then seg_shift else shift.

Definition table_of (seg : bool) (r : Replayer) : MappingTbl := if seg then segment_mapping_tbl_ r else rp_mapping_tbl_ r.

(** A replayed manifest refers to file [k]. *)
Definition refers (seg : bool) (r : Replayer) (k : RetainedFileKey) : Prop :=
  tbl_refers h (table_of seg r) (ranges_of r) (shift_of seg) seg k.

Definition retained_of (seg : bool) (st : GcState) : gset RetainedFileKey :=
  if seg then retained_segment_files st else retained_files st.

(** The state after the manifests that replay to [rs]. *)
Definition absorbed (rs : list Replayer) (st st' : GcState) : Prop :=
  (forall seg k, k ∈ retained_of seg st' <-> k ∈ retained_of seg st \/ exists r, r ∈ rs /\ refers seg r k) /\
  branch_guards st' = fold_left merge_range (concat (map ranges_of rs)) (branch_guards st).

Lemma absorbed_nil st : absorbed [] st st.
Proof. split; [|reflexivity]. intros seg k. split; [auto|]. intros [H|(r & Hr & _)]; [exact H|inversion Hr]. Qed.

Lemma absorbed_app rs1 rs2 st st1 st2 : absorbed rs1 st st1 -> absorbed rs2 st1 st2 -> absorbed (rs1 ++ rs2) st st2.
Proof.
  intros [H1 G1] [H2 G2]. split.
  - intros seg k. rewrite H2, H1. setoid_rewrite elem_of_app. split.
    + intros [[H|(r & Hr & Hk)]|(r & Hr & Hk)]; eauto 6.
    + intros [H|(r & [Hr|Hr] & Hk)]; eauto 6.
  - rewrite G2, G1, map_app, concat_app, fold_left_app. reflexivity.
Qed.

Lemma ProcessOneManifest_spec buf st st' :
  ProcessOneManifest buf st = Some (NoError, st') -> exists r, Replay buf = Some (NoError, r) /\ absorbed [r] st st'.
Proof.
  unfold FileGc.ProcessOneManifest. intros H. destruct (Replay buf) as [[err r]|]; [|discriminate H].
  cbn [mbind option_bind] in H. destruct err; try discriminate H.
  destruct (GetRetainedFiles h (retained_files st) _ _ _ _) as [files|] eqn:Hf; [|discriminate H]. cbn [mbind option_bind] in H.
  destruct (GetRetainedFiles h (retained_segment_files st) _ _ _ _) as [segs|] eqn:Hs; [|discriminate H].
  injection H as <-. exists r. split; [reflexivity|]. split; [|cbn; rewrite app_nil_r; reflexivity].
  intros seg k. setoid_rewrite list_elem_of_singleton. unfold refers, ranges_of. destruct seg; cbn [retained_of table_of shift_of].
  - rewrite (GetRetainedFiles_spec _ _ _ _ _ _ _ Hs k). split; (intros [Hk|Hk]; [auto|right]); [eauto|destruct Hk as (r' & -> & Hk); exact Hk].
  - rewrite (GetRetainedFiles_spec _ _ _ _ _ _ _ Hf k). split; (intros [Hk|Hk]; [auto|right]); [eauto|destruct Hk as (r' & -> & Hk); exact Hk].
Qed.

(** The readable files among [names] replay to [rs]. *)
Definition replayed (names : list bytes) (rs : list Replayer) : Prop :=
  (forall name buf, name ∈ names -> read name = (NoError, buf) -> exists r, Replay buf = Some (NoError, r) /\ r ∈ rs) /\
  (forall r, r ∈ rs -> exists name buf, name ∈ names /\ read name = (NoError, buf) /\ Replay buf = Some (NoError, r)).

Lemma replayed_cons name names buf r rs :
  read name = (NoError, buf) -> Replay buf = Some (NoError, r) -> replayed names rs -> replayed (name :: names) (r :: rs).
Proof.
  intros Hn Hr [H1 H2]. split.
  - intros n b [->|Hin]%elem_of_cons Hb.
    + rewrite Hn in Hb. injection Hb as <-. exists r. split; [exact Hr|left].
    + destruct (H1 n b Hin Hb) as (r' & Hr' & Hin'). exists r'. split; [exact Hr'|right; exact Hin'].
  - intros r' [->|Hin]%elem_of_cons.
    + exists name, buf. split; [left|]. auto.
    + destruct (H2 r' Hin) as (n & b & Hn' & H). exists n, b. split; [right; exact Hn'|exact H].
Qed.

Lemma replayed_skip name names rs : fst (read name) <> NoError -> replayed names rs -> replayed (name :: names) rs.
Proof.
  intros Hn [H1 H2]. split.
  - intros n b [->|Hin]%elem_of_cons Hb; [destruct Hn; rewrite Hb; reflexivity|exact (H1 n b Hin Hb)].
  - intros r Hr. destruct (H2 r Hr) as (n & b & Hn' & H). exists n, b. split; [right; exact Hn'|exact H].
Qed.

Lemma replayed_app n1 n2 rs1 rs2 : replayed n1 rs1 -> replayed n2 rs2 -> replayed (n1 ++ n2) (rs1 ++ rs2).
Proof.
  intros [H1 H2] [H3 H4]. split.
  - intros n b [Hin|Hin]%elem_of_app Hb; [destruct (H1 n b Hin Hb) as (r & Hr & Hi)|destruct (H3 n b Hin Hb) as (r & Hr & Hi)];
      exists r; (split; [exact Hr|apply elem_of_app; auto]).
  - intros r [Hin|Hin]%elem_of_app; [destruct (H2 r Hin) as (n & b & Hi & H)|destruct (H4 r Hin) as (n & b & Hi & H)];
      exists n, b; (split; [apply elem_of_app; auto|exact H]).
Qed.

Definition manifest_name (m : bytes * Z) : bytes := BranchManifestFileName (fst m) (snd m).

Lemma process_manifests_spec ms : forall st st',
  process_manifests ms st = Some (NoError, st') -> exists rs, replayed (map manifest_name ms) rs /\ absorbed rs st st'.
Proof.
  induction ms as [|[b t] ms IH]; intros st st' H; cbn [FileGc.process_manifests] in H.
  { injection H as <-. exists []. split; [|apply absorbed_nil]. split; intros x; [intros ? Hx|intros Hx]; inversion Hx. }
  destruct (read (BranchManifestFileName b t)) as [err buf] eqn:Hr. destruct err; try discriminate H.
  - destruct (ProcessOneManifest buf st) as [[err st1]|] eqn:Hp; [|discriminate H]. cbn [mbind option_bind] in H.
    destruct err; try discriminate H. destruct (ProcessOneManifest_spec _ _ _ Hp) as (r & Hrep & Ha).
    destruct (IH _ _ H) as (rs & Hrs & Ha'). exists (r :: rs). split; [exact (replayed_cons _ _ _ _ _ Hr Hrep Hrs)|].
    exact (absorbed_app [r] rs _ _ _ Ha Ha').
  - destruct (IH _ _ H) as (rs & Hrs & Ha'). exists rs. split; [|exact Ha'].
    apply replayed_skip; [unfold manifest_name; cbn [fst snd]; rewrite Hr; discriminate|exact Hrs].
Qed.

Lemma process_archives_spec names : forall st st',
  process_archives names st = Some (NoError, st') -> exists rs, replayed names rs /\ absorbed rs st st'.
Proof.
  induction names as [|n names IH]; intros st st' H; cbn [FileGc.process_archives] in H.
  { injection H as <-. exists []. split; [|apply absorbed_nil]. split; intros x; [intros ? Hx|intros Hx]; inversion Hx. }
  destruct (read n) as [err buf] eqn:Hr. destruct err; try discriminate H.
  destruct (ProcessOneManifest buf st) as [[err st1]|] eqn:Hp; [|discriminate H]. cbn [mbind option_bind] in H.
  destruct err; try discriminate H. destruct (ProcessOneManifest_spec _ _ _ Hp) as (r & Hrep & Ha).
  destruct (IH _ _ H) as (rs & Hrs & Ha'). exists (r :: rs). split; [exact (replayed_cons _ _ _ _ _ Hr Hrep Hrs)|].
  exact (absorbed_app [r] rs _ _ _ Ha Ha').
Qed.

Lemma Augment_spec ms names st st' :
  AugmentRetainedFilesFromBranchManifests hash page_align h shift seg_shift read ms names st = Some (NoError, st') ->
  exists rs, replayed (map manifest_name ms ++ names) rs /\ absorbed rs st st'.
Proof.
  unfold AugmentRetainedFilesFromBranchManifests. intros H.
  destruct (process_manifests ms st) as [[err st1]|] eqn:Hm; [|discriminate H]. cbn [mbind option_bind] in H.
  destruct err; try discriminate H. destruct (process_manifests_spec _ _ _ Hm) as (rs1 & Hr1 & Ha1).
  destruct (process_archives_spec _ _ _ H) as (rs2 & Hr2 & Ha2). exists (rs1 ++ rs2).
  split; [apply replayed_app; assumption|exact (absorbed_app _ _ _ _ _ Ha1 Ha2)].
Qed.

(** A file that can be read and replayed, without dangling pointers. *)
Definition loads (name : bytes) : Prop :=
  exists buf r, read name = (NoError, buf) /\ Replay buf = Some (NoError, r) /\
    pointers_ok h (rp_mapping_tbl_ r) /\ pointers_ok h (segment_mapping_tbl_ r).

Lemma ProcessOneManifest_total buf r st :
  Replay buf = Some (NoError, r) -> pointers_ok h (rp_mapping_tbl_ r) -> pointers_ok h (segment_mapping_tbl_ r) ->
  exists st', ProcessOneManifest buf st = Some (NoError, st').
Proof.
  intros Hr H1 H2. unfold FileGc.ProcessOneManifest. rewrite Hr. cbn [mbind option_bind].
  destruct (GetRetainedFiles_total h (retained_files st) _ (bm_file_ranges (branch_metadata_ r)) shift false H1) as [? ->].
  cbn [mbind option_bind].
  destruct (GetRetainedFiles_total h (retained_segment_files st) _ (bm_file_ranges (branch_metadata_ r)) seg_shift true H2) as [? ->].
  cbn [mbind option_bind]. eauto.
Qed.

Lemma Augment_total ms names st :
  Forall (fun m => loads (manifest_name m) \/ fst (read (manifest_name m)) = NotFound) ms -> Forall loads names ->
  exists st', AugmentRetainedFilesFromBranchManifests hash page_align h shift seg_shift read ms names st = Some (NoError, st').
Proof.
  intros Hm Hn. unfold AugmentRetainedFilesFromBranchManifests.
  assert (H1 : exists st1, process_manifests ms st = Some (NoError, st1)).
  { revert st. induction Hm as [|[b t] ms Hm _ IH]; intros st; cbn [FileGc.process_manifests]; [eauto|].
    unfold manifest_name in Hm. cbn [fst snd] in Hm. destruct Hm as [(buf & r & -> & Hr & Hp1 & Hp2)|Hm].
    - destruct (ProcessOneManifest_total buf r st Hr Hp1 Hp2) as [st1 ->]. cbn [mbind option_bind]. apply IH.
    - destruct (read (BranchManifestFileName b t)) as [e buf]. cbn [fst] in Hm. subst e. apply IH. }
  destruct H1 as [st1 ->]. cbn [mbind option_bind]. clear Hm st. revert st1.
  induction Hn as [|n names (buf & r & Hb & Hr & Hp1 & Hp2) _ IH]; intros st; cbn [FileGc.process_archives]; [eauto|].
  rewrite Hb. destruct (ProcessOneManifest_total buf r st Hr Hp1 Hp2) as [st1 ->]. cbn [mbind option_bind]. apply IH.
Qed.
End pass.

(** ** Kinds of files *)
Definition file_type (name : bytes) : bytes := fst (ParseFileName name).

Lemma parse_manifest_type name x : parse_manifest name = Some x -> file_type name = FileNameManifest.
Proof.
  unfold parse_manifest, file_type. destruct (ParseFileName name) as [type s]. cbn [fst].
  destruct (decide (type = FileNameManifest)); [auto|]. rewrite bool_decide_false by assumption. discriminate.
Qed.

Lemma parse_manifest_parts name b t tag : parse_manifest name = Some (b, t, tag) -> ParseUint64 b = None /\ is_u64 t.
Proof.
  unfold parse_manifest, ParseManifestFileSuffix. destruct (ParseFileName name) as [type s]. destruct (bool_decide _); [|discriminate].
  destruct (cut FileNameSeparator s) as [[br rem]|]; [|discriminate]. cbn [mbind option_bind].
  destruct (negb _); [discriminate|]. destruct (ParseUint64 br) eqn:Hb; [discriminate|]. intros H.
  destruct (cut FileNameSeparator rem) as [[ts tg]|]; cbn [mbind option_bind] in H.
  - destruct (ParseUint64 ts) eqn:Ht; [|discriminate H]. cbn [mbind option_bind] in H. destruct (_ =? _); [discriminate H|].
    injection H as <- <- <-. split; [exact Hb|exact (ParseUint64_range _ _ Ht)].
  - destruct (ParseUint64 rem) eqn:Ht; [|discriminate H]. injection H as <- <- <-. split; [exact Hb|exact (ParseUint64_range _ _ Ht)].
Qed.

(** The name of a manifest holds the normalised name of the branch and the term. *)
Lemma manifest_name_parts b t b' t' :
  NormalizeBranchName b <> [] -> BranchManifestFileName b t = BranchManifestFileName b' t' ->
  NormalizeBranchName b = NormalizeBranchName b' /\ to_string t = to_string t'.
Proof.
  intros Hb He. unfold BranchManifestFileName in He. rewrite with_branch_valid in He by exact Hb.
  destruct (decide (NormalizeBranchName b' = [])) as [Hb'|Hb'].
  - unfold with_branch in He. rewrite Hb' in He. discriminate He.
  - rewrite with_branch_valid in He by exact Hb'. apply (f_equal ParseFileName) in He.
    rewrite !ParseFileName_join in He by no_sep. apply (f_equal snd) in He. cbn [snd] in He. rewrite !sep_join_cons, !sep_join_one in He.
    apply (f_equal (cut FileNameSeparator)) in He. rewrite !cut_app in He by apply branch_no_sep. injection He as He1 He2. auto.
Qed.

(** A manifest of a branch whose name reads as a number is not recognised. *)
Lemma numeric_manifest_unparsed b t v : ParseUint64 (NormalizeBranchName b) = Some v -> parse_manifest (BranchManifestFileName b t) = None.
Proof.
  intros Hv. assert (Hne : NormalizeBranchName b <> []) by (intros He; rewrite He in Hv; discriminate Hv).
  unfold BranchManifestFileName. rewrite with_branch_valid by exact Hne.
  rewrite parse_manifest_join by (apply branch_no_sep || apply normalize_valid, Hne). rewrite Hv. reflexivity.
Qed.

Lemma classify_cases name files :
  ClassifyFiles (name :: files) = ClassifyFiles files /\
    (ends_with name TmpSuffix = true \/ (file_type name = FileNameManifest /\ parse_manifest name = None) \/
     (file_type name <> FileNameManifest /\ file_type name <> FileNameData /\ file_type name <> FileNameSegment)) \/
  ends_with name TmpSuffix = false /\ let c := ClassifyFiles files in
    ((exists b t tag, parse_manifest name = Some (b, t, Some tag) /\ file_type name = FileNameManifest /\ ClassifyFiles (name :: files) =
        mkClassified (name :: cl_archive_files c) (tag :: cl_archive_tags c) (b :: cl_archive_branch_names c) (cl_data_files c)
          (cl_manifests c) (cl_segment_files c)) \/
     (exists b t, parse_manifest name = Some (b, t, None) /\ file_type name = FileNameManifest /\ ClassifyFiles (name :: files) =
        mkClassified (cl_archive_files c) (cl_archive_tags c) (cl_archive_branch_names c) (cl_data_files c)
          ((b, t) :: cl_manifests c) (cl_segment_files c)) \/
     (file_type name = FileNameData /\ ClassifyFiles (name :: files) =
        mkClassified (cl_archive_files c) (cl_archive_tags c) (cl_archive_branch_names c) (name :: cl_data_files c)
          (cl_manifests c) (cl_segment_files c)) \/
     (file_type name = FileNameSegment /\ ClassifyFiles (name :: files) =
        mkClassified (cl_archive_files c) (cl_archive_tags c) (cl_archive_branch_names c) (cl_data_files c)
          (cl_manifests c) (name :: cl_segment_files c))).
Proof.
  unfold file_type, parse_manifest. cbn [ClassifyFiles]. destruct (ParseFileName name) as [type suffix]. cbn [fst].
  destruct (ends_with name TmpSuffix); [left; auto|].
  destruct (decide (type = FileNameManifest)) as [->|H1].
  { rewrite bool_decide_true by reflexivity. destruct (ParseManifestFileSuffix suffix) as [[[b t] [tag|]]|]; [right|right|left]; eauto 10. }
  rewrite (bool_decide_false _ H1).
  destruct (decide (type = FileNameData)) as [->|H2]; [right; rewrite bool_decide_true by reflexivity; eauto 10|].
  rewrite (bool_decide_false _ H2).
  destruct (decide (type = FileNameSegment)) as [->|H3]; [right; rewrite bool_decide_true by reflexivity; eauto 10|].
  rewrite (bool_decide_false _ H3). left. eauto 10.
Qed.

Definition kind_name (seg : bool) : bytes := if seg then FileNameSegment else FileNameData.

Definition files_of (seg : bool) (c : Classified) : list bytes := if seg then cl_segment_files c else cl_data_files c.

Lemma classified_files seg files name :
  name ∈ files_of seg (ClassifyFiles files) <-> name ∈ files /\ ends_with name TmpSuffix = false /\ file_type name = kind_name seg.
Proof.
  assert (Hd : FileNameData <> FileNameSegment /\ FileNameManifest <> FileNameData /\ FileNameManifest <> FileNameSegment)
    by (split; [|split]; discriminate). destruct Hd as (Hd1 & Hd2 & Hd3).
  induction files as [|n files IH]; [split; [destruct seg; cbn; intros H; inversion H|intros [H _]; inversion H]|].
  rewrite elem_of_cons. destruct (classify_cases n files) as [[-> Hc]|[Ht Hc]].
  - rewrite IH. split; [intuition|]. intros ([->|H] & H1 & H2); [|auto].
    destruct seg; cbn [kind_name] in H2; destruct Hc as [Hc|[[Hc _]|(H3 & H4 & H5)]]; congruence.
  - cbv zeta in Hc. destruct Hc as [(b & t & tag & _ & Hn & ->)|[(b & t & _ & Hn & ->)|[[Hn ->]|[Hn ->]]]];
      destruct seg; cbn [files_of cl_segment_files cl_data_files kind_name] in *; rewrite ?elem_of_cons, IH;
      (split; [intros H|intros ([->|H] & H1 & H2)]); try (destruct H as [->|H]); intuition congruence.
Qed.

Lemma classified_archives files name :
  name ∈ cl_archive_files (ClassifyFiles files) <->
  name ∈ files /\ ends_with name TmpSuffix = false /\ exists b t tag, parse_manifest name = Some (b, t, Some tag).
Proof.
  induction files as [|n files IH]; [split; [cbn; intros H; inversion H|intros [H _]; inversion H]|].
  rewrite elem_of_cons. pose proof (parse_manifest_type n) as Hm.
  destruct (classify_cases n files) as [[-> Hc]|[Ht Hc]].
  - rewrite IH. split; [intuition|]. intros ([->|H] & H1 & H2); [|auto]. destruct H2 as (b & t & tag & H2).
    specialize (Hm _ H2). destruct Hc as [Hc|[[_ Hc]|(H3 & _)]]; congruence.
  - assert (Hold : cl_archive_files (ClassifyFiles (n :: files)) = cl_archive_files (ClassifyFiles files) ->
      (forall b t tag, parse_manifest n <> Some (b, t, Some tag)) ->
      name ∈ cl_archive_files (ClassifyFiles (n :: files)) <-> (name = n \/ name ∈ files) /\ ends_with name TmpSuffix = false /\
        exists b t tag, parse_manifest name = Some (b, t, Some tag)).
    { intros -> Hno. rewrite IH. split; [intuition|]. intros ([->|H] & H1 & (b & t & tag & H2)); [destruct (Hno _ _ _ H2)|eauto 6]. }
    cbv zeta in Hc. destruct Hc as [(b & t & tag & Hp & Hn & He)|[(b & t & Hp & Hn & He)|[[Hn He]|[Hn He]]]].
    + rewrite He. cbn [cl_archive_files]. rewrite elem_of_cons, IH. split.
      * intros [->|(H & H1 & H2)]; [eauto 8|auto].
      * intros ([->|H] & H'); auto.
    + apply Hold; [rewrite He; reflexivity|]. intros b0 t0 tag0 H. congruence.
    + apply Hold; [rewrite He; reflexivity|]. intros b0 t0 tag0 H. specialize (Hm _ H). rewrite Hn in Hm. discriminate.
    + apply Hold; [rewrite He; reflexivity|]. intros b0 t0 tag0 H. specialize (Hm _ H). rewrite Hn in Hm. discriminate.
Qed.

Lemma classified_manifests files b t :
  (b, t) ∈ cl_manifests (ClassifyFiles files) <->
  exists name, name ∈ files /\ ends_with name TmpSuffix = false /\ parse_manifest name = Some (b, t, None).
Proof.
  induction files as [|n files IH]; [split; [cbn; intros H; inversion H|intros (? & H & _); inversion H]|].
  pose proof (parse_manifest_type n) as Hm.
  setoid_rewrite elem_of_cons.
  destruct (classify_cases n files) as [[-> Hc]|[Ht Hc]].
  - rewrite IH. split; [intros (x & H & H'); eauto|]. intros (x & [->|H] & H1 & H2); [|eauto].
    specialize (Hm _ H2). destruct Hc as [Hc|[[_ Hc]|(H3 & _)]]; congruence.
  - cbv zeta in Hc. destruct Hc as [(b' & t' & tag & Hp & Hn & ->)|[(b' & t' & Hp & Hn & ->)|[[Hn ->]|[Hn ->]]]];
      cbn [cl_manifests]; rewrite ?elem_of_cons, IH.
    + split; [intros (x & H & H'); eauto|]. intros (x & [->|H] & H1 & H2); [congruence|eauto].
    + split.
      * intros [H|(x & H & H')]; [injection H as -> ->; eauto|eauto].
      * intros (x & [->|H] & H1 & H2); [left; congruence|eauto].
    + split; [intros (x & H & H'); eauto|]. intros (x & [->|H] & H1 & H2); [pose proof (Hm _ H2) as Hm2; rewrite Hn in Hm2; discriminate Hm2|eauto].
    + split; [intros (x & H & H'); eauto|]. intros (x & [->|H] & H1 & H2); [pose proof (Hm _ H2) as Hm2; rewrite Hn in Hm2; discriminate Hm2|eauto].
Qed.

(** ** Collecting *)
Definition file_name (seg : bool) (id : Z) (b : bytes) (t : Z) : bytes :=
  if seg then SegmentFileName id b t else BranchDataFileName id b t.

Lemma parse_file_name seg id b t :
  is_u64 id -> is_u64 t -> NormalizeBranchName b = b -> b <> [] -> parse_file seg (file_name seg id b t) = Some (id, b, t).
Proof.
  intros Hid Ht Hb Hne. assert (Hn : NormalizeBranchName b <> []) by congruence.
  unfold parse_file, file_name, SegmentFileName, BranchDataFileName.
  destruct seg; rewrite with_branch_valid, ParseFileName_join, bool_decide_true by (reflexivity || no_sep || exact Hn);
    [unfold ParseSegmentFileSuffix|]; rewrite data_suffix_roundtrip by assumption; rewrite Hb; reflexivity.
Qed.

Lemma parse_file_type seg name x : parse_file seg name = Some x -> file_type name = kind_name seg.
Proof.
  unfold parse_file, file_type, kind_name. destruct (ParseFileName name) as [type s]. cbn [fst].
  destruct (decide (type = if seg then FileNameSegment else FileNameData)); [auto|].
  rewrite bool_decide_false by assumption. discriminate.
Qed.

Section collect.
  Context (hash : bytes -> Z) (page_align : Z) (h : Heap) (shift seg_shift : Z) (read : bytes -> KvError * bytes).
  Context (dir : list bytes) (delete : list bytes -> KvError) (active : bytes) (process_term : Z) (entry : option RootMeta).
  Context (retained retained_segments : gset RetainedFileKey).

  Local Abbreviation Replay := (Replay hash page_align false).
  Local Abbreviation local_gc := (ExecuteLocalGC hash page_align h shift seg_shift dir read delete active process_term entry retained retained_segments).
  Local Abbreviation refers := (refers h shift seg_shift).

(** The files that the collector reads. *)
Definition gc_reads : list bytes :=
  let c := ClassifyFiles (ListLocalFiles dir) in map manifest_name (cl_manifests c) ++ cl_archive_files c.

(** A manifest under its proper name, or an archive. *)
Definition live_manifest (name : bytes) : Prop :=
  name ∈ dir /\ ends_with name TmpSuffix = false /\
  ((exists b t, parse_manifest name = Some (b, t, None) /\ name = BranchManifestFileName b t) \/
   exists b t tag, parse_manifest name = Some (b, t, Some tag)).

Lemma listed name : name ∈ ListLocalFiles dir <-> name ∈ dir /\ ends_with name TmpSuffix = false.
Proof.
  unfold ListLocalFiles. rewrite list_elem_of_In, filter_In, <- list_elem_of_In, negb_true_iff. reflexivity.
Qed.

Lemma live_manifest_read name : live_manifest name -> name ∈ gc_reads.
Proof.
  intros (Hd & Ht & Hm). unfold gc_reads. cbv zeta. apply elem_of_app. destruct Hm as [(b & t & Hp & Hn)|Hp].
  - left. apply list_elem_of_fmap. exists (b, t). split; [exact Hn|]. apply classified_manifests. exists name.
    rewrite listed. auto.
  - right. apply classified_archives. rewrite listed. auto.
Qed.

Lemma numeric_manifest_unread b t v : ParseUint64 (NormalizeBranchName b) = Some v -> BranchManifestFileName b t ∉ gc_reads.
Proof.
  intros Hv. assert (Hne : NormalizeBranchName b <> []) by (intros He; rewrite He in Hv; discriminate Hv).
  unfold gc_reads. cbv zeta. intros [([b' t'] & He & Hm)%list_elem_of_fmap|Ha]%elem_of_app.
  - apply manifest_name_parts in He as [He _]; [|exact Hne]. cbn [fst] in He. rewrite He in Hv.
    apply classified_manifests in Hm as (name & _ & _ & Hp). apply parse_manifest_parts in Hp as [Hp _].
    pose proof (normalize_number b' v Hv) as Hid. rewrite Hid, Hp in Hv. discriminate Hv.
  - apply classified_archives in Ha as (_ & _ & b' & t' & tag & Hp). rewrite (numeric_manifest_unparsed b t v Hv) in Hp. discriminate Hp.
Qed.

(** Somebody uses the file: a living snapshot, a manifest or an archive. *)
Definition referenced (seg : bool) (k : RetainedFileKey) : Prop :=
  k ∈ (if seg then retained_segments else retained) \/
  exists name buf r, name ∈ gc_reads /\ read name = (NoError, buf) /\ Replay buf = Some (NoError, r) /\ refers seg r k.

Definition seed_guard (meta : RootMeta) : BranchGuard :=
  mkGuard process_term (Z.shiftr (rm_first_unflushed_fp_id_ meta) shift) (Z.shiftr (rm_first_unflushed_seg_fp_id_ meta) seg_shift).

(** A manifest that is read has [range]. *)
Definition recorded (range : BranchFileRange) : Prop :=
  exists name buf r, name ∈ gc_reads /\ read name = (NoError, buf) /\ Replay buf = Some (NoError, r) /\ range ∈ ranges_of r.

(** What is known of how far branch [b] has got: the boundary of the last flush in
    memory, for the active branch, and the ranges of the manifests. *)
Definition known_guard (b : bytes) (g : BranchGuard) : Prop :=
  (exists meta, entry = Some meta /\ b = active /\ g = seed_guard meta) \/
  (exists range, recorded range /\ branch_name_ range = b /\ g = range_guard range).

(** A file that its branch may still be writing: it is at or above the boundaries
    that are known for the newest known term of the branch.  When nothing is known
    of a branch, its files count as being written unless the branch is active. *)
Definition in_flight (seg : bool) (b : bytes) (t id : Z) : Prop :=
  (b = active -> exists g, known_guard b g) /\
  forall g, known_guard b g -> (forall g', known_guard b g' -> newest_term_ g' <= newest_term_ g) ->
    newest_term_ g <= t /\ least_unflushed seg g <= id.

(** The branch has gone on to a later term or file. *)
Definition left_behind (seg : bool) (b : bytes) (t id : Z) : Prop :=
  (exists meta, entry = Some meta /\ b = active /\ past seg (seed_guard meta) t id) \/
  (exists range, recorded range /\ branch_name_ range = b /\ past seg (range_guard range) t id).

(** The state of the collector after the manifests. *)
Definition collected (st : GcState) : Prop :=
  (forall seg k, k ∈ retained_of seg st <-> referenced seg k) /\
  exists rs, (forall r range, r ∈ rs -> range ∈ ranges_of r -> recorded range) /\
    (forall range, recorded range -> range ∈ concat (map ranges_of rs)) /\
    branch_guards st = fold_left merge_range (concat (map ranges_of rs))
      (match entry with Some meta => {[active := seed_guard meta]} | None => ∅ end).

Lemma Seed_eq :
  SeedActiveBranchGuardFromInMemory entry active process_term shift seg_shift ∅ =
  match entry with Some meta => {[active := seed_guard meta]} | None => ∅ end.
Proof. unfold SeedActiveBranchGuardFromInMemory. destruct entry; [rewrite lookup_empty|]; reflexivity. Qed.

Lemma ranges_in rs range : range ∈ concat (map ranges_of rs) <-> exists r, r ∈ rs /\ range ∈ ranges_of r.
Proof.
  rewrite list_elem_of_In, in_concat. setoid_rewrite in_map_iff. setoid_rewrite list_elem_of_In.
  split; [intros (l & (r & <- & Hr) & Hl); eauto|intros (r & Hr & Hl); eauto 6].
Qed.

Lemma Augment_collected st :
  let c := ClassifyFiles (ListLocalFiles dir) in
  AugmentRetainedFilesFromBranchManifests hash page_align h shift seg_shift read (cl_manifests c) (cl_archive_files c)
    (mkGc retained retained_segments (SeedActiveBranchGuardFromInMemory entry active process_term shift seg_shift ∅)) =
    Some (NoError, st) -> collected st.
Proof.
  cbv zeta. intros H. destruct (Augment_spec _ _ _ _ _ _ _ _ _ _ H) as (rs & [Hr1 Hr2] & Ha & Hg).
  fold gc_reads in Hr1, Hr2. split.
  - intros seg k. rewrite Ha. unfold referenced. cbn [retained_of retained_files retained_segment_files].
    replace (retained_of seg _) with (if seg then retained_segments else retained) by (destruct seg; reflexivity).
    split; (intros [Hk|Hk]; [auto|right]).
    + destruct Hk as (r & Hr & Hk). destruct (Hr2 r Hr) as (n & b & Hn & Hb & Hrep). eauto 8.
    + destruct Hk as (n & b & r & Hn & Hb & Hrep & Hk). destruct (Hr1 n b Hn Hb) as (r' & Hr' & Hin).
      assert (r' = r) as -> by congruence. eauto.
  - exists rs. split; [|split; [|rewrite Hg, <- Seed_eq; reflexivity]].
    + intros r range Hr Hin. destruct (Hr2 r Hr) as (n & b & Hn & Hb & Hrep). exists n, b, r. auto.
    + intros range (n & b & r & Hn & Hb & Hrep & Hin). apply ranges_in. destruct (Hr1 n b Hn Hb) as (r' & Hr' & Hin').
      assert (r' = r) as -> by congruence. eauto.
Qed.

(** The merged guards are the known ones of the newest term of each branch. *)
Lemma collected_guards st seg : collected st -> exists ks, (forall b g, (b, g) ∈ ks <-> known_guard b g) /\ merged seg ks (branch_guards st).
Proof.
  intros [_ (rs & Hrs & Hrs' & Hg)]. rewrite Hg.
  exists (match entry with Some meta => [(active, seed_guard meta)] | None => [] end ++
    map (fun r => (branch_name_ r, range_guard r)) (concat (map ranges_of rs))). split.
  - intros b g. unfold known_guard. rewrite elem_of_app. apply Morphisms_Prop.or_iff_morphism.
    + destruct entry as [meta|].
      * rewrite list_elem_of_singleton. split; [intros [= -> ->]; eauto|intros (m & [= <-] & -> & ->); reflexivity].
      * split; [intros H; inversion H|intros (m & [=] & _)].
    + rewrite list_elem_of_fmap. split.
      * intros (range & [= -> ->] & (r & Hr & Hin)%ranges_in). exists range. split; [exact (Hrs r range Hr Hin)|auto].
      * intros (range & Hr & <- & ->). exists range. split; [reflexivity|exact (Hrs' range Hr)].
  - apply merge_ranges_merged. intros b. destruct entry as [meta|].
    + destruct (decide (active = b)) as [<-|Hne].
      * rewrite lookup_singleton_eq. exists (seed_guard meta). split; [left|]. split; [reflexivity|]. split; [reflexivity|].
        intros k' [= ->]%list_elem_of_singleton. reflexivity.
      * rewrite lookup_singleton_ne by exact Hne. intros k [= -> _]%list_elem_of_singleton. congruence.
    + rewrite lookup_empty. intros k Hk. inversion Hk.
Qed.

Lemma in_flight_kept st seg b t id :
  collected st -> in_flight seg b t id ->
  match branch_guards st !! b with
  | Some g => (newest_term_ g <=? t) && (least_unflushed seg g <=? id) = true
  | None => b <> active
  end.
Proof.
  intros Hc [Ha Hf]. destruct (collected_guards st seg Hc) as (ks & Hks & Hm). specialize (Hm b).
  destruct (branch_guards st !! b) as [g|].
  - destruct Hm as (k & Hk & H1 & H2 & H3). rewrite Hks in Hk. rewrite <- H1, <- H2, andb_true_iff, !Z.leb_le. apply (Hf k Hk).
    intros k' Hk'. rewrite H1. apply H3, Hks, Hk'.
  - intros He. destruct (Ha He) as [g Hg]. exact (Hm g (proj2 (Hks b g) Hg)).
Qed.

Lemma left_behind_guard st seg b t id :
  collected st -> left_behind seg b t id -> exists g, branch_guards st !! b = Some g /\ past seg g t id.
Proof.
  intros [_ (rs & _ & Hrs & Hg)] [(meta & He & -> & Hp)|(range & Hr & <- & Hp)]; rewrite Hg.
  - rewrite He. eapply merge_ranges_past; [apply lookup_singleton_eq|exact Hp].
  - apply merge_ranges_own; [exact (Hrs range Hr)|exact Hp].
Qed.

Lemma kept st seg id b t :
  collected st -> referenced seg (mkKey id b t) \/ in_flight seg b t id ->
  forall name, parse_file seg name = Some (id, b, t) -> unreferenced seg active (retained_of seg st) (branch_guards st) name = false.
Proof.
  intros Hc Hk name Hp. unfold unreferenced. rewrite Hp. destruct Hk as [Hk|Hk].
  - rewrite bool_decide_true; [reflexivity|]. apply Hc, Hk.
  - destruct (bool_decide _); [reflexivity|]. pose proof (in_flight_kept st seg b t id Hc Hk) as Hg.
    destruct (branch_guards st !! b); [rewrite Hg; reflexivity|apply bool_decide_false, Hg].
Qed.

Lemma reclaimed st seg id b t :
  collected st -> ~ referenced seg (mkKey id b t) -> left_behind seg b t id ->
  forall name, parse_file seg name = Some (id, b, t) -> unreferenced seg active (retained_of seg st) (branch_guards st) name = true.
Proof.
  intros Hc Hk Hl name Hp. unfold unreferenced. rewrite Hp. rewrite bool_decide_false by (rewrite (proj1 Hc); exact Hk).
  destruct (left_behind_guard st seg b t id Hc Hl) as (g & -> & Hg). rewrite (past_not_in_flight _ _ _ _ Hg). reflexivity.
Qed.

Lemma delete_local_files seg ret guards files name :
  name ∈ snd (delete_local delete seg active ret guards files) <-> name ∈ files /\ unreferenced seg active ret guards name = true.
Proof.
  transitivity (name ∈ List.filter (unreferenced seg active ret guards) files).
  - unfold delete_local. destruct (List.filter _ _); reflexivity.
  - rewrite !list_elem_of_In. apply filter_In.
Qed.

(** A deleted file is of the right kind, in the directory, and unreferenced. *)
Lemma local_gc_deleted err (files segments : list bytes) (seg : bool) (name : bytes) :
  local_gc = Some (err, files, segments) -> name ∈ (if seg then segments else files) ->
  exists st, collected st /\ name ∈ dir /\ is_Some (parse_file seg name) /\
    unreferenced seg active (retained_of seg st) (branch_guards st) name = true.
Proof.
  intros H Hin. unfold ExecuteLocalGC in H. cbv zeta in H.
  match type of H with context [mbind _ ?x] => destruct x as [[e st]|] eqn:Ha end; [|discriminate H]. cbn [mbind option_bind] in H.
  assert (Hfail : Some (e, @nil bytes, @nil bytes) = Some (err, files, segments) -> False)
    by (intros Hx; injection Hx as _ <- <-; destruct seg; inversion Hin).
  destruct e; try (destruct (Hfail H); fail). clear Hfail. exists st. split; [exact (Augment_collected st Ha)|].
  assert (Hdel : name ∈ snd (delete_local delete seg active (retained_of seg st) (branch_guards st)
      (files_of seg (ClassifyFiles (ListLocalFiles dir))))).
  { destruct (delete_local delete false _ _ _ _) as [e1 fs] eqn:Hd1. destruct (delete_local delete true _ _ _ _) as [e2 ss] eqn:Hd2.
    assert (Hcase : files = fs /\ (segments = ss \/ segments = [])) by (destruct e1; injection H as <- <- <-; auto).
    destruct Hcase as [-> Hs]. destruct seg; cbn [files_of retained_of]; [rewrite Hd2|rewrite Hd1; exact Hin].
    destruct Hs as [->| ->]; [exact Hin|inversion Hin]. }
  apply delete_local_files in Hdel as [Hf Hu]. split; [|split; [|exact Hu]].
  - apply classified_files in Hf as [Hl _]. apply listed in Hl. apply Hl.
  - unfold unreferenced in Hu. destruct (parse_file seg name); [eauto|discriminate Hu].
Qed.

(** Nothing but data and segment files is deleted, and none that is in use or
    being written. *)
Lemma local_gc_safe err files segments :
  local_gc = Some (err, files, segments) ->
  (forall name, name ∈ files ++ segments -> name ∈ dir /\ parse_manifest name = None) /\
  (forall seg name id b t, parse_file seg name = Some (id, b, t) ->
     referenced seg (mkKey id b t) \/ in_flight seg b t id -> name ∉ files ++ segments).
Proof.
  intros H.
  assert (Hdel : forall name, name ∈ files ++ segments -> exists seg : bool, name ∈ (if seg then segments else files))
    by (intros name [Hn|Hn]%elem_of_app; [exists false|exists true]; exact Hn).
  split.
  - intros name [seg Hn]%Hdel. destruct (local_gc_deleted _ _ _ _ _ H Hn) as (st & _ & Hd & [x Hp] & _). split; [exact Hd|].
    destruct (parse_manifest name) eqn:Hm; [|reflexivity]. apply parse_manifest_type in Hm. apply parse_file_type in Hp.
    rewrite Hp in Hm. destruct seg; discriminate Hm.
  - intros seg name id b t Hp Hk [seg' Hn]%Hdel.
    destruct (local_gc_deleted _ _ _ _ _ H Hn) as (st & Hc & _ & [x Hp'] & Hu).
    assert (seg' = seg) as ->.
    { apply parse_file_type in Hp'. apply parse_file_type in Hp. rewrite Hp in Hp'. destruct seg, seg'; auto; discriminate Hp'. }
    rewrite (kept st seg id b t Hc Hk _ Hp) in Hu. discriminate Hu.
Qed.

(** A collection without errors deletes exactly the unreferenced files. *)
Lemma local_gc_done files segments :
  local_gc = Some (NoError, files, segments) ->
  exists st, collected st /\ forall (seg : bool) name, name ∈ (if seg then segments else files) <->
    name ∈ dir /\ ends_with name TmpSuffix = false /\ unreferenced seg active (retained_of seg st) (branch_guards st) name = true.
Proof.
  intros H. unfold ExecuteLocalGC in H. cbv zeta in H.
  match type of H with context [mbind _ ?x] => destruct x as [[e st]|] eqn:Ha end; [|discriminate H]. cbn [mbind option_bind] in H.
  destruct e; try discriminate H. exists st. split; [exact (Augment_collected st Ha)|]. intros seg name.
  assert (Hl : name ∈ (if seg then segments else files) <->
    name ∈ snd (delete_local delete seg active (retained_of seg st) (branch_guards st) (files_of seg (ClassifyFiles (ListLocalFiles dir))))).
  { destruct (delete_local delete false _ _ _ _) as [e1 fs] eqn:Hd1. destruct e1; try discriminate H.
    destruct (delete_local delete true _ _ _ _) as [e2 ss] eqn:Hd2. injection H as -> <- <-.
    destruct seg; cbn [retained_of files_of]; [rewrite Hd2|rewrite Hd1]; reflexivity. }
  rewrite Hl, delete_local_files, classified_files, listed. split; [intuition|]. intros (H1 & H2 & Hu). split; [|exact Hu].
  split; [auto|]. split; [exact H2|]. unfold unreferenced in Hu. destruct (parse_file seg name) eqn:Hp; [exact (parse_file_type _ _ _ Hp)|discriminate Hu].
Qed.

Lemma local_gc_reclaims files segments (seg : bool) name id b t :
  local_gc = Some (NoError, files, segments) -> name ∈ dir -> ends_with name TmpSuffix = false -> parse_file seg name = Some (id, b, t) ->
  ~ referenced seg (mkKey id b t) -> left_behind seg b t id -> name ∈ (if seg then segments else files).
Proof.
  intros H Hd Ht Hp Hk Hl. destruct (local_gc_done _ _ H) as (st & Hc & Hdel). apply Hdel.
  split; [exact Hd|]. split; [exact Ht|exact (reclaimed st seg id b t Hc Hk Hl name Hp)].
Qed.

(** C18: Garbage is collected.  When the manifests can be read and replayed and
    deleting succeeds, the collector deletes every data and segment file that no
    snapshot, manifest or archive refers to and whose branch has gone on to a
    later term or file, according to the metadata in memory or to a manifest. *)
Theorem gc_reclaims_garbage :
  let c := ClassifyFiles (ListLocalFiles dir) in
  let loads := loads hash page_align h read in
  (forall files, delete files = NoError) ->
  Forall (fun m => loads (manifest_name m) \/ fst (read (manifest_name m)) = NotFound) (cl_manifests c) ->
  Forall loads (cl_archive_files c) ->
  exists files segments, local_gc = Some (NoError, files, segments) /\
    forall (seg : bool) name id b t, name ∈ dir -> ends_with name TmpSuffix = false -> parse_file seg name = Some (id, b, t) ->
      ~ referenced seg (mkKey id b t) -> left_behind seg b t id -> name ∈ (if seg then segments else files).
Proof.
  intros c loads Hdel Hm Ha.
  destruct (Augment_total hash page_align h shift seg_shift read _ _
    (mkGc retained retained_segments (SeedActiveBranchGuardFromInMemory entry active process_term shift seg_shift ∅)) Hm Ha) as [st Hst].
  assert (Hno : forall seg ret guards files, exists fs, delete_local delete seg active ret guards files = (NoError, fs))
    by (intros; unfold delete_local; destruct (List.filter _ _); rewrite ?Hdel; eauto).
  assert (Hgc : exists files segments, local_gc = Some (NoError, files, segments)).
  { unfold ExecuteLocalGC. cbv zeta. fold c. rewrite Hst. cbn [mbind option_bind].
    edestruct (Hno false) as [fs ->]. edestruct (Hno true) as [ss ->]. eauto. }
  destruct Hgc as (files & segments & Hgc). exists files, segments. split; [exact Hgc|].
  intros seg name id b t. exact (local_gc_reclaims files segments seg name id b t Hgc).
Qed.
End collect.

(** ** The collection of a compaction *)
Lemma BuildRetainedFiles_spec h snapshots ranges shift seg : forall keys keys',
  BuildRetainedFiles h snapshots ranges shift seg keys = Some keys' ->
  forall k, k ∈ keys' <-> k ∈ keys \/ exists tbl, tbl ∈ snapshots /\ tbl_refers h tbl ranges shift seg k.
Proof.
  induction snapshots as [|tbl snapshots IH]; intros keys keys' H k; cbn [BuildRetainedFiles] in H.
  { injection H as <-. split; [auto|]. intros [Hk|(tbl & Ht & _)]; [exact Hk|inversion Ht]. }
  destruct (GetRetainedFiles h keys tbl ranges shift seg) as [k1|] eqn:Hk1; [|discriminate H]. cbn [mbind option_bind] in H.
  rewrite (IH _ _ H k), (GetRetainedFiles_spec _ _ _ _ _ _ _ Hk1 k). setoid_rewrite elem_of_cons. split.
  - intros [[Hk|Hk]|(t & Ht & Hk)]; eauto.
  - intros [Hk|(t & [->|Ht] & Hk)]; eauto.
Qed.

Section trigger.
  Context (hash : bytes -> Z) (page_align : Z) (h : Heap) (shift seg_shift : Z) (read : bytes -> KvError * bytes).
  Context (dir : list bytes) (delete : list bytes -> KvError) (active : bytes) (process_term : Z) (entry : option RootMeta).
  Context (living : LivingSnapshots) (ranges : BranchFileMapping).

  Local Abbreviation trigger := (TriggerFileGC hash page_align h shift seg_shift dir read delete active process_term entry living ranges).
  Local Abbreviation trigger_local :=
    (TriggerLocalFileGC hash page_align h shift seg_shift dir read delete active process_term entry living ranges).
  Local Abbreviation in_flight := (in_flight hash page_align shift seg_shift read dir active process_term entry).
  Local Abbreviation left_behind := (left_behind hash page_align shift seg_shift read dir active process_term entry).

(** A living snapshot maps something in file [k]. *)
Definition snapshot_refers (seg : bool) (k : RetainedFileKey) : Prop :=
  exists tbl, tbl ∈ snapshots_of seg living /\ tbl_refers h tbl ranges (shift_of shift seg_shift seg) seg k.

(** The manifest or archive [name] maps something in file [k]. *)
Definition manifest_refers (name : bytes) (seg : bool) (k : RetainedFileKey) : Prop :=
  exists buf r, read name = (NoError, buf) /\ Replay hash page_align false buf = Some (NoError, r) /\ refers h shift seg_shift seg r k.

Lemma referenced_iff retained retained_segments seg k :
  referenced hash page_align h shift seg_shift read dir retained retained_segments seg k <->
  k ∈ (if seg then retained_segments else retained) \/ exists name, name ∈ gc_reads dir /\ manifest_refers name seg k.
Proof.
  unfold referenced, manifest_refers. split; (intros [H|H]; [auto|right]).
  - destruct H as (n & b & r & Hn & H). eauto.
  - destruct H as (n & Hn & b & r & H). eauto.
Qed.

Lemma trigger_gc res :
  trigger = Some res -> exists retained retained_segments,
    ExecuteLocalGC hash page_align h shift seg_shift dir read delete active process_term entry retained retained_segments = Some res /\
    forall (seg : bool) k, k ∈ (if seg then retained_segments else retained) <-> snapshot_refers seg k.
Proof.
  unfold TriggerFileGC. intros H.
  destruct (BuildRetainedFiles h _ ranges shift false ∅) as [ret|] eqn:H1; [|discriminate H]. cbn [mbind option_bind] in H.
  destruct (BuildRetainedFiles h _ ranges seg_shift true ∅) as [ret_seg|] eqn:H2; [|discriminate H].
  exists ret, ret_seg. split; [exact H|]. intros [] k;
    [rewrite (BuildRetainedFiles_spec _ _ _ _ _ _ _ H2 k)|rewrite (BuildRetainedFiles_spec _ _ _ _ _ _ _ H1 k)];
    (split; [intros [Hk|Hk]; [apply elem_of_empty in Hk as []|exact Hk]|right; assumption]).
Qed.

Lemma trigger_local_gc res :
  trigger_local = Some res -> exists retained,
    ExecuteLocalGC hash page_align h shift seg_shift dir read delete active process_term entry retained ∅ = Some res.
Proof.
  unfold TriggerLocalFileGC. intros H.
  destruct (BuildRetainedFiles h _ ranges shift false ∅) as [ret|]; [|discriminate H]. exists ret. exact H.
Qed.

(** C16: Garbage collection keeps what is in use.  Whatever the outcome of the
    collection that follows a compaction, it deletes only data and segment files
    of the directory.  It keeps every file that holds a page or a segment which a
    living snapshot maps, or which an archive or a manifest maps whose name the
    collector recognises; the manifest of a branch whose name reads as a number is
    not recognised.  It keeps the files that a branch may still be writing: those
    at or above the file that the metadata in memory, for the active branch, or a
    manifest gives for the newest known term of the branch, and all files of
    another branch of which no manifest that is read has a range. *)
Theorem gc_keeps_live_files err files segments :
  trigger = Some (err, files, segments) ->
  (forall name, name ∈ files ++ segments -> name ∈ dir /\ parse_manifest name = None) /\
  (forall (seg : bool) id b t, is_u64 id -> is_u64 t -> NormalizeBranchName b = b -> b <> [] ->
     snapshot_refers seg (mkKey id b t) \/
     (exists name, live_manifest dir name /\ manifest_refers name seg (mkKey id b t)) \/
     in_flight seg b t id ->
     file_name seg id b t ∉ files ++ segments).
Proof.
  intros H. destruct (trigger_gc _ H) as (ret & ret_seg & Hgc & Hret).
  destruct (local_gc_safe _ _ _ _ _ _ _ _ _ _ _ _ _ _ _ _ Hgc) as [Hfiles Hkeep].
  split; [exact Hfiles|]. intros seg id b t Hid Ht Hb Hne Hk.
  apply (Hkeep seg _ id b t (parse_file_name seg id b t Hid Ht Hb Hne)). rewrite referenced_iff, Hret.
  destruct Hk as [Hk|[(name & Hl & Hr)|Hk]]; [auto|left; right|auto].
  exists name. split; [exact (live_manifest_read dir name Hl)|exact Hr].
Qed.

(** C36: A branch with a numeric name loses files.  The manifests of a branch whose
    name reads as a number are not recognised.  So the collector deletes a data or
    segment file that such a manifest maps, when no snapshot and no other manifest
    or archive maps it and the branch that wrote it has left it behind, as is the
    case for a file that the parent has compacted away. *)
Theorem numeric_branch_loses_files files segments branch term v (seg : bool) name id b t :
  trigger = Some (NoError, files, segments) -> ParseUint64 (NormalizeBranchName branch) = Some v ->
  BranchManifestFileName branch term ∈ dir -> manifest_refers (BranchManifestFileName branch term) seg (mkKey id b t) ->
  ~ snapshot_refers seg (mkKey id b t) ->
  (forall other, other ∈ gc_reads dir -> other <> BranchManifestFileName branch term -> ~ manifest_refers other seg (mkKey id b t)) ->
  name ∈ dir -> ends_with name TmpSuffix = false -> parse_file seg name = Some (id, b, t) -> left_behind seg b t id ->
  name ∈ (if seg then segments else files).
Proof.
  intros H Hv _ _ Hs Ho Hd Ht Hp Hl. destruct (trigger_gc _ H) as (ret & ret_seg & Hgc & Hret).
  refine (local_gc_reclaims _ _ _ _ _ _ _ _ _ _ _ _ _ _ _ _ _ _ _ _ Hgc Hd Ht Hp _ Hl).
  rewrite referenced_iff, Hret. intros [Hk|(other & Hr & Hk)]; [exact (Hs Hk)|].
  refine (Ho other Hr _ Hk). intros ->. exact (numeric_manifest_unread dir branch term v Hv Hr).
Qed.

(** C37: [TriggerLocalFileGC] deletes segments under a reader.  Take a segment file
    that a living snapshot maps and that no manifest or archive maps, and that its
    branch has left behind.  [TriggerFileGC] keeps it whatever happens, but a
    [TriggerLocalFileGC] in the same state deletes it when it succeeds. *)
Theorem local_gc_takes_snapshot_segments name id b t :
  snapshot_refers true (mkKey id b t) -> (forall other, other ∈ gc_reads dir -> ~ manifest_refers other true (mkKey id b t)) ->
  name ∈ dir -> ends_with name TmpSuffix = false -> parse_file true name = Some (id, b, t) -> left_behind true b t id ->
  (forall err files segments, trigger = Some (err, files, segments) -> name ∉ files ++ segments) /\
  (forall files segments, trigger_local = Some (NoError, files, segments) -> name ∈ segments).
Proof.
  intros Hs Hm Hd Ht Hp Hl. split.
  - intros err files segments H. destruct (trigger_gc _ H) as (ret & ret_seg & Hgc & Hret).
    apply (proj2 (local_gc_safe _ _ _ _ _ _ _ _ _ _ _ _ _ _ _ _ Hgc) true name id b t Hp).
    left. apply referenced_iff. left. exact (proj2 (Hret true _) Hs).
  - intros files segments H. destruct (trigger_local_gc _ H) as (ret & Hgc).
    refine (local_gc_reclaims _ _ _ _ _ _ _ _ _ _ _ _ _ _ _ true _ _ _ _ Hgc Hd Ht Hp _ Hl).
    rewrite referenced_iff. intros [Hk|(other & Hr & Hk)]; [apply elem_of_empty in Hk as []|exact (Hm other Hr Hk)].
Qed.
End trigger.

(** ** Cloud mode *)
Lemma classify_listed dir : ClassifyFiles (ListLocalFiles dir) = ClassifyFiles dir.
Proof.
  induction dir as [|name dir IH]; [reflexivity|]. unfold ListLocalFiles in *. cbn [List.filter].
  destruct (ends_with name TmpSuffix) eqn:Ht; cbn [negb].
  - cbn [ClassifyFiles]. rewrite Ht, IH. destruct (ParseFileName name). reflexivity.
  - cbn [ClassifyFiles]. rewrite Ht, IH. reflexivity.
Qed.

Lemma manifest_name_type b t : BranchManifestFileName b t = [] \/ file_type (BranchManifestFileName b t) = FileNameManifest.
Proof.
  unfold BranchManifestFileName. destruct (decide (NormalizeBranchName b = [])) as [He|Hne].
  - left. unfold with_branch. rewrite He. reflexivity.
  - right. rewrite with_branch_valid by exact Hne. unfold file_type. rewrite ParseFileName_join by no_sep. reflexivity.
Qed.

Lemma filter_all (f : bytes -> bool) l : zlen (List.filter f l) = zlen l -> forall x, x ∈ l -> f x = true.
Proof.
  intros H x Hx. unfold zlen in H. apply Nat2Z.inj in H. apply filter_length_forallb in H. rewrite forallb_forall in H.
  apply H, list_elem_of_In, Hx.
Qed.

Section cloud.
  Context (hash : bytes -> Z) (page_align : Z) (h : Heap) (shift seg_shift : Z) (read : bytes -> KvError * bytes).
  Context (files : list bytes) (delete : bytes -> KvError) (active : bytes) (process_term : Z) (entry : option RootMeta).
  Context (retained retained_segments : gset RetainedFileKey).

  Local Abbreviation cloud_gc term := (ExecuteCloudGC hash page_align h shift seg_shift term (NoError, files) read delete active process_term
    entry retained retained_segments).
  Local Abbreviation collected := (collected hash page_align h shift seg_shift read files active process_term entry retained retained_segments).
  Local Abbreviation referenced := (referenced hash page_align h shift seg_shift read files retained retained_segments).
  Local Abbreviation in_flight := (in_flight hash page_align shift seg_shift read files active process_term entry).

(** What is handed to the object store. *)
Definition cloud_names (st : GcState) (name : bytes) : Prop :=
  (exists seg, name ∈ files_of seg (ClassifyFiles files) /\
     cloud_unreferenced seg process_term active (retained_of seg st) (branch_guards st) name = true) \/
  (name = BranchManifestFileName active process_term /\
     forall f, f ∈ cl_data_files (ClassifyFiles files) ->
       cloud_unreferenced false process_term active (retained_files st) (branch_guards st) f = true) \/
  (exists t, t < process_term /\ (active, t) ∈ cl_manifests (ClassifyFiles files) /\ name = BranchManifestFileName active t).

Lemma cloud_files_spec st name :
  name ∈ cloud_files_to_delete process_term active (retained_files st) (branch_guards st) (cl_data_files (ClassifyFiles files))
    (cl_manifests (ClassifyFiles files)) -> cloud_names st name.
Proof.
  unfold cloud_files_to_delete. cbv zeta. rewrite !elem_of_app. intros [H|[H|H]].
  - left. exists false. rewrite list_elem_of_In, filter_In, <- list_elem_of_In in H. exact H.
  - right. left. destruct (_ && _) eqn:Hc; [|inversion H]. apply andb_prop in Hc as [Hc%Z.eqb_eq _].
    apply list_elem_of_singleton in H. split; [exact H|]. exact (filter_all _ _ Hc).
  - right. right. rewrite list_elem_of_In, in_map_iff in H. destruct H as ([b t] & <- & H). apply filter_In in H as [Hin Hf].
    apply andb_prop in Hf as [Ht%Z.ltb_lt Hb%bool_decide_eq_true]. subst b. exists t. split; [exact Ht|].
    split; [apply list_elem_of_In, Hin|reflexivity].
Qed.

(** What is handed over together with the current manifest. *)
Lemma cloud_gc_names term err names gone entry' :
  cloud_gc term = Some (err, names, gone, entry') -> names <> [] ->
  term = (NoError, process_term) /\ exists st, collected st /\ (forall name, name ∈ names -> cloud_names st name) /\
    (forall f, f ∈ cl_data_files (ClassifyFiles files) ->
       cloud_unreferenced false process_term active (retained_files st) (branch_guards st) f = true -> f ∈ names).
Proof.
  unfold ExecuteCloudGC. destruct term as [e tf]. intros H Hne.
  assert (Hempty : forall x, Some (x, @nil bytes, @nil bytes, entry) = Some (err, names, gone, entry') -> False)
    by (intros x Hx; injection Hx as _ Hx _ _; exact (Hne (eq_sym Hx))).
  destruct e; try (destruct (Hempty _ H); fail).
  destruct (Z.eqb_spec tf process_term) as [->|Htf]; cbn [negb] in H; [|destruct (Hempty _ H)]. split; [reflexivity|].
  cbv zeta in H. destruct (existsb _ _); [destruct (Hempty _ H)|].
  match type of H with context [mbind _ ?x] => destruct x as [[e st]|] eqn:Ha end; [|discriminate H]. cbn [mbind option_bind] in H.
  destruct e; try (destruct (Hempty _ H); fail). exists st. split.
  { apply Augment_collected. cbv zeta. rewrite classify_listed. exact Ha. }
  destruct (deletion_results _ _ _ _ _ _) as [[e1 gone1] entry1]. set (data := cloud_files_to_delete _ _ _ _ _ _) in *.
  set (segs := List.filter _ (cl_segment_files _)) in *.
  assert (Hcase : names = data ++ segs \/ names = data) by (destruct e1; injection H as <- <- <- <-; auto). split.
  - intros name Hin. assert (Hn : name ∈ data ++ segs) by (apply elem_of_app; destruct Hcase as [->| ->]; [apply elem_of_app, Hin|auto]).
    apply elem_of_app in Hn as [Hn|Hn]; [exact (cloud_files_spec st name Hn)|]. left. exists true.
    subst segs. rewrite list_elem_of_In, filter_In, <- list_elem_of_In in Hn. exact Hn.
  - intros f Hf Hu. assert (Hd : f ∈ data); [|destruct Hcase as [->| ->]; [apply elem_of_app; left|]; exact Hd].
    apply elem_of_app. left. rewrite list_elem_of_In, filter_In, <- list_elem_of_In. auto.
Qed.

Lemma cloud_unreferenced_file st seg name :
  cloud_unreferenced seg process_term active (retained_of seg st) (branch_guards st) name = true ->
  exists id b t, parse_file seg name = Some (id, b, t) /\ t <= process_term /\
    unreferenced seg active (retained_of seg st) (branch_guards st) name = true.
Proof.
  unfold cloud_unreferenced. destruct (parse_file seg name) as [[[id b] t]|]; [|discriminate].
  intros [Ht%negb_true_iff%Z.ltb_ge Hu]%andb_prop. eauto 8.
Qed.

(** A data or segment file that is handed over. *)
Lemma cloud_file st seg name id b t :
  cloud_names st name -> parse_file seg name = Some (id, b, t) ->
  name ∈ files /\ t <= process_term /\ unreferenced seg active (retained_of seg st) (branch_guards st) name = true.
Proof.
  intros Hn Hp. pose proof (parse_file_type _ _ _ Hp) as Hty.
  assert (Hnm : forall t', name <> BranchManifestFileName active t').
  { intros t' He. destruct (manifest_name_type active t') as [Hm|Hm]; rewrite <- He in Hm;
      [rewrite Hm in Hp; destruct seg; discriminate Hp|rewrite Hty in Hm; destruct seg; discriminate Hm]. }
  destruct Hn as [(seg' & Hl & Hu)|[[He _]|(t' & _ & _ & He)]]; [|destruct (Hnm _ He)|destruct (Hnm _ He)].
  apply classified_files in Hl as (Hf & _ & Hl).
  assert (seg' = seg) as -> by (rewrite Hty in Hl; destruct seg, seg'; auto; discriminate Hl).
  apply cloud_unreferenced_file in Hu as (id' & b' & t' & Hp' & Ht & Hu). rewrite Hp in Hp'. injection Hp' as <- <- <-. auto.
Qed.

(** The current manifest goes with all data files. *)
Lemma current_manifest st :
  is_u64 process_term -> NormalizeBranchName active <> [] -> cloud_names st (BranchManifestFileName active process_term) ->
  forall f, f ∈ cl_data_files (ClassifyFiles files) ->
    cloud_unreferenced false process_term active (retained_files st) (branch_guards st) f = true.
Proof.
  intros Hpt Hact [(seg & Hl & _)|[[_ Hall]|(t & Ht & Hm & He)]]; [|exact Hall|].
  - apply classified_files in Hl as (_ & _ & Hl). destruct (manifest_name_type active process_term) as [Hm|Hm].
    + unfold BranchManifestFileName in Hm. rewrite with_branch_valid in Hm by exact Hact. discriminate Hm.
    + rewrite Hm in Hl. destruct seg; discriminate Hl.
  - apply classified_manifests in Hm as (name & _ & _ & Hp). apply parse_manifest_parts in Hp as [_ Hu].
    apply manifest_name_parts in He as [_ He]; [|exact Hact]. apply (f_equal ParseUint64) in He.
    rewrite !ParseUint64_to_string in He by assumption. injection He as He. lia.
Qed.

Lemma forget_manifest_idem meta : forget_manifest (forget_manifest meta) = forget_manifest meta.
Proof.
  unfold forget_manifest at 2 3. destruct (_ && _) eqn:Hc; [reflexivity|]. unfold forget_manifest. rewrite Hc. reflexivity.
Qed.

Lemma deletion_results_spec current : forall names first_error deleted meta err gone meta',
  deletion_results delete current names first_error deleted meta = (err, gone, meta') ->
  (forall name, name ∈ gone -> name ∈ deleted \/ name ∈ names) /\ (forall name, name ∈ deleted -> name ∈ gone) /\
  (meta' = meta \/ (current ∈ gone /\ meta' = forget_manifest <$> meta)).
Proof.
  induction names as [|n names IH]; intros fe deleted meta err gone meta' H; cbn [deletion_results] in H; [injection H as <- <- <-; auto|].
  destruct (match delete n with NoError | NotFound => true | _ => false end).
  - destruct (IH _ _ _ _ _ _ H) as (H1 & H2 & H3). split; [|split].
    + intros name Hn. rewrite elem_of_cons. destruct (H1 name Hn) as [[Hd|Hd]%elem_of_app|Hd]; [auto| |auto].
      apply list_elem_of_singleton in Hd. auto.
    + intros name Hn. apply H2, elem_of_app. auto.
    + rewrite andb_true_r in H3. destruct (decide (n = current)) as [->|Hne].
      * rewrite bool_decide_true in H3 by reflexivity. right. split; [apply H2, elem_of_app; right; left|].
        destruct H3 as [->|[_ ->]]; [reflexivity|]. destruct meta; [|reflexivity]. cbn. rewrite forget_manifest_idem. reflexivity.
      * rewrite bool_decide_false in H3 by exact Hne. exact H3.
  - rewrite andb_false_r in H. destruct (IH _ _ _ _ _ _ H) as (H1 & H2 & H3). split; [|auto].
    intros name Hn. rewrite elem_of_cons. destruct (H1 name Hn); auto.
Qed.

Lemma cloud_gc_entry term err names gone entry' :
  cloud_gc term = Some (err, names, gone, entry') ->
  (forall name, name ∈ gone -> name ∈ names) /\
  (entry' = entry \/ (BranchManifestFileName active process_term ∈ gone /\ entry' = forget_manifest <$> entry)).
Proof.
  unfold ExecuteCloudGC. destruct term as [e tf]. intros H.
  assert (Hempty : forall x, Some (x, @nil bytes, @nil bytes, entry) = Some (err, names, gone, entry') ->
    (forall name, name ∈ gone -> name ∈ names) /\
    (entry' = entry \/ (BranchManifestFileName active process_term ∈ gone /\ entry' = forget_manifest <$> entry)))
    by (intros x Hx; injection Hx as _ <- <- <-; auto).
  destruct e; try exact (Hempty _ H). destruct (negb _); [exact (Hempty _ H)|].
  cbv zeta in H. destruct (existsb _ _); [exact (Hempty _ H)|].
  match type of H with context [mbind _ ?x] => destruct x as [[e st]|] end; [|discriminate H]. cbn [mbind option_bind] in H.
  destruct e; try exact (Hempty _ H). destruct (deletion_results _ _ _ _ _ _) as [[e1 gone1] entry1] eqn:Hd.
  destruct (deletion_results_spec _ _ _ _ _ _ _ _ Hd) as (H1 & _ & H3).
  assert (Hin : forall name, name ∈ gone1 -> name ∈ cloud_files_to_delete process_term active (retained_files st) (branch_guards st)
      (cl_data_files (ClassifyFiles files)) (cl_manifests (ClassifyFiles files)))
    by (intros name Hn; destruct (H1 name Hn) as [Hx|Hx]; [inversion Hx|exact Hx]).
  destruct e1; injection H as <- <- <- <-; (split; [intros name Hn; first [exact (Hin name Hn)|apply elem_of_app; left; exact (Hin name Hn)]|exact H3]).
Qed.

(** C17: Collecting in the object store is safe.  Names are handed to the store for
    deletion only while the term file still has the term of this process.  A data
    or segment file that a snapshot, a recognised manifest or an archive refers to,
    or that a branch may still be writing, is never among them.  The data and
    segment files among them are in the listing and not of a later term; the
    manifests are of the active branch and not of a later term.  The manifest of
    the current term is among them only together with every data file of the
    listing.  The metadata in memory changes only when that manifest is gone, and
    then it forgets the manifest. *)
Theorem cloud_gc_keeps_live_files term err names gone entry' :
  cloud_gc term = Some (err, names, gone, entry') ->
  (names <> [] -> term = (NoError, process_term)) /\
  (forall seg id b t, is_u64 id -> is_u64 t -> NormalizeBranchName b = b -> b <> [] ->
     referenced seg (mkKey id b t) \/ in_flight seg b t id -> file_name seg id b t ∉ names) /\
  (forall seg name id b t, name ∈ names -> parse_file seg name = Some (id, b, t) -> name ∈ files /\ t <= process_term) /\
  (forall name b t tag, name ∈ names -> parse_manifest name = Some (b, t, tag) ->
     exists t', name = BranchManifestFileName active t' /\ t' <= process_term) /\
  (is_u64 process_term -> NormalizeBranchName active <> [] -> BranchManifestFileName active process_term ∈ names ->
     forall f, f ∈ cl_data_files (ClassifyFiles files) -> f ∈ names) /\
  (forall name, name ∈ gone -> name ∈ names) /\
  (entry' = entry \/ (BranchManifestFileName active process_term ∈ gone /\ entry' = forget_manifest <$> entry)).
Proof.
  intros H. assert (Hin : forall name, name ∈ names -> names <> []) by (intros name Hn ->; inversion Hn).
  destruct (cloud_gc_entry _ _ _ _ _ H) as [Hgone Hentry].
  split; [intros Hne; exact (proj1 (cloud_gc_names _ _ _ _ _ H Hne))|]. split; [|split; [|split; [|split; [|split; assumption]]]].
  - intros seg id b t Hid Ht Hb Hne Hk Hn. pose proof (parse_file_name seg id b t Hid Ht Hb Hne) as Hp.
    destruct (cloud_gc_names _ _ _ _ _ H (Hin _ Hn)) as (_ & st & Hc & Hnames & _).
    destruct (cloud_file st seg _ id b t (Hnames _ Hn) Hp) as (_ & _ & Hu).
    rewrite (kept _ _ _ _ _ _ _ _ _ _ _ _ st seg id b t Hc Hk _ Hp) in Hu. discriminate Hu.
  - intros seg name id b t Hn Hp. destruct (cloud_gc_names _ _ _ _ _ H (Hin _ Hn)) as (_ & st & Hc & Hnames & _).
    destruct (cloud_file st seg _ id b t (Hnames _ Hn) Hp) as (H1 & H2 & _). auto.
  - intros name b t tag Hn Hm. destruct (cloud_gc_names _ _ _ _ _ H (Hin _ Hn)) as (_ & st & Hc & Hnames & _).
    destruct (Hnames name Hn) as [(seg & Hl & _)|[[-> _]|(t' & Ht' & _ & ->)]]; [|exists process_term; split; [reflexivity|lia]|eauto with lia].
    apply classified_files in Hl as (_ & _ & Hl). apply parse_manifest_type in Hm. rewrite Hl in Hm. destruct seg; discriminate Hm.
  - intros Hpt Hact Hn f Hf. destruct (cloud_gc_names _ _ _ _ _ H (Hin _ Hn)) as (_ & st & Hc & Hnames & Hall).
    apply (Hall f Hf). exact (current_manifest st Hpt Hact (Hnames _ Hn) f Hf).
Qed.
End cloud.

(** What the store has written can be collected. *)
Lemma array_pointers h t words :
  is_array t words -> Forall (fun w => IsSwizzlingPointer w = false) words -> pointers_ok h t.
Proof.
  intros (Hi & _ & Hs & Hg) Hw. split; [exact Hi|]. intros p val Hp Hv Hsw. rewrite Hg in Hv by lia.
  rewrite list.Forall_forall in Hw. rewrite (Hw val (list_elem_of_lookup_2 _ _ _ Hv)) in Hsw. discriminate.
Qed.

Lemma manifest_loads hash page_align fresh h read (Hfresh : forall n, 0 <= n -> zlen (fresh n) = n) k (Hk : 0 <= k)
    (Halign : page_align = 2 ^ k) name st has_seg logs :
  let st' := fold_left apply_log logs st in
  state_ok st has_seg -> Forall log_ok logs -> read name = (NoError, manifest_bytes hash page_align fresh st has_seg logs) ->
  Forall (fun w => IsSwizzlingPointer w = false) (ms_words st') ->
  Forall (fun w => IsSwizzlingPointer w = false) (ms_seg_words st') -> loads hash page_align h read name.
Proof.
  intros st' Hst Hl Hr Hw Hsw.
  destruct (Replay_prefix hash page_align fresh Hfresh k Hk Halign false st has_seg logs [] Hst Hl) as (r & fuel & Hrep & (_ & _ & Hh) & Hc & _).
  rewrite app_nil_r in Hrep. cbn [length plus] in Hrep. rewrite replay_end, Hc in Hrep.
  exists (manifest_bytes hash page_align fresh st has_seg logs), r. split; [exact Hr|]. split; [exact Hrep|].
  split; [exact (array_pointers h _ _ (ho_words _ _ Hh) Hw)|exact (array_pointers h _ _ (ho_seg_words _ _ Hh) Hsw)].
Qed.

(** ** A partition with two branches

    Branch "main" has written files 0 to 2 and uses file 1; the branch "42" still
    uses file 0 of it, and a reader holds an old snapshot with segment file 0. *)
Module GcExample.
Import ReplayExample.

Definition main : bytes := MainBranchName.
Definition numeric : bytes := [52; 50].
Definition ranges : BranchFileMapping := [mkRange main 0 2 1].

Definition state (fp : Z) (b : bytes) : ManifestState :=
  mkState 0 (2 ^ 32 - 1) [EncodeFilePageId fp] 9 [] (mkBranchMeta b 0 ranges) [] 0.

Definition content (fp : Z) (b : bytes) : bytes := manifest_bytes hash 64 fresh (state fp b) false [].

Definition data (id : Z) : bytes := BranchDataFileName id main 0.
Definition segment (id : Z) : bytes := SegmentFileName id main 0.

Definition dir : list bytes :=
  [BranchManifestFileName main 0; BranchManifestFileName (numeric) 0; data 0; data 1; data 2; segment 0; segment 1].

Definition read (name : bytes) : KvError * bytes :=
  if bool_decide (name = BranchManifestFileName main 0) then (NoError, content 5 main)
  else if bool_decide (name = BranchManifestFileName (numeric) 0) then (NoError, content 1 (numeric))
  else (NotFound, []).

Definition delete (_ : list bytes) : KvError := NoError.

(** A table of one page in file page [fp]. *)
Definition table (fp : Z) : MappingTbl :=
  match PushBack None empty_tbl (EncodeFilePageId fp) with Some (_, t, _) => t | None => empty_tbl end.

Definition replayed_as (fp : Z) (b : bytes) : Replayer :=
  match Replay hash 64 false (content fp b) with Some (_, r) => r | None => start_replayer end.

Lemma refers_page0 tbl fp rs sh seg k :
  Get tbl 0 = Some (EncodeFilePageId fp) -> 0 < logical_size_ tbl -> file_page_of ∅ (EncodeFilePageId fp) = Some fp ->
  key_of rs sh seg fp = Some k -> tbl_refers ∅ tbl rs sh seg k.
Proof. intros Hg Hs Hf Hk. exists 0, (EncodeFilePageId fp), fp. split; [lia|]. auto. Qed.

Lemma state_main_ok : state_ok (state 5 main) false.
Proof.
  assert (H0 : is_u64 0) by (split; [discriminate|reflexivity]). split.
  - split; [split; [discriminate|reflexivity]|]. split; [split; [discriminate|reflexivity]|vm_compute; reflexivity].
  - constructor; [split; [discriminate|reflexivity]|constructor].
  - discriminate.
  - split; [discriminate|reflexivity].
  - split; [reflexivity|exact H0|reflexivity|]. constructor; [|constructor].
    split; [reflexivity|exact H0|split; [discriminate|reflexivity]|split; [discriminate|reflexivity]].
  - constructor.
  - discriminate.
  - exact H0.
  - auto.
Qed.

Lemma reads_main : gc_reads dir = [BranchManifestFileName main 0].
Proof. vm_compute. reflexivity. Qed.

Lemma read_main : read (BranchManifestFileName main 0) = (NoError, content 5 main).
Proof. vm_compute. reflexivity. Qed.

Lemma replay_main : Replay hash 64 false (content 5 main) = Some (NoError, replayed_as 5 main).
Proof. vm_compute. reflexivity. Qed.

Lemma ranges_main : ranges_of (replayed_as 5 main) = ranges.
Proof. vm_compute. reflexivity. Qed.

(** The manifest of "main" maps file 1 and not file 0. *)
Lemma main_refers_1 : manifest_refers hash 64 ∅ 2 2 read (BranchManifestFileName main 0) false (mkKey 1 main 0).
Proof.
  exists (content 5 main), (replayed_as 5 main). split; [exact read_main|]. split; [exact replay_main|].
  apply (refers_page0 _ 5); vm_compute; reflexivity.
Qed.

Lemma main_leaves_0 seg : ~ manifest_refers hash 64 ∅ 2 2 read (BranchManifestFileName main 0) seg (mkKey 0 main 0).
Proof.
  assert (Hs0 : logical_size_ (rp_mapping_tbl_ (replayed_as 5 main)) = 1) by (vm_compute; reflexivity).
  assert (Hs1 : logical_size_ (segment_mapping_tbl_ (replayed_as 5 main)) = 0) by (vm_compute; reflexivity).
  assert (Hg0 : Get (rp_mapping_tbl_ (replayed_as 5 main)) 0 = Some (EncodeFilePageId 5)) by (vm_compute; reflexivity).
  assert (Hk0 : key_of (ranges_of (replayed_as 5 main)) 2 false 5 = Some (mkKey 1 main 0)) by (vm_compute; reflexivity).
  pose proof replay_main as Hrep0. revert Hrep0 Hs0 Hs1 Hg0 Hk0. generalize (replayed_as 5 main) as r0.
  pose proof read_main as Hread. revert Hread. generalize (content 5 main) as c. intros c Hread r0 Hrep0 Hs0 Hs1 Hg0 Hk0.
  intros (buf & r & Hr & Hrep & p & val & fp & Hp & Hg & Hf & Hk). rewrite Hread in Hr. injection Hr as <-.
  rewrite Hrep0 in Hrep. injection Hrep as <-. destruct seg; cbn [table_of shift_of] in *; [lia|].
  assert (p = 0) by lia. subst p. rewrite Hg0 in Hg. injection Hg as <-. vm_compute in Hf. injection Hf as <-.
  rewrite Hk0 in Hk. discriminate Hk.
Qed.

Lemma read_leaves_0 seg other : other ∈ gc_reads dir -> ~ manifest_refers hash 64 ∅ 2 2 read other seg (mkKey 0 main 0).
Proof. rewrite reads_main. intros ->%list_elem_of_singleton. exact (main_leaves_0 seg). Qed.

(** Without a reader, file 0 and segment file 0 are garbage. *)
Lemma not_referenced_0 seg : ~ referenced hash 64 ∅ 2 2 read dir ∅ ∅ seg (mkKey 0 main 0).
Proof.
  rewrite referenced_iff. intros [H|(other & Ho & Hk)]; [destruct seg; apply elem_of_empty in H; exact H|exact (read_leaves_0 seg other Ho Hk)].
Qed.

Lemma recorded_main range : recorded hash 64 read dir range <-> range = mkRange main 0 2 1.
Proof.
  assert (Hr : forall r, r ∈ ranges <-> r = mkRange main 0 2 1) by (intros r; apply list_elem_of_singleton). split.
  - pose proof ranges_main as Hrs. pose proof replay_main as Hrep0. revert Hrs Hrep0. generalize (replayed_as 5 main) as r0.
    pose proof read_main as Hread. revert Hread. generalize (content 5 main) as c. intros c Hread r0 Hrs Hrep0.
    intros (name & buf & r & Hn & Hb & Hrep & Hin). rewrite reads_main in Hn. apply list_elem_of_singleton in Hn. subst name.
    rewrite Hread in Hb. injection Hb as <-. rewrite Hrep0 in Hrep. injection Hrep as <-. rewrite Hrs in Hin. apply Hr, Hin.
  - intros ->. exists (BranchManifestFileName main 0), (content 5 main), (replayed_as 5 main).
    split; [rewrite reads_main; left|]. split; [exact read_main|]. split; [exact replay_main|]. rewrite ranges_main. left.
Qed.

Lemma left_behind_0 entry seg : left_behind hash 64 2 2 read dir main 0 entry seg main 0 0.
Proof.
  right. exists (mkRange main 0 2 1). split; [apply recorded_main; reflexivity|].
  split; [reflexivity|right; split; [reflexivity|destruct seg; reflexivity]].
Qed.

(** The partition in memory: the last flush ended with data file 1 and segment
    file 0. *)
Definition meta : RootMeta := mkRootMeta 0 MaxPageId (new_mapper (AllocatorInstance 2 true)) None 128 0 [] 8 4 ranges.

Lemma in_flight_2 : in_flight hash 64 2 2 read dir main 0 (Some meta) false main 0 2.
Proof.
  split.
  - intros _. exists (seed_guard 2 2 0 meta). left. exists meta. auto.
  - intros g [(m & [= <-] & _ & Hg)|(range & Hr & _ & Hg)] _.
    + rewrite Hg. split; [reflexivity|vm_compute; discriminate].
    + apply recorded_main in Hr. rewrite Hg, Hr. split; [reflexivity|vm_compute; discriminate].
Qed.

(** A reader that holds segment file 0. *)
Definition reader : LivingSnapshots := mkLiving [] [table 3].

Lemma reader_refers : snapshot_refers ∅ 2 2 reader ranges true (mkKey 0 main 0).
Proof. exists (table 3). split; [left|]. apply (refers_page0 _ 3); vm_compute; reflexivity. Qed.

(** File 1 is kept for the manifest, file 2 because it is being written, segment
    file 0 for the reader. *)
Lemma gc_keeps_live_files_witness :
  exists files segments,
    TriggerFileGC hash 64 ∅ 2 2 dir read delete main 0 (Some meta) reader ranges = Some (NoError, files, segments) /\
    data 0 ∈ files /\ data 1 ∉ files ++ segments /\ segment 0 ∉ files ++ segments /\ data 2 ∉ files ++ segments.
Proof.
  exists [data 0], []. assert (Hgc : TriggerFileGC hash 64 ∅ 2 2 dir read delete main 0 (Some meta) reader ranges =
    Some (NoError, [data 0], [])) by (vm_compute; reflexivity).
  destruct (gc_keeps_live_files hash 64 ∅ 2 2 read dir delete main 0 (Some meta) reader ranges NoError [data 0] [] Hgc) as [_ Hk].
  assert (H0 : is_u64 0) by (split; [discriminate|reflexivity]). assert (H1 : is_u64 1) by (split; [discriminate|reflexivity]).
  assert (H2 : is_u64 2) by (split; [discriminate|reflexivity]).
  split; [exact Hgc|]. split; [left|]. split; [|split].
  - apply (Hk false 1 main 0 H1 H0); [reflexivity|discriminate|]. right. left. exists (BranchManifestFileName main 0).
    split; [|exact main_refers_1]. split; [left|]. split; [vm_compute; reflexivity|]. left. exists main, 0. split; vm_compute; reflexivity.
  - apply (Hk true 0 main 0 H0 H0); [reflexivity|discriminate|]. left. exact reader_refers.
  - apply (Hk false 2 main 0 H2 H0); [reflexivity|discriminate|]. right. right. exact in_flight_2.
Defined.

Ltac in_list := apply (bool_decide_unpack _); vm_compute; exact I.

Lemma gc_reclaims_garbage_witness :
  exists files segments,
    ExecuteLocalGC hash 64 ∅ 2 2 dir read delete main 0 None ∅ ∅ = Some (NoError, files, segments) /\
    data 0 ∈ files /\ segment 0 ∈ segments.
Proof.
  assert (Hm : cl_manifests (ClassifyFiles (ListLocalFiles dir)) = [(main, 0)]) by (vm_compute; reflexivity).
  assert (Ha : cl_archive_files (ClassifyFiles (ListLocalFiles dir)) = []) by (vm_compute; reflexivity).
  destruct (gc_reclaims_garbage hash 64 ∅ 2 2 read dir delete main 0 None ∅ ∅) as (files & segments & Hgc & Hd).
  - reflexivity.
  - rewrite Hm. constructor; [|constructor]. left.
    apply (manifest_loads hash 64 fresh ∅ read replay_fresh_length 6 ltac:(lia) eq_refl (BranchManifestFileName main 0) (state 5 main) false []
      state_main_ok ltac:(constructor) read_main); [|constructor]. constructor; [reflexivity|constructor].
  - rewrite Ha. constructor.
  - exists files, segments. split; [exact Hgc|]. split.
    + apply (Hd false (data 0) 0 main 0); [in_list|vm_compute; reflexivity|vm_compute; reflexivity|exact (not_referenced_0 false)|].
      exact (left_behind_0 None false).
    + apply (Hd true (segment 0) 0 main 0); [in_list|vm_compute; reflexivity|vm_compute; reflexivity|exact (not_referenced_0 true)|].
      exact (left_behind_0 None true).
Defined.

(** The branch "42" loses file 0. *)
Lemma numeric_branch_loses_files_witness :
  exists files segments,
    TriggerFileGC hash 64 ∅ 2 2 dir read delete main 0 (Some meta) (mkLiving [] []) ranges = Some (NoError, files, segments) /\
    manifest_refers hash 64 ∅ 2 2 read (BranchManifestFileName numeric 0) false (mkKey 0 main 0) /\ data 0 ∈ files.
Proof.
  assert (Hgc : TriggerFileGC hash 64 ∅ 2 2 dir read delete main 0 (Some meta) (mkLiving [] []) ranges =
    Some (NoError, [data 0], [segment 0])) by (vm_compute; reflexivity).
  assert (Hm : manifest_refers hash 64 ∅ 2 2 read (BranchManifestFileName numeric 0) false (mkKey 0 main 0)).
  { exists (content 1 numeric), (replayed_as 1 numeric). split; [vm_compute; reflexivity|]. split; [vm_compute; reflexivity|].
    apply (refers_page0 _ 1); vm_compute; reflexivity. }
  exists [data 0], [segment 0]. split; [exact Hgc|]. split; [exact Hm|].
  apply (numeric_branch_loses_files hash 64 ∅ 2 2 read dir delete main 0 (Some meta) (mkLiving [] []) ranges [data 0] [segment 0]
    numeric 0 42 false (data 0) 0 main 0 Hgc);
    [vm_compute; reflexivity|in_list|exact Hm| | |in_list|vm_compute; reflexivity|vm_compute; reflexivity|exact (left_behind_0 _ false)].
  - intros (tbl & Ht & _). inversion Ht.
  - intros other Ho _. exact (read_leaves_0 false other Ho).
Defined.

(** The reader of segment file 0 loses it. *)
Lemma local_gc_takes_snapshot_segments_witness :
  exists files segments,
    TriggerLocalFileGC hash 64 ∅ 2 2 dir read delete main 0 (Some meta) reader ranges = Some (NoError, files, segments) /\
    snapshot_refers ∅ 2 2 reader ranges true (mkKey 0 main 0) /\ segment 0 ∈ segments.
Proof.
  assert (Hgc : TriggerLocalFileGC hash 64 ∅ 2 2 dir read delete main 0 (Some meta) reader ranges =
    Some (NoError, [data 0], [segment 0])) by (vm_compute; reflexivity).
  exists [data 0], [segment 0]. split; [exact Hgc|]. split; [exact reader_refers|].
  apply (proj2 (local_gc_takes_snapshot_segments hash 64 ∅ 2 2 read dir delete main 0 (Some meta) reader ranges (segment 0) 0 main 0
    reader_refers (read_leaves_0 true) ltac:(in_list) ltac:(vm_compute; reflexivity) ltac:(vm_compute; reflexivity)
    (left_behind_0 _ true)) _ _ Hgc).
Defined.

Lemma cloud_gc_keeps_live_files_witness :
  exists names gone, ExecuteCloudGC hash 64 ∅ 2 2 (NoError, 0) (NoError, dir) read (fun _ => NoError) main 0 None ∅ ∅ =
      Some (NoError, names, gone, None) /\ data 0 ∈ names /\ data 1 ∉ names.
Proof.
  assert (Hgc : ExecuteCloudGC hash 64 ∅ 2 2 (NoError, 0) (NoError, dir) read (fun _ => NoError) main 0 None ∅ ∅ =
    Some (NoError, [data 0; segment 0], [data 0], None)) by (vm_compute; reflexivity).
  destruct (cloud_gc_keeps_live_files hash 64 ∅ 2 2 read dir (fun _ => NoError) main 0 None ∅ ∅ (NoError, 0) NoError
    [data 0; segment 0] [data 0] None Hgc) as (_ & Hk & _).
  exists [data 0; segment 0], [data 0]. split; [exact Hgc|]. split; [left|].
  apply (Hk false 1 main 0); [split; [discriminate|reflexivity]|split; [discriminate|reflexivity]|reflexivity|discriminate|].
  left. apply referenced_iff. right. exists (BranchManifestFileName main 0). split; [rewrite reads_main; left|exact main_refers_1].
Defined.
End GcExample.
