(* ===== verification/Tree.v ===== *)
(** * The tree of a partition

    A partition is a tree of pages: index pages hold separators and page ids,
    leaves hold entries and the ids of their neighbours.  This file says what the
    bytes of a page hold, in terms of what the iterators return ([data_page],
    [index_page]), and when the pages that a function [load] finds under their
    ids are a search tree ([tree], [rep], [within]).  The readers and writers of
    the tree are proved against these definitions. *)

From stdpp Require Import sorting.
From S2P Require Import Prelude Coding Comparator PageFormat DataPage Regions DataPageIter RegionCopy IndexPage IndexPageIter.

(** ** Links between leaves (src/storage/data_page.cpp) *)
Definition prev_page_offset : Z := page_size_offset + 2.
Definition next_page_offset : Z := prev_page_offset + 4.

Definition PrevPageId (page : bytes) : option Z := DecodeFixed32 (zdrop prev_page_offset page).
Definition NextPageId (page : bytes) : option Z := DecodeFixed32 (zdrop next_page_offset page).

Definition SetPrevPageId (page : bytes) (id : Z) : bytes := write_at page prev_page_offset (EncodeFixed32 id).
Definition SetNextPageId (page : bytes) (id : Z) : bytes := write_at page next_page_offset (EncodeFixed32 id).

(** [MemCachedPage::IsPointingToLeaf] *)
Definition IsPointingToLeaf (page : bytes) : option bool :=
  t ← TypeOfPage page; Some (t =? PageType_code LeafIndex).

(** ** What an iterator has still to deliver *)
Inductive yields (v : PageView) : Cursor -> list Entry -> Prop :=
  | yields_end c : HasNext v c = false -> Next v c = Some (false, Invalidate v) -> yields v c []
  | yields_next c c' rest :
      HasNext v c = true -> Next v c = Some (true, c') -> yields v c' rest -> yields v c (entry_ c' :: rest).

Inductive iyields (v : PageView) : IndexCursor -> list IndexEntry -> Prop :=
  | iyields_end c : IndexHasNext v c = false -> IndexNext v c = Some (false, IndexInvalidate v) -> iyields v c []
  | iyields_next c c' rest :
      IndexHasNext v c = true -> IndexNext v c = Some (true, c') -> iyields v c' rest ->
      iyields v c (ic_entry c' :: rest).

(** ** Pages *)
Definition data_page (page : bytes) (l : list Entry) : Prop :=
  TypeOfPage page = Some (PageType_code Data) /\ StronglySorted key_lt (map key_ l) /\
  exists rs, page_format enc_entry HeaderSize rs page /\ concat rs = l /\
    Forall (Forall wf_entry) rs /\ Forall (fun r => r <> []) rs /\ rs <> [].

Definition index_page (page : bytes) (leaf : bool) (leftmost : Z) (seps : list IndexEntry) : Prop :=
  TypeOfPage page = Some (PageType_code (index_page_type leaf)) /\ StronglySorted key_lt (map i_key seps) /\
  0 <= leftmost < 2 ^ 31 /\ DecodeFixed32 (zdrop leftmost_ptr_offset page) = Some leftmost /\
  exists rs, page_format enc_index IndexHeaderSize rs page /\ concat rs = seps /\
    Forall (Forall wf_index) rs /\ Forall (fun r => r <> []) rs.

Lemma data_page_nonempty page l : data_page page l -> l <> [].
Proof.
  intros (_ & _ & rs & _ & <- & _ & Hne & Hrs). destruct rs as [|r rs]; [congruence|].
  apply Forall_cons_1 in Hne as [Hr _]. destruct r; [congruence|discriminate].
Qed.

(** What the data page iterator does on a page that holds [l]. *)
Record data_view (v : PageView) (l : list Entry) : Prop := {
  dv_fresh : yields v fresh_cursor l;
  dv_reset : forall c, yields v (Cursor_Reset c) l;
  dv_end : yields v (Invalidate v) [];
  dv_seek : forall c key lo hi, l = lo ++ hi ->
    Forall (fun e => key_ e <k key) lo -> Forall (fun e => key <=k key_ e) hi ->
    match hi with
    | [] => Seek v c key = Some (false, Invalidate v)
    | e :: rest => exists c', Seek v c key = Some (true, c') /\ entry_ c' = e /\ yields v c' rest
    end;
  dv_floor : forall c key lo hi, l = lo ++ hi ->
    Forall (fun e => key_ e <=k key) lo -> Forall (fun e => key <k key_ e) hi ->
    (lo = [] -> SeekFloor v c key = Some (false, c)) /\
    (forall lo' e, lo = lo' ++ [e] -> exists c', SeekFloor v c key = Some (true, c') /\
       floor_fields e (entry_ c') /\ floor_flags e hi (entry_ c'))
}.

(** What the index page iterator does on a page with these pointers. *)
Record index_view (v : PageView) (leftmost : Z) (seps : list IndexEntry) : Prop := {
  iv_fresh : iyields v fresh_index_cursor (mkIndexEntry [] leftmost :: seps);
  iv_seek : forall key lo hi, seps = lo ++ hi ->
    Forall (fun e => i_key e <=k key) lo -> Forall (fun e => key <k i_key e) hi ->
    exists c, IndexSeek v fresh_index_cursor key = Some c /\ iyields v c hi /\
      ic_entry c = match last_from None lo with Some e => e | None => mkIndexEntry [] leftmost end
}.

Section data_laws.
  Context (rs : list (list Entry)) (page : bytes) (Hf : page_format enc_entry HeaderSize rs page).
  Context (Hwf : Forall (Forall wf_entry) rs) (Hne : Forall (fun r => r <> []) rs).

  Local Abbreviation v := (format_view enc_entry HeaderSize rs page).

Lemma yields_stands c i :
  stands enc_entry HeaderSize rs page (curr_offset_ c) (curr_restart_idx_ c) (decodes_after c) i ->
  (i <= length (concat rs))%nat -> yields v c (drop i (concat rs)).
Proof.
  remember (length (concat rs) - i)%nat as n eqn:Hn. revert c i Hn.
  induction n as [|n IH]; intros c i Hn Hst Hi.
  - assert (i = length (concat rs)) as -> by lia. destruct (iterator_end rs page Hf Hne c Hst) as [H1 H2].
    rewrite drop_all. constructor; assumption.
  - destruct (lookup_lt_is_Some_2 (concat rs) i) as [e He]; [lia|].
    destruct (stands_next rs page Hf Hwf Hne c i e Hst He) as (H1 & c' & H2 & <- & Hst').
    rewrite (drop_S _ _ _ He). econstructor; eauto. apply IH; auto; lia.
Qed.

Lemma data_view_format : rs <> [] -> StronglySorted key_lt (map key_ (concat rs)) -> data_view v (concat rs).
Proof.
  intros Hrs Hs.
  assert (Hr : forall c, curr_offset_ c = content_offset -> curr_restart_idx_ c = 0 -> yields v c (concat rs)).
  { intros c Ho Hi. rewrite <- (drop_0 (concat rs)). apply yields_stands; [|lia]. rewrite Ho, Hi.
    exact (stands_fresh enc_entry HeaderSize rs page Hf Hne 0 (decodes_after c) Hrs eq_refl). }
  assert (Hd : forall c lo hi, concat rs = lo ++ hi ->
    stands enc_entry HeaderSize rs page (curr_offset_ c) (curr_restart_idx_ c) (decodes_after c) (length lo) ->
    yields v c hi).
  { intros c lo hi Hc Hst. replace hi with (drop (length lo) (concat rs)) by (rewrite Hc; apply drop_app_length).
    apply yields_stands; [exact Hst|]. rewrite Hc, length_app. lia. }
  constructor.
  - apply Hr; reflexivity.
  - intros c. apply Hr; reflexivity.
  - constructor; unfold HasNext, Next, ParseNextKey; cbn [curr_offset_ Invalidate].
    + apply Z.ltb_irrefl.
    + rewrite Z.leb_refl. reflexivity.
  - intros c key lo hi Hc Hlo Hhi.
    pose proof (Seek_correct rs page Hf Hwf Hne Hs key c lo hi Hrs (conj Hc (conj Hlo Hhi))) as H.
    destruct hi as [|e hi]; [exact H|]. destruct H as (c' & HS & He & Hst). exists c'. split; [exact HS|].
    split; [exact He|]. apply (Hd c' (lo ++ [e])); [rewrite <- app_assoc; exact Hc|].
    rewrite length_app, Nat.add_1_r. exact Hst.
  - intros c key lo hi Hc Hlo Hhi.
    destruct (SeekFloor_correct rs page Hf Hwf Hne Hs key c lo hi Hrs (conj Hc (conj Hlo Hhi))) as [H0 H1].
    split; [exact H0|]. intros lo' e He. destruct (H1 lo' e He) as (c' & HS & Hfl & Hfg & _). eauto.
Qed.
End data_laws.

Lemma data_page_view page l : data_page page l -> exists v, page_view page = Some v /\ data_view v l.
Proof.
  intros (_ & Hs & rs & Hf & <- & Hwf & Hne & Hrs). exists (format_view enc_entry HeaderSize rs page).
  split; [exact (format_page_view _ _ _ _ Hf)|]. apply data_view_format; assumption.
Qed.

Section index_laws.
  Context (rs : list (list IndexEntry)) (page : bytes) (leftmost : Z).
  Context (Hf : page_format enc_index IndexHeaderSize rs page).
  Context (Hwf : Forall (Forall wf_index) rs) (Hne : Forall (fun r => r <> []) rs).
  Context (Hleft : DecodeFixed32 (zdrop leftmost_ptr_offset page) = Some leftmost).

  Local Abbreviation v := (format_view enc_index IndexHeaderSize rs page).
  Local Abbreviation istands c := (stands enc_index IndexHeaderSize rs page (ic_offset c) (ic_restart_idx c) (idecodes_after c)).

Lemma istands_more c i e : istands c i -> concat rs !! i = Some e -> IndexHasNext v c = true.
Proof.
  intros Hst Hi.
  destruct (stands_lookup enc_index enc_index_pos IndexHeaderSize rs page Hf Hne _ _ _ _ _ Hst Hi) as (? & ? & ? & ? & _ & _ & Hlt).
  apply Z.ltb_lt. exact Hlt.
Qed.

Lemma iyields_stands c i : istands c i -> (i <= length (concat rs))%nat -> iyields v c (drop i (concat rs)).
Proof.
  remember (length (concat rs) - i)%nat as n eqn:Hn. revert c i Hn.
  induction n as [|n IH]; intros c i Hn Hst Hi.
  - assert (i = length (concat rs)) as -> by lia. rewrite drop_all.
    apply (stands_end enc_index IndexHeaderSize rs page Hf Hne) in Hst.
    constructor; unfold IndexHasNext, IndexNext, IndexParseNextKey; rewrite Hst; [apply Z.ltb_irrefl|].
    rewrite Z.leb_refl. reflexivity.
  - destruct (lookup_lt_is_Some_2 (concat rs) i) as [e He]; [lia|].
    destruct (istands_next rs page Hf Hwf Hne c i e Hst He) as (c' & H2 & <- & Hst').
    rewrite (drop_S _ _ _ He). econstructor; eauto using istands_more. apply IH; auto; lia.
Qed.

Lemma index_view_format : StronglySorted key_lt (map i_key (concat rs)) -> index_view v leftmost (concat rs).
Proof.
  intros Hs. constructor.
  - change (mkIndexEntry [] leftmost) with (ic_entry (leftmost_cursor leftmost)).
    apply iyields_next.
    + apply Z.ltb_lt. cbn [ic_offset fresh_index_cursor restart_offset_ format_view].
      pose proof (zlen_nonneg (blob enc_index rs)). change leftmost_ptr_offset with 11. change IndexHeaderSize with 15. lia.
    + exact (leftmost_step rs page leftmost Hleft no_pointer).
    + rewrite <- (drop_0 (concat rs)). apply iyields_stands; [|lia].
      exact (leftmost_stands rs page leftmost Hf Hne).
  - intros key lo hi Hc Hlo Hhi.
    destruct (IndexSeek_correct rs page leftmost Hf Hwf Hne Hleft Hs fresh_index_cursor key lo hi) as (c & HS & He & Hst & _).
    + left. reflexivity.
    + split; [exact Hc|]. split; assumption.
    + exists c. split; [exact HS|]. split; [|exact He].
      replace hi with (drop (length lo) (concat rs)) by (rewrite Hc; apply drop_app_length).
      apply iyields_stands; [exact Hst|]. rewrite Hc, length_app. lia.
Qed.
End index_laws.

Lemma index_page_view page leaf lm seps :
  index_page page leaf lm seps -> exists v, page_view page = Some v /\ index_view v lm seps.
Proof.
  intros (_ & Hs & _ & Hleft & rs & Hf & <- & Hwf & Hne). exists (format_view enc_index IndexHeaderSize rs page).
  split; [exact (format_page_view _ _ _ _ Hf)|]. apply index_view_format; assumption.
Qed.

(** ** Trees

    A tree of height [h]: the leaves are at height zero.  The first child of a
    node has the empty key; the key of any other child is the separator before
    it. *)
Record Leaf := mkLeaf { lf_id : Z; lf_entries : list Entry }.

Record Node (A : Type) := mkNode { nd_id : Z; nd_children : list (bytes * A) }.
Arguments mkNode {A} _ _.
Arguments nd_id {A} _.
Arguments nd_children {A} _.

Fixpoint tree (h : nat) : Type := match h with O => Leaf | S h' => Node (tree h') end.

Definition tree_id {h} : tree h -> Z := match h with O => lf_id | S h' => @nd_id (tree h') end.

Definition children {h} (t : tree (S h)) : list (bytes * tree h) := nd_children t.

(** The leaves below a list of children, and below a tree. *)
Definition below {A B} (f : A -> list B) (cs : list (bytes * A)) : list B := concat (map (fun c => f (snd c)) cs).

Fixpoint leaves {h} : tree h -> list Leaf :=
  match h with O => fun t => [t] | S h' => fun t => below leaves (nd_children t) end.

Definition leaf_entries (ls : list Leaf) : list Entry := concat (map lf_entries ls).

Definition entries {h} (t : tree h) : list Entry := leaf_entries (leaves t).

(** The ids of all pages of a tree. *)
Fixpoint tree_ids {h} : tree h -> list Z :=
  match h with O => fun t => [lf_id t] | S h' => fun t => nd_id t :: below tree_ids (nd_children t) end.

Definition pointer_to {h} (c : bytes * tree h) : IndexEntry := mkIndexEntry (fst c) (tree_id (snd c)).

(** The pages of the tree are what [load] finds. *)
Fixpoint rep (load : Z -> option bytes) {h} : tree h -> Prop :=
  match h with
  | O => fun t => exists page, load (lf_id t) = Some page /\ data_page page (lf_entries t)
  | S h' => fun t => exists page c0 cs,
      nd_children t = ([], c0) :: cs /\ load (nd_id t) = Some page /\
      index_page page (bool_decide (h' = O)) (tree_id c0) (map pointer_to cs) /\
      Forall (fun c => rep load (snd c)) (nd_children t)
  end.

(** A key lies in the range from [lo] up to [hi]; the empty key is minus infinity
    as a lower and plus infinity as an upper bound. *)
Definition below_bound (hi key : bytes) : Prop := hi = [] \/ key <k hi.
Definition in_range (lo hi key : bytes) : Prop := lo <=k key /\ below_bound hi key.

(** [P lo hi] of every child with the bounds that the separators give it. *)
Fixpoint children_within {A} (P : bytes -> bytes -> A -> Prop) (lo hi : bytes) (cs : list (bytes * A)) : Prop :=
  match cs with
  | [] => True
  | (_, c) :: cs' =>
      match cs' with
      | [] => P lo hi c
      | (k, _) :: _ => lo <k k /\ below_bound hi k /\ P lo k c /\ children_within P k hi cs'
      end
  end.

Fixpoint within {h} : bytes -> bytes -> tree h -> Prop :=
  match h with
  | O => fun lo hi t => Forall (fun e => in_range lo hi (key_ e)) (lf_entries t)
  | S h' => fun lo hi t => children_within within lo hi (nd_children t)
  end.

(** Neighbouring leaves know each other's ids. *)
Fixpoint linked (load : Z -> option bytes) (prev : Z) (ls : list Leaf) : Prop :=
  match ls with
  | [] => True
  | l :: ls' =>
      (exists page, load (lf_id l) = Some page /\ PrevPageId page = Some prev /\
         NextPageId page = Some (match ls' with [] => MaxPageId | n :: _ => lf_id n end)) /\
      linked load (lf_id l) ls'
  end.

(** The whole tree under the id [root] and its height; an empty partition has no
    tree. *)
Inductive partition (load : Z -> option bytes) : nat -> Z -> list Leaf -> Prop :=
  | partition_empty : partition load O MaxPageId []
  | partition_tree h (t : tree (S h)) :
      rep load t -> within [] [] t -> linked load MaxPageId (leaves t) -> NoDup (tree_ids t) ->
      tree_id t <> MaxPageId -> partition load (S h) (tree_id t) (leaves t).

Lemma partition_inv load h root ls : partition load (S h) root ls ->
  exists t : tree (S h), root = tree_id t /\ ls = leaves t /\ rep load t /\ within [] [] t /\
    linked load MaxPageId (leaves t) /\ NoDup (tree_ids t) /\ tree_id t <> MaxPageId.
Proof. inversion 1; subst. eauto 10. Qed.

(** ** Ranges *)
Lemma below_bound_trans hi a b : a <=k b -> below_bound hi b -> below_bound hi a.
Proof. intros Hab [->|Hb]; [left; reflexivity|right]. eapply key_le_lt_trans; eassumption. Qed.

Lemma in_range_low lo hi key : in_range lo hi key -> lo <=k key.
Proof. apply proj1. Qed.

(** The range of a child lies in the range of its parent. *)
Lemma in_range_left lo k hi key : below_bound hi k -> in_range lo k key -> k <> [] -> in_range lo hi key.
Proof.
  intros Hk [Hlo [->|Hlt]] Hne; [congruence|]. split; [exact Hlo|].
  eapply below_bound_trans; [apply key_lt_le; exact Hlt|exact Hk].
Qed.

Lemma in_range_right lo k hi key : lo <k k -> in_range k hi key -> in_range lo hi key.
Proof. intros Hk [Hlo Hhi]. split; [|exact Hhi]. apply key_lt_le. eapply key_lt_le_trans; eassumption. Qed.

Lemma key_nil_le key : [] <=k key.
Proof. unfold key_le. rewrite Compare_string. destruct key; simpl; lia. Qed.

Lemma key_lt_nonempty a b : a <k b -> b <> [].
Proof. intros H ->. apply (key_lt_irrefl a). eapply key_lt_le_trans; [exact H|apply key_nil_le]. Qed.

(** ** Children *)
Section children.
  Context {A : Type} (P : bytes -> bytes -> A -> Prop).

Lemma children_within_keys lo hi c cs :
  children_within P lo hi (c :: cs) -> Forall (fun x => lo <k fst x /\ below_bound hi (fst x)) cs.
Proof.
  revert lo c. induction cs as [|[k1 c1] cs IH]; intros lo [k0 c0] H; [constructor|].
  destruct H as (Hlt & Hb & _ & H). constructor; [auto|]. eapply Forall_impl; [|apply (IH _ _ H)].
  intros [k c] [Hk Hk']. split; [|exact Hk']. eapply key_lt_trans; eassumption.
Qed.

Lemma children_within_sorted lo hi c cs :
  children_within P lo hi (c :: cs) -> StronglySorted key_lt (map fst cs).
Proof.
  revert lo c. induction cs as [|[k1 c1] cs IH]; intros lo [k0 c0] H; [constructor|].
  destruct H as (_ & _ & _ & H). simpl. constructor; [exact (IH _ _ H)|].
  apply children_within_keys in H. apply Forall_forall. intros k Hk. apply in_map_iff in Hk as ([k' c'] & <- & Hk).
  rewrite Forall_forall in H. apply (H _ Hk).
Qed.

(** The child whose range holds a key. *)
Lemma child_for lo hi key k0 c0 cs :
  children_within P lo hi ((k0, c0) :: cs) -> in_range lo hi key ->
  exists pre k c suf lo' hi',
    (k0, c0) :: cs = pre ++ (k, c) :: suf /\ P lo' hi' c /\ in_range lo' hi' key /\
    Forall (fun x => fst x <=k key) (tl (pre ++ [(k, c)])) /\ Forall (fun x => key <k fst x) suf /\
    children_within P lo lo' pre /\ children_within P hi' hi suf /\
    (pre = [] -> lo' = lo) /\ (pre <> [] -> lo <k lo') /\ (suf = [] -> hi' = hi) /\ (suf <> [] -> hi' <> []).
Proof.
  revert lo k0 c0. induction cs as [|[k1 c1] cs IH]; intros lo k0 c0 H Hr.
  - exists [], k0, c0, [], lo, hi. simpl. repeat split; auto; try congruence; apply Hr.
  - pose proof (children_within_keys _ _ _ _ H) as Hks. destruct H as (Hlt & Hb & H0 & H).
    destruct (decide (k1 <=k key)) as [Hle|Hgt%key_not_le].
    + destruct (IH k1 k1 c1 H) as (pre & k & c & suf & lo' & hi' & Hs & HP & Hin & Hlo & Hhi & Hp & Hq & He & Hn & Hsuf).
      { split; [exact Hle|apply Hr]. }
      exists ((k0, c0) :: pre), k, c, suf, lo', hi'. rewrite Hs. split; [reflexivity|]. split; [exact HP|].
      split; [exact Hin|]. split; [|split; [exact Hhi|split; [|split; [exact Hq|split; [discriminate|split; [|exact Hsuf]]]]]].
      * cbn [tl app]. assert (Hl : exists l, pre ++ [(k, c)] = (k1, c1) :: l)
          by (destruct pre; simplify_eq/=; eauto).
        destruct Hl as [l Hl]. rewrite Hl in *. constructor; assumption.
      * destruct pre as [|x pre]; [simpl; rewrite (He eq_refl); exact H0|].
        injection Hs as <- Hs. simpl. split; [exact Hlt|]. split; [right; apply Hn; discriminate|]. split; [exact H0|exact Hp].
      * intros _. destruct pre as [|x pre]; [rewrite (He eq_refl); exact Hlt|].
        eapply key_lt_trans; [exact Hlt|apply Hn; discriminate].
    + exists [], k0, c0, ((k1, c1) :: cs), lo, k1. split; [reflexivity|]. split; [exact H0|].
      split; [split; [apply Hr|right; exact Hgt]|]. split; [constructor|].
      split; [|repeat split; auto; try congruence; intros _; exact (key_lt_nonempty _ _ Hlt)].
      constructor; [exact Hgt|]. apply children_within_keys in H. eapply Forall_impl; [|exact H].
      intros [k c] [Hk _]. eapply key_lt_trans; eassumption.
Qed.

(** Entries below the children: in the range of the node and in order. *)
Lemma children_entries (f : A -> list Entry) lo hi cs :
  (forall lo hi c, P lo hi c -> Forall (fun e => in_range lo hi (key_ e)) (f c)) ->
  children_within P lo hi cs -> Forall (fun e => in_range lo hi (key_ e)) (below f cs).
Proof.
  intros HP. revert lo. induction cs as [|[k0 c0] cs IH]; intros lo H; [constructor|].
  unfold below. cbn [map concat snd]. destruct cs as [|[k1 c1] cs].
  - simpl. rewrite app_nil_r. exact (HP _ _ _ H).
  - destruct H as (Hlt & Hb & H0 & H). apply Forall_app_2.
    + eapply Forall_impl; [|exact (HP _ _ _ H0)]. intros e He.
      apply (in_range_left lo k1); [exact Hb|exact He|exact (key_lt_nonempty _ _ Hlt)].
    + eapply Forall_impl; [|exact (IH _ H)]. intros e He. eapply in_range_right; eassumption.
Qed.

Lemma children_ordered (f : A -> list Entry) lo hi cs :
  (forall lo hi c, P lo hi c -> Forall (fun e => in_range lo hi (key_ e)) (f c)) ->
  (forall lo hi k c, In (k, c) cs -> P lo hi c -> StronglySorted key_lt (map key_ (f c))) ->
  children_within P lo hi cs -> StronglySorted key_lt (map key_ (below f cs)).
Proof.
  intros HP. revert lo. induction cs as [|[k0 c0] cs IH]; intros lo Hs H; [constructor|].
  unfold below. cbn [map concat snd]. rewrite map_app. destruct cs as [|[k1 c1] cs].
  - simpl. rewrite app_nil_r. apply (Hs lo hi k0); [left; reflexivity|exact H].
  - destruct H as (Hlt & Hb & H0 & H). apply StronglySorted_app_2.
    + pose proof (HP _ _ _ H0) as H1. pose proof (children_entries f _ _ _ HP H) as H2.
      intros x1 x2 Hx1 Hx2. apply list_elem_of_In in Hx1, Hx2.
      apply in_map_iff in Hx1 as (e1 & <- & He1). apply in_map_iff in Hx2 as (e2 & <- & He2).
      rewrite Forall_forall in H1, H2. destruct (H1 _ He1) as [_ [Hk|Hk]].
      * destruct (key_lt_nonempty _ _ Hlt Hk).
      * eapply key_lt_le_trans; [exact Hk|apply (H2 _ He2)].
    + apply (Hs lo k1 k0); [left; reflexivity|exact H0].
    + apply (IH k1); [|exact H]. intros lo' hi' k c Hc. apply (Hs lo' hi' k). right. exact Hc.
Qed.
End children.

Lemma below_cons {A B} (f : A -> list B) k c cs : below f ((k, c) :: cs) = f c ++ below f cs.
Proof. reflexivity. Qed.

Lemma below_app {A B} (f : A -> list B) a b : below f (a ++ b) = below f a ++ below f b.
Proof. unfold below. rewrite map_app, concat_app. reflexivity. Qed.

Lemma leaf_entries_app a b : leaf_entries (a ++ b) = leaf_entries a ++ leaf_entries b.
Proof. unfold leaf_entries. rewrite map_app, concat_app. reflexivity. Qed.

Lemma leaf_entries_split L l R : leaf_entries (L ++ l :: R) = leaf_entries L ++ lf_entries l ++ leaf_entries R.
Proof. rewrite leaf_entries_app. reflexivity. Qed.

Lemma leaf_entries_one l : leaf_entries [l] = lf_entries l.
Proof. apply app_nil_r. Qed.

Lemma entries_below {h} (cs : list (bytes * tree h)) : leaf_entries (below leaves cs) = below entries cs.
Proof. induction cs as [|[k c] cs IH]; [reflexivity|]. rewrite !below_cons, leaf_entries_app, IH. reflexivity. Qed.

Lemma leaves_node {h} (t : tree (S h)) : leaves t = below leaves (children t).
Proof. reflexivity. Qed.

Lemma entries_node {h} (t : tree (S h)) : entries t = below entries (children t).
Proof. apply entries_below. Qed.

Lemma rep_node get {h} (t : tree (S h)) : rep get t ->
  exists page (c0 : tree h) (cs : list (bytes * tree h)), children t = ([], c0) :: cs /\ get (tree_id t) = Some page /\
    index_page page (bool_decide (h = O)) (tree_id c0) (map pointer_to cs) /\
    rep get c0 /\ Forall (fun c => rep get (snd c)) cs.
Proof.
  intros (page & c0 & cs & Hcs & Hget & Hpage & Hreps). exists page, c0, cs. split; [exact Hcs|]. split; [exact Hget|].
  split; [exact Hpage|]. change (Forall (fun c => rep get (snd c)) (children t)) in Hreps. unfold children in Hreps.
  rewrite Hcs in Hreps. apply Forall_cons_1 in Hreps. exact Hreps.
Qed.

Lemma within_range {h} : forall lo hi (t : tree h), within lo hi t -> Forall (fun e => in_range lo hi (key_ e)) (entries t).
Proof.
  induction h as [|h IH]; intros lo hi t H.
  - unfold entries, leaf_entries. simpl in *. rewrite app_nil_r. exact H.
  - rewrite entries_node. exact (children_entries within entries lo hi _ IH H).
Qed.

Lemma entries_sorted {h} load : forall lo hi (t : tree h), rep load t -> within lo hi t -> StronglySorted key_lt (map key_ (entries t)).
Proof.
  induction h as [|h IH]; intros lo hi t Hr Hw.
  - unfold entries, leaf_entries. simpl in *. rewrite app_nil_r. destruct Hr as (page & _ & _ & Hs & _). exact Hs.
  - rewrite entries_node. destruct Hr as (page & c0 & cs & _ & _ & _ & Hr).
    apply (children_ordered within entries lo hi _ within_range); [|exact Hw].
    intros lo' hi' k c Hc. apply IH. rewrite Forall_forall in Hr. exact (Hr _ Hc).
Qed.

(** ** One step down *)

(** Seeking a key in an index page stops at the child whose range holds it. *)
Record seek_child (get : Z -> option bytes) {h} (t : tree (S h)) (key : bytes) (page : bytes) (v : PageView) (c : IndexCursor)
    (pre : list (bytes * tree h)) (k : bytes) (child : tree h) (suf : list (bytes * tree h)) (lo hi : bytes) : Prop := {
  sc_page : get (tree_id t) = Some page;
  sc_view : page_view page = Some v;
  sc_leaf : IsPointingToLeaf page = Some (bool_decide (h = O));
  sc_seek : IndexSeek v fresh_index_cursor key = Some c;
  sc_id : i_page_id (ic_entry c) = tree_id child;
  sc_rest : iyields v c (map pointer_to suf);
  sc_children : children t = pre ++ (k, child) :: suf;
  sc_child : rep get child;
  sc_later : Forall (fun x => rep get (snd x)) suf;
  sc_within : within lo hi child;
  sc_range : in_range lo hi key;
  sc_lower : Forall (fun e => key_ e <k key) (below entries pre);
  sc_upper : Forall (fun e => key <k key_ e) (below entries suf)
}.

Lemma IsPointingToLeaf_type page leaf :
  TypeOfPage page = Some (PageType_code (index_page_type leaf)) -> IsPointingToLeaf page = Some leaf.
Proof. intros H. unfold IsPointingToLeaf. rewrite H. destruct leaf; reflexivity. Qed.

Lemma pointer_last {h} pre k (c : tree h) : last_from None (map pointer_to (pre ++ [(k, c)])) = Some (mkIndexEntry k (tree_id c)).
Proof. rewrite map_app. apply last_from_snoc. Qed.

Lemma node_seek get {h} (t : tree (S h)) lo hi key :
  rep get t -> within lo hi t -> in_range lo hi key ->
  exists page v c pre k child suf lo' hi', seek_child get t key page v c pre k child suf lo' hi'.
Proof.
  intros (page & c0 & cs & Hcs & Hget & Hpage & Hreps) Hw Hr.
  destruct (index_page_view _ _ _ _ Hpage) as (v & Hv & Hiv). change (children_within within lo hi (children t)) in Hw.
  change (children t = ([], c0) :: cs) in Hcs. rewrite Hcs in Hw. destruct (child_for within lo hi key [] c0 cs Hw Hr)
    as (pre & k & c & suf & lo' & hi' & Hs & HP & Hin & Hlo & Hhi & Hp & Hq & He & Hn & _ & Hsne).
  assert (Hsplit : cs = tl (pre ++ [(k, c)]) ++ suf).
  { destruct pre; simplify_eq/=; [reflexivity|]. rewrite <- app_assoc. reflexivity. }
  destruct (iv_seek _ _ _ Hiv key (map pointer_to (tl (pre ++ [(k, c)]))) (map pointer_to suf)) as (ic & Hseek & Hy & Hic).
  { rewrite Hsplit at 1. apply map_app. }
  { apply Forall_map. exact Hlo. }
  { apply Forall_map. exact Hhi. }
  assert (Hch : children t = pre ++ (k, c) :: suf) by exact (eq_trans Hcs Hs).
  exists page, v, ic, pre, k, c, suf, lo', hi'. change (Forall (fun c => rep get (snd c)) (children t)) in Hreps. rewrite Hch in Hreps. apply Forall_app in Hreps as [_ [Hc Hsuf]%Forall_cons_1].
  constructor; try assumption.
  - apply IsPointingToLeaf_type, Hpage.
  - rewrite Hic. destruct pre as [|x pre]; simplify_eq/=; [reflexivity|]. rewrite pointer_last. reflexivity.
  - pose proof (children_entries within entries _ _ _ within_range Hp) as Hle.
    destruct pre as [|x pre]; [constructor|]. eapply Forall_impl; [|exact Hle]. intros e [_ [Hlo0|Hlt]].
    + destruct (key_lt_nonempty _ _ (Hn ltac:(discriminate)) Hlo0).
    + eapply key_lt_le_trans; [exact Hlt|apply Hin].
  - pose proof (children_entries within entries _ _ _ within_range Hq) as Hge.
    destruct suf as [|x suf]; [constructor|]. eapply Forall_impl; [|exact Hge]. intros e [Hle _].
    destruct Hin as [_ [Hnil|Hlt]]; [destruct (Hsne ltac:(discriminate) Hnil)|].
    eapply key_lt_le_trans; eassumption.
Qed.

(** ** Splitting at a key *)
Lemma split_lower key l : StronglySorted key_lt (map key_ l) ->
  exists lo hi, l = lo ++ hi /\ Forall (fun e => key_ e <k key) lo /\ Forall (fun e => key <=k key_ e) hi.
Proof.
  induction l as [|e l IH]; intros Hs; [exists [], []; auto|]. simpl in Hs. apply StronglySorted_inv in Hs as [Hs Hall].
  destruct (decide (key_ e <k key)) as [Hlt|Hge%key_not_lt].
  - destruct (IH Hs) as (lo & hi & -> & Hlo & Hhi). exists (e :: lo), hi. auto.
  - exists [], (e :: l). split; [reflexivity|]. split; [constructor|]. constructor; [exact Hge|].
    rewrite List.Forall_map in Hall. eapply Forall_impl; [|exact Hall]. intros x Hx. apply key_lt_le. eapply key_le_lt_trans; eassumption.
Qed.

Lemma split_upper key l : StronglySorted key_lt (map key_ l) ->
  exists lo hi, l = lo ++ hi /\ Forall (fun e => key_ e <=k key) lo /\ Forall (fun e => key <k key_ e) hi.
Proof.
  induction l as [|e l IH]; intros Hs; [exists [], []; auto|]. simpl in Hs. apply StronglySorted_inv in Hs as [Hs Hall].
  destruct (decide (key_ e <=k key)) as [Hle|Hgt%key_not_le].
  - destruct (IH Hs) as (lo & hi & -> & Hlo & Hhi). exists (e :: lo), hi. auto.
  - exists [], (e :: l). split; [reflexivity|]. split; [constructor|]. constructor; [exact Hgt|].
    rewrite List.Forall_map in Hall. eapply Forall_impl; [|exact Hall]. intros x Hx. eapply key_lt_trans; eassumption.
Qed.

Lemma split_unique {A} (P : A -> Prop) a b a' b' : a ++ b = a' ++ b' ->
  Forall P a -> Forall (fun x => ~ P x) b -> Forall P a' -> Forall (fun x => ~ P x) b' -> a = a' /\ b = b'.
Proof.
  revert a'. induction a as [|x a IH]; intros [|y a'] Heq Ha Hb Ha' Hb'; simpl in Heq.
  - auto.
  - subst b. apply Forall_cons_1 in Hb as [Hy _]. apply Forall_cons_1 in Ha' as [Hy' _]. contradiction.
  - subst b'. apply Forall_cons_1 in Hb' as [Hy _]. apply Forall_cons_1 in Ha as [Hy' _]. contradiction.
  - injection Heq as -> Heq. apply Forall_cons_1 in Ha as [_ Ha]. apply Forall_cons_1 in Ha' as [_ Ha'].
    destruct (IH a' Heq Ha Hb Ha' Hb') as [-> ->]. auto.
Qed.

Lemma Forall_above key l : Forall (fun e => key <k key_ e) l -> Forall (fun e => ~ key_ e <=k key) l.
Proof. apply Forall_impl. intros e He. apply key_not_le. exact He. Qed.

(** ** The pages below a node *)
Lemma child_ids get {h} (t : tree (S h)) : rep get t -> Forall (fun c => 0 <= tree_id (snd c) < 2 ^ 31) (children t).
Proof.
  intros (page & c0 & cs & Hcs & _ & (_ & _ & Hlm & _ & rs & _ & Hc & Hwf & _) & _).
  change (children t = ([], c0) :: cs) in Hcs. rewrite Hcs. constructor; [exact Hlm|].
  apply Forall_concat in Hwf. rewrite Hc in Hwf. rewrite List.Forall_map in Hwf.
  eapply Forall_impl; [|exact Hwf]. intros c [_ H]. exact H.
Qed.

Definition leaf_page (get : Z -> option bytes) (l : Leaf) : Prop :=
  exists page, get (lf_id l) = Some page /\ data_page page (lf_entries l).

Lemma Forall_below {A B} (f : A -> list B) (P : B -> Prop) cs : Forall (fun c => Forall P (f (snd c))) cs -> Forall P (below f cs).
Proof. intros H. apply Forall_concat, List.Forall_map. exact H. Qed.

Lemma leaf_pages get {h} : forall t : tree h, rep get t -> Forall (leaf_page get) (leaves t).
Proof.
  induction h as [|h IH]; intros t Hr; [constructor; [exact Hr|constructor]|].
  rewrite leaves_node. apply Forall_below. destruct Hr as (_ & _ & _ & _ & _ & _ & Hr).
  eapply Forall_impl; [|exact Hr]. intros c. apply IH.
Qed.

Lemma leaf_ids get {h} : forall t : tree (S h), rep get t -> Forall (fun l => 0 <= lf_id l < 2 ^ 31) (leaves t).
Proof.
  induction h as [|h IH]; intros t Hr; rewrite leaves_node; apply Forall_below.
  - eapply Forall_impl; [|exact (child_ids get t Hr)]. intros c Hc. constructor; [exact Hc|constructor].
  - destruct Hr as (_ & _ & _ & _ & _ & _ & Hr). eapply Forall_impl; [|exact Hr]. intros c. apply IH.
Qed.

(** A leaf knows the leaf before it. *)
Lemma last_from_cons {A} (x : A) l : last_from None (x :: l) = Some (default x (last_from None l)).
Proof.
  simpl. destruct l as [|y l _] using rev_ind; [reflexivity|]. rewrite !last_from_snoc. reflexivity.
Qed.

Lemma linked_prev load prev L l R : linked load prev (L ++ l :: R) ->
  exists page, load (lf_id l) = Some page /\
    PrevPageId page = Some (match last_from None L with Some p => lf_id p | None => prev end).
Proof.
  revert prev. induction L as [|x L IH]; intros prev [(page & H1 & H2 & H3) H]; [eauto|].
  destruct (IH _ H) as (page' & H1' & H2'). exists page'. split; [exact H1'|]. rewrite H2', last_from_cons.
  destruct (last_from None L); reflexivity.
Qed.

(** ** Changing links *)
Lemma write_at_middle a p b src : zlen p = zlen src -> write_at (a ++ p ++ b) (zlen a) src = a ++ src ++ b.
Proof.
  intros Hp. unfold write_at. rewrite ztake_app, zdrop_app_add by zlia. rewrite <- Hp, zdrop_app. reflexivity.
Qed.

(** The parts of a leaf: the header up to the links, the links, the rest. *)
Lemma data_page_parts page l : data_page page l ->
  exists a p n rest, page = a ++ p ++ n ++ rest /\ zlen a = prev_page_offset /\ zlen p = 4 /\ zlen n = 4 /\
    forall p' n', zlen p' = 4 -> zlen n' = 4 -> data_page (a ++ p' ++ n' ++ rest) l.
Proof.
  intros (Ht & Hs & rs & (hdr & pad & -> & Hh & Hb & Hlen & Hfit) & Hc & Hwf & Hne & Hrs).
  change HeaderSize with 19 in Hh. change page_size_offset with 9 in *.
  exists (ztake 11 hdr), (ztake 4 (zdrop 11 hdr)), (zdrop 15 hdr).
  exists (blob enc_entry rs ++ restart_array (region_offsets enc_entry HeaderSize rs) ++ EncodeFixed16 (zlen rs) ++ pad).
  assert (Hhdr : hdr = ztake 11 hdr ++ ztake 4 (zdrop 11 hdr) ++ zdrop 15 hdr).
  { change 15 with (11 + 4). rewrite <- (zdrop_zdrop 4 11 hdr) by lia. rewrite !ztake_zdrop. reflexivity. }
  assert (H1 : zlen (ztake 11 hdr) = 11) by (rewrite zlen_ztake; lia).
  split; [unfold format_page; rewrite Hhdr at 1; rewrite <- !app_assoc; reflexivity|].
  split; [exact H1|]. split; [rewrite zlen_ztake; [reflexivity|rewrite zlen_zdrop; lia]|].
  split; [rewrite zlen_zdrop; lia|]. intros p' n' Hp Hn.
  split; [|split; [exact Hs|exists rs; split; [|auto]]].
  - unfold TypeOfPage, format_page in *. change (Z.to_nat page_type_offset) with 8%nat in *.
    rewrite lookup_app_l in Ht by (unfold zlen in Hh; lia). rewrite lookup_app_l by (unfold zlen in H1; lia).
    unfold ztake. rewrite lookup_take_lt by lia. exact Ht.
  - exists (ztake 11 hdr ++ p' ++ n'), pad. split; [unfold format_page; rewrite <- !app_assoc; reflexivity|].
    split; [rewrite !zlen_app; change HeaderSize with 19; lia|]. split; [exact Hb|]. split; [|exact Hfit].
    change page_size_offset with 9. rewrite zdrop_app_le by lia. rewrite Hhdr, zdrop_app_le in Hlen by lia.
    destruct (zdrop 9 (ztake 11 hdr)) as [|b0 [|b1 l0]] eqn:E; [| |exact Hlen].
    1, 2: apply (f_equal zlen) in E; rewrite zlen_zdrop in E by lia; rewrite H1 in E; discriminate E.
Qed.

Lemma SetPrevPageId_spec page l id : data_page page l -> is_u32 id ->
  data_page (SetPrevPageId page id) l /\ PrevPageId (SetPrevPageId page id) = Some id /\
  NextPageId (SetPrevPageId page id) = NextPageId page /\ zlen (SetPrevPageId page id) = zlen page.
Proof.
  intros Hd Hid. destruct (data_page_parts _ _ Hd) as (a & p & n & rest & -> & Ha & Hp & Hn & Hall).
  assert (He : zlen (EncodeFixed32 id) = 4) by reflexivity.
  assert (Hset : SetPrevPageId (a ++ p ++ n ++ rest) id = a ++ EncodeFixed32 id ++ n ++ rest).
  { unfold SetPrevPageId. rewrite <- Ha. apply write_at_middle. lia. }
  rewrite Hset. split; [apply Hall; auto|]. split; [|split].
  - unfold PrevPageId. rewrite <- Ha, zdrop_app. apply fixed32_app, Hid.
  - unfold NextPageId, next_page_offset. rewrite <- Ha, !zdrop_app_add by lia. rewrite <- He at 1. rewrite zdrop_app.
    rewrite <- Hp, zdrop_app. reflexivity.
  - rewrite !zlen_app, He, Hp. reflexivity.
Qed.

Lemma SetNextPageId_spec page l id : data_page page l -> is_u32 id ->
  data_page (SetNextPageId page id) l /\ NextPageId (SetNextPageId page id) = Some id /\
  PrevPageId (SetNextPageId page id) = PrevPageId page /\ zlen (SetNextPageId page id) = zlen page.
Proof.
  intros Hd Hid. destruct (data_page_parts _ _ Hd) as (a & p & n & rest & -> & Ha & Hp & Hn & Hall).
  assert (He : zlen (EncodeFixed32 id) = 4) by reflexivity.
  assert (Hap : zlen (a ++ p) = next_page_offset) by (rewrite zlen_app; unfold next_page_offset; lia).
  assert (Hset : SetNextPageId (a ++ p ++ n ++ rest) id = a ++ p ++ EncodeFixed32 id ++ rest).
  { unfold SetNextPageId. rewrite <- Hap, (app_assoc a p). rewrite write_at_middle by lia. apply eq_sym, app_assoc. }
  rewrite Hset. split; [apply Hall; auto|]. split; [|split].
  - unfold NextPageId. rewrite <- Hap, (app_assoc a p), zdrop_app. apply fixed32_app, Hid.
  - unfold PrevPageId. rewrite <- Ha, !zdrop_app. destruct p as [|b0 [|b1 [|b2 [|b3 p]]]]; try (cbv in Hp; discriminate Hp).
    reflexivity.
  - rewrite !zlen_app, He, Hn. reflexivity.
Qed.

(** ** Pages that the builders finish *)
Lemma built_data_page opts l b :
  valid_options opts -> Forall wf_args l -> l <> [] -> add_all opts Reset l = Some b ->
  StronglySorted key_lt (map a_key l) -> data_page (built_page opts b) (map stored_entry l).
Proof.
  intros Hopt Hargs Hl Hb Hs. destruct (built_regions opts l b Hopt Hargs Hl Hb) as (rs & Hf & Hc & Hwf & Hne & Hrs & _).
  split; [|split; [rewrite map_map; exact Hs|exists rs; auto]].
  destruct (add_all_inv opts l [] [] Reset b Hopt (Reset_inv opts Hopt) Hargs Hb) as (init & lastr & Hinv & _ & _).
  pose proof (Finish_format opts init lastr b Hopt Hinv) as HF. unfold built_page, TypeOfPage.
  destruct (Finish opts b) as [page b']. apply HF.
Qed.

Lemma built_index_page opts leaf lm l page :
  valid_index_options opts -> 0 <= lm < 2 ^ 31 -> Forall (fun e => 0 <= i_page_id e < 2 ^ 31) l ->
  StronglySorted key_lt (map i_key l) -> build_index opts leaf lm l = Some page -> index_page page leaf lm l.
Proof.
  intros Hopt Hlm Hl Hs Hb.
  destruct (build_index_regions opts leaf lm l page Hopt ltac:(width) Hl Hb) as (rs & Hf & Hc & Hwf & Hne & _ & Ht & Hd).
  split; [exact Ht|]. split; [exact Hs|]. split; [exact Hlm|]. split; [exact Hd|]. exists rs. auto.
Qed.
