(* ===== verification/ReadPath.v ===== *)
(** * Reading a key (src/tasks/read_task.cpp, task.cpp, page_manager.cpp)

    Descending the index from the root to the leaf whose range holds a key, and
    the point reads [Read] and [Floor].  Pages are loaded by page id through the
    mapping snapshot of the reader: [load] is [PageManager::FindPage] and
    [LoadDataPage], which answer with a page or an error.  [None] is a failed
    assertion, an access outside a page or not enough fuel. *)

From S2P Require Import Prelude Coding Comparator PageFormat DataPage Regions DataPageIter RegionCopy IndexPage IndexPageIter.
From S2P Require Import PageIo Overflow LargeValue FileNames Branch Manifest Tree.

#[export] Instance KvError_eq_dec : EqDecision KvError.
Proof. solve_decision. Defined.

(** ** Values *)
Section values.
  Context (opts : KvOptions) (segment_size : Z).
  Context (get_overflow : bytes -> option bytes).
  Context (decompress_dict decompress_raw : bytes -> option bytes).

(** [ResolveValueOrMetadata]; [get_overflow] is [GetOverflowValue] under the
    mapping of the reader, the two decompressors are third-party code. *)
Definition ResolveValueOrMetadata (e : Entry) (extract_metadata : bool) : option (KvError * bytes) :=
  if large_value_ e then
    if negb extract_metadata then Some (NoError, [])
    else
      match DecodeLargeValueHeader (value_ e) segment_size with
      | None => Some (Corrupted, [])
      | Some header =>
          if num_segments header =? 0 then Some (Corrupted, [])
          else if metadata_length header =? 0 then Some (NoError, [])
          else
            found ← DecodeLargeValueContent (value_ e) header 0 true;
            match found with
            | Some (_, Some metadata) => Some (NoError, metadata)
            | _ => Some (Corrupted, [])
            end
      end
  else
    raw_value ← (if overflow_ e then get_overflow (value_ e) else Some (value_ e));
    match compression_type_ e with
    | CompNone => Some (NoError, raw_value)
    | CompDictionary => Some (match decompress_dict raw_value with Some v => (NoError, v) | None => (Corrupted, []) end)
    | CompStandalone => Some (match decompress_raw raw_value with Some v => (NoError, v) | None => (Corrupted, []) end)
    end.
End values.

Section read.
  Context (load : Z -> KvError * bytes).

(** ** Descending the index *)

(** [PageManager::SeekIndex]; one round per level of the tree. *)
Fixpoint SeekIndex (fuel : nat) (current_id : Z) (key : bytes) : option (KvError * Z) :=
  match fuel with
  | O => None
  | S fuel' =>
      match load current_id with
      | (NoError, page) =>
          v ← page_view page;
          idx_it ← IndexSeek v fresh_index_cursor key;
          let child_id := i_page_id (ic_entry idx_it) in
          leaf ← IsPointingToLeaf page;
          if leaf : bool then Some (NoError, child_id) else SeekIndex fuel' child_id key
      | (err, _) => Some (err, MaxPageId)
      end
  end.

(** ** Point reads *)

(** [LocateAndProcess]; [found] is the result of [FindRoot] with the root page
    id, [handler] resolves the value of the entry. *)
Definition LocateAndProcess {A} (fuel : nat) (found : KvError * Z) (search_key : bytes)
    (handler : Entry -> option (KvError * A)) : option (KvError * option (A * Z * Z)) :=
  match found with
  | (NoError, root_id) =>
      if root_id =? MaxPageId then Some (NotFound, None)
      else
        '(err, page_id) ← SeekIndex fuel root_id search_key;
        match err with
        | NoError =>
            match load page_id with
            | (NoError, page) =>
                v ← page_view page;
                '(hit, iter) ← Seek v fresh_cursor search_key;
                if negb hit || negb (Compare (key_ (entry_ iter)) search_key =? 0) then Some (NotFound, None)
                else
                  '(fetch_err, value) ← handler (entry_ iter);
                  match fetch_err with
                  | NoError => Some (NoError, Some (value, timestamp_ (entry_ iter), expire_ts_ (entry_ iter)))
                  | _ => Some (fetch_err, None)
                  end
            | (err, _) => Some (err, None)
            end
        | _ => Some (err, None)
        end
  | (err, _) => Some (err, None)
  end.

(** [ReadTask::Read] with a string for the value or the metadata and, for a very
    large value, a sink [get_large] if the caller gave one. *)
Definition Read {L} (fuel : nat) (found : KvError * Z) (search_key : bytes)
    (resolve : Entry -> bool -> option (KvError * bytes)) (get_large : option (bytes -> option (KvError * L)))
    (extract_metadata : bool) : option (KvError * option (bytes * option L * Z * Z)) :=
  LocateAndProcess fuel found search_key (fun e =>
    '(err, value) ← resolve e extract_metadata;
    match err, get_large with
    | NoError, Some get_large =>
        if large_value_ e then
          '(err, large) ← get_large (value_ e); Some (err, (value, Some large))
        else Some (NoError, (value, None))
    | _, _ => Some (err, (value, None))
    end).

(** [ReadTask::Read] into a buffer only: the entry has to be a very large value. *)
Definition ReadLarge {L} (fuel : nat) (found : KvError * Z) (search_key : bytes)
    (get_large : option (bytes -> option (KvError * L))) : option (KvError * option (option L * Z * Z)) :=
  LocateAndProcess fuel found search_key (fun e =>
    match get_large with
    | Some get_large =>
        if large_value_ e then '(err, large) ← get_large (value_ e); Some (err, Some large) else Some (InvalidArgs, None)
    | None => Some (InvalidArgs, None)
    end).

(** The entry that [ReadTask::Floor] finds: in the leaf of the key, or at the end
    of the leaf before it, which is checked to have one. *)
Definition floor_entry_of (fuel : nat) (found : KvError * Z) (search_key : bytes) : option (KvError * option Entry) :=
  match found with
  | (NoError, root_id) =>
      if root_id =? MaxPageId then Some (NotFound, None)
      else
        '(err, page_id) ← SeekIndex fuel root_id search_key;
        match err with
        | NoError =>
            match load page_id with
            | (NoError, page) =>
                v ← page_view page;
                '(hit, iter) ← SeekFloor v fresh_cursor search_key;
                if hit : bool then Some (NoError, Some (entry_ iter))
                else
                  prev_id ← PrevPageId page;
                  if prev_id =? MaxPageId then Some (NotFound, None)
                  else
                    match load prev_id with
                    | (NoError, prev_page) =>
                        v ← page_view prev_page;
                        '(hit, iter) ← SeekFloor v (Cursor_Reset iter) search_key;
                        if hit : bool then Some (NoError, Some (entry_ iter)) else None
                    | (err, _) => Some (err, None)
                    end
            | (err, _) => Some (err, None)
            end
        | _ => Some (err, None)
        end
  | (err, _) => Some (err, None)
  end.

(** [ReadTask::Floor]: floor key, value, timestamps. *)
Definition Floor {L} (fuel : nat) (found : KvError * Z) (search_key : bytes)
    (resolve : Entry -> bool -> option (KvError * bytes)) (get_large : option (bytes -> option (KvError * L)))
    : option (KvError * option (bytes * bytes * option L * Z * Z)) :=
  '(err, entry) ← floor_entry_of fuel found search_key;
  match err, entry with
  | NoError, Some e =>
      '(err, value) ← resolve e false;
      match err with
      | NoError =>
          '(err, large) ← (match get_large with
                           | Some get_large =>
                               if large_value_ e then '(err, large) ← get_large (value_ e); Some (err, Some large)
                               else Some (NoError, None)
                           | None => Some (NoError, None)
                           end);
          match err with
          | NoError => Some (NoError, Some (key_ e, value, large, timestamp_ e, expire_ts_ e))
          | _ => Some (err, None)
          end
      | _ => Some (err, None)
      end
  | NoError, None => None
  | _, _ => Some (err, None)
  end.
End read.
