(* ===== verification/ReadSpec.v ===== *)
(** * What a read finds

    The point reads of ReadPath on a partition whose pages form a tree: [Read]
    finds the entry of a key if there is one, and [Floor] the last entry not
    above a key. *)

From stdpp Require Import sorting.
From S2P Require Import Prelude Coding Comparator PageFormat DataPage Regions DataPageIter RegionCopy IndexPage IndexPageIter.
From S2P Require Import PageIo Overflow LargeValue FileNames Branch Manifest Tree ReadPath.

(** The pages that load without an error. *)
Definition good (load : Z -> KvError * bytes) (id : Z) : option bytes :=
  match load id with (NoError, page) => Some page | _ => None end.

Lemma good_load load id page : good load id = Some page -> load id = (NoError, page).
Proof. unfold good. destruct (load id) as [[] p]; try discriminate. congruence. Qed.

Section descend.
  Context (load : Z -> KvError * bytes).

(** The leaf for a key, with the leaves before and behind it. *)
Record leaf_for (ls : list Leaf) (key : bytes) (L : list Leaf) (l : Leaf) (R : list Leaf) : Prop := {
  fl_split : ls = L ++ l :: R;
  fl_rep : exists page, load (lf_id l) = (NoError, page) /\ data_page page (lf_entries l);
  fl_lower : Forall (fun e => key_ e <k key) (leaf_entries L);
  fl_upper : Forall (fun e => key <k key_ e) (leaf_entries R)
}.

(** Descending takes one round per level. *)
Lemma SeekIndex_spec h : forall (t : tree (S h)) lo hi key fuel,
  rep (good load) t -> within lo hi t -> in_range lo hi key -> (h < fuel)%nat ->
  exists L l R, SeekIndex load fuel (tree_id t) key = Some (NoError, lf_id l) /\ leaf_for (leaves t) key L l R.
Proof.
  induction h as [|h IH]; intros t lo hi key fuel Hrep Hw Hr Hfuel; (destruct fuel as [|fuel]; [lia|]);
    destruct (node_seek _ t lo hi key Hrep Hw Hr) as (page & v & c & pre & k & child & suf & lo' & hi' & [H1 H2 H3 H4 H5 H6 H7 H8 H9 H10 H11 H12 H13]);
    cbn [SeekIndex]; rewrite (good_load _ _ _ H1), H2; cbn [mbind option_bind]; rewrite H4; cbn [mbind option_bind];
    rewrite H3; cbn [mbind option_bind bool_decide decide]; rewrite H5.
  - exists (below leaves pre), child, (below leaves suf). split; [reflexivity|]. constructor.
    + rewrite leaves_node, H7, below_app, below_cons. reflexivity.
    + destruct H8 as (p & Hp & Hd). exists p. split; [exact (good_load _ _ _ Hp)|exact Hd].
    + rewrite entries_below. exact H12.
    + rewrite entries_below. exact H13.
  - destruct (IH child lo' hi' key fuel H8 H10 H11 ltac:(lia)) as (L & l & R & HS & [F1 F2 F3 F4]).
    exists (below leaves pre ++ L), l, (R ++ below leaves suf). split; [exact HS|]. constructor.
    + rewrite leaves_node, H7, below_app, below_cons, F1, <- !app_assoc. reflexivity.
    + exact F2.
    + rewrite leaf_entries_app, entries_below. apply Forall_app_2; assumption.
    + rewrite leaf_entries_app, entries_below. apply Forall_app_2; assumption.
Qed.

Lemma partition_seek h root ls key fuel :
  partition (good load) (S h) root ls -> (h < fuel)%nat ->
  root <> MaxPageId /\ exists L l R, SeekIndex load fuel root key = Some (NoError, lf_id l) /\ leaf_for ls key L l R.
Proof.
  intros Hp Hf. destruct (partition_inv _ _ _ _ Hp) as (t & -> & -> & Hrep & Hw & _ & _ & Hid). split; [exact Hid|].
  apply (SeekIndex_spec h t [] [] key fuel Hrep Hw); [|exact Hf]. split; [apply key_nil_le|left; reflexivity].
Qed.
End descend.

(** ** Point reads *)
Section point.
  Context (load : Z -> KvError * bytes).

Lemma handled {A} (x : option (KvError * A)) (ts ex : Z) :
  ('(err, value) ← x; match err with NoError => Some (NoError, Some (value, ts, ex)) | _ => Some (err, None) end) =
  ('(err, value) ← x; Some (err, if bool_decide (err = NoError) then Some (value, ts, ex) else None)).
Proof. destruct x as [[[] a]|]; reflexivity. Qed.

(** The entry of a key is handed to the handler. *)
Lemma Locate_hit {A} height root ls key fuel (handler : Entry -> option (KvError * A)) e :
  partition (good load) height root ls -> (height <= fuel)%nat -> e ∈ leaf_entries ls -> key_ e = key ->
  LocateAndProcess load fuel (NoError, root) key handler =
  '(err, value) ← handler e;
  Some (err, if bool_decide (err = NoError) then Some (value, timestamp_ e, expire_ts_ e) else None).
Proof.
  intros Hp Hf He Hk. destruct height as [|h]; [inversion Hp; subst; inversion He|].
  destruct (partition_seek load h root ls key fuel Hp Hf) as (Hroot & L & l & R & HS & [-> (page & Hl & Hd) Hlo Hhi]).
  unfold LocateAndProcess. apply Z.eqb_neq in Hroot. rewrite Hroot, HS. cbn [mbind option_bind]. rewrite Hl.
  destruct (data_page_view _ _ Hd) as (v & Hv & Hdv). rewrite Hv. cbn [mbind option_bind].
  assert (Hin : e ∈ lf_entries l).
  { rewrite leaf_entries_split in He.
    apply elem_of_app in He as [He|He]; [|apply elem_of_app in He as [He|He]].
    - rewrite list.Forall_forall in Hlo. destruct (key_lt_irrefl key). rewrite <- Hk at 1. exact (Hlo e He).
    - exact He.
    - rewrite list.Forall_forall in Hhi. destruct (key_lt_irrefl key). rewrite <- Hk at 2. exact (Hhi e He). }
  destruct Hd as (_ & Hs & _). destruct (split_lower key _ Hs) as (lo & hi & Hsp & Hl1 & Hl2).
  pose proof (dv_seek _ _ Hdv fresh_cursor key lo hi Hsp Hl1 Hl2) as Hseek.
  assert (Hhd : exists hi', hi = e :: hi').
  { rewrite Hsp in Hin, Hs. apply elem_of_app in Hin as [Hin|Hin].
    - rewrite list.Forall_forall in Hl1. destruct (key_lt_irrefl key). rewrite <- Hk at 1. exact (Hl1 e Hin).
    - destruct hi as [|x hi]; [inversion Hin|]. exists hi. f_equal. apply elem_of_cons in Hin as [->|Hin]; [reflexivity|].
      rewrite map_app in Hs. apply StronglySorted_app_1_r in Hs. simpl in Hs. apply StronglySorted_inv in Hs as [_ Hs].
      rewrite List.Forall_map in Hs. rewrite list.Forall_forall in Hs. specialize (Hs e Hin).
      apply Forall_cons_1 in Hl2 as [Hx _]. rewrite Hk in Hs. destruct (key_lt_irrefl key). eapply key_le_lt_trans; eassumption. }
  destruct Hhd as [hi' ->]. destruct Hseek as (c & -> & Hc & _). cbn [mbind option_bind negb orb].
  rewrite Hc, Hk, Compare_refl. cbn [Z.eqb negb]. apply handled.
Qed.

(** A key without an entry is not found. *)
Lemma Locate_miss {A} height root ls key fuel (handler : Entry -> option (KvError * A)) :
  partition (good load) height root ls -> (height <= fuel)%nat -> (forall e, e ∈ leaf_entries ls -> key_ e <> key) ->
  LocateAndProcess load fuel (NoError, root) key handler = Some (NotFound, None).
Proof.
  intros Hp Hf Hno. destruct height as [|h]; [inversion Hp; subst; reflexivity|].
  destruct (partition_seek load h root ls key fuel Hp Hf) as (Hroot & L & l & R & HS & [-> (page & Hl & Hd) Hlo Hhi]).
  unfold LocateAndProcess. apply Z.eqb_neq in Hroot. rewrite Hroot, HS. cbn [mbind option_bind]. rewrite Hl.
  destruct (data_page_view _ _ Hd) as (v & Hv & Hdv). rewrite Hv. cbn [mbind option_bind].
  destruct Hd as (_ & Hs & _). destruct (split_lower key _ Hs) as (lo & hi & Hsp & Hl1 & Hl2).
  pose proof (dv_seek _ _ Hdv fresh_cursor key lo hi Hsp Hl1 Hl2) as Hseek. destruct hi as [|x hi].
  - rewrite Hseek. reflexivity.
  - destruct Hseek as (c & -> & Hc & _). cbn [mbind option_bind negb orb].
    assert (Hx : key_ x <> key).
    { apply Hno. rewrite leaf_entries_split, Hsp. apply elem_of_app; right; apply elem_of_app; left; apply elem_of_app; right; left. }
    rewrite Hc. destruct (Z.eqb_spec (Compare (key_ x) key) 0) as [Heq|]; [|reflexivity].
    destruct (Hx (proj1 (Compare_eq _ _) Heq)).
Qed.

Lemma floor_flags_app e hi more e' : floor_flags e hi e' -> floor_flags e (hi ++ more) e'.
Proof using Type.
  intros (x & Hx & H). exists x. split; [|exact H]. destruct Hx as [->|Hx]; [left; reflexivity|right].
  destruct hi; [discriminate Hx|exact Hx].
Qed.

(** The floor in a leaf whose keys are all below the key is its last entry. *)
Lemma page_floor page l key c :
  data_page page l -> Forall (fun e => key_ e <k key) l ->
  exists v lo e c', page_view page = Some v /\ l = lo ++ [e] /\ SeekFloor v c key = Some (true, c') /\
    floor_fields e (entry_ c') /\ floor_flags e [] (entry_ c').
Proof using Type.
  intros Hd Hl. destruct (data_page_view _ _ Hd) as (v & Hv & Hdv).
  destruct (exists_last (data_page_nonempty _ _ Hd)) as (lo & e & ->).
  destruct (dv_floor _ _ Hdv c key (lo ++ [e]) [] (eq_sym (app_nil_r _))) as [_ HF].
  - eapply Forall_impl; [|exact Hl]. intros x. apply key_lt_le.
  - constructor.
  - destruct (HF lo e eq_refl) as (c' & HS & H). exists v, lo, e, c'. auto.
Qed.

(** The link of a leaf leads to the leaf before it. *)
Lemma previous_leaf h root ls L l R page :
  partition (good load) (S h) root ls -> ls = L ++ l :: R -> load (lf_id l) = (NoError, page) ->
  exists prev, PrevPageId page = Some prev /\
    match last_from None L with
    | None => prev = MaxPageId
    | Some p => prev = lf_id p /\ prev <> MaxPageId /\ exists pp, load prev = (NoError, pp) /\ data_page pp (lf_entries p)
    end.
Proof.
  intros Hp Hsp Hl. destruct (partition_inv _ _ _ _ Hp) as (t & _ & -> & Hrep & _ & Hlk & _ & _).
  pose proof (leaf_pages _ t Hrep) as Hpg. pose proof (leaf_ids _ t Hrep) as Hids. rewrite Hsp in Hlk, Hpg, Hids.
  destruct (linked_prev _ _ _ _ _ Hlk) as (page' & Hp1 & Hp2). apply good_load in Hp1.
  assert (page' = page) as -> by congruence. eexists. split; [exact Hp2|].
  destruct L as [|p L _] using rev_ind; [reflexivity|]. rewrite last_from_snoc. split; [reflexivity|].
  rewrite <- app_assoc in Hids, Hpg. apply Forall_app in Hids as [_ [Hpid _]%Forall_cons_1].
  apply Forall_app in Hpg as [_ [(pp & Hpp & Hpd) _]%Forall_cons_1].
  split; [unfold MaxPageId; lia|]. exists pp. split; [exact (good_load _ _ _ Hpp)|exact Hpd].
Qed.

(** The entry that [Floor] finds, when [lo] are the entries not above the key. *)
Lemma floor_entry_spec height root ls key fuel lo hi :
  partition (good load) height root ls -> (height <= fuel)%nat -> leaf_entries ls = lo ++ hi ->
  Forall (fun e => key_ e <=k key) lo -> Forall (fun e => key <k key_ e) hi ->
  (lo = [] -> floor_entry_of load fuel (NoError, root) key = Some (NotFound, None)) /\
  (forall lo' e, lo = lo' ++ [e] -> exists e', floor_entry_of load fuel (NoError, root) key = Some (NoError, Some e') /\
     floor_fields e e' /\ floor_flags e hi e').
Proof.
  intros Hp Hf Hsplit Hlo Hhi. destruct height as [|h].
  { inversion Hp; subst. split; [reflexivity|]. intros lo' e ->. destruct lo'; discriminate Hsplit. }
  destruct (partition_seek load h root ls key fuel Hp Hf) as (Hr & L & l & R & HS & [Hsp (page & Hl & Hd) HL HR]).
  unfold floor_entry_of. apply Z.eqb_neq in Hr. rewrite Hr, HS. cbn [mbind option_bind]. rewrite Hl.
  destruct (data_page_view _ _ Hd) as (v & Hv & Hdv). rewrite Hv. cbn [mbind option_bind].
  destruct Hd as (_ & Hs & _). destruct (split_upper key _ Hs) as (lo1 & hi1 & Hsp1 & Hlo1 & Hhi1).
  destruct (dv_floor _ _ Hdv fresh_cursor key lo1 hi1 Hsp1 Hlo1 Hhi1) as [Hnone Hsome].
  assert (Heq : lo = leaf_entries L ++ lo1 /\ hi = hi1 ++ leaf_entries R).
  { apply (split_unique (fun e => key_ e <=k key)); auto using Forall_above.
    - rewrite <- Hsplit, Hsp, leaf_entries_split, Hsp1, <- !app_assoc. reflexivity.
    - apply Forall_app_2; [|exact Hlo1]. eapply Forall_impl; [|exact HL]. intros e. apply key_lt_le.
    - apply Forall_app_2; apply Forall_above; assumption. }
  destruct Heq as [-> ->]. destruct lo1 as [|x lo1 _] using rev_ind.
  - rewrite (Hnone eq_refl). cbn [mbind option_bind]. rewrite app_nil_r.
    destruct (previous_leaf _ _ _ _ _ _ _ Hp Hsp Hl) as (prev & Hp2 & Hprev). rewrite Hp2. cbn [mbind option_bind].
    destruct L as [|p L _] using rev_ind.
    + rewrite Hprev, Z.eqb_refl. split; [reflexivity|]. intros lo' e Hlo'. destruct lo'; discriminate Hlo'.
    + rewrite last_from_snoc in Hprev. destruct Hprev as (-> & Hm & pp & Hpp & Hpd).
      destruct (Z.eqb_spec (lf_id p) MaxPageId) as [|_]; [contradiction|]. rewrite Hpp.
      rewrite leaf_entries_app in HL |- *. apply Forall_app in HL as [_ HL]. rewrite leaf_entries_one in HL |- *.
      destruct (page_floor pp (lf_entries p) key (Cursor_Reset fresh_cursor) Hpd HL) as (v' & pl & e0 & c' & -> & Hpl & HF & Hff & Hfg).
      cbn [mbind option_bind]. rewrite HF. cbn [mbind option_bind]. rewrite Hpl.
      split; [intros Hn; destruct (leaf_entries L), pl; discriminate Hn|].
      intros lo' e Hlo'. rewrite app_assoc in Hlo'. apply app_inj_tail in Hlo' as [_ ->].
      exists (entry_ c'). split; [reflexivity|]. split; [exact Hff|]. apply (floor_flags_app e [] _ _ Hfg).
  - destruct (Hsome lo1 x eq_refl) as (c' & -> & Hff & Hfg). cbn [mbind option_bind].
    split; [intros Hn; destruct (leaf_entries L), lo1; discriminate Hn|].
    intros lo' e Hlo'. rewrite app_assoc in Hlo'. apply app_inj_tail in Hlo' as [_ ->].
    exists (entry_ c'). split; [reflexivity|]. split; [exact Hff|exact (floor_flags_app _ _ _ _ Hfg)].
Qed.
End point.

(** ** Properties *)

(** C8: A point read finds the entry of its key.  When the pages of a partition
    form a tree, [Read] returns the resolved value and the timestamps of the
    entry with that key, wherever in the tree it lies; the content of a very
    large value comes from the sink; an error of either is passed on; and a key
    without an entry is not found.  The descent takes at most one round per level
    of the tree. *)
Theorem read_finds_entry {L} load height root ls key fuel resolve (get_large : option (bytes -> option (KvError * L))) meta :
  partition (good load) height root ls -> (height <= fuel)%nat ->
  let answer := Read load fuel (NoError, root) key resolve get_large meta in
  ((forall e, e ∈ leaf_entries ls -> key_ e <> key) -> answer = Some (NotFound, None)) /\
  (forall e err value, e ∈ leaf_entries ls -> key_ e = key -> resolve e meta = Some (err, value) ->
     (err <> NoError -> answer = Some (err, None)) /\
     (err = NoError -> large_value_ e = false \/ get_large = None ->
        answer = Some (NoError, Some (value, None, timestamp_ e, expire_ts_ e))) /\
     (forall g err' content, err = NoError -> large_value_ e = true -> get_large = Some g -> g (value_ e) = Some (err', content) ->
        answer = Some (err', if bool_decide (err' = NoError)
                             then Some (value, Some content, timestamp_ e, expire_ts_ e) else None))).
Proof.
  intros Hp Hf answer. split; [exact (Locate_miss load height root ls key fuel _ Hp Hf)|].
  intros e err value He Hk Hres. unfold answer, Read. rewrite (Locate_hit load height root ls key fuel _ e Hp Hf He Hk), Hres.
  cbn [mbind option_bind]. split; [|split].
  - intros Herr. destruct err, get_large; try reflexivity; congruence.
  - intros -> [Hl|Hl]; rewrite Hl; [destruct get_large|]; reflexivity.
  - intros g err' content -> Hl -> Hg. rewrite Hl, Hg. reflexivity.
Qed.

(** C10: [Floor] finds the last entry [e] whose key is not above the search key, in
    the leaf of the key or at the end of the leaf before it, or reports that there
    is none.  The answer is that of resolving an entry [found] which has the key,
    value, overflow flag, compression kind and timestamp of [e]; but its large-value
    flag and its expire timestamp are those of [e] or those of the entry behind [e],
    which [SeekFloor] may leave behind.  They are those of [e] whenever the entry
    behind it has the same two fields.  Errors of the resolution and of the sink for
    very large values are passed on. *)
Theorem floor_finds_entry {L} load height root ls key fuel resolve (get_large : option (bytes -> option (KvError * L))) lo hi :
  partition (good load) height root ls -> (height <= fuel)%nat ->
  leaf_entries ls = lo ++ hi -> Forall (fun e => key_ e <=k key) lo -> Forall (fun e => key <k key_ e) hi ->
  let answer := Floor load fuel (NoError, root) key resolve get_large in
  (lo = [] -> answer = Some (NotFound, None)) /\
  (forall lo' e, lo = lo' ++ [e] ->
     exists found, floor_fields e found /\ floor_flags e hi found /\
       ((forall n, head hi = Some n -> large_value_ n = large_value_ e /\ expire_ts_ n = expire_ts_ e) -> found = e) /\
       forall err value, resolve found false = Some (err, value) ->
         (err <> NoError -> answer = Some (err, None)) /\
         (err = NoError -> large_value_ found = false \/ get_large = None ->
            answer = Some (NoError, Some (key_ e, value, None, timestamp_ e, expire_ts_ found))) /\
         (forall g err' content, err = NoError -> large_value_ found = true -> get_large = Some g ->
            g (value_ e) = Some (err', content) ->
            answer = Some (err', if bool_decide (err' = NoError)
                                 then Some (key_ e, value, Some content, timestamp_ e, expire_ts_ found) else None))).
Proof.
  intros Hp Hf Hsplit Hlo Hhi answer. unfold answer, Floor.
  destruct (floor_entry_spec load height root ls key fuel lo hi Hp Hf Hsplit Hlo Hhi) as [Hnone Hsome].
  split; [intros Hn; rewrite (Hnone Hn); reflexivity|]. intros lo' e Hlo'.
  destruct (Hsome lo' e Hlo') as (e' & -> & Hff & Hfg). exists e'. split; [exact Hff|]. split; [exact Hfg|].
  destruct Hff as (K1 & K2 & K3 & K4 & K5). cbn [mbind option_bind]. split.
  - intros Hflags. destruct Hfg as (x & Hx & K6 & K7).
    assert (Hxe : large_value_ x = large_value_ e /\ expire_ts_ x = expire_ts_ e) by (destruct Hx as [->|Hx]; auto).
    destruct e, e'; simpl in *; destruct Hxe; congruence.
  - intros err value ->. cbn [mbind option_bind]. rewrite K1, K2, K5. split; [|split].
    + intros Hn. destruct err; congruence.
    + intros -> [Hl| ->]; [rewrite Hl; destruct get_large|]; reflexivity.
    + intros g err' content -> -> -> ->. cbn [mbind option_bind]. destruct err'; reflexivity.
Qed.

(** The search key falls between two entries of one region of a leaf: [e] is the
    last entry not above it, [n] is behind [e], and the region starts below the
    key. *)
Record between (load : Z -> KvError * bytes) (ls : list Leaf) (key : bytes) (e n : Entry) : Prop := {
  bt_keys : key_ e <=k key /\ key <k key_ n;
  bt_page : exists l page pre x y suf, l ∈ ls /\ good load (lf_id l) = Some page /\
    let rs := pre ++ (x ++ e :: n :: y) :: suf in
    lf_entries l = concat rs /\ page_format enc_entry HeaderSize rs page /\ Forall (Forall wf_entry) rs /\
    Forall (fun r => r <> []) rs /\ start_key key_ (x ++ e :: n :: y) <k key
}.

Lemma floor_entry_between load height root ls key fuel e n :
  partition (good load) height root ls -> (height <= fuel)%nat -> between load ls key e n ->
  e ∈ leaf_entries ls /\ floor_entry_of load fuel (NoError, root) key = Some (NoError, Some
    (mkEntry (key_ e) (value_ e) (overflow_ e) (large_value_ n) (compression_type_ e) (timestamp_ e) (expire_ts_ n))).
Proof.
  intros Hp Hf [[He Hn] (l & page & pre & x & y & suf & Hl & Hpage & Hes & Hfmt & Hwf & Hne & Hst)].
  assert (Hin : e ∈ lf_entries l /\ n ∈ lf_entries l).
  { rewrite Hes, concat_app. cbn [concat]. split; apply elem_of_app; right; apply elem_of_app; left; apply elem_of_app; right;
      [left|right; left]. }
  assert (Hof : forall ms z, l ∈ ms -> z ∈ lf_entries l -> z ∈ leaf_entries ms).
  { intros ms z (a & b & ->)%list_elem_of_split Hz. rewrite leaf_entries_split. apply elem_of_app; right; apply elem_of_app; left; exact Hz. }
  split; [exact (Hof ls e Hl (proj1 Hin))|].
  destruct height as [|h]; [inversion Hp; subst; inversion Hl|].
  destruct (partition_seek load h root ls key fuel Hp Hf) as (Hr & L & l' & R & HS & [Hsp (page' & Hl' & Hd) HL HR]).
  assert (l' = l) as ->.
  { rewrite Hsp in Hl. apply elem_of_app in Hl as [Hl|[->|Hl]%elem_of_cons]; [exfalso|reflexivity|exfalso].
    - rewrite list.Forall_forall in HL. exact (key_lt_irrefl _ (key_lt_trans _ _ _ Hn (HL n (Hof L n Hl (proj2 Hin))))).
    - rewrite list.Forall_forall in HR. exact (key_lt_irrefl _ (key_lt_le_trans _ _ _ (HR e (Hof R e Hl (proj1 Hin))) He)). }
  apply good_load in Hpage. assert (page' = page) as -> by congruence.
  unfold floor_entry_of. apply Z.eqb_neq in Hr. rewrite Hr, HS. cbn [mbind option_bind]. rewrite Hl'.
  rewrite (format_page_view _ _ _ _ Hfmt). cbn [mbind option_bind].
  destruct Hd as (_ & Hs & _). rewrite Hes in Hs.
  destruct (SeekFloor_stale _ page Hfmt Hwf Hne Hs key fresh_cursor pre x e n y suf eq_refl Hst He Hn) as (c' & -> & Hc).
  cbn [mbind option_bind]. rewrite Hc. reflexivity.
Qed.

(** C39: [Floor] can lose a value.  Let the search key fall between two entries of
    one region of a leaf, and not on the start of the region, where the first entry
    is an inline value and the second a very large value.  Then a [Read] of the key
    of the first entry returns its value and its expire timestamp, but [Floor] takes
    it for a very large value: it returns an empty value and the expire timestamp of
    the second entry. *)
Theorem floor_loses_value {L} load height root ls key fuel segment_size get_overflow decompress_dict decompress_raw e n :
  let resolve := ResolveValueOrMetadata segment_size get_overflow decompress_dict decompress_raw in
  partition (good load) height root ls -> (height <= fuel)%nat -> between load ls key e n ->
  large_value_ e = false -> overflow_ e = false -> compression_type_ e = CompNone -> large_value_ n = true ->
  Read load fuel (NoError, root) (key_ e) resolve (@None (bytes -> option (KvError * L))) false =
    Some (NoError, Some (value_ e, None, timestamp_ e, expire_ts_ e)) /\
  Floor load fuel (NoError, root) key resolve (@None (bytes -> option (KvError * L))) =
    Some (NoError, Some (key_ e, [], None, timestamp_ e, expire_ts_ n)).
Proof.
  intros resolve Hp Hf Hb Hl Ho Hc Hn. destruct (floor_entry_between _ _ _ _ _ _ _ _ Hp Hf Hb) as [He HF]. split.
  - unfold Read. rewrite (Locate_hit load height root ls _ fuel _ e Hp Hf He eq_refl). unfold resolve, ResolveValueOrMetadata.
    rewrite Hl, Ho, Hc. reflexivity.
  - unfold Floor. rewrite HF. cbn [mbind option_bind]. unfold resolve, ResolveValueOrMetadata. cbn [large_value_]. rewrite Hn. reflexivity.
Qed.

(** ** An example: two leaves under one index page *)
Module ReadExample.
Definition opts : KvOptions := example_options.

Definition args1 : list AddArgs :=
  [mkArgs [1; 1] [10] false 100 0 CompNone false; mkArgs [1; 2] [11] false 101 0 CompNone false].
Definition args2 : list AddArgs :=
  [mkArgs [2] [12] false 102 0 CompNone false; mkArgs [3] [4; 0; 0; 0; 5; 0; 0; 0] false 103 9 CompNone true].

Definition built (l : list AddArgs) : bytes :=
  match add_all opts Reset l with Some b => built_page opts b | None => [] end.

Definition page1 : bytes := SetNextPageId (SetPrevPageId (built args1) MaxPageId) 9.
Definition page2 : bytes := SetNextPageId (SetPrevPageId (built args2) 7) MaxPageId.
Definition root_page : bytes := default [] (build_index opts true 7 [mkIndexEntry [2] 9]).

Definition load (id : Z) : KvError * bytes :=
  if id =? 4 then (NoError, root_page) else if id =? 7 then (NoError, page1)
  else if id =? 9 then (NoError, page2) else (ResourceMissing, []).

Definition leaf1 : Leaf := mkLeaf 7 (map stored_entry args1).
Definition leaf2 : Leaf := mkLeaf 9 (map stored_entry args2).

Lemma built_ok l : add_all opts Reset l <> None -> Forall wf_args l -> l <> [] -> StronglySorted key_lt (map a_key l) ->
  data_page (built l) (map stored_entry l).
Proof.
  intros Hb Hw Hl Hs. unfold built. destruct (add_all opts Reset l) as [b|] eqn:E; [|congruence].
  apply built_data_page; auto. split; [vm_compute; split; [discriminate|reflexivity]|discriminate].
Qed.

Lemma linked_page l prev next : data_page (built l) (map stored_entry l) -> is_u32 prev -> is_u32 next ->
  let page := SetNextPageId (SetPrevPageId (built l) prev) next in
  data_page page (map stored_entry l) /\ PrevPageId page = Some prev /\ NextPageId page = Some next.
Proof.
  intros Hd Hp Hn page. destruct (SetPrevPageId_spec _ _ prev Hd Hp) as (H1 & H2 & _ & _).
  destruct (SetNextPageId_spec _ _ next H1 Hn) as (H3 & H4 & H5 & _). rewrite H2 in H5. auto.
Qed.

Lemma page1_ok : data_page page1 (map stored_entry args1) /\ PrevPageId page1 = Some MaxPageId /\ NextPageId page1 = Some 9.
Proof.
  apply linked_page; [|vm_compute; split; [discriminate|reflexivity]..].
  apply built_ok; [vm_compute; discriminate|repeat constructor; discriminate|discriminate|repeat constructor].
Qed.

Lemma page2_ok : data_page page2 (map stored_entry args2) /\ PrevPageId page2 = Some 7 /\ NextPageId page2 = Some MaxPageId.
Proof.
  apply linked_page; [|vm_compute; split; [discriminate|reflexivity]..].
  apply built_ok; [vm_compute; discriminate|repeat constructor; discriminate|discriminate|repeat constructor].
Qed.

Lemma root_ok : index_page root_page true 7 [mkIndexEntry [2] 9].
Proof.
  apply (built_index_page opts); [vm_compute; repeat split; discriminate|lia|repeat constructor; discriminate|repeat constructor|].
  vm_compute. reflexivity.
Qed.

Definition the_tree : tree 1 := mkNode 4 [([], leaf1); ([2], leaf2)].

Lemma load1 : good load 7 = Some page1.
Proof. reflexivity. Qed.

Lemma load2 : good load 9 = Some page2.
Proof. reflexivity. Qed.

Lemma the_tree_rep : rep (good load) the_tree.
Proof.
  exists root_page, leaf1, [([2], leaf2)]. split; [reflexivity|]. split; [reflexivity|]. split; [exact root_ok|].
  constructor; [exists page1; exact (conj load1 (proj1 page1_ok))|].
  constructor; [exists page2; exact (conj load2 (proj1 page2_ok))|constructor].
Qed.

Lemma the_tree_within : within [] [] the_tree.
Proof.
  split; [reflexivity|]. split; [left; reflexivity|].
  split; repeat constructor; discriminate || (right; reflexivity) || (left; reflexivity).
Qed.

Lemma the_tree_linked : linked (good load) MaxPageId [leaf1; leaf2].
Proof.
  split; [exists page1; exact (conj load1 (proj2 page1_ok))|].
  split; [exists page2; exact (conj load2 (proj2 page2_ok))|exact I].
Qed.

Lemma example_partition : partition (good load) 1 4 [leaf1; leaf2].
Proof.
  refine (partition_tree (good load) 0 the_tree the_tree_rep the_tree_within the_tree_linked _ _).
  - do 3 (constructor; [intros Hin; apply list_elem_of_In in Hin; simpl in Hin; lia|]). constructor.
  - discriminate.
Qed.

Definition resolve (e : Entry) (meta : bool) : option (KvError * bytes) :=
  ResolveValueOrMetadata 64 (fun _ => None) (fun _ => None) (fun _ => None) e meta.

(** Reading a key of the second leaf. *)
Lemma read_finds_entry_witness :
  Read load 1 (NoError, 4) [2] resolve (@None (bytes -> option (KvError * bytes))) false =
    Some (NoError, Some ([12], None, 102, 0)).
Proof.
  pose proof (read_finds_entry load 1 4 [leaf1; leaf2] [2] 1 resolve (@None (bytes -> option (KvError * bytes))) false
    example_partition (le_n 1)) as [_ H].
  destruct (H (stored_entry (mkArgs [2] [12] false 102 0 CompNone false)) NoError [12]) as (_ & H1 & _).
  - right. right. left.
  - reflexivity.
  - reflexivity.
  - exact (H1 eq_refl (or_intror eq_refl)).
Defined.

(** The floor of a key before the second leaf is the last entry of the first. *)
Lemma floor_finds_entry_witness :
  Floor load 1 (NoError, 4) [1; 9] resolve (@None (bytes -> option (KvError * bytes))) =
    Some (NoError, Some ([1; 2], [11], None, 101, 0)).
Proof.
  destruct (floor_finds_entry load 1 4 [leaf1; leaf2] [1; 9] 1 resolve (@None (bytes -> option (KvError * bytes)))
    (map stored_entry args1) (map stored_entry args2) example_partition (le_n 1) eq_refl) as [_ H].
  - repeat constructor; discriminate.
  - repeat constructor.
  - destruct (H [stored_entry (mkArgs [1; 1] [10] false 100 0 CompNone false)]
      (stored_entry (mkArgs [1; 2] [11] false 101 0 CompNone false)) eq_refl) as (found & _ & _ & Hsame & Hans).
    rewrite Hsame in Hans by (intros n Hn; injection Hn as <-; split; reflexivity).
    exact (proj1 (proj2 (Hans NoError [11] eq_refl)) eq_refl (or_intror eq_refl)).
Defined.

(** The second leaf is one region. *)
Lemma page2_region : page_format enc_entry HeaderSize [map stored_entry args2] page2 /\ Forall (Forall wf_entry) [map stored_entry args2].
Proof.
  destruct page2_ok as [(_ & _ & rs & Hf & Hc & Hwf & Hne & Hrs) _].
  assert (Hn : zlen rs = 1).
  { pose proof (format_page_view _ _ _ _ Hf) as Hv. apply (f_equal (fmap restart_num_)) in Hv.
    cbn [fmap option_fmap option_map restart_num_ format_view] in Hv. vm_compute in Hv. injection Hv as Hv. symmetry. exact Hv. }
  destruct rs as [|r [|r' rs]]; [discriminate Hn| |rewrite !zlen_cons in Hn; pose proof (zlen_nonneg rs); lia].
  cbn [concat] in Hc. rewrite app_nil_r in Hc. subst r. auto.
Qed.

(** The floor of a key between the two entries of the second leaf. *)
Lemma floor_loses_value_witness :
  Read load 1 (NoError, 4) [2] resolve (@None (bytes -> option (KvError * bytes))) false =
    Some (NoError, Some ([12], None, 102, 0)) /\
  Floor load 1 (NoError, 4) [2; 5] resolve (@None (bytes -> option (KvError * bytes))) =
    Some (NoError, Some ([2], [], None, 102, 9)).
Proof.
  apply (floor_loses_value load 1 4 [leaf1; leaf2] [2; 5] 1 64 (fun _ => None) (fun _ => None) (fun _ => None)
    (stored_entry (mkArgs [2] [12] false 102 0 CompNone false))
    (stored_entry (mkArgs [3] [4; 0; 0; 0; 5; 0; 0; 0] false 103 9 CompNone true)) example_partition (le_n 1)); try reflexivity.
  destruct page2_region as [Hf Hwf]. split; [split; [discriminate|reflexivity]|].
  exists leaf2, page2, [], [], [], []. split; [right; left|]. split; [exact load2|]. split; [reflexivity|].
  split; [exact Hf|]. split; [exact Hwf|]. split; [constructor; [discriminate|constructor]|reflexivity].
Defined.
End ReadExample.
