(* ===== verification/ScanPath.v ===== *)
(** * Scanning a range (src/tasks/scan_task.cpp)

    [ScanIterator] walks the leaves of a tree in key order.  It keeps the path of
    index pages to the next leaf on a stack, loads a batch of leaves ahead and
    delivers their entries; [ScanTask::Scan] collects the entries of a key range
    up to the limits of a request. *)

From S2P Require Import Prelude Coding Comparator PageFormat DataPage Regions DataPageIter RegionCopy IndexPage IndexPageIter.
From S2P Require Import PageIo Overflow LargeValue FileNames Branch Manifest Tree ReadPath.

Definition max_read_pages_batch : Z := max_overflow_pointers.
Definition kDefaultScanPrefetchPageCount : Z := 6.

(** [ScanRequest::SetPrefetchPageNum] *)
Definition SetPrefetchPageNum (pages : Z) : Z :=
  let n := if pages =? 0 then kDefaultScanPrefetchPageCount else pages in
  if max_read_pages_batch <? n then max_read_pages_batch else n.

(** An index page with the iterator on it. *)
Record IndexFrame := mkFrame { fr_page : bytes; fr_view : PageView; fr_iter : IndexCursor }.

Definition frame_id (f : IndexFrame) : Z := i_page_id (ic_entry (fr_iter f)).

(** [si_stack] has the lowest index page first; [si_view] and [si_iter] are the
    data page iterator. *)
Record ScanIterator := mkScan {
  prefetch_page_num_ : Z;
  prefetched_pages_ : list bytes;
  prefetched_offset_ : Z;
  prefetched_count_ : Z;
  si_stack : list IndexFrame;
  si_view : PageView;
  si_iter : Cursor
}.

Definition new_scan (prefetch_pages : Z) : ScanIterator :=
  mkScan prefetch_pages [] 0 0 [] (mkPageView [] 0 0) fresh_cursor.

Definition ResetPrefetchState (s : ScanIterator) : ScanIterator :=
  mkScan (prefetch_page_num_ s) [] 0 0 (si_stack s) (si_view s) (si_iter s).

Definition with_stack (s : ScanIterator) (stack : list IndexFrame) : ScanIterator :=
  mkScan (prefetch_page_num_ s) (prefetched_pages_ s) (prefetched_offset_ s) (prefetched_count_ s) stack (si_view s) (si_iter s).

Definition ClearIndexStack (s : ScanIterator) : ScanIterator := with_stack s [].

Definition with_iter (s : ScanIterator) (c : Cursor) : ScanIterator :=
  mkScan (prefetch_page_num_ s) (prefetched_pages_ s) (prefetched_offset_ s) (prefetched_count_ s) (si_stack s) (si_view s) c.

Section scan.
  Context (load : Z -> KvError * bytes).

(** ** The index stack *)

(** [BuildIndexStack]: one round per level of the tree.  A failure clears the
    stack. *)
Fixpoint BuildIndexStack (fuel : nat) (key : bytes) (page_id : Z) (stack : list IndexFrame) : option (KvError * list IndexFrame) :=
  match fuel with
  | O => None
  | S fuel' =>
      match load page_id with
      | (NoError, page) =>
          v ← page_view page;
          idx_it ← IndexSeek v fresh_index_cursor key;
          let f := mkFrame page v idx_it in
          if frame_id f =? MaxPageId then Some (EndOfFile, [])
          else
            leaf ← IsPointingToLeaf page;
            if leaf : bool then Some (NoError, f :: stack) else BuildIndexStack fuel' key (frame_id f) (f :: stack)
      | (err, _) => Some (err, [])
      end
  end.

(** The inner loop of [AdvanceToNextLeaf]: down to the first leaf under a page. *)
Fixpoint descend (fuel : nat) (descend_id : Z) (stack : list IndexFrame) : option (KvError * list IndexFrame) :=
  match fuel with
  | O => None
  | S fuel' =>
      match load descend_id with
      | (NoError, page) =>
          v ← page_view page;
          '(ok, it) ← IndexNext v fresh_index_cursor;
          if ok : bool then
            let f := mkFrame page v it in
            leaf ← IsPointingToLeaf page;
            if leaf : bool then Some (NoError, f :: stack) else descend fuel' (frame_id f) (f :: stack)
          else None
      | (err, _) => Some (err, [])
      end
  end.

Fixpoint AdvanceToNextLeaf (fuel : nat) (stack : list IndexFrame) : option (KvError * list IndexFrame) :=
  match stack with
  | [] => Some (EndOfFile, [])
  | f :: rest =>
      '(more, it) ← (if IndexHasNext (fr_view f) (fr_iter f) then IndexNext (fr_view f) (fr_iter f)
                     else Some (false, fr_iter f));
      if more : bool then
        let f := mkFrame (fr_page f) (fr_view f) it in
        leaf ← IsPointingToLeaf (fr_page f);
        if leaf : bool then Some (NoError, f :: rest) else descend fuel (frame_id f) (f :: rest)
      else AdvanceToNextLeaf fuel rest
  end.

(** ** Loading leaves ahead *)

(** [IoMgr()->ReadPages] for the file pages of these page ids: all pages, or an
    error. *)
Fixpoint ReadPages (ids : list Z) : KvError * list bytes :=
  match ids with
  | [] => (NoError, [])
  | id :: ids =>
      match load id with
      | (NoError, page) => match ReadPages ids with (NoError, pages) => (NoError, page :: pages) | (err, _) => (err, []) end
      | (err, _) => (err, [])
      end
  end.

(** The loop of [PrefetchFromStack]; [n] more leaves may be taken.  The array of
    leaf ids has [max_read_pages_batch] slots. *)
Fixpoint prefetch_loop (fuel n : nat) (leaf_id : Z) (ids : list Z) (stack : list IndexFrame)
    : option (KvError * list Z * list IndexFrame) :=
  match n with
  | O => Some (NoError, ids, stack)
  | S n' =>
      if leaf_id =? MaxPageId then Some (NoError, ids, stack)
      else if max_read_pages_batch <=? zlen ids then None
      else
        let ids := ids ++ [leaf_id] in
        '(err, stack) ← AdvanceToNextLeaf fuel stack;
        match err with
        | NoError =>
            prefetch_loop fuel n' (match stack with f :: _ => frame_id f | [] => MaxPageId end) ids stack
        | EndOfFile => Some (NoError, ids, stack)
        | _ => Some (err, ids, stack)
        end
  end.

Definition PrefetchFromStack (fuel : nat) (s : ScanIterator) : option (KvError * ScanIterator) :=
  let s := ResetPrefetchState s in
  match si_stack s with
  | [] => Some (EndOfFile, s)
  | f :: _ =>
      '(err, ids, stack) ← prefetch_loop fuel (Z.to_nat (prefetch_page_num_ s)) (frame_id f) [] (si_stack s);
      let s := with_stack s stack in
      match err with
      | NoError =>
          match ReadPages ids with
          | (NoError, pages) =>
              let s := mkScan (prefetch_page_num_ s) pages 0 (zlen pages) stack (si_view s) (si_iter s) in
              Some (if zlen pages =? 0 then EndOfFile else NoError, s)
          | (err, _) => Some (err, s)
          end
      | _ => Some (err, s)
      end
  end.

(** [ConsumePrefetchedPage]; the page has to have an entry. *)
Definition ConsumePrefetchedPage (s : ScanIterator) : option (KvError * ScanIterator) :=
  if prefetched_count_ s <=? prefetched_offset_ s then Some (EndOfFile, s)
  else
    page ← prefetched_pages_ s !! Z.to_nat (prefetched_offset_ s);
    v ← page_view page;
    let c := Cursor_Reset (si_iter s) in
    if HasNext v c then
      Some (NoError, mkScan (prefetch_page_num_ s) (prefetched_pages_ s) (prefetched_offset_ s + 1) (prefetched_count_ s)
                       (si_stack s) v c)
    else None.

Definition LoadNextDataPage (fuel : nat) (s : ScanIterator) : option (KvError * ScanIterator) :=
  if prefetched_count_ s <=? prefetched_offset_ s then
    '(err, s) ← PrefetchFromStack fuel s;
    match err with NoError => ConsumePrefetchedPage s | _ => Some (err, s) end
  else ConsumePrefetchedPage s.

(** ** Moving *)
Definition ScanNext (fuel : nat) (s : ScanIterator) : option (KvError * ScanIterator) :=
  '(err, s) ← (if negb (HasNext (si_view s) (si_iter s)) then LoadNextDataPage fuel s else Some (NoError, s));
  match err with
  | NoError => '(_, c) ← Next (si_view s) (si_iter s); Some (NoError, with_iter s c)
  | _ => Some (err, s)
  end.

(** [found] is the result of [FindRoot] with the root of the data or TTL tree. *)
Definition ScanSeek (fuel : nat) (s : ScanIterator) (found : KvError * Z) (key : bytes) : option (KvError * ScanIterator) :=
  let s := ClearIndexStack (ResetPrefetchState s) in
  match found with
  | (NoError, root_id) =>
      if root_id =? MaxPageId then Some (EndOfFile, s)
      else
        '(err, stack) ← BuildIndexStack fuel key root_id [];
        let s := with_stack s stack in
        match err with
        | NoError =>
            '(err, s) ← PrefetchFromStack fuel s;
            match err with
            | NoError =>
                '(err, s) ← ConsumePrefetchedPage s;
                match err with
                | NoError =>
                    '(hit, c) ← Seek (si_view s) (si_iter s) key;
                    let s := with_iter s c in
                    if hit : bool then Some (NoError, s) else ScanNext fuel s
                | _ => Some (err, s)
                end
            | _ => Some (err, s)
            end
        | _ => Some (err, s)
        end
  | (err, _) => Some (err, s)
  end.

(** ** Collecting a range *)
Record ScanRequest := mkScanRequest {
  begin_key_ : bytes;
  begin_inclusive_ : bool;
  end_key_ : bytes;
  end_inclusive_ : bool;
  page_entries_ : Z;
  page_size_ : Z
}.

Record KvEntry := mkKvEntry { kv_key : bytes; kv_value : bytes; kv_timestamp : Z; kv_expire_ts : Z }.

(** [ScanIterator::ResolveValue] *)
Definition ResolveValue (resolve : Entry -> bool -> option (KvError * bytes)) (e : Entry) : option (KvError * bytes) :=
  if large_value_ e then Some (LargeValueUnsupported, []) else resolve e false.

(** Whether a key is before the end of the range; an empty end key is infinite. *)
Definition before_end (r : ScanRequest) (key : bytes) : bool :=
  (zlen (end_key_ r) =? 0) || (Compare key (end_key_ r) <? 0) || (end_inclusive_ r && (Compare key (end_key_ r) =? 0)).

Definition kv_size (e : KvEntry) : Z := zlen (kv_key e) + zlen (kv_value e) + 8 + 8.

(** The loop; [n] more entries fit the limit on their number, [acc] are those
    so far and [result_size] their size.  The result says whether entries of the
    range remain. *)
Fixpoint Scan_loop (fuel n : nat) (resolve : Entry -> bool -> option (KvError * bytes)) (r : ScanRequest)
    (s : ScanIterator) (acc : list KvEntry) (result_size : Z) : option (KvError * list KvEntry * bool) :=
  let e := entry_ (si_iter s) in
  if before_end r (key_ e) then
    match n with
    | O => Some (NoError, acc, true)
    | S n' =>
        '(err, value) ← ResolveValue resolve e;
        match err with
        | NoError =>
            let entry := mkKvEntry (key_ e) value (timestamp_ e) (expire_ts_ e) in
            if (0 <? result_size) && (page_size_ r <? result_size + kv_size entry) then Some (NoError, acc, true)
            else
              '(err, s) ← ScanNext fuel s;
              match err with
              | NoError => Scan_loop fuel n' resolve r s (acc ++ [entry]) (result_size + kv_size entry)
              | EndOfFile => Some (NoError, acc ++ [entry], false)
              | _ => Some (err, acc ++ [entry], false)
              end
        | EndOfFile => None
        | _ => Some (err, acc, false)
        end
    end
  else Some (NoError, acc, false).

Definition Scan (fuel : nat) (resolve : Entry -> bool -> option (KvError * bytes)) (found : KvError * Z) (prefetch : Z)
    (r : ScanRequest) : option (KvError * list KvEntry * bool) :=
  if negb ((0 <? page_entries_ r) && (0 <? page_size_ r)) then None
  else
    '(err, s) ← ScanSeek fuel (new_scan prefetch) found (begin_key_ r);
    match err with
    | NoError =>
        '(err, s) ← (if negb (begin_inclusive_ r) && (Compare (key_ (entry_ (si_iter s))) (begin_key_ r) =? 0)
                     then ScanNext fuel s else Some (NoError, s));
        match err with
        | NoError => Scan_loop fuel (Z.to_nat (page_entries_ r)) resolve r s [] 0
        | EndOfFile => Some (NoError, [], false)
        | _ => Some (err, [], false)
        end
    | EndOfFile => Some (NoError, [], false)
    | _ => Some (err, [], false)
    end.
End scan.
