(* ===== verification/ScanSpec.v ===== *)
(** * What a scan delivers

    The iterator of ScanPath visits the entries of a tree in order from the first
    one not below the start key ([scan_seek_spec], [scan_next_spec]), and
    [ScanTask::Scan] returns the entries of the range in order, as many as the
    limits of the request allow. *)

From stdpp Require Import sorting.
From S2P Require Import Prelude Coding Comparator PageFormat DataPage Regions DataPageIter RegionCopy IndexPage IndexPageIter.
From S2P Require Import PageIo Overflow LargeValue FileNames Branch Manifest Tree ReadPath ReadSpec ScanPath.

Section scan.
  Context (load : Z -> KvError * bytes) (fuel : nat).

  Local Abbreviation get := (good load).

(** ** The stack of index pages *)

(** The children of a page of height [S h] that its iterator has not reached. *)
Record frame_ok {h} (f : IndexFrame) (cs : list (bytes * tree h)) : Prop := {
  fo_leaf : IsPointingToLeaf (fr_page f) = Some (bool_decide (h = O));
  fo_rest : iyields (fr_view f) (fr_iter f) (map pointer_to cs);
  fo_reps : Forall (fun c => rep get (snd c)) cs
}.

(** The leaves behind the path on the stack; the lowest page has height [S h]. *)
Inductive frames : nat -> list IndexFrame -> list Leaf -> Prop :=
  | frames_nil h : frames h [] []
  | frames_cons h f rest (cs : list (bytes * tree h)) ls :
      frame_ok f cs -> frames (S h) rest ls -> frames h (f :: rest) (below leaves cs ++ ls).

(** The leaves from the one that the stack points to. *)
Inductive stack_leaves : list IndexFrame -> list Leaf -> Prop :=
  | stack_end : stack_leaves [] []
  | stack_at f rest l ls :
      frame_id f = lf_id l -> frames O (f :: rest) ls -> (length (f :: rest) <= fuel)%nat ->
      stack_leaves (f :: rest) (l :: ls).

Lemma iyields_inv v c e es : iyields v c (e :: es) ->
  IndexHasNext v c = true /\ exists c', IndexNext v c = Some (true, c') /\ ic_entry c' = e /\ iyields v c' es.
Proof using Type. inversion 1; subst. eauto. Qed.

Lemma iyields_nil v c : iyields v c [] -> IndexHasNext v c = false.
Proof using Type. inversion 1; assumption. Qed.

Lemma descend_spec h : forall (t : tree (S h)) rest ls n,
  rep get t -> frames (S h) rest ls -> (h < n)%nat -> (S h + length rest <= fuel)%nat ->
  exists stack l more, descend load n (tree_id t) rest = Some (NoError, stack) /\
    leaves t = l :: more /\ stack_leaves stack (l :: more ++ ls) /\ length stack = (S h + length rest)%nat.
Proof.
  induction h as [|h IH]; intros t rest ls n Hrep Hfr Hn Hlen; (destruct n as [|n]; [lia|]);
    destruct (rep_node _ t Hrep) as (page & c0 & cs & Hcs & Hget & Hpage & Hc0 & Hreps);
    destruct (index_page_view _ _ _ _ Hpage) as (v & Hv & Hiv);
    destruct (iyields_inv _ _ _ _ (iv_fresh _ _ _ Hiv)) as (_ & c & HN & Hc & Hy);
    pose proof (IsPointingToLeaf_type _ _ (proj1 Hpage)) as Hleaf;
    cbn [descend]; rewrite (good_load _ _ _ Hget), Hv; cbn [mbind option_bind]; rewrite HN;
    cbn [mbind option_bind]; rewrite Hleaf; cbn [mbind option_bind bool_decide decide];
    (assert (Hf : frame_ok (mkFrame page v c) cs) by (constructor; assumption));
    (assert (Hid : frame_id (mkFrame page v c) = tree_id c0) by (unfold frame_id; simpl; rewrite Hc; reflexivity)).
  - eexists (_ :: rest), c0, (below leaves cs). split; [reflexivity|]. split; [rewrite leaves_node, Hcs; reflexivity|].
    split; [|reflexivity]. constructor; [exact Hid|constructor; assumption|simpl in *; lia].
  - rewrite Hid. destruct (IH c0 (mkFrame page v c :: rest) (below leaves cs ++ ls) n Hc0) as (stack & l & more & HD & Hl & Hs & Hlen');
      [constructor; assumption|lia|simpl; lia|].
    exists stack, l, (more ++ below leaves cs). split; [exact HD|].
    split; [rewrite leaves_node, Hcs, below_cons, Hl; reflexivity|]. rewrite <- app_assoc. split; [exact Hs|].
    rewrite Hlen'. simpl. lia.
Qed.

Lemma Advance_spec stack : forall h ls, frames h stack ls -> (h + length stack <= fuel)%nat ->
  exists stack', AdvanceToNextLeaf load fuel stack = Some (match ls with [] => EndOfFile | _ => NoError end, stack') /\
    stack_leaves stack' ls.
Proof.
  induction stack as [|f rest IH]; intros h ls Hfr Hlen; inversion Hfr as [|h' f' rest' cs ls' Hf Hrest]; subst.
  - exists []. split; [reflexivity|constructor].
  - cbn [AdvanceToNextLeaf]. destruct Hf as [Hleaf Hy Hreps]. destruct cs as [|[k c] cs].
    + rewrite (iyields_nil _ _ Hy). cbn [mbind option_bind]. apply (IH (S h) ls' Hrest). simpl in Hlen. lia.
    + destruct (iyields_inv _ _ _ _ Hy) as (-> & c' & -> & Hc & Hy'). cbn [mbind option_bind fr_page].
      rewrite Hleaf. cbn [mbind option_bind]. apply Forall_cons_1 in Hreps as [Hc0 Hreps].
      assert (Hf : frame_ok (mkFrame (fr_page f) (fr_view f) c') cs) by (constructor; assumption).
      assert (Hid : frame_id (mkFrame (fr_page f) (fr_view f) c') = tree_id c) by (unfold frame_id; simpl; rewrite Hc; reflexivity).
      rewrite below_cons. destruct h as [|h]; cbn [bool_decide decide].
      * eexists (_ :: rest). split; [reflexivity|]. simpl. constructor; [exact Hid|constructor; assumption|simpl in *; lia].
      * rewrite Hid. destruct (descend_spec h c (mkFrame (fr_page f) (fr_view f) c' :: rest) (below leaves cs ++ ls') fuel Hc0)
          as (stack & l & more & HD & Hl & Hs & _); [constructor; assumption|simpl in *; lia..|].
        exists stack. rewrite HD. cbn [snd] in *. rewrite Hl, <- app_assoc. split; [reflexivity|exact Hs].
Qed.

Lemma stack_advance f rest l ls : stack_leaves (f :: rest) (l :: ls) ->
  exists stack', AdvanceToNextLeaf load fuel (f :: rest) = Some (match ls with [] => EndOfFile | _ => NoError end, stack') /\
    stack_leaves stack' ls.
Proof. inversion 1; subst. eapply (Advance_spec _ O); eassumption. Qed.

Lemma Build_spec key h : forall (t : tree (S h)) lo hi rest ls n,
  rep get t -> within lo hi t -> in_range lo hi key -> frames (S h) rest ls -> (h < n)%nat -> (S h + length rest <= fuel)%nat ->
  exists stack L l R, BuildIndexStack load n key (tree_id t) rest = Some (NoError, stack) /\
    leaf_for load (leaves t) key L l R /\ stack_leaves stack (l :: R ++ ls).
Proof.
  induction h as [|h IH]; intros t lo hi rest ls n Hrep Hw Hr Hfr Hn Hlen; (destruct n as [|n]; [lia|]);
    pose proof (child_ids _ t Hrep) as Hids;
    destruct (node_seek _ t lo hi key Hrep Hw Hr) as (page & v & c & pre & k & child & suf & lo' & hi' & [H1 H2 H3 H4 H5 H6 H7 H8 H9 H10 H11 H12 H13]);
    rewrite H7 in Hids; apply Forall_app in Hids as [_ [Hid _]%Forall_cons_1]; cbn [snd] in Hid;
    cbn [BuildIndexStack]; rewrite (good_load _ _ _ H1), H2; cbn [mbind option_bind]; rewrite H4; cbn [mbind option_bind];
    unfold frame_id at 1; cbn [fr_iter]; rewrite H5; (destruct (Z.eqb_spec (tree_id child) MaxPageId) as [Hm|_]; [unfold MaxPageId in Hm; lia|]);
    rewrite H3; cbn [mbind option_bind bool_decide decide];
    (assert (Hf : frame_ok (mkFrame page v c) suf) by (constructor; assumption)).
  - eexists (_ :: rest), (below leaves pre), child, (below leaves suf). split; [reflexivity|]. split.
    + constructor.
      * rewrite leaves_node, H7, below_app, below_cons. reflexivity.
      * destruct H8 as (p & Hp & Hd). exists p. split; [exact (good_load _ _ _ Hp)|exact Hd].
      * rewrite entries_below. exact H12.
      * rewrite entries_below. exact H13.
    + constructor; [exact H5|constructor; assumption|simpl in *; lia].
  - unfold frame_id. cbn [fr_iter]. rewrite H5.
    destruct (IH child lo' hi' (mkFrame page v c :: rest) (below leaves suf ++ ls) n H8 H10 H11)
      as (stack & L & l & R & HB & [F1 F2 F3 F4] & Hs); [constructor; assumption|lia|simpl; lia|].
    exists stack, (below leaves pre ++ L), l, (R ++ below leaves suf). split; [exact HB|]. rewrite <- app_assoc. split; [|exact Hs].
    constructor; [|exact F2|rewrite leaf_entries_app, entries_below; apply Forall_app_2; assumption..].
    rewrite leaves_node, H7, below_app, below_cons, F1, <- !app_assoc. reflexivity.
Qed.

(** ** Leaves loaded ahead *)
Definition leaf_ok (l : Leaf) : Prop := leaf_page get l /\ 0 <= lf_id l < 2 ^ 31.

Definition page_of (page : bytes) (l : Leaf) : Prop := data_page page (lf_entries l).

Lemma prefetch_spec n : forall f rest l ls ids,
  stack_leaves (f :: rest) (l :: ls) -> Forall leaf_ok (l :: ls) -> zlen ids + Z.of_nat (S n) <= max_read_pages_batch ->
  exists taken later stack, prefetch_loop load fuel (S n) (lf_id l) ids (f :: rest) =
      Some (NoError, ids ++ map lf_id (l :: taken), stack) /\ ls = taken ++ later /\ stack_leaves stack later.
Proof.
  induction n as [|n IH]; intros f rest l ls ids Hs Hok Hmax; cbn [prefetch_loop]; apply Forall_cons_1 in Hok as [[_ Hl] Hok];
    (destruct (Z.eqb_spec (lf_id l) MaxPageId) as [Hm|_]; [unfold MaxPageId in Hm; lia|]);
    (destruct (Z.leb_spec max_read_pages_batch (zlen ids)); [lia|]);
    destruct (stack_advance _ _ _ _ Hs) as (stack & HA & Hs'); rewrite HA; cbn [mbind option_bind].
  - exists [], ls, stack. split; [destruct ls; reflexivity|]. auto.
  - inversion Hs' as [|f' rest' l' ls' Hid Hfr Hlen]; subst.
    + exists [], [], []. split; [reflexivity|]. split; [reflexivity|constructor].
    + rewrite Hid. destruct (IH f' rest' l' ls' (ids ++ [lf_id l]) Hs' Hok) as (taken & later & stack' & HP & -> & Hs'').
      { rewrite zlen_app, zlen_cons, (@zlen_nil Z). lia. }
      exists (l' :: taken), later, stack'. split; [|split; [reflexivity|exact Hs'']].
      cbn [prefetch_loop] in HP. rewrite HP, <- app_assoc. reflexivity.
Qed.

Lemma ReadPages_spec ls : Forall leaf_ok ls ->
  exists pages, ReadPages load (map lf_id ls) = (NoError, pages) /\ Forall2 page_of pages ls.
Proof.
  induction 1 as [|l ls [(page & Hp & Hd) _] _ (pages & HR & Hps)]; [exists []; split; [reflexivity|constructor]|].
  exists (page :: pages). cbn [map ReadPages]. rewrite (good_load _ _ _ Hp), HR. split; [reflexivity|constructor; assumption].
Qed.

(** ** The state of the iterator *)

(** What follows the entry the iterator stands on: [cur] in its page, the leaves
    [pl] that are loaded and the leaves [sl] behind the stack. *)
Record scanning (s : ScanIterator) (cur : list Entry) (pl sl : list Leaf) : Prop := {
  sn_num : 1 <= prefetch_page_num_ s <= max_read_pages_batch;
  sn_cur : yields (si_view s) (si_iter s) cur;
  sn_off : 0 <= prefetched_offset_ s;
  sn_count : prefetched_count_ s = zlen (prefetched_pages_ s);
  sn_pages : Forall2 page_of (drop (Z.to_nat (prefetched_offset_ s)) (prefetched_pages_ s)) pl;
  sn_stack : stack_leaves (si_stack s) sl;
  sn_leaves : Forall leaf_ok sl
}.

Lemma yields_inv v c e es : yields v c (e :: es) ->
  HasNext v c = true /\ exists c', Next v c = Some (true, c') /\ entry_ c' = e /\ yields v c' es.
Proof using Type. inversion 1; subst. eauto. Qed.

Lemma yields_nil v c : yields v c [] -> HasNext v c = false.
Proof using Type. inversion 1; assumption. Qed.

(** The next loaded page becomes the current one. *)
Lemma Consume_spec s cur l pl sl : scanning s cur (l :: pl) sl ->
  exists s', ConsumePrefetchedPage s = Some (NoError, s') /\ scanning s' (lf_entries l) pl sl /\
    exists v, si_view s' = v /\ data_view v (lf_entries l).
Proof.
  intros [Hnum Hcur Hoff Hcnt Hpl Hst Hok]. unfold ConsumePrefetchedPage.
  destruct (drop (Z.to_nat (prefetched_offset_ s)) (prefetched_pages_ s)) as [|page pages] eqn:Hd; inversion Hpl as [|? ? ? ? Hp Hps]; subst.
  assert (Hlk : prefetched_pages_ s !! Z.to_nat (prefetched_offset_ s) = Some page)
    by (rewrite <- (Nat.add_0_r (Z.to_nat _)), <- lookup_drop, Hd; reflexivity).
  pose proof (lookup_lt_Some _ _ _ Hlk) as Hlt. rewrite Hcnt. destruct (Z.leb_spec (zlen (prefetched_pages_ s)) (prefetched_offset_ s)); [unfold zlen in *; lia|].
  rewrite Hlk. cbn [mbind option_bind]. destruct (data_page_view _ _ Hp) as (v & -> & Hdv). cbn [mbind option_bind].
  pose proof (dv_reset _ _ Hdv (si_iter s)) as Hy. pose proof (data_page_nonempty _ _ Hp) as Hne.
  assert (HH : HasNext v (Cursor_Reset (si_iter s)) = true).
  { destruct (lf_entries l) as [|e es]; [congruence|]. exact (proj1 (yields_inv _ _ _ _ Hy)). }
  rewrite HH. eexists. split; [reflexivity|]. split; [|exists v; split; [reflexivity|exact Hdv]].
  constructor; cbn; auto; [lia|]. replace (Z.to_nat (prefetched_offset_ s + 1)) with (S (Z.to_nat (prefetched_offset_ s))) by lia.
  rewrite (drop_S _ _ _ Hlk) in Hd. injection Hd as ->. exact Hps.
Qed.

(** A new batch of leaves is loaded, at least one if there is one. *)
Lemma Prefetch_spec s cur l sl : scanning s cur [] (l :: sl) ->
  exists s' taken later, PrefetchFromStack load fuel s = Some (NoError, s') /\ sl = taken ++ later /\
    scanning s' cur (l :: taken) later /\ si_view s' = si_view s /\ si_iter s' = si_iter s.
Proof.
  intros [Hnum Hcur Hoff Hcnt Hpl Hst Hok]. unfold PrefetchFromStack. cbn [ResetPrefetchState si_stack prefetch_page_num_ si_view si_iter].
  inversion Hst as [|f rest l' ls' Hid Hfr Hlen E1 E2]. subst l' ls'.
  destruct (Z.to_nat (prefetch_page_num_ s)) as [|n] eqn:Hn; [lia|]. rewrite Hid.
  destruct (prefetch_spec n f rest l sl [] ltac:(rewrite E1; exact Hst) Hok ltac:(rewrite (@zlen_nil Z); lia))
    as (taken & later & stack & HP & -> & Hs'). rewrite HP. cbn [mbind option_bind app].
  apply (Forall_app _ (l :: taken) later) in Hok as [Hok1 Hok2].
  destruct (ReadPages_spec _ Hok1) as (pages & HR & Hps). rewrite HR.
  assert (Hz : zlen pages =? 0 = false).
  { destruct pages; [inversion Hps|]. rewrite zlen_cons. apply Z.eqb_neq. zlia. }
  rewrite Hz. eexists _, taken, later. split; [reflexivity|]. split; [reflexivity|]. cbn.
  split; [|auto]. constructor; cbn; auto. lia.
Qed.

Lemma LoadNext_spec s cur pl sl : scanning s cur pl sl ->
  match pl ++ sl with
  | [] => exists s', LoadNextDataPage load fuel s = Some (EndOfFile, s')
  | l :: later => exists s' pl' sl', LoadNextDataPage load fuel s = Some (NoError, s') /\ later = pl' ++ sl' /\ scanning s' (lf_entries l) pl' sl'
  end.
Proof.
  intros Hs. pose proof Hs as [Hnum Hcur Hoff Hcnt Hpl Hst Hok]. unfold LoadNextDataPage.
  assert (Hn : (prefetched_count_ s <=? prefetched_offset_ s) = match pl with [] => true | _ => false end).
  { apply Forall2_length in Hpl. rewrite length_drop in Hpl. rewrite Hcnt.
    destruct pl; simpl in Hpl; [apply Z.leb_le|apply Z.leb_gt]; unfold zlen; lia. }
  rewrite Hn. destruct pl as [|l pl].
  - destruct sl as [|l sl]; simpl.
    + inversion Hst as [E|]. unfold PrefetchFromStack. cbn [ResetPrefetchState si_stack]. rewrite <- E. cbn. eauto.
    + destruct (Prefetch_spec s cur l sl Hs) as (s' & taken & later & -> & -> & Hs' & _). cbn [mbind option_bind].
      destruct (Consume_spec s' cur l taken later Hs') as (s'' & -> & Hs'' & _). eauto 10.
  - destruct (Consume_spec s cur l pl sl Hs) as (s'' & -> & Hs'' & _). simpl. eauto 10.
Qed.

(** [rest] are the entries behind the one the iterator stands on. *)
Definition scan_rest (s : ScanIterator) (rest : list Entry) : Prop :=
  exists cur pl sl, scanning s cur pl sl /\ rest = cur ++ leaf_entries pl ++ leaf_entries sl.

Lemma leaf_entries_nil ls : Forall (fun l => lf_entries l <> []) ls -> leaf_entries ls = [] -> ls = [].
Proof using Type.
  destruct ls as [|l ls]; [reflexivity|]. intros [H _]%Forall_cons_1 E. change (lf_entries l ++ leaf_entries ls = []) in E.
  apply app_eq_nil in E as [E _]. contradiction.
Qed.

Lemma leaves_nonempty s cur pl sl : scanning s cur pl sl -> Forall (fun l => lf_entries l <> []) (pl ++ sl).
Proof.
  intros [_ _ _ _ Hpl _ Hok]. apply Forall_app_2.
  - clear - Hpl. induction Hpl as [|page l pages pl Hp _ IH]; constructor; [exact (data_page_nonempty _ _ Hp)|exact IH].
  - eapply Forall_impl; [|exact Hok]. intros l [(page & _ & Hd) _]. exact (data_page_nonempty _ _ Hd).
Qed.

(** ** Moving the iterator *)
Lemma scan_next_spec s rest : scan_rest s rest ->
  match rest with
  | [] => exists s', ScanNext load fuel s = Some (EndOfFile, s')
  | e :: rest' => exists s', ScanNext load fuel s = Some (NoError, s') /\ entry_ (si_iter s') = e /\ scan_rest s' rest'
  end.
Proof.
  intros (cur & pl & sl & Hs & Hr). pose proof (leaves_nonempty _ _ _ _ Hs) as Hne. unfold ScanNext. destruct cur as [|e cur].
  - rewrite (yields_nil _ _ (sn_cur _ _ _ _ Hs)). cbn [negb]. pose proof (LoadNext_spec s [] pl sl Hs) as HL.
    rewrite <- leaf_entries_app in Hr. simpl in Hr. destruct (pl ++ sl) as [|l later].
    + destruct HL as [s' ->]. subst rest. simpl. eauto.
    + destruct HL as (s' & pl' & sl' & -> & -> & Hs'). cbn [mbind option_bind]. apply Forall_cons_1 in Hne as [Hl _].
      change (rest = lf_entries l ++ leaf_entries (pl' ++ sl')) in Hr. rewrite leaf_entries_app in Hr.
      pose proof (sn_cur _ _ _ _ Hs') as Hy. destruct (lf_entries l) as [|e es] eqn:El; [congruence|]. subst rest.
      destruct (yields_inv _ _ _ _ Hy) as (_ & c & -> & He & Hy'). cbn [mbind option_bind app]. eexists. split; [reflexivity|].
      split; [exact He|]. exists es, pl', sl'. split; [|reflexivity]. destruct Hs'. constructor; auto.
  - destruct (yields_inv _ _ _ _ (sn_cur _ _ _ _ Hs)) as (Hh & c & HN & He & Hy). rewrite Hh. cbn [negb mbind option_bind].
    rewrite HN. subst rest. cbn [mbind option_bind app]. eexists. split; [reflexivity|]. split; [exact He|].
    exists cur, pl, sl. split; [|reflexivity]. destruct Hs. constructor; auto.
Qed.

Lemma new_scan_ok n stack ls : 1 <= n <= max_read_pages_batch -> stack_leaves stack ls -> Forall leaf_ok ls ->
  scanning (with_stack (ClearIndexStack (ResetPrefetchState (new_scan n))) stack) [] [] ls.
Proof.
  intros Hn Hs Hok. constructor; cbn; auto; [|lia]. constructor; reflexivity.
Qed.

Lemma Forall_from key l : Forall (fun e => key <=k key_ e) l -> Forall (fun e => ~ key_ e <k key) l.
Proof using Type. apply Forall_impl. intros e. apply key_not_lt. Qed.

(** Seeking ends on the first entry not below the key. *)
Lemma scan_seek_spec height root ls key n lo hi :
  partition get height root ls -> (height <= fuel)%nat -> 1 <= n <= max_read_pages_batch ->
  leaf_entries ls = lo ++ hi -> Forall (fun e => key_ e <k key) lo -> Forall (fun e => key <=k key_ e) hi ->
  match hi with
  | [] => exists s', ScanSeek load fuel (new_scan n) (NoError, root) key = Some (EndOfFile, s')
  | e :: rest => exists s', ScanSeek load fuel (new_scan n) (NoError, root) key = Some (NoError, s') /\
                   entry_ (si_iter s') = e /\ scan_rest s' rest
  end.
Proof.
  intros Hp Hf Hnum Hsplit Hlo Hhi. unfold ScanSeek. destruct height as [|h].
  { inversion Hp; subst. rewrite Z.eqb_refl. destruct hi; [eauto|destruct lo; discriminate Hsplit]. }
  destruct (partition_inv _ _ _ _ Hp) as (t & -> & -> & Hrep & Hw & _ & _ & Hid).
  apply Z.eqb_neq in Hid. rewrite Hid.
  destruct (Build_spec key h t [] [] [] [] fuel Hrep Hw) as (stack & L & l & R & -> & [Hsp _ HL HR] & Hst);
    [split; [apply key_nil_le|left; reflexivity]|constructor|lia|simpl; lia|]. cbn [mbind option_bind].
  rewrite app_nil_r in Hst. pose proof (leaf_pages _ t Hrep) as Hpg. pose proof (leaf_ids _ t Hrep) as Hids.
  rewrite Hsp in Hpg, Hids, Hsplit. apply Forall_app in Hpg as [_ Hpg]. apply Forall_app in Hids as [_ Hids].
  destruct (Prefetch_spec _ _ _ _ (new_scan_ok n stack (l :: R) Hnum Hst (List.Forall_and Hpg Hids)))
    as (s1 & taken & later & -> & -> & Hs1 & _). cbn [mbind option_bind].
  destruct (Consume_spec _ _ _ _ _ Hs1) as (s2 & -> & Hs2 & v & Hv & Hdv). cbn [mbind option_bind]. rewrite Hv.
  apply Forall_cons_1 in Hpg as [(page & _ & _ & Hs & _) _]. destruct (split_lower key _ Hs) as (lo1 & hi1 & Hsp1 & Hlo1 & Hhi1).
  assert (hi = hi1 ++ leaf_entries (taken ++ later)) as ->.
  { apply (split_unique (fun e => key_ e <k key) lo hi (leaf_entries L ++ lo1)); auto using Forall_from.
    - rewrite <- Hsplit, leaf_entries_split, Hsp1, <- !app_assoc. reflexivity.
    - apply Forall_app_2; assumption.
    - apply Forall_app_2; [exact (Forall_from _ _ Hhi1)|]. apply Forall_from. eapply Forall_impl; [|exact HR]. intros e. apply key_lt_le. }
  rewrite leaf_entries_app. pose proof (dv_seek _ _ Hdv (si_iter s2) key lo1 hi1 Hsp1 Hlo1 Hhi1) as HS. destruct hi1 as [|e hi1].
  - rewrite HS. cbn [mbind option_bind]. apply (scan_next_spec (with_iter s2 (Invalidate v))).
    exists [], taken, later. split; [|reflexivity]. destruct Hs2. constructor; auto. cbn. rewrite Hv. apply (dv_end _ _ Hdv).
  - destruct HS as (c & -> & He & Hy). cbn [mbind option_bind app]. eexists. split; [reflexivity|]. split; [exact He|].
    exists hi1, taken, later. split; [|reflexivity]. destruct Hs2. constructor; auto. cbn. rewrite Hv. exact Hy.
Qed.

(** ** Collecting *)
  Context (resolve : Entry -> bool -> option (KvError * bytes)) (r : ScanRequest) (value_of : Entry -> bytes).

Definition kv_of (e : Entry) : KvEntry := mkKvEntry (key_ e) (value_of e) (timestamp_ e) (expire_ts_ e).

Definition total_size (l : list KvEntry) : Z := foldr (fun e n => kv_size e + n) 0 l.

Definition resolves (e : Entry) : Prop := large_value_ e = false /\ resolve e false = Some (NoError, value_of e).

Lemma total_size_app a b : total_size (a ++ b) = total_size a + total_size b.
Proof using Type. induction a as [|x a IH]; [reflexivity|]. simpl. rewrite IH. lia. Qed.

Lemma kv_size_pos e : 0 < kv_size e.
Proof using Type. unfold kv_size. zlia. Qed.

Lemma total_size_pos l : 0 <= total_size l /\ (l <> [] -> 0 < total_size l).
Proof using Type.
  induction l as [|x l [IH _]]; simpl; [split; [lia|congruence]|]. pose proof (kv_size_pos x). split; [lia|]. intros _. lia.
Qed.

(** The end of the range is passed once. *)
Lemma before_end_mono a b : a <=k b -> before_end r b = true -> before_end r a = true.
Proof using Type.
  unfold before_end. intros Hab Hb. destruct (zlen (end_key_ r) =? 0); [reflexivity|]. cbn [orb] in *.
  destruct (Z.ltb_spec (Compare b (end_key_ r)) 0) as [Hlt|Hge].
  - assert (Ha : a <k end_key_ r) by (eapply key_le_lt_trans; eassumption). apply Z.ltb_lt in Ha. rewrite Ha. reflexivity.
  - cbn [orb] in Hb. apply andb_prop in Hb as [Hi Hb]. apply Z.eqb_eq, Compare_eq in Hb. subst b. apply key_le_alt in Hab as [Hab|Hab].
    + apply Z.ltb_lt in Hab. rewrite Hab. reflexivity.
    + subst a. rewrite Hi, Compare_refl. apply orb_true_r.
Qed.

Lemma past_end e es : StronglySorted key_lt (map key_ (e :: es)) -> before_end r (key_ e) = false ->
  List.filter (fun e => before_end r (key_ e)) (e :: es) = [].
Proof using Type.
  intros Hs He. simpl in Hs. apply StronglySorted_inv in Hs as [_ Hs]. rewrite List.Forall_map in Hs. simpl. rewrite He.
  induction Hs as [|x es Hx _ IH]; [reflexivity|]. simpl. destruct (before_end r (key_ x)) eqn:E; [|exact IH].
  rewrite (before_end_mono (key_ e) (key_ x) (key_lt_le _ _ Hx) E) in He. discriminate He.
Qed.

(** The loop takes a prefix of the range, as long as the limits allow. *)
Record taken (n : nat) (size : Z) (range got left : list KvEntry) : Prop := {
  tk_split : range = got ++ left;
  tk_count : (length got <= n)%nat;
  tk_size : size + total_size got <= page_size_ r \/ (size = 0 /\ (length got <= 1)%nat) \/ got = [];
  tk_full : forall d left', left = d :: left' ->
    length got = n \/ (0 < size + total_size got /\ page_size_ r < size + total_size got + kv_size d)
}.

Lemma taken_nil n size range : (forall d left, range = d :: left -> n = 0%nat \/ (0 < size /\ page_size_ r < size + kv_size d)) ->
  taken n size range [] range.
Proof using Type. intros H. constructor; [reflexivity|simpl; lia|auto|]. intros d left Hd. simpl. rewrite Z.add_0_r. destruct (H d left Hd); auto. Qed.

Lemma Scan_loop_spec n : forall s rest acc size,
  scan_rest s rest -> StronglySorted key_lt (map key_ (entry_ (si_iter s) :: rest)) -> 0 <= size ->
  (forall e, In e (entry_ (si_iter s) :: rest) -> before_end r (key_ e) = true -> resolves e) ->
  exists got left, Scan_loop load fuel n resolve r s acc size = Some (NoError, acc ++ got, negb (is_nil left)) /\
    taken n size (map kv_of (List.filter (fun e => before_end r (key_ e)) (entry_ (si_iter s) :: rest))) got left.
Proof.
  induction n as [|n IH]; intros s rest acc size Hs Hsort Hsize Hres; cbn [Scan_loop]; set (e := entry_ (si_iter s)) in *;
    (destruct (before_end r (key_ e)) eqn:Hb;
     [|rewrite (past_end _ _ Hsort Hb); exists [], []; rewrite app_nil_r; split; [reflexivity|]; apply taken_nil; discriminate]);
    cbn [List.filter]; rewrite Hb; cbn [map].
  - exists []. eexists. rewrite app_nil_r. split; [|apply taken_nil; auto]. reflexivity.
  - destruct (Hres e (or_introl eq_refl) Hb) as [Hl Hv]. unfold ResolveValue. rewrite Hl, Hv. cbn [mbind option_bind].
    fold (kv_of e). pose proof (kv_size_pos (kv_of e)) as Hk.
    destruct ((0 <? size) && (page_size_ r <? size + kv_size (kv_of e))) eqn:Hfull.
    + apply andb_prop in Hfull as [H1%Z.ltb_lt H2%Z.ltb_lt]. exists []. eexists. rewrite app_nil_r.
      split; [|apply taken_nil; intros d left' Hd; injection Hd as <- _; auto]. reflexivity.
    + pose proof (scan_next_spec s rest Hs) as HN. destruct rest as [|e1 rest].
      * destruct HN as [s' ->]. cbn [mbind option_bind]. exists [kv_of e], []. split; [reflexivity|]. constructor; [reflexivity|simpl; lia| |discriminate].
        apply andb_false_iff in Hfull as [H%Z.ltb_ge|H%Z.ltb_ge]; [right; left; split; [lia|simpl; lia]|left; simpl; lia].
      * destruct HN as (s' & -> & He1 & Hs'). cbn [mbind option_bind].
        destruct (IH s' rest (acc ++ [kv_of e]) (size + kv_size (kv_of e)) Hs') as (got & left & -> & [T1 T2 T3 T4]).
        { rewrite He1. simpl in Hsort. apply StronglySorted_inv in Hsort as [Hsort _]. exact Hsort. }
        { lia. }
        { intros x Hx. apply Hres. right. rewrite <- He1. exact Hx. }
        exists (kv_of e :: got), left. rewrite <- app_assoc. split; [reflexivity|]. rewrite He1 in T1. constructor.
        -- rewrite T1. reflexivity.
        -- simpl. lia.
        -- simpl. destruct T3 as [T3|[T3|T3]]; [left; lia|lia|]. subst got. simpl.
           apply andb_false_iff in Hfull as [H%Z.ltb_ge|H%Z.ltb_ge]; [right; left; split; lia|left; lia].
        -- intros d left' Hd. simpl. destruct (T4 d left' Hd) as [T|[T T']]; [left; lia|right; split; lia].
Qed.
End scan.

(** ** A scan *)

(** The keys a request asks for. *)
Definition in_scan_range (r : ScanRequest) (key : bytes) : Prop :=
  (begin_key_ r <k key \/ (begin_inclusive_ r = true /\ key = begin_key_ r)) /\
  (end_key_ r = [] \/ key <k end_key_ r \/ (end_inclusive_ r = true /\ key = end_key_ r)).

#[export] Instance in_scan_range_dec r key : Decision (in_scan_range r key).
Proof. unfold in_scan_range. apply _. Defined.

Definition in_range_of (r : ScanRequest) (key : bytes) : bool := bool_decide (in_scan_range r key).

(** The request for the entries behind a key. *)
Definition next_request (r : ScanRequest) (key : bytes) : ScanRequest :=
  mkScanRequest key false (end_key_ r) (end_inclusive_ r) (page_entries_ r) (page_size_ r).

(** The entries of the range. *)
Definition range (r : ScanRequest) (es : list Entry) : list Entry := List.filter (fun e => in_range_of r (key_ e)) es.

Definition after_begin (r : ScanRequest) (key : bytes) : bool :=
  (Compare (begin_key_ r) key <? 0) || (begin_inclusive_ r && (Compare (begin_key_ r) key =? 0)).

Lemma in_range_of_eq r key : in_range_of r key = after_begin r key && before_end r key.
Proof.
  apply eq_true_iff_eq. unfold in_range_of. rewrite bool_decide_eq_true. unfold in_scan_range, after_begin, before_end, key_lt.
  rewrite !andb_true_iff, !orb_true_iff, !andb_true_iff, !Z.ltb_lt, !Z.eqb_eq, !Compare_eq.
  assert (zlen (end_key_ r) = 0 <-> end_key_ r = []) as -> by (split; [apply zlen_zero|intros ->; reflexivity]).
  intuition (subst; auto).
Qed.

Lemma after_begin_lt r a : a <k begin_key_ r -> after_begin r a = false.
Proof.
  intros H. unfold after_begin. destruct (Z.ltb_spec (Compare (begin_key_ r) a) 0) as [Hlt|_].
  - exfalso. exact (key_lt_irrefl a (key_lt_trans _ _ _ H Hlt)).
  - destruct (Z.eqb_spec (Compare (begin_key_ r) a) 0) as [He|_]; [|apply andb_false_r].
    apply Compare_eq in He. rewrite He in H. destruct (key_lt_irrefl _ H).
Qed.

Lemma after_begin_gt r a : begin_key_ r <k a -> after_begin r a = true.
Proof. intros H%Z.ltb_lt. unfold after_begin. rewrite H. reflexivity. Qed.

Lemma after_begin_eq r a : begin_key_ r = a -> after_begin r a = begin_inclusive_ r.
Proof. intros <-. unfold after_begin. rewrite Compare_refl. destruct (begin_inclusive_ r); reflexivity. Qed.

Lemma filter_none {A} (f : A -> bool) l : Forall (fun x => f x = false) l -> List.filter f l = [].
Proof. induction 1 as [|x l Hx _ IH]; [reflexivity|]. simpl. rewrite Hx. exact IH. Qed.

Lemma filter_keep {A} (f : A -> bool) l : Forall (fun x => f x = true) l -> List.filter f l = l.
Proof. induction 1 as [|x l Hx _ IH]; [reflexivity|]. simpl. rewrite Hx, IH. reflexivity. Qed.

(** The range leaves out what is before the begin key, and only the end bounds
    what is behind it. *)
Lemma range_below r l : Forall (fun e => key_ e <k begin_key_ r) l -> range r l = [].
Proof.
  intros H. apply filter_none. eapply Forall_impl; [|exact H]. intros e He. rewrite in_range_of_eq, after_begin_lt; auto.
Qed.

Lemma range_above r l : Forall (fun e => begin_key_ r <k key_ e) l -> range r l = List.filter (fun e => before_end r (key_ e)) l.
Proof.
  intros H. unfold range. apply List.filter_ext_in. intros e He. rewrite List.Forall_forall in H. rewrite in_range_of_eq, after_begin_gt; auto.
Qed.

Lemma range_app r a b : range r (a ++ b) = range r a ++ range r b.
Proof. apply List.filter_app. Qed.

Lemma sorted_behind e l : StronglySorted key_lt (map key_ (e :: l)) -> StronglySorted key_lt (map key_ l) /\ Forall (fun x => key_ e <k key_ x) l.
Proof. simpl. intros H. apply StronglySorted_inv in H as [Hs H]. rewrite List.Forall_map in H. auto. Qed.

Lemma sorted_around a e b : StronglySorted key_lt (map key_ (a ++ e :: b)) ->
  Forall (fun x => key_ x <k key_ e) a /\ Forall (fun x => key_ e <k key_ x) b.
Proof.
  induction a as [|x a IH]; intros Hs; simpl app in Hs; apply sorted_behind in Hs as [Hs Hx]; [auto|].
  destruct (IH Hs) as [Ha Hb]. apply Forall_app in Hx as [_ Hx]. split; [constructor; [exact (proj1 (Forall_cons_1 _ _ _ Hx))|exact Ha]|exact Hb].
Qed.

Lemma sorted_filter f es : StronglySorted key_lt (map key_ es) -> StronglySorted key_lt (map key_ (List.filter f es)).
Proof.
  induction es as [|e es IH]; intros Hs; [constructor|]. apply sorted_behind in Hs as [Hs He]. simpl. destruct (f e); [|exact (IH Hs)].
  simpl. constructor; [exact (IH Hs)|]. rewrite List.Forall_map. rewrite List.Forall_forall in *. intros x [Hx _]%List.filter_In. exact (He x Hx).
Qed.

(** What a request from a key of the range on has in its range is the rest of
    the range. *)
Lemma range_next r es got e left : StronglySorted key_lt (map key_ es) -> range r es = got ++ e :: left ->
  range (next_request r (key_ e)) es = left.
Proof.
  intros Hs Hr. assert (He : after_begin r (key_ e) = true).
  { assert (Hin : In e (range r es)) by (rewrite Hr; apply in_elt). apply List.filter_In in Hin as [_ Hin]. rewrite in_range_of_eq in Hin. apply andb_prop in Hin as [Hin _]. exact Hin. }
  assert (Hf : range (next_request r (key_ e)) es = List.filter (fun x => Compare (key_ e) (key_ x) <? 0) (range r es)).
  { clear Hs Hr. induction es as [|x es IH]; [reflexivity|]. simpl. rewrite IH, !in_range_of_eq. unfold after_begin at 1.
    cbn [begin_key_ begin_inclusive_ next_request andb]. rewrite orb_false_r.
    change (before_end (next_request r (key_ e)) (key_ x)) with (before_end r (key_ x)).
    destruct (Z.ltb_spec (Compare (key_ e) (key_ x)) 0) as [Hlt|Hge]; cbn [andb].
    - assert (after_begin r (key_ x) = true) as ->.
      { apply after_begin_gt. unfold after_begin in He. apply orb_prop in He as [He%Z.ltb_lt|He].
        - exact (key_lt_trans _ _ _ He Hlt).
        - apply andb_prop in He as [_ He]. apply Z.eqb_eq, Compare_eq in He. rewrite He. exact Hlt. }
      cbn [andb]. destruct (before_end r (key_ x)); [|reflexivity]. simpl. apply Z.ltb_lt in Hlt. rewrite Hlt. reflexivity.
    - destruct (after_begin r (key_ x) && before_end r (key_ x)); [|reflexivity]. simpl. apply Z.ltb_ge in Hge. rewrite Hge. reflexivity. }
  rewrite Hf. pose proof (sorted_filter (fun e => in_range_of r (key_ e)) es Hs) as Hso. fold (range r es) in Hso. rewrite Hr in *.
  apply sorted_around in Hso as [Hlo Hhi]. rewrite List.filter_app. simpl. rewrite Compare_refl. cbn [Z.ltb Z.compare].
  rewrite filter_none, filter_keep; [reflexivity| |].
  - eapply Forall_impl; [|exact Hhi]. intros x. apply Z.ltb_lt.
  - eapply Forall_impl; [|exact Hlo]. intros x Hx. apply Z.ltb_ge, Z.nlt_ge. intros Hx'. exact (key_lt_irrefl _ (key_lt_trans _ _ _ Hx Hx')).
Qed.

(** The first entry of a sorted list at the begin key is the one an exclusive
    scan skips. *)
Lemma range_from r lo hi : Forall (fun e => key_ e <k begin_key_ r) lo -> Forall (fun e => begin_key_ r <=k key_ e) hi ->
  StronglySorted key_lt (map key_ hi) ->
  range r (lo ++ hi) = List.filter (fun e => before_end r (key_ e))
    match hi with
    | [] => []
    | e :: rest => if negb (begin_inclusive_ r) && (Compare (key_ e) (begin_key_ r) =? 0) then rest else hi
    end.
Proof.
  intros Hlo Hhi Hs. rewrite range_app, range_below by exact Hlo. destruct hi as [|e rest]; [reflexivity|].
  apply Forall_cons_1 in Hhi as [He _]. apply sorted_behind in Hs as [_ Hr]. apply key_le_alt in He as He'. cbn [app].
  destruct (Z.eqb_spec (Compare (key_ e) (begin_key_ r)) 0) as [Heq|Hne].
  - apply Compare_eq in Heq. change (range r (e :: rest)) with (range r ([e] ++ rest)). rewrite range_app, (range_above r rest) by (rewrite <- Heq; exact Hr).
    unfold range. simpl. rewrite in_range_of_eq, after_begin_eq by congruence. destruct (begin_inclusive_ r); [|reflexivity].
    simpl. destruct (before_end r (key_ e)); reflexivity.
  - rewrite andb_false_r. apply range_above. destruct He' as [Hlt|He']; [|rewrite He', Compare_refl in Hne; lia].
    constructor; [exact Hlt|]. eapply Forall_impl; [|exact Hr]. intros x. exact (key_lt_trans _ _ _ Hlt).
Qed.

Lemma partition_sorted load height root ls : partition load height root ls -> StronglySorted key_lt (map key_ (leaf_entries ls)).
Proof.
  destruct height as [|h]; intros Hp; [inversion Hp; constructor|].
  destruct (partition_inv _ _ _ _ Hp) as (t & _ & -> & Hrep & Hw & _). exact (entries_sorted load [] [] t Hrep Hw).
Qed.

Lemma sorted_app_r a b : StronglySorted key_lt (map key_ (a ++ b)) -> StronglySorted key_lt (map key_ b).
Proof. induction a as [|x a IH]; [auto|]. intros Hs. apply sorted_behind in Hs as [Hs _]. exact (IH Hs). Qed.

Lemma Scan_taken load height root ls fuel prefetch r resolve value_of :
  partition (good load) height root ls -> (height <= fuel)%nat -> 1 <= prefetch <= max_read_pages_batch ->
  0 < page_entries_ r -> 0 < page_size_ r ->
  (forall e, In e (range r (leaf_entries ls)) -> resolves resolve value_of e) ->
  exists g l, Scan load fuel resolve (NoError, root) prefetch r = Some (NoError, g, negb (is_nil l)) /\
    taken r (Z.to_nat (page_entries_ r)) 0 (map (kv_of value_of) (range r (leaf_entries ls))) g l.
Proof.
  intros Hp Hf Hpre Hn Hsz Hres. pose proof (partition_sorted _ _ _ _ Hp) as Hs.
  unfold Scan. destruct (split_lower (begin_key_ r) _ Hs) as (lo & hi & Hsp & Hlo & Hhi).
  rewrite Hsp in Hs. apply sorted_app_r in Hs. pose proof (range_from r lo hi Hlo Hhi Hs) as Hrf.
  rewrite Hsp, Hrf in *. clear Hrf. apply Z.ltb_lt in Hn. apply Z.ltb_lt in Hsz. rewrite Hn, Hsz. cbn [andb negb].
  pose proof (scan_seek_spec load fuel height root ls (begin_key_ r) prefetch lo hi Hp Hf Hpre Hsp Hlo Hhi) as HS.
  destruct hi as [|e rest].
  { destruct HS as [s ->]. cbn [mbind option_bind]. exists [], []. split; [reflexivity|]. apply taken_nil. discriminate. }
  destruct HS as (s & -> & He & Hrest). cbn [mbind option_bind]. rewrite He.
  destruct (negb (begin_inclusive_ r) && (Compare (key_ e) (begin_key_ r) =? 0)).
  - pose proof (scan_next_spec load fuel s rest Hrest) as HN. apply sorted_behind in Hs as [Hs _]. destruct rest as [|e1 rest].
    + destruct HN as [s' ->]. cbn [mbind option_bind]. exists [], []. split; [reflexivity|]. apply taken_nil. discriminate.
    + destruct HN as (s' & -> & <- & Hs'). cbn [mbind option_bind].
      apply (Scan_loop_spec load fuel resolve r value_of _ s' rest [] 0 Hs' Hs); [lia|]. intros x Hx Hb. apply Hres, List.filter_In. auto.
  - cbn [mbind option_bind]. subst e.
    apply (Scan_loop_spec load fuel resolve r value_of _ s rest [] 0 Hrest Hs); [lia|]. intros x Hx Hb. apply Hres, List.filter_In. auto.
Qed.

(** C9: [Scan] returns the entries of the range in key order, up to the limits
    of the request: the whole range, or a prefix with as many entries as the
    limits on the number and on the total size allow, and never none; the flag
    says whether entries remain, and a request from behind the last key has
    exactly those in its range. *)
Theorem scan_returns_range load height root ls fuel prefetch r resolve value_of :
  partition (good load) height root ls -> (height <= fuel)%nat -> 1 <= prefetch <= max_read_pages_batch ->
  0 < page_entries_ r -> 0 < page_size_ r ->
  (forall e, In e (range r (leaf_entries ls)) -> resolves resolve value_of e) ->
  exists got left,
    Scan load fuel resolve (NoError, root) prefetch r = Some (NoError, map (kv_of value_of) got, negb (is_nil left)) /\
    range r (leaf_entries ls) = got ++ left /\
    zlen got <= page_entries_ r /\
    (total_size (map (kv_of value_of) got) <= page_size_ r \/ zlen got = 1) /\
    (forall d left', left = d :: left' ->
       zlen got = page_entries_ r \/ page_size_ r < total_size (map (kv_of value_of) (got ++ [d]))) /\
    (forall init e, got = init ++ [e] -> range (next_request r (key_ e)) (leaf_entries ls) = left) /\
    (got = [] -> left = []).
Proof.
  intros Hp Hf Hpre Hn Hsz Hres.
  pose proof (partition_sorted _ _ _ _ Hp) as Hs.
  destruct (Scan_taken _ _ _ _ _ _ _ _ _ Hp Hf Hpre Hn Hsz Hres) as (g & l & HS & [T1 T2 T3 T4]).
  apply List.map_eq_app in T1 as (got & left & Hr & Hg & Hl).
  exists got, left. assert (is_nil l = is_nil left) as <- by (subst l; destruct left; reflexivity).
  assert (Hlen : length g = length got) by (subst g; apply List.length_map). rewrite Hg, HS. unfold zlen. rewrite <- Hlen.
  split; [reflexivity|]. split; [exact Hr|]. split; [lia|]. repeat split.
  - destruct g; [left; simpl; lia|]. simpl length in *. destruct T3 as [T3|[T3|T3]]; [left; exact T3|right; lia|discriminate T3].
  - intros d left' Hd. subst left l. destruct (T4 _ _ eq_refl) as [T|[_ T]]; [left; lia|right].
    rewrite map_app, Hg, total_size_app. simpl. lia.
  - intros init e He. subst got. rewrite <- app_assoc in Hr. exact (range_next _ _ _ _ _ Hs Hr).
  - intros ->. subst g. destruct left as [|d left]; [reflexivity|]. subst l. destruct (T4 _ _ eq_refl) as [T|[T _]]; simpl in T; lia.
Qed.

Module ScanExample.
Definition request : ScanRequest := mkScanRequest [1; 1] false [2] true 1 100.

(** One entry of two behind the first key. *)
Lemma scan_returns_range_witness :
  Scan ReadExample.load 1 ReadExample.resolve (NoError, 4) 6 request = Some (NoError, [mkKvEntry [1; 2] [11] 101 0], true).
Proof.
  destruct (scan_returns_range ReadExample.load 1 4 [ReadExample.leaf1; ReadExample.leaf2] 1 6 request ReadExample.resolve
    (fun e => match ReadExample.resolve e false with Some (_, v) => v | None => [] end) ReadExample.example_partition (le_n 1))
    as (got & left & -> & Hr & Hn & _ & _ & _ & Hnil).
  - split; discriminate.
  - reflexivity.
  - reflexivity.
  - intros e He. vm_compute in He. destruct He as [<-|[<-|[]]]; split; reflexivity.
  - vm_compute in Hr. destruct got as [|x got]; [rewrite (Hnil eq_refl) in Hr; discriminate Hr|].
    injection Hr as <- Hr. destruct got as [|y got]; [|exfalso; unfold zlen in Hn; simpl in Hn; lia].
    simpl in Hr. subst left. reflexivity.
Defined.
End ScanExample.
