(* ===== verification/BatchTask.v ===== *)
(** * A batch write task: its leaves

    [BatchWriteTask] (src/tasks/batch_write_task.cpp) merges a sorted batch into
    a tree.  It keeps a stack of the index pages on the path to the current leaf
    with the changes that wait for them, and up to three neighbouring leaves in
    memory to maintain the links between leaves.  This file has the state of the
    task and the operations on leaves; IndexStack has those on index pages and
    ApplyBatch the task as a whole. *)

From S2P Require Import Prelude Coding Comparator PageFormat DataPage Regions DataPageIter RegionCopy IndexPage IndexPageIter.
From S2P Require Import PageIo ApplyPage Tree.

(** ** The page layer below the task

    [tp_load] loads a page through the mapping of the task, [tp_alloc] takes a
    buffer from the page pool, with any content, [tp_get_page] a page id,
    [tp_write_page] gives a page new content and [tp_free_page] gives the id
    back.  The other operations store and delete values outside the tree.  [None]
    is an error. *)
Class TaskPages (S : Type) := {
  tp_load : S -> Z -> option bytes;
  tp_alloc : S -> option bytes;
  tp_get_page : S -> option (Z * S);
  tp_write_page : S -> Z -> bytes -> option S;
  tp_free_page : S -> Z -> option S;
  tp_write_overflow : S -> bytes -> option (bytes * S);
  tp_del_overflow : S -> bytes -> option S;
  tp_write_large : S -> WriteDataEntry -> option (bytes * S);
  tp_del_large : S -> bytes -> option S
}.

(** ** State *)
Record IndexOp := mkIndexOp { op_key : bytes; op_page_id : Z; op_op : WriteOp }.

(** A page in memory: its id and its content. *)
Abbreviation PageRef := (Z * bytes)%type.

(** [se_handle] is empty for a root that does not exist yet; [se_view] is what
    the iterator of the page sees. *)
Record IndexStackEntry := mkStackEntry {
  se_handle : option PageRef;
  se_view : PageView;
  se_iter : IndexCursor;
  se_changes : list IndexOp;
  is_leaf_index_ : bool
}.

Definition new_stack_entry (handle : option PageRef) : option IndexStackEntry :=
  v ← match handle with Some (_, page) => page_view page | None => Some (mkPageView [] 0 0) end;
  Some (mkStackEntry handle v fresh_index_cursor [] false).

Definition with_changes (e : IndexStackEntry) (changes : list IndexOp) : IndexStackEntry :=
  mkStackEntry (se_handle e) (se_view e) (se_iter e) changes (is_leaf_index_ e).

Definition se_at (e : IndexStackEntry) (c : IndexCursor) : IndexStackEntry :=
  mkStackEntry (se_handle e) (se_view e) c (se_changes e) (is_leaf_index_ e).

(** The pointer at which the iterator of an entry stands. *)
Definition se_pointer (e : IndexStackEntry) : IndexEntry := ic_entry (se_iter e).

Section task.
  Context {S : Type} `{TaskPages S}.
  Context (opts : KvOptions) (hash : bytes -> Z).

(** [stack_] has the lowest index page first; [triple0] to [triple2] are
    [leaf_triple_]. *)
Record Batch := mkBatch {
  bt_store : S;
  stack_ : list IndexStackEntry;
  applying_page_ : option PageRef;
  triple0 : option PageRef;
  triple1 : option PageRef;
  triple2 : option PageRef
}.

Definition with_store (b : Batch) (s : S) : Batch :=
  mkBatch s (stack_ b) (applying_page_ b) (triple0 b) (triple1 b) (triple2 b).
Definition with_stack (b : Batch) (st : list IndexStackEntry) : Batch :=
  mkBatch (bt_store b) st (applying_page_ b) (triple0 b) (triple1 b) (triple2 b).
Definition with_applying (b : Batch) (p : option PageRef) : Batch :=
  mkBatch (bt_store b) (stack_ b) p (triple0 b) (triple1 b) (triple2 b).
Definition with_triple (b : Batch) (t0 t1 t2 : option PageRef) : Batch :=
  mkBatch (bt_store b) (stack_ b) (applying_page_ b) t0 t1 t2.

(** [WriteTask::WritePage] and [WriteTask::FreePage] *)
Definition WritePage (b : Batch) (id : Z) (page : bytes) : option Batch :=
  s ← tp_write_page (bt_store b) id (SetChecksum hash page); Some (with_store b s).

Definition FreePage (b : Batch) (id : Z) : option Batch :=
  s ← tp_free_page (bt_store b) id; Some (with_store b s).

(** A change for the index page on top of the stack; the keys of its changes
    have to ascend. *)
Definition push_change (b : Batch) (op : IndexOp) : option Batch :=
  match stack_ b with
  | [] => None
  | top :: rest =>
      if match last_from None (se_changes top) with Some o => Compare (op_key o) (op_key op) <? 0 | None => true end
      then Some (with_stack b (with_changes top (se_changes top ++ [op]) :: rest)) else None
  end.

(** ** Links between leaves *)
Definition TripleElement (b : Batch) (idx : Z) : option PageRef :=
  if idx =? 0 then triple0 b else if idx =? 1 then triple1 b else triple2 b.

(** [LoadTripleElement] for the positions 0 and 2. *)
Definition LoadTripleElement (b : Batch) (idx page_id : Z) : option Batch :=
  match TripleElement b idx with
  | Some _ => Some b
  | None =>
      if page_id =? MaxPageId then None
      else
        page ← tp_load (bt_store b) page_id;
        let e := Some (page_id, page) in
        Some (if idx =? 0 then with_triple b e (triple1 b) (triple2 b) else with_triple b (triple0 b) (triple1 b) e)
  end.

Definition ShiftLeafLink (b : Batch) : option Batch :=
  b ← match triple0 b with Some (id, page) => WritePage b id page | None => Some b end;
  Some (with_triple b (triple1 b) None (triple2 b)).

Definition LeafLinkUpdate (b : Batch) (id : Z) (page : bytes) : option Batch :=
  '(_, old) ← applying_page_ b;
  next ← NextPageId old;
  prev ← PrevPageId old;
  Some (with_triple b (triple0 b) (Some (id, SetPrevPageId (SetNextPageId page next) prev)) (triple2 b)).

Definition LeafLinkInsert (b : Batch) (id : Z) (page : bytes) : option Batch :=
  match triple1 b, stack_ b with
  | None, top :: _ =>
      match triple0 b with
      | None =>
          if i_page_id (se_pointer top) =? MaxPageId
          then Some (with_triple b None (Some (id, SetPrevPageId (SetNextPageId page MaxPageId) MaxPageId)) (triple2 b))
          else None
      | Some (prev_id, prev_page) =>
          next ← NextPageId prev_page;
          ok ← (if i_page_id (se_pointer top) =? MaxPageId then Some true
                else '(_, old) ← applying_page_ b; n ← NextPageId old; Some (next =? n));
          if negb ok then None
          else
            b ← (if next =? MaxPageId then Some b
                 else
                   b ← LoadTripleElement b 2 next;
                   '(next_id, next_page) ← triple2 b;
                   Some (with_triple b (triple0 b) (triple1 b) (Some (next_id, SetPrevPageId next_page id))));
            Some (with_triple b (Some (prev_id, SetNextPageId prev_page id))
                    (Some (id, SetNextPageId (SetPrevPageId page prev_id) next)) (triple2 b))
      end
  | _, _ => None
  end.

Definition LeafLinkDelete (b : Batch) : option Batch :=
  '(_, old) ← applying_page_ b;
  prev ← PrevPageId old;
  next ← NextPageId old;
  b ← (if prev =? MaxPageId then Some b
       else
         b ← LoadTripleElement b 0 prev;
         '(id, page) ← triple0 b;
         Some (with_triple b (Some (id, SetNextPageId page next)) (triple1 b) (triple2 b)));
  if next =? MaxPageId then Some b
  else
    match triple2 b with
    | Some _ => None
    | None =>
        b ← LoadTripleElement b 2 next;
        '(id, page) ← triple2 b;
        Some (with_triple b (triple0 b) (triple1 b) (Some (id, SetPrevPageId page prev)))
    end.

(** ** Finishing a leaf *)

(** Whether a short page is to be balanced with the page before it. *)
Definition sparse_after (cur_page_len prev_num prev_len : Z) : bool :=
  let one_quarter := u16 (Z.shiftr (data_page_size opts) 2) in
  let three_quarter := u16 (data_page_size opts - one_quarter) in
  (cur_page_len <? one_quarter) && (1 <? prev_num) && (three_quarter <? prev_len).

(** The part of [FinishDataPage] that balances a new leaf with the one before it:
    the state with the leaf before, the new leaf and its key. *)
Definition balance_leaf (b : Batch) (page_key page : bytes) : option (Batch * bytes * bytes) :=
  cur_page_len ← ContentLength page;
  match triple0 b with
  | None => Some (b, page, page_key)
  | Some (prev_id, prev_page) =>
      prev_num ← RestartNum prev_page;
      prev_len ← ContentLength prev_page;
      if sparse_after cur_page_len prev_num prev_len then
        buffer ← tp_alloc (bt_store b);
        '(prev_page, page) ← Redistribute opts prev_page page buffer;
        v ← page_view page;
        if negb (HasNext v fresh_cursor) then None
        else
          '(_, iter) ← Next v fresh_cursor;
          Some (with_triple b (Some (prev_id, prev_page)) (triple1 b) (triple2 b), page, key_ (entry_ iter))
      else Some (b, page, page_key)
  end.

(** [FinishDataPage]; [page] is what the builder made, whose length it records in
    the page. *)
Definition FinishDataPage (b : Batch) (page_key : bytes) (page_id : Z) (page : bytes) : option Batch :=
  b ← (if page_id =? MaxPageId then
         '(page_id, s) ← tp_get_page (bt_store b);
         '(b, page, page_key) ← balance_leaf (with_store b s) page_key page;
         b ← LeafLinkInsert b page_id page;
         push_change b (mkIndexOp page_key page_id Upsert)
       else LeafLinkUpdate b page_id page);
  ShiftLeafLink b.

(** What the merge of a batch into a leaf needs from the task. *)
#[export] Instance BatchPageTask : PageTask Batch := {
  pt_write_overflow b v := '(ptrs, s) ← tp_write_overflow (bt_store b) v; Some (ptrs, with_store b s);
  pt_del_overflow b ptrs := s ← tp_del_overflow (bt_store b) ptrs; Some (with_store b s);
  pt_write_large b w := '(content, s) ← tp_write_large (bt_store b) w; Some (content, with_store b s);
  pt_del_large b content := s ← tp_del_large (bt_store b) content; Some (with_store b s);
  pt_finish_page := FinishDataPage
}.
End task.
