(* ===== verification/IndexStack.v ===== *)
(** * A batch write task: its index pages

    The stack of index pages of [BatchWriteTask] (src/tasks/batch_write_task.cpp):
    the bounds of a page, moving the stack to a key, and rebuilding an index page
    from its entries and the changes that wait for it, which may split it, empty
    it or grow a new root. *)

From S2P Require Import Prelude Coding Comparator PageFormat DataPage Regions DataPageIter RegionCopy IndexPage IndexPageIter.
From S2P Require Import PageIo ApplyPage Tree BatchTask.

Section stack.
  Context {S : Type} `{TaskPages S}.
  Context (opts : KvOptions) (hash : bytes -> Z).

  Local Abbreviation Batch := (Batch (S := S)).

(** ** Bounds of the current page *)

(** [LeftBound]: the nearest key that is not empty. *)
Fixpoint left_bound (st : list IndexStackEntry) : bytes :=
  match st with
  | [] => []
  | e :: st => match i_key (se_pointer e) with [] => left_bound st | key => key end
  end.

Definition LeftBound (st : list IndexStackEntry) (is_data_page : bool) : bytes :=
  left_bound (if is_data_page then st else tl st).

(** [RightBound]: the nearest next key. *)
Fixpoint right_bound (st : list IndexStackEntry) : option bytes :=
  match st with
  | [] => Some []
  | e :: st =>
      key ← PeekNextKey (se_view e) (se_iter e);
      match key with [] => right_bound st | _ => Some key end
  end.

Definition RightBound (st : list IndexStackEntry) (is_data_page : bool) : option bytes :=
  right_bound (if is_data_page then st else tl st).

(** ** Balancing two index pages *)

(** [while (iter.Next()) builder.Add(...)]; whether the entry was added is not
    looked at. *)
Fixpoint add_rest (fuel : nat) (v : PageView) (c : IndexCursor) (ib : IndexPageBuilder) (leaf : bool)
    : option IndexPageBuilder :=
  match fuel with
  | O => None
  | Datatypes.S fuel' =>
      '(more, c) ← IndexNext v c;
      if more : bool then
        '(_, ib) ← IndexAdd opts ib (i_key (ic_entry c)) (i_page_id (ic_entry c)) leaf;
        add_rest fuel' v c ib leaf
      else Some ib
  end.

(** The part of [Redistribute] that moves the regions of the previous page behind
    the first [preserve_region_cnt] ones to the current page: the previous page,
    the current page and its key. *)
Definition move_regions (prev cur cur_page_key : bytes) (region_iter : PageRegionIter) (preserve_region_cnt : Z)
    : option (bytes * bytes * bytes) :=
  is_leaf_idx ← IsPointingToLeaf prev;
  v_prev ← page_view prev;
  iter_prev ← IndexSeekToRestart v_prev preserve_region_cnt;
  '(_, iter_prev) ← IndexNext v_prev iter_prev;
  '(_, idx_builder) ← IndexAdd opts IndexReset [] (i_page_id (ic_entry iter_prev)) is_leaf_idx;
  idx_builder ← add_rest (length prev) v_prev iter_prev idx_builder is_leaf_idx;
  v_cur ← page_view cur;
  '(_, iter_cur) ← IndexNext v_cur fresh_index_cursor;
  if negb (zlen (i_key (ic_entry iter_cur)) =? 0) then None
  else
    '(_, idx_builder) ← IndexAdd opts idx_builder cur_page_key (i_page_id (ic_entry iter_cur)) is_leaf_idx;
    idx_builder ← add_rest (length cur) v_cur iter_cur idx_builder is_leaf_idx;
    builder ← copy_n (Z.to_nat preserve_region_cnt) opts region_iter
                (FastReset (mkFast [] 0 []) prev (index_page_type is_leaf_idx));
    Some (FastFinish builder, fst (IndexFinish opts idx_builder), i_key (ic_entry iter_prev)).

(** [Redistribute] for index pages. *)
Definition IndexRedistribute (prev cur cur_page_key : bytes) : option (bytes * bytes * bytes) :=
  prev_page_len ← ContentLength prev;
  cur_page_len ← ContentLength cur;
  let cur := ztake cur_page_len cur in
  if prev_page_len <=? cur_page_len then None
  else
    let average_len := u16 (Z.shiftr (prev_page_len + cur_page_len) 1) in
    region_iter ← RegionIterReset (ztake prev_page_len prev);
    '(_, preserve_len, preserve_region_cnt) ←
      preserve_loop (Z.to_nat (num_regions_ region_iter)) region_iter (IndexHeaderSize + 2) 0 average_len;
    if preserve_len =? prev_page_len then Some (prev, cur, cur_page_key)
    else move_regions prev cur cur_page_key region_iter preserve_region_cnt.

(** ** Rebuilding an index page *)

(** The local variables of [Pop]: the builder, the page that was built before and
    is not written yet, its key and its id, and the key of the current page. *)
Record Rebuild := mkRebuild {
  rb_task : Batch;
  rb_builder : IndexPageBuilder;
  rb_prev : option bytes;
  rb_prev_key : bytes;
  rb_prev_id : Z;
  rb_cur_key : bytes
}.

(** [FlushIndexPage]: the id of the page, which may be a new one, and the state.
    A root that splits gets a parent. *)
Definition FlushIndexPage (b : Batch) (page key : bytes) (page_id : Z) (split : bool) : option (Z * Batch) :=
  '(id, s) ← (if page_id =? MaxPageId then tp_get_page (bt_store b) else Some (page_id, bt_store b));
  b ← WritePage hash (with_store b s) id page;
  match stack_ b with
  | [] => None
  | top :: rest =>
      if split && ((page_id =? MaxPageId) || is_nil rest) then
        rest ← match rest with
               | [] => parent ← new_stack_entry None; Some [parent]
               | _ => Some rest
               end;
        match rest with
        | [] => None
        | parent :: rest =>
            Some (id, with_stack b (top :: with_changes parent (se_changes parent ++ [mkIndexOp key id Upsert]) :: rest))
        end
      else Some (id, b)
  end.

Definition FinishIndexPage (r : Rebuild) : option Rebuild :=
  if IndexIsEmpty (rb_builder r) then None
  else
    let cur_page_len := u16 (IndexSizeEstimate (rb_builder r)) in
    let '(page, ib) := IndexFinish opts (rb_builder r) in
    '(task, page, key, id) ←
      match rb_prev r with
      | None => Some (rb_task r, page, rb_cur_key r, rb_prev_id r)
      | Some prev =>
          prev_num ← RestartNum prev;
          prev_len ← ContentLength prev;
          '(prev, page, key) ← (if sparse_after opts cur_page_len prev_num prev_len
                                then IndexRedistribute prev page (rb_cur_key r)
                                else Some (prev, page, rb_cur_key r));
          '(_, task) ← FlushIndexPage (rb_task r) prev (rb_prev_key r) (rb_prev_id r) true;
          Some (task, page, key, MaxPageId)
      end;
    buffer ← tp_alloc (bt_store task);
    Some (mkRebuild task ib (Some (write_at buffer 0 page)) key id (rb_cur_key r)).

(** The lambda [add_to_page] of [Pop] *)
Definition add_pointer (r : Rebuild) (leaf : bool) (key : bytes) (page_id : Z) : option Rebuild :=
  '(success, ib) ← IndexAdd opts (rb_builder r) key page_id leaf;
  let r := mkRebuild (rb_task r) ib (rb_prev r) (rb_prev_key r) (rb_prev_id r) (rb_cur_key r) in
  if success : bool then Some r
  else
    r ← FinishIndexPage r;
    '(_, ib) ← IndexAdd opts IndexReset [] page_id leaf;
    Some (mkRebuild (rb_task r) ib (rb_prev r) (rb_prev_key r) (rb_prev_id r) key).

(** An empty key without a page stands for a pointer that is not to be added. *)
Definition add_valid (r : Rebuild) (leaf : bool) (key : bytes) (page_id : Z) : option Rebuild :=
  if (zlen key =? 0) && (page_id =? MaxPageId) then Some r else add_pointer r leaf key page_id.

Fixpoint add_pointers (r : Rebuild) (leaf : bool) (base : list IndexEntry) : option Rebuild :=
  match base with
  | [] => Some r
  | e :: base => r ← add_pointer r leaf (i_key e) (i_page_id e); add_pointers r leaf base
  end.

Fixpoint add_changes (r : Rebuild) (leaf : bool) (changes : list IndexOp) : option Rebuild :=
  match changes with
  | [] => Some r
  | o :: changes =>
      r ← match op_op o with Delete => Some r | Upsert => add_pointer r leaf (op_key o) (op_page_id o) end;
      add_changes r leaf changes
  end.

(** The three loops; every round of the first takes an entry or a change. *)
Fixpoint merge_pointers (fuel : nat) (r : Rebuild) (leaf : bool) (base : list IndexEntry) (changes : list IndexOp)
    : option Rebuild :=
  match base, changes with
  | [], _ => add_changes r leaf changes
  | _, [] => add_pointers r leaf base
  | e :: base', o :: changes' =>
      match fuel with
      | O => None
      | Datatypes.S fuel' =>
          let cmp_ret := Compare (i_key e) (op_key o) in
          if cmp_ret <? 0 then
            r ← add_valid r leaf (i_key e) (i_page_id e);
            merge_pointers fuel' r leaf base' changes
          else if cmp_ret =? 0 then
            r ← match op_op o with
                | Delete => add_valid r leaf [] MaxPageId
                | Upsert => add_valid r leaf (op_key o) (op_page_id o)
                end;
            merge_pointers fuel' r leaf base' changes'
          else
            match op_op o with
            | Delete => None
            | Upsert =>
                r ← add_valid r leaf (op_key o) (op_page_id o);
                merge_pointers fuel' r leaf base changes'
            end
      end
  end.

(** The entries of an index page, with the leftmost pointer first. *)
Definition handle_entries (e : IndexStackEntry) : option (list IndexEntry) :=
  match se_handle e with
  | None => Some []
  | Some (_, page) => collect_index (Datatypes.S (length page)) (se_view e) fresh_index_cursor
  end.

(** A change for the parent of the page on top of the stack, when it has one. *)
Definition parent_change (b : Batch) (o : bytes -> IndexOp) : Batch :=
  match stack_ b with
  | top :: parent :: rest =>
      with_stack b (top :: with_changes parent (se_changes parent ++ [o (i_key (se_pointer parent))]) :: rest)
  | _ => b
  end.

Definition pop_back (b : Batch) : Batch := with_stack b (tl (stack_ b)).

(** [Pop]: the page on top of the stack as it is now, unless it was split or
    emptied, and the stack without it. *)
Definition Pop (b : Batch) : option (option PageRef * Batch) :=
  match stack_ b with
  | [] => Some (None, b)
  | top :: rest =>
      match se_changes top with
      | [] => Some (se_handle top, pop_back b)
      | changes =>
          base ← handle_entries top;
          let page_key := match rest with [] => [] | parent :: _ => i_key (se_pointer parent) end in
          let prev_id := match se_handle top with Some (id, _) => id | None => MaxPageId end in
          r ← merge_pointers (length base + length changes) (mkRebuild b IndexReset None [] prev_id page_key)
                (is_leaf_index_ top) base changes;
          if IndexIsEmpty (rb_builder r) then
            '(id, _) ← se_handle top;
            b ← FreePage (rb_task r) id;
            Some (None, pop_back (parent_change b (fun key => mkIndexOp key (rb_prev_id r) Delete)))
          else
            let splited := match rb_prev r with Some _ => true | None => false end in
            r ← FinishIndexPage r;
            page ← rb_prev r;
            '(id, b) ← FlushIndexPage (rb_task r) page (rb_prev_key r) (rb_prev_id r) splited;
            Some (if splited then None else Some (id, page), pop_back b)
      end
  end.

(** ** Moving the stack *)
Definition entry_contains (start end_ search_key : bytes) : bool :=
  ((zlen start =? 0) || (0 <=? Compare search_key start)) && ((zlen end_ =? 0) || (Compare search_key end_ <? 0)).

(** [SeekStack]: pops pages until the one on top, from the entry behind its
    current one on, may hold the key; every round takes a page off the stack. *)
Fixpoint SeekStack (fuel : nat) (b : Batch) (search_key : bytes) : option Batch :=
  match stack_ b with
  | top :: ((_ :: _) as rest) =>
      match fuel with
      | O => None
      | Datatypes.S fuel' =>
          if IndexHasNext (se_view top) (se_iter top) then
            '(_, c) ← IndexNext (se_view top) (se_iter top);
            let b := with_stack b (se_at top c :: rest) in
            idx_entry_end ← RightBound (stack_ b) false;
            if entry_contains (i_key (ic_entry c)) idx_entry_end search_key then Some b
            else '(_, b) ← Pop b; SeekStack fuel' b search_key
          else '(_, b) ← Pop b; SeekStack fuel' b search_key
      end
  | _ => Some b
  end.

Definition mark_leaf (e : IndexStackEntry) : IndexStackEntry :=
  mkStackEntry (se_handle e) (se_view e) (se_iter e) (se_changes e) true.

(** [Seek]: pushes index pages down to the leaf of the key; one round per level. *)
Fixpoint SeekLeaf (fuel : nat) (b : Batch) (key : bytes) : option (Z * Batch) :=
  match stack_ b with
  | [] => None
  | top :: rest =>
      match se_handle top with
      | None => Some (MaxPageId, with_stack b (mark_leaf top :: rest))
      | Some (_, page) =>
          match fuel with
          | O => None
          | Datatypes.S fuel' =>
              c ← IndexSeek (se_view top) (se_iter top) key;
              let top := se_at top c in
              let page_id := i_page_id (ic_entry c) in
              if page_id =? MaxPageId then None
              else
                leaf ← IsPointingToLeaf page;
                if leaf : bool then Some (page_id, with_stack b (mark_leaf top :: rest))
                else if is_leaf_index_ top then None
                else
                  child ← tp_load (bt_store b) page_id;
                  e ← new_stack_entry (Some (page_id, child));
                  SeekLeaf fuel' (with_stack b (e :: top :: rest)) key
          end
      end
  end.
End stack.
