(* ===== verification/ApplyBatch.v ===== *)
(** * A batch write task as a whole

    [ApplyBatch] (src/tasks/batch_write_task.cpp) goes through a sorted batch:
    for each part of the batch that falls into one leaf it moves the stack of
    index pages to the leaf, loads it, and merges the part into it; at the end it
    writes the leaves and index pages that wait in memory and returns the new
    root. *)

From S2P Require Import Prelude Coding Comparator PageFormat DataPage Regions DataPageIter RegionCopy IndexPage IndexPageIter.
From S2P Require Import PageIo ApplyPage Tree BatchTask IndexStack.

Section batch.
  Context {S : Type} `{TaskPages S}.
  Context (opts : KvOptions) (hash : bytes -> Z).
  Context (enable_compression : bool) (compress_raw : bytes -> option bytes) (dict : option (bytes -> option bytes)).
  Context (now_ms : Z).

  Local Abbreviation Batch := (Batch (S := S)).

(** [LoadApplyingPage]: the page may already be in memory, with a link that
    changed. *)
Definition LoadApplyingPage (b : Batch) (page_id : Z) : option Batch :=
  if page_id =? MaxPageId then None
  else
    b ← match triple1 b with
        | Some (id, page) =>
            if id =? page_id then Some (with_triple (with_applying b (Some (id, page))) (triple0 b) None (triple2 b))
            else page ← tp_load (bt_store b) page_id; Some (with_applying b (Some (page_id, page)))
        | None => page ← tp_load (bt_store b) page_id; Some (with_applying b (Some (page_id, page)))
        end;
    '(id, page) ← applying_page_ b;
    t ← TypeOfPage page;
    if negb (t =? PageType_code Data) then None
    else
      b ← match triple1 b with
          | Some (id1, _) => if id1 =? id then None else ShiftLeafLink hash b
          | None => Some b
          end;
      match triple0 b with
      | Some (id0, _) =>
          prev ← PrevPageId page;
          if id0 =? prev then Some b else ShiftLeafLink hash b
      | None => Some b
      end.

(** The current leaf: its entries and the bounds of its keys. *)
Definition current_leaf (b : Batch) (top : IndexStackEntry) : option (list Entry * bytes * bytes) :=
  if i_page_id (se_pointer top) =? MaxPageId then Some ([], [], [])
  else
    '(id, page) ← applying_page_ b;
    if negb (i_page_id (se_pointer top) =? id) then None
    else
      v ← page_view page;
      base ← collect (Datatypes.S (length page)) v fresh_cursor;
      upper ← RightBound (stack_ b) true;
      Some (base, LeftBound (stack_ b) true, upper).

(** [ApplyOnePage] around the merge of ApplyPage: the state, the TTL batch and
    the rest of the batch. *)
Definition ApplyToLeaf (b : Batch) (ttl : TtlBatch) (batch : list WriteDataEntry)
    : option (Batch * TtlBatch * list WriteDataEntry) :=
  match stack_ b, batch with
  | top :: _, w :: _ =>
      '(base, lower, upper) ← current_leaf b top;
      let page_key := i_key (se_pointer top) in
      if negb ((Compare lower (w_key w) <=? 0) && ((zlen upper =? 0) || (Compare lower upper <? 0)) &&
               match base with e :: _ => Compare page_key (key_ e) <=? 0 | [] => true end) then None
      else
        '(a, empty, n) ← ApplyOnePage opts enable_compression compress_raw dict now_ms (H := BatchPageTask opts hash)
                           b ttl page_key (i_page_id (se_pointer top)) base upper batch;
        let b := ap_task a in
        b ← (if (empty : bool) && negb (i_page_id (se_pointer top) =? MaxPageId) then
               b ← LeafLinkDelete b;
               '(id, _) ← applying_page_ b;
               b ← FreePage b id;
               push_change b (mkIndexOp (ap_page_key a) (ap_page_id a) Delete)
             else Some b);
        match triple1 b with
        | Some _ => None
        | None => Some (with_triple b (triple0 b) (triple2 b) None, ap_ttl a, drop (Z.to_nat n) batch)
        end
  | _, _ => None
  end.

(** One round of [ApplyBatch] *)
Definition apply_round (fuel : nat) (b : Batch) (ttl : TtlBatch) (batch : list WriteDataEntry)
    : option (Batch * TtlBatch * list WriteDataEntry) :=
  match batch with
  | [] => None
  | w :: _ =>
      b ← (if 1 <? zlen (stack_ b) then SeekStack opts hash (length (stack_ b)) b (w_key w) else Some b);
      '(page_id, b) ← SeekLeaf fuel b (w_key w);
      b ← (if page_id =? MaxPageId then Some b else LoadApplyingPage b page_id);
      ApplyToLeaf b ttl batch
  end.

(** Every round takes at least one change. *)
Fixpoint apply_rounds (rounds fuel : nat) (b : Batch) (ttl : TtlBatch) (batch : list WriteDataEntry)
    : option (Batch * TtlBatch) :=
  match batch with
  | [] => Some (b, ttl)
  | _ =>
      match rounds with
      | O => None
      | Datatypes.S rounds' => '(b, ttl, batch) ← apply_round fuel b ttl batch; apply_rounds rounds' fuel b ttl batch
      end
  end.

(** [while (!stack_.empty()) Pop()]: the last page that was popped is the root. *)
Fixpoint pop_all (fuel : nat) (b : Batch) (root : option PageRef) : option (option PageRef * Batch) :=
  match stack_ b with
  | [] => Some (root, b)
  | _ => match fuel with O => None | Datatypes.S fuel' => '(root, b) ← Pop opts hash b; pop_all fuel' b root end
  end.

(** [ApplyBatch]; [old_root] is what [FindPage] returns for the root in the
    mapping the task started from.  The depth of the tree and the number of
    rounds of the last loop are at most [fuel]. *)
Definition ApplyBatch (fuel : nat) (b : Batch) (old_root : option bytes) (root_id : Z) (ttl : TtlBatch)
    (batch : list WriteDataEntry) : option (Z * Batch * TtlBatch) :=
  if do_update_ttl_ ttl && negb (is_nil (ttl_batch_ ttl)) then None
  else
    e ← (if root_id =? MaxPageId then new_stack_entry None
         else page ← old_root; new_stack_entry (Some (root_id, page)));
    '(b, ttl) ← apply_rounds (length batch) fuel (with_stack b (e :: stack_ b)) ttl batch;
    match triple2 b with
    | Some _ => None
    | None =>
        b ← ShiftLeafLink hash b;
        b ← ShiftLeafLink hash b;
        '(root, b) ← pop_all fuel b None;
        Some (match root with Some (id, _) => id | None => MaxPageId end, b, ttl)
    end.
End batch.
