(* ===== verification/TaskSpec.v ===== *)
(** * What a batch write task relies on and what its pages look like

    The laws of the page layer below a batch write task ([TaskPagesLaws]), pages
    up to their checksum ([page_eq]), chains of leaves ([seg]), and the pages as
    the task sees them: those in memory in front of those in the store
    ([eff]). *)

From stdpp Require Import gmap sorting.
From S2P Require Import Prelude Coding Comparator PageFormat DataPage Regions DataPageIter RegionCopy IndexPage IndexPageIter.
From S2P Require Import PageIo ApplyPage Tree BatchTask.

(** ** Outcomes

    [wp F m Q]: the operation has a result with [Q], or fails although only [F]
    lets it fail. *)
Definition wp {A} (F : Prop) (m : option A) (Q : A -> Prop) : Prop :=
  match m with Some a => Q a | None => F end.

Lemma wp_bind {A B} F (m : option A) (f : A -> option B) Q :
  wp F m (fun a => wp F (f a) Q) -> wp F (m ≫= f) Q.
Proof. destruct m; auto. Qed.

Lemma wp_mono {A} F (m : option A) (P Q : A -> Prop) : wp F m P -> (forall a, P a -> Q a) -> wp F m Q.
Proof. destruct m; simpl; auto. Qed.

Lemma wp_bind_mono {A B} F (m : option A) (f : A -> option B) P Q :
  wp F m P -> (forall a, P a -> wp F (f a) Q) -> wp F (m ≫= f) Q.
Proof. intros Hm Hf. apply wp_bind. exact (wp_mono _ _ _ _ Hm Hf). Qed.

Lemma wp_some {A} F (m : option A) a (Q : A -> Prop) : m = Some a -> Q a -> wp F m Q.
Proof. intros ->. auto. Qed.

(** ** The page layer *)

(** [tp_page s id] is the content of a page, [tp_inv s D os] that the task holds
    the pages [D] and the outside values [os], [tp_capacity] the number of pages
    it may hold, and [tp_fails] whether operations may fail otherwise.  Ids in use
    are not handed out, pages are read as they were written, and no operation
    disturbs other pages. *)
Class TaskPagesLaws (S : Type) `{TaskPages S} (opts : KvOptions) := {
  tp_fails : Prop;
  tp_capacity : Z;
  tp_page : S -> Z -> option bytes;
  tp_inv : S -> gset Z -> list Outside -> Prop;
  tp_inv_perm s D os os' : os ≡ₚ os' -> tp_inv s D os -> tp_inv s D os';
  load_ok s D os id page : tp_inv s D os -> id ∈ D -> tp_page s id = Some page ->
    wp tp_fails (tp_load s id) (fun p => p = page);
  alloc_ok s D os : tp_inv s D os -> wp tp_fails (tp_alloc s) (fun p => zlen p = data_page_size opts);
  get_page_ok s D os : tp_inv s D os -> Z.of_nat (size D) + 1 <= tp_capacity -> wp tp_fails (tp_get_page s) (fun '(id, s') =>
    id ∉ D /\ 0 <= id < 2 ^ 31 /\ tp_inv s' ({[id]} ∪ D) os /\ forall q, q ∈ D -> tp_page s' q = tp_page s q);
  write_page_ok s D os id page : tp_inv s D os -> id ∈ D -> wp tp_fails (tp_write_page s id page) (fun s' =>
    tp_inv s' D os /\ tp_page s' id = Some page /\ forall q, q ∈ D -> q <> id -> tp_page s' q = tp_page s q);
  free_page_ok s D os id : tp_inv s D os -> id ∈ D -> is_Some (tp_page s id) ->
    wp tp_fails (tp_free_page s id) (fun s' =>
      tp_inv s' (D ∖ {[id]}) os /\ forall q, q ∈ D -> q <> id -> tp_page s' q = tp_page s q);
  tp_write_overflow_ok s D os v : tp_inv s D os -> wp tp_fails (tp_write_overflow s v) (fun '(ptrs, s') =>
    tp_inv s' D (OutOverflow ptrs v :: os) /\ forall q, q ∈ D -> tp_page s' q = tp_page s q);
  tp_overflow_size s v ptrs s' : tp_write_overflow s v = Some (ptrs, s') -> zlen ptrs <= 4 * overflow_pointers opts;
  tp_del_overflow_ok s D os ptrs v : tp_inv s D (OutOverflow ptrs v :: os) ->
    wp tp_fails (tp_del_overflow s ptrs) (fun s' => tp_inv s' D os /\ forall q, q ∈ D -> tp_page s' q = tp_page s q);
  tp_write_large_ok s D os w v : tp_inv s D os -> w_large w = Some v ->
    wp tp_fails (tp_write_large s w) (fun '(content, s') =>
      tp_inv s' D (OutLarge content v :: os) /\ forall q, q ∈ D -> tp_page s' q = tp_page s q);
  tp_del_large_ok s D os content v : tp_inv s D (OutLarge content v :: os) ->
    wp tp_fails (tp_del_large s content) (fun s' => tp_inv s' D os /\ forall q, q ∈ D -> tp_page s' q = tp_page s q)
}.

(** The task may take [n] more pages. *)
Definition room {S} `{TaskPages S} (opts : KvOptions) `{!TaskPagesLaws S opts} (D : gset Z) (n : Z) : Prop :=
  Z.of_nat (size D) + n <= tp_capacity.

Lemma size_list (D D' : gset Z) (l : list Z) : (forall q, q ∈ D' -> q ∈ D \/ In q l) -> Z.of_nat (size D') <= Z.of_nat (size D) + zlen l.
Proof.
  intros HD. assert (Hs : D' ⊆ D ∪ list_to_set l) by (intros q Hq; rewrite elem_of_union, elem_of_list_to_set, list_elem_of_In; auto).
  apply subseteq_size in Hs. pose proof (size_union_alt D (list_to_set l)) as Hu.
  assert (Hd : (size (list_to_set (C := gset Z) l ∖ D) <= size (list_to_set (C := gset Z) l))%nat) by (apply subseteq_size; set_solver).
  assert (Hl : (size (list_to_set (C := gset Z) l) <= length l)%nat).
  { clear. induction l as [|x l IH]; [rewrite list_to_set_nil, size_empty; reflexivity|]. rewrite list_to_set_cons. cbn [length].
    rewrite size_union_alt, size_singleton. etransitivity; [apply le_n_S, subseteq_size, subseteq_difference_l; reflexivity|]. lia. }
  unfold zlen. lia.
Qed.

Lemma room_more {S} `{TaskPages S} (opts : KvOptions) `{!TaskPagesLaws S opts} (D D' : gset Z) (l : list Z) n m :
  (forall q, q ∈ D' -> q ∈ D \/ In q l) -> room opts D n -> m + zlen l <= n -> room opts D' m.
Proof. intros HD Hr Hm. unfold room in *. pose proof (size_list D D' l HD). lia. Qed.

(** ** Pages up to their checksum *)
Definition page_eq (p q : bytes) : Prop := zlen p = zlen q /\ zdrop checksum_bytes p = zdrop checksum_bytes q.

#[export] Instance page_eq_equiv : Equivalence page_eq.
Proof.
  split; unfold page_eq.
  - intros p. auto.
  - intros p q [? ?]. auto.
  - intros p q r [? ?] [? ?]. split; congruence.
Qed.

Lemma page_eq_drop n p q : checksum_bytes <= n -> page_eq p q -> zdrop n p = zdrop n q.
Proof.
  intros Hn [_ H]. replace n with (checksum_bytes + (n - checksum_bytes)) by lia.
  rewrite <- !zdrop_zdrop by (change checksum_bytes with 8 in *; lia). rewrite H. reflexivity.
Qed.

#[export] Instance ContentLength_proper : Proper (page_eq ==> eq) ContentLength.
Proof. intros p q H. unfold ContentLength. rewrite (page_eq_drop page_size_offset p q); [reflexivity|discriminate|exact H]. Qed.

#[export] Instance PrevPageId_proper : Proper (page_eq ==> eq) PrevPageId.
Proof. intros p q H. unfold PrevPageId. rewrite (page_eq_drop prev_page_offset p q); [reflexivity|discriminate|exact H]. Qed.

#[export] Instance NextPageId_proper : Proper (page_eq ==> eq) NextPageId.
Proof. intros p q H. unfold NextPageId. rewrite (page_eq_drop next_page_offset p q); [reflexivity|discriminate|exact H]. Qed.

#[export] Instance TypeOfPage_proper : Proper (page_eq ==> eq) TypeOfPage.
Proof.
  intros p q [_ H]. unfold TypeOfPage. change (Z.to_nat page_type_offset) with (8 + 0)%nat.
  rewrite <- !lookup_drop. unfold zdrop in H. change (Z.to_nat checksum_bytes) with 8%nat in H. rewrite H. reflexivity.
Qed.

Lemma page_format_eq {E} (enc : option E -> E -> bytes) base rs p q :
  page_eq p q -> page_format enc base rs p -> page_format enc base rs q.
Proof.
  intros [Hl Hd] (hdr & pad & -> & Hh & Hb & Hlen & Hfit). change page_size_offset with 9 in *. change checksum_bytes with 8 in *.
  exists (ztake 8 q ++ zdrop 8 hdr), pad. unfold format_page in *. rewrite zdrop_app_le in Hd by lia.
  split; [rewrite <- app_assoc, Hd, ztake_zdrop; reflexivity|].
  assert (H8 : zlen (ztake 8 q) = 8) by (rewrite zlen_ztake; [reflexivity|]; rewrite <- Hl, zlen_app; zlia).
  split; [rewrite zlen_app, zlen_zdrop; lia|]. split; [exact Hb|]. split; [|exact Hfit].
  rewrite <- Hlen. f_equal. change page_size_offset with (8 + 1). change 9 with (8 + 1). rewrite <- !zdrop_zdrop by lia.
  pose proof (zdrop_app (ztake 8 q) (zdrop 8 hdr)) as Hz. rewrite H8 in Hz. rewrite Hz. reflexivity.
Qed.

Lemma data_page_eq p q l : page_eq p q -> data_page p l -> data_page q l.
Proof.
  intros He (Ht & Hs & rs & Hf & Hr). split; [rewrite <- He; exact Ht|]. split; [exact Hs|]. exists rs.
  split; [exact (page_format_eq _ _ _ _ _ He Hf)|exact Hr].
Qed.

Lemma index_page_eq p q leaf lm seps : page_eq p q -> index_page p leaf lm seps -> index_page q leaf lm seps.
Proof.
  intros He (Ht & Hs & Hlm & Hd & rs & Hf & Hr). split; [rewrite <- He; exact Ht|]. split; [exact Hs|]. split; [exact Hlm|].
  split; [rewrite <- (page_eq_drop leftmost_ptr_offset p q ltac:(discriminate) He); exact Hd|]. exists rs.
  split; [exact (page_format_eq _ _ _ _ _ He Hf)|exact Hr].
Qed.

Lemma SetChecksum_eq hash p : checksum_bytes <= zlen p -> page_eq (SetChecksum hash p) p.
Proof.
  intros Hl. split; [apply SetChecksum_length, Hl|]. exact (SetChecksum_rest hash p checksum_bytes Hl (Z.le_refl _)).
Qed.

(** The same page in two stores. *)
Definition same_page (E E' : Z -> option bytes) (q : Z) : Prop :=
  match E q, E' q with Some p, Some p' => page_eq p p' | None, None => True | _, _ => False end.

Lemma same_page_refl E q : same_page E E q.
Proof. unfold same_page. destruct (E q); reflexivity. Qed.

Lemma same_page_eq E E' q : E q = E' q -> same_page E E' q.
Proof. unfold same_page. intros ->. destruct (E' q); reflexivity. Qed.

Lemma same_page_trans E1 E2 E3 q : same_page E1 E2 q -> same_page E2 E3 q -> same_page E1 E3 q.
Proof.
  unfold same_page. destruct (E1 q), (E2 q), (E3 q); try tauto. intros. etransitivity; eassumption.
Qed.

Lemma same_page_some E E' q p : same_page E E' q -> E q = Some p -> exists p', E' q = Some p' /\ page_eq p p'.
Proof. unfold same_page. intros H Hp. rewrite Hp in H. destruct (E' q) as [p'|]; [eauto|destruct H]. Qed.

(** ** Leaves *)

(** The page of a leaf with its entries and links; it has the page size. *)
Definition leaf_at (opts : KvOptions) (E : Z -> option bytes) (l : Leaf) (prev next : Z) : Prop :=
  exists page, E (lf_id l) = Some page /\ data_page page (lf_entries l) /\ zlen page = data_page_size opts /\
    PrevPageId page = Some prev /\ NextPageId page = Some next.

Lemma leaf_at_same opts E E' l prev next : same_page E E' (lf_id l) -> leaf_at opts E l prev next -> leaf_at opts E' l prev next.
Proof.
  intros Hs (page & Hp & Hd & Hl & H1 & H2). destruct (same_page_some _ _ _ _ Hs Hp) as (p' & Hp' & He). exists p'.
  split; [exact Hp'|]. split; [exact (data_page_eq _ _ _ He Hd)|]. split; [destruct He; congruence|]. rewrite <- He. auto.
Qed.

Definition first_id (ls : list Leaf) (next : Z) : Z := match ls with [] => next | l :: _ => lf_id l end.
Definition last_id (ls : list Leaf) (prev : Z) : Z := match last_from None ls with Some l => lf_id l | None => prev end.

(** A chain of leaves between the leaves [prev] and [next]. *)
Fixpoint seg (opts : KvOptions) (E : Z -> option bytes) (prev : Z) (ls : list Leaf) (next : Z) : Prop :=
  match ls with
  | [] => True
  | l :: ls' => leaf_at opts E l prev (first_id ls' next) /\ seg opts E (lf_id l) ls' next
  end.

Lemma seg_linked opts E prev ls : seg opts E prev ls MaxPageId -> linked E prev ls.
Proof.
  revert prev. induction ls as [|l ls IH]; intros prev H; [exact H|]. destruct H as [(page & Hp & _ & _ & H1 & H2) H].
  split; [exists page; auto|exact (IH _ H)].
Qed.

Lemma seg_leaves opts E prev ls next l : seg opts E prev ls next -> In l ls -> exists p n, leaf_at opts E l p n.
Proof.
  revert prev. induction ls as [|x ls IH]; intros prev Hs Hl; [destruct Hl|]. destruct Hs as [Hx Hs].
  destruct Hl as [<-|Hl]; [eauto|]. exact (IH _ Hs Hl).
Qed.

Lemma leaf_at_page opts E l p n : leaf_at opts E l p n -> leaf_page E l.
Proof. intros (page & Hp & Hd & _). exists page. auto. Qed.

Lemma last_id_cons l ls prev : last_id (l :: ls) prev = last_id ls (lf_id l).
Proof. unfold last_id. rewrite last_from_cons. destruct (last_from None ls); reflexivity. Qed.

Lemma last_id_snoc ls l prev : last_id (ls ++ [l]) prev = lf_id l.
Proof. unfold last_id. rewrite last_from_snoc. reflexivity. Qed.

Lemma seg_app opts E prev a b next :
  seg opts E prev (a ++ b) next <-> seg opts E prev a (first_id b next) /\ seg opts E (last_id a prev) b next.
Proof.
  revert prev. induction a as [|l a IH]; intros prev; [simpl; tauto|]. rewrite last_id_cons. cbn [app seg]. rewrite IH.
  replace (first_id (a ++ b) next) with (first_id a (first_id b next)) by (destruct a; reflexivity). tauto.
Qed.

Lemma seg_same opts E E' prev ls next :
  (forall l, In l ls -> same_page E E' (lf_id l)) -> seg opts E prev ls next -> seg opts E' prev ls next.
Proof.
  revert prev. induction ls as [|l ls IH]; intros prev Hs; [auto|]. intros [H1 H2].
  split; [exact (leaf_at_same _ _ _ _ _ _ (Hs l (or_introl eq_refl)) H1)|]. apply IH; [|exact H2]. intros x Hx. apply Hs. right. exact Hx.
Qed.

(** ** Trees *)
Fixpoint index_ids {h} : tree h -> list Z :=
  match h with O => fun _ => [] | S h' => fun t => nd_id t :: below index_ids (nd_children t) end.

Lemma index_ids_node {h} (t : tree (S h)) : index_ids t = tree_id t :: below index_ids (children t).
Proof. reflexivity. Qed.

Lemma tree_ids_node {h} (t : tree (S h)) : tree_ids t = tree_id t :: below tree_ids (children t).
Proof. reflexivity. Qed.

Lemma In_below {A B} (f : A -> list B) cs x : In x (below f cs) <-> exists k c, In (k, c) cs /\ In x (f c).
Proof.
  unfold below. rewrite in_concat. split.
  - intros (l & Hl & Hx). apply in_map_iff in Hl as ([k c] & <- & Hc). eauto.
  - intros (k & c & Hc & Hx). exists (f c). split; [|exact Hx]. apply in_map_iff. exists (k, c). auto.
Qed.

(** A tree stays represented when its index pages stay and its leaves keep
    their entries. *)
Lemma rep_change E E' {h} : forall t : tree h, rep E t ->
  (forall q, In q (index_ids t) -> same_page E E' q) -> (forall l, In l (leaves t) -> leaf_page E' l) -> rep E' t.
Proof.
  induction h as [|h IH]; intros t Hr Hi Hl.
  - apply Hl. left. reflexivity.
  - destruct Hr as (page & c0 & cs & Hcs & Hget & Hpage & Hreps).
    assert (Hsame : same_page E E' (tree_id t)) by (apply Hi; left; reflexivity).
    destruct (same_page_some _ _ _ _ Hsame Hget) as (p' & Hp' & He).
    exists p', c0, cs. split; [exact Hcs|]. split; [exact Hp'|]. split; [exact (index_page_eq _ _ _ _ _ He Hpage)|].
    change (Forall (fun c => rep E (snd c)) (children t)) in Hreps. change (Forall (fun c => rep E' (snd c)) (children t)).
    rewrite List.Forall_forall in Hreps |- *. intros [k c] Hc. apply IH; [exact (Hreps _ Hc)| |].
    + intros q Hq. apply Hi. rewrite index_ids_node. right. apply In_below. exists k, c. auto.
    + intros l Hin. apply Hl. rewrite leaves_node. apply In_below. exists k, c. auto.
Qed.

Lemma leaf_id_in {h} : forall (t : tree h) l, In l (leaves t) -> In (lf_id l) (tree_ids t).
Proof.
  induction h as [|h IH]; intros t l Hl.
  - destruct Hl as [->|[]]. left. reflexivity.
  - rewrite leaves_node in Hl. rewrite tree_ids_node. right. apply In_below in Hl as (k & c & Hc & Hl).
    apply In_below. exists k, c. auto.
Qed.

Lemma index_id_in {h} : forall (t : tree h) q, In q (index_ids t) -> In q (tree_ids t).
Proof.
  induction h as [|h IH]; intros t q Hq; [destruct Hq|]. rewrite index_ids_node in Hq. rewrite tree_ids_node.
  destruct Hq as [Hq|Hq]; [left; exact Hq|right]. apply In_below in Hq as (k & c & Hc & Hq). apply In_below. exists k, c. auto.
Qed.

Lemma nodup_cons {A} (x : A) l : NoDup (x :: l) <-> ~ In x l /\ NoDup l.
Proof.
  split.
  - inversion_clear 1 as [|? ? Hx Hl]. rewrite list_elem_of_In in Hx. auto.
  - intros [Hx Hl]. constructor; [rewrite list_elem_of_In; exact Hx|exact Hl].
Qed.

Lemma nodup_app {A} (a b : list A) : NoDup (a ++ b) <-> NoDup a /\ (forall x, In x a -> ~ In x b) /\ NoDup b.
Proof.
  induction a as [|x a IH]; simpl; [split; [intros H; split; [constructor|auto]|tauto]|].
  rewrite !nodup_cons, IH, in_app_iff. split.
  - intros (Hx & Ha & Hab & Hb). split; [tauto|]. split; [|exact Hb]. intros y [<-|Hy]; [tauto|auto].
  - intros ((Hx & Ha) & Hab & Hb). split; [|auto]. intros [H|H]; [tauto|]. exact (Hab x (or_introl eq_refl) H).
Qed.

(** ** The pages as the task sees them *)
Definition over (r : option PageRef) (E : Z -> option bytes) (q : Z) : option bytes :=
  match r with Some (id, page) => if id =? q then Some page else E q | None => E q end.

Definition ref_ids (r : option PageRef) : list Z := match r with Some (id, _) => [id] | None => [] end.

Lemma over_here id page E : over (Some (id, page)) E id = Some page.
Proof. unfold over. rewrite Z.eqb_refl. reflexivity. Qed.

Lemma over_ext r E E' q : E q = E' q -> over r E q = over r E' q.
Proof. destruct r as [[id page]|]; simpl; [|auto]. intros ->. reflexivity. Qed.

Lemma over_other r E q : ~ In q (ref_ids r) -> over r E q = E q.
Proof.
  destruct r as [[id page]|]; [|reflexivity]. simpl. intros Hn. destruct (Z.eqb_spec id q) as [->|]; [|reflexivity].
  exfalso. apply Hn. left. reflexivity.
Qed.

Section task_state.
  Context {S : Type} `{TaskPages S} (opts : KvOptions) (hash : bytes -> Z) `{!TaskPagesLaws S opts}.

  Local Abbreviation Batch := (Batch (S := S)).

Definition eff (b : Batch) : Z -> option bytes := over (triple0 b) (over (triple1 b) (over (triple2 b) (tp_page (bt_store b)))).

Definition triple_ids (b : Batch) : list Z := ref_ids (triple0 b) ++ ref_ids (triple1 b) ++ ref_ids (triple2 b).

(** The task holds the pages [D]; the leaves in memory are different pages of [D]. *)
Record task_inv (b : Batch) (D : gset Z) (os : list Outside) : Prop := {
  ti_store : tp_inv (bt_store b) D os;
  ti_nodup : NoDup (triple_ids b);
  ti_held : forall q, In q (triple_ids b) -> q ∈ D
}.

Lemma eff_store b q : ~ In q (triple_ids b) -> eff b q = tp_page (bt_store b) q.
Proof.
  unfold triple_ids. rewrite !in_app_iff. intros Hn. unfold eff. rewrite !over_other by tauto. reflexivity.
Qed.

(** Every page of [D] is the same in two states. *)
Definition same_pages (D : gset Z) (b b' : Batch) : Prop := forall q, q ∈ D -> same_page (eff b) (eff b') q.

Lemma same_pages_trans D b1 b2 b3 : same_pages D b1 b2 -> same_pages D b2 b3 -> same_pages D b1 b3.
Proof. intros H1 H2 q Hq. exact (same_page_trans _ _ _ _ (H1 q Hq) (H2 q Hq)). Qed.

Lemma same_pages_refl D b : same_pages D b b.
Proof. intros q _. apply same_page_refl. Qed.

(** The page was written before. *)
Definition stored (b : Batch) (q : Z) : Prop := is_Some (tp_page (bt_store b) q).
Definition keeps (D : gset Z) (b b' : Batch) : Prop := forall q, q ∈ D -> stored b q -> stored b' q.

Lemma write_held_page b D os id page : tp_inv (bt_store b) D os -> id ∈ D ->
  wp tp_fails (WritePage hash b id page) (fun b' => exists s', b' = with_store b s' /\ tp_inv s' D os /\
    tp_page s' id = Some (SetChecksum hash page) /\ forall q, q ∈ D -> q <> id -> tp_page s' q = tp_page (bt_store b) q).
Proof.
  intros Hst Hid. eapply wp_bind_mono; [exact (write_page_ok _ _ _ _ (SetChecksum hash page) Hst Hid)|].
  intros s' Hs'. exists s'. auto.
Qed.

Lemma free_held_page b D os id : tp_inv (bt_store b) D os -> id ∈ D -> is_Some (tp_page (bt_store b) id) ->
  wp tp_fails (FreePage b id) (fun b' => exists s', b' = with_store b s' /\ tp_inv s' (D ∖ {[id]}) os /\
    forall q, q ∈ D -> q <> id -> tp_page s' q = tp_page (bt_store b) q).
Proof.
  intros Hst Hid Hp. eapply wp_bind_mono; [exact (free_page_ok _ _ _ _ Hst Hid Hp)|]. intros s' Hs'. exists s'. auto.
Qed.

(** Writing the leaf in front makes room and changes nothing. *)
Lemma Shift_spec b D os : task_inv b D os -> (forall id p, triple0 b = Some (id, p) -> checksum_bytes <= zlen p) ->
  wp tp_fails (ShiftLeafLink hash b) (fun b' =>
    task_inv b' D os /\ same_pages D b b' /\ keeps D b b' /\ triple0 b' = triple1 b /\ triple1 b' = None /\ triple2 b' = triple2 b /\
    stack_ b' = stack_ b /\ applying_page_ b' = applying_page_ b).
Proof.
  intros [Hst Hnd Hheld] Hlen. unfold ShiftLeafLink. destruct (triple0 b) as [[id page]|] eqn:H0.
  - assert (Hid : id ∈ D) by (apply Hheld; unfold triple_ids; rewrite H0; left; reflexivity).
    eapply wp_bind_mono; [exact (write_held_page b D os id page Hst Hid)|]. intros b1 (s' & -> & Hs' & Hp & Hq).
    unfold triple_ids in Hnd, Hheld. rewrite H0 in Hnd, Hheld. cbn [ref_ids app] in Hnd, Hheld. apply nodup_cons in Hnd as [Hnin Hnd].
    split; [|split; [|split; [|repeat split]]].
    + constructor; [exact Hs'|exact Hnd|]. intros q Hq'. apply Hheld. right. exact Hq'.
    + rewrite in_app_iff in Hnin. intros q HqD. unfold eff. cbn [triple0 triple1 triple2 bt_store with_store with_triple].
      rewrite H0. destruct (Z.eq_dec q id) as [->|Hne].
      * unfold same_page. rewrite over_here, !over_other by (simpl; tauto). rewrite Hp. symmetry. apply SetChecksum_eq. exact (Hlen _ _ eq_refl).
      * apply same_page_eq. rewrite over_other by (simpl; intuition congruence). apply over_ext.
        change (over (triple2 b) (tp_page (bt_store b)) q = over (triple2 b) (tp_page s') q). apply over_ext. symmetry. exact (Hq q HqD Hne).
    + intros q HqD Hs. unfold stored in *. cbn [bt_store with_store with_triple].
      destruct (Z.eq_dec q id) as [->|Hne]; [rewrite Hp; eauto|rewrite (Hq q HqD Hne); exact Hs].
  - split; [|split; [|split; [|repeat split]]].
    + constructor; [exact Hst| |]; unfold triple_ids in *; rewrite H0 in *; assumption.
    + intros q _. apply same_page_eq. unfold eff. rewrite H0. reflexivity.
    + intros q _ Hs. exact Hs.
Qed.
End task_state.
