(* ===== verification/LeafSpec.v ===== *)
(** * What the leaf operations of a batch do

    The operations of BatchTask on leaves: the links stay those of a doubly linked
    list while leaves are replaced, inserted and deleted, and balancing a new leaf
    with the one before it keeps their entries. *)

From stdpp Require Import gmap sorting.
From S2P Require Import Prelude Coding Comparator PageFormat DataPage Regions DataPageIter RegionCopy IndexPage IndexPageIter.
From S2P Require Import PageIo ApplyPage Tree BatchTask IndexStack ApplyBatch TaskSpec.

(** ** Pages with the header of another page *)
Lemma header_of_links buf page : header_of buf page -> HeaderSize <= zlen buf ->
  TypeOfPage page = Some (PageType_code Data) /\ PrevPageId page = PrevPageId buf /\ NextPageId page = NextPageId buf.
Proof.
  change HeaderSize with 19. intros (len & rest & ->) Hl.
  do 19 (destruct buf as [|? buf]; [unfold zlen in Hl; simpl in Hl; lia|]). clear Hl. repeat split; reflexivity.
Qed.

(** ** Balancing two leaves *)
Lemma data_page_regions page l : data_page page l ->
  exists rs, page_format enc_entry HeaderSize rs page /\ concat rs = l /\ rs <> [] /\
    Forall (Forall wf_entry) rs /\ Forall (fun r => r <> []) rs.
Proof. intros (_ & _ & rs & Hf & Hc & Hw & Hne & Hrs). exists rs. auto. Qed.

Lemma sorted_app_inv (a b : list Entry) : StronglySorted key_lt (map key_ (a ++ b)) ->
  StronglySorted key_lt (map key_ a) /\ StronglySorted key_lt (map key_ b) /\
  Forall (fun x => Forall (fun y => key_ x <k key_ y) b) a.
Proof.
  induction a as [|x a IH]; intros Hs; [repeat split; [constructor|exact Hs|constructor]|].
  simpl in Hs. apply StronglySorted_inv in Hs as [Hs Hx]. destruct (IH Hs) as (Ha & Hb & Hab).
  rewrite List.Forall_map in Hx. apply Forall_app in Hx as [Hxa Hxb].
  split; [simpl; constructor; [exact Ha|rewrite List.Forall_map; exact Hxa]|]. split; [exact Hb|]. constructor; assumption.
Qed.

Lemma format_lengths {E} (enc : option E -> E -> bytes) base rs page : page_format enc base rs page ->
  ContentLength page = Some (content_size enc base rs) /\ RestartNum page = Some (zlen rs).
Proof.
  intros Hf. split; [exact (format_ContentLength _ _ _ _ Hf)|]. pose proof (format_page_view _ _ _ _ Hf) as Hv.
  unfold page_view in Hv. destruct (RestartNum page) as [n|] eqn:E0; [|discriminate Hv]. cbn [mbind option_bind] in Hv.
  destruct (ContentLength page); [|discriminate Hv]. injection Hv as -> _. reflexivity.
Qed.

Section leaf.
  Context (opts : KvOptions) (Hopts : valid_options opts).

Lemma redistribute_leaves prev cur buf l1 l2 n1 n2 num :
  data_page prev l1 -> data_page cur l2 -> zlen prev = data_page_size opts -> zlen cur = data_page_size opts ->
  zlen buf = data_page_size opts -> StronglySorted key_lt (map key_ (l1 ++ l2)) ->
  ContentLength prev = Some n1 -> ContentLength cur = Some n2 -> sparse_after opts n2 num n1 = true ->
  exists prev' cur' l1' l2', Redistribute opts prev cur buf = Some (prev', cur') /\ l1' ++ l2' = l1 ++ l2 /\
    data_page prev' l1' /\ data_page cur' l2' /\ zlen prev' = data_page_size opts /\ zlen cur' = data_page_size opts /\
    PrevPageId prev' = PrevPageId prev /\ NextPageId prev' = NextPageId prev.
Proof.
  intros Hp Hc Hlp Hlc Hlb Hs Hn1 Hn2 Hsp.
  destruct (data_page_regions _ _ Hp) as (rs1 & Hf1 & <- & Hr1 & Hw1 & Hne1).
  destruct (data_page_regions _ _ Hc) as (rs2 & Hf2 & <- & Hr2 & Hw2 & Hne2).
  rewrite (format_ContentLength _ _ _ _ Hf1) in Hn1. rewrite (format_ContentLength _ _ _ _ Hf2) in Hn2.
  injection Hn1 as <-. injection Hn2 as <-.
  assert (Hlt : content_size enc_entry HeaderSize rs2 < content_size enc_entry HeaderSize rs1).
  { unfold sparse_after in Hsp. apply andb_prop in Hsp as [Hsp H3%Z.ltb_lt]. apply andb_prop in Hsp as [H1%Z.ltb_lt _].
    destruct Hopts as [Hps _]. rewrite Z.shiftr_div_pow2 in * by lia. change (2 ^ 2) with 4 in *.
    pose proof (Z.div_mod (data_page_size opts) 4 ltac:(lia)). pose proof (Z.mod_pos_bound (data_page_size opts) 4 ltac:(lia)).
    change HeaderSize with 19 in Hps.
    rewrite (u16_id (data_page_size opts / 4)) in * by (unfold is_u16; lia). rewrite u16_id in H3 by (unfold is_u16; lia). lia. }
  destruct (Redistribute_correct opts Hopts rs1 rs2 prev cur buf Hf1 Hf2 Hlp Hlc Hlb Hlt Hr2)
    as (keep & move & prev' & cur' & Hrs & (Hk & _) & HR & Hfk & Hfm & Hz1 & Hz2 & Hh1 & Hh2).
  exists prev', cur', (concat keep), (concat (move ++ rs2)). rewrite Hrs in Hs, Hw1, Hne1 |- *.
  rewrite !concat_app in *. apply Forall_app in Hw1 as [Hwk Hwm]. apply Forall_app in Hne1 as [Hnk Hnm].
  rewrite <- app_assoc in Hs |- *. destruct (sorted_app_inv _ _ Hs) as (Hs1 & Hs2 & _).
  destruct Hopts as [Hps _].
  assert (Hd1 : TypeOfPage prev' = Some (PageType_code Data) /\ PrevPageId prev' = PrevPageId prev /\ NextPageId prev' = NextPageId prev).
  { destruct Hh1 as [->|Hh1]; [split; [apply Hp|auto]|]. apply (header_of_links _ _ Hh1). lia. }
  assert (Hd2 : TypeOfPage cur' = Some (PageType_code Data)).
  { destruct Hh2 as [->|Hh2]; [apply Hc|]. apply (header_of_links _ _ Hh2). lia. }
  split; [exact HR|]. split; [reflexivity|]. split; [|split; [|split; [exact Hz1|split; [exact Hz2|apply Hd1]]]].
  - split; [apply Hd1|]. split; [exact Hs1|]. exists keep. auto.
  - split; [exact Hd2|]. split; [exact Hs2|]. exists (move ++ rs2). rewrite concat_app.
    split; [exact Hfm|]. split; [reflexivity|]. split; [apply Forall_app_2; assumption|]. split; [apply Forall_app_2; assumption|].
    destruct move; [exact Hr2|discriminate].
Qed.
End leaf.

(** ** The list of leaves

    The pages of the leaves [ls] hold their entries and are linked in this order. *)
Record chain (opts : KvOptions) (E : Z -> option bytes) (D : gset Z) (ls : list Leaf) : Prop := {
  ch_seg : seg opts E MaxPageId ls MaxPageId;
  ch_ids : NoDup (map lf_id ls);
  ch_held : forall l, In l ls -> lf_id l ∈ D;
  ch_range : forall l, In l ls -> 0 <= lf_id l < 2 ^ 31
}.

Lemma chain_same opts E E' D D' ls : (forall l, In l ls -> same_page E E' (lf_id l) /\ lf_id l ∈ D') ->
  chain opts E D ls -> chain opts E' D' ls.
Proof.
  intros Hs [Hg Hi Hh Hr]. constructor; auto.
  - eapply seg_same; [|exact Hg]. intros l Hin. apply Hs, Hin.
  - intros l Hin. apply Hs, Hin.
Qed.

Lemma id_u32 z : 0 <= z < 2 ^ 31 -> is_u32 z.
Proof. unfold is_u32. lia. Qed.

Lemma max_u32 : is_u32 MaxPageId.
Proof. unfold is_u32, MaxPageId. lia. Qed.

Lemma first_id_u32 ls : (forall l, In l ls -> 0 <= lf_id l < 2 ^ 31) -> is_u32 (first_id ls MaxPageId).
Proof. destruct ls as [|l ls]; intros H; [exact max_u32|apply id_u32, H; left; reflexivity]. Qed.

Lemma last_id_u32 ls : (forall l, In l ls -> 0 <= lf_id l < 2 ^ 31) -> is_u32 (last_id ls MaxPageId).
Proof.
  destruct ls as [|l ls _] using rev_ind; intros H; [exact max_u32|]. rewrite last_id_snoc. apply id_u32, H, in_or_app. right. left. reflexivity.
Qed.

Lemma chain_at opts E D A l B : chain opts E D (A ++ l :: B) -> leaf_at opts E l (last_id A MaxPageId) (first_id B MaxPageId).
Proof. intros [Hg _ _ _]. apply seg_app in Hg as [_ [H _]]. exact H. Qed.

Lemma chain_parts opts E D A l B : chain opts E D (A ++ l :: B) ->
  seg opts E MaxPageId A (lf_id l) /\ leaf_at opts E l (last_id A MaxPageId) (first_id B MaxPageId) /\ seg opts E (lf_id l) B MaxPageId.
Proof. intros [Hg _ _ _]. apply seg_app in Hg as [H1 [H2 H3]]. auto. Qed.

Lemma chain_nodup opts E D A l B : chain opts E D (A ++ l :: B) ->
  (forall x, In x A -> lf_id x <> lf_id l) /\ (forall x, In x B -> lf_id x <> lf_id l) /\
  (forall x y, In x A -> In y B -> lf_id x <> lf_id y).
Proof.
  intros H. pose proof (ch_ids _ _ _ _ H) as Hn. rewrite map_app in Hn. simpl in Hn.
  apply nodup_app in Hn as (_ & Hd & Hn). apply nodup_cons in Hn as [Hl _]. repeat split.
  - intros x Hx He. apply (Hd (lf_id x)); [apply in_map, Hx|left; auto].
  - intros x Hx He. apply Hl. rewrite <- He. apply in_map, Hx.
  - intros x y Hx Hy He. apply (Hd (lf_id x)); [apply in_map, Hx|]. rewrite He. right. apply in_map, Hy.
Qed.

Lemma in_middle {A} (x y : A) a b : In x (a ++ y :: b) <-> x = y \/ In x (a ++ b).
Proof. rewrite !in_app_iff. simpl. intuition. Qed.

(** Giving a leaf new entries. *)
Lemma chain_replace opts E E' D A l l' B : chain opts E D (A ++ l :: B) -> lf_id l' = lf_id l ->
  leaf_at opts E' l' (last_id A MaxPageId) (first_id B MaxPageId) ->
  (forall x, In x (A ++ B) -> same_page E E' (lf_id x)) -> chain opts E' D (A ++ l' :: B).
Proof.
  intros Hc Hid Hl' Hs. destruct (chain_parts _ _ _ _ _ _ Hc) as (H1 & _ & H3). destruct Hc as [_ Hi Hh Hr]. constructor.
  - apply seg_app. simpl. rewrite Hid. split; [|split; [exact Hl'|]].
    + eapply seg_same; [|exact H1]. intros x Hx. apply Hs, in_or_app. left. exact Hx.
    + eapply seg_same; [|exact H3]. intros x Hx. apply Hs, in_or_app. right. exact Hx.
  - rewrite map_app in *. simpl in *. rewrite Hid. exact Hi.
  - intros x [->|Hx]%in_middle; [rewrite Hid|]; apply Hh, in_middle; auto.
  - intros x [->|Hx]%in_middle; [rewrite Hid|]; apply Hr, in_middle; auto.
Qed.

(** The leaf behind a change of the list: only its link to the left changes. *)
Definition relinked (opts : KvOptions) (E E' : Z -> option bytes) (B : list Leaf) (prev : Z) : Prop :=
  match B with
  | [] => True
  | h :: B' => leaf_at opts E' h prev (first_id B' MaxPageId) /\ forall x, In x B' -> same_page E E' (lf_id x)
  end.

Lemma relinked_seg opts E E' B p prev : seg opts E p B MaxPageId -> relinked opts E E' B prev -> seg opts E' prev B MaxPageId.
Proof.
  destruct B as [|h B]; [auto|]. intros [_ H] [H1 H2]. split; [exact H1|]. eapply seg_same; [|exact H]. exact H2.
Qed.

(** Inserting a leaf behind another, which may get new entries. *)
Lemma chain_insert opts E E' D A x x' n B : chain opts E D (A ++ x :: B) -> lf_id x' = lf_id x -> lf_id n ∉ D ->
  0 <= lf_id n < 2 ^ 31 -> leaf_at opts E' x' (last_id A MaxPageId) (lf_id n) ->
  leaf_at opts E' n (lf_id x) (first_id B MaxPageId) -> (forall y, In y A -> same_page E E' (lf_id y)) ->
  relinked opts E E' B (lf_id n) -> chain opts E' ({[lf_id n]} ∪ D) (A ++ x' :: n :: B).
Proof.
  intros Hc Hid Hn Hr' Hx' Hn' HA HB. destruct (chain_parts _ _ _ _ _ _ Hc) as (H1 & _ & H3). destruct Hc as [_ Hi Hh Hr].
  assert (Hin : forall y, In y (A ++ x' :: n :: B) -> y = x' \/ y = n \/ In y (A ++ x :: B)).
  { intros y. rewrite !in_middle, !in_app_iff. simpl. intuition. }
  constructor.
  - apply seg_app. cbn [seg first_id]. rewrite Hid. split; [|split; [exact Hx'|split; [exact Hn'|]]].
    + eapply seg_same; [|exact H1]. exact HA.
    + exact (relinked_seg _ _ _ _ _ _ H3 HB).
  - assert (Hni : ~ In (lf_id n) (map lf_id (A ++ x :: B))).
    { intros Hin'. apply in_map_iff in Hin' as (y & Hy & Hy'). apply Hn. rewrite <- Hy. exact (Hh y Hy'). }
    rewrite map_app in *. simpl in *. rewrite Hid. apply nodup_app in Hi as (HiA & HiD & HiB). apply nodup_cons in HiB as [Hx HiB].
    rewrite in_app_iff in Hni. simpl in Hni. apply nodup_app. split; [exact HiA|]. split.
    + intros q Hq [<-|[<-|Hq']]; [apply (HiD _ Hq); left; reflexivity|tauto|]. apply (HiD _ Hq). right. exact Hq'.
    + apply nodup_cons. split; [simpl; intuition congruence|]. apply nodup_cons. split; [tauto|exact HiB].
  - intros y Hy. destruct (Hin y Hy) as [->|[->|Hy']]; [rewrite Hid; set_unfold; right; apply Hh, in_middle; auto|set_solver|].
    set_unfold. right. exact (Hh y Hy').
  - intros y Hy. destruct (Hin y Hy) as [->|[->|Hy']]; [rewrite Hid; apply Hr, in_middle; auto|exact Hr'|exact (Hr y Hy')].
Qed.

(** Deleting a leaf; the one before it gets a new link to the right. *)
Lemma chain_delete opts E E' D A l B : chain opts E D (A ++ l :: B) ->
  (forall A' a, A = A' ++ [a] -> leaf_at opts E' a (last_id A' MaxPageId) (first_id B MaxPageId) /\
     forall y, In y A' -> same_page E E' (lf_id y)) ->
  relinked opts E E' B (last_id A MaxPageId) -> chain opts E' (D ∖ {[lf_id l]}) (A ++ B).
Proof.
  intros Hc HA HB. destruct (chain_parts _ _ _ _ _ _ Hc) as (H1 & _ & H3).
  destruct (chain_nodup _ _ _ _ _ _ Hc) as (N1 & N2 & _). destruct Hc as [_ Hi Hh Hr]. constructor.
  - apply seg_app. split; [|exact (relinked_seg _ _ _ _ _ _ H3 HB)]. destruct A as [|a A' _] using rev_ind; [exact I|].
    destruct (HA A' a eq_refl) as [Ha Hs]. apply seg_app in H1 as [H1 _]. apply seg_app. split.
    + eapply seg_same; [|exact H1]. exact Hs.
    + split; [exact Ha|exact I].
  - rewrite map_app in *. simpl in Hi. apply nodup_app in Hi as (HiA & HiD & HiB). apply nodup_cons in HiB as [_ HiB].
    apply nodup_app. split; [exact HiA|]. split; [|exact HiB]. intros q Hq Hq'. apply (HiD q Hq). right. exact Hq'.
  - intros y Hy. apply elem_of_difference. split; [apply Hh, in_middle; auto|]. apply in_app_iff in Hy.
    intros He%elem_of_singleton. destruct Hy as [Hy|Hy]; [exact (N1 y Hy He)|exact (N2 y Hy He)].
  - intros y Hy. apply Hr, in_middle. auto.
Qed.

(** ** The operations on leaves *)
Section operations.
  Context {S : Type} `{TaskPages S} (opts : KvOptions) (hash : bytes -> Z) `{!TaskPagesLaws S opts} (Hopts : valid_options opts).

  Local Abbreviation Batch := (Batch (S := S)).
  Local Abbreviation eff := (eff opts).
  Local Abbreviation task_inv := (task_inv opts).

Lemma eff_ref (b : Batch) id p : NoDup (triple_ids b) ->
  triple0 b = Some (id, p) \/ triple1 b = Some (id, p) \/ triple2 b = Some (id, p) -> eff b id = Some p.
Proof.
  unfold triple_ids. intros Hn Hr. apply nodup_app in Hn as (_ & H0 & Hn). apply nodup_app in Hn as (_ & H1 & _).
  assert (Hi : forall r : option PageRef, r = Some (id, p) -> In id (ref_ids r)) by (intros r ->; left; reflexivity).
  unfold eff. destruct Hr as [E|[E|E]].
  - rewrite E. apply over_here.
  - rewrite over_other, E; [apply over_here|]. intros Hin. apply (H0 id Hin), in_or_app. left. exact (Hi _ E).
  - rewrite over_other by (intros Hin; apply (H0 id Hin), in_or_app; right; exact (Hi _ E)).
    rewrite over_other by (intros Hin; exact (H1 id Hin (Hi _ E))). rewrite E. apply over_here.
Qed.

(** A page that is in memory in neither state and the same in the stores. *)
Lemma eff_out (b b' : Batch) q : ~ In q (triple_ids b) -> ~ In q (triple_ids b') ->
  tp_page (bt_store b') q = tp_page (bt_store b) q -> eff b' q = eff b q.
Proof. intros H1 H2 H3. rewrite !eff_store by assumption. exact H3. Qed.

Lemma leaf_length E D ls l p : chain opts E D ls -> In l ls -> E (lf_id l) = Some p -> checksum_bytes <= zlen p.
Proof.
  intros Hc Hl Hp. destruct (seg_leaves _ _ _ _ _ l (ch_seg _ _ _ _ Hc) Hl) as (? & ? & (pg & Hpg & _ & Hz & _)).
  rewrite Hp in Hpg. injection Hpg as ->. rewrite Hz. destruct Hopts as [Hps _]. change HeaderSize with 19 in Hps.
  change checksum_bytes with 8. lia.
Qed.

(** The state between two leaves: [x] was finished last and is in memory; the
    leaf behind it may be. *)
Record after_leaf (b : Batch) (D : gset Z) (os : list Outside) (A : list Leaf) (x : Leaf) (B : list Leaf) : Prop := {
  af_inv : task_inv b D os;
  af_chain : chain opts (eff b) D (A ++ x :: B);
  af_t0 : exists page, triple0 b = Some (lf_id x, page);
  af_t1 : triple1 b = None;
  af_t2 : triple2 b = None \/ exists h B' page, B = h :: B' /\ triple2 b = Some (lf_id h, page);
  af_stored : forall l, In l B -> stored opts b (lf_id l)
}.

(** Pages outside the leaves stay. *)
Record frame (D : gset Z) (ls : list Leaf) (b b' : Batch) : Prop := {
  fr_pages : forall q, q ∈ D -> ~ In q (map lf_id ls) -> same_page (eff b) (eff b') q;
  fr_keeps : keeps opts D b b'
}.

Lemma LeafLinkUpdate_eq (b : Batch) id old page prev next : applying_page_ b = Some (id, old) ->
  PrevPageId old = Some prev -> NextPageId old = Some next ->
  LeafLinkUpdate b id page = Some (with_triple b (triple0 b) (Some (id, SetPrevPageId (SetNextPageId page next) prev)) (triple2 b)).
Proof. intros Ha Hp Hn. unfold LeafLinkUpdate. rewrite Ha. simpl. rewrite Hn. simpl. rewrite Hp. reflexivity. Qed.

Lemma set_links page l prev next : data_page page l -> is_u32 prev -> is_u32 next ->
  data_page (SetPrevPageId (SetNextPageId page next) prev) l /\
  PrevPageId (SetPrevPageId (SetNextPageId page next) prev) = Some prev /\
  NextPageId (SetPrevPageId (SetNextPageId page next) prev) = Some next /\
  zlen (SetPrevPageId (SetNextPageId page next) prev) = zlen page.
Proof.
  intros Hd Hp Hn. destruct (SetNextPageId_spec _ _ _ Hd Hn) as (Hd1 & H1 & H2 & H3).
  destruct (SetPrevPageId_spec _ _ _ Hd1 Hp) as (Hd2 & H4 & H5 & H6). split; [exact Hd2|]. split; [exact H4|].
  split; congruence.
Qed.

(** The leaf being applied gets new entries. *)
Lemma finish_update (b : Batch) D os A x B old key page es :
  task_inv b D os -> chain opts (over (applying_page_ b) (eff b)) D (A ++ x :: B) ->
  applying_page_ b = Some (lf_id x, old) -> triple1 b = None -> triple2 b = None ->
  (forall q, In q (ref_ids (triple0 b)) -> In q (map lf_id A)) -> (forall l, In l B -> stored opts b (lf_id l)) ->
  data_page page es -> zlen page = data_page_size opts ->
  wp tp_fails (FinishDataPage opts hash b key (lf_id x) page) (fun b' =>
    after_leaf b' D os A (mkLeaf (lf_id x) es) B /\ frame D (A ++ x :: B) b b' /\
    stack_ b' = stack_ b /\ applying_page_ b' = applying_page_ b).
Proof.
  intros Hinv Hc Ha H1 H2 H0 Hsto Hd Hl. destruct (chain_at _ _ _ _ _ _ Hc) as (old' & Hold & _ & _ & Hprev & Hnext).
  rewrite Ha, over_here in Hold. injection Hold as <-.
  assert (Hrx : 0 <= lf_id x < 2 ^ 31) by (apply (ch_range _ _ _ _ Hc), in_middle; auto).
  assert (HxD : lf_id x ∈ D) by (apply (ch_held _ _ _ _ Hc), in_middle; auto).
  destruct (chain_nodup _ _ _ _ _ _ Hc) as (NA & NB & _).
  assert (Hx0 : ~ In (lf_id x) (ref_ids (triple0 b))).
  { intros Hin. apply H0, in_map_iff in Hin as (y & Hy & Hy'). exact (NA y Hy' Hy). }
  assert (Hr : forall y, In y (A ++ B) -> 0 <= lf_id y < 2 ^ 31) by (intros y Hy; apply (ch_range _ _ _ _ Hc), in_middle; auto).
  set (page' := SetPrevPageId (SetNextPageId page (first_id B MaxPageId)) (last_id A MaxPageId)).
  set (b1 := with_triple b (triple0 b) (Some (lf_id x, page')) (triple2 b)).
  destruct (set_links page es (last_id A MaxPageId) (first_id B MaxPageId) Hd) as (Hd' & Hp' & Hn' & Hl').
  { apply last_id_u32. intros y Hy. apply Hr, in_or_app. auto. }
  { apply first_id_u32. intros y Hy. apply Hr, in_or_app. auto. }
  unfold FinishDataPage. rewrite (proj2 (Z.eqb_neq (lf_id x) MaxPageId)) by (unfold MaxPageId; lia).
  rewrite (LeafLinkUpdate_eq b (lf_id x) old page _ _ Ha Hprev Hnext). cbn [mbind option_bind]. fold page' b1.
  assert (Hids : triple_ids b1 = ref_ids (triple0 b) ++ [lf_id x]) by (unfold triple_ids, b1; simpl; rewrite H2; reflexivity).
  assert (Hids0 : triple_ids b = ref_ids (triple0 b)) by (unfold triple_ids; rewrite H1, H2; apply app_nil_r).
  assert (Heff : forall q, q <> lf_id x -> eff b1 q = eff b q).
  { intros q Hq. unfold eff, b1. simpl. apply over_ext. rewrite H1. apply over_other. simpl. intuition congruence. }
  assert (Hinv1 : task_inv b1 D os).
  { destruct Hinv as [Hs Hn Hh]. rewrite Hids0 in Hn, Hh. constructor; [exact Hs| |]; rewrite Hids.
    - apply nodup_app. split; [exact Hn|]. split; [|apply nodup_cons; split; [auto|constructor]].
      intros q Hq [<-|[]]. exact (Hx0 Hq).
    - intros q Hq. apply in_app_iff in Hq as [Hq|[<-|[]]]; [exact (Hh q Hq)|exact HxD]. }
  eapply wp_mono; [apply (Shift_spec opts hash b1 D os Hinv1)|].
  - intros id p E. assert (Hin : In id (map lf_id A)) by (apply H0; unfold b1 in E; simpl in E; rewrite E; left; reflexivity).
    apply in_map_iff in Hin as (y & <- & Hy). apply (leaf_length _ _ _ y p Hc); [apply in_middle; right; apply in_or_app; auto|].
    rewrite Ha, over_other by (simpl; intros [He|[]]; exact (NA y Hy (eq_sym He))). apply eff_ref; [apply Hinv|left; exact E].
  - intros b' (Hinv' & Hsame & Hkeep & E0 & E1 & E2 & Est & Eap).
    assert (Hx' : eff b1 (lf_id x) = Some page') by (apply eff_ref; [apply Hinv1|right; left; reflexivity]).
    split; [|split; [|split; [exact Est|exact Eap]]].
    + constructor; [exact Hinv'| |exists page'; exact E0|exact E1|left; rewrite E2; exact H2|].
      2: { intros l Hl0. apply Hkeep; [apply (ch_held _ _ _ _ Hc), in_middle; right; apply in_or_app; auto|exact (Hsto l Hl0)]. }
      apply (chain_same opts (eff b1) (eff b') D D).
      { intros l Hl0. assert (lf_id l ∈ D); [|auto].
        apply in_middle in Hl0 as [->|Hl0]; [exact HxD|apply (ch_held _ _ _ _ Hc), in_middle; auto]. }
      apply (chain_replace opts (over (applying_page_ b) (eff b)) (eff b1) D A x); [exact Hc|reflexivity| |].
      * exists page'. simpl. split; [exact Hx'|]. split; [exact Hd'|]. split; [exact (eq_trans Hl' Hl)|auto].
      * intros y Hy. apply same_page_eq. assert (Hne : lf_id y <> lf_id x) by (apply in_app_iff in Hy as [Hy|Hy]; auto).
        rewrite Heff, Ha by exact Hne. apply over_other. simpl. intuition congruence.
    + split; [|exact Hkeep]. intros q HqD Hq. eapply same_page_trans; [apply same_page_eq, eq_sym, Heff|exact (Hsame q HqD)].
      intros ->. apply Hq. rewrite map_app. apply in_or_app. right. left. reflexivity.
Qed.

(** The first entry of a leaf. *)
Lemma first_entry page l : data_page page l ->
  exists v e l' c, page_view page = Some v /\ l = e :: l' /\ HasNext v fresh_cursor = true /\
    Next v fresh_cursor = Some (true, c) /\ entry_ c = e.
Proof.
  intros Hd. pose proof (data_page_nonempty _ _ Hd) as Hne. destruct (data_page_view _ _ Hd) as (v & Hv & [Hf _ _ _ _]).
  exists v. inversion Hf as [c H1 H2 H3|c c' rest H1 H2 H3 H4]; subst; [congruence|]. exists (entry_ c'), rest, c'. auto.
Qed.

(** Balancing a new leaf with the one before it moves entries from that one. *)
Lemma balance_leaf_spec (b : Batch) D os xid px key page l1 l2 : tp_inv (bt_store b) D os -> triple0 b = Some (xid, px) ->
  data_page px l1 -> zlen px = data_page_size opts -> data_page page l2 -> zlen page = data_page_size opts ->
  StronglySorted key_lt (map key_ (l1 ++ l2)) -> Forall (fun e => key_ e <k key) l1 -> Forall (fun e => key <=k key_ e) l2 ->
  wp tp_fails (balance_leaf opts b key page) (fun '(b', page', key') => exists px' l1' l2',
    b' = with_triple b (Some (xid, px')) (triple1 b) (triple2 b) /\ l1' ++ l2' = l1 ++ l2 /\
    data_page px' l1' /\ zlen px' = data_page_size opts /\ data_page page' l2' /\ zlen page' = data_page_size opts /\
    PrevPageId px' = PrevPageId px /\ NextPageId px' = NextPageId px /\
    Forall (fun e => key_ e <k key') l1' /\ Forall (fun e => key' <=k key_ e) l2' /\
    (key' = key \/ exists e, In e l2' /\ key' = key_ e)).
Proof.
  intros Hst H0 Hd1 Hz1 Hd2 Hz2 Hs Hk1 Hk2.
  destruct (data_page_regions _ _ Hd1) as (rs1 & Hf1 & _). destruct (data_page_regions _ _ Hd2) as (rs2 & Hf2 & _).
  destruct (format_lengths _ _ _ _ Hf1) as [HL1 HR1]. destruct (format_lengths _ _ _ _ Hf2) as [HL2 _].
  unfold balance_leaf. rewrite HL2, H0. cbn [mbind option_bind]. rewrite HR1, HL1. cbn [mbind option_bind].
  destruct (sparse_after opts _ _ _) eqn:Hsp.
  - eapply wp_bind_mono; [exact (alloc_ok _ _ _ Hst)|]. intros buf Hbuf.
    destruct (redistribute_leaves opts Hopts px page buf l1 l2 _ _ _ Hd1 Hd2 Hz1 Hz2 Hbuf Hs HL1 HL2 Hsp)
      as (px' & page' & l1' & l2' & -> & Heq & Hd1' & Hd2' & Hz1' & Hz2' & Hp & Hn). cbn [mbind option_bind].
    destruct (first_entry _ _ Hd2') as (v & e & l2'' & c & -> & -> & Hnext & HN & <-). cbn [mbind option_bind].
    rewrite Hnext, HN. cbn [mbind option_bind negb wp]. exists px', l1', (entry_ c :: l2'').
    do 8 (split; [auto; congruence|]). rewrite <- Heq in Hs. destruct (sorted_app_inv _ _ Hs) as (_ & Hs2 & Hlt). split; [|split].
    + eapply Forall_impl; [|exact Hlt]. intros a Ha. apply Forall_cons_1 in Ha. apply Ha.
    + simpl in Hs2. apply StronglySorted_inv in Hs2 as [_ Hs2]. rewrite List.Forall_map in Hs2. constructor; [apply key_le_refl|].
      eapply Forall_impl; [|exact Hs2]. intros a Ha. apply key_lt_le. exact Ha.
    + right. exists (entry_ c). split; [left; reflexivity|reflexivity].
  - cbn [wp]. exists px, l1, l2. split; [destruct b; simpl in *; subst; reflexivity|]. do 8 (split; [auto|]). auto.
Qed.

(** Linking a new leaf behind the one in memory. *)
Definition inserted (b : Batch) (xid : Z) (px : bytes) (B : list Leaf) (id : Z) (page : bytes) (b' : Batch) : Prop :=
  exists t2, b' = with_triple b (Some (xid, SetNextPageId px id))
                    (Some (id, SetNextPageId (SetPrevPageId page xid) (first_id B MaxPageId))) t2 /\
    match B with
    | [] => t2 = triple2 b
    | h :: _ => exists hp, eff b (lf_id h) = Some hp /\ t2 = Some (lf_id h, SetPrevPageId hp id)
    end.

Lemma LeafLinkInsert_spec (b : Batch) D os top rest xid px B id page :
  task_inv b D os -> stack_ b = top :: rest -> triple0 b = Some (xid, px) -> triple1 b = None ->
  (triple2 b = None \/ exists h B' p, B = h :: B' /\ triple2 b = Some (lf_id h, p)) ->
  NextPageId px = Some (first_id B MaxPageId) -> (forall l, In l B -> lf_id l <> xid /\ lf_id l <> MaxPageId /\ lf_id l ∈ D) ->
  (forall h B', B = h :: B' -> is_Some (eff b (lf_id h))) ->
  (i_page_id (se_pointer top) = MaxPageId \/
   exists aid old, applying_page_ b = Some (aid, old) /\ NextPageId old = Some (first_id B MaxPageId)) ->
  wp tp_fails (LeafLinkInsert b id page) (inserted b xid px B id page).
Proof.
  intros Hinv Hst H0 H1 H2 Hn HB Hh Hap. unfold LeafLinkInsert. rewrite H1, Hst, H0, Hn. cbn [mbind option_bind].
  set (ok := if i_page_id (se_pointer top) =? MaxPageId then _ else _). assert (Hok : ok = Some true).
  { unfold ok. case_if; [reflexivity|]. destruct Hap as [Hap|(aid & old & -> & Ho)]; [congruence|].
    simpl. rewrite Ho. simpl. rewrite Z.eqb_refl. reflexivity. }
  rewrite Hok. cbn [mbind option_bind negb]. destruct B as [|h B]; simpl first_id.
  - rewrite Z.eqb_refl. cbn [mbind option_bind wp]. exists (triple2 b). auto.
  - destruct (HB h (or_introl eq_refl)) as (Hhx & Hmax & HhD). rewrite (proj2 (Z.eqb_neq _ _) Hmax).
    destruct (Hh h B eq_refl) as [hp Hhp]. unfold LoadTripleElement. change (TripleElement b 2) with (triple2 b).
    destruct H2 as [H2|(h' & B' & p & HB' & H2)]; rewrite H2.
    + rewrite (proj2 (Z.eqb_neq _ _) Hmax).
      assert (Hids : ~ In (lf_id h) (triple_ids b)).
      { unfold triple_ids. rewrite H0, H1, H2. simpl. intuition congruence. }
      rewrite (eff_store opts b _ Hids) in Hhp.
      eapply wp_bind_mono; [eapply wp_bind_mono; [eapply wp_bind_mono; [exact (load_ok _ _ _ _ _ (ti_store _ _ _ _ Hinv) HhD Hhp)|]|]|].
      * intros p ->. exact (eq_refl (with_triple b (triple0 b) (triple1 b) (Some (lf_id h, hp)))).
      * intros b1 <-. cbn. exact (eq_refl (with_triple b (triple0 b) (triple1 b) (Some (lf_id h, SetPrevPageId hp id)))).
      * intros b1 <-. eexists. split; [reflexivity|]. exists hp. split; [|reflexivity].
        rewrite (eff_store opts b _ Hids). exact Hhp.
    + injection HB' as <- <-. cbn. rewrite H2. cbn. eexists. split; [reflexivity|]. exists p. split; [|reflexivity].
      apply eff_ref; [apply Hinv|auto].
Qed.

(** The pages in memory when a new leaf [n] is linked behind [x]. *)
Record insert_state (b b3 : Batch) (D : gset Z) (os : list Outside) (A : list Leaf) (x x' n : Leaf) (B : list Leaf)
    (px px' page : bytes) : Prop := {
  is_store : tp_inv (bt_store b3) ({[lf_id n]} ∪ D) os;
  is_pages : forall q, q ∈ D -> tp_page (bt_store b3) q = tp_page (bt_store b) q;
  is_new : lf_id n ∉ D;
  is_id : 0 <= lf_id n < 2 ^ 31;
  is_old : triple0 b = Some (lf_id x, px);
  is_x : lf_id x' = lf_id x;
  is_px : data_page px' (lf_entries x') /\ zlen px' = data_page_size opts /\ PrevPageId px' = PrevPageId px;
  is_page : data_page page (lf_entries n) /\ zlen page = data_page_size opts;
  is_t0 : triple0 b3 = Some (lf_id x, SetNextPageId px' (lf_id n));
  is_t1 : triple1 b3 = Some (lf_id n, SetNextPageId (SetPrevPageId page (lf_id x)) (first_id B MaxPageId));
  is_t2 : match B with
          | [] => triple2 b3 = None
          | h :: _ => exists hp, eff b (lf_id h) = Some hp /\ triple2 b3 = Some (lf_id h, SetPrevPageId hp (lf_id n))
          end
}.

Lemma insert_ids b b3 D os A x x' n B px px' page : insert_state b b3 D os A x x' n B px px' page ->
  triple_ids b3 = lf_id x :: lf_id n :: match B with [] => [] | h :: _ => [lf_id h] end.
Proof.
  intros Hi. unfold triple_ids. rewrite (is_t0 _ _ _ _ _ _ _ _ _ _ _ _ Hi), (is_t1 _ _ _ _ _ _ _ _ _ _ _ _ Hi).
  pose proof (is_t2 _ _ _ _ _ _ _ _ _ _ _ _ Hi) as H2. destruct B; [rewrite H2; reflexivity|destruct H2 as (hp & _ & ->); reflexivity].
Qed.

Lemma insert_inv b b3 D os A x x' n B px px' page : after_leaf b D os A x B -> insert_state b b3 D os A x x' n B px px' page ->
  task_inv b3 ({[lf_id n]} ∪ D) os.
Proof.
  intros [Hinv Hc _ _ _ _] Hi. pose proof (insert_ids _ _ _ _ _ _ _ _ _ _ _ _ Hi) as Hids.
  pose proof (is_new _ _ _ _ _ _ _ _ _ _ _ _ Hi) as Hnew. destruct (chain_nodup _ _ _ _ _ _ Hc) as (_ & NB & _).
  pose proof (ch_held _ _ _ _ Hc) as Hh. assert (Hx : lf_id x ∈ D) by (apply Hh, in_middle; auto).
  assert (HB : forall y, In y B -> lf_id y ∈ D) by (intros y Hy; apply Hh, in_middle; right; apply in_or_app; auto).
  constructor; [exact (is_store _ _ _ _ _ _ _ _ _ _ _ _ Hi)| |]; rewrite Hids.
  - apply nodup_cons. split; [intros [He|Hin]|].
    + rewrite He in Hnew. contradiction.
    + destruct B as [|h B]; [destruct Hin|]. destruct Hin as [He|[]]. exact (NB h (or_introl eq_refl) He).
    + apply nodup_cons. split; [|destruct B as [|h B]; [constructor|apply nodup_cons; split; [auto|constructor]]].
      destruct B as [|h B]; [auto|]. intros [He|[]]. apply Hnew. rewrite <- He. apply HB. left. reflexivity.
  - intros q [<-|[<-|Hq]]; [set_solver|set_solver|]. destruct B as [|h B]; [destruct Hq|]. destruct Hq as [<-|[]].
    specialize (HB h (or_introl eq_refl)). set_solver.
Qed.

(** Pages of [D] that are not in memory are the same. *)
Lemma insert_same b b3 D os A x x' n B px px' page q :
  after_leaf b D os A x B -> insert_state b b3 D os A x x' n B px px' page -> q ∈ D -> q <> lf_id x ->
  (forall h B', B = h :: B' -> q <> lf_id h) -> eff b3 q = eff b q.
Proof.
  intros [_ _ (p0 & H0) H1 H2 _] Hi Hq Hqx Hqh.
  assert (Hn : q <> lf_id n) by (intros ->; exact (is_new _ _ _ _ _ _ _ _ _ _ _ _ Hi Hq)).
  apply eff_out; [| |exact (is_pages _ _ _ _ _ _ _ _ _ _ _ _ Hi q Hq)].
  - unfold triple_ids. rewrite H0, H1. destruct H2 as [->|(h & B' & p & HB & ->)]; simpl; [intuition congruence|].
    specialize (Hqh h B' HB). intuition congruence.
  - rewrite (insert_ids _ _ _ _ _ _ _ _ _ _ _ _ Hi). destruct B as [|h B]; simpl; [intuition congruence|].
    specialize (Hqh h B eq_refl). intuition congruence.
Qed.

Lemma insert_chain b b3 D os A x x' n B px px' page :
  after_leaf b D os A x B -> insert_state b b3 D os A x x' n B px px' page ->
  chain opts (eff b3) ({[lf_id n]} ∪ D) (A ++ x' :: n :: B).
Proof.
  intros Haf Hi. pose proof (insert_inv _ _ _ _ _ _ _ _ _ _ _ _ Haf Hi) as Hinv3.
  pose proof (fun q => insert_same _ _ _ _ _ _ _ _ _ _ _ _ q Haf Hi) as Hsame. pose proof Haf as [Hinv Hc _ _ _ _].
  destruct Hi as [_ _ Hnew Hid H0 Hx' (Hdx & Hzx & Hpx) (Hdp & Hzp) E0 E1 E2].
  destruct (chain_nodup _ _ _ _ _ _ Hc) as (NA & NB & NAB). pose proof (ch_range _ _ _ _ Hc) as Hr.
  assert (Hin : forall y, In y (A ++ B) -> lf_id y ∈ D) by (intros y Hy; apply (ch_held _ _ _ _ Hc), in_middle; auto).
  destruct (chain_parts _ _ _ _ _ _ Hc) as (_ & (px0 & Hp0 & _ & _ & Hprev & _) & HsB).
  rewrite (eff_ref b (lf_id x) px) in Hp0 by (auto; apply Hinv). injection Hp0 as <-.
  destruct (SetNextPageId_spec px' _ (lf_id n) Hdx (id_u32 _ Hid)) as (F1 & F2 & F3 & F4).
  destruct (SetPrevPageId_spec page _ (lf_id x) Hdp) as (G1 & G2 & _ & G4); [apply id_u32, Hr, in_middle; auto|].
  destruct (SetNextPageId_spec _ _ (first_id B MaxPageId) G1) as (G5 & G6 & G7 & G8).
  { apply first_id_u32. intros y Hy. apply Hr, in_middle. right. apply in_or_app. auto. }
  apply (chain_insert opts (eff b) (eff b3) D A x x' n B Hc Hx' Hnew Hid).
  - exists (SetNextPageId px' (lf_id n)). rewrite Hx'. split; [apply eff_ref; [apply Hinv3|auto]|]. split; [exact F1|].
    split; [congruence|]. split; [congruence|exact F2].
  - eexists. split; [apply eff_ref; [apply Hinv3|right; left; exact E1]|]. split; [exact G5|]. split; [congruence|]. split; [congruence|exact G6].
  - intros y Hy. apply same_page_eq, eq_sym, Hsame; [apply Hin, in_or_app; auto|exact (NA y Hy)|].
    intros h B' HB. apply NAB; [exact Hy|rewrite HB; left; reflexivity].
  - destruct B as [|h B]; [exact I|]. destruct E2 as (hp & Hhp & E2). destruct HsB as [(hp0 & Hhp0 & Hdh & Hzh & _ & Hnh) HsB].
    rewrite Hhp in Hhp0. injection Hhp0 as <-.
    destruct (SetPrevPageId_spec hp _ (lf_id n) Hdh (id_u32 _ Hid)) as (K1 & K2 & K3 & K4). split.
    + eexists. split; [apply eff_ref; [apply Hinv3|right; right; exact E2]|]. split; [exact K1|]. split; [congruence|]. split; [exact K2|congruence].
    + intros y Hy. apply same_page_eq, eq_sym, Hsame; [apply Hin, in_or_app; right; right; exact Hy|apply NB; right; exact Hy|].
      intros h' B' [= <- <-]. pose proof (ch_ids _ _ _ _ Hc) as Hnd. rewrite map_app in Hnd. apply nodup_app in Hnd as (_ & _ & Hnd).
      apply nodup_cons in Hnd as [_ Hnd]. apply nodup_cons in Hnd as [Hnh' _]. intros He. apply Hnh'. rewrite <- He. apply in_map, Hy.
Qed.

Lemma insert_frame b b3 D os A x x' n B px px' page :
  after_leaf b D os A x B -> insert_state b b3 D os A x x' n B px px' page -> frame D (A ++ x :: B) b b3.
Proof.
  intros Haf Hi. split.
  2: { intros q Hq Hs. unfold stored. rewrite (is_pages _ _ _ _ _ _ _ _ _ _ _ _ Hi q Hq). exact Hs. }
  intros q Hq Hn. apply same_page_eq, eq_sym, (insert_same _ _ _ _ _ _ _ _ _ _ _ _ _ Haf Hi Hq).
  - intros ->. apply Hn. rewrite map_app. apply in_or_app. right. left. reflexivity.
  - intros h B' -> ->. apply Hn. rewrite map_app. apply in_or_app. right. right. left. reflexivity.
Qed.

Lemma push_change_eq (b : Batch) top rest op : stack_ b = top :: rest ->
  (forall o, last_from None (se_changes top) = Some o -> op_key o <k op_key op) ->
  push_change b op = Some (with_stack b (with_changes top (se_changes top ++ [op]) :: rest)).
Proof.
  intros Hs Ho. unfold push_change. rewrite Hs. destruct (last_from None (se_changes top)) as [o|]; [|reflexivity].
  rewrite (proj2 (Z.ltb_lt _ _) (Ho o eq_refl)). reflexivity.
Qed.

Lemma task_inv_stack (b : Batch) st D os : task_inv b D os -> task_inv (with_stack b st) D os.
Proof. intros [H1 H2 H3]. constructor; assumption. Qed.

(** Where the task stands when it adds a leaf: in an empty tree, or behind the
    leaf that is applied. *)
Definition links_to (b : Batch) (top : IndexStackEntry) (B : list Leaf) : Prop :=
  i_page_id (se_pointer top) = MaxPageId \/
  exists aid old, applying_page_ b = Some (aid, old) /\ NextPageId old = Some (first_id B MaxPageId).

(** What a new leaf leaves behind: some of the entries of the leaf before it may
    have moved to it, and the index page on top of the stack is to get a pointer
    to it. *)
Record leaf_added (b b' : Batch) (D : gset Z) (os : list Outside) (A : list Leaf) (x : Leaf) (es : list Entry) (B : list Leaf)
    (key key' : bytes) (x' n : Leaf) : Prop := {
  la_new : lf_id n ∉ D;
  la_id : lf_id x' = lf_id x;
  la_entries : lf_entries x' ++ lf_entries n = lf_entries x ++ es;
  la_after : after_leaf b' ({[lf_id n]} ∪ D) os (A ++ [x']) n B;
  la_frame : frame D (A ++ x :: B) b b';
  la_applying : applying_page_ b' = applying_page_ b;
  la_below : Forall (fun e => key_ e <k key') (lf_entries x');
  la_above : Forall (fun e => key' <=k key_ e) (lf_entries n);
  la_key : key' = key \/ exists e, In e (lf_entries n) /\ key' = key_ e
}.

Lemma link_balanced (b : Batch) D os A x B top rest px px' l1 l2 id s' page :
  after_leaf b D os A x B -> stack_ b = top :: rest -> links_to b top B -> triple0 b = Some (lf_id x, px) ->
  NextPageId px = Some (first_id B MaxPageId) -> id ∉ D -> 0 <= id < 2 ^ 31 -> tp_inv s' ({[id]} ∪ D) os ->
  (forall q, q ∈ D -> tp_page s' q = tp_page (bt_store b) q) ->
  data_page px' l1 -> zlen px' = data_page_size opts -> PrevPageId px' = PrevPageId px -> NextPageId px' = NextPageId px ->
  data_page page l2 -> zlen page = data_page_size opts ->
  wp tp_fails (LeafLinkInsert (with_triple (with_store b s') (Some (lf_id x, px')) (triple1 b) (triple2 b)) id page) (fun b3 =>
    insert_state b b3 D os A x (mkLeaf (lf_id x) l1) (mkLeaf id l2) B px px' page /\
    stack_ b3 = stack_ b /\ applying_page_ b3 = applying_page_ b).
Proof.
  intros [Hinv Hc _ H1 H2 _] Hst Hto H0 Hnext Hid Hr Hs' Hq Hd1 Hz1 Hp Hn Hd2 Hz2. set (b2 := with_triple _ _ _ _).
  destruct (chain_nodup _ _ _ _ _ _ Hc) as (_ & NB & _).
  assert (HinB : forall y, In y B -> In y (A ++ x :: B)) by (intros y Hy; apply in_middle; right; apply in_or_app; auto).
  assert (Hids : triple_ids b2 = triple_ids b) by (unfold triple_ids; simpl; rewrite H0; reflexivity).
  assert (Hinv2 : task_inv b2 ({[id]} ∪ D) os).
  { destruct Hinv as [_ Hnd Hh]. constructor; rewrite ?Hids; auto. intros q Hq'. set_unfold. right. exact (Hh q Hq'). }
  assert (HB : forall h B', B = h :: B' -> eff b2 (lf_id h) = eff b (lf_id h)).
  { intros h B' ->. assert (HhD : lf_id h ∈ D) by (apply (ch_held _ _ _ _ Hc), HinB; left; reflexivity).
    assert (Hne : lf_id x <> lf_id h) by (intros He; exact (NB h (or_introl eq_refl) (eq_sym He))).
    unfold TaskSpec.eff. rewrite H0. change (triple0 b2) with (Some (lf_id x, px')).
    rewrite !(over_other (Some (lf_id x, _))) by (simpl; intuition congruence). do 2 apply over_ext. exact (Hq _ HhD). }
  eapply wp_mono.
  { apply (LeafLinkInsert_spec b2 _ os top rest (lf_id x) px' B id page Hinv2 Hst eq_refl H1 H2); [congruence| | |exact Hto].
    - intros y Hy. pose proof (ch_range _ _ _ _ Hc y (HinB y Hy)) as Hry. pose proof (ch_held _ _ _ _ Hc y (HinB y Hy)) as Hhy.
      split; [exact (NB y Hy)|]. split; [unfold MaxPageId; lia|set_solver].
    - intros h B' HBe. rewrite (HB h B' HBe). destruct (chain_parts _ _ _ _ _ _ Hc) as (_ & _ & HsB). rewrite HBe in HsB.
      destruct HsB as [(hp & Hhp & _) _]. eauto. }
  intros b3 (t2 & -> & Ht2). split; [|auto]. constructor; auto.
  destruct B as [|h B]; [simpl; rewrite Ht2; destruct H2 as [H2|(?&?&?&?&_)]; [exact H2|discriminate]|].
  destruct Ht2 as (hp & Hhp & ->). exists hp. rewrite (HB h B eq_refl) in Hhp. auto.
Qed.

(** Writing the leaf before a new one. *)
Lemma shift_inserted (b b3 : Batch) st D os A x x' n B px px' page :
  after_leaf b D os A x B -> insert_state b b3 D os A x x' n B px px' page ->
  wp tp_fails (ShiftLeafLink hash (with_stack b3 st)) (fun b' =>
    after_leaf b' ({[lf_id n]} ∪ D) os (A ++ [x']) n B /\ frame D (A ++ x :: B) b b' /\ stack_ b' = st /\
    applying_page_ b' = applying_page_ b3).
Proof.
  intros Haf Hi. pose proof (insert_inv _ _ _ _ _ _ _ _ _ _ _ _ Haf Hi) as Hinv3.
  pose proof (insert_chain _ _ _ _ _ _ _ _ _ _ _ _ Haf Hi) as Hc3.
  eapply wp_mono; [apply (Shift_spec opts hash _ _ os (task_inv_stack _ st _ _ Hinv3))|].
  - intros id p E0. apply (leaf_length _ _ _ x' p Hc3); [apply in_middle; auto|].
    change (triple0 b3 = Some (id, p)) in E0. rewrite (is_t0 _ _ _ _ _ _ _ _ _ _ _ _ Hi) in E0. injection E0 as <- <-.
    rewrite (is_x _ _ _ _ _ _ _ _ _ _ _ _ Hi). apply eff_ref; [apply Hinv3|left; exact (is_t0 _ _ _ _ _ _ _ _ _ _ _ _ Hi)].
  - intros b' (Hinv' & Hsame & Hkeep & E0 & E1 & E2 & Est & Eap). change (triple0 b' = triple1 b3) in E0. change (triple2 b' = triple2 b3) in E2.
    split; [|split; [|split; [exact Est|exact Eap]]].
    + constructor; [exact Hinv'| | |exact E1| |].
      * rewrite <- app_assoc. apply (chain_same opts (eff b3) (eff b') ({[lf_id n]} ∪ D) ({[lf_id n]} ∪ D)); [|exact Hc3].
        intros l Hl. pose proof (ch_held _ _ _ _ Hc3 l Hl) as HlD. split; [exact (Hsame _ HlD)|exact HlD].
      * rewrite E0, (is_t1 _ _ _ _ _ _ _ _ _ _ _ _ Hi). eauto.
      * pose proof (is_t2 _ _ _ _ _ _ _ _ _ _ _ _ Hi) as Ht2. destruct B as [|h B]; [left; rewrite E2; exact Ht2|right].
        destruct Ht2 as (hp & _ & Ht2). rewrite E2, Ht2. eauto.
      * intros l Hl. assert (HlD : lf_id l ∈ D) by (apply (ch_held _ _ _ _ (af_chain _ _ _ _ _ _ Haf)), in_middle; right; apply in_or_app; auto).
        apply Hkeep; [set_solver|]. apply (fr_keeps _ _ _ _ (insert_frame _ _ _ _ _ _ _ _ _ _ _ _ Haf Hi)); [exact HlD|].
        exact (af_stored _ _ _ _ _ _ Haf l Hl).
    + destruct (insert_frame _ _ _ _ _ _ _ _ _ _ _ _ Haf Hi) as [Hf1 Hf2]. split.
      * intros q Hq Hn. eapply same_page_trans; [exact (Hf1 q Hq Hn)|]. apply Hsame. set_solver.
      * intros q Hq Hs. apply Hkeep; [set_solver|exact (Hf2 q Hq Hs)].
Qed.

Lemma finish_insert (b : Batch) D os A x B top rest key page es :
  after_leaf b D os A x B -> stack_ b = top :: rest -> links_to b top B ->
  data_page page es -> zlen page = data_page_size opts -> StronglySorted key_lt (map key_ (lf_entries x ++ es)) ->
  Forall (fun e => key_ e <k key) (lf_entries x) -> Forall (fun e => key <=k key_ e) es ->
  (forall o, last_from None (se_changes top) = Some o -> Forall (fun e => op_key o <=k key_ e) (lf_entries x)) -> room opts D 1 ->
  wp tp_fails (FinishDataPage opts hash b key MaxPageId page) (fun b' => exists key' x' n,
    leaf_added b b' D os A x es B key key' x' n /\
    stack_ b' = with_changes top (se_changes top ++ [mkIndexOp key' (lf_id n) Upsert]) :: rest).
Proof.
  intros Haf Hst Hto Hd Hz Hs Hk1 Hk2 Hch Hroom. pose proof Haf as [Hinv Hc (px & H0) H1 H2 _].
  destruct (chain_at _ _ _ _ _ _ Hc) as (px0 & Hpx & Hdx & Hzx & Hprev & Hnext).
  rewrite (eff_ref b (lf_id x) px) in Hpx by (auto; apply Hinv). injection Hpx as <-.
  pose (Q := fun b4 : Batch => exists key' x' n b3 px' page2, insert_state b b3 D os A x x' n B px px' page2 /\
    applying_page_ b3 = applying_page_ b /\ lf_entries x' ++ lf_entries n = lf_entries x ++ es /\
    b4 = with_stack b3 (with_changes top (se_changes top ++ [mkIndexOp key' (lf_id n) Upsert]) :: rest) /\
    Forall (fun e => key_ e <k key') (lf_entries x') /\ Forall (fun e => key' <=k key_ e) (lf_entries n) /\
    (key' = key \/ exists e, In e (lf_entries n) /\ key' = key_ e)).
  unfold FinishDataPage. rewrite Z.eqb_refl. eapply (wp_bind_mono _ _ _ Q); [eapply wp_bind_mono|].
  { exact (get_page_ok _ _ _ (ti_store _ _ _ _ Hinv) Hroom). }
  - intros [id s'] (Hid & Hr & Hs' & Hq). cbv beta iota. eapply wp_bind_mono.
    { exact (balance_leaf_spec (with_store b s') _ os (lf_id x) px key page (lf_entries x) es Hs' H0 Hdx Hzx Hd Hz Hs Hk1 Hk2). }
    intros [[b2 page2] key2] (px' & l1 & l2 & -> & Hl & Hd1 & Hz1 & Hd2 & Hz2 & Hp & Hn & Hb1 & Hb2 & Hkey).
    eapply wp_bind_mono.
    { exact (link_balanced b D os A x B top rest px px' l1 l2 id s' page2 Haf Hst Hto H0 Hnext Hid Hr Hs' Hq Hd1 Hz1 Hp Hn Hd2 Hz2). }
    intros b3 (Hi & Hst3 & Hap3). rewrite Hst in Hst3.
    rewrite (push_change_eq b3 top rest _ Hst3).
    + exists key2, (mkLeaf (lf_id x) l1), (mkLeaf id l2), b3, px', page2. auto 12.
    + intros o Ho. specialize (Hch o Ho). destruct l1 as [|e l1]; [destruct (data_page_nonempty _ _ Hd1 eq_refl)|].
      apply Forall_cons_1 in Hb1 as [Hb1 _]. eapply key_le_lt_trans; [|exact Hb1].
      destruct (lf_entries x) as [|e' lx]; [destruct (data_page_nonempty _ _ Hdx eq_refl)|]. injection Hl as -> _.
      apply Forall_cons_1 in Hch. apply Hch.
  - intros b4 (key' & x' & n & b3 & px' & page2 & Hi & Hap & He & -> & Hb1 & Hb2 & Hkey).
    eapply wp_mono; [exact (shift_inserted _ _ _ _ _ _ _ _ _ _ _ _ _ Haf Hi)|]. intros b' (Haf' & Hfr & Hst' & Hap').
    exists key', x', n. split; [|exact Hst'].
    constructor; auto; [exact (is_new _ _ _ _ _ _ _ _ _ _ _ _ Hi)|exact (is_x _ _ _ _ _ _ _ _ _ _ _ _ Hi)|congruence].
Qed.

(** The first leaf of an empty tree. *)
Lemma finish_first (b : Batch) D os top rest key page es :
  task_inv b D os -> triple0 b = None -> triple1 b = None -> triple2 b = None -> stack_ b = top :: rest ->
  i_page_id (se_pointer top) = MaxPageId -> se_changes top = [] -> data_page page es -> zlen page = data_page_size opts -> room opts D 1 ->
  wp tp_fails (FinishDataPage opts hash b key MaxPageId page) (fun b' => exists n,
    lf_id n ∉ D /\ lf_entries n = es /\ after_leaf b' ({[lf_id n]} ∪ D) os [] n [] /\ frame D [] b b' /\
    applying_page_ b' = applying_page_ b /\ stack_ b' = with_changes top [mkIndexOp key (lf_id n) Upsert] :: rest).
Proof.
  intros [Hst _ _] H0 H1 H2 Hstk Hptr Hch Hd Hz Hroom. destruct (data_page_regions _ _ Hd) as (rs & Hf & _).
  destruct (format_lengths _ _ _ _ Hf) as [HL _]. destruct (set_links page es MaxPageId MaxPageId Hd max_u32 max_u32) as (F1 & F2 & F3 & F4).
  set (page' := SetPrevPageId (SetNextPageId page MaxPageId) MaxPageId) in *.
  pose (b3 := fun id s' => with_stack (with_triple (with_store b s') None (Some (id, page')) None)
                             (with_changes top [mkIndexOp key id Upsert] :: rest)).
  unfold FinishDataPage. rewrite Z.eqb_refl.
  eapply (wp_bind_mono _ _ _ (fun b4 => exists id s', b4 = b3 id s' /\ id ∉ D /\ 0 <= id < 2 ^ 31 /\ tp_inv s' ({[id]} ∪ D) os /\
    forall q, q ∈ D -> tp_page s' q = tp_page (bt_store b) q)).
  - eapply wp_bind_mono; [exact (get_page_ok _ _ _ Hst Hroom)|]. intros [id s'] Hs'. cbv beta iota.
    assert (Hbal : balance_leaf opts (with_store b s') key page = Some (with_store b s', page, key)).
    { unfold balance_leaf. rewrite HL. cbn [mbind option_bind triple0 with_store]. rewrite H0. reflexivity. }
    assert (Hlink : LeafLinkInsert (with_store b s') id page = Some (with_triple (with_store b s') None (Some (id, page')) None)).
    { unfold LeafLinkInsert. cbn [triple0 triple1 triple2 stack_ with_store]. rewrite H1, Hstk, H0, Hptr, Z.eqb_refl, H2. reflexivity. }
    rewrite Hbal. cbn [mbind option_bind]. rewrite Hlink. cbn [mbind option_bind].
    rewrite (push_change_eq _ top rest) by (exact Hstk || (rewrite Hch; discriminate)). cbn [wp]. rewrite Hch. exists id, s'. auto.
  - intros b4 (id & s' & -> & Hid & Hr & Hs' & Hq). set (n := mkLeaf id es).
    assert (Hinv : task_inv (b3 id s') ({[id]} ∪ D) os).
    { constructor; [exact Hs'|apply nodup_cons; split; [auto|constructor]|]. intros q [<-|[]]. set_solver. }
    assert (Hn : leaf_at opts (eff (b3 id s')) n MaxPageId MaxPageId).
    { exists page'. split; [apply over_here|]. split; [exact F1|]. split; [exact (eq_trans F4 Hz)|auto]. }
    eapply wp_mono; [apply (Shift_spec opts hash _ _ _ Hinv); intros ? ? [=]|].
    intros b' (Hinv' & Hsame & Hkeep & E0 & E1 & E2 & Est & Eap). exists n. split; [exact Hid|]. split; [reflexivity|].
    split; [|split; [split|split; [exact Eap|exact Est]]].
    + constructor; [exact Hinv'| |exists page'; exact E0|exact E1|left; exact E2|intros ? []].
      constructor; [|apply nodup_cons; split; [auto|constructor]|intros l [<-|[]]; set_solver|intros l [<-|[]]; exact Hr].
      split; [|exact I]. apply (leaf_at_same _ (eff (b3 id s'))); [|exact Hn]. apply Hsame. set_solver.
    + intros q HqD _. eapply same_page_trans; [|apply Hsame; set_solver]. apply same_page_eq.
      assert (q <> id) by congruence. unfold TaskSpec.eff. rewrite H0, H1, H2. simpl.
      rewrite (proj2 (Z.eqb_neq id q)) by congruence. symmetry. exact (Hq q HqD).
    + intros q HqD Hs. apply Hkeep; [set_solver|]. unfold stored. simpl. rewrite (Hq q HqD). exact Hs.
Qed.

(** ** Going to the next leaf *)

(** A leaf in memory is the last of the leaves before the current place. *)
Definition in_front (r : option PageRef) (A : list Leaf) : Prop :=
  r = None \/ exists A' a p, A = A' ++ [a] /\ r = Some (lf_id a, p).

(** The leaves [A] are done, the next ones are [B]. *)
Record between_leaves (b : Batch) (D : gset Z) (os : list Outside) (A B : list Leaf) : Prop := {
  bl_inv : task_inv b D os;
  bl_chain : chain opts (eff b) D (A ++ B);
  bl_t0 : in_front (triple0 b) A;
  bl_t1 : triple1 b = None \/ exists h B' p, B = h :: B' /\ triple1 b = Some (lf_id h, p);
  bl_t2 : triple2 b = None;
  bl_stored : forall l, In l B -> stored opts b (lf_id l)
}.

(** The leaf [x] is loaded. *)
Record at_leaf (b : Batch) (D : gset Z) (os : list Outside) (A : list Leaf) (x : Leaf) (B : list Leaf) : Prop := {
  al_inv : task_inv b D os;
  al_chain : chain opts (over (applying_page_ b) (eff b)) D (A ++ x :: B);
  al_applying : exists old, applying_page_ b = Some (lf_id x, old);
  al_t0 : in_front (triple0 b) A;
  al_t1 : triple1 b = None;
  al_t2 : triple2 b = None;
  al_stored : forall l, In l (x :: B) -> stored opts b (lf_id l)
}.

Lemma over_same (r : option PageRef) E E' q : same_page E E' q -> same_page (over r E) (over r E') q.
Proof. destruct r as [[id p]|]; [|auto]. unfold same_page, over. destruct (id =? q); [reflexivity|auto]. Qed.

(** Writing a leaf while another one is applied. *)
Lemma shift_leaf (b : Batch) D os ls x B : task_inv b D os -> chain opts (over (applying_page_ b) (eff b)) D (ls ++ x :: B) ->
  (exists page, applying_page_ b = Some (lf_id x, page)) -> (forall q, In q (ref_ids (triple0 b)) -> In q (map lf_id ls)) ->
  (forall l, In l (x :: B) -> stored opts b (lf_id l)) ->
  wp tp_fails (ShiftLeafLink hash b) (fun b' => task_inv b' D os /\ same_pages opts D b b' /\ keeps opts D b b' /\
    chain opts (over (applying_page_ b') (eff b')) D (ls ++ x :: B) /\ (forall l, In l (x :: B) -> stored opts b' (lf_id l)) /\
    triple0 b' = triple1 b /\ triple1 b' = None /\ triple2 b' = triple2 b /\ stack_ b' = stack_ b /\ applying_page_ b' = applying_page_ b).
Proof.
  intros Hinv Hc (page & Ha) H0 Hsto. destruct (chain_nodup _ _ _ _ _ _ Hc) as (NA & _ & _).
  eapply wp_mono; [apply (Shift_spec opts hash b D os Hinv)|].
  - intros id p E. assert (Hin : In id (map lf_id ls)) by (apply H0; rewrite E; left; reflexivity).
    apply in_map_iff in Hin as (y & <- & Hy). apply (leaf_length _ _ _ y p Hc); [apply in_middle; right; apply in_or_app; auto|].
    rewrite Ha, over_other by (simpl; intros [He|[]]; exact (NA y Hy (eq_sym He))). apply eff_ref; [apply Hinv|left; exact E].
  - intros b' (Hinv' & Hsame & Hkeep & E0 & E1 & E2 & Est & Eap). do 3 (split; [assumption|]). rewrite Eap. split; [|split; [|auto]].
    + eapply chain_same; [|exact Hc]. intros l Hl. pose proof (ch_held _ _ _ _ Hc l Hl) as HlD. split; [|exact HlD].
      apply over_same, Hsame, HlD.
    + intros l Hl. apply Hkeep; [|exact (Hsto l Hl)]. apply (ch_held _ _ _ _ Hc), in_or_app. right. exact Hl.
Qed.

Lemma last_id_front A x : 0 <= x < 2 ^ 31 -> x = last_id A MaxPageId -> exists A' a, A = A' ++ [a] /\ lf_id a = x.
Proof.
  intros Hx. destruct A as [|a A' _] using rev_ind; [unfold MaxPageId; cbn; lia|]. rewrite last_id_snoc. intros ->. eauto.
Qed.

(** Leaves in memory that are not next to the loaded one are written. *)
Definition settle (b : Batch) (id : Z) (page : bytes) : option Batch :=
  b ← match triple1 b with
      | Some (id1, _) => if id1 =? id then None else ShiftLeafLink hash b
      | None => Some b
      end;
  match triple0 b with
  | Some (id0, _) => prev ← PrevPageId page; if id0 =? prev then Some b else ShiftLeafLink hash b
  | None => Some b
  end.

Lemma settle_spec (b : Batch) D os ls x B page : task_inv b D os -> chain opts (over (applying_page_ b) (eff b)) D (ls ++ x :: B) ->
  applying_page_ b = Some (lf_id x, page) -> (forall q, In q (triple_ids b) -> In q (map lf_id ls)) -> triple2 b = None ->
  (forall l, In l (x :: B) -> stored opts b (lf_id l)) ->
  wp tp_fails (settle b (lf_id x) page) (fun b' => at_leaf b' D os ls x B /\ same_pages opts D b b' /\ keeps opts D b b' /\
    stack_ b' = stack_ b /\ applying_page_ b' = applying_page_ b).
Proof.
  intros Hinv Hc Ha Hids H2 Hsto. destruct (chain_nodup _ _ _ _ _ _ Hc) as (NA & _ & _). unfold settle.
  destruct (chain_at _ _ _ _ _ _ Hc) as (page0 & Hp & _ & _ & Hprev & _). rewrite Ha, over_here in Hp. injection Hp as <-.
  unfold triple_ids in Hids. rewrite H2, app_nil_r in Hids.
  assert (Hrange : forall q, In q (map lf_id ls) -> 0 <= q < 2 ^ 31).
  { intros q Hq. apply in_map_iff in Hq as (y & <- & Hy). apply (ch_range _ _ _ _ Hc), in_or_app. auto. }
  eapply (wp_bind_mono _ _ _ (fun b1 => task_inv b1 D os /\ chain opts (over (applying_page_ b1) (eff b1)) D (ls ++ x :: B) /\
    applying_page_ b1 = Some (lf_id x, page) /\ (forall q, In q (ref_ids (triple0 b1)) -> In q (map lf_id ls)) /\ triple1 b1 = None /\
    triple2 b1 = None /\ (forall l, In l (x :: B) -> stored opts b1 (lf_id l)) /\ same_pages opts D b b1 /\ keeps opts D b b1 /\
    stack_ b1 = stack_ b)).
  - destruct (triple1 b) as [[id1 p1]|] eqn:E1.
    + assert (Hin1 : In id1 (map lf_id ls)) by (apply Hids, in_or_app; right; left; reflexivity).
      rewrite (proj2 (Z.eqb_neq id1 (lf_id x))).
      2: { intros ->. apply in_map_iff in Hin1 as (y & Hy & Hy'). exact (NA y Hy' Hy). }
      eapply wp_mono; [apply (shift_leaf b D os ls x B Hinv Hc); eauto; intros q Hq; apply Hids, in_or_app; auto|].
      intros b1 (K1 & K2 & K3 & K4 & K5 & K6 & K7 & K8 & K9 & K10). do 2 (split; [assumption|]).
      split; [congruence|]. split; [rewrite K6, E1; intros q [<-|[]]; exact Hin1|]. split; [exact K7|]. split; [congruence|]. auto.
    + cbn [wp]. rewrite E1 in *. do 3 (split; [auto|]). split; [intros q Hq; apply Hids, in_or_app; auto|]. do 3 (split; [auto|]).
      split; [apply same_pages_refl|]. split; [intros q _ Hs; exact Hs|reflexivity].
  - intros b1 (I1 & I2 & I3 & I4 & I5 & I6 & I7 & I8 & I9 & I10). rewrite <- I10. destruct (triple0 b1) as [[id0 p0]|] eqn:E0.
    + rewrite Hprev. cbn [mbind option_bind]. destruct (Z.eqb_spec id0 (last_id ls MaxPageId)) as [He|Hne].
      * cbn [wp]. split; [|split; [auto|split; [auto|split; [auto|congruence]]]]. constructor; eauto.
        destruct (last_id_front ls id0) as (A' & a & -> & Hi); [apply Hrange, I4; left; reflexivity|exact He|].
        right. exists A', a, p0. rewrite Hi. auto.
      * eapply wp_mono; [apply (shift_leaf b1 D os ls x B I1 I2); eauto; rewrite E0; exact I4|].
        intros b2 (K1 & K2 & K3 & K4 & K5 & K6 & K7 & K8 & K9 & K10). split; [|split; [|split; [|split; [exact K9|congruence]]]].
        -- constructor; [exact K1|exact K4|rewrite K10; eauto|left; congruence|exact K7|congruence|exact K5].
        -- eapply same_pages_trans; eassumption.
        -- intros q Hq Hs. apply K3; [exact Hq|]. apply I9; assumption.
    + cbn [wp]. split; [|split; [auto|split; [auto|split; [auto|congruence]]]]. constructor; eauto. left. exact E0.
Qed.

Lemma LoadApplyingPage_eq (b b1 : Batch) id page :
  match triple1 b with
  | Some (id1, p1) =>
      if id1 =? id then Some (with_triple (with_applying b (Some (id1, p1))) (triple0 b) None (triple2 b))
      else p ← tp_load (bt_store b) id; Some (with_applying b (Some (id, p)))
  | None => p ← tp_load (bt_store b) id; Some (with_applying b (Some (id, p)))
  end = Some b1 ->
  id <> MaxPageId -> applying_page_ b1 = Some (id, page) -> TypeOfPage page = Some (PageType_code Data) ->
  LoadApplyingPage hash b id = settle b1 id page.
Proof.
  intros Hb Hm Ha Ht. unfold LoadApplyingPage. rewrite (proj2 (Z.eqb_neq _ _) Hm), Hb. cbn [mbind option_bind].
  rewrite Ha. cbn [mbind option_bind]. rewrite Ht. reflexivity.
Qed.

(** The state with the page of the next leaf. *)
Record loaded (b b1 : Batch) (y : Leaf) (M : list Leaf) : Prop := {
  ld_page : exists page, applying_page_ b1 = Some (lf_id y, page) /\ eff b (lf_id y) = Some page;
  ld_store : bt_store b1 = bt_store b;
  ld_stack : stack_ b1 = stack_ b;
  ld_t0 : triple0 b1 = triple0 b;
  ld_t1 : (triple1 b1 = triple1 b /\ (triple1 b = None \/ exists h M' p, M = h :: M' /\ triple1 b = Some (lf_id h, p))) \/
          (triple1 b1 = None /\ exists p, triple1 b = Some (lf_id y, p));
  ld_t2 : triple2 b1 = None
}.

Lemma load_next (b : Batch) D os A M y B : between_leaves b D os A (M ++ y :: B) ->
  wp tp_fails (match triple1 b with
    | Some (id1, p1) =>
        if id1 =? lf_id y then Some (with_triple (with_applying b (Some (id1, p1))) (triple0 b) None (triple2 b))
        else p ← tp_load (bt_store b) (lf_id y); Some (with_applying b (Some (lf_id y, p)))
    | None => p ← tp_load (bt_store b) (lf_id y); Some (with_applying b (Some (lf_id y, p)))
    end) (fun b1 => loaded b b1 y M).
Proof.
  intros [Hinv Hc H0 H1 H2 Hsto]. rewrite app_assoc in Hc. destruct (chain_nodup _ _ _ _ _ _ Hc) as (NA & _ & _).
  assert (HyD : lf_id y ∈ D) by (apply (ch_held _ _ _ _ Hc), in_middle; auto).
  destruct (chain_at _ _ _ _ _ _ Hc) as (page & Hp & _).
  assert (Hy0 : ~ In (lf_id y) (ref_ids (triple0 b))).
  { destruct H0 as [->|(A' & a & p & -> & ->)]; [auto|]. intros [He|[]]. apply (NA a); [|exact He].
    apply in_or_app. left. apply in_or_app. right. left. reflexivity. }
  assert (Hload : ~ In (lf_id y) (ref_ids (triple1 b)) ->
    (triple1 b = None \/ exists h M' p, M = h :: M' /\ triple1 b = Some (lf_id h, p)) ->
    wp tp_fails (p ← tp_load (bt_store b) (lf_id y); Some (with_applying b (Some (lf_id y, p)))) (fun b1 => loaded b b1 y M)).
  { intros Hy1 HM. assert (Hout : ~ In (lf_id y) (triple_ids b)).
    { unfold triple_ids. rewrite H2, !in_app_iff. simpl. tauto. }
    pose proof Hp as Hp'. rewrite (eff_store opts b _ Hout) in Hp'.
    eapply wp_bind_mono; [exact (load_ok _ _ _ _ _ (ti_store _ _ _ _ Hinv) HyD Hp')|]. intros p ->. constructor; eauto. }
  destruct H1 as [H1|(h & B' & p1 & HB & H1)]; rewrite H1 in *.
  - apply Hload; [auto|left; reflexivity].
  - destruct (Z.eqb_spec (lf_id h) (lf_id y)) as [He|Hne].
    + cbn [wp]. constructor; auto.
      * exists p1. rewrite He. split; [reflexivity|]. rewrite He in H1. apply eff_ref; [apply Hinv|auto].
      * right. split; [reflexivity|]. exists p1. rewrite H1, He. reflexivity.
    + apply Hload; [simpl; intuition congruence|]. right. destruct M as [|m M]; injection HB as <- HB; [congruence|eauto].
Qed.

Lemma LoadApplyingPage_spec (b : Batch) D os A M y B : between_leaves b D os A (M ++ y :: B) ->
  wp tp_fails (LoadApplyingPage hash b (lf_id y)) (fun b' => at_leaf b' D os (A ++ M) y B /\
    (forall q, q ∈ D -> same_page (eff b) (over (applying_page_ b') (eff b')) q) /\ keeps opts D b b' /\ stack_ b' = stack_ b).
Proof.
  intros Hb. pose proof (load_next _ _ _ _ _ _ _ Hb) as Hld. destruct Hb as [Hinv Hc H0 H1 H2 Hsto]. rewrite app_assoc in Hc.
  destruct (chain_nodup _ _ _ _ _ _ Hc) as (NA & _ & _).
  assert (Hry : 0 <= lf_id y < 2 ^ 31) by (apply (ch_range _ _ _ _ Hc), in_middle; auto).
  destruct (chain_at _ _ _ _ _ _ Hc) as (page & Hp & Hd & _).
  match type of Hld with wp _ ?m _ => destruct m as [b1|] eqn:Hb1 end.
  2: { cbn [wp] in Hld. destruct (LoadApplyingPage hash b (lf_id y)) eqn:E; [|exact Hld]. exfalso. revert E. unfold LoadApplyingPage.
       rewrite (proj2 (Z.eqb_neq _ _)) by (unfold MaxPageId; lia). rewrite Hb1. discriminate. }
  cbn [wp] in Hld. destruct Hld as [(pg & Ha & Hpg) Est Estk E0 E1 E2]. rewrite Hp in Hpg. injection Hpg as <-.
  rewrite (LoadApplyingPage_eq b b1 (lf_id y) page Hb1) by (unfold MaxPageId; auto; try lia; apply Hd).
  assert (Hfront : forall q, In q (ref_ids (triple0 b)) -> In q (map lf_id (A ++ M))).
  { destruct H0 as [->|(A' & a & p & -> & ->)]; [intros ? []|]. intros q [<-|[]]. rewrite !map_app. apply in_or_app. left.
    apply in_or_app. right. left. reflexivity. }
  assert (Hids : forall q, In q (triple_ids b1) -> In q (map lf_id (A ++ M)) /\ In q (triple_ids b)).
  { intros q. unfold triple_ids. rewrite E0, E2, app_nil_r, !in_app_iff. intros [Hq|Hq]; [auto|].
    destruct E1 as [[E1 HM]|[E1 _]]; rewrite E1 in Hq; [|destruct Hq]. split; [|auto].
    destruct HM as [HM|(h & M' & p & -> & HM)]; rewrite HM in Hq; [destruct Hq|]. destruct Hq as [<-|[]].
    rewrite map_app. apply in_or_app. right. left. reflexivity. }
  assert (Hinv1 : task_inv b1 D os).
  { destruct Hinv as [S1 S2 S3]. constructor; [rewrite Est; exact S1| |intros q Hq; apply S3, Hids, Hq].
    unfold triple_ids in *. rewrite E0, E2, app_nil_r. destruct E1 as [[E1 _]|[E1 _]]; rewrite E1.
    - rewrite H2, app_nil_r in S2. exact S2.
    - rewrite app_nil_r. apply nodup_app in S2. apply S2. }
  assert (Hover : forall q, over (applying_page_ b1) (eff b1) q = eff b q).
  { intros q. rewrite Ha. destruct (Z.eq_dec q (lf_id y)) as [->|Hne]; [rewrite over_here; auto|].
    rewrite over_other by (simpl; intuition congruence). unfold TaskSpec.eff. rewrite E0, E2, Est, H2.
    apply over_ext. destruct E1 as [[E1 _]|[E1 (p & E1')]]; rewrite E1; [reflexivity|]. rewrite E1'. symmetry. apply over_other.
    simpl. intuition congruence. }
  assert (Hsto1 : forall l, In l (y :: B) -> stored opts b1 (lf_id l)).
  { intros l Hl. unfold stored. rewrite Est. apply Hsto, in_or_app. right. exact Hl. }
  eapply wp_mono; [apply (settle_spec b1 D os (A ++ M) y B page Hinv1); auto|].
  - eapply chain_same; [|exact Hc]. intros l Hl. split; [apply same_page_eq; symmetry; apply Hover|exact (ch_held _ _ _ _ Hc l Hl)].
  - intros q Hq. apply Hids, Hq.
  - intros b' (Hal & Hsame & Hkeep & Hst' & Hap'). split; [exact Hal|]. split; [|split; [|congruence]].
    + intros q Hq. eapply same_page_trans; [apply same_page_eq, eq_sym, Hover|]. rewrite Hap'. apply over_same, Hsame, Hq.
    + intros q Hq Hs. apply Hkeep; [exact Hq|]. unfold stored in *. rewrite Est. exact Hs.
Qed.

(** ** Deleting a leaf *)

(** The neighbours of a leaf, in memory with their new links. *)
Definition unlinked_left (b : Batch) (A : list Leaf) (next : Z) (r : option PageRef) : Prop :=
  (A = [] /\ r = None) \/
  exists A' a pa, A = A' ++ [a] /\ eff b (lf_id a) = Some pa /\ r = Some (lf_id a, SetNextPageId pa next).

Definition unlinked_right (b : Batch) (B : list Leaf) (prev : Z) (r : option PageRef) : Prop :=
  match B with
  | [] => r = None
  | h :: _ => exists hp, eff b (lf_id h) = Some hp /\ r = Some (lf_id h, SetPrevPageId hp prev)
  end.

(** Loading a leaf that is not in memory. *)
Lemma load_leaf (b : Batch) D os l page : task_inv b D os -> lf_id l ∈ D -> 0 <= lf_id l < 2 ^ 31 -> eff b (lf_id l) = Some page ->
  ~ In (lf_id l) (triple_ids b) -> wp tp_fails (tp_load (bt_store b) (lf_id l)) (fun p => p = page).
Proof.
  intros Hinv Hl _ Hp Hn. rewrite (eff_store opts b _ Hn) in Hp. exact (load_ok _ _ _ _ _ (ti_store _ _ _ _ Hinv) Hl Hp).
Qed.

Lemma LeafLinkDelete_spec (b : Batch) D os A x B : at_leaf b D os A x B ->
  wp tp_fails (LeafLinkDelete b) (fun b' => exists t0 t2, b' = with_triple b t0 None t2 /\
    unlinked_left b A (first_id B MaxPageId) t0 /\ unlinked_right b B (last_id A MaxPageId) t2).
Proof.
  intros [Hinv Hc (old & Ha) H0 H1 H2 _]. destruct (chain_nodup _ _ _ _ _ _ Hc) as (NA & NB & NAB).
  destruct (chain_parts _ _ _ _ _ _ Hc) as (HsA & (old' & Ho & _ & _ & Hprev & Hnext) & HsB). rewrite Ha, over_here in Ho. injection Ho as <-.
  assert (Hover : forall y, lf_id y <> lf_id x -> over (applying_page_ b) (eff b) (lf_id y) = eff b (lf_id y)).
  { intros y Hy. rewrite Ha. apply over_other. simpl. intuition congruence. }
  unfold LeafLinkDelete. rewrite Ha. cbn [mbind option_bind]. rewrite Hprev, Hnext. cbn [mbind option_bind].
  eapply (wp_bind_mono _ _ _ (fun b1 => exists t0, b1 = with_triple b t0 None None /\ unlinked_left b A (first_id B MaxPageId) t0)).
  - destruct A as [|a A' _] using rev_ind.
    { change (last_id [] MaxPageId) with MaxPageId. rewrite Z.eqb_refl. cbn [wp]. exists None. split; [|left; auto].
      destruct H0 as [H0|(A' & a & p & He & _)]; [|destruct A'; discriminate He]. destruct b. simpl in *. subst. reflexivity. }
    rewrite last_id_snoc. assert (HaA : In a (A' ++ [a])) by (apply in_or_app; right; left; reflexivity).
    assert (Hra : 0 <= lf_id a < 2 ^ 31) by (apply (ch_range _ _ _ _ Hc), in_middle; right; apply in_or_app; auto).
    assert (HaD : lf_id a ∈ D) by (apply (ch_held _ _ _ _ Hc), in_middle; right; apply in_or_app; auto).
    rewrite (proj2 (Z.eqb_neq _ _)) by (unfold MaxPageId; lia). apply seg_app in HsA as [_ [(pa & Hpa & _) _]].
    rewrite Hover in Hpa by (apply NA, HaA). unfold LoadTripleElement. change (TripleElement b 0) with (triple0 b).
    destruct H0 as [H0|(A'' & a' & p & He & H0)]; rewrite H0.
    + rewrite (proj2 (Z.eqb_neq _ _)) by (unfold MaxPageId; lia).
      eapply wp_bind_mono; [eapply wp_bind_mono; [apply (load_leaf b D os a pa Hinv HaD Hra Hpa)|]|].
      * unfold triple_ids. rewrite H0, H1, H2. auto.
      * intros p ->. exact (eq_refl (with_triple b (Some (lf_id a, pa)) (triple1 b) (triple2 b))).
      * intros b1 <-. cbn. eexists. rewrite H1, H2. split; [reflexivity|]. right. exists A', a, pa. auto.
    + apply app_inj_tail in He as [<- <-]. cbn. rewrite H0. cbn. eexists. rewrite H1, H2. split; [reflexivity|].
      right. exists A', a, p. split; [reflexivity|]. split; [apply eff_ref; [apply Hinv|auto]|reflexivity].
  - intros b1 (t0 & -> & Ht0). destruct B as [|h B]; simpl first_id in *.
    { rewrite Z.eqb_refl. cbn [wp]. exists t0, None. split; [reflexivity|]. split; [exact Ht0|reflexivity]. }
    assert (Hh : In h (h :: B)) by (left; reflexivity).
    assert (Hrh : 0 <= lf_id h < 2 ^ 31) by (apply (ch_range _ _ _ _ Hc), in_middle; right; apply in_or_app; auto).
    assert (HhD : lf_id h ∈ D) by (apply (ch_held _ _ _ _ Hc), in_middle; right; apply in_or_app; auto).
    rewrite (proj2 (Z.eqb_neq _ _)) by (unfold MaxPageId; lia). destruct HsB as [(hp & Hhp & _) _].
    rewrite Hover in Hhp by (apply NB, Hh). cbn [triple2 with_triple]. unfold LoadTripleElement. cbn [TripleElement triple2 with_triple Z.eqb].
    rewrite (proj2 (Z.eqb_neq (lf_id h) MaxPageId)) by (unfold MaxPageId; lia).
    eapply wp_bind_mono; [eapply wp_bind_mono; [apply (load_leaf b D os h hp Hinv HhD Hrh Hhp)|]|].
    + unfold triple_ids. rewrite H1, H2. cbn [ref_ids app]. rewrite app_nil_r. destruct H0 as [->|(A' & a & p & -> & ->)]; [auto|].
      intros [He|[]]. exact (NAB a h ltac:(apply in_or_app; right; left; reflexivity) Hh He).
    + intros p ->. exact (eq_refl (with_triple b t0 None (Some (lf_id h, hp)))).
    + intros b1 <-. cbn. exists t0. eexists. split; [reflexivity|]. split; [exact Ht0|]. exists hp. auto.
Qed.

(** The state when the leaf [x] is gone. *)
Record delete_state (b b' : Batch) (D : gset Z) (os : list Outside) (A : list Leaf) (x : Leaf) (B : list Leaf) : Prop := {
  ds_store : tp_inv (bt_store b') (D ∖ {[lf_id x]}) os;
  ds_pages : forall q, q ∈ D -> q <> lf_id x -> tp_page (bt_store b') q = tp_page (bt_store b) q;
  ds_t0 : unlinked_left b A (first_id B MaxPageId) (triple0 b');
  ds_t1 : unlinked_right b B (last_id A MaxPageId) (triple1 b');
  ds_t2 : triple2 b' = None
}.

Lemma delete_ids b b' D os A x B : delete_state b b' D os A x B ->
  forall q, In q (triple_ids b') -> (exists A' a, A = A' ++ [a] /\ q = lf_id a) \/ (exists h B', B = h :: B' /\ q = lf_id h).
Proof.
  intros [_ _ H0 H1 H2] q. unfold triple_ids. rewrite H2, !in_app_iff. intros [Hq|[Hq|[]]].
  - destruct H0 as [[_ H0]|(A' & a & pa & HA & _ & H0)]; rewrite H0 in Hq; [destruct Hq|]. destruct Hq as [<-|[]]. left. eauto.
  - destruct B as [|h B]; [rewrite H1 in Hq; destruct Hq|]. destruct H1 as (hp & _ & H1). rewrite H1 in Hq. destruct Hq as [<-|[]].
    right. eauto.
Qed.

Lemma unlinked_inv b b' D os A x B : at_leaf b D os A x B -> delete_state b b' D os A x B -> task_inv b' (D ∖ {[lf_id x]}) os.
Proof.
  intros [_ Hc _ _ _ _ _] Hd. pose proof (delete_ids _ _ _ _ _ _ _ Hd) as Hids.
  destruct (chain_nodup _ _ _ _ _ _ Hc) as (NA & NB & NAB). pose proof (ch_held _ _ _ _ Hc) as Hh.
  destruct Hd as [Hs _ H0 H1 H2]. constructor; [exact Hs| |].
  - unfold triple_ids. rewrite H2. cbn [ref_ids]. rewrite app_nil_r. apply nodup_app.
    assert (N0 : forall r : option PageRef, NoDup (ref_ids r)) by (intros [[? ?]|]; [apply nodup_cons; split; [auto|constructor]|constructor]).
    split; [apply N0|]. split; [|apply N0]. intros q Hq0 Hq1.
    destruct H0 as [[_ H0]|(A' & a & pa & -> & _ & H0)]; rewrite H0 in Hq0; [destruct Hq0|].
    destruct B as [|h B]; [rewrite H1 in Hq1; destruct Hq1|]. destruct H1 as (hp & _ & H1). rewrite H1 in Hq1.
    destruct Hq0 as [<-|[]]. destruct Hq1 as [He|[]].
    exact (NAB a h ltac:(apply in_or_app; right; left; reflexivity) ltac:(left; reflexivity) (eq_sym He)).
  - intros q Hq. apply elem_of_difference. rewrite elem_of_singleton. destruct (Hids q Hq) as [(A' & a & -> & ->)|(h & B' & -> & ->)].
    + split; [apply Hh, in_middle; right; apply in_or_app; left|apply NA]; apply in_or_app; right; left; reflexivity.
    + split; [apply Hh, in_middle; right; apply in_or_app; right|apply NB]; left; reflexivity.
Qed.

Lemma delete_same b b' D os A x B q : at_leaf b D os A x B -> delete_state b b' D os A x B -> q ∈ D -> q <> lf_id x ->
  ~ In q (triple_ids b') -> ~ In q (ref_ids (triple0 b)) -> eff b' q = over (applying_page_ b) (eff b) q.
Proof.
  intros [_ _ (old & Ha) _ H1 H2 _] Hd Hq Hx Hn Hn0. rewrite Ha, over_other by (simpl; intuition congruence).
  apply eff_out; [|exact Hn|exact (ds_pages _ _ _ _ _ _ _ Hd q Hq Hx)]. unfold triple_ids. rewrite H1, H2. simpl. rewrite app_nil_r. exact Hn0.
Qed.

Lemma unlinked_chain b b' D os A x B : at_leaf b D os A x B -> delete_state b b' D os A x B ->
  chain opts (eff b') (D ∖ {[lf_id x]}) (A ++ B).
Proof.
  intros Hal Hd. pose proof (unlinked_inv _ _ _ _ _ _ _ Hal Hd) as Hinv'. pose proof (delete_ids _ _ _ _ _ _ _ Hd) as Hids.
  pose proof (fun q => delete_same _ _ _ _ _ _ _ q Hal Hd) as Hsame.
  pose proof Hal as [_ Hc (old & Ha) Hfront _ _ _]. destruct (chain_nodup _ _ _ _ _ _ Hc) as (NA & NB & NAB).
  destruct (chain_parts _ _ _ _ _ _ Hc) as (HsA & _ & HsB).
  assert (Hr : forall y, In y (A ++ B) -> 0 <= lf_id y < 2 ^ 31) by (intros y Hy; apply (ch_range _ _ _ _ Hc), in_middle; auto).
  assert (HD : forall y, In y (A ++ B) -> lf_id y ∈ D) by (intros y Hy; apply (ch_held _ _ _ _ Hc), in_middle; auto).
  assert (Hnd : NoDup (map lf_id A) /\ NoDup (map lf_id B)).
  { pose proof (ch_ids _ _ _ _ Hc) as Hn. rewrite map_app in Hn. apply nodup_app in Hn as (HnA & _ & HnB). apply nodup_cons in HnB. tauto. }
  assert (Hover : forall y, In y (A ++ B) -> over (applying_page_ b) (eff b) (lf_id y) = eff b (lf_id y)).
  { intros y Hy. rewrite Ha. apply over_other. simpl. apply in_app_iff in Hy as [Hy|Hy]; [specialize (NA y Hy)|specialize (NB y Hy)]; intuition congruence. }
  destruct Hd as [_ _ H0 H1 H2]. apply (chain_delete opts (over (applying_page_ b) (eff b)) (eff b') D A x B Hc).
  - intros A' a ->. assert (HaA : In a (A' ++ [a])) by (apply in_or_app; right; left; reflexivity).
    destruct H0 as [[HA _]|(A'' & a' & pa & HA & Hpa & H0)]; [destruct A'; discriminate HA|]. apply app_inj_tail in HA as [<- <-].
    apply seg_app in HsA as [HsA [(pa' & Hpa' & Hda & Hza & Hpr & _) _]]. rewrite Hover in Hpa' by (apply in_or_app; auto).
    rewrite Hpa in Hpa'. injection Hpa' as <-.
    destruct (SetNextPageId_spec pa _ (first_id B MaxPageId) Hda) as (F1 & F2 & F3 & F4).
    { apply first_id_u32. intros y Hy. apply Hr, in_or_app. auto. }
    rewrite map_app in Hnd. destruct Hnd as [Hnd _]. apply nodup_app in Hnd as (_ & Hnd & _). split.
    + eexists. split; [apply eff_ref; [apply Hinv'|left; exact H0]|]. split; [exact F1|]. split; [congruence|]. split; [congruence|exact F2].
    + intros y Hy. assert (HyA : In y (A' ++ [a])) by (apply in_or_app; auto).
      assert (Hya : lf_id y <> lf_id a) by (intros He; apply (Hnd (lf_id y)); [apply in_map, Hy|rewrite He; left; reflexivity]).
      apply same_page_eq, eq_sym, Hsame; [apply HD, in_or_app; auto|exact (NA y HyA)| |].
      * intros Hin. destruct (Hids _ Hin) as [(? & ? & He & Hq)|(h & B' & -> & Hq)].
        -- apply app_inj_tail in He as [_ <-]. contradiction.
        -- exact (NAB y h HyA ltac:(left; reflexivity) Hq).
      * destruct Hfront as [->|(? & ? & ? & He & ->)]; [auto|]. apply app_inj_tail in He as [_ <-]. simpl. intuition congruence.
  - destruct B as [|h B]; [exact I|]. assert (Hh : In h (h :: B)) by (left; reflexivity). destruct H1 as (hp & Hhp & H1).
    destruct HsB as [(hp' & Hhp' & Hdh & Hzh & _ & Hnx) HsB]. rewrite Hover in Hhp' by (apply in_or_app; auto).
    rewrite Hhp in Hhp'. injection Hhp' as <-. destruct Hnd as [_ Hnd]. apply nodup_cons in Hnd as [Hnd _].
    destruct (SetPrevPageId_spec hp _ (last_id A MaxPageId) Hdh) as (F1 & F2 & F3 & F4).
    { apply last_id_u32. intros y Hy. apply Hr, in_or_app. auto. }
    split.
    + eexists. split; [apply eff_ref; [apply Hinv'|right; left; exact H1]|]. split; [exact F1|]. split; [congruence|]. split; [exact F2|congruence].
    + intros y Hy. assert (HyB : In y (h :: B)) by (right; exact Hy).
      assert (Hyh : lf_id y <> lf_id h) by (intros He; apply Hnd; rewrite <- He; apply in_map, Hy).
      apply same_page_eq, eq_sym, Hsame; [apply HD, in_or_app; auto|exact (NB y HyB)| |].
      * intros Hin. destruct (Hids _ Hin) as [(A' & a & -> & Hq)|(h' & B' & [= <- <-] & Hq)]; [|contradiction].
        exact (NAB a y ltac:(apply in_or_app; right; left; reflexivity) HyB (eq_sym Hq)).
      * destruct Hfront as [->|(A' & a & ? & -> & ->)]; [auto|]. intros [He|[]].
        exact (NAB a y ltac:(apply in_or_app; right; left; reflexivity) HyB He).
Qed.

Lemma delete_frame b b' D os A x B : at_leaf b D os A x B -> delete_state b b' D os A x B ->
  frame (D ∖ {[lf_id x]}) (A ++ x :: B) b b'.
Proof.
  intros Hal Hd. pose proof Hal as [_ _ (old & Ha) Hfront _ _ _]. split.
  - intros q [Hq Hx]%elem_of_difference Hn. rewrite elem_of_singleton in Hx.
    assert (HA : forall y, In y (A ++ B) -> q <> lf_id y).
    { intros y Hy ->. apply Hn, in_map, in_middle. auto. }
    apply same_page_eq. rewrite (delete_same _ _ _ _ _ _ _ q Hal Hd Hq Hx), Ha.
    + symmetry. apply over_other. simpl. intuition congruence.
    + intros Hin. destruct (delete_ids _ _ _ _ _ _ _ Hd q Hin) as [(A' & a & -> & He)|(h & B' & -> & He)]; revert He; apply HA.
      * apply in_or_app. left. apply in_or_app. right. left. reflexivity.
      * apply in_or_app. right. left. reflexivity.
    + destruct Hfront as [->|(A' & a & p & -> & ->)]; [auto|]. intros [He|[]]. revert He. apply not_eq_sym, HA.
      apply in_or_app. left. apply in_or_app. right. left. reflexivity.
  - intros q [Hq Hx]%elem_of_difference Hs. rewrite elem_of_singleton in Hx. unfold stored.
    rewrite (ds_pages _ _ _ _ _ _ _ Hd q Hq Hx). exact Hs.
Qed.

Lemma delete_leaf (b : Batch) D os A x B top rest op : at_leaf b D os A x B -> stack_ b = top :: rest ->
  (forall o, last_from None (se_changes top) = Some o -> op_key o <k op_key op) ->
  wp tp_fails (b ← LeafLinkDelete b; '(id, _) ← applying_page_ b; b ← FreePage b id; push_change b op) (fun b1 =>
    triple1 b1 = None /\ let b' := with_triple b1 (triple0 b1) (triple2 b1) None in
    between_leaves b' (D ∖ {[lf_id x]}) os A B /\ frame (D ∖ {[lf_id x]}) (A ++ x :: B) b b' /\
    stack_ b' = with_changes top (se_changes top ++ [op]) :: rest /\ applying_page_ b' = applying_page_ b).
Proof.
  intros Hal Hst Hop. pose proof Hal as [Hinv Hc (old & Ha) Hfront H1 H2 Hsto].
  eapply wp_bind_mono; [exact (LeafLinkDelete_spec b D os A x B Hal)|]. intros b1 (t0 & t2 & -> & Ht0 & Ht2).
  cbn [applying_page_ with_triple]. rewrite Ha. cbn [mbind option_bind].
  assert (HxD : lf_id x ∈ D) by (apply (ch_held _ _ _ _ Hc), in_middle; auto).
  eapply wp_bind_mono; [apply (free_held_page opts (with_triple b t0 None t2) D os (lf_id x) (ti_store _ _ _ _ Hinv) HxD)|].
  { apply (Hsto x). left. reflexivity. }
  intros b2 (s' & -> & Hs' & Hq). rewrite (push_change_eq _ top rest) by (exact Hst || exact Hop). cbn [wp].
  split; [reflexivity|]. set (b' := with_triple _ _ _ _). cbv zeta.
  assert (Hd : delete_state b b' D os A x B).
  { constructor; [exact Hs'|exact Hq|exact Ht0|exact Ht2|reflexivity]. }
  pose proof (delete_frame _ _ _ _ _ _ _ Hal Hd) as Hfr. destruct (chain_nodup _ _ _ _ _ _ Hc) as (_ & NB & _).
  split; [|split; [exact Hfr|split; [reflexivity|exact Ha]]].
  constructor; [exact (unlinked_inv _ _ _ _ _ _ _ Hal Hd)|exact (unlinked_chain _ _ _ _ _ _ _ Hal Hd)| | |reflexivity|].
  - destruct Ht0 as [[_ ->]|(A' & a & pa & -> & _ & ->)]; [left; reflexivity|right]. exists A', a. eauto.
  - destruct B as [|h B]; [left; exact Ht2|right]. destruct Ht2 as (hp & _ & ->). exists h, B. eauto.
  - intros l Hl. apply (fr_keeps _ _ _ _ Hfr); [|apply Hsto; right; exact Hl]. apply elem_of_difference. rewrite elem_of_singleton.
    split; [apply (ch_held _ _ _ _ Hc), in_middle; right; apply in_or_app; auto|exact (NB l Hl)].
Qed.

(** Leaving the leaves that were finished. *)
Lemma after_between (b : Batch) D os A x B : after_leaf b D os A x B ->
  between_leaves (with_triple b (triple0 b) (triple2 b) None) D os (A ++ [x]) B.
Proof.
  intros [Hinv Hc (p & H0) H1 H2 Hsto].
  assert (Hids : triple_ids (with_triple b (triple0 b) (triple2 b) None) = triple_ids b).
  { unfold triple_ids. cbn [triple0 triple1 triple2 with_triple ref_ids]. rewrite H1, !app_nil_r. reflexivity. }
  constructor; [| |right; exists A, x, p; auto|exact H2|reflexivity|exact Hsto].
  - destruct Hinv as [S1 S2 S3]. constructor; rewrite ?Hids; assumption.
  - rewrite <- app_assoc. assert (He : forall q, eff (with_triple b (triple0 b) (triple2 b) None) q = eff b q).
    { intros q. unfold TaskSpec.eff. cbn [triple0 triple1 triple2 with_triple bt_store]. rewrite H1. reflexivity. }
    eapply chain_same; [|exact Hc]. intros l Hl. split; [apply same_page_eq; symmetry; apply He|exact (ch_held _ _ _ _ Hc l Hl)].
Qed.
End operations.
