(* ===== verification/MergeSim.v ===== *)
(** * Merging a batch into a leaf of a task that may fail

    ApplySpec describes [ApplyOnePage] for tasks whose operations succeed and
    accept any page.  The operations of a batch write task may fail, and finishing
    a page relies on the pages before it.  [Watched] adds to a task a record of
    the pages it was given and lets it go on after a failure; what [ApplyOnePage]
    does with the watched task it does with the task itself, unless the task
    failed. *)

From stdpp Require Import gmap sorting.
From S2P Require Import Prelude Coding Comparator PageFormat DataPage Regions DataPageIter RegionCopy IndexPage IndexPageIter.
From S2P Require Import PageIo ApplyPage ApplySpec.

Record Watched (T : Type) := mkWatched { w_task : option T; w_calls : list (bytes * Z * bytes) }.
Arguments mkWatched {T} _ _.
Arguments w_task {T} _.
Arguments w_calls {T} _.

Section watched.
  Context {T : Type} `{PageTask T}.

Definition watch (w : Watched T) (r : option (bytes * T)) : bytes * Watched T :=
  match r with Some (x, t) => (x, mkWatched (Some t) (w_calls w)) | None => ([], mkWatched None (w_calls w)) end.

#[export] Instance watched_task : PageTask (Watched T) := {
  pt_write_overflow w v := Some (watch w (t ← w_task w; pt_write_overflow t v));
  pt_del_overflow w ptrs := Some (mkWatched (t ← w_task w; pt_del_overflow t ptrs) (w_calls w));
  pt_write_large w c := Some (watch w (t ← w_task w; pt_write_large t c));
  pt_del_large w content := Some (mkWatched (t ← w_task w; pt_del_large t content) (w_calls w));
  pt_finish_page w key id page :=
    Some (mkWatched (t ← w_task w; pt_finish_page t key id page) (w_calls w ++ [(key, id, page)]))
}.

  Local Abbreviation WApply := (Apply (T := Watched T)).
  Local Abbreviation TApply := (Apply (T := T)).

(** The same local variables with another task. *)
Definition put (t : T) (s : WApply) : TApply :=
  mkApply t (ap_ttl s) (ap_builder s) (ap_prev_key s) (ap_page_key s) (ap_page_id s) (ap_pages s).

Definition erase (s : WApply) : option TApply := t ← w_task (ap_task s); Some (put t s).

(** The record of the calls is complete. *)
Definition good (s : WApply) : Prop := w_calls (ap_task s) = ap_pages s.

Definition follows (r : option WApply) (m : option TApply) : Prop :=
  forall s, r = Some s -> m = erase s /\ good s.

Definition follows2 {X} (r : option (X * WApply)) (m : option (X * TApply)) : Prop :=
  forall x s, r = Some (x, s) -> m = (t ← erase s; Some (x, t)) /\ good s.

Lemma follows_here s : good s -> follows (Some s) (erase s).
Proof. intros Hg s' [= <-]. auto. Qed.

Lemma follows_none m : follows None m.
Proof. intros s' [=]. Qed.

Lemma follows_bind r m g g' : follows r m -> (forall s, good s -> follows (g s) (erase s ≫= g')) -> follows (r ≫= g) (m ≫= g').
Proof. intros Hr Hg s' Hs. destruct r as [s|]; [|discriminate]. destruct (Hr s eq_refl) as [-> Hgs]. exact (Hg s Hgs s' Hs). Qed.

Lemma follows2_bind {X} (r : option (X * WApply)) m g g' : follows2 r m ->
  (forall x s, good s -> follows (g (x, s)) (erase s ≫= fun t => g' (x, t))) -> follows (r ≫= g) (m ≫= g').
Proof.
  intros Hr Hg s' Hs. destruct r as [[x s]|]; [|discriminate]. destruct (Hr x s eq_refl) as [-> Hgs].
  destruct (Hg x s Hgs s' Hs) as [<- ?]. split; [|assumption]. destruct (erase s); reflexivity.
Qed.

Lemma follows_step (r : option WApply) s f' g g' : follows r (erase s ≫= f') ->
  (forall s1, good s1 -> follows (g s1) (erase s1 ≫= g')) -> follows (r ≫= g) (erase s ≫= fun t => f' t ≫= g').
Proof.
  intros Hr Hg s' Hs. destruct (follows_bind r _ g g' Hr Hg s' Hs) as [<- ?]. split; [|assumption]. destruct (erase s); reflexivity.
Qed.

(** What the task does next depends only on the local variables. *)
Lemma erase_bind {A} s (f : TApply -> option A) : erase s ≫= f = (t ← w_task (ap_task s); f (put t s)).
Proof. unfold erase. destruct (w_task (ap_task s)); reflexivity. Qed.

Lemma follows_ret s : good s -> follows (Some s) (t ← w_task (ap_task s); Some (put t s)).
Proof. exact (follows_here s). Qed.

Lemma DelValue_follows s overflow large val : good s ->
  follows (DelValue s overflow large val) (erase s ≫= fun t => DelValue t overflow large val).
Proof.
  intros Hg. rewrite erase_bind. unfold DelValue. destruct overflow; [|destruct large; [|exact (follows_here s Hg)]].
  - intros s' [= <-]. split; [|exact Hg]. unfold erase. cbn. destruct (w_task (ap_task s)) as [t|]; [|reflexivity]. cbn.
    destruct (pt_del_overflow t val); reflexivity.
  - intros s' [= <-]. split; [|exact Hg]. unfold erase. cbn. destruct (w_task (ap_task s)) as [t|]; [|reflexivity]. cbn.
    destruct (pt_del_large t val); reflexivity.
Qed.

Lemma FinishCurrent_follows opts s : good s -> follows (FinishCurrent opts s) (erase s ≫= FinishCurrent opts).
Proof.
  intros Hg s' [= <-]. unfold good, erase, FinishCurrent in *. cbn. rewrite Hg. split; [|reflexivity].
  destruct (w_task (ap_task s)) as [t|]; [|reflexivity]. cbn. destruct (pt_finish_page t _ _ _); reflexivity.
Qed.

  Context (opts : KvOptions) (enable_compression : bool).
  Context (compress_raw : bytes -> option bytes) (dict : option (bytes -> option bytes)) (now_ms : Z).

(** An update of the local variables, possibly with a failed assertion. *)
Lemma follows_pure (s : WApply) (f : WApply -> option WApply) (g : TApply -> option TApply) :
  (forall s', f s = Some s' -> ap_task s' = ap_task s /\ ap_pages s' = ap_pages s /\ forall t, g (put t s) = Some (put t s')) ->
  good s -> follows (f s) (erase s ≫= g).
Proof.
  intros Hf Hg s' Hs. destruct (Hf s' Hs) as (Ht & Hp & Hgt). split; [|unfold good in *; rewrite Ht, Hp; exact Hg].
  rewrite erase_bind. unfold erase. rewrite Ht. destruct (w_task (ap_task s)); [apply Hgt|reflexivity].
Qed.

Lemma add_to_page_follows depth : forall s key val is_ptr ts expire_ts c large, good s ->
  follows (add_to_page opts now_ms depth s key val is_ptr ts expire_ts c large)
    (erase s ≫= fun t => add_to_page opts now_ms depth t key val is_ptr ts expire_ts c large).
Proof.
  induction depth as [|depth IH]; intros s key val is_ptr ts expire_ts c large Hg; [apply follows_none|]. cbn [add_to_page].
  destruct (Expired now_ms expire_ts).
  { apply follows_step; [apply DelValue_follows, Hg|].
    intros s1 Hg1. apply (follows_pure s1 (fun s => Some (with_ttl s expire_ts key Delete))); [|exact Hg1]. intros s' [= <-]. auto. }
  rewrite erase_bind. cbn [ap_builder put ap_page_key ap_prev_key].
  destruct (Add opts (ap_builder s) key val is_ptr ts expire_ts c large) as [[|] b].
  { destruct (_ <=? 0); [|apply follows_none]. apply (follows_here (mkApply _ _ _ _ _ _ _)). exact Hg. }
  destruct (negb is_ptr && negb large && _).
  - cbn. unfold watch. intros s'. destruct (w_task (ap_task s)) as [t|] eqn:Et; cbn.
    + destruct (pt_write_overflow t val) as [[ptrs t']|]; cbn.
      * intros Hs'. destruct (IH (with_task s (mkWatched (Some t') (w_calls (ap_task s)))) key ptrs true ts expire_ts c false Hg s' Hs') as [<- Hg'].
        auto.
      * intros Hs'. destruct (IH (with_task s (mkWatched None (w_calls (ap_task s)))) key [] true ts expire_ts c false Hg s' Hs') as [<- Hg'].
        auto.
    + intros Hs'. destruct (IH (with_task s (mkWatched None (w_calls (ap_task s)))) key [] true ts expire_ts c false Hg s' Hs') as [<- Hg'].
      auto.
  - match goal with |- follows _ (_ ≫= fun t => FinishCurrent opts (put t s) ≫= ?k) => 
      rewrite <- (erase_bind s (fun t => FinishCurrent opts t ≫= k)) end.
    apply follows_step; [apply FinishCurrent_follows, Hg|].
    intros s1 Hg1. rewrite erase_bind. cbn [ap_builder put ap_page_key ap_prev_key].
    destruct (Add opts Reset key val is_ptr ts expire_ts c large) as [ok b1].
    destruct (_ && ok && _); [|apply follows_none]. apply (follows_here (mkApply _ _ _ _ _ _ _)). exact Hg1.
Qed.

  Local Abbreviation add_change := (add_change opts enable_compression compress_raw dict now_ms).
  Local Abbreviation add_base := (add_base opts now_ms).
  Local Abbreviation merge_step := (merge_step opts enable_compression compress_raw dict now_ms).
  Local Abbreviation change_loop := (change_loop opts enable_compression compress_raw dict now_ms).
  Local Abbreviation merge_loop := (merge_loop opts enable_compression compress_raw dict now_ms).
  Local Abbreviation ApplyOnePage := (ApplyOnePage opts enable_compression compress_raw dict now_ms).
  Local Abbreviation PrepareChange := (PrepareChange enable_compression compress_raw dict).

Lemma add_change_follows s w : good s -> follows (add_change s w) (erase s ≫= fun t => add_change t w).
Proof.
  intros Hg. unfold ApplyPage.add_change, ApplyPage.PrepareChange. destruct (HasLargeValue w).
  - rewrite erase_bind. cbn. unfold watch. intros s'. destruct (w_task (ap_task s)) as [t|] eqn:Et; cbn.
    + destruct (pt_write_large t w) as [[content t']|]; intros Hs'.
      * exact (add_to_page_follows 2 (with_task s (mkWatched (Some t') (w_calls (ap_task s)))) _ content _ _ _ _ _ Hg s' Hs').
      * exact (add_to_page_follows 2 (with_task s (mkWatched None (w_calls (ap_task s)))) _ [] _ _ _ _ _ Hg s' Hs').
    + intros Hs'. exact (add_to_page_follows 2 (with_task s (mkWatched None (w_calls (ap_task s)))) _ [] _ _ _ _ _ Hg s' Hs').
  - destruct enable_compression; [destruct (Prepare compress_raw dict (w_val w)) as [data kind]|]; apply add_to_page_follows, Hg.
Qed.

Lemma add_base_follows s e : good s -> follows (add_base s e) (erase s ≫= fun t => add_base t e).
Proof. apply add_to_page_follows. Qed.

Lemma with_ttl_follows s x k op g g' : (forall s1, good s1 -> follows (g s1) (erase s1 ≫= g')) -> good s ->
  follows (g (with_ttl s x k op)) (erase s ≫= fun t => g' (with_ttl t x k op)).
Proof.
  intros Hf Hg s' Hs. destruct (Hf (with_ttl s x k op) Hg s' Hs) as [<- ?]. split; [|assumption]. rewrite !erase_bind. reflexivity.
Qed.

Lemma unless_empty_follows key s f f' : (forall s1, good s1 -> follows (f s1) (erase s1 ≫= f')) -> good s ->
  follows (unless_empty key s f) (erase s ≫= fun t => unless_empty key t f').
Proof.
  intros Hf Hg. unfold unless_empty. destruct (zlen key =? 0); [|exact (Hf s Hg)].
  rewrite erase_bind. exact (follows_here s Hg).
Qed.

Lemma follows_tag {X} (x : X) r s f' : follows r (erase s ≫= f') ->
  follows2 (s ← r; Some (x, s)) (erase s ≫= fun t => t ← f' t; Some (x, t)).
Proof.
  intros Hr x' s' Hs. destruct r as [s1|]; [|discriminate]. injection Hs as <- <-. destruct (Hr s1 eq_refl) as [He ?].
  split; [|assumption]. rewrite <- He. destruct (erase s); reflexivity.
Qed.

Lemma follows2_step {X} (r : option WApply) s f' (g : WApply -> option (X * WApply)) g' : follows r (erase s ≫= f') ->
  (forall s1, good s1 -> follows2 (g s1) (erase s1 ≫= g')) -> follows2 (r ≫= g) (erase s ≫= fun t => f' t ≫= g').
Proof.
  intros Hr Hg x s' Hs. destruct r as [s1|]; [|discriminate]. destruct (Hr s1 eq_refl) as [He Hg1].
  destruct (Hg s1 Hg1 x s' Hs) as [Hm ?]. split; [|assumption]. rewrite <- Hm, <- He. destruct (erase s); reflexivity.
Qed.

Lemma follows2_here {X} (x : X) s f : (forall t, f (put t s) = Some (x, put t s)) -> good s ->
  follows2 (Some (x, s)) (erase s ≫= f).
Proof.
  intros Hf Hg x' s' [= <- <-]. split; [|exact Hg]. rewrite !erase_bind. destruct (w_task (ap_task s)); [apply Hf|reflexivity].
Qed.

Lemma follows2_ttl {X} (y : X) s x k op : good s ->
  follows2 (Some (y, with_ttl s x k op)) (erase s ≫= fun t => Some (y, with_ttl t x k op)).
Proof. intros Hg x' s' [= <- <-]. split; [|exact Hg]. rewrite !erase_bind. reflexivity. Qed.

Lemma merge_step_follows s e w : good s -> follows2 (merge_step s e w) (erase s ≫= fun t => merge_step t e w).
Proof.
  intros Hg. unfold ApplyPage.merge_step. destruct (Compare (key_ e) (w_key w) <? 0).
  { apply follows_tag, unless_empty_follows; [|exact Hg]. intros s1. apply add_base_follows. }
  destruct (Compare (key_ e) (w_key w) =? 0).
  - destruct (timestamp_ e <=? w_ts w).
    2: { apply follows_tag, unless_empty_follows; [|exact Hg]. intros s1. apply add_base_follows. }
    apply follows2_step; [apply DelValue_follows, Hg|]. intros s1 Hg1. destruct (w_op w).
    + destruct (Expired now_ms (w_expire w)); [apply follows2_ttl, Hg1|]. destruct (expire_ts_ e =? w_expire w).
      * apply follows_tag, unless_empty_follows; [|exact Hg1]. intros s2. apply add_change_follows.
      * apply follows_tag.
        apply (with_ttl_follows s1 (expire_ts_ e) (key_ e) Delete (fun s => unless_empty (w_key w) (with_ttl s (w_expire w) (w_key w) Upsert) (fun s => add_change s w))
          (fun t => unless_empty (w_key w) (with_ttl t (w_expire w) (w_key w) Upsert) (fun t => add_change t w))); [|exact Hg1].
        intros s2 Hg2. apply (with_ttl_follows s2 (w_expire w) (w_key w) Upsert (fun s => unless_empty (w_key w) s (fun s => add_change s w))
          (fun t => unless_empty (w_key w) t (fun t => add_change t w))); [|exact Hg2].
        intros s3 Hg3. apply unless_empty_follows; [|exact Hg3]. intros s4. apply add_change_follows.
    + destruct (_ || _); [apply follows2_ttl, Hg1|]. intros x s' [=].
  - destruct (w_op w); [|apply follows2_here; auto]. destruct (Expired now_ms (w_expire w)); [apply follows2_here; auto|].
    apply follows_tag. apply (with_ttl_follows s (w_expire w) (w_key w) Upsert (fun s => unless_empty (w_key w) s (fun s => add_change s w))
      (fun t => unless_empty (w_key w) t (fun t => add_change t w))); [|exact Hg].
    intros s3 Hg3. apply unless_empty_follows; [|exact Hg3]. intros s4. apply add_change_follows.
Qed.

Lemma base_loop_follows base : forall s, good s -> follows (base_loop opts now_ms s base) (erase s ≫= fun t => base_loop opts now_ms t base).
Proof.
  induction base as [|e base IH]; intros s Hg; cbn [base_loop]; [rewrite erase_bind; exact (follows_here s Hg)|].
  apply follows_step; [apply add_base_follows, Hg|exact IH].
Qed.

Lemma change_loop_follows changes : forall s, good s -> follows (change_loop s changes) (erase s ≫= fun t => change_loop t changes).
Proof.
  induction changes as [|w changes IH]; intros s Hg; cbn [ApplyPage.change_loop]; [rewrite erase_bind; exact (follows_here s Hg)|].
  apply follows_step; [|exact IH]. destruct (w_op w); [|rewrite erase_bind; exact (follows_here s Hg)].
  destruct (Expired now_ms (w_expire w)); [rewrite erase_bind; exact (follows_here s Hg)|].
  apply (with_ttl_follows s (w_expire w) (w_key w) Upsert (fun s => add_change s w) (fun t => add_change t w)); [|exact Hg].
  intros s1. apply add_change_follows.
Qed.

Lemma merge_loop_follows fuel : forall s base changes, good s ->
  follows (merge_loop fuel s base changes) (erase s ≫= fun t => merge_loop fuel t base changes).
Proof.
  induction fuel as [|fuel IH]; intros s [|e base] [|w changes] Hg; cbn [ApplyPage.merge_loop];
    try (apply (change_loop_follows [] s Hg) || apply change_loop_follows, Hg || apply (base_loop_follows (e :: base) s Hg) || apply follows_none).
  intros s' Hs'. pose proof (merge_step_follows s e w Hg) as Hm. destruct (merge_step s e w) as [[adv s1]|]; [|discriminate].
  destruct (Hm adv s1 eq_refl) as [He Hg1]. cbn [mbind option_bind] in Hs'.
  assert (HT : erase s ≫= (fun t => '(adv0, t0) ← merge_step t e w;
      match adv0 with
      | AdvPageIter => merge_loop fuel t0 base (w :: changes)
      | AdvChanges => merge_loop fuel t0 (e :: base) changes
      | AdvBoth => merge_loop fuel t0 base changes
      end) = erase s1 ≫= (fun t0 => match adv with
      | AdvPageIter => merge_loop fuel t0 base (w :: changes)
      | AdvChanges => merge_loop fuel t0 (e :: base) changes
      | AdvBoth => merge_loop fuel t0 base changes
      end)).
  { destruct (erase s) as [t|]; cbn in *; [rewrite He; destruct (erase s1); reflexivity|]. destruct (erase s1); [discriminate|reflexivity]. }
  rewrite HT. destruct adv; apply (IH s1 _ _ Hg1 s' Hs').
Qed.

(** [ApplyOnePage] with the watched task and with the task. *)
Lemma ApplyOnePage_follows t ttl key id base right_bound batch s' empty n :
  ApplyOnePage (mkWatched (Some t) []) ttl key id base right_bound batch = Some (s', empty, n) ->
  ApplyOnePage t ttl key id base right_bound batch = (a ← erase s'; Some (a, empty, n)) /\ w_calls (ap_task s') = ap_pages s'.
Proof.
  unfold ApplyPage.ApplyOnePage. set (s0 := mkApply (mkWatched (Some t) []) ttl Reset [] key id []).
  set (changes := page_changes right_bound batch). intros Hs.
  pose proof (merge_loop_follows (length base + length changes) s0 base changes eq_refl) as Hm.
  change (erase s0) with (Some (mkApply t ttl Reset [] key id [])) in Hm. cbn [mbind option_bind] in Hm.
  destruct (merge_loop (length base + length changes) s0 base changes) as [s1|]; [|discriminate].
  destruct (Hm s1 eq_refl) as [-> Hg1]. cbn [mbind option_bind] in Hs. rewrite erase_bind. cbn [ap_builder put].
  destruct (b_cnt (ap_builder s1) =? 0).
  - injection Hs as <- <- <-. split; [|exact Hg1]. rewrite erase_bind. reflexivity.
  - pose proof (FinishCurrent_follows opts s1 Hg1) as Hf. destruct (FinishCurrent opts s1) as [s2|]; [|discriminate].
    injection Hs as <- <- <-. destruct (Hf s2 eq_refl) as [He Hg2]. split; [|exact Hg2]. rewrite <- He, erase_bind.
    destruct (w_task (ap_task s1)); [|reflexivity]. cbn. destruct (FinishCurrent opts (put t0 s1)); reflexivity.
Qed.
End watched.
