(* ===== verification/LeafMerge.v ===== *)
(** * Applying a part of a batch to a leaf

    [ApplyToLeaf] merges the part of a batch that falls into a leaf: the leaf is
    replaced by the leaves of the merged entries, linked in its place, or deleted,
    and the index page above is told. *)

From stdpp Require Import gmap sorting.
From S2P Require Import Prelude Coding Comparator PageFormat DataPage Regions DataPageIter RegionCopy IndexPage IndexPageIter.
From S2P Require Import PageIo ApplyPage ApplySpec Tree BatchTask IndexStack ApplyBatch TaskSpec LeafSpec MergeSim.

(** ** The entries of a page *)
Definition page_entries (page : bytes) : option (list Entry) :=
  v ← page_view page; collect (Datatypes.S (length page)) v fresh_cursor.

Lemma collect_yields v c l : yields v c l -> forall fuel, (length l < fuel)%nat -> collect fuel v c = Some l.
Proof.
  induction 1 as [c H1 H2|c c' rest H1 H2 _ IH]; intros [|fuel] Hf; simpl in Hf; try lia; rewrite collect_S, H2; [reflexivity|].
  cbn [mbind option_bind]. rewrite IH by lia. reflexivity.
Qed.

Lemma data_page_length page l : data_page page l -> (length l <= length page)%nat.
Proof.
  intros (_ & _ & rs & (hdr & pad & -> & _) & <- & _). pose proof (data_entries_le_blob rs) as Hb. unfold format_page.
  rewrite !length_app. unfold zlen in Hb. lia.
Qed.

Lemma data_page_entries page l : data_page page l -> page_entries page = Some l.
Proof.
  intros Hd. destruct (data_page_view _ _ Hd) as (v & Hv & Hdv). unfold page_entries. rewrite Hv. cbn [mbind option_bind].
  apply collect_yields; [exact (dv_fresh _ _ Hdv)|]. pose proof (data_page_length _ _ Hd). lia.
Qed.

(** Every entry of a page fits a page of its own. *)
Lemma data_page_fit opts page l : valid_options opts -> data_page page l -> zlen page = data_page_size opts ->
  Forall (fun e => wf_entry e /\ fits opts (entry_args e)) l.
Proof.
  intros Hopt (_ & _ & rs & (hdr & pad & -> & Hh & _ & _ & _) & <- & Hw & _) Hz.
  apply List.Forall_forall. intros e He. apply list_elem_of_In in He.
  assert (Hwe : wf_entry e).
  { apply Forall_concat in Hw. rewrite list.Forall_forall in Hw. exact (Hw e He). }
  split; [exact Hwe|]. apply fits_enc; [exact Hwe|]. pose proof (blob_entry_alone _ e Hw He) as Hb.
  assert (Hrs : 1 <= zlen rs) by (destruct rs; [inversion He|rewrite zlen_cons; zlia]).
  unfold format_page in Hz. rewrite !zlen_app, restart_array_length in Hz. unfold zlen at 3 in Hz. rewrite region_offsets_length in Hz.
  fold (zlen rs) in Hz. change (zlen (EncodeFixed16 (zlen rs))) with 2 in Hz. pose proof (zlen_nonneg pad). lia.
Qed.

(** ** Ranges of consecutive leaves *)
Lemma children_within_extend {X} (P : bytes -> bytes -> X -> Prop) lo hi ns kx x x' k n :
  children_within P lo hi (ns ++ [(kx, x)]) -> (forall lo', P lo' hi x -> lo' <k k /\ P lo' k x') -> below_bound hi k -> P k hi n ->
  children_within P lo hi (ns ++ [(kx, x'); (k, n)]).
Proof.
  intros Hc Hx Hb Hn. revert lo Hc. induction ns as [|[k0 c0] ns IH]; intros lo Hc.
  - destruct (Hx lo Hc) as [H1 H2]. simpl. auto.
  - destruct ns as [|[k1 c1] ns].
    + destruct Hc as (H1 & H2 & H3 & H4). destruct (Hx kx H4) as [H5 H6]. simpl. auto 10.
    + destruct Hc as (H1 & H2 & H3 & H4). cbn [app]. split; [exact H1|]. split; [exact H2|]. split; [exact H3|]. exact (IH _ H4).
Qed.

Lemma children_within_last {X} (P : bytes -> bytes -> X -> Prop) lo hi ns kx x :
  children_within P lo hi (ns ++ [(kx, x)]) -> exists lo', P lo' hi x /\ lo <=k lo' /\ (ns = [] \/ lo' = kx).
Proof.
  revert lo. induction ns as [|[k0 c0] ns IH]; intros lo Hc.
  - exists lo. split; [exact Hc|]. split; [apply key_le_refl|auto].
  - destruct ns as [|[k1 c1] ns].
    + destruct Hc as (H1 & H2 & H3 & H4). exists kx. split; [exact H4|]. split; [apply key_lt_le; exact H1|auto].
    + destruct Hc as (H1 & H2 & H3 & H4). destruct (IH _ H4) as (lo' & Hp & Hl & He). exists lo'. split; [exact Hp|].
      split; [|destruct He; [discriminate|auto]]. apply key_lt_le. eapply key_lt_le_trans; eassumption.
Qed.

(** A merge has no more items than entries and changes. *)
Lemma merge_items_count now base : forall changes, zlen (merge_items now base changes) <= zlen base + zlen changes.
Proof.
  assert (Hnew : forall w, zlen (new_item now w) <= 1) by (intros w; unfold new_item; destruct (w_op w); [destruct (Expired _ _)|]; cbv; discriminate).
  assert (Hold : forall e, zlen (kept_item now e) <= 1) by (intros e; unfold kept_item; destruct (Expired _ _); cbv; discriminate).
  assert (Hc : forall (X : Type) (f : X -> list Item) l, (forall x, zlen (f x) <= 1) -> zlen (concat (map f l)) <= zlen l).
  { intros X f l Hf. induction l as [|x l IH]; [reflexivity|]. cbn [map concat]. rewrite zlen_app, zlen_cons. specialize (Hf x). lia. }
  induction base as [|e base IHb]; intros changes; [destruct changes; apply (Hc _ (new_item now)); exact Hnew|].
  induction changes as [|w changes IHc]; [etransitivity; [apply (Hc _ (kept_item now)), Hold|]; rewrite zlen_nil; lia|].
  cbn [merge_items]. rewrite !zlen_cons in *. pose proof (Hnew w). pose proof (Hold e).
  destruct (Compare (key_ e) (w_key w) <? 0); [rewrite zlen_app; specialize (IHb (w :: changes)); rewrite zlen_cons in IHb; lia|].
  destruct (Compare (key_ e) (w_key w) =? 0); [|rewrite zlen_app; etransitivity; [apply Z.add_le_mono; [apply Hnew|exact IHc]|lia]].
  rewrite zlen_app. specialize (IHb changes). destruct (timestamp_ e <=? w_ts w); lia.
Qed.

Section merge.
  Context {S : Type} `{TaskPages S} (opts : KvOptions) (hash : bytes -> Z) `{!TaskPagesLaws S opts} (Hopts : valid_options opts).

  Local Abbreviation Batch := (Batch (S := S)).
  Local Abbreviation eff := (eff opts).
  Local Abbreviation task_inv := (task_inv opts).
  Local Abbreviation after_leaf := (after_leaf opts).
  Local Abbreviation at_leaf := (at_leaf opts).
  Local Abbreviation frame := (frame opts).

(** ** Changes below the leaves *)
Lemma eff_store_change (b : Batch) s' (D : gset Z) q : (forall q, q ∈ D -> tp_page s' q = tp_page (bt_store b) q) -> q ∈ D ->
  eff (with_store b s') q = eff b q.
Proof. intros Hs Hq. unfold TaskSpec.eff. do 3 apply over_ext. exact (Hs q Hq). Qed.

Lemma after_leaf_store (b : Batch) s' D os os' A x B : after_leaf b D os A x B -> tp_inv s' D os' ->
  (forall q, q ∈ D -> tp_page s' q = tp_page (bt_store b) q) -> after_leaf (with_store b s') D os' A x B.
Proof.
  intros [[_ I2 I3] Hc H0 H1 H2 Hsto] Hs Hq. constructor; auto.
  - constructor; assumption.
  - eapply chain_same; [|exact Hc]. intros l Hl. pose proof (ch_held _ _ _ _ Hc l Hl) as HlD. split; [|exact HlD].
    apply same_page_eq. symmetry. apply (eff_store_change b s' D); assumption.
  - intros l Hl. unfold stored. cbn [bt_store with_store]. rewrite Hq; [exact (Hsto l Hl)|].
    apply (ch_held _ _ _ _ Hc), in_middle. right. apply in_or_app. auto.
Qed.

Lemma at_leaf_store (b : Batch) s' D os os' A x B : at_leaf b D os A x B -> tp_inv s' D os' ->
  (forall q, q ∈ D -> tp_page s' q = tp_page (bt_store b) q) -> at_leaf (with_store b s') D os' A x B.
Proof.
  intros [[_ I2 I3] Hc Ha H0 H1 H2 Hsto] Hs Hq. constructor; auto.
  - constructor; assumption.
  - eapply chain_same; [|exact Hc]. intros l Hl. pose proof (ch_held _ _ _ _ Hc l Hl) as HlD. split; [|exact HlD].
    apply over_same, same_page_eq. symmetry. apply (eff_store_change b s' D); assumption.
  - intros l Hl. unfold stored. cbn [bt_store with_store]. rewrite Hq; [exact (Hsto l Hl)|].
    apply (ch_held _ _ _ _ Hc), in_or_app. auto.
Qed.

Lemma task_frame_refl D ls b : frame D ls b b.
Proof. split; [intros; apply same_page_refl|intros q _ Hs; exact Hs]. Qed.

Lemma task_frame_trans D D' ls ls' b1 b2 b3 : (forall q, q ∈ D -> q ∈ D') -> (forall q, q ∈ D -> In q (map lf_id ls') -> In q (map lf_id ls)) ->
  frame D ls b1 b2 -> frame D' ls' b2 b3 -> frame D ls b1 b3.
Proof.
  intros HD Hls [F1 F2] [G1 G2]. split.
  - intros q Hq Hn. eapply same_page_trans; [exact (F1 q Hq Hn)|]. apply G1; [exact (HD q Hq)|]. intros Hin. exact (Hn (Hls q Hq Hin)).
  - intros q Hq Hs. apply G2; [exact (HD q Hq)|exact (F2 q Hq Hs)].
Qed.

Lemma frame_store D ls (b : Batch) s' : (forall q, q ∈ D -> tp_page s' q = tp_page (bt_store b) q) -> frame D ls b (with_store b s').
Proof.
  intros Hs. split.
  - intros q Hq _. apply same_page_eq. symmetry. exact (eff_store_change b s' D q Hs Hq).
  - intros q Hq Hsto. unfold stored. cbn [bt_store with_store]. rewrite (Hs q Hq). exact Hsto.
Qed.

(** ** Where the merge started

    The task [b0] holds the pages [D0]; it stands at a leaf or in an empty tree,
    with the leaves [A] before and [B] behind.  The keys of the leaf lie between
    [lo] and [hi]; keys have at most [K] bytes, and there is room for [N] leaves. *)
  Context (b0 : Batch) (D0 : gset Z) (A B : list Leaf) (ox : option Leaf) (top : IndexStackEntry) (rest : list IndexStackEntry).
  Context (page_key lo hi : bytes) (K N : Z).

Definition old_leaves : list Leaf := A ++ match ox with Some x => [x] | None => [] end ++ B.

Definition page_id : Z := match ox with Some x => lf_id x | None => MaxPageId end.

Record start_ok : Prop := {
  so_stack : stack_ b0 = top :: rest;
  so_pointer : se_pointer top = mkIndexEntry page_key page_id;
  so_links : links_to b0 top B;
  so_key : page_key <=k lo;
  so_short : zlen page_key <= K;
  so_last : forall o, last_from None (se_changes top) = Some o -> op_key o <k page_key;
  so_empty : ox = None -> A = [] /\ B = [] /\ se_changes top = [];
  so_room : room opts D0 N
}.

(** Before the first page is finished. *)
Record started (b : Batch) (os : list Outside) : Prop := {
  st_leaf : match ox with
            | Some x => at_leaf b D0 os A x B
            | None => task_inv b D0 os /\ triple0 b = None /\ triple1 b = None /\ triple2 b = None
            end;
  st_frame : frame D0 old_leaves b0 b;
  st_stack : stack_ b = stack_ b0;
  st_applying : applying_page_ b = applying_page_ b0
}.

(** The new ones of the leaves: the first one keeps the place of the old leaf. *)
Definition new_ones {X} (l : list X) : list X := match ox with Some _ => tl l | None => l end.

Definition upserts (l : list (bytes * Leaf)) : list IndexOp := map (fun c => mkIndexOp (fst c) (lf_id (snd c)) Upsert) l.

Definition leaf_within (lo hi : bytes) (l : Leaf) : Prop := Forall (fun e => in_range lo hi (key_ e)) (lf_entries l).

(** The leaves [ns] and [x] are finished and hold the entries [es]. *)
Record grown (b : Batch) (D : gset Z) (os : list Outside) (es : list Entry) (ns : list (bytes * Leaf)) (kx : bytes) (x : Leaf) : Prop := {
  gr_after : after_leaf b D os (A ++ map snd ns) x B;
  gr_entries : leaf_entries (map snd (ns ++ [(kx, x)])) = es;
  gr_within : children_within leaf_within lo hi (ns ++ [(kx, x)]);
  gr_short : Forall (fun c => zlen (fst c) <= K) (ns ++ [(kx, x)]);
  gr_first : match ns ++ [(kx, x)] with c :: _ => fst c = page_key /\ (ox = None \/ lf_id (snd c) = page_id) | [] => True end;
  gr_stack : stack_ b = with_changes top (se_changes top ++ upserts (new_ones (ns ++ [(kx, x)]))) :: rest;
  gr_held : forall q, q ∈ D <-> q ∈ D0 \/ In q (map (fun c => lf_id (snd c)) (new_ones (ns ++ [(kx, x)])));
  gr_new : forall c, In c (new_ones (ns ++ [(kx, x)])) -> lf_id (snd c) ∉ D0;
  gr_frame : frame D0 old_leaves b0 b;
  gr_applying : applying_page_ b = applying_page_ b0
}.

Lemma room_entry D n : room opts D n -> forall page es, data_page page es -> zlen es <= n -> room opts D 1.
Proof.
  intros Hr page es Hd Hn. apply data_page_nonempty in Hd. unfold room in *. destruct es; [congruence|]. rewrite zlen_cons in Hn.
  pose proof (zlen_nonneg es). lia.
Qed.

Lemma grow_first (Hso : start_ok) b os page es : started b os -> data_page page es -> zlen page = data_page_size opts ->
  Forall (fun e => in_range lo hi (key_ e)) es -> zlen es <= N ->
  wp tp_fails (FinishDataPage opts hash b page_key page_id page) (fun b' => exists D x, grown b' D os es [] page_key x).
Proof.
  intros [Hleaf Hfr Hst Hap] Hd Hz Hin HN. destruct Hso as [Hs0 Hptr Hln Hpk Hsh Hlast Hemp Hroom]. unfold page_id in *.
  destruct ox as [x|] eqn:Ex.
  - destruct Hleaf as [Hinv Hc (old & Ha) H0 H1 H2 Hsto].
    eapply wp_mono; [apply (finish_update opts hash Hopts b D0 os A x B old page_key page es Hinv Hc Ha H1 H2)|].
    + intros q Hq. destruct H0 as [H0|(A' & a & p & -> & H0)]; rewrite H0 in Hq; [destruct Hq|]. destruct Hq as [<-|[]].
      rewrite map_app. apply in_or_app. right. left. reflexivity.
    + intros l Hl. apply Hsto. right. exact Hl.
    + exact Hd.
    + exact Hz.
    + intros b' (Haf & Hfr' & Hst' & Hap'). exists D0, (mkLeaf (lf_id x) es).
      constructor; unfold new_ones; rewrite ?Ex; cbn [app map snd tl].
      * rewrite app_nil_r. exact Haf.
      * apply leaf_entries_one.
      * exact Hin.
      * constructor; [exact Hsh|constructor].
      * unfold page_id. rewrite Ex. auto.
      * rewrite Hst', Hst, Hs0, app_nil_r. f_equal. destruct top. reflexivity.
      * simpl. tauto.
      * intros c [].
      * eapply task_frame_trans; [| |exact Hfr|exact Hfr']; [auto|]. unfold old_leaves. rewrite Ex. auto.
      * congruence.
  - destruct (Hemp eq_refl) as (HA & HB & Hch). destruct Hleaf as (Hinv & H0 & H1 & H2).
    eapply wp_mono; [apply (finish_first opts hash Hopts b D0 os top rest page_key page es Hinv H0 H1 H2); auto; [congruence|rewrite Hptr; reflexivity|exact (room_entry _ _ Hroom _ _ Hd HN)]|].
    intros b' (n & Hn & Hes & Haf & Hfr' & Hap' & Hst'). exists ({[lf_id n]} ∪ D0), n.
    constructor; unfold new_ones; rewrite ?Ex; cbn [app map snd fst].
    + rewrite HA, HB. exact Haf.
    + rewrite leaf_entries_one. exact Hes.
    + cbn. unfold leaf_within. rewrite Hes. exact Hin.
    + constructor; [exact Hsh|constructor].
    + auto.
    + rewrite Hst', Hch. reflexivity.
    + intros q. cbn [In]. set_unfold. intuition congruence.
    + intros c [<-|[]]. exact Hn.
    + eapply task_frame_trans; [| |exact Hfr|exact Hfr']; [auto|]. intros q _ [].
    + congruence.
Qed.

Lemma new_ones_snoc {X} l (c c' : X) : new_ones (l ++ [c; c']) = new_ones (l ++ [c]) ++ [c'].
Proof. unfold new_ones. destruct ox; [|rewrite <- app_assoc; reflexivity]. destruct l; simpl; [reflexivity|]. rewrite <- app_assoc. reflexivity. Qed.

Lemma upserts_app a c : upserts (a ++ c) = upserts a ++ upserts c.
Proof. apply map_app. Qed.

(** What the index page hears of a leaf depends on its key and id only. *)
Lemma new_ones_map {X Y} (f : X -> Y) l : map f (new_ones l) = new_ones (map f l).
Proof. unfold new_ones. destruct ox; [|reflexivity]. destruct l; reflexivity. Qed.

Lemma new_ones_replace {Y} (f : bytes * Leaf -> Y) ns c c' : f c = f c' -> map f (new_ones (ns ++ [c])) = map f (new_ones (ns ++ [c'])).
Proof. intros Hf. rewrite !new_ones_map, !map_app. simpl. rewrite Hf. reflexivity. Qed.

Lemma links_to_applying (b : Batch) t : applying_page_ b = applying_page_ b0 -> se_pointer t = se_pointer top -> links_to b0 top B -> links_to b t B.
Proof. intros Ha Hp [Hl|(aid & old & Hl & Hn)]; [left; congruence|right]. exists aid, old. rewrite Ha. auto. Qed.

Lemma leaf_entries_snoc (ns : list (bytes * Leaf)) kx x : leaf_entries (map snd (ns ++ [(kx, x)])) = leaf_entries (map snd ns) ++ lf_entries x.
Proof. rewrite map_app, leaf_entries_app. cbn [map snd]. rewrite leaf_entries_one. reflexivity. Qed.

(** The last change of the index page is not above the last leaf. *)
Lemma last_change_le (Hso : start_ok) b D os es ns kx x o : grown b D os es ns kx x ->
  last_from None (se_changes top ++ upserts (new_ones (ns ++ [(kx, x)]))) = Some o -> Forall (fun e => op_key o <=k key_ e) (lf_entries x).
Proof.
  intros Hg Ho. destruct (children_within_last _ _ _ _ _ _ (gr_within _ _ _ _ _ _ _ Hg)) as (lo' & Hx & Hlo & Hkx).
  assert (Hle : op_key o <=k lo').
  { destruct (new_ones (ns ++ [(kx, x)])) as [|c l] eqn:El.
    - simpl in Ho. rewrite app_nil_r in Ho. apply key_lt_le. eapply key_lt_le_trans; [exact (so_last Hso o Ho)|].
      eapply key_le_trans; [exact (so_key Hso)|exact Hlo].
    - assert (Hlast : exists l', new_ones (ns ++ [(kx, x)]) = l' ++ [(kx, x)]).
      { unfold new_ones in *. destruct ox; [|eauto]. destruct ns as [|n ns]; [discriminate El|]. exists ns. reflexivity. }
      destruct Hlast as [l' Hl']. rewrite <- El, Hl' in Ho. unfold upserts in Ho. rewrite map_app, app_assoc in Ho. simpl in Ho.
      rewrite last_from_snoc in Ho. injection Ho as <-. cbn [op_key fst]. destruct Hkx as [->|<-]; [|apply key_le_refl].
      destruct (gr_first _ _ _ _ _ _ _ Hg) as [Hk _]. simpl in Hk. rewrite Hk. eapply key_le_trans; [exact (so_key Hso)|exact Hlo]. }
  eapply Forall_impl; [|exact Hx]. intros e [He _]. eapply key_le_trans; eassumption.
Qed.

(** Of the leaves, only those in the place of old ones are pages of [D0]. *)
Lemma grown_old ns kx x : match ns ++ [(kx, x)] with c :: _ => fst c = page_key /\ (ox = None \/ lf_id (snd c) = page_id) | [] => True end ->
  (forall c, In c (new_ones (ns ++ [(kx, x)])) -> lf_id (snd c) ∉ D0) ->
  forall q, q ∈ D0 -> In q (map lf_id (A ++ map snd (ns ++ [(kx, x)]) ++ B)) -> In q (map lf_id old_leaves).
Proof.
  intros Hf Hnew q Hq Hin. unfold old_leaves, page_id, new_ones in *.
  rewrite (map_app _ A), (map_app _ _ B), !in_app_iff in Hin. rewrite !map_app, !in_app_iff.
  destruct Hin as [Hin|[Hin|Hin]]; [auto| |auto]. right. left. rewrite map_map in Hin. apply in_map_iff in Hin as (c & <- & Hc). destruct ox as [x0|].
  - destruct (ns ++ [(kx, x)]) as [|c0 l]; [destruct Hc|]. destruct Hf as [_ [Hf|Hf]]; [discriminate|].
    destruct Hc as [<-|Hc]; [left; auto|]. destruct (Hnew c Hc Hq).
  - destruct (Hnew c Hc Hq).
Qed.

Lemma after_nonempty b D os A' x B' : after_leaf b D os A' x B' -> lf_entries x <> [].
Proof.
  intros [_ Hc _ _ _ _]. destruct (chain_at _ _ _ _ _ _ Hc) as (p & _ & Hd & _). exact (data_page_nonempty _ _ Hd).
Qed.

(** Splitting the range of a leaf at a key between two parts of its entries. *)
Lemma split_range lo' k es l1 l2 : lf_entries l1 ++ lf_entries l2 = es -> Forall (fun e => in_range lo' hi (key_ e)) es ->
  Forall (fun e => key_ e <k k) (lf_entries l1) -> Forall (fun e => k <=k key_ e) (lf_entries l2) ->
  lf_entries l1 <> [] -> lf_entries l2 <> [] -> lo' <k k /\ below_bound hi k /\ leaf_within lo' k l1 /\ leaf_within k hi l2.
Proof.
  intros <- Hr H1 H2 N1 N2. apply Forall_app in Hr as [R1 R2]. split; [|split; [|split]].
  - destruct (lf_entries l1) as [|e l]; [congruence|]. apply Forall_cons_1 in R1 as [[R1 _] _]. apply Forall_cons_1 in H1 as [H1 _].
    eapply key_le_lt_trans; eassumption.
  - destruct (lf_entries l2) as [|e l]; [congruence|]. apply Forall_cons_1 in R2 as [[_ R2] _]. apply Forall_cons_1 in H2 as [H2 _].
    exact (below_bound_trans _ _ _ H2 R2).
  - unfold leaf_within. rewrite List.Forall_forall in *. intros e He. split; [apply R1, He|right; exact (H1 e He)].
  - unfold leaf_within. rewrite List.Forall_forall in *. intros e He. split; [exact (H2 e He)|apply R2, He].
Qed.

(** Every leaf has an entry. *)
Lemma grown_room (Hso : start_ok) b D os es ns kx x : grown b D os es ns kx x -> room opts D (N - zlen es).
Proof.
  intros [Haf Hes Hw Hsh Hf Hst HD Hnew Hfr Hap].
  apply (room_more opts D0 D (map (fun c => lf_id (snd c)) (new_ones (ns ++ [(kx, x)]))) N); [intros q; apply HD|exact (so_room Hso)|].
  assert (Hne : Forall (fun l => lf_entries l <> []) (map snd (ns ++ [(kx, x)]))).
  { apply List.Forall_forall. intros l Hl. destruct (seg_leaves _ _ _ _ _ l (ch_seg _ _ _ _ (af_chain _ _ _ _ _ _ _ Haf))) as (? & ? & (p & _ & Hp & _)).
    - rewrite map_app, in_app_iff in Hl. cbn [map snd In] in Hl. rewrite <- app_assoc, !in_app_iff. cbn [In]. tauto.
    - exact (data_page_nonempty _ _ Hp). }
  assert (Hlen : zlen (ns ++ [(kx, x)]) <= zlen es).
  { rewrite <- Hes. clear -Hne. induction (ns ++ [(kx, x)]) as [|c l IH]; [reflexivity|]. cbn [map] in *. apply Forall_cons_1 in Hne as [H1 H2].
    unfold leaf_entries in *. cbn [map concat]. rewrite zlen_app, zlen_cons. specialize (IH H2).
    destruct (lf_entries (snd c)); [congruence|]. rewrite zlen_cons. pose proof (zlen_nonneg l0). lia. }
  assert (Hno : zlen (new_ones (ns ++ [(kx, x)])) <= zlen (ns ++ [(kx, x)])).
  { unfold new_ones. destruct ox; [|lia]. destruct (ns ++ [(kx, x)]); cbn [tl]; [lia|]. rewrite zlen_cons. lia. }
  assert (Hm : zlen (map (fun c => lf_id (snd c)) (new_ones (ns ++ [(kx, x)]))) = zlen (new_ones (ns ++ [(kx, x)]))) by (unfold zlen; rewrite length_map; reflexivity).
  lia.
Qed.

Lemma grow_next (Hso : start_ok) b D os es ns kx x k page es2 : grown b D os es ns kx x ->
  data_page page es2 -> zlen page = data_page_size opts -> StronglySorted key_lt (map key_ (es ++ es2)) ->
  Forall (fun e => key_ e <k k) es -> Forall (fun e => k <=k key_ e) es2 -> Forall (fun e => in_range lo hi (key_ e)) es2 ->
  zlen k <= K -> Forall (fun e => zlen (key_ e) <= K) (es ++ es2) -> zlen (es ++ es2) <= N ->
  wp tp_fails (FinishDataPage opts hash b k MaxPageId page) (fun b' => exists D' k' x' n, grown b' D' os (es ++ es2) (ns ++ [(kx, x')]) k' n).
Proof.
  intros Hg Hd Hz Hs Hk1 Hk2 Hin Hk HK HN. pose proof (grown_room Hso b D os es ns kx x Hg) as Hroom. rewrite zlen_app in HN.
  assert (Hroom1 : room opts D 1) by (apply (room_entry _ _ Hroom page es2 Hd); lia). clear Hroom HN. pose proof (fun o => last_change_le Hso b D os es ns kx x o Hg) as Hlast.
  destruct Hg as [Haf Hes Hw Hsh Hf Hst HD Hnew Hfr Hap]. rewrite leaf_entries_snoc in Hes. rewrite <- Hes in *.
  rewrite <- app_assoc in *. destruct (sorted_app_inv _ _ Hs) as (_ & Hs2 & _). apply Forall_app in Hk1 as [_ Hk1].
  apply Forall_app in HK as [_ HK].
  eapply wp_mono; [apply (finish_insert opts hash Hopts b D os (A ++ map snd ns) x B _ rest k page es2 Haf Hst); auto|].
  { apply (links_to_applying b); [exact Hap|reflexivity|exact (so_links Hso)]. }
  intros b' (k' & x' & n & [Ln Lid Le Laf Lfr Lap Lb1 Lb2 Lkey] & Hst'). exists ({[lf_id n]} ∪ D), k', x', n.
  assert (N1 : lf_entries x <> []) by exact (after_nonempty _ _ _ _ _ _ Haf).
  assert (N2 : lf_entries n <> []) by exact (after_nonempty _ _ _ _ _ _ Laf).
  assert (N3 : lf_entries x' <> []).
  { destruct (seg_leaves _ _ _ _ _ x' (ch_seg _ _ _ _ (af_chain _ _ _ _ _ _ _ Laf))) as (? & ? & (p & _ & Hp & _)).
    - apply in_or_app. left. apply in_or_app. right. left. reflexivity.
    - exact (data_page_nonempty _ _ Hp). }
  assert (Hrange : forall lo', leaf_within lo' hi x -> Forall (fun e => in_range lo' hi (key_ e)) (lf_entries x ++ es2)).
  { intros lo' Hx. apply Forall_app_2; [exact Hx|]. destruct (sorted_app_inv _ _ Hs2) as (_ & _ & Hlt).
    unfold leaf_within in Hx. destruct (lf_entries x) as [|e0 l]; [congruence|]. apply Forall_cons_1 in Hx as [[Hx _] _].
    apply Forall_cons_1 in Hlt as [Hlt _]. rewrite List.Forall_forall in *. intros e He. split; [|apply Hin, He].
    apply key_lt_le. eapply key_le_lt_trans; [exact Hx|exact (Hlt e He)]. }
  assert (Hsplit : forall lo', leaf_within lo' hi x -> lo' <k k' /\ below_bound hi k' /\ leaf_within lo' k' x' /\ leaf_within k' hi n).
  { intros lo' Hx. exact (split_range lo' k' _ x' n Le (Hrange lo' Hx) Lb1 Lb2 N3 N2). }
  destruct (children_within_last _ _ _ _ _ _ Hw) as (lo' & Hx & _ & _). destruct (Hsplit lo' Hx) as (_ & Hb & _ & Hn).
  assert (Hids : map (fun c => lf_id (snd c)) (new_ones (ns ++ [(kx, x')])) = map (fun c => lf_id (snd c)) (new_ones (ns ++ [(kx, x)]))).
  { apply new_ones_replace. exact Lid. }
  assert (Hups : upserts (new_ones (ns ++ [(kx, x')])) = upserts (new_ones (ns ++ [(kx, x)]))).
  { apply new_ones_replace. cbn [fst snd]. rewrite Lid. reflexivity. }
  constructor; rewrite <- ?app_assoc; cbn [app]; rewrite ?new_ones_snoc.
  - rewrite map_app, app_assoc. exact Laf.
  - rewrite map_app, leaf_entries_app. cbn [map snd]. unfold leaf_entries at 2. cbn [map concat]. rewrite app_nil_r, Le. reflexivity.
  - apply (children_within_extend leaf_within lo hi ns kx x x' k' n Hw); [|exact Hb|exact Hn]. intros lo1 Hx1. destruct (Hsplit lo1 Hx1) as (? & _ & ? & _). auto.
  - apply Forall_app in Hsh as [Hsh Hsh1]. apply Forall_app_2; [exact Hsh|]. apply Forall_cons_1 in Hsh1 as [Hsh1 _].
    constructor; [exact Hsh1|constructor; [|constructor]]. cbn [fst]. destruct Lkey as [->|(e & He & ->)]; [exact Hk|].
    rewrite <- Le in HK. apply Forall_app in HK as [_ HK]. rewrite List.Forall_forall in HK. exact (HK e He).
  - destruct ns; simpl in *; [|exact Hf]. destruct Hf as [Hf1 Hf2]. split; [exact Hf1|]. rewrite Lid. exact Hf2.
  - rewrite Hst', upserts_app, Hups, app_assoc. reflexivity.
  - intros q. rewrite map_app, in_app_iff, Hids. cbn [map snd In]. rewrite elem_of_union, elem_of_singleton, HD. intuition congruence.
  - intros c Hc. apply in_app_iff in Hc as [Hc|[<-|[]]].
    + assert (Hc' : In (lf_id (snd c)) (map (fun c => lf_id (snd c)) (new_ones (ns ++ [(kx, x)])))) by (rewrite <- Hids; apply (in_map (fun c => lf_id (snd c))), Hc).
      apply in_map_iff in Hc' as (c' & <- & Hc'). exact (Hnew c' Hc').
    + intros HnD. apply Ln, HD. left. exact HnD.
  - eapply task_frame_trans; [| |exact Hfr|exact Lfr].
    + intros q Hq. apply HD. left. exact Hq.
    + intros q Hq Hin'. apply (grown_old _ _ _ Hf Hnew q Hq). rewrite (map_app snd ns). rewrite <- app_assoc in *. exact Hin'.
  - congruence.
Qed.

(** ** The pages of a merge *)
Definition call_entries (c : bytes * Z * bytes) : list Entry := default [] (page_entries (snd c)).
Definition calls_entries (calls : list (bytes * Z * bytes)) : list Entry := concat (map call_entries calls).

(** The pages that a merge gives to the task in turn. *)
Record valid_calls (calls : list (bytes * Z * bytes)) : Prop := {
  vc_pages : Forall (fun c => data_page (snd c) (call_entries c) /\ zlen (snd c) = data_page_size opts) calls;
  vc_sorted : StronglySorted key_lt (map key_ (calls_entries calls));
  vc_range : Forall (fun e => in_range lo hi (key_ e)) (calls_entries calls);
  vc_short : Forall (fun e => zlen (key_ e) <= K) (calls_entries calls);
  vc_few : zlen (calls_entries calls) <= N;
  vc_keys : forall pre c suf, calls = pre ++ c :: suf ->
    Forall (fun e => fst (fst c) <=k key_ e) (call_entries c) /\ zlen (fst (fst c)) <= K /\
    (pre = [] -> fst c = (page_key, page_id)) /\
    (pre <> [] -> snd (fst c) = MaxPageId /\ Forall (fun e => key_ e <k fst (fst c)) (calls_entries pre))
}.

Lemma calls_entries_snoc calls c : calls_entries (calls ++ [c]) = calls_entries calls ++ call_entries c.
Proof. unfold calls_entries. rewrite map_app, concat_app. simpl. rewrite app_nil_r. reflexivity. Qed.

Lemma valid_prefix calls c : valid_calls (calls ++ [c]) -> valid_calls calls.
Proof.
  intros [H1 H2 H3 H4 HN H5]. rewrite calls_entries_snoc in *. apply Forall_app in H1 as [H1 _]. apply Forall_app in H3 as [H3 _].
  apply Forall_app in H4 as [H4 _]. constructor; auto.
  - apply sorted_app_inv in H2. apply H2.
  - rewrite zlen_app in HN. pose proof (zlen_nonneg (call_entries c)). lia.
  - intros pre c' suf ->. apply (H5 pre c' (suf ++ [c])). rewrite <- app_assoc. reflexivity.
Qed.

(** What the task has done with the pages so far. *)
Definition done_calls (b : Batch) (calls : list (bytes * Z * bytes)) (os : list Outside) : Prop :=
  match calls with
  | [] => started b os
  | _ => exists D ns kx x, grown b D os (calls_entries calls) ns kx x
  end.

Definition merge_owns (w : Watched Batch) (os : list Outside) : Prop :=
  valid_calls (w_calls w) -> match w_task w with Some b => done_calls b (w_calls w) os | None => tp_fails end.

(** An operation on the outside values. *)
Lemma done_store b calls os os' s' : done_calls b calls os -> (forall D, tp_inv (bt_store b) D os -> tp_inv s' D os' /\
    forall q, q ∈ D -> tp_page s' q = tp_page (bt_store b) q) -> done_calls (with_store b s') calls os'.
Proof.
  intros Hd Hs. destruct calls as [|c calls].
  - destruct Hd as [Hl Hf Hst Hap]. destruct ox as [x|] eqn:Ex.
    + destruct (Hs D0 (ti_store _ _ _ _ (al_inv _ _ _ _ _ _ _ Hl))) as [Hi Hq]. constructor; rewrite ?Ex; auto.
      * apply (at_leaf_store b s' D0 os os'); assumption.
      * eapply task_frame_trans; [| |exact Hf|exact (frame_store D0 old_leaves b s' Hq)]; auto.
    + destruct Hl as (Hinv & Ht). destruct (Hs D0 (ti_store _ _ _ _ Hinv)) as [Hi Hq]. constructor; rewrite ?Ex; auto.
      * split; [|exact Ht]. destruct Hinv as [_ I2 I3]. constructor; assumption.
      * eapply task_frame_trans; [| |exact Hf|exact (frame_store D0 old_leaves b s' Hq)]; auto.
  - destruct Hd as (D & ns & kx & x & [Haf Hes Hw Hsh Hfi Hst HD Hnew Hfr Hap]). exists D, ns, kx, x.
    destruct (Hs D (ti_store _ _ _ _ (af_inv _ _ _ _ _ _ _ Haf))) as [Hi Hq]. constructor; auto.
    + apply (after_leaf_store b s' D os os'); assumption.
    + eapply task_frame_trans; [| |exact Hfr|apply (frame_store D0 old_leaves b s')]; auto.
      intros q HqD. apply Hq, HD. left. exact HqD.
Qed.

Lemma done_finish (Hso : start_ok) b calls os key id page : valid_calls (calls ++ [(key, id, page)]) -> done_calls b calls os ->
  wp tp_fails (FinishDataPage opts hash b key id page) (fun b' => done_calls b' (calls ++ [(key, id, page)]) os).
Proof.
  intros [H1 H2 H3 H4 HN H5] Hd. rewrite calls_entries_snoc in *. apply Forall_app in H1 as [_ H1]. apply Forall_cons_1 in H1 as [[H1 Hz] _].
  apply Forall_app in H3 as [_ H3]. destruct (H5 calls (key, id, page) [] eq_refl) as (Hk & Hs & Hfirst & Hnext). cbn [fst snd] in *.
  destruct calls as [|c calls].
  - injection (Hfirst eq_refl) as -> ->. eapply wp_mono; [exact (grow_first Hso b os page _ Hd H1 Hz H3 HN)|].
    intros b' (D & x & Hg). exists D, [], page_key, x. rewrite calls_entries_snoc. exact Hg.
  - destruct (Hnext ltac:(discriminate)) as [-> Hlt]. destruct Hd as (D & ns & kx & x & Hg).
    eapply wp_mono; [exact (grow_next Hso b D os _ ns kx x key page _ Hg H1 Hz H2 Hlt Hk H3 Hs H4 HN)|].
    intros b' (D' & k' & x' & n & Hg'). cbn [app done_calls].
    change (c :: calls ++ [(key, MaxPageId, page)]) with ((c :: calls) ++ [(key, MaxPageId, page)]). rewrite calls_entries_snoc. eauto.
Qed.

Lemma done_perm b calls os os' : os ≡ₚ os' -> done_calls b calls os -> done_calls b calls os'.
Proof.
  intros Hp Hd. destruct b as [s st ap t0 t1 t2].
  apply (done_store (mkBatch s st ap t0 t1 t2) calls os os' s Hd). intros D Hi. split; [exact (tp_inv_perm _ _ _ _ Hp Hi)|auto].
Qed.

  Context (Hptrs : 0 <= overflow_pointers opts).
  Local Abbreviation batch_task := (BatchPageTask opts hash).

Lemma done_op {X} b calls os (os' : X -> list Outside) (r : option X) (st : X -> S) : done_calls b calls os ->
  (forall D, tp_inv (bt_store b) D os -> wp tp_fails r (fun x => tp_inv (st x) D (os' x) /\ forall q, q ∈ D -> tp_page (st x) q = tp_page (bt_store b) q)) ->
  wp tp_fails r (fun x => done_calls (with_store b (st x)) calls (os' x)).
Proof.
  intros Hd Hr. destruct r as [x|].
  - apply (done_store b calls os (os' x) (st x) Hd). exact Hr.
  - cbn [wp] in *. destruct calls.
    + destruct Hd as [Hl _ _ _]. destruct ox; [exact (Hr _ (ti_store _ _ _ _ (al_inv _ _ _ _ _ _ _ Hl)))|exact (Hr _ (ti_store _ _ _ _ (proj1 Hl)))].
    + destruct Hd as (D & ns & kx & y & Hg). exact (Hr _ (ti_store _ _ _ _ (af_inv _ _ _ _ _ _ _ (gr_after _ _ _ _ _ _ _ Hg)))).
Qed.

(** The merge may run on the watched task. *)
Definition merge_laws (Hso : start_ok) : PageTaskLaws (H := @watched_task Batch batch_task) (Watched Batch) opts.
Proof.
  refine (@Build_PageTaskLaws _ _ _ merge_owns _ _ _ _ _ _).
  - intros w os os' Hp Ho Hv. specialize (Ho Hv). destruct (w_task w); [|exact Ho]. exact (done_perm _ _ _ _ Hp Ho).
  - intros w os v Ho. cbn. assert (Hpos : 0 <= 4 * overflow_pointers opts) by lia.
    destruct (w_task w) as [b|] eqn:Eb; cbn.
    2: { eexists _, _. split; [reflexivity|]. split; [exact Hpos|]. intros Hv. specialize (Ho Hv). rewrite Eb in Ho. exact Ho. }
    assert (Hop : valid_calls (w_calls w) -> wp tp_fails (tp_write_overflow (bt_store b) v) (fun r =>
      done_calls (with_store b (snd r)) (w_calls w) (OutOverflow (fst r) v :: os))).
    { intros Hv. specialize (Ho Hv). rewrite Eb in Ho. apply (done_op b _ os _ _ _ Ho). intros D Hi.
      eapply wp_mono; [exact (tp_write_overflow_ok _ _ _ v Hi)|]. intros [p s'] Hs. exact Hs. }
    pose proof (tp_overflow_size (bt_store b) v) as Hsz. destruct (tp_write_overflow (bt_store b) v) as [[ptrs s']|]; cbn in *.
    + eexists _, _. split; [reflexivity|]. split; [exact (Hsz _ _ eq_refl)|exact Hop].
    + eexists _, _. split; [reflexivity|]. split; [exact Hpos|exact Hop].
  - intros w os ptrs v Ho. eexists. split; [reflexivity|]. intros Hv. specialize (Ho Hv). cbn in *. destruct (w_task w) as [b|]; [|exact Ho]. cbn.
    pose proof (done_op b _ _ (fun _ => os) (tp_del_overflow (bt_store b) ptrs) (fun s => s) Ho (fun D Hi => tp_del_overflow_ok _ _ _ _ _ Hi)) as Hop.
    destruct (tp_del_overflow (bt_store b) ptrs); exact Hop.
  - intros w os c v Ho Hl. cbn. destruct (w_task w) as [b|] eqn:Eb; cbn.
    2: { eexists _, _. split; [reflexivity|]. intros Hv. specialize (Ho Hv). rewrite Eb in Ho. exact Ho. }
    assert (Hop : valid_calls (w_calls w) -> wp tp_fails (tp_write_large (bt_store b) c) (fun r =>
      done_calls (with_store b (snd r)) (w_calls w) (OutLarge (fst r) v :: os))).
    { intros Hv. specialize (Ho Hv). rewrite Eb in Ho. apply (done_op b _ os _ _ _ Ho). intros D Hi.
      eapply wp_mono; [exact (tp_write_large_ok _ _ _ c v Hi Hl)|]. intros [p s'] Hs. exact Hs. }
    destruct (tp_write_large (bt_store b) c) as [[content s']|]; cbn in *; eexists _, _; (split; [reflexivity|exact Hop]).
  - intros w os content v Ho. eexists. split; [reflexivity|]. intros Hv. specialize (Ho Hv). cbn in *. destruct (w_task w) as [b|]; [|exact Ho]. cbn.
    pose proof (done_op b _ _ (fun _ => os) (tp_del_large (bt_store b) content) (fun s => s) Ho (fun D Hi => tp_del_large_ok _ _ _ _ _ Hi)) as Hop.
    destruct (tp_del_large (bt_store b) content); exact Hop.
  - intros w os key id page Ho. eexists. split; [reflexivity|]. intros Hv. cbn in *. specialize (Ho (valid_prefix _ _ Hv)).
    destruct (w_task w) as [b|]; [|exact Ho]. exact (done_finish Hso b _ os key id page Hv Ho).
Defined.

(** ** From the pages of ApplySpec to calls *)
Lemma separated_before ppre p psuf : separated (ppre ++ p :: psuf) -> keys_sorted (map a_key (placed_args (ppre ++ p :: psuf))) ->
  Forall (fun p => pl_args p <> []) (ppre ++ p :: psuf) -> ppre <> [] ->
  pl_id p = MaxPageId /\ Forall (fun a => a_key a <k pl_key p) (placed_args ppre).
Proof.
  intros Hs Hk Hf Hne. destruct (exists_last Hne) as (ppre' & q & ->). rewrite <- app_assoc in Hs, Hk, Hf. cbn [app] in *.
  assert (Hq : pl_id p = MaxPageId /\ Forall (fun a => a_key a <k pl_key p) (pl_args q)).
  { clear Hk Hf Hne. induction ppre' as [|x ppre' IH]; [apply Hs|]. apply IH.
    cbn [app] in Hs. destruct ppre'; cbn [app] in *; [exact (proj2 Hs)|exact (proj2 Hs)]. }
  destruct Hq as [Hid Hq]. split; [exact Hid|]. rewrite placed_args_snoc. apply Forall_app_2; [|exact Hq].
  apply Forall_app in Hf as [_ Hf]. apply Forall_cons_1 in Hf as [Hf _]. unfold placed_args in Hk. rewrite map_app, concat_app in Hk.
  fold (placed_args ppre') in Hk. cbn [map concat] in Hk. destruct (pl_args q) as [|a l]; [congruence|]. apply Forall_cons_1 in Hq as [Hq _].
  rewrite map_app in Hk. apply StronglySorted_app in Hk as (Hk & _). apply list.Forall_forall. intros x Hx. eapply key_lt_trans; [|exact Hq].
  apply Hk; [apply list_elem_of_fmap_2, Hx|]. apply list_elem_of_fmap. exists a. split; [reflexivity|constructor].
Qed.

Definition call_of (p : Placed) (r : bytes * Z * bytes) : Prop :=
  fst r = (pl_key p, pl_id p) /\ data_page (snd r) (map stored_entry (pl_args p)) /\ zlen (snd r) = data_page_size opts /\
  call_entries r = map stored_entry (pl_args p).

Lemma page_of_call p r : page_of opts p r -> Forall wf_args (pl_args p) -> keys_sorted (map a_key (pl_args p)) -> pl_args p <> [] ->
  call_of p r.
Proof.
  intros (bd & Hb & ->) Hw Hs Hne. pose proof (built_data_page opts _ _ Hopts Hw Hne Hb Hs) as Hd. unfold built_page in Hd. cbn [fst snd].
  split; [reflexivity|]. split; [exact Hd|]. split.
  - destruct (add_all_inv opts _ [] [] Reset bd Hopts (Reset_inv opts Hopts) Hw Hb) as (init & lastr & Hinv & _ & _).
    pose proof (Finish_format opts init lastr bd Hopts Hinv) as HF. destruct (Finish opts bd) as [page b']. apply HF.
  - unfold call_entries. cbn [snd]. rewrite (data_page_entries _ _ Hd). reflexivity.
Qed.

Lemma pages_calls pages calls : Forall2 (page_of opts) pages calls -> Forall (fun p => pl_args p <> []) pages ->
  Forall wf_args (placed_args pages) -> keys_sorted (map a_key (placed_args pages)) -> Forall2 call_of pages calls.
Proof.
  induction 1 as [|p r pages calls Hp _ IH]; intros H7 H8 H9; constructor; unfold placed_args in *; cbn [map concat] in *;
    apply Forall_cons_1 in H7 as [H7 H7']; apply Forall_app in H8 as [H8 H8']; rewrite map_app in H9;
    apply StronglySorted_app in H9 as (_ & H9 & H9'); [exact (page_of_call p r Hp H8 H9 H7)|exact (IH H7' H8' H9')].
Qed.

Lemma call_of_entries pages calls : Forall2 call_of pages calls -> calls_entries calls = map stored_entry (placed_args pages).
Proof.
  induction 1 as [|p r ps' cs (_ & _ & _ & He) _ IH]; [reflexivity|]. unfold calls_entries, placed_args in *. cbn [map concat].
  rewrite IH, He, map_app. reflexivity.
Qed.

Lemma held_valid pages calls ps : pages_hold opts page_key page_id pages calls ps -> zlen page_key <= K ->
  Forall (fun p => in_range lo hi (a_key (fst p)) /\ zlen (a_key (fst p)) <= K) ps -> zlen ps <= N ->
  valid_calls calls /\ calls_entries calls = map stored_entry (map fst ps).
Proof.
  intros [H1 H2 H3 H4 H5 H6 H7 H8 H9] HK Hps HN. pose proof (pages_calls pages calls H1 H7 H8 H9) as Hall.
  pose proof call_of_entries as Hent.
  assert (Hes : calls_entries calls = map stored_entry (map fst ps)) by (rewrite (Hent _ _ Hall), H2; reflexivity).
  split; [|exact Hes]. constructor.
  - clear -Hall. induction Hall as [|p r ps' cs (_ & Hd & Hz & He) _ IH]; constructor; [rewrite He; auto|exact IH].
  - rewrite (Hent _ _ Hall), map_map. exact H9.
  - rewrite Hes, map_map. apply List.Forall_map. eapply Forall_impl; [|exact Hps]. intros p [Hp _]. exact Hp.
  - rewrite Hes, map_map. apply List.Forall_map. eapply Forall_impl; [|exact Hps]. intros p [_ Hp]. exact Hp.
  - rewrite Hes. unfold zlen. rewrite !length_map. exact HN.
  - intros pre c suf ->. apply Forall2_app_inv_r in Hall as (ppre & ps' & Hpre & Hc & ->). inversion Hc as [|p ? psuf ? (Hf & Hd & Hz & He) Hsuf]; subst.
    rewrite Hf, He, (Hent _ _ Hpre). cbn [fst snd]. apply Forall_app in H5 as [_ H5]. apply Forall_cons_1 in H5 as [H5 _].
    split; [apply List.Forall_map; exact H5|]. split; [|split].
    + apply Forall_app in H6 as [_ H6]. apply Forall_cons_1 in H6 as [[H6|(a & Ha & Hl)] _]; [rewrite H6; exact HK|].
      assert (Hin : a ∈ map fst ps).
      { rewrite <- H2. unfold placed_args. rewrite map_app, concat_app. apply elem_of_app. right. cbn [map concat]. apply elem_of_app. left. exact Ha. }
      apply list_elem_of_fmap in Hin as (p' & -> & Hp'). rewrite list.Forall_forall in Hps. destruct (Hps p' Hp'). lia.
    + intros ->. inversion Hpre; subst. destruct H3 as [H3|[H3 H3']]; [discriminate|]. cbn in H3, H3'. congruence.
    + intros Hne. assert (Hpne : ppre <> []) by (intros ->; inversion Hpre; subst; contradiction).
      destruct (separated_before ppre p psuf H4 H9 H7 Hpne) as [Hid Hlt]. split; [exact Hid|]. apply List.Forall_map. exact Hlt.
Qed.

  Context (enable_compression : bool) (compress_raw : bytes -> option bytes) (dict : option (bytes -> option bytes)) (now_ms : Z).
  Context (old : Entry -> bytes).

  Local Abbreviation stored_as := (ApplySpec.stored enable_compression compress_raw dict old).

Lemma change_ok_watched w : change_ok (H := batch_task) opts page_key w ->
  change_ok (H := @watched_task Batch batch_task) opts page_key w.
Proof.
  intros [H1 H2 H3 H4 H5 H6]. constructor; auto. intros t content t'. cbn. unfold watch.
  destruct (w_task t) as [b|]; cbn; [|intros [= <- _]; apply H5; change (zlen []) with 0; lia].
  pose proof (H6 b) as H7. cbn in H7. destruct (tp_write_large (bt_store b) w) as [[c s']|]; cbn in *.
  - intros [= <- _]. exact (H7 _ _ eq_refl).
  - intros [= <- _]. apply H5. change (zlen []) with 0. lia.
Qed.

Lemma stored_key i p : stored_as i p -> a_key (fst p) = item_key i.
Proof. destruct i as [e|w]; [intros ->; reflexivity|intros [Hk _]; exact Hk]. Qed.

(** Everything that is said of the keys of the leaf and of the changes holds of the merged items. *)
Lemma items_keys (P : bytes -> Prop) base changes ps : keys_sorted (map key_ base) -> keys_sorted (map w_key changes) ->
  Forall (fun e => P (key_ e)) base -> Forall (fun w => P (w_key w)) changes ->
  Forall2 stored_as (merge_items now_ms base changes) ps -> Forall (fun p => P (a_key (fst p))) ps.
Proof.
  intros Hsb Hsc Hb Hc Hst. destruct (merge_items_ok now_ms base changes Hsb Hsc) as [_ Hin].
  assert (Hi : Forall (fun i => P (item_key i)) (merge_items now_ms base changes)).
  { apply list.Forall_forall. intros i Hi. apply Hin in Hi. pose proof (survives_key _ _ _ _ Hi) as Hk.
    rewrite list.Forall_forall in Hb. rewrite list.Forall_forall in Hc. destruct Hk as [Hk|Hk]; apply list_elem_of_fmap in Hk as (y & -> & Hy); auto. }
  clear -Hst Hi. induction Hst as [|i p is0 ps Hp _ IH]; constructor; apply Forall_cons_1 in Hi as [Hi His];
    [rewrite (stored_key i p Hp); exact Hi|exact (IH His)].
Qed.

Lemma stored_count items ps : Forall2 stored_as items ps -> zlen items = zlen ps.
Proof. intros Hst. unfold zlen. f_equal. exact (Forall2_length Hst). Qed.

Lemma merge_leaf (Hso : start_ok) ttl base batch F :
  let changes := page_changes hi batch in
  let items := merge_items now_ms base changes in
  started b0 (base_outs old base ++ F) -> Forall (base_ok opts page_key) base ->
  Forall (change_ok (H := batch_task) opts page_key) changes -> deletes_ok base changes ->
  keys_sorted (map key_ base) -> keys_sorted (map w_key changes) ->
  Forall (fun e => in_range lo hi (key_ e) /\ zlen (key_ e) <= K) base ->
  Forall (fun w => in_range lo hi (w_key w) /\ zlen (w_key w) <= K) changes -> zlen base + zlen changes <= N ->
  wp tp_fails (ApplyOnePage opts enable_compression compress_raw dict now_ms (H := batch_task) b0 ttl page_key page_id base hi batch)
    (fun '(a, empty, n) => n = zlen changes /\ empty = is_nil items /\ ap_ttl a = ttl_all ttl (merge_ttl now_ms base changes) /\
      exists ps, Forall2 stored_as items ps /\
        if is_nil items then started (ap_task a) F /\ ap_page_key a = page_key /\ ap_page_id a = page_id
        else exists D ns kx x, grown (ap_task a) D (outs ps ++ F) (map stored_entry (map fst ps)) ns kx x).
Proof.
  intros changes items Hst Hb Hc Hd Hsb Hsc Hrb Hrc HN.
  destruct (ApplyOnePage_ok (H := @watched_task Batch batch_task) opts now_ms page_key page_id Hopts enable_compression compress_raw dict old
    (PageTaskLaws0 := merge_laws Hso) (mkWatched (Some b0) []) ttl base hi batch F Hb) as (s' & ps & pages & Hap & Hsto & Hph & Ho & Httl & Hkey).
  - eapply Forall_impl; [|exact Hc]. intros w. apply change_ok_watched.
  - exact Hd.
  - exact Hsb.
  - exact Hsc.
  - intros _. exact Hst.
  - fold changes items in Hap, Hsto, Httl. destruct (ApplyOnePage_follows _ _ _ _ _ _ _ _ _ _ _ _ _ _ _ Hap) as [Hrun Hcalls].
    pose proof (items_keys (fun k => in_range lo hi k /\ zlen k <= K) base changes ps Hsb Hsc Hrb Hrc Hsto) as Hps.
    assert (HNp : zlen ps <= N) by (rewrite <- (stored_count _ _ Hsto); pose proof (merge_items_count now_ms base changes); unfold items; lia).
    destruct (held_valid pages (ap_pages s') ps Hph (so_short Hso) Hps HNp) as [Hv Hes]. rewrite <- Hcalls in Hv, Hes.
    specialize (Ho Hv). rewrite Hrun. unfold erase. destruct (w_task (ap_task s')) as [b|]; [|exact Ho].
    cbn [mbind option_bind wp ap_ttl ap_task put ap_page_key ap_page_id]. split; [reflexivity|]. split; [reflexivity|]. split; [exact Httl|].
    exists ps. split; [exact Hsto|]. destruct items as [|i items]; cbn [is_nil].
    + inversion Hsto; subst ps. split; [|exact (Hkey eq_refl)].
      assert (Hnil : w_calls (ap_task s') = []).
      { rewrite Hcalls. destruct Hph as [H1 H2 _ _ _ _ H7 _ _]. destruct pages as [|p pages]; [inversion H1; reflexivity|].
        apply Forall_cons_1 in H7 as [H7 _]. unfold placed_args in H2. cbn in H2. apply app_eq_nil in H2 as [H2 _]. contradiction. }
      rewrite Hnil in Ho. exact Ho.
    + inversion Hsto as [|? p ? ps' Hp Hps']; subst. rewrite <- Hes. destruct (w_calls (ap_task s')) as [|c calls] eqn:Ec; [|exact Ho].
      discriminate Hes.
Qed.

(** ** The outcome for the leaf *)
Definition leaf_changes (ns : list (bytes * Leaf)) : list IndexOp :=
  match ox, ns with
  | Some x, [] => [mkIndexOp page_key (lf_id x) Delete]
  | _, _ => upserts (new_ones ns)
  end.

(** The leaf gave way to the leaves [ns] with the entries [es]. *)
Record leaf_done (b' : Batch) (D' : gset Z) (os : list Outside) (es : list Entry) (ns : list (bytes * Leaf)) : Prop := {
  lv_between : between_leaves opts b' D' os (A ++ map snd ns) B;
  lv_entries : leaf_entries (map snd ns) = es;
  lv_within : children_within leaf_within lo hi ns;
  lv_short : Forall (fun c => zlen (fst c) <= K) ns;
  lv_first : match ns with c :: _ => fst c = page_key /\ (ox = None \/ lf_id (snd c) = page_id) | [] => True end;
  lv_stack : stack_ b' = with_changes top (se_changes top ++ leaf_changes ns) :: rest;
  lv_held : forall q, q ∈ D' <-> (q ∈ D0 /\ forall x, ox = Some x -> ns = [] -> q <> lf_id x) \/
                              In q (map (fun c => lf_id (snd c)) (new_ones ns));
  lv_new : forall c, In c (new_ones ns) -> lf_id (snd c) ∉ D0;
  lv_frame : forall q, q ∈ D0 -> ~ In q (map lf_id old_leaves) -> same_page (eff b0) (eff b') q
}.

(** The rest of [ApplyToLeaf] after the merge. *)
Definition leave_leaf (b : Batch) (empty : bool) (op : IndexOp) : option Batch :=
  b ← (if empty && negb (page_id =? MaxPageId) then
         b ← LeafLinkDelete b; '(id, _) ← applying_page_ b; b ← FreePage b id; push_change b op
       else Some b);
  match triple1 b with Some _ => None | None => Some (with_triple b (triple0 b) (triple2 b) None) end.

Lemma leave_grown b D os es ns kx x op : grown b D os es ns kx x ->
  wp tp_fails (leave_leaf b false op) (fun b' => leaf_done b' D os es (ns ++ [(kx, x)])).
Proof.
  intros [Haf Hes Hw Hsh Hfi Hst HD Hnew Hfr Hap]. unfold leave_leaf. cbn [andb mbind option_bind].
  rewrite (af_t1 _ _ _ _ _ _ _ Haf). cbn [wp]. constructor; auto.
  - rewrite map_app, app_assoc. exact (after_between opts b D os _ x B Haf).
  - cbn [stack_ with_triple]. rewrite Hst. unfold leaf_changes. destruct ox; [|reflexivity]. destruct ns; reflexivity.
  - intros q. rewrite HD. split; [|tauto]. intros [Hq|Hq]; [left; split; [exact Hq|]|auto]. intros y _ Hn. destruct ns; discriminate Hn.
  - intros q Hq Hn. eapply same_page_trans; [exact (fr_pages _ _ _ _ _ Hfr q Hq Hn)|]. apply same_page_eq.
    unfold TaskSpec.eff. cbn [triple0 triple1 triple2 with_triple bt_store]. rewrite (af_t1 _ _ _ _ _ _ _ Haf). reflexivity.
Qed.

Lemma leave_empty (Hso : start_ok) b os op : started b os -> op = mkIndexOp page_key page_id Delete ->
  wp tp_fails (leave_leaf b true op) (fun b' => exists D, leaf_done b' D os [] []).
Proof.
  intros [Hl Hfr Hst Hap] ->. unfold leave_leaf. destruct Hso as [Hs0 Hptr Hln Hpk Hsh Hlast Hemp _]. unfold page_id. destruct ox as [x|] eqn:Ex.
  - assert (Hx : lf_id x <> MaxPageId).
    { destruct Hl as [_ Hc _ _ _ _ _]. pose proof (ch_range _ _ _ _ Hc x ltac:(apply in_middle; auto)). unfold MaxPageId. lia. }
    rewrite (proj2 (Z.eqb_neq _ _) Hx). cbn [negb andb].
    eapply wp_bind_mono; [apply (delete_leaf opts hash b D0 os A x B top rest _ Hl); [congruence|exact Hlast]|].
    intros b1 (H1 & Hbl & Hfr' & Hst' & Hap'). rewrite H1. cbn [wp]. exists (D0 ∖ {[lf_id x]}).
    constructor; unfold new_ones, leaf_changes; rewrite ?Ex; cbn [map tl snd app]; auto.
    + rewrite app_nil_r. exact Hbl.
    + exact I.
    + intros q. rewrite elem_of_difference, elem_of_singleton. split.
      * intros [Hq Hne]. left. split; [exact Hq|]. intros y [= <-] _. exact Hne.
      * intros [[Hq Hne]|[]]. split; [exact Hq|]. exact (Hne x eq_refl eq_refl).
    + intros q Hq Hn. eapply same_page_trans; [exact (fr_pages _ _ _ _ _ Hfr q Hq Hn)|].
      apply (fr_pages _ _ _ _ _ Hfr'); [|unfold old_leaves in Hn; rewrite Ex in Hn; exact Hn].
      apply elem_of_difference. rewrite elem_of_singleton. split; [exact Hq|]. intros ->. apply Hn. unfold old_leaves. rewrite Ex, map_app.
      apply in_or_app. right. left. reflexivity.
  - rewrite Z.eqb_refl. cbn [negb andb mbind option_bind]. destruct Hl as (Hinv & T0 & T1 & T2). rewrite T1. cbn [wp].
    destruct (Hemp eq_refl) as (HA & HB & Hch). exists D0.
    assert (Hid : triple_ids (with_triple b (triple0 b) (triple2 b) None) = []) by (unfold triple_ids; cbn; rewrite T0, T2; reflexivity).
    constructor; unfold new_ones, leaf_changes; rewrite ?Ex, ?HA, ?HB; cbn [map tl snd app]; auto.
    + constructor; cbn; auto; [|constructor; simpl; auto; try (intros ? []); constructor|left; exact T0|intros ? []].
      destruct Hinv as [I1 I2 I3]. constructor; [exact I1| |]; rewrite Hid; [constructor|intros ? []].
    + exact I.
    + cbn [stack_ with_triple]. rewrite Hst, Hs0, Hch. unfold new_ones. rewrite Ex. destruct top. cbn in Hch |- *. subst. reflexivity.
    + intros q. split; [|intros [[Hq _]|[]]; exact Hq]. intros Hq. left. split; [exact Hq|]. intros y [=].
    + intros q Hq Hn. eapply same_page_trans; [exact (fr_pages _ _ _ _ _ Hfr q Hq Hn)|]. apply same_page_eq.
      unfold TaskSpec.eff. cbn. rewrite T1, T2. reflexivity.
Qed.

(** ** The whole of [ApplyToLeaf] *)

(** What the leaf holds and the bounds the stack gives it. *)
Definition leaf_bounds (base : list Entry) : Prop :=
  match ox with
  | Some x => lf_entries x = base /\ LeftBound (stack_ b0) true = lo /\ RightBound (stack_ b0) true = Some hi /\ (hi = [] \/ lo <k hi)
  | None => base = [] /\ lo = [] /\ hi = []
  end.

Lemma current_leaf_spec (Hso : start_ok) os base : started b0 os -> leaf_bounds base ->
  current_leaf b0 top = Some (base, lo, hi) /\ (hi = [] \/ lo <k hi) /\
  Forall (fun e => wf_entry e /\ fits opts (entry_args e)) base /\ keys_sorted (map key_ base).
Proof.
  intros [Hl _ _ _] Hb. unfold current_leaf, leaf_bounds in *. rewrite (so_pointer Hso). cbn [i_page_id]. unfold page_id.
  destruct ox as [x|].
  - destruct Hl as [_ Hc (oldp & Ha) _ _ _ _]. destruct Hb as (<- & Hlo & Hhi & Hlt).
    pose proof (ch_range _ _ _ _ Hc x ltac:(apply in_middle; auto)) as Hr.
    rewrite (proj2 (Z.eqb_neq (lf_id x) MaxPageId)) by (unfold MaxPageId; lia). rewrite Ha. cbn [mbind option_bind].
    rewrite Z.eqb_refl. cbn [negb]. destruct (chain_at _ _ _ _ _ _ Hc) as (p & Hp & Hd & Hz & _).
    rewrite Ha, over_here in Hp. injection Hp as <-. pose proof (data_page_entries _ _ Hd) as Hpe. unfold page_entries in Hpe.
    destruct (page_view oldp) as [v|]; [|discriminate]. cbn [mbind option_bind] in *. rewrite Hpe. cbn [mbind option_bind].
    rewrite Hhi. cbn [mbind option_bind]. rewrite Hlo. split; [reflexivity|]. split; [exact Hlt|].
    split; [exact (data_page_fit opts _ _ Hopts Hd Hz)|apply Hd].
  - destruct Hb as (-> & -> & ->). rewrite Z.eqb_refl. split; [reflexivity|]. split; [auto|]. split; constructor.
Qed.

Lemma ApplyToLeaf_spec (Hso : start_ok) ttl base w batch F :
  let changes := page_changes hi (w :: batch) in
  let items := merge_items now_ms base changes in
  started b0 (base_outs old base ++ F) -> leaf_bounds base -> in_range lo hi (w_key w) ->
  Forall (fun e => in_range lo hi (key_ e) /\ zlen (key_ e) <= K) base -> Forall (fun e => 0 < zlen (key_ e)) base ->
  Forall (change_ok (H := batch_task) opts page_key) changes -> deletes_ok base changes -> keys_sorted (map w_key changes) ->
  Forall (fun w => in_range lo hi (w_key w) /\ zlen (w_key w) <= K) changes -> zlen base + zlen changes <= N ->
  wp tp_fails (ApplyToLeaf opts hash enable_compression compress_raw dict now_ms b0 ttl (w :: batch)) (fun '(b', ttl', todo) =>
    ttl' = ttl_all ttl (merge_ttl now_ms base changes) /\ todo = drop (length changes) (w :: batch) /\
    exists ps D' ns, Forall2 stored_as items ps /\ leaf_done b' D' (outs ps ++ F) (map stored_entry (map fst ps)) ns).
Proof.
  intros changes items Hst Hlb Hw Hrb Hpos Hc Hd Hsc Hrc HN.
  destruct (current_leaf_spec Hso _ base Hst Hlb) as (Hcur & Hlt & Hfit & Hsb).
  unfold ApplyToLeaf. rewrite (so_stack Hso), Hcur. cbn [mbind option_bind]. rewrite (so_pointer Hso). cbn [i_key i_page_id].
  assert (Hbound : Forall (fun e => page_key <=k key_ e) base).
  { eapply Forall_impl; [|exact Hrb]. intros e [[He _] _]. eapply key_le_trans; [exact (so_key Hso)|exact He]. }
  assert (Hcheck : (Compare lo (w_key w) <=? 0) && ((zlen hi =? 0) || (Compare lo hi <? 0)) &&
    match base with e :: _ => Compare page_key (key_ e) <=? 0 | [] => true end = true).
  { apply andb_true_intro. split; [apply andb_true_intro; split|].
    - apply Z.leb_le. exact (proj1 Hw).
    - destruct Hlt as [->|Hlt]; [reflexivity|]. apply orb_true_intro. right. apply Z.ltb_lt. exact Hlt.
    - destruct base as [|e base0]; [reflexivity|]. apply Forall_cons_1 in Hbound as [Hbound _]. apply Z.leb_le. exact Hbound. }
  rewrite Hcheck. cbn [negb]. eapply wp_bind_mono.
  { apply (merge_leaf Hso ttl base (w :: batch) F Hst); auto.
    rewrite List.Forall_forall in *. intros e He. destruct (Hfit e He). constructor; auto. }
  intros [[a empty] n] (-> & -> & Httl & ps & Hps & Hrun). fold changes items in Hps, Hrun, Httl |- *.
  assert (Hlen : Z.to_nat (zlen changes) = length changes) by (unfold zlen; apply Nat2Z.id). rewrite Hlen.
  set (op := mkIndexOp (ap_page_key a) (ap_page_id a) Delete).
  assert (Hleave : wp tp_fails (leave_leaf (ap_task a) (is_nil items) op) (fun b' => exists D' ns,
    leaf_done b' D' (outs ps ++ F) (map stored_entry (map fst ps)) ns)).
  { destruct items as [|i items']; cbn [is_nil] in *.
    - destruct Hrun as (Hrun & Hk & Hi). inversion Hps; subst ps. eapply wp_mono; [apply (leave_empty Hso (ap_task a) F op Hrun)|].
      + unfold op. rewrite Hk, Hi. reflexivity.
      + intros b' (D & HD). exists D, []. exact HD.
    - destruct Hrun as (D & ns & kx & x & Hg). eapply wp_mono; [exact (leave_grown _ _ _ _ _ _ _ op Hg)|].
      intros b' HD. exists D, (ns ++ [(kx, x)]). exact HD. }
  unfold leave_leaf in Hleave. destruct (if _ : bool then _ else Some (ap_task a)) as [b1|]; [|exact Hleave]. cbn [mbind option_bind] in *.
  destruct (triple1 b1); [exact Hleave|]. cbn [wp] in *. split; [exact Httl|]. split; [reflexivity|].
  destruct Hleave as (D' & ns & HD). eauto.
Qed.
End merge.

(** The changes for a leaf are those at the front of the batch below its bound. *)
Lemma page_changes_split hi batch : exists todo, batch = page_changes hi batch ++ todo /\
  Forall (fun w => below_bound hi (w_key w)) (page_changes hi batch) /\
  match todo with [] => True | w :: _ => hi <> [] /\ hi <=k w_key w end.
Proof.
  induction batch as [|w batch (todo & Hb & Hf & Ht)]; [exists []; auto|]. cbn [page_changes].
  destruct (zlen hi =? 0) eqn:E; cbn [orb].
  - exists todo. split; [cbn; rewrite <- Hb; reflexivity|]. split; [|exact Ht]. constructor; [|exact Hf]. left.
    apply Z.eqb_eq in E. destruct hi; [reflexivity|rewrite zlen_cons in E; zlia].
  - destruct (Z.ltb_spec (Compare (w_key w) hi) 0) as [Hlt|Hge].
    + exists todo. split; [cbn; rewrite <- Hb; reflexivity|]. split; [|exact Ht]. constructor; [right; exact Hlt|exact Hf].
    + exists (w :: batch). split; [reflexivity|]. split; [constructor|]. split; [intros ->; discriminate E|]. apply key_not_lt. unfold key_lt. lia.
Qed.
