(* ===== verification/RebuildSpec.v ===== *)
(** * Rebuilding index pages

    [Pop] merges the pointers of an index page with the changes that wait for it
    and writes the result: one page in the place of the old one, several pages
    when it does not fit, or none. *)

From stdpp Require Import gmap sorting.
From S2P Require Import Prelude Coding Comparator PageFormat DataPage Regions DataPageIter RegionCopy IndexPage IndexPageIter.
From S2P Require Import PageIo ApplyPage Tree BatchTask IndexStack ApplyBatch TaskSpec LeafSpec.

(** ** Merging pointers with changes *)
Definition op_pointer (o : IndexOp) : IndexEntry := mkIndexEntry (op_key o) (op_page_id o).

(** The pointers after the changes; [None] is the deletion of a pointer that is
    not there. *)
Fixpoint merge_ptrs (base : list IndexEntry) : list IndexOp -> option (list IndexEntry) :=
  fix go (changes : list IndexOp) : option (list IndexEntry) :=
  match base with
  | [] => Some (map op_pointer (List.filter (fun o => match op_op o with Upsert => true | Delete => false end) changes))
  | e :: base' =>
      match changes with
      | [] => Some base
      | o :: changes' =>
          let cmp_ret := Compare (i_key e) (op_key o) in
          if cmp_ret <? 0 then l ← merge_ptrs base' changes; Some (e :: l)
          else if cmp_ret =? 0 then
            l ← merge_ptrs base' changes';
            Some (match op_op o with Delete => l | Upsert => op_pointer o :: l end)
          else
            match op_op o with Delete => None | Upsert => l ← go changes'; Some (op_pointer o :: l) end
      end
  end.

Lemma merge_ptrs_nil changes :
  merge_ptrs [] changes = Some (map op_pointer (List.filter (fun o => match op_op o with Upsert => true | Delete => false end) changes)).
Proof. destruct changes; reflexivity. Qed.

(** ** Index pages by their pointers *)
Definition node_page (opts : KvOptions) (leaf : bool) (page : bytes) (ps : list IndexEntry) : Prop :=
  match ps with
  | [] => False
  | p :: seps => index_page page leaf (i_page_id p) seps /\ zlen page = data_page_size opts
  end.

(** The regions are full, but for the last one. *)
Definition full_regions (opts : KvOptions) (page : bytes) (ps : list IndexEntry) : Prop :=
  exists init lastr, page_format enc_index IndexHeaderSize (index_regions init lastr) page /\ concat (init ++ [lastr]) = tl ps /\
    Forall (fun r => zlen r = index_page_restart_interval opts) init /\ zlen lastr <= index_page_restart_interval opts /\
    (tl ps <> [] -> lastr <> []).

(** A builder to which pointers were added. *)
Definition builds (opts : KvOptions) (leaf : bool) (b : IndexPageBuilder) (ps : list IndexEntry) : Prop :=
  match ps with
  | [] => b = IndexReset
  | p :: seps => exists init lastr, index_inv opts leaf (i_page_id p) init lastr b /\ concat (init ++ [lastr]) = seps /\
      (seps <> [] -> lastr <> [])
  end.

(** *** A page in a larger buffer *)
Lemma page_format_pad {E} (enc : option E -> E -> bytes) base rs page rest : page_format enc base rs page -> page_format enc base rs (page ++ rest).
Proof.
  intros (hdr & pad & -> & Hh). exists hdr, (pad ++ rest). split; [|exact Hh]. unfold format_page. rewrite <- !app_assoc. reflexivity.
Qed.

Lemma DecodeFixed32_more l rest v : DecodeFixed32 l = Some v -> DecodeFixed32 (l ++ rest) = Some v.
Proof. destruct l as [|b0 [|b1 [|b2 [|b3 l]]]]; try discriminate. auto. Qed.

Lemma index_page_pad page leaf lm seps rest : index_page page leaf lm seps -> index_page (page ++ rest) leaf lm seps.
Proof.
  intros (Ht & Hs & Hlm & Hd & rs & Hf & Hr). split; [|split; [exact Hs|split; [exact Hlm|split]]].
  - unfold TypeOfPage in *. rewrite lookup_app_l; [exact Ht|]. exact (lookup_lt_Some _ _ _ Ht).
  - rewrite zdrop_app_le; [apply DecodeFixed32_more, Hd|]. split; [discriminate|]. destruct (Z.le_gt_cases leftmost_ptr_offset (zlen page)) as [Hle|Hgt]; [exact Hle|].
    exfalso. assert (Hz : zdrop leftmost_ptr_offset page = []) by (unfold zdrop, zlen in *; apply drop_ge; lia). rewrite Hz in Hd. discriminate Hd.
  - exists rs. split; [exact (page_format_pad _ _ _ _ _ Hf)|exact Hr].
Qed.

Lemma write_page buf page : zlen page <= zlen buf -> exists rest, write_at buf 0 page = page ++ rest /\ zlen (page ++ rest) = zlen buf.
Proof.
  intros Hl. exists (zdrop (zlen page) buf). unfold write_at. pose proof (zlen_nonneg page).
  split; [reflexivity|]. rewrite zlen_app, zlen_zdrop; lia.
Qed.

Section builder.
  Context (opts : KvOptions) (Hopts : valid_index_options opts) (leaf : bool).

Lemma builds_empty b ps : builds opts leaf b ps -> IndexIsEmpty b = is_nil ps.
Proof using Type.
  destruct ps as [|p seps]; [intros ->; reflexivity|]. intros (init & lastr & Hi & _). unfold IndexIsEmpty.
  rewrite (ii_cnt _ _ _ _ _ _ Hi). apply Z.eqb_neq. pose proof (zlen_nonneg (concat (init ++ [lastr]))). lia.
Qed.

Lemma builds_finish b p seps : builds opts leaf b (p :: seps) -> 0 <= i_page_id p < 2 ^ 31 -> StronglySorted key_lt (map i_key seps) ->
  node_page opts leaf (fst (IndexFinish opts b)) (p :: seps) /\ full_regions opts (fst (IndexFinish opts b)) (p :: seps) /\
  zlen (fst (IndexFinish opts b)) = data_page_size opts.
Proof.
  intros (init & lastr & Hi & Hc & Hne) Hid Hs.
  pose proof (IndexFinish_format opts leaf _ init lastr b Hopts Hi (id_u32 _ Hid)) as HF.
  destruct (IndexFinish opts b) as [page b']. destruct HF as (Hf & Hz & Ht & Hd). cbn [fst]. split; [|split; [|exact Hz]].
  - split; [|exact Hz]. split; [exact Ht|]. split; [exact Hs|]. split; [exact Hid|]. split; [exact Hd|].
    exists (index_regions init lastr). split; [exact Hf|]. split; [rewrite index_regions_concat; exact Hc|].
    pose proof (ii_wf _ _ _ _ _ _ Hi) as Hw. unfold index_regions. rewrite Hc. destruct seps as [|e seps]; [auto using Forall_nil|].
    split; [exact Hw|]. apply Forall_app_2; [|constructor; [apply Hne; discriminate|constructor]].
    eapply Forall_impl; [|exact (ii_full _ _ _ _ _ _ Hi)]. intros r Hr ->. cbv beta in Hr. rewrite (@zlen_nil IndexEntry) in Hr.
    destruct Hopts as [_ ?]. lia.
  - exists init, lastr. split; [exact Hf|]. split; [exact Hc|]. split; [exact (ii_full _ _ _ _ _ _ Hi)|]. split; [exact (ii_last_max _ _ _ _ _ _ Hi)|exact Hne].
Qed.

(** A pointer that is rejected would not have fitted. *)
Lemma IndexAdd_reject b key id b' : IndexAdd opts b key id leaf = Some (false, b') ->
  data_page_size opts < IndexSizeEstimate b + (zlen key + 17) /\ IndexSizeEstimate b' = IndexSizeEstimate b.
Proof using Type.
  unfold IndexAdd. destruct (IndexIsEmpty b); [discriminate|]. destruct (negb _); [discriminate|].
  cbv zeta. set (restart := _ <=? ib_counter b). set (shared := if restart then 0 else Z.of_nat _).
  assert (Hsh : 0 <= shared) by (unfold shared; destruct restart; lia).
  pose proof (Varint32Size_range (u32 shared)). pose proof (Varint32Size_range (u32 (zlen key - shared))).
  match goal with |- context [Varint32Size (EncodeInt32Delta ?d)] => pose proof (Varint32Size_range (EncodeInt32Delta d)) end.
  destruct (Z.ltb_spec (data_page_size opts) (IndexSizeEstimate b + ((if restart then 2 else 0) + Varint32Size (u32 shared) +
    Varint32Size (u32 (zlen key - shared)) + (zlen key - shared) +
    Varint32Size (EncodeInt32Delta (i32 (i32 id - (if restart then 0 else ib_last_page_id b))))))) as [Hbig|]; [|discriminate].
  intros [= <-]. split; [destruct restart; lia|reflexivity].
Qed.

Lemma builds_add b ps e : builds opts leaf b ps -> 0 <= i_page_id e < 2 ^ 31 ->
  exists ok b', IndexAdd opts b (i_key e) (i_page_id e) leaf = Some (ok, b') /\
    if ok : bool then builds opts leaf b' (ps ++ [e])
    else builds opts leaf b' ps /\ ps <> [] /\ data_page_size opts < IndexSizeEstimate b + (zlen (i_key e) + 17) /\
         IndexSizeEstimate b' = IndexSizeEstimate b.
Proof.
  intros Hb Hid. destruct ps as [|p seps].
  - unfold builds in Hb. subst b. destruct (IndexAdd_first opts (i_key e) (i_page_id e) leaf Hopts) as (b & HA & Hi). exists true, b.
    split; [exact HA|]. exists [], []. split; [exact Hi|]. split; [reflexivity|congruence].
  - destruct Hb as (init & lastr & Hi & Hc & Hne).
    destruct (IndexAdd_inv opts leaf _ init lastr b (i_key e) (i_page_id e) Hopts Hi Hid) as (ok & b' & HA & Hres). exists ok, b'.
    split; [exact HA|]. destruct ok.
    + destruct Hres as [_ Hres]. assert (He : mkIndexEntry (i_key e) (i_page_id e) = e) by (destruct e; reflexivity). rewrite He in Hres.
      pose proof (push_index_concat (index_page_restart_interval opts) init lastr e) as Hcat.
      pose proof (push_index_last (index_page_restart_interval opts) init lastr e) as Hlast.
      destruct (push_index _ init lastr e) as [i1 l1]. exists i1, l1. split; [exact Hres|]. split; [rewrite Hcat, Hc; reflexivity|auto].
    + destruct (IndexAdd_reject _ _ _ _ HA) as [H1 H2]. split; [exists init, lastr; auto|]. split; [discriminate|auto].
Qed.

(** A page with its leftmost pointer only. *)
Lemma builds_single b p : builds opts leaf b [p] -> IndexSizeEstimate b <= IndexHeaderSize + 4.
Proof.
  intros (init & lastr & Hi & Hc & _). destruct Hopts as [Hps Hri]. rewrite (index_size_estimate _ _ _ _ _ _ Hi) by lia.
  assert (Hin : init = []).
  { destruct init as [|r init]; [reflexivity|]. pose proof (ii_full _ _ _ _ _ _ Hi) as Hf. apply Forall_cons_1 in Hf as [Hf _].
    destruct r; [rewrite (@zlen_nil IndexEntry) in Hf; lia|discriminate Hc]. }
  subst init. cbn in Hc. rewrite app_nil_r in Hc. subst lastr.
  rewrite (ii_buffer _ _ _ _ _ _ Hi), (ii_restarts _ _ _ _ _ _ Hi), zlen_app, index_header_length.
  change (zlen (blob enc_index ([] ++ [[]]))) with 0. change (zlen (region_offsets enc_index IndexHeaderSize ([] ++ [[]]))) with 1. lia.
Qed.
End builder.

Section rebuild.
  Context {S : Type} `{TaskPages S} (opts : KvOptions) (hash : bytes -> Z) `{!TaskPagesLaws S opts}.

  Local Abbreviation Batch := (Batch (S := S)).
  Local Abbreviation Rebuild := (Rebuild (S := S)).
  Local Abbreviation eff := (eff opts).
  Local Abbreviation task_inv := (task_inv opts).
  Local Abbreviation add_pointer := (add_pointer opts hash).
  Local Abbreviation add_pointers := (add_pointers opts hash).

Lemma add_changes_ref changes (r : Rebuild) leaf :
  add_changes opts hash r leaf changes =
  add_pointers r leaf (map op_pointer (List.filter (fun o => match op_op o with Upsert => true | Delete => false end) changes)).
Proof.
  revert r. induction changes as [|o changes IH]; intros r; [reflexivity|]. cbn [add_changes List.filter].
  destruct (op_op o); cbn [map IndexStack.add_pointers]; [|apply IH]. destruct (add_pointer r leaf _ _) as [r'|]; [apply IH|reflexivity].
Qed.

Lemma add_valid_some (r : Rebuild) leaf key id : id <> MaxPageId -> add_valid opts hash r leaf key id = add_pointer r leaf key id.
Proof. intros Hid. unfold add_valid. rewrite (proj2 (Z.eqb_neq _ _) Hid), andb_false_r. reflexivity. Qed.

Lemma merge_pointers_ref base : forall changes fuel (r : Rebuild) leaf l, (length base + length changes <= fuel)%nat ->
  merge_ptrs base changes = Some l -> Forall (fun e => i_page_id e <> MaxPageId) l ->
  merge_pointers opts hash fuel r leaf base changes = add_pointers r leaf l.
Proof.
  induction base as [|e base IHb]; intros changes.
  { intros fuel r leaf l _ Hm _. rewrite merge_ptrs_nil in Hm. injection Hm as <-. destruct fuel, changes; apply add_changes_ref. }
  induction changes as [|o changes IHc]; intros fuel r leaf l Hf Hm Hl.
  { injection Hm as <-. destruct fuel; reflexivity. }
  destruct fuel as [|fuel]; [simpl in Hf; lia|]. cbn [merge_pointers]. cbn [merge_ptrs] in Hm.
  destruct (Compare (i_key e) (op_key o) <? 0).
  - destruct (merge_ptrs base (o :: changes)) as [l'|] eqn:E; [|discriminate Hm]. injection Hm as <-. apply Forall_cons_1 in Hl as [He Hl].
    rewrite add_valid_some by exact He. cbn [IndexStack.add_pointers]. destruct (add_pointer r leaf _ _) as [r'|]; [|reflexivity].
    cbn [mbind option_bind]. apply IHb; [simpl in *; lia|exact E|exact Hl].
  - destruct (Compare (i_key e) (op_key o) =? 0).
    + destruct (merge_ptrs base changes) as [l'|] eqn:E; [|discriminate Hm]. destruct (op_op o); injection Hm as <-.
      * apply Forall_cons_1 in Hl as [He Hl]. rewrite add_valid_some by exact He. cbn [IndexStack.add_pointers op_pointer i_key i_page_id].
        destruct (add_pointer r leaf _ _) as [r'|]; [|reflexivity]. cbn [mbind option_bind]. apply IHb; [simpl in *; lia|exact E|exact Hl].
      * unfold add_valid. cbn [zlen length Z.of_nat Z.eqb andb]. rewrite Z.eqb_refl. cbn [mbind option_bind]. apply IHb; [simpl in *; lia|exact E|exact Hl].
    + destruct (op_op o); [|discriminate Hm].
      change ((l ← merge_ptrs (e :: base) changes; Some (op_pointer o :: l)) = Some l) in Hm.
      destruct (merge_ptrs (e :: base) changes) as [l'|] eqn:E; [|discriminate Hm]. injection Hm as <-. apply Forall_cons_1 in Hl as [He Hl].
      rewrite add_valid_some by exact He. cbn [IndexStack.add_pointers op_pointer i_key i_page_id].
      destruct (add_pointer r leaf _ _) as [r'|]; [|reflexivity]. cbn [mbind option_bind]. apply IHc; [simpl in *; lia|reflexivity|exact Hl].
Qed.

(** ** Writing a page *)

(** The leaves in memory stay. *)
Definition same_memory (b b' : Batch) : Prop :=
  triple0 b' = triple0 b /\ triple1 b' = triple1 b /\ triple2 b' = triple2 b /\ applying_page_ b' = applying_page_ b.

Lemma same_memory_ids b b' : same_memory b b' -> triple_ids b' = triple_ids b.
Proof. intros (H0 & H1 & H2 & _). unfold triple_ids. rewrite H0, H1, H2. reflexivity. Qed.

Lemma write_index_page b D os id page : task_inv b D os -> id ∈ D -> ~ In id (triple_ids b) ->
  wp tp_fails (WritePage hash b id page) (fun b' => task_inv b' D os /\ eff b' id = Some (SetChecksum hash page) /\
    (forall q, q ∈ D -> q <> id -> eff b' q = eff b q) /\ keeps opts D b b' /\ stored opts b' id /\ same_memory b b' /\ stack_ b' = stack_ b).
Proof.
  intros [Hst Hnd Hh] Hid Hn. eapply wp_mono; [exact (write_held_page opts hash b D os id page Hst Hid)|].
  intros b' (s' & -> & Hs' & Hp & Hq). split; [constructor; assumption|]. split; [rewrite eff_store; [exact Hp|exact Hn]|].
  split; [|split; [|split; [|split; [repeat split|reflexivity]]]].
  - intros q HqD Hne. unfold TaskSpec.eff. do 3 apply over_ext. exact (Hq q HqD Hne).
  - intros q HqD Hs. unfold stored in *. cbn [bt_store with_store]. destruct (Z.eq_dec q id) as [->|Hne]; [rewrite Hp; eauto|].
    rewrite (Hq q HqD Hne). exact Hs.
  - unfold stored. cbn [bt_store with_store]. rewrite Hp. eauto.
Qed.

(** ** Telling the parent *)
Definition null_entry : IndexStackEntry := mkStackEntry None (mkPageView [] 0 0) fresh_index_cursor [] false.

(** The stack above a page, with changes for the page above it, which may be a
    new root. *)
Definition add_to_parent (above : list IndexStackEntry) (ops : list IndexOp) : list IndexStackEntry :=
  match ops, above with
  | [], _ => above
  | _, [] => [with_changes null_entry ops]
  | _, p :: above' => with_changes p (se_changes p ++ ops) :: above'
  end.

Lemma add_to_parent_snoc above ops o : ops <> [] -> add_to_parent (add_to_parent above ops) [o] = add_to_parent above (ops ++ [o]).
Proof.
  destruct ops as [|x ops]; [congruence|]. intros _. destruct above as [|p above]; [reflexivity|]. cbn. rewrite <- app_assoc. reflexivity.
Qed.

Lemma flush_spec b D os top above page key pid split : task_inv b D os -> stack_ b = top :: above ->
  (pid = MaxPageId \/ pid ∈ D /\ ~ In pid (triple_ids b) /\ pid <> MaxPageId) -> room opts D 1 ->
  wp tp_fails (FlushIndexPage hash b page key pid split) (fun '(id, b') => exists D', task_inv b' D' os /\
    ((pid = MaxPageId /\ id ∉ D /\ 0 <= id < 2 ^ 31 /\ D' = {[id]} ∪ D) \/ (pid <> MaxPageId /\ id = pid /\ D' = D)) /\
    eff b' id = Some (SetChecksum hash page) /\ (forall q, q ∈ D -> q <> id -> eff b' q = eff b q) /\ keeps opts D b b' /\ stored opts b' id /\
    same_memory b b' /\ stack_ b' = top :: (if split && ((pid =? MaxPageId) || is_nil above)
                                            then add_to_parent above [mkIndexOp key id Upsert] else above)).
Proof.
  intros Hinv Hst Hpid Hroom. unfold FlushIndexPage.
  eapply (wp_bind_mono _ _ _ (fun '(id, s) => exists D', tp_inv s D' os /\ (forall q, q ∈ D -> tp_page s q = tp_page (bt_store b) q) /\
    id ∈ D' /\ ~ In id (triple_ids b) /\ (forall q, q ∈ D -> q ∈ D') /\
    ((pid = MaxPageId /\ id ∉ D /\ 0 <= id < 2 ^ 31 /\ D' = {[id]} ∪ D) \/ (pid <> MaxPageId /\ id = pid /\ D' = D)))).
  - destruct (Z.eqb_spec pid MaxPageId) as [He|Hne].
    + eapply wp_mono; [exact (get_page_ok _ _ _ (ti_store _ _ _ _ Hinv) Hroom)|]. intros [id s] (H1 & H2 & H3 & H4).
      exists ({[id]} ∪ D). split; [exact H3|]. split; [exact H4|]. split; [set_solver|].
      split; [intros Hin; apply H1; exact (ti_held _ _ _ _ Hinv id Hin)|]. split; [set_solver|auto].
    + cbn [wp]. destruct Hpid as [?|(H1 & H2 & _)]; [contradiction|]. exists D. split; [apply Hinv|]. auto 10.
  - intros [id s] (D' & Hs & Hq & Hid & Hnid & Hsub & Hcase). cbv beta iota.
    assert (Hinv1 : task_inv (with_store b s) D' os).
    { destruct Hinv as [_ I2 I3]. constructor; [exact Hs|exact I2|]. intros q Hin. apply Hsub. exact (I3 q Hin). }
    eapply wp_bind_mono; [exact (write_index_page (with_store b s) D' os id page Hinv1 Hid Hnid)|].
    intros b1 (I1 & I2 & I3 & I4 & I5 & I6 & I7). cbn [stack_ with_store] in I7. rewrite I7, Hst.
    assert (Heff : forall q, q ∈ D -> eff (with_store b s) q = eff b q).
    { intros q HqD. unfold TaskSpec.eff. do 3 apply over_ext. exact (Hq q HqD). }
    assert (Hsame : forall q, q ∈ D -> q <> id -> eff b1 q = eff b q).
    { intros q HqD Hne. rewrite (I3 q (Hsub q HqD) Hne). exact (Heff q HqD). }
    assert (Hkeep : keeps opts D b b1).
    { intros q HqD Hsq. apply I4; [exact (Hsub q HqD)|]. unfold stored in *. cbn [bt_store with_store]. rewrite (Hq q HqD). exact Hsq. }
    destruct (split && ((pid =? MaxPageId) || is_nil above)) eqn:Esp.
    + assert (Hrest : match above with [] => parent ← new_stack_entry None; Some [parent] | _ => Some above end =
        Some (match above with [] => [null_entry] | _ => above end)) by (destruct above; reflexivity).
      rewrite Hrest. cbn [mbind option_bind]. destruct above as [|p above]; cbn [wp].
      * exists D'. split; [destruct I1; constructor; assumption|]. do 5 (split; [assumption|]). split; [exact I6|reflexivity].
      * exists D'. split; [destruct I1; constructor; assumption|]. do 5 (split; [assumption|]). split; [exact I6|reflexivity].
    + cbn [wp]. exists D'. do 6 (split; [assumption|]). split; [exact I6|]. rewrite I7. exact Hst.
Qed.

(** ** The state of a rebuild *)

(** A page that was built: its key, its id and its pointers. *)
Record Built := mkBuilt { bu_key : bytes; bu_id : Z; bu_ptrs : list IndexEntry }.

Definition built_ups (gs : list Built) : list IndexOp := map (fun g => mkIndexOp (bu_key g) (bu_id g) Upsert) gs.

  Context (Hopts : valid_index_options opts).
  Context (b0 : Batch) (D0 : gset Z) (os : list Outside) (top : IndexStackEntry) (above : list IndexStackEntry).
  Context (leaf : bool) (own : option Z) (N : Z).

(** The pages of which the parent hears; all of them when the root splits. *)
Definition pushed (gs : list Built) : list Built := match above with [] => gs | _ => tl gs end.

(** The pages with new ids; the first one takes the id of the old page. *)
Definition new_built (gs : list Built) : list Built := match own with Some _ => tl gs | None => gs end.

Definition built_in (E : Z -> option bytes) (g : Built) : Prop :=
  exists page, E (bu_id g) = Some page /\ node_page opts leaf page (bu_ptrs g).

Record rebuild_start : Prop := {
  rs_task : task_inv b0 D0 os;
  rs_stack : stack_ b0 = top :: above;
  rs_own : forall id, own = Some id -> id ∈ D0 /\ ~ In id (triple_ids b0) /\ 0 <= id < 2 ^ 31;
  rs_null : own = None -> above = [];
  rs_room : room opts D0 N
}.

(** The pages [gs] are written and nothing else changed. *)
Record pages_built (b : Batch) (D : gset Z) (gs : list Built) : Prop := {
  pb_task : task_inv b D os;
  pb_memory : same_memory b0 b;
  pb_pages : Forall (built_in (eff b)) gs;
  pb_first : match gs with g :: _ => own = None \/ own = Some (bu_id g) | [] => True end;
  pb_held : forall q, q ∈ D <-> q ∈ D0 \/ In q (map bu_id (new_built gs));
  pb_new : forall g, In g (new_built gs) -> bu_id g ∉ D0;
  pb_ids : NoDup (map bu_id gs);
  pb_range : Forall (fun g => 0 <= bu_id g < 2 ^ 31) gs;
  pb_frame : forall q, q ∈ D0 -> own <> Some q -> eff b q = eff b0 q;
  pb_keeps : keeps opts D0 b0 b
}.

(** The id under which the next page is written. *)
Definition next_id (gs : list Built) : Z := match gs with [] => default MaxPageId own | _ => MaxPageId end.

(** The pages [fl] are written, [pv] is the key and the pointers of the page that
    waits. *)
Record rebuilt (r : Rebuild) (D : gset Z) (fl : list Built) (pv : option (bytes * list IndexEntry)) : Prop := {
  rg_built : pages_built (rb_task r) D fl;
  rg_stack : stack_ (rb_task r) = top :: add_to_parent above (built_ups (pushed fl));
  rg_prev : match pv with
            | None => rb_prev r = None /\ fl = []
            | Some (k, ps) => rb_prev_key r = k /\ exists page, rb_prev r = Some page /\ node_page opts leaf page ps
            end;
  rg_prev_id : rb_prev_id r = next_id fl
}.

(** The page that waits has full regions. *)
Definition prev_full (r : Rebuild) (ps : list IndexEntry) : Prop := exists page, rb_prev r = Some page /\ full_regions opts page ps.

Lemma node_page_eq p q ps : page_eq p q -> node_page opts leaf p ps -> node_page opts leaf q ps.
Proof using Type.
  intros He. destruct ps as [|x ps]; [auto|]. intros [Hp Hz]. split; [exact (index_page_eq _ _ _ _ _ He Hp)|]. destruct He as [<- _]. exact Hz.
Qed.

Lemma node_page_checksum page ps : node_page opts leaf page ps -> node_page opts leaf (SetChecksum hash page) ps.
Proof.
  intros Hp. assert (Hz : checksum_bytes <= zlen page).
  { destruct ps; [destruct Hp|]. destruct Hp as [_ ->]. destruct Hopts as [Hps _]. change IndexHeaderSize with 15 in Hps.
    change checksum_bytes with 8. lia. }
  eapply node_page_eq; [symmetry; apply SetChecksum_eq, Hz|exact Hp].
Qed.

(** The ids of the pages written so far are held. *)
Lemma built_held (Hst : rebuild_start) b D gs g : pages_built b D gs -> In g gs -> bu_id g ∈ D.
Proof using Type.
  intros Hr Hg. apply (pb_held _ _ _ Hr). pose proof (pb_first _ _ _ Hr) as Hf. unfold new_built. destruct gs as [|g0 gs]; [destruct Hg|].
  destruct own as [id|] eqn:Eo; [|right; apply in_map, Hg]. destruct Hg as [<-|Hg]; [left|right; apply in_map, Hg].
  destruct Hf as [?|Hf]; [congruence|]. apply (rs_own Hst). congruence.
Qed.

Lemma pushed_snoc fl g : fl <> [] -> pushed (fl ++ [g]) = pushed fl ++ [g].
Proof using Type. intros Hne. unfold pushed. destruct above; [reflexivity|]. destruct fl; [congruence|reflexivity]. Qed.

Lemma new_built_snoc fl g : fl <> [] -> new_built (fl ++ [g]) = new_built fl ++ [g].
Proof using Type. intros Hne. unfold new_built. destruct own; [|reflexivity]. destruct fl; [congruence|reflexivity]. Qed.

(** What the parent has heard after another page. *)
Lemma push_next fl g : fl <> [] ->
  add_to_parent (add_to_parent above (built_ups (pushed fl))) [mkIndexOp (bu_key g) (bu_id g) Upsert] =
  add_to_parent above (built_ups (pushed (fl ++ [g]))).
Proof using Type.
  intros Hne. rewrite (pushed_snoc fl g Hne). unfold built_ups. rewrite map_app. cbn [map].
  destruct (pushed fl) as [|g0 l]; [reflexivity|]. apply add_to_parent_snoc. discriminate.
Qed.

Lemma push_none : add_to_parent above (built_ups (pushed [])) = above.
Proof using Type. unfold pushed. destruct above; reflexivity. Qed.

Lemma push_flushed (Hst : rebuild_start) fl g :
  (if (next_id fl =? MaxPageId) || is_nil (add_to_parent above (built_ups (pushed fl)))
   then add_to_parent (add_to_parent above (built_ups (pushed fl))) [mkIndexOp (bu_key g) (bu_id g) Upsert]
   else add_to_parent above (built_ups (pushed fl))) = add_to_parent above (built_ups (pushed (fl ++ [g]))).
Proof using Type.
  destruct fl as [|g0 fl]; [|cbn [next_id]; rewrite Z.eqb_refl; cbn [orb]; apply push_next; discriminate].
  rewrite push_none. cbn [app next_id]. pose proof (rs_own Hst) as Ho. pose proof (rs_null Hst) as Hn. unfold pushed.
  destruct above as [|p ab]; [rewrite orb_true_r; reflexivity|]. cbn [tl built_ups map add_to_parent is_nil].
  destruct own as [i|]; [|discriminate (Hn eq_refl)]. destruct (Ho i eq_refl) as (_ & _ & Hri).
  cbn. destruct (Z.eqb_spec i MaxPageId) as [He|_]; [unfold MaxPageId in He; lia|reflexivity].
Qed.

(** A page more. *)
Record page_added (b b' : Batch) (D D' : gset Z) (gs : list Built) (id : Z) (page : bytes) : Prop := {
  pa_task : task_inv b' D' os;
  pa_id : (next_id gs = MaxPageId /\ id ∉ D /\ 0 <= id < 2 ^ 31 /\ D' = {[id]} ∪ D) \/
          (next_id gs <> MaxPageId /\ id = next_id gs /\ D' = D);
  pa_page : eff b' id = Some (SetChecksum hash page);
  pa_same : forall q, q ∈ D -> q <> id -> eff b' q = eff b q;
  pa_keeps : keeps opts D b b';
  pa_memory : same_memory b b'
}.

Lemma next_id_own (Hst : rebuild_start) gs : next_id gs <> MaxPageId -> gs = [] /\ own = Some (next_id gs).
Proof using Type. destruct gs; cbn; [|congruence]. destruct own; cbn; [auto|congruence]. Qed.

Lemma next_id_new (Hst : rebuild_start) gs : next_id gs = MaxPageId -> forall g, new_built (gs ++ [g]) = new_built gs ++ [g].
Proof using Type.
  intros Hn g. destruct gs as [|g0 gs]; [|apply new_built_snoc; discriminate]. pose proof (rs_own Hst) as Ho. unfold new_built.
  cbn in Hn. destruct own as [i|]; [|reflexivity]. destruct (Ho i eq_refl) as (_ & _ & Hri). cbn in Hn. unfold MaxPageId in Hn. lia.
Qed.

Lemma pages_built_snoc (Hst : rebuild_start) b b' D D' gs k id ps page : pages_built b D gs -> page_added b b' D D' gs id page ->
  node_page opts leaf page ps -> pages_built b' D' (gs ++ [mkBuilt k id ps]).
Proof.
  intros Hb [K1 K2 K3 K4 K5 K7] Hpage. pose proof (fun g => built_held Hst b D gs g Hb) as Hfh.
  destruct Hb as [H1 H2 H4 H7 H8 H9 H10 H11 H12 H13]. set (g := mkBuilt k id ps).
  assert (HD0 : forall q, q ∈ D0 -> q ∈ D) by (intros q Hq; apply H8; auto).
  assert (Hidf : forall g', In g' gs -> bu_id g' <> id).
  { intros g' Hg' He. specialize (Hfh g' Hg'). destruct K2 as [(_ & K2 & _)|(K2 & _)]; [rewrite He in Hfh; contradiction|].
    destruct (next_id_own Hst _ K2) as [-> _]. destruct Hg'. }
  assert (Hnew : forall g', In g' (new_built (gs ++ [g])) -> In g' (new_built gs) \/ g' = g /\ id ∉ D).
  { intros g' Hg'. destruct K2 as [(K2 & Kn & _)|(K2 & _)].
    - rewrite (next_id_new Hst gs K2) in Hg'. apply in_app_iff in Hg' as [Hg'|[<-|[]]]; auto.
    - destruct (next_id_own Hst _ K2) as [-> Ho]. unfold new_built in Hg'. rewrite Ho in Hg'. destruct Hg'. }
  constructor.
  - exact K1.
  - destruct H2 as (A1 & A2 & A3 & A4), K7 as (B1 & B2 & B3 & B4). repeat split; congruence.
  - apply Forall_app_2.
    + rewrite List.Forall_forall in H4 |- *. intros g' Hg'. destruct (H4 g' Hg') as (pg & Hpg & Hn). exists pg. split; [|exact Hn].
      rewrite (K4 _ (Hfh g' Hg') (Hidf g' Hg')). exact Hpg.
    + constructor; [|constructor]. exists (SetChecksum hash page). split; [exact K3|]. apply node_page_checksum. exact Hpage.
  - destruct gs as [|g0 gs']; [|exact H7]. cbn. destruct K2 as [(K2 & _)|(K2 & -> & _)].
    + left. destruct own as [i|] eqn:Eo; [|reflexivity]. destruct (rs_own Hst i Eo) as (_ & _ & Hri). cbn in K2. rewrite Eo in K2. cbn in K2.
      unfold MaxPageId in K2. lia.
    + right. apply (next_id_own Hst [] K2).
  - intros q. destruct K2 as [(K2 & Kn & _ & ->)|(K2 & Ki & ->)].
    + rewrite elem_of_union, elem_of_singleton, H8, (next_id_new Hst gs K2), map_app, in_app_iff. cbn. intuition congruence.
    + destruct (next_id_own Hst _ K2) as [-> Ho]. rewrite H8. unfold new_built. rewrite Ho. cbn. tauto.
  - intros g' Hg'. destruct (Hnew g' Hg') as [Hg|[-> Kn]]; [exact (H9 g' Hg)|]. intros Hin. exact (Kn (HD0 _ Hin)).
  - rewrite map_app. apply nodup_app. split; [exact H10|]. split; [|apply nodup_cons; split; [auto|constructor]].
    intros q Hq [<-|[]]. apply in_map_iff in Hq as (g' & He & Hg'). exact (Hidf g' Hg' He).
  - apply Forall_app_2; [exact H11|]. constructor; [|constructor]. cbn. destruct K2 as [(_ & _ & K2 & _)|(K2 & -> & _)]; [exact K2|].
    apply (rs_own Hst). apply (next_id_own Hst _ K2).
  - intros q Hq Hno. rewrite (K4 q (HD0 q Hq)); [exact (H12 q Hq Hno)|]. intros ->.
    destruct K2 as [(_ & Kn & _)|(K2 & Ki & _)]; [exact (Kn (HD0 _ Hq))|]. apply Hno. rewrite Ki. apply (next_id_own Hst _ K2).
  - intros q Hq Hs. apply K5; [exact (HD0 q Hq)|]. apply H13; assumption.
Qed.

Lemma built_room (Hst : rebuild_start) b D gs n : pages_built b D gs -> zlen gs + n <= N -> room opts D n.
Proof using Type.
  intros Hb Hn. apply (room_more opts D0 D (map bu_id (new_built gs)) N); [intros q; apply (pb_held _ _ _ Hb)|exact (rs_room Hst)|].
  assert (Hl : zlen (map bu_id (new_built gs)) <= zlen gs); [|lia]. unfold zlen. rewrite length_map. unfold new_built. destruct own; [|lia].
  destruct gs; cbn [tl length]; lia.
Qed.

(** Writing the page that waits. *)
Lemma flush_prev (Hst : rebuild_start) b D fl k ps page split : pages_built b D fl ->
  stack_ b = top :: add_to_parent above (built_ups (pushed fl)) -> node_page opts leaf page ps ->
  (split = true \/ fl = [] /\ split = false) -> zlen fl + 1 <= N ->
  wp tp_fails (FlushIndexPage hash b page k (next_id fl) split) (fun '(id, b') => exists D',
    pages_built b' D' (fl ++ [mkBuilt k id ps]) /\
    stack_ b' = top :: (if split then add_to_parent above (built_ups (pushed (fl ++ [mkBuilt k id ps]))) else above)).
Proof.
  intros Hb Hstk Hpage Hsplit HN. pose proof (same_memory_ids _ _ (pb_memory _ _ _ Hb)) as Hmem.
  eapply wp_mono; [apply (flush_spec b D os top _ page k _ split (pb_task _ _ _ Hb) Hstk)|].
  - destruct (Z.eq_dec (next_id fl) MaxPageId) as [He|Hne]; [auto|right]. destruct (next_id_own Hst _ Hne) as [_ Ho].
    destruct (rs_own Hst _ Ho) as (K1 & K2 & K3). split; [apply (pb_held _ _ _ Hb); auto|]. rewrite Hmem. auto.
  - exact (built_room Hst _ _ _ _ Hb HN).
  - intros [id b'] (D' & K1 & K2 & K3 & K4 & K5 & K6 & K7 & K8). exists D'. split.
    + apply (pages_built_snoc Hst b b' D D' fl k id ps page Hb); [constructor; assumption|exact Hpage].
    + rewrite K8. f_equal. destruct Hsplit as [->|[-> ->]]; [|exact push_none]. cbn [andb]. apply (push_flushed Hst fl (mkBuilt k id ps)).
Qed.

(** A page that may be shorter than a page on disk. *)
Definition short_node (page : bytes) (ps : list IndexEntry) : Prop :=
  zlen page <= data_page_size opts /\ match ps with [] => False | p :: seps => index_page page leaf (i_page_id p) seps end.

Lemma short_node_write page ps buf : short_node page ps -> zlen buf = data_page_size opts ->
  exists rest, write_at buf 0 page = page ++ rest /\ node_page opts leaf (page ++ rest) ps.
Proof using Type.
  intros [Hz Hp] Hb. destruct (write_page buf page ltac:(lia)) as (rest & Hw & Hl). exists rest. split; [exact Hw|].
  destruct ps as [|p seps]; [exact Hp|]. split; [apply index_page_pad, Hp|congruence].
Qed.

Lemma finish_first_page r D p seps : rebuilt r D [] None -> builds opts leaf (rb_builder r) (p :: seps) ->
  0 <= i_page_id p < 2 ^ 31 -> StronglySorted key_lt (map i_key seps) ->
  wp tp_fails (FinishIndexPage opts hash r) (fun r' => rebuilt r' D [] (Some (rb_cur_key r, p :: seps)) /\ prev_full r' (p :: seps)).
Proof.
  intros [Hb Hstk [Hprev _] Hpid] Hbl Hid Hs. unfold FinishIndexPage. rewrite (builds_empty opts leaf _ _ Hbl). cbn [is_nil].
  destruct (builds_finish opts Hopts leaf _ p seps Hbl Hid Hs) as (Hn & Hf & Hz).
  destruct (IndexFinish opts (rb_builder r)) as [page ib]. cbn [fst] in *. rewrite Hprev. cbn [mbind option_bind].
  eapply wp_bind_mono; [exact (alloc_ok _ _ _ (ti_store _ _ _ _ (pb_task _ _ _ Hb)))|]. intros buf Hbuf. cbn [wp].
  destruct (short_node_write page (p :: seps) buf) as (rest & -> & Hn'); [split; [lia|apply Hn]|exact Hbuf|].
  split.
  - constructor; auto. split; [reflexivity|]. exists (page ++ rest). auto.
  - exists (page ++ rest). split; [reflexivity|]. destruct Hf as (init & lastr & Hf & Hc). exists init, lastr.
    split; [exact (page_format_pad _ _ _ _ _ Hf)|exact Hc].
Qed.

Lemma finish_next_page (Hst : rebuild_start) r D fl k ps cur prev prev' page' key' ps' cur' num len :
  rebuilt r D fl (Some (k, ps)) -> builds opts leaf (rb_builder r) cur -> cur <> [] -> rb_prev r = Some prev ->
  RestartNum prev = Some num -> ContentLength prev = Some len ->
  (if sparse_after opts (u16 (IndexSizeEstimate (rb_builder r))) num len
   then IndexRedistribute opts prev (fst (IndexFinish opts (rb_builder r))) (rb_cur_key r)
   else Some (prev, fst (IndexFinish opts (rb_builder r)), rb_cur_key r)) = Some (prev', page', key') ->
  node_page opts leaf prev' ps' -> short_node page' cur' -> zlen fl + 1 <= N ->
  wp tp_fails (FinishIndexPage opts hash r) (fun r' => exists D' id,
    rebuilt r' D' (fl ++ [mkBuilt k id ps']) (Some (key', cur')) /\ exists rest, rb_prev r' = Some (page' ++ rest)).
Proof.
  intros Hr Hbl Hne Hprev Hnum Hlen Hbal Hn' Hc' HN. unfold FinishIndexPage. rewrite (builds_empty opts leaf _ _ Hbl).
  destruct cur as [|p seps]; [congruence|]. cbn [is_nil]. destruct (IndexFinish opts (rb_builder r)) as [page ib]. cbn [fst] in Hbal.
  rewrite Hprev, Hnum, Hlen. cbn [mbind option_bind]. rewrite Hbal. cbn [mbind option_bind].
  destruct Hr as [Hb Hstk [Hk _] Hpid]. rewrite Hk, Hpid.
  eapply (wp_bind_mono _ _ _ (fun '(b', pg, ky, i) => pg = page' /\ ky = key' /\ i = MaxPageId /\ exists id D',
    pages_built b' D' (fl ++ [mkBuilt k id ps']) /\ stack_ b' = top :: add_to_parent above (built_ups (pushed (fl ++ [mkBuilt k id ps']))))).
  { eapply wp_bind_mono; [exact (flush_prev Hst (rb_task r) D fl k ps' prev' true Hb Hstk Hn' (or_introl eq_refl) HN)|].
    intros [id b'] (D' & HD). cbn [wp]. eauto 10. }
  intros [[[b' pg] ky] i] (-> & -> & -> & id & D' & Hb' & Hstk').
  eapply wp_bind_mono; [exact (alloc_ok _ _ _ (ti_store _ _ _ _ (pb_task _ _ _ Hb')))|]. intros buf Hbuf. cbn [wp]. exists D', id.
  destruct (short_node_write page' cur' buf Hc' Hbuf) as (rest & -> & Hn2). split; [|exists rest; reflexivity].
  constructor; auto.
  - split; [reflexivity|]. exists (page' ++ rest). auto.
  - destruct fl; reflexivity.
Qed.

Record rebuilding (r : Rebuild) (D : gset Z) (fl : list Built) (pv : option (bytes * list IndexEntry)) (kc : bytes)
    (cur : list IndexEntry) : Prop := {
  ri_rebuilt : rebuilt r D fl pv;
  ri_builder : builds opts leaf (rb_builder r) cur;
  ri_key : rb_cur_key r = kc;
  ri_full : match pv with Some (_, ps) => prev_full r ps | None => True end
}.

(** A key of at most [K] bytes leaves three quarters of a page to others. *)
Definition index_keys_fit (K : Z) : Prop := 4 * (K + 36) <= data_page_size opts.

Lemma node_lengths page ps : node_page opts leaf page ps -> exists num len, RestartNum page = Some num /\ ContentLength page = Some len.
Proof using Type.
  destruct ps as [|p seps]; [intros []|]. intros [(_ & _ & _ & _ & rs & Hf & _) _]. destruct (format_lengths _ _ _ _ Hf). eauto.
Qed.

Lemma not_sparse n num len : data_page_size opts <= 4 * n -> is_u16 n -> sparse_after opts (u16 n) num len = false.
Proof.
  intros Hn Hu. destruct Hopts as [Hps _]. change IndexHeaderSize with 15 in Hps. unfold sparse_after. rewrite (u16_id n Hu).
  rewrite Z.shiftr_div_pow2 by lia. change (2 ^ 2) with 4. pose proof (Z.div_mod (data_page_size opts) 4 ltac:(lia)).
  pose proof (Z.mod_pos_bound (data_page_size opts) 4 ltac:(lia)). rewrite (u16_id (data_page_size opts / 4)) by (unfold is_u16; lia).
  rewrite (proj2 (Z.ltb_ge _ _)) by lia. reflexivity.
Qed.

Lemma estimate_range b ps : builds opts leaf b ps -> 0 <= IndexSizeEstimate b <= data_page_size opts.
Proof.
  destruct Hopts as [Hps _]. destruct ps as [|p seps].
  - intros ->. change (0 <= IndexHeaderSize + 4 <= data_page_size opts). change IndexHeaderSize with 15 in *. lia.
  - intros (init & lastr & Hi & _). rewrite (index_size_estimate _ _ _ _ _ _ Hi) by lia. pose proof (ii_size _ _ _ _ _ _ Hi).
    pose proof (zlen_nonneg (ib_buffer b)). pose proof (zlen_nonneg (ib_restarts b)). lia.
Qed.

(** The page in the builder is full: it waits, and the one that waited is written. *)
Lemma close_page (Hst : rebuild_start) K r D fl pv kc cur : index_keys_fit K -> rebuilding r D fl pv kc cur -> cur <> [] ->
  Forall (fun e => 0 <= i_page_id e < 2 ^ 31) cur -> StronglySorted key_lt (map i_key (tl cur)) ->
  data_page_size opts < IndexSizeEstimate (rb_builder r) + (K + 17) -> zlen fl + 1 <= N ->
  wp tp_fails (FinishIndexPage opts hash r) (fun r' => exists D' fl', rebuilt r' D' fl' (Some (kc, cur)) /\ prev_full r' cur /\
    match pv with None => fl' = fl | Some (k, ps) => exists id, fl' = fl ++ [mkBuilt k id ps] end).
Proof.
  intros HK [Hr Hbl <- Hfull] Hne Hids Hs Hbig HN. destruct cur as [|p seps]; [congruence|]. apply Forall_cons_1 in Hids as [Hid _].
  destruct pv as [[k ps]|].
  - destruct (rg_prev _ _ _ _ Hr) as (_ & prev & Hprev & Hn). destruct (node_lengths _ _ Hn) as (num & len & Hnum & Hlen).
    destruct (builds_finish opts Hopts leaf _ p seps Hbl Hid Hs) as (Hn' & Hf & Hz).
    pose proof (estimate_range _ _ Hbl) as Hest. unfold index_keys_fit in HK. pose proof Hopts as [Hps _].
    assert (Hsp : sparse_after opts (u16 (IndexSizeEstimate (rb_builder r))) num len = false) by (apply not_sparse; [lia|unfold is_u16; lia]).
    eapply wp_mono; [apply (finish_next_page Hst r D fl k ps (p :: seps) prev prev (fst (IndexFinish opts (rb_builder r))) (rb_cur_key r) ps (p :: seps) num len);
      auto; [rewrite Hsp; reflexivity|split; [lia|apply Hn']]|].
    intros r' (D' & id & Hr' & rest & Hp'). exists D', (fl ++ [mkBuilt k id ps]). split; [exact Hr'|]. split; [|eauto].
    exists (fst (IndexFinish opts (rb_builder r)) ++ rest). split; [exact Hp'|]. destruct Hf as (init & lastr & Hf & Hc).
    exists init, lastr. split; [exact (page_format_pad _ _ _ _ _ Hf)|exact Hc].
  - assert (fl = []) as -> by apply (rg_prev _ _ _ _ Hr).
    eapply wp_mono; [exact (finish_first_page r D p seps Hr Hbl Hid Hs)|]. intros r' [Hr' Hf']. exists D, []. auto.
Qed.

Lemma add_pointer_spec (Hst : rebuild_start) K r D fl pv kc cur e : index_keys_fit K -> rebuilding r D fl pv kc cur ->
  Forall (fun e => 0 <= i_page_id e < 2 ^ 31) (cur ++ [e]) -> zlen (i_key e) <= K -> StronglySorted key_lt (map i_key (tl cur)) ->
  zlen fl + 1 <= N ->
  wp tp_fails (add_pointer r leaf (i_key e) (i_page_id e)) (fun r' => rebuilding r' D fl pv kc (cur ++ [e]) \/
    ((2 <= length cur)%nat /\ exists D' fl', rebuilding r' D' fl' (Some (kc, cur)) (i_key e) [e] /\
      match pv with None => fl' = fl | Some (k, ps) => exists id, fl' = fl ++ [mkBuilt k id ps] end)).
Proof.
  intros HK Hri Hids Hke Hs HN. apply Forall_app in Hids as [Hids He]. apply Forall_cons_1 in He as [He _].
  pose proof Hri as [Hr Hbl Hkey Hfull].
  destruct (builds_add opts Hopts leaf _ _ e Hbl He) as (ok & b' & HA & Hok). unfold IndexStack.add_pointer. rewrite HA. cbn [mbind option_bind].
  set (r1 := mkRebuild (rb_task r) b' (rb_prev r) (rb_prev_key r) (rb_prev_id r) (rb_cur_key r)).
  assert (Hr1 : rebuilt r1 D fl pv) by (destruct Hr; constructor; auto). destruct ok.
  - cbn [wp]. left. constructor; auto.
  - destruct Hok as (Hbl' & Hne & Hbig & Hest). eapply wp_bind_mono.
    { apply (close_page Hst K r1 D fl pv kc cur HK); auto; [constructor; auto|]. change (rb_builder r1) with b'. rewrite Hest. lia. }
    intros r2 (D' & fl' & Hr2 & Hf2 & Hfl). destruct (IndexAdd_first opts [] (i_page_id e) leaf Hopts) as (bn & HAn & Hin).
    rewrite HAn. cbn [mbind option_bind wp]. right. split.
    + destruct cur as [|p [|q cur]]; [congruence| |simpl; lia]. exfalso. pose proof (builds_single opts Hopts leaf _ _ Hbl) as Hone.
      unfold index_keys_fit in HK. change IndexHeaderSize with 15 in Hone. pose proof (zlen_nonneg (i_key e)). lia.
    + exists D', fl'. split; [|exact Hfl]. constructor; auto.
      * destruct Hr2; constructor; auto.
      * exists [], []. split; [exact Hin|]. split; [reflexivity|congruence].
Qed.

(** ** All pointers of a page *)
Definition groups (fl : list Built) (pv : option (bytes * list IndexEntry)) (kc : bytes) (cur : list IndexEntry)
    : list (bytes * list IndexEntry) :=
  map (fun g => (bu_key g, bu_ptrs g)) fl ++ match pv with Some g => [g] | None => [] end ++ [(kc, cur)].

Definition all_ptrs (gs : list (bytes * list IndexEntry)) : list IndexEntry := concat (map snd gs).

(** The first group has the key [k0], every other one that of its first pointer. *)
Definition keyed (k0 : bytes) (gs : list (bytes * list IndexEntry)) : Prop :=
  match gs with
  | [] => True
  | g :: gs' => fst g = k0 /\ Forall (fun g => match snd g with p :: _ => fst g = i_key p | [] => False end) gs'
  end.

Lemma keyed_snoc k0 gs k p : gs <> [] -> keyed k0 gs -> k = i_key p -> keyed k0 (gs ++ [(k, [p])]).
Proof using Type.
  destruct gs as [|g gs]; [congruence|]. intros _ [H1 H2] ->. split; [exact H1|]. apply Forall_app_2; [exact H2|].
  constructor; [reflexivity|constructor].
Qed.

Lemma keyed_extend k0 gs k cur e : keyed k0 (gs ++ [(k, cur)]) -> (gs = [] \/ cur <> []) -> keyed k0 (gs ++ [(k, cur ++ [e])]).
Proof using Type.
  destruct gs as [|g gs]; [intros [H1 _] _; split; [exact H1|constructor]|]. intros [H1 H2] Hne. split; [exact H1|].
  apply Forall_app in H2 as [H2 H3]. apply Forall_app_2; [exact H2|]. apply Forall_cons_1 in H3 as [H3 _]. constructor; [|constructor].
  cbn [snd fst] in *. destruct cur; [destruct H3|exact H3].
Qed.

Lemma all_ptrs_app a c : all_ptrs (a ++ c) = all_ptrs a ++ all_ptrs c.
Proof using Type. unfold all_ptrs. rewrite map_app, concat_app. reflexivity. Qed.

Lemma all_ptrs_snoc gs k cur : all_ptrs (gs ++ [(k, cur)]) = all_ptrs gs ++ cur.
Proof using Type. rewrite all_ptrs_app. unfold all_ptrs at 2. cbn. rewrite app_nil_r. reflexivity. Qed.

Lemma sorted_part (a cur c : list IndexEntry) : StronglySorted key_lt (map i_key (tl ((a ++ cur) ++ c))) -> StronglySorted key_lt (map i_key (tl cur)).
Proof using Type.
  intros Hs. destruct a as [|x a].
  - destruct cur as [|p cur]; [constructor|]. cbn [app tl] in *. rewrite map_app in Hs. apply StronglySorted_app in Hs as (_ & Hs & _). exact Hs.
  - cbn [app tl] in Hs. rewrite <- app_assoc, !map_app in Hs. apply StronglySorted_app in Hs as (_ & _ & Hs).
    apply StronglySorted_app in Hs as (_ & Hs & _). destruct cur as [|p cur]; [constructor|]. apply StronglySorted_inv in Hs as [Hs _]. exact Hs.
Qed.

Definition closed (fl : list Built) (pv : option (bytes * list IndexEntry)) : list (bytes * list IndexEntry) :=
  map (fun g => (bu_key g, bu_ptrs g)) fl ++ match pv with Some g => [g] | None => [] end.

Lemma groups_closed fl pv kc cur : groups fl pv kc cur = closed fl pv ++ [(kc, cur)].
Proof using Type. unfold groups, closed. rewrite app_assoc. reflexivity. Qed.

(** The pointers [l] are in the pages; a page that is complete has two pointers
    at least. *)
Record pointers_in (k0 : bytes) (l : list IndexEntry) (fl : list Built) (pv : option (bytes * list IndexEntry)) (kc : bytes)
    (cur : list IndexEntry) : Prop := {
  pi_all : all_ptrs (groups fl pv kc cur) = l;
  pi_keyed : keyed k0 (groups fl pv kc cur);
  pi_count : (2 * length (closed fl pv) + length cur <= length l)%nat;
  pi_open : cur = [] -> closed fl pv = []
}.

Lemma close_groups fl pv kc cur fl' : match pv with None => fl' = fl | Some (k, ps) => exists id, fl' = fl ++ [mkBuilt k id ps] end ->
  (pv = None -> fl = []) -> closed fl' (Some (kc, cur)) = closed fl pv ++ [(kc, cur)].
Proof using Type.
  intros Hfl Hnone. unfold closed. destruct pv as [[k ps]|].
  - destruct Hfl as [id ->]. rewrite map_app, <- !app_assoc. reflexivity.
  - subst fl'. rewrite (Hnone eq_refl). reflexivity.
Qed.

Lemma add_pointers_spec (Hst : rebuild_start) K k0 l : index_keys_fit K -> forall r D fl pv kc cur done, rebuilding r D fl pv kc cur ->
  pointers_in k0 done fl pv kc cur -> Forall (fun e => 0 <= i_page_id e < 2 ^ 31) (done ++ l) -> Forall (fun e => zlen (i_key e) <= K) l ->
  StronglySorted key_lt (map i_key (tl (done ++ l))) -> zlen (done ++ l) <= N ->
  wp tp_fails (add_pointers r leaf l) (fun r' => exists D' fl' pv' kc' cur', rebuilding r' D' fl' pv' kc' cur' /\
    pointers_in k0 (done ++ l) fl' pv' kc' cur').
Proof.
  intros HK. induction l as [|e l IH]; intros r D fl pv kc cur done Hri Hpi Hids Hkl Hs HN; cbn [IndexStack.add_pointers].
  { cbn [wp]. rewrite app_nil_r. exists D, fl, pv, kc, cur. auto. }
  apply Forall_cons_1 in Hkl as [Hke Hkl]. pose proof Hpi as [P1 P2 P3 P4]. rewrite groups_closed in P1, P2. rewrite all_ptrs_snoc in P1.
  assert (Hassoc : done ++ e :: l = (done ++ [e]) ++ l) by (rewrite <- app_assoc; reflexivity). rewrite Hassoc in *.
  eapply wp_bind_mono.
  { apply (add_pointer_spec Hst K r D fl pv kc cur e HK Hri); [|exact Hke| |].
    - apply Forall_app in Hids as [Hids _]. rewrite <- P1, <- app_assoc in Hids. apply Forall_app in Hids as [_ Hids]. exact Hids.
    - rewrite <- P1 in Hs. rewrite <- app_assoc in Hs. exact (sorted_part _ _ _ Hs).
    - unfold closed in P3. rewrite length_app, length_map in P3. unfold zlen in *. rewrite !length_app in HN. cbn [length] in HN. lia. }
  intros r' [Hri'|(Hlen & D' & fl' & Hri' & Hfl)].
  - apply (IH r' D fl pv kc (cur ++ [e]) (done ++ [e]) Hri'); auto. constructor; rewrite ?groups_closed.
    + rewrite all_ptrs_snoc, app_assoc, P1. reflexivity.
    + apply keyed_extend; [exact P2|]. destruct cur; [left; apply P4; reflexivity|right; discriminate].
    + rewrite !length_app. cbn [length]. lia.
    + destruct cur; discriminate.
  - assert (Hcl : closed fl' (Some (kc, cur)) = closed fl pv ++ [(kc, cur)]).
    { apply close_groups; [exact Hfl|]. intros ->. apply (rg_prev _ _ _ _ (ri_rebuilt _ _ _ _ _ _ Hri)). }
    apply (IH r' D' fl' (Some (kc, cur)) (i_key e) [e] (done ++ [e]) Hri'); auto. constructor; rewrite ?groups_closed, ?Hcl.
    + rewrite all_ptrs_snoc, all_ptrs_snoc, P1. reflexivity.
    + apply keyed_snoc; [intros Hn; apply app_eq_nil in Hn as [_ Hn]; discriminate|exact P2|reflexivity].
    + rewrite !length_app. cbn [length]. lia.
    + discriminate.
Qed.

(** ** The last page *)

(** A page that is nearly empty takes pointers from the page before it, and none
    is lost: the property of the options on which an index page rests. *)
Definition redistributes (K : Z) : Prop :=
  forall prev page ps p2 seps2 n num len c, node_page opts leaf prev ps -> full_regions opts prev ps ->
  node_page opts leaf page (p2 :: seps2) -> full_regions opts page (p2 :: seps2) ->
  Forall (fun e => 0 <= i_page_id e < 2 ^ 31) (ps ++ p2 :: seps2) -> Forall (fun e => zlen (i_key e) <= K) (tl (ps ++ p2 :: seps2)) ->
  StronglySorted key_lt (map i_key (tl (ps ++ p2 :: seps2))) ->
  RestartNum prev = Some num -> ContentLength prev = Some len -> ContentLength page = Some c -> c <= n -> sparse_after opts n num len = true ->
  exists prev' page' ps' p' seps', IndexRedistribute opts prev page (i_key p2) = Some (prev', page', i_key p') /\
    ps' ++ p' :: seps' = ps ++ p2 :: seps2 /\ node_page opts leaf prev' ps' /\ short_node page' (p' :: seps').

(** The pages [R] hold the pointers [M]. *)
Definition built_of (R : list Built) : list (bytes * list IndexEntry) := map (fun g => (bu_key g, bu_ptrs g)) R.

Record holds_pointers (k0 : bytes) (M : list IndexEntry) (R : list Built) : Prop := {
  hp_all : all_ptrs (built_of R) = M;
  hp_keyed : keyed k0 (built_of R);
  hp_count : (2 * length R <= length M + 1)%nat;
  hp_some : R <> []
}.

Lemma builds_length b p seps : builds opts leaf b (p :: seps) -> 0 <= i_page_id p < 2 ^ 31 ->
  exists c, ContentLength (fst (IndexFinish opts b)) = Some c /\ c <= u16 (IndexSizeEstimate b).
Proof.
  intros Hbl Hid. pose proof (estimate_range _ _ Hbl) as Hr. destruct Hbl as (init & lastr & Hi & Hc & _).
  pose proof (IndexFinish_format opts leaf _ init lastr b Hopts Hi (id_u32 _ Hid)) as HF.
  destruct (IndexFinish opts b) as [page b']. destruct HF as (Hf & _). cbn [fst]. destruct (format_lengths _ _ _ _ Hf) as [HL _].
  exists (content_size enc_index IndexHeaderSize (index_regions init lastr)). split; [exact HL|].
  destruct Hopts as [Hps _]. rewrite u16_id by (unfold is_u16; lia). rewrite (index_size_estimate _ _ _ _ _ _ Hi) by lia.
  destruct (index_finish_parts opts leaf _ init lastr b Hps Hi) as (Hrs & Hbuf & _).
  assert (Hle : zlen (if ib_cnt b =? 1 then [] else ib_restarts b) <= zlen (ib_restarts b)).
  { destruct (ib_cnt b =? 1); [rewrite (@zlen_nil Z); apply zlen_nonneg|lia]. }
  rewrite Hrs in Hle. unfold zlen at 1 in Hle. rewrite region_offsets_length in Hle. unfold content_size.
  rewrite Hbuf at 1. rewrite zlen_app, index_header_length. unfold zlen at 2. lia.
Qed.

Definition keyed_rest : list (bytes * list IndexEntry) -> Prop :=
  Forall (fun g => match snd g with p :: _ => fst g = i_key p | [] => False end).

Lemma keyed_replace k0 gs k ps ps' rest rest' : ps <> [] -> hd_error ps' = hd_error ps -> keyed k0 (gs ++ (k, ps) :: rest) ->
  keyed_rest rest' -> keyed k0 (gs ++ (k, ps') :: rest').
Proof using Type.
  intros Hne Hh HK Hrest. destruct gs as [|g gs]; destruct HK as [H1 H2]; (split; [exact H1|]); [exact Hrest|].
  apply Forall_app in H2 as [H2 H3]. apply Forall_app_2; [exact H2|].
  apply Forall_cons_1 in H3 as [H3 _]. constructor; [|exact Hrest]. cbn [snd fst] in *. destruct ps as [|p ps]; [congruence|].
  destruct ps' as [|p' ps']; [discriminate Hh|]. injection Hh as ->. exact H3.
Qed.

(** What [Pop] does when pointers are left: the result, the task and whether the
    page was split. *)
Definition finish_pages (r : Rebuild) : option (Z * Batch * bytes) :=
  r' ← FinishIndexPage opts hash r;
  page ← rb_prev r';
  '(id, b) ← FlushIndexPage hash (rb_task r') page (rb_prev_key r') (rb_prev_id r') (match rb_prev r with Some _ => true | None => false end);
  Some (id, b, page).

Lemma finish_single (Hst : rebuild_start) r D kc p seps : rebuilding r D [] None kc (p :: seps) ->
  0 <= i_page_id p < 2 ^ 31 -> StronglySorted key_lt (map i_key seps) -> 1 <= N ->
  wp tp_fails (finish_pages r) (fun '(id, b', page) => exists D', pages_built b' D' [mkBuilt kc id (p :: seps)] /\ stack_ b' = top :: above).
Proof.
  intros [Hr Hbl <- _] Hid Hs HN. unfold finish_pages. pose proof (rg_prev _ _ _ _ Hr) as [Hprev _]. rewrite Hprev.
  eapply wp_bind_mono; [exact (finish_first_page r D p seps Hr Hbl Hid Hs)|]. intros r' [Hr' _].
  destruct (rg_prev _ _ _ _ Hr') as (Hk & page & Hp & Hn). rewrite Hp. cbn [mbind option_bind]. rewrite Hk, (rg_prev_id _ _ _ _ Hr').
  eapply wp_bind_mono; [exact (flush_prev Hst (rb_task r') D [] (rb_cur_key r) (p :: seps) page false (rg_built _ _ _ _ Hr')
    (rg_stack _ _ _ _ Hr') Hn (or_intror (conj eq_refl eq_refl)) HN)|].
  intros [id b'] (D' & Hb & Hstk). cbn [wp]. exists D'. auto.
Qed.

(** The page before, which may be written with fewer pointers, and the last one. *)
Lemma finish_split (Hst : rebuild_start) K r D fl k ps kc p2 seps2 : redistributes K -> rebuilding r D fl (Some (k, ps)) kc (p2 :: seps2) ->
  kc = i_key p2 -> Forall (fun e => 0 <= i_page_id e < 2 ^ 31) (ps ++ p2 :: seps2) -> Forall (fun e => zlen (i_key e) <= K) (tl (ps ++ p2 :: seps2)) ->
  StronglySorted key_lt (map i_key (tl (ps ++ p2 :: seps2))) -> zlen fl + 1 <= N ->
  wp tp_fails (FinishIndexPage opts hash r) (fun r' => exists D' id ps' p' seps', ps' ++ p' :: seps' = ps ++ p2 :: seps2 /\ ps' <> [] /\
    rebuilt r' D' (fl ++ [mkBuilt k id ps']) (Some (i_key p', p' :: seps'))).
Proof.
  intros HR [Hr Hbl Hkey Hfull] Hkc Hids Hkl Hs HN. destruct (rg_prev _ _ _ _ Hr) as (_ & prev & Hprev & Hn).
  destruct Hfull as (prev1 & Hprev1 & Hfull). assert (prev1 = prev) as -> by congruence.
  destruct (node_lengths _ _ Hn) as (num & len & Hnum & Hlen). pose proof Hids as Hids2. apply Forall_app in Hids2 as [_ Hid2].
  apply Forall_cons_1 in Hid2 as [Hid2 _].
  assert (Hs2 : StronglySorted key_lt (map i_key seps2)).
  { rewrite <- (app_nil_r (ps ++ p2 :: seps2)) in Hs. exact (sorted_part _ _ _ Hs). }
  destruct (builds_finish opts Hopts leaf _ p2 seps2 Hbl Hid2 Hs2) as (Hn2 & Hf2 & Hz2).
  destruct (builds_length _ _ _ Hbl Hid2) as (c & Hc & Hcle).
  assert (Hps : ps <> []) by (destruct ps; [destruct Hn|discriminate]).
  destruct (sparse_after opts (u16 (IndexSizeEstimate (rb_builder r))) num len) eqn:Esp.
  all: rewrite Hkc in Hkey.
  - destruct (HR prev _ ps p2 seps2 _ num len c Hn Hfull Hn2 Hf2 Hids Hkl Hs Hnum Hlen Hc Hcle Esp) as (prev' & page' & ps' & p' & seps' & HI & He & Hn' & Hc').
    eapply wp_mono; [apply (finish_next_page Hst r D fl k ps (p2 :: seps2) prev prev' page' (i_key p') ps' (p' :: seps') num len);
      rewrite ?Esp, ?Hkey; auto|].
    intros r' (D' & id & Hr' & _). exists D', id, ps', p', seps'. split; [exact He|]. split; [|exact Hr']. destruct ps'; [destruct Hn'|discriminate].
  - eapply wp_mono; [apply (finish_next_page Hst r D fl k ps (p2 :: seps2) prev prev (fst (IndexFinish opts (rb_builder r))) (i_key p2) ps (p2 :: seps2) num len);
      rewrite ?Esp, ?Hkey; auto; split; [lia|apply Hn2]|].
    intros r' (D' & id & Hr' & _). exists D', id, ps, p2, seps2. auto.
Qed.

Lemma closed_built fl k ps : closed fl (Some (k, ps)) = built_of fl ++ [(k, ps)].
Proof using Type. reflexivity. Qed.

Lemma built_of_app a c : built_of (a ++ c) = built_of a ++ built_of c.
Proof using Type. apply map_app. Qed.

Lemma holds_split k0 M fl k ps kc p2 seps2 ps' p' seps' id id' : pointers_in k0 M fl (Some (k, ps)) kc (p2 :: seps2) -> ps <> [] ->
  ps' ++ p' :: seps' = ps ++ p2 :: seps2 -> ps' <> [] ->
  holds_pointers k0 M ((fl ++ [mkBuilt k id ps']) ++ [mkBuilt (i_key p') id' (p' :: seps')]).
Proof using Type.
  intros [P1 P2 P3 _] Hne He Hne'. rewrite groups_closed, closed_built in P1, P2. rewrite closed_built, length_app in P3.
  unfold built_of in P3. rewrite length_map in P3. cbn [length] in P3. constructor.
  - rewrite !built_of_app. cbn [built_of map bu_key bu_ptrs]. rewrite !all_ptrs_snoc, <- app_assoc, He, <- P1, !all_ptrs_snoc, <- app_assoc. reflexivity.
  - rewrite !built_of_app. cbn [built_of map bu_key bu_ptrs]. rewrite <- app_assoc in *. cbn [app] in *.
    apply (keyed_replace k0 _ k ps ps' [(kc, p2 :: seps2)] _ Hne).
    + destruct ps' as [|x ps']; [congruence|]. destruct ps as [|y ps]; [congruence|]. injection He as -> _. reflexivity.
    + exact P2.
    + constructor; [reflexivity|constructor].
  - rewrite !length_app. cbn [length]. lia.
  - intros Hn. apply app_eq_nil in Hn as [_ Hn]. discriminate.
Qed.

Definition parent_told (split : bool) (R : list Built) : list IndexStackEntry :=
  if split then add_to_parent above (built_ups (pushed R)) else above.

Lemma finish_pages_spec (Hst : rebuild_start) K r D fl pv kc cur k0 M : redistributes K -> rebuilding r D fl pv kc cur ->
  pointers_in k0 M fl pv kc cur -> M <> [] -> Forall (fun e => 0 <= i_page_id e < 2 ^ 31) M -> Forall (fun e => zlen (i_key e) <= K) (tl M) ->
  StronglySorted key_lt (map i_key (tl M)) -> zlen M <= N ->
  wp tp_fails (finish_pages r) (fun '(id, b', page) => exists D' R, pages_built b' D' R /\ holds_pointers k0 M R /\
    stack_ b' = top :: parent_told (1 <? zlen R) R /\ (1 <? zlen R) = match rb_prev r with Some _ => true | None => false end /\
    (zlen R = 1 -> map bu_id R = [id])).
Proof.
  intros HR Hri Hpi Hne Hids Hkl Hs HN. pose proof (pi_count _ _ _ _ _ _ Hpi) as Hcnt. destruct cur as [|p seps].
  { destruct Hpi as [P1 _ _ P4]. rewrite groups_closed, (P4 eq_refl) in P1. cbn in P1. congruence. }
  pose proof (pi_all _ _ _ _ _ _ Hpi) as Hall. rewrite groups_closed, all_ptrs_snoc in Hall. destruct pv as [[k ps]|].
  - pose proof (rg_prev _ _ _ _ (ri_rebuilt _ _ _ _ _ _ Hri)) as (_ & prev & Hprev & Hn). rewrite Hprev.
    assert (Hps : ps <> []) by (destruct ps; [destruct Hn|discriminate]).
    assert (Hfl : zlen fl + 2 <= N).
    { rewrite closed_built in Hcnt. unfold built_of in Hcnt. rewrite length_app, length_map in Hcnt. cbn [length] in Hcnt. unfold zlen in *. lia. }
    rewrite closed_built, all_ptrs_snoc, <- app_assoc in Hall. pose proof (pi_keyed _ _ _ _ _ _ Hpi) as Hkeyed. rewrite groups_closed, closed_built in Hkeyed.
    assert (Hkc : kc = i_key p).
    { rewrite <- app_assoc in Hkeyed. destruct (built_of fl) as [|g gs]; destruct Hkeyed as [_ Hkeyed].
      - apply Forall_cons_1 in Hkeyed as [Hk _]. exact Hk.
      - apply Forall_app in Hkeyed as [_ Hkeyed]. apply Forall_cons_1 in Hkeyed as [_ Hkeyed]. apply Forall_cons_1 in Hkeyed as [Hk _]. exact Hk. }
    unfold finish_pages. eapply wp_bind_mono.
    { apply (finish_split Hst K r D fl k ps kc p seps HR Hri Hkc).
      - rewrite <- Hall in Hids. apply Forall_app in Hids as [_ Hids]. exact Hids.
      - rewrite <- Hall in Hkl. destruct (all_ptrs (built_of fl)) as [|x l]; [exact Hkl|]. apply Forall_app in Hkl as [_ Hkl].
        destruct ps; [congruence|]. apply Forall_cons_1 in Hkl as [_ Hkl]. exact Hkl.
      - rewrite <- Hall in Hs. rewrite <- (app_nil_r (ps ++ p :: seps)) in Hs. rewrite (app_assoc _ (ps ++ _)) in Hs. exact (sorted_part _ _ _ Hs).
      - lia. }
    intros r' (D' & id & ps' & p' & seps' & He & Hne' & Hr'). destruct (rg_prev _ _ _ _ Hr') as (Hk' & page' & Hp' & Hn'). rewrite Hp', Hprev.
    cbn [mbind option_bind]. rewrite Hk', (rg_prev_id _ _ _ _ Hr').
    eapply wp_bind_mono; [exact (flush_prev Hst (rb_task r') D' _ (i_key p') (p' :: seps') page' true (rg_built _ _ _ _ Hr')
      (rg_stack _ _ _ _ Hr') Hn' (or_introl eq_refl) ltac:(rewrite zlen_app; change (zlen [_]) with 1; lia))|].
    intros [id' b'] (D'' & Hb & Hstk). cbn [wp]. exists D'', ((fl ++ [mkBuilt k id ps']) ++ [mkBuilt (i_key p') id' (p' :: seps')]).
    assert (Hlen : (1 <? zlen ((fl ++ [mkBuilt k id ps']) ++ [mkBuilt (i_key p') id' (p' :: seps')])) = true).
    { apply Z.ltb_lt. rewrite !zlen_app. pose proof (zlen_nonneg fl). change (zlen [_]) with 1. lia. }
    rewrite Hlen. split; [exact Hb|]. split; [exact (holds_split _ _ _ _ _ _ _ _ _ _ _ _ _ Hpi Hps He Hne')|]. split; [exact Hstk|]. split; [reflexivity|].
    apply Z.ltb_lt in Hlen. lia.
  - assert (fl = []) as -> by apply (rg_prev _ _ _ _ (ri_rebuilt _ _ _ _ _ _ Hri)). cbn in Hall. subst M.
    pose proof (rg_prev _ _ _ _ (ri_rebuilt _ _ _ _ _ _ Hri)) as [Hprev _]. rewrite Hprev. apply Forall_cons_1 in Hids as [Hid _].
    eapply wp_mono; [exact (finish_single Hst r D kc p seps Hri Hid Hs ltac:(rewrite zlen_cons in HN; pose proof (zlen_nonneg seps); lia))|]. intros [[id b'] page] (D' & Hb & Hstk).
    exists D', [mkBuilt kc id (p :: seps)]. split; [exact Hb|]. split; [|split; [exact Hstk|split; [reflexivity|reflexivity]]].
    destruct Hpi as [P1 P2 P3 P4]. constructor; [exact P1|exact P2|cbn; lia|discriminate].
Qed.

(** ** [Pop] *)

(** The page had no pointers left and was freed. *)
Record page_dropped (b : Batch) (id : Z) : Prop := {
  pd_task : task_inv b (D0 ∖ {[id]}) os;
  pd_memory : same_memory b0 b;
  pd_frame : forall q, q ∈ D0 -> q <> id -> eff b q = eff b0 q;
  pd_keeps : keeps opts (D0 ∖ {[id]}) b0 b
}.

Definition parent_deletes (id : Z) : list IndexStackEntry :=
  match above with
  | [] => []
  | p :: above' => with_changes p (se_changes p ++ [mkIndexOp (i_key (se_pointer p)) id Delete]) :: above'
  end.

Definition own_key : bytes := match above with [] => [] | p :: _ => i_key (se_pointer p) end.

Lemma drop_page (Hst : rebuild_start) id b (o : bytes -> IndexOp) : own = Some id -> stored opts b0 id ->
  task_inv b D0 os -> same_memory b0 b -> (forall q, q ∈ D0 -> q <> id -> eff b q = eff b0 q) -> keeps opts D0 b0 b -> stack_ b = top :: above ->
  (forall k, o k = mkIndexOp k id Delete) ->
  wp tp_fails (b ← FreePage b id; Some (None (A := PageRef), pop_back (parent_change b o))) (fun '(ref, b') =>
    ref = None /\ page_dropped b' id /\ stack_ b' = parent_deletes id).
Proof.
  intros Ho Hsto Hinv Hmem Hfr Hkeep Hstk Hop. destruct (rs_own Hst id Ho) as (HD & Hn & _).
  assert (Hn' : ~ In id (triple_ids b)) by (rewrite (same_memory_ids _ _ Hmem); exact Hn).
  eapply wp_bind_mono; [exact (free_held_page opts b D0 os id (ti_store _ _ _ _ Hinv) HD (Hkeep id HD Hsto))|].
  intros b1 (s' & -> & Hs' & Hq). cbn [wp]. split; [reflexivity|].
  assert (Hpd : forall st, page_dropped (with_stack (with_store b s') st) id).
  { intros st. constructor.
    - destruct Hinv as [_ I2 I3]. constructor; [exact Hs'|exact I2|]. intros q Hin. apply elem_of_difference. rewrite elem_of_singleton.
      split; [exact (I3 q Hin)|]. intros ->. exact (Hn' Hin).
    - exact Hmem.
    - intros q HqD Hne. rewrite <- (Hfr q HqD Hne). unfold TaskSpec.eff. do 3 apply over_ext. exact (Hq q HqD Hne).
    - intros q HqD Hs. apply elem_of_difference in HqD as [HqD Hne]. rewrite elem_of_singleton in Hne. unfold stored in *. cbn [bt_store with_store with_stack].
      rewrite (Hq q HqD Hne). exact (Hkeep q HqD Hs). }
  unfold pop_back, parent_change, parent_deletes. cbn [stack_ with_store]. rewrite Hstk. destruct above as [|p ab].
  - split; [apply Hpd|]. cbn [stack_ with_store with_stack tl]. rewrite Hstk. reflexivity.
  - cbn [stack_ with_stack with_store tl]. split; [apply Hpd|]. rewrite Hop. reflexivity.
Qed.

Lemma rebuild_started (Hst : rebuild_start) k0 : rebuilding (mkRebuild b0 IndexReset None [] (default MaxPageId own) k0) D0 [] None k0 [] /\
  pointers_in k0 [] [] None k0 [].
Proof.
  split.
  - constructor; [|reflexivity|reflexivity|exact I]. constructor; cbn [rb_task rb_prev].
    + constructor; auto using Forall_nil, NoDup_nil_2.
      * apply (rs_task Hst).
      * repeat split.
      * intros q. unfold new_built. destruct own; cbn; tauto.
      * unfold new_built. destruct own; intros g [].
      * intros q _ Hs. exact Hs.
    + rewrite push_none. apply (rs_stack Hst).
    + auto.
    + reflexivity.
  - constructor; [reflexivity|split; [reflexivity|constructor]|cbn; lia|auto].
Qed.

Lemma pages_built_stack b D R st : pages_built b D R -> pages_built (with_stack b st) D R.
Proof using Type. intros [H1 H2 H3 H4 H5 H6 H7 H8 H9 H10]. constructor; [apply task_inv_stack, H1|assumption..]. Qed.

Lemma Pop_spec (Hst : rebuild_start) K base M : index_keys_fit K -> redistributes K -> se_changes top <> [] ->
  handle_entries top = Some base -> merge_ptrs base (se_changes top) = Some M -> own = option_map fst (se_handle top) -> leaf = is_leaf_index_ top ->
  (forall id, own = Some id -> stored opts b0 id) -> (own = None -> M <> []) ->
  Forall (fun e => 0 <= i_page_id e < 2 ^ 31) M -> Forall (fun e => zlen (i_key e) <= K) M -> StronglySorted key_lt (map i_key (tl M)) ->
  zlen M <= N ->
  wp tp_fails (Pop opts hash b0) (fun '(ref, b') =>
    (M = [] /\ ref = None /\ exists id, own = Some id /\ page_dropped b' id /\ stack_ b' = parent_deletes id) \/
    (M <> [] /\ exists D' R, pages_built b' D' R /\ holds_pointers own_key M R /\ stack_ b' = parent_told (1 <? zlen R) R /\
       option_map fst ref = match R with [g] => Some (bu_id g) | _ => None end)).
Proof.
  intros HK HR Hch Hbase HM Hown Hleaf Hsto Hnull Hids Hkl Hs HN. unfold Pop. rewrite (rs_stack Hst).
  destruct (se_changes top) as [|o0 ch] eqn:Ech; [congruence|]. rewrite Hbase. cbn [mbind option_bind]. fold own_key.
  replace (match se_handle top with Some (id, _) => id | None => MaxPageId end) with (default MaxPageId own)
    by (rewrite Hown; destruct (se_handle top) as [[? ?]|]; reflexivity).
  rewrite (merge_pointers_ref base (o0 :: ch) _ _ _ M (le_n _) HM), <- Hleaf
    by (eapply Forall_impl; [|exact Hids]; intros e He; cbv beta in He; unfold MaxPageId; lia).
  destruct (rebuild_started Hst own_key) as [Hri Hpi].
  eapply wp_bind_mono; [exact (add_pointers_spec Hst K own_key M HK _ _ _ _ _ _ [] Hri Hpi Hids Hkl Hs HN)|].
  clear Hri Hpi. cbn [app]. intros r (D & fl & pv & kc & cur & Hri & Hpi). rewrite (builds_empty opts leaf _ _ (ri_builder _ _ _ _ _ _ Hri)).
  destruct cur as [|p seps].
  - destruct Hpi as [P1 _ _ P4]. rewrite groups_closed, (P4 eq_refl) in P1. cbn in P1. subst M. cbn [is_nil].
    specialize (P4 eq_refl). pose proof (ri_rebuilt _ _ _ _ _ _ Hri) as Hr. destruct fl; [|destruct pv; discriminate P4]. destruct pv; [discriminate P4|].
    destruct (se_handle top) as [[id page]|] eqn:Eh; [|exfalso; apply (Hnull Hown); reflexivity]. cbn [option_map fst] in Hown. cbn [mbind option_bind].
    assert (D = D0) as ->.
    { apply set_eq. intros q. rewrite (pb_held _ _ _ (rg_built _ _ _ _ Hr)). unfold new_built. destruct own; cbn; tauto. }
    eapply wp_mono; [apply (drop_page Hst id); auto|].
    + apply (pb_task _ _ _ (rg_built _ _ _ _ Hr)).
    + apply (pb_memory _ _ _ (rg_built _ _ _ _ Hr)).
    + intros q Hq Hne. apply (pb_frame _ _ _ (rg_built _ _ _ _ Hr)); [exact Hq|congruence].
    + apply (pb_keeps _ _ _ (rg_built _ _ _ _ Hr)).
    + rewrite (rg_stack _ _ _ _ Hr), push_none. reflexivity.
    + intros k. rewrite (rg_prev_id _ _ _ _ Hr). cbn. rewrite Hown. reflexivity.
    + intros [ref b'] (H1 & H2 & H3). left. eauto 10.
  - cbn [is_nil]. assert (HMne : M <> []).
    { intros ->. pose proof (pi_all _ _ _ _ _ _ Hpi) as P1. rewrite groups_closed, all_ptrs_snoc in P1. apply app_eq_nil in P1 as [_ P1]. discriminate. }
    assert (Hkl' : Forall (fun e => zlen (i_key e) <= K) (tl M)) by (destruct M; [congruence|apply Forall_cons_1 in Hkl as [_ Hkl]; exact Hkl]).
    pose proof (finish_pages_spec Hst K r D fl pv kc (p :: seps) own_key M HR Hri Hpi HMne Hids Hkl' Hs HN) as HF.
    match goal with |- wp _ ?m _ => replace m with
      ('(id, b, page) ← finish_pages r; Some (if match rb_prev r with Some _ => true | None => false end then None else Some (id, page), pop_back b)) end.
    2:{ unfold finish_pages. destruct (FinishIndexPage opts hash r) as [r'|]; [|reflexivity]. cbn [mbind option_bind].
        destruct (rb_prev r') as [pg|]; [|reflexivity]. cbn [mbind option_bind]. destruct (FlushIndexPage _ _ _ _ _ _) as [[? ?]|]; reflexivity. }
    eapply wp_bind_mono; [exact HF|]. intros [[id b'] page] (D' & R & Hb & Hh & Hstk & Hsplit & Hid). cbn [wp]. right. split; [exact HMne|].
    exists D', R. split; [exact (pages_built_stack _ _ _ _ Hb)|]. split; [exact Hh|]. split; [unfold pop_back; cbn [stack_ with_stack]; rewrite Hstk; reflexivity|].
    rewrite <- Hsplit. pose proof (hp_some _ _ _ Hh) as Hne. destruct R as [|g [|g2 R]]; [congruence| |].
    + injection (Hid eq_refl) as ->. reflexivity.
    + assert ((1 <? zlen (g :: g2 :: R)) = true) as -> by (apply Z.ltb_lt; rewrite !zlen_cons; pose proof (zlen_nonneg R); lia). reflexivity.
Qed.
End rebuild.
