(* ===== verification/Balance.v ===== *)
(** * Balancing two index pages

    [IndexRedistribute] moves pointers from an index page to the nearly empty one
    behind it.  It re-encodes what it moves and does not look at whether the builder
    took a pointer; this file shows that no pointer is lost as long as keys are
    short compared to the restart interval ([balance_fits]): the new page then has
    room for all of them. *)

From stdpp Require Import gmap sorting.
From S2P Require Import Prelude Coding Comparator PageFormat DataPage Regions DataPageIter RegionCopy IndexPage IndexPageIter.
From S2P Require Import PageIo ApplyPage Tree BatchTask IndexStack TaskSpec LeafSpec RebuildSpec.

(** ** What an entry costs *)
Lemma Varint32Size_mono a b : a <= b -> Varint32Size a <= Varint32Size b.
Proof. intros H. unfold Varint32Size. repeat case_if; lia. Qed.

Lemma Varint32Size_small v : 0 <= v -> Varint32Size v <= v + 1.
Proof. intros H. unfold Varint32Size. change (Z.shiftl 1 7) with 128. repeat case_if; lia. Qed.

Lemma Varint32Size_u16 v : v < 65536 -> Varint32Size v <= 3.
Proof. intros H. unfold Varint32Size. change (Z.shiftl 1 21) with 2097152. repeat case_if; lia. Qed.

Local Ltac sizes prev e :=
  pose proof (ishared_range prev (i_key e)); pose proof (Varint32Size_range (ishared prev (i_key e)));
  pose proof (Varint32Size_range (zlen (i_key e) - ishared prev (i_key e)));
  pose proof (Varint32Size_range (EncodeInt32Delta (i_page_id e - iprev_id prev))).

Lemma enc_index_min prev e : 3 <= zlen (enc_index prev e).
Proof. rewrite enc_index_size. sizes prev e. lia. Qed.

Lemma enc_index_max prev e : wf_index e -> zlen (enc_index prev e) <= zlen (i_key e) + 9.
Proof.
  intros He. rewrite enc_index_size. sizes prev e. pose proof (wfi_size _ He).
  pose proof (Varint32Size_small (ishared prev (i_key e)) ltac:(lia)).
  pose proof (Varint32Size_u16 (zlen (i_key e) - ishared prev (i_key e)) ltac:(lia)). lia.
Qed.

(** An entry behind a restart point takes its whole key. *)
Lemma enc_index_restart prev e : wf_index e -> zlen (enc_index None e) <= zlen (enc_index prev e) + zlen (i_key e) + 6.
Proof.
  intros He. rewrite (enc_index_size prev). pose proof (enc_index_max None e He). sizes prev e. lia.
Qed.

(** Behind another entry it takes no more, but for the page id. *)
Lemma enc_index_after q e : zlen (enc_index (Some q) e) <= zlen (enc_index None e) + 4.
Proof.
  rewrite !enc_index_size. sizes (Some q) e. sizes (@None IndexEntry) e. change (ishared None (i_key e)) with 0 in *.
  pose proof (Varint32Size_small (ishared (Some q) (i_key e)) ltac:(lia)).
  pose proof (Varint32Size_mono (zlen (i_key e) - ishared (Some q) (i_key e)) (zlen (i_key e) - 0) ltac:(lia)). lia.
Qed.

(** ** Weights

    [weighs G q l W]: wherever the restart points of a page fall, the entries [l],
    behind the entry [q], take at most [W] bytes, and [G] more for each restart
    point. *)
Inductive weighs (G : Z) : IndexEntry -> list IndexEntry -> Z -> Prop :=
  | weighs_nil q W : 0 <= W -> weighs G q [] W
  | weighs_cons q e l w W : zlen (enc_index (Some q) e) <= w -> zlen (enc_index None e) + 2 <= w + G ->
      weighs G e l W -> weighs G q (e :: l) (w + W).

Lemma weighs_le G q l W W' : weighs G q l W -> W <= W' -> weighs G q l W'.
Proof.
  intros H Hle. revert W' Hle. induction H as [q W H0|q e l w W H1 H2 _ IH]; intros W' Hle; [constructor; lia|].
  replace W' with (w + (W' - w)) by lia. constructor; [exact H1|exact H2|]. apply IH. lia.
Qed.

Lemma weighs_app G q a b W W' : weighs G q a W -> (forall q', weighs G q' b W') -> weighs G q (a ++ b) (W + W').
Proof.
  intros H Hb. induction H as [q W H0|q e l w W H1 H2 _ IH]; [eapply weighs_le; [apply Hb|lia]|].
  rewrite <- Z.add_assoc. constructor; assumption.
Qed.

Section weights.
  Context (K : Z).

  Local Abbreviation short := (Forall (fun e => wf_index e /\ zlen (i_key e) <= K)).

Lemma weighs_entries q l : short l -> weighs (K + 8) q l (zlen (enc_entries enc_index (Some q) l)).
Proof.
  intros Hs. revert q. induction l as [|e l IH]; intros q; [constructor; reflexivity|]. apply Forall_cons_1 in Hs as [[He Hk] Hs].
  cbn [enc_entries]. rewrite zlen_app. constructor; [reflexivity| |exact (IH Hs e)]. pose proof (enc_index_restart (Some q) e He). lia.
Qed.

Lemma weighs_region q r : 0 <= K -> short r -> weighs (K + 8) q r (zlen (enc_region enc_index r) + 4).
Proof.
  intros HK Hs. destruct r as [|e r]; [constructor; discriminate|]. apply Forall_cons_1 in Hs as [[He Hk] Hs]. unfold enc_region. cbn [enc_entries].
  rewrite zlen_app. pose proof (enc_index_after q e). replace (_ + _ + 4) with (zlen (enc_index None e) + 4 + zlen (enc_entries enc_index (Some e) r)) by lia.
  constructor; [lia|lia|]. exact (weighs_entries e r Hs).
Qed.

Lemma weighs_regions q rs : 0 <= K -> Forall short rs -> weighs (K + 8) q (concat rs) (zlen (blob enc_index rs) + 4 * zlen rs).
Proof.
  intros HK. revert q. induction rs as [|r rs IH]; intros q Hs; [apply weighs_nil; reflexivity|]. apply Forall_cons_1 in Hs as [Hr Hs].
  cbn [concat]. rewrite blob_cons, zlen_app, zlen_cons.
  apply (weighs_le _ _ _ ((zlen (enc_region enc_index r) + 4) + (zlen (blob enc_index rs) + 4 * zlen rs))); [|lia].
  apply weighs_app; [exact (weighs_region q r HK Hr)|]. intros q'. exact (IH q' Hs).
Qed.
End weights.

(** ** Filling a page *)
Section fill.
  Context (opts : KvOptions) (Hopts : valid_index_options opts) (leaf : bool) (G : Z).

  Local Abbreviation size := (content_size enc_index IndexHeaderSize).
  Local Abbreviation interval := (index_page_restart_interval opts).

Lemma inv_size lm init lastr b : index_inv opts leaf lm init lastr b ->
  zlen (ib_buffer b) + zlen (ib_restarts b) * 2 + 2 = size (init ++ [lastr]).
Proof using Type.
  intros Hi. rewrite (ii_buffer _ _ _ _ _ _ Hi), (ii_restarts _ _ _ _ _ _ Hi), zlen_app, index_header_length. unfold content_size.
  unfold zlen at 2. rewrite region_offsets_length. unfold zlen. lia.
Qed.

(** The entry behind which [Add] encodes the next one. *)
Definition add_prev (lastr : list IndexEntry) : option IndexEntry := if interval <=? zlen lastr then None else last_from None lastr.

Definition add_cost (lastr : list IndexEntry) (e : IndexEntry) : Z :=
  (if interval <=? zlen lastr then 2 else 0) + zlen (enc_index (add_prev lastr) e).

Lemma push_size init lastr e : let '(init', lastr') := push_index interval init lastr e in
  size (init' ++ [lastr']) = size (init ++ [lastr]) + add_cost lastr e.
Proof using Type.
  unfold push_index, add_cost, add_prev. destruct (interval <=? zlen lastr); unfold content_size.
  - rewrite (blob_snoc _ (init ++ [lastr])), !zlen_app, zlen_cons, (@zlen_nil (list IndexEntry)). unfold enc_region. cbn [enc_entries]. rewrite app_nil_r.
    rewrite zlen_cons, (@zlen_nil (list IndexEntry)). lia.
  - rewrite !blob_snoc, enc_region_snoc, !zlen_app, !zlen_cons, (@zlen_nil (list IndexEntry)). lia.
Qed.

(** [Add] takes an entry that fits. *)
Lemma IndexAdd_fits lm init lastr b e : index_inv opts leaf lm init lastr b -> wf_index e ->
  size (init ++ [lastr]) + add_cost lastr e <= data_page_size opts -> exists b', IndexAdd opts b (i_key e) (i_page_id e) leaf = Some (true, b').
Proof.
  intros Hi He Hfit. pose proof Hopts as [Hps _]. pose proof (wfi_size _ He). pose proof (wfi_id _ He) as Hid. pose proof (inv_size _ _ _ _ Hi) as Hsz.
  unfold IndexAdd, IndexIsEmpty. rewrite (ii_cnt _ _ _ _ _ _ Hi). destruct (Z.eqb_spec (1 + zlen (concat (init ++ [lastr]))) 0); [zlia|].
  rewrite bool_decide_true by (rewrite (ii_buffer _ _ _ _ _ _ Hi); apply index_type). cbn [negb].
  assert (Hpr : 0 <= iprev_id (add_prev lastr) < 2 ^ 31) by exact (iprev_id_range opts leaf lm init lastr b _ Hi).
  unfold add_cost in Hfit. unfold add_prev in *. rewrite (ii_counter _ _ _ _ _ _ Hi). rewrite enc_index_size in Hfit.
  set (restart := interval <=? zlen lastr) in *.
  assert (Hsh : (if restart then 0 else Z.of_nat (common_prefix (ib_last_key b) (i_key e))) = ishared (if restart then None else last_from None lastr) (i_key e)).
  { rewrite (ii_last_key _ _ _ _ _ _ Hi). destruct restart; reflexivity. }
  assert (Hpid : (if restart then 0 else ib_last_page_id b) = iprev_id (if restart then None else last_from None lastr)).
  { unfold restart in *. destruct (Z.leb_spec interval (zlen lastr)); [reflexivity|]. apply (ii_last_id _ _ _ _ _ _ Hi). assumption. }
  rewrite Hsh, Hpid, (index_size_estimate _ _ _ _ _ _ Hi) by lia. rewrite Hsz.
  rewrite (i32_id (i_page_id e)), (i32_id (i_page_id e - _)) by width. pose proof (ishared_range (if restart then None else last_from None lastr) (i_key e)).
  rewrite !(u32_id (ishared _ _)), !(u32_id (zlen (i_key e) - _)) by (unfold is_u32; zlia).
  destruct (Z.ltb_spec (data_page_size opts) (size (init ++ [lastr]) + ((if restart then 2 else 0) +
    Varint32Size (ishared (if restart then None else last_from None lastr) (i_key e)) +
    Varint32Size (zlen (i_key e) - ishared (if restart then None else last_from None lastr) (i_key e)) +
    (zlen (i_key e) - ishared (if restart then None else last_from None lastr) (i_key e)) +
    Varint32Size (EncodeInt32Delta (i_page_id e - iprev_id (if restart then None else last_from None lastr)))))) as [Hbig|_]; [lia|eauto].
Qed.

(** The builder has taken the pointer [p] and the entries [seps] of weight [W]. *)
Definition filled (b : IndexPageBuilder) (p : IndexEntry) (seps : list IndexEntry) (W : Z) : Prop :=
  exists init lastr, index_inv opts leaf (i_page_id p) init lastr b /\ concat (init ++ [lastr]) = seps /\ (seps <> [] -> lastr <> []) /\
    size (init ++ [lastr]) <= 19 + W + G * zlen (index_regions init lastr).

Lemma filled_builds b p seps W : filled b p seps W -> builds opts leaf b (p :: seps).
Proof using Type. intros (init & lastr & H1 & H2 & H3 & _). exists init, lastr. auto. Qed.

Lemma filled_first p : exists b, IndexAdd opts IndexReset [] (i_page_id p) leaf = Some (true, b) /\ filled b p [] 0.
Proof.
  destruct (IndexAdd_first opts [] (i_page_id p) leaf Hopts) as (b & HA & Hi). exists b. split; [exact HA|]. exists [], [].
  split; [exact Hi|]. split; [reflexivity|]. split; [congruence|]. change (index_regions [] []) with (@nil (list IndexEntry)). change (size ([] ++ [[]])) with 19.
  rewrite (@zlen_nil (list IndexEntry)). lia.
Qed.

(** How many regions there are. *)
Lemma regions_count init lastr M : Forall (fun r => zlen r = interval) init -> (concat (init ++ [lastr]) <> [] -> lastr <> []) ->
  0 <= M -> zlen (concat (init ++ [lastr])) <= interval * M -> zlen (index_regions init lastr) <= M.
Proof.
  intros Hf Hne HM Hl. destruct Hopts as [_ Hi]. unfold index_regions. destruct (concat (init ++ [lastr])) as [|x l] eqn:Hc; [exact HM|].
  specialize (Hne ltac:(discriminate)). rewrite <- Hc in Hl. rewrite concat_app, zlen_app in Hl. cbn [concat] in Hl. rewrite app_nil_r in Hl.
  assert (Hin : zlen (concat init) = interval * zlen init).
  { clear Hc Hl. induction init as [|r init IH]; [cbn [concat]; rewrite (@zlen_nil (list IndexEntry)), (@zlen_nil IndexEntry); lia|]. apply Forall_cons_1 in Hf as [Hr Hf]. cbn [concat]. rewrite zlen_app, zlen_cons, Hr, (IH Hf). lia. }
  assert (Hlast : 0 < zlen lastr) by (destruct lastr; [congruence|rewrite zlen_cons; zlia]).
  rewrite zlen_app, zlen_cons, (@zlen_nil (list IndexEntry)). nia.
Qed.

Lemma last_of_regions init (lastr : list IndexEntry) : lastr <> [] -> last_from None lastr = last_from None (concat (init ++ [lastr])).
Proof using Type.
  intros Hne. rewrite concat_app. cbn [concat]. rewrite app_nil_r. destruct lastr as [|e lastr _] using rev_ind; [congruence|].
  rewrite app_assoc, !last_from_snoc. reflexivity.
Qed.

Lemma count_regions init (lastr : list IndexEntry) : lastr <> [] -> zlen (index_regions init lastr) = zlen init + 1.
Proof using Type.
  intros Hl. unfold index_regions. destruct (concat (init ++ [lastr])) eqn:Ec.
  - rewrite concat_app in Ec. apply app_eq_nil in Ec as [_ Ec]. cbn in Ec. rewrite app_nil_r in Ec. contradiction.
  - rewrite zlen_app, zlen_cons, (@zlen_nil (list IndexEntry)). lia.
Qed.

(** What the next entry costs. *)
Lemma push_cost init lastr seps W q e w : 0 <= G -> concat (init ++ [lastr]) = seps -> (seps <> [] -> lastr <> []) ->
  size (init ++ [lastr]) <= 19 + W + G * zlen (index_regions init lastr) -> (seps = [] \/ last_from None seps = Some q) ->
  zlen (enc_index (Some q) e) <= w -> zlen (enc_index None e) + 2 <= w + G ->
  size (init ++ [lastr]) + add_cost lastr e <=
  19 + (W + w) + G * zlen (index_regions (fst (push_index interval init lastr e)) (snd (push_index interval init lastr e))).
Proof.
  intros HG Hc Hne Hsz Hlast Hw1 Hw2. pose proof Hopts as [_ Hint]. unfold add_cost, add_prev, push_index. destruct lastr as [|x lastr'].
  - assert (Hseps : seps = []) by (destruct seps; [reflexivity|destruct (Hne ltac:(discriminate)); reflexivity]). rewrite (@zlen_nil IndexEntry).
    rewrite (proj2 (Z.leb_gt _ _)) by lia. cbn [fst snd app last_from]. rewrite count_regions by discriminate. rewrite Hseps in Hc. unfold index_regions in Hsz.
    rewrite Hc in Hsz. rewrite (@zlen_nil (list IndexEntry)) in Hsz. pose proof (zlen_nonneg init). nia.
  - remember (x :: lastr') as l eqn:El. assert (Hnel : l <> []) by (rewrite El; discriminate).
    assert (Hseps : seps <> []) by (rewrite <- Hc, concat_app; cbn [concat]; rewrite app_nil_r, El; destruct (concat init); discriminate).
    destruct Hlast as [Hlast|Hlast]; [contradiction|]. rewrite <- Hc, <- (last_of_regions init l Hnel) in Hlast.
    rewrite (count_regions init l Hnel) in Hsz. destruct (interval <=? zlen l); cbn [fst snd].
    + rewrite count_regions by discriminate. rewrite zlen_app, zlen_cons, (@zlen_nil (list IndexEntry)). lia.
    + rewrite count_regions by (destruct l; discriminate). rewrite Hlast. lia.
Qed.

(** The room for [M] regions and entries of weight [W]. *)
Definition room (M W : Z) : Prop := 19 + W + G * M <= data_page_size opts.

Lemma filled_add b p seps W q e w M : 0 <= G -> 0 <= M -> filled b p seps W -> (seps = [] \/ last_from None seps = Some q) -> wf_index e ->
  zlen (enc_index (Some q) e) <= w -> zlen (enc_index None e) + 2 <= w + G -> zlen (seps ++ [e]) <= interval * M -> room M (W + w) ->
  exists b', IndexAdd opts b (i_key e) (i_page_id e) leaf = Some (true, b') /\ filled b' p (seps ++ [e]) (W + w).
Proof.
  intros HG HM (init & lastr & Hi & Hc & Hne & Hsz) Hlast He Hw1 Hw2 Hl Hroom. pose proof Hopts as [_ Hint].
  pose proof (push_index_concat interval init lastr e) as Hcat. pose proof (push_index_last interval init lastr e) as Hnl. pose proof (push_size init lastr e) as Hps.
  assert (Hfull : Forall (fun r => zlen r = interval) (fst (push_index interval init lastr e))).
  { pose proof (ii_full _ _ _ _ _ _ Hi) as Hf. pose proof (ii_last_max _ _ _ _ _ _ Hi). unfold push_index. destruct (Z.leb_spec interval (zlen lastr)); [|exact Hf].
    apply Forall_app_2; [exact Hf|]. constructor; [lia|constructor]. }
  pose proof (push_cost init lastr seps W q e w HG Hc Hne Hsz Hlast Hw1 Hw2) as Hcost.
  destruct (push_index interval init lastr e) as [init' lastr'] eqn:Hpush. cbn [fst snd] in *. rewrite Hc in Hcat.
  assert (Hcount : zlen (index_regions init' lastr') <= M).
  { apply regions_count; [exact Hfull|intros _; exact Hnl|exact HM|]. rewrite Hcat. exact Hl. }
  unfold room in Hroom. destruct (IndexAdd_fits _ _ _ _ _ Hi He) as (b' & HA); [nia|]. exists b'. split; [exact HA|].
  destruct (IndexAdd_inv opts leaf _ init lastr b (i_key e) (i_page_id e) Hopts Hi (wfi_id _ He)) as (ok & b2 & HA2 & Hres). rewrite HA in HA2. injection HA2 as <- <-.
  destruct Hres as [_ Hres]. replace (mkIndexEntry (i_key e) (i_page_id e)) with e in Hres by (destruct e; reflexivity). rewrite Hpush in Hres.
  exists init', lastr'. split; [exact Hres|]. split; [exact Hcat|]. split; [intros _; exact Hnl|]. lia.
Qed.

(** The loops that add what an iterator yields. *)
Lemma add_rest_filled v M : 0 <= G -> 0 <= M -> forall l c, iyields v c l -> forall fuel b p seps W W' q, weighs G q l W' -> Forall wf_index l ->
  filled b p seps W -> (seps = [] \/ last_from None seps = Some q) -> zlen (seps ++ l) <= interval * M -> room M (W + W') -> (length l < fuel)%nat ->
  exists b', add_rest opts fuel v c b leaf = Some b' /\ filled b' p (seps ++ l) (W + W').
Proof.
  intros HG HM l c Hy. induction Hy as [c H1 H2|c c' rest H1 H2 Hy IH]; intros fuel b p seps W W' q Hw Hwf Hfi Hlast Hl Hroom Hf;
    (destruct fuel as [|fuel]; [simpl in Hf; lia|]); cbn [add_rest]; rewrite H2; cbn [mbind option_bind].
  - exists b. split; [reflexivity|]. rewrite app_nil_r. destruct Hfi as (init & lastr & Hi & Hc & Hne & Hsz). exists init, lastr. repeat (split; [assumption|]).
    assert (H0 : 0 <= W') by (inversion Hw; assumption). lia.
  - apply Forall_cons_1 in Hwf as [He Hwf]. inversion Hw as [|q' e' l' w W1 Hw1 Hw2 Hw3]; subst.
    replace (seps ++ ic_entry c' :: rest) with ((seps ++ [ic_entry c']) ++ rest) in * by (rewrite <- app_assoc; reflexivity).
    assert (HW1 : 0 <= W1) by (clear -Hw3; induction Hw3 as [|? ? ? ? ? Ha _ _ IH]; [assumption|pose proof (zlen_nonneg (enc_index (Some q) e)); lia]).
    destruct (filled_add b p seps W q (ic_entry c') w M HG HM Hfi Hlast He Hw1 Hw2) as (b1 & HA & Hfi1).
    { rewrite zlen_app in Hl. pose proof (zlen_nonneg rest). lia. }
    { unfold room in *. lia. }
    rewrite HA. cbn [mbind option_bind].
    destruct (IH fuel b1 p (seps ++ [ic_entry c']) (W + w) W1 (ic_entry c') Hw3 Hwf Hfi1) as (b2 & HB & Hfi2); [right; apply last_from_snoc|exact Hl| |simpl in Hf; lia|].
    { unfold room in *. lia. }
    exists b2. split; [exact HB|]. replace (W + (w + W1)) with (W + w + W1) by lia. exact Hfi2.
Qed.
End fill.

(** ** Pages whose regions are full *)
Section packed.
  Context (opts : KvOptions) (Hopts : valid_index_options opts).

  Local Abbreviation interval := (index_page_restart_interval opts).
  Local Abbreviation size := (content_size enc_index IndexHeaderSize).

(** Every region but the last is full. *)
Fixpoint packed (rs : list (list IndexEntry)) : Prop :=
  match rs with
  | [] => True
  | r :: rs' => match rs' with [] => zlen r <= interval | _ => zlen r = interval end /\ packed rs'
  end.

Lemma packed_suffix a b : packed (a ++ b) -> packed b.
Proof using Type. induction a as [|r a IH]; [auto|]. intros [_ H]. exact (IH H). Qed.

Lemma packed_snoc init lastr : Forall (fun r => zlen r = interval) init -> zlen lastr <= interval -> packed (init ++ [lastr]).
Proof using Type.
  intros Hf Hl. induction init as [|r init IH]; [split; [exact Hl|exact I]|]. apply Forall_cons_1 in Hf as [Hr Hf]. specialize (IH Hf).
  cbn [app packed]. split; [|exact IH]. destruct (init ++ [lastr]) eqn:E; [destruct init; discriminate E|exact Hr].
Qed.

Lemma packed_count rs : packed rs -> zlen (concat rs) <= interval * zlen rs.
Proof.
  destruct Hopts as [_ Hi]. induction rs as [|r rs IH]; [intros _; rewrite (@zlen_nil (list IndexEntry)); cbn [concat]; rewrite (@zlen_nil IndexEntry); lia|].
  intros [Hr Hp]. specialize (IH Hp). cbn [concat]. rewrite zlen_app, zlen_cons. assert (zlen r <= interval) by (destruct rs; lia). lia.
Qed.

Lemma region_min prev es : 3 * zlen es <= zlen (enc_entries enc_index prev es).
Proof using Type.
  revert prev. induction es as [|e es IH]; intros prev; [reflexivity|]. cbn [enc_entries]. rewrite zlen_cons, zlen_app.
  pose proof (enc_index_min prev e). specialize (IH (Some e)). lia.
Qed.

Lemma packed_size rs : packed rs -> (zlen rs - 1) * (3 * interval + 2) <= zlen (blob enc_index rs) + 2 * zlen rs.
Proof.
  destruct Hopts as [_ Hi]. induction rs as [|r rs IH]; [intros _; rewrite (@zlen_nil (list IndexEntry)); change (zlen (blob enc_index [])) with 0; lia|].
  intros [Hr Hp]. specialize (IH Hp). rewrite blob_cons, zlen_app, zlen_cons. pose proof (region_min None r) as Hm. fold (enc_region enc_index r) in Hm.
  destruct rs as [|r2 rs]; [rewrite (@zlen_nil (list IndexEntry)); pose proof (zlen_nonneg (enc_region enc_index r)); pose proof (zlen_nonneg (blob enc_index [])); lia|].
  rewrite zlen_cons in *. lia.
Qed.

(** The regions of a page with the pointers [p :: seps]. *)
Record regions_of (page : bytes) (seps : list IndexEntry) (rs : list (list IndexEntry)) : Prop := {
  ro_format : page_format enc_index IndexHeaderSize rs page;
  ro_concat : concat rs = seps;
  ro_wf : Forall (Forall wf_index) rs;
  ro_nonempty : Forall (fun r => r <> []) rs;
  ro_packed : packed rs
}.

Lemma node_regions leaf page p seps : node_page opts leaf page (p :: seps) -> full_regions opts page (p :: seps) -> exists rs, regions_of page seps rs.
Proof.
  intros [(_ & _ & _ & _ & rs0 & _ & Hc0 & Hw0 & _) _] (init & lastr & Hf & Hc & Hfull & Hlast & Hne). cbn [tl] in Hc, Hne. destruct Hopts as [_ Hi].
  exists (index_regions init lastr). assert (Hcon : concat (index_regions init lastr) = seps) by (rewrite index_regions_concat; exact Hc).
  constructor; [exact Hf|exact Hcon| | |].
  - assert (Hw : Forall wf_index seps) by (rewrite <- Hc0; apply Forall_concat; exact Hw0). rewrite <- Hcon in Hw. apply Forall_concat. exact Hw.
  - unfold index_regions in *. destruct (concat (init ++ [lastr])); [constructor|]. apply Forall_app_2.
    + eapply Forall_impl; [|exact Hfull]. intros r Hr ->. cbv beta in Hr. rewrite (@zlen_nil IndexEntry) in Hr. lia.
    + constructor; [|constructor]. apply Hne. rewrite <- Hc. discriminate.
  - unfold index_regions. destruct (concat (init ++ [lastr])); [exact I|]. apply packed_snoc; assumption.
Qed.

(** A page cut to its content. *)
Lemma index_page_content page leaf lm seps rs : index_page page leaf lm seps -> regions_of page seps rs -> index_page (ztake (size rs) page) leaf lm seps.
Proof using Type.
  intros (Ht & Hs & Hlm & Hd & _) [Hf Hc Hw Hne _]. pose proof (content_size_fits _ _ _ _ Hf) as Hfit. assert (Hmin : 17 <= size rs) by exact (content_size_min enc_index IndexHeaderSize rs).
  destruct (content_format _ _ _ _ Hf) as [Hcf Hcl]. split; [|split; [exact Hs|split; [exact Hlm|split]]].
  - unfold TypeOfPage in *. unfold ztake. rewrite lookup_take_lt; [exact Ht|]. change (Z.to_nat page_type_offset) with 8%nat. lia.
  - assert (Hlen : zlen (zdrop leftmost_ptr_offset (ztake (size rs) page)) = size rs - leftmost_ptr_offset) by (rewrite zlen_zdrop; rewrite Hcl; change leftmost_ptr_offset with 11; lia).
    change leftmost_ptr_offset with 11 in *. rewrite <- (ztake_zdrop (size rs) page), zdrop_app_le in Hd by (rewrite Hcl; lia).
    destruct (zdrop 11 (ztake (size rs) page)) as [|b0 [|b1 [|b2 [|b3 l]]]]; unfold zlen in Hlen; simpl in Hlen; try lia. exact Hd.
  - exists rs. auto.
Qed.
End packed.

(** ** Redistribution *)

(** Half of two pages, the second of which is less than a quarter full, leaves
    room for the restart points of all its regions, with keys of [K] bytes. *)
Definition balance_fits (opts : KvOptions) (K : Z) : Prop :=
  let half := (data_page_size opts + data_page_size opts / 4) / 2 + 1 in
  half + (half / (3 * index_page_restart_interval opts + 2) + 2) * (K + 10) + K + 4 <= data_page_size opts.

Section balance.
  Context (opts : KvOptions) (Hopts : valid_index_options opts) (leaf : bool) (K : Z) (HK0 : 0 <= K).

  Local Abbreviation size := (content_size enc_index IndexHeaderSize).
  Local Abbreviation interval := (index_page_restart_interval opts).
  Local Abbreviation iter_at rs page := (format_iter enc_index IndexHeaderSize rs page).

Lemma header_kept buf len rest : 15 <= zlen buf ->
  let page := write_at (ztake IndexHeaderSize (SetPageType buf (index_page_type leaf))) page_size_offset (EncodeFixed16 len) ++ rest in
  TypeOfPage page = Some (PageType_code (index_page_type leaf)) /\
  forall lm, DecodeFixed32 (zdrop leftmost_ptr_offset buf) = Some lm -> DecodeFixed32 (zdrop leftmost_ptr_offset page) = Some lm.
Proof using Type.
  intros Hl. do 15 (destruct buf as [|? buf]; [unfold zlen in Hl; simpl in Hl; lia|]). clear Hl. split; [destruct leaf; reflexivity|]. intros lm Hd. exact Hd.
Qed.

(** The page before, with the regions that stay. *)
Lemma kept_page prev p seps keep move : node_page opts leaf prev (p :: seps) -> regions_of opts prev seps (keep ++ move) ->
  exists f, copy_n (length keep) opts (iter_at (keep ++ move) prev 0) (FastReset (mkFast [] 0 []) prev (index_page_type leaf)) = Some f /\
    node_page opts leaf (FastFinish f) (p :: concat keep).
Proof.
  intros [(Ht & Hs & Hlm & Hd & _) Hz] [Hf Hc Hw Hne _]. pose proof Hopts as [Hps _]. pose proof (content_size_fits _ _ _ _ Hf) as Hfit.
  pose proof (content_size_app_le enc_index IndexHeaderSize keep move) as Hle.
  assert (Hinit : fast_inv enc_index IndexHeaderSize opts (ztake IndexHeaderSize (SetPageType prev (index_page_type leaf))) []
    (FastReset (mkFast [] 0 []) prev (index_page_type leaf))) by (apply FastReset_inv; [destruct leaf; reflexivity|lia|exact Hz]).
  destruct (copy_n_format _ _ _ _ Hf opts _ [] _ [] keep move ltac:(lia) eq_refl Hinit ltac:(cbn [app]; lia)) as (f & Hcp & Hi).
  exists f. split; [exact Hcp|]. cbn [app] in Hi.
  destruct (FastFinish_format enc_index IndexHeaderSize opts ltac:(discriminate) ltac:(lia) _ _ _ Hi) as (Hf' & Hz' & rest & Hr).
  destruct (header_kept prev (size keep) rest) as [Ht' Hd']; [change IndexHeaderSize with 15 in *; lia|]. rewrite <- Hr in Ht', Hd'.
  rewrite <- Hc, concat_app, map_app in Hs. apply StronglySorted_app in Hs as (_ & Hs & _). apply Forall_app in Hw as [Hw _]. apply Forall_app in Hne as [Hne _].
  split; [|exact Hz']. split; [exact Ht'|]. split; [exact Hs|]. split; [exact Hlm|]. split; [exact (Hd' _ Hd)|]. exists keep. auto.
Qed.

(** The first pointer that moves. *)
Lemma seek_moved prev seps keep x g move : regions_of opts prev seps (keep ++ (x :: g) :: move) ->
  exists c1 c2, IndexSeekToRestart (format_view enc_index IndexHeaderSize (keep ++ (x :: g) :: move) prev) (zlen keep) = Some c1 /\
    IndexNext (format_view enc_index IndexHeaderSize (keep ++ (x :: g) :: move) prev) c1 = Some (true, c2) /\ ic_entry c2 = x /\
    iyields (format_view enc_index IndexHeaderSize (keep ++ (x :: g) :: move) prev) c2 (g ++ concat move).
Proof using Type.
  intros [Hf _ Hw Hne _]. set (rs := keep ++ (x :: g) :: move) in *. set (v := format_view enc_index IndexHeaderSize rs prev).
  set (c1 := mkIndexCursor (zpos enc_index IndexHeaderSize keep []) (zlen keep) no_pointer).
  assert (Hst : stands enc_index IndexHeaderSize rs prev (ic_offset c1) (ic_restart_idx c1) (idecodes_after c1) (length (concat keep)))
    by (apply (stands_region enc_index IndexHeaderSize rs prev Hne _ _ _ keep (x :: g) move); reflexivity).
  assert (Hseek : IndexSeekToRestart v (zlen keep) = Some c1).
  { unfold IndexSeekToRestart, v. rewrite (restart_here enc_index IndexHeaderSize rs prev Hf keep (x :: g) move eq_refl). reflexivity. }
  pose proof (iyields_stands rs prev Hf Hw Hne c1 _ Hst) as Hy. assert (Hc : concat rs = concat keep ++ x :: g ++ concat move) by (unfold rs; rewrite concat_app; reflexivity).
  rewrite Hc, drop_app_length in Hy. specialize (Hy ltac:(rewrite length_app; lia)). inversion Hy as [|? c2 rest Hn1 Hn2 Hy2 Hx]; subst.
  exists c1, c2. auto.
Qed.

Lemma short_regions rs : Forall (Forall wf_index) rs -> Forall (fun e => zlen (i_key e) <= K) (concat rs) ->
  Forall (Forall (fun e => wf_index e /\ zlen (i_key e) <= K)) rs.
Proof using Type.
  induction rs as [|r rs IH]; intros Hw Hk; [constructor|]. apply Forall_cons_1 in Hw as [Hr Hw]. cbn [concat] in Hk. apply Forall_app in Hk as [Hkr Hk].
  constructor; [|exact (IH Hw Hk)]. rewrite List.Forall_forall in Hr, Hkr |- *. auto.
Qed.

Lemma last_behind (a : list IndexEntry) (x : IndexEntry) : exists q, a = [] \/ last_from None a = Some q.
Proof using Type. destruct a as [|e a _] using rev_ind; [exists x; auto|]. exists e. right. apply last_from_snoc. Qed.

(** The new page takes the regions that move, the old leftmost pointer of the page
    and its regions. *)
Lemma moved_page x g move p2 rs2 v1 c1 v2 c2 f1 f2 : Forall (Forall wf_index) ((x :: g) :: move) -> Forall (Forall wf_index) rs2 -> wf_index p2 ->
  Forall (fun e => zlen (i_key e) <= K) (g ++ concat move ++ p2 :: concat rs2) -> packed opts ((x :: g) :: move) -> packed opts rs2 ->
  iyields v1 c1 (g ++ concat move) -> iyields v2 c2 (concat rs2) -> (length (g ++ concat move) < f1)%nat -> (length (concat rs2) < f2)%nat ->
  let M := zlen ((x :: g) :: move) + zlen rs2 in
  zlen (blob enc_index ((x :: g) :: move)) + zlen (blob enc_index rs2) + 17 + M * (K + 12) + K + 4 <= data_page_size opts ->
  exists b0 b1 b2 b3, IndexAdd opts IndexReset [] (i_page_id x) leaf = Some (true, b0) /\ add_rest opts f1 v1 c1 b0 leaf = Some b1 /\
    IndexAdd opts b1 (i_key p2) (i_page_id p2) leaf = Some (true, b2) /\ add_rest opts f2 v2 c2 b2 leaf = Some b3 /\
    builds opts leaf b3 (x :: (g ++ concat move) ++ p2 :: concat rs2).
Proof.
  intros Hw1 Hw2 Hwp Hk Hp1 Hp2 Hy1 Hy2 Hf1 Hf2 M Hfit. rewrite !Forall_app in Hk. destruct Hk as (Hkg & Hkm & Hk2). apply Forall_cons_1 in Hk2 as [Hkp Hk2].
  apply Forall_cons_1 in Hw1 as [Hwg Hwm]. apply Forall_cons_1 in Hwg as [Hwx Hwg]. pose proof (packed_count opts Hopts _ Hp1) as Hn1. pose proof (packed_count opts Hopts _ Hp2) as Hn2.
  cbn [concat] in Hn1. rewrite zlen_app, zlen_cons in Hn1. rewrite blob_cons, zlen_app in Hfit. unfold enc_region in Hfit. cbn [enc_entries] in Hfit. rewrite zlen_app in Hfit.
  pose proof (enc_index_min None x) as Hx. set (G := K + 8). assert (HG : 0 <= G) by (unfold G; lia).
  pose proof (zlen_nonneg ((x :: g) :: move)) as Hz1. pose proof (zlen_nonneg rs2) as Hz2. assert (HM : 0 <= M) by (unfold M; lia).
  assert (Hwt1 : weighs G x (g ++ concat move) (zlen (enc_entries enc_index (Some x) g) + (zlen (blob enc_index move) + 4 * zlen move))).
  { apply weighs_app; [apply weighs_entries; rewrite List.Forall_forall in Hwg, Hkg |- *; auto|]. intros q. apply (weighs_regions K q move HK0), short_regions; assumption. }
  assert (Hwt2 : forall q, weighs G q (concat rs2) (zlen (blob enc_index rs2) + 4 * zlen rs2)).
  { intros q. apply (weighs_regions K q rs2 HK0), short_regions; assumption. }
  set (W1 := zlen (enc_entries enc_index (Some x) g) + (zlen (blob enc_index move) + 4 * zlen move)) in *.
  set (W2 := zlen (blob enc_index rs2) + 4 * zlen rs2) in *. pose proof (zlen_nonneg (blob enc_index rs2)).
  assert (Hroom : room opts G M (W1 + (K + 9) + W2)) by (unfold room, G, W1, W2, M in *; rewrite zlen_cons in *; lia).
  assert (Hsub : forall W, W <= W1 + (K + 9) + W2 -> room opts G M W) by (unfold room in *; intros; lia).
  destruct (filled_first opts Hopts leaf G x) as (b0 & HA0 & Hfi0).
  destruct (add_rest_filled opts Hopts leaf G v1 M HG HM _ _ Hy1 f1 b0 x [] 0 W1 x Hwt1) as (b1 & HA1 & Hfi1); auto.
  { apply Forall_app_2; [exact Hwg|]. apply Forall_concat, Hwm. }
  { cbn [app]. rewrite zlen_app. unfold M. pose proof Hopts as [_ Hi]. lia. }
  { apply Hsub. unfold W2. lia. }
  cbn [app] in Hfi1. destruct (last_behind (g ++ concat move) x) as (q & Hq).
  destruct (filled_add opts Hopts leaf G b1 x (g ++ concat move) (0 + W1) q p2 (K + 9) M HG HM Hfi1 Hq Hwp) as (b2 & HA2 & Hfi2).
  { pose proof (enc_index_max (Some q) p2 Hwp). lia. }
  { pose proof (enc_index_max None p2 Hwp). unfold G. lia. }
  { rewrite !zlen_app, zlen_cons, (@zlen_nil IndexEntry). unfold M. pose proof Hopts as [_ Hi]. lia. }
  { apply Hsub. unfold W2. lia. }
  destruct (add_rest_filled opts Hopts leaf G v2 M HG HM _ _ Hy2 f2 b2 x _ _ W2 p2 (Hwt2 p2) (proj2 (Forall_concat _ _) Hw2) Hfi2) as (b3 & HA3 & Hfi3).
  { right. apply last_from_snoc. }
  { rewrite !zlen_app, zlen_cons, (@zlen_nil IndexEntry). unfold M. pose proof Hopts as [_ Hi]. lia. }
  { apply Hsub. lia. }
  { exact Hf2. }
  exists b0, b1, b2, b3. do 4 (split; [assumption|]). rewrite <- app_assoc in Hfi3. exact (filled_builds _ _ _ _ _ _ _ Hfi3).
Qed.

Lemma page_lengths prev page seps1 seps2 rs1 rs2 : regions_of opts prev seps1 rs1 -> regions_of opts page seps2 rs2 ->
  ContentLength prev = Some (size rs1) /\ ContentLength page = Some (size rs2) /\ 17 <= size rs2.
Proof using Type.
  intros [H1 _ _ _ _] [H2 _ _ _ _]. split; [exact (format_ContentLength _ _ _ _ H1)|]. split; [exact (format_ContentLength _ _ _ _ H2)|].
  exact (content_size_min enc_index IndexHeaderSize rs2).
Qed.

(** What moves fits next to what is there. *)
Lemma half_fits prev keep move rs2 : balance_fits opts K -> zlen prev = data_page_size opts -> page_format enc_index IndexHeaderSize (keep ++ move) prev ->
  packed opts (keep ++ move) -> packed opts rs2 -> size rs2 < size (keep ++ move) -> size rs2 <= data_page_size opts / 4 ->
  u16 (Z.shiftr (size (keep ++ move) + size rs2) 1) <= size keep ->
  zlen (blob enc_index move) + zlen (blob enc_index rs2) + 17 + (zlen move + zlen rs2) * (K + 12) + K + 4 <= data_page_size opts.
Proof.
  intros Hb Hz Hf Hp1 Hp2 Hlt Hq Hav. pose proof (content_size_u16 _ _ _ _ Hf) as Hu. pose proof (content_size_fits _ _ _ _ Hf) as Hfit. rewrite Hz in Hfit.
  assert (Hmin : 17 <= size rs2) by exact (content_size_min enc_index IndexHeaderSize rs2).
  destruct (average_bounds (size (keep ++ move)) (size rs2) ltac:(lia) Hu) as [_ Hav2].
  assert (Hsp : size (keep ++ move) + 15 + 2 = size keep + size move) by exact (content_size_split enc_index IndexHeaderSize keep move).
  assert (Hm : size move = 17 + zlen (blob enc_index move) + 2 * zlen move) by (unfold content_size; change IndexHeaderSize with 15; lia).
  assert (H2 : size rs2 = 17 + zlen (blob enc_index rs2) + 2 * zlen rs2) by (unfold content_size; change IndexHeaderSize with 15; lia).
  pose proof (packed_size opts Hopts _ (packed_suffix opts _ _ Hp1)) as Hc1. pose proof (packed_size opts Hopts _ Hp2) as Hc2.
  unfold balance_fits in Hb. cbv zeta in Hb. set (half := (data_page_size opts + data_page_size opts / 4) / 2 + 1) in Hb. set (unit := 3 * interval + 2) in *.
  assert (Hhalf : size (keep ++ move) + size rs2 - size keep <= half).
  { unfold half. set (sum := data_page_size opts + data_page_size opts / 4). pose proof (Z.div_mod sum 2 ltac:(lia)). pose proof (Z.mod_pos_bound sum 2 ltac:(lia)). unfold sum in *. lia. }
  assert (Hunit : 5 <= unit) by (unfold unit; destruct Hopts; lia).
  assert (Hcount : zlen move + zlen rs2 <= half / unit + 2).
  { assert (Hle : zlen move + zlen rs2 - 2 <= half / unit); [|lia]. apply Z.div_le_lower_bound; lia. }
  nia.
Qed.

Lemma sparse_lengths n num len : sparse_after opts n num len = true -> n < data_page_size opts / 4 /\ data_page_size opts - data_page_size opts / 4 < len.
Proof.
  pose proof Hopts as [Hps _]. unfold sparse_after. rewrite Z.shiftr_div_pow2 by lia. change (2 ^ 2) with 4.
  pose proof (Z.div_mod (data_page_size opts) 4 ltac:(lia)). pose proof (Z.mod_pos_bound (data_page_size opts) 4 ltac:(lia)). change IndexHeaderSize with 15 in Hps.
  rewrite !(u16_id (data_page_size opts / 4)) by (unfold is_u16; lia). rewrite u16_id by (unfold is_u16; lia).
  intros [[H1%Z.ltb_lt _]%andb_prop H2%Z.ltb_lt]%andb_prop. lia.
Qed.

(** The iterator of a page cut to its content, behind the leftmost pointer. *)
Lemma cur_iter cur p2 seps : index_page cur leaf (i_page_id p2) seps -> exists v c, page_view cur = Some v /\ IndexNext v fresh_index_cursor = Some (true, c) /\
  ic_entry c = mkIndexEntry [] (i_page_id p2) /\ iyields v c seps.
Proof using Type.
  intros Hp. destruct (index_page_view _ _ _ _ Hp) as (v & Hv & Hi). pose proof (iv_fresh _ _ _ Hi) as Hy. remember (mkIndexEntry [] (i_page_id p2) :: seps) as l eqn:Hl.
  destruct Hy as [|c0 c rest H1 H2 H3]; [discriminate Hl|]. injection Hl as He ->. exists v, c. rewrite He. auto.
Qed.

Lemma moved_fuel page seps rs : regions_of opts page seps rs -> (length (concat rs) < length page)%nat.
Proof using Type.
  intros [Hf _ _ _ _]. pose proof (content_size_fits _ _ _ _ Hf) as Hfit. pose proof (entries_le_blob rs) as Hb. unfold content_size in Hfit.
  change IndexHeaderSize with 15 in Hfit. unfold zlen in *. lia.
Qed.

(** The pages after regions were moved. *)
Lemma move_regions_spec prev cur p seps1 p2 seps2 keep x g move rs2 : index_keys_fit opts K ->
  node_page opts leaf prev (p :: seps1) -> regions_of opts prev seps1 (keep ++ (x :: g) :: move) ->
  index_page cur leaf (i_page_id p2) seps2 -> regions_of opts cur seps2 rs2 ->
  Forall (fun e => 0 <= i_page_id e < 2 ^ 31) (seps1 ++ p2 :: seps2) -> Forall (fun e => zlen (i_key e) <= K) (seps1 ++ p2 :: seps2) ->
  StronglySorted key_lt (map i_key (seps1 ++ p2 :: seps2)) ->
  zlen (blob enc_index ((x :: g) :: move)) + zlen (blob enc_index rs2) + 17 + (zlen ((x :: g) :: move) + zlen rs2) * (K + 12) + K + 4 <= data_page_size opts ->
  exists prev' page' seps', move_regions opts prev cur (i_key p2) (iter_at (keep ++ (x :: g) :: move) prev 0) (zlen keep) = Some (prev', page', i_key x) /\
    seps1 ++ p2 :: seps2 = concat keep ++ x :: seps' /\ node_page opts leaf prev' (p :: concat keep) /\ short_node opts leaf page' (x :: seps').
Proof.
  intros HKf Hn1 Hr1 Hcur Hr2 Hids Hk Hs Hfit.
  assert (Hall : seps1 ++ p2 :: seps2 = concat keep ++ x :: (g ++ concat move) ++ p2 :: concat rs2).
  { rewrite <- (ro_concat _ _ _ _ Hr1), (ro_concat _ _ _ _ Hr2), concat_app, <- app_assoc. reflexivity. }
  assert (Hwp : wf_index p2).
  { apply Forall_app in Hids as [_ Hid]. apply Forall_cons_1 in Hid as [Hid _]. apply Forall_app in Hk as [_ Hk2]. apply Forall_cons_1 in Hk2 as [Hk2 _].
    constructor; [|exact Hid]. unfold index_keys_fit in HKf. pose proof Hopts as [Hps _]. lia. }
  rewrite Hall in Hids, Hk, Hs. apply Forall_app in Hids as [_ Hids]. apply Forall_cons_1 in Hids as [Hx31 _]. apply Forall_app in Hk as [_ Hk].
  apply Forall_cons_1 in Hk as [_ Hk]. rewrite <- app_assoc in Hk. rewrite map_app in Hs. apply StronglySorted_app in Hs as (_ & _ & Hs). cbn [map] in Hs. apply StronglySorted_inv in Hs as [Hs _].
  pose proof (ro_wf _ _ _ _ Hr1) as Hw1. apply Forall_app in Hw1 as [_ Hw1].
  destruct (seek_moved prev seps1 keep x g move Hr1) as (c1 & c2 & HS & HN1 & Hx & Hy1). destruct (cur_iter cur p2 seps2 Hcur) as (v2 & c3 & Hv2 & HN2 & He2 & Hy2).
  rewrite <- (ro_concat _ _ _ _ Hr2) in Hy2. pose proof (moved_fuel _ _ _ Hr1) as Hfu1. rewrite concat_app, length_app in Hfu1. cbn [concat app length] in Hfu1.
  destruct (moved_page x g move p2 rs2 _ c2 v2 c3 (length prev) (length cur) Hw1 (ro_wf _ _ _ _ Hr2) Hwp Hk
    (packed_suffix opts _ _ (ro_packed _ _ _ _ Hr1)) (ro_packed _ _ _ _ Hr2) Hy1 Hy2 ltac:(lia) (moved_fuel _ _ _ Hr2) Hfit)
    as (b0 & b1 & b2 & b3 & HA0 & HA1 & HA2 & HA3 & Hbl).
  destruct (kept_page prev p seps1 keep ((x :: g) :: move) Hn1 Hr1) as (f & Hcp & Hkp).
  exists (FastFinish f), (fst (IndexFinish opts b3)), ((g ++ concat move) ++ p2 :: concat rs2). split.
  - unfold move_regions. rewrite (IsPointingToLeaf_type prev leaf (proj1 (proj1 Hn1))), (format_page_view _ _ _ _ (ro_format _ _ _ _ Hr1)). cbn [mbind option_bind].
    rewrite HS. cbn [mbind option_bind]. rewrite HN1. cbn [mbind option_bind]. rewrite Hx, HA0. cbn [mbind option_bind]. rewrite HA1. cbn [mbind option_bind].
    rewrite Hv2. cbn [mbind option_bind]. rewrite HN2. cbn [mbind option_bind]. rewrite He2. cbn [i_key i_page_id]. rewrite (@zlen_nil Z). cbn [Z.eqb negb].
    rewrite HA2. cbn [mbind option_bind]. rewrite HA3. cbn [mbind option_bind]. replace (Z.to_nat (zlen keep)) with (length keep) by (unfold zlen; lia). rewrite Hcp. reflexivity.
  - split; [exact Hall|]. split; [exact Hkp|]. destruct (builds_finish opts Hopts leaf b3 x _ Hbl Hx31 Hs) as (Hn & _ & Hz). split; [lia|apply Hn].
Qed.

Lemma redistribute_pages prev page p seps1 p2 seps2 rs1 rs2 : balance_fits opts K -> index_keys_fit opts K ->
  node_page opts leaf prev (p :: seps1) -> regions_of opts prev seps1 rs1 -> node_page opts leaf page (p2 :: seps2) -> regions_of opts page seps2 rs2 ->
  Forall (fun e => 0 <= i_page_id e < 2 ^ 31) (seps1 ++ p2 :: seps2) -> Forall (fun e => zlen (i_key e) <= K) (seps1 ++ p2 :: seps2) ->
  StronglySorted key_lt (map i_key (seps1 ++ p2 :: seps2)) -> size rs2 < data_page_size opts / 4 -> data_page_size opts - data_page_size opts / 4 < size rs1 ->
  exists prev' page' ps' p' seps', IndexRedistribute opts prev page (i_key p2) = Some (prev', page', i_key p') /\
    ps' ++ p' :: seps' = (p :: seps1) ++ p2 :: seps2 /\ node_page opts leaf prev' ps' /\ short_node opts leaf page' (p' :: seps').
Proof.
  intros Hb HKf Hn1 Hr1 Hn2 Hr2 Hids Hk Hs Hq Htq. destruct (page_lengths _ _ _ _ _ _ Hr1 Hr2) as (Hl1 & Hl2 & Hmin). pose proof Hopts as [Hps _].
  pose proof (Z.div_mod (data_page_size opts) 4 ltac:(lia)) as Hdm.
  assert (Hlt : size rs2 < size rs1) by (pose proof (Z.mod_pos_bound (data_page_size opts) 4 ltac:(lia)); lia).
  pose proof (content_size_u16 _ _ _ _ (ro_format _ _ _ _ Hr1)) as Hu. destruct (average_bounds (size rs1) (size rs2) ltac:(lia) Hu) as [Hav _].
  unfold IndexRedistribute. rewrite Hl1, Hl2. cbn [mbind option_bind]. rewrite (proj2 (Z.leb_gt _ _) Hlt).
  set (average := u16 (Z.shiftr (size rs1 + size rs2) 1)) in *. rewrite (RegionIterReset_format _ _ _ _ (ro_format _ _ _ _ Hr1)). cbn [mbind option_bind].
  destruct (preserve_loop_format _ _ _ _ (ro_format _ _ _ _ Hr1) average (length rs1) [] rs1 ltac:(discriminate) eq_refl (le_n _) ltac:(lia)) as (keep & move & Hrs & Hge & _ & Hloop).
  change (num_regions_ (iter_at rs1 prev 0)) with (zlen rs1). replace (Z.to_nat (zlen rs1)) with (length rs1) by (unfold zlen; lia).
  change (size []) with (IndexHeaderSize + 2) in Hloop. rewrite (@zlen_nil (list IndexEntry)) in Hloop. cbn [app] in Hloop, Hge. rewrite Hloop. cbn [mbind option_bind].
  set (cur := ztake (size rs2) page). assert (Hcur : index_page cur leaf (i_page_id p2) seps2) by exact (index_page_content opts page leaf _ seps2 rs2 (proj1 Hn2) Hr2).
  destruct (content_format _ _ _ _ (ro_format _ _ _ _ Hr2)) as [Hcf Hcz]. fold cur in Hcf, Hcz.
  destruct (Z.eqb_spec (size keep) (size rs1)) as [Heq|Hneq].
  { exists prev, cur, (p :: seps1), p2, seps2. split; [reflexivity|]. split; [reflexivity|]. split; [exact Hn1|]. split; [|exact Hcur]. rewrite Hcz.
    pose proof (content_size_fits _ _ _ _ (ro_format _ _ _ _ Hr2)). destruct Hn2. lia. }
  destruct move as [|[|x g] move].
  { rewrite app_nil_r in Hrs. congruence. }
  { pose proof (ro_nonempty _ _ _ _ Hr1) as Hne. rewrite Hrs in Hne. apply Forall_app in Hne as [_ Hne]. apply Forall_cons_1 in Hne as [Hne _]. congruence. }
  subst rs1. assert (Hrc : regions_of opts cur seps2 rs2) by (destruct Hr2; constructor; assumption).
  destruct (move_regions_spec prev cur p seps1 p2 seps2 keep x g move rs2 HKf Hn1 Hr1 Hcur Hrc Hids Hk Hs) as (prev' & page' & seps' & HM & Hall & Hkp & Hsn).
  { apply (half_fits prev keep ((x :: g) :: move) rs2 Hb (proj2 Hn1) (ro_format _ _ _ _ Hr1) (ro_packed _ _ _ _ Hr1) (ro_packed _ _ _ _ Hr2)); [exact Hlt|lia|exact Hge]. }
  exists prev', page', (p :: concat keep), x, seps'. split; [exact HM|]. split; [cbn [app]; rewrite Hall; reflexivity|]. split; assumption.
Qed.
End balance.

(** With short keys, balancing index pages loses no pointer. *)
Lemma redistributes_short opts leaf K : valid_index_options opts -> 0 <= K -> index_keys_fit opts K -> balance_fits opts K -> redistributes opts leaf K.
Proof.
  intros Hopts HK0 HKf Hb prev page ps p2 seps2 n num len c Hn1 Hf1 Hn2 Hf2 Hids Hk Hs Hnum Hlen Hc Hle Hsp. destruct ps as [|p seps1]; [destruct Hn1|].
  destruct (node_regions opts Hopts leaf _ _ _ Hn1 Hf1) as (rs1 & Hr1). destruct (node_regions opts Hopts leaf _ _ _ Hn2 Hf2) as (rs2 & Hr2).
  destruct (page_lengths opts _ _ _ _ _ _ Hr1 Hr2) as (Hl1 & Hl2 & _). destruct (sparse_lengths opts Hopts _ _ _ Hsp) as [Hq Htq].
  cbn [app tl] in Hk, Hs, Hids. apply Forall_cons_1 in Hids as [_ Hids].
  apply (redistribute_pages opts Hopts leaf K HK0 prev page p seps1 p2 seps2 rs1 rs2); auto; [assert (size : c = content_size enc_index IndexHeaderSize rs2) by congruence; lia|].
  assert (size : len = content_size enc_index IndexHeaderSize rs1) by congruence. lia.
Qed.
