(* ===== verification/TreeZip.v ===== *)
(** * Trees with pages under change

    What a batch does to a tree, apart from the state of the task: ranges of
    lists of children, the merge of pointers with the changes of a page, the nodes
    that hold a list of children, and the position of an iterator in an index
    page. *)

From stdpp Require Import gmap sorting.
From S2P Require Import Prelude Coding Comparator PageFormat DataPage Regions DataPageIter RegionCopy IndexPage IndexPageIter.
From S2P Require Import PageIo ApplyPage Tree BatchTask IndexStack TaskSpec LeafSpec RebuildSpec.

(** ** Index pages and leaves apart *)

(** The keys in the index pages have at most [K] bytes. *)
Fixpoint short_keys (K : Z) {h} : tree h -> Prop :=
  match h with O => fun _ => True | S h' => fun t => Forall (fun c => zlen (fst c) <= K /\ short_keys K (snd c)) (nd_children t) end.

(** The index pages of a tree are what [E] finds, with short keys. *)
Fixpoint irep (K : Z) (E : Z -> option bytes) {h} : tree h -> Prop :=
  match h with
  | O => fun _ => True
  | S h' => fun t => exists page c0 cs,
      nd_children t = ([], c0) :: cs /\ E (nd_id t) = Some page /\
      index_page page (bool_decide (h' = O)) (tree_id c0) (map pointer_to cs) /\
      Forall (fun c => zlen (fst c) <= K) (nd_children t) /\ Forall (fun c => irep K E (snd c)) (nd_children t)
  end.

Lemma irep_node K E {h} (t : tree (S h)) : irep K E t <-> exists page c0 cs,
  children t = ([], c0) :: cs /\ E (tree_id t) = Some page /\ index_page page (bool_decide (h = O)) (tree_id c0) (map pointer_to cs) /\
  Forall (fun c => zlen (fst c) <= K) (children t) /\ Forall (fun c => irep K E (snd c)) (children t).
Proof. reflexivity. Qed.

Lemma short_node_keys K {h} (t : tree (S h)) : short_keys K t <-> Forall (fun c => zlen (fst c) <= K) (children t) /\ Forall (fun c => short_keys K (snd c)) (children t).
Proof. apply list.Forall_and. Qed.

Lemma Forall_below_1 {A B} (f : A -> list B) (P : B -> Prop) cs : Forall P (below f cs) -> Forall (fun c => Forall P (f (snd c))) cs.
Proof. unfold below. intros H. apply List.Forall_concat in H. rewrite List.Forall_map in H. exact H. Qed.

Lemma rep_split K E {h} : forall t : tree h, rep E t /\ short_keys K t <-> irep K E t /\ Forall (leaf_page E) (leaves t).
Proof.
  induction h as [|h IH]; intros t.
  - split; [intros [Hr _]; split; [exact I|constructor; [exact Hr|constructor]]|]. intros [_ Hl]. apply Forall_cons_1 in Hl as [Hl _]. split; [exact Hl|exact I].
  - rewrite leaves_node, irep_node, short_node_keys. split.
    + intros [Hr [Hk Hs]]. pose proof Hr as (page & c0 & cs & Hcs & Hg & Hp & Hf). change (Forall (fun c => rep E (snd c)) (children t)) in Hf.
      assert (Hall : Forall (fun c => irep K E (snd c) /\ Forall (leaf_page E) (leaves (snd c))) (children t)).
      { rewrite List.Forall_forall in Hf, Hs |- *. intros c Hc. apply IH. split; [exact (Hf c Hc)|exact (Hs c Hc)]. }
      apply list.Forall_and in Hall as [H1 H2]. split; [exists page, c0, cs; auto|apply Forall_below, H2].
    + intros [(page & c0 & cs & Hcs & Hg & Hp & Hk & Hf) Hl]. apply Forall_below_1 in Hl.
      assert (Hall : Forall (fun c => rep E (snd c) /\ short_keys K (snd c)) (children t)).
      { rewrite List.Forall_forall in Hf, Hl |- *. intros c Hc. apply IH. split; [exact (Hf c Hc)|exact (Hl c Hc)]. }
      apply list.Forall_and in Hall as [H1 H2]. split; [exists page, c0, cs; auto|auto].
Qed.

Lemma irep_same K E E' {h} : forall t : tree h, irep K E t -> (forall q, In q (index_ids t) -> same_page E E' q) -> irep K E' t.
Proof.
  induction h as [|h IH]; intros t Hr Hi; [exact I|]. rewrite irep_node in Hr |- *. destruct Hr as (page & c0 & cs & Hcs & Hg & Hp & Hk & Hf).
  assert (Hsame : same_page E E' (tree_id t)) by (apply Hi; left; reflexivity).
  destruct (same_page_some _ _ _ _ Hsame Hg) as (p' & Hp' & He). exists p', c0, cs. split; [exact Hcs|]. split; [exact Hp'|].
  split; [exact (index_page_eq _ _ _ _ _ He Hp)|]. split; [exact Hk|]. rewrite List.Forall_forall in Hf |- *. intros [k c] Hc. apply IH; [exact (Hf _ Hc)|].
  intros q Hq. apply Hi. rewrite index_ids_node. right. apply In_below. exists k, c. auto.
Qed.

Lemma ireps_same K E E' {h} (cs : list (bytes * tree h)) : Forall (fun c => irep K E (snd c)) cs ->
  (forall q, In q (below index_ids cs) -> same_page E E' q) -> Forall (fun c => irep K E' (snd c)) cs.
Proof.
  intros Hf Hi. rewrite List.Forall_forall in Hf |- *. intros [k c] Hc. apply (irep_same K E E' c); [exact (Hf _ Hc)|].
  intros q Hq. apply Hi, In_below. exists k, c. auto.
Qed.

(** ** Ranges *)

(** The first bound is at most the second; the empty key is infinite. *)
Definition bound_le (hi hi' : bytes) : Prop := hi' = [] \/ (hi <> [] /\ hi <=k hi').

Lemma bound_le_refl hi : bound_le hi hi.
Proof. destruct hi; [left; reflexivity|right]. split; [discriminate|apply key_le_refl]. Qed.

Lemma below_bound_le hi hi' key : bound_le hi hi' -> below_bound hi key -> below_bound hi' key.
Proof.
  intros [->|[Hne Hle]] Hb; [left; reflexivity|]. destruct Hb as [->|Hb]; [congruence|]. right. eapply key_lt_le_trans; eassumption.
Qed.

Lemma below_bound_of_le hi k : k <> [] -> below_bound hi k -> bound_le k hi.
Proof. intros Hk [->|Hlt]; [left; reflexivity|right]. split; [exact Hk|apply key_lt_le, Hlt]. Qed.

Section ranges.
  Context {A : Type} (P : bytes -> bytes -> A -> Prop).
  Context (Hlow : forall lo lo' hi c, lo' <=k lo -> P lo hi c -> P lo' hi c).
  Context (Hup : forall lo hi hi' c, bound_le hi hi' -> P lo hi c -> P lo hi' c).

Lemma children_within_lower lo lo' hi cs : lo' <=k lo -> children_within P lo hi cs -> children_within P lo' hi cs.
Proof using Hlow.
  intros Hle. destruct cs as [|[k0 c0] [|[k1 c1] cs]]; [auto|apply Hlow, Hle|]. intros (H1 & H2 & H3 & H4).
  split; [eapply key_le_lt_trans; eassumption|]. split; [exact H2|]. split; [exact (Hlow _ _ _ _ Hle H3)|exact H4].
Qed.

Lemma children_within_upper lo hi hi' cs : bound_le hi hi' -> children_within P lo hi cs -> children_within P lo hi' cs.
Proof using Hup.
  intros Hle. revert lo. induction cs as [|[k0 c0] [|[k1 c1] cs] IH]; intros lo; [auto|apply Hup, Hle|]. intros (H1 & H2 & H3 & H4).
  split; [exact H1|]. split; [exact (below_bound_le _ _ _ Hle H2)|]. split; [exact H3|exact (IH _ H4)].
Qed.

Lemma children_within_split lo hi a k c b : a <> [] -> children_within P lo hi (a ++ (k, c) :: b) ->
  children_within P lo k a /\ lo <k k /\ below_bound hi k /\ children_within P k hi ((k, c) :: b).
Proof using Type.
  revert lo. induction a as [|[k0 c0] [|[k1 c1] a] IH]; intros lo Hne; [congruence| |].
  - intros (H1 & H2 & H3 & H4). auto.
  - intros (H1 & H2 & H3 & H4). destruct (IH k1 ltac:(discriminate) H4) as (H5 & H6 & H7 & H8).
    split; [|split; [eapply key_lt_trans; eassumption|auto]]. split; [exact H1|]. split; [right; exact H6|]. split; [exact H3|exact H5].
Qed.

Lemma children_within_join lo hi a k c b : a <> [] -> children_within P lo k a -> lo <k k -> below_bound hi k ->
  children_within P k hi ((k, c) :: b) -> children_within P lo hi (a ++ (k, c) :: b).
Proof using Type.
  intros Hne Ha Hlt Hb Hc. revert lo Hlt Ha. induction a as [|[k0 c0] [|[k1 c1] a] IH]; intros lo Hlt Ha; [congruence| |].
  - split; [exact Hlt|]. split; [exact Hb|]. split; [exact Ha|exact Hc].
  - destruct Ha as (H1 & H2 & H3 & H4). split; [exact H1|]. assert (Hk : k1 <k k).
    { destruct H2 as [->|H2]; [destruct (key_lt_nonempty _ _ Hlt eq_refl)|exact H2]. }
    split; [eapply below_bound_trans; [apply key_lt_le, Hk|exact Hb]|]. split; [exact H3|]. apply IH; [discriminate|exact Hk|exact H4].
Qed.
End ranges.

Lemma within_lower {h} : forall lo lo' hi (t : tree h), lo' <=k lo -> within lo hi t -> within lo' hi t.
Proof.
  induction h as [|h IH]; intros lo lo' hi t Hle Hw.
  - eapply Forall_impl; [|exact Hw]. intros e [H1 H2]. split; [eapply key_le_trans; eassumption|exact H2].
  - exact (children_within_lower within IH lo lo' hi (nd_children t) Hle Hw).
Qed.

Lemma within_upper {h} : forall lo hi hi' (t : tree h), bound_le hi hi' -> within lo hi t -> within lo hi' t.
Proof.
  induction h as [|h IH]; intros lo hi hi' t Hle Hw.
  - eapply Forall_impl; [|exact Hw]. intros e [H1 H2]. split; [exact H1|exact (below_bound_le _ _ _ Hle H2)].
  - exact (children_within_upper within IH lo hi hi' (nd_children t) Hle Hw).
Qed.

(** Where a list of children begins: the first child of a node has no key. *)
Definition low (lo k : bytes) : bytes := match k with [] => lo | _ => k end.

Definition bound {A} (cs : list (bytes * A)) (hi : bytes) : bytes := match cs with [] => hi | (k, _) :: _ => k end.

(** The children [N] up to [m] and [N'] from there on. *)
Lemma children_join {h} lo m hi (N N' : list (bytes * tree h)) : children_within within lo m N -> children_within within m hi N' ->
  lo <=k m -> bound_le m hi \/ N = [] -> (N <> [] -> lo <k m /\ below_bound hi m) ->
  (N <> [] -> match N' with [] => True | (k, _) :: _ => k = m end) -> children_within within lo hi (N ++ N').
Proof.
  intros HN HN' Hle Hbl Hlt Hk. destruct N as [|x N].
  { exact (children_within_lower within within_lower m lo hi N' Hle HN'). }
  destruct Hbl as [Hbl|]; [|discriminate]. destruct (Hlt ltac:(discriminate)) as [Hlt1 Hlt2]. specialize (Hk ltac:(discriminate)).
  destruct N' as [|[k c] N'].
  - rewrite app_nil_r. exact (children_within_upper within within_upper lo m hi _ Hbl HN).
  - subst k. apply children_within_join; auto.
Qed.

(** ** Pointers after changes *)

(** The changes [ops] turn the pointer [p] into the pointers [n]. *)
Inductive fills (p : IndexEntry) : list IndexOp -> list IndexEntry -> Prop :=
  | fills_more ups : Forall (fun o => op_op o = Upsert /\ i_key p <k op_key o) ups -> fills p ups (p :: map op_pointer ups)
  | fills_delete id : fills p [mkIndexOp (i_key p) id Delete] [].

(** The changes [ch] turn the pointers [a] into [m], one pointer after another. *)
Inductive merged : list IndexEntry -> list IndexOp -> list IndexEntry -> Prop :=
  | merged_nil : merged [] [] []
  | merged_fill a ch m p ops n : merged a ch m -> Forall (fun x => x <k i_key p) (map i_key a ++ map op_key ch) -> fills p ops n ->
      merged (a ++ [p]) (ch ++ ops) (m ++ n).

Lemma merge_ptrs_lt e base o changes : i_key e <k op_key o ->
  merge_ptrs (e :: base) (o :: changes) = (l ← merge_ptrs base (o :: changes); Some (e :: l)).
Proof. intros Hlt. cbn [merge_ptrs]. rewrite (proj2 (Z.ltb_lt _ _) Hlt). reflexivity. Qed.

Lemma merge_ptrs_gt e base o changes : op_key o <k i_key e -> op_op o = Upsert ->
  merge_ptrs (e :: base) (o :: changes) = (l ← merge_ptrs (e :: base) changes; Some (op_pointer o :: l)).
Proof.
  intros Hgt Ho. cbn [merge_ptrs]. pose proof (Compare_opp (i_key e) (op_key o)) as Hopp. unfold key_lt in Hgt. rewrite (proj2 (Z.ltb_ge _ _)) by lia. rewrite (proj2 (Z.eqb_neq _ _)) by lia.
  rewrite Ho. reflexivity.
Qed.

Lemma merge_ptrs_delete e base id changes :
  merge_ptrs (e :: base) (mkIndexOp (i_key e) id Delete :: changes) = merge_ptrs base changes.
Proof.
  cbn [merge_ptrs op_key op_op]. rewrite (proj2 (Compare_eq _ _) eq_refl). cbn. destruct (merge_ptrs base changes); reflexivity.
Qed.

Lemma merge_ups r ups ch m : Forall (fun o => op_op o = Upsert /\ Forall (fun e => op_key o <k i_key e) r) ups ->
  merge_ptrs r ch = Some m -> merge_ptrs r (ups ++ ch) = Some (map op_pointer ups ++ m).
Proof.
  intros Hu Hm. induction ups as [|o ups IH]; [exact Hm|]. apply Forall_cons_1 in Hu as [[Ho Hlt] Hu]. specialize (IH Hu). cbn [app map].
  destruct r as [|e r].
  - rewrite merge_ptrs_nil in *. cbn [List.filter]. rewrite Ho. cbn [map]. congruence.
  - apply Forall_cons_1 in Hlt as [Hlt _]. rewrite (merge_ptrs_gt _ _ _ _ Hlt Ho), IH. reflexivity.
Qed.

Lemma merge_first p r ch m : Forall (fun o => i_key p <k op_key o) ch -> merge_ptrs r ch = Some m -> merge_ptrs (p :: r) ch = Some (p :: m).
Proof.
  intros Hlt Hm. destruct ch as [|o ch].
  - destruct r; cbn in Hm |- *; congruence.
  - apply Forall_cons_1 in Hlt as [Hlt _]. rewrite (merge_ptrs_lt _ _ _ _ Hlt), Hm. reflexivity.
Qed.

(** A pointer with its changes, before later ones. *)
Lemma fills_merge p ops n r ch m : fills p ops n ->
  Forall (fun y => i_key p <k y /\ Forall (fun o => op_key o <k y) ops) (map i_key r ++ map op_key ch) ->
  merge_ptrs r ch = Some m -> merge_ptrs (p :: r) (ops ++ ch) = Some (n ++ m).
Proof.
  intros Hf Hlt Hm. apply Forall_app in Hlt as [Hr Hc]. rewrite List.Forall_map in Hr, Hc. destruct Hf as [ups Hu|id].
  - apply merge_first.
    + apply Forall_app_2; [eapply Forall_impl; [|exact Hu]; intros o [_ Ho]; exact Ho|]. eapply Forall_impl; [|exact Hc]. intros o [Ho _]. exact Ho.
    + apply merge_ups; [|exact Hm]. rewrite List.Forall_forall in Hu |- *. intros o Ho. split; [apply Hu, Ho|]. apply List.Forall_forall.
      intros e He. rewrite List.Forall_forall in Hr. destruct (Hr e He) as [_ Ho']. rewrite List.Forall_forall in Ho'. exact (Ho' o Ho).
  - cbn [app]. rewrite merge_ptrs_delete. exact Hm.
Qed.

Lemma merged_merge a ch m : merged a ch m -> forall r ch' m',
  Forall (fun y => Forall (fun x => x <k y) (map i_key a ++ map op_key ch)) (map i_key r ++ map op_key ch') ->
  merge_ptrs r ch' = Some m' -> merge_ptrs (a ++ r) (ch ++ ch') = Some (m ++ m').
Proof.
  induction 1 as [|a ch m p ops n Hm IH Hp Hf]; intros r ch' m' Hlt Hr; [exact Hr|]. rewrite <- !app_assoc. apply IH.
  - cbn [app map]. apply Forall_cons; [exact Hp|]. rewrite map_app. apply Forall_app in Hlt as [Hlr Hlc].
    assert (Hsub : forall y, Forall (fun x => x <k y) (map i_key (a ++ [p]) ++ map op_key (ch ++ ops)) ->
      Forall (fun x => x <k y) (map i_key a ++ map op_key ch)).
    { intros y Hy. rewrite !map_app in Hy. rewrite !Forall_app in Hy. apply Forall_app_2; tauto. }
    apply Forall_app_2; [eapply Forall_impl; [|exact Hlr]; exact Hsub|]. apply Forall_app_2; [|eapply Forall_impl; [|exact Hlc]; exact Hsub].
    destruct Hf as [ups Hu|id].
    + rewrite List.Forall_map. eapply Forall_impl; [|exact Hu]. intros o [_ Ho]. eapply Forall_impl; [|exact Hp].
      intros x Hx. exact (key_lt_trans _ _ _ Hx Ho).
    + constructor; [exact Hp|constructor].
  - apply (fills_merge p ops n r ch' m' Hf); [|exact Hr]. eapply Forall_impl; [|exact Hlt]. intros y Hy. rewrite !map_app in Hy.
    rewrite !Forall_app in Hy. destruct Hy as ((_ & Hy) & (_ & Hy')). split; [apply Forall_cons_1 in Hy; tauto|]. rewrite List.Forall_map in Hy'. exact Hy'.
Qed.

(** All the changes of a page and its other pointers. *)
Lemma merged_rest a ch m r : merged a ch m -> Forall (fun e => Forall (fun x => x <k i_key e) (map i_key a ++ map op_key ch)) r ->
  merge_ptrs (a ++ r) ch = Some (m ++ r).
Proof.
  intros Hm Hr. rewrite <- (app_nil_r ch). apply (merged_merge a ch m Hm); [|destruct r; reflexivity]. rewrite app_nil_r, List.Forall_map. exact Hr.
Qed.

(** Pointers that stay. *)
Lemma merged_skip a ch m r : merged a ch m -> StronglySorted key_lt (map i_key r) ->
  Forall (fun e => Forall (fun x => x <k i_key e) (map i_key a ++ map op_key ch)) r -> merged (a ++ r) ch (m ++ r).
Proof.
  revert a m. induction r as [|e r IH]; intros a m Hm Hs Hr; [rewrite !app_nil_r; exact Hm|]. apply Forall_cons_1 in Hr as [He Hr].
  simpl in Hs. apply StronglySorted_inv in Hs as [Hs Hlt]. rewrite List.Forall_map in Hlt.
  replace (a ++ e :: r) with ((a ++ [e]) ++ r) by (rewrite <- app_assoc; reflexivity).
  replace (m ++ e :: r) with ((m ++ [e]) ++ r) by (rewrite <- app_assoc; reflexivity).
  apply IH; [|exact Hs|].
  - rewrite <- (app_nil_r ch). apply merged_fill; [exact Hm|exact He|apply (fills_more e []); constructor].
  - rewrite List.Forall_forall in Hr, Hlt |- *. intros x Hx. specialize (Hr x Hx). specialize (Hlt x Hx). rewrite map_app. cbn [map].
    rewrite <- app_assoc. apply Forall_app in Hr as [H1 H2]. apply Forall_app_2; [exact H1|]. constructor; assumption.
Qed.

Lemma merged_none a m : merged a [] m -> m = a.
Proof.
  intros H. remember [] as ch eqn:Hch. induction H as [|a ch m p ops n _ IH _ Hf]; [reflexivity|]. apply app_eq_nil in Hch as [-> ->].
  rewrite (IH eq_refl). inversion Hf; subst. reflexivity.
Qed.


(** ** The nodes of a list of children *)
Definition rekey {A} (cs : list (bytes * A)) : list (bytes * A) := match cs with (_, c) :: cs' => ([], c) :: cs' | [] => [] end.

Definition node {h} (id : Z) (cs : list (bytes * tree h)) : tree (S h) := mkNode id (rekey cs).

Lemma below_rekey {A B} (f : A -> list B) cs : below f (rekey cs) = below f cs.
Proof. destruct cs as [|[k c] cs]; reflexivity. Qed.

Lemma children_within_rekey {A} (P : bytes -> bytes -> A -> Prop) lo hi cs : children_within P lo hi (rekey cs) <-> children_within P lo hi cs.
Proof. destruct cs as [|[k c] cs]; reflexivity. Qed.

Lemma within_node {h} lo hi id (cs : list (bytes * tree h)) : within lo hi (node id cs) <-> children_within within lo hi cs.
Proof. apply (children_within_rekey within). Qed.

Lemma leaves_of_node {h} id (cs : list (bytes * tree h)) : leaves (node id cs) = below leaves cs.
Proof. apply (below_rekey leaves). Qed.

Lemma ids_of_node {h} id (cs : list (bytes * tree h)) : index_ids (node id cs) = id :: below index_ids cs.
Proof. unfold node. rewrite index_ids_node. f_equal. apply (below_rekey index_ids). Qed.

Lemma irep_of_node K E {h} id (cs : list (bytes * tree h)) opts page : E id = Some page ->
  node_page opts (bool_decide (h = O)) page (map pointer_to cs) -> 0 <= K -> Forall (fun c => zlen (fst c) <= K) cs ->
  Forall (fun c => irep K E (snd c)) cs -> irep K E (node id cs).
Proof.
  intros HE Hn HK Hs Hf. destruct cs as [|[k c] cs]; [destruct Hn|]. destruct Hn as [Hp _]. apply irep_node. exists page, c, cs.
  split; [reflexivity|]. split; [exact HE|]. split; [exact Hp|]. apply Forall_cons_1 in Hf as [H1 H2]. apply Forall_cons_1 in Hs as [_ Hs].
  split; constructor; assumption.
Qed.

(** The nodes of the pages [R], whose children are [Fs]. *)
Definition nodes {h} (R : list Built) (Fs : list (list (bytes * tree h))) : list (bytes * tree (S h)) :=
  zip_with (fun g F => (bu_key g, node (bu_id g) F)) R Fs.

Lemma split_pointers {h} (gs : list (bytes * list IndexEntry)) : forall F : list (bytes * tree h), all_ptrs gs = map pointer_to F ->
  exists Fs, concat Fs = F /\ Forall2 (fun g Fi => snd g = map pointer_to Fi) gs Fs.
Proof.
  induction gs as [|g gs IH]; intros F HF.
  - destruct F; [|discriminate HF]. exists []. auto.
  - unfold all_ptrs in HF. cbn [map concat] in HF. symmetry in HF. apply map_eq_app in HF as (F1 & F2 & -> & H1 & H2).
    destruct (IH F2 (eq_sym H2)) as (Fs & <- & HFs). exists (F1 :: Fs). auto.
Qed.

(** [Fs] are the children of the pages [R]. *)
Definition children_of {h} (R : list Built) (Fs : list (list (bytes * tree h))) : Prop :=
  Forall2 (fun g F => bu_ptrs g = map pointer_to F /\ F <> []) R Fs.

Lemma nodes_within {h} lo hi (R : list Built) (Fs : list (list (bytes * tree h))) k0 : children_within within lo hi (concat Fs) ->
  children_of R Fs -> keyed k0 (built_of R) -> children_within within lo hi (nodes R Fs).
Proof.
  intros Hw Hc HK. revert lo k0 Hw HK. induction Hc as [|g F1 R Fs [Hg Hne] Hc IH]; intros lo k0 Hw HK; [exact I|].
  destruct Hc as [|g2 F2 R Fs [Hg2 Hne2] Hc].
  - cbn in Hw. rewrite app_nil_r in Hw. apply within_node, Hw.
  - destruct F2 as [|[k2 c2] F2]; [congruence|]. cbn [concat app] in Hw. destruct (children_within_split within _ _ _ _ _ _ Hne Hw) as (H1 & H2 & H3 & H4).
    destruct HK as [_ HK]. pose proof HK as HK2. apply Forall_cons_1 in HK2 as [Hk2 HK2]. cbn [snd fst] in Hk2. rewrite Hg2 in Hk2. cbn in Hk2.
    cbn [nodes zip_with] in IH |- *. rewrite Hk2. split; [exact H2|]. split; [exact H3|]. split; [apply within_node, H1|].
    rewrite Hk2 in IH. apply (IH k2 k2 H4). split; [exact Hk2|exact HK2].
Qed.

Lemma nodes_leaves {h} (R : list Built) (Fs : list (list (bytes * tree h))) : children_of R Fs ->
  below leaves (nodes R Fs) = below leaves (concat Fs).
Proof.
  induction 1 as [|g F R Fs _ _ IH]; [reflexivity|]. cbn [nodes zip_with concat]. rewrite below_app, <- IH, below_cons, leaves_of_node. reflexivity.
Qed.

Lemma nodes_ids {h} (R : list Built) (Fs : list (list (bytes * tree h))) : children_of R Fs ->
  below index_ids (nodes R Fs) ≡ₚ map bu_id R ++ below index_ids (concat Fs).
Proof.
  induction 1 as [|g F R Fs _ _ IH]; [reflexivity|]. cbn [nodes zip_with concat map]. rewrite below_app, below_cons, ids_of_node. cbn [app].
  apply Permutation_skip. change (zip_with _ R Fs) with (nodes R Fs). rewrite IH, !app_assoc. apply Permutation_app_tail, Permutation_app_comm.
Qed.

Lemma nodes_irep K E opts {h} (R : list Built) (Fs : list (list (bytes * tree h))) : children_of R Fs ->
  Forall (built_in opts (bool_decide (h = O)) E) R -> 0 <= K -> Forall (fun c => zlen (fst c) <= K) (concat Fs) ->
  Forall (fun c => irep K E (snd c)) (concat Fs) -> Forall (fun c => irep K E (snd c)) (nodes R Fs).
Proof.
  induction 1 as [|g F R Fs [Hg _] _ IH]; intros HR HK HS HF; [constructor|]. apply Forall_cons_1 in HR as [(page & HE & Hn) HR].
  cbn [concat] in HF, HS. apply Forall_app in HF as [HF1 HF2]. apply Forall_app in HS as [HS1 HS2]. rewrite Hg in Hn. constructor; [|exact (IH HR HK HS2 HF2)].
  exact (irep_of_node K E (bu_id g) F opts page HE Hn HK HS1 HF1).
Qed.

Lemma nodes_pointers {h} (R : list Built) (Fs : list (list (bytes * tree h))) : children_of R Fs ->
  map pointer_to (nodes R Fs) = map (fun g => mkIndexEntry (bu_key g) (bu_id g)) R.
Proof. induction 1 as [|g F R Fs _ _ IH]; [reflexivity|]. cbn [nodes zip_with map]. rewrite <- IH. reflexivity. Qed.

Lemma nodes_length {h} (R : list Built) (Fs : list (list (bytes * tree h))) : children_of R Fs -> length (nodes R Fs) = length R.
Proof. intros H. unfold nodes. rewrite length_zip_with, <- (Forall2_length H). lia. Qed.

(** What [Pop] built, as trees. *)
Lemma built_children {h} k0 (F : list (bytes * tree h)) R opts E leaf : holds_pointers k0 (map pointer_to F) R ->
  Forall (built_in opts leaf E) R -> exists Fs, concat Fs = F /\ children_of R Fs.
Proof.
  intros [Ha _ _ _] Hb. destruct (split_pointers _ F Ha) as (Fs & HF & H2). exists Fs. split; [exact HF|]. clear Ha HF.
  unfold built_of in H2. revert Fs H2. induction R as [|g R IH]; intros Fs H2; inversion H2 as [|? F1 ? Fs' Hg H2']; subst; [constructor|].
  apply Forall_cons_1 in Hb as [(page & _ & Hn) Hb]. cbn in Hg. constructor; [|exact (IH Hb _ H2')]. split; [exact Hg|]. intros ->.
  rewrite Hg in Hn. destruct Hn.
Qed.

Lemma nodes_short {h} K k0 (R : list Built) (Fs : list (list (bytes * tree h))) : children_of R Fs -> keyed k0 (built_of R) ->
  zlen k0 <= K -> Forall (fun c => zlen (fst c) <= K) (concat Fs) -> Forall (fun c => zlen (fst c) <= K) (nodes R Fs).
Proof.
  intros Hc HK Hk0 HF. destruct Hc as [|g F1 R Fs _ Hc]; [constructor|]. destruct HK as [HK0 HK]. cbn in HK0. cbn [concat] in HF.
  apply Forall_app in HF as [_ HF]. constructor; [cbn; congruence|]. induction Hc as [|g' F' R Fs [Hg Hne] _ IH]; [constructor|].
  apply Forall_cons_1 in HK as [Hk HK]. cbn [concat] in HF. apply Forall_app in HF as [HF1 HF2]. constructor; [|exact (IH HK HF2)].
  cbn in Hk |- *. rewrite Hg in Hk. destruct F' as [|[k c] F']; [congruence|]. cbn in Hk. rewrite Hk. apply Forall_cons_1 in HF1 as [H1 _]. exact H1.
Qed.

(** ** The position of an iterator in an index page *)

(** The cursor [c] can search the page with the pointers [ps]; with [Some i] it
    stands at the pointer [i]. *)
Definition index_at (page : bytes) (v : PageView) (ps : list IndexEntry) (c : IndexCursor) (o : option nat) : Prop :=
  exists rs p, ps = p :: concat rs /\ i_key p = [] /\ page_format enc_index IndexHeaderSize rs page /\ Forall (Forall wf_index) rs /\
    Forall (fun r => r <> []) rs /\ DecodeFixed32 (zdrop leftmost_ptr_offset page) = Some (i_page_id p) /\
    StronglySorted key_lt (map i_key (concat rs)) /\ v = format_view enc_index IndexHeaderSize rs page /\ seekable rs c /\
    forall i, o = Some i -> stands enc_index IndexHeaderSize rs page (ic_offset c) (ic_restart_idx c) (idecodes_after c) i /\ ps !! i = Some (ic_entry c).

Lemma index_at_fresh page leaf p seps v : index_page page leaf (i_page_id p) seps -> i_key p = [] -> page_view page = Some v ->
  index_at page v (p :: seps) fresh_index_cursor None.
Proof.
  intros (_ & Hs & _ & Hd & rs & Hf & <- & Hw & Hne) Hp Hv. exists rs, p. repeat (split; [assumption || reflexivity|]).
  split; [rewrite (format_page_view _ _ _ _ Hf) in Hv; congruence|]. split; [left; reflexivity|]. discriminate.
Qed.

Lemma index_at_search page v ps c o : index_at page v ps c o -> index_at page v ps c None.
Proof. intros (rs & p & H1 & H2 & H3 & H4 & H5 & H6 & H7 & H8 & H9 & _). exists rs, p. repeat (split; [assumption|]). discriminate. Qed.

Lemma index_at_entry page v ps c i : index_at page v ps c (Some i) -> ps !! i = Some (ic_entry c).
Proof. intros (rs & p & _ & _ & _ & _ & _ & _ & _ & _ & _ & Hi). apply (Hi i eq_refl). Qed.

Lemma floor_lookup (p : IndexEntry) a b : (p :: a ++ b) !! length a = Some (match last_from None a with Some e => e | None => p end).
Proof.
  destruct a as [|e a _] using rev_ind; [reflexivity|]. rewrite last_from_snoc, length_app. cbn [length]. rewrite Nat.add_1_r.
  cbn [lookup]. change ((p :: (a ++ [e]) ++ b) !! Datatypes.S (length a)) with (((a ++ [e]) ++ b) !! length a).
  rewrite <- app_assoc. cbn [app]. apply list_lookup_middle. reflexivity.
Qed.

Lemma index_at_seek page v p a b c key o : index_at page v (p :: a ++ b) c o -> Forall (fun e => i_key e <=k key) a ->
  Forall (fun e => key <k i_key e) b -> exists c', IndexSeek v c key = Some c' /\ index_at page v (p :: a ++ b) c' (Some (length a)).
Proof.
  intros (rs & p0 & [= <- He] & H2 & H3 & H4 & H5 & H6 & H7 & -> & H9 & _) Ha Hb.
  destruct (IndexSeek_correct rs page (i_page_id p) H3 H4 H5 H6 H7 c key a b H9) as (c' & HS & Hic & Hst & Hsk); [split; auto|].
  exists c'. split; [exact HS|]. exists rs, p. rewrite He. repeat (split; [assumption || reflexivity|]). intros i [= <-]. split; [exact Hst|].
  rewrite <- He, floor_lookup, Hic. unfold floor_pointer. destruct (last_from None a); [reflexivity|]. destruct p; cbn in *; congruence.
Qed.

Lemma index_at_step page v ps c i : index_at page v ps c (Some i) ->
  PeekNextKey v c = Some (match ps !! S i with Some e => i_key e | None => [] end) /\
  match ps !! S i with
  | Some e => IndexHasNext v c = true /\ exists c', IndexNext v c = Some (true, c') /\ index_at page v ps c' (Some (S i))
  | None => IndexHasNext v c = false
  end.
Proof.
  intros (rs & p & -> & H2 & H3 & H4 & H5 & H6 & H7 & -> & H9 & Hi). destruct (Hi i eq_refl) as [Hst Hl].
  change ((p :: concat rs) !! S i) with (concat rs !! i). rewrite (PeekNextKey_stands rs page H3 H4 H5 c i Hst).
  destruct (concat rs !! i) as [e|] eqn:He; (split; [reflexivity|]).
  - split; [exact (istands_more rs page H3 H5 c i e Hst He)|]. destruct (istands_next rs page H3 H4 H5 c i e Hst He) as (c' & HN & Hc' & Hst').
    exists c'. split; [exact HN|]. exists rs, p. repeat (split; [assumption || reflexivity|]). split.
    + destruct (IndexNext_ok rs page (i_page_id p) H3 H4 H5 H6 c) as (more & c2 & HN2 & Hsk & _).
      * split; [exact H9|]. right. exists i. split; [|exact Hst]. apply lookup_lt_Some in He. lia.
      * unfold IndexNext in HN2. rewrite HN in HN2. injection HN2 as _ <-. exact Hsk.
    + intros j [= <-]. split; [exact Hst'|]. change (concat rs !! i = Some (ic_entry c')). congruence.
  - apply lookup_ge_None_1 in He. apply lookup_lt_Some in Hl. cbn [length] in Hl. assert (i = length (concat rs)) as -> by lia.
    apply (stands_end enc_index IndexHeaderSize rs page H3 H5) in Hst. unfold IndexHasNext. rewrite Hst. apply Z.ltb_irrefl.
Qed.

Lemma index_entries page leaf p seps v : index_page page leaf (i_page_id p) seps -> i_key p = [] -> page_view page = Some v ->
  collect_index (S (length page)) v fresh_index_cursor = Some (p :: seps).
Proof.
  intros Hp Hk Hv. destruct (index_page_view _ _ _ _ Hp) as (v' & Hv' & Hi). rewrite Hv in Hv'. injection Hv' as <-.
  pose proof (iv_fresh _ _ _ Hi) as Hy. replace (mkIndexEntry [] (i_page_id p)) with p in Hy by (destruct p; cbn in *; congruence).
  assert (Hlen : (length (p :: seps) <= length page)%nat).
  { destruct Hp as (_ & _ & _ & _ & rs & (hdr & pad & -> & Hh & _) & <- & _ & _). pose proof (entries_le_blob rs) as Hb.
    unfold format_page. rewrite !length_app. unfold zlen in *. change IndexHeaderSize with 15 in Hh. cbn [length]. lia. }
  revert Hlen. generalize (length page) as n. induction Hy as [c H1 H2|c c' rest H1 H2 _ IH]; intros n Hn; rewrite collect_index_S, H2; [reflexivity|].
  cbn [mbind option_bind]. destruct n as [|n]; [cbn in Hn; lia|]. rewrite IH by (cbn in Hn |- *; lia). reflexivity.
Qed.
