(* ===== verification/StackSpec.v ===== *)
(** * The stack of index pages

    The stack of a batch is a path into the tree with a hole: below the current
    pointer of each page stands the next page, left of it are the new children,
    right of it those that the batch has not reached.  This file says when a stack
    stands for a tree with a hole ([context]), what it means to fill the hole, and
    that moving the stack keeps the tree. *)

From stdpp Require Import gmap sorting.
From S2P Require Import Prelude Coding Comparator PageFormat DataPage Regions DataPageIter RegionCopy IndexPage IndexPageIter.
From S2P Require Import PageIo ApplyPage Tree BatchTask IndexStack TaskSpec LeafSpec RebuildSpec TreeZip.

(** ** A page under change *)

(** A page with the pointers to the children [cs]. *)
Definition index_node (page : bytes) {h} (cs : list (bytes * tree h)) : Prop :=
  match cs with
  | [] => False
  | (k0, c0) :: cs' => k0 = [] /\ index_page page (bool_decide (h = O)) (tree_id c0) (map pointer_to cs')
  end.

(** The page [id] on the stack, for the keys from [lo] to [hi]: the children [pre]
    have become [N], the children [rest] are still to come. *)
Record level (K : Z) (E : Z -> option bytes) {h} (e : IndexStackEntry) (id : Z) (lo hi : bytes) (pre rest N : list (bytes * tree h)) : Prop := {
  le_page : exists page, se_handle e = Some (id, page) /\ index_node page (pre ++ rest) /\ page_view page = Some (se_view e) /\
    exists p, E id = Some p /\ page_eq page p;
  le_merged : merged (map pointer_to pre) (se_changes e) (map pointer_to N);
  le_before : Forall (fun c => Forall (fun x => x <k fst c) (map fst pre ++ map op_key (se_changes e))) rest;
  le_spread : children_within (fun _ _ _ => True) lo hi (pre ++ rest);
  le_span : children_within within lo (bound rest hi) N;
  le_short : Forall (fun c => zlen (fst c) <= K) (pre ++ rest ++ N);
  le_new : Forall (fun c => irep K E (snd c)) N
}.

(** The children that are still to come. *)
Definition later (K : Z) (E : Z -> option bytes) {h} (lo hi : bytes) (rest : list (bytes * tree h)) : Prop :=
  match rest with [] => True | (k, _) :: _ => children_within within (low lo k) hi rest end /\
  Forall (fun c => irep K E (snd c)) rest.

(** The iterator of a page with the children [cs]; with [Some i] it stands at the
    child [i]. *)
Definition cursor_at {h} (e : IndexStackEntry) (cs : list (bytes * tree h)) (o : option nat) : Prop :=
  exists id page, se_handle e = Some (id, page) /\ index_at page (se_view e) (map pointer_to cs) (se_iter e) o.

(** A hole in a tree: its range, its key in the page above, the id of the page
    that was there, the leaves on both sides and the ids of the other index pages. *)
Record Hole := mkHole {
  ho_lo : bytes; ho_hi : bytes; ho_key : bytes; ho_own : Z;
  ho_left : list Leaf; ho_right : list Leaf; ho_ids : list Z
}.

(** The stack [st] above a hole for trees of height [h]. *)
Fixpoint context (K : Z) (E : Z -> option bytes) (st : list IndexStackEntry) (h : nat) (H : Hole) : Prop :=
  match st with
  | [] => exists own, H = mkHole [] [] [] own [] [] []
  | e :: st' => exists H' (pre : list (bytes * tree h)) k c suf N, context K E st' (S h) H' /\
      level K E e (ho_own H') (ho_lo H') (ho_hi H') pre ((k, c) :: suf) N /\ later K E (ho_lo H') (ho_hi H') suf /\
      cursor_at e (pre ++ (k, c) :: suf) (Some (length pre)) /\ is_leaf_index_ e = bool_decide (h = O) /\
      H = mkHole (low (ho_lo H') k) (bound suf (ho_hi H')) k (tree_id c)
            (ho_left H' ++ below leaves N) (below leaves suf ++ ho_right H')
            (ho_own H' :: below index_ids N ++ below index_ids suf ++ ho_ids H')
  end.

Section level.
  Context (K : Z) (E : Z -> option bytes) {h : nat}.

  Implicit Types pre rest mid suf N : list (bytes * tree h).

(** The keys of a page ascend; the first one is empty. *)
Lemma spread_sorted lo hi (cs : list (bytes * tree h)) : children_within (fun _ _ _ => True) lo hi cs -> match cs with [] => True | (k, _) :: _ => k = [] end ->
  StronglySorted key_lt (map fst cs) /\ Forall (fun c => lo <k fst c /\ below_bound hi (fst c)) (tl cs).
Proof.
  destruct cs as [|[k c] cs]; [intros _ _; split; constructor|]. intros Hw ->. pose proof (children_within_keys _ _ _ _ _ Hw) as Hk.
  split; [|exact Hk]. cbn [map fst]. constructor; [exact (children_within_sorted _ _ _ _ _ Hw)|]. rewrite List.Forall_map.
  eapply Forall_impl; [|exact Hk]. intros x [Hx _]. eapply key_le_lt_trans; [apply key_nil_le|exact Hx].
Qed.

Lemma level_sorted e id lo hi pre rest N : level K E e id lo hi pre rest N ->
  StronglySorted key_lt (map fst (pre ++ rest)) /\ Forall (fun c => lo <k fst c /\ below_bound hi (fst c)) (tl (pre ++ rest)).
Proof.
  intros [(page & _ & Hn & _) _ _ Hs _ _ _]. apply spread_sorted; [exact Hs|]. destruct (pre ++ rest) as [|[k c] cs]; [exact I|apply Hn].
Qed.

(** The key of a child is empty if and only if it is the first. *)
Lemma level_key e id lo hi pre k c suf N : level K E e id lo hi pre ((k, c) :: suf) N ->
  match pre with [] => k = [] | _ => lo <k k /\ below_bound hi k end /\ Forall (fun x => k <k fst x /\ lo <k fst x /\ below_bound hi (fst x)) suf.
Proof.
  intros Hl. destruct (level_sorted _ _ _ _ _ _ _ Hl) as [Hs Hb]. rewrite map_app in Hs. apply StronglySorted_app in Hs as (_ & _ & Hs).
  apply StronglySorted_inv in Hs as [_ Hlt]. change (Forall (key_lt k) (map fst suf)) in Hlt. rewrite List.Forall_map in Hlt. split.
  - destruct pre as [|x pre].
    + destruct (le_page _ _ _ _ _ _ _ _ _ Hl) as (page & _ & [Hk _] & _). exact Hk.
    + cbn [app tl] in Hb. apply Forall_app in Hb as [_ Hb]. apply Forall_cons_1 in Hb as [Hb _]. exact Hb.
  - assert (Hb2 : Forall (fun c => lo <k fst c /\ below_bound hi (fst c)) suf).
    { destruct pre as [|x pre]; [exact Hb|]. cbn [app tl] in Hb. apply Forall_app in Hb as [_ Hb]. apply Forall_cons_1 in Hb as [_ Hb]. exact Hb. }
    rewrite List.Forall_forall in Hlt, Hb2 |- *. intros x Hx. split; [exact (Hlt x Hx)|exact (Hb2 x Hx)].
Qed.

Lemma merged_nil_pre e id lo hi rest N : level K E e id lo hi [] rest N -> se_changes e = [] /\ N = [].
Proof.
  intros Hl. pose proof (le_merged _ _ _ _ _ _ _ _ _ Hl) as Hm. remember (map pointer_to []) as a eqn:Ha.
  remember (map pointer_to N) as m eqn:HN. destruct Hm as [|a ch m p ops n _ _ _]; [|destruct a; discriminate Ha].
  split; [reflexivity|]. destruct N; [reflexivity|discriminate HN].
Qed.

(** The bound behind the children so far. *)
Lemma bound_first lo hi k c suf e id pre N : level K E e id lo hi pre ((k, c) :: suf) N ->
  below_bound (bound suf hi) (low lo k) \/ low lo k = lo.
Proof.
  intros Hl. destruct (level_key _ _ _ _ _ _ _ _ _ Hl) as [Hk Hs]. destruct pre as [|x pre]; [subst k; right; reflexivity|left].
  destruct Hk as [Hk1 Hk2]. destruct k as [|z k]; [destruct (key_lt_nonempty _ _ Hk1 eq_refl)|]. cbn [low].
  destruct suf as [|[k2 c2] suf]; [exact Hk2|]. apply Forall_cons_1 in Hs as [[Hs _] _]. right. exact Hs.
Qed.

Lemma with_changes_same e : with_changes e (se_changes e ++ []) = e.
Proof using Type. destruct e. unfold with_changes. cbn. rewrite app_nil_r. reflexivity. Qed.

Lemma fills_keys lo hi k (c : tree h) ops (N' : list (bytes * tree h)) x : fills (pointer_to (k, c)) ops (map pointer_to N') -> children_within within lo hi N' ->
  k <k x -> hi <> [] -> hi <=k x -> Forall (fun o => op_key o <k x) ops.
Proof using Type.
  intros Hf Hw Hk Hne Hx. remember (map pointer_to N') as n eqn:Hn. destruct Hf as [ups _|id].
  - destruct N' as [|y N']; [discriminate Hn|]. injection Hn as _ _ Hn. pose proof (children_within_keys _ _ _ _ _ Hw) as Hks.
    assert (Hkeys : map op_key ups = map fst N').
    { apply (f_equal (map i_key)) in Hn. rewrite !map_map in Hn. exact Hn. }
    apply (proj1 (List.Forall_map op_key (fun y => y <k x) ups)). rewrite Hkeys. apply List.Forall_map. eapply Forall_impl; [|exact Hks]. intros z [_ [Hz|Hz]]; [congruence|].
    eapply key_lt_le_trans; eassumption.
  - constructor; [exact Hk|constructor].
Qed.

(** The hole of a page is filled. *)
Lemma level_fill e id lo hi pre k c suf N ops N' : level K E e id lo hi pre ((k, c) :: suf) N ->
  fills (pointer_to (k, c)) ops (map pointer_to N') -> children_within within (low lo k) (bound suf hi) N' ->
  match N' with [] => True | (k', _) :: _ => k' = k end -> Forall (fun c => irep K E (snd c)) N' -> Forall (fun c => zlen (fst c) <= K) N' ->
  level K E (with_changes e (se_changes e ++ ops)) id lo hi (pre ++ [(k, c)]) suf (N ++ N').
Proof using Type.
  intros Hl Hf Hw Hfirst Hi Hsh. destruct (level_key _ _ _ _ _ _ _ _ _ Hl) as [Hk Hsuf]. pose proof (bound_first _ _ _ _ _ _ _ _ _ Hl) as Hbf.
  pose proof Hl as [H1 H2 H3 H4 H5 H6 H7]. apply Forall_cons_1 in H3 as [H3 H3'].
  assert (Hassoc : forall r, (pre ++ [(k, c)]) ++ r = pre ++ (k, c) :: r) by (intros r; rewrite <- app_assoc; reflexivity).
  constructor; cbn [se_changes with_changes se_handle se_view]; rewrite ?Hassoc; auto.
  - rewrite !map_app. apply merged_fill; [exact H2| |exact Hf]. rewrite map_map. exact H3.
  - rewrite List.Forall_forall in H3', Hsuf |- *. intros x Hx. specialize (H3' x Hx). destruct (Hsuf x Hx) as [Hkx _].
    apply Forall_app in H3' as [Ha Hb]. rewrite !map_app. apply Forall_app_2; [apply Forall_app_2; [exact Ha|constructor; [exact Hkx|constructor]]|].
    apply Forall_app_2; [exact Hb|]. apply List.Forall_map. destruct suf as [|[k2 c2] suf]; [destruct Hx|].
    apply (fills_keys (low lo k) k2 k c ops N' (fst x) Hf Hw Hkx).
    + destruct (Hsuf (k2, c2) (or_introl eq_refl)) as [Hk2 _]. exact (key_lt_nonempty _ _ Hk2).
    + destruct Hx as [<-|Hx]; [apply key_le_refl|]. destruct (level_sorted _ _ _ _ _ _ _ Hl) as [Hs _]. rewrite map_app in Hs.
      apply StronglySorted_app in Hs as (_ & _ & Hs). apply StronglySorted_inv in Hs as [Hs _]. apply StronglySorted_inv in Hs as [_ Hs].
      change (Forall (key_lt k2) (map fst suf)) in Hs. rewrite List.Forall_map, List.Forall_forall in Hs. apply key_lt_le. exact (Hs x Hx).
  - destruct pre as [|x pre].
    + destruct (merged_nil_pre _ _ _ _ _ _ Hl) as [_ ->]. subst k. exact Hw.
    + destruct Hk as [Hk1 Hk2]. assert (Hkk : low lo k = k) by (destruct k; [destruct (key_lt_nonempty _ _ Hk1 eq_refl)|reflexivity]).
      rewrite Hkk in Hw, Hbf. assert (Hb : below_bound (bound suf hi) k).
      { destruct Hbf as [Hb|Hb]; [exact Hb|]. rewrite Hb in Hk1. destruct (key_lt_irrefl _ Hk1). }
      apply (children_join lo k (bound suf hi) N N' H5 Hw).
      * apply key_lt_le, Hk1.
      * left. apply below_bound_of_le; [exact (key_lt_nonempty _ _ Hk1)|exact Hb].
      * auto.
      * intros _. destruct N' as [|[k' c'] N']; [exact I|exact Hfirst].
  - rewrite !Forall_app in H6. destruct H6 as (A1 & A2 & A3). apply Forall_cons_1 in A2 as [A2 A2'].
    apply Forall_app_2; [exact A1|]. constructor; [exact A2|]. apply Forall_app_2; [exact A2'|]. apply Forall_app_2; assumption.
  - apply Forall_app_2; assumption.
Qed.

Lemma later_split lo hi k c suf : later (h := h) K E lo hi ((k, c) :: suf) -> Forall (fun x => k <k fst x) suf ->
  within (low lo k) (bound suf hi) c /\ irep K E c /\ later K E lo hi suf.
Proof using Type.
  intros [Hw Hi] Hk. apply Forall_cons_1 in Hi as [Hi Hi']. destruct suf as [|[k2 c2] suf].
  - split; [exact Hw|]. split; [exact Hi|]. split; [exact I|constructor].
  - destruct Hw as (H1 & H2 & H3 & H4). split; [exact H3|]. split; [exact Hi|]. split; [|exact Hi'].
    apply Forall_cons_1 in Hk as [Hk _]. destruct k2; [destruct (key_lt_nonempty _ _ Hk eq_refl)|exact H4].
Qed.

(** Children that the batch passes over. *)
Lemma level_skip e id lo hi mid : forall pre suf N, level K E e id lo hi pre (mid ++ suf) N -> later K E lo hi (mid ++ suf) ->
  level K E e id lo hi (pre ++ mid) suf (N ++ mid) /\ later K E lo hi suf.
Proof using Type.
  induction mid as [|[k c] mid IH]; intros pre suf N Hl Hlat; [rewrite !app_nil_r; auto|].
  destruct (level_key _ _ _ _ _ _ _ _ _ Hl) as [_ Hk]. cbn [app] in Hl, Hlat.
  assert (Hk' : Forall (fun x => k <k fst x) (mid ++ suf)) by (eapply Forall_impl; [|exact Hk]; intros x [Hx _]; exact Hx).
  destruct (later_split _ _ _ _ _ Hlat Hk') as (Hw & Hi & Hlat').
  assert (Hl1 : level K E (with_changes e (se_changes e ++ [])) id lo hi (pre ++ [(k, c)]) (mid ++ suf) (N ++ [(k, c)])).
  { apply level_fill; auto.
    - apply (fills_more (pointer_to (k, c)) []). constructor.
    - constructor; [|constructor]. pose proof (le_short _ _ _ _ _ _ _ _ _ Hl) as Hsh. rewrite !Forall_app in Hsh.
      destruct Hsh as (_ & Hsh & _). apply Forall_cons_1 in Hsh as [Hsh _]. exact Hsh. }
  rewrite with_changes_same in Hl1. destruct (IH _ _ _ Hl1 Hlat') as [H1 H2]. rewrite <- !app_assoc in H1. auto.
Qed.
End level.

(** ** Iterators on the stack *)
Lemma pointers_middle {h} (pre : list (bytes * tree h)) x suf : map pointer_to (pre ++ x :: suf) !! length pre = Some (pointer_to x).
Proof. rewrite map_app. cbn [map]. apply list_lookup_middle. rewrite length_map. reflexivity. Qed.

Lemma pointers_next {h} (pre : list (bytes * tree h)) x suf : map pointer_to (pre ++ x :: suf) !! S (length pre) = option_map pointer_to (head suf).
Proof.
  replace (pre ++ x :: suf) with ((pre ++ [x]) ++ suf) by (rewrite <- app_assoc; reflexivity).
  replace (S (length pre)) with (length (pre ++ [x])) by (rewrite length_app; cbn; lia). destruct suf as [|y suf].
  - rewrite app_nil_r. apply lookup_ge_None_2. rewrite length_map. lia.
  - apply pointers_middle.
Qed.

Lemma cursor_pointer {h} e (pre : list (bytes * tree h)) k c suf : cursor_at e (pre ++ (k, c) :: suf) (Some (length pre)) ->
  se_pointer e = mkIndexEntry k (tree_id c).
Proof.
  intros (id & page & _ & Hi). apply index_at_entry in Hi. rewrite pointers_middle in Hi. unfold se_pointer. injection Hi as <-. reflexivity.
Qed.

Lemma cursor_next {h} e (pre : list (bytes * tree h)) x suf : cursor_at e (pre ++ x :: suf) (Some (length pre)) ->
  PeekNextKey (se_view e) (se_iter e) = Some (bound suf []) /\ IndexHasNext (se_view e) (se_iter e) = negb (is_nil suf) /\
  (suf <> [] -> exists c, IndexNext (se_view e) (se_iter e) = Some (true, c) /\ cursor_at (se_at e c) (pre ++ x :: suf) (Some (S (length pre)))).
Proof.
  intros (id & page & Hh & Hi). pose proof (index_at_step _ _ _ _ _ Hi) as [Hp Hn]. rewrite pointers_next in Hp, Hn.
  destruct suf as [|[k c] suf]; cbn [head option_map] in *.
  - split; [exact Hp|]. split; [exact Hn|congruence].
  - split; [exact Hp|]. destruct Hn as [Hn (c' & HN & Hi')]. split; [exact Hn|]. intros _. exists c'. split; [exact HN|]. exists id, page. auto.
Qed.

Lemma cursor_search {h} e (cs : list (bytes * tree h)) o : cursor_at e cs o -> cursor_at e cs None.
Proof. intros (id & page & Hh & Hi). exists id, page. split; [exact Hh|exact (index_at_search _ _ _ _ _ Hi)]. Qed.

(** The bounds that the stack gives a hole. *)
Lemma context_bounds K E st : forall h H, context K E st h H -> left_bound st = ho_lo H /\ right_bound st = Some (ho_hi H).
Proof.
  induction st as [|e st IH]; intros h H Hc; [destruct Hc as [own ->]; auto|].
  destruct Hc as (H' & pre & k & c & suf & N & Hc & Hl & _ & Hcur & _ & ->). destruct (IH _ _ Hc) as [Hlo Hhi]. cbn [ho_lo ho_hi left_bound right_bound].
  rewrite (cursor_pointer _ _ _ _ _ Hcur). cbn [i_key]. destruct (cursor_next _ _ _ _ Hcur) as (Hp & _). rewrite Hp. cbn [mbind option_bind].
  split; [destruct k; [exact Hlo|reflexivity]|]. destruct suf as [|[k2 c2] suf]; [exact Hhi|]. cbn [bound].
  destruct (level_key _ _ _ _ _ _ _ _ _ _ _ Hl) as [_ Hs]. apply Forall_cons_1 in Hs as [[Hs _] _].
  destruct k2; [destruct (key_lt_nonempty _ _ Hs eq_refl)|reflexivity].
Qed.

Lemma level_same K E E' {h} e id lo hi (pre rest N : list (bytes * tree h)) : level K E e id lo hi pre rest N ->
  (forall q, In q (id :: below index_ids N) -> same_page E E' q) -> level K E' e id lo hi pre rest N.
Proof.
  intros [(page & H1 & H2 & H3 & p & Hp & He) H4 H5 H6 H7 H8 H9] Hs. constructor; auto.
  - exists page. split; [exact H1|]. split; [exact H2|]. split; [exact H3|].
    destruct (same_page_some _ _ _ _ (Hs id (or_introl eq_refl)) Hp) as (p' & Hp' & He'). exists p'. split; [exact Hp'|]. etransitivity; eassumption.
  - apply (ireps_same K E E'); [exact H9|]. intros q Hq. apply Hs. right. exact Hq.
Qed.

Lemma later_same K E E' {h} lo hi (rest : list (bytes * tree h)) : later K E lo hi rest -> (forall q, In q (below index_ids rest) -> same_page E E' q) ->
  later K E' lo hi rest.
Proof. intros [H1 H2] Hs. split; [exact H1|exact (ireps_same K E E' _ H2 Hs)]. Qed.

Lemma context_same K E E' st : forall h H, context K E st h H -> (forall q, In q (ho_ids H) -> same_page E E' q) -> context K E' st h H.
Proof.
  induction st as [|e st IH]; intros h H Hc Hs; [exact Hc|]. destruct Hc as (H' & pre & k & c & suf & N & Hc & Hl & Hlat & Hcur & Hlf & ->).
  cbn [ho_ids] in Hs. exists H', pre, k, c, suf, N. split; [|split; [|split; [|auto]]].
  - apply (IH _ _ Hc). intros q Hq. apply Hs. right. rewrite !in_app_iff. auto.
  - apply (level_same K E E'); [exact Hl|]. intros q [<-|Hq]; apply Hs; [left; reflexivity|right]. rewrite in_app_iff. auto.
  - apply (later_same K E E'); [exact Hlat|]. intros q Hq. apply Hs. right. rewrite !in_app_iff. auto.
Qed.

(** ** Counting pages *)
Lemma ireps_counts K E {h} (cs : list (bytes * tree h)) :
  (forall t : tree h, irep K E t -> 1 <= zlen (leaves t) /\ zlen (index_ids t) <= Z.of_nat h * zlen (leaves t)) -> Forall (fun c => irep K E (snd c)) cs ->
  zlen cs <= zlen (below leaves cs) /\ zlen (below index_ids cs) <= Z.of_nat h * zlen (below leaves cs).
Proof.
  intros Ht. induction cs as [|[k c] cs IH]; intros Hf; [split; [reflexivity|change (0 <= Z.of_nat h * 0); lia]|]. apply Forall_cons_1 in Hf as [Hc Hf]. specialize (IH Hf).
  destruct (Ht c Hc). rewrite !below_cons, !zlen_app, zlen_cons. cbn [snd] in *. lia.
Qed.

(** Every index page has a leaf below it. *)
Lemma irep_counts K E {h} : forall t : tree h, irep K E t -> 1 <= zlen (leaves t) /\ zlen (index_ids t) <= Z.of_nat h * zlen (leaves t).
Proof.
  induction h as [|h IH]; intros t Hr; [split; discriminate|]. apply irep_node in Hr as (page & c0 & cs & Hcs & _ & _ & _ & Hf).
  destruct (ireps_counts K E _ IH Hf) as [H1 H2].
  assert (H3 : 1 <= zlen (children t)) by (unfold children; rewrite Hcs; unfold zlen; cbn [length]; lia).
  assert (Hsum : forall l i, 1 <= l -> i <= Z.of_nat h * l -> 1 <= l /\ 1 + i <= Z.of_nat (S h) * l) by (intros l i Hl Hi; lia).
  rewrite index_ids_node, leaves_node, zlen_cons. apply Hsum; [exact (Z.le_trans _ _ _ H3 H1)|exact H2].
Qed.

Lemma context_count K E st : forall h H, context K E st h H ->
  zlen (ho_ids H) <= Z.of_nat (length st) + Z.of_nat (length st + h) * (zlen (ho_left H) + zlen (ho_right H)).
Proof.
  induction st as [|e st IH]; intros h H Hc; [destruct Hc as [own ->]; cbn [ho_ids ho_left ho_right length]; rewrite !zlen_nil, Z.mul_0_r; reflexivity|].
  destruct Hc as (H' & pre & k & c & suf & N & Hc & Hl & [_ Hlat] & _ & _ & ->). specialize (IH _ _ Hc). cbn [ho_ids ho_left ho_right length].
  destruct (ireps_counts K E N (irep_counts K E) (le_new _ _ _ _ _ _ _ _ _ Hl)) as [_ HN].
  destruct (ireps_counts K E suf (irep_counts K E) Hlat) as [_ Hsuf]. rewrite zlen_cons, !zlen_app.
  replace (length st + S h)%nat with (S (length st) + h)%nat in IH by lia.
  assert (Hh : forall x, 0 <= x -> Z.of_nat h * x <= Z.of_nat (S (length st) + h) * x) by (intros x Hx; apply Z.mul_le_mono_nonneg_r; lia).
  pose proof (Hh _ (zlen_nonneg (below leaves N))). pose proof (Hh _ (zlen_nonneg (below leaves suf))). lia.
Qed.

(** ** The pages of the task *)
Section stack.
  Context {S : Type} {TP : TaskPages S} (opts : KvOptions) (hash : bytes -> Z) {TL : TaskPagesLaws S opts}.

  Local Abbreviation Batch := (Batch (S := S)).
  Local Abbreviation eff := (eff opts).
  Local Abbreviation task_inv := (task_inv opts).
  Local Abbreviation between_leaves := (between_leaves opts).

(** The task holds the index pages [I] and the leaves, and nothing else. *)
Record tree_pages (b : Batch) (D : gset Z) (os : list Outside) (A B : list Leaf) (I : list Z) : Prop := {
  tg_between : between_leaves b D os A B;
  tg_held : forall q, q ∈ D <-> In q I \/ In q (map lf_id (A ++ B));
  tg_nodup : NoDup (I ++ map lf_id (A ++ B));
  tg_range : Forall (fun q => 0 <= q < 2 ^ 31) I
}.

Lemma tree_pages_perm b D os A B I I' : I ≡ₚ I' -> tree_pages b D os A B I -> tree_pages b D os A B I'.
Proof.
  intros Hp [H1 H2 H3 H4]. constructor; [exact H1| | |].
  - intros q. rewrite H2, <- !list_elem_of_In, Hp. reflexivity.
  - rewrite <- Hp. exact H3.
  - rewrite list.Forall_forall in H4 |- *. intros q Hq. apply H4. rewrite Hp. exact Hq.
Qed.

Lemma triple_leaves b D os A B q : between_leaves b D os A B -> In q (triple_ids b) -> In q (map lf_id (A ++ B)).
Proof.
  intros [_ _ H0 H1 H2 _]. unfold triple_ids. rewrite H2. cbn [ref_ids]. rewrite app_nil_r, map_app, !in_app_iff. intros [Hq|Hq].
  - left. destruct H0 as [H0|(A' & a & p & -> & H0)]; rewrite H0 in Hq; [destruct Hq|]. destruct Hq as [<-|[]].
    rewrite map_app. apply in_or_app. right. left. reflexivity.
  - right. destruct H1 as [H1|(x & B' & p & -> & H1)]; rewrite H1 in Hq; [destruct Hq|]. destruct Hq as [<-|[]]. left. reflexivity.
Qed.

Lemma index_held b D os A B I q : tree_pages b D os A B I -> In q I ->
  q ∈ D /\ ~ In q (triple_ids b) /\ 0 <= q < 2 ^ 31 /\ ~ In q (map lf_id (A ++ B)).
Proof.
  intros [H1 H2 H3 H4] Hq. apply nodup_app in H3 as (_ & H3 & _). split; [apply H2; auto|]. split; [|split; [|exact (H3 q Hq)]].
  - intros Ht. exact (H3 q Hq (triple_leaves _ _ _ _ _ _ H1 Ht)).
  - rewrite List.Forall_forall in H4. exact (H4 q Hq).
Qed.

Lemma index_stored b D os A B I q p : tree_pages b D os A B I -> In q I -> eff b q = Some p -> tp_page (bt_store b) q = Some p.
Proof. intros Ht Hq Hp. destruct (index_held _ _ _ _ _ _ _ Ht Hq) as (_ & Hn & _). rewrite <- (eff_store opts b q Hn). exact Hp. Qed.

Lemma leaf_range b D os A B I l : tree_pages b D os A B I -> In l (A ++ B) -> 0 <= lf_id l < 2 ^ 31.
Proof. intros [H1 _ _ _] Hl. exact (ch_range _ _ _ _ (bl_chain _ _ _ _ _ _ H1) l Hl). Qed.

(** The ids of children are those of index pages or leaves. *)
Lemma child_in_range b D os A B I {h} (cs : list (bytes * tree h)) : tree_pages b D os A B I ->
  (forall q, In q (below index_ids cs) -> In q I) -> (forall l, In l (below leaves cs) -> In l (A ++ B)) ->
  Forall (fun e => 0 <= i_page_id e < 2 ^ 31) (map pointer_to cs).
Proof.
  intros Ht Hi Hl. apply List.Forall_map, List.Forall_forall. intros [k c] Hc. cbn [pointer_to snd i_page_id]. destruct h as [|h].
  - apply (leaf_range _ _ _ _ _ _ _ Ht), Hl, In_below. exists k, c. split; [exact Hc|left; reflexivity].
  - apply (index_held _ _ _ _ _ _ _ Ht), Hi, In_below. exists k, c. split; [exact Hc|]. rewrite index_ids_node. left. reflexivity.
Qed.

(** The leaves do not notice changes of index pages. *)
Lemma between_memory (b b' : Batch) D D' os A B : between_leaves b D os A B -> task_inv b' D' os -> same_memory b b' ->
  (forall q, In q (map lf_id (A ++ B)) -> eff b' q = eff b q /\ q ∈ D') -> keeps opts D' b b' -> between_leaves b' D' os A B.
Proof.
  intros [H1 H2 H3 H4 H5 H6] Hinv (M0 & M1 & M2 & M3) Hl Hk. constructor.
  - exact Hinv.
  - eapply chain_same; [|exact H2]. intros l Hin. destruct (Hl (lf_id l) (in_map lf_id _ _ Hin)) as [He HD]. split; [|exact HD].
    apply same_page_eq. symmetry. exact He.
  - rewrite M0. exact H3.
  - rewrite M1. exact H4.
  - rewrite M2. exact H5.
  - intros l Hin. apply Hk; [|exact (H6 l Hin)]. apply (Hl (lf_id l)), in_map, in_or_app. auto.
Qed.

(** ** Taking a page off the stack *)
  Context (Hopts : valid_index_options opts) (K : Z) (HK : index_keys_fit opts K) (HR : forall leaf, redistributes opts leaf K).

  Local Abbreviation context := (context K).
  Local Abbreviation level := (level K).

(** The page on top of the stack, below the hole [H]. *)
Record standing (b : Batch) (D : gset Z) (os : list Outside) (A B : list Leaf) {h} (top : IndexStackEntry) (st : list IndexStackEntry) (H : Hole)
    (pre rest N : list (bytes * tree h)) : Prop := {
  sd_stack : stack_ b = top :: st;
  sd_context : context (eff b) st (Datatypes.S h) H;
  sd_level : level (eff b) top (ho_own H) (ho_lo H) (ho_hi H) pre rest N;
  sd_later : later K (eff b) (ho_lo H) (ho_hi H) rest;
  sd_leaf : is_leaf_index_ top = bool_decide (h = O) \/ (is_leaf_index_ top = false /\ se_changes top = []);
  sd_pages : tree_pages b D os A B (ho_own H :: below index_ids N ++ below index_ids rest ++ ho_ids H);
  sd_leaves : exists M, ho_left H ++ below leaves N = A ++ M /\ B = M ++ below leaves rest ++ ho_right H
}.

(** The pages of a tree of height [n] with these leaves, and as many again as it
    has leaves, are not too many. *)
Definition pages_fit (n : nat) (A B : list Leaf) : Prop := (Z.of_nat n + 2) * (zlen (A ++ B) + 1) <= tp_capacity.

Lemma standing_room b D os A B {h} top st H (pre rest N : list (bytes * tree h)) : standing b D os A B top st H pre rest N ->
  pages_fit (length st + Datatypes.S h) A B -> room opts D (zlen (A ++ B)) /\ zlen (N ++ rest) <= zlen (A ++ B).
Proof using Type.
  intros [H1 H2 H3 [_ H4] H5 H6 (M & H7 & H8)] Hfit. unfold pages_fit in Hfit.
  destruct (ireps_counts K _ N (irep_counts K _) (le_new _ _ _ _ _ _ _ _ _ H3)) as [HN HN'].
  destruct (ireps_counts K _ rest (irep_counts K _) H4) as [Hr Hr']. pose proof (context_count _ _ _ _ _ H2) as Hc.
  assert (HL : zlen (A ++ B) = zlen (ho_left H) + zlen (ho_right H) + zlen (below leaves N) + zlen (below leaves rest)).
  { rewrite H8, app_assoc, <- H7, !zlen_app. lia. }
  split; [|rewrite zlen_app; pose proof (zlen_nonneg (ho_left H)); pose proof (zlen_nonneg (ho_right H)); lia].
  unfold room. pose proof (size_list ∅ D ((ho_own H :: below index_ids N ++ below index_ids rest ++ ho_ids H) ++ map lf_id (A ++ B))) as Hs.
  rewrite size_empty in Hs. specialize (Hs ltac:(intros q Hq; right; rewrite in_app_iff; apply (tg_held _ _ _ _ _ _ H6), Hq)).
  rewrite zlen_app, zlen_cons, !zlen_app in Hs. assert (Hm : zlen (map lf_id (A ++ B)) = zlen (A ++ B)) by (unfold zlen; rewrite length_map; reflexivity).
  rewrite !zlen_app in *. set (n := length st) in *.
  pose proof (zlen_nonneg (below leaves N)) as P1. pose proof (zlen_nonneg (below leaves rest)) as P2.
  assert (Hh : forall x, 0 <= x -> Z.of_nat h * x <= Z.of_nat (n + Datatypes.S h) * x) by (intros x Hx; apply Z.mul_le_mono_nonneg_r; lia).
  pose proof (Hh _ P1). pose proof (Hh _ P2). set (m := Z.of_nat (n + Datatypes.S h)) in *. assert (Z.of_nat n + 1 <= m) by lia. nia.
Qed.

(** What has to be told to the page above; a root that splits gets a new root. *)
Definition upserts_of {h} (cs : list (bytes * tree h)) : list IndexOp := map (fun c => mkIndexOp (fst c) (tree_id (snd c)) Upsert) cs.

Definition told {h} (st : list IndexStackEntry) (ops : list IndexOp) (N' : list (bytes * tree h)) : list IndexStackEntry :=
  match st, N' with
  | [], _ :: _ :: _ => [with_changes null_entry (upserts_of N')]
  | [], _ => []
  | p :: st', _ => with_changes p (se_changes p ++ ops) :: st'
  end.

(** The children [F] of the page in the hole [H] are now in the nodes [N']. *)
Record popped (b b' : Batch) (D' : gset Z) (os : list Outside) (A B : list Leaf) {h} (st : list IndexStackEntry) (H : Hole) (F : list (bytes * tree h))
    (N' : list (bytes * tree (Datatypes.S h))) (ops : list IndexOp) : Prop := {
  po_fills : fills (mkIndexEntry (ho_key H) (ho_own H)) ops (map pointer_to N');
  po_within : children_within within (ho_lo H) (ho_hi H) N';
  po_first : match N' with [] => True | (k, _) :: _ => k = ho_key H end;
  po_rep : Forall (fun c => irep K (eff b') (snd c)) N';
  po_short : Forall (fun c => zlen (fst c) <= K) N';
  po_leaves : below leaves N' = below leaves F;
  po_pages : tree_pages b' D' os A B (below index_ids N' ++ ho_ids H);
  po_frame : forall q, In q (ho_ids H) -> eff b' q = eff b q;
  po_count : (length N' <= 1 \/ 2 * length N' <= length F + 1)%nat;
  po_stack : stack_ b' = told st ops N';
  po_memory : same_memory b b'
}.

Lemma context_key E st h H : context E st h H -> own_key st = ho_key H /\ ho_key H <=k ho_lo H /\ (0 <= K -> zlen (ho_key H) <= K).
Proof using Type.
  destruct st as [|e st]; intros Hc; [destruct Hc as [own ->]; split; [reflexivity|split; [apply key_nil_le|auto]]|].
  destruct Hc as (H' & pre & k & c & suf & N & _ & Hl & _ & Hcur & _ & ->). unfold own_key. rewrite (cursor_pointer _ _ _ _ _ Hcur).
  cbn [ho_key ho_lo i_key]. split; [reflexivity|]. split; [destruct k; [apply key_nil_le|apply key_le_refl]|]. intros _.
  pose proof (le_short _ _ _ _ _ _ _ _ _ Hl) as Hsh. rewrite !Forall_app in Hsh. destruct Hsh as (_ & Hsh & _). apply Forall_cons_1 in Hsh as [Hsh _]. exact Hsh.
Qed.

(** The rest of the children stay as they are. *)
Lemma standing_rest b D os A B {h} top st H (pre rest N : list (bytes * tree h)) : standing b D os A B top st H pre rest N ->
  standing b D os A B top st H (pre ++ rest) [] (N ++ rest).
Proof using Type.
  intros [H1 H2 H3 H4 H5 H6 (M & H7 & H8)]. rewrite <- (app_nil_r rest) in H3, H4. destruct (level_skip _ _ _ _ _ _ _ _ _ _ H3 H4) as [H3' H4'].
  constructor; auto.
  - rewrite below_app. eapply tree_pages_perm; [|exact H6]. rewrite <- app_assoc. reflexivity.
  - exists (M ++ below leaves rest). rewrite below_app, app_assoc, H7, <- !app_assoc. split; [reflexivity|]. rewrite H8. reflexivity.
Qed.

Lemma level_entries E {h} e id lo hi (pre rest N : list (bytes * tree h)) : level E e id lo hi pre rest N ->
  handle_entries e = Some (map pointer_to (pre ++ rest)).
Proof using Type.
  intros [(page & Hh & Hn & Hv & _) _ _ _ _ _ _]. unfold handle_entries. rewrite Hh. destruct (pre ++ rest) as [|[k0 c0] cs]; [destruct Hn|].
  destruct Hn as [-> Hp]. exact (index_entries page _ (pointer_to ([], c0)) (map pointer_to cs) (se_view e) Hp eq_refl Hv).
Qed.

(** The page of a root, as [Pop] returns it. *)
Definition root_ref {h} (N' : list (bytes * tree h)) : option Z := match N' with [(_, t)] => Some (tree_id t) | _ => None end.

Lemma told_same {h} st (k : bytes) (t : tree h) : told st [] [(k, t)] = st.
Proof using Type. destruct st as [|p st]; [reflexivity|]. cbn [told]. rewrite with_changes_same. reflexivity. Qed.

Lemma pop_unchanged b D os A B {h} top st H (cs F : list (bytes * tree h)) : 0 <= K -> standing b D os A B top st H cs [] F -> se_changes top = [] ->
  wp tp_fails (Pop opts hash b) (fun '(ref, b') => exists D' N' ops, popped b b' D' os A B st H F N' ops /\ option_map fst ref = root_ref N').
Proof using Type.
  intros HK0 [H1 H2 H3 H4 H5 H6 H7] Hch. unfold Pop. rewrite H1, Hch. cbn [wp]. destruct (context_key _ _ _ _ H2) as (_ & _ & Hks).
  pose proof H3 as [(page & Hh & Hn & Hv & p & Hp & He) Hm _ _ Hs Hsh Hi]. rewrite Hch in Hm. pose proof (merged_none _ _ Hm) as Hptr.
  exists D, [(ho_key H, node (ho_own H) F)], []. split; [|rewrite Hh; reflexivity]. rewrite app_nil_r in *. constructor.
  - apply (fills_more (mkIndexEntry (ho_key H) (ho_own H)) []). constructor.
  - apply within_node. exact Hs.
  - reflexivity.
  - constructor; [|constructor]. cbn [snd]. destruct cs as [|[k0 c0] cs]; [destruct Hn|]. destruct Hn as [-> Hpg].
    destruct F as [|[k c] F]; [discriminate Hptr|]. injection Hptr as -> Hc Hptr. apply irep_node. exists p, c, F.
    split; [reflexivity|]. split; [exact Hp|]. split; [rewrite Hc, Hptr; exact (index_page_eq _ _ _ _ _ He Hpg)|].
    rewrite !Forall_app in Hsh. split; [apply Hsh|]. apply Forall_cons_1 in Hi as [Hi1 Hi2]. constructor; assumption.
  - constructor; [exact (Hks HK0)|constructor].
  - unfold below at 1. cbn [map concat snd]. rewrite app_nil_r. apply leaves_of_node.
  - unfold below at 1. cbn [map concat snd]. rewrite app_nil_r, ids_of_node. destruct H6 as [[I1 I2 I3 I4 I5 I6] G2 G3 G4]. constructor; auto.
    constructor; auto. apply task_inv_stack, I1.
  - reflexivity.
  - left. cbn. lia.
  - rewrite told_same. unfold pop_back. cbn [stack_ with_stack]. rewrite H1. reflexivity.
  - repeat split.
Qed.

Lemma parent_deletes_told {h} E st n H id : context E st n H -> parent_deletes st id = told st [mkIndexOp (ho_key H) id Delete] ([] : list (bytes * tree h)).
Proof using Type.
  intros Hc. destruct (context_key _ _ _ _ Hc) as (Hk & _). destruct st as [|p st]; [reflexivity|]. cbn in Hk |- *. rewrite Hk. reflexivity.
Qed.

Lemma pop_dropped b b' D os A B {h} top st H (cs : list (bytes * tree h)) : standing b D os A B top st H cs [] [] ->
  page_dropped opts b D os b' (ho_own H) -> stack_ b' = parent_deletes st (ho_own H) ->
  popped b b' (D ∖ {[ho_own H]}) os A B st H ([] : list (bytes * tree h)) [] [mkIndexOp (ho_key H) (ho_own H) Delete].
Proof using Type.
  intros [H1 H2 H3 H4 H5 H6 H7] [P1 P2 P3 P4] Hst. cbn [below map concat app] in H6.
  assert (Hdiff : forall q, In q (ho_ids H) \/ In q (map lf_id (A ++ B)) -> q ∈ D /\ q <> ho_own H).
  { intros q Hq. destruct H6 as [_ G2 G3 _]. cbn [app] in G3. apply nodup_cons in G3 as [G3 _]. rewrite in_app_iff in G3.
    split; [apply G2; cbn; tauto|]. intros ->. tauto. }
  constructor; auto.
  - apply fills_delete.
  - exact I.
  - cbn [below map concat app]. pose proof H6 as [G1 G2 G3 G4]. cbn [app] in G3. apply nodup_cons in G3 as [G3 G3']. apply Forall_cons_1 in G4 as [_ G4].
    constructor; auto.
    + apply (between_memory b b' D); auto. intros q Hq. destruct (Hdiff q (or_intror Hq)) as [HqD Hne]. split; [exact (P3 q HqD Hne)|].
      apply elem_of_difference. rewrite elem_of_singleton. auto.
    + intros q. rewrite elem_of_difference, elem_of_singleton. split; [|intros Hq; apply Hdiff, Hq]. intros [HqD Hne]. apply G2 in HqD. cbn in HqD.
      destruct HqD as [[HqD|HqD]|HqD]; [congruence|tauto|tauto].
  - intros q Hq. destruct (Hdiff q (or_introl Hq)) as [HqD Hne]. exact (P3 q HqD Hne).
  - rewrite Hst. exact (parent_deletes_told _ _ _ _ _ H2).
Qed.

Lemma upserts_built {h} (R : list Built) (Fs : list (list (bytes * tree h))) : children_of R Fs -> upserts_of (nodes R Fs) = built_ups R.
Proof using Type. induction 1 as [|g F R Fs _ _ IH]; [reflexivity|]. cbn [nodes zip_with upserts_of built_ups map]. f_equal. exact IH. Qed.

Lemma told_built {h} st (R : list Built) (Fs : list (list (bytes * tree h))) : children_of R Fs -> R <> [] ->
  parent_told st (1 <? zlen R) R = told st (built_ups (tl R)) (nodes R Fs).
Proof using Type.
  intros Hc Hne. pose proof (nodes_length _ _ Hc) as Hlen. unfold parent_told. destruct st as [|p st].
  - cbn [told pushed]. rewrite <- (upserts_built R Fs Hc). destruct R as [|g1 [|g2 R]]; [congruence| |];
      destruct (nodes _ Fs) as [|x [|y N']]; try discriminate Hlen; [reflexivity|].
    rewrite (proj2 (Z.ltb_lt _ _)) by (rewrite !zlen_cons; pose proof (zlen_nonneg R); lia). reflexivity.
  - cbn [told pushed]. destruct R as [|g1 [|g2 R]]; [congruence| |].
    + cbn [tl built_ups map zlen length Z.of_nat]. rewrite with_changes_same. reflexivity.
    + rewrite (proj2 (Z.ltb_lt _ _)) by (rewrite !zlen_cons; pose proof (zlen_nonneg R); lia). reflexivity.
Qed.

(** The pages after a split. *)
Lemma built_pages b b' D D' os A B {h} H (F : list (bytes * tree h)) leaf R Fs :
  tree_pages b D os A B (ho_own H :: below index_ids F ++ ho_ids H) -> concat Fs = F -> children_of R Fs ->
  pages_built opts b D os leaf (Some (ho_own H)) b' D' R -> R <> [] -> tree_pages b' D' os A B (below index_ids (nodes R Fs) ++ ho_ids H).
Proof using Type.
  intros [G1 G2 G3 G4] HF Hc [P1 P2 P3 P4 P5 P6 P7 P8 P9 P10] Hne. destruct R as [|g R]; [congruence|].
  assert (Hg : bu_id g = ho_own H) by (destruct P4 as [P4|P4]; [discriminate P4|injection P4 as ->; reflexivity]).
  cbn [new_built tl] in P5, P6. cbn [app] in G3. apply nodup_cons in G3 as [Gn G3]. cbn [map] in P7. apply nodup_cons in P7 as [Pn P7].
  apply Forall_cons_1 in G4 as [Gr G4]. apply Forall_cons_1 in P8 as [_ P8].
  apply (tree_pages_perm b' D' os A B (ho_own H :: map bu_id R ++ below index_ids F ++ ho_ids H)).
  { rewrite (nodes_ids _ _ Hc), HF. cbn [map]. rewrite Hg, <- app_assoc. reflexivity. }
  assert (Hnew : forall q, In q (map bu_id R) -> q ∉ D).
  { intros q Hq. apply in_map_iff in Hq as (g' & <- & Hg'). exact (P6 g' Hg'). }
  constructor.
  - apply (between_memory b b' D); auto.
    + intros q Hq. split; [|apply P5; left; apply G2; auto]. apply P9; [apply G2; auto|]. intros [= <-]. apply Gn. apply in_or_app. auto.
    + intros q Hq Hs. destruct (P5 q) as [P5' _]. destruct (P5' Hq) as [HqD|Hin]; [exact (P10 q HqD Hs)|].
      apply in_map_iff in Hin as (g' & <- & Hg'). rewrite List.Forall_forall in P3. destruct (P3 g' (or_intror Hg')) as (page & Hpage & _).
      unfold stored. assert (Htr : ~ In (bu_id g') (triple_ids b')).
      { rewrite (same_memory_ids _ _ P2). intros Hin. apply (P6 g' Hg'). apply G2. right. exact (triple_leaves _ _ _ _ _ _ G1 Hin). }
      rewrite <- (eff_store opts b' _ Htr), Hpage. eauto.
  - intros q. rewrite P5, G2. cbn [In]. rewrite !in_app_iff. tauto.
  - cbn [app]. apply nodup_cons. rewrite <- !app_assoc. split.
    + rewrite in_app_iff. intros [Hin|Hin]; [rewrite <- Hg in Hin; exact (Pn Hin)|]. apply Gn. rewrite <- app_assoc. exact Hin.
    + apply nodup_app. split; [exact P7|]. rewrite <- app_assoc in G3. split; [|exact G3]. intros q Hq Hin. apply (Hnew q Hq). apply G2.
      rewrite !in_app_iff in Hin. cbn [In]. rewrite in_app_iff. tauto.
  - constructor; [exact Gr|]. apply Forall_app_2; [apply List.Forall_map; exact P8|exact G4].
Qed.

Lemma pop_built b b' D D' os A B {h} top st H (cs F : list (bytes * tree h)) R : 0 <= K -> standing b D os A B top st H cs [] F ->
  pages_built opts b D os (bool_decide (h = O)) (Some (ho_own H)) b' D' R -> holds_pointers (own_key st) (map pointer_to F) R ->
  stack_ b' = parent_told st (1 <? zlen R) R ->
  exists N' ops, popped b b' D' os A B st H F N' ops /\ root_ref N' = match R with [g] => Some (bu_id g) | _ => None end.
Proof using Type.
  intros HK0 [H1 H2 H3 H4 H5 H6 H7] HP HH Hst. destruct (context_key _ _ _ _ H2) as (Hk & Hle & Hks). rewrite Hk in HH.
  destruct (built_children _ F R opts (eff b') _ HH (pb_pages _ _ _ _ _ _ _ _ _ HP)) as (Fs & HF & Hc).
  pose proof (hp_some _ _ _ HH) as Hne. pose proof (hp_keyed _ _ _ HH) as Hkeyed. pose proof H3 as [_ _ _ _ Hs Hsh Hi]. cbn [bound] in Hs.
  cbn [below map concat app] in H6. pose proof (built_pages b b' D D' os A B H F _ R Fs H6 HF Hc HP Hne) as Hpages.
  assert (Hw : children_within within (ho_lo H) (ho_hi H) (nodes R Fs)) by (apply (nodes_within _ _ R Fs (ho_key H)); [rewrite HF; exact Hs|exact Hc|exact Hkeyed]).
  assert (Hsame : forall q, In q (below index_ids F ++ ho_ids H) -> eff b' q = eff b q).
  { intros q Hq. apply (pb_frame _ _ _ _ _ _ _ _ _ HP); [apply (tg_held _ _ _ _ _ _ H6); left; right; exact Hq|].
    intros [= <-]. pose proof (tg_nodup _ _ _ _ _ _ H6) as Hnd. cbn [app] in Hnd. apply nodup_cons in Hnd as [Hnd _]. apply Hnd, in_or_app. auto. }
  exists (nodes R Fs), (built_ups (tl R)). destruct R as [|g R]; [congruence|].
  assert (Hg : bu_id g = ho_own H).
  { destruct (pb_first _ _ _ _ _ _ _ _ _ HP) as [P4|P4]; [discriminate P4|injection P4 as ->; reflexivity]. }
  destruct Hkeyed as [Hgk Hkeyed]. cbn [fst] in Hgk. pose proof (nodes_pointers _ _ Hc) as Hptr. cbn [map] in Hptr.
  split; [constructor; auto|].
  - cbn [tl]. rewrite Hptr, Hgk, Hg. replace (map _ R) with (map op_pointer (built_ups R)) by (unfold built_ups; rewrite map_map; reflexivity).
    apply fills_more. unfold built_ups. apply List.Forall_map. destruct (nodes (g :: R) Fs) as [|x N'] eqn:EN; [discriminate Hptr|].
    pose proof (children_within_keys _ _ _ _ _ Hw) as Hkw. injection Hptr as _ _ Hptr.
    assert (Hkk : map bu_key R = map fst N') by (apply (f_equal (map i_key)) in Hptr; rewrite !map_map in Hptr; symmetry; exact Hptr).
    assert (Hab : Forall (fun k => ho_key H <k k) (map bu_key R)).
    { rewrite Hkk. apply List.Forall_map. eapply Forall_impl; [|exact Hkw]. intros y [Hy _]. eapply key_le_lt_trans; eassumption. }
    rewrite List.Forall_map in Hab. eapply Forall_impl; [|exact Hab]. intros y Hy. split; [reflexivity|exact Hy].
  - destruct (nodes (g :: R) Fs) as [|[k t] N']; [exact I|]. injection Hptr as -> _ _. exact Hgk.
  - apply (nodes_irep K (eff b') opts (g :: R) Fs Hc (pb_pages _ _ _ _ _ _ _ _ _ HP) HK0); rewrite HF; [rewrite !Forall_app in Hsh; apply Hsh|]. apply (ireps_same K (eff b)); [exact Hi|].
    intros q Hq. apply same_page_eq. symmetry. apply Hsame, in_or_app. auto.
  - apply (nodes_short K (ho_key H) (g :: R) Fs Hc); [split; assumption|exact (Hks HK0)|]. rewrite HF. rewrite !Forall_app in Hsh. apply Hsh.
  - rewrite (nodes_leaves _ _ Hc), HF. reflexivity.
  - intros q Hq. apply Hsame, in_or_app. auto.
  - right. rewrite (nodes_length _ _ Hc). pose proof (hp_count _ _ _ HH) as Hcnt. rewrite length_map in Hcnt. exact Hcnt.
  - rewrite Hst. apply told_built; [exact Hc|discriminate].
  - exact (pb_memory _ _ _ _ _ _ _ _ _ HP).
  - pose proof (nodes_length _ _ Hc) as Hlen. destruct R as [|g2 R]; destruct (nodes _ Fs) as [|[k t] [|y N']]; try discriminate Hlen; [|reflexivity].
    cbn. injection Hptr as _ ->. reflexivity.
Qed.

(** Taking a page off the stack leaves nodes with its children in its place. *)
Lemma Pop_tree b D os A B {h} top st H (pre rest N : list (bytes * tree h)) : 0 <= K -> standing b D os A B top st H pre rest N ->
  pages_fit (length st + Datatypes.S h) A B -> wp tp_fails (Pop opts hash b) (fun '(ref, b') => exists D' N' ops,
    popped b b' D' os A B st H (N ++ rest) N' ops /\ option_map fst ref = root_ref N').
Proof.
  intros HK0 Hsd Hfit. destruct (standing_room _ _ _ _ _ _ _ _ _ _ _ Hsd Hfit) as [Hroom HF]. apply standing_rest in Hsd. set (F := N ++ rest) in *. set (cs := pre ++ rest) in *. clearbody F cs. clear pre rest N.
  destruct (se_changes top) as [|o ch] eqn:Hch; [exact (pop_unchanged b D os A B top st H cs F HK0 Hsd Hch)|].
  pose proof Hsd as [H1 H2 H3 H4 H5 H6 (M & HM1 & HM2)]. cbn [below map concat app] in H6, HM2.
  assert (Hlf : bool_decide (h = O) = is_leaf_index_ top) by (destruct H5 as [H5|[_ H5]]; congruence).
  pose proof H3 as [(page & Hh & _ & _ & p & Hp & _) Hm Hb _ Hs Hsh _]. cbn [bound] in Hs. 
  destruct (index_held _ _ _ _ _ _ (ho_own H) H6 (or_introl eq_refl)) as (HD & Hnt & Hrg & _).
  eapply wp_mono; [apply (Pop_spec opts hash Hopts b D os top st (bool_decide (h = O)) (Some (ho_own H)) (zlen (A ++ B))) with (K := K) (base := map pointer_to cs) (M := map pointer_to F)|].
  - constructor; [exact (bl_inv _ _ _ _ _ _ (tg_between _ _ _ _ _ _ H6))|exact H1| |discriminate|exact Hroom]. intros id [= <-]. auto.
  - exact HK.
  - apply HR.
  - rewrite Hch. discriminate.
  - rewrite (level_entries _ _ _ _ _ _ _ _ H3), app_nil_r. reflexivity.
  - rewrite <- (app_nil_r (map pointer_to cs)), <- (app_nil_r (map pointer_to F)). apply merged_rest; [exact Hm|constructor].
  - rewrite Hh. reflexivity.
  - exact Hlf.
  - intros id [= <-]. unfold stored. rewrite (index_stored _ _ _ _ _ _ _ _ H6 (or_introl eq_refl) Hp). eauto.
  - discriminate.
  - apply (child_in_range _ _ _ _ _ _ F H6).
    + intros q Hq. right. apply in_or_app. auto.
    + intros l Hl. rewrite HM2, app_assoc, <- HM1, !in_app_iff. auto.
  - apply List.Forall_map. rewrite Forall_app in Hsh. apply Hsh.
  - destruct F as [|c F]; [constructor|]. cbn [map tl]. rewrite map_map. exact (children_within_sorted _ _ _ _ _ Hs).
  - unfold zlen at 1. rewrite length_map. exact HF.
  - intros [ref b'] [(HM & -> & id & [= <-] & Hdrop & Hst)|(HM & D' & R & HP & HH & Hst & Href)].
    + apply map_eq_nil in HM. subst F. exists (D ∖ {[ho_own H]}), [], [mkIndexOp (ho_key H) (ho_own H) Delete].
      split; [exact (pop_dropped b b' D os A B top st H cs Hsd Hdrop Hst)|reflexivity].
    + destruct (pop_built b b' D D' os A B top st H cs F R HK0 Hsd HP HH Hst) as (N' & ops & Hpo & Hr). exists D', N', ops.
      split; [exact Hpo|congruence].
Qed.

(** The page above after its hole was filled. *)
Lemma pop_up b b' D D' os A B {h} top p st H (pre rest N : list (bytes * tree h)) N' ops :
  standing b D os A B top (p :: st) H pre rest N -> popped b b' D' os A B (p :: st) H (N ++ rest) N' ops ->
  exists p' H' (pre' : list (bytes * tree (Datatypes.S h))) x suf N1, standing b' D' os A B p' st H' (pre' ++ [x]) suf N1 /\
    cursor_at p' (pre' ++ x :: suf) (Some (length pre')) /\ bound suf (ho_hi H') = ho_hi H.
Proof using Type.
  intros Hsd [P1 P2 P3 P4 P5 P6 P7 P8 _ P9 _]. apply standing_rest in Hsd. destruct Hsd as [_ H2 _ _ _ _ (M & H7 & H8)].
  destruct H2 as (H' & pre' & k & c & suf & Np & Hc & Hl & Hlat & Hcur & Hlf & ->). cbn [ho_ids ho_own ho_key ho_lo ho_hi ho_left ho_right] in *.
  assert (Hsame : forall q, In q (ho_own H' :: below index_ids Np ++ below index_ids suf ++ ho_ids H') -> same_page (eff b) (eff b') q).
  { intros q Hq. apply same_page_eq. symmetry. exact (P8 q Hq). }
  exists (with_changes p (se_changes p ++ ops)), H', pre', (k, c), suf, (Np ++ N'). split; [constructor|split; [exact Hcur|reflexivity]].
  - exact P9.
  - apply (context_same K (eff b)); [exact Hc|]. intros q Hq. apply Hsame. right. rewrite !in_app_iff. auto.
  - apply (level_fill K (eff b')); auto. apply (level_same K (eff b)); [exact Hl|]. intros q [<-|Hq]; apply Hsame; [left; reflexivity|right].
    rewrite in_app_iff. auto.
  - apply (later_same K (eff b)); [exact Hlat|]. intros q Hq. apply Hsame. right. rewrite !in_app_iff. auto.
  - left. exact Hlf.
  - eapply tree_pages_perm; [|exact P7]. rewrite below_app, Permutation_app_comm. cbn [app]. apply Permutation_skip.
    rewrite <- !app_assoc. apply Permutation_app_head. rewrite (Permutation_app_comm (below index_ids N')), <- app_assoc. reflexivity.
  - exists M. rewrite below_app, P6, app_assoc. split; [exact H7|]. rewrite H8. reflexivity.
Qed.

(** ** Moving the stack to a key *)

(** The child [x] of the page on top is done; the next one begins at [bd]. *)
Definition at_done (b : Batch) (D : gset Z) (os : list Outside) (A B : list Leaf) (n : nat) (bd : bytes) : Prop :=
  exists h top st H (pre : list (bytes * tree h)) x rest N, standing b D os A B top st H (pre ++ [x]) rest N /\
    cursor_at top (pre ++ x :: rest) (Some (length pre)) /\ (length st + Datatypes.S h)%nat = n /\ bound rest (ho_hi H) = bd.

(** The key falls into a child of the page on top that is to come. *)
Record ready (b : Batch) (D : gset Z) (os : list Outside) (A B : list Leaf) (n : nat) (key : bytes) {h} (top : IndexStackEntry) (st : list IndexStackEntry)
    (H : Hole) (pre rest N : list (bytes * tree h)) : Prop := {
  rd_standing : standing b D os A B top st H pre rest N;
  rd_cursor : cursor_at top (pre ++ rest) None;
  rd_height : (length st + Datatypes.S h)%nat = n;
  rd_rest : rest <> [];
  rd_lower : low (ho_lo H) (bound rest []) <=k key;
  rd_upper : below_bound (ho_hi H) key
}.

Lemma standing_at b D os A B {h} top st H (pre rest N : list (bytes * tree h)) c : standing b D os A B top st H pre rest N ->
  standing (with_stack b (se_at top c :: st)) D os A B (se_at top c) st H pre rest N.
Proof using Type.
  intros [H1 H2 [L1 L2 L3 L4 L5 L6 L7] H4 H5 [[I1 I2 I3 I4 I5 I6] G2 G3 G4] H7]. constructor; auto; [constructor; auto|].
  constructor; auto. constructor; auto. apply task_inv_stack, I1.
Qed.

Lemma low_bound lo (rest : bytes) : rest <> [] -> low lo rest = rest.
Proof using Type. destruct rest; [congruence|reflexivity]. Qed.

Definition at_ready (b : Batch) (D : gset Z) (os : list Outside) (A B : list Leaf) (n : nat) (key : bytes) : Prop :=
  exists h top st H (pre rest N : list (bytes * tree h)), ready b D os A B n key top st H pre rest N.

Lemma app_snoc {X} (a : list X) x b : (a ++ [x]) ++ b = a ++ x :: b.
Proof using Type. rewrite <- app_assoc. reflexivity. Qed.

Lemma entry_contains_spec k hi key : k <> [] -> k <=k key -> 
  if entry_contains k hi key then below_bound hi key else hi <> [] /\ hi <=k key.
Proof using Type.
  intros Hne Hle. unfold entry_contains. assert (Hz : (zlen k =? 0) = false).
  { apply Z.eqb_neq. destruct k; [congruence|]. rewrite zlen_cons. pose proof (zlen_nonneg k). lia. }
  rewrite Hz. cbn [orb]. assert (Hc : (0 <=? Compare key k) = true).
  { apply Z.leb_le. rewrite Compare_opp. unfold key_le in Hle. lia. }
  rewrite Hc. cbn [andb]. destruct hi as [|z hi]; [left; reflexivity|].
  assert ((zlen (z :: hi) =? 0) = false) as -> by (apply Z.eqb_neq; rewrite zlen_cons; pose proof (zlen_nonneg hi); lia). cbn [orb].
  destruct (Z.ltb_spec (Compare key (z :: hi)) 0) as [Hlt|Hge]; [right; exact Hlt|]. split; [discriminate|]. apply key_not_lt. unfold key_lt. lia.
Qed.

(** From a page that is done to the page that holds the key. *)
Lemma SeekStack_spec os A B n key : 0 <= K -> pages_fit n A B -> forall fuel b D bd, at_done b D os A B n bd -> bd <> [] -> bd <=k key -> (length (stack_ b) <= fuel)%nat ->
  wp tp_fails (SeekStack opts hash fuel b key) (fun b' => exists D', at_ready b' D' os A B n key).
Proof.
  intros HK0 Hfit. induction fuel as [|fuel IH]; intros b D bd (h & top & st & H & pre & x & rest & N & Hsd & Hcur & Hn & Hbd) Hne Hle Hf;
    pose proof (sd_stack _ _ _ _ _ _ _ _ _ _ _ Hsd) as Hst; [rewrite Hst in Hf; cbn in Hf; lia|].
  assert (Hready : forall b1 c, below_bound (ho_hi H) key -> rest <> [] -> standing b1 D os A B (se_at top c) st H (pre ++ [x]) rest N ->
    cursor_at (se_at top c) (pre ++ x :: rest) None -> at_ready b1 D os A B n key).
  { intros b1 c Hup Hr Hs Hc. exists h, (se_at top c), st, H, (pre ++ [x]), rest, N. constructor; auto; [rewrite app_snoc; exact Hc|].
    destruct rest as [|[k1 c1] rest]; [congruence|]. cbn [bound] in *. rewrite low_bound by congruence. congruence. }
  cbn [SeekStack]. rewrite Hst. destruct st as [|p st].
  { cbn [wp]. exists D. destruct (sd_context _ _ _ _ _ _ _ _ _ _ _ Hsd) as [own HH].
    assert (Htop : se_at top (se_iter top) = top) by (destruct top; reflexivity).
    apply (Hready b (se_iter top)); [rewrite HH; left; reflexivity| |rewrite Htop; exact Hsd|rewrite Htop; exact (cursor_search _ _ _ Hcur)].
    intros ->. rewrite HH in Hbd. cbn in Hbd. congruence. }
  assert (Hpop : forall b1 top1, ho_hi H <> [] -> ho_hi H <=k key -> standing b1 D os A B top1 (p :: st) H (pre ++ [x]) rest N ->
    wp tp_fails ('(_, b) ← Pop opts hash b1; SeekStack opts hash fuel b key) (fun b' => exists D', at_ready b' D' os A B n key)).
  { intros b1 top1 Hhne Hhle Hs. eapply wp_bind_mono; [exact (Pop_tree b1 D os A B top1 (p :: st) H _ _ _ HK0 Hs ltac:(rewrite Hn; exact Hfit))|].
    intros [ref b2] (D2 & N2 & ops & Hpo & _). destruct (pop_up _ _ _ _ _ _ _ _ _ _ _ _ _ _ _ _ Hs Hpo) as (p' & H' & pre' & y & suf & N1 & Hs2 & Hc2 & Hb2).
    apply (IH b2 D2 (ho_hi H)); auto.
    - exists (Datatypes.S h), p', st, H', pre', y, suf, N1. repeat (split; [assumption|]). split; [cbn in Hn; lia|exact Hb2].
    - rewrite (sd_stack _ _ _ _ _ _ _ _ _ _ _ Hs2). rewrite Hst in Hf. cbn in Hf |- *. lia. }
  destruct (cursor_next _ _ _ _ Hcur) as (_ & Hnx & Hnext). rewrite Hnx. destruct rest as [|[k1 c1] rest]; cbn [is_nil negb].
  - cbn [bound] in Hbd. apply (Hpop b top); [congruence|congruence|exact Hsd].
  - destruct (Hnext ltac:(discriminate)) as (c & HN & Hc). rewrite HN. cbn [mbind option_bind]. cbn [RightBound stack_ with_stack tl].
    destruct (context_bounds _ _ _ _ _ (sd_context _ _ _ _ _ _ _ _ _ _ _ Hsd)) as [_ Hrb]. unfold RightBound. cbn [tl stack_ with_stack]. rewrite Hrb. cbn [mbind option_bind].
    assert (Hk : i_key (ic_entry c) = k1).
    { rewrite <- app_snoc in Hc. replace (Datatypes.S (length pre)) with (length (pre ++ [x])) in Hc by (rewrite length_app; cbn; lia).
      apply cursor_pointer in Hc. unfold se_pointer in Hc. cbn in Hc. rewrite Hc. reflexivity. }
    rewrite Hk. cbn [bound] in Hbd. subst k1. pose proof (entry_contains_spec bd (ho_hi H) key Hne Hle) as Hec.
    pose proof (standing_at b D os A B top (p :: st) H _ _ _ c Hsd) as Hs1. destruct (entry_contains bd (ho_hi H) key).
    + cbn [wp]. exists D. apply (Hready _ c Hec); [discriminate|exact Hs1|exact (cursor_search _ _ _ Hc)].
    + destruct Hec. apply (Hpop _ (se_at top c)); assumption.
Qed.

(** ** Down to a leaf *)

(** The child of a page that holds a key. *)
Lemma later_child E {h} lo hi key (rest : list (bytes * tree h)) : later K E lo hi rest -> rest <> [] -> low lo (bound rest []) <=k key -> below_bound hi key ->
  exists mid k c suf, rest = mid ++ (k, c) :: suf /\ Forall (fun x => fst x <=k key) (mid ++ [(k, c)]) /\ Forall (fun x => key <k fst x) suf.
Proof using Type.
  intros [Hw _] Hne Hlo Hhi. destruct rest as [|[k0 c0] rest]; [congruence|]. cbn [bound] in Hlo.
  destruct (child_for within (low lo k0) hi key k0 c0 rest Hw (conj Hlo Hhi)) as (mid & k & c & suf & lo' & hi' & He & _ & _ & Hl & Hu & _).
  exists mid, k, c, suf. split; [exact He|]. split; [|exact Hu].
  assert (H0 : k0 <=k key) by (destruct k0; [apply key_nil_le|exact Hlo]).
  destruct mid as [|y mid]; injection He as <- _; (constructor; [exact H0|exact Hl]).
Qed.

(** Where [IndexSeek] goes. *)
Record seek_hole (b : Batch) (D : gset Z) (os : list Outside) (A B : list Leaf) (key : bytes) {h} (top : IndexStackEntry) (st : list IndexStackEntry) (H : Hole)
    (c : IndexCursor) (pre : list (bytes * tree h)) (k : bytes) (ch : tree h) (suf N : list (bytes * tree h)) : Prop := {
  sh_standing : standing b D os A B top st H pre ((k, ch) :: suf) N;
  sh_cursor : cursor_at (se_at top c) (pre ++ (k, ch) :: suf) (Some (length pre));
  sh_range : in_range (low (ho_lo H) k) (bound suf (ho_hi H)) key
}.

Lemma standing_skip b D os A B {h} top st H (pre mid suf N : list (bytes * tree h)) : standing b D os A B top st H pre (mid ++ suf) N ->
  standing b D os A B top st H (pre ++ mid) suf (N ++ mid).
Proof using Type.
  intros [H1 H2 H3 H4 H5 H6 (M & H7 & H8)]. destruct (level_skip _ _ _ _ _ _ _ _ _ _ H3 H4) as [H3' H4']. constructor; auto.
  - eapply tree_pages_perm; [|exact H6]. rewrite !below_app, <- !app_assoc. reflexivity.
  - exists (M ++ below leaves mid). rewrite below_app, app_assoc, H7, <- !app_assoc. split; [reflexivity|]. rewrite H8, below_app, <- app_assoc. reflexivity.
Qed.

Lemma ready_seek b D os A B n key {h} top st H (pre rest N : list (bytes * tree h)) : ready b D os A B n key top st H pre rest N ->
  exists c (pre' : list (bytes * tree h)) k ch suf N', IndexSeek (se_view top) (se_iter top) key = Some c /\ seek_hole b D os A B key top st H c pre' k ch suf N'.
Proof using Type.
  intros [Hsd (id & page & Hh & Hi) Hn Hne Hlo Hup]. pose proof (sd_level _ _ _ _ _ _ _ _ _ _ _ Hsd) as Hl.
  destruct (later_child _ _ _ _ _ (sd_later _ _ _ _ _ _ _ _ _ _ _ Hsd) Hne Hlo Hup) as (mid & k & ch & suf & -> & Hle & Hgt).
  pose proof (standing_skip _ _ _ _ _ _ _ _ _ _ _ _ Hsd) as Hsd2. pose proof (sd_level _ _ _ _ _ _ _ _ _ _ _ Hsd2) as Hl2.
  destruct (level_key _ _ _ _ _ _ _ _ _ _ _ Hl2) as [Hk _].
  assert (Hpre : Forall (fun x => fst x <=k key) (pre ++ mid ++ [(k, ch)])).
  { apply Forall_app_2; [|exact Hle]. destruct (level_sorted _ _ _ _ _ _ _ _ _ Hl) as [Hs _]. rewrite map_app in Hs. apply StronglySorted_app in Hs as (Hs & _ & _).
    apply List.Forall_forall. intros x Hx. destruct (mid ++ (k, ch) :: suf) as [|y r] eqn:Er; [congruence|]. apply key_lt_le.
    eapply key_lt_le_trans; [apply (Hs (fst x) (fst y)); [apply list_elem_of_In, in_map, Hx|left]|].
    assert (Hy : In y (mid ++ [(k, ch)])) by (destruct mid; injection Er as <- _; left; reflexivity). rewrite List.Forall_forall in Hle. exact (Hle y Hy). }
  assert (Hcs : exists x a, pre ++ mid ++ [(k, ch)] = x :: a) by (destruct pre as [|x pre]; [destruct mid as [|x mid]|]; eauto).
  destruct Hcs as (x & a & Ha). assert (Hall : pre ++ mid ++ (k, ch) :: suf = x :: a ++ suf).
  { change (x :: a ++ suf) with ((x :: a) ++ suf). rewrite <- Ha, <- !app_assoc. reflexivity. }
  rewrite Hall in Hi. cbn [map] in Hi. rewrite map_app in Hi. rewrite Ha in Hpre. apply Forall_cons_1 in Hpre as [_ Hpre].
  destruct (index_at_seek page _ _ _ _ _ key _ Hi) as (c & HS & Hi').
  { apply List.Forall_map. exact Hpre. }
  { apply List.Forall_map. exact Hgt. }
  exists c, (pre ++ mid), k, ch, suf, (N ++ mid). split; [exact HS|]. constructor; [exact Hsd2| |].
  - exists id, page. split; [exact Hh|]. cbn [se_view se_iter se_at]. rewrite <- app_assoc, Hall. cbn [map]. rewrite map_app.
    replace (length (pre ++ mid)) with (length (map pointer_to a)); [exact Hi'|]. rewrite length_map. apply (f_equal length) in Ha. rewrite !length_app in Ha. rewrite length_app. cbn [length] in Ha. lia.
  - split.
    + destruct k as [|z k]; [|apply Forall_app in Hle as [_ Hle]; apply Forall_cons_1 in Hle as [Hle _]; exact Hle]. cbn [low].
      destruct (pre ++ mid) as [|y r] eqn:Epm; [apply app_eq_nil in Epm as [-> ->]; exact Hlo|]. destruct Hk as [Hk _]. destruct (key_lt_nonempty _ _ Hk eq_refl).
    + destruct suf as [|[k2 c2] suf]; [exact Hup|]. apply Forall_cons_1 in Hgt as [Hgt _]. right. exact Hgt.
Qed.

(** The stack stands at the leaf [y], which holds the key. *)
Record at_hole (b : Batch) (D : gset Z) (os : list Outside) (A B : list Leaf) (n : nat) (key : bytes) (y : Leaf) (H : Hole) : Prop := {
  ah_context : context (eff b) (stack_ b) 0 H;
  ah_length : length (stack_ b) = n;
  ah_own : ho_own H = lf_id y;
  ah_within : within (h := O) (ho_lo H) (ho_hi H) y;
  ah_range : in_range (ho_lo H) (ho_hi H) key;
  ah_pages : tree_pages b D os A B (ho_ids H);
  ah_leaves : exists M, ho_left H = A ++ M /\ B = M ++ y :: ho_right H
}.

Lemma hole_room b D os A B n key y H m : at_hole b D os A B n key y H -> (Z.of_nat n + 1) * (zlen (A ++ B) + 1) + m <= tp_capacity -> room opts D m.
Proof using Type.
  intros [H1 H2 _ _ _ H6 (M & H7 & H8)] Hm. pose proof (context_count _ _ _ _ _ H1) as Hc. rewrite H2, Nat.add_0_r in Hc.
  assert (HL : zlen (A ++ B) = zlen (ho_left H) + 1 + zlen (ho_right H)) by (rewrite H8, app_assoc, <- H7, zlen_app, zlen_cons; lia).
  unfold room. pose proof (size_list ∅ D (ho_ids H ++ map lf_id (A ++ B))) as Hs. rewrite size_empty in Hs.
  specialize (Hs ltac:(intros q Hq; right; rewrite in_app_iff; apply (tg_held _ _ _ _ _ _ H6), Hq)). rewrite zlen_app in Hs.
  assert (Hl : zlen (map lf_id (A ++ B)) = zlen (A ++ B)) by (unfold zlen; rewrite length_map; reflexivity). rewrite Hl, HL in *. nia.
Qed.

(** Leaves have entries. *)
Lemma leaves_count b D os A B ids : tree_pages b D os A B ids -> zlen (A ++ B) <= zlen (leaf_entries (A ++ B)).
Proof using Type.
  intros [[_ Hc _ _ _ _] _ _ _]. assert (Hne : Forall (fun l => lf_entries l <> []) (A ++ B)).
  { apply List.Forall_forall. intros l Hl. destruct (seg_leaves _ _ _ _ _ l (ch_seg _ _ _ _ Hc) Hl) as (? & ? & (p & _ & Hp & _)).
    exact (data_page_nonempty _ _ Hp). }
  clear -Hne. induction (A ++ B) as [|l ls IH]; [reflexivity|]. apply Forall_cons_1 in Hne as [Hl Hne]. specialize (IH Hne).
  unfold leaf_entries in *. cbn [map concat]. rewrite zlen_app, zlen_cons. destruct (lf_entries l); [congruence|]. rewrite zlen_cons.
  pose proof (zlen_nonneg l0). lia.
Qed.

Lemma level_entry E {h} e e' id lo hi (pre rest N : list (bytes * tree h)) : se_handle e' = se_handle e -> se_view e' = se_view e -> se_changes e' = se_changes e ->
  level E e id lo hi pre rest N -> level E e' id lo hi pre rest N.
Proof using Type. intros H1 H2 H3 [L1 L2 L3 L4 L5 L6 L7]. constructor; rewrite ?H1, ?H2, ?H3; auto. Qed.

Lemma tree_pages_stack b D os A B ids st : tree_pages b D os A B ids -> tree_pages (with_stack b st) D os A B ids.
Proof using Type. intros [[I1 I2 I3 I4 I5 I6] G2 G3 G4]. constructor; auto. constructor; auto. apply task_inv_stack, I1. Qed.

(** The hole below the pointer that [IndexSeek] found. *)
Definition hole_of {h} (H : Hole) (k : bytes) (ch : tree h) (suf N : list (bytes * tree h)) : Hole :=
  mkHole (low (ho_lo H) k) (bound suf (ho_hi H)) k (tree_id ch) (ho_left H ++ below leaves N) (below leaves suf ++ ho_right H)
    (ho_own H :: below index_ids N ++ below index_ids suf ++ ho_ids H).

Lemma seek_hole_context b D os A B key {h} top top' st H c (pre : list (bytes * tree h)) k ch suf N : seek_hole b D os A B key top st H c pre k ch suf N ->
  se_handle top' = se_handle top -> se_view top' = se_view top -> se_changes top' = se_changes top -> se_iter top' = c -> is_leaf_index_ top' = bool_decide (h = O) ->
  context (eff b) (top' :: st) h (hole_of H k ch suf N) /\ within (low (ho_lo H) k) (bound suf (ho_hi H)) ch /\ irep K (eff b) ch.
Proof using Type.
  intros [Hsd Hcur Hr] T1 T2 T3 T4 T5. pose proof (sd_level _ _ _ _ _ _ _ _ _ _ _ Hsd) as Hl. destruct (level_key _ _ _ _ _ _ _ _ _ _ _ Hl) as [_ Hk].
  destruct (later_split _ _ _ _ _ _ _ (sd_later _ _ _ _ _ _ _ _ _ _ _ Hsd)) as (Hw & Hi & Hlat).
  { eapply Forall_impl; [|exact Hk]. intros x [Hx _]. exact Hx. }
  split; [|auto]. exists H, pre, k, ch, suf, N. split; [exact (sd_context _ _ _ _ _ _ _ _ _ _ _ Hsd)|]. split; [exact (level_entry _ _ _ _ _ _ _ _ _ T1 T2 T3 Hl)|].
  split; [exact Hlat|]. split; [|auto]. destruct Hcur as (id & page & Hh & Hc). exists id, page. rewrite T1, T2, T4. auto.
Qed.

Lemma seek_hole_leaf b D os A B n key top st H c (pre : list (bytes * tree O)) k (y : Leaf) suf N :
  seek_hole (h := O) b D os A B key top st H c pre k y suf N -> (length st + 1)%nat = n ->
  at_hole (with_stack b (mark_leaf (se_at top c) :: st)) D os A B n key y (hole_of (h := O) H k y suf N).
Proof using Type.
  intros Hsh Hn. destruct (seek_hole_context _ _ _ _ _ _ _ (mark_leaf (se_at top c)) _ _ _ _ _ _ _ _ Hsh) as (Hc & Hw & _); try reflexivity.
  destruct Hsh as [Hsd Hcur Hr]. destruct (sd_leaves _ _ _ _ _ _ _ _ _ _ _ Hsd) as (M & H7 & H8).
  constructor; auto.
  - cbn [stack_ with_stack length]. lia.
  - cbn [hole_of ho_ids]. apply tree_pages_stack. exact (sd_pages _ _ _ _ _ _ _ _ _ _ _ Hsd).
  - exists M. split; [exact H7|exact H8].
Qed.

Lemma children_within_impl {X} (P Q : bytes -> bytes -> X -> Prop) lo hi cs : (forall lo hi c, P lo hi c -> Q lo hi c) ->
  children_within P lo hi cs -> children_within Q lo hi cs.
Proof using Type.
  intros HPQ. revert lo. induction cs as [|[k0 c0] [|[k1 c1] cs] IH]; intros lo; [auto|apply HPQ|]. intros (H1 & H2 & H3 & H4).
  split; [exact H1|]. split; [exact H2|]. split; [apply HPQ, H3|exact (IH _ H4)].
Qed.

(** A page that was just loaded. *)
Lemma level_fresh E {h} (t : tree (Datatypes.S h)) lo hi page e : irep K E t -> within lo hi t -> E (tree_id t) = Some page ->
  new_stack_entry (Some (tree_id t, page)) = Some e ->
  level E e (tree_id t) lo hi [] (children t) [] /\ later K E lo hi (children t) /\ cursor_at e (children t) None /\ children t <> [].
Proof using Type.
  intros Hi Hw HE He. rewrite irep_node in Hi. destruct Hi as (p & c0 & cs & Hcs & Hp & Hpg & Hsh & Hi). assert (p = page) as -> by congruence.
  unfold new_stack_entry in He. destruct (page_view page) as [v|] eqn:Hv; [|discriminate He]. injection He as <-.
  change (children_within within lo hi (children t)) in Hw. rewrite Hcs in *. split; [|split; [|split; [|discriminate]]].
  - constructor; cbn [se_handle se_view se_changes app].
    + exists page. split; [reflexivity|]. split; [split; [reflexivity|exact Hpg]|]. split; [exact Hv|]. exists page. split; [exact HE|reflexivity].
    + constructor.
    + apply List.Forall_forall. intros x _. constructor.
    + eapply children_within_impl; [|exact Hw]. auto.
    + exact I.
    + rewrite app_nil_r. exact Hsh.
    + constructor.
  - split; [exact Hw|exact Hi].
  - exists (tree_id t), page. split; [reflexivity|]. cbn [se_view se_iter map]. apply (index_at_fresh page _ (pointer_to ([], c0)) _ v Hpg eq_refl Hv).
Qed.

Lemma ids_down (a t : Z) n cs s i : a :: n ++ ((t :: cs) ++ s) ++ i ≡ₚ t :: [] ++ cs ++ a :: n ++ s ++ i.
Proof using Type.
  change ((a :: n) ++ ((t :: cs) ++ s) ++ i ≡ₚ (t :: cs) ++ (a :: n) ++ s ++ i). rewrite !app_assoc. do 2 apply Permutation_app_tail.
  apply Permutation_app_comm.
Qed.

Lemma seek_hole_down b D os A B n key {h} top st H c (pre : list (bytes * tree (Datatypes.S h))) k ch suf N page e :
  seek_hole b D os A B key top st H c pre k ch suf N -> (length st + Datatypes.S (Datatypes.S h))%nat = n -> is_leaf_index_ top = false ->
  eff b (tree_id ch) = Some page -> new_stack_entry (Some (tree_id ch, page)) = Some e ->
  ready (with_stack b (e :: se_at top c :: st)) D os A B n key e (se_at top c :: st) (hole_of H k ch suf N) [] (children ch) [].
Proof using Type.
  intros Hsh Hn Hlf Hp He. destruct (seek_hole_context _ _ _ _ _ _ _ (se_at top c) _ _ _ _ _ _ _ _ Hsh) as (Hc & Hw & Hi); try reflexivity; [exact Hlf|].
  destruct Hsh as [Hsd Hcur [Hr1 Hr2]]. destruct (sd_leaves _ _ _ _ _ _ _ _ _ _ _ Hsd) as (M & H7 & H8).
  destruct (level_fresh (eff b) ch _ _ page e Hi Hw Hp He) as (Hl & Hlat & Hcf & Hne).
  assert (Hfirst : exists c0 cs, children ch = ([], c0) :: cs) by (rewrite irep_node in Hi; destruct Hi as (_ & c0 & cs & Hcs & _); eauto).
  constructor; auto.
  - constructor; auto.
    + right. unfold new_stack_entry in He. destruct (page_view page); [|discriminate He]. injection He as <-. auto.
    + apply tree_pages_stack. eapply tree_pages_perm; [|exact (sd_pages _ _ _ _ _ _ _ _ _ _ _ Hsd)]. rewrite below_cons, index_ids_node. apply ids_down.
    + exists M. cbn [hole_of ho_left ho_right below map concat]. rewrite app_nil_r. split; [exact H7|]. rewrite H8, below_cons, leaves_node, <- app_assoc. reflexivity.
  - cbn [length]. lia.
  - destruct Hfirst as (c0 & cs & ->). exact Hr1.
Qed.

(** The id of the child and the kind of the page. *)
Lemma seek_hole_page b D os A B key {h} top st H c (pre : list (bytes * tree h)) k ch suf N : seek_hole b D os A B key top st H c pre k ch suf N ->
  ic_entry c = mkIndexEntry k (tree_id ch) /\ 0 <= tree_id ch < 2 ^ 31 /\
  exists id page, se_handle top = Some (id, page) /\ IsPointingToLeaf page = Some (bool_decide (h = O)).
Proof using Type.
  intros [Hsd Hcur _]. split; [exact (cursor_pointer _ _ _ _ _ Hcur)|]. destruct (sd_leaves _ _ _ _ _ _ _ _ _ _ _ Hsd) as (M & H7 & H8). split.
  - pose proof (child_in_range _ _ _ _ _ _ ((k, ch) :: suf) (sd_pages _ _ _ _ _ _ _ _ _ _ _ Hsd)) as Hr. cbn [map] in Hr.
    assert (HF : Forall (fun e => 0 <= i_page_id e < 2 ^ 31) (pointer_to (k, ch) :: map pointer_to suf)); [|apply Forall_cons_1 in HF as [HF _]; exact HF].
    apply Hr; [intros q Hq; right; rewrite !in_app_iff; auto|]. intros l Hl. rewrite H8, !in_app_iff. auto.
  - destruct (le_page _ _ _ _ _ _ _ _ _ (sd_level _ _ _ _ _ _ _ _ _ _ _ Hsd)) as (page & Hh & Hn & _). exists (ho_own H), page. split; [exact Hh|].
    destruct (pre ++ (k, ch) :: suf) as [|[k0 c0] cs]; [destruct Hn|]. destruct Hn as [_ Hp]. apply IsPointingToLeaf_type, Hp.
Qed.

Lemma SeekLeaf_spec D os A B n key : forall h fuel b top st H (pre rest N : list (bytes * tree h)), ready b D os A B n key top st H pre rest N ->
  (Datatypes.S h <= fuel)%nat ->
  wp tp_fails (SeekLeaf fuel b key) (fun '(id, b') => exists y H', at_hole b' D os A B n key y H' /\ id = lf_id y).
Proof using Type.
  induction h as [|h IH]; intros fuel b top st H pre rest N Hrd Hf; (destruct fuel as [|fuel]; [lia|]);
    pose proof (sd_stack _ _ _ _ _ _ _ _ _ _ _ (rd_standing _ _ _ _ _ _ _ _ _ _ _ _ _ Hrd)) as Hst;
    destruct (ready_seek _ _ _ _ _ _ _ _ _ _ _ _ _ Hrd) as (c & pre' & k & ch & suf & N' & HS & Hsh);
    destruct (seek_hole_page _ _ _ _ _ _ _ _ _ _ _ _ _ _ _ Hsh) as (Hent & Hrange & id & page & Hh & Hlf);
    cbn [SeekLeaf]; rewrite Hst, Hh, HS; cbn [mbind option_bind]; rewrite Hent; cbn [i_page_id];
    rewrite (proj2 (Z.eqb_neq _ _)) by (unfold MaxPageId; lia); rewrite Hlf; cbn [mbind option_bind].
  - cbn [bool_decide decide decide_rel]. cbn. exists ch, (hole_of (h := O) H k ch suf N'). split; [|reflexivity].
    apply (seek_hole_leaf b D os A B n key top st H c pre' k ch suf N' Hsh). exact (rd_height _ _ _ _ _ _ _ _ _ _ _ _ _ Hrd).
  - rewrite (bool_decide_eq_false_2 (Datatypes.S h = O)) by discriminate.
    assert (Hflag : is_leaf_index_ top = false).
    { destruct (sd_leaf _ _ _ _ _ _ _ _ _ _ _ (sh_standing _ _ _ _ _ _ _ _ _ _ _ _ _ _ _ Hsh)) as [Hl|[Hl _]]; [|exact Hl].
      rewrite Hl. apply bool_decide_eq_false_2. discriminate. }
    change (is_leaf_index_ (se_at top c)) with (is_leaf_index_ top). rewrite Hflag.
    destruct (seek_hole_context _ _ _ _ _ _ _ (se_at top c) _ _ _ _ _ _ _ _ Hsh) as (_ & _ & Hi); try reflexivity; [exact Hflag|].
    rewrite irep_node in Hi. destruct Hi as (child & c0 & cs & _ & Hp & Hpg & _).
    assert (Hin : In (tree_id ch) (ho_own H :: below index_ids N' ++ below index_ids ((k, ch) :: suf) ++ ho_ids H)).
    { right. rewrite below_cons, index_ids_node, !in_app_iff. right. left. left. left. reflexivity. }
    pose proof (sd_pages _ _ _ _ _ _ _ _ _ _ _ (sh_standing _ _ _ _ _ _ _ _ _ _ _ _ _ _ _ Hsh)) as Hpages.
    destruct (index_held _ _ _ _ _ _ _ Hpages Hin) as (HD & _ & _).
    eapply wp_bind_mono; [exact (load_ok _ _ _ _ _ (ti_store _ _ _ _ (bl_inv _ _ _ _ _ _ (tg_between _ _ _ _ _ _ Hpages))) HD (index_stored _ _ _ _ _ _ _ _ Hpages Hin Hp))|].
    intros ? ->. destruct (index_page_view _ _ _ _ Hpg) as (v & Hv & _).
    assert (He : new_stack_entry (Some (tree_id ch, child)) = Some (mkStackEntry (Some (tree_id ch, child)) v fresh_index_cursor [] false))
      by (unfold new_stack_entry; rewrite Hv; reflexivity).
    rewrite He. cbn [mbind option_bind]. eapply IH; [|lia]. eapply seek_hole_down; [exact Hsh|exact (rd_height _ _ _ _ _ _ _ _ _ _ _ _ _ Hrd)|exact Hflag|exact Hp|exact He].
Qed.
End stack.
