(* ===== verification/RoundSpec.v ===== *)
(** * The rounds of a batch

    Each round of [ApplyBatch] merges the part of the batch that falls into one
    leaf; the leaves in between stay as they are.  This file shows that the rounds
    together merge the whole batch into the entries of the tree. *)

From stdpp Require Import gmap sorting.
From S2P Require Import Prelude Coding Comparator PageFormat DataPage Regions DataPageIter RegionCopy IndexPage IndexPageIter.
From S2P Require Import PageIo ApplyPage ApplySpec Tree BatchTask IndexStack ApplyBatch TaskSpec LeafSpec MergeSim LeafMerge RebuildSpec TreeZip StackSpec.

(** ** Merging in parts *)

(** The recursion of [merge_items] and [merge_ttl]. *)
Fixpoint merge_with {X} (kept : Entry -> list X) (both : Entry -> WriteDataEntry -> list X) (added : WriteDataEntry -> list X) (base : list Entry)
    : list WriteDataEntry -> list X :=
  fix go (changes : list WriteDataEntry) : list X :=
  match base with
  | [] => concat (map added changes)
  | e :: base' =>
      match changes with
      | [] => concat (map kept base)
      | w :: changes' =>
          let cmp_ret := Compare (key_ e) (w_key w) in
          if cmp_ret <? 0 then kept e ++ merge_with kept both added base' changes
          else if cmp_ret =? 0 then both e w ++ merge_with kept both added base' changes'
          else added w ++ go changes'
      end
  end.

Lemma merge_items_with now base changes : merge_items now base changes =
  merge_with (kept_item now) (fun e w => if timestamp_ e <=? w_ts w then new_item now w else kept_item now e) (new_item now) base changes.
Proof.
  revert changes. induction base as [|e base IHb]; intros changes; [destruct changes; reflexivity|].
  induction changes as [|w changes IHc]; [reflexivity|]. cbn [merge_items merge_with]. rewrite !IHb.
  do 2 (destruct (_ : bool); [reflexivity|]). f_equal. exact IHc.
Qed.

Lemma merge_ttl_with now base changes : merge_ttl now base changes =
  merge_with (kept_ttl now) (fun e w => if timestamp_ e <=? w_ts w then replace_ttl now e w else kept_ttl now e) (insert_ttl now) base changes.
Proof.
  revert changes. induction base as [|e base IHb]; intros changes; [destruct changes; reflexivity|].
  induction changes as [|w changes IHc]; [reflexivity|]. cbn [merge_ttl merge_with]. rewrite !IHb.
  do 2 (destruct (_ : bool); [reflexivity|]). f_equal. exact IHc.
Qed.

(** Everything in the first part is below everything in the second. *)
Definition part_below (e1 : list Entry) (c1 : list WriteDataEntry) (e2 : list Entry) (c2 : list WriteDataEntry) : Prop :=
  forall x y, In x (map key_ e1 ++ map w_key c1) -> In y (map key_ e2 ++ map w_key c2) -> x <k y.

Section parts.
  Context {X : Type} (kept : Entry -> list X) (both : Entry -> WriteDataEntry -> list X) (added : WriteDataEntry -> list X).

  Local Abbreviation merge := (merge_with kept both added).

Lemma merge_lt e base w changes : key_ e <k w_key w -> merge (e :: base) (w :: changes) = kept e ++ merge base (w :: changes).
Proof. intros H. cbn [merge_with]. rewrite (proj2 (Z.ltb_lt _ _) H). reflexivity. Qed.

Lemma merge_gt e base w changes : w_key w <k key_ e -> merge (e :: base) (w :: changes) = added w ++ merge (e :: base) changes.
Proof.
  intros H. cbn [merge_with]. pose proof (Compare_opp (key_ e) (w_key w)) as Hopp. unfold key_lt in H.
  rewrite (proj2 (Z.ltb_ge _ _)) by lia. rewrite (proj2 (Z.eqb_neq _ _)) by lia. reflexivity.
Qed.

Lemma merge_eq e base w changes : key_ e = w_key w -> merge (e :: base) (w :: changes) = both e w ++ merge base changes.
Proof. intros H. cbn [merge_with]. rewrite H, Compare_refl. reflexivity. Qed.

Lemma merge_no_base changes : merge [] changes = concat (map added changes).
Proof. destruct changes; reflexivity. Qed.

Lemma merge_no_changes base : merge base [] = concat (map kept base).
Proof. destruct base; reflexivity. Qed.

Lemma part_below_tail_e e e1 c1 e2 c2 : part_below (e :: e1) c1 e2 c2 -> part_below e1 c1 e2 c2.
Proof. intros H x y Hx Hy. apply H; [|exact Hy]. right. exact Hx. Qed.

Lemma part_below_tail_c w e1 c1 e2 c2 : part_below e1 (w :: c1) e2 c2 -> part_below e1 c1 e2 c2.
Proof. intros H x y Hx Hy. apply H; [|exact Hy]. rewrite in_app_iff in *. cbn [map In]. tauto. Qed.

Lemma merge_parts e1 : forall c1 e2 c2, part_below e1 c1 e2 c2 -> merge (e1 ++ e2) (c1 ++ c2) = merge e1 c1 ++ merge e2 c2.
Proof.
  induction e1 as [|e e1 IHe].
  - induction c1 as [|w c1 IHc]; intros e2 c2 H; [reflexivity|]. specialize (IHc e2 c2 (part_below_tail_c _ _ _ _ _ H)).
    cbn [app] in IHc |- *. rewrite merge_no_base in IHc |- *. cbn [map concat]. rewrite <- app_assoc, <- IHc. destruct e2 as [|e e2].
    + rewrite !merge_no_base. reflexivity.
    + apply merge_gt. apply H; left; reflexivity.
  - induction c1 as [|w c1 IHc]; intros e2 c2 H.
    + specialize (IHe [] e2 c2 (part_below_tail_e _ _ _ _ _ H)). cbn [app] in IHe |- *. rewrite merge_no_changes in IHe |- *. cbn [map concat].
      rewrite <- app_assoc, <- IHe. destruct c2 as [|w c2]; [rewrite !merge_no_changes; reflexivity|]. apply merge_lt.
      apply H; [left; reflexivity|]. apply in_or_app. right. left. reflexivity.
    + pose proof (part_below_tail_e _ _ _ _ _ H) as He. pose proof (part_below_tail_c _ _ _ _ _ H) as Hc. cbn [app].
      destruct (Ztrichotomy (Compare (key_ e) (w_key w)) 0) as [Hlt|[Heq|Hgt]].
      * rewrite !merge_lt by exact Hlt. rewrite <- app_assoc, <- (IHe (w :: c1) e2 c2 He). reflexivity.
      * apply Compare_eq in Heq. rewrite !merge_eq by exact Heq. rewrite <- app_assoc, <- (IHe c1 e2 c2 (part_below_tail_e _ _ _ _ _ Hc)). reflexivity.
      * assert (Hg : w_key w <k key_ e) by (pose proof (Compare_opp (key_ e) (w_key w)); unfold key_lt; lia).
        rewrite !merge_gt by exact Hg. rewrite <- app_assoc, <- (IHc e2 c2 Hc). reflexivity.
Qed.
End parts.

Lemma merge_items_parts now e1 c1 e2 c2 : part_below e1 c1 e2 c2 -> merge_items now (e1 ++ e2) (c1 ++ c2) = merge_items now e1 c1 ++ merge_items now e2 c2.
Proof. rewrite !merge_items_with. apply merge_parts. Qed.

Lemma merge_ttl_parts now e1 c1 e2 c2 : part_below e1 c1 e2 c2 -> merge_ttl now (e1 ++ e2) (c1 ++ c2) = merge_ttl now e1 c1 ++ merge_ttl now e2 c2.
Proof. rewrite !merge_ttl_with. apply merge_parts. Qed.

Lemma part_below_sub e1 c1 e2 c2 e1' c1' e2' c2' : part_below e1 c1 e2 c2 -> (forall x, In x (map key_ e1' ++ map w_key c1') -> In x (map key_ e1 ++ map w_key c1)) ->
  (forall x, In x (map key_ e2' ++ map w_key c2') -> In x (map key_ e2 ++ map w_key c2)) -> part_below e1' c1' e2' c2'.
Proof. intros H H1 H2 x y Hx Hy. exact (H x y (H1 x Hx) (H2 y Hy)). Qed.

Lemma part_below_join e1 c1 e2 c2 e3 c3 : part_below e1 c1 e3 c3 -> part_below e2 c2 e3 c3 -> part_below (e1 ++ e2) (c1 ++ c2) e3 c3.
Proof. intros H1 H2 x y Hx Hy. rewrite !map_app, !in_app_iff in Hx. destruct Hx as [[Hx|Hx]|[Hx|Hx]]; [apply H1|apply H2|apply H1|apply H2]; auto using in_or_app. Qed.

Lemma part_below_at k e1 c1 e2 c2 : Forall (fun e => key_ e <k k) e1 -> Forall (fun w => w_key w <k k) c1 ->
  Forall (fun e => k <=k key_ e) e2 -> Forall (fun w => k <=k w_key w) c2 -> part_below e1 c1 e2 c2.
Proof.
  rewrite !List.Forall_forall. intros H1 H2 H3 H4 x y Hx Hy. rewrite in_app_iff, !in_map_iff in Hx, Hy. apply (key_lt_le_trans _ k).
  - destruct Hx as [(z & <- & Hz)|(z & <- & Hz)]; auto.
  - destruct Hy as [(z & <- & Hz)|(z & <- & Hz)]; auto.
Qed.

(** The items that are not expired. *)
Definition live_item (now : Z) (i : Item) : bool := match i with Kept e => negb (Expired now (expire_ts_ e)) | New _ => true end.

Lemma live_kept now l : List.filter (live_item now) (map Kept l) = merge_items now l [].
Proof.
  rewrite merge_items_with, merge_no_changes. induction l as [|e l IH]; [reflexivity|]. cbn [map List.filter concat live_item]. rewrite IH.
  assert (Hk : kept_item now e = if Expired now (expire_ts_ e) then [] else [Kept e]) by reflexivity. rewrite Hk.
  destruct (Expired now (expire_ts_ e)); reflexivity.
Qed.

Lemma filter_concat_map {X Y} (p : Y -> bool) (f : X -> list Y) l : (forall x, List.filter p (f x) = f x) -> List.filter p (concat (map f l)) = concat (map f l).
Proof. intros Hf. induction l as [|x l IH]; [reflexivity|]. cbn. rewrite List.filter_app, Hf, IH. reflexivity. Qed.

Lemma live_kept_item now e : List.filter (live_item now) (kept_item now e) = kept_item now e.
Proof. unfold kept_item. destruct (Expired now (expire_ts_ e)) eqn:E; [reflexivity|]. cbn. rewrite E. reflexivity. Qed.

Lemma live_new_item now w : List.filter (live_item now) (new_item now w) = new_item now w.
Proof. unfold new_item. destruct (w_op w); [destruct (Expired now (w_expire w))|]; reflexivity. Qed.

Lemma live_merge now base : forall changes, List.filter (live_item now) (merge_items now base changes) = merge_items now base changes.
Proof.
  induction base as [|e base IHb]; intros changes; [destruct changes; apply filter_concat_map, live_new_item|].
  induction changes as [|w changes IHc]; [apply filter_concat_map, live_kept_item|]. cbn [merge_items].
  destruct (Compare (key_ e) (w_key w) <? 0); [rewrite List.filter_app, live_kept_item, IHb; reflexivity|].
  destruct (Compare (key_ e) (w_key w) =? 0); rewrite List.filter_app.
  - rewrite IHb. destruct (timestamp_ e <=? w_ts w); rewrite ?live_new_item, ?live_kept_item; reflexivity.
  - rewrite live_new_item. f_equal. exact IHc.
Qed.

(** ** The entries around a hole *)
Lemma context_order K E st : forall h H, context K E st h H ->
  Forall (fun e => key_ e <k ho_lo H) (leaf_entries (ho_left H)) /\ Forall (fun e => ho_hi H <> [] /\ ho_hi H <=k key_ e) (leaf_entries (ho_right H)).
Proof.
  induction st as [|e st IH]; intros h H Hc; [destruct Hc as [own ->]; split; constructor|].
  destruct Hc as (H' & pre & k & c & suf & N & Hc & Hl & [Hlat _] & _ & _ & ->). destruct (IH _ _ Hc) as [Hlo Hhi].
  destruct (level_key _ _ _ _ _ _ _ _ _ _ _ Hl) as [Hk Hs]. cbn [ho_lo ho_hi ho_left ho_right]. rewrite !leaf_entries_app, !entries_below. split.
  - assert (Hlow : ho_lo H' <=k low (ho_lo H') k).
    { destruct k; [apply key_le_refl|]. destruct pre; [discriminate Hk|]. apply key_lt_le, Hk. }
    apply Forall_app_2; [eapply Forall_impl; [|exact Hlo]; intros x Hx; exact (key_lt_le_trans _ _ _ Hx Hlow)|]. destruct pre as [|p pre].
    { destruct (merged_nil_pre _ _ _ _ _ _ _ _ Hl) as [_ ->]. constructor. }
    destruct Hk as [Hk _]. pose proof (key_lt_nonempty _ _ Hk) as Hne. rewrite (low_bound _ k Hne).
    eapply Forall_impl; [|exact (children_entries within entries _ _ _ within_range (le_span _ _ _ _ _ _ _ _ _ Hl))]. intros x [_ [Hx|Hx]]; [contradiction|exact Hx].
  - destruct suf as [|[k2 c2] suf]; [exact Hhi|]. cbn [bound]. apply Forall_cons_1 in Hs as [(Hk2 & _ & Hb2) _]. pose proof (key_lt_nonempty _ _ Hk2) as Hne.
    rewrite (low_bound _ k2 Hne) in Hlat. apply Forall_app_2.
    + eapply Forall_impl; [|exact (children_entries within entries _ _ _ within_range Hlat)]. intros x [Hx _]. auto.
    + eapply Forall_impl; [|exact Hhi]. intros x [Hx1 Hx2]. split; [exact Hne|]. destruct Hb2 as [Hb2|Hb2]; [congruence|]. apply key_lt_le.
      eapply key_lt_le_trans; eassumption.
Qed.

Lemma last_from_in {X} (l : list X) x : last_from None l = Some x -> In x l.
Proof. destruct l as [|y l _] using rev_ind; [discriminate|]. rewrite last_from_snoc. intros [= ->]. apply in_or_app. right. left. reflexivity. Qed.

(** ** One round *)
Section rounds.
  Context {S : Type} {TP : TaskPages S} (opts : KvOptions) (hash : bytes -> Z) {TL : TaskPagesLaws S opts}.
  Context (Hopts : valid_options opts) (Hiopts : valid_index_options opts) (K : Z) (HK0 : 0 <= K).
  Context (HK : index_keys_fit opts K) (HR : forall leaf, redistributes opts leaf K).

  Local Abbreviation Batch := (Batch (S := S)).
  Local Abbreviation eff := (eff opts).
  Local Abbreviation tree_pages := (tree_pages opts).
  Local Abbreviation at_hole := (at_hole opts K).
  Local Abbreviation at_done := (at_done opts K).
  Local Abbreviation at_ready := (at_ready opts K).

Lemma hole_top b D os A B n key y H : at_hole b D os A B n key y H -> (1 <= n)%nat ->
  exists top st, stack_ b = top :: st /\ se_pointer top = mkIndexEntry (ho_key H) (lf_id y) /\ ho_key H <=k ho_lo H /\ zlen (ho_key H) <= K /\
    (forall o, last_from None (se_changes top) = Some o -> op_key o <k ho_key H).
Proof using HK0.
  intros [H1 H2 H3 _ _ _ _] Hn. destruct (context_key _ _ _ _ _ H1) as (_ & Hle & Hs). destruct (stack_ b) as [|top st]; [cbn in H2; lia|].
  exists top, st. split; [reflexivity|]. destruct H1 as (H' & pre & k & c & suf & N & _ & Hl & _ & Hcur & _ & ->). cbn [ho_key ho_own ho_lo] in *.
  rewrite (cursor_pointer _ _ _ _ _ Hcur), H3. split; [reflexivity|]. split; [exact Hle|]. split; [exact (Hs HK0)|]. intros o Ho.
  pose proof (le_before _ _ _ _ _ _ _ _ _ Hl) as Hb. apply Forall_cons_1 in Hb as [Hb _]. apply Forall_app in Hb as [_ Hb].
  rewrite List.Forall_map, List.Forall_forall in Hb. apply Hb. exact (last_from_in _ _ Ho).
Qed.

Lemma load_hole b D os A B n key y H : at_hole b D os A B n key y H ->
  wp tp_fails (LoadApplyingPage hash b (lf_id y)) (fun b1 => at_leaf opts b1 D os (ho_left H) y (ho_right H) /\ stack_ b1 = stack_ b /\
    forall q, q ∈ D -> q <> lf_id y -> same_page (eff b) (eff b1) q).
Proof using Hopts.
  intros [_ _ _ _ _ H6 (M & H7 & H8)]. pose proof (tg_between _ _ _ _ _ _ _ H6) as Hb. rewrite H8 in Hb.
  eapply wp_mono; [exact (LoadApplyingPage_spec opts hash Hopts b D os A M y (ho_right H) Hb)|]. intros b1 (Hal & Hs & _ & Hst).
  rewrite H7. split; [exact Hal|]. split; [exact Hst|]. intros q Hq Hne. specialize (Hs q Hq). destruct (al_applying _ _ _ _ _ _ _ Hal) as (old & Ha).
  rewrite Ha in Hs. unfold same_page in *. rewrite over_other in Hs; [exact Hs|]. cbn. intros [He|[]]. congruence.
Qed.

Lemma map_snd_leaves (ns : list (bytes * tree O)) : below leaves ns = map snd ns.
Proof using Type. induction ns as [|[k l] ns IH]; [reflexivity|]. rewrite below_cons, IH. reflexivity. Qed.

Lemma below_leaf_ids (ns : list (bytes * tree O)) : below index_ids ns = [].
Proof using Type. induction ns as [|[k l] ns IH]; [reflexivity|]. rewrite below_cons, IH. reflexivity. Qed.

(** The changes for a leaf turn its pointer into those to the new leaves. *)
Lemma leaf_fills (y : Leaf) k lo hi ns : children_within leaf_within lo hi ns -> k <=k lo ->
  match ns with c :: _ => fst c = k /\ lf_id (snd c) = lf_id y | [] => True end ->
  fills (mkIndexEntry k (lf_id y)) (leaf_changes (Some y) k ns) (map (pointer_to (h := O)) ns).
Proof using Type.
  intros Hw Hle Hf. destruct ns as [|[k0 l0] ns]; [apply fills_delete|]. destruct Hf as [Hk Hid]. cbn in Hk, Hid. subst k0.
  change (fills (mkIndexEntry k (lf_id y)) (upserts ns) (mkIndexEntry k (lf_id l0) :: map (pointer_to (h := O)) ns)). rewrite Hid.
  replace (map (pointer_to (h := O)) ns) with (map op_pointer (upserts ns)) by (unfold upserts; rewrite map_map; reflexivity).
  apply fills_more. unfold upserts. apply List.Forall_map. pose proof (children_within_keys _ _ _ _ _ Hw) as Hk.
  eapply Forall_impl; [|exact Hk]. intros c [Hc _]. split; [reflexivity|]. exact (key_le_lt_trans _ _ _ Hle Hc).
Qed.

(** The pages after the round. *)
Lemma leaf_pages_done b b1 D D' os os' A M y Br ids ns b' top rest page_key lo hi es : tree_pages b D os A (M ++ y :: Br) ids ->
  leaf_done opts b1 D (A ++ M) Br (Some y) top rest page_key lo hi K b' D' os' es ns -> tree_pages b' D' os' ((A ++ M) ++ map snd ns) Br ids.
Proof.
  intros [G1 G2 G3 G4] [L1 L2 L3 L4 L5 L6 L7 L8 L9]. apply nodup_app in G3 as (G3 & G5 & G6).
  assert (Hold : forall q, In q (map lf_id (A ++ M ++ y :: Br)) <-> In q (map lf_id (A ++ M)) \/ q = lf_id y \/ In q (map lf_id Br)).
  { intros q. rewrite app_assoc, !map_app, !in_app_iff. cbn [map In]. intuition congruence. }
  assert (Hnew : forall q, In q (map lf_id (((A ++ M) ++ map snd ns) ++ Br)) <->
    In q (map lf_id (A ++ M)) \/ In q (map (fun c => lf_id (snd c)) ns) \/ In q (map lf_id Br)).
  { intros q. rewrite !map_app, !in_app_iff, map_map. tauto. }
  assert (Hns : forall q, In q (map (fun c => lf_id (snd c)) ns) <-> (ns <> [] /\ q = lf_id y) \/ In q (map (fun c => lf_id (snd c)) (tl ns))).
  { intros q. destruct ns as [|c ns]; [cbn; intuition congruence|]. destruct L5 as [_ [L5|L5]]; [discriminate|]. cbn [page_id] in L5. cbn [map In tl].
    rewrite L5. intuition (congruence || discriminate). }
  cbn [new_ones] in L7, L8. constructor; auto.
  - intros q. rewrite L7, G2, Hold, Hnew, Hns. split.
    + intros [[[Hq|[Hq|[->|Hq]]] Hne]|Hq]; auto. right. right. left. left. split; [|reflexivity]. intros Hn. exact (Hne y eq_refl Hn eq_refl).
    + assert (Hcase : forall q, In q ids \/ In q (map lf_id (A ++ M)) \/ In q (map lf_id Br) -> q <> lf_id y).
      { intros z Hz ->. destruct Hz as [Hz|Hz]; [apply (G5 _ Hz), Hold; auto|]. rewrite app_assoc, map_app in G6. cbn [map] in G6.
        apply nodup_app in G6 as (_ & Ga & Gb). apply nodup_cons in Gb as [Gb _]. destruct Hz as [Hz|Hz]; [|contradiction].
        exact (Ga _ Hz (or_introl eq_refl)). }
      intros [Hq|[Hq|[[[Hn ->]|Hq]|Hq]]]; [left; split; [auto|intros x [= <-] _; apply Hcase; auto].. | |right; exact Hq|left; split; [auto|intros x [= <-] _; apply Hcase; auto]].
      left. split; [auto|]. intros x _ Hn'. contradiction.
  - apply nodup_app. split; [exact G3|]. split; [|exact (ch_ids _ _ _ _ (bl_chain _ _ _ _ _ _ L1))]. intros q Hq. rewrite Hnew, Hns.
    specialize (G5 q Hq). rewrite Hold in G5. assert (HqD : q ∈ D) by (apply G2; auto). intros [Hin|[[[_ Hin]|Hin]|Hin]]; try tauto.
    apply in_map_iff in Hin as (c & <- & Hc). exact (L8 c Hc HqD).
Qed.

(** The leaf [y] was replaced by the leaves [ns]. *)
Lemma leaf_settled b b1 D os os' A B n key y H top st D' es ns b' : at_hole b D os A B n key y H -> stack_ b = top :: st ->
  (forall q, q ∈ D -> q <> lf_id y -> same_page (eff b) (eff b1) q) ->
  leaf_done opts b1 D (ho_left H) (ho_right H) (Some y) top st (ho_key H) (ho_lo H) (ho_hi H) K b' D' os' es ns ->
  at_done b' D' os' (ho_left H ++ map snd ns) (ho_right H) n (ho_hi H).
Proof.
  intros [H1 H2 H3 H4 H5 H6 (M & H7 & H8)] Hst Hb1 Hd. rewrite Hst in H1, H2. rewrite H8 in H6. rewrite H7 in Hd |- *.
  pose proof (leaf_pages_done _ _ _ _ _ _ _ _ _ _ _ _ _ _ _ _ _ _ _ H6 Hd) as Hpages.
  assert (Hsame : forall q, In q (ho_ids H) -> same_page (eff b) (eff b') q).
  { intros q Hq. destruct (index_held _ _ _ _ _ _ _ _ H6 Hq) as (HD & _ & _ & Hn).
    assert (Hy : q <> lf_id y) by (intros ->; apply Hn; rewrite !map_app, !in_app_iff; cbn; auto).
    eapply same_page_trans; [exact (Hb1 q HD Hy)|]. apply (lv_frame _ _ _ _ _ _ _ _ _ _ _ _ _ _ _ _ _ Hd); [exact HD|].
    unfold old_leaves. rewrite <- app_assoc. exact Hn. }
  destruct Hd as [_ _ L3 L4 L5 L6 _ _ _]. destruct H1 as (H' & pre & k & c & suf & N & Hc & Hl & Hlat & Hcur & Hlf & ->).
  cbn [ho_ids ho_own ho_key ho_lo ho_hi ho_left ho_right] in *.
  assert (Hp : pointer_to (k, c) = mkIndexEntry k (lf_id y)) by (unfold pointer_to; cbn [fst snd]; rewrite H3; reflexivity).
  assert (Hfirst : match ns with c :: _ => fst c = k /\ lf_id (snd c) = lf_id y | [] => True end).
  { destruct ns as [|[k0 l0] ns]; [exact I|]. destruct L5 as [L5 [L5'|L5']]; [discriminate|]. auto. }
  exists O, (with_changes top (se_changes top ++ leaf_changes (Some y) k ns)), st, H', pre, (k, c), suf, (N ++ ns).
  split; [constructor|split; [exact Hcur|split; [cbn in H2; lia|reflexivity]]].
  - exact L6.
  - apply (context_same K (eff b)); [exact Hc|]. intros q Hq. apply Hsame. right. rewrite !in_app_iff. auto.
  - apply (level_fill K (eff b')).
    + apply (level_same K (eff b)); [exact Hl|]. intros q [<-|Hq]; apply Hsame; [left; reflexivity|right]. rewrite in_app_iff. auto.
    + rewrite Hp. apply (leaf_fills y k _ _ ns L3); [|exact Hfirst]. destruct k; [apply key_nil_le|apply key_le_refl].
    + exact L3.
    + destruct ns as [|[k0 l0] ns]; [exact I|apply Hfirst].
    + apply List.Forall_forall. intros x _. exact I.
    + exact L4.
  - apply (later_same K (eff b)); [exact Hlat|]. intros q Hq. apply Hsame. right. rewrite !in_app_iff. auto.
  - left. exact Hlf.
  - rewrite below_app, (below_leaf_ids ns), app_nil_r. exact Hpages.
  - exists []. rewrite below_app, (map_snd_leaves ns), app_nil_r, app_assoc, H7. split; reflexivity.
Qed.

  Context (Hptrs : 0 <= overflow_pointers opts).
  Context (enable_compression : bool) (compress_raw : bytes -> option bytes) (dict : option (bytes -> option bytes)) (now_ms : Z).
  Context (old : Entry -> bytes).

  Local Abbreviation stored_as := (ApplySpec.stored enable_compression compress_raw dict old).
  Local Abbreviation batch_task := (BatchPageTask opts hash).

(** A sorted batch whose changes fit the pages. *)
Record fit_batch (batch : list WriteDataEntry) : Prop := {
  fb_changes : Forall (change_ok (H := batch_task) opts []) batch;
  fb_sorted : keys_sorted (map w_key batch);
  fb_short : Forall (fun w => zlen (w_key w) <= K) batch
}.

Lemma change_ok_key page_key w : change_ok (H := batch_task) opts [] w -> page_key <=k w_key w -> change_ok (H := batch_task) opts page_key w.
Proof using Type. intros [H1 H2 H3 H4 H5 H6] Hk. constructor; assumption. Qed.

Lemma fit_batch_app a c : fit_batch (a ++ c) -> fit_batch a /\ fit_batch c.
Proof using Type.
  intros [H1 H2 H3]. apply Forall_app in H1 as [H1 H1']. apply Forall_app in H3 as [H3 H3'].
  rewrite map_app in H2. apply StronglySorted_app in H2 as (_ & H2 & H2'). split; constructor; assumption.
Qed.

Lemma batch_above w batch : fit_batch (w :: batch) -> Forall (fun c => w_key w <=k w_key c) (w :: batch).
Proof using Type.
  intros [_ H2 _]. cbn [map] in H2. apply StronglySorted_inv in H2 as [_ H2]. constructor; [apply key_le_refl|].
  rewrite List.Forall_map in H2. eapply Forall_impl; [|exact H2]. intros c Hc. apply key_lt_le. exact Hc.
Qed.

Lemma at_leaf_perm b D os os' A x B : os ≡ₚ os' -> at_leaf opts b D os A x B -> at_leaf opts b D os' A x B.
Proof using Type.
  intros Hp [[I1 I2 I3] L2 L3 L4 L5 L6 L7]. constructor; auto. constructor; auto. exact (tp_inv_perm _ _ _ _ Hp I1).
Qed.

Lemma changes_range lo hi w batch : in_range lo hi (w_key w) -> fit_batch (w :: batch) ->
  Forall (fun c => in_range lo hi (w_key c)) (page_changes hi (w :: batch)).
Proof using Type.
  intros [Hlo _] Hfit. destruct (page_changes_split hi (w :: batch)) as (todo & Hsplit & Hbelow & _). pose proof (batch_above _ _ Hfit) as Habove.
  rewrite Hsplit in Habove. apply Forall_app in Habove as [Habove _]. rewrite List.Forall_forall in Hbelow, Habove |- *. intros c Hin.
  split; [|exact (Hbelow c Hin)]. eapply key_le_trans; [exact Hlo|exact (Habove c Hin)].
Qed.

(** What a round makes of the leaf [y] in the hole [H]. *)
Definition round_done (ttl : TtlBatch) (batch : list WriteDataEntry) (F : list Outside) (n : nat) (y : Leaf) (H : Hole)
    (r : Batch * TtlBatch * list WriteDataEntry) : Prop :=
  let '(b', ttl', todo) := r in
  let changes := page_changes (ho_hi H) batch in
  ttl' = ttl_all ttl (merge_ttl now_ms (lf_entries y) changes) /\ batch = changes ++ todo /\ changes <> [] /\
  match todo with [] => True | w :: _ => ho_hi H <> [] /\ ho_hi H <=k w_key w end /\
  exists ps D' ls, Forall2 stored_as (merge_items now_ms (lf_entries y) changes) ps /\
    leaf_entries ls = map stored_entry (map fst ps) /\ at_done b' D' (outs ps ++ F) (ho_left H ++ ls) (ho_right H) n (ho_hi H).

Lemma leaf_round b D os A B n y H ttl w batch F : at_hole b D os A B n (w_key w) y H -> (1 <= n)%nat ->
  os ≡ₚ base_outs old (lf_entries y) ++ F -> Forall (fun e => 0 < zlen (key_ e) <= K) (lf_entries y) ->
  fit_batch (w :: batch) -> deletes_ok (lf_entries y) (w :: batch) -> room opts D (zlen (lf_entries y) + zlen (w :: batch)) ->
  wp tp_fails (b ← LoadApplyingPage hash b (lf_id y); ApplyToLeaf opts hash enable_compression compress_raw dict now_ms b ttl (w :: batch))
    (round_done ttl (w :: batch) F n y H).
Proof.
  intros Hah Hn Hos Hkeys Hfit Hdel Hroom. destruct (hole_top _ _ _ _ _ _ _ _ _ Hah Hn) as (top & st & Hst & Hptr & Hle & Hshort & Hlast).
  eapply wp_bind_mono; [exact (load_hole _ _ _ _ _ _ _ _ _ Hah)|]. intros b1 (Hal & Hst1 & Hsame).
  pose proof (at_leaf_perm _ _ _ _ _ _ _ Hos Hal) as Hal'. destruct (page_changes_split (ho_hi H) (w :: batch)) as (todo & Hsplit & Hbelow & Htodo).
  set (changes := page_changes (ho_hi H) (w :: batch)) in *.
  assert (Hso : start_ok opts b1 D (ho_left H) (ho_right H) (Some y) top st (ho_key H) (ho_lo H) K (zlen (lf_entries y) + zlen (w :: batch))).
  { constructor; auto; [congruence| |discriminate]. right. destruct (al_applying _ _ _ _ _ _ _ Hal) as (p & Hp). exists (lf_id y), p.
    split; [exact Hp|]. destruct (chain_at _ _ _ _ _ _ (al_chain _ _ _ _ _ _ _ Hal)) as (p' & Hp' & _ & _ & _ & Hnx).
    rewrite Hp, over_here in Hp'. injection Hp' as <-. exact Hnx. }
  pose proof (ah_range _ _ _ _ _ _ _ _ _ _ _ Hah) as [Hlo Hhi]. destruct (context_bounds _ _ _ _ _ (ah_context _ _ _ _ _ _ _ _ _ _ _ Hah)) as [Hlb Hrb].
  pose proof (ah_within _ _ _ _ _ _ _ _ _ _ _ Hah) as Hwi. pose proof (changes_range _ _ _ _ (conj Hlo Hhi) Hfit) as Hrange. fold changes in Hrange.
  rewrite Hsplit in Hfit. apply fit_batch_app in Hfit as [[Hc Hs Hk] _].
  eapply wp_mono; [apply (ApplyToLeaf_spec opts hash Hopts b1 D (ho_left H) (ho_right H) (Some y) top st (ho_key H) (ho_lo H) (ho_hi H) K _ Hptrs
    enable_compression compress_raw dict now_ms old Hso ttl (lf_entries y) w batch F); fold changes|].
  - constructor; auto. apply task_frame_refl.
  - split; [reflexivity|]. unfold LeftBound, RightBound. rewrite Hst1. split; [exact Hlb|]. split; [exact Hrb|].
    destruct Hhi as [Hhi|Hhi]; [auto|]. right. eapply key_le_lt_trans; eassumption.
  - split; assumption.
  - rewrite List.Forall_forall in Hkeys |- *. change (Forall (fun e => in_range (ho_lo H) (ho_hi H) (key_ e)) (lf_entries y)) in Hwi.
    rewrite List.Forall_forall in Hwi. intros e He. split; [exact (Hwi e He)|apply Hkeys, He].
  - eapply Forall_impl; [|exact Hkeys]. intros e [He _]. exact He.
  - rewrite List.Forall_forall in Hc, Hrange |- *. intros c Hin. apply change_ok_key; [exact (Hc c Hin)|]. eapply key_le_trans; [exact Hle|apply Hrange, Hin].
  - intros e c He Hin. apply Hdel; [exact He|]. rewrite Hsplit. apply elem_of_app. auto.
  - exact Hs.
  - rewrite List.Forall_forall in Hk, Hrange |- *. auto.
  - rewrite Hsplit, zlen_app. pose proof (zlen_nonneg todo). lia.
  - intros [[b' ttl'] rest] (Httl & Hrest & ps & D' & ns & Hps & Hld). unfold round_done. fold changes in Hrest |- *.
    assert (rest = todo) as -> by (rewrite Hrest, Hsplit, drop_app_length; reflexivity). split; [exact Httl|]. split; [exact Hsplit|]. split.
    + unfold changes. cbn [page_changes]. destruct (zlen (ho_hi H) =? 0) eqn:Ez; [discriminate|]. cbn [orb].
      destruct Hhi as [Hhi|Hhi]; [rewrite Hhi in Ez; discriminate Ez|]. rewrite (proj2 (Z.ltb_lt _ _) Hhi). discriminate.
    + split; [exact Htodo|]. exists ps, D', (map snd ns). split; [exact Hps|]. split; [exact (lv_entries _ _ _ _ _ _ _ _ _ _ _ _ _ _ _ _ _ Hld)|].
      exact (leaf_settled b b1 D os _ A B n (w_key w) y H top st D' _ ns b' Hah Hst Hsame Hld).
Qed.

(** ** A round with its search *)

(** The task stands at the root, or behind a leaf that is done. *)
Definition poised (b : Batch) (D : gset Z) (os : list Outside) (A B : list Leaf) (n : nat) (key : bytes) : Prop :=
  (length (stack_ b) = 1%nat /\ at_ready b D os A B n key) \/ (exists bd, at_done b D os A B n bd /\ bd <> [] /\ bd <=k key).

Lemma poised_ready b D os A B n key : poised b D os A B n key -> pages_fit opts n A B ->
  wp tp_fails (if 1 <? zlen (stack_ b) then SeekStack opts hash (length (stack_ b)) b key else Some b) (fun b' => exists D', at_ready b' D' os A B n key).
Proof using Hiopts HK HR HK0.
  intros Hp Hpf. destruct (Z.ltb_spec 1 (zlen (stack_ b))) as [Hlt|Hge].
  - destruct Hp as [[Hl _]|(bd & Hd & Hne & Hle)]; [unfold zlen in Hlt; lia|].
    exact (SeekStack_spec opts hash Hiopts K HK HR os A B n key HK0 Hpf _ b D bd Hd Hne Hle (Nat.le_refl _)).
  - destruct Hp as [[_ Hr]|(bd & Hd & Hne & Hle)]; [cbn [wp]; eauto|].
    pose proof (SeekStack_spec opts hash Hiopts K HK HR os A B n key HK0 Hpf _ b D bd Hd Hne Hle (Nat.le_refl _)) as Hs.
    destruct Hd as (h & top & st & H & pre & x & rest & N & Hsd & _). pose proof (sd_stack _ _ _ _ _ _ _ _ _ _ _ _ _ Hsd) as Hst.
    rewrite Hst in Hge, Hs. destruct st as [|e st]; [|rewrite !zlen_cons in Hge; pose proof (zlen_nonneg st); lia].
    cbn [length SeekStack] in Hs. rewrite Hst in Hs. exact Hs.
Qed.

Lemma base_outs_app a c : base_outs old (a ++ c) = base_outs old a ++ base_outs old c.
Proof using Type. unfold base_outs, outs. rewrite !map_app, concat_app. reflexivity. Qed.

(** What the leaves behind the current place and the batch have to satisfy. *)
Record round_input (B : list Leaf) (batch : list WriteDataEntry) : Prop := {
  ri_keys : Forall (fun e => 0 < zlen (key_ e) <= K) (leaf_entries B);
  ri_batch : fit_batch batch;
  ri_deletes : deletes_ok (leaf_entries B) batch
}.

Lemma apply_round_spec b D os A B n ttl w batch O F fuel : poised b D os A B n (w_key w) -> (n <= fuel)%nat ->
  round_input B (w :: batch) -> os ≡ₚ O ++ base_outs old (leaf_entries B) ++ F ->
  (Z.of_nat n + 2) * (zlen (A ++ B) + 1) + zlen (leaf_entries B) + zlen (w :: batch) <= tp_capacity ->
  wp tp_fails (apply_round opts hash enable_compression compress_raw dict now_ms fuel b ttl (w :: batch)) (fun r =>
    exists b1 D1 y M H, at_hole b1 D1 os A B n (w_key w) y H /\ ho_left H = A ++ M /\ B = M ++ y :: ho_right H /\
      round_done ttl (w :: batch) (O ++ base_outs old (leaf_entries M) ++ base_outs old (leaf_entries (ho_right H)) ++ F) n y H r).
Proof.
  intros Hp Hf [Hk Hb Hd] Hos Hcap. unfold apply_round. pose proof (zlen_nonneg (A ++ B)) as HL. pose proof (zlen_nonneg (leaf_entries B)) as HLB. pose proof (zlen_nonneg (w :: batch)) as HW.
  eapply wp_bind_mono; [exact (poised_ready _ _ _ _ _ _ _ Hp ltac:(unfold pages_fit; lia))|].
  intros b1 (D1 & h & top & st & H & pre & rest & N & Hr). eapply wp_bind_mono.
  { apply (SeekLeaf_spec opts K D1 os A B n (w_key w) h fuel b1 top st H pre rest N Hr). pose proof (rd_height _ _ _ _ _ _ _ _ _ _ _ _ _ _ _ Hr). lia. }
  intros [id b2] (y & H' & Hah & ->). pose proof (ah_leaves _ _ _ _ _ _ _ _ _ _ _ Hah) as (M & HM1 & HM2).
  assert (Hy : lf_id y <> MaxPageId).
  { assert (Hr' : 0 <= lf_id y < 2 ^ 31); [|unfold MaxPageId; lia]. apply (leaf_range _ _ _ _ _ _ _ y (ah_pages _ _ _ _ _ _ _ _ _ _ _ Hah)).
    rewrite HM2, !in_app_iff. cbn. auto. }
  rewrite (proj2 (Z.eqb_neq _ _) Hy). assert (HB : leaf_entries B = leaf_entries M ++ lf_entries y ++ leaf_entries (ho_right H')).
  { rewrite HM2, leaf_entries_app. reflexivity. }
  rewrite HB in Hk, Hd, Hos. eapply wp_mono.
  - apply (leaf_round b2 D1 os A B n y H' ttl w batch (O ++ base_outs old (leaf_entries M) ++ base_outs old (leaf_entries (ho_right H')) ++ F)); auto.
    + pose proof (rd_height _ _ _ _ _ _ _ _ _ _ _ _ _ _ _ Hr). lia.
    + rewrite Hos, !base_outs_app. solve_Permutation.
    + rewrite !Forall_app in Hk. apply Hk.
    + intros e c He Hc. apply Hd; [|exact Hc]. rewrite !elem_of_app. auto.
    + apply (hole_room _ _ _ _ _ _ _ _ _ _ _ _ Hah). rewrite HB, !zlen_app in Hcap. pose proof (zlen_nonneg (leaf_entries M)). pose proof (zlen_nonneg (leaf_entries (ho_right H'))).
      rewrite zlen_app in HL |- *. lia.
  - intros r Hrd. exists b2, D1, y, M, H'. auto.
Qed.

(** ** All rounds *)

(** The entries [E] of the leaves so far and the changes [C] became the pairs of
    the items [Q] in the leaves [A]. *)
Record merged_leaves (E : list Entry) (C : list WriteDataEntry) (A : list Leaf) (Q : list Item) (ps : list (AddArgs * bytes)) : Prop := {
  ml_entries : leaf_entries A = map stored_entry (map fst ps);
  ml_stored : Forall2 stored_as Q ps;
  ml_items : List.filter (live_item now_ms) Q = merge_items now_ms E C;
  ml_keys : Forall (fun i => 0 < zlen (item_key i) <= K) Q;
  ml_count : zlen Q <= zlen E + zlen C;
  ml_left i : In i Q -> live_item now_ms i = false -> exists e, i = Kept e /\ In e E /\ ~ In (key_ e) (map w_key C)
}.

Lemma merged_app E C A Q ps E' C' A' Q' ps' : part_below E C E' C' -> merged_leaves E C A Q ps -> merged_leaves E' C' A' Q' ps' ->
  merged_leaves (E ++ E') (C ++ C') (A ++ A') (Q ++ Q') (ps ++ ps').
Proof using Type.
  intros Hp [H1 H2 H3 H4 HN H5] [G1 G2 G3 G4 GN G5]. constructor.
  - rewrite leaf_entries_app, !map_app, H1, G1. reflexivity.
  - apply Forall2_app; assumption.
  - rewrite List.filter_app, H3, G3. symmetry. exact (merge_items_parts _ _ _ _ _ Hp).
  - apply Forall_app_2; assumption.
  - rewrite !zlen_app. lia.
  - intros i Hi Hl. rewrite map_app. apply in_app_iff in Hi as [Hi|Hi].
    + destruct (H5 i Hi Hl) as (e & -> & He & Hn). exists e. rewrite !in_app_iff. split; [reflexivity|]. split; [auto|].
      intros [Hc|Hc]; [auto|]. apply (key_lt_irrefl (key_ e)), Hp; rewrite in_app_iff; [left; apply in_map; exact He|auto].
    + destruct (G5 i Hi Hl) as (e & -> & He & Hn). exists e. rewrite !in_app_iff. split; [reflexivity|]. split; [auto|].
      intros [Hc|Hc]; [|auto]. apply (key_lt_irrefl (key_ e)), Hp; rewrite in_app_iff; [auto|left; apply in_map; exact He].
Qed.

(** Leaves that the batch passes over. *)
Lemma merged_untouched b D os A B ids M : tree_pages b D os A B ids -> (forall l, In l M -> In l (A ++ B)) ->
  Forall (fun e => 0 < zlen (key_ e) <= K) (leaf_entries M) ->
  merged_leaves (leaf_entries M) [] M (map Kept (leaf_entries M)) (map (base_pair old) (leaf_entries M)).
Proof using Hopts.
  intros Ht Hin Hk. constructor.
  - rewrite !map_map. rewrite <- (map_id (leaf_entries M)) at 1. apply List.map_ext_in. intros e He. symmetry. apply stored_entry_args.
    apply in_concat in He as (es & Hes & He). apply in_map_iff in Hes as (l & <- & Hl). destruct (in_split _ _ (Hin l Hl)) as (l1 & l2 & Hl12).
    pose proof (bl_chain _ _ _ _ _ _ (tg_between _ _ _ _ _ _ _ Ht)) as Hc. rewrite Hl12 in Hc. destruct (chain_at _ _ _ _ _ _ Hc) as (p & _ & Hd & Hz & _).
    pose proof (data_page_fit opts p _ Hopts Hd Hz) as Hf. rewrite List.Forall_forall in Hf. apply Hf, He.
  - induction (leaf_entries M) as [|e es IH]; constructor; [reflexivity|]. apply IH. apply Forall_cons_1 in Hk as [_ Hk]. exact Hk.
  - apply live_kept.
  - apply List.Forall_map. exact Hk.
  - unfold zlen. rewrite length_map. cbn [length]. lia.
  - intros i Hi _. apply in_map_iff in Hi as (e & <- & He). exists e. auto.
Qed.

Lemma merged_round y changes ls ps : Forall2 stored_as (merge_items now_ms (lf_entries y) changes) ps -> leaf_entries ls = map stored_entry (map fst ps) ->
  keys_sorted (map key_ (lf_entries y)) -> keys_sorted (map w_key changes) ->
  Forall (fun e => 0 < zlen (key_ e) <= K) (lf_entries y) -> Forall (fun w => 0 < zlen (w_key w) <= K) changes ->
  merged_leaves (lf_entries y) changes ls (merge_items now_ms (lf_entries y) changes) ps.
Proof using Type.
  intros Hst He Hs1 Hs2 Hk1 Hk2. constructor; auto; [apply live_merge| |apply merge_items_count|].
  2: { intros i Hi Hl. rewrite <- live_merge in Hi. apply List.filter_In in Hi as [_ Hi]. congruence. }
  destruct (merge_items_ok now_ms _ _ Hs1 Hs2) as [_ Hin].
  apply list.Forall_forall. intros i Hi. apply Hin, survives_key in Hi. rewrite list.Forall_forall in Hk1. rewrite list.Forall_forall in Hk2.
  destruct Hi as [Hi|Hi]; apply list_elem_of_fmap in Hi as (z & -> & Hz); auto.
Qed.

(** The page on top of the stack, wherever it stands. *)
Definition at_some (b : Batch) (D : gset Z) (os : list Outside) (A B : list Leaf) (n : nat) : Prop :=
  exists h top st H (pre rest N : list (bytes * tree h)), standing opts K b D os A B top st H pre rest N /\ (length st + Datatypes.S h)%nat = n.

Definition placed_at (b : Batch) (D : gset Z) (os : list Outside) (A B : list Leaf) (n : nat) (todo : list WriteDataEntry) : Prop :=
  match todo with [] => at_some b D os A B n | w :: _ => poised b D os A B n (w_key w) end.

Lemma done_some b D os A B n bd : at_done b D os A B n bd -> at_some b D os A B n.
Proof using Type. intros (h & top & st & H & pre & x & rest & N & Hsd & _ & Hn & _). exists h, top, st, H, (pre ++ [x]), rest, N. auto. Qed.

Lemma done_placed b D os A B n bd todo : at_done b D os A B n bd -> match todo with [] => True | w :: _ => bd <> [] /\ bd <=k w_key w end ->
  placed_at b D os A B n todo.
Proof using Type. intros Hd Ht. destruct todo as [|w todo]; [exact (done_some _ _ _ _ _ _ _ Hd)|]. destruct Ht. right. exists bd. auto. Qed.

(** The state between two rounds. *)
Record progress (E0 : list Entry) (batch0 : list WriteDataEntry) (ttl0 : TtlBatch) (F : list Outside) (n : nat)
    (b : Batch) (ttl : TtlBatch) (todo : list WriteDataEntry) (D : gset Z) (os : list Outside) (A B : list Leaf)
    (E : list Entry) (C : list WriteDataEntry) (Q : list Item) (ps : list (AddArgs * bytes)) (evs : list TtlEvent) : Prop := {
  pg_entries : E0 = E ++ leaf_entries B;
  pg_batch : batch0 = C ++ todo;
  pg_below : part_below E C (leaf_entries B) todo;
  pg_merged : merged_leaves E C A Q ps;
  pg_outs : os ≡ₚ outs ps ++ base_outs old (leaf_entries B) ++ F;
  pg_ttl : ttl = ttl_all ttl0 evs;
  pg_events : sublist evs (merge_ttl now_ms E C);
  pg_placed : placed_at b D os A B n todo;
  pg_input : round_input B todo
}.

(** The keys around the leaf of a round. *)
Record round_order (lo hi : bytes) (EM Ey ER : list Entry) (changes todo : list WriteDataEntry) : Prop := {
  ro_before : Forall (fun e => key_ e <k lo) EM;
  ro_leaf : Forall (fun e => in_range lo hi (key_ e)) Ey;
  ro_changes : Forall (fun w => in_range lo hi (w_key w)) changes;
  ro_some : changes <> [];
  ro_behind : Forall (fun e => hi <> [] /\ hi <=k key_ e) ER;
  ro_todo : Forall (fun w => hi <> [] /\ hi <=k w_key w) todo
}.

Lemma range_under lo hi k : in_range lo hi k -> hi <> [] -> k <k hi.
Proof using Type. intros [_ [H|H]] Hne; [contradiction|exact H]. Qed.

Lemma order_below lo hi EM Ey ER changes todo : round_order lo hi EM Ey ER changes todo ->
  part_below EM [] Ey changes /\ part_below (EM ++ Ey) changes ER todo.
Proof using Type.
  intros [H1 H2 H3 H4 H5 H6]. split.
  - apply (part_below_at lo); [exact H1|constructor| |]; eapply Forall_impl; [|exact H2| |exact H3]; intros x [Hx _]; exact Hx.
  - intros x y Hx Hy. assert (Hhi : hi <> [] /\ hi <=k y).
    { rewrite List.Forall_forall in H5, H6. rewrite in_app_iff, !in_map_iff in Hy. destruct Hy as [(z & <- & Hz)|(z & <- & Hz)]; auto. }
    destruct Hhi as [Hne Hle]. apply (key_lt_le_trans _ hi); [|exact Hle]. rewrite List.Forall_forall in H1, H2, H3.
    rewrite map_app, !in_app_iff, !in_map_iff in Hx. destruct Hx as [[(z & <- & Hz)|(z & <- & Hz)]|(z & <- & Hz)]; [|apply (range_under lo); auto..].
    destruct changes as [|w changes]; [contradiction|]. destruct (H3 w (or_introl eq_refl)) as [Hlo Hup].
    apply (key_lt_le_trans _ lo); [auto|]. eapply key_le_trans; [exact Hlo|]. apply key_lt_le. exact (range_under _ _ _ (conj Hlo Hup) Hne).
Qed.

Lemma hole_order b D os A B n w batch y M H todo : at_hole b D os A B n (w_key w) y H -> ho_left H = A ++ M -> fit_batch (w :: batch) ->
  w :: batch = page_changes (ho_hi H) (w :: batch) ++ todo -> page_changes (ho_hi H) (w :: batch) <> [] ->
  match todo with [] => True | w' :: _ => ho_hi H <> [] /\ ho_hi H <=k w_key w' end ->
  round_order (ho_lo H) (ho_hi H) (leaf_entries M) (lf_entries y) (leaf_entries (ho_right H)) (page_changes (ho_hi H) (w :: batch)) todo.
Proof using Type.
  intros Hah HM Hfit Hsplit Hne Ht. destruct (context_order _ _ _ _ _ (ah_context _ _ _ _ _ _ _ _ _ _ _ Hah)) as [H1 H2].
  rewrite HM, leaf_entries_app in H1. apply Forall_app in H1 as [_ H1]. constructor; auto.
  - exact (ah_within _ _ _ _ _ _ _ _ _ _ _ Hah).
  - exact (changes_range _ _ _ _ (ah_range _ _ _ _ _ _ _ _ _ _ _ Hah) Hfit).
  - rewrite Hsplit in Hfit. apply fit_batch_app in Hfit as [_ Hfit]. destruct todo as [|w' todo]; [constructor|]. destruct Ht as [Ht1 Ht2].
    eapply Forall_impl; [|exact (batch_above _ _ Hfit)]. intros c Hc. split; [exact Ht1|]. eapply key_le_trans; eassumption.
Qed.

Lemma outs_app a c : outs (a ++ c) = outs a ++ outs c.
Proof using Type. unfold outs. rewrite map_app, concat_app. reflexivity. Qed.

Lemma leaf_sorted b D os A B ids l : tree_pages b D os A B ids -> In l (A ++ B) -> keys_sorted (map key_ (lf_entries l)).
Proof using Type.
  intros Ht Hl. destruct (in_split _ _ Hl) as (l1 & l2 & Hl12). pose proof (bl_chain _ _ _ _ _ _ (tg_between _ _ _ _ _ _ _ Ht)) as Hc. rewrite Hl12 in Hc.
  destruct (chain_at _ _ _ _ _ _ Hc) as (p & _ & Hd & _). apply Hd.
Qed.

Lemma placed_pages b D os A B n todo : placed_at b D os A B n todo -> exists ids, tree_pages b D os A B ids.
Proof using Type.
  unfold placed_at. destruct todo as [|w todo].
  - intros (h & top & st & H & pre & rest & N & Hsd & _). eexists. exact (sd_pages _ _ _ _ _ _ _ _ _ _ _ _ _ Hsd).
  - intros [(_ & h & top & st & H & pre & rest & N & Hr)|(bd & (h & top & st & H & pre & x & rest & N & Hsd & _) & _)]; eexists.
    + exact (sd_pages _ _ _ _ _ _ _ _ _ _ _ _ _ (rd_standing _ _ _ _ _ _ _ _ _ _ _ _ _ _ _ Hr)).
    + exact (sd_pages _ _ _ _ _ _ _ _ _ _ _ _ _ Hsd).
Qed.

(** There are no more leaves than entries and changes. *)
Lemma progress_count E0 batch0 ttl0 F n b ttl todo D os A B E C Q ps evs : progress E0 batch0 ttl0 F n b ttl todo D os A B E C Q ps evs ->
  zlen (A ++ B) + zlen todo <= zlen E0 + zlen batch0 /\ zlen (leaf_entries B) <= zlen E0.
Proof using Type.
  intros [P1 P2 P3 [M1 M2 _ _ M5 _] P5 P6 P7 P8 P9]. destruct (placed_pages _ _ _ _ _ _ _ P8) as (ids & Ht). pose proof (leaves_count _ _ _ _ _ _ _ Ht) as Hl.
  rewrite P1, P2. rewrite leaf_entries_app, M1 in Hl. rewrite !zlen_app in *. unfold zlen in *. rewrite !length_map in Hl. rewrite (Forall2_length M2) in M5. lia.
Qed.

(** Room for a batch in a tree of height [n], which may become higher. *)
Definition batch_room (n : nat) (E : list Entry) (batch : list WriteDataEntry) : Prop :=
  (Z.of_nat n + 34) * (zlen E + zlen batch + 1) <= tp_capacity.

Lemma progress_round E0 batch0 ttl0 F n fuel b ttl w batch D os A B E C Q ps evs : (n <= fuel)%nat -> batch_room n E0 batch0 ->
  progress E0 batch0 ttl0 F n b ttl (w :: batch) D os A B E C Q ps evs ->
  wp tp_fails (apply_round opts hash enable_compression compress_raw dict now_ms fuel b ttl (w :: batch)) (fun '(b', ttl', todo) =>
    (length todo < length (w :: batch))%nat /\
    exists D' os' A' B' E' C' Q' ps' evs', progress E0 batch0 ttl0 F n b' ttl' todo D' os' A' B' E' C' Q' ps' evs').
Proof.
  intros Hf Hcap Hpg. destruct (progress_count _ _ _ _ _ _ _ _ _ _ _ _ _ _ _ _ _ Hpg) as [Hc1 Hc2]. destruct Hpg as [P1 P2 P3 P4 P5 P6 P7 P8 P9].
  eapply wp_mono; [apply (apply_round_spec b D os A B n ttl w batch (outs ps) F fuel P8 Hf P9 P5)|].
  { unfold batch_room in Hcap. pose proof (zlen_nonneg (A ++ B)). pose proof (zlen_nonneg (w :: batch)). pose proof (zlen_nonneg batch0). nia. }
  intros [[b' ttl'] todo] (b1 & D1 & y & M & H & Hah & HM & HB & Httl & Hsplit & Hne & Ht & ps' & D' & ls & Hps & Hls & Hdone).
  destruct P9 as [I1 I2 I3]. pose proof (hole_order _ _ _ _ _ _ _ _ _ _ _ _ Hah HM I2 Hsplit Hne Ht) as Hord.
  destruct (order_below _ _ _ _ _ _ _ Hord) as [Hb1 Hb2]. set (changes := page_changes (ho_hi H) (w :: batch)) in *.
  pose proof (ah_pages _ _ _ _ _ _ _ _ _ _ _ Hah) as Hpages. pose proof (f_equal leaf_entries HB) as HE. rewrite leaf_entries_split in HE.
  rewrite HE in P1, P3, I1, I3. rewrite Hsplit in P2, P3, I2, I3. apply fit_batch_app in I2 as [[J1 J2 J3] I2].
  rewrite !Forall_app in I1. destruct I1 as (I1M & I1y & I1R).
  assert (Hck : Forall (fun w => 0 < zlen (w_key w) <= K) changes).
  { rewrite List.Forall_forall in J1, J3 |- *. intros c Hc. split; [exact (co_pos _ _ _ (J1 c Hc))|exact (J3 c Hc)]. }
  assert (Hmerged : merged_leaves (leaf_entries M ++ lf_entries y) ([] ++ changes) (M ++ ls) (map Kept (leaf_entries M) ++ merge_items now_ms (lf_entries y) changes)
    (map (base_pair old) (leaf_entries M) ++ ps')).
  { apply merged_app; [exact Hb1| |].
    - apply (merged_untouched _ _ _ _ _ _ M Hpages); [|exact I1M]. intros l Hl. rewrite HB, !in_app_iff. auto.
    - apply merged_round; auto. apply (leaf_sorted _ _ _ _ _ _ y Hpages). rewrite HB, !in_app_iff. cbn. auto. }
  assert (Hfirst : part_below E C (leaf_entries M ++ lf_entries y) changes).
  { eapply part_below_sub; [exact P3|auto|]. intros x. rewrite !map_app, !in_app_iff. tauto. }
  split; [rewrite Hsplit, length_app; destruct changes; [congruence|cbn; lia]|].
  eexists D', (outs ps' ++ outs ps ++ base_outs old (leaf_entries M) ++ base_outs old (leaf_entries (ho_right H)) ++ F), (A ++ M ++ ls), (ho_right H), (E ++ leaf_entries M ++ lf_entries y), (C ++ changes), _, (ps ++ map (base_pair old) (leaf_entries M) ++ ps'), (evs ++ merge_ttl now_ms (lf_entries y) changes). constructor.
  - rewrite P1, <- !app_assoc. reflexivity.
  - rewrite P2, app_assoc. reflexivity.
  - apply part_below_join; [|exact Hb2]. eapply part_below_sub; [exact P3|auto|]. intros x. rewrite !map_app, !in_app_iff. tauto.
  - exact (merged_app _ _ _ _ _ _ _ _ _ _ Hfirst P4 Hmerged).
  - rewrite !outs_app. unfold base_outs. solve_Permutation.
  - rewrite Httl, P6. unfold ttl_all. rewrite fold_left_app. reflexivity.
  - rewrite (merge_ttl_parts _ _ _ _ _ Hfirst). apply sublist_app; [exact P7|]. change changes with ([] ++ changes) at 2.
    rewrite (merge_ttl_parts _ _ _ _ _ Hb1). apply sublist_inserts_l. reflexivity.
  - rewrite HM, <- app_assoc in Hdone. exact (done_placed _ _ _ _ _ _ _ _ Hdone Ht).
  - constructor; [exact I1R|exact I2|]. intros e c He Hc. apply I3; rewrite !elem_of_app; auto.
Qed.

(** Every round shortens the batch, so that the rounds end. *)
Lemma apply_rounds_spec E0 batch0 ttl0 F n fuel : (n <= fuel)%nat -> batch_room n E0 batch0 -> forall rounds b ttl todo D os A B E C Q ps evs, (length todo <= rounds)%nat ->
  progress E0 batch0 ttl0 F n b ttl todo D os A B E C Q ps evs ->
  wp tp_fails (apply_rounds opts hash enable_compression compress_raw dict now_ms rounds fuel b ttl todo) (fun '(b', ttl') =>
    exists D' os' A' B' E' C' Q' ps' evs', progress E0 batch0 ttl0 F n b' ttl' [] D' os' A' B' E' C' Q' ps' evs').
Proof.
  intros Hf Hcap. induction rounds as [|rounds IH]; intros b ttl todo D os A B E C Q ps evs Hl Hp; (destruct todo as [|w todo]; [cbn [apply_rounds wp]; eauto 12|]);
    [cbn in Hl; lia|]. cbn [apply_rounds].
  eapply wp_bind_mono; [exact (progress_round _ _ _ _ _ _ _ _ _ _ _ _ _ _ _ _ _ _ _ Hf Hcap Hp)|].
  intros [[b1 ttl1] todo1] (Hlt & D' & os' & A' & B' & E' & C' & Q' & ps' & evs' & Hp'). apply (IH b1 ttl1 todo1 D' os' A' B' E' C' Q' ps' evs'); [|exact Hp'].
  cbn [length] in Hlt, Hl. lia.
Qed.
End rounds.
