(* ===== verification/BatchSpec.v ===== *)
(** * A whole batch

    [ApplyBatch] turns a tree and a sorted batch into a tree with the merged
    entries: after the rounds of RoundSpec the leaves and the index pages in memory
    are written, and a root that splits gets a new root above it. *)

From stdpp Require Import gmap sorting.
From S2P Require Import Prelude Coding Comparator PageFormat DataPage Regions DataPageIter RegionCopy IndexPage IndexPageIter.
From S2P Require Import PageIo ApplyPage ApplySpec Tree BatchTask IndexStack ApplyBatch TaskSpec LeafSpec MergeSim LeafMerge RebuildSpec TreeZip StackSpec RoundSpec.

(** Distinct ids below [n] are at most [n]. *)
Lemma nodup_bound (l : list Z) n : 0 <= n -> NoDup l -> Forall (fun q => 0 <= q < n) l -> zlen l <= n.
Proof.
  intros Hn Hd Hr. assert (Hl : (length l <= length (map Z.of_nat (seq 0 (Z.to_nat n))))%nat).
  { apply NoDup_incl_length; [apply NoDup_ListNoDup, Hd|]. intros q Hq. rewrite List.Forall_forall in Hr. specialize (Hr q Hq).
    apply in_map_iff. exists (Z.to_nat q). split; [lia|]. apply in_seq. lia. }
  rewrite length_map, length_seq in Hl. unfold zlen. lia.
Qed.

Section batch.
  Context {S : Type} {TP : TaskPages S} (opts : KvOptions) (hash : bytes -> Z) {TL : TaskPagesLaws S opts}.
  Context (Hopts : valid_options opts) (Hiopts : valid_index_options opts) (K : Z) (HK0 : 0 <= K).
  Context (HK : index_keys_fit opts K) (HR : forall leaf, redistributes opts leaf K).

  Local Abbreviation Batch := (Batch (S := S)).
  Local Abbreviation eff := (eff opts).
  Local Abbreviation tree_pages := (tree_pages opts).
  Local Abbreviation standing := (standing opts K).

(** ** Writing the leaves in memory *)

(** Nothing waits in memory. *)
Definition settled (b : Batch) : Prop := triple0 b = None /\ triple1 b = None /\ triple2 b = None.

Lemma settled_ids b : settled b -> triple_ids b = [].
Proof. intros (H0 & H1 & H2). unfold triple_ids. rewrite H0, H1, H2. reflexivity. Qed.

Lemma settled_eff b q : settled b -> eff b q = tp_page (bt_store b) q.
Proof. intros Hs. apply eff_store. rewrite (settled_ids b Hs). intros []. Qed.

Lemma settled_memory b b' : same_memory b b' -> settled b -> settled b'.
Proof. intros (H0 & H1 & H2 & _) (G0 & G1 & G2). unfold settled. rewrite H0, H1, H2. auto. Qed.

Lemma tree_pages_settled b b' D os A B ids : tree_pages b D os A B ids -> task_inv opts b' D os -> same_pages opts D b b' -> settled b' ->
  tree_pages b' D os [] (A ++ B) ids.
Proof.
  intros [[_ G2 _ _ _ _] G7 G8 G9] Hinv Hs Hset. assert (Hc : chain opts (eff b') D (A ++ B)).
  { eapply chain_same; [|exact G2]. intros l Hl. pose proof (ch_held _ _ _ _ G2 l Hl) as HD. split; [exact (Hs _ HD)|exact HD]. }
  pose proof Hset as (H0 & H1 & H2). constructor; auto. constructor; auto.
  - left. exact H0.
  - intros l Hl. destruct (in_split _ _ Hl) as (l1 & l2 & Hl12). rewrite Hl12 in Hc. destruct (chain_at _ _ _ _ _ _ Hc) as (p & Hp & _).
    unfold stored. rewrite <- (settled_eff b' _ Hset), Hp. eauto.
Qed.

Lemma standing_settled b b' D os A B {h} top st H (pre rest N : list (bytes * tree h)) : standing b D os A B top st H pre rest N ->
  task_inv opts b' D os -> same_pages opts D b b' -> settled b' -> stack_ b' = stack_ b -> standing b' D os [] (A ++ B) top st H pre rest N.
Proof.
  intros [H1 H2 H3 H4 H5 H6 (M & H7 & H8)] Hinv Hs Hset Hst.
  assert (Hsame : forall q, In q (ho_own H :: below index_ids N ++ below index_ids rest ++ ho_ids H) -> same_page (eff b) (eff b') q).
  { intros q Hq. apply Hs. apply (tg_held _ _ _ _ _ _ _ H6). auto. }
  constructor; auto.
  - congruence.
  - apply (context_same K (eff b)); [exact H2|]. intros q Hq. apply Hsame. right. rewrite !in_app_iff. auto.
  - apply (level_same K (eff b)); [exact H3|]. intros q [<-|Hq]; apply Hsame; [left; reflexivity|right]. rewrite in_app_iff. auto.
  - apply (later_same K (eff b)); [exact H4|]. intros q Hq. apply Hsame. right. rewrite !in_app_iff. auto.
  - exact (tree_pages_settled _ _ _ _ _ _ _ H6 Hinv Hs Hset).
  - exists (A ++ M). rewrite H7, H8, <- app_assoc. split; reflexivity.
Qed.

(** The two calls of [ShiftLeafLink] at the end of [ApplyBatch]. *)
Lemma shift_all b D os A B : between_leaves opts b D os A B ->
  wp tp_fails (b ← ShiftLeafLink hash b; ShiftLeafLink hash b) (fun b' =>
    task_inv opts b' D os /\ same_pages opts D b b' /\ settled b' /\ stack_ b' = stack_ b).
Proof.
  intros [H1 H2 H3 H4 H5 H6].
  assert (Hlen : forall id p, triple0 b = Some (id, p) \/ triple1 b = Some (id, p) -> eff b id = Some p -> checksum_bytes <= zlen p).
  { intros id p Hp He. destruct H3 as [H3|(A' & a & p' & HA & H3)], H4 as [H4|(x & B' & p'' & HB & H4)]; destruct Hp as [Hp|Hp]; try congruence.
    - apply (leaf_length opts Hopts (eff b) D (A ++ B) x p H2); [rewrite HB, in_app_iff; cbn; auto|congruence].
    - apply (leaf_length opts Hopts (eff b) D (A ++ B) a p H2); [rewrite HA, !in_app_iff; cbn; auto|congruence].
    - apply (leaf_length opts Hopts (eff b) D (A ++ B) a p H2); [rewrite HA, !in_app_iff; cbn; auto|congruence].
    - apply (leaf_length opts Hopts (eff b) D (A ++ B) x p H2); [rewrite HB, in_app_iff; cbn; auto|congruence]. }
  pose proof (ti_nodup _ _ _ _ H1) as Hnd. unfold triple_ids in Hnd.
  eapply wp_bind_mono.
  { apply (Shift_spec opts hash b D os H1). intros id p Hp. apply (Hlen id p); [auto|]. unfold TaskSpec.eff. rewrite Hp. apply over_here. }
  intros b1 (I1 & S1 & _ & T0 & T1 & T2 & St1 & _). eapply wp_mono.
  { apply (Shift_spec opts hash b1 D os I1). intros id p Hp. rewrite T0 in Hp. apply (Hlen id p); [auto|]. unfold TaskSpec.eff.
    rewrite over_other; [rewrite Hp; apply over_here|]. intros Hin. apply nodup_app in Hnd as (_ & Hnd & _). apply (Hnd _ Hin). rewrite Hp. left. reflexivity. }
  intros b2 (I2 & S2 & _ & U0 & U1 & U2 & St2 & _). split; [exact I2|]. split; [exact (same_pages_trans _ _ _ _ _ S1 S2)|].
  split; [|congruence]. unfold settled. rewrite U0, U1, U2, T1, T2. auto.
Qed.

(** ** Roots *)

(** The trees [N] next to each other, with the leaves [ls], are all the pages. *)
Record forest (b : Batch) (D : gset Z) (os : list Outside) (ls : list Leaf) {h} (N : list (bytes * tree h)) : Prop := {
  fo_rep : Forall (fun c => irep K (eff b) (snd c)) N;
  fo_within : children_within within [] [] N;
  fo_short : Forall (fun c => zlen (fst c) <= K) N;
  fo_leaves : below leaves N = ls;
  fo_pages : tree_pages b D os [] ls (below index_ids N);
  fo_settled : settled b
}.

Lemma trees_ids {h} (N : list (bytes * tree h)) : (length N <= length (below index_ids N) + length (below leaves N))%nat.
Proof.
  induction N as [|[k c] N IH]; [cbn; lia|]. rewrite !below_cons, !length_app. cbn [length].
  assert (Hc : (1 <= length (index_ids c) + length (leaves c))%nat) by (destruct h; [cbn; lia|rewrite index_ids_node; cbn; lia]). lia.
Qed.

Lemma forest_bound b D os ls {h} (N : list (bytes * tree h)) : forest b D os ls N -> zlen N <= 2 ^ 31.
Proof.
  intros [_ _ _ H4 H5 _]. pose proof (trees_ids N) as Hl. rewrite H4 in Hl.
  assert (Hb : zlen (below index_ids N ++ map lf_id ([] ++ ls)) <= 2 ^ 31).
  { apply nodup_bound; [lia|exact (tg_nodup _ _ _ _ _ _ _ H5)|]. apply Forall_app_2; [exact (tg_range _ _ _ _ _ _ _ H5)|].
    apply List.Forall_map, List.Forall_forall. intros l Hin. exact (leaf_range _ _ _ _ _ _ _ l H5 Hin). }
  rewrite zlen_app in Hb. unfold zlen in *. rewrite length_map in Hb. cbn [app] in Hb. lia.
Qed.

Lemma pages_fit_le n m A B : (m <= n)%nat -> pages_fit opts n A B -> pages_fit opts m A B.
Proof using Type. unfold pages_fit. intros Hm Hf. pose proof (zlen_nonneg (A ++ B)). nia. Qed.

Lemma forest_room b D os ls {h} (N : list (bytes * tree h)) : forest b D os ls N -> pages_fit opts h [] ls ->
  room opts D (zlen ls) /\ zlen N <= zlen ls.
Proof using Type.
  intros [H1 _ _ H4 H5 _] Hfit. destruct (ireps_counts K _ N (irep_counts K _) H1) as [HN HI]. rewrite H4 in *. split; [|exact HN].
  unfold room, pages_fit in *. cbn [app] in Hfit. pose proof (size_list ∅ D (below index_ids N ++ map lf_id ls)) as Hs. rewrite size_empty in Hs.
  specialize (Hs ltac:(intros q Hq; right; rewrite in_app_iff; apply (tg_held _ _ _ _ _ _ _ H5), Hq)). rewrite zlen_app in Hs.
  assert (Hl : zlen (map lf_id ls) = zlen ls) by (unfold zlen; rewrite length_map; reflexivity). lia.
Qed.

(** The pages of a new root. *)
Lemma grown_pages b b' D D' os ls {h} (F : list (bytes * tree h)) leaf R Fs : tree_pages b D os [] ls (below index_ids F) -> settled b ->
  concat Fs = F -> children_of R Fs -> pages_built opts b D os leaf None b' D' R -> tree_pages b' D' os [] ls (below index_ids (nodes R Fs)).
Proof.
  intros [G1 G2 G3 G4] Hset HF Hc [P1 P2 P3 P4 P5 P6 P7 P8 P9 P10]. cbn [new_built] in P5, P6. pose proof (settled_memory _ _ P2 Hset) as Hset'.
  apply (tree_pages_perm opts b' D' os [] ls (map bu_id R ++ below index_ids F)); [rewrite (nodes_ids _ _ Hc), HF; reflexivity|].
  assert (Hnew : forall q, In q (map bu_id R) -> q ∉ D).
  { intros q Hq. apply in_map_iff in Hq as (g & <- & Hg). exact (P6 g Hg). }
  constructor.
  - apply (between_memory opts b b' D); auto.
    + intros q Hq. assert (HqD : q ∈ D) by (apply G2; auto). split; [apply P9; [exact HqD|discriminate]|apply P5; auto].
    + intros q Hq Hs. apply P5 in Hq as [Hq|Hq]; [exact (P10 q Hq Hs)|]. apply in_map_iff in Hq as (g & <- & Hg).
      rewrite List.Forall_forall in P3. destruct (P3 g Hg) as (page & Hpage & _). unfold stored. rewrite <- (settled_eff _ _ Hset'), Hpage. eauto.
  - intros q. rewrite P5, G2, in_app_iff. tauto.
  - rewrite <- app_assoc. apply nodup_app. split; [exact P7|]. split; [|exact G3]. intros q Hq Hin. apply (Hnew q Hq), G2.
    apply in_app_iff in Hin. exact Hin.
  - apply Forall_app_2; [apply List.Forall_map; exact P8|exact G4].
Qed.

Lemma upserts_pointers {h} (N : list (bytes * tree h)) : merge_ptrs [] (upserts_of N) = Some (map pointer_to N).
Proof. rewrite merge_ptrs_nil. f_equal. induction N as [|[k c] N IH]; [reflexivity|]. cbn. f_equal. exact IH. Qed.

(** A new root above the trees [N]. *)
Lemma Pop_root b D os ls {h} (N : list (bytes * tree h)) top : forest b D os ls N -> N <> [] -> stack_ b = [top] -> se_handle top = None ->
  se_changes top = upserts_of N -> is_leaf_index_ top = bool_decide (h = O) -> pages_fit opts h [] ls ->
  wp tp_fails (Pop opts hash b) (fun '(ref, b') => exists D' (N' : list (bytes * tree (Datatypes.S h))), forest b' D' os ls N' /\ N' <> [] /\
    (2 * length N' <= length N + 1)%nat /\ stack_ b' = told [] [] N' /\ option_map fst ref = root_ref N').
Proof.
  intros Hfo Hne Hst Hh Hch Hlf Hfit. destruct (forest_room _ _ _ _ _ Hfo Hfit) as [Hroom HN0]. destruct Hfo as [H1 H2 H3 H4 H5 H6].
  eapply wp_mono; [apply (Pop_spec opts hash Hiopts b D os top [] (bool_decide (h = O)) None (zlen ls)) with (K := K) (base := []) (M := map pointer_to N)|].
  - constructor; [exact (bl_inv _ _ _ _ _ _ (tg_between _ _ _ _ _ _ _ H5))|exact Hst|discriminate|reflexivity|exact Hroom].
  - exact HK.
  - apply HR.
  - rewrite Hch. destruct N; [congruence|discriminate].
  - unfold handle_entries. rewrite Hh. reflexivity.
  - rewrite Hch. apply upserts_pointers.
  - rewrite Hh. reflexivity.
  - symmetry. exact Hlf.
  - discriminate.
  - intros _. destruct N; [congruence|discriminate].
  - apply (child_in_range _ _ _ _ _ _ _ N H5); [auto|]. intros l Hl. rewrite H4 in Hl. exact Hl.
  - apply List.Forall_map. exact H3.
  - destruct N as [|c N]; [constructor|]. cbn [map tl]. rewrite map_map. exact (children_within_sorted _ _ _ _ _ H2).
  - unfold zlen at 1. rewrite length_map. exact HN0.
  - intros [ref b'] [(HM & _)|(_ & D' & R & HP & HH & Hst' & Href)]; [destruct N; [congruence|discriminate HM]|].
    destruct (built_children _ N R opts (eff b') _ HH (pb_pages _ _ _ _ _ _ _ _ _ HP)) as (Fs & HF & Hc).
    pose proof (hp_some _ _ _ HH) as HRne. pose proof (nodes_length _ _ Hc) as Hlen. exists D', (nodes R Fs).
    split; [constructor|split; [|split; [|split]]].
    + apply (nodes_irep K (eff b') opts R Fs Hc (pb_pages _ _ _ _ _ _ _ _ _ HP) HK0); rewrite HF; [exact H3|]. apply (ireps_same K (eff b)); [exact H1|].
      intros q Hq. apply same_page_eq. symmetry. apply (pb_frame _ _ _ _ _ _ _ _ _ HP); [|discriminate]. apply (tg_held _ _ _ _ _ _ _ H5). auto.
    + apply (nodes_within _ _ R Fs []); [rewrite HF; exact H2|exact Hc|exact (hp_keyed _ _ _ HH)].
    + apply (nodes_short K [] R Fs Hc (hp_keyed _ _ _ HH)); [change (zlen []) with 0; exact HK0|]. rewrite HF. exact H3.
    + rewrite (nodes_leaves _ _ Hc), HF. exact H4.
    + exact (grown_pages b b' D D' os ls N _ R Fs H5 H6 HF Hc HP).
    + exact (settled_memory _ _ (pb_memory _ _ _ _ _ _ _ _ _ HP) H6).
    + intros HN. rewrite HN in Hlen. destruct R; [congruence|discriminate Hlen].
    + rewrite Hlen. pose proof (hp_count _ _ _ HH) as Hcnt. rewrite length_map in Hcnt. exact Hcnt.
    + rewrite Hst'. exact (told_built [] R Fs Hc HRne).
    + rewrite Href. destruct R as [|g [|g2 R]]; [congruence| |]; destruct (nodes _ Fs) as [|[k t] [|y N']] eqn:EN; try discriminate Hlen; [|reflexivity].
      pose proof (nodes_pointers _ _ Hc) as Hptr. rewrite EN in Hptr. injection Hptr as _ Hid. cbn [root_ref]. f_equal. symmetry. exact Hid.
Qed.

(** The stack is empty: the page [root] is the root of all the pages. *)
Definition rooted (b : Batch) (D : gset Z) (os : list Outside) (ls : list Leaf) (root : option PageRef) : Prop :=
  stack_ b = [] /\ settled b /\
  match option_map fst root with
  | None => ls = [] /\ tree_pages b D os [] [] []
  | Some id => exists h k (t : tree (Datatypes.S h)), id = tree_id t /\ forest b D os ls [(k, t)]
  end.

Lemma pop_all_done fuel b root : stack_ b = [] -> pop_all opts hash fuel b root = Some (root, b).
Proof using Type. intros Hst. destruct fuel; cbn [pop_all]; rewrite Hst; reflexivity. Qed.

Lemma pop_all_step fuel b root top st : stack_ b = top :: st ->
  pop_all opts hash (Datatypes.S fuel) b root = ('(root, b) ← Pop opts hash b; pop_all opts hash fuel b root).
Proof using Type. intros Hst. cbn [pop_all]. rewrite Hst. reflexivity. Qed.

(** Roots above roots, until one page is left: every one has at most half as many
    pages as the one below, rounded up. *)
Lemma pop_grow os ls : forall f fuel h (N : list (bytes * tree (Datatypes.S h))) b D root, forest b D os ls N -> N <> [] -> stack_ b = told [] [] N ->
  zlen N <= 2 ^ Z.of_nat f -> (f <= fuel)%nat -> option_map fst root = root_ref N -> pages_fit opts (Datatypes.S h + f) [] ls ->
  wp tp_fails (pop_all opts hash fuel b root) (fun '(r, b') => exists D', rooted b' D' os ls r).
Proof.
  induction f as [|f IH]; intros fuel h N b D root Hf Hne Hst Hl Hfu Hr Hfit; (destruct N as [|[k t] [|c N]]; [congruence| |]).
  1, 3: rewrite (pop_all_done _ _ _ Hst); exists D; split; [exact Hst|]; split; [exact (fo_settled _ _ _ _ _ Hf)|]; rewrite Hr; exists h, k, t; auto.
  - rewrite !zlen_cons in Hl. change (2 ^ Z.of_nat 0) with 1 in Hl. pose proof (zlen_nonneg N). lia.
  - destruct fuel as [|fuel]; [lia|]. cbn [told] in Hst. rewrite (pop_all_step _ _ _ _ _ Hst).
    eapply wp_bind_mono; [apply (Pop_root b D os ls ((k, t) :: c :: N) _ Hf Hne Hst); try reflexivity; (eapply pages_fit_le; [|exact Hfit]; lia)|].
    intros [ref b'] (D' & N' & Hf' & Hne' & Hc & Hst' & Href). apply (IH fuel _ N' b' D' ref Hf' Hne' Hst'); [|lia|exact Href|eapply pages_fit_le; [|exact Hfit]; lia].
    assert (Hp : 2 ^ Z.of_nat (Datatypes.S f) = 2 * 2 ^ Z.of_nat f) by (rewrite Nat2Z.inj_succ; apply Z.pow_succ_r; lia).
    rewrite Hp in Hl. unfold zlen in *. lia.
Qed.

Lemma pop_all_spec os ls : forall st h top H (pre rest N : list (bytes * tree h)) b D fuel root, standing b D os [] ls top st H pre rest N -> settled b ->
  (length st + 32 <= fuel)%nat -> pages_fit opts (length st + Datatypes.S h + 31) [] ls -> wp tp_fails (pop_all opts hash fuel b root) (fun '(r, b') => exists D', rooted b' D' os ls r).
Proof.
  induction st as [|p st IH]; intros h top H pre rest N b D fuel root Hsd Hset Hf Hfit; (destruct fuel as [|fuel]; [lia|]);
    rewrite (pop_all_step _ _ _ _ _ (sd_stack _ _ _ _ _ _ _ _ _ _ _ _ _ Hsd));
    (eapply wp_bind_mono; [apply (Pop_tree opts hash Hiopts K HK HR b D os [] ls top _ H _ _ _ HK0 Hsd); eapply pages_fit_le; [|exact Hfit]; cbn [length]; lia|]); intros [ref b'] (D' & N' & ops & Hpo & Href).
  - destruct (sd_context _ _ _ _ _ _ _ _ _ _ _ _ _ Hsd) as [own HH]. destruct (sd_leaves _ _ _ _ _ _ _ _ _ _ _ _ _ Hsd) as (M & HM1 & HM2).
    destruct Hpo as [P1 P2 P3 P4 P5 P6 P7 P8 P9 P10 P11]. rewrite HH in *. cbn [ho_left ho_right ho_ids ho_lo ho_hi app] in *.
    assert (Hls : below leaves N' = ls) by (rewrite P6, below_app, HM1, HM2, app_nil_r; reflexivity). rewrite app_nil_r in P7.
    pose proof (settled_memory _ _ P11 Hset) as Hset'. destruct N' as [|c N'].
    + rewrite (pop_all_done fuel b' ref P10). exists D'. split; [exact P10|]. split; [exact Hset'|]. rewrite Href. cbn [root_ref].
      cbn in Hls. rewrite <- Hls in P7 |- *. auto.
    + assert (Hfo : forest b' D' os ls (c :: N')) by (constructor; auto). apply (pop_grow os ls 31 fuel h (c :: N') b' D' ref Hfo); [discriminate| | |lia|exact Href|exact Hfit].
      * rewrite P10. destruct N'; reflexivity.
      * exact (forest_bound _ _ _ _ _ Hfo).
  - destruct (pop_up _ _ _ _ _ _ _ _ _ _ _ _ _ _ _ _ _ _ Hsd Hpo) as (p' & H' & pre' & y & suf & N1 & Hsd' & _).
    apply (IH _ p' H' _ _ _ b' D' fuel ref Hsd'); [exact (settled_memory _ _ (po_memory _ _ _ _ _ _ _ _ _ _ _ _ _ Hpo) Hset)|cbn in Hf; lia|]. eapply pages_fit_le; [|exact Hfit]; cbn [length]; lia.
Qed.

(** ** Trees in the store *)

(** The task holds the pages [D] and the outside values [os], and the pages are
    those of a tree of height [n] under [root] with the leaves [ls]. *)
Inductive stored_tree (s : S) (D : gset Z) (os : list Outside) : nat -> Z -> list Leaf -> Prop :=
  | stored_empty : D ≡ ∅ -> tp_inv s D os -> stored_tree s D os O MaxPageId []
  | stored_node h (t : tree (Datatypes.S h)) : irep K (tp_page s) t -> within [] [] t -> chain opts (tp_page s) D (leaves t) ->
      (forall q, q ∈ D <-> In q (index_ids t) \/ In q (map lf_id (leaves t))) -> NoDup (index_ids t ++ map lf_id (leaves t)) ->
      Forall (fun q => 0 <= q < 2 ^ 31) (index_ids t) -> tp_inv s D os -> stored_tree s D os (Datatypes.S h) (tree_id t) (leaves t).

Lemma below_one {X Y} (f : X -> list Y) k c : below f [(k, c)] = f c.
Proof using Type. unfold below. cbn. apply app_nil_r. Qed.

(** A task that has not begun. *)
Definition bare (s : S) : Batch := mkBatch s [] None None None None.

Lemma rooted_stored b D os ls root : rooted b D os ls root ->
  exists n, stored_tree (bt_store b) D os n (match root with Some (id, _) => id | None => MaxPageId end) ls.
Proof using Type.
  intros (_ & Hset & Hr). destruct root as [[id p]|]; cbn [option_map fst] in Hr.
  - destruct Hr as (h & k & t & -> & [H1 H2 H3 <- H5 _]). exists (Datatypes.S h). rewrite !below_one in H5. rewrite below_one.
    pose proof H5 as [[G1 G2 _ _ _ _] G7 G8 G9]. cbn [app] in G2, G7, G8. apply Forall_cons_1 in H1 as [H1 _]. cbn [snd] in H1.
    assert (Hsame : forall q, same_page (eff b) (tp_page (bt_store b)) q) by (intros q; apply same_page_eq, settled_eff, Hset).
    constructor; auto.
    + apply (irep_same K (eff b)); auto.
    + eapply chain_same; [|exact G2]. intros l Hl. split; [auto|exact (ch_held _ _ _ _ G2 l Hl)].
    + exact (ti_store _ _ _ _ G1).
  - destruct Hr as [-> [[G1 _ _ _ _ _] G7 _ _]]. exists O. constructor; [|exact (ti_store _ _ _ _ G1)]. intros q. split; [intros Hq; apply G7 in Hq as [[]|[]]|intros Hq; apply elem_of_empty in Hq as []].
Qed.

Lemma stored_perm s D os os' n root ls : os ≡ₚ os' -> stored_tree s D os n root ls -> stored_tree s D os' n root ls.
Proof using Type. intros Hp Ht. destruct Ht; constructor; auto; eapply tp_inv_perm; eassumption. Qed.

(** ** The whole of [ApplyBatch] *)
  Context (Hptrs : 0 <= overflow_pointers opts).
  Context (enable_compression : bool) (compress_raw : bytes -> option bytes) (dict : option (bytes -> option bytes)) (now_ms : Z).
  Context (old : Entry -> bytes).

  Local Abbreviation fit_batch := (fit_batch opts hash K).
  Local Abbreviation merged_leaves := (merged_leaves K enable_compression compress_raw dict now_ms old).
  Local Abbreviation progress := (progress opts hash K enable_compression compress_raw dict now_ms old).

(** The batch was merged into the entries [E]. *)
Definition applied (E : list Entry) (batch : list WriteDataEntry) (ttl : TtlBatch) (F : list Outside) (r : Z * Batch * TtlBatch) : Prop :=
  let '(root, b, ttl') := r in
  exists D n ls Q ps evs, stored_tree (bt_store b) D (outs ps ++ F) n root ls /\ merged_leaves E batch ls Q ps /\
    ttl' = ttl_all ttl evs /\ sublist evs (merge_ttl now_ms E batch).

(** The end of [ApplyBatch]. *)
Definition close_batch (fuel : nat) (b : Batch) (ttl : TtlBatch) : option (Z * Batch * TtlBatch) :=
  match triple2 b with
  | Some _ => None
  | None =>
      b ← ShiftLeafLink hash b;
      b ← ShiftLeafLink hash b;
      '(root, b) ← pop_all opts hash fuel b None;
      Some (match root with Some (id, _) => id | None => MaxPageId end, b, ttl)
  end.

Lemma close_between b D os A B ttl fuel (Q : Z * Batch * TtlBatch -> Prop) : between_leaves opts b D os A B ->
  (forall b1, task_inv opts b1 D os -> same_pages opts D b b1 -> settled b1 -> stack_ b1 = stack_ b ->
    wp tp_fails (pop_all opts hash fuel b1 None) (fun '(r, b') => Q (match r with Some (id, _) => id | None => MaxPageId end, b', ttl))) ->
  wp tp_fails (close_batch fuel b ttl) Q.
Proof using Hopts.
  intros Hb Hpop. unfold close_batch. rewrite (bl_t2 _ _ _ _ _ _ Hb).
  assert (Hs : wp tp_fails (b2 ← (b ← ShiftLeafLink hash b; ShiftLeafLink hash b); '(root, b) ← pop_all opts hash fuel b2 None;
      Some (match root with Some (id, _) => id | None => MaxPageId end, b, ttl)) Q).
  { eapply wp_bind_mono; [exact (shift_all b D os A B Hb)|]. intros b1 (H1 & H2 & H3 & H4).
    eapply wp_bind_mono; [exact (Hpop b1 H1 H2 H3 H4)|]. intros [r b'] Hr. exact Hr. }
  destruct (ShiftLeafLink hash b); exact Hs.
Qed.

Lemma close_progress E0 batch0 ttl0 F n fuel b ttl D os A B E C Q ps evs : progress E0 batch0 ttl0 F n b ttl [] D os A B E C Q ps evs ->
  (n + 31 <= fuel)%nat -> batch_room opts n E0 batch0 -> wp tp_fails (close_batch fuel b ttl) (applied E0 batch0 ttl0 F).
Proof.
  intros Hpg Hf Hcap. destruct (progress_count _ _ _ _ _ _ _ _ _ _ _ _ _ _ _ _ _ _ _ _ _ _ _ _ _ Hpg) as [Hc1 _]. destruct Hpg as [P1 P2 P3 P4 P5 P6 P7 (h & top & st & H & pre & rest & N & Hsd & Hn) P9]. pose proof (sd_pages _ _ _ _ _ _ _ _ _ _ _ _ _ Hsd) as Hpages.
  apply (close_between b D os A B ttl fuel _ (tg_between _ _ _ _ _ _ _ Hpages)). intros b1 H1 H2 H3 H4.
  eapply wp_mono; [apply (pop_all_spec os (A ++ B) st h top H pre rest N b1 D fuel None); [|exact H3|lia|]|].
  { exact (standing_settled _ _ _ _ _ _ _ _ _ _ _ _ Hsd H1 H2 H3 H4). }
  { rewrite Hn. unfold pages_fit, batch_room in *. cbn [app]. etransitivity; [|exact Hcap]. pose proof (zlen_nonneg (A ++ B)).
    apply Z.mul_le_mono_nonneg; rewrite ?zlen_nil in Hc1; lia. }
  intros [r b'] (D' & Hr). destruct (rooted_stored _ _ _ _ _ Hr) as (n' & Ht).
  exists D', n', (A ++ B), (Q ++ map Kept (leaf_entries B)), (ps ++ map (base_pair old) (leaf_entries B)), evs. split; [|split; [|split; [exact P6|]]].
  - eapply stored_perm; [|exact Ht]. rewrite P5, outs_app, <- app_assoc. reflexivity.
  - rewrite P1, P2. apply merged_app; [exact P3|exact P4|]. apply (merged_untouched opts Hopts K enable_compression compress_raw dict now_ms old _ _ _ _ _ _ B Hpages);
      [intros l Hl; apply in_or_app; auto|exact (ri_keys _ _ _ _ _ P9)].
  - rewrite P1, P2, (merge_ttl_parts _ _ _ _ _ P3). apply sublist_inserts_r. exact P7.
Qed.

Lemma bare_inv s st D os : tp_inv s D os -> task_inv opts (with_stack (bare s) st) D os.
Proof using Type. intros Hi. constructor; [exact Hi|constructor|intros q []]. Qed.

(** The task at the root. *)
Lemma start_root s D os {h} (t : tree (Datatypes.S h)) : irep K (tp_page s) t -> within [] [] t -> chain opts (tp_page s) D (leaves t) ->
  (forall q, q ∈ D <-> In q (index_ids t) \/ In q (map lf_id (leaves t))) -> NoDup (index_ids t ++ map lf_id (leaves t)) ->
  Forall (fun q => 0 <= q < 2 ^ 31) (index_ids t) -> tp_inv s D os ->
  exists page e, tp_page s (tree_id t) = Some page /\ new_stack_entry (Some (tree_id t, page)) = Some e /\
    forall key, ready opts K (with_stack (bare s) [e]) D os [] (leaves t) (Datatypes.S h) key e [] (mkHole [] [] [] (tree_id t) [] [] []) [] (children t) [].
Proof using Type.
  intros Hi Hw Hc Hd Hnd Hr Hinv. pose proof Hi as Hi'. rewrite irep_node in Hi'. destruct Hi' as (page & c0 & cs & Hcs & Hp & Hpg & _).
  destruct (index_page_view _ _ _ _ Hpg) as (v & Hv & _). set (e := mkStackEntry (Some (tree_id t, page)) v fresh_index_cursor [] false).
  assert (He : new_stack_entry (Some (tree_id t, page)) = Some e) by (unfold new_stack_entry; rewrite Hv; reflexivity).
  destruct (level_fresh K (tp_page s) t [] [] page e Hi Hw Hp He) as (Hl & Hlat & Hcur & Hne).
  exists page, e. split; [exact Hp|]. split; [exact He|]. intros key.
  constructor; [constructor|exact Hcur|cbn; lia|exact Hne| |left; reflexivity].
  - reflexivity.
  - exists (tree_id t). reflexivity.
  - exact Hl.
  - exact Hlat.
  - right. split; reflexivity.
  - cbn [ho_own ho_ids below map concat app]. rewrite app_nil_r. rewrite index_ids_node in Hd, Hnd, Hr. constructor; [constructor|exact Hd|exact Hnd|exact Hr].
    + exact (bare_inv s [e] D os Hinv).
    + exact Hc.
    + left. reflexivity.
    + left. reflexivity.
    + reflexivity.
    + intros l Hl'. destruct (in_split _ _ Hl') as (l1 & l2 & Hl12). rewrite Hl12 in Hc. destruct (chain_at _ _ _ _ _ _ Hc) as (p & Hp' & _).
      unfold stored. change (is_Some (tp_page s (lf_id l))). rewrite Hp'. eauto.
  - exists []. cbn [ho_left ho_right below map concat app]. rewrite app_nil_r, leaves_node. split; reflexivity.
  - cbn [ho_lo]. rewrite Hcs. apply key_nil_le.
Qed.

Lemma merged_nothing : merged_leaves [] [] [] [] [].
Proof using Type. constructor; [reflexivity|constructor|reflexivity|constructor|reflexivity|intros i []]. Qed.

(** A batch for a tree that has pages. *)
Lemma apply_tree s D h (t : tree (Datatypes.S h)) ttl batch F fuel : 
  irep K (tp_page s) t -> within [] [] t -> chain opts (tp_page s) D (leaves t) ->
  (forall q, q ∈ D <-> In q (index_ids t) \/ In q (map lf_id (leaves t))) -> NoDup (index_ids t ++ map lf_id (leaves t)) ->
  Forall (fun q => 0 <= q < 2 ^ 31) (index_ids t) -> tp_inv s D (base_outs old (leaf_entries (leaves t)) ++ F) ->
  Forall (fun e => 0 < zlen (key_ e) <= K) (leaf_entries (leaves t)) -> fit_batch batch -> deletes_ok (leaf_entries (leaves t)) batch ->
  (Datatypes.S h + 31 <= fuel)%nat -> batch_room opts (Datatypes.S h) (leaf_entries (leaves t)) batch ->
  wp tp_fails (e ← (page ← tp_page s (tree_id t); new_stack_entry (Some (tree_id t, page)));
    '(b, ttl) ← apply_rounds opts hash enable_compression compress_raw dict now_ms (length batch) fuel (with_stack (bare s) [e]) ttl batch;
    close_batch fuel b ttl) (applied (leaf_entries (leaves t)) batch ttl F).
Proof.
  intros Hi Hw Hc Hd Hnd Hr Hinv Hk Hfit Hdel Hf Hcap.
  destruct (start_root s D _ t Hi Hw Hc Hd Hnd Hr Hinv) as (page & e & Hp & He & Hrd). rewrite Hp. cbn [mbind option_bind]. rewrite He. cbn [mbind option_bind].
  eapply wp_bind_mono.
  - apply (apply_rounds_spec opts hash Hopts Hiopts K HK0 HK HR Hptrs enable_compression compress_raw dict now_ms old
      (leaf_entries (leaves t)) batch ttl F (Datatypes.S h) fuel) with (D := D) (os := base_outs old (leaf_entries (leaves t)) ++ F) (A := []) (B := leaves t) (E := []) (C := [])
      (Q := []) (ps := []) (evs := []); [lia|exact Hcap|lia|]. constructor; auto.
    + intros x y [].
    + exact merged_nothing.
    + unfold placed_at, at_some, poised. destruct batch as [|w batch].
      * exists h, e, [], (mkHole [] [] [] (tree_id t) [] [] []), [], (children t), []. split; [exact (rd_standing _ _ _ _ _ _ _ _ _ _ _ _ _ _ _ (Hrd []))|reflexivity].
      * left. split; [reflexivity|]. exists h, e, [], (mkHole [] [] [] (tree_id t) [] [] []), [], (children t), []. apply Hrd.
    + constructor; assumption.
  - intros [b ttl1] (D' & os' & A' & B' & E' & C' & Q' & ps' & evs' & Hpg). exact (close_progress _ _ _ _ _ _ _ _ _ _ _ _ _ _ _ _ _ Hpg Hf Hcap).
Qed.

Lemma page_changes_all batch : page_changes [] batch = batch.
Proof using Type. induction batch as [|w batch IH]; [reflexivity|]. cbn [page_changes]. cbn [zlen length Z.of_nat Z.eqb orb]. rewrite IH. reflexivity. Qed.

(** The root that does not exist yet, above the leaves of the batch. *)
Definition new_root : IndexStackEntry := mark_leaf null_entry.

Lemma empty_start s D F n : tp_inv s D F -> room opts D n ->
  start_ok opts (with_stack (bare s) [new_root]) D [] [] None new_root [] [] [] K n /\
  started opts (with_stack (bare s) [new_root]) D [] [] None (with_stack (bare s) [new_root]) F.
Proof using HK0.
  intros Hi Hr. split.
  - constructor; try reflexivity; [left; reflexivity|exact HK0|discriminate|auto|exact Hr].
  - constructor; [|apply task_frame_refl|reflexivity|reflexivity]. split; [exact (bare_inv s _ D F Hi)|]. repeat split.
Qed.

Lemma leaves_pages (b : Batch) D0 D os es ns b1 : D0 ≡ ∅ -> leaf_done opts b1 D0 [] [] None new_root [] [] [] [] K b D os es ns ->
  tree_pages b D os (map snd ns) [] [].
Proof using Type.
  intros HD [L1 L2 L3 L4 L5 L6 L7 L8 L9]. constructor.
  - exact L1.
  - intros q. rewrite L7, app_nil_r, map_map. cbn [new_ones In]. split; [|intros [[]|Hq]; auto]. intros [[Hq _]|Hq]; [|auto].
    apply HD, elem_of_empty in Hq as [].
  - exact (ch_ids _ _ _ _ (bl_chain _ _ _ _ _ _ L1)).
  - constructor.
Qed.

(** The leaves of a first batch get a root. *)
Lemma close_first (b b0 : Batch) D0 D os es ns ttl fuel (Q : Z * Batch * TtlBatch -> Prop) : D0 ≡ ∅ ->
  leaf_done opts b0 D0 [] [] None new_root [] [] [] [] K b D os es ns -> (32 <= fuel)%nat -> 34 * (zlen es + 1) <= tp_capacity ->
  (forall b' D' n root, stored_tree (bt_store b') D' os n root (map snd ns) -> Q (root, b', ttl)) ->
  wp tp_fails (close_batch fuel b ttl) Q.
Proof.
  intros HD Hld Hf Hcap HQ. pose proof (leaves_pages _ _ _ _ _ _ _ HD Hld) as Hpages. destruct Hld as [L1 L2 L3 L4 L5 L6 L7 L8 L9].
  assert (Hfit : pages_fit opts 32 [] (map snd ns)).
  { pose proof (leaves_count _ _ _ _ _ _ _ Hpages) as Hl. rewrite app_nil_r, L2 in Hl. unfold pages_fit. cbn [app]. etransitivity; [|exact Hcap].
    apply Z.mul_le_mono_nonneg; [lia|lia|pose proof (zlen_nonneg (map snd ns)); lia|lia]. }
  apply (close_between b D os (map snd ns) [] ttl fuel Q L1). intros b1 H1 H2 H3 H4. rewrite L6 in H4. destruct fuel as [|fuel]; [lia|].
  pose proof (tree_pages_settled _ _ _ _ _ _ _ Hpages H1 H2 H3) as Hpages'. rewrite app_nil_r in Hpages'.
  rewrite (pop_all_step _ _ _ _ _ H4). destruct ns as [|c ns].
  - unfold Pop. rewrite H4. cbn [se_changes with_changes new_root mark_leaf null_entry app leaf_changes new_ones upserts map mbind option_bind se_handle].
    rewrite pop_all_done by (unfold pop_back; cbn [stack_ with_stack]; rewrite H4; reflexivity). cbn [wp].
    apply (HQ _ D O MaxPageId). constructor; [|exact (ti_store _ _ _ _ H1)]. intros q. rewrite (tg_held _ _ _ _ _ _ _ Hpages'). split; [intros [[]|[]]|].
    intros Hq. apply elem_of_empty in Hq as [].
  - assert (Hfo : forest b1 D os (map snd (c :: ns)) (h := O) (c :: ns)).
    { constructor; [apply List.Forall_forall; intros x _; exact I|exact L3|exact L4|exact (map_snd_leaves (c :: ns))| |exact H3].
      rewrite (below_leaf_ids (c :: ns)). exact Hpages'. }
    eapply wp_bind_mono; [apply (Pop_root b1 D os _ (h := O) (c :: ns) _ Hfo ltac:(discriminate) H4); try reflexivity; (eapply pages_fit_le; [|exact Hfit]; lia)|].
    intros [ref b'] (D' & N' & Hf' & Hne' & Hc & Hst' & Href).
    eapply wp_mono; [apply (pop_grow os _ 31 fuel _ N' b' D' ref Hf' Hne' Hst'); [exact (forest_bound _ _ _ _ _ Hf')|lia|exact Href|exact Hfit]|].
    intros [r b2] (D2 & Hr). destruct (rooted_stored _ _ _ _ _ Hr) as (n' & Ht). exact (HQ b2 D2 n' _ Ht).
Qed.

Lemma empty_between s st D F : D ≡ ∅ -> tp_inv s D F -> between_leaves opts (with_stack (bare s) st) D F [] [].
Proof using Type.
  intros HD Hi. constructor; [exact (bare_inv s st D F Hi)| |left; reflexivity|left; reflexivity|reflexivity|intros l []].
  constructor; [exact I|constructor|intros l []|intros l []].
Qed.

(** A batch for an empty tree. *)
Lemma apply_empty s D ttl batch F fuel : D ≡ ∅ -> tp_inv s D F -> fit_batch batch -> (32 <= fuel)%nat -> batch_room opts 0 [] batch ->
  wp tp_fails ('(b, ttl) ← apply_rounds opts hash enable_compression compress_raw dict now_ms (length batch) fuel (with_stack (bare s) [null_entry]) ttl batch;
    close_batch fuel b ttl) (applied [] batch ttl F).
Proof.
  intros HD Hi Hfit Hf Hcap. destruct batch as [|w batch].
  - cbn [apply_rounds length mbind option_bind]. apply (close_between _ D F [] [] ttl fuel); [exact (empty_between s _ D F HD Hi)|].
    intros b1 H1 H2 H3 H4. cbn [stack_ with_stack] in H4. destruct fuel as [|fuel]; [lia|]. rewrite (pop_all_step _ _ _ _ _ H4). unfold Pop. rewrite H4.
    cbn [se_changes null_entry mbind option_bind se_handle]. rewrite pop_all_done by (unfold pop_back; cbn [stack_ with_stack]; rewrite H4; reflexivity). cbn [wp].
    exists D, O, [], [], [], []. split; [constructor; [exact HD|exact (ti_store _ _ _ _ H1)]|]. split; [exact merged_nothing|]. split; [reflexivity|constructor].
  - cbn [length apply_rounds].
    assert (Hround : apply_round opts hash enable_compression compress_raw dict now_ms fuel (with_stack (bare s) [null_entry]) ttl (w :: batch) =
      ApplyToLeaf opts hash enable_compression compress_raw dict now_ms (with_stack (bare s) [new_root]) ttl (w :: batch)) by (destruct fuel; reflexivity).
    rewrite Hround. destruct (empty_start s D F (zlen (w :: batch)) Hi) as [Hso Hstd].
    { unfold room. rewrite HD, size_empty. unfold batch_room in Hcap. change (zlen []) with 0 in Hcap. pose proof (zlen_nonneg (w :: batch)). lia. }
    pose proof Hfit as [Hc Hs Hsh].
    assert (Hspec : wp tp_fails (ApplyToLeaf opts hash enable_compression compress_raw dict now_ms (with_stack (bare s) [new_root]) ttl (w :: batch)) (fun '(b', ttl', todo) =>
      ttl' = ttl_all ttl (merge_ttl now_ms [] (w :: batch)) /\ todo = [] /\
      exists ps D' ns, Forall2 (ApplySpec.stored enable_compression compress_raw dict old) (merge_items now_ms [] (w :: batch)) ps /\
        leaf_done opts (with_stack (bare s) [new_root]) D [] [] None new_root [] [] [] [] K b' D' (outs ps ++ F) (map stored_entry (map fst ps)) ns)).
    { eapply wp_mono; [apply (ApplyToLeaf_spec opts hash Hopts (with_stack (bare s) [new_root]) D [] [] None new_root [] [] [] [] K _ Hptrs
        enable_compression compress_raw dict now_ms old Hso ttl [] w batch F); rewrite ?page_changes_all; auto|].
      - split; [reflexivity|split; reflexivity].
      - split; [apply key_nil_le|left; reflexivity].
      - intros e c He. inversion He.
      - eapply Forall_impl; [|exact Hsh]. intros c Hcs. split; [|exact Hcs]. split; [apply key_nil_le|left; reflexivity].
      - change (zlen []) with 0. lia.
      - intros [[b' ttl'] todo] (Httl & Htodo & Hps). rewrite page_changes_all in *. rewrite drop_all in Htodo. auto. }
    destruct (ApplyToLeaf _ _ _ _ _ _ _ _ _) as [[[b1 ttl1] todo]|]; [|exact Hspec]. cbn [wp mbind option_bind] in *.
    destruct Hspec as (-> & -> & ps & D' & ns & Hps & Hld). assert (Hdone : forall rounds fuel b t, apply_rounds opts hash enable_compression compress_raw dict now_ms rounds fuel b t [] = Some (b, t))
      by (intros rounds; destruct rounds; reflexivity). rewrite Hdone. cbn [mbind option_bind].
    apply (close_first b1 _ D D' _ _ ns _ fuel _ HD Hld Hf).
    { pose proof (merge_items_count now_ms [] (w :: batch)) as Hmc. change (zlen []) with 0 in Hmc. unfold batch_room in Hcap. change (zlen []) with 0 in Hcap.
      unfold zlen in Hmc, Hcap |- *. rewrite !length_map. rewrite (Forall2_length Hps) in Hmc. lia. }
    intros b' D2 n root Ht. exists D2, n, (map snd ns), (merge_items now_ms [] (w :: batch)), ps, (merge_ttl now_ms [] (w :: batch)).
    split; [exact Ht|]. split; [|split; reflexivity]. apply (merged_round K enable_compression compress_raw dict now_ms old (mkLeaf 0 []) (w :: batch)); auto.
    + exact (lv_entries _ _ _ _ _ _ _ _ _ _ _ _ _ _ _ _ _ Hld).
    + constructor.
    + rewrite List.Forall_forall in Hc, Hsh |- *. intros c Hin. split; [exact (co_pos _ _ _ (Hc c Hin))|exact (Hsh c Hin)].
Qed.

(** The whole task: a batch turns the tree under [root] into a tree with the
    merged entries and nothing else. *)
Lemma ApplyBatch_spec s D n root ls ttl batch F fuel : stored_tree s D (base_outs old (leaf_entries ls) ++ F) n root ls ->
  Forall (fun e => 0 < zlen (key_ e) <= K) (leaf_entries ls) -> fit_batch batch -> deletes_ok (leaf_entries ls) batch ->
  do_update_ttl_ ttl && negb (is_nil (ttl_batch_ ttl)) = false -> (n + 32 <= fuel)%nat -> batch_room opts n (leaf_entries ls) batch ->
  wp tp_fails (ApplyBatch opts hash enable_compression compress_raw dict now_ms fuel (bare s) (tp_page s root) root ttl batch)
    (applied (leaf_entries ls) batch ttl F).
Proof.
  intros Ht Hk Hfit Hdel Httl Hf Hcap. unfold ApplyBatch. rewrite Httl. remember (base_outs old (leaf_entries ls) ++ F) as os eqn:Hos.
  destruct Ht as [HD Hi|h t H1 H2 H3 H4 H5 H6 H7]; subst os.
  - rewrite Z.eqb_refl. apply (apply_empty s D ttl batch F fuel HD Hi Hfit); [lia|exact Hcap].
  - assert (Hroot : tree_id t <> MaxPageId).
    { rewrite index_ids_node in H6. apply Forall_cons_1 in H6 as [H6 _]. unfold MaxPageId. lia. }
    rewrite (proj2 (Z.eqb_neq _ _) Hroot). apply (apply_tree s D h t ttl batch F fuel H1 H2 H3 H4 H5 H6 H7 Hk Hfit Hdel); [lia|exact Hcap].
Qed.
End batch.
