(* ===== verification/MemStore.v ===== *)
(** * A page layer in memory

    The smallest store on which a write task can run: its pages in a map, its
    outside values in a list.  It shows that the laws of TaskSpec can hold
    together, without failing operations, and runs the examples. *)

From stdpp Require Import gmap.
From S2P Require Import Prelude Coding Comparator PageFormat DataPage Regions DataPageIter IndexPageIter.
From S2P Require Import ApplyPage ApplySpec Tree BatchTask TaskSpec.

Record MemStore := mkMem { mem_pages : gmap Z bytes; mem_held : gset Z; mem_outside : ListTask }.

Definition empty_mem : MemStore := mkMem ∅ ∅ (mkListTask 0 []).

(** The first number that is not in a set. *)
Definition first_free (D : gset Z) : option Z := List.find (fun i => bool_decide (i ∉ D)) (map Z.of_nat (seq 0 (Datatypes.S (size D)))).

Lemma first_free_spec D : exists id, first_free D = Some id /\ id ∉ D /\ 0 <= id <= Z.of_nat (size D).
Proof.
  unfold first_free. set (l := map Z.of_nat (seq 0 (Datatypes.S (size D)))). destruct (List.find _ l) as [id|] eqn:Hf.
  - apply List.find_some in Hf as [Hin Hd]. exists id. split; [reflexivity|]. apply bool_decide_eq_true in Hd. split; [exact Hd|].
    apply in_map_iff in Hin as (n & <- & Hn). apply in_seq in Hn. lia.
  - exfalso. assert (Hsub : list_to_set l ⊆ D).
    { intros q Hq. apply elem_of_list_to_set, list_elem_of_In in Hq. pose proof (List.find_none _ _ Hf q Hq) as Hd.
      apply bool_decide_eq_false in Hd. destruct (decide (q ∈ D)); [assumption|contradiction]. }
    apply subseteq_size in Hsub. rewrite size_list_to_set in Hsub.
    + unfold l in Hsub. rewrite length_map, length_seq in Hsub. lia.
    + apply NoDup_fmap; [intros x y Hxy; lia|]. apply NoDup_ListNoDup, seq_NoDup.
Qed.

#[export] Instance mem_task_pages (opts : KvOptions) : TaskPages MemStore := {
  tp_load s id := mem_pages s !! id;
  tp_alloc s := Some (replicate (Z.to_nat (data_page_size opts)) 0);
  tp_get_page s := id ← first_free (mem_held s); Some (id, mkMem (mem_pages s) ({[id]} ∪ mem_held s) (mem_outside s));
  tp_write_page s id page := Some (mkMem (<[id := page]> (mem_pages s)) (mem_held s) (mem_outside s));
  tp_free_page s id := Some (mkMem (delete id (mem_pages s)) (mem_held s ∖ {[id]}) (mem_outside s));
  tp_write_overflow s v := '(ptrs, t) ← pt_write_overflow (mem_outside s) v; Some (ptrs, mkMem (mem_pages s) (mem_held s) t);
  tp_del_overflow s ptrs := t ← pt_del_overflow (mem_outside s) ptrs; Some (mkMem (mem_pages s) (mem_held s) t);
  tp_write_large s w := '(c, t) ← pt_write_large (mem_outside s) w; Some (c, mkMem (mem_pages s) (mem_held s) t);
  tp_del_large s c := t ← pt_del_large (mem_outside s) c; Some (mkMem (mem_pages s) (mem_held s) t)
}.

Definition mem_inv (s : MemStore) (D : gset Z) (os : list Outside) : Prop := mem_held s = D /\ lt_owns (mem_outside s) os.

#[export] Instance mem_task_laws (opts : KvOptions) (Hps : 0 <= data_page_size opts) (Hop : 1 <= overflow_pointers opts) :
  TaskPagesLaws MemStore opts (H := mem_task_pages opts).
Proof.
  refine {| tp_fails := False; tp_capacity := 2 ^ 31; tp_page := fun s id => mem_pages s !! id; tp_inv := mem_inv |}; unfold mem_inv.
  - intros s D os os' Hp [HD (Ho & Hr)]. split; [exact HD|]. split; [rewrite Ho; exact Hp|exact Hr].
  - intros s D os id page _ _ Hp. cbn. rewrite Hp. reflexivity.
  - intros s D os _. cbn. unfold zlen. rewrite length_replicate. lia.
  - intros s D os [HD Ho] Hr. cbn [tp_get_page mem_task_pages]. rewrite HD. destruct (first_free_spec D) as (id & -> & Hid & Hle). cbn [mbind option_bind wp]. split; [exact Hid|]. split; [lia|].
    split; [split; [reflexivity|exact Ho]|]. reflexivity.
  - intros s D os id page [HD Ho] Hid. cbn. split; [split; assumption|]. split; [apply lookup_insert_eq|]. intros q _ Hq. apply lookup_insert_ne. congruence.
  - intros s D os id [HD Ho] Hid _. cbn. split; [split; [rewrite HD; reflexivity|exact Ho]|]. intros q _ Hq. apply lookup_delete_ne. congruence.
  - intros s D os v [HD Ho]. cbn. split; [|reflexivity]. split; [exact HD|]. apply lt_put_owns; auto.
  - intros s v ptrs s'. cbn. intros [= <- _]. change (zlen [lt_next (mem_outside s)]) with 1. lia.
  - intros s D os ptrs v [HD Ho]. cbn. split; [|reflexivity]. split; [exact HD|]. exact (lt_del_owns _ os (OutOverflow ptrs v) Ho).
  - intros s D os w v [HD Ho] Hw. cbn. rewrite Hw. cbn. split; [|reflexivity]. split; [exact HD|]. apply lt_put_owns; auto.
  - intros s D os content v [HD Ho]. cbn. split; [|reflexivity]. split; [exact HD|]. exact (lt_del_owns _ os (OutLarge content v) Ho).
Defined.
