(* ===== verification/BatchRead.v ===== *)
(** * Reading after a batch

    What [ApplyBatch] leaves is a partition for the readers of ReadSpec and
    ScanSpec, and a read after a batch finds what the batch made of its key. *)

From stdpp Require Import gmap sorting.
From S2P Require Import Prelude Coding Comparator PageFormat DataPage Regions DataPageIter RegionCopy IndexPage IndexPageIter.
From S2P Require Import PageIo Overflow LargeValue FileNames Branch Manifest ApplyPage ApplySpec Tree ReadPath ReadSpec ScanPath ScanSpec.
From S2P Require Import BatchTask IndexStack ApplyBatch TaskSpec LeafSpec MergeSim LeafMerge RebuildSpec Balance TreeZip StackSpec RoundSpec BatchSpec MemStore.

(** ** Trees of a task as partitions *)
Lemma tree_ids_split {h} : forall t : tree h, tree_ids t ≡ₚ index_ids t ++ map lf_id (leaves t).
Proof.
  induction h as [|h IH]; intros t; [reflexivity|]. rewrite index_ids_node, leaves_node.
  change (tree_ids t) with (tree_id t :: below tree_ids (children t)). cbn [app]. apply Permutation_skip.
  induction (children t) as [|[k c] cs IHc]; [reflexivity|]. rewrite !below_cons, map_app, (IH c), IHc, <- !app_assoc.
  apply Permutation_app_head. rewrite !app_assoc. apply Permutation_app_tail, Permutation_app_comm.
Qed.

Lemma rep_more get get' {h} : (forall id page, get id = Some page -> get' id = Some page) -> forall t : tree h, rep get t -> rep get' t.
Proof.
  intros Hg. induction h as [|h IH]; intros t.
  - intros (page & Hp & Hd). exists page. auto.
  - intros (page & c0 & cs & H1 & H2 & H3 & H4). exists page, c0, cs. split; [exact H1|]. split; [auto|]. split; [exact H3|].
    eapply Forall_impl; [|exact H4]. intros c. apply IH.
Qed.

Lemma linked_more get get' ls : (forall id page, get id = Some page -> get' id = Some page) -> forall prev, linked get prev ls -> linked get' prev ls.
Proof.
  intros Hg. induction ls as [|l ls IH]; intros prev; [auto|]. intros [(page & Hp & Hl) H]. split; [exists page; auto|auto].
Qed.

Lemma partition_more get get' n root ls : (forall id page, get id = Some page -> get' id = Some page) ->
  partition get n root ls -> partition get' n root ls.
Proof.
  intros Hg [|h t H1 H2 H3 H4 H5]; constructor; auto; [exact (rep_more _ _ Hg t H1)|exact (linked_more _ _ _ Hg _ H3)].
Qed.

Section reads.
  Context {S : Type} {TP : TaskPages S} (opts : KvOptions) {TL : TaskPagesLaws S opts} (K : Z).

Lemma stored_partition s D os n root ls : stored_tree opts K s D os n root ls -> partition (tp_page s) n root ls.
Proof.
  intros [HD Hi|h t H1 H2 H3 H4 H5 H6 H7]; [constructor|]. constructor; auto.
  - apply (rep_split K). split; [exact H1|]. apply List.Forall_forall. intros l Hl.
    destruct (seg_leaves _ _ _ _ _ l (ch_seg _ _ _ _ H3) Hl) as (p & q & page & Hp & Hd & _). exists page. auto.
  - exact (seg_linked _ _ _ _ (ch_seg _ _ _ _ H3)).
  - rewrite tree_ids_split. exact H5.
  - rewrite index_ids_node in H6. apply Forall_cons_1 in H6 as [H6 _]. unfold MaxPageId. lia.
Qed.

(** The pages of a task, as a reader loads them. *)
Definition loads (s : S) (load : Z -> KvError * bytes) : Prop := forall id page, tp_page s id = Some page -> load id = (NoError, page).

Lemma stored_reads s D os n root ls load : stored_tree opts K s D os n root ls -> loads s load -> partition (ReadSpec.good load) n root ls.
Proof.
  intros Ht Hl. apply (partition_more (tp_page s)); [|exact (stored_partition _ _ _ _ _ _ Ht)].
  intros id page Hp. unfold ReadSpec.good. rewrite (Hl id page Hp). reflexivity.
Qed.

Lemma partition_wf get n root ls : partition get n root ls -> Forall wf_entry (leaf_entries ls).
Proof.
  intros [|h t H1 _ _ _ _]; [constructor|]. apply List.Forall_concat, List.Forall_map, List.Forall_forall. intros l Hl.
  pose proof (leaf_pages _ t H1) as Hpg. rewrite List.Forall_forall in Hpg. destruct (Hpg l Hl) as (page & _ & _ & _ & rs & _ & <- & Hwf & _).
  apply List.Forall_concat. exact Hwf.
Qed.

(** Two partitions with the same entry of a key, or both without one, answer a
    lookup of the key alike, when the handlers treat the entry alike. *)
Lemma Locate_alike {A} load load' n n' root root' ls ls' key fuel fuel' (handler handler' : Entry -> option (KvError * A)) :
  partition (ReadSpec.good load) n root ls -> (n <= fuel)%nat -> partition (ReadSpec.good load') n' root' ls' -> (n' <= fuel')%nat ->
  (forall e, key_ e = key -> e ∈ leaf_entries ls <-> e ∈ leaf_entries ls') ->
  (forall e, key_ e = key -> e ∈ leaf_entries ls -> handler e = handler' e) ->
  LocateAndProcess load fuel (NoError, root) key handler = LocateAndProcess load' fuel' (NoError, root') key handler'.
Proof using Type.
  intros Hp Hf Hp' Hf' Hsame Hh. destruct (decide (Exists (fun e => key_ e = key) (leaf_entries ls))) as [Hex|Hno].
  - apply list.Exists_exists in Hex as (e & He & Hk). rewrite (Locate_hit load n root ls key fuel _ e Hp Hf He Hk).
    rewrite (Locate_hit load' n' root' ls' key fuel' _ e Hp' Hf' (proj1 (Hsame e Hk) He) Hk), (Hh e Hk He). reflexivity.
  - assert (Hn : forall e, e ∈ leaf_entries ls -> key_ e <> key) by (intros e He Hk; apply Hno, list.Exists_exists; eauto).
    rewrite (Locate_miss load n root ls key fuel _ Hp Hf Hn), (Locate_miss load' n' root' ls' key fuel' _ Hp' Hf'); [reflexivity|].
    intros e He Hk. apply (Hn e); [apply Hsame; assumption|exact Hk].
Qed.

Lemma stored_tree_inv s D os n root ls : stored_tree opts K s D os n root ls -> tp_inv s D os.
Proof. intros []; assumption. Qed.
End reads.

(** ** What a batch makes of the entries *)
Section merged.
  Context (enable_compression : bool) (compress_raw : bytes -> option bytes) (dict : option (bytes -> option bytes)) (now_ms : Z).

(** The entry [e] is what the change [w] writes: a very large value and a value
    that does not fit the page are among the outside values [os], another value is
    in the entry, compressed if that is enabled. *)
Definition written (os : list Outside) (w : WriteDataEntry) (e : Entry) : Prop :=
  key_ e = w_key w /\ timestamp_ e = ClampTimestampToInt64 (w_ts w) /\ expire_ts_ e = w_expire w /\
  match w_large w with
  | Some v => large_value_ e = true /\ overflow_ e = false /\ OutLarge (value_ e) v ∈ os
  | None => large_value_ e = false /\ compression_type_ e = snd (prepared enable_compression compress_raw dict w) /\
            if overflow_ e then OutOverflow (value_ e) (fst (prepared enable_compression compress_raw dict w)) ∈ os
            else value_ e = fst (prepared enable_compression compress_raw dict w)
  end.

(** The entries [E'] with the outside values [os] are what survives of [E] and
    [batch]; the outside value of an entry [e] of [E] is [old e].  Expired entries
    of other keys may stay. *)
Record batch_outcome (old : Entry -> bytes) (E : list Entry) (batch : list WriteDataEntry) (E' : list Entry) (os : list Outside) : Prop := {
  mg_kept e : survives now_ms E batch (Kept e) -> e ∈ E' /\ forall o, o ∈ out_of (base_pair old e) -> o ∈ os;
  mg_new w : survives now_ms E batch (New w) -> exists e, e ∈ E' /\ written os w e;
  mg_only e : e ∈ E' -> survives now_ms E batch (Kept e) \/ (exists w, survives now_ms E batch (New w) /\ written os w e) \/
    (e ∈ E /\ Expired now_ms (expire_ts_ e) = true /\ key_ e ∉ map w_key batch)
}.

Lemma outs_in (ps : list (AddArgs * bytes)) p o : p ∈ ps -> o ∈ out_of p -> o ∈ outs ps.
Proof using Type.
  intros (a & b & ->)%list_elem_of_split Ho. rewrite outs_app. apply elem_of_app. right. unfold outs. cbn [map concat].
  apply elem_of_app. left. exact Ho.
Qed.

Lemma stored_written old w ps p : p ∈ ps -> ApplySpec.stored enable_compression compress_raw dict old (New w) p ->
  written (outs ps) w (stored_entry (fst p)).
Proof.
  intros Hp (H1 & H2 & H3 & H4). pose proof (fun o => outs_in ps p o Hp) as Hin. destruct p as [a v]. cbn [fst snd out_of] in *.
  unfold written, stored_entry, added_entry. cbn [key_ timestamp_ expire_ts_ large_value_ overflow_ value_ compression_type_].
  rewrite H1, H2, H3. repeat (split; [reflexivity|]). destruct (w_large w) as [x|].
  - destruct H4 as (G1 & G2 & G3 & ->). rewrite G1, G2 in *. split; [reflexivity|]. split; [reflexivity|]. apply Hin. left.
  - destruct H4 as (G1 & G2 & -> & G4). rewrite G1. split; [reflexivity|]. split; [exact G2|].
    destruct (a_overflow a); [apply Hin; left|exact (G4 eq_refl)].
Qed.

Lemma written_more os os' w e : (forall o, o ∈ os -> o ∈ os') -> written os w e -> written os' w e.
Proof.
  intros Hos (H1 & H2 & H3 & H4). split; [exact H1|]. split; [exact H2|]. split; [exact H3|]. destruct (w_large w).
  - destruct H4 as (G1 & G2 & G3). auto.
  - destruct H4 as (G1 & G2 & G3). split; [exact G1|]. split; [exact G2|]. destruct (overflow_ e); auto.
Qed.

Lemma merged_entries K old E batch ls Q ps F : keys_sorted (map key_ E) -> keys_sorted (map w_key batch) -> Forall wf_entry E ->
  merged_leaves K enable_compression compress_raw dict now_ms old E batch ls Q ps ->
  batch_outcome old E batch (leaf_entries ls) (outs ps ++ F).
Proof.
  intros HE Hb Hwf [H1 H2 H3 H4 _ H5]. destruct (merge_items_ok now_ms E batch HE Hb) as [_ Hin]. rewrite <- H3 in Hin.
  assert (Hq : forall i, survives now_ms E batch i <-> In i Q /\ live_item now_ms i = true)
    by (intros i; rewrite <- Hin, list_elem_of_In, List.filter_In; reflexivity).
  rewrite list.Forall_forall in Hwf. rewrite H1, map_map.
  assert (Hkept : forall e, e ∈ E -> stored_entry (fst (base_pair old e)) = e) by (intros e He; apply stored_entry_args, Hwf, He).
  assert (HF : forall o, o ∈ outs ps -> o ∈ outs ps ++ F) by (intros o Ho; apply elem_of_app; left; exact Ho).
  assert (Hp : forall i, survives now_ms E batch i -> exists p, p ∈ ps /\ ApplySpec.stored enable_compression compress_raw dict old i p).
  { intros i Hs. apply Hq in Hs as [Hs _]. apply list_elem_of_In, list_elem_of_lookup in Hs as (k & Hk).
    destruct (Forall2_lookup_l _ _ _ _ _ H2 Hk) as (p & Hp & Hst). exists p. split; [apply list_elem_of_lookup; eauto|exact Hst]. }
  constructor.
  - intros e Hs. destruct (Hp _ Hs) as (p & Hin' & ->). split; [|intros o Ho; apply HF, (outs_in ps _ o Hin' Ho)].
    rewrite <- (Hkept e (proj1 Hs)). exact (list_elem_of_fmap_2 (fun p => stored_entry (fst p)) _ _ Hin').
  - intros w Hs. destruct (Hp _ Hs) as (p & Hin' & Hst). exists (stored_entry (fst p)).
    split; [exact (list_elem_of_fmap_2 (fun p => stored_entry (fst p)) _ _ Hin')|exact (written_more _ _ _ _ HF (stored_written _ _ _ _ Hin' Hst))].
  - intros e (p & -> & Hin')%list_elem_of_fmap. pose proof Hin' as (k & Hk)%list_elem_of_lookup.
    destruct (Forall2_lookup_r _ _ _ _ _ H2 Hk) as (i & Hi & Hst). assert (HiQ : In i Q) by (apply list_elem_of_In, list_elem_of_lookup; eauto).
    destruct (live_item now_ms i) eqn:Hl.
    + assert (Hs : survives now_ms E batch i) by (apply Hq; auto). destruct i as [e|w].
      * left. pose proof Hs as [He _]. cbn in Hst. subst p. rewrite (Hkept e He). exact Hs.
      * right; left. exists w. split; [exact Hs|exact (written_more _ _ _ _ HF (stored_written _ _ _ _ Hin' Hst))].
    + right; right. destruct (H5 i HiQ Hl) as (e & -> & He & Hn). apply list_elem_of_In in He. cbn in Hst, Hl. subst p. rewrite (Hkept e He).
      split; [exact He|]. split; [destruct (Expired now_ms (expire_ts_ e)); [reflexivity|discriminate]|]. rewrite list_elem_of_In. exact Hn.
Qed.
End merged.

Lemma sorted_same {A} (f : A -> bytes) l x y : keys_sorted (map f l) -> x ∈ l -> y ∈ l -> f x = f y -> x = y.
Proof.
  induction l as [|z l IH]; intros Hs Hx Hy Hf; [inversion Hx|]. cbn [map] in Hs. apply StronglySorted_inv in Hs as [Hs Hz].
  rewrite List.Forall_map, list.Forall_forall in Hz. apply elem_of_cons in Hx as [->|Hx], Hy as [->|Hy]; auto.
  - specialize (Hz y Hy). rewrite Hf in Hz. destruct (key_lt_irrefl _ Hz).
  - specialize (Hz x Hx). rewrite Hf in Hz. destruct (key_lt_irrefl _ Hz).
Qed.

(** ** Keys after a batch *)
Section keys.
  Context (enable_compression : bool) (compress_raw : bytes -> option bytes) (dict : option (bytes -> option bytes)) (now_ms : Z).
  Context (old : Entry -> bytes) (E E' : list Entry) (batch : list WriteDataEntry) (os : list Outside) (HE : keys_sorted (map key_ E)) (Hb : keys_sorted (map w_key batch)).
  Context (Hm : batch_outcome enable_compression compress_raw dict now_ms old E batch E' os).

(** No change of the key is as new as its entry, and the entry did not expire. *)
Definition unaffected (key : bytes) : Prop :=
  (forall w, w ∈ batch -> w_key w = key -> exists e, e ∈ E /\ key_ e = key /\ w_ts w < timestamp_ e) /\
  (forall e, e ∈ E -> key_ e = key -> Expired now_ms (expire_ts_ e) = false).

(** The change [w] is at least as new as the entry of its key. *)
Definition wins (w : WriteDataEntry) : Prop :=
  w ∈ batch /\ forall e, e ∈ E -> key_ e = w_key w -> timestamp_ e <= w_ts w.

Lemma unaffected_kept key e : unaffected key -> key_ e = key -> e ∈ E -> survives now_ms E batch (Kept e).
Proof.
  intros [Hold Hex] Hk He. split; [exact He|]. split; [exact (Hex e He Hk)|]. intros w Hw Hwk.
  destruct (Hold w Hw ltac:(congruence)) as (e' & He' & Hk' & Hlt). rewrite (sorted_same key_ E e e' HE He He'); [exact Hlt|congruence].
Qed.

Lemma unaffected_same key e : unaffected key -> key_ e = key -> e ∈ E <-> e ∈ E'.
Proof.
  intros Hu Hk. split; [intros He; exact (proj1 (mg_kept _ _ _ _ _ _ _ _ _ Hm e (unaffected_kept key e Hu Hk He)))|].
  intros He. destruct (mg_only _ _ _ _ _ _ _ _ _ Hm e He) as [[Hs _]|[(w & (Hw & _ & _ & Hnew) & Hwr & _)|[Hs _]]]; auto.
  destruct (proj1 Hu w Hw ltac:(congruence)) as (e' & He' & Hk' & Hlt). specialize (Hnew e' He' ltac:(congruence)). lia.
Qed.

Lemma wins_stored w : wins w -> w_op w = Upsert -> Expired now_ms (w_expire w) = false ->
  exists e, e ∈ E' /\ written enable_compression compress_raw dict os w e.
Proof. intros [Hw Hn] Hop Hx. apply (mg_new _ _ _ _ _ _ _ _ _ Hm). split; auto. Qed.

Lemma wins_gone w e : wins w -> w_op w = Delete \/ Expired now_ms (w_expire w) = true -> e ∈ E' -> key_ e <> w_key w.
Proof.
  intros [Hw Hn] Hop He Hk. destruct (mg_only _ _ _ _ _ _ _ _ _ Hm e He) as [(Hs & _ & Hlt)|[(w' & (Hw' & Hu & Hx & _) & Hwr & _)|(_ & _ & Hs)]].
  - specialize (Hlt w Hw ltac:(congruence)). specialize (Hn e Hs Hk). lia.
  - assert (w' = w) as -> by (apply (sorted_same w_key batch w' w Hb Hw' Hw); congruence). destruct Hop; congruence.
  - apply Hs. rewrite Hk. apply list_elem_of_In, in_map, list_elem_of_In. exact Hw.
Qed.

(** No entry has both a value in overflow pages and a very large value. *)
Definition one_kind (e : Entry) : Prop := overflow_ e = false \/ large_value_ e = false.

Lemma outcome_one_kind : Forall one_kind E -> Forall one_kind E'.
Proof.
  rewrite !list.Forall_forall. intros HE1 e He.
  destruct (mg_only _ _ _ _ _ _ _ _ _ Hm e He) as [[Hs _]|[(w & _ & _ & _ & _ & Hw)|[Hs _]]]; auto.
  destruct (w_large w); [left; apply Hw|right; apply Hw].
Qed.
End keys.

(** ** Reading outside values *)

(** What the readers of overflow values and of very large values return for the
    outside values [os] of a partition. *)
Record reads_outside (os : list Outside) (get_overflow : bytes -> option bytes) (get_large : bytes -> option (KvError * bytes)) : Prop := {
  ro_overflow ptrs v : OutOverflow ptrs v ∈ os -> get_overflow ptrs = Some v;
  ro_large content v : OutLarge content v ∈ os -> get_large content = Some (NoError, v)
}.

(** The decompressors undo the compressors. *)
Record decompresses (compress_raw : bytes -> option bytes) (dict : option (bytes -> option bytes))
    (decompress_dict decompress_raw : bytes -> option bytes) : Prop := {
  dc_raw v z : compress_raw v = Some z -> decompress_raw z = Some v;
  dc_dict v z : (compress ← dict; compress v) = Some z -> decompress_dict z = Some v
}.

Section outside.
  Context (enable_compression : bool) (compress_raw : bytes -> option bytes) (dict : option (bytes -> option bytes)).
  Context (segment_size : Z) (decompress_dict decompress_raw : bytes -> option bytes).
  Context (Hdc : decompresses compress_raw dict decompress_dict decompress_raw).

  Local Abbreviation resolve get_overflow := (ResolveValueOrMetadata segment_size get_overflow decompress_dict decompress_raw).

(** The value that [written] describes resolves to the value of the change. *)
Lemma written_resolves os get_overflow get_large w e meta :
  reads_outside os get_overflow get_large -> written enable_compression compress_raw dict os w e -> w_large w = None ->
  large_value_ e = false /\ resolve get_overflow e meta = Some (NoError, w_val w).
Proof.
  intros Hr (_ & _ & _ & Hw) Hl. rewrite Hl in Hw. destruct Hw as (H1 & H2 & H3). split; [exact H1|]. unfold ResolveValueOrMetadata. rewrite H1.
  assert (Hraw : (if overflow_ e then get_overflow (value_ e) else Some (value_ e)) = Some (fst (prepared enable_compression compress_raw dict w))).
  { destruct (overflow_ e); [exact (ro_overflow _ _ _ Hr _ _ H3)|rewrite H3; reflexivity]. }
  rewrite Hraw. cbn [mbind option_bind]. rewrite H2. clear H2 H3 Hraw. unfold prepared, Prepare.
  destruct enable_compression; [|reflexivity]. destruct (_ <? _); [reflexivity|]. destruct (_ <? _).
  - destruct (compress_raw (w_val w)) as [z|] eqn:Hz; [|reflexivity]. cbn [fst snd]. rewrite (dc_raw _ _ _ _ Hdc _ _ Hz). reflexivity.
  - destruct (compress ← dict; compress (w_val w)) as [z|] eqn:Hz; [|reflexivity]. cbn [fst snd]. rewrite (dc_dict _ _ _ _ Hdc _ _ Hz). reflexivity.
Qed.

(** Two readers agree on an entry whose outside value both have. *)
Lemma kept_resolves os os' get_overflow get_large get_overflow' get_large' old e meta :
  reads_outside os get_overflow get_large -> reads_outside os' get_overflow' get_large' -> one_kind e ->
  (forall o, o ∈ out_of (base_pair old e) -> o ∈ os /\ o ∈ os') ->
  resolve get_overflow' e meta = resolve get_overflow e meta /\ (large_value_ e = true -> get_large' (value_ e) = get_large (value_ e)).
Proof using Type.
  intros Hr Hr' Hk Ho. unfold ResolveValueOrMetadata, base_pair, out_of in *. cbn [entry_args a_overflow a_large a_value] in Ho.
  destruct Hk as [Hk|Hk]; rewrite Hk in *.
  - split; [reflexivity|]. intros Hl. rewrite Hl in Ho. destruct (Ho _ ltac:(left)) as [H1 H2].
    rewrite (ro_large _ _ _ Hr _ _ H1), (ro_large _ _ _ Hr' _ _ H2). reflexivity.
  - split; [|discriminate]. destruct (overflow_ e); [|reflexivity]. destruct (Ho _ ltac:(left)) as [H1 H2].
    rewrite (ro_overflow _ _ _ Hr _ _ H1), (ro_overflow _ _ _ Hr' _ _ H2). reflexivity.
Qed.
End outside.

(** ** The task *)

(** Options under which keys of at most [K] bytes fit the index pages, also those
    that are rebalanced. *)
Record batch_options (opts : KvOptions) (K : Z) : Prop := {
  bo_data : valid_options opts;
  bo_index : valid_index_options opts;
  bo_key : 0 <= K;
  bo_keys : index_keys_fit opts K;
  bo_balance : balance_fits opts K;
  bo_overflow : 0 <= overflow_pointers opts
}.

(** A write task stands before [ApplyBatch]: it holds the pages [D] of a tree with
    the leaves [ls], the outside values of its entries and the others [F]. *)
Record before_batch {S} {TP : TaskPages S} (opts : KvOptions) {TL : TaskPagesLaws S opts} (hash : bytes -> Z) (K : Z) (old : Entry -> bytes)
    (s : S) (D : gset Z) (n : nat) (root : Z) (ls : list Leaf) (ttl : TtlBatch) (batch : list WriteDataEntry) (F : list Outside) : Prop := {
  bb_tree : stored_tree opts K s D (base_outs old (leaf_entries ls) ++ F) n root ls;
  bb_keys : Forall (fun e => 0 < zlen (key_ e) <= K) (leaf_entries ls);
  bb_batch : fit_batch opts hash K batch;
  bb_deletes : deletes_ok (leaf_entries ls) batch;
  bb_room : batch_room opts n (leaf_entries ls) batch;
  bb_ttl : do_update_ttl_ ttl = true -> ttl_batch_ ttl = []
}.

Section task.
  Context {S : Type} {TP : TaskPages S} (opts : KvOptions) {TL : TaskPagesLaws S opts} (hash : bytes -> Z) (K : Z).
  Context (enable_compression : bool) (compress_raw : bytes -> option bytes) (dict : option (bytes -> option bytes)) (now_ms : Z).
  Context (old : Entry -> bytes) (Ho : batch_options opts K).

Lemma apply_applied s D n root ls ttl batch F fuel : before_batch opts hash K old s D n root ls ttl batch F -> (n + 32 <= fuel)%nat ->
  wp tp_fails (ApplyBatch opts hash enable_compression compress_raw dict now_ms fuel (bare s) (tp_page s root) root ttl batch)
    (applied opts K enable_compression compress_raw dict now_ms old (leaf_entries ls) batch ttl F).
Proof.
  intros [H1 H2 H3 H4 HR H5] Hf. destruct Ho as [O1 O2 O3 O4 O5 O6]. apply (ApplyBatch_spec opts hash O1 O2 K O3 O4) with (D := D) (n := n); auto.
  - intros leaf. exact (redistributes_short opts leaf K O2 O3 O4 O5).
  - destruct (do_update_ttl_ ttl); [rewrite H5 by reflexivity|]; reflexivity.
Qed.

Lemma applied_merged s D n root ls ttl batch F root' b' ttl' : before_batch opts hash K old s D n root ls ttl batch F ->
  applied opts K enable_compression compress_raw dict now_ms old (leaf_entries ls) batch ttl F (root', b', ttl') ->
  exists D' n' ls' ps, stored_tree opts K (bt_store b') D' (outs ps ++ F) n' root' ls' /\
    leaf_entries ls' = map stored_entry (map fst ps) /\ batch_outcome enable_compression compress_raw dict now_ms old (leaf_entries ls) batch (leaf_entries ls') (outs ps ++ F).
Proof using Type.
  intros [H1 H2 [_ H3 _] H4 _ H5] (D' & n' & ls' & Q & ps & evs & Ht & Hm & _). exists D', n', ls', ps. split; [exact Ht|].
  split; [exact (ml_entries _ _ _ _ _ _ _ _ _ _ _ Hm)|]. pose proof (stored_partition opts K _ _ _ _ _ _ H1) as Hp.
  apply (merged_entries _ _ _ _ K old _ _ _ Q ps F); [exact (partition_sorted _ _ _ _ Hp)|exact H3|exact (partition_wf _ _ _ _ Hp)|exact Hm].
Qed.
End task.

(** ** Properties *)

(** C4: Applying a batch to the tree of a partition always succeeds on a page
    layer whose operations do not fail and that has room, and gives a tree again:
    with linked leaves in key order, that holds the entries that survive the merge,
    with their values outside the pages and with no page left over.  Every surviving
    entry of the tree and of the batch is there; the only others are entries that
    expired before and whose key no change touches.  All keys, of the tree and of
    the batch, have at most [K] bytes, where [batch_options] bounds [K] so that an
    index page that is rebalanced fits; with the default options that is 18 bytes,
    and without the bound the statement is false. *)
Theorem apply_batch_merges {S} {TP : TaskPages S} opts {TL : TaskPagesLaws S opts} hash K enable_compression compress_raw dict now_ms old
    s D n root ls ttl batch F fuel :
  batch_options opts K -> before_batch opts hash K old s D n root ls ttl batch F -> (n + 32 <= fuel)%nat ->
  wp tp_fails (ApplyBatch opts hash enable_compression compress_raw dict now_ms fuel (bare s) (tp_page s root) root ttl batch)
    (fun '(root', b', ttl') => exists D' n' ls' ps,
       stored_tree opts K (bt_store b') D' (outs ps ++ F) n' root' ls' /\
       leaf_entries ls' = map stored_entry (map fst ps) /\
       keys_sorted (map key_ (leaf_entries ls')) /\
       batch_outcome enable_compression compress_raw dict now_ms old (leaf_entries ls) batch (leaf_entries ls') (outs ps ++ F)).
Proof.
  intros Ho Hb Hf. eapply wp_mono; [exact (apply_applied opts hash K enable_compression compress_raw dict now_ms old Ho s D n root ls ttl batch F fuel Hb Hf)|].
  intros [[root' b'] ttl'] Hap. destruct (applied_merged opts hash K enable_compression compress_raw dict now_ms old s D n root ls ttl batch F root' b' ttl' Hb Hap)
    as (D' & n' & ls' & ps & Ht & He & Hm). exists D', n', ls', ps. split; [exact Ht|]. split; [exact He|]. split; [|exact Hm].
  exact (partition_sorted _ _ _ _ (stored_partition opts K _ _ _ _ _ _ Ht)).
Qed.

(** What a read returns for the change [w]: a very large value goes to the sink, if
    the caller gave one. *)
Definition value_read (sink : bool) (w : WriteDataEntry) : bytes * option bytes * Z * Z :=
  (match w_large w with Some _ => [] | None => w_val w end,
   match w_large w with Some v => if sink then Some v else None | None => None end,
   ClampTimestampToInt64 (w_ts w), w_expire w).

(** C5: A read after a batch finds what the batch made of its key.  The read of a
    key without a change that is as new as its entry answers as before the batch,
    also when its value is outside the pages.  A key whose change is newer is found
    with exactly the value of the change, inline, compressed, in overflow pages or
    very large, and with its timestamps; it is not found when the change deletes it
    or has expired.  The readers return the outside values that the store holds
    before and after, and the decompressors undo the compressors.  The keys have at
    most [K] bytes as for [apply_batch_merges]; with the default options that is
    18 bytes. *)
Theorem read_after_batch {S} {TP : TaskPages S} opts {TL : TaskPagesLaws S opts} hash K enable_compression compress_raw dict now_ms old
    s D n root ls ttl batch F fuel segment_size decompress_dict decompress_raw :
  batch_options opts K -> before_batch opts hash K old s D n root ls ttl batch F -> (n + 32 <= fuel)%nat ->
  Forall one_kind (leaf_entries ls) -> decompresses compress_raw dict decompress_dict decompress_raw ->
  wp tp_fails (ApplyBatch opts hash enable_compression compress_raw dict now_ms fuel (bare s) (tp_page s root) root ttl batch)
    (fun '(root', b', _) => exists D' os' n' ls', stored_tree opts K (bt_store b') D' os' n' root' ls' /\ Forall one_kind (leaf_entries ls') /\
       forall load load' get_overflow get_overflow' get_large get_large' f f' key (sink meta : bool),
         loads opts s load -> reads_outside (base_outs old (leaf_entries ls) ++ F) get_overflow get_large -> (n <= f)%nat ->
         loads opts (bt_store b') load' -> reads_outside os' get_overflow' get_large' -> (n' <= f')%nat ->
         let resolve get := ResolveValueOrMetadata segment_size get decompress_dict decompress_raw in
         let large get := if sink then Some get else None in
         let before := Read load f (NoError, root) key (resolve get_overflow) (large get_large) meta in
         let after := Read load' f' (NoError, root') key (resolve get_overflow') (large get_large') meta in
         (unaffected now_ms (leaf_entries ls) batch key -> after = before) /\
         (forall w, wins (leaf_entries ls) batch w -> w_key w = key -> w_op w = Upsert -> Expired now_ms (w_expire w) = false ->
            w_large w = None \/ meta = false -> after = Some (NoError, Some (value_read sink w))) /\
         (forall w, wins (leaf_entries ls) batch w -> w_key w = key -> w_op w = Delete \/ Expired now_ms (w_expire w) = true ->
            after = Some (NotFound, None))).
Proof.
  intros Ho Hb Hf H1 Hdc. eapply wp_mono; [exact (apply_applied opts hash K enable_compression compress_raw dict now_ms old Ho s D n root ls ttl batch F fuel Hb Hf)|].
  intros [[root' b'] ttl'] Hap. destruct (applied_merged opts hash K enable_compression compress_raw dict now_ms old s D n root ls ttl batch F root' b' ttl' Hb Hap)
    as (D' & n' & ls' & ps & Ht & He & Hm). exists D', (outs ps ++ F), n', ls'. split; [exact Ht|]. split; [exact (outcome_one_kind _ _ _ _ _ _ _ _ _ Hm H1)|].
  intros load load' gov gov' gl gl' f f' key sink meta Hl Hr Hn Hl' Hr' Hn' resolve large before after.
  pose proof (stored_reads opts K _ _ _ _ _ _ load (bb_tree _ _ _ _ _ _ _ _ _ _ _ _ Hb) Hl) as Hp. pose proof (stored_reads opts K _ _ _ _ _ _ load' Ht Hl') as Hp'.
  pose proof (partition_sorted _ _ _ _ Hp) as Hs. pose proof (fb_sorted _ _ _ _ (bb_batch _ _ _ _ _ _ _ _ _ _ _ _ Hb)) as Hsb. split; [|split].
  - intros Hu. symmetry. apply (Locate_alike load load' n n' root root' ls ls' key f f'); auto.
    + intros e. exact (unaffected_same _ _ _ _ _ _ _ _ _ Hs Hm key e Hu).
    + intros e Hk Hin. rewrite list.Forall_forall in H1.
      destruct (kept_resolves segment_size decompress_dict decompress_raw _ _ gov gl gov' gl' old e meta Hr Hr' (H1 e Hin)) as [Hsame Hlarge].
      { intros o Hoe. split.
        - apply elem_of_app. left. apply (outs_in _ (base_pair old e)); [apply list_elem_of_fmap_2, Hin|exact Hoe].
        - exact (proj2 (mg_kept _ _ _ _ _ _ _ _ _ Hm e (unaffected_kept _ _ _ Hs key e Hu Hk Hin)) o Hoe). }
      cbv beta. unfold large, resolve. rewrite Hsame.
      destruct (ResolveValueOrMetadata _ gov _ _ e meta) as [[err v]|]; [|reflexivity]. cbn [mbind option_bind]. destruct err, sink; try reflexivity.
      destruct (large_value_ e); [rewrite (Hlarge eq_refl)|]; reflexivity.
  - intros w Hw Hk Hop Hx Hmeta. destruct (wins_stored _ _ _ _ _ _ _ _ _ Hm w Hw Hop Hx) as (e & Hin & Hwr).
    pose proof Hwr as (Hke & Hts & Hex & Hv). unfold after, Read. rewrite (Locate_hit load' n' root' ls' key f' _ e Hp' Hn' Hin ltac:(congruence)).
    unfold value_read. rewrite <- Hts, <- Hex. destruct (w_large w) as [v|] eqn:Hwl.
    + destruct Hmeta as [Hmeta| ->]; [discriminate Hmeta|]. destruct Hv as (G1 & G2 & G3). unfold resolve, large, ResolveValueOrMetadata. rewrite G1.
      cbn [negb mbind option_bind]. destruct sink; [|reflexivity]. rewrite (ro_large _ _ _ Hr' _ _ G3). reflexivity.
    + destruct (written_resolves _ _ _ segment_size _ _ Hdc _ gov' gl' w e meta Hr' Hwr Hwl) as [G1 G2]. unfold resolve, large. rewrite G2, G1.
      destruct sink; reflexivity.
  - intros w Hw Hk Hop. apply (Locate_miss load' n' root' ls' key f' _ Hp' Hn'). intros e Hin. rewrite <- Hk. exact (wins_gone _ _ _ _ _ _ _ _ _ Hsb Hm w e Hw Hop Hin).
Qed.

(** ** An example: an inline value, one that is compressed and does not fit a page,
    and a very large one *)
Module BatchExample.

Definition opts : KvOptions := mkKvOptions 4096 16 16 16.
Definition hash (b : bytes) : Z := zlen b.
Definition long : bytes := replicate 5000 9.
Definition batch : list WriteDataEntry :=
  [mkWrite [3] [30; 31] None 7 Upsert 0; mkWrite [5] long None 8 Upsert 0; mkWrite [7] [] (Some [70; 71]) 9 Upsert 0].
Definition no_ttl : TtlBatch := mkTtl false [] 0.
Definition old (_ : Entry) : bytes := [].

(** Compressors that put a byte in front, and their inverse. *)
Definition squeeze (v : bytes) : option bytes := Some (1 :: v).
Definition restore (z : bytes) : option bytes := match z with _ :: v => Some v | [] => None end.

Lemma restores : decompresses squeeze (Some squeeze) restore restore.
Proof. constructor; intros v z [= <-]; reflexivity. Qed.

#[local] Instance example_pages : TaskPages MemStore := mem_task_pages opts.
#[local] Instance example_laws : TaskPagesLaws MemStore opts := mem_task_laws opts ltac:(discriminate) ltac:(discriminate).

Lemma example_options_ok : batch_options opts 18.
Proof. constructor; try (vm_compute; intuition discriminate). Qed.

Lemma small_change w : zlen (w_key w) = 1 -> (0 <=? w_ts w) && (w_ts w <? 2 ^ 64) = true -> w_expire w = 0 ->
  change_ok (H := BatchPageTask opts hash) opts [] w.
Proof.
  intros Hk Hts Hx. apply andb_true_iff in Hts as [H1 H2]. apply Z.leb_le in H1. apply Z.ltb_lt in H2.
  assert (Hfit : key_fits opts (w_key w)) by (unfold key_fits; rewrite Hk; discriminate). constructor.
  - split; assumption.
  - rewrite Hx. split; [discriminate|reflexivity].
  - lia.
  - apply key_nil_le.
  - intros n Hn. exact (key_fits_ptrs _ _ _ _ _ Hfit Hn).
  - intros t c t'. cbn. destruct (w_large w); [|discriminate]. cbn. intros [= <- _]. apply (key_fits_ptrs _ _ _ _ _ Hfit).
    change (zlen [lt_next (mem_outside (bt_store t))]) with 1. cbn. lia.
Qed.

Lemma example_before : before_batch opts hash 18 old empty_mem ∅ O MaxPageId [] no_ttl batch [].
Proof.
  constructor.
  - constructor; [reflexivity|]. split; [reflexivity|]. split; [reflexivity|]. split; constructor.
  - constructor.
  - constructor.
    + constructor; [|constructor; [|constructor; [|constructor]]]; apply small_change; reflexivity.
    + do 3 (constructor; [|repeat (constructor; [reflexivity|]); constructor]). constructor.
    + constructor; [|constructor; [|constructor; [|constructor]]]; discriminate.
  - intros e w He. inversion He.
  - discriminate.
  - discriminate.
Qed.

Definition run : option (Z * Batch (S := MemStore) * TtlBatch) :=
  ApplyBatch opts hash true squeeze (Some squeeze) 1000 32 (bare empty_mem) (tp_page empty_mem MaxPageId) MaxPageId no_ttl batch.

Lemma batch_in w : w ∈ batch <->
  w = mkWrite [3] [30; 31] None 7 Upsert 0 \/ w = mkWrite [5] long None 8 Upsert 0 \/ w = mkWrite [7] [] (Some [70; 71]) 9 Upsert 0.
Proof. unfold batch. rewrite !elem_of_cons, elem_of_nil. intuition. Qed.

Lemma batch_survives w : w ∈ batch -> survives 1000 [] batch (New w).
Proof.
  intros Hw. split; [exact Hw|]. apply batch_in in Hw. split; [|split; [|intros e He; inversion He]]; destruct Hw as [->|[->| ->]]; reflexivity.
Qed.

Lemma apply_batch_merges_witness : exists root' b' ttl' D' n' ls' os, run = Some (root', b', ttl') /\
  stored_tree opts 18 (bt_store b') D' os n' root' ls' /\
  Forall (fun w => exists e, e ∈ leaf_entries ls' /\ written true squeeze (Some squeeze) os w e) batch.
Proof.
  pose proof (apply_batch_merges opts hash 18 true squeeze (Some squeeze) 1000 old empty_mem ∅ O MaxPageId [] no_ttl batch [] 32
    example_options_ok example_before (le_n _)) as H. fold run in H. destruct run as [[[root' b'] ttl']|]; [|destruct H].
  destruct H as (D' & n' & ls' & ps & Ht & He & Hs & Hm). exists root', b', ttl', D', n', ls', (outs ps ++ []). split; [reflexivity|]. split; [exact Ht|].
  apply list.Forall_forall. intros w Hw. exact (mg_new _ _ _ _ _ _ _ _ _ Hm w (batch_survives w Hw)).
Defined.

(** A reader of the store: its pages, and its outside values by their reference. *)
Definition load (s : MemStore) (id : Z) : KvError * bytes := match mem_pages s !! id with Some p => (NoError, p) | None => (ResourceMissing, []) end.

Lemma load_loads s : loads opts s (load s).
Proof. intros id page Hp. unfold load. cbn in Hp. rewrite Hp. reflexivity. Qed.

Definition outside_of (s : MemStore) (ref : bytes) : option Outside :=
  List.find (fun o => bool_decide (out_ref o = ref)) (lt_live (mem_outside s)).

Definition get_overflow (s : MemStore) (ptrs : bytes) : option bytes :=
  match outside_of s ptrs with Some (OutOverflow _ v) => Some v | _ => None end.

Definition get_large (s : MemStore) (content : bytes) : option (KvError * bytes) :=
  match outside_of s content with Some (OutLarge _ v) => Some (NoError, v) | _ => None end.

Lemma outside_reads s D os : mem_inv s D os -> reads_outside os (get_overflow s) (get_large s).
Proof.
  intros [_ (Hp & Hnd & _)].
  assert (Hof : forall o, o ∈ os -> outside_of s (out_ref o) = Some o).
  { intros o Ho. rewrite <- Hp in Ho. clear Hp. unfold outside_of. revert Hnd Ho. induction (lt_live (mem_outside s)) as [|x l IH]; intros Hnd Ho; [inversion Ho|].
    cbn [map] in Hnd. apply list.NoDup_cons in Hnd as [Hx Hnd]. cbn [List.find]. apply elem_of_cons in Ho as [->|Ho].
    - rewrite bool_decide_true by reflexivity. reflexivity.
    - rewrite bool_decide_false; [exact (IH Hnd Ho)|]. intros He. apply Hx. rewrite He. apply list_elem_of_fmap_2, Ho. }
  constructor; intros r v Ho; unfold get_overflow, get_large; rewrite (Hof _ Ho : outside_of s r = _); reflexivity.
Qed.

(** Every change is read back, and a key without one is not found. *)
Lemma read_after_batch_witness : exists root' b' ttl' f, run = Some (root', b', ttl') /\
  let s' := bt_store b' in
  let read key := Read (load s') f (NoError, root') key (ResolveValueOrMetadata 64 (get_overflow s') restore restore) (Some (get_large s')) false in
  read [3] = Some (NoError, Some ([30; 31], None, 7, 0)) /\ read [5] = Some (NoError, Some (long, None, 8, 0)) /\
  read [7] = Some (NoError, Some ([], Some [70; 71], 9, 0)) /\ read [4] = Some (NotFound, None).
Proof.
  pose proof (read_after_batch opts hash 18 true squeeze (Some squeeze) 1000 old empty_mem ∅ O MaxPageId [] no_ttl batch [] 32 64 restore restore
    example_options_ok example_before (le_n _) ltac:(constructor) restores) as H. fold run in H. destruct run as [[[root' b'] ttl']|]; [|destruct H].
  destruct H as (D' & os' & n' & ls' & Ht & _ & H). exists root', b', ttl', n'. split; [reflexivity|]. intros s' read.
  assert (Hr : forall key w, w ∈ batch -> w_key w = key -> read key = Some (NoError, Some (value_read true w))).
  { intros key w Hw Hk. pose proof (stored_tree_inv opts 18 _ _ _ _ _ _ Ht) as Hinv.
    destruct (H (load empty_mem) (load s') (get_overflow empty_mem) (get_overflow s') (get_large empty_mem) (get_large s') O n' key true false
      (load_loads _) ltac:(constructor; intros r v Ho; inversion Ho) (le_n _) (load_loads _) (outside_reads _ _ _ Hinv) (le_n _)) as (_ & H1 & _).
    apply batch_in in Hw as Hc. apply (H1 w); [split; [exact Hw|intros e He; inversion He]|exact Hk| | |right; reflexivity];
      destruct Hc as [->|[->| ->]]; reflexivity. }
  split; [|split; [|split]].
  - refine (Hr [3] (mkWrite [3] [30; 31] None 7 Upsert 0) _ eq_refl). apply batch_in; auto.
  - refine (Hr [5] (mkWrite [5] long None 8 Upsert 0) _ eq_refl). apply batch_in; auto.
  - refine (Hr [7] (mkWrite [7] [] (Some [70; 71]) 9 Upsert 0) _ eq_refl). apply batch_in; auto.
  - pose proof (stored_tree_inv opts 18 _ _ _ _ _ _ Ht) as Hinv.
    destruct (H (load empty_mem) (load s') (get_overflow empty_mem) (get_overflow s') (get_large empty_mem) (get_large s') O n' [4] true false
      (load_loads _) ltac:(constructor; intros r v Ho; inversion Ho) (le_n _) (load_loads _) (outside_reads _ _ _ Hinv) (le_n _)) as (H1 & _ & _).
    unfold read. rewrite H1; [reflexivity|]. split; [|intros e He; inversion He].
    intros w Hw Hk. apply batch_in in Hw. destruct Hw as [->|[->| ->]]; discriminate Hk.
Defined.
End BatchExample.
