(* ===== verification/BatchLoss.v ===== *)
(** * Index pages that lose a pointer

    With longer keys than those of BatchRead, rebalancing two index pages can lose
    the last pointers: the moved pointers take more space behind other restart
    points, and the result of [IndexAdd] is not looked at. *)

From stdpp Require Import gmap sorting.
From S2P Require Import Prelude Coding Comparator PageFormat DataPage Regions DataPageIter RegionCopy IndexPage IndexPageIter.
From S2P Require Import PageIo Overflow LargeValue FileNames Branch Manifest ApplyPage ApplySpec Tree ReadPath BatchTask IndexStack ApplyBatch.
From S2P Require Import TaskSpec RebuildSpec RoundSpec BatchSpec MemStore.

Module LossExample.

(** The default options. *)
Definition opts : KvOptions := mkKvOptions 4096 16 16 16.
Definition hash (b : bytes) : Z := zlen b.
Definition no_raw (_ : bytes) : option bytes := None.
Definition no_ttl : TtlBatch := mkTtl false [] 0.

#[local] Instance loss_pages : TaskPages MemStore := mem_task_pages opts.

(** Groups of 16 keys of 430 bytes that differ in the last byte, with one entry
    on each leaf. *)
Definition long_write (i : nat) : WriteDataEntry :=
  mkWrite (Z.of_nat (i / 16) :: replicate 428 7 ++ [Z.of_nat (i mod 16)]) (replicate 1900 1) None 5 Upsert 0.

Definition batch : list WriteDataEntry := map long_write (seq 0 147).

Definition load (s : MemStore) (id : Z) : KvError * bytes := match mem_pages s !! id with Some p => (NoError, p) | None => (ResourceMissing, []) end.

Definition found (s : MemStore) (root : Z) (w : WriteDataEntry) : bool :=
  match Read (load s) 40 (NoError, root) (w_key w) (fun e _ => Some (NoError, value_ e)) (None (A := bytes -> option (KvError * unit))) false with
  | Some (NoError, Some (v, _, _, _)) => bool_decide (v = w_val w)
  | _ => false
  end.

Fixpoint ascending (keys : list bytes) : bool :=
  match keys with
  | [] => true
  | k :: keys' => match keys' with [] => true | k' :: _ => (Compare k k' <? 0) && ascending keys' end
  end.

Lemma ascending_sorted keys : ascending keys = true -> keys_sorted keys.
Proof.
  intros Ha. apply Sorted_StronglySorted; [intros x y z; apply key_lt_trans|]. induction keys as [|k [|k' keys] IH]; [constructor|constructor; constructor|].
  cbn [ascending] in Ha. apply andb_true_iff in Ha as [Hk Ha]. constructor; [exact (IH Ha)|]. constructor. apply Z.ltb_lt. exact Hk.
Qed.

Lemma long_fits : fit_batch opts hash 430 batch.
Proof.
  assert (Hlen : forall i, zlen (w_key (long_write i)) = 430).
  { intros i. unfold long_write. cbn [w_key]. rewrite zlen_cons, zlen_app. unfold zlen. rewrite length_replicate. reflexivity. }
  constructor.
  - apply List.Forall_map, List.Forall_forall. intros i _. constructor.
    + split; [discriminate|reflexivity].
    + split; [discriminate|reflexivity].
    + rewrite Hlen. reflexivity.
    + apply key_nil_le.
    + intros n Hn. apply key_fits_ptrs; [|exact Hn]. unfold key_fits. rewrite Hlen. discriminate.
    + intros t c t'. cbn. discriminate.
  - apply ascending_sorted. vm_compute. reflexivity.
  - apply List.Forall_map, List.Forall_forall. intros i _. rewrite Hlen. discriminate.
Qed.

(** C38: With the default options, a batch of keys that fit their pages can lose a
    key: [Redistribute] moves pointers to the next index page without looking
    whether they still fit, and drops the last one with the leaf below it. *)
Theorem rebalance_loses_key :
  valid_options opts /\ valid_index_options opts /\ index_keys_fit opts 430 /\ fit_batch opts hash 430 batch /\
  exists root b ttl, ApplyBatch opts hash false no_raw None 1000 32 (bare empty_mem) None MaxPageId no_ttl batch = Some (root, b, ttl) /\
    map (found (bt_store b) root) batch = replicate 146 true ++ [false].
Proof.
  split; [split; vm_compute; intuition discriminate|]. split; [split; vm_compute; intuition discriminate|].
  split; [discriminate|]. split; [exact long_fits|].
  assert (Hrun : match ApplyBatch opts hash false no_raw None 1000 32 (bare empty_mem) None MaxPageId no_ttl batch with
    | Some (root, b, _) => map (found (bt_store b) root) batch = replicate 146 true ++ [false] | None => False end) by (vm_compute; reflexivity).
  destruct (ApplyBatch _ _ _ _ _ _ _ _ _ _ _ _) as [[[root b] ttl]|]; [|destruct Hrun]. exists root, b, ttl. auto.
Qed.
End LossExample.
